(* ===== verification/_CoqProject ===== *)
-Q . S2P
Prelude.v
BTree.v
Text.v
Values.v
Literals.v
Catalog.v
Protocol.v
Wire.v
WalSource.v
Shared.v
UserContext.v
SqlLimits.v
Floats.v
Datums.v
Exprs.v
SqlAst.v
Like.v
Eval.v
EvalFacts.v
Predicates.v
Consolidation.v
Operators.v
Relational.v
CanonicalKey.v
Spill.v
Watermarks.v
Registry.v
Channel.v
Cursor.v
Pairing.v
Permissions.v
PermissionFacts.v
Mir.v
RelationalFacts.v
CompileMir.v
Lower.v
LowerFacts.v
SqlParser.v
Normalize.v
Prepared.v
BindFacts.v
PreparedFacts.v
NormalizeFacts.v
CompileFacts.v
Install.v
InstallFacts.v
QueryFacts.v
Congruence.v
Rewriter.v
Enforcement.v
Router.v
RouterInv.v
RouterSpec.v
ProtoWire.v
Transport.v
Client.v
EndToEnd.v
Reconcile.v
Replica.v
SqlAdapter.v
Materialize.v
Upquery.v
Security.v
Auth.v
Host.v
Service.v
ServiceFacts.v
Connections.v
Postgres.v
PostgresFacts.v
PostgresPump.v
Walsender.v
Replication.v
ReplicationFacts.v
Witnesses.v
QueryWitnesses.v
ServiceWitnesses.v
PostgresWitnesses.v
FrontendWitnesses.v
Findings.v
