(* ===== verification/Prelude.v ===== *)
(** * Palimpsest: a verification development of the subscription engine

    Palimpsest streams the result of SQL queries to clients while the underlying
    Postgres tables change. The program has a pipeline, a control plane and a
    client:

    - a query is SQL text, or the name of a registered template with parameters;
      the front end ([crates/palimpsest-sql]) bounds, validates and lowers it to a
      graph of operators;
    - the replication stream is decoded ([crates/palimpsest-wal]) into row
      events, which become weighted updates of a transaction
      ([crates/palimpsest-dataflow/src/palimpsest/wal.rs]) and feed a dataflow
      that maintains each query;
    - a subscription is admitted by the router
      ([crates/palimpsest-server/src/router.rs]): permission rules
      ([crates/palimpsest-permissions]) are spliced into the query graph
      ([crates/palimpsest-sql/src/mir.rs]), a snapshot seeds the stream, a
      subgraph is shared between subscriptions with the same canonical key, and
      diffs are paired into row changes and pushed through a bounded channel;
      acknowledgements move the watermarks that bound compaction;
    - events cross the network as protobuf messages
      ([crates/palimpsest-proto], [crates/palimpsest-server/src/grpc.rs]), and the
      client ([crates/palimpsest-client]) folds them into a row cache, reconnects
      with an exponential backoff, and optionally mirrors tables in a local
      database, where optimistic mutations are reconciled with what the server
      says;
    - in production the pipeline starts at a Postgres database
      ([crates/palimpsest-postgres]): a replication session assembles transactions
      from the connection's bytes, the runtime mirrors the tables and journals
      their diffs, snapshots come from the mirror and cursors from the journal.

    ** Files, and the sources they model

    - [Prelude] (this file): the outcome type [exec] (a value, an error or a
      panic), its bind [let?], machine-width integers ([uint], [sint],
      saturating arithmetic), hint databases, shared lemmas. [BTree]: [BTreeMap]
      as a strictly sorted association list, [Ord] as a class, the stable sort of
      slices. [Text]: the [str] operations the sources call, on UTF-8 bytes.
    - [Values] (wal/datum.rs): [Datum], [decode_binary], [decode_text], every
      literal parser. [Literals]: their theorems. [Catalog]
      (wal/catalog.rs, types.rs), [Protocol] (wal/protocol.rs): the pgoutput
      reader; [Wire]: a reference encoder and the decoder's correctness.
      [WalSource] (dataflow wal.rs): pending rows and transactions. [Spill]
      (wal spill.rs): segments that a full channel refuses.
    - [Shared] (dataflow shared.rs), [Watermarks] (time.rs, compaction.rs, server
      ack.rs and resume.rs), [Registry] (server subscription.rs, registry.rs),
      [Channel] (diff.rs, backpressure.rs, error.rs), [Cursor] (cursor.rs),
      [Pairing] (the pairing functions of router.rs).
    - [UserContext] (permissions/user.rs), [CanonicalKey] (its key and the
      router's [canonical_subgraph_key]), [Permissions] (rule.rs, compile.rs,
      version.rs, sql catalog.rs) and [PermissionFacts], [Mir] (sql mir.rs),
      [Rewriter] (permissions/rewriter.rs and server permissions.rs), [Enforcement]
      (the rules followed through the compiled plan).
    - [Router] (router.rs, snapshot.rs): every public operation on the state
      behind the router's mutex. [RouterInv]: the whole system as a step relation
      and its invariant. [RouterSpec]: each operation, branch by branch.
    - [ProtoWire] (proto wire.rs, sync.proto and server codec.rs): the messages and
      the encoding of rows and diffs. [Transport] (server grpc.rs): the
      conversions between router events and messages. [Client] (client cache.rs,
      connection.rs, reconnect.rs): the handlers of the connection task, the
      cache of a subscription and the backoff. [EndToEnd]: the router's pump, the
      conversion and the client's handlers composed.
    - [Reconcile] (client local/reconcile.rs): the pending-mutation ledger and
      the overlay of a table. [Replica] (client local/replica.rs): mutations,
      writer answers and the event pump, over the trait [LocalDatabase], with the
      in-memory database as an instance. [SqlAdapter] (client local/sql.rs): the
      statements that mirror a table in a SQL database, and the adapter that runs
      them in transactions.
    - [Materialize] (dataflow materialization.rs, toast.rs): partially materialised
      keys and TOAST lookups. [Upquery] (upquery.rs): which base tables a missing
      key is fetched from, and the statement that fetches it.
    - [Floats], [Datums]: IEEE 754 values by bit pattern, the derived order of
      datums. [Exprs], [Like], [Eval] (dataflow eval.rs): expressions, schemas,
      comparison, arithmetic, casts, pattern matching and the compilation of an
      expression into a closure over rows. [EvalFacts], [Predicates]: types,
      totality, SQL's comparison of values as a reference, and three-valued logic.
    - [Consolidation] (dataflow consolidation.rs, difference.rs), [Operators]
      (collection.rs, operators/): differences, in-place consolidation and the
      differential operators. [Relational] (relational.rs): the relational
      operators composed from them; [RelationalFacts]: what they compute.
    - [CompileMir] (the compiler of compile_mir.rs): schemas, provenance and recipe
      of every node of a query graph; [CompileFacts]: the invariant of its state.
      [Install] (the installers of compile_mir.rs): what an installed plan
      computes. [InstallFacts], [QueryFacts]: that a compiled plan
      runs, joins, set operations, aggregates and sorting.
    - [SqlLimits] (sql limits.rs, error.rs): the bounds on a query's text and graph,
      and the scan for its nesting. [SqlAst]: the part of [sqlparser]'s trees the
      front end matches on, visitors and depth. [Lower] (alias.rs, lower.rs): alias
      resolution and lowering to the query graph; [LowerFacts]: the plan a lowered
      graph lays out, the tables a query reads, the text of a predicate.
      [SqlParser] (parser.rs): parsing under the limits, validation, the entry
      points, and what an accepted query is. [Normalize] (normalize.rs): binding a
      query to a catalog; [NormalizeFacts]: what a query it accepts may refer to.
      [Prepared] (prepared.rs): sqlc sources,
      parameters, registration and binding; [BindFacts]: paths that avoid anti-joins,
      binding as a map over the tree; [PreparedFacts]: what the registry promises.
    - [Host] (dataflow dataflow_host.rs): the snapshot run, the worker of a plan
      and the host that shares plans between subscribers, and its view.
      [Security] (server security.rs): the limiters, with their theorems. [Auth]
      (server auth.rs): tokens, key sets and the claims of a user.
      [Service] (server grpc.rs, wal_runtime.rs, named.rs): the handlers of a
      connection and the pump of a shared plan, over router, host and limiter;
      [ServiceFacts]: a subscription from its snapshot to the client's cache;
      [Connections]: the tasks of a connection as a step relation.
    - [Congruence]: that an installed plan reads its tables up to multiplicity, that
      the operators SQL allows in a recursion are monotone, and the least fixpoint.
    - [Postgres] (postgres runtime.rs, introspect.rs): the mirror, the journal, its
      cursors and the operations that write them; [PostgresFacts]: histories of the
      runtime, the journal as a log, snapshots and cursors; [PostgresPump]: the
      pump of the service over the runtime. [Walsender] (stream.rs): frames, events
      and status updates of the replication connection, and that the
      reads do not matter. [Replication] (replication.rs, wal source.rs): the
      fence, the assembly of transactions, the session and the reconnecting task;
      [ReplicationFacts]: what a session applies and reports.
    - [Witnesses], [QueryWitnesses], [ServiceWitnesses],
      [PostgresWitnesses], [FrontendWitnesses]: concrete instances, and the theorems
      applied to them.
      [Findings]: inputs on which the code differs from its documentation.

    The state behind the mutex is the record [RouterInner], field by field.
    [subscribe] releases the lock between reading the rules and registering, so it
    is [prepare] then [commit], and [RouterInv.sys_step] interleaves the two with
    every other operation, with the allocator of subscription ids, and with the
    receiving end of the channels.

    ** What the theorems show

    - Decoding: the pgoutput reader inverts a reference encoder on every message
      whose layout it knows ([Wire.layout_known]: [BeginPrepare] and
      [RollbackPrepared] it misreads, see [Findings.two_phase_layout])
      and rejects the same bytes followed by anything; binary values, UUIDs and
      hex byte strings round trip; civil dates follow the Gregorian calendar.
    - Transactions: when statements take one database to another and replication
      reports full images, what the transaction emits takes the copies of every
      row before to those after; an abort discards the pending rows.
    - Authentication: whoever is let in presented a token that verified under a key
      of the configured source, with an algorithm that key may be used with, and acts
      with exactly the mapped claims; an issuer that answers is asked at most once in
      thirty seconds.
    - Permissions: after a rewrite, every reader of a guarded table reads it
      through the filters its rules call for; a query that cannot be filtered is
      refused; rows the rules hide have no influence on what a compiled query
      yields; templates are substituted exactly; accepted rule sets are
      consistent; versions change exactly when rules do.
    - The front end: it always answers, and an accepted query's graph is a tree within
      the node bound whose base tables are the relations the query reads; the scan
      for nesting is exact on well-formed texts. The registry: registering a
      source is all or nothing; binding uses every key and every parameter once and
      puts typed literals for placeholders; the tables recorded for a query are
      those every bound graph reads, and a table asserted to be behind anti-joins
      only never reaches the output of one. Binding to a catalog: every SELECT that is
      accepted is closed and typed in its scope, as far as its expressions are of the
      forms validation walks, and a query registered against a
      catalog reads only tables of that catalog.
    - Queries: SQL's comparison of values is defined in [EvalFacts.sql_compare]
      by what they stand for, independently of the evaluator, and the theorems
      name the kinds of values on which the code agrees with it. There, a compiled
      predicate accepts the rows for which the expression is true in three-valued
      logic, joins match equal keys, MIN and MAX bound the values of a group and
      sorting lists the rows in order; the inferred type of an expression is the type
      of its values, the two timestamp types told apart, [LIKE] accepts the language
      of its pattern; consolidation computes the sum of each key in place; set
      operations compute the multiplicities SQL prescribes; a plan that compiles
      runs without a panic and its rows have the advertised width; a recursive
      query over monotone operators and finitely many rows computes the least
      fixpoint of its step, whatever the bound on its rounds beyond their number.
    - Sharing: the canonical key of two subscriptions is equal exactly when the
      query and the observable user context are; the registry of subgraphs
      refines a map from keys to counts.
    - Delivery: pairing accounts for every weighted diff; batching groups by LSN;
      the channel is a bounded FIFO; draining a cursor that can peek
      ([RouterSpec.PeekingCursor], with the in-memory and the journal cursor as
      instances) delivers one event per LSN in the cursor's order. A saturated
      channel gets the forced resync exactly when the receiver makes room in between.
    - The router: its indexes agree in every reachable state of any interleaving;
      subscribe, ack, pump, disconnect and rule changes have the stated outcomes
      on every branch; compaction never passes an unacknowledged LSN.
    - The host: given the contract of the dataflow's step, a plan's cached view, and
      the view of a subscriber who folds the deltas it is sent, are the query's
      output on the current tables.
    - The service: a client that subscribes to a compiled query and receives what
      its pump queues holds exactly the rows the query yields on the snapshot plus
      the transactions; whatever the interleaving of a connection's tasks, its
      slots and labels are accounted for; the limiters count exactly.
    - The Postgres runtime: a session applies every transaction its snapshot has
      not seen exactly once and reports no position beyond what it applied,
      however the bytes arrive, for transaction ids in the window of the fence; the
      fence decides visibility from 32 bits; a
      snapshot and its cursor account for the mirror, up to retractions of rows it
      does not have, which are counted; and from there through the
      pump to the client's cache, which holds the query's rows on the mirror when
      every retraction is of a mirrored row.
    - End to end: a new subscriber who receives the acceptance, the snapshot and the
      event of every transaction, paired and encoded by the server in commit
      order, holds exactly the rows of the final result; what the server sends
      decodes to what it meant; the row and diff codecs round trip.
    - The client: after any sequence of messages and commands the delivered LSNs
      of a subscription increase and cached rows sit under their own keys; the
      backoff follows its schedule within its cap.
    - The local replica: in any history of mutations, writer answers and mirror
      events, a table in sync shows the server's rows with the pending mutations
      replayed on top, and the server's rows when nothing is pending. Over a SQL
      engine that keeps its promises, the adapter's batches are applied as a whole or
      not at all.
    - Upqueries: each key of a tracker follows its own automaton, so one upquery is
      issued per fetch; the planner finds exactly the tables that feed the root;
      rendered keys read back; TOAST lookups follow the history of recorded rows.

    ** Modelling choices

    - Integers are [Z] with the width written out at each operation that can
      leave it (the sequence numbers of the journal, which count the diffs ever
      pushed, are not kept at their width); arithmetic wraps as in a release build, saturates where the
      source says [saturating_*], and fails where it says [checked_*]. LSNs and
      ids are [u64], counters [usize] of 64 bits.
    - [HashMap] is [gmap] where its order cannot be observed; [BTreeMap] is a
      sorted list. Strings are UTF-8 byte lists where their bytes matter and
      [string] where they are only compared.
    - Loops that are not structural carry fuel, and the fuel is never the reason a
      loop stops: [pump_cursor] and [batch_by_lsn] use one more than the number of
      diffs the cursor can still surface, each round consumes at least one; the
      byte scanners use the length of their input, and [Reconcile.settle] the
      number of pending mutations, one of which each round removes; the walk of
      [Upquery] uses the number of edges, one of which pays for each push; waiting
      for an answer on the replication connection uses the bytes in sight, five of
      which each message takes; validation and lowering use the depth at which queries
      nest, which every subquery they reach is below, and the walk of
      [anti_join_protected] one more than the number of nodes, which it visits in
      the order of the plan. [LIKE]
      uses the product of the lengths of subject and pattern, and always answers.
      Compiling and installing a query graph use one more than its number of
      nodes: [toposort] orders the nodes, every demand goes down in that order,
      and [compiled_plan_runs] includes that the fuel suffices. The rounds of a
      recursive query are a parameter; a recursion that does not settle runs
      forever in the source and reports [Diverges] here.
    - A collection of the dataflow is the list of its updates accumulated at one
      time, compared by the total weight of each record; the incremental operators
      are modelled by what they make of accumulated inputs, and the per-key
      update rules of [count], [threshold] and [reduce] by lemmas that they
      maintain it. Multiplicities are [isize] in the source; they are unbounded
      here except in [Consolidation], which covers wrapping ones
      ([isize_Difference], [isize_wraps]), so theorems on collections speak of
      fewer than 2^63 copies of a row. Accordingly a
      worker of the host is its accumulated inputs, the time of its sessions and
      the output it has emitted; a step emits the consolidated difference, which is the
      contract of the incremental operators and not proved of them.
    - [pump_event_between] has what the receiver does between the failed send and the
      forced resync as an argument; the callers use it with nothing in between.
      A panic of compilation goes through [compile_for]: Rust's [ok] does not
      catch it.
    - Code outside the repository is a parameter: tokio's channel is the class
      [Channel.Mpsc] and petgraph's graph the class [Mir.PetGraph], each with its
      documented laws and a list implementation that satisfies them; JSON and
      float rendering are [UserContext.Rendering]; decimal-to-float conversion is
      an argument. [sqlparser]'s tokenizer, grammar and rendering of trees are the class
      [SqlAst.SqlSyntax]; the router, the service and the Postgres runtime take the
      front end and the registry as arguments, with the error types of [SqlLimits]
      and [Prepared]. Tokens, keys and claims are the class [Auth.JwtRuntime]; the answer
      of an issuer, and what other requests do to a key set while one waits, are inputs.
      The disk of [Spill] is a map, and what its calls answer are inputs. The router's
      definitions take the evaluation
      of a compiled plan ([snapshot_run]) as an argument, which [Service]
      instantiates with [Host.snapshot_run]. [Cursor.TraceCursor] is the trait of that name. The row codec's
      serialiser is the class [ProtoWire.Bincode], and the replica's storage the
      class [Replica.LocalDatabase], and the SQL engine below it the class
      [SqlAdapter.SqlEngine], each with an instance. The parser of
      expressions, JSON documents, Unicode tables and the decimal form of floats
      are the class [Exprs.EvalRuntime]; [petgraph]'s toposort is an argument of
      [compile_mir], with its documented promise [InstallFacts.toposort_sound]. The
      order in which a [HashMap] yields the rows of a reconciliation is an argument,
      assumed to be a permutation of its entries.
    - A [select!] is an input that says which branch completed; a read of a socket
      is an element of a list, and the call is pending when the list is used up.
      Operations of the Postgres runtime run one after the other; the two parts of
      those that release their locks before they store the clock are definitions
      of their own, and [Findings] shows what happens between them.

    ** Not modelled

    Metrics, logs and serialisation derives; network transports and file input
    (the gRPC and WebSocket streams, TOML); connecting to Postgres, TLS,
    its authentication, the management statements and the catalog queries;
    arrangements, traces and the progress tracking of the dataflow engine; task
    spawning and timers of the service; the canonical plan text of the SQL crate, which
    only the command line and tests call; the
    vendored replication client; test harnesses and the command line.

    ** Order of the files

    The pipeline was modelled first (decoding, transactions, pairing, router), then
    the evaluation of queries, the client, the service and the Postgres runtime, and
    last the SQL front end, authentication, spilling and the SQL adapter. What could follow: canonical.rs and the
    lattice laws of the differential core. *)

From Stdlib Require Export ZArith Lia.
From Stdlib Require Export Strings.Byte.
From Stdlib Require Export List Permutation.
From stdpp Require Export base option list gmap strings numbers pretty.

(** ** Notation scope of the development *)

Declare Scope palimpsest_scope.
Delimit Scope palimpsest_scope with palimpsest.
Open Scope palimpsest_scope.
Open Scope Z_scope.

(** ** Outcomes of Rust code

    A fallible Rust function returns [Result<A, E>]; a function that may also
    hit [expect], an out-of-range slice or a debug assertion can panic. The
    three outcomes are kept apart, so that "returns an error" and "aborts the
    task" are different facts. *)

Inductive exec (E A : Type) : Type :=
| Ok (a : A)
| Err (e : E)
| Panic.
Arguments Ok {E A} a.
Arguments Err {E A} e.
Arguments Panic {E A}.

Definition exec_bind {E A B : Type} (m : exec E A) (k : A -> exec E B) : exec E B :=
  match m with
  | Ok a => k a
  | Err e => Err e
  | Panic => Panic
  end.

Definition exec_map {E A B : Type} (f : A -> B) (m : exec E A) : exec E B :=
  exec_bind m (fun a => Ok (f a)).

Definition exec_map_err {E F A : Type} (f : E -> F) (m : exec E A) : exec F A :=
  match m with
  | Ok a => Ok a
  | Err e => Err (f e)
  | Panic => Panic
  end.

(** [ok_or] of the standard library. *)
Definition ok_or {E A : Type} (o : option A) (e : E) : exec E A :=
  match o with
  | Some a => Ok a
  | None => Err e
  end.

Notation "'let?' x ':=' m 'in' k" := (exec_bind m (fun x => k))
  (at level 10, x pattern, m at level 100, k at level 200)
  : palimpsest_scope.

(** [collect::<Result<Vec<_>, _>>()]: stop at the first failure. *)
Fixpoint exec_mapM {E A B : Type} (f : A -> exec E B) (l : list A) : exec E (list B) :=
  match l with
  | [] => Ok []
  | a :: l' =>
      let? b := f a in
      let? bs := exec_mapM f l' in
      Ok (b :: bs)
  end.

Lemma exec_bind_ok {E A B} (m : exec E A) (k : A -> exec E B) b :
  exec_bind m k = Ok b <-> exists a, m = Ok a /\ k a = Ok b.
Proof.
  destruct m; simpl; split; try discriminate; [eauto | | |]; intros (? & Hm & ?); congruence.
Qed.

Lemma exec_mapM_ok {E A B} (f : A -> exec E B) l bs :
  exec_mapM f l = Ok bs <-> Forall2 (fun a b => f a = Ok b) l bs.
Proof.
  revert bs; induction l as [|a l IH]; intros bs; simpl.
  - split; [intros [= <-]; constructor | inversion 1; done].
  - rewrite exec_bind_ok; split.
    + intros (b & Hb & H). apply exec_bind_ok in H as (bs' & H & [= <-]).
      constructor; [done | by apply IH].
    + inversion 1 as [|? b ? bs' Hb Hl]; subst.
      exists b; split; [done|]. apply IH in Hl. by rewrite Hl.
Qed.

(** ** [iter().filter_map(f)] *)

Fixpoint filter_map {A B} (f : A -> option B) (l : list A) : list B :=
  match l with
  | [] => []
  | x :: l' => match f x with Some y => y :: filter_map f l' | None => filter_map f l' end
  end.

Lemma filter_map_app {A B} (f : A -> option B) a b : filter_map f (a ++ b) = filter_map f a ++ filter_map f b.
Proof. induction a as [|x a IH]; simpl; [done|]. destruct (f x); simpl; by rewrite IH. Qed.

Lemma filter_map_elem {A B} (f : A -> option B) l y : y ∈ filter_map f l <-> exists x, x ∈ l /\ f x = Some y.
Proof.
  induction l as [|x l IH]; simpl.
  - split; [by intros ?%elem_of_nil | by intros (? & ?%elem_of_nil & _)].
  - destruct (f x) eqn:E.
    + rewrite elem_of_cons, IH. split.
      * intros [->|(z & Hz & Hy)]; [exists x; split; [by constructor | done] | exists z; split; [by constructor | done]].
      * intros (z & [->|Hz]%elem_of_cons & Hy); [left; congruence | right; eauto].
    + rewrite IH. split; intros (z & Hz & Hy); exists z; (split; [|done]); [by constructor|].
      apply elem_of_cons in Hz as [->|]; [congruence | done].
Qed.

Lemma filter_map_ext {A B} (f g : A -> option B) l :
  (forall x, x ∈ l -> f x = g x) -> filter_map f l = filter_map g l.
Proof.
  induction l as [|x l IH]; intros Hfg; simpl; [done|]. rewrite (Hfg x) by left.
  rewrite IH; [done|]. intros y Hy. apply Hfg. by right.
Qed.

Lemma elem_of_filter_map {A B} (f : A -> option B) y l :
  y ∈ filter_map f l <-> exists x, x ∈ l /\ f x = Some y.
Proof.
  induction l as [|x l IH]; simpl.
  - split; [by intros ?%elem_of_nil | intros (x & Hx & _); by apply elem_of_nil in Hx].
  - setoid_rewrite elem_of_cons. destruct (f x) as [z|] eqn:Hf; rewrite ?elem_of_cons, IH; naive_solver.
Qed.

#[export] Instance filter_map_perm {A B} (f : A -> option B) :
  Proper ((≡ₚ) ==> (≡ₚ)) (filter_map f).
Proof.
  induction 1 as [|x l1 l2 _ IH|x y l|l1 l2 l3 _ IH1 _ IH2]; simpl; [done| | |by etrans].
  - destruct (f x); by rewrite IH.
  - destruct (f x), (f y); try done. apply Permutation_swap.
Qed.

Lemma map_filter_map {A B C} (f : A -> option B) (g : B -> C) l :
  map g (filter_map f l) = filter_map (fun x => g <$> f x) l.
Proof. induction l as [|x l IH]; simpl; [done|]. destruct (f x); simpl; by rewrite IH. Qed.

Lemma filter_map_map {A B C} (f : B -> option C) (g : A -> B) l :
  filter_map f (map g l) = filter_map (fun x => f (g x)) l.
Proof. induction l as [|x l IH]; simpl; [done|]. by rewrite IH. Qed.

Lemma filter_map_filter_map {A B C} (f : A -> option B) (g : B -> option C) l :
  filter_map g (filter_map f l) = filter_map (fun x => f x ≫= g) l.
Proof. induction l as [|x l IH]; simpl; [done|]. destruct (f x); simpl; by rewrite IH. Qed.

(** ** Machine integers

    A [u64], [u32], ... is a [Z] in range; the operations below are the ones the
    code calls. *)

Definition U8_MAX : Z := 2 ^ 8 - 1.
Definition U16_MAX : Z := 2 ^ 16 - 1.
Definition U32_MAX : Z := 2 ^ 32 - 1.
Definition U64_MAX : Z := 2 ^ 64 - 1.
(** [usize] on the 64-bit targets the server is built for. *)
Definition USIZE_MAX : Z := U64_MAX.
Definition I32_MAX : Z := 2 ^ 31 - 1.
Definition I32_MIN : Z := - 2 ^ 31.
Definition I64_MAX : Z := 2 ^ 63 - 1.
Definition I64_MIN : Z := - 2 ^ 63.

(** [saturating_add] on an unsigned type with maximum [max]. *)
Definition saturating_add (max a b : Z) : Z := Z.min max (a + b).
(** [saturating_sub] on an unsigned type. *)
Definition saturating_sub (a b : Z) : Z := Z.max 0 (a - b).
(** [checked_add] on an unsigned type with maximum [max]. *)
Definition checked_add (max a b : Z) : option Z :=
  if a + b <=? max then Some (a + b) else None.
(** Two's complement reading of the low [w] bits. *)
Definition sint (w z : Z) : Z :=
  let m := z mod 2 ^ w in
  if m <? 2 ^ (w - 1) then m else m - 2 ^ w.
(** Wrap-around of [w]-bit unsigned arithmetic. *)
Definition uint (w z : Z) : Z := z mod 2 ^ w.

Lemma saturating_add_le max a b : saturating_add max a b <= max.
Proof. unfold saturating_add; lia. Qed.

Lemma saturating_add_exact max a b : a + b <= max -> saturating_add max a b = a + b.
Proof. unfold saturating_add; lia. Qed.

Lemma saturating_sub_exact a b : b <= a -> saturating_sub a b = a - b.
Proof. unfold saturating_sub; lia. Qed.

(** The range of [sint w] is that of a [w]-bit two's complement integer. *)
Lemma sint_range w z : 0 < w -> - 2 ^ (w - 1) <= sint w z < 2 ^ (w - 1).
Proof.
  intros Hw. unfold sint.
  assert (2 ^ w = 2 * 2 ^ (w - 1)) as Hp
    by (rewrite <- Z.pow_succ_r by lia; f_equal; lia).
  assert (0 < 2 ^ w) by (apply Z.pow_pos_nonneg; lia).
  pose proof (Z.mod_pos_bound z (2 ^ w) ltac:(lia)).
  destruct (Z.ltb_spec (z mod 2 ^ w) (2 ^ (w - 1))); lia.
Qed.

Lemma sint_mod w z : sint w z mod 2 ^ w = z mod 2 ^ w.
Proof.
  unfold sint. destruct (Z.eq_dec (2 ^ w) 0) as [->|Hp]; [rewrite !Z.mod_0_r; destruct (_ <? _); lia|].
  destruct (_ <? _); [by apply Z.mod_mod|].
  replace (z mod 2 ^ w - 2 ^ w) with (z mod 2 ^ w + -1 * 2 ^ w) by lia. rewrite Z.mod_add by done. by apply Z.mod_mod.
Qed.

(** Wrapping is a congruence for addition. *)
Lemma sint_add_l w a b : sint w (sint w a + b) = sint w (a + b).
Proof.
  assert ((sint w a + b) mod 2 ^ w = (a + b) mod 2 ^ w) as E.
  { destruct (Z.eq_dec (2 ^ w) 0) as [E|Hp].
    - pose proof (sint_mod w a) as Hm. rewrite E, !Z.mod_0_r in *. by rewrite Hm.
    - by rewrite <- Z.add_mod_idemp_l, sint_mod, Z.add_mod_idemp_l. }
  unfold sint at 1 3. by rewrite E.
Qed.
Lemma sint_add_r w a b : sint w (a + sint w b) = sint w (a + b).
Proof. by rewrite Z.add_comm, sint_add_l, Z.add_comm. Qed.

Lemma sint_id w z : 0 < w -> - 2 ^ (w - 1) <= z < 2 ^ (w - 1) -> sint w z = z.
Proof.
  intros Hw Hz. unfold sint.
  assert (2 ^ w = 2 * 2 ^ (w - 1)) as Hp
    by (rewrite <- Z.pow_succ_r by lia; f_equal; lia).
  destruct (Z.leb_spec 0 z).
  - rewrite Z.mod_small by lia. destruct (Z.ltb_spec z (2 ^ (w - 1))); lia.
  - assert (z mod 2 ^ w = z + 2 ^ w) as ->.
    { symmetry. apply Z.mod_unique with (-1); lia. }
    destruct (Z.ltb_spec (z + 2 ^ w) (2 ^ (w - 1))); lia.
Qed.

(** ** Big-endian byte strings ([bytes::Buf::get_u16], [to_be_bytes], ...) *)

Definition byte_Z (b : byte) : Z := Z.of_N (Byte.to_N b).
Definition Z_byte (z : Z) : byte :=
  match Byte.of_N (Z.to_N (z mod 256)) with
  | Some b => b
  | None => x00
  end.

#[global] Instance byte_eq_dec : EqDecision byte := Byte.byte_eq_dec.

Definition be_decode (bs : list byte) : Z :=
  fold_left (fun acc b => acc * 256 + byte_Z b) bs 0.

Fixpoint be_encode (n : nat) (z : Z) : list byte :=
  match n with
  | O => []
  | S n' => be_encode n' (z / 256) ++ [Z_byte z]
  end.

Lemma byte_Z_range b : 0 <= byte_Z b < 256.
Proof. unfold byte_Z. pose proof (Byte.to_N_bounded b). lia. Qed.

Lemma byte_Z_Z_byte z : byte_Z (Z_byte z) = z mod 256.
Proof.
  unfold byte_Z, Z_byte. pose proof (Z.mod_pos_bound z 256 ltac:(lia)) as Hb.
  destruct (Byte.of_N (Z.to_N (z mod 256))) as [b|] eqn:E.
  - apply Byte.to_of_N in E. rewrite E. lia.
  - apply Byte.of_N_None_iff in E. lia.
Qed.

Lemma byte_Z_inj a b : byte_Z a = byte_Z b -> a = b.
Proof.
  unfold byte_Z. intros H. apply N2Z.inj in H.
  apply (f_equal Byte.of_N) in H. rewrite !Byte.of_to_N in H. congruence.
Qed.

Lemma be_decode_app bs b : be_decode (bs ++ [b]) = be_decode bs * 256 + byte_Z b.
Proof. unfold be_decode. by rewrite fold_left_app. Qed.

Lemma length_be_encode n z : length (be_encode n z) = n.
Proof. revert z; induction n; intros z; simpl; [done|]. rewrite length_app, IHn; simpl; lia. Qed.

Lemma be_decode_encode n z : 0 <= z < 256 ^ Z.of_nat n -> be_decode (be_encode n z) = z.
Proof.
  revert z; induction n as [|n IH]; intros z Hz.
  - simpl in *. change (256 ^ 0) with 1 in Hz. unfold be_decode; simpl; lia.
  - cbn [be_encode]. rewrite be_decode_app, IH, byte_Z_Z_byte.
    + pose proof (Z.div_mod z 256 ltac:(lia)). lia.
    + rewrite Nat2Z.inj_succ, Z.pow_succ_r in Hz by lia.
      split; [apply Z.div_pos; lia | apply Z.div_lt_upper_bound; lia].
Qed.

Lemma be_decode_range bs : 0 <= be_decode bs < 256 ^ Z.of_nat (length bs).
Proof.
  induction bs as [|b bs IH] using rev_ind; [unfold be_decode; simpl; lia|].
  rewrite be_decode_app, length_app. simpl length.
  rewrite Nat2Z.inj_add, Z.pow_add_r by lia. change (256 ^ Z.of_nat 1) with 256.
  pose proof (byte_Z_range b). nia.
Qed.

Lemma be_decode_inj bs1 bs2 :
  length bs1 = length bs2 -> be_decode bs1 = be_decode bs2 -> bs1 = bs2.
Proof.
  revert bs2; induction bs1 as [|b1 bs1 IH] using rev_ind; intros bs2 Hl He.
  - by destruct bs2.
  - destruct bs2 as [|b2 bs2 _] using rev_ind; [rewrite length_app in Hl; simpl in Hl; lia|].
    rewrite !length_app in Hl; simpl in Hl. rewrite !be_decode_app in He.
    pose proof (byte_Z_range b1). pose proof (byte_Z_range b2).
    rewrite (IH bs2) by lia.
    assert (byte_Z b1 = byte_Z b2) as ->%byte_Z_inj; [|done].
    assert (be_decode bs1 = be_decode bs2) by lia. lia.
Qed.

#[global] Arguments be_encode : simpl never.
#[global] Arguments be_decode : simpl never.

(** ** Automation *)

Create HintDb palimpsest.
Create Rewrite HintDb palimpsest.
#[export] Hint Resolve byte_Z_range be_decode_range saturating_add_le : palimpsest.
#[export] Hint Rewrite @length_be_encode byte_Z_Z_byte : palimpsest.

(** Split every bound computation a hypothesis says succeeded. *)
Ltac inv_ok :=
  repeat match goal with
  | H : exec_bind _ _ = Ok _ |- _ => apply exec_bind_ok in H as (? & ? & ?)
  | H : Ok _ = Ok _ |- _ => injection H as H; try subst
  | H : Err _ = Ok _ |- _ => discriminate H
  | H : Panic = Ok _ |- _ => discriminate H
  end.
