(* ===== verification/BTree.v ===== *)
(** * BTree: the ordered maps of [std::collections::BTreeMap]

    Several components iterate a [BTreeMap] and the order is visible (the row
    changes of a transaction, the canonical key of a user context). A map is the
    list of its bindings in strictly increasing key order; the operations are
    the ones the code calls ([get], [insert], [remove], [entry().or_default()]).
    Also here: [Ord] as a class with the derived lexicographic instances, and the
    stable sort of [slice::sort]. *)

From S2P Require Import Prelude.
From stdpp Require Import sorting.

(** ** [Ord] *)

Class Ord (K : Type) : Type := {
  cmp : K -> K -> comparison;
  cmp_eq : forall a b, cmp a b = Eq <-> a = b;
  cmp_antisym : forall a b, cmp b a = CompOpp (cmp a b);
  cmp_trans : forall a b c, cmp a b = Lt -> cmp b c = Lt -> cmp a c = Lt
}.

Section OrdFacts.
Context {K : Type} `{Ord K}.

Lemma cmp_refl a : cmp a a = Eq.
Proof. by apply cmp_eq. Qed.

Lemma cmp_gt_lt a b : cmp a b = Gt <-> cmp b a = Lt.
Proof. rewrite (cmp_antisym a b). destruct (cmp a b); naive_solver. Qed.

Lemma cmp_lt_ne a b : cmp a b = Lt -> a <> b.
Proof. intros Hlt ->. by rewrite cmp_refl in Hlt. Qed.

Definition ord_eq_dec : EqDecision K.
Proof.
  intros a b. destruct (cmp a b) eqn:E; [left; by apply cmp_eq | right | right];
    intros ->; by rewrite cmp_refl in E.
Defined.
End OrdFacts.

#[local] Existing Instance ord_eq_dec | 100.

#[export] Program Instance Z_Ord : Ord Z := {| cmp := Z.compare |}.
Next Obligation. apply Z.compare_eq_iff. Qed.
Next Obligation. intros; apply Z.compare_antisym. Qed.
Next Obligation. intros a b c; rewrite !Z.compare_lt_iff; lia. Qed.

(** Bytes compare as [u8]. *)
#[export] Program Instance byte_Ord : Ord byte :=
  {| cmp a b := Z.compare (byte_Z a) (byte_Z b) |}.
Next Obligation. intros; rewrite Z.compare_eq_iff; split; [apply byte_Z_inj | congruence]. Qed.
Next Obligation. intros; apply Z.compare_antisym. Qed.
Next Obligation. intros a b c; rewrite !Z.compare_lt_iff; lia. Qed.

(** [Vec<K>] and slices compare lexicographically. *)
Fixpoint list_cmp {K} `{Ord K} (a b : list K) : comparison :=
  match a, b with
  | [], [] => Eq
  | [], _ :: _ => Lt
  | _ :: _, [] => Gt
  | x :: a', y :: b' =>
      match cmp x y with
      | Eq => list_cmp a' b'
      | c => c
      end
  end.

#[export] Program Instance list_Ord {K} `{Ord K} : Ord (list K) := {| cmp := list_cmp |}.
Next Obligation.
  intros K ? a; induction a as [|x a IH]; intros [|y b]; simpl; [done..|].
  destruct (cmp x y) eqn:E.
  - apply cmp_eq in E as ->. rewrite IH; split; congruence.
  - split; [done|]. intros [= -> ->]. by rewrite cmp_refl in E.
  - split; [done|]. intros [= -> ->]. by rewrite cmp_refl in E.
Qed.
Next Obligation.
  intros K ? a; induction a as [|x a IH]; intros [|y b]; simpl; [done..|].
  rewrite (cmp_antisym x y). destruct (cmp x y); simpl; auto.
Qed.
Next Obligation.
  intros K ? a; induction a as [|x a IH]; intros [|y b] [|z c]; simpl; try done.
  destruct (cmp x y) eqn:E1, (cmp y z) eqn:E2; try done; intros H1 H2.
  - apply cmp_eq in E1 as ->, E2 as ->. rewrite cmp_refl; eauto.
  - apply cmp_eq in E1 as ->. by rewrite E2.
  - apply cmp_eq in E2 as <-. by rewrite E1.
  - by rewrite (cmp_trans x y z).
Qed.

(** Pairs compare by the first component, then by the second. *)
Definition pair_cmp {A B} `{Ord A, Ord B} (p q : A * B) : comparison :=
  match cmp p.1 q.1 with
  | Eq => cmp p.2 q.2
  | c => c
  end.

#[export] Program Instance pair_Ord {A B} `{Ord A, Ord B} : Ord (A * B) := {| cmp := pair_cmp |}.
Next Obligation.
  intros A B ?? [a1 b1] [a2 b2]; unfold pair_cmp; simpl. destruct (cmp a1 a2) eqn:E.
  - apply cmp_eq in E as ->. rewrite cmp_eq; naive_solver.
  - split; [done|]; intros [= -> ->]. by rewrite cmp_refl in E.
  - split; [done|]; intros [= -> ->]. by rewrite cmp_refl in E.
Qed.
Next Obligation.
  intros A B ?? [a1 b1] [a2 b2]; unfold pair_cmp; simpl.
  rewrite (cmp_antisym a1 a2), (cmp_antisym b1 b2). by destruct (cmp a1 a2).
Qed.
Next Obligation.
  intros A B ?? [a1 b1] [a2 b2] [a3 b3]; unfold pair_cmp; simpl.
  destruct (cmp a1 a2) eqn:E1, (cmp a2 a3) eqn:E2; try done; intros H1 H2.
  - apply cmp_eq in E1 as ->, E2 as ->. rewrite cmp_refl. eauto using cmp_trans.
  - apply cmp_eq in E1 as ->. by rewrite E2.
  - apply cmp_eq in E2 as <-. by rewrite E1.
  - by rewrite (cmp_trans a1 a2 a3).
Qed.

(** Strings compare by their UTF-8 bytes. *)
#[export] Program Instance string_Ord : Ord string :=
  {| cmp a b := cmp (String.list_byte_of_string a) (String.list_byte_of_string b) |}.
Next Obligation.
  intros a b. rewrite cmp_eq. split; [|congruence]. intros E.
  apply (f_equal String.string_of_list_byte) in E.
  by rewrite !String.string_of_list_byte_of_string in E.
Qed.
Next Obligation. intros; apply cmp_antisym. Qed.
Next Obligation. intros a b c; apply cmp_trans. Qed.

(** ** Maps *)

Definition btree (K V : Type) : Type := list (K * V).

Section BTree.
Context {K V : Type} `{Ord K}.
Implicit Types (m : btree K V) (k : K) (v : V).

Fixpoint bt_get (k : K) (m : btree K V) : option V :=
  match m with
  | [] => None
  | (k', v) :: m' =>
      match cmp k k' with
      | Lt => None
      | Eq => Some v
      | Gt => bt_get k m'
      end
  end.

Fixpoint bt_insert (k : K) (v : V) (m : btree K V) : btree K V :=
  match m with
  | [] => [(k, v)]
  | (k', v') :: m' =>
      match cmp k k' with
      | Lt => (k, v) :: m
      | Eq => (k, v) :: m'
      | Gt => (k', v') :: bt_insert k v m'
      end
  end.

Fixpoint bt_remove (k : K) (m : btree K V) : btree K V :=
  match m with
  | [] => []
  | (k', v') :: m' =>
      match cmp k k' with
      | Lt => m
      | Eq => m'
      | Gt => (k', v') :: bt_remove k m'
      end
  end.

(** [map.entry(k).or_insert(d)] followed by an update of the slot. *)
Definition bt_entry (k : K) (d : V) (f : V -> V) (m : btree K V) : btree K V :=
  bt_insert k (f (default d (bt_get k m))) m.

(** [iter().collect()] into a fresh map: later bindings win. *)
Definition bt_from_list (l : list (K * V)) : btree K V :=
  fold_left (fun m kv => bt_insert kv.1 kv.2 m) l [].

Definition key_lt (p q : K * V) : Prop := cmp p.1 q.1 = Lt.

(** Well-formedness: keys strictly increase. *)
Definition bt_wf (m : btree K V) : Prop := StronglySorted key_lt m.

Lemma bt_wf_nil : bt_wf [].
Proof. constructor. Qed.

Lemma bt_wf_cons k v m :
  bt_wf ((k, v) :: m) <-> Forall (fun p => cmp k p.1 = Lt) m /\ bt_wf m.
Proof.
  unfold bt_wf. split.
  - intros Hs; inversion Hs; subst; split; auto.
  - intros [Hf Hs]; constructor; auto.
Qed.

Lemma Forall_bt_insert (P : K * V -> Prop) k v m :
  P (k, v) -> Forall P m -> Forall P (bt_insert k v m).
Proof.
  intros Hk. induction 1 as [|[k' v'] m Hp Hm IH]; simpl; [by constructor|].
  destruct (cmp k k'); auto.
Qed.

Lemma Forall_bt_remove (P : K * V -> Prop) k m : Forall P m -> Forall P (bt_remove k m).
Proof.
  induction 1 as [|[k' v'] m Hp Hm IH]; simpl; [done|]. destruct (cmp k k'); auto.
Qed.

Lemma bt_wf_insert k v m : bt_wf m -> bt_wf (bt_insert k v m).
Proof.
  induction m as [|[k' v'] m IH]; intros Hwf; simpl.
  - apply bt_wf_cons; split; constructor.
  - apply bt_wf_cons in Hwf as [Hf Hwf]. destruct (cmp k k') eqn:E.
    + apply cmp_eq in E as ->. by apply bt_wf_cons.
    + apply bt_wf_cons; split; [|by apply bt_wf_cons].
      constructor; [done|]. eapply Forall_impl; [exact Hf|]. intros p Hp.
      by apply (cmp_trans k k').
    + apply bt_wf_cons; split; [|auto]. apply Forall_bt_insert; [|done].
      by apply cmp_gt_lt.
Qed.

Lemma bt_wf_remove k m : bt_wf m -> bt_wf (bt_remove k m).
Proof.
  induction m as [|[k' v'] m IH]; intros Hwf; simpl; [done|].
  destruct (cmp k k'); [| done |].
  - by apply bt_wf_cons in Hwf as [_ ?].
  - apply bt_wf_cons in Hwf as [Hf Hwf]. apply bt_wf_cons; split; [|auto].
    by apply Forall_bt_remove.
Qed.

Lemma bt_wf_from_list l : bt_wf (bt_from_list l).
Proof.
  unfold bt_from_list. assert (bt_wf []) as Hwf by constructor.
  revert Hwf. generalize (@nil (K * V)) as m. induction l as [|[k v] l IH]; intros m Hm; simpl; [done|].
  apply IH, bt_wf_insert, Hm.
Qed.

Lemma bt_get_below k m : Forall (fun p => cmp k p.1 = Lt) m -> bt_get k m = None.
Proof. destruct 1 as [|[k' v'] m Hp ?]; simpl in *; [done|]. by rewrite Hp. Qed.

Lemma bt_get_insert k k' v m :
  bt_wf m -> bt_get k' (bt_insert k v m) = if decide (k' = k) then Some v else bt_get k' m.
Proof.
  induction m as [|[k1 v1] m IH]; intros Hwf; simpl.
  - destruct (decide (k' = k)) as [->|Hne]; [by rewrite cmp_refl|].
    destruct (cmp k' k) eqn:E; [apply cmp_eq in E; congruence | done..].
  - apply bt_wf_cons in Hwf as [Hf Hwf]. specialize (IH Hwf).
    destruct (cmp k k1) eqn:E; simpl.
    + apply cmp_eq in E as <-. destruct (decide (k' = k)) as [->|Hne]; [by rewrite cmp_refl|].
      destruct (cmp k' k) eqn:E; [apply cmp_eq in E; congruence | done..].
    + destruct (decide (k' = k)) as [->|Hne]; [by rewrite cmp_refl|].
      destruct (cmp k' k) eqn:E2; [apply cmp_eq in E2; congruence | |done].
      by rewrite (cmp_trans k' k k1).
    + destruct (decide (k' = k)) as [->|Hne].
      * by rewrite E, IH.
      * destruct (cmp k' k1); [done..|]. by rewrite IH.
Qed.

Lemma bt_get_remove k k' m :
  bt_wf m -> bt_get k' (bt_remove k m) = if decide (k' = k) then None else bt_get k' m.
Proof.
  induction m as [|[k1 v1] m IH]; intros Hwf; simpl; [by destruct (decide _)|].
  apply bt_wf_cons in Hwf as [Hf Hwf]. specialize (IH Hwf).
  destruct (cmp k k1) eqn:E; simpl.
  - apply cmp_eq in E as <-. destruct (decide (k' = k)) as [->|Hne]; [by apply bt_get_below|].
    destruct (cmp k' k) eqn:E2; [apply cmp_eq in E2; congruence | | done].
    apply bt_get_below. eapply Forall_impl; [exact Hf|]. intros p Hp. by apply (cmp_trans k' k).
  - destruct (decide (k' = k)) as [->|Hne]; [by rewrite E | done].
  - destruct (cmp k' k1) eqn:E2.
    + apply cmp_eq in E2 as ->. rewrite decide_False; [done|]. intros ->. by rewrite cmp_refl in E.
    + rewrite decide_False; [done|]. intros ->. by rewrite E in E2.
    + exact IH.
Qed.

Lemma bt_get_insert_eq k v m : bt_wf m -> bt_get k (bt_insert k v m) = Some v.
Proof. intros. rewrite bt_get_insert by done. by destruct (decide (k = k)). Qed.

Lemma bt_get_insert_ne k k' v m : bt_wf m -> k' <> k -> bt_get k' (bt_insert k v m) = bt_get k' m.
Proof. intros. rewrite bt_get_insert by done. by destruct (decide (k' = k)). Qed.

Lemma bt_get_remove_eq k m : bt_wf m -> bt_get k (bt_remove k m) = None.
Proof. intros. rewrite bt_get_remove by done. by destruct (decide (k = k)). Qed.

Lemma bt_get_remove_ne k k' m : bt_wf m -> k' <> k -> bt_get k' (bt_remove k m) = bt_get k' m.
Proof. intros. rewrite bt_get_remove by done. by destruct (decide (k' = k)). Qed.

Lemma bt_get_in k v m : bt_wf m -> bt_get k m = Some v <-> (k, v) ∈ m.
Proof.
  induction m as [|[k1 v1] m IH]; intros Hwf; simpl.
  - split; [done|]. intros Hin. by apply elem_of_nil in Hin.
  - apply bt_wf_cons in Hwf as [Hf Hwf]. specialize (IH Hwf).
    rewrite elem_of_cons. rewrite Forall_forall in Hf.
    destruct (cmp k k1) eqn:E.
    + apply cmp_eq in E as ->. split; [intros [= ->]; by left|].
      intros [[= ->]|Hin]; [done|]. apply Hf in Hin; simpl in Hin. by rewrite cmp_refl in Hin.
    + split; [done|]. intros [[= -> ->]|Hin]; [by rewrite cmp_refl in E|].
      apply Hf in Hin; simpl in Hin. pose proof (cmp_trans _ _ _ E Hin) as Hc.
      by rewrite cmp_refl in Hc.
    + rewrite IH. split; [by right|]. intros [[= -> ->]|]; [by rewrite cmp_refl in E|done].
Qed.

Lemma bt_wf_NoDup m : bt_wf m -> NoDup m.*1.
Proof.
  induction m as [|[k v] m IH]; intros Hwf; [constructor|]. simpl.
  apply bt_wf_cons in Hwf as [Hf Hwf]. constructor; [|auto].
  intros Hin. apply list_elem_of_fmap in Hin as ([k' v'] & -> & Hin).
  rewrite Forall_forall in Hf. apply Hf in Hin. simpl in Hin.
  by rewrite cmp_refl in Hin.
Qed.

(** A map as a bag of bindings. *)
Lemma bt_insert_perm k v m : bt_insert k v m ≡ₚ (k, v) :: bt_remove k m.
Proof.
  induction m as [|[k' v'] m IH]; simpl; [done|]. destruct (cmp k k'); [done..|].
  rewrite IH. apply Permutation_swap.
Qed.

Lemma bt_remove_perm k v m : bt_get k m = Some v -> m ≡ₚ (k, v) :: bt_remove k m.
Proof.
  induction m as [|[k' v'] m IH]; simpl; [done|]. destruct (cmp k k') eqn:E; [| done |].
  - apply cmp_eq in E as ->. by intros [= ->].
  - intros Hg. rewrite (IH Hg) at 1. apply Permutation_swap.
Qed.

Lemma bt_from_list_in k v l : (k, v) ∈ bt_from_list l -> (k, v) ∈ l.
Proof.
  unfold bt_from_list. cut (forall m, (k, v) ∈ fold_left (fun m kv => bt_insert kv.1 kv.2 m) l m -> (k, v) ∈ m \/ (k, v) ∈ l).
  { intros Hm Hin. by destruct (Hm [] Hin) as [?%elem_of_nil|]. }
  induction l as [|[k' v'] l IH]; intros m; simpl; [by left|]. intros [Hin|Hin]%IH; [|right; by right].
  rewrite bt_insert_perm, elem_of_cons in Hin. destruct Hin as [[= -> ->]|Hin]; [right; by left | left].
  revert Hin. generalize (k, v). apply Forall_forall, Forall_bt_remove, Forall_forall. done.
Qed.

Lemma bt_remove_None k m : bt_get k m = None -> bt_remove k m = m.
Proof.
  induction m as [|[k' v'] m IH]; simpl; [done|]. destruct (cmp k k'); [done..|].
  intros Hg. by rewrite IH.
Qed.

(** Extensionality: the representation is canonical. *)
Lemma bt_ext m1 m2 :
  bt_wf m1 -> bt_wf m2 -> (forall k, bt_get k m1 = bt_get k m2) -> m1 = m2.
Proof.
  revert m2; induction m1 as [|[k1 v1] m1 IH]; intros [|[k2 v2] m2] H1 H2 Hext.
  - done.
  - specialize (Hext k2); simpl in Hext. by rewrite cmp_refl in Hext.
  - specialize (Hext k1); simpl in Hext. by rewrite cmp_refl in Hext.
  - apply bt_wf_cons in H1 as [Hf1 H1], H2 as [Hf2 H2].
    pose proof (Hext k1) as E1; pose proof (Hext k2) as E2; simpl in E1, E2.
    rewrite cmp_refl in E1, E2.
    destruct (cmp k1 k2) eqn:E; [| done |].
    + apply cmp_eq in E as ->. injection E1 as ->. f_equal. apply IH; [done..|].
      intros k. specialize (Hext k); simpl in Hext.
      destruct (cmp k k2) eqn:Ek; [| |done].
      * apply cmp_eq in Ek as ->. by rewrite !bt_get_below.
      * rewrite !bt_get_below; [done| |];
          (eapply Forall_impl; [eassumption|]; intros p Hp; by apply (cmp_trans k k2)).
    + apply cmp_gt_lt in E. by rewrite E in E2.
Qed.
End BTree.

Arguments btree : clear implicits.
#[export] Hint Resolve bt_wf_nil bt_wf_insert bt_wf_remove bt_wf_from_list : palimpsest.

(** ** [slice::sort]

    A stable sort by [cmp]. Insertion sort is used: for a total order whose
    equivalence is equality every stable sort returns the same list. *)

Section Sort.
Context {K : Type} `{Ord K}.

Fixpoint sort_insert (x : K) (l : list K) : list K :=
  match l with
  | [] => [x]
  | y :: l' => match cmp x y with Gt => y :: sort_insert x l' | _ => x :: y :: l' end
  end.

Definition slice_sort (l : list K) : list K := foldr sort_insert [] l.

(** [Vec::dedup]: drops consecutive repetitions. *)
Fixpoint dedup (l : list K) : list K :=
  match l with
  | [] => []
  | x :: l' =>
      match dedup l' with
      | [] => [x]
      | y :: r => if decide (x = y) then y :: r else x :: y :: r
      end
  end.

Definition cmp_le (a b : K) : Prop := cmp a b <> Gt.

Lemma sort_insert_perm x l : sort_insert x l ≡ₚ x :: l.
Proof.
  induction l as [|y l IH]; simpl; [done|]. destruct (cmp x y); [done..|].
  rewrite IH. apply perm_swap.
Qed.

Lemma slice_sort_perm l : slice_sort l ≡ₚ l.
Proof. induction l as [|x l IH]; simpl; [done|]. by rewrite sort_insert_perm, IH. Qed.

(** A sorted slice is left alone. *)
Lemma slice_sort_sorted l : Sorted cmp_le l -> slice_sort l = l.
Proof.
  induction 1 as [|x l Hs IH Hhd]; simpl; [done|]. rewrite IH.
  inversion Hhd as [|y l' Hle]; subst; simpl; [done|].
  unfold cmp_le in Hle. by destruct (cmp x y).
Qed.

Lemma cmp_le_trans a b c : cmp_le a b -> cmp_le b c -> cmp_le a c.
Proof.
  unfold cmp_le. destruct (cmp a b) eqn:E1, (cmp b c) eqn:E2; try done; intros _ _.
  - apply cmp_eq in E1 as ->, E2 as ->. by rewrite cmp_refl.
  - apply cmp_eq in E1 as ->. by rewrite E2.
  - apply cmp_eq in E2 as <-. by rewrite E1.
  - by rewrite (cmp_trans _ _ _ E1 E2).
Qed.

#[global] Instance cmp_le_Transitive : Transitive cmp_le.
Proof. intros a b c. apply cmp_le_trans. Qed.

Lemma sort_insert_sorted x l : Sorted cmp_le l -> Sorted cmp_le (sort_insert x l).
Proof.
  induction 1 as [|y l Hs IH Hhd]; simpl; [repeat constructor|].
  destruct (cmp x y) eqn:E.
  1,2: constructor; [by constructor | constructor; unfold cmp_le; by rewrite E].
  constructor; [done|]. apply cmp_gt_lt in E.
  destruct l as [|z l]; simpl; [constructor; unfold cmp_le; by rewrite E|].
  inversion Hhd; subst. destruct (cmp x z); constructor; auto; unfold cmp_le; by rewrite E.
Qed.

Lemma slice_sort_Sorted l : Sorted cmp_le (slice_sort l).
Proof. induction l as [|x l IH]; simpl; [constructor|]. by apply sort_insert_sorted. Qed.

#[global] Instance cmp_le_AntiSymm : AntiSymm (=) cmp_le.
Proof.
  intros a b Hab Hba. unfold cmp_le in *. rewrite (cmp_antisym a b) in Hba.
  destruct (cmp a b) eqn:E; [by apply cmp_eq | done..].
Qed.

(** Sorting forgets exactly the order. *)
Lemma slice_sort_eq_perm l1 l2 : slice_sort l1 = slice_sort l2 <-> l1 ≡ₚ l2.
Proof.
  split.
  - intros E. by rewrite <- (slice_sort_perm l1), E, slice_sort_perm.
  - intros Hp. eapply (Sorted_unique cmp_le); [apply slice_sort_Sorted..|].
    by rewrite !slice_sort_perm.
Qed.

Lemma dedup_elem_of x l : x ∈ dedup l <-> x ∈ l.
Proof.
  induction l as [|y l IH]; simpl; [done|]. rewrite elem_of_cons, <- IH.
  destruct (dedup l) as [|z r]; [by rewrite list_elem_of_singleton, elem_of_nil; naive_solver|].
  destruct (decide (y = z)) as [->|]; set_solver.
Qed.

Lemma dedup_head x l : exists r, dedup (x :: l) = x :: r.
Proof.
  simpl. destruct (dedup l) as [|y r]; [by exists []|].
  destruct (decide (x = y)) as [->|]; eexists; reflexivity.
Qed.

Lemma dedup_sorted l : Sorted cmp_le l -> Sorted cmp_le (dedup l).
Proof.
  induction 1 as [|x l Hs IH Hhd]; [constructor|]. destruct l as [|y l]; [repeat constructor|].
  inversion Hhd as [|? ? Hxy]; subst. destruct (dedup_head y l) as [r Hr].
  change (dedup (x :: y :: l)) with
    (match dedup (y :: l) with
     | [] => [x]
     | y0 :: r0 => if decide (x = y0) then y0 :: r0 else x :: y0 :: r0
     end).
  rewrite Hr in *. destruct (decide (x = y)); [done|]. constructor; [done|]. by constructor.
Qed.

Lemma dedup_NoDup l : Sorted cmp_le l -> NoDup (dedup l).
Proof.
  intros Hs. apply (Sorted_StronglySorted cmp_le) in Hs.
  induction Hs as [|x l Hs IH Hf]; [constructor|]. destruct l as [|y l]; [repeat constructor; set_solver|].
  destruct (dedup_head y l) as [r Hr].
  change (dedup (x :: y :: l)) with
    (match dedup (y :: l) with
     | [] => [x]
     | y0 :: r0 => if decide (x = y0) then y0 :: r0 else x :: y0 :: r0
     end).
  rewrite Hr in *. destruct (decide (x = y)) as [|Hne]; [done|]. constructor; [|done].
  rewrite <- Hr, dedup_elem_of. intros Hin.
  inversion Hf as [|? ? Hxy _]; subst. inversion Hs as [|? ? _ Hfy]; subst.
  apply elem_of_cons in Hin as [->|Hin]; [done|]. rewrite Forall_forall in Hfy.
  apply Hne. apply (anti_symm cmp_le); [done | by apply Hfy].
Qed.

(** A sorted, deduplicated list is determined by its set of elements. *)
Lemma dedup_sort_eq l1 l2 :
  dedup (slice_sort l1) = dedup (slice_sort l2) <-> (forall x, x ∈ l1 <-> x ∈ l2).
Proof.
  assert (forall x l, x ∈ dedup (slice_sort l) <-> x ∈ l) as Hel
    by (intros x l; rewrite dedup_elem_of; by rewrite slice_sort_perm).
  split.
  - intros E x. by rewrite <- (Hel x l1), E, Hel.
  - intros E. eapply (Sorted_unique cmp_le); [apply dedup_sorted, slice_sort_Sorted..|].
    apply NoDup_Permutation; [apply dedup_NoDup, slice_sort_Sorted..|].
    intros x. by rewrite !Hel.
Qed.
End Sort.
