(* ===== verification/Text.v ===== *)
(** * Text: the pieces of [str] the decoders use

    A [&str] or [String] is the list of its UTF-8 bytes. The functions below are
    the standard-library operations the sources call, on those bytes:
    [from_utf8], [split], [split_once], [strip_prefix], [strip_suffix],
    [trim_end_matches], [trim_matches], [split_whitespace], slicing (which panics
    off a character boundary), integer parsing and [from_str_radix]. *)

From S2P Require Import Prelude.

Abbreviation text := (list byte).

(** A string literal of the source. *)
Definition lit (s : string) : text := String.list_byte_of_string s.
Definition text_string (t : text) : string := String.string_of_list_byte t.
#[global] Arguments lit s%_string.

Lemma text_string_lit s : text_string (lit s) = s.
Proof. apply String.string_of_list_byte_of_string. Qed.

Lemma lit_text_string t : lit (text_string t) = t.
Proof. apply String.list_byte_of_string_of_list_byte. Qed.

(** ** UTF-8 validation ([core::str::from_utf8]) *)

Definition in_range (lo hi : Z) (b : byte) : bool := (lo <=? byte_Z b) && (byte_Z b <=? hi).
Definition is_cont (b : byte) : bool := in_range 0x80 0xBF b.

(** Well-formed byte sequences, Unicode table 3-7. *)
Fixpoint utf8_valid (t : text) : bool :=
  match t with
  | [] => true
  | b0 :: t1 =>
      if in_range 0x00 0x7F b0 then utf8_valid t1
      else match t1 with
      | [] => false
      | b1 :: t2 =>
          if in_range 0xC2 0xDF b0 then is_cont b1 && utf8_valid t2
          else match t2 with
          | [] => false
          | b2 :: t3 =>
              if in_range 0xE0 0xE0 b0 then in_range 0xA0 0xBF b1 && is_cont b2 && utf8_valid t3
              else if in_range 0xED 0xED b0 then in_range 0x80 0x9F b1 && is_cont b2 && utf8_valid t3
              else if in_range 0xE1 0xEF b0 then is_cont b1 && is_cont b2 && utf8_valid t3
              else match t3 with
              | [] => false
              | b3 :: t4 =>
                  if in_range 0xF0 0xF0 b0 then
                    in_range 0x90 0xBF b1 && is_cont b2 && is_cont b3 && utf8_valid t4
                  else if in_range 0xF4 0xF4 b0 then
                    in_range 0x80 0x8F b1 && is_cont b2 && is_cont b3 && utf8_valid t4
                  else if in_range 0xF1 0xF3 b0 then
                    is_cont b1 && is_cont b2 && is_cont b3 && utf8_valid t4
                  else false
              end
          end
      end
  end.

Definition is_ascii (t : text) : bool := forallb (in_range 0x00 0x7F) t.

Lemma ascii_utf8_valid t : is_ascii t = true -> utf8_valid t = true.
Proof.
  induction t as [|b t IH]; [done|]. cbn [is_ascii forallb utf8_valid].
  intros [Hb Ht]%andb_true_iff. rewrite Hb. by apply IH.
Qed.

(** ** Searching and splitting *)

Fixpoint strip_prefix (p t : text) : option text :=
  match p, t with
  | [], _ => Some t
  | _ :: _, [] => None
  | a :: p', b :: t' => if decide (a = b) then strip_prefix p' t' else None
  end.

Definition strip_suffix (p t : text) : option text :=
  (@rev byte) <$> strip_prefix (rev p) (rev t).

Definition starts_with (p t : text) : bool := bool_decide (is_Some (strip_prefix p t)).

Lemma strip_prefix_app p t : strip_prefix p (p ++ t) = Some t.
Proof. induction p as [|a p IH]; simpl; [done|]. by rewrite decide_True. Qed.

Lemma strip_prefix_Some p t r : strip_prefix p t = Some r -> t = p ++ r.
Proof.
  revert t; induction p as [|a p IH]; intros [|b t]; simpl; try naive_solver.
  destruct (decide (a = b)) as [->|]; [|done]. intros Hr. by rewrite (IH t).
Qed.

Lemma starts_with_app p t r : (length p <= length t)%nat -> starts_with p (t ++ r) = starts_with p t.
Proof.
  unfold starts_with. revert t. induction p as [|a p IH]; intros t Hl; simpl; [done|].
  destruct t as [|b t]; simpl in *; [lia|]. destruct (decide (a = b)); [|done]. apply IH. lia.
Qed.

(** [t.find(p)]: byte offset of the first occurrence. *)
Fixpoint find (p t : text) : option nat :=
  if starts_with p t then Some O
  else match t with [] => None | _ :: t' => S <$> find p t' end.

Lemma find_start p t : find p (p ++ t) = Some O.
Proof.
  assert (starts_with p (p ++ t) = true) as Hs
    by (unfold starts_with; rewrite strip_prefix_app; by apply bool_decide_eq_true).
  destruct (p ++ t); simpl in *; by rewrite Hs.
Qed.

(** What follows an occurrence does not change where the first one is. *)
Lemma find_app p a r : find p (a ++ p) = Some (length a) -> find p (a ++ p ++ r) = Some (length a).
Proof.
  induction a as [|x a IH]; simpl; intros Hf; [apply find_start|].
  rewrite app_assoc, app_comm_cons. rewrite starts_with_app by (simpl; rewrite length_app; lia).
  destruct (starts_with p (x :: a ++ p)); [done|].
  destruct (find p (a ++ p)) as [n|] eqn:Hn; [|done]. injection Hf as ->.
  by rewrite <- app_assoc, IH.
Qed.

(** [t.split(c)] for an ASCII [c]: the pieces between the separators. *)
Fixpoint split (c : byte) (t : text) : list text :=
  match t with
  | [] => [[]]
  | b :: t' =>
      if decide (b = c) then [] :: split c t'
      else match split c t' with
           | [] => [[b]]
           | p :: ps => (b :: p) :: ps
           end
  end.

(** [t.split_once(c)]: around the first separator. *)
Fixpoint split_once (c : byte) (t : text) : option (text * text) :=
  match t with
  | [] => None
  | b :: t' =>
      if decide (b = c) then Some ([], t')
      else '(p, q) ← split_once c t'; Some (b :: p, q)
  end.

(** [t.trim_end_matches(p)] with a non-empty pattern; the fuel is the length,
    each round removes at least one byte. *)
Fixpoint trim_end_fuel (fuel : nat) (p t : text) : text :=
  match fuel with
  | O => t
  | S n => match strip_suffix p t with
           | Some t' => trim_end_fuel n p t'
           | None => t
           end
  end.
Definition trim_end_matches (p t : text) : text := trim_end_fuel (length t) p t.

Fixpoint trim_start_byte (c : byte) (t : text) : text :=
  match t with
  | b :: t' => if decide (b = c) then trim_start_byte c t' else t
  | [] => []
  end.
(** [t.trim_matches(c)]. *)
Definition trim_matches (c : byte) (t : text) : text :=
  rev (trim_start_byte c (rev (trim_start_byte c t))).

(** Length in bytes of the whitespace character [t] starts with, 0 if none
    (Unicode [White_Space], in its UTF-8 encodings). *)
Definition ws_len (t : text) : nat :=
  match map byte_Z t with
  | a :: r =>
      if ((9 <=? a) && (a <=? 13)) || (a =? 32) then 1%nat
      else match r with
      | b :: r2 =>
          if (a =? 0xC2) && ((b =? 0x85) || (b =? 0xA0)) then 2%nat
          else match r2 with
          | c :: _ =>
              if (a =? 0xE1) && (b =? 0x9A) && (c =? 0x80) then 3%nat
              else if (a =? 0xE2) && (b =? 0x80)
                      && (((0x80 <=? c) && (c <=? 0x8A)) || (c =? 0xA8) || (c =? 0xA9) || (c =? 0xAF))
                   then 3%nat
              else if (a =? 0xE2) && (b =? 0x81) && (c =? 0x9F) then 3%nat
              else if (a =? 0xE3) && (b =? 0x80) && (c =? 0x80) then 3%nat
              else 0%nat
          | [] => 0%nat
          end
      | [] => 0%nat
      end
  | [] => 0%nat
  end.

(** [t.split_whitespace()]: [cur] is the piece being read, reversed; [skip]
    counts the remaining bytes of the whitespace character being skipped. *)
Fixpoint split_ws_aux (cur : text) (skip : nat) (t : text) : list text :=
  let flush k := match cur with [] => k | _ => rev cur :: k end in
  match t with
  | [] => flush []
  | b :: t' =>
      match skip with
      | S n => split_ws_aux cur n t'
      | O => match ws_len t with
             | O => split_ws_aux (b :: cur) 0 t'
             | S n => flush (split_ws_aux [] n t')
             end
      end
  end.
Definition split_whitespace (t : text) : list text := split_ws_aux [] 0 t.

(** [t.contains(c)] for an ASCII character. *)
Definition contains_byte (c : byte) (t : text) : bool := bool_decide (c ∈ t).

(** ** Slicing

    [&t[i..j]] panics when an end is out of range or inside a character. *)
Definition is_char_boundary (t : text) (i : nat) : bool :=
  match t !! i with
  | Some b => negb (is_cont b)
  | None => Nat.eqb i (length t)
  end.

Definition str_slice {E} (t : text) (i j : nat) : exec E text :=
  if (i <=? j)%nat && is_char_boundary t i && is_char_boundary t j
  then Ok (take (j - i) (drop i t)) else Panic.

(** ** Integer parsing *)

Definition digit_value (radix : Z) (b : byte) : option Z :=
  let z := byte_Z b in
  let d := if (48 <=? z) && (z <=? 57) then Some (z - 48)
           else if (97 <=? z) && (z <=? 122) then Some (z - 97 + 10)
           else if (65 <=? z) && (z <=? 90) then Some (z - 65 + 10)
           else None in
  v ← d; if v <? radix then Some v else None.

Fixpoint parse_digits (radix acc : Z) (t : text) : option Z :=
  match t with
  | [] => Some acc
  | b :: t' => d ← digit_value radix b; parse_digits radix (acc * radix + d) t'
  end.

(** [from_str_radix] for an integer type with range [lo..hi]: an optional sign
    ([-] only for signed types), at least one digit, no overflow. *)
Definition parse_radix (radix lo hi : Z) (t : text) : option Z :=
  let '(neg, digits) :=
    match t with
    | x2b :: t' => (false, t')
    | x2d :: t' => if lo <? 0 then (true, t') else (false, t)
    | _ => (false, t)
    end in
  match digits with
  | [] => None
  | _ :: _ =>
      m ← parse_digits radix 0 digits;
      let v := if neg then - m else m in
      if (lo <=? v) && (v <=? hi) then Some v else None
  end.

Definition parse_int (lo hi : Z) (t : text) : option Z := parse_radix 10 lo hi t.

Lemma parse_radix_range radix lo hi t v : parse_radix radix lo hi t = Some v -> lo <= v <= hi.
Proof.
  unfold parse_radix. destruct (match t with x2b :: _ => _ | _ => _ end) as [neg ds].
  destruct ds as [|d ds]; [done|]. destruct (parse_digits radix 0 (d :: ds)) as [m|]; [|done].
  simpl. destruct ((lo <=? _) && (_ <=? hi)) eqn:E; [|done]. intros [= <-].
  apply andb_true_iff in E. lia.
Qed.

(** Lower-case hexadecimal digit of a nibble ([{byte:02x}]). *)
Definition hex_digit (z : Z) : byte := Z_byte (if z <? 10 then z + 48 else z + 87).
Definition hex_byte (b : byte) : text := [hex_digit (byte_Z b / 16); hex_digit (byte_Z b mod 16)].

Lemma byte_cases (P : byte -> bool) :
  forallb (fun n => P (Z_byte (Z.of_nat n))) (seq 0 256) = true -> forall b, P b = true.
Proof.
  intros H b. rewrite forallb_forall in H.
  pose proof (byte_Z_range b) as Hb.
  specialize (H (Z.to_nat (byte_Z b))). rewrite Z2Nat.id in H by lia.
  assert (Z_byte (byte_Z b) = b) as Hz.
  { apply byte_Z_inj. rewrite byte_Z_Z_byte. by apply Z.mod_small. }
  rewrite Hz in H. apply H. apply in_seq. lia.
Qed.

Lemma hex_byte_ascii b : is_ascii (hex_byte b) = true.
Proof. revert b. apply byte_cases. vm_compute. reflexivity. Qed.

Lemma parse_hex_byte b : parse_radix 16 0 U8_MAX (hex_byte b) = Some (byte_Z b).
Proof.
  set (P := fun b => bool_decide (parse_radix 16 0 U8_MAX (hex_byte b) = Some (byte_Z b))).
  assert (P b = true) as H by (apply byte_cases; vm_compute; reflexivity).
  unfold P in H. by apply bool_decide_eq_true in H.
Qed.

Lemma is_ascii_app a b : is_ascii (a ++ b) = is_ascii a && is_ascii b.
Proof. apply forallb_app. Qed.

Lemma ascii_not_cont b : in_range 0x00 0x7F b = true -> is_cont b = false.
Proof. unfold in_range, is_cont, in_range. lia. Qed.

(** Slicing an ASCII text never panics inside its bounds. *)
Lemma str_slice_ascii {E} t i j :
  is_ascii t = true -> (i <= j <= length t)%nat ->
  str_slice (E := E) t i j = Ok (take (j - i) (drop i t)).
Proof.
  intros Ha Hij. unfold str_slice.
  assert (forall k, (k <= length t)%nat -> is_char_boundary t k = true) as Hb.
  { intros k Hk. unfold is_char_boundary. destruct (t !! k) as [b|] eqn:Eb.
    - rewrite ascii_not_cont; [done|]. unfold is_ascii in Ha. rewrite forallb_forall in Ha.
      apply Ha, list_elem_of_In. by eapply list_elem_of_lookup_2.
    - apply lookup_ge_None in Eb. apply Nat.eqb_eq. lia. }
  rewrite !Hb by lia. destruct (Nat.leb_spec i j); [done|lia].
Qed.

(** ** SQL string literals and joined lists *)

(** [value.replace('\'', "''")]. *)
Definition escape_quotes (t : text) : text :=
  concat (map (fun b => if decide (b = x27) then [x27; x27] else [b]) t).
Definition quoted (t : text) : text := [x27] ++ escape_quotes t ++ [x27].

(** [slice.join(sep)]. *)
Fixpoint join (sep : text) (l : list text) : text :=
  match l with
  | [] => []
  | [x] => x
  | x :: l' => x ++ sep ++ join sep l'
  end.
