(* ===== verification/Values.v ===== *)
(** * Values: Postgres column values ([crates/palimpsest-wal/src/datum.rs])

    [Datum], its type tags, the two decoders ([decode_binary], [decode_text]) and
    every literal parser behind the text decoder. Floats are their bit patterns,
    as in the source ([F32(u32)], [F64(u64)]); the decimal-to-float conversion of
    [str::parse::<f32>] and [str::parse::<f64>] is a parameter of the text
    decoder. Integer arithmetic wraps, as in a release build. *)

From S2P Require Import Prelude Text.

(** ** Data *)

(** A decimal literal kept as text. *)
Record BigDecimal := { bd_text : text }.
Record Date := { days_since_unix_epoch : Z }.
Record Time := { micros_since_midnight : Z }.
Record Timestamp := { ts_micros_since_unix_epoch : Z }.
Record TimestampTz := { tstz_micros_since_unix_epoch : Z }.
Record Interval := { months : Z; days : Z; micros : Z }.
(** Sixteen bytes. *)
Record Uuid := { as_bytes : list byte }.

Inductive Datum : Type :=
| D_Bool (b : bool)
| D_I16 (z : Z)
| D_I32 (z : Z)
| D_I64 (z : Z)
| D_F32 (bits : Z)
| D_F64 (bits : Z)
| D_Numeric (d : BigDecimal)
| D_Text (t : list byte)
| D_Bytea (bs : list byte)
| D_Date (d : Date)
| D_Time (t : Time)
| D_Timestamp (t : Timestamp)
| D_TimestampTz (t : TimestampTz)
| D_Interval (i : Interval)
| D_Uuid (u : Uuid)
| D_Json (bs : list byte)
| D_Jsonb (bs : list byte)
| D_Array (items : list Datum)
| D_Null
| D_Unchanged.

Inductive DatumType : Type :=
| T_Bool | T_I16 | T_I32 | T_I64 | T_F32 | T_F64 | T_Numeric | T_Text | T_Bytea
| T_Date | T_Time | T_Timestamp | T_TimestampTz | T_Interval | T_Uuid | T_Json | T_Jsonb
| T_Array (inner : DatumType).

#[global] Instance DatumType_eq_dec : EqDecision DatumType.
Proof. solve_decision. Defined.

Inductive ColumnValue : Type :=
| C_Text (bs : list byte)
| C_Binary (bs : list byte)
| C_Null
| C_Unchanged.

Abbreviation Tuple := (list Datum).
Abbreviation Row := (list Datum).

(** ** Errors of the WAL path ([crates/palimpsest-wal/src/error.rs]) *)

Inductive WalError : Type :=
| UnsupportedTypeOid (oid : Z)
| Decode (datum_type : DatumType) (format : string)
| Utf8
| Int
| BoolLit (t : text)
| Binary (datum_type : DatumType)
| DateLit (t : text)
| TimeLit (t : text)
| TimestampLit (t : text)
| IntervalLit (t : text)
| UuidLit (t : text)
| UnexpectedEof (context : string)
| Malformed (what : string)
| UnknownRelation (table : Z)
| SlotGone (slot : string)
| TupleArity (table : Z) (expected actual : nat)
| UnsupportedMessage (tag : Z)
| InvalidRestartLsn
| Io.

Abbreviation wal := (exec WalError).

(** ** Type OIDs *)

(** [stock_postgres_16_type]: the OID constants of the source, in place. *)
Definition stock_postgres_16_type (oid : Z) : option DatumType :=
  match oid with
  | 16 => Some T_Bool
  | 17 => Some T_Bytea
  | 18 | 19 | 25 | 1042 | 1043 => Some T_Text
  | 20 => Some T_I64
  | 21 => Some T_I16
  | 22 | 1005 => Some (T_Array T_I16)
  | 23 => Some T_I32
  | 30 | 1007 => Some (T_Array T_I32)
  | 700 => Some T_F32
  | 701 => Some T_F64
  | 790 | 1700 => Some T_Numeric
  | 2950 => Some T_Uuid
  | 114 => Some T_Json
  | 3802 => Some T_Jsonb
  | 1082 => Some T_Date
  | 1083 => Some T_Time
  | 1114 => Some T_Timestamp
  | 1184 => Some T_TimestampTz
  | 1186 => Some T_Interval
  | 1000 => Some (T_Array T_Bool)
  | 1001 => Some (T_Array T_Bytea)
  | 1002 | 1003 | 1014 | 1015 => Some (T_Array T_Text)
  | 1009 => Some (T_Array T_Text)
  | 1016 => Some (T_Array T_I64)
  | 1021 => Some (T_Array T_F32)
  | 1022 => Some (T_Array T_F64)
  | 791 | 1231 => Some (T_Array T_Numeric)
  | 1182 => Some (T_Array T_Date)
  | 1183 => Some (T_Array T_Time)
  | 1115 => Some (T_Array T_Timestamp)
  | 1185 => Some (T_Array T_TimestampTz)
  | 1187 => Some (T_Array T_Interval)
  | 2951 => Some (T_Array T_Uuid)
  | 199 => Some (T_Array T_Json)
  | 3807 => Some (T_Array T_Jsonb)
  | 1006 => Some (T_Array (T_Array T_I16))
  | 1013 => Some (T_Array (T_Array T_I32))
  | _ => None
  end.

(** ** Binary format *)

Definition get_i16 (bs : list byte) : Z := sint 16 (be_decode (take 2 bs)).
Definition get_i32 (bs : list byte) : Z := sint 32 (be_decode (take 4 bs)).
Definition get_i64 (bs : list byte) : Z := sint 64 (be_decode (take 8 bs)).

Definition decode_binary (datum_type : DatumType) (bytes : list byte) : wal Datum :=
  let n := length bytes in
  match datum_type with
  | T_Bool =>
      if Nat.eqb n 1 then
        match bytes with b :: _ => Ok (D_Bool (negb (byte_Z b =? 0))) | [] => Panic end
      else Err (Binary datum_type)
  | T_I16 => if Nat.eqb n 2 then Ok (D_I16 (get_i16 bytes)) else Err (Binary datum_type)
  | T_I32 => if Nat.eqb n 4 then Ok (D_I32 (get_i32 bytes)) else Err (Binary datum_type)
  | T_I64 => if Nat.eqb n 8 then Ok (D_I64 (get_i64 bytes)) else Err (Binary datum_type)
  | T_F32 => if Nat.eqb n 4 then Ok (D_F32 (be_decode bytes)) else Err (Binary datum_type)
  | T_F64 => if Nat.eqb n 8 then Ok (D_F64 (be_decode bytes)) else Err (Binary datum_type)
  | T_Date =>
      if Nat.eqb n 4 then
        Ok (D_Date {| days_since_unix_epoch := sint 32 (get_i32 bytes + 10957) |})
      else Err (Binary datum_type)
  | T_Time =>
      if Nat.eqb n 8 then Ok (D_Time {| micros_since_midnight := get_i64 bytes |})
      else Err (Binary datum_type)
  | T_Timestamp =>
      if Nat.eqb n 8 then
        Ok (D_Timestamp {| ts_micros_since_unix_epoch := sint 64 (get_i64 bytes + 946684800000000) |})
      else Err (Binary datum_type)
  | T_TimestampTz =>
      if Nat.eqb n 8 then
        Ok (D_TimestampTz {| tstz_micros_since_unix_epoch := sint 64 (get_i64 bytes + 946684800000000) |})
      else Err (Binary datum_type)
  | T_Interval =>
      if Nat.eqb n 16 then
        Ok (D_Interval {| micros := get_i64 bytes; days := get_i32 (drop 8 bytes);
                          months := get_i32 (drop 12 bytes) |})
      else Err (Binary datum_type)
  | T_Uuid => if Nat.eqb n 16 then Ok (D_Uuid {| as_bytes := bytes |}) else Err (Binary datum_type)
  | T_Text => Ok (D_Text bytes)
  | T_Bytea => Ok (D_Bytea bytes)
  | T_Json => Ok (D_Json bytes)
  | T_Jsonb =>
      match bytes with
      | x01 :: rest => Ok (D_Jsonb rest)
      | _ => Err (Binary datum_type)
      end
  | T_Numeric | T_Array _ => Err (Decode datum_type "binary")
  end.

(** ** Calendar arithmetic *)

Definition i32 (z : Z) : Z := sint 32 z.
Definition i64 (z : Z) : Z := sint 64 z.

(** [days_from_civil]: days since 1970-01-01 of a proleptic Gregorian date.
    [/] on [i32] truncates. [month] and [day] are [u32]; converting one above
    [i32::MAX] panics ([expect]). *)
Definition days_from_civil (year month day : Z) : wal Z :=
  let year := i32 (year - (if month <=? 2 then 1 else 0)) in
  let era := Z.quot (if 0 <=? year then year else i32 (year - 399)) 400 in
  let yoe := i32 (year - i32 (era * 400)) in
  if I32_MAX <? month then Panic
  else if I32_MAX <? day then Panic
  else
    let doy := i32 (i32 (Z.quot (i32 (i32 (153 * i32 (month + (if 2 <? month then -3 else 9))) + 2)) 5
                         + day) - 1) in
    let doe := i32 (i32 (i32 (i32 (yoe * 365) + Z.quot yoe 4) - Z.quot yoe 100) + doy) in
    Ok (i32 (i32 (i32 (era * 146097) + doe) - 719468)).

Definition parse_ymd (t : text) : option (Z * Z * Z) :=
  match split x2d t with
  | [y; m; d] =>
      year ← parse_int I32_MIN I32_MAX y;
      month ← parse_int 0 U32_MAX m;
      day ← parse_int 0 U32_MAX d;
      Some (year, month, day)
  | _ => None
  end.

Definition parse_date (t : text) : wal Date :=
  let? ymd := ok_or (parse_ymd t) (DateLit t) in
  let '(year, month, day) := ymd in
  let? n := days_from_civil year month day in
  Ok {| days_since_unix_epoch := n |}.

(** [parse_hms_micros]: [HH:MM:SS] with an optional fraction, of which the first
    six bytes count ([resize(6, b'0')]). *)
Definition parse_hms_micros (t : text) : option Z :=
  match split x3a t with
  | [h; m; seconds_part] =>
      hours ← parse_int I64_MIN I64_MAX h;
      minutes ← parse_int I64_MIN I64_MAX m;
      '(seconds, micros) ←
        match split_once x2e seconds_part with
        | Some (s, fraction) =>
            let fraction := take 6 fraction ++ replicate (6 - length fraction) x30 in
            if utf8_valid fraction then
              micros ← parse_int I64_MIN I64_MAX fraction;
              seconds ← parse_int I64_MIN I64_MAX s;
              Some (seconds, micros)
            else None
        | None =>
            seconds ← parse_int I64_MIN I64_MAX seconds_part;
            Some (seconds, 0)
        end;
      Some (i64 (i64 (i64 (i64 (i64 (i64 (hours * 60) + minutes) * 60) + seconds) * 1000000) + micros))
  | _ => None
  end.

Definition parse_time (t : text) : wal Time :=
  let? us := ok_or (parse_hms_micros t) (TimeLit t) in
  Ok {| micros_since_midnight := us |}.

Definition parse_timestamp (t : text) : wal Timestamp :=
  let? parts := ok_or (match split_once x20 t with
                       | Some p => Some p
                       | None => split_once x54 t
                       end) (TimestampLit t) in
  let '(date, time) := parts in
  let? date := parse_date date in
  let? time := parse_time time in
  Ok {| ts_micros_since_unix_epoch :=
          i64 (i64 (days_since_unix_epoch date * 86400000000) + micros_since_midnight time) |}.

Definition parse_timestamp_tz (t : text) : wal TimestampTz :=
  let trimmed := trim_end_matches (lit "Z") (trim_end_matches (lit "+00") t) in
  let? timestamp := parse_timestamp trimmed in
  Ok {| tstz_micros_since_unix_epoch := ts_micros_since_unix_epoch timestamp |}.

Fixpoint parse_interval_parts (whole : text) (micros : Z) (parts : list text) : wal Z :=
  match parts with
  | [] => Ok micros
  | part :: rest =>
      match parse_int I64_MIN I64_MAX part with
      | Some value =>
          match rest with
          | unit :: rest' =>
              let add k := parse_interval_parts whole (i64 (micros + i64 (value * k))) rest' in
              if starts_with (lit "day") unit then add 86400000000
              else if starts_with (lit "hour") unit then add 3600000000
              else if starts_with (lit "min") unit then add 60000000
              else if starts_with (lit "sec") unit then add 1000000
              else Err (IntervalLit whole)
          | [] => Err (IntervalLit whole)
          end
      | None =>
          if contains_byte x3a part then
            let? us := ok_or (parse_hms_micros part) (IntervalLit whole) in
            parse_interval_parts whole (i64 (micros + us)) rest
          else Err (IntervalLit whole)
      end
  end.

Definition parse_interval (t : text) : wal Interval :=
  let? us := parse_interval_parts t 0 (split_whitespace t) in
  Ok {| months := 0; days := 0; micros := us |}.

(** ** Other literals *)

Definition parse_bool (t : text) : wal bool :=
  if decide (t = lit "t" \/ t = lit "true" \/ t = lit "1") then Ok true
  else if decide (t = lit "f" \/ t = lit "false" \/ t = lit "0") then Ok false
  else Err (BoolLit t).

(** The byte loop shared by [parse_text_bytea] and [parse_uuid]: two hex
    characters per byte, sliced out of the text at [2 * index]. *)
Fixpoint hex_pairs (e : WalError) (hex : text) (index : nat) (n : nat) : wal (list byte) :=
  match n with
  | O => Ok []
  | S n' =>
      let? two := str_slice hex (2 * index) (2 * index + 2) in
      let? b := ok_or (parse_radix 16 0 U8_MAX two) e in
      let? bs := hex_pairs e hex (S index) n' in
      Ok (Z_byte b :: bs)
  end.

Definition parse_text_bytea (t : text) : wal (list byte) :=
  match strip_prefix (lit "\x") t with
  | None => Ok t
  | Some hex =>
      if Nat.odd (length hex) then Err (Binary T_Bytea)
      else hex_pairs (Binary T_Bytea) hex 0 (length hex / 2)
  end.

Definition parse_uuid (t : text) : wal Uuid :=
  let compact := filter (fun b => b <> x2d) t in
  if Nat.eqb (length compact) 32 then
    let? bs := hex_pairs (UuidLit t) compact 0 16 in
    Ok {| as_bytes := bs |}
  else Err (UuidLit t).

(** [Display for Uuid]: lower-case hex, hyphens before bytes 4, 6, 8 and 10. *)
Definition uuid_display (u : Uuid) : text :=
  concat (imap (fun index b =>
    (if bool_decide (index ∈ [4; 6; 8; 10]%nat) then [x2d] else []) ++ hex_byte b) (as_bytes u)).

Section TextDecoder.
(** [str::parse::<f32>().map(f32::to_bits)] and its [f64] counterpart. *)
Context (parse_f32 parse_f64 : text -> option Z).

Definition parse_f32_bits (t : text) : wal Z := ok_or (parse_f32 t) (Decode T_F32 "text").
Definition parse_f64_bits (t : text) : wal Z := ok_or (parse_f64 t) (Decode T_F64 "text").

(** [decode_text] and [parse_array] are mutually recursive in the source, on
    the type: [parse_array] calls [decode_text] at the element type. *)
Definition parse_array_with (decode_inner : text -> wal Datum) (inner : DatumType) (t : text)
  : wal (list Datum) :=
  let? body := ok_or (strip_prefix (lit "{") t ≫= strip_suffix (lit "}"))
                     (Decode (T_Array inner) "text") in
  match body with
  | [] => Ok []
  | _ :: _ => exec_mapM (fun item => decode_inner (trim_matches x22 item)) (split x2c body)
  end.

Fixpoint decode_text (datum_type : DatumType) (bytes : text) : wal Datum :=
  if utf8_valid bytes then
    match datum_type with
    | T_Bool => exec_map D_Bool (parse_bool bytes)
    | T_I16 => exec_map D_I16 (ok_or (parse_int (- 2 ^ 15) (2 ^ 15 - 1) bytes) Int)
    | T_I32 => exec_map D_I32 (ok_or (parse_int I32_MIN I32_MAX bytes) Int)
    | T_I64 => exec_map D_I64 (ok_or (parse_int I64_MIN I64_MAX bytes) Int)
    | T_F32 => exec_map D_F32 (parse_f32_bits bytes)
    | T_F64 => exec_map D_F64 (parse_f64_bits bytes)
    | T_Numeric => Ok (D_Numeric {| bd_text := bytes |})
    | T_Text => Ok (D_Text bytes)
    | T_Bytea => exec_map D_Bytea (parse_text_bytea bytes)
    | T_Date => exec_map D_Date (parse_date bytes)
    | T_Time => exec_map D_Time (parse_time bytes)
    | T_Timestamp => exec_map D_Timestamp (parse_timestamp bytes)
    | T_TimestampTz => exec_map D_TimestampTz (parse_timestamp_tz bytes)
    | T_Interval => exec_map D_Interval (parse_interval bytes)
    | T_Uuid => exec_map D_Uuid (parse_uuid bytes)
    | T_Json => Ok (D_Json bytes)
    | T_Jsonb => Ok (D_Jsonb bytes)
    | T_Array inner => exec_map D_Array (parse_array_with (decode_text inner) inner bytes)
    end
  else Err Utf8.

Definition parse_array (inner : DatumType) (t : text) : wal (list Datum) :=
  parse_array_with (decode_text inner) inner t.

Definition decode_column_value (datum_type : DatumType) (value : ColumnValue) : wal Datum :=
  match value with
  | C_Null => Ok D_Null
  | C_Unchanged => Ok D_Unchanged
  | C_Text bytes => decode_text datum_type bytes
  | C_Binary bytes => decode_binary datum_type bytes
  end.
End TextDecoder.
