(* ===== verification/Literals.v ===== *)
(** * Literals: round trips and failures of the column-value decoders

    The text and binary decoders of [Values] against reference encoders: the hex
    form of [bytea], the display form of a [Uuid], and the fixed-width binary
    formats. The date arithmetic of the text decoder is compared with the Gregorian
    calendar: leap years, month lengths and the successor of a day. *)

From S2P Require Import Prelude Text Values.

(** ** Hex loops *)

Definition hex_text (bs : list byte) : text := concat (map hex_byte bs).

Lemma length_hex_text bs : length (hex_text bs) = (2 * length bs)%nat.
Proof. induction bs as [|b bs IH]; [done|]. unfold hex_text in *. cbn [map concat]. rewrite length_app, IH. simpl. lia. Qed.

Lemma hex_text_ascii bs : is_ascii (hex_text bs) = true.
Proof.
  induction bs as [|b bs IH]; [done|]. unfold hex_text in *. cbn [map concat].
  by rewrite is_ascii_app, IH, hex_byte_ascii.
Qed.

Lemma Z_byte_byte_Z b : Z_byte (byte_Z b) = b.
Proof. apply byte_Z_inj. rewrite byte_Z_Z_byte. apply Z.mod_small, byte_Z_range. Qed.

(** The loop reads back what [hex_text] wrote, from any even position. *)
Lemma hex_pairs_hex_text e hex index bs rest :
  is_ascii hex = true -> drop (2 * index) hex = hex_text bs ++ rest ->
  hex_pairs e hex index (length bs) = Ok bs.
Proof.
  revert index; induction bs as [|b bs IH]; intros index Ha Hd; [done|].
  cbn [hex_pairs length]. unfold hex_text in Hd; cbn [map concat] in Hd; fold (hex_text bs) in Hd.
  assert (2 * index + 2 <= length hex)%nat as Hlen.
  { apply (f_equal (@length byte)) in Hd. rewrite length_drop, <- app_assoc, length_app in Hd.
    simpl in Hd. lia. }
  rewrite str_slice_ascii by (done || lia). cbn [exec_bind].
  replace (2 * index + 2 - 2 * index)%nat with 2%nat by lia.
  rewrite Hd. change (take 2 _) with (hex_byte b). rewrite parse_hex_byte. cbn [ok_or exec_bind].
  rewrite IH; [cbn [exec_bind]; by rewrite Z_byte_byte_Z | done|].
  replace (2 * S index)%nat with (2 * index + 2)%nat by lia.
  rewrite <- drop_drop, Hd. reflexivity.
Qed.

(** ** [bytea] *)

(** The hex text form of any byte string parses back to it. *)
Theorem parse_text_bytea_hex bs : parse_text_bytea (lit "\x" ++ hex_text bs) = Ok bs.
Proof.
  unfold parse_text_bytea. rewrite strip_prefix_app, length_hex_text.
  replace (Nat.odd (2 * length bs)) with false
    by (rewrite <- Nat.negb_even, Nat.even_mul; reflexivity).
  rewrite Nat.mul_comm, Nat.div_mul by lia.
  apply (hex_pairs_hex_text _ _ _ _ []); [apply hex_text_ascii | by rewrite app_nil_r].
Qed.

(** ** [Uuid] *)

Lemma hex_byte_no_dash b : filter (fun c => c <> x2d) (hex_byte b) = hex_byte b.
Proof.
  set (P := fun b => bool_decide (filter (fun c => c <> x2d) (hex_byte b) = hex_byte b)).
  assert (P b = true) as H by (apply byte_cases; vm_compute; reflexivity).
  unfold P in H. by apply bool_decide_eq_true in H.
Qed.

Lemma filter_dashes (dash : nat -> bool) bs :
  filter (fun c => c <> x2d)
    (concat (imap (fun i b => (if dash i then [x2d] else []) ++ hex_byte b) bs)) = hex_text bs.
Proof.
  revert dash; induction bs as [|b bs IH]; intros dash; [done|].
  rewrite imap_cons. cbn [concat]. rewrite !list.filter_app, hex_byte_no_dash.
  replace (filter (fun c => c <> x2d) (if dash 0%nat then [x2d] else [])) with (@nil byte)
    by (by destruct (dash 0%nat)).
  unfold hex_text; cbn [map concat]. f_equal. exact (IH (fun i => dash (S i))).
Qed.

Lemma compact_uuid_display u : filter (fun c => c <> x2d) (uuid_display u) = hex_text (as_bytes u).
Proof. unfold uuid_display. apply (filter_dashes (fun i => bool_decide (i ∈ [4; 6; 8; 10]%nat))). Qed.

(** ** Binary formats *)

(** The wire form Postgres sends for a value of each fixed-width type. *)
Definition encode_binary (d : Datum) : option (DatumType * list byte) :=
  match d with
  | D_Bool b => Some (T_Bool, [if b then x01 else x00])
  | D_I16 z => Some (T_I16, be_encode 2 (uint 16 z))
  | D_I32 z => Some (T_I32, be_encode 4 (uint 32 z))
  | D_I64 z => Some (T_I64, be_encode 8 (uint 64 z))
  | D_F32 z => Some (T_F32, be_encode 4 z)
  | D_F64 z => Some (T_F64, be_encode 8 z)
  | D_Text t => Some (T_Text, t)
  | D_Bytea bs => Some (T_Bytea, bs)
  | D_Date d => Some (T_Date, be_encode 4 (uint 32 (days_since_unix_epoch d - 10957)))
  | D_Time t => Some (T_Time, be_encode 8 (uint 64 (micros_since_midnight t)))
  | D_Timestamp t =>
      Some (T_Timestamp, be_encode 8 (uint 64 (ts_micros_since_unix_epoch t - 946684800000000)))
  | D_TimestampTz t =>
      Some (T_TimestampTz, be_encode 8 (uint 64 (tstz_micros_since_unix_epoch t - 946684800000000)))
  | D_Interval i =>
      Some (T_Interval, be_encode 8 (uint 64 (micros i)) ++ be_encode 4 (uint 32 (days i))
                          ++ be_encode 4 (uint 32 (months i)))
  | D_Uuid u => Some (T_Uuid, as_bytes u)
  | D_Json bs => Some (T_Json, bs)
  | D_Jsonb bs => Some (T_Jsonb, x01 :: bs)
  | D_Numeric _ | D_Array _ | D_Null | D_Unchanged => None
  end.

Definition fits (w z : Z) : bool := (- 2 ^ (w - 1) <=? z) && (z <? 2 ^ (w - 1)).
Definition ufits (w z : Z) : bool := (0 <=? z) && (z <? 2 ^ w).

(** The value is one its Rust type can hold. *)
Definition datum_wf (d : Datum) : bool :=
  match d with
  | D_I16 z => fits 16 z
  | D_I32 z => fits 32 z
  | D_I64 z => fits 64 z
  | D_F32 z => ufits 32 z
  | D_F64 z => ufits 64 z
  | D_Date d => fits 32 (days_since_unix_epoch d)
  | D_Time t => fits 64 (micros_since_midnight t)
  | D_Timestamp t => fits 64 (ts_micros_since_unix_epoch t)
  | D_TimestampTz t => fits 64 (tstz_micros_since_unix_epoch t)
  | D_Interval i => fits 64 (micros i) && fits 32 (days i) && fits 32 (months i)
  | D_Uuid u => Nat.eqb (length (as_bytes u)) 16
  | _ => true
  end.

(** Printing a UUID and parsing the text returns the same sixteen bytes. *)
Theorem parse_uuid_display u : datum_wf (D_Uuid u) = true -> parse_uuid (uuid_display u) = Ok u.
Proof.
  intros Hl%Nat.eqb_eq. unfold parse_uuid. rewrite compact_uuid_display, length_hex_text, Hl.
  cbn [Nat.mul Nat.add Nat.eqb]. rewrite <- Hl.
  rewrite (hex_pairs_hex_text _ _ _ _ []); [by destruct u | apply hex_text_ascii | by rewrite app_nil_r].
Qed.

Lemma be_decode_uint n w z :
  w = Z.of_nat n * 8 -> be_decode (be_encode n (uint w z)) = uint w z.
Proof.
  intros ->. apply be_decode_encode. unfold uint.
  replace (256 ^ Z.of_nat n) with (2 ^ (Z.of_nat n * 8))
    by (change 256 with (2 ^ 8); rewrite <- Z.pow_mul_r by lia; f_equal; lia).
  apply Z.mod_pos_bound, Z.pow_pos_nonneg; lia.
Qed.

Lemma sint_uint w z : sint w (uint w z) = sint w z.
Proof. unfold sint, uint. by rewrite Zmod_mod. Qed.

Lemma sint_shift w z k : 0 < w -> sint w (sint w (z - k) + k) = sint w z.
Proof.
  intros Hw. unfold sint at 1 3.
  assert ((sint w (z - k) + k) mod 2 ^ w = z mod 2 ^ w) as ->; [|done].
  assert (sint w (z - k) mod 2 ^ w = (z - k) mod 2 ^ w) as E.
  { unfold sint. destruct (_ <? _); [by rewrite Zmod_mod|].
    rewrite <- (Z.mul_1_l (2 ^ w)) at 2. rewrite Zminus_mod, Z_mod_mult, Z.sub_0_r, !Zmod_mod. done. }
  rewrite Zplus_mod, E, <- Zplus_mod. f_equal. lia.
Qed.

Lemma sint_fits w z : 0 < w -> fits w z = true -> sint w z = z.
Proof. unfold fits. intros Hw [H1 H2]%andb_true_iff. apply sint_id; lia. Qed.

Lemma take_be_encode n z rest : take n (be_encode n z ++ rest) = be_encode n z.
Proof. rewrite take_app_le, take_ge; rewrite ?length_be_encode; done. Qed.

Lemma get_signed n w z rest :
  w = Z.of_nat n * 8 -> 0 < w -> sint w (be_decode (take n (be_encode n (uint w z) ++ rest))) = sint w z.
Proof. intros Hw Hp. rewrite take_be_encode, be_decode_uint by done. apply sint_uint. Qed.

(** The three signed readings of [Values], on an encoding followed by anything. *)
Lemma get_i16_encode z rest : get_i16 (be_encode 2 (uint 16 z) ++ rest) = sint 16 z.
Proof. apply get_signed; lia. Qed.
Lemma get_i32_encode z rest : get_i32 (be_encode 4 (uint 32 z) ++ rest) = sint 32 z.
Proof. apply get_signed; lia. Qed.
Lemma get_i64_encode z rest : get_i64 (be_encode 8 (uint 64 z) ++ rest) = sint 64 z.
Proof. apply get_signed; lia. Qed.
#[local] Hint Rewrite get_i16_encode get_i32_encode get_i64_encode : palimpsest.

Lemma drop_be_encode n z rest : drop n (be_encode n z ++ rest) = rest.
Proof. apply drop_app_length'. by rewrite length_be_encode. Qed.

Lemma ufits_range w z : ufits w z = true -> 0 <= z < 2 ^ w.
Proof. unfold ufits. intros [H1 H2]%andb_true_iff. lia. Qed.

#[local] Opaque be_encode.

(** Decoding the binary wire form of a value of a supported type returns the value: integers at
    their width and sign, floats by bit pattern, dates and times shifted from the Postgres epoch,
    intervals, UUIDs, text and bytes. *)
Theorem decode_binary_encode d ty bs :
  datum_wf d = true -> encode_binary d = Some (ty, bs) -> decode_binary ty bs = Ok d.
Proof.
  intros Hwf He.
  destruct d as [[]| | | | | | | | |[dd]|[tt]|[ts]|[tz]|[mo da mi]|[ub]| | | | |]; cbn [datum_wf encode_binary as_bytes] in *;
    try discriminate; injection He as <- <-; cbn [decode_binary as_bytes];
    rewrite ?length_app, ?length_be_encode; cbn [Nat.eqb length Nat.add];
    try (rewrite Hwf); try done;
    try (rewrite <- (app_nil_r (be_encode _ _)); autorewrite with palimpsest;
         rewrite ?sint_shift by lia; rewrite sint_fits by (lia || done); done);
    try (rewrite be_decode_encode; [done|]; by apply ufits_range in Hwf).
  cbn [micros days months] in *. apply andb_true_iff in Hwf as [[H1 H2]%andb_true_iff H3].
  rewrite get_i64_encode, drop_be_encode, get_i32_encode.
  change 12%nat with (8 + 4)%nat. rewrite <- drop_drop, drop_be_encode, drop_be_encode.
  rewrite <- (app_nil_r (be_encode 4 _)), get_i32_encode.
  by rewrite !sint_fits by (lia || done).
Qed.

(** ** The calendar *)

(** *** Specification: the proleptic Gregorian calendar *)

Definition is_leap (y : Z) : bool :=
  (y mod 4 =? 0) && (negb (y mod 100 =? 0) || (y mod 400 =? 0)).

Definition days_in_month (y m : Z) : Z :=
  if m =? 2 then (if is_leap y then 29 else 28)
  else if (m =? 4) || (m =? 6) || (m =? 9) || (m =? 11) then 30 else 31.

Definition valid_date (y m d : Z) : Prop := 1 <= m <= 12 /\ 1 <= d <= days_in_month y m.

Definition next_day (y m d : Z) : Z * Z * Z :=
  if d <? days_in_month y m then (y, m, d + 1)
  else if m =? 12 then (y + 1, 1, 1) else (y, m + 1, 1).

(** Years whose day count fits an [i32] with room to spare. *)
Definition year_ok (y : Z) : Prop := -5000000 <= y <= 5000000.

(** *** The arithmetic without wrap-around *)

(** Days before 1 March of year [y], counted from 0000-03-01. *)
Definition march_days (y : Z) : Z := 365 * y + y / 4 - y / 100 + y / 400.
Definition month_offset (m : Z) : Z := (153 * (m + (if 2 <? m then -3 else 9)) + 2) / 5.
Definition civil (y m d : Z) : Z :=
  march_days (y - (if m <=? 2 then 1 else 0)) + month_offset m + d - 1 - 719468.

Ltac euclid := Z.to_euclidean_division_equations; lia.

Lemma era_yoe y :
  let era := y / 400 in let yoe := y - era * 400 in
  era * 146097 + (yoe * 365 + yoe / 4 - yoe / 100) = march_days y.
Proof. unfold march_days. simpl. euclid. Qed.

Lemma era_floor y : Z.quot (if 0 <=? y then y else y - 399) 400 = y / 400.
Proof. destruct (Z.leb_spec 0 y); euclid. Qed.

Lemma month_offset_range m : 1 <= m <= 12 -> 0 <= month_offset m <= 337.
Proof. unfold month_offset. intros. destruct (Z.ltb_spec 2 m); euclid. Qed.

Lemma i32_id z : -2147483648 <= z <= 2147483647 -> i32 z = z.
Proof. intros. unfold i32. apply sint_id; [lia|]. change (2 ^ (32 - 1)) with 2147483648. lia. Qed.

(** Remove the innermost wrap-around whose argument is in range. *)
Ltac no_wrap :=
  match goal with
  | |- context [i32 ?z] =>
      lazymatch z with context [i32 _] => fail | _ => rewrite (i32_id z) by euclid end
  end.

(** In range, the 32-bit computation is the exact one. *)
Lemma days_from_civil_exact y m d :
  year_ok y -> 1 <= m <= 12 -> 1 <= d <= 31 -> days_from_civil y m d = Ok (civil y m d).
Proof.
  unfold year_ok. intros Hy Hm Hd. unfold days_from_civil, civil.
  set (y' := y - (if m <=? 2 then 1 else 0)).
  assert (-5000001 <= y' <= 5000000) as Hy' by (unfold y'; destruct (m <=? 2); lia).
  rewrite (i32_id y'), (i32_id (y' - 399)), era_floor by lia.
  destruct (Z.ltb_spec I32_MAX m); [unfold I32_MAX in *; lia|].
  destruct (Z.ltb_spec I32_MAX d); [unfold I32_MAX in *; lia|].
  f_equal. rewrite <- (era_yoe y'). pose proof (month_offset_range m Hm) as Hmo.
  assert (-12501 <= y' / 400 <= 12500) as He by euclid.
  assert (0 <= y' - y' / 400 * 400 < 400) as Hr by euclid.
  revert He Hr. cbv zeta. generalize (y' / 400) as era; intros era He.
  rewrite (i32_id (era * 400)) by lia.
  generalize (y' - era * 400) as yoe; intros yoe Hr.
  rewrite !(i32_id yoe), (i32_id (yoe * 365)), (i32_id (era * 146097)) by lia.
  rewrite !Z.quot_div_nonneg by lia.
  rewrite (i32_id (m + _)) by (destruct (2 <? m); lia).
  rewrite (i32_id (153 * _)) by (destruct (2 <? m); lia).
  rewrite (i32_id (153 * _ + 2)) by (destruct (2 <? m); lia).
  rewrite Z.quot_div_nonneg by (destruct (Z.ltb_spec 2 m); lia).
  fold (month_offset m).
  assert (0 <= yoe / 4 <= 100 /\ 0 <= yoe / 100 <= 4) by euclid.
  repeat no_wrap. lia.
Qed.

(** *** The calendar theorem *)

Lemma march_days_succ y : march_days y = march_days (y - 1) + 365 + (if is_leap y then 1 else 0).
Proof.
  unfold march_days, is_leap.
  destruct (Z.eqb_spec (y mod 4) 0), (Z.eqb_spec (y mod 100) 0), (Z.eqb_spec (y mod 400) 0);
    simpl; euclid.
Qed.

(** Evaluate the closed month computations of the goal. *)
Ltac consts :=
  repeat match goal with
  | |- context [month_offset ?k] =>
      let v := eval vm_compute in (month_offset k) in change (month_offset k) with v
  | |- context [?a <=? ?b] => let v := eval vm_compute in (a <=? b) in change (a <=? b) with v
  | |- context [?a =? ?b] => let v := eval vm_compute in (a =? b) in change (a =? b) with v
  | |- context [days_in_month ?y ?k] =>
      lazymatch k with
      | 2 => fail
      | _ => let v := eval vm_compute in (days_in_month y k) in change (days_in_month y k) with v
      end
  | |- context [Zpos ?a + 1] =>
      let v := eval vm_compute in (Zpos a + 1) in change (Zpos a + 1) with v
  | _ => progress cbv beta iota zeta
  end.

Lemma civil_next_day y m d :
  valid_date y m d -> let '(y', m', d') := next_day y m d in civil y' m' d' = civil y m d + 1.
Proof.
  intros [Hm Hd]. unfold next_day. destruct (Z.ltb_spec d (days_in_month y m)) as [Hlt|Hge].
  - unfold civil. lia.
  - assert (d = days_in_month y m) as -> by lia. clear Hd Hge.
    assert (m = 1 \/ m = 2 \/ m = 3 \/ m = 4 \/ m = 5 \/ m = 6 \/ m = 7 \/ m = 8 \/ m = 9 \/ m = 10
            \/ m = 11 \/ m = 12) as Hc by lia.
    unfold civil. destruct Hc as [->|[->|Hc]]; [consts; lia| |].
    + consts. rewrite Z.sub_0_r, (march_days_succ y). unfold days_in_month.
      change (2 =? 2) with true. destruct (is_leap y); lia.
    + decompose [or] Hc; subst m; consts; rewrite ?Z.sub_0_r, ?Z.add_simpl_r; lia.
Qed.

Lemma days_in_month_range y m : 28 <= days_in_month y m <= 31.
Proof.
  unfold days_in_month.
  repeat match goal with |- context [if ?b then _ else _] => destruct b end; lia.
Qed.

Lemma next_day_valid y m d :
  valid_date y m d -> let '(y', m', d') := next_day y m d in valid_date y' m' d'.
Proof.
  intros [Hm Hd]. unfold next_day, valid_date.
  destruct (Z.ltb_spec d (days_in_month y m)); [lia|].
  destruct (Z.eqb_spec m 12); [pose proof (days_in_month_range (y + 1) 1) | pose proof (days_in_month_range y (m + 1))]; lia.
Qed.

(** The count starts at the Unix epoch. *)
Lemma days_from_civil_epoch : days_from_civil 1970 1 1 = Ok 0.
Proof. vm_compute. reflexivity. Qed.

(** The day number of a Gregorian date is exact: zero at the Unix epoch, and one more for each
    following day, across month ends, year ends and leap years, for all years within five million of
    year zero. *)
Theorem days_from_civil_calendar y m d :
  year_ok y -> valid_date y m d ->
  days_from_civil 1970 1 1 = Ok 0 /\
  exists n, days_from_civil y m d = Ok n /\
    (let '(y', m', d') := next_day y m d in year_ok y' -> days_from_civil y' m' d' = Ok (n + 1)).
Proof.
  intros Hy Hv. pose proof (next_day_valid y m d Hv) as Hv'. pose proof (civil_next_day y m d Hv) as Hn.
  pose proof (days_in_month_range y m). destruct Hv as [Hm Hd].
  split; [apply days_from_civil_epoch|].
  exists (civil y m d). split; [apply days_from_civil_exact; lia || done|].
  destruct (next_day y m d) as [[y' m'] d']. intros Hy'. destruct Hv' as [Hm' Hd'].
  pose proof (days_in_month_range y' m'). rewrite <- Hn. apply days_from_civil_exact; lia || done.
Qed.
