(* ===== verification/Catalog.v ===== *)
(** * Catalog: relations announced by the replication stream
    ([crates/palimpsest-wal/src/catalog.rs], [types.rs]) *)

From S2P Require Import Prelude BTree Text Values.

Record ColumnDef := {
  col_name : string;
  col_type_oid : Z;
  col_datum_type : DatumType;
  col_nullable : bool;
  col_key : bool
}.

Inductive ReplicaIdentity := RI_Default | RI_Nothing | RI_Full | RI_Index.

Record RelationSchema := {
  rel_table : Z;
  rel_namespace : string;
  rel_name : string;
  rel_replica_identity : ReplicaIdentity;
  rel_columns : list ColumnDef
}.

(** The [BTreeMap<TableId, RelationSchema>] of the catalog. *)
Abbreviation Catalog := (btree Z RelationSchema).

Definition upsert_relation (c : Catalog) (r : RelationSchema) : Catalog :=
  bt_insert (rel_table r) r c.
Definition remove_relation (c : Catalog) (table : Z) : option RelationSchema * Catalog :=
  (bt_get table c, bt_remove table c).
Definition relation (c : Catalog) (table : Z) : option RelationSchema := bt_get table c.

(** [TryFrom<u8> for ReplicaIdentity]. *)
Definition replica_identity_try_from (b : byte) : wal ReplicaIdentity :=
  match b with
  | x64 => Ok RI_Default
  | x6e => Ok RI_Nothing
  | x66 => Ok RI_Full
  | x69 => Ok RI_Index
  | _ => Err (Malformed "unknown replica identity")
  end.

Definition column_from_pgoutput (flags : Z) (name : string) (type_oid : Z) : ColumnDef :=
  {| col_name := name; col_type_oid := type_oid;
     col_datum_type := default T_Text (stock_postgres_16_type type_oid);
     col_nullable := true; col_key := Z.land flags 1 =? 1 |}.

(** ** Loading from the system catalog *)

Record CatalogProbeRow := {
  pr_table_oid : Z;
  pr_namespace : string;
  pr_table_name : string;
  pr_replica_identity : ReplicaIdentity;
  pr_column_name : string;
  pr_type_oid : Z;
  pr_attnum : Z;
  pr_nullable : bool;
  pr_primary_key : bool
}.

Record ProbeRelation := {
  prel_table : Z;
  prel_namespace : string;
  prel_name : string;
  prel_replica_identity : ReplicaIdentity;
  prel_columns : list (Z * ColumnDef)
}.

Definition probe_column (row : CatalogProbeRow) : ColumnDef :=
  {| col_name := pr_column_name row; col_type_oid := pr_type_oid row;
     col_datum_type := default T_Text (stock_postgres_16_type (pr_type_oid row));
     col_nullable := pr_nullable row; col_key := pr_primary_key row |}.

Definition probe_relation_new (row : CatalogProbeRow) : ProbeRelation :=
  {| prel_table := pr_table_oid row; prel_namespace := pr_namespace row;
     prel_name := pr_table_name row; prel_replica_identity := pr_replica_identity row;
     prel_columns := [] |}.

Definition probe_push (row : CatalogProbeRow) (r : ProbeRelation) : ProbeRelation :=
  {| prel_table := prel_table r; prel_namespace := prel_namespace r; prel_name := prel_name r;
     prel_replica_identity := prel_replica_identity r;
     prel_columns := prel_columns r ++ [(pr_attnum row, probe_column row)] |}.

(** [sort_by_key(|(attnum, _)| *attnum)], a stable sort. *)
Fixpoint insert_by_attnum (c : Z * ColumnDef) (l : list (Z * ColumnDef)) : list (Z * ColumnDef) :=
  match l with
  | [] => [c]
  | d :: l' => if c.1 <=? d.1 then c :: l else d :: insert_by_attnum c l'
  end.
Definition sort_by_attnum (l : list (Z * ColumnDef)) : list (Z * ColumnDef) :=
  foldr insert_by_attnum [] l.

Definition finish_relation (r : ProbeRelation) : RelationSchema :=
  {| rel_table := prel_table r; rel_namespace := prel_namespace r; rel_name := prel_name r;
     rel_replica_identity := prel_replica_identity r;
     rel_columns := (sort_by_attnum (prel_columns r)).*2 |}.

Definition load_catalog_from_probe_rows (rows : list CatalogProbeRow) : Catalog :=
  let grouped : btree Z ProbeRelation :=
    fold_left (fun g row => bt_entry (pr_table_oid row) (probe_relation_new row) (probe_push row) g)
      rows [] in
  fold_left (fun c kv => upsert_relation c (finish_relation kv.2)) grouped [].

(** ** Facts *)

Lemma relation_upsert c r table :
  bt_wf c ->
  relation (upsert_relation c r) table =
  if decide (table = rel_table r) then Some r else relation c table.
Proof.
  intros Hwf. unfold relation, upsert_relation. destruct (decide (table = rel_table r)) as [->|Hne].
  - by apply bt_get_insert_eq.
  - by apply bt_get_insert_ne.
Qed.

Lemma bt_wf_upsert c r : bt_wf c -> bt_wf (upsert_relation c r).
Proof. apply bt_wf_insert. Qed.

#[export] Hint Resolve bt_wf_upsert : palimpsest.
