(* ===== verification/Protocol.v ===== *)
(** * Protocol: decoding [pgoutput] messages
    ([crates/palimpsest-wal/src/protocol.rs])

    [Decoder] is the list of bytes not yet consumed; a reader returns its value
    and the rest. [decode_pgoutput_message] returns the catalog along with the
    result, because a [Relation] message updates it even when the message is
    rejected afterwards. *)

From S2P Require Import Prelude BTree Text Values Catalog.

(** ** Events *)

Inductive RowOp := Insert | Update | Delete.

Record Truncate := { tr_tables : list Z; tr_cascade : bool; tr_restart_identity : bool }.
Record Origin := { or_lsn : Z; or_name : string }.
Record TypeInfo := { ti_oid : Z; ti_namespace : string; ti_name : string }.

Inductive StreamAction :=
| SA_Start (xid : Z) (first_segment : bool)
| SA_Stop
| SA_Commit (xid commit_lsn end_lsn : Z)
| SA_Abort (xid subxid : Z).

Inductive TwoPhaseAction :=
| BeginPrepare (xid : Z) (gid : string)
| Prepare (xid : Z) (gid : string)
| CommitPrepared (xid : Z) (gid : string)
| RollbackPrepared (xid : Z) (gid : string).

Inductive DecodedEvent :=
| E_Begin (xid commit_lsn : Z)
| E_Row (table : Z) (op : RowOp) (old new : option Tuple)
| E_Commit (commit_lsn end_lsn : Z)
| E_Schema (table : Z) (columns : list ColumnDef)
| E_Heartbeat (lsn : Z)
| E_Reconnect (attempt : Z)
| E_Resync (snapshot_lsn : Z)
| E_Truncate (t : Truncate)
| E_Origin (o : Origin)
| E_Type (t : TypeInfo)
| E_Stream (a : StreamAction)
| E_TwoPhase (a : TwoPhaseAction).

(** ** The byte reader *)

Definition dec (A : Type) : Type := list byte -> wal (A * list byte).

Definition dec_ret {A} (a : A) : dec A := fun bs => Ok (a, bs).
Definition dec_fail {A} (e : WalError) : dec A := fun _ => Err e.
Definition dec_bind {A B} (m : dec A) (k : A -> dec B) : dec B :=
  fun bs => let? r := m bs in k r.1 r.2.
Definition dec_lift {A} (m : wal A) : dec A := fun bs => let? a := m in Ok (a, bs).

Notation "'let!' x ':=' m 'in' k" := (dec_bind m (fun x => k))
  (at level 10, x pattern, m at level 100, k at level 200) : palimpsest_scope.

(** [n] bytes read big-endian, or [UnexpectedEof]. *)
Definition read_be (n : nat) (context : string) : dec Z := fun bs =>
  if (length bs <? n)%nat then Err (UnexpectedEof context)
  else Ok (be_decode (take n bs), drop n bs).

Definition read_u8 : string -> dec Z := read_be 1.
Definition read_u16 : string -> dec Z := read_be 2.
Definition read_u32 : string -> dec Z := read_be 4.
Definition read_u64 : string -> dec Z := read_be 8.

Definition expect_tag (expected : byte) (context : string) : dec unit :=
  let! actual := read_u8 context in
  if actual =? byte_Z expected then dec_ret tt else dec_fail (Malformed context).

Definition bytes_i32 (context : string) : dec (list byte) :=
  let! len := read_u32 context in
  fun bs =>
    if Z.of_nat (length bs) <? len then Err (UnexpectedEof context)
    else Ok (take (Z.to_nat len) bs, drop (Z.to_nat len) bs).

(** Split at the first zero byte. *)
Fixpoint split_nul (bs : list byte) : option (list byte * list byte) :=
  match bs with
  | [] => None
  | b :: bs' =>
      if decide (b = x00) then Some ([], bs')
      else '(p, q) ← split_nul bs'; Some (b :: p, q)
  end.

Definition cstr (context : string) : dec string := fun bs =>
  match split_nul bs with
  | None => Err (UnexpectedEof context)
  | Some (value, rest) =>
      if utf8_valid value then Ok (text_string value, rest) else Err Utf8
  end.

Definition finish : dec unit := fun bs =>
  match bs with
  | [] => Ok (tt, [])
  | _ :: _ => Err (Malformed "trailing bytes")
  end.

(** A [for _ in 0..n] loop. *)
Fixpoint dec_repeat {A} (n : nat) (m : dec A) : dec (list A) :=
  match n with
  | O => dec_ret []
  | S n' => let! a := m in let! l := dec_repeat n' m in dec_ret (a :: l)
  end.

(** ** Messages *)

Definition decode_column : dec ColumnDef :=
  let! flags := read_u8 "relation column flags" in
  let! name := cstr "relation column name" in
  let! type_oid := read_u32 "relation column type oid" in
  let! _ := read_u32 "relation column type modifier" in
  dec_ret (column_from_pgoutput flags name type_oid).

(** Returns the schema to be upserted and the event. *)
Definition decode_relation : dec (RelationSchema * DecodedEvent) :=
  let! table := read_u32 "relation id" in
  let! namespace := cstr "relation namespace" in
  let! name := cstr "relation name" in
  let! ri := read_u8 "relation replica identity" in
  let! replica_identity := dec_lift (replica_identity_try_from (Z_byte ri)) in
  let! column_count := read_u16 "relation column count" in
  let! columns := dec_repeat (Z.to_nat column_count) decode_column in
  dec_ret ({| rel_table := table; rel_namespace := namespace; rel_name := name;
              rel_replica_identity := replica_identity; rel_columns := columns |},
           E_Schema table columns).

Definition read_value : dec ColumnValue :=
  let! kind := read_u8 "tuple column kind" in
  if kind =? byte_Z x6e then dec_ret C_Null
  else if kind =? byte_Z x75 then dec_ret C_Unchanged
  else if kind =? byte_Z x74 then let! bs := bytes_i32 "tuple text column" in dec_ret (C_Text bs)
  else if kind =? byte_Z x62 then let! bs := bytes_i32 "tuple binary column" in dec_ret (C_Binary bs)
  else dec_fail (Malformed "unknown tuple column kind").

Section Decoder.
(** Decimal-to-float conversion of the standard library. *)
Context (parse_f32 parse_f64 : text -> option Z).
Abbreviation decode_column_value := (decode_column_value parse_f32 parse_f64).

Fixpoint decode_values (columns : list ColumnDef) : dec Tuple :=
  match columns with
  | [] => dec_ret []
  | column :: columns' =>
      let! value := read_value in
      let! d := dec_lift (decode_column_value (col_datum_type column) value) in
      let! tuple := decode_values columns' in
      dec_ret (d :: tuple)
  end.

Definition decode_tuple (catalog : Catalog) (table : Z) : dec Tuple :=
  match relation catalog table with
  | None => dec_fail (UnknownRelation table)
  | Some r =>
      let! value_count := read_u16 "tuple column count" in
      if Nat.eqb (length (rel_columns r)) (Z.to_nat value_count)
      then decode_values (rel_columns r)
      else dec_fail (TupleArity table (length (rel_columns r)) (Z.to_nat value_count))
  end.

Definition decode_insert (catalog : Catalog) : dec DecodedEvent :=
  let! table := read_u32 "insert relation id" in
  let! _ := expect_tag x4e "insert new tuple" in
  let! new := decode_tuple catalog table in
  dec_ret (E_Row table Insert None (Some new)).

Definition decode_update (catalog : Catalog) : dec DecodedEvent :=
  let! table := read_u32 "update relation id" in
  let! marker := read_u8 "update tuple marker" in
  let! old :=
    if (marker =? byte_Z x4b) || (marker =? byte_Z x4f) then
      let! old := decode_tuple catalog table in
      let! _ := expect_tag x4e "update new tuple" in
      dec_ret (Some old)
    else if marker =? byte_Z x4e then dec_ret None
    else dec_fail (Malformed "unexpected update tuple marker") in
  let! new := decode_tuple catalog table in
  dec_ret (E_Row table Update old (Some new)).

Definition decode_delete (catalog : Catalog) : dec DecodedEvent :=
  let! table := read_u32 "delete relation id" in
  let! marker := read_u8 "delete tuple marker" in
  if (marker =? byte_Z x4b) || (marker =? byte_Z x4f) then
    let! old := decode_tuple catalog table in
    dec_ret (E_Row table Delete (Some old) None)
  else dec_fail (Malformed "unexpected delete tuple marker").

Definition decode_truncate : dec DecodedEvent :=
  let! relation_count := read_u32 "truncate relation count" in
  let! options := read_u8 "truncate options" in
  let! tables := dec_repeat (Z.to_nat relation_count) (read_u32 "truncate relation id") in
  dec_ret (E_Truncate {| tr_tables := tables; tr_cascade := Z.land options 1 =? 1;
                         tr_restart_identity := Z.land options 2 =? 2 |}).

Definition decode_prepare_prefix : dec Z :=
  let! _ := read_u8 "two-phase flags" in
  let! _ := read_u64 "two-phase prepare lsn" in
  let! _ := read_u64 "two-phase end lsn" in
  let! _ := read_u64 "two-phase timestamp" in
  read_u32 "two-phase xid".

Definition two_phase (mk : Z -> string -> TwoPhaseAction) (context : string) : dec DecodedEvent :=
  let! xid := decode_prepare_prefix in
  let! gid := cstr context in
  dec_ret (E_TwoPhase (mk xid gid)).

(** The body of a message other than [Relation], by tag. *)
Definition decode_body (catalog : Catalog) (tag : byte) : dec DecodedEvent :=
  match tag with
  | x42 => (* B *)
      let! commit_lsn := read_u64 "begin final lsn" in
      let! _ := read_u64 "begin commit timestamp" in
      let! xid := read_u32 "begin xid" in
      dec_ret (E_Begin xid commit_lsn)
  | x43 => (* C *)
      let! _ := read_u8 "commit flags" in
      let! commit_lsn := read_u64 "commit lsn" in
      let! end_lsn := read_u64 "commit end lsn" in
      let! _ := read_u64 "commit timestamp" in
      dec_ret (E_Commit commit_lsn end_lsn)
  | x59 => (* Y *)
      let! oid := read_u32 "type oid" in
      let! namespace := cstr "type namespace" in
      let! name := cstr "type name" in
      dec_ret (E_Type {| ti_oid := oid; ti_namespace := namespace; ti_name := name |})
  | x49 => decode_insert catalog (* I *)
  | x55 => decode_update catalog (* U *)
  | x44 => decode_delete catalog (* D *)
  | x54 => decode_truncate (* T *)
  | x4f => (* O *)
      let! lsn := read_u64 "origin lsn" in
      let! name := cstr "origin name" in
      dec_ret (E_Origin {| or_lsn := lsn; or_name := name |})
  | x53 => (* S *)
      let! xid := read_u32 "stream xid" in
      let! flags := read_u8 "stream flags" in
      dec_ret (E_Stream (SA_Start xid (Z.land flags 1 =? 1)))
  | x45 => dec_ret (E_Stream SA_Stop) (* E *)
  | x63 => (* c *)
      let! xid := read_u32 "stream commit xid" in
      let! _ := read_u8 "stream commit flags" in
      let! commit_lsn := read_u64 "stream commit lsn" in
      let! end_lsn := read_u64 "stream commit end lsn" in
      let! _ := read_u64 "stream commit timestamp" in
      dec_ret (E_Stream (SA_Commit xid commit_lsn end_lsn))
  | x41 => (* A *)
      let! xid := read_u32 "stream abort xid" in
      let! subxid := read_u32 "stream abort subxid" in
      dec_ret (E_Stream (SA_Abort xid subxid))
  | x62 => two_phase BeginPrepare "begin prepare gid" (* b *)
  | x50 => two_phase Prepare "prepare gid" (* P *)
  | x4b => two_phase CommitPrepared "commit prepared gid" (* K *)
  | x72 => two_phase RollbackPrepared "rollback prepared gid" (* r *)
  | _ => dec_fail (UnsupportedMessage (byte_Z tag))
  end.

(** The result and the catalog afterwards. *)
Definition decode_pgoutput_message (catalog : Catalog) (bytes : list byte)
  : wal DecodedEvent * Catalog :=
  match bytes with
  | [] => (Err (UnexpectedEof "message tag"), catalog)
  | x52 :: rest => (* R *)
      match decode_relation rest with
      | Ok ((schema, event), rest') =>
          (exec_map (fun _ => event) (finish rest'), upsert_relation catalog schema)
      | Err e => (Err e, catalog)
      | Panic => (Panic, catalog)
      end
  | tag :: rest =>
      (exec_map fst ((let! event := decode_body catalog tag in
                      let! _ := finish in dec_ret event) rest), catalog)
  end.
End Decoder.
