(* ===== verification/Wire.v ===== *)
(** * Wire: the [pgoutput] message grammar, and the decoder against it

    The layout of each logical-replication message, outside streamed blocks, as
    PostgreSQL documents it (the vendored parser of pg-walstream reads the same
    layouts), as a reference encoder, the meaning of a message as a function of the catalog, and the theorem that
    [decode_pgoutput_message] computes that meaning on every well-formed message
    and rejects the same message followed by anything; the two messages whose layout
    it does not know are set apart by [layout_known]. *)

From S2P Require Import Prelude BTree Text Values Catalog Protocol.

(** ** Grammar *)

Record wire_column := {
  wc_flags : Z; wc_name : string; wc_type_oid : Z; wc_typmod : Z
}.

Inductive wire_tuple_kind := KeyTuple | OldTuple.

Inductive two_phase_kind := TP_Prepare | TP_CommitPrepared.

Inductive wire_msg :=
| W_Begin (final_lsn ts xid : Z)
| W_Commit (flags lsn end_lsn ts : Z)
| W_Relation (id : Z) (namespace name : string) (ri : ReplicaIdentity) (cols : list wire_column)
| W_Type (oid : Z) (namespace name : string)
| W_Insert (rel : Z) (new : list ColumnValue)
| W_Update (rel : Z) (old : option (wire_tuple_kind * list ColumnValue)) (new : list ColumnValue)
| W_Delete (rel : Z) (kind : wire_tuple_kind) (old : list ColumnValue)
| W_Truncate (cascade restart_identity : bool) (rels : list Z)
| W_Origin (lsn : Z) (name : string)
| W_StreamStart (xid : Z) (first : bool)
| W_StreamStop
| W_StreamCommit (xid flags lsn end_lsn ts : Z)
| W_StreamAbort (xid subxid : Z)
| W_BeginPrepare (lsn end_lsn ts xid : Z) (gid : string)
| W_TwoPhase (kind : two_phase_kind) (flags lsn end_lsn ts xid : Z) (gid : string)
| W_RollbackPrepared (flags prepare_end_lsn rollback_end_lsn prepare_ts rollback_ts xid : Z) (gid : string).

Definition enc_cstr (s : string) : list byte := lit s ++ [x00].
Definition enc_bytes (bs : list byte) : list byte := be_encode 4 (Z.of_nat (length bs)) ++ bs.

Definition enc_value (v : ColumnValue) : list byte :=
  match v with
  | C_Null => [x6e]
  | C_Unchanged => [x75]
  | C_Text bs => x74 :: enc_bytes bs
  | C_Binary bs => x62 :: enc_bytes bs
  end.

Definition enc_tuple (vs : list ColumnValue) : list byte :=
  be_encode 2 (Z.of_nat (length vs)) ++ concat (map enc_value vs).

Definition enc_column (c : wire_column) : list byte :=
  be_encode 1 (wc_flags c) ++ enc_cstr (wc_name c) ++ be_encode 4 (wc_type_oid c)
    ++ be_encode 4 (wc_typmod c).

Definition enc_ri (ri : ReplicaIdentity) : byte :=
  match ri with RI_Default => x64 | RI_Nothing => x6e | RI_Full => x66 | RI_Index => x69 end.

Definition enc_kind (k : wire_tuple_kind) : byte :=
  match k with KeyTuple => x4b | OldTuple => x4f end.

Definition tp_tag (k : two_phase_kind) : byte :=
  match k with TP_Prepare => x50 | TP_CommitPrepared => x4b end.

Definition encode_body (m : wire_msg) : list byte :=
  match m with
  | W_Begin lsn ts xid => be_encode 8 lsn ++ be_encode 8 ts ++ be_encode 4 xid
  | W_Commit flags lsn end_lsn ts =>
      be_encode 1 flags ++ be_encode 8 lsn ++ be_encode 8 end_lsn ++ be_encode 8 ts
  | W_Relation id ns name ri cols =>
      be_encode 4 id ++ enc_cstr ns ++ enc_cstr name ++ [enc_ri ri]
        ++ be_encode 2 (Z.of_nat (length cols)) ++ concat (map enc_column cols)
  | W_Type oid ns name => be_encode 4 oid ++ enc_cstr ns ++ enc_cstr name
  | W_Insert rel new => be_encode 4 rel ++ [x4e] ++ enc_tuple new
  | W_Update rel None new => be_encode 4 rel ++ [x4e] ++ enc_tuple new
  | W_Update rel (Some (k, old)) new =>
      be_encode 4 rel ++ [enc_kind k] ++ enc_tuple old ++ [x4e] ++ enc_tuple new
  | W_Delete rel k old => be_encode 4 rel ++ [enc_kind k] ++ enc_tuple old
  | W_Truncate cascade restart rels =>
      be_encode 4 (Z.of_nat (length rels))
        ++ be_encode 1 ((if cascade then 1 else 0) + (if restart then 2 else 0))
        ++ concat (map (be_encode 4) rels)
  | W_Origin lsn name => be_encode 8 lsn ++ enc_cstr name
  | W_StreamStart xid first => be_encode 4 xid ++ be_encode 1 (if first then 1 else 0)
  | W_StreamStop => []
  | W_StreamCommit xid flags lsn end_lsn ts =>
      be_encode 4 xid ++ be_encode 1 flags ++ be_encode 8 lsn ++ be_encode 8 end_lsn ++ be_encode 8 ts
  | W_StreamAbort xid subxid => be_encode 4 xid ++ be_encode 4 subxid
  | W_TwoPhase _ flags lsn end_lsn ts xid gid =>
      be_encode 1 flags ++ be_encode 8 lsn ++ be_encode 8 end_lsn ++ be_encode 8 ts
        ++ be_encode 4 xid ++ enc_cstr gid
  | W_BeginPrepare lsn end_lsn ts xid gid =>
      be_encode 8 lsn ++ be_encode 8 end_lsn ++ be_encode 8 ts ++ be_encode 4 xid ++ enc_cstr gid
  | W_RollbackPrepared flags prepare_end_lsn rollback_end_lsn prepare_ts rollback_ts xid gid =>
      be_encode 1 flags ++ be_encode 8 prepare_end_lsn ++ be_encode 8 rollback_end_lsn ++ be_encode 8 prepare_ts
        ++ be_encode 8 rollback_ts ++ be_encode 4 xid ++ enc_cstr gid
  end.

Definition msg_tag (m : wire_msg) : byte :=
  match m with
  | W_Begin _ _ _ => x42 | W_Commit _ _ _ _ => x43 | W_Relation _ _ _ _ _ => x52
  | W_Type _ _ _ => x59 | W_Insert _ _ => x49 | W_Update _ _ _ => x55 | W_Delete _ _ _ => x44
  | W_Truncate _ _ _ => x54 | W_Origin _ _ => x4f | W_StreamStart _ _ => x53
  | W_StreamStop => x45 | W_StreamCommit _ _ _ _ _ => x63 | W_StreamAbort _ _ => x41
  | W_BeginPrepare _ _ _ _ _ => x62 | W_TwoPhase k _ _ _ _ _ _ => tp_tag k
  | W_RollbackPrepared _ _ _ _ _ _ _ => x72
  end.

Definition encode_message (m : wire_msg) : list byte := msg_tag m :: encode_body m.

(** ** Well-formedness: every field fits its width *)

Definition uok (n : nat) (z : Z) : bool := (0 <=? z) && (z <? 256 ^ Z.of_nat n).
Definition cstr_ok (s : string) : bool :=
  utf8_valid (lit s) && bool_decide (x00 ∉ lit s).
Definition value_ok (v : ColumnValue) : bool :=
  match v with
  | C_Null | C_Unchanged => true
  | C_Text bs | C_Binary bs => uok 4 (Z.of_nat (length bs))
  end.
Definition tuple_ok (vs : list ColumnValue) : bool :=
  uok 2 (Z.of_nat (length vs)) && forallb value_ok vs.
Definition column_ok (c : wire_column) : bool :=
  uok 1 (wc_flags c) && cstr_ok (wc_name c) && uok 4 (wc_type_oid c) && uok 4 (wc_typmod c).

Definition msg_ok (m : wire_msg) : bool :=
  match m with
  | W_Begin lsn ts xid => uok 8 lsn && uok 8 ts && uok 4 xid
  | W_Commit flags lsn end_lsn ts => uok 1 flags && uok 8 lsn && uok 8 end_lsn && uok 8 ts
  | W_Relation id ns name _ cols =>
      uok 4 id && cstr_ok ns && cstr_ok name && uok 2 (Z.of_nat (length cols)) && forallb column_ok cols
  | W_Type oid ns name => uok 4 oid && cstr_ok ns && cstr_ok name
  | W_Insert rel new => uok 4 rel && tuple_ok new
  | W_Update rel old new =>
      uok 4 rel && match old with Some (_, o) => tuple_ok o | None => true end && tuple_ok new
  | W_Delete rel _ old => uok 4 rel && tuple_ok old
  | W_Truncate _ _ rels => uok 4 (Z.of_nat (length rels)) && forallb (uok 4) rels
  | W_Origin lsn name => uok 8 lsn && cstr_ok name
  | W_StreamStart xid _ => uok 4 xid
  | W_StreamStop => true
  | W_StreamCommit xid flags lsn end_lsn ts =>
      uok 4 xid && uok 1 flags && uok 8 lsn && uok 8 end_lsn && uok 8 ts
  | W_StreamAbort xid subxid => uok 4 xid && uok 4 subxid
  | W_TwoPhase _ flags lsn end_lsn ts xid gid =>
      uok 1 flags && uok 8 lsn && uok 8 end_lsn && uok 8 ts && uok 4 xid && cstr_ok gid
  | W_BeginPrepare lsn end_lsn ts xid gid => uok 8 lsn && uok 8 end_lsn && uok 8 ts && uok 4 xid && cstr_ok gid
  | W_RollbackPrepared flags prepare_end_lsn rollback_end_lsn prepare_ts rollback_ts xid gid =>
      uok 1 flags && uok 8 prepare_end_lsn && uok 8 rollback_end_lsn && uok 8 prepare_ts && uok 8 rollback_ts && uok 4 xid && cstr_ok gid
  end.

(** The messages whose layout the decoder knows: it reads [BeginPrepare] and [RollbackPrepared] in the
    layout of [Prepare]. *)
Definition layout_known (m : wire_msg) : bool :=
  match m with W_BeginPrepare _ _ _ _ _ | W_RollbackPrepared _ _ _ _ _ _ _ => false | _ => true end.

(** ** Meaning *)

Definition column_of_wire (c : wire_column) : ColumnDef :=
  column_from_pgoutput (wc_flags c) (wc_name c) (wc_type_oid c).

Definition schema_of_wire id ns name ri cols : RelationSchema :=
  {| rel_table := id; rel_namespace := ns; rel_name := name; rel_replica_identity := ri;
     rel_columns := map column_of_wire cols |}.

Definition tp_event (k : two_phase_kind) (xid : Z) (gid : string) : TwoPhaseAction :=
  match k with
  | TP_Prepare => Prepare xid gid
  | TP_CommitPrepared => CommitPrepared xid gid
  end.

Section Meaning.
Context (parse_f32 parse_f64 : text -> option Z).
Abbreviation decode_column_value := (decode_column_value parse_f32 parse_f64).

(** A tuple is typed by the catalog: one value per column, each decoded at the
    column's type. *)
Definition tuple_meaning (catalog : Catalog) (table : Z) (vs : list ColumnValue) : wal Tuple :=
  match relation catalog table with
  | None => Err (UnknownRelation table)
  | Some r =>
      if Nat.eqb (length (rel_columns r)) (length vs)
      then exec_mapM (fun cv => decode_column_value (col_datum_type cv.1) cv.2)
             (combine (rel_columns r) vs)
      else Err (TupleArity table (length (rel_columns r)) (length vs))
  end.

Definition meaning (catalog : Catalog) (m : wire_msg) : wal DecodedEvent :=
  match m with
  | W_Begin lsn _ xid => Ok (E_Begin xid lsn)
  | W_Commit _ lsn end_lsn _ => Ok (E_Commit lsn end_lsn)
  | W_Relation id _ _ _ cols => Ok (E_Schema id (map column_of_wire cols))
  | W_Type oid ns name => Ok (E_Type {| ti_oid := oid; ti_namespace := ns; ti_name := name |})
  | W_Insert rel new =>
      let? new := tuple_meaning catalog rel new in Ok (E_Row rel Insert None (Some new))
  | W_Update rel old new =>
      let? old := match old with
                  | Some (_, o) => exec_map Some (tuple_meaning catalog rel o)
                  | None => Ok None
                  end in
      let? new := tuple_meaning catalog rel new in Ok (E_Row rel Update old (Some new))
  | W_Delete rel _ old =>
      let? old := tuple_meaning catalog rel old in Ok (E_Row rel Delete (Some old) None)
  | W_Truncate cascade restart rels =>
      Ok (E_Truncate {| tr_tables := rels; tr_cascade := cascade; tr_restart_identity := restart |})
  | W_Origin lsn name => Ok (E_Origin {| or_lsn := lsn; or_name := name |})
  | W_StreamStart xid first => Ok (E_Stream (SA_Start xid first))
  | W_StreamStop => Ok (E_Stream SA_Stop)
  | W_StreamCommit xid _ lsn end_lsn _ => Ok (E_Stream (SA_Commit xid lsn end_lsn))
  | W_StreamAbort xid subxid => Ok (E_Stream (SA_Abort xid subxid))
  | W_BeginPrepare _ _ _ xid gid => Ok (E_TwoPhase (BeginPrepare xid gid))
  | W_TwoPhase k _ _ _ _ xid gid => Ok (E_TwoPhase (tp_event k xid gid))
  | W_RollbackPrepared _ _ _ _ _ xid gid => Ok (E_TwoPhase (RollbackPrepared xid gid))
  end.

(** Only a [Relation] message changes the catalog. *)
Definition catalog_after (catalog : Catalog) (m : wire_msg) : Catalog :=
  match m with
  | W_Relation id ns name ri cols => upsert_relation catalog (schema_of_wire id ns name ri cols)
  | _ => catalog
  end.
End Meaning.

(** ** Readers on encodings

    Each reader, run on the encoding of a value followed by [rest], returns the
    value and [rest]. *)

Definition reads {A} (m : dec A) (bs : list byte) (a : A) : Prop :=
  forall rest, m (bs ++ rest) = Ok (a, rest).

Lemma reads_read_be n ctx z : uok n z = true -> reads (read_be n ctx) (be_encode n z) z.
Proof.
  intros [H1 H2]%andb_true_iff rest. unfold read_be. rewrite length_app, length_be_encode.
  destruct (Nat.ltb_spec (n + length rest) n); [lia|].
  rewrite take_app_le, take_ge by (rewrite length_be_encode; lia).
  rewrite drop_app_length' by (by rewrite length_be_encode).
  by rewrite be_decode_encode by lia.
Qed.

Lemma reads_u8_byte ctx b : reads (read_u8 ctx) [b] (byte_Z b).
Proof. intros rest. unfold read_u8, read_be. simpl. by rewrite drop_0. Qed.

Lemma split_nul_app t rest : x00 ∉ t -> split_nul (t ++ x00 :: rest) = Some (t, rest).
Proof.
  induction t as [|b t IH]; intros Hn; simpl; [done|].
  apply not_elem_of_cons in Hn as [Hb Hn].
  destruct (decide (b = x00)) as [->|_]; [done|]. by rewrite IH.
Qed.

Lemma reads_cstr ctx s : cstr_ok s = true -> reads (cstr ctx) (enc_cstr s) s.
Proof.
  intros [Hu Hn%bool_decide_eq_true]%andb_true_iff rest. unfold cstr, enc_cstr.
  rewrite <- app_assoc. simpl. rewrite split_nul_app by done.
  by rewrite Hu, text_string_lit.
Qed.

Lemma reads_bytes ctx bs : uok 4 (Z.of_nat (length bs)) = true -> reads (bytes_i32 ctx) (enc_bytes bs) bs.
Proof.
  intros Hl rest. unfold bytes_i32, enc_bytes, dec_bind. rewrite <- app_assoc.
  rewrite (reads_read_be _ _ _ Hl). cbn [exec_bind fst snd].
  rewrite length_app. destruct (Z.ltb_spec (Z.of_nat (length bs + length rest)) (Z.of_nat (length bs))); [lia|].
  rewrite Nat2Z.id, take_app_length, drop_app_length. done.
Qed.

Lemma reads_bind {A B} (m : dec A) (k : A -> dec B) bs a bs' b :
  reads m bs a -> reads (k a) bs' b -> reads (dec_bind m k) (bs ++ bs') b.
Proof.
  intros Hm Hk rest. unfold dec_bind. rewrite <- app_assoc, Hm. cbn [exec_bind fst snd]. apply Hk.
Qed.

Lemma reads_ret {A} (a : A) : reads (dec_ret a) [] a.
Proof. intros rest. done. Qed.

Lemma reads_bind_last {A B} (m : dec A) (k : A -> B) bs a :
  reads m bs a -> reads (let! x := m in dec_ret (k x)) bs (k a).
Proof. intros Hm rest. unfold dec_bind. by rewrite Hm. Qed.

Lemma reads_repeat {A B} (m : dec B) (enc : A -> list byte) (f : A -> B) (ok : A -> bool) l :
  (forall a, ok a = true -> reads m (enc a) (f a)) -> forallb ok l = true ->
  reads (dec_repeat (length l) m) (concat (map enc l)) (map f l).
Proof.
  intros Hm. induction l as [|a l IH]; intros Hok; [apply reads_ret|].
  cbn [forallb] in Hok. apply andb_true_iff in Hok as [Ha Hl].
  cbn [length dec_repeat map concat]. eapply reads_bind; [by apply Hm|].
  apply (reads_bind_last _ (fun l0 => f a :: l0)). by apply IH.
Qed.

Lemma reads_value v : value_ok v = true -> reads read_value (enc_value v) v.
Proof.
  intros Hv. unfold read_value.
  destruct v as [bs|bs| |]; cbn [enc_value value_ok] in *.
  3,4: rewrite <- (app_nil_r [_]); eapply reads_bind; [apply reads_u8_byte|]; apply reads_ret.
  all: match goal with |- reads _ (?b :: ?r) _ => change (b :: r) with ([b] ++ r) end.
  all: eapply reads_bind; [apply reads_u8_byte|]; simpl.
  - by apply (reads_bind_last _ C_Text), reads_bytes.
  - by apply (reads_bind_last _ C_Binary), reads_bytes.
Qed.

Lemma reads_column c : column_ok c = true -> reads decode_column (enc_column c) (column_of_wire c).
Proof.
  unfold column_ok. intros [[[H1 H2]%andb_true_iff H3]%andb_true_iff H4]%andb_true_iff.
  unfold decode_column, enc_column.
  eapply reads_bind; [by apply reads_read_be|]. eapply reads_bind; [by apply reads_cstr|].
  eapply reads_bind; [by apply reads_read_be|].
  eapply (reads_bind_last _ (fun _ => _)). by apply reads_read_be.
Qed.

(** ** Readers that may reject a well-formed encoding

    Tuples are typed by the catalog, so reading one yields a result [r] that may
    be an error. *)

Definition computes {A} (m : dec A) (bs : list byte) (r : wal A) : Prop :=
  forall rest, m (bs ++ rest) = let? a := r in Ok (a, rest).

Lemma reads_computes {A} (m : dec A) bs a : reads m bs a -> computes m bs (Ok a).
Proof. intros H rest. apply H. Qed.

Lemma computes_bind {A B} (m : dec A) (k : A -> dec B) bs bs' r f :
  computes m bs r -> (forall a, computes (k a) bs' (f a)) ->
  computes (dec_bind m k) (bs ++ bs') (let? a := r in f a).
Proof.
  intros Hm Hk rest. unfold dec_bind. rewrite <- app_assoc, Hm.
  destruct r; cbn [exec_bind fst snd]; [apply Hk | done | done].
Qed.

Lemma computes_bind_reads {A B} (m : dec A) (k : A -> dec B) bs bs' a r :
  reads m bs a -> computes (k a) bs' r -> computes (dec_bind m k) (bs ++ bs') r.
Proof. intros Hm Hk rest. unfold dec_bind. rewrite <- app_assoc, Hm. apply Hk. Qed.

Lemma computes_ret {A} (a : A) : computes (dec_ret a) [] (Ok a).
Proof. intros rest. done. Qed.

Lemma computes_bind_last {A B} (m : dec A) (k : A -> dec B) bs r f :
  computes m bs r -> (forall a, computes (k a) [] (f a)) ->
  computes (dec_bind m k) bs (let? a := r in f a).
Proof. intros Hm Hk. rewrite <- (app_nil_r bs). by apply computes_bind. Qed.

Lemma computes_lift {A} (r : wal A) : computes (dec_lift r) [] r.
Proof. intros rest. done. Qed.

Lemma tag_eqb a b : (byte_Z a =? byte_Z b) = bool_decide (a = b).
Proof.
  destruct (Z.eqb_spec (byte_Z a) (byte_Z b)) as [->%byte_Z_inj|Hne]; symmetry.
  - by apply bool_decide_eq_true.
  - apply bool_decide_eq_false. congruence.
Qed.

Lemma reads_expect_tag b ctx : reads (expect_tag b ctx) [b] tt.
Proof.
  unfold expect_tag. rewrite <- (app_nil_r [b]). eapply reads_bind; [apply reads_u8_byte|].
  rewrite Z.eqb_refl. apply reads_ret.
Qed.

Section Correct.
Context (parse_f32 parse_f64 : text -> option Z).

Lemma computes_values cols vs :
  length cols = length vs -> forallb value_ok vs = true ->
  computes (decode_values parse_f32 parse_f64 cols) (concat (map enc_value vs))
    (exec_mapM (fun cv => decode_column_value parse_f32 parse_f64 (col_datum_type cv.1) cv.2)
       (combine cols vs)).
Proof.
  revert vs; induction cols as [|c cols IH]; intros [|v vs] Hl Hok; try discriminate; [apply computes_ret|].
  cbn [forallb] in Hok. apply andb_true_iff in Hok as [Hv Hvs].
  cbn [decode_values map concat combine exec_mapM].
  eapply computes_bind_reads; [by apply reads_value|].
  change (concat (map enc_value vs)) with ([] ++ concat (map enc_value vs)).
  apply computes_bind; [apply computes_lift|]. intros d.
  apply computes_bind_last; [apply IH; [by injection Hl | done]|]. intros t. apply computes_ret.
Qed.

Lemma computes_tuple catalog table vs :
  tuple_ok vs = true ->
  computes (decode_tuple parse_f32 parse_f64 catalog table) (enc_tuple vs)
    (tuple_meaning parse_f32 parse_f64 catalog table vs).
Proof.
  unfold tuple_ok. intros [Hl Hvs]%andb_true_iff. unfold decode_tuple, tuple_meaning, enc_tuple.
  destruct (relation catalog table) as [r|]; [|by intros rest].
  eapply computes_bind_reads; [by apply reads_read_be|]. rewrite Nat2Z.id.
  destruct (Nat.eqb_spec (length (rel_columns r)) (length vs)); [by apply computes_values|].
  by intros rest.
Qed.

(** A message body, by kind. *)
Ltac split_ok H :=
  repeat match type of H with
  | _ && _ = true => let H2 := fresh "Hok" in apply andb_true_iff in H as [H H2]
  end.
Ltac step := eapply computes_bind_reads;
  [first [by apply reads_read_be | by apply reads_cstr | apply reads_u8_byte | apply reads_expect_tag]|].
Ltac last_step := apply reads_computes; eapply (reads_bind_last _ (fun _ => _));
  first [by apply reads_read_be | by apply reads_cstr].

Lemma computes_two_phase mk ctx flags lsn end_lsn ts xid gid :
  uok 1 flags = true -> uok 8 lsn = true -> uok 8 end_lsn = true -> uok 8 ts = true ->
  uok 4 xid = true -> cstr_ok gid = true ->
  computes (two_phase mk ctx)
    (be_encode 1 flags ++ be_encode 8 lsn ++ be_encode 8 end_lsn ++ be_encode 8 ts
      ++ be_encode 4 xid ++ enc_cstr gid) (Ok (E_TwoPhase (mk xid gid))).
Proof.
  intros. unfold two_phase.
  rewrite !app_assoc. eapply computes_bind_reads; [|last_step].
  unfold decode_prepare_prefix. rewrite <- !app_assoc.
  repeat (eapply reads_bind; [by apply reads_read_be|]). by apply reads_read_be.
Qed.

Lemma computes_truncate cascade restart rels :
  uok 4 (Z.of_nat (length rels)) = true -> forallb (uok 4) rels = true ->
  computes decode_truncate (encode_body (W_Truncate cascade restart rels))
    (meaning parse_f32 parse_f64 [] (W_Truncate cascade restart rels)).
Proof.
  intros Hl Hr. cbn [encode_body meaning]. unfold decode_truncate. step.
  eapply computes_bind_reads; [apply reads_read_be; by destruct cascade, restart|].
  rewrite Nat2Z.id. apply reads_computes.
  replace (Z.land _ 1 =? 1) with cascade by (by destruct cascade, restart).
  replace (Z.land _ 2 =? 2) with restart by (by destruct cascade, restart).
  apply (reads_bind_last _ (fun tables => E_Truncate {| tr_tables := tables |})).
  rewrite <- (map_id rels) at 3. eapply reads_repeat; [|exact Hr]. intros a Ha. by apply reads_read_be.
Qed.
Lemma computes_update catalog rel old new :
  msg_ok (W_Update rel old new) = true ->
  computes (decode_update parse_f32 parse_f64 catalog) (encode_body (W_Update rel old new))
    (meaning parse_f32 parse_f64 catalog (W_Update rel old new)).
Proof.
  intros Hok. cbn [msg_ok] in Hok. split_ok Hok. cbn [encode_body meaning]. unfold decode_update.
  destruct old as [[k o]|]; step; step; rewrite !tag_eqb.
  - replace (bool_decide (enc_kind k = x4b) || bool_decide (enc_kind k = x4f)) with true by (by destruct k).
    rewrite app_assoc. apply computes_bind.
    + unfold exec_map. apply computes_bind; [by apply computes_tuple|]. intros t.
      apply reads_computes. eapply (reads_bind_last _ (fun _ => _)). apply reads_expect_tag.
    + intros t. apply computes_bind_last; [by apply computes_tuple|]. intros t'. apply computes_ret.
  - simpl. change (enc_tuple new) with ([] ++ enc_tuple new). eapply computes_bind_reads; [apply reads_ret|].
    apply computes_bind_last; [by apply computes_tuple|]. intros t'. apply computes_ret.
Qed.

(** Every message other than [Relation]. *)
Lemma computes_body catalog m :
  msg_ok m = true -> layout_known m = true -> msg_tag m <> x52 ->
  computes (decode_body parse_f32 parse_f64 catalog (msg_tag m)) (encode_body m)
    (meaning parse_f32 parse_f64 catalog m).
Proof.
  intros Hok Hk Htag. destruct m; cbn [msg_tag] in *; try done; try (by apply computes_update);
    cbn [decode_body msg_ok] in *; split_ok Hok;
    try (cbn [encode_body meaning]; repeat step; last_step).
  - (* Insert *)
    cbn [encode_body meaning]. unfold decode_insert. step. step.
    apply computes_bind_last; [by apply computes_tuple|]. intros t. apply computes_ret.
  - (* Delete *)
    cbn [encode_body meaning]. unfold decode_delete. step. step. rewrite !tag_eqb.
    replace (bool_decide (enc_kind kind = x4b) || bool_decide (enc_kind kind = x4f)) with true
      by (by destruct kind).
    apply computes_bind_last; [by apply computes_tuple|]. intros t. apply computes_ret.
  - by apply computes_truncate.
  - (* StreamStart *)
    cbn [encode_body meaning]. step. apply reads_computes.
    replace first with (Z.land (if first then 1 else 0) 1 =? 1) at 2 by (by destruct first).
    apply (reads_bind_last _ (fun flags => E_Stream (SA_Start xid (Z.land flags 1 =? 1)))).
    apply reads_read_be. by destruct first.
  - (* TwoPhase *)
    destruct kind; cbn [tp_tag decode_body meaning tp_event encode_body]; by apply computes_two_phase.
Qed.

Lemma reads_relation id ns name ri cols :
  msg_ok (W_Relation id ns name ri cols) = true ->
  reads decode_relation (encode_body (W_Relation id ns name ri cols))
    (schema_of_wire id ns name ri cols, E_Schema id (map column_of_wire cols)).
Proof.
  intros Hok. cbn [msg_ok] in Hok. split_ok Hok. cbn [encode_body]. unfold decode_relation.
  eapply reads_bind; [by apply reads_read_be|].
  eapply reads_bind; [by apply reads_cstr|]. eapply reads_bind; [by apply reads_cstr|].
  eapply reads_bind; [apply reads_u8_byte|].
  match goal with |- reads _ ?bs _ => change bs with ([] ++ bs) end.
  eapply (reads_bind _ _ [] ri).
  { intros rest. by destruct ri. }
  eapply reads_bind; [by apply reads_read_be|]. rewrite Nat2Z.id.
  eapply (reads_bind_last _ (fun columns => (_, _))).
  eapply reads_repeat; [apply reads_column | done].
Qed.

(** What remains to be said of the bytes after a message. *)
Definition reject_trailing {A} (r : wal A) (extra : list byte) : wal A :=
  match extra with
  | [] => r
  | _ :: _ => let? _ := r in Err (Malformed "trailing bytes")
  end.

Lemma decode_other catalog tag rest :
  tag <> x52 ->
  decode_pgoutput_message parse_f32 parse_f64 catalog (tag :: rest) =
  (exec_map fst ((let! event := decode_body parse_f32 parse_f64 catalog tag in
                  let! _ := finish in dec_ret event) rest), catalog).
Proof. intros. by destruct tag. Qed.

Lemma decode_other_followed catalog m extra :
  msg_ok m = true -> layout_known m = true -> msg_tag m <> x52 ->
  decode_pgoutput_message parse_f32 parse_f64 catalog (encode_message m ++ extra) =
  (reject_trailing (meaning parse_f32 parse_f64 catalog m) extra, catalog_after catalog m).
Proof.
  intros Hok Hk Hne. unfold encode_message. cbn [app]. rewrite decode_other by done. f_equal; [|by destruct m].
  unfold dec_bind at 1. rewrite (computes_body catalog m Hok Hk Hne).
  destruct (meaning parse_f32 parse_f64 catalog m); destruct extra; done.
Qed.
Lemma decode_relation_followed catalog id ns name ri cols extra :
  msg_ok (W_Relation id ns name ri cols) = true ->
  decode_pgoutput_message parse_f32 parse_f64 catalog (encode_message (W_Relation id ns name ri cols) ++ extra) =
  (reject_trailing (Ok (E_Schema id (map column_of_wire cols))) extra, upsert_relation catalog (schema_of_wire id ns name ri cols)).
Proof.
  intros Hok. unfold encode_message. cbn [app msg_tag decode_pgoutput_message]. rewrite (reads_relation _ _ _ _ _ Hok). by destruct extra.
Qed.
Lemma relation_tag m : msg_tag m = x52 -> exists id ns name ri cols, m = W_Relation id ns name ri cols.
Proof. destruct m; try discriminate; [by eauto 10 | by destruct kind]. Qed.

Lemma decode_message catalog m :
  msg_ok m = true -> layout_known m = true ->
  decode_pgoutput_message parse_f32 parse_f64 catalog (encode_message m) = (meaning parse_f32 parse_f64 catalog m, catalog_after catalog m).
Proof.
  intros Hok Hk. rewrite <- (app_nil_r (encode_message m)). destruct (decide (msg_tag m = x52)) as [E|Hne].
  - apply relation_tag in E as (id & ns & name & ri & cols & ->). by apply decode_relation_followed.
  - by apply (decode_other_followed catalog m []).
Qed.

End Correct.
