(* ===== verification/WalSource.v ===== *)
(** * WalSource: decoded events to differential updates
    ([crates/palimpsest-dataflow/src/palimpsest/wal.rs])

    Row events wait in [pending] until the commit marker, and leave as weighted
    updates at the commit LSN. *)

From S2P Require Import Prelude Values Catalog Protocol.

(** ** State *)

Record WalUpdate := { wu_table : Z; wu_row : Row; wu_time : Z; wu_diff : Z }.

Record WalTransaction := {
  wt_xid : option Z;
  wt_begin_lsn : option Z;
  wt_commit_lsn : Z;
  wt_end_lsn : Z;
  wt_updates : list WalUpdate
}.

Record PendingRow := {
  p_table : Z; p_op : RowOp; p_old : option Row; p_new : option Row
}.

Record WalSourceState := { transaction_xid : option Z; pending : list PendingRow }.

Definition WalSourceState_new : WalSourceState := {| transaction_xid := None; pending := [] |}.

(** ** Operations *)

(** [if let Some(row) = row { updates.push(WalUpdate::new(table, row, time, diff)) }]. *)
Definition push_row (table time diff : Z) (row : option Row) : list WalUpdate :=
  match row with
  | Some r => [{| wu_table := table; wu_row := r; wu_time := time; wu_diff := diff |}]
  | None => []
  end.

Definition pending_updates (time : Z) (row : PendingRow) : list WalUpdate :=
  match p_op row with
  | Insert => push_row (p_table row) time 1 (p_new row)
  | Update => push_row (p_table row) time (-1) (p_old row) ++ push_row (p_table row) time 1 (p_new row)
  | Delete => push_row (p_table row) time (-1) (p_old row)
  end.

(** [drain_pending]: the updates, and the state with [pending] emptied. *)
Definition drain_pending (st : WalSourceState) (time : Z) : list WalUpdate * WalSourceState :=
  (concat (map (pending_updates time) (pending st)),
   {| transaction_xid := transaction_xid st; pending := [] |}).

Definition apply_transaction (st : WalSourceState) (event : DecodedEvent)
  : option WalTransaction * WalSourceState :=
  match event with
  | E_Begin xid _ => (None, {| transaction_xid := Some xid; pending := pending st |})
  | E_Row table op old new =>
      (None, {| transaction_xid := transaction_xid st;
                pending := pending st ++ [{| p_table := table; p_op := op; p_old := old; p_new := new |}] |})
  | E_Commit commit_lsn end_lsn =>
      let xid := transaction_xid st in
      let '(updates, st') := drain_pending {| transaction_xid := None; pending := pending st |} commit_lsn in
      (Some {| wt_xid := xid; wt_begin_lsn := None; wt_commit_lsn := commit_lsn;
               wt_end_lsn := end_lsn; wt_updates := updates |}, st')
  | E_Stream (SA_Commit xid commit_lsn end_lsn) =>
      let xid' := match transaction_xid st with Some x => Some x | None => Some xid end in
      let '(updates, st') := drain_pending {| transaction_xid := None; pending := pending st |} commit_lsn in
      (Some {| wt_xid := xid'; wt_begin_lsn := None; wt_commit_lsn := commit_lsn;
               wt_end_lsn := end_lsn; wt_updates := updates |}, st')
  | E_Stream (SA_Start xid _) => (None, {| transaction_xid := Some xid; pending := pending st |})
  | E_Stream (SA_Abort _ _) => (None, {| transaction_xid := None; pending := [] |})
  | E_Heartbeat _ | E_Schema _ _ | E_Reconnect _ | E_Resync _ | E_Truncate _ | E_Origin _ | E_Type _
  | E_Stream _ | E_TwoPhase _ => (None, st)
  end.

Definition apply (st : WalSourceState) (event : DecodedEvent) : list WalUpdate * WalSourceState :=
  let '(transaction, st') := apply_transaction st event in
  (match transaction with Some t => wt_updates t | None => [] end, st').

(** A stream of events: the transactions it completes, in order. *)
Fixpoint apply_events (st : WalSourceState) (events : list DecodedEvent)
  : list WalTransaction * WalSourceState :=
  match events with
  | [] => ([], st)
  | e :: es =>
      let '(t, st1) := apply_transaction st e in
      let '(ts, st2) := apply_events st1 es in
      (match t with Some t => t :: ts | None => ts end, st2)
  end.

(** ** Specification: what a transaction does to the tables

    A database gives every table a bag of rows. A transaction changes it one row at a
    time, and replication with full replica identity reports each change with the images
    of the row before and after it. *)

Definition database := Z -> list Row.
Definition set_table (db : database) (t : Z) (rows : list Row) : database := fun t' => if t' =? t then rows else db t'.

(** Events of a transaction that change no row: remarks, and the marks of the segments in which a large
    transaction is streamed. *)
Definition is_remark (xid : Z) (e : DecodedEvent) : bool :=
  match e with
  | E_Heartbeat _ | E_Schema _ _ | E_Origin _ | E_Type _ | E_Stream SA_Stop => true
  | E_Stream (SA_Start x _) => x =? xid
  | _ => false
  end.

(** [performs xid db es db']: the statements of transaction [xid], reported as [es], take [db] to [db']. *)
Inductive performs (xid : Z) : database -> list DecodedEvent -> database -> Prop :=
| P_done db : performs xid db [] db
| P_remark db e es db' : is_remark xid e = true -> performs xid db es db' -> performs xid db (e :: es) db'
| P_insert db t new es db' :
    performs xid (set_table db t (new :: db t)) es db' -> performs xid db (E_Row t Insert None (Some new) :: es) db'
| P_update db t old new others es db' :
    db t ≡ₚ old :: others -> performs xid (set_table db t (new :: others)) es db' ->
    performs xid db (E_Row t Update (Some old) (Some new) :: es) db'
| P_delete db t old others es db' :
    db t ≡ₚ old :: others -> performs xid (set_table db t others) es db' ->
    performs xid db (E_Row t Delete (Some old) None :: es) db'.

(** How a transaction is opened and closed, as a whole or streamed. *)
Definition opens (xid : Z) (e : DecodedEvent) : bool :=
  match e with E_Begin x _ | E_Stream (SA_Start x _) => x =? xid | _ => false end.
Definition closes (xid commit_lsn end_lsn : Z) (e : DecodedEvent) : bool :=
  match e with
  | E_Commit c n => (c =? commit_lsn) && (n =? end_lsn)
  | E_Stream (SA_Commit x c n) => (x =? xid) && (c =? commit_lsn) && (n =? end_lsn)
  | _ => false
  end.

(** The number of rows of a table with a property, and the weight a batch gives to them. *)
Definition copies (db : database) (t : Z) (P : Row -> bool) : Z := Z.of_nat (length (List.filter P (db t))).
Definition weight (t : Z) (P : Row -> bool) (us : list WalUpdate) : Z :=
  foldr (fun u acc => (if (t =? wu_table u) && P (wu_row u) then wu_diff u else 0) + acc) 0 us.

(** ** Proofs *)

Lemma weight_app t P us vs : weight t P (us ++ vs) = weight t P us + weight t P vs.
Proof. unfold weight. induction us as [|u us IH]; simpl; [done|]. rewrite IH. lia. Qed.

Lemma weight_push t P table time d r : weight t P (push_row table time d (Some r)) = if (t =? table) && P r then d else 0.
Proof. cbn. lia. Qed.

Lemma copies_perm db t P l : db t ≡ₚ l -> copies db t P = Z.of_nat (length (List.filter P l)).
Proof.
  intros Hp. unfold copies. f_equal. apply Permutation_length.
  induction Hp; cbn [List.filter]; repeat case_match; eauto using perm_skip, perm_swap, Permutation_trans.
Qed.

Lemma copies_set db t rows t' P :
  copies (set_table db t rows) t' P =
  if t' =? t then Z.of_nat (length (List.filter P rows)) else copies db t' P.
Proof. unfold copies, set_table. by destruct (t' =? t). Qed.

Definition pending_of (e : DecodedEvent) : list PendingRow :=
  match e with
  | E_Row table op old new => [{| p_table := table; p_op := op; p_old := old; p_new := new |}]
  | _ => []
  end.
Definition pendings (es : list DecodedEvent) : list PendingRow := concat (map pending_of es).

Lemma pending_time time p : Forall (fun u => wu_time u = time) (pending_updates time p).
Proof. destruct p as [tb [] [o|] [n|]]; repeat constructor. Qed.

(** While a transaction runs, nothing is emitted and the rows queue up. *)
Lemma apply_events_body xid st db es db' rest :
  transaction_xid st = Some xid -> performs xid db es db' ->
  apply_events st (es ++ rest) = apply_events {| transaction_xid := Some xid; pending := pending st ++ pendings es |} rest.
Proof.
  intros Hx Hp. revert st Hx. induction Hp as [db|db e es db' He _ IH|db t new es db' _ IH|db t old new others es db' _ _ IH|db t old others es db' _ _ IH];
    intros st Hx; cbn [app apply_events apply_transaction].
  - destruct st. cbn in *. by rewrite Hx, app_nil_r.
  - destruct e as [| | | | | | | | | |[x f| | |]|]; try discriminate He; cbn [apply_transaction]; try (rewrite IH by done; unfold pendings; cbn [map concat pending_of app];
      by destruct (apply_events _ rest)).
    cbn in He. apply Z.eqb_eq in He as ->. rewrite IH by done. cbn [pending]. unfold pendings. cbn [map concat pending_of app]. by destruct (apply_events _ rest).
  - rewrite IH by done. cbn [pending]. unfold pendings. cbn [map concat pending_of app]. rewrite <- app_assoc. by destruct (apply_events _ rest).
  - rewrite IH by done. cbn [pending]. unfold pendings. cbn [map concat pending_of app]. rewrite <- app_assoc. by destruct (apply_events _ rest).
  - rewrite IH by done. cbn [pending]. unfold pendings. cbn [map concat pending_of app]. rewrite <- app_assoc. by destruct (apply_events _ rest).
Qed.

(** The queued rows account for the change of the database. *)
Lemma pendings_account xid time db es db' t P : performs xid db es db' ->
  copies db' t P = copies db t P + weight t P (concat (map (pending_updates time) (pendings es))).
Proof.
  unfold pendings. induction 1 as [db|db e es db' He _ IH|db tb new es db' _ IH|db tb old new others es db' Hp _ IH|db tb old others es db' Hp _ IH];
    cbn [map concat pending_of app].
  - cbn. lia.
  - destruct e as [| | | | | | | | | |[| | |]|]; try discriminate He; exact IH.
  - rewrite weight_app. cbn [pending_updates p_op p_table p_new]. rewrite weight_push, IH, copies_set.
    destruct (Z.eqb_spec t tb) as [->|]; cbn [andb]; [|lia]. unfold copies. cbn [List.filter]. destruct (P new); cbn [length]; lia.
  - rewrite weight_app. cbn [pending_updates p_op p_table p_new p_old]. rewrite weight_app, !weight_push, IH, copies_set.
    destruct (Z.eqb_spec t tb) as [->|]; cbn [andb]; [|lia]. rewrite (copies_perm db tb P _ Hp). cbn [List.filter].
    destruct (P new), (P old); cbn [length]; lia.
  - rewrite weight_app. cbn [pending_updates p_op p_table p_old]. rewrite weight_push, IH, copies_set.
    destruct (Z.eqb_spec t tb) as [->|]; cbn [andb]; [|lia]. rewrite (copies_perm db tb P _ Hp). cbn [List.filter].
    destruct (P old); cbn [length]; lia.
Qed.

(** C32: When the statements of a transaction that inserts, updates and deletes rows take a database
    to another, and replication reports every change with the full images of the row before and
    after it, as with replica identity full, between Begin and Commit or in streamed segments that
    no other transaction interleaves, without truncation: the transaction becomes one batch of
    weighted updates at its commit LSN which, added to the copies of any rows in any table before,
    gives their copies after; it carries the transaction id and leaves no state behind for the
    events that follow. *)
Theorem transaction_refines_rows xid opening body closing commit_lsn end_lsn rest db db' :
  opens xid opening = true -> performs xid db body db' -> closes xid commit_lsn end_lsn closing = true ->
  exists tx ts st',
    apply_events WalSourceState_new (opening :: body ++ closing :: rest) = (tx :: ts, st') /\
    apply_events WalSourceState_new rest = (ts, st') /\
    wt_xid tx = Some xid /\ wt_commit_lsn tx = commit_lsn /\ wt_end_lsn tx = end_lsn /\
    Forall (fun u => wu_time u = commit_lsn) (wt_updates tx) /\
    (forall t P, copies db' t P = copies db t P + weight t P (wt_updates tx)).
Proof.
  intros Ho Hb Hc.
  assert (apply_transaction WalSourceState_new opening = (None, {| transaction_xid := Some xid; pending := [] |})) as Eo
    by (destruct opening as [| | | | | | | | | |[| | |]|]; try discriminate Ho; cbn in Ho; apply Z.eqb_eq in Ho as ->; done).
  cbn [apply_events]. rewrite Eo. rewrite (apply_events_body xid _ db body db') by done. cbn [pending app apply_events].
  assert (apply_transaction {| transaction_xid := Some xid; pending := pendings body |} closing =
    (Some {| wt_xid := Some xid; wt_begin_lsn := None; wt_commit_lsn := commit_lsn; wt_end_lsn := end_lsn;
             wt_updates := concat (map (pending_updates commit_lsn) (pendings body)) |}, WalSourceState_new)) as ->.
  { destruct closing as [| | | | | | | | | |[| | |]|]; try discriminate Hc; cbn in Hc; repeat (apply andb_true_iff in Hc as [Hc ?]);
      repeat match goal with H : (_ =? _) = true |- _ => apply Z.eqb_eq in H as -> end; done. }
  destruct (apply_events WalSourceState_new rest) as [ts st'] eqn:E.
  do 3 eexists. split; [reflexivity|]. cbn. repeat split; auto.
  - apply Forall_concat, Forall_map, Forall_true. intros p. apply pending_time.
  - intros t P. by apply (pendings_account xid).
Qed.

(** A stream abort discards every pending row: the events that follow are processed as from the
    initial state. *)
Theorem abort_discards xid subxid opening body rest db db' :
  opens xid opening = true -> performs xid db body db' ->
  apply_events WalSourceState_new (opening :: body ++ E_Stream (SA_Abort xid subxid) :: rest) = apply_events WalSourceState_new rest.
Proof.
  intros Ho Hb.
  assert (apply_transaction WalSourceState_new opening = (None, {| transaction_xid := Some xid; pending := [] |})) as Eo
    by (destruct opening as [| | | | | | | | | |[| | |]|]; try discriminate Ho; cbn in Ho; apply Z.eqb_eq in Ho as ->; done).
  cbn [apply_events]. rewrite Eo, (apply_events_body xid _ db body db') by done. cbn [apply_events apply_transaction].
  fold WalSourceState_new. by destruct (apply_events WalSourceState_new rest).
Qed.
