(* ===== verification/Shared.v ===== *)
(** * Shared: reference-counted shared subgraphs
    ([crates/palimpsest-dataflow/src/palimpsest/shared.rs])

    The registry keeps two indexes (key to id, id to entry). It is proved to
    implement a plain map from canonical keys to reference counts. *)

From S2P Require Import Prelude.

Record SharedSubgraphEntry := { se_key : string; se_ref_count : Z }.

Record SharedSubgraphRegistry := {
  next_id : Z;
  ids_by_key : gmap string Z;
  entries : gmap Z SharedSubgraphEntry
}.

Inductive SharedSubgraphAcquire :=
| Created (id : Z)
| Reused (id ref_count : Z).

Inductive SharedSubgraphRelease :=
| StillReferenced (id ref_count : Z)
| Teardown (id : Z) (key : string).

Definition acquire_id (a : SharedSubgraphAcquire) : Z :=
  match a with Created id | Reused id _ => id end.

Definition shared_new : SharedSubgraphRegistry :=
  {| next_id := 0; ids_by_key := ∅; entries := ∅ |}.

(** [acquire]; [None] is the panic of the [expect] on a dangling index. *)
Definition acquire (r : SharedSubgraphRegistry) (key : string)
  : option (SharedSubgraphAcquire * SharedSubgraphRegistry) :=
  match ids_by_key r !! key with
  | Some id =>
      entry ← entries r !! id;
      let n := saturating_add USIZE_MAX (se_ref_count entry) 1 in
      Some (Reused id n,
            {| next_id := next_id r; ids_by_key := ids_by_key r;
               entries := <[id := {| se_key := se_key entry; se_ref_count := n |}]> (entries r) |})
  | None =>
      let id := next_id r in
      Some (Created id,
            {| next_id := saturating_add U64_MAX (next_id r) 1;
               ids_by_key := <[key := id]> (ids_by_key r);
               entries := <[id := {| se_key := key; se_ref_count := 1 |}]> (entries r) |})
  end.

Definition release (r : SharedSubgraphRegistry) (id : Z)
  : option SharedSubgraphRelease * SharedSubgraphRegistry :=
  match entries r !! id with
  | None => (None, r)
  | Some entry =>
      let n := saturating_sub (se_ref_count entry) 1 in
      if 0 <? n then
        (Some (StillReferenced id n),
         {| next_id := next_id r; ids_by_key := ids_by_key r;
            entries := <[id := {| se_key := se_key entry; se_ref_count := n |}]> (entries r) |})
      else
        (Some (Teardown id (se_key entry)),
         {| next_id := next_id r; ids_by_key := delete (se_key entry) (ids_by_key r);
            entries := delete id (entries r) |})
  end.

Definition shared_resolve (r : SharedSubgraphRegistry) (key : string) : option Z := ids_by_key r !! key.
Definition ref_count (r : SharedSubgraphRegistry) (id : Z) : option Z := se_ref_count <$> entries r !! id.
Definition shared_len (r : SharedSubgraphRegistry) : nat := size (entries r).

(** ** Invariant *)

Record shared_wf (r : SharedSubgraphRegistry) : Prop := {
  wf_key : forall k id, ids_by_key r !! k = Some id -> exists n, entries r !! id = Some {| se_key := k; se_ref_count := n |};
  wf_entry : forall id e, entries r !! id = Some e -> ids_by_key r !! se_key e = Some id;
  wf_count : forall id e, entries r !! id = Some e -> 1 <= se_ref_count e <= USIZE_MAX;
  wf_fresh : forall id e, entries r !! id = Some e -> 0 <= id < next_id r;
  wf_next : 0 <= next_id r
}.

Lemma shared_new_wf : shared_wf shared_new.
Proof. split; simpl; try (intros *; rewrite lookup_empty; done). lia. Qed.

(** ** Specification: a map from keys to counts *)

Definition counts (r : SharedSubgraphRegistry) : gmap string Z :=
  omap (fun id => se_ref_count <$> entries r !! id) (ids_by_key r).

Lemma counts_lookup r k :
  counts r !! k = (ids_by_key r !! k) ≫= (fun id => se_ref_count <$> entries r !! id).
Proof. unfold counts. apply lookup_omap. Qed.

Lemma counts_Some r k n :
  shared_wf r ->
  counts r !! k = Some n <->
  exists id, ids_by_key r !! k = Some id /\ entries r !! id = Some {| se_key := k; se_ref_count := n |}.
Proof.
  intros Hwf. rewrite counts_lookup. split.
  - intros H. apply bind_Some in H as (id & Hid & He). exists id; split; [done|].
    destruct (wf_key r Hwf k id Hid) as [n' Hn']. rewrite Hn' in He. by injection He as <-.
  - intros (id & -> & He). simpl. by rewrite He.
Qed.

(** Keys of live entries are distinct. *)
Lemma wf_inj r id1 id2 e1 e2 :
  shared_wf r -> entries r !! id1 = Some e1 -> entries r !! id2 = Some e2 ->
  se_key e1 = se_key e2 -> id1 = id2.
Proof.
  intros Hwf H1 H2 E. apply (wf_entry r Hwf) in H1, H2. rewrite E in H1. congruence.
Qed.

Definition bump (k : string) (m : gmap string Z) : gmap string Z :=
  <[k := default 0 (m !! k) + 1]> m.
Definition drop_one (k : string) (m : gmap string Z) : gmap string Z :=
  match m !! k with
  | Some n => if 1 <? n then <[k := n - 1]> m else delete k m
  | None => m
  end.

(** ** The three changes of state

    Setting the count of a live entry, creating an entry, dropping one. *)

Definition set_count (r : SharedSubgraphRegistry) (id : Z) (e : SharedSubgraphEntry) (n : Z) :=
  {| next_id := next_id r; ids_by_key := ids_by_key r;
     entries := <[id := {| se_key := se_key e; se_ref_count := n |}]> (entries r) |}.
Definition create (r : SharedSubgraphRegistry) (key : string) :=
  {| next_id := saturating_add U64_MAX (next_id r) 1;
     ids_by_key := <[key := next_id r]> (ids_by_key r);
     entries := <[next_id r := {| se_key := key; se_ref_count := 1 |}]> (entries r) |}.
Definition drop_entry (r : SharedSubgraphRegistry) (id : Z) (e : SharedSubgraphEntry) :=
  {| next_id := next_id r; ids_by_key := delete (se_key e) (ids_by_key r);
     entries := delete id (entries r) |}.

(** An index entry that points at [id] is the one of the entry's key. *)
Lemma wf_key_of r id e k :
  shared_wf r -> entries r !! id = Some e -> ids_by_key r !! k = Some id -> k = se_key e.
Proof. intros Hwf He Hk. destruct (wf_key r Hwf k id Hk) as [m Hm]. rewrite He in Hm. by injection Hm as ->. Qed.

Lemma wf_fresh_id r : shared_wf r -> entries r !! next_id r = None.
Proof.
  intros Hwf. destruct (entries r !! next_id r) as [e|] eqn:E; [|done].
  apply (wf_fresh r Hwf) in E. lia.
Qed.

Lemma set_count_wf r id e n :
  shared_wf r -> entries r !! id = Some e -> 1 <= n <= USIZE_MAX -> shared_wf (set_count r id e n).
Proof.
  intros Hwf He Hn. split; cbn [set_count ids_by_key entries next_id].
  - intros k i Hi. destruct (decide (i = id)) as [->|Hne].
    + rewrite (wf_key_of r id e k) by done. eexists. by rewrite lookup_insert_eq.
    + destruct (wf_key r Hwf k i Hi) as [m Hm]. exists m. by rewrite lookup_insert_ne.
  - intros i e' Hi. apply lookup_insert_Some in Hi as [[<- <-]|[_ Hi]];
      [exact (wf_entry r Hwf _ _ He) | by apply (wf_entry r Hwf)].
  - intros i e' Hi. apply lookup_insert_Some in Hi as [[<- <-]|[_ Hi]]; [done | by apply (wf_count r Hwf) in Hi].
  - intros i e' Hi. apply lookup_insert_Some in Hi as [[<- <-]|[_ Hi]]; by eapply (wf_fresh r Hwf).
  - apply (wf_next r Hwf).
Qed.

Lemma create_wf r key :
  shared_wf r -> next_id r < U64_MAX -> ids_by_key r !! key = None -> shared_wf (create r key).
Proof.
  intros Hwf Hlt Hk. pose proof (wf_next r Hwf). pose proof (wf_fresh_id r Hwf) as Hf.
  split; cbn [create ids_by_key entries next_id]; rewrite ?saturating_add_exact by lia.
  - intros k i Hi. apply lookup_insert_Some in Hi as [[<- <-]|[_ Hi]]; [eexists; by rewrite lookup_insert_eq|].
    destruct (wf_key r Hwf k i Hi) as [m Hm]. exists m. rewrite lookup_insert_ne; congruence.
  - intros i e Hi. apply lookup_insert_Some in Hi as [[<- <-]|[_ Hi]]; [by rewrite lookup_insert_eq|].
    apply (wf_entry r Hwf) in Hi. rewrite lookup_insert_ne; congruence.
  - intros i e Hi. apply lookup_insert_Some in Hi as [[<- <-]|[_ Hi]]; [unfold USIZE_MAX, U64_MAX; simpl; lia|].
    by apply (wf_count r Hwf) in Hi.
  - intros i e Hi. apply lookup_insert_Some in Hi as [[<- <-]|[_ Hi]]; [lia|].
    apply (wf_fresh r Hwf) in Hi. lia.
  - lia.
Qed.

Lemma drop_entry_wf r id e : shared_wf r -> entries r !! id = Some e -> shared_wf (drop_entry r id e).
Proof.
  intros Hwf He. split; cbn [drop_entry ids_by_key entries next_id]; [..|apply (wf_next r Hwf)];
    intros i x; rewrite lookup_delete_Some; intros [Hne Hi].
  - destruct (wf_key r Hwf i x Hi) as [m Hm]. exists m. rewrite lookup_delete_ne; [done|]. intros <-.
    by apply Hne; symmetry; apply (wf_key_of r id).
  - rewrite lookup_delete_ne; [by apply (wf_entry r Hwf)|]. intros E. apply Hne. symmetry.
    by eapply (wf_inj r i id).
  - by apply (wf_count r Hwf) in Hi.
  - by apply (wf_fresh r Hwf) in Hi.
Qed.

Lemma set_count_counts r id e n :
  shared_wf r -> entries r !! id = Some e ->
  counts (set_count r id e n) = <[se_key e := n]> (counts r).
Proof.
  intros Hwf He. apply map_eq. intros k. rewrite counts_lookup. cbn [set_count ids_by_key entries].
  destruct (decide (k = se_key e)) as [->|Hne].
  - rewrite lookup_insert_eq, (wf_entry r Hwf id e He). simpl. by rewrite lookup_insert_eq.
  - rewrite lookup_insert_ne, counts_lookup by done.
    destruct (ids_by_key r !! k) as [i|] eqn:Hi; [|done]. simpl. rewrite lookup_insert_ne; [done|].
    intros <-. by apply Hne, (wf_key_of r id).
Qed.

Lemma create_counts r key :
  shared_wf r -> ids_by_key r !! key = None -> counts (create r key) = <[key := 1]> (counts r).
Proof.
  intros Hwf Hk. apply map_eq. intros k. rewrite counts_lookup. cbn [create ids_by_key entries].
  destruct (decide (k = key)) as [->|Hne].
  - rewrite !lookup_insert_eq. simpl. by rewrite lookup_insert_eq.
  - rewrite !lookup_insert_ne, counts_lookup by done.
    destruct (ids_by_key r !! k) as [i|] eqn:Hi; [|done]. simpl. rewrite lookup_insert_ne; [done|].
    intros <-. destruct (wf_key r Hwf k _ Hi) as [m Hm]. by rewrite wf_fresh_id in Hm.
Qed.

Lemma drop_entry_counts r id e :
  shared_wf r -> entries r !! id = Some e -> counts (drop_entry r id e) = delete (se_key e) (counts r).
Proof.
  intros Hwf He. apply map_eq. intros k. rewrite counts_lookup. cbn [drop_entry ids_by_key entries].
  destruct (decide (k = se_key e)) as [->|Hne]; [by rewrite !lookup_delete_eq|].
  rewrite !lookup_delete_ne, counts_lookup by done.
  destruct (ids_by_key r !! k) as [i|] eqn:Hi; [|done]. simpl. rewrite lookup_delete_ne; [done|].
  intros <-. by apply Hne, (wf_key_of r id).
Qed.

(** ** [acquire] and [release] in terms of them *)

Lemma acquire_unfold r key :
  shared_wf r ->
  match ids_by_key r !! key with
  | Some id => exists e, entries r !! id = Some e /\ se_key e = key /\
      acquire r key =
        let n := saturating_add USIZE_MAX (se_ref_count e) 1 in Some (Reused id n, set_count r id e n)
  | None => acquire r key = Some (Created (next_id r), create r key)
  end.
Proof.
  intros Hwf. unfold acquire. destruct (ids_by_key r !! key) as [id|] eqn:Hk; [|done].
  destruct (wf_key r Hwf key id Hk) as [n He]. eexists. split; [exact He|]. by rewrite He.
Qed.

Lemma acquire_wf r key a r' :
  shared_wf r -> next_id r < U64_MAX -> acquire r key = Some (a, r') -> shared_wf r'.
Proof.
  intros Hwf Hlt. pose proof (acquire_unfold r key Hwf) as Hu.
  destruct (ids_by_key r !! key) as [id|] eqn:Hk.
  - destruct Hu as (e & He & _ & ->). cbv zeta. intros [= <- <-]. apply set_count_wf; [done..|].
    pose proof (wf_count r Hwf _ _ He). unfold saturating_add, USIZE_MAX, U64_MAX in *. lia.
  - rewrite Hu. intros [= <- <-]. by apply create_wf.
Qed.

(** The outcome names what the specification says, and never panics. *)
Lemma acquire_spec r key :
  shared_wf r -> (forall n, counts r !! key = Some n -> n < USIZE_MAX) ->
  exists a r', acquire r key = Some (a, r') /\ counts r' = bump key (counts r) /\
    shared_resolve r' key = Some (acquire_id a) /\
    match a with
    | Created _ => counts r !! key = None
    | Reused _ n => counts r !! key = Some (n - 1)
    end.
Proof.
  intros Hwf Hmax. pose proof (acquire_unfold r key Hwf) as Hu. unfold shared_resolve, bump.
  destruct (ids_by_key r !! key) as [id|] eqn:Hk.
  - destruct Hu as (e & He & <- & ->). cbv zeta.
    assert (counts r !! se_key e = Some (se_ref_count e)) as Hc
      by (rewrite counts_lookup, Hk; simpl; by rewrite He).
    rewrite saturating_add_exact by (specialize (Hmax _ Hc); lia).
    do 2 eexists. split; [reflexivity|]. rewrite set_count_counts, Hc by done.
    repeat split; [done|]. f_equal; lia.
  - do 2 eexists. split; [exact Hu|]. rewrite create_counts, counts_lookup, Hk by done.
    repeat split. simpl. by rewrite lookup_insert_eq.
Qed.

Lemma release_unfold r id e :
  shared_wf r -> entries r !! id = Some e ->
  release r id =
    if 1 <? se_ref_count e
    then (Some (StillReferenced id (se_ref_count e - 1)), set_count r id e (se_ref_count e - 1))
    else (Some (Teardown id (se_key e)), drop_entry r id e).
Proof.
  intros Hwf He. pose proof (wf_count r Hwf _ _ He). unfold release. rewrite He.
  rewrite saturating_sub_exact by lia.
  assert ((0 <? se_ref_count e - 1) = (1 <? se_ref_count e)) as -> by lia. done.
Qed.

Lemma release_wf r id : shared_wf r -> shared_wf (release r id).2.
Proof.
  intros Hwf. destruct (entries r !! id) as [e|] eqn:He.
  - rewrite (release_unfold r id e) by done. pose proof (wf_count r Hwf _ _ He).
    destruct (Z.ltb_spec 1 (se_ref_count e)); [apply set_count_wf | apply drop_entry_wf]; done || lia.
  - unfold release. by rewrite He.
Qed.

Lemma release_spec r id e :
  shared_wf r -> entries r !! id = Some e ->
  counts r !! se_key e = Some (se_ref_count e) /\
  counts (release r id).2 = drop_one (se_key e) (counts r) /\
  (release r id).1 =
    Some (if 1 <? se_ref_count e then StillReferenced id (se_ref_count e - 1)
          else Teardown id (se_key e)).
Proof.
  intros Hwf He.
  assert (counts r !! se_key e = Some (se_ref_count e)) as Hc
    by (rewrite counts_lookup, (wf_entry r Hwf _ _ He); simpl; by rewrite He).
  split; [done|]. rewrite (release_unfold r id e) by done. unfold drop_one. rewrite Hc.
  destruct (1 <? se_ref_count e); cbn [fst snd]; (split; [|done]).
  - by apply set_count_counts.
  - by apply drop_entry_counts.
Qed.

(** The shared-subgraph registry implements a map from keys to reference counts: acquiring a
    key adds one and says whether it was new, releasing the acquired id restores the counts, and a
    teardown is reported exactly when the key had no other holder. *)
Theorem shared_refines_counts r key :
  shared_wf r -> next_id r < U64_MAX -> (forall n, counts r !! key = Some n -> n < USIZE_MAX) ->
  exists a r1 o r2,
    acquire r key = Some (a, r1) /\ shared_wf r1 /\ counts r1 = bump key (counts r) /\
    (match a with Created _ => counts r !! key = None | Reused _ n => counts r !! key = Some (n - 1) end) /\
    release r1 (acquire_id a) = (Some o, r2) /\ shared_wf r2 /\ counts r2 = counts r /\
    (o = Teardown (acquire_id a) key <-> counts r !! key = None).
Proof.
  intros Hwf Hlt Hmax. destruct (acquire_spec r key Hwf Hmax) as (a & r1 & Ha & Hc & Hres & Hout).
  assert (shared_wf r1) as Hwf1 by (by eapply acquire_wf).
  destruct (wf_key r1 Hwf1 key _ Hres) as [n He].
  destruct (release_spec r1 _ _ Hwf1 He) as (Hn & Hc2 & Ho). cbn [se_key se_ref_count] in *.
  pose proof (release_wf r1 (acquire_id a) Hwf1) as Hwf2.
  destruct (release r1 (acquire_id a)) as [o r2] eqn:Hr. cbn [fst snd] in *. subst o.
  exists a, r1. eexists _, r2. repeat (split; [done || reflexivity|]).
  rewrite Hc2, Hc. unfold drop_one, bump in *. rewrite Hc in Hn. rewrite lookup_insert_eq in *.
  injection Hn as <-.
  destruct (counts r !! key) as [m|] eqn:Hm.
  - change (default 0 (Some m)) with m. assert (1 <= m).
    { apply counts_Some in Hm as (i & _ & Hi); [|done]. apply (wf_count r Hwf) in Hi. simpl in Hi. lia. }
    assert ((1 <? m + 1) = true) as -> by lia.
    rewrite insert_insert_eq, Z.add_simpl_r, insert_id by done. done.
  - simpl. by rewrite delete_insert_id.
Qed.
