(* ===== verification/UserContext.v ===== *)
(** * UserContext: the values permission predicates are parameterized with
    ([crates/palimpsest-permissions/src/user.rs])

    Strings are UTF-8 byte lists ([text]), so [len()] is [length]. JSON documents
    and the decimal rendering of an [f64] belong to [serde_json] and to the
    formatting machinery; they enter through the class [Rendering]. *)

From S2P Require Import Prelude BTree Text.

(** Decimal rendering of integers and lengths ([format!("{n}")]). *)
Definition dec (z : Z) : text := lit (pretty z).
Definition dec_len (n : nat) : text := lit (pretty (N.of_nat n)).

(** What the model needs of [serde_json::Value] and of [f64]: their renderings. *)
Class Rendering : Type := {
  json : Type;
  json_to_string : json -> text;
  f64_display : Z -> text  (* by bit pattern *)
}.

(** ** Values *)

Inductive UserValue `{Rendering} : Type :=
| UV_Bool (b : bool)
| UV_Int (z : Z)
| UV_Float (bits : Z)
| UV_Text (t : text)
| UV_Timestamp (t : text)
| UV_Uuid (t : text)
| UV_Jsonb (j : json)
| UV_Enum (t : text)
| UV_List (items : list UserValue)
| UV_Null.

Inductive ColumnType : Type :=
| CT_Bool | CT_Int | CT_Float | CT_Text | CT_Timestamp | CT_TimestampTz | CT_Date | CT_Time
| CT_Interval | CT_Numeric | CT_Bytea | CT_Uuid | CT_Jsonb | CT_Enum | CT_Array | CT_Unknown.

#[global] Instance ColumnType_eq_dec : EqDecision ColumnType.
Proof. solve_decision. Defined.

Fixpoint column_type `{Rendering} (v : UserValue) : ColumnType :=
  match v with
  | UV_Bool _ => CT_Bool
  | UV_Int _ => CT_Int
  | UV_Float _ => CT_Float
  | UV_Text _ => CT_Text
  | UV_Timestamp _ => CT_Timestamp
  | UV_Uuid _ => CT_Uuid
  | UV_Jsonb _ => CT_Jsonb
  | UV_Enum _ => CT_Enum
  | UV_List items => match items with [] => CT_Unknown | i :: _ => column_type i end
  | UV_Null => CT_Unknown
  end.

(** ** UUID normalization *)

(** [str::trim]: whitespace characters at either end. *)
Fixpoint trim_start_fuel (fuel : nat) (t : text) : text :=
  match fuel with
  | O => t
  | S n => match ws_len t with O => t | S k => trim_start_fuel n (drop (S k) t) end
  end.
Fixpoint trim_end_ws_fuel (fuel : nat) (t : text) : text :=
  match fuel with
  | O => t
  | S n =>
      let ends k := Nat.eqb (ws_len (drop (length t - k) t)) k && (k <=? length t)%nat in
      if ends 1%nat then trim_end_ws_fuel n (take (length t - 1) t)
      else if ends 2%nat then trim_end_ws_fuel n (take (length t - 2) t)
      else if ends 3%nat then trim_end_ws_fuel n (take (length t - 3) t)
      else t
  end.
Definition trim (t : text) : text :=
  let t := trim_start_fuel (length t) t in trim_end_ws_fuel (length t) t.

Definition is_ascii_hexdigit (b : byte) : bool :=
  in_range 48 57 b || in_range 97 102 b || in_range 65 70 b.
Definition to_ascii_lowercase (b : byte) : byte :=
  if in_range 65 90 b then Z_byte (byte_Z b + 32) else b.

Definition strip_braces (t : text) : option text :=
  match strip_prefix (lit "{") t with Some rest => strip_suffix (lit "}") rest | None => None end.
Definition strip_dashes (t : text) : text := filter (fun b => b <> x2d) t.

Definition normalized_uuid (raw : text) : option text :=
  let trimmed := trim raw in
  let trimmed := default trimmed (strip_braces trimmed) in
  let dash i := match nth_error trimmed i with Some b => bool_decide (b = x2d) | None => false end in
  hex ← ((if Nat.eqb (length trimmed) 36 then
           if dash 8%nat && dash 13%nat && dash 18%nat && dash 23%nat
           then Some (strip_dashes trimmed) else None
         else if Nat.eqb (length trimmed) 32 then Some trimmed else None) : option text);
  if Nat.eqb (length hex) 32 && forallb is_ascii_hexdigit hex then
    let lower := map to_ascii_lowercase hex in
    let part i j := take (j - i) (drop i lower) in
    Some (part 0%nat 8%nat ++ [x2d] ++ part 8%nat 12%nat ++ [x2d] ++ part 12%nat 16%nat ++ [x2d]
            ++ part 16%nat 20%nat ++ [x2d] ++ part 20%nat 32%nat)
  else None.

Definition normalize_or_raw (raw : text) : text := default raw (normalized_uuid raw).

(** ** SQL literals and canonical representations *)

Definition bool_text (b : bool) : text := if b then lit "true" else lit "false".

Fixpoint to_sql_literal `{Rendering} (v : UserValue) : text :=
  match v with
  | UV_Bool b => bool_text b
  | UV_Int z => dec z
  | UV_Float bits => f64_display bits
  | UV_Text t | UV_Timestamp t | UV_Enum t => quoted t
  | UV_Uuid t => quoted (normalize_or_raw t)
  | UV_Jsonb j => quoted (json_to_string j)
  | UV_List items => lit "ARRAY[" ++ join (lit ", ") (map to_sql_literal items) ++ lit "]"
  | UV_Null => lit "NULL"
  end.

(** One framed list element: its length, a colon, the element. *)
Definition framed (repr : text) : text := dec_len (length repr) ++ lit ":" ++ repr.

Fixpoint canonical_repr `{Rendering} (v : UserValue) : text :=
  match v with
  | UV_Bool b => lit "bool:" ++ bool_text b
  | UV_Int z => lit "int:" ++ dec z
  | UV_Float bits => lit "float:" ++ f64_display bits
  | UV_Text t => lit "text:" ++ t
  | UV_Timestamp t => lit "ts:" ++ t
  | UV_Uuid t => lit "uuid:" ++ normalize_or_raw t
  | UV_Jsonb j => lit "jsonb:" ++ json_to_string j
  | UV_Enum t => lit "enum:" ++ t
  | UV_List items =>
      lit "list:[" ++ join (lit ",") (map framed (dedup (slice_sort (map canonical_repr items)))) ++ lit "]"
  | UV_Null => lit "null"
  end.

(** ** Contexts *)

(** [BTreeMap<String, UserValue>]. *)
Abbreviation UserContext := (btree text UserValue).

(** [format!("{field}={}:{value};", value.len())]. *)
Definition key_entry (e : text * text) : text :=
  e.1 ++ lit "=" ++ dec_len (length e.2) ++ lit ":" ++ e.2 ++ lit ";".

(** The [(field, canonical_repr)] pairs [canonical_subgraph_key] sorts. *)
Definition context_entries `{Rendering} (ctx : UserContext) : list (text * text) :=
  slice_sort (map (fun fv => (fv.1, canonical_repr fv.2)) ctx).

(** [canonical_subgraph_key] of [crates/palimpsest-server/src/router.rs]. *)
Definition canonical_subgraph_key `{Rendering} (query : text) (ctx : UserContext) : text :=
  query ++ lit "|" ++ concat (map key_entry (context_entries ctx)).

(** ** Validation against a declared schema *)

(** The variants of [palimpsest_permissions::PermissionError]; the wording of a
    message is a tag, not the formatted text. *)
Inductive PermissionError : Type :=
| UnknownUserField (rule field : text)
| UnknownColumn (rule table column : text)
| UnknownTable (rule table : text)
| DuplicateRuleName (name : text)
| AmbiguousRule (first second table predicate : text)
| MalformedUserReference (rule fragment : text)
| MissingUserValue (field : text)
| PredicateTooDeep (rule : text) (depth limit : nat)
| InvalidConfig (reason : string)
| RuleSql (rule table : text)
| InvalidUserValue (field : text) (reason : string)
| UserValueTypeMismatch (field : text) (expected actual : ColumnType).

Definition is_numeric (c : ColumnType) : bool :=
  match c with CT_Int | CT_Float | CT_Numeric => true | _ => false end.
Definition is_temporal (c : ColumnType) : bool :=
  match c with
  | CT_Timestamp | CT_TimestampTz | CT_Date | CT_Time | CT_Interval => true
  | _ => false
  end.
Definition is_textual (c : ColumnType) : bool :=
  match c with CT_Text | CT_Uuid | CT_Enum => true | _ => false end.

Definition is_compatible_with (self other : ColumnType) : bool :=
  (match self, other with CT_Unknown, _ | _, CT_Unknown => true | _, _ => false end)
  || bool_decide (self = other)
  || (is_numeric self && is_numeric other)
  || (is_textual self && is_textual other)
  || (is_temporal self && (is_temporal other || bool_decide (other = CT_Text)))
  || (is_temporal other && bool_decide (self = CT_Text))
  || (match self, other with CT_Jsonb, CT_Text | CT_Text, CT_Jsonb => true | _, _ => false end).

Section Validate.
Context `{Rendering}.

Definition is_jsonb (v : UserValue) : bool := match v with UV_Jsonb _ => true | _ => false end.

(** The error reasons are kept without the interpolated value. *)
Definition validate_scalar (field : text) (value : UserValue) (expected : option ColumnType)
  : exec PermissionError unit :=
  let? _ := match value with
            | UV_Uuid raw =>
                match normalized_uuid raw with
                | None => Err (InvalidUserValue field "not a valid UUID")
                | Some _ => Ok tt
                end
            | _ => Ok tt
            end in
  match expected with
  | None => Ok tt
  | Some expected =>
      match value with
      | UV_Null => Ok tt
      | _ =>
          let actual := column_type value in
          if negb (is_compatible_with expected actual)
             || (bool_decide (expected = CT_Jsonb) && negb (is_jsonb value))
          then Err (UserValueTypeMismatch field expected actual)
          else if bool_decide (expected = CT_Uuid) then
            match value with
            | UV_Text raw =>
                match normalized_uuid raw with
                | None => Err (InvalidUserValue field "not a valid UUID")
                | Some _ => Ok tt
                end
            | _ => Ok tt
            end
          else Ok tt
      end
  end.

Definition validate_item (field : text) (expected : option ColumnType) (item : UserValue)
  : exec PermissionError unit :=
  match item with
  | UV_List _ => Err (InvalidUserValue field "nested lists are not supported")
  | UV_Jsonb _ => Err (InvalidUserValue field "jsonb documents inside lists are not supported")
  | _ => validate_scalar field item expected
  end.

Definition validate (ctx : UserContext) (schema : btree text ColumnType) : exec PermissionError unit :=
  let? _ := exec_mapM (fun fv =>
    let expected := bt_get fv.1 schema in
    match fv.2 with
    | UV_List items => exec_map (fun _ => tt) (exec_mapM (validate_item fv.1 expected) items)
    | value => validate_scalar fv.1 value expected
    end) ctx in
  Ok tt.
End Validate.
