(* ===== verification/SqlLimits.v ===== *)
(** * SqlLimits: errors of the SQL front end and bounds on its input
    ([crates/palimpsest-sql/src/error.rs], [limits.rs])

    [max_paren_depth] scans the bytes of a query once. Its index only moves forward
    and every look-ahead is relative to it, so the index is the suffix it starts. *)

From S2P Require Import Prelude Text UserContext.

(** ** [error.rs] *)

(** [Parse] wraps an error of [sqlparser], here by its message. *)
Inductive SqlError :=
| StatementCount (n : nat)
| UnsupportedStatement
| UnsupportedFeature (feature : string)
| UnsupportedFunction (name : text)
| InvalidQuery (message : text)
| UnknownTable (name : text)
| UnknownColumn (name : text)
| AmbiguousColumn (name : text)
| SqlTypeMismatch (message : text)
| QueryTooLarge (len limit : nat)
| QueryTooComplex (nodes limit : nat)
| QueryTooDeep (depth limit : nat)
| ParseError (message : text).

(** ** [limits.rs] *)

Record QueryLimits := { max_input_bytes : nat; max_mir_nodes : nat; max_nesting_depth : nat }.

Definition QueryLimits_DEFAULT : QueryLimits :=
  {| max_input_bytes := Z.to_nat (64 * 1024); max_mir_nodes := 256; max_nesting_depth := 32 |}.

Definition enforce_input_size (sql : text) (limits : QueryLimits) : exec SqlError unit :=
  if (max_input_bytes limits <? length sql)%nat then Err (QueryTooLarge (length sql) (max_input_bytes limits)) else Ok tt.

Definition enforce_graph_size (nodes : nat) (limits : QueryLimits) : exec SqlError unit :=
  if (max_mir_nodes limits <? nodes)%nat then Err (QueryTooComplex nodes (max_mir_nodes limits)) else Ok tt.

(** What follows a literal, from just past its opening quote. *)
Fixpoint skip_quoted (quote : byte) (rest : text) : text :=
  match rest with
  | [] => []
  | b :: rest' =>
      if decide (b = quote) then
        match rest' with
        | b' :: rest'' => if decide (b' = quote) then skip_quoted quote rest'' else rest'
        | [] => []
        end
      else skip_quoted quote rest'
  end.

(** What follows the next line feed. *)
Fixpoint skip_line (rest : text) : text :=
  match rest with
  | [] => []
  | b :: rest' => if decide (b = x0a) then rest' else skip_line rest'
  end.

(** What follows the first occurrence of [needle], by [find]. *)
Definition skip_past (needle rest : text) : text :=
  match find needle rest with Some n => drop (n + length needle) rest | None => [] end.

Definition is_word (b : byte) : bool := in_range 48 57 b || in_range 97 122 b || in_range 65 90 b || bool_decide (b = x5f).

Fixpoint take_word (rest : text) : text * text :=
  match rest with
  | b :: rest' => if is_word b then let '(w, after) := take_word rest' in (b :: w, after) else ([], rest)
  | [] => ([], [])
  end.

Definition starts_with_digit (t : text) : bool := match t with b :: _ => in_range 48 57 b | [] => false end.

(** [bytes.get(i) == Some(&b)] at the start of [rest]. *)
Definition starts (b : byte) (rest : text) : bool := match rest with b' :: _ => bool_decide (b = b') | [] => false end.

(** [rest] follows the dollar sign. *)
Definition skip_dollar_quoted (rest : text) : text :=
  let '(word, after) := take_word rest in
  if negb (starts x24 after) || starts_with_digit word then rest
  else skip_past ([x24] ++ word ++ [x24]) (tail after).

(** The loop; the fuel is the length of the input, every round consumes a byte. *)
Fixpoint paren_loop (fuel depth max : nat) (bytes : text) : nat :=
  match fuel, bytes with
  | O, _ | _, [] => max
  | S fuel, b :: rest =>
      if decide (b = x28) then paren_loop fuel (S depth) (Nat.max max (S depth)) rest
      else if decide (b = x29) then paren_loop fuel (Nat.pred depth) max rest
      else if decide (b = x27) then paren_loop fuel depth max (skip_quoted x27 rest)
      else if decide (b = x22) then paren_loop fuel depth max (skip_quoted x22 rest)
      else if bool_decide (b = x2d) && starts x2d rest then paren_loop fuel depth max (skip_line rest)
      else if bool_decide (b = x2f) && starts x2a rest then paren_loop fuel depth max (skip_past [x2a; x2f] (tail rest))
      else if decide (b = x24) then paren_loop fuel depth max (skip_dollar_quoted rest)
      else paren_loop fuel depth max rest
  end.

Definition max_paren_depth (sql : text) : nat := paren_loop (length sql) 0 0 sql.

Definition enforce_nesting_depth (sql : text) (limits : QueryLimits) : exec SqlError unit :=
  let depth := max_paren_depth sql in
  if (max_nesting_depth limits <? depth)%nat then Err (QueryTooDeep depth (max_nesting_depth limits)) else Ok tt.

(** ** Reference: the lexical structure of a query

    Pieces of text that hide their parentheses, and groups that nest. *)

Inductive piece :=
| P_Byte (b : byte)                     (** any other byte *)
| P_Param (digits : text)               (** [$1] *)
| P_Quoted (quote : byte) (body : text) (** a string or a quoted identifier *)
| P_Line (body : text)                  (** [-- body] and the line feed *)
| P_Block (body : text)
| P_Dollar (tag body : text).

Inductive item :=
| Piece (p : piece)
| Group (inner : list item).

(** A quote inside a literal is doubled. *)
Definition doubled (quote : byte) (t : text) : text :=
  concat (map (fun b => if decide (b = quote) then [quote; quote] else [b]) t).

Definition render_piece (p : piece) : text :=
  match p with
  | P_Byte b => [b]
  | P_Param digits => x24 :: digits
  | P_Quoted q body => [q] ++ doubled q body ++ [q]
  | P_Line body => [x2d; x2d] ++ body ++ [x0a]
  | P_Block body => [x2f; x2a] ++ body ++ [x2a; x2f]
  | P_Dollar tag body => [x24] ++ tag ++ [x24] ++ body ++ [x24] ++ tag ++ [x24]
  end.

(** A flat list of pieces and parentheses, so that a group needs no recursion below it. *)
Inductive tok := T_Open | T_Close | T_Piece (p : piece).

Fixpoint item_toks (i : item) : list tok :=
  match i with
  | Piece p => [T_Piece p]
  | Group inner => [T_Open] ++ concat (map item_toks inner) ++ [T_Close]
  end.
Definition toks (l : list item) : list tok := concat (map item_toks l).

Definition render_tok (t : tok) : text := match t with T_Open => [x28] | T_Close => [x29] | T_Piece p => render_piece p end.
Definition render (l : list tok) : text := concat (map render_tok l).

(** How deep the groups nest. *)
Fixpoint item_height (i : item) : nat :=
  match i with
  | Piece _ => 0%nat
  | Group inner => S (foldr (fun i h => Nat.max (item_height i) h) 0%nat inner)
  end.
Definition height (l : list item) : nat := foldr (fun i h => Nat.max (item_height i) h) 0%nat l.

(** A piece stands where a lexer would read it: [next] is the text after it. *)
Definition piece_ok (p : piece) (next : text) : bool :=
  match p with
  | P_Byte b =>
      negb (bool_decide (b ∈ [x28; x29; x27; x22; x24])) && negb (bool_decide (b = x2d) && starts x2d next)
      && negb (bool_decide (b = x2f) && starts x2a next)
  | P_Param digits => starts_with_digit digits && forallb (in_range 48 57) digits
  | P_Quoted q _ => bool_decide (q ∈ [x27; x22]) && negb (starts q next)
  | P_Line body => negb (bool_decide (x0a ∈ body))
  | P_Block body => bool_decide (find [x2a; x2f] (body ++ [x2a; x2f]) = Some (length body))
  | P_Dollar tag body =>
      forallb is_word tag && negb (starts_with_digit tag)
      && bool_decide (find ([x24] ++ tag ++ [x24]) (body ++ [x24] ++ tag ++ [x24]) = Some (length body))
  end.

Fixpoint toks_ok (l : list tok) : bool :=
  match l with
  | [] => true
  | T_Piece p :: l' => piece_ok p (render l') && toks_ok l'
  | _ :: l' => toks_ok l'
  end.

(** ** Skipping only shortens the text *)

Lemma skip_quoted_length q n t : (length t <= n)%nat -> (length (skip_quoted q t) <= n)%nat.
Proof.
  revert t. induction n as [n IH] using lt_wf_ind. intros [|b t] Hl; simpl in *; [lia|].
  destruct (decide (b = q)).
  - destruct t as [|b' t]; simpl in *; [lia|]. destruct (decide (b' = q)); [|simpl; lia].
    specialize (IH (length t) ltac:(lia) t). lia.
  - specialize (IH (length t) ltac:(lia) t). lia.
Qed.

Lemma skip_line_length t : (length (skip_line t) <= length t)%nat.
Proof. induction t as [|b t IH]; simpl; [done|]. destruct (decide (b = x0a)); lia. Qed.

Lemma skip_past_length p t : (length (skip_past p t) <= length t)%nat.
Proof. unfold skip_past. destruct (find p t); [rewrite length_drop; lia | simpl; lia]. Qed.

Lemma take_word_app t : t = (take_word t).1 ++ (take_word t).2.
Proof.
  induction t as [|b t IH]; simpl; [done|]. destruct (is_word b); [|done].
  destruct (take_word t) as [w r]. simpl in *. by rewrite <- IH.
Qed.

Lemma skip_dollar_length t : (length (skip_dollar_quoted t) <= length t)%nat.
Proof.
  unfold skip_dollar_quoted. pose proof (take_word_app t) as E. destruct (take_word t) as [w r]. simpl in E.
  destruct (_ || _); [done|]. etrans; [apply skip_past_length|]. rewrite E, length_app. destruct r; simpl; lia.
Qed.

Lemma tail_length {A} (l : list A) : (length (tail l) <= length l)%nat.
Proof. destruct l; simpl; lia. Qed.

(** Enough fuel is enough. *)
Lemma paren_loop_fuel n : forall m d k t, (length t <= n)%nat -> (length t <= m)%nat ->
  paren_loop n d k t = paren_loop m d k t.
Proof.
  induction n as [|n IH]; intros m d k t Hn Hm.
  - destruct t; simpl in *; [by destruct m | lia].
  - destruct t as [|b t]; [by destruct m|]. destruct m as [|m]; simpl in *; [lia|].
    pose proof (skip_quoted_length x27 (length t) t ltac:(lia)). pose proof (skip_quoted_length x22 (length t) t ltac:(lia)).
    pose proof (skip_line_length t). pose proof (skip_past_length [x2a; x2f] (tail t)). pose proof (tail_length t).
    pose proof (skip_dollar_length t). repeat case_decide; repeat case_match; try apply IH; lia.
Qed.

(** The scanner on a whole text. *)
Definition scan_from (d k : nat) (t : text) : nat := paren_loop (length t) d k t.

Lemma scan_cons d k b t :
  scan_from d k (b :: t) =
  if decide (b = x28) then scan_from (S d) (Nat.max k (S d)) t
  else if decide (b = x29) then scan_from (Nat.pred d) k t
  else if decide (b = x27) then scan_from d k (skip_quoted x27 t)
  else if decide (b = x22) then scan_from d k (skip_quoted x22 t)
  else if bool_decide (b = x2d) && starts x2d t then scan_from d k (skip_line t)
  else if bool_decide (b = x2f) && starts x2a t then scan_from d k (skip_past [x2a; x2f] (tail t))
  else if decide (b = x24) then scan_from d k (skip_dollar_quoted t)
  else scan_from d k t.
Proof.
  unfold scan_from. simpl length. simpl paren_loop.
  pose proof (skip_quoted_length x27 (length t) t ltac:(lia)). pose proof (skip_quoted_length x22 (length t) t ltac:(lia)).
  pose proof (skip_line_length t). pose proof (skip_past_length [x2a; x2f] (tail t)). pose proof (tail_length t).
  pose proof (skip_dollar_length t). repeat case_decide; repeat case_match; try apply paren_loop_fuel; lia.
Qed.

(** ** Each piece is skipped as a whole *)

Lemma skip_quoted_body q body next : starts q next = false -> skip_quoted q (doubled q body ++ q :: next) = next.
Proof.
  intros Hn. induction body as [|b body IH]; simpl.
  - rewrite decide_True by done. destruct next as [|b next]; [done|]. simpl in Hn. apply bool_decide_eq_false in Hn.
    by rewrite decide_False by congruence.
  - unfold doubled in *. simpl. destruct (decide (b = q)) as [->|Hne]; simpl.
    + by rewrite !decide_True.
    + by rewrite decide_False.
Qed.

Lemma skip_line_body body next : x0a ∉ body -> skip_line (body ++ x0a :: next) = next.
Proof.
  induction body as [|b body IH]; simpl; [done|]. intros Hb.
  rewrite decide_False by (intros ->; apply Hb; left). apply IH. intros Hx. apply Hb. by right.
Qed.

Lemma skip_past_body needle body next :
  find needle (body ++ needle) = Some (length body) -> skip_past needle (body ++ needle ++ next) = next.
Proof.
  intros Hf. unfold skip_past. rewrite (find_app _ _ _ Hf), app_assoc, drop_app_ge by (rewrite length_app; lia).
  rewrite length_app. by replace (_ + _ - _)%nat with 0%nat by lia.
Qed.

Lemma take_word_spec w b next : forallb is_word w = true -> is_word b = false -> take_word (w ++ b :: next) = (w, b :: next).
Proof.
  intros Hw Hb. induction w as [|c w IH]; simpl in *; [by rewrite Hb|].
  apply andb_true_iff in Hw as [-> Hw]. by rewrite IH.
Qed.

Lemma skip_dollar_body tag body next :
  forallb is_word tag = true -> starts_with_digit tag = false ->
  find ([x24] ++ tag ++ [x24]) (body ++ [x24] ++ tag ++ [x24]) = Some (length body) ->
  skip_dollar_quoted (tag ++ [x24] ++ body ++ ([x24] ++ tag ++ [x24]) ++ next) = next.
Proof.
  intros Hw Hd Hf. unfold skip_dollar_quoted. cbn [app]. rewrite (take_word_spec tag x24) by done.
  rewrite Hd. simpl orb. cbn [tail].
  exact (skip_past_body ([x24] ++ tag ++ [x24]) body next Hf).
Qed.

Lemma skip_dollar_digits digits next : starts_with_digit digits = true -> skip_dollar_quoted (digits ++ next) = digits ++ next.
Proof.
  intros Hd. unfold skip_dollar_quoted. destruct digits as [|b digits]; [done|]. simpl in *.
  assert (is_word b = true) as Hb by (unfold is_word; by rewrite Hd). rewrite Hb.
  destruct (take_word (digits ++ next)) as [w r]. simpl. rewrite Hd. by rewrite orb_true_r.
Qed.

(** A byte that opens nothing. *)
Lemma scan_plain d k b t : piece_ok (P_Byte b) t = true -> scan_from d k (b :: t) = scan_from d k t.
Proof.
  simpl. rewrite !andb_true_iff, !negb_true_iff. intros [[Hb H1] H2]. apply bool_decide_eq_false in Hb.
  rewrite scan_cons, H1, H2. repeat (rewrite decide_False by (intros ->; apply Hb; set_solver)). done.
Qed.

Lemma digit_plain b t : in_range 48 57 b = true -> piece_ok (P_Byte b) t = true.
Proof.
  intros Hb. simpl. assert (forall c, byte_Z c < 48 -> b <> c) as Hne.
  { intros c Hc ->. unfold in_range in Hb. lia. }
  rewrite !andb_true_iff, !negb_true_iff, !andb_false_iff, !bool_decide_eq_false.
  repeat split; [|left; by apply Hne..]. rewrite !elem_of_cons, elem_of_nil. intros Hin.
  repeat (destruct Hin as [Hin|Hin]; [refine (Hne _ _ Hin); done|]). done.
Qed.

Lemma scan_digits d k digits t : forallb (in_range 48 57) digits = true -> scan_from d k (digits ++ t) = scan_from d k t.
Proof.
  induction digits as [|b digits IH]; simpl; [done|]. intros [Hb Hd]%andb_true_iff.
  rewrite scan_plain by by apply digit_plain. by apply IH.
Qed.

Lemma scan_piece d k p next : piece_ok p next = true -> scan_from d k (render_piece p ++ next) = scan_from d k next.
Proof.
  destruct p as [b|digits|q body|body|body|tag body]; intros Hok; [by apply scan_plain|..];
    simpl in Hok; rewrite ?andb_true_iff, ?negb_true_iff in Hok.
  - destruct Hok as [Hd Hall]. simpl. rewrite scan_cons. simpl.
    rewrite skip_dollar_digits by done. by apply scan_digits.
  - destruct Hok as [Hq Hn]. apply bool_decide_eq_true in Hq. cbn [render_piece app]. rewrite <- app_assoc, scan_cons.
    rewrite !elem_of_cons, elem_of_nil in Hq. destruct Hq as [->|[->|[]]]; simpl; by rewrite skip_quoted_body.
  - apply bool_decide_eq_false in Hok. cbn [render_piece app]. rewrite <- app_assoc, scan_cons. simpl. by rewrite skip_line_body.
  - apply bool_decide_eq_true in Hok. cbn [render_piece app]. rewrite <- app_assoc, scan_cons.
    cbn [starts tail]. simpl. exact (f_equal (scan_from d k) (skip_past_body [x2a; x2f] body next Hok)).
  - destruct Hok as [[Hw Hd] Hf]. apply bool_decide_eq_true in Hf. cbn [render_piece].
    rewrite <- (skip_dollar_body tag body next) at 2 by done. cbn [app]. rewrite scan_cons. simpl.
    rewrite <- !app_assoc. simpl. rewrite <- !app_assoc. simpl. rewrite <- !app_assoc. done.
Qed.

(** ** Depth of a flat list *)

(** The running depth, and the largest one. *)
Fixpoint tok_depth (d k : nat) (l : list tok) : nat * nat :=
  match l with
  | [] => (d, k)
  | T_Open :: l' => tok_depth (S d) (Nat.max k (S d)) l'
  | T_Close :: l' => tok_depth (Nat.pred d) k l'
  | T_Piece _ :: l' => tok_depth d k l'
  end.

Lemma scan_toks l : forall d k, toks_ok l = true -> scan_from d k (render l) = (tok_depth d k l).2.
Proof.
  induction l as [|[| |p] l IH]; intros d k Hok; simpl in *; [done|..].
  - unfold render. simpl. rewrite scan_cons. simpl. by apply IH.
  - unfold render. simpl. rewrite scan_cons. simpl. by apply IH.
  - apply andb_true_iff in Hok as [Hp Hok]. unfold render. simpl. rewrite scan_piece by done. by apply IH.
Qed.

Lemma tok_depth_app l1 l2 d k : tok_depth d k (l1 ++ l2) = tok_depth (tok_depth d k l1).1 (tok_depth d k l1).2 l2.
Proof. revert d k. induction l1 as [|[| |p] l1 IH]; intros d k; simpl; auto. Qed.

(** A group leaves the depth where it was and reaches its height above it. *)
Lemma items_depth l :
  Forall (fun i => forall d k, (d <= k)%nat -> tok_depth d k (item_toks i) = (d, Nat.max k (d + item_height i))) l ->
  forall d k, (d <= k)%nat -> tok_depth d k (toks l) = (d, Nat.max k (d + height l)).
Proof.
  induction 1 as [|i l Hi _ IH]; intros d k Hk; simpl; [f_equal; lia|].
  unfold toks in *. simpl. rewrite tok_depth_app, Hi by done. simpl. rewrite IH by lia. unfold height. simpl. f_equal. lia.
Qed.

Fixpoint item_depth (i : item) : forall d k, (d <= k)%nat -> tok_depth d k (item_toks i) = (d, Nat.max k (d + item_height i)).
Proof.
  destruct i as [p|inner]; intros d k Hk; simpl; [f_equal; lia|].
  rewrite tok_depth_app. change (concat (map item_toks inner)) with (toks inner). rewrite items_depth.
  - simpl. unfold height. f_equal. lia.
  - clear d k Hk. induction inner as [|i inner IH]; constructor; [exact (item_depth i) | exact IH].
  - lia.
Qed.

Lemma forest_depth l d k : (d <= k)%nat -> tok_depth d k (toks l) = (d, Nat.max k (d + height l)).
Proof. apply items_depth, Forall_forall. intros i _. apply item_depth. Qed.

(** C24: The bound on nesting counts exactly: for a text written from balanced groups, quoted names
    and strings, comments, dollar-quoted strings and parameters, the scan that runs before the
    parser accepts it if and only if its groups nest no deeper than the limit, whatever parentheses
    the quoted parts and comments contain. *)
Theorem nesting_exact (l : list item) (limits : QueryLimits) :
  toks_ok (toks l) = true ->
  enforce_nesting_depth (render (toks l)) limits =
  if (height l <=? max_nesting_depth limits)%nat then Ok tt else Err (QueryTooDeep (height l) (max_nesting_depth limits)).
Proof.
  intros Hok. unfold enforce_nesting_depth, max_paren_depth.
  change (paren_loop (length (render (toks l))) 0 0 (render (toks l))) with (scan_from 0 0 (render (toks l))).
  rewrite scan_toks, forest_depth by done. simpl. destruct (Nat.ltb_spec (max_nesting_depth limits) (height l));
    destruct (Nat.leb_spec (height l) (max_nesting_depth limits)); done || lia.
Qed.

(** A comment, a literal full of brackets, a dollar-quoted one and a parameter, in two groups. *)
Definition sample_forest : list item :=
  [Group [Piece (P_Line (lit "((((")); Group [Piece (P_Quoted x27 (lit "it's ((")); Piece (P_Byte x2c); Piece (P_Param (lit "12"))]];
   Piece (P_Byte x2d); Piece (P_Dollar (lit "q") (lit "$((")); Piece (P_Block (lit "* ( /")); Piece (P_Quoted x22 (lit "we(ird"))].

Lemma nesting_exact_witness : enforce_nesting_depth (render (toks sample_forest)) QueryLimits_DEFAULT = Ok tt.
Proof. rewrite nesting_exact; [reflexivity | vm_compute; reflexivity]. Defined.

Example nesting_refused :
  enforce_nesting_depth (lit "SELECT id FROM ((((x))))") {| max_input_bytes := 64; max_mir_nodes := 8; max_nesting_depth := 3 |} =
  Err (QueryTooDeep 4 3).
Proof. reflexivity. Qed.

(** The bounds that only compare. *)
Lemma input_size_ok sql limits : enforce_input_size sql limits = Ok tt <-> (length sql <= max_input_bytes limits)%nat.
Proof. unfold enforce_input_size. destruct (Nat.ltb_spec (max_input_bytes limits) (length sql)); split; done || lia. Qed.

Lemma graph_size_ok nodes limits : enforce_graph_size nodes limits = Ok tt <-> (nodes <= max_mir_nodes limits)%nat.
Proof. unfold enforce_graph_size. destruct (Nat.ltb_spec (max_mir_nodes limits) nodes); split; done || lia. Qed.
