(* ===== verification/Floats.v ===== *)
(** * Floats: IEEE 754 values behind their bit patterns

    [Datum::F32] and [Datum::F64] hold bit patterns; the evaluator decodes them
    ([from_bits]), computes, and encodes the result ([to_bits]). Values are the
    [spec_float]s of the Standard Library, whose operations round to nearest even
    as the hardware does. A NaN result has the canonical quiet pattern; Rust leaves
    the payload of a computed NaN open. *)

From Stdlib Require Export Floats.SpecFloat.
From S2P Require Import Prelude.

Section Format.
(** Widths of the mantissa and exponent fields. *)
Context (mw ew : Z).

Definition fmt_prec : Z := mw + 1.
Definition fmt_emax : Z := 2 ^ (ew - 1).
Definition fmt_emin : Z := 3 - fmt_emax - fmt_prec.
(** The pattern of an infinity, without its sign. *)
Definition inf_mag : Z := (2 ^ ew - 1) * 2 ^ mw.

Definition sign_bit (bits : Z) : bool := Z.testbit bits (mw + ew).
Definition magnitude (bits : Z) : Z := bits mod 2 ^ (mw + ew).

Definition mag_float (s : bool) (mag : Z) : spec_float :=
  let e := mag / 2 ^ mw in
  let m := mag mod 2 ^ mw in
  if inf_mag <? mag then S754_nan
  else if mag =? inf_mag then S754_infinity s
  else if e =? 0 then match m with Zpos p => S754_finite s p fmt_emin | _ => S754_zero s end
  else match m + 2 ^ mw with Zpos p => S754_finite s p (e + fmt_emin - 1) | _ => S754_zero s end.

Definition float_of_bits (bits : Z) : spec_float := mag_float (sign_bit bits) (magnitude bits).

Definition float_mag (f : spec_float) : Z :=
  match f with
  | S754_zero _ => 0
  | S754_infinity _ => inf_mag
  | S754_nan => inf_mag + 2 ^ (mw - 1)
  | S754_finite _ m e => if Zpos m <? 2 ^ mw then Zpos m else (e - fmt_emin + 1) * 2 ^ mw + (Zpos m - 2 ^ mw)
  end.
Definition float_sign (f : spec_float) : bool :=
  match f with S754_zero s | S754_infinity s | S754_finite s _ _ => s | S754_nan => false end.
Definition float_to_bits (f : spec_float) : Z :=
  (if float_sign f then 2 ^ (mw + ew) else 0) + float_mag f mod 2 ^ (mw + ew).

(** [-x] flips the sign bit, also of a NaN. *)
Definition neg_bits (bits : Z) : Z := Z.lxor bits (2 ^ (mw + ew)).

Definition is_nan_bits (bits : Z) : bool := inf_mag <? magnitude bits.

(** Conversions from integers and from another format. *)
Definition float_of_Z (z : Z) : spec_float := binary_normalize fmt_prec fmt_emax z 0 false.
Definition float_convert (f : spec_float) : spec_float :=
  match f with
  | S754_finite s m e => binary_normalize fmt_prec fmt_emax (if s then Zneg m else Zpos m) e s
  | _ => f
  end.

(** [%]: the exact remainder, with the sign of the dividend. *)
Definition SFrem (x y : spec_float) : spec_float :=
  match x, y with
  | S754_nan, _ | _, S754_nan | S754_infinity _, _ | _, S754_zero _ => S754_nan
  | _, S754_infinity _ | S754_zero _, _ => x
  | S754_finite s m1 e1, S754_finite _ m2 e2 =>
      let e := Z.min e1 e2 in
      let r := Z.rem (Zpos m1 * 2 ^ (e1 - e)) (Zpos m2 * 2 ^ (e2 - e)) in
      binary_normalize fmt_prec fmt_emax (if s then - r else r) e s
  end.
End Format.

(** [x.round() as i64]: half away from zero, then clamped; NaN is zero. *)
Definition round_to_i64 (f : spec_float) : Z :=
  let clamp z := Z.max I64_MIN (Z.min I64_MAX z) in
  match f with
  | S754_nan | S754_zero _ => 0
  | S754_infinity s => if s then I64_MIN else I64_MAX
  | S754_finite s m e =>
      let mag := if 0 <=? e then Zpos m * 2 ^ e else (Zpos m + 2 ^ (- e - 1)) / 2 ^ (- e) in
      clamp (if s then - mag else mag)
  end.

Abbreviation f64_of_bits := (float_of_bits 52 11).
Abbreviation f64_to_bits := (float_to_bits 52 11).
Abbreviation f32_of_bits := (float_of_bits 23 8).
Abbreviation f32_to_bits := (float_to_bits 23 8).
Abbreviation f64_of_Z := (float_of_Z 52 11).
Abbreviation f64_of_f32 := (float_convert 52 11).
Definition f64_add := SFadd 53 1024.
Definition f64_sub := SFsub 53 1024.
Definition f64_mul := SFmul 53 1024.
Definition f64_div := SFdiv 53 1024.
Abbreviation f64_rem := (SFrem 52 11).

(** ** Facts *)

Section Facts.
Context (mw ew : Z).
Hypothesis Hmw : 0 < mw.
Hypothesis Hew : 1 < ew.

#[local] Abbreviation INF := (inf_mag mw ew).

Lemma mag_range bits : 0 <= magnitude mw ew bits < 2 ^ (mw + ew).
Proof. apply Z.mod_pos_bound, Z.pow_pos_nonneg; lia. Qed.

Lemma pow_split : 2 ^ (mw + ew) = 2 ^ mw * 2 ^ ew.
Proof. apply Z.pow_add_r; lia. Qed.

Lemma float_to_bits_range f : 0 <= float_to_bits mw ew f < 2 ^ (mw + ew + 1).
Proof.
  unfold float_to_bits. assert (0 < 2 ^ (mw + ew)) by (apply Z.pow_pos_nonneg; lia).
  pose proof (Z.mod_pos_bound (float_mag mw ew f) (2 ^ (mw + ew)) ltac:(lia)).
  rewrite (Z.pow_add_r 2 (mw + ew) 1) by lia. change (2 ^ 1) with 2. destruct (float_sign f); lia.
Qed.

(** A pattern below the infinities, by its fields. *)
Lemma mag_fields mag : 0 <= mag < INF ->
  let e := mag / 2 ^ mw in let m := mag mod 2 ^ mw in
  mag = e * 2 ^ mw + m /\ 0 <= m < 2 ^ mw /\ 0 <= e.
Proof.
  intros Hm. assert (0 < 2 ^ mw) by (apply Z.pow_pos_nonneg; lia). cbn zeta.
  pose proof (Z.div_mod mag (2 ^ mw) ltac:(lia)). pose proof (Z.mod_pos_bound mag (2 ^ mw) ltac:(lia)).
  pose proof (Z.div_pos mag (2 ^ mw) ltac:(lia) ltac:(lia)). lia.
Qed.

Lemma mag_float_mag s mag : 0 <= mag <= INF -> float_mag mw ew (mag_float mw ew s mag) = mag.
Proof.
  intros Hr. unfold mag_float. destruct (Z.ltb_spec INF mag); [lia|].
  destruct (Z.eqb_spec mag INF) as [->|]; [done|].
  destruct (mag_fields mag ltac:(lia)) as (E & Hm & He). assert (0 < 2 ^ mw) by lia.
  destruct (Z.eqb_spec (mag / 2 ^ mw) 0) as [E0|E0].
  - rewrite E0 in E. destruct (mag mod 2 ^ mw) eqn:Em; simpl; try lia.
    destruct (Z.ltb_spec (Zpos p) (2 ^ mw)); lia.
  - destruct (mag mod 2 ^ mw + 2 ^ mw) eqn:Em; simpl; try lia.
    destruct (Z.ltb_spec (Zpos p) (2 ^ mw)); [lia|]. rewrite E at 2. rewrite <- Em. ring.
Qed.

(** Decoding then encoding a pattern that is not a NaN gives it back. *)
Lemma float_bits_roundtrip bits :
  0 <= bits < 2 ^ (mw + ew + 1) -> is_nan_bits mw ew bits = false ->
  float_to_bits mw ew (float_of_bits mw ew bits) = bits.
Proof.
  intros Hb Hn. unfold is_nan_bits in Hn. apply Z.ltb_ge in Hn. pose proof (mag_range bits) as Hm.
  unfold float_to_bits, float_of_bits. rewrite mag_float_mag by lia. rewrite Z.mod_small by lia.
  assert (float_sign (mag_float mw ew (sign_bit mw ew bits) (magnitude mw ew bits)) = sign_bit mw ew bits) as ->.
  { unfold mag_float. destruct (Z.ltb_spec INF (magnitude mw ew bits)); [lia|].
    destruct (_ =? _); [done|]. destruct (_ =? _); [by destruct (_ mod 2 ^ mw) | by destruct (_ + 2 ^ mw)]. }
  unfold sign_bit, magnitude. rewrite Z.testbit_odd, Z.shiftr_div_pow2 by lia.
  pose proof (Z.div_mod bits (2 ^ (mw + ew)) ltac:(apply Z.pow_nonzero; lia)) as E.
  rewrite (Z.pow_add_r 2 (mw + ew) 1) in Hb by lia. change (2 ^ 1) with 2 in Hb.
  assert (0 <= bits / 2 ^ (mw + ew) < 2) as Hq.
  { split; [apply Z.div_pos; lia | apply Z.div_lt_upper_bound; lia]. }
  assert (bits / 2 ^ (mw + ew) = 0 \/ bits / 2 ^ (mw + ew) = 1) as [Q|Q] by lia; rewrite Q in *; simpl; lia.
Qed.

(** The total order of the patterns: magnitudes, mirrored below zero. *)
Definition bits_key (bits : Z) : Z :=
  if sign_bit mw ew bits then - magnitude mw ew bits else magnitude mw ew bits.

(** The value of a magnitude, by cases. *)
Inductive mag_view (s : bool) (mag : Z) : spec_float -> Prop :=
| view_zero : mag = 0 -> mag_view s mag (S754_zero s)
| view_inf : mag = INF -> mag_view s mag (S754_infinity s)
| view_sub p : mag = Zpos p -> Zpos p < 2 ^ mw -> mag_view s mag (S754_finite s p (fmt_emin mw ew))
| view_normal p e : 0 < e -> 2 ^ mw <= Zpos p < 2 * 2 ^ mw -> mag = e * 2 ^ mw + (Zpos p - 2 ^ mw) -> mag < INF ->
    mag_view s mag (S754_finite s p (e + fmt_emin mw ew - 1)).

Lemma mag_float_view s mag : 0 <= mag <= INF -> mag_view s mag (mag_float mw ew s mag).
Proof.
  intros Hr. unfold mag_float. destruct (Z.ltb_spec INF mag); [lia|].
  destruct (Z.eqb_spec mag INF); [by constructor|].
  destruct (mag_fields mag ltac:(lia)) as (E & Hm & He).
  destruct (Z.eqb_spec (mag / 2 ^ mw) 0) as [E0|E0].
  - rewrite E0 in E. destruct (mag mod 2 ^ mw) eqn:Em; [constructor 1 | constructor 3 | ]; lia.
  - destruct (mag mod 2 ^ mw + 2 ^ mw) eqn:Em; try lia. apply view_normal; lia.
Qed.

Lemma INF_large : 2 ^ mw < INF.
Proof.
  unfold inf_mag. assert (0 < 2 ^ mw) by (apply Z.pow_pos_nonneg; lia).
  assert (2 ^ 2 <= 2 ^ ew) by (apply Z.pow_le_mono_r; lia). nia.
Qed.

(** On patterns that are no NaN, the float comparison is the order of the keys. *)
Lemma float_compare_keys a b :
  is_nan_bits mw ew a = false -> is_nan_bits mw ew b = false ->
  SFcompare (float_of_bits mw ew a) (float_of_bits mw ew b) = Some (bits_key a ?= bits_key b).
Proof.
  unfold is_nan_bits, float_of_bits, bits_key. intros Ha%Z.ltb_ge Hb%Z.ltb_ge.
  pose proof (mag_range a). pose proof (mag_range b). pose proof INF_large.
  generalize (sign_bit mw ew a) as s, (sign_bit mw ew b) as t.
  set (x := magnitude mw ew a) in *. set (y := magnitude mw ew b) in *. intros s t.
  assert (0 < 2 ^ mw) by (apply Z.pow_pos_nonneg; lia).
  destruct (mag_float_view s x ltac:(lia)) as [?|?|p ? ?|p e ? ? ? ?], (mag_float_view t y ltac:(lia)) as [?|?|q ? ?|q f ? ? ? ?];
    cbn [SFcompare]; f_equal; destruct s, t; symmetry;
    rewrite ?Z.compare_opp, ?Z.compare_eq_iff, ?Z.compare_lt_iff, ?Z.compare_gt_iff; try lia.
  all: change (PosDef.Pos.compare_cont Eq p q) with (Zpos p ?= Zpos q); rewrite <- ?Z.compare_antisym.
  all: repeat match goal with |- context [?u ?= ?v] => destruct (Z.compare_spec u v) end; try done; exfalso; try lia.
  all: try subst; try nia.
Qed.
End Facts.
