(* ===== verification/Datums.v ===== *)
(** * Datums: the derived order of column values, and the characters of a string

    [Datum] derives [Ord]: variants in declaration order, then fields. Sorted maps
    keyed by datums and the tie-breaks of sorting use it. Characters are kept as
    their UTF-8 byte groups, which is what pushing one onto a [String] appends. *)

From S2P Require Import Prelude BTree Text Values.

(** ** Induction over nested arrays *)

Section DatumInd.
Context (P : Datum -> Prop).
Hypothesis Harray : forall items, Forall P items -> P (D_Array items).
Hypothesis Hleaf : forall d, match d with D_Array _ => False | _ => True end -> P d.

Fixpoint datum_ind' (d : Datum) : P d :=
  match d with
  | D_Array items =>
      Harray items ((fix go (l : list Datum) : Forall P l :=
        match l with [] => Forall_nil_2 P | x :: l' => Forall_cons_2 P x l' (datum_ind' x) (go l') end) items)
  | d => Hleaf d ltac:(exact I)
  end.
End DatumInd.

(** ** [impl Ord for Datum] *)

Definition variant_index (d : Datum) : Z :=
  match d with
  | D_Bool _ => 0 | D_I16 _ => 1 | D_I32 _ => 2 | D_I64 _ => 3 | D_F32 _ => 4 | D_F64 _ => 5
  | D_Numeric _ => 6 | D_Text _ => 7 | D_Bytea _ => 8 | D_Date _ => 9 | D_Time _ => 10
  | D_Timestamp _ => 11 | D_TimestampTz _ => 12 | D_Interval _ => 13 | D_Uuid _ => 14 | D_Json _ => 15
  | D_Jsonb _ => 16 | D_Array _ => 17 | D_Null => 18 | D_Unchanged => 19
  end.

(** The fields of a scalar, in order; byte strings compare byte by byte. *)
Definition datum_fields (d : Datum) : list Z :=
  match d with
  | D_Bool b => [Z.b2z b]
  | D_I16 z | D_I32 z | D_I64 z | D_F32 z | D_F64 z => [z]
  | D_Numeric n => map byte_Z (bd_text n)
  | D_Text t | D_Bytea t | D_Json t | D_Jsonb t => map byte_Z t
  | D_Date d => [days_since_unix_epoch d]
  | D_Time t => [micros_since_midnight t]
  | D_Timestamp t => [ts_micros_since_unix_epoch t]
  | D_TimestampTz t => [tstz_micros_since_unix_epoch t]
  | D_Interval i => [months i; days i; micros i]
  | D_Uuid u => map byte_Z (as_bytes u)
  | D_Array _ | D_Null | D_Unchanged => []
  end.

Fixpoint datum_cmp (a b : Datum) : comparison :=
  match a, b with
  | D_Array x, D_Array y =>
      (fix go (x y : list Datum) : comparison :=
         match x, y with
         | [], [] => Eq
         | [], _ :: _ => Lt
         | _ :: _, [] => Gt
         | u :: x', v :: y' => match datum_cmp u v with Eq => go x' y' | c => c end
         end) x y
  | _, _ => match variant_index a ?= variant_index b with Eq => cmp (datum_fields a) (datum_fields b) | c => c end
  end.

(** The inner loop, by name. *)
Fixpoint datums_cmp (x y : list Datum) : comparison :=
  match x, y with
  | [], [] => Eq
  | [], _ :: _ => Lt
  | _ :: _, [] => Gt
  | u :: x', v :: y' => match datum_cmp u v with Eq => datums_cmp x' y' | c => c end
  end.
Lemma datum_cmp_array x y : datum_cmp (D_Array x) (D_Array y) = datums_cmp x y.
Proof. cbn. revert y. induction x as [|u x IH]; intros [|v y]; [done..|]. simpl. by rewrite IH. Qed.

Lemma map_byte_Z_inj (s t : list byte) : map byte_Z s = map byte_Z t -> s = t.
Proof. apply list_fmap_eq_inj. exact byte_Z_inj. Qed.

Lemma datum_fields_inj a b :
  variant_index a = variant_index b -> match a with D_Array _ => False | _ => True end ->
  datum_fields a = datum_fields b -> a = b.
Proof.
  destruct a as [x|x|x|x|x|x|[x]|x|x|[x]|[x]|[x]|[x]|[x1 x2 x3]|[x]|x|x|x| |],
    b as [y|y|y|y|y|y|[y]|y|y|[y]|[y]|[y]|[y]|[y1 y2 y3]|[y]|y|y|y| |]; simpl; try done; intros _ _ E;
    try (apply map_byte_Z_inj in E as ->; done); try (by injection E as ->); try (by injection E as -> -> ->).
  by destruct x, y.
Qed.

(** Off the array case the comparison is that of tags, then fields. *)
Lemma datum_cmp_leaf a b :
  match a with D_Array _ => False | _ => True end ->
  datum_cmp a b = match variant_index a ?= variant_index b with Eq => cmp (datum_fields a) (datum_fields b) | c => c end.
Proof. by destruct a, b. Qed.

Lemma datums_cmp_eq x :
  Forall (fun a => forall b, datum_cmp a b = Eq <-> a = b) x -> forall y, datums_cmp x y = Eq <-> x = y.
Proof.
  induction 1 as [|u x Hu _ IH]; intros [|v y]; simpl; [done..|]. specialize (Hu v).
  destruct (datum_cmp u v) eqn:E.
  - rewrite IH. destruct Hu as [->%(fun H => H eq_refl) _]. naive_solver.
  - split; [done|]. intros [= -> ->]. by destruct Hu as [_ ?%(fun H => H eq_refl)].
  - split; [done|]. intros [= -> ->]. by destruct Hu as [_ ?%(fun H => H eq_refl)].
Qed.

Lemma datum_cmp_eq a b : datum_cmp a b = Eq <-> a = b.
Proof.
  revert b. induction a as [x IH|a Ha] using datum_ind'; intros b.
  - destruct b; try (split; [by cbn | done]). rewrite datum_cmp_array, datums_cmp_eq by done. naive_solver.
  - rewrite datum_cmp_leaf by done. split.
    + destruct (Z.compare_spec (variant_index a) (variant_index b)) as [E| |]; [|done..]. rewrite cmp_eq.
      by apply datum_fields_inj.
    + intros <-. rewrite Z.compare_refl. by apply cmp_eq.
Qed.

Lemma datum_cmp_antisym a b : datum_cmp b a = CompOpp (datum_cmp a b).
Proof.
  revert b. induction a as [x IH|a Ha] using datum_ind'; intros b.
  - destruct b as [| | | | | | | | | | | | | | | | |y| |]; try done. rewrite !datum_cmp_array.
    revert y. induction IH as [|u x Hu _ IHx]; intros [|v y]; simpl; [done..|]. rewrite Hu, IHx. by destruct (datum_cmp u v).
  - rewrite (datum_cmp_leaf a b) by done. destruct b as [| | | | | | | | | | | | | | | | |y| |];
      try (rewrite datum_cmp_leaf by done; rewrite (Z.compare_antisym (variant_index a)), (cmp_antisym (datum_fields a));
           by destruct (variant_index a ?= _)).
    destruct a; done.
Qed.


Lemma datum_cmp_trans a b c : datum_cmp a b = Lt -> datum_cmp b c = Lt -> datum_cmp a c = Lt.
Proof.
  revert b c. induction a as [x IH|a Ha] using datum_ind'; intros b c.
  - destruct b as [| | | | | | | | | | | | | | | | |y| |]; try done.
    + destruct c as [| | | | | | | | | | | | | | | | |z| |]; try done. rewrite !datum_cmp_array.
      revert y z. induction IH as [|u x Hu _ IHx]; intros [|v y] [|w z]; simpl; try done.
      destruct (datum_cmp u v) eqn:E1; [|intros _ |done].
      * apply datum_cmp_eq in E1 as ->. destruct (datum_cmp v w); eauto.
      * destruct (datum_cmp v w) eqn:E2; [|intros _ |done].
        -- apply datum_cmp_eq in E2 as ->. by rewrite E1.
        -- by rewrite (Hu v w).
    + intros _. destruct c; done.
    + intros _. destruct c; done.
  - rewrite (datum_cmp_leaf a b), (datum_cmp_leaf a c) by done.
    destruct (Z.compare_spec (variant_index a) (variant_index b)) as [E|E|E]; [|intros _ |done].
    + rewrite datum_cmp_leaf by (by destruct a, b). rewrite E.
      destruct (variant_index b ?= variant_index c); [apply cmp_trans | done..].
    + intros Hbc. assert (variant_index b <= variant_index c) as Hle.
      { destruct b; destruct c; cbn in *; try lia; done. }
      destruct (Z.compare_spec (variant_index a) (variant_index c)); [lia | done | lia].
Qed.

#[export] Instance Datum_Ord : Ord Datum :=
  {| cmp := datum_cmp; cmp_eq := datum_cmp_eq; cmp_antisym := datum_cmp_antisym; cmp_trans := datum_cmp_trans |}.

#[export] Instance Datum_eq_dec : EqDecision Datum := ord_eq_dec.

(** ** [str::chars] *)

(** Bytes of the character a leading byte starts. *)
Definition char_len (b : byte) : nat :=
  if byte_Z b <? 0x80 then 1%nat else if byte_Z b <? 0xE0 then 2%nat else if byte_Z b <? 0xF0 then 3%nat else 4%nat.

(** [skip] bytes still belong to the character [cur]. *)
Fixpoint chars_aux (cur : text) (skip : nat) (t : text) : list text :=
  match t with
  | [] => match cur with [] => [] | _ :: _ => [cur] end
  | b :: t' =>
      match skip with
      | S n => match n with O => (cur ++ [b]) :: chars_aux [] 0 t' | S _ => chars_aux (cur ++ [b]) n t' end
      | O => match char_len b with S (S n) => chars_aux [b] (S n) t' | _ => [b] :: chars_aux [] 0 t' end
      end
  end.
Definition chars (t : text) : list text := chars_aux [] 0 t.

Lemma concat_chars_aux cur skip t :
  (skip = O -> cur = []) -> concat (chars_aux cur skip t) = cur ++ t.
Proof.
  revert cur skip. induction t as [|b t IH]; intros cur skip Hc; simpl.
  - destruct cur; simpl; by rewrite ?app_nil_r.
  - destruct skip as [|[|n]].
    + rewrite Hc by done. destruct (char_len b) as [|[|n]]; simpl; by rewrite IH.
    + simpl. rewrite IH by done. by rewrite <- app_assoc.
    + rewrite IH by done. by rewrite <- app_assoc.
Qed.

Lemma concat_chars t : concat (chars t) = t.
Proof. by apply concat_chars_aux. Qed.

Lemma chars_ascii t : is_ascii t = true -> chars t = map (fun b => [b]) t.
Proof.
  unfold chars. induction t as [|b t IH]; [done|]. cbn [is_ascii forallb]. intros [Hb Ht]%andb_true_iff.
  cbn [chars_aux map]. unfold char_len. unfold in_range in Hb. apply andb_true_iff in Hb as [_ Hb%Z.leb_le].
  destruct (Z.ltb_spec (byte_Z b) 0x80); [|lia]. by rewrite IH.
Qed.
