(* ===== verification/Exprs.v ===== *)
(** * Exprs: expressions, schemas and operations on datums
    ([crates/palimpsest-dataflow/src/palimpsest/eval.rs])

    Expressions of predicates, projections, aggregate arguments and sort keys are
    parsed by [sqlparser] and compiled into closures over rows. The syntax tree has
    one constructor per shape the evaluator matches and [E_Other] for the rest; the
    parser, JSON documents, Unicode case mapping and the decimal rendering of floats
    are the class [EvalRuntime].

    A closure returns a datum or panics: a cast of text to a date reaches a decoder
    that panics on an out-of-range month. [run] is the outcome of a closure. *)

From S2P Require Import Prelude BTree Text Values UserContext Literals Floats Datums.

(** ** Syntax trees ([sqlparser::ast]) *)

Inductive BinaryOperator :=
| BO_Eq | BO_NotEq | BO_Lt | BO_LtEq | BO_Gt | BO_GtEq | BO_And | BO_Or
| BO_Plus | BO_Minus | BO_Multiply | BO_Divide | BO_Modulo | BO_StringConcat | BO_Arrow | BO_LongArrow | BO_Other.
Inductive UnaryOperator := UO_Not | UO_Minus | UO_Plus | UO_Other.
Inductive CastKind := CK_Cast | CK_DoubleColon | CK_Other.
Inductive SqlValue :=
| SV_Boolean (b : bool) | SV_Number (n : text) | SV_SingleQuotedString (s : text) | SV_DoubleQuotedString (s : text)
| SV_EscapedStringLiteral (s : text) | SV_UnicodeStringLiteral (s : text) | SV_NationalStringLiteral (s : text)
| SV_Null | SV_Other.
Inductive DataType :=
| DT_Text | DT_String | DT_Varchar | DT_CharVarying | DT_CharacterVarying | DT_Char | DT_Character
| DT_TinyInt | DT_SmallInt | DT_Int2 | DT_Int | DT_Int4 | DT_Integer | DT_BigInt | DT_Int8
| DT_Real | DT_Float4 | DT_Float8 | DT_Float | DT_Double | DT_DoublePrecision
| DT_Numeric | DT_Decimal | DT_Timestamp | DT_Date
| DT_Bool | DT_Boolean | DT_Uuid | DT_JSON | DT_JSONB | DT_Other.

#[global] Instance BinaryOperator_eq_dec : EqDecision BinaryOperator.
Proof. solve_decision. Defined.

Inductive FunctionArg (expr : Type) := Arg_Unnamed (e : expr) | Arg_Other.
Inductive FunctionArguments (expr : Type) := FA_None | FA_Subquery | FA_List (args : list (FunctionArg expr)).
Arguments Arg_Unnamed {expr} e.
Arguments Arg_Other {expr}.
Arguments FA_None {expr}.
Arguments FA_Subquery {expr}.
Arguments FA_List {expr} args.

Inductive Expr :=
| E_Nested (e : Expr)
| E_Identifier (name : text)
| E_CompoundIdentifier (parts : list text)
| E_Value (v : SqlValue)
| E_BinaryOp (left : Expr) (op : BinaryOperator) (right : Expr)
| E_UnaryOp (op : UnaryOperator) (e : Expr)
| E_IsNull (e : Expr)
| E_IsNotNull (e : Expr)
| E_IsTrue (e : Expr)
| E_IsFalse (e : Expr)
| E_AnyOp (left : Expr) (op : BinaryOperator) (right : Expr)
| E_Cast (kind : CastKind) (e : Expr) (data_type : DataType)
| E_InList (e : Expr) (elements : list Expr) (negated : bool)
| E_Between (e : Expr) (negated : bool) (low high : Expr)
| E_Like (negated any : bool) (e pattern : Expr) (escape_char : option text)
| E_ILike (negated any : bool) (e pattern : Expr) (escape_char : option text)
| E_IsDistinctFrom (left right : Expr)
| E_IsNotDistinctFrom (left right : Expr)
| E_Case (operand : option Expr) (conditions results : list Expr) (else_result : option Expr)
| E_Array (elements : list Expr)
| E_Function (name : text) (args : FunctionArguments Expr)
| E_Other.

(** ** JSON documents ([serde_json::Value]) *)

Inductive JsonValue (number : Type) :=
| JV_Null
| JV_Bool (b : bool)
| JV_Number (n : number)
| JV_String (s : text)
| JV_Array (items : list (JsonValue number))
| JV_Object (entries : list (text * JsonValue number)).
Arguments JV_Null {number}.
Arguments JV_Bool {number} b.
Arguments JV_Number {number} n.
Arguments JV_String {number} s.
Arguments JV_Array {number} items.
Arguments JV_Object {number} entries.

Class EvalRuntime : Type := {
  (** [Parser::new(&PostgreSqlDialect).try_with_sql(sql)?.parse_expr()]. *)
  sql_parse_expr : text -> option Expr;
  (** [str::parse::<f64>().map(f64::to_bits)] and its [f32] counterpart. *)
  f64_parse : text -> option Z;
  f32_parse : text -> option Z;
  (** [to_string] of a float, by bit pattern. *)
  f64_text : Z -> text;
  f32_text : Z -> text;
  str_to_lowercase : text -> text;
  char_is_alphanumeric : text -> bool;
  json_number : Type;
  json_number_eqb : json_number -> json_number -> bool;
  (** [serde_json::from_slice]; objects are sorted maps. *)
  json_from_slice : list byte -> option (JsonValue json_number);
  (** [Value::to_string], and [serde_json::to_string] of a string. *)
  json_value_text : JsonValue json_number -> text;
  json_str_text : text -> text;
  f64_parse_range t bits : f64_parse t = Some bits -> 0 <= bits < 2 ^ 64;
  f32_parse_range t bits : f32_parse t = Some bits -> 0 <= bits < 2 ^ 32
}.

(** ** Schemas *)

Record ScalarSchema := {
  sc_columns : list (text * ColumnType);
  sc_index : btree text nat;
  sc_provenance : list (option text)
}.

Definition schema_default : ScalarSchema := {| sc_columns := []; sc_index := []; sc_provenance := [] |}.

Definition from_pairs (columns : list (text * ColumnType)) : ScalarSchema :=
  {| sc_columns := columns;
     sc_index := bt_from_list (imap (fun i c => (c.1, i)) columns);
     sc_provenance := [] |}.

Definition with_provenance (s : ScalarSchema) (provenance : list (option text)) : ScalarSchema :=
  {| sc_columns := sc_columns s; sc_index := sc_index s; sc_provenance := provenance |}.

(** [provenance.get(i).and_then(Option::as_deref) == Some(relation)]. *)
Definition attributed_to (provenance : list (option text)) (i : nat) (relation : text) : bool :=
  bool_decide (provenance !! i = Some (Some relation)).

(** The first column called [name] that [provenance] attributes to [relation]. *)
Definition position_attributed (columns : list (text * ColumnType)) (provenance : list (option text))
    (relation name : text) : option nat :=
  fst <$> list_find (fun '(i, c) => bool_decide (c.1 = name) && attributed_to provenance i relation = true)
    (imap pair columns).

Definition index_of_qualified (s : ScalarSchema) (relation name : text) : option nat :=
  position_attributed (sc_columns s) (sc_provenance s) relation name.
Definition index_of (s : ScalarSchema) (name : text) : option nat := bt_get name (sc_index s).
(** [self.columns[i]] is in range for an index of the map. *)
Definition schema_column_type (s : ScalarSchema) (name : text) : option ColumnType :=
  i ← bt_get name (sc_index s); snd <$> sc_columns s !! i.
Definition schema_len (s : ScalarSchema) : nat := length (sc_columns s).

Inductive EvalError :=
| EE_Parse (what : text)
| EE_Unsupported (what : string)
| EE_UnknownColumn (name : text).

(** ** Outcomes of closures *)

Definition run (A : Type) : Type := exec Empty_set A.
Definition ScalarFn : Type := Row -> run Datum.
Definition PredicateFn : Type := Row -> run bool.

Definition is_null (d : Datum) : bool := match d with D_Null => true | _ => false end.
Definition is_true (d : Datum) : bool := match d with D_Bool true => true | _ => false end.
Definition is_false (d : Datum) : bool := match d with D_Bool false => true | _ => false end.

(** [row.get(idx).cloned().unwrap_or(Datum::Null)]. *)
Definition row_get (row : Row) (idx : nat) : Datum := default D_Null (row !! idx).

(** A string constant of the source among alternatives. *)
Definition one_of (t : text) (alternatives : list string) : bool :=
  existsb (fun a => bool_decide (t = lit a)) alternatives.
Definition ascii_lower (t : text) : text := map to_ascii_lowercase t.
Definition eq_ignore_ascii_case (a b : text) : bool := bool_decide (ascii_lower a = ascii_lower b).

(** ** UUIDs ([Uuid::parse_text] of the WAL crate) *)

Definition hex_nibble (b : byte) : option Z :=
  if in_range 48 57 b then Some (byte_Z b - 48)
  else if in_range 97 102 b then Some (byte_Z b - 97 + 10)
  else if in_range 65 70 b then Some (byte_Z b - 65 + 10)
  else None.

(** The loop over the sixteen slots; what is left must be empty. *)
Fixpoint uuid_slots (n : nat) (nibbles : list byte) : option (list byte) :=
  match n with
  | O => match nibbles with [] => Some [] | _ :: _ => None end
  | S n' =>
      match nibbles with
      | h :: l :: rest =>
          hi ← hex_nibble h; lo ← hex_nibble l; out ← uuid_slots n' rest;
          Some (Z_byte (Z.lor (Z.shiftl hi 4) lo) :: out)
      | _ => None
      end
  end.

Definition uuid_parse_text (raw : text) : option Uuid :=
  let trimmed := trim raw in
  let trimmed := default trimmed (strip_braces trimmed) in
  let dash i := bool_decide (trimmed !! i = Some x2d) in
  if (if Nat.eqb (length trimmed) 36 then dash 8%nat && dash 13%nat && dash 18%nat && dash 23%nat
      else Nat.eqb (length trimmed) 32)
  then Build_Uuid <$> uuid_slots 16 (strip_dashes trimmed) else None.

Definition parse_uuid_text (raw : list byte) : option Uuid :=
  if utf8_valid raw then uuid_parse_text raw else None.

Section Evaluator.
Context `{EvalRuntime}.
Abbreviation Json := (JsonValue json_number).

(** ** JSON *)

Fixpoint json_value_eqb (a b : Json) : bool :=
  match a, b with
  | JV_Null, JV_Null => true
  | JV_Bool x, JV_Bool y => Bool.eqb x y
  | JV_Number x, JV_Number y => json_number_eqb x y
  | JV_String x, JV_String y => bool_decide (x = y)
  | JV_Array x, JV_Array y =>
      (fix go (x y : list Json) : bool :=
         match x, y with
         | [], [] => true
         | u :: x', v :: y' => json_value_eqb u v && go x' y'
         | _, _ => false
         end) x y
  | JV_Object x, JV_Object y =>
      (fix go (x y : list (text * Json)) : bool :=
         match x, y with
         | [], [] => true
         | (k, u) :: x', (l, v) :: y' => bool_decide (k = l) && json_value_eqb u v && go x' y'
         | _, _ => false
         end) x y
  | _, _ => false
  end.

Definition json_eq (a b : list byte) : bool :=
  match json_from_slice a, json_from_slice b with
  | Some x, Some y => json_value_eqb x y
  | _, _ => false
  end.

Definition json_index (array : list Json) (index : Z) : option Json :=
  let index := if index <? 0 then Z.of_nat (length array) + index else index in
  if index <? 0 then None else array !! Z.to_nat index.

(** [entries.sort_by(len, then bytes)], by insertion. *)
Definition key_before (a b : text) : bool :=
  (length a <? length b)%nat || (Nat.eqb (length a) (length b) && match cmp a b with Gt => false | _ => true end).
Fixpoint insert_entry {A} (e : text * A) (l : list (text * A)) : list (text * A) :=
  match l with
  | [] => [e]
  | e' :: l' => if key_before e.1 e'.1 then e :: l else e' :: insert_entry e l'
  end.

Fixpoint json_text (v : Json) : text :=
  match v with
  | JV_Array values => lit "[" ++ join (lit ", ") (map json_text values) ++ lit "]"
  | JV_Object values =>
      let entries := map (fun '(k, u) => (k, json_text u)) values in
      let entries := foldr insert_entry [] entries in
      lit "{" ++ join (lit ", ") (map (fun '(k, t) => json_str_text k ++ lit ": " ++ t) entries) ++ lit "}"
  | _ => json_value_text v
  end.

Definition json_select (value : Json) (key : Datum) : option Json :=
  match value, key with
  | JV_Object object, D_Text key => if utf8_valid key then (fun p => p.2.2) <$> list_find (fun e => e.1 = key) object else None
  | JV_Array array, (D_I64 index | D_I32 index | D_I16 index) => json_index array index
  | _, _ => None
  end.

Definition json_extract (document key : Datum) (as_text : bool) : Datum :=
  match document with
  | D_Jsonb bytes | D_Json bytes =>
      match json_from_slice bytes with
      | None => D_Null
      | Some value =>
          match json_select value key with
          | None => D_Null
          | Some selected =>
              if as_text then
                match selected with
                | JV_Null => D_Null
                | JV_String text => D_Text text
                | v => D_Text (json_text v)
                end
              else D_Jsonb (json_value_text selected)
          end
      end
  | _ => D_Null
  end.

(** ** Comparison *)

(** Integers of any width, widened. *)
Definition as_int (d : Datum) : option Z :=
  match d with D_I64 v | D_I32 v | D_I16 v => Some v | _ => None end.
Definition as_f64 (d : Datum) : option spec_float :=
  match d with
  | D_F64 bits => Some (f64_of_bits bits)
  | D_F32 bits => Some (f64_of_f32 (f32_of_bits bits))
  | D_I64 v | D_I32 v | D_I16 v => Some (f64_of_Z v)
  | _ => None
  end.

(** NULL on either side is not equal. *)
Definition datum_eq (a b : Datum) : bool :=
  match a, b with
  | D_Null, _ | _, D_Null => false
  | D_Bool x, D_Bool y => Bool.eqb x y
  | (D_I64 x | D_I32 x | D_I16 x), (D_I64 y | D_I32 y | D_I16 y) => x =? y
  | D_F64 x, D_F64 y => SFeqb (f64_of_bits x) (f64_of_bits y)
  | D_F32 x, D_F32 y => SFeqb (f32_of_bits x) (f32_of_bits y)
  | D_Text x, D_Text y => bool_decide (x = y)
  | D_Uuid x, D_Uuid y => bool_decide (as_bytes x = as_bytes y)
  | D_Uuid u, D_Text t | D_Text t, D_Uuid u =>
      match parse_uuid_text t with Some v => bool_decide (as_bytes v = as_bytes u) | None => false end
  | (D_Jsonb x | D_Json x), (D_Jsonb y | D_Json y | D_Text y) | D_Text x, (D_Jsonb y | D_Json y) => json_eq x y
  | _, _ => false
  end.

(** [partial_cmp(..).unwrap_or(Equal)]. *)
Definition float_ord (x y : spec_float) : comparison := default Eq (SFcompare x y).

(** The ordering behind a comparison, when there is one. *)
Definition datum_ordering (a b : Datum) : option comparison :=
  match a, b with
  | D_I64 x, D_I64 y | D_I32 x, D_I32 y | D_I16 x, D_I16 y | D_I64 x, D_I32 y | D_I32 x, D_I64 y => Some (x ?= y)
  | D_F64 x, D_F64 y => Some (float_ord (f64_of_bits x) (f64_of_bits y))
  | D_Text x, D_Text y => Some (cmp x y)
  | D_Uuid x, D_Uuid y => Some (cmp (as_bytes x) (as_bytes y))
  | D_Uuid u, D_Text t => (fun v => cmp (as_bytes u) (as_bytes v)) <$> parse_uuid_text t
  | D_Text t, D_Uuid u => (fun v => cmp (as_bytes v) (as_bytes u)) <$> parse_uuid_text t
  | _, _ => None
  end.

Definition datum_cmp_bool (a b : Datum) (pick : comparison -> bool) : Datum :=
  match datum_ordering a b with Some o => D_Bool (pick o) | None => D_Bool false end.

Definition is_lt (o : comparison) : bool := match o with Lt => true | _ => false end.
Definition is_le (o : comparison) : bool := match o with Gt => false | _ => true end.
Definition is_gt (o : comparison) : bool := match o with Gt => true | _ => false end.
Definition is_ge (o : comparison) : bool := match o with Lt => false | _ => true end.

Definition compare_datums (op : BinaryOperator) (a b : Datum) : option bool :=
  match op with
  | BO_Eq => Some (datum_eq a b)
  | BO_NotEq => Some (if is_null a || is_null b then false else negb (datum_eq a b))
  | BO_Lt => Some (is_true (datum_cmp_bool a b is_lt))
  | BO_LtEq => Some (is_true (datum_cmp_bool a b is_le))
  | BO_Gt => Some (is_true (datum_cmp_bool a b is_gt))
  | BO_GtEq => Some (is_true (datum_cmp_bool a b is_ge))
  | _ => None
  end.

Definition null_safe_eq (a b : Datum) : bool :=
  match is_null a, is_null b with
  | true, true => true
  | true, false | false, true => false
  | false, false => datum_eq a b
  end.

(** [ORDER BY]: NULL is the greatest value; numbers compare across widths. *)
Definition compare_datums_sort (a b : Datum) : comparison :=
  if is_null a then if is_null b then Eq else Gt
  else if is_null b then Lt
  else
    match as_int a, as_int b with
    | Some x, Some y => x ?= y
    | _, _ =>
        match as_f64 a, as_f64 b with
        | Some x, Some y => float_ord x y
        | _, _ =>
            match a, b with
            | D_Text x, D_Text y => cmp x y
            | D_Uuid x, D_Uuid y => cmp (as_bytes x) (as_bytes y)
            | _, _ => cmp a b
            end
        end
    end.

(** ** Arithmetic *)

Definition in_i64 (z : Z) : option Z := if (I64_MIN <=? z) && (z <=? I64_MAX) then Some z else None.

Definition int_arithmetic (op : BinaryOperator) (x y : Z) : option Z :=
  match op with
  | BO_Plus => in_i64 (x + y)
  | BO_Minus => in_i64 (x - y)
  | BO_Multiply => in_i64 (x * y)
  | BO_Divide => if y =? 0 then None else in_i64 (Z.quot x y)
  | BO_Modulo => if (y =? 0) || ((x =? I64_MIN) && (y =? -1)) then None else Some (Z.rem x y)
  | _ => None
  end.

Definition float_arithmetic (op : BinaryOperator) (x y : spec_float) : option spec_float :=
  let zero := SFeqb y (S754_zero false) in
  match op with
  | BO_Plus => Some (f64_add x y)
  | BO_Minus => Some (f64_sub x y)
  | BO_Multiply => Some (f64_mul x y)
  | BO_Divide => if zero then None else Some (f64_div x y)
  | BO_Modulo => if zero then None else Some (f64_rem x y)
  | _ => None
  end.

Definition arithmetic_datums (op : BinaryOperator) (a b : Datum) : Datum :=
  match as_int a, as_int b with
  | Some x, Some y => match int_arithmetic op x y with Some z => D_I64 z | None => D_Null end
  | _, _ =>
      match as_f64 a, as_f64 b with
      | Some x, Some y => match float_arithmetic op x y with Some f => D_F64 (f64_to_bits f) | None => D_Null end
      | _, _ => D_Null
      end
  end.

(** Release-build negation wraps; floats flip their sign bit. *)
Definition negate_datum (d : Datum) : Datum :=
  match d with
  | D_I64 v => D_I64 (sint 64 (- v))
  | D_I32 v => D_I32 (sint 32 (- v))
  | D_I16 v => D_I16 (sint 16 (- v))
  | D_F64 v => D_F64 (neg_bits 52 11 v)
  | D_F32 v => D_F32 (neg_bits 23 8 v)
  | other => other
  end.

(** ** Casts *)

Definition datum_display_text (d : Datum) : option text :=
  match d with
  | D_Text bytes => if utf8_valid bytes then Some bytes else None
  | D_I64 v | D_I32 v | D_I16 v => Some (dec v)
  | D_F64 bits => Some (f64_text bits)
  | D_F32 bits => Some (f32_text bits)
  | D_Bool v => Some (bool_text v)
  | D_Uuid v => Some (uuid_display v)
  | D_Numeric v => Some (bd_text v)
  | D_Jsonb bytes | D_Json bytes => if utf8_valid bytes then Some bytes else None
  | _ => None
  end.

Definition from_cast_target (t : DataType) : option ColumnType :=
  match t with
  | DT_Text | DT_String | DT_Varchar | DT_CharVarying | DT_CharacterVarying | DT_Char | DT_Character => Some CT_Text
  | DT_TinyInt | DT_SmallInt | DT_Int2 | DT_Int | DT_Int4 | DT_Integer | DT_BigInt | DT_Int8 => Some CT_Int
  | DT_Real | DT_Float4 | DT_Float8 | DT_Float | DT_Double | DT_DoublePrecision => Some CT_Float
  | DT_Bool | DT_Boolean => Some CT_Bool
  | DT_Uuid => Some CT_Uuid
  | DT_JSON | DT_JSONB => Some CT_Jsonb
  | DT_Numeric | DT_Decimal | DT_Timestamp | DT_Date | DT_Other => None
  end.

(** [unwrap_or(Datum::Null)] on an error; a panic of the decoder is one here. *)
Definition parse_temporal_text (d : Datum) (target : DatumType) : run Datum :=
  match d with
  | D_Text bytes =>
      match decode_column_value f32_parse f64_parse target (C_Text bytes) with
      | Ok v => Ok v
      | Err _ => Ok D_Null
      | Panic => Panic
      end
  | _ => Ok D_Null
  end.

Definition utf8_opt (bytes : list byte) : option text := if utf8_valid bytes then Some bytes else None.
Definition or_null {A} (f : A -> Datum) (o : option A) : Datum := match o with Some a => f a | None => D_Null end.
Definition MICROS_PER_DAY : Z := 86400000000.

Definition cast_bool (d : Datum) : Datum :=
  match d with
  | D_Bool v => D_Bool v
  | D_I64 v | D_I32 v | D_I16 v => D_Bool (negb (v =? 0))
  | D_Text bytes =>
      match (fun t => ascii_lower (trim t)) <$> utf8_opt bytes with
      | Some t => if one_of t ["t"; "true"; "yes"; "on"; "1"]%string then D_Bool true
                  else if one_of t ["f"; "false"; "no"; "off"; "0"]%string then D_Bool false else D_Null
      | None => D_Null
      end
  | _ => D_Null
  end.

Definition cast_int (d : Datum) : Datum :=
  match d with
  | D_I64 v | D_I32 v | D_I16 v => D_I64 v
  | D_F64 bits => D_I64 (round_to_i64 (f64_of_bits bits))
  | D_F32 bits => D_I64 (round_to_i64 (f32_of_bits bits))
  | D_Bool v => D_I64 (Z.b2z v)
  | D_Text bytes => or_null D_I64 (t ← utf8_opt bytes; parse_int I64_MIN I64_MAX (trim t))
  | _ => D_Null
  end.

Definition cast_float (d : Datum) : Datum :=
  match d with
  | D_F64 bits => D_F64 bits
  | D_F32 bits => D_F64 (f64_to_bits (f64_of_f32 (f32_of_bits bits)))
  | D_I64 v | D_I32 v | D_I16 v => D_F64 (f64_to_bits (f64_of_Z v))
  | D_Text bytes => or_null D_F64 (t ← utf8_opt bytes; f64_parse (trim t))
  | _ => D_Null
  end.

Definition cast_timestamp (d : Datum) (target : DatumType) : run Datum :=
  match d with
  | D_Timestamp _ | D_TimestampTz _ => Ok d
  | D_Date date => Ok (D_Timestamp {| ts_micros_since_unix_epoch := sint 64 (days_since_unix_epoch date * MICROS_PER_DAY) |})
  | D_Text _ => parse_temporal_text d target
  | _ => Ok D_Null
  end.

Definition date_of_micros (micros : Z) : Datum :=
  D_Date {| days_since_unix_epoch := sint 32 (micros / MICROS_PER_DAY) |}.

Definition cast_datum (d : Datum) (target : ColumnType) : run Datum :=
  if is_null d then Ok D_Null else
  match target with
  | CT_Text | CT_Enum => Ok (or_null D_Text (datum_display_text d))
  | CT_Int => Ok (cast_int d)
  | CT_Float => Ok (cast_float d)
  | CT_Bool => Ok (cast_bool d)
  | CT_Uuid =>
      Ok match d with D_Uuid v => D_Uuid v | D_Text bytes => or_null D_Uuid (parse_uuid_text bytes) | _ => D_Null end
  | CT_Jsonb => Ok match d with D_Jsonb bytes | D_Json bytes | D_Text bytes => D_Jsonb bytes | _ => D_Null end
  | CT_Timestamp => cast_timestamp d T_Timestamp
  | CT_TimestampTz => cast_timestamp d T_TimestampTz
  | CT_Date =>
      match d with
      | D_Date _ => Ok d
      | D_Timestamp ts => Ok (date_of_micros (ts_micros_since_unix_epoch ts))
      | D_TimestampTz ts => Ok (date_of_micros (tstz_micros_since_unix_epoch ts))
      | D_Text _ => parse_temporal_text d T_Date
      | _ => Ok D_Null
      end
  | CT_Time => match d with D_Time _ => Ok d | D_Text _ => parse_temporal_text d T_Time | _ => Ok D_Null end
  | CT_Interval => match d with D_Interval _ => Ok d | D_Text _ => parse_temporal_text d T_Interval | _ => Ok D_Null end
  | CT_Numeric =>
      Ok match d with
         | D_Numeric _ => d
         | D_I64 _ | D_I32 _ | D_I16 _ | D_F64 _ | D_F32 _ | D_Text _ =>
             or_null (fun t => D_Numeric {| bd_text := t |}) (datum_display_text d)
         | _ => D_Null
         end
  | CT_Bytea => Ok match d with D_Bytea _ => d | D_Text bytes => D_Bytea bytes | _ => D_Null end
  | CT_Array => Ok match d with D_Array _ => d | _ => D_Null end
  | CT_Unknown => Ok d
  end.
End Evaluator.
