(* ===== verification/SqlAst.v ===== *)
(** * SqlAst: the syntax trees of queries

    The part of [sqlparser::ast] the front end matches on: one constructor per
    shape that some pass tells apart, [X_Other] and [TF_Other] for those that every
    pass refuses. Containers that do not recurse are records over the types of their
    expressions, so that only expressions, queries, bodies and table factors are
    mutually inductive. The parser and the rendering of trees are the class
    [SqlSyntax]. *)

From S2P Require Import Prelude Text UserContext Exprs.

(** ** Names and values *)

Record Ident := { id_value : text; id_quote : option byte }.
Definition Ident_new (value : text) : Ident := {| id_value := value; id_quote := None |}.
Abbreviation ObjectName := (list Ident).

#[global] Instance Ident_eq_dec : EqDecision Ident.
Proof. solve_decision. Defined.

Inductive Value :=
| V_Boolean (b : bool) | V_Number (n : text) (long : bool) | V_SingleQuotedString (s : text) | V_DoubleQuotedString (s : text)
| V_EscapedStringLiteral (s : text) | V_UnicodeStringLiteral (s : text) | V_NationalStringLiteral (s : text)
| V_Null | V_Placeholder (name : text) | V_Other (tag : text).

#[global] Instance Value_eq_dec : EqDecision Value.
Proof. solve_decision. Defined.

Inductive SetOperator := SO_Union | SO_Except | SO_Intersect.
Inductive SetQuantifier := SQ_None | SQ_QAll | SQ_QDistinct | SQ_ByName | SQ_AllByName | SQ_DistinctByName.

(** [alias.columns]: the names the alias gives the columns. *)
Record TableAlias := { al_name : Ident; al_columns : list Ident }.

(** ** Containers *)

Section Containers.
Context (E Q B F : Type).

(** [FnNamed None]: a wildcard. *)
Inductive FnArg := FnNamed (e : option E) | FnExpr (e : E) | FnQualifiedWildcard (name : ObjectName) | FnWildcard.
Inductive FnArgs := FnNone | FnSubquery (q : Q) | FnList (distinct : bool) (args : list FnArg).

Record OrderByExpr := { ob_expr : E; ob_asc : option bool }.
Record Cte := { cte_alias : TableAlias; cte_query : Q }.
Record With := { with_recursive : bool; with_ctes : list Cte }.
(** [q_fetch]: the quantity of [FETCH FIRST]. *)
Record QueryOf := {
  q_with : option With; q_body : B; q_order_by : option (list OrderByExpr); q_limit : option E; q_limit_by : list E;
  q_offset : option E; q_fetch : option E
}.

Inductive JoinConstraint := JC_On (e : E) | JC_Using (columns : list Ident) | JC_Natural | JC_None.
Inductive JoinOperator :=
| JO_Inner (c : JoinConstraint) | JO_LeftOuter (c : JoinConstraint) | JO_RightOuter (c : JoinConstraint) | JO_FullOuter (c : JoinConstraint)
| JO_CrossJoin | JO_Other.
Record JoinOf := { jn_relation : F; jn_operator : JoinOperator }.
Record TableWithJoins := { tj_relation : F; tj_joins : list JoinOf }.

(** The flags of the wildcards: whether there are options. *)
Inductive SelectItem :=
| SI_UnnamedExpr (e : E) | SI_ExprWithAlias (e : E) (alias : Ident) | SI_QualifiedWildcard (name : ObjectName) (options : bool) | SI_Wildcard (options : bool).
Inductive DistinctOf := D_Distinct | D_On (exprs : list E).
(** The flags: whether there are modifiers. *)
Inductive GroupByExpr := GB_Expressions (exprs : list E) (modifiers : bool) | GB_All (modifiers : bool).

(** [sl_nonstandard]: any of the clauses after [into] that no pass accepts. *)
Record SelectOf := {
  sl_distinct : option DistinctOf; sl_top : bool; sl_projection : list SelectItem; sl_into : bool; sl_from : list TableWithJoins;
  sl_selection : option E; sl_group_by : GroupByExpr; sl_having : option E; sl_nonstandard : bool
}.
End Containers.

Arguments FnNamed {E} e. Arguments FnExpr {E} e. Arguments FnQualifiedWildcard {E} name. Arguments FnWildcard {E}.
Arguments FnNone {E Q}. Arguments FnSubquery {E Q} q. Arguments FnList {E Q} distinct args.
Arguments ob_expr {E} _. Arguments ob_asc {E} _. Arguments cte_alias {Q} _. Arguments cte_query {Q} _.
Arguments with_recursive {Q} _. Arguments with_ctes {Q} _.
Arguments q_with {E Q B} _. Arguments q_body {E Q B} _. Arguments q_order_by {E Q B} _. Arguments q_limit {E Q B} _. Arguments q_offset {E Q B} _.
Arguments q_limit_by {E Q B} _. Arguments q_fetch {E Q B} _.
Arguments JC_On {E} e. Arguments JC_Using {E} columns. Arguments JC_Natural {E}. Arguments JC_None {E}.
Arguments JO_Inner {E} c. Arguments JO_LeftOuter {E} c. Arguments JO_RightOuter {E} c. Arguments JO_FullOuter {E} c.
Arguments JO_CrossJoin {E}. Arguments JO_Other {E}.
Arguments jn_relation {E F} _. Arguments jn_operator {E F} _. Arguments tj_relation {E F} _. Arguments tj_joins {E F} _.
Arguments SI_UnnamedExpr {E} e. Arguments SI_ExprWithAlias {E} e alias. Arguments SI_QualifiedWildcard {E} name options. Arguments SI_Wildcard {E} options.
Arguments D_Distinct {E}. Arguments D_On {E} exprs. Arguments GB_Expressions {E} exprs modifiers. Arguments GB_All {E} modifiers.
Arguments sl_distinct {E F} _. Arguments sl_top {E F} _. Arguments sl_projection {E F} _. Arguments sl_into {E F} _. Arguments sl_from {E F} _.
Arguments sl_selection {E F} _. Arguments sl_group_by {E F} _. Arguments sl_having {E F} _. Arguments sl_nonstandard {E F} _.

(** ** Trees *)

(** [args] of [TF_Table]: the arguments of a table function, and the hints after [WITH]. *)
Inductive SqlExpr :=
| X_Identifier (i : Ident)
| X_CompoundIdentifier (parts : list Ident)
| X_Nested (e : SqlExpr)
| X_Value (v : Value)
| X_BinaryOp (left : SqlExpr) (op : BinaryOperator) (right : SqlExpr)
| X_UnaryOp (op : UnaryOperator) (e : SqlExpr)
| X_IsNull (e : SqlExpr) | X_IsNotNull (e : SqlExpr) | X_IsTrue (e : SqlExpr) | X_IsFalse (e : SqlExpr)
| X_IsDistinctFrom (left right : SqlExpr) | X_IsNotDistinctFrom (left right : SqlExpr)
| X_Between (e : SqlExpr) (negated : bool) (low high : SqlExpr)
| X_InList (e : SqlExpr) (elements : list SqlExpr) (negated : bool)
| X_Like (negated any : bool) (e pattern : SqlExpr) (escape_char : option text)
| X_ILike (negated any : bool) (e pattern : SqlExpr) (escape_char : option text)
| X_AnyOp (left : SqlExpr) (op : BinaryOperator) (right : SqlExpr)
| X_Cast (kind : CastKind) (e : SqlExpr) (data_type : DataType) (format : bool)
| X_Case (operand : option SqlExpr) (conditions results : list SqlExpr) (else_result : option SqlExpr)
| X_Array (elements : list SqlExpr) (named : bool)
| X_Function (name : ObjectName) (args : FnArgs SqlExpr Query) (over : bool)
| X_Exists (subquery : Query) (negated : bool)
| X_InSubquery (e : SqlExpr) (subquery : Query) (negated : bool)
| X_Subquery (subquery : Query)
| X_Interval
| X_Other
with Query := Query_ (q : QueryOf SqlExpr Query SetExpr)
with SetExpr :=
| SE_Select (s : SelectOf SqlExpr TableFactor)
| SE_Query (q : Query)
| SE_SetOperation (op : SetOperator) (quantifier : SetQuantifier) (left right : SetExpr)
| SE_Values | SE_Insert | SE_Update | SE_Table
with TableFactor :=
| TF_Table (name : ObjectName) (alias : option TableAlias) (args : list (FnArg SqlExpr))
| TF_Derived (lateral : bool) (subquery : Query) (alias : option TableAlias)
| TF_Other.

Abbreviation Select := (SelectOf SqlExpr TableFactor).
Abbreviation Join_ := (JoinOf SqlExpr TableFactor).
Abbreviation FromItem := (TableWithJoins SqlExpr TableFactor).

Definition query_ (q : Query) : QueryOf SqlExpr Query SetExpr := let 'Query_ r := q in r.

Inductive Statement := S_Query (q : Query) | S_Other.

(** [ParserError]: the recursion limit, or a message. *)
Inductive ParserError := RecursionLimitExceeded | OtherParserError (message : text).

Class SqlSyntax : Type := {
  (** [Display] of the trees. *)
  expr_text : SqlExpr -> text;
  query_text : Query -> text;
  value_text : Value -> text;
  ident_text : Ident -> text;
  object_name_text : ObjectName -> text;
  binary_operator_text : BinaryOperator -> text;
  unary_operator_text : UnaryOperator -> text;
  (** The tokenizer and [parse_statements] under a recursion limit. *)
  tokenize : text -> option text;
  parse_statements : nat -> text -> ParserError + list Statement
}.

(** ** Visitors

    A visitor that stops at the first break sees the nodes in the order of these
    lists: a node before its parts, parts in the order of the fields. *)

Definition opt_list {A B} (f : A -> list B) (o : option A) : list B := match o with Some x => f x | None => [] end.

Section Parts.
Context {E Q B F R : Type} (fe : E -> list R) (fq : Q -> list R) (fb : B -> list R) (ff : F -> list R).

Definition arg_parts (a : FnArg E) : list R := match a with FnExpr e | FnNamed (Some e) => fe e | _ => [] end.
Definition args_parts (a : FnArgs E Q) : list R :=
  match a with
  | FnNone => []
  | FnSubquery q => fq q
  | FnList _ args => flat_map arg_parts args
  end.
Definition constraint_parts (c : JoinConstraint E) : list R := match c with JC_On e => fe e | _ => [] end.
Definition operator_parts (o : JoinOperator E) : list R :=
  match o with
  | JO_Inner c | JO_LeftOuter c | JO_RightOuter c | JO_FullOuter c => constraint_parts c
  | JO_CrossJoin | JO_Other => []
  end.
Definition join_parts (j : JoinOf E F) : list R := ff (jn_relation j) ++ operator_parts (jn_operator j).
Definition from_parts (t : TableWithJoins E F) : list R := ff (tj_relation t) ++ flat_map join_parts (tj_joins t).
Definition item_parts (i : SelectItem E) : list R := match i with SI_UnnamedExpr e | SI_ExprWithAlias e _ => fe e | _ => [] end.
Definition distinct_parts (d : DistinctOf E) : list R := match d with D_Distinct => [] | D_On es => flat_map fe es end.
Definition group_parts (g : GroupByExpr E) : list R := match g with GB_Expressions es _ => flat_map fe es | GB_All _ => [] end.
Definition select_parts (s : SelectOf E F) : list R :=
  opt_list distinct_parts (sl_distinct s) ++ flat_map item_parts (sl_projection s) ++ flat_map from_parts (sl_from s) ++
  opt_list fe (sl_selection s) ++ group_parts (sl_group_by s) ++ opt_list fe (sl_having s).
Definition with_parts (w : With Q) : list R := flat_map (fun c => fq (cte_query c)) (with_ctes w).
Definition query_parts (q : QueryOf E Q B) : list R :=
  opt_list with_parts (q_with q) ++ fb (q_body q) ++ opt_list (flat_map (fun o => fe (ob_expr o))) (q_order_by q) ++
  opt_list fe (q_limit q) ++ flat_map fe (q_limit_by q) ++ opt_list fe (q_offset q) ++ opt_list fe (q_fetch q).
End Parts.

(** What a visitor is called on: [pre_visit_query], [pre_visit_table_factor],
    [pre_visit_relation] and [pre_visit_expr]. *)
Inductive Node := N_Query (q : Query) | N_Factor (f : TableFactor) | N_Relation (name : ObjectName) | N_Expr (e : SqlExpr).

Fixpoint expr_nodes (e : SqlExpr) : list Node :=
  N_Expr e ::
  match e with
  | X_Identifier _ | X_CompoundIdentifier _ | X_Value _ | X_Interval | X_Other => []
  | X_Nested e | X_UnaryOp _ e | X_IsNull e | X_IsNotNull e | X_IsTrue e | X_IsFalse e | X_Cast _ e _ _ => expr_nodes e
  | X_BinaryOp l _ r | X_IsDistinctFrom l r | X_IsNotDistinctFrom l r | X_AnyOp l _ r => expr_nodes l ++ expr_nodes r
  | X_Between e _ low high => expr_nodes e ++ expr_nodes low ++ expr_nodes high
  | X_InList e elements _ => expr_nodes e ++ flat_map expr_nodes elements
  | X_Like _ _ e pattern _ | X_ILike _ _ e pattern _ => expr_nodes e ++ expr_nodes pattern
  | X_Case operand conditions results else_result =>
      opt_list expr_nodes operand ++ flat_map expr_nodes conditions ++ flat_map expr_nodes results ++ opt_list expr_nodes else_result
  | X_Array elements _ => flat_map expr_nodes elements
  | X_Function _ args _ => args_parts expr_nodes query_nodes args
  | X_Exists q _ | X_Subquery q => query_nodes q
  | X_InSubquery e q _ => expr_nodes e ++ query_nodes q
  end
with query_nodes (q : Query) : list Node :=
  N_Query q :: let 'Query_ r := q in query_parts expr_nodes query_nodes body_nodes r
with body_nodes (b : SetExpr) : list Node :=
  match b with
  | SE_Select s => select_parts expr_nodes factor_nodes s
  | SE_Query q => query_nodes q
  | SE_SetOperation _ _ l r => body_nodes l ++ body_nodes r
  | SE_Values | SE_Insert | SE_Update | SE_Table => []
  end
with factor_nodes (f : TableFactor) : list Node :=
  N_Factor f :: match f with TF_Table name _ args => N_Relation name :: flat_map (arg_parts expr_nodes) args | TF_Other => [] | TF_Derived _ q _ => query_nodes q end.

Definition exprs_in (l : list Node) : list SqlExpr := filter_map (fun n => match n with N_Expr e => Some e | _ => None end) l.
Definition relations_in (l : list Node) : list ObjectName := filter_map (fun n => match n with N_Relation r => Some r | _ => None end) l.
Definition factors_in (l : list Node) : list TableFactor := filter_map (fun n => match n with N_Factor f => Some f | _ => None end) l.

(** A visitor that runs to the first break. *)
Fixpoint visit {B} (f : SqlExpr -> exec B unit) (l : list SqlExpr) : exec B unit :=
  match l with
  | [] => Ok tt
  | e :: l' => let? _ := f e in visit f l'
  end.

(** ** How deep queries nest

    The fuel of the passes that recurse on rewritten queries. *)

Fixpoint expr_depth (e : SqlExpr) : nat :=
  let one e := [expr_depth e] in
  match e with
  | X_Identifier _ | X_CompoundIdentifier _ | X_Value _ | X_Interval | X_Other => 0%nat
  | X_Nested e | X_UnaryOp _ e | X_IsNull e | X_IsNotNull e | X_IsTrue e | X_IsFalse e | X_Cast _ e _ _ => expr_depth e
  | X_BinaryOp l _ r | X_IsDistinctFrom l r | X_IsNotDistinctFrom l r | X_AnyOp l _ r => Nat.max (expr_depth l) (expr_depth r)
  | X_Between e _ low high => Nat.max (expr_depth e) (Nat.max (expr_depth low) (expr_depth high))
  | X_InList e elements _ => Nat.max (expr_depth e) (list_max (flat_map one elements))
  | X_Like _ _ e pattern _ | X_ILike _ _ e pattern _ => Nat.max (expr_depth e) (expr_depth pattern)
  | X_Case operand conditions results else_result =>
      list_max (opt_list one operand ++ flat_map one conditions ++ flat_map one results ++ opt_list one else_result)
  | X_Array elements _ => list_max (flat_map one elements)
  | X_Function _ args _ => list_max (args_parts one (fun q => [query_depth q]) args)
  | X_Exists q _ | X_Subquery q => query_depth q
  | X_InSubquery e q _ => Nat.max (expr_depth e) (query_depth q)
  end
with query_depth (q : Query) : nat :=
  let 'Query_ r := q in S (list_max (query_parts (fun e => [expr_depth e]) (fun q => [query_depth q]) (fun b => [body_depth b]) r))
with body_depth (b : SetExpr) : nat :=
  match b with
  | SE_Select s => list_max (select_parts (fun e => [expr_depth e]) (fun f => [factor_depth f]) s)
  | SE_Query q => query_depth q
  | SE_SetOperation _ _ l r => Nat.max (body_depth l) (body_depth r)
  | SE_Values | SE_Insert | SE_Update | SE_Table => 0%nat
  end
with factor_depth (f : TableFactor) : nat :=
  match f with TF_Table _ _ args => list_max (flat_map (arg_parts (fun e => [expr_depth e])) args) | TF_Other => 0%nat | TF_Derived _ q _ => query_depth q end.
