(* ===== verification/Like.v ===== *)
(** * Like: pattern matching of [LIKE]
    ([like_match] of [crates/palimpsest-dataflow/src/palimpsest/eval.rs])

    The source matches with two pointers and backtracks to the last [%] only. The
    theorem says that this decides the pattern language, on every input. *)

From S2P Require Import Prelude BTree Text Values Datums.

Inductive like_token := AnyRun | AnyOne | Literal (c : text).
#[global] Instance like_token_eq_dec : EqDecision like_token.
Proof. solve_decision. Defined.

(** The tokens of a pattern; [after_run] says that the last token pushed is
    [AnyRun]. *)
Fixpoint like_tokens (escape : option text) (after_run : bool) (pattern : list text) : list like_token :=
  match pattern with
  | [] => []
  | c :: rest =>
      if decide (Some c = escape) then
        match rest with
        | escaped :: rest' => Literal escaped :: like_tokens escape false rest'
        | [] => [Literal c]
        end
      else if decide (c = lit "%") then
        if after_run then like_tokens escape true rest else AnyRun :: like_tokens escape true rest
      else if decide (c = lit "_") then AnyOne :: like_tokens escape false rest
      else Literal c :: like_tokens escape false rest
  end.

(** The two-pointer loop: [s] and [p] are the positions, [star] the position of
    the last [AnyRun] and where its run ends. [None] is a loop cut short. *)
Fixpoint like_loop (fuel : nat) (subject : list text) (tokens : list like_token) (s p : nat) (star : option (nat * nat))
  : option bool :=
  match fuel with
  | O => None
  | S fuel' =>
      match subject !! s with
      | None => Some (forallb (fun t => bool_decide (t = AnyRun)) (drop p tokens))
      | Some c =>
          let backtrack :=
            match star with
            | None => Some false
            | Some (star_p, star_s) => like_loop fuel' subject tokens (S star_s) (S star_p) (Some (star_p, S star_s))
            end in
          match tokens !! p with
          | Some (Literal c') => if decide (c' = c) then like_loop fuel' subject tokens (S s) (S p) star else backtrack
          | Some AnyOne => like_loop fuel' subject tokens (S s) (S p) star
          | Some AnyRun => like_loop fuel' subject tokens s (S p) (Some (p, s))
          | None => backtrack
          end
      end
  end.

Definition like_fuel (subject : list text) (tokens : list like_token) : nat :=
  length subject * S (length tokens) + length tokens + 1.

Definition like_match (subject pattern : text) (escape : option text) : option bool :=
  let tokens := like_tokens escape false (chars pattern) in
  like_loop (like_fuel (chars subject) tokens) (chars subject) tokens 0 0 None.

(** ** The language of a pattern *)

Inductive like_lang (escape : option text) : list text -> list text -> Prop :=
| ll_nil : like_lang escape [] []
| ll_escaped c e p s : Some c = escape -> like_lang escape p s -> like_lang escape (c :: e :: p) (e :: s)
| ll_trailing c : Some c = escape -> like_lang escape [c] [c]
| ll_run p run s : Some (lit "%") <> escape -> like_lang escape p s -> like_lang escape (lit "%" :: p) (run ++ s)
| ll_one p c s : Some (lit "_") <> escape -> like_lang escape p s -> like_lang escape (lit "_" :: p) (c :: s)
| ll_literal c p s : Some c <> escape -> c <> lit "%" -> c <> lit "_" -> like_lang escape p s ->
    like_lang escape (c :: p) (c :: s).

(** ** Matching a token list *)

Fixpoint run_matches (f : list text -> bool) (s : list text) : bool :=
  f s || match s with [] => false | _ :: s' => run_matches f s' end.

Fixpoint matches (tokens : list like_token) (s : list text) : bool :=
  match tokens with
  | [] => match s with [] => true | _ => false end
  | AnyRun :: t => run_matches (matches t) s
  | AnyOne :: t => match s with [] => false | _ :: s' => matches t s' end
  | Literal c :: t => match s with [] => false | c' :: s' => bool_decide (c = c') && matches t s' end
  end.

Lemma run_matches_spec f s : run_matches f s = true <-> exists k, (k <= length s)%nat /\ f (drop k s) = true.
Proof.
  induction s as [|c s IH]; simpl; rewrite orb_true_iff.
  - split; [intros [?|?]; [by exists 0%nat | done]|]. intros (k & Hk & Hf). assert (k = 0)%nat as -> by lia. by left.
  - rewrite IH. split.
    + intros [Hf|(k & Hk & Hf)]; [by exists 0%nat; split; [lia|] | exists (S k)]. split; [lia | done].
    + intros ([|k] & Hk & Hf); [by left | right]. exists k. split; [lia | done].
Qed.

Definition is_run (t : like_token) : bool := bool_decide (t = AnyRun).

Lemma matches_fixed seg rest s :
  Forall (fun t => t <> AnyRun) seg -> matches (seg ++ rest) s = true ->
  (length seg <= length s)%nat /\ matches rest (drop (length seg) s) = true.
Proof.
  intros Hseg. revert s. induction Hseg as [|t seg Ht _ IH]; intros s; simpl; [split; [lia | done]|].
  destruct t as [| |c]; [done| |]; destruct s as [|c' s]; try done; simpl.
  - intros [? ?]%IH. split; [lia | done].
  - intros [_ [? ?]%IH]%andb_true_iff. split; [lia | done].
Qed.

Lemma matches_nil tokens : matches tokens [] = forallb (fun t => bool_decide (t = AnyRun)) tokens.
Proof.
  induction tokens as [|[| |c] t IH]; simpl; [done| |done..]. by rewrite orb_false_r, IH.
Qed.

(** ** The loop *)

Section Loop.
Context (subject : list text) (tokens : list like_token).
#[local] Abbreviation n := (length subject).
#[local] Abbreviation T := (length tokens).
#[local] Abbreviation M p s := (matches (drop p tokens) (drop s subject)).

(** The segment from the last star to [p] has fixed length and was matched from
    [star_s] to [s]. *)
Definition loop_inv (s p : nat) (star : option (nat * nat)) : Prop :=
  (s <= n)%nat /\ (p <= T)%nat /\
  match star with
  | None => True
  | Some (sp, ss) => tokens !! sp = Some AnyRun /\ (ss <= s)%nat /\ (sp < p)%nat /\ (p - S sp = s - ss)%nat /\
      (forall i, (sp < i < p)%nat -> tokens !! i <> Some AnyRun)
  end.

(** What is left to decide. *)
Definition pending_match (s p : nat) (star : option (nat * nat)) : bool :=
  M p s || match star with Some (sp, ss) => bool_decide (ss < n)%nat && M sp (S ss) | None => false end.

Lemma M_run p s : tokens !! p = Some AnyRun -> M p s = run_matches (matches (drop (S p) tokens)) (drop s subject).
Proof. intros Hp. by rewrite (drop_S _ _ _ Hp). Qed.

(** A longer run can only push the match further right. *)
Lemma later_run s p sp ss :
  loop_inv s p (Some (sp, ss)) -> (ss < n)%nat -> M sp (S ss) = true ->
  exists s', (s < s' <= n)%nat /\ M p s' = true.
Proof.
  intros (Hs & Hp & Hrun & Hss & Hsp & Hlen & Hno) Hlt Hm. rewrite (M_run sp) in Hm by done.
  apply run_matches_spec in Hm as (k & Hk & Hm). rewrite length_drop in Hk. rewrite drop_drop in Hm.
  assert (drop (S sp) tokens = take (p - S sp) (drop (S sp) tokens) ++ drop p tokens) as Hsplit.
  { rewrite <- (take_drop (p - S sp) (drop (S sp) tokens)) at 1. rewrite drop_drop. do 2 f_equal. lia. }
  rewrite Hsplit in Hm. apply matches_fixed in Hm as [Hl Hm].
  - rewrite length_take, !length_drop in Hl, Hm. rewrite drop_drop in Hm.
    replace (Nat.min (p - S sp) (T - S sp)) with (s - ss)%nat in Hl, Hm by lia.
    rewrite length_drop in Hl. exists (S ss + k + (s - ss))%nat. split; [lia | exact Hm].
  - apply Forall_lookup. intros i t Hi.
    destruct (Nat.le_gt_cases (p - S sp) i) as [Hge|Hlti]; [by rewrite lookup_take_ge in Hi|].
    rewrite lookup_take_lt, lookup_drop in Hi by done. intros ->. apply (Hno (S sp + i)%nat); [lia | done].
Qed.

Lemma pending_run s p star c :
  loop_inv s p star -> subject !! s = Some c -> tokens !! p = Some AnyRun ->
  loop_inv s (S p) (Some (p, s)) /\ pending_match s (S p) (Some (p, s)) = pending_match s p star.
Proof.
  intros Hinv Hc Hp. pose proof (lookup_lt_Some _ _ _ Hc). pose proof (lookup_lt_Some _ _ _ Hp). split.
  - destruct Hinv as (? & ? & _). repeat split; try lia; try done; intros i ?; exfalso; lia.
  - unfold pending_match. rewrite bool_decide_eq_true_2 by done. simpl andb.
    assert (M p s = M (S p) s || M p (S s)) as Hstep.
    { rewrite !(M_run p) by done. by rewrite (drop_S subject c s Hc). }
    rewrite Hstep. destruct star as [[sp ss]|]; [|by rewrite orb_false_r].
    destruct (bool_decide (ss < n)%nat && M sp (S ss)) eqn:Ealt; [|by rewrite orb_false_r].
    apply andb_true_iff in Ealt as [Hlt%bool_decide_eq_true Hm].
    destruct (later_run s p sp ss Hinv Hlt Hm) as (s' & Hs' & Hm'). rewrite orb_true_r, <- Hstep.
    rewrite (M_run p) in Hm' |- * by done. apply run_matches_spec in Hm' as (k & Hk & Hm').
    apply run_matches_spec. exists (s' - s + k)%nat. rewrite length_drop in *. rewrite drop_drop in *.
    split; [lia|]. by replace (s + (s' - s + k))%nat with (s' + k)%nat by lia.
Qed.

Lemma pending_backtrack s p sp ss :
  loop_inv s p (Some (sp, ss)) -> (s < n)%nat -> M p s = false ->
  loop_inv (S ss) (S sp) (Some (sp, S ss)) /\
  pending_match (S ss) (S sp) (Some (sp, S ss)) = pending_match s p (Some (sp, ss)).
Proof.
  intros (Hs & Hp & Hrun & Hss & Hsp & Hlen & Hno) Hlt HM. split.
  - repeat split; try lia; try done; intros i ?; exfalso; lia.
  - unfold pending_match. rewrite HM, (bool_decide_eq_true_2 (ss < n)%nat) by lia. simpl.
    rewrite (M_run sp (S ss)) by done. destruct (subject !! S ss) as [c|] eqn:Hc.
    + rewrite (drop_S subject c (S ss) Hc). cbn [run_matches]. rewrite <- (M_run sp) by done.
      by rewrite bool_decide_eq_true_2 by by eapply lookup_lt_Some.
    + apply lookup_ge_None in Hc. rewrite (drop_ge subject (S ss)) by done. cbn [run_matches].
      by rewrite bool_decide_eq_false_2 by lia.
Qed.

(** Work left, in steps. *)
Definition loop_work (p : nat) (star : option (nat * nat)) : nat :=
  (match star with Some (_, ss) => n - ss | None => n end) * S T + (T - p).

Lemma like_loop_spec fuel s p star :
  loop_inv s p star -> (loop_work p star < fuel)%nat ->
  like_loop fuel subject tokens s p star = Some (pending_match s p star).
Proof.
  revert s p star. induction fuel as [|fuel IH]; intros s p star Hinv Hf; [lia|]. cbn [like_loop].
  destruct (subject !! s) as [c|] eqn:Hc.
  2: { apply lookup_ge_None in Hc. destruct Hinv as (Hs & Hp & Hstar). unfold pending_match.
       rewrite (drop_ge subject s), <- matches_nil by done. f_equal. symmetry.
       destruct star as [[sp ss]|]; [|apply orb_false_r].
       destruct (bool_decide (ss < n)%nat && M sp (S ss)) eqn:Ealt; [|apply orb_false_r].
       apply andb_true_iff in Ealt as [Hlt%bool_decide_eq_true Hm].
       destruct (later_run s p sp ss (conj Hs (conj Hp Hstar)) Hlt Hm) as (s' & ? & _). lia. }
  pose proof (lookup_lt_Some _ _ _ Hc) as Hsn. destruct Hinv as (Hs & Hp & Hstar).
  assert (M p s = false -> match star with
     | None => Some false
     | Some (star_p, star_s) => like_loop fuel subject tokens (S star_s) (S star_p) (Some (star_p, S star_s))
     end = Some (pending_match s p star)) as Hback.
  { intros HM. destruct star as [[sp ss]|]; [|unfold pending_match; by rewrite HM].
    destruct (pending_backtrack s p sp ss (conj Hs (conj Hp Hstar)) Hsn HM) as [Hi' <-]. apply IH; [done|].
    unfold loop_work in *. destruct Hstar as (? & ? & ? & ? & _). nia. }
  assert (forall c', tokens !! p = Some c' -> c' <> AnyRun -> M p s = M (S p) (S s) ->
    like_loop fuel subject tokens (S s) (S p) star = Some (pending_match s p star)) as Hstep.
  { intros c' Ht Hc' HM. pose proof (lookup_lt_Some _ _ _ Ht). unfold pending_match. rewrite HM. apply IH.
    - repeat split; try lia. destruct star as [[sp ss]|]; [|done]. destruct Hstar as (? & ? & ? & ? & Hno).
      repeat split; try lia; [done|]. intros i Hi. destruct (decide (i = p)) as [->|]; [congruence | apply Hno; lia].
    - unfold loop_work in *. lia. }
  destruct (tokens !! p) as [[| |c']|] eqn:Ht.
  - destruct (pending_run s p star c (conj Hs (conj Hp Hstar)) Hc Ht) as [Hi' <-]. apply IH; [done|].
    pose proof (lookup_lt_Some _ _ _ Ht). unfold loop_work in *. destruct star as [[sp ss]|].
    + destruct Hstar as (? & ? & _). nia.
    + nia.
  - apply (Hstep AnyOne); [done..|]. by rewrite (drop_S _ _ _ Ht), (drop_S _ _ _ Hc).
  - destruct (decide (c' = c)) as [->|Hne].
    + apply (Hstep (Literal c)); [done..|]. rewrite (drop_S _ _ _ Ht), (drop_S _ _ _ Hc). simpl.
      by rewrite bool_decide_eq_true_2.
    + apply Hback. rewrite (drop_S _ _ _ Ht), (drop_S _ _ _ Hc). simpl. by rewrite bool_decide_eq_false_2.
  - apply Hback. apply lookup_ge_None in Ht. rewrite (drop_ge tokens), (drop_S _ _ _ Hc) by done. done.
Qed.

Lemma like_loop_matches :
  like_loop (like_fuel subject tokens) subject tokens 0 0 None = Some (matches tokens subject).
Proof.
  rewrite like_loop_spec.
  - unfold pending_match. by rewrite orb_false_r.
  - repeat split; lia.
  - unfold loop_work, like_fuel. lia.
Qed.
End Loop.

(** ** Tokens denote the language *)

Section Language.
Context (escape : option text).

Lemma lang_inv p s : like_lang escape p s ->
  match p with
  | [] => s = []
  | c :: p' =>
      if decide (Some c = escape) then
        match p' with [] => s = [c] | e :: p'' => exists s', s = e :: s' /\ like_lang escape p'' s' end
      else if decide (c = lit "%") then exists k, (k <= length s)%nat /\ like_lang escape p' (drop k s)
      else if decide (c = lit "_") then exists c' s', s = c' :: s' /\ like_lang escape p' s'
      else exists s', s = c :: s' /\ like_lang escape p' s'
  end.
Proof.
  destruct 1 as [|c e p s Hc Hl|c Hc|p run s Hc Hl|p c s Hc Hl|c p s Hc H1 H2 Hl].
  - done.
  - rewrite decide_True by done. eauto.
  - by rewrite decide_True by done.
  - rewrite decide_False, decide_True by done. exists (length run). rewrite length_app, drop_app_length.
    split; [lia | done].
  - rewrite !decide_False, decide_True by done. eauto.
  - rewrite !decide_False by done. eauto.
Qed.

(** [like_tokens] after a run: the run absorbs further [%]. *)
Lemma tokens_lang_aux N p : (length p <= N)%nat ->
  (forall s, matches (like_tokens escape false p) s = true <-> like_lang escape p s) /\
  (forall s, run_matches (matches (like_tokens escape true p)) s = true <->
     exists k, (k <= length s)%nat /\ like_lang escape p (drop k s)).
Proof.
  revert p. induction N as [|N IH]; intros p Hp.
  - destruct p; [|simpl in Hp; lia]. split; intros s.
    + simpl. split; [destruct s; [constructor | done] | by intros ->%lang_inv].
    + rewrite run_matches_spec. simpl. split; intros (k & Hk & Hm); exists k; (split; [done|]).
      * destruct (drop k s); [constructor | done].
      * by apply lang_inv in Hm as ->.
  - assert (forall q b, (b = true -> match q with c :: _ => c <> lit "%" \/ Some c = escape | [] => True end) -> (length q <= S N)%nat ->
      forall s, matches (like_tokens escape b q) s = true <-> like_lang escape q s) as Hone.
    { intros q b Hb Hq s. destruct q as [|c q].
      { simpl. split; [destruct s; [constructor | done] | by intros ->%lang_inv]. }
      cbn [like_tokens]. simpl in Hq. destruct (decide (Some c = escape)) as [Hc|Hc].
      - destruct q as [|e q].
        + simpl. split.
          * destruct s as [|c' [|]]; try done; [|by rewrite andb_false_r]. rewrite andb_true_r.
            intros ->%bool_decide_eq_true. by apply ll_trailing.
          * intros Hl%lang_inv. rewrite decide_True in Hl by done. subst. by rewrite bool_decide_eq_true_2.
        + simpl. destruct (IH q) as [IHq _]; [simpl in *; lia|]. split.
          * destruct s as [|c' s]; [done|]. intros [->%bool_decide_eq_true Hm%IHq]%andb_true_iff. by apply ll_escaped.
          * intros Hl%lang_inv. rewrite decide_True in Hl by done. destruct Hl as (s' & -> & Hl).
            rewrite bool_decide_eq_true_2 by done. by apply IHq.
      - destruct (IH q ltac:(lia)) as [IHq IHr]. destruct (decide (c = lit "%")) as [->|Hn1].
        + destruct b; [destruct (Hb eq_refl); done|]. cbn [matches]. rewrite IHr. split.
          * intros (k & Hk & Hl). rewrite <- (take_drop k s). by apply ll_run.
          * intros Hl%lang_inv. rewrite decide_False, decide_True in Hl by done. done.
        + destruct (decide (c = lit "_")) as [->|Hn2].
          * cbn [matches]. split.
            -- destruct s as [|c' s]; [done|]. intros Hm%IHq. by apply ll_one.
            -- intros Hl%lang_inv. rewrite !decide_False, decide_True in Hl by done. destruct Hl as (c' & s' & -> & Hl). by apply IHq.
          * cbn [matches]. split.
            -- destruct s as [|c' s]; [done|]. intros [->%bool_decide_eq_true Hm%IHq]%andb_true_iff. by apply ll_literal.
            -- intros Hl%lang_inv. rewrite !decide_False in Hl by done. destruct Hl as (s' & -> & Hl).
               rewrite bool_decide_eq_true_2 by done. by apply IHq. }
    split; [by apply Hone|]. intros s. rewrite run_matches_spec.
    destruct p as [|c p]; [by setoid_rewrite (Hone [] true)|].
    destruct (decide (c = lit "%" /\ Some c <> escape)) as [[-> Hc]|Hne].
    + cbn [like_tokens]. rewrite decide_False, decide_True by done. destruct (IH p) as [_ IHr]; [simpl in Hp; lia|].
      specialize (IHr s). rewrite run_matches_spec in IHr. rewrite IHr. split; intros (k & Hk & Hl).
      * exists k. split; [done|]. by apply (ll_run _ _ [] (drop k s)).
      * apply lang_inv in Hl. rewrite decide_False, decide_True in Hl by done. destruct Hl as (j & Hj & Hl).
        rewrite drop_drop in Hl. rewrite length_drop in Hj. exists (k + j)%nat. split; [lia | done].
    + setoid_rewrite (Hone (c :: p) true); [done| |done]. intros _.
      destruct (decide (c = lit "%")); [right | by left]. destruct (decide (Some c = escape)); [done|]. exfalso. by apply Hne.
Qed.

Lemma tokens_lang p s : matches (like_tokens escape false p) s = true <-> like_lang escape p s.
Proof. by apply (tokens_lang_aux (length p) p). Qed.
End Language.

(** The fuel of the loop always suffices. *)
Lemma like_match_total subject pattern escape : exists b, like_match subject pattern escape = Some b.
Proof. unfold like_match. rewrite like_loop_matches. eauto. Qed.

(** C37: LIKE matching terminates and accepts a subject exactly when it is in the language of the
    pattern: percent matches any run of characters, underscore one character, an escaped character
    itself, and a trailing escape itself. *)
Theorem like_match_exact subject pattern escape :
  exists b, like_match subject pattern escape = Some b /\
    (b = true <-> like_lang escape (chars pattern) (chars subject)).
Proof.
  unfold like_match. rewrite like_loop_matches. eexists. split; [done|]. apply tokens_lang.
Qed.
