(* ===== verification/Eval.v ===== *)
(** * Eval: compiling expressions into closures
    ([crates/palimpsest-dataflow/src/palimpsest/eval.rs])

    [compile_inner] and the functions it calls, one per kind of expression; type
    inference; array literals. A helper of the source that compiles its operands
    takes them compiled here: compiling is a function of the expression, so when it
    runs makes no difference, and the first error is still the one reported. *)

From S2P Require Import Prelude BTree Text Values UserContext Literals Floats Datums Exprs Like.

(** [collect::<Result<Vec<_>, _>>()] of results already computed. *)
Definition exec_all {E A} (l : list (exec E A)) : exec E (list A) := exec_mapM id l.

(** [option.map(..).transpose()?]. *)
Definition exec_transpose {E A} (o : option (exec E A)) : exec E (option A) :=
  match o with None => Ok None | Some m => exec_map Some m end.

Section Compile.
Context `{EvalRuntime}.
Abbreviation compiled := (exec EvalError ScalarFn).

(** ** Array literals *)

Record array_state := { ar_elements : list Datum; ar_current : text; ar_in_quotes : bool; ar_quoted : bool }.

Definition array_element (current : text) (quoted : bool) : Datum :=
  let raw := trim current in
  if quoted then D_Text current
  else if eq_ignore_ascii_case raw (lit "null") then D_Null
  else match parse_int I64_MIN I64_MAX raw with
  | Some v => D_I64 v
  | None =>
      match f64_parse raw with
      | Some v => D_F64 v
      | None =>
          if eq_ignore_ascii_case raw (lit "true") || bool_decide (raw = lit "t") then D_Bool true
          else if eq_ignore_ascii_case raw (lit "false") || bool_decide (raw = lit "f") then D_Bool false
          else D_Text raw
      end
  end.

(** The [flush] closure: an empty unquoted element is dropped, and then the
    buffer is not cleared. *)
Definition array_flush (st : array_state) : array_state :=
  if bool_decide (trim (ar_current st) = []) && negb (ar_quoted st) then st
  else {| ar_elements := ar_elements st ++ [array_element (ar_current st) (ar_quoted st)];
          ar_current := []; ar_in_quotes := ar_in_quotes st; ar_quoted := false |}.

Definition array_push (st : array_state) (c : text) : array_state :=
  {| ar_elements := ar_elements st; ar_current := ar_current st ++ c;
     ar_in_quotes := ar_in_quotes st; ar_quoted := ar_quoted st |}.

Fixpoint array_scan (st : array_state) (cs : list text) : array_state :=
  match cs with
  | [] => st
  | c :: cs' =>
      if decide (c = [x22]) then
        array_scan {| ar_elements := ar_elements st; ar_current := ar_current st;
                      ar_in_quotes := negb (ar_in_quotes st); ar_quoted := true |} cs'
      else if decide (c = [x5c]) then
        if ar_in_quotes st then
          match cs' with
          | escaped :: cs'' => array_scan (array_push st escaped) cs''
          | [] => st
          end
        else array_scan (array_push st c) cs'
      else if decide (c = [x2c]) then
        if ar_in_quotes st then array_scan (array_push st c) cs' else array_scan (array_flush st) cs'
      else array_scan (array_push st c) cs'
  end.

Definition array_start : array_state :=
  {| ar_elements := []; ar_current := []; ar_in_quotes := false; ar_quoted := false |}.

Definition parse_array_literal (t : text) : exec EvalError (list Datum) :=
  match strip_braces (trim t) with
  | None => Err (EE_Parse t)
  | Some inner =>
      let st := array_scan array_start (chars inner) in
      if ar_in_quotes st then Err (EE_Parse t) else Ok (ar_elements (array_flush st))
  end.

(** ** Leaves *)

Definition identifier_scalar (name : text) (schema : ScalarSchema) : compiled :=
  let? idx := ok_or (index_of schema name) (EE_UnknownColumn name) in
  Ok (fun row => Ok (row_get row idx)).

Definition compound_scalar (parts : list text) (schema : ScalarSchema) : compiled :=
  let qualified := match parts with [relation; column] => index_of_qualified schema relation column | _ => None end in
  match qualified with
  | Some idx => Ok (fun row => Ok (row_get row idx))
  | None =>
      match last parts with
      | None => Err (EE_Unsupported "empty compound identifier")
      | Some name => identifier_scalar name schema
      end
  end.

Definition value_scalar (v : SqlValue) : compiled :=
  match v with
  | SV_Boolean b => Ok (fun _ => Ok (D_Bool b))
  | SV_Number n =>
      match parse_int I64_MIN I64_MAX n with
      | Some v => Ok (fun _ => Ok (D_I64 v))
      | None => match f64_parse n with Some bits => Ok (fun _ => Ok (D_F64 bits)) | None => Err (EE_Parse n) end
      end
  | SV_SingleQuotedString s | SV_DoubleQuotedString s | SV_EscapedStringLiteral s | SV_UnicodeStringLiteral s
  | SV_NationalStringLiteral s => Ok (fun _ => Ok (D_Text s))
  | SV_Null => Ok (fun _ => Ok D_Null)
  | SV_Other => Err (EE_Unsupported "literal")
  end.

(** ** Operators *)

Definition concat_datums (left right : Datum) : Datum :=
  if is_null left || is_null right then D_Null
  else match datum_display_text left, datum_display_text right with
  | Some a, Some b => D_Text (a ++ b)
  | _, _ => D_Null
  end.

(** Both operands, then a function of their values. *)
Definition lift2 (l r : ScalarFn) (f : Datum -> Datum -> Datum) : ScalarFn :=
  fun row => let? a := l row in let? b := r row in Ok (f a b).
Definition lift1 (e : ScalarFn) (f : Datum -> Datum) : ScalarFn := fun row => let? a := e row in Ok (f a).

Definition binary_scalar (left : compiled) (op : BinaryOperator) (right : compiled) : compiled :=
  let? l := left in
  let? r := right in
  match op with
  | BO_Eq => Ok (lift2 l r (fun a b => D_Bool (datum_eq a b)))
  | BO_NotEq => Ok (lift2 l r (fun a b => D_Bool (negb (datum_eq a b))))
  | BO_Lt => Ok (lift2 l r (fun a b => datum_cmp_bool a b is_lt))
  | BO_LtEq => Ok (lift2 l r (fun a b => datum_cmp_bool a b is_le))
  | BO_Gt => Ok (lift2 l r (fun a b => datum_cmp_bool a b is_gt))
  | BO_GtEq => Ok (lift2 l r (fun a b => datum_cmp_bool a b is_ge))
  | BO_And => Ok (fun row => let? lv := l row in
      if negb (is_true lv) then Ok (D_Bool false) else let? rv := r row in Ok (D_Bool (is_true rv)))
  | BO_Or => Ok (fun row => let? lv := l row in
      if is_true lv then Ok (D_Bool true) else let? rv := r row in Ok (D_Bool (is_true rv)))
  | BO_Plus | BO_Minus | BO_Multiply | BO_Divide | BO_Modulo => Ok (lift2 l r (arithmetic_datums op))
  | BO_StringConcat => Ok (lift2 l r concat_datums)
  | BO_Arrow => Ok (lift2 l r (fun a b => json_extract a b false))
  | BO_LongArrow => Ok (lift2 l r (fun a b => json_extract a b true))
  | BO_Other => Err (EE_Unsupported "binary op")
  end.

Definition not_datum (d : Datum) : Datum := match d with D_Bool b => D_Bool (negb b) | _ => D_Bool false end.

Definition unary_scalar (op : UnaryOperator) (inner : compiled) : compiled :=
  let? e := inner in
  match op with
  | UO_Not => Ok (lift1 e not_datum)
  | UO_Minus => Ok (lift1 e negate_datum)
  | UO_Plus => Ok e
  | UO_Other => Err (EE_Unsupported "unary op")
  end.

(** The loop of [IN]: stop at the first hit. *)
Fixpoint in_list_loop (value : Datum) (elements : list ScalarFn) (row : Row) (saw_null : bool) : run (bool * bool) :=
  match elements with
  | [] => Ok (false, saw_null)
  | element :: rest =>
      let? candidate := element row in
      if is_null candidate then in_list_loop value rest row true
      else if datum_eq value candidate then Ok (true, saw_null)
      else in_list_loop value rest row saw_null
  end.

Definition in_list_scalar (needle : compiled) (list : list compiled) (negated : bool) : compiled :=
  let? needle := needle in
  let? elements := exec_all list in
  Ok (fun row =>
    let? value := needle row in
    if is_null value then Ok (D_Bool false)
    else
      let? (hit, saw_null) := in_list_loop value elements row false in
      Ok (D_Bool (if negated then negb hit && negb saw_null else hit))).

Definition between_scalar (needle : compiled) (negated : bool) (low high : compiled) : compiled :=
  let? needle := needle in
  let? low := low in
  let? high := high in
  Ok (fun row =>
    let? value := needle row in
    let? low_value := low row in
    let? high_value := high row in
    if is_null value || is_null low_value || is_null high_value then Ok (D_Bool false)
    else
      let within := is_true (datum_cmp_bool low_value value is_le) && is_true (datum_cmp_bool value high_value is_le) in
      Ok (D_Bool (xorb within negated))).

Definition like_datums (escape : option text) (negated case_insensitive : bool) (subject pattern : Datum) : Datum :=
  match subject, pattern with
  | D_Text s, D_Text p =>
      if utf8_valid s && utf8_valid p then
        let matched :=
          default false (if case_insensitive then like_match (str_to_lowercase s) (str_to_lowercase p) escape
                         else like_match s p escape) in
        D_Bool (xorb matched negated)
      else D_Bool false
  | _, _ => D_Bool false
  end.

Definition like_escape (escape_char : option text) : exec EvalError (option text) :=
  match escape_char with
  | None => Ok (Some [x5c])
  | Some t =>
      match chars t with
      | [] => Ok None
      | [c] => Ok (Some c)
      | _ => Err (EE_Unsupported "multi-character LIKE escape")
      end
  end.

Definition like_scalar (subject pattern : compiled) (escape_char : option text) (negated case_insensitive : bool) : compiled :=
  let? subject := subject in
  let? pattern := pattern in
  let? escape := like_escape escape_char in
  Ok (lift2 subject pattern (like_datums escape negated case_insensitive)).

(** [elements.iter().any(..)] stops at the first hit. *)
Fixpoint any_loop (op : BinaryOperator) (lv : Datum) (elements : list ScalarFn) (row : Row) : run bool :=
  match elements with
  | [] => Ok false
  | element :: rest =>
      let? v := element row in
      if bool_decide (compare_datums op lv v = Some true) then Ok true else any_loop op lv rest row
  end.

Definition any_scalar (left : compiled) (op : BinaryOperator) (elements : exec EvalError (list ScalarFn)) : compiled :=
  let? l := left in
  let? elements := elements in
  let? _ := ok_or (compare_datums op D_Null D_Null) (EE_Unsupported "ANY with operator") in
  Ok (fun row => let? lv := l row in let? hit := any_loop op lv elements row in Ok (D_Bool hit)).

Fixpoint case_loop (operand : option ScalarFn) (branches : list (ScalarFn * ScalarFn)) (otherwise : run Datum) (row : Row)
  : run Datum :=
  match branches with
  | [] => otherwise
  | (condition, result) :: rest =>
      let? hit :=
        match operand with
        | Some operand => let? a := operand row in let? b := condition row in Ok (datum_eq a b)
        | None => let? c := condition row in Ok (is_true c)
        end in
      if (hit : bool) then result row else case_loop operand rest otherwise row
  end.

Definition case_scalar (operand : option compiled) (conditions results : list compiled) (else_result : option compiled)
  : compiled :=
  let? operand := exec_transpose operand in
  let? conditions := exec_all conditions in
  let? results := exec_all results in
  let? else_result := exec_transpose else_result in
  Ok (fun row => case_loop operand (combine conditions results)
    (match else_result with Some result => result row | None => Ok D_Null end) row).

Fixpoint coalesce_loop (args : list ScalarFn) (row : Row) : run Datum :=
  match args with
  | [] => Ok D_Null
  | arg :: rest => let? value := arg row in if is_null value then coalesce_loop rest row else Ok value
  end.

(** [i64::try_from(items.len()).unwrap_or(i64::MAX)]. *)
Definition cardinality_datum (d : Datum) : Datum :=
  match d with D_Array items => D_I64 (Z.min I64_MAX (Z.of_nat (length items))) | _ => D_Null end.

(** [args]: [None] for an argument that is not an unnamed expression. *)
Definition function_scalar (name : text) (args : exec EvalError (list (option compiled))) : compiled :=
  let? args := args in
  let? args := exec_mapM (fun a => ok_or a (EE_Unsupported "function argument")) args in
  let name := ascii_lower name in
  if decide (name = lit "coalesce") then
    let? fns := exec_all args in Ok (coalesce_loop fns)
  else if decide (name = lit "cardinality") then
    match args with
    | [arg] => let? e := arg in Ok (lift1 e cardinality_datum)
    | _ => Err (EE_Unsupported "cardinality expects 1 argument")
    end
  else Err (EE_Unsupported "function").

Definition cast_scalar (kind : CastKind) (source : compiled) (data_type : DataType) : compiled :=
  match kind with
  | CK_Other => Err (EE_Unsupported "expression")
  | CK_Cast | CK_DoubleColon =>
      let? target := ok_or (from_cast_target data_type) (EE_Unsupported "cast target type") in
      let? source := source in
      Ok (fun row => let? d := source row in cast_datum d target)
  end.

Definition array_scalar (elements : list compiled) : compiled :=
  let? elements := exec_all elements in
  Ok (fun row => let? items := exec_mapM (fun element => element row) elements in Ok (D_Array items)).

Definition constants (datums : list Datum) : list ScalarFn := map (fun d _ => Ok d) datums.

(** ** The compiler *)

Fixpoint compile_inner (schema : ScalarSchema) (e : Expr) : compiled :=
  match e with
  | E_Nested inner => compile_inner schema inner
  | E_Identifier name => identifier_scalar name schema
  | E_CompoundIdentifier parts => compound_scalar parts schema
  | E_Value v => value_scalar v
  | E_BinaryOp l op r => binary_scalar (compile_inner schema l) op (compile_inner schema r)
  | E_UnaryOp op inner => unary_scalar op (compile_inner schema inner)
  | E_IsNull inner => let? t := compile_inner schema inner in Ok (lift1 t (fun d => D_Bool (is_null d)))
  | E_IsNotNull inner => let? t := compile_inner schema inner in Ok (lift1 t (fun d => D_Bool (negb (is_null d))))
  | E_IsTrue inner => let? t := compile_inner schema inner in Ok (lift1 t (fun d => D_Bool (is_true d)))
  | E_IsFalse inner => let? t := compile_inner schema inner in Ok (lift1 t (fun d => D_Bool (is_false d)))
  | E_AnyOp l op r =>
      any_scalar (compile_inner schema l) op
        match r with
        | E_Array elements => exec_all (map (compile_inner schema) elements)
        | E_Value (SV_SingleQuotedString t) => exec_map constants (parse_array_literal t)
        | _ => Err (EE_Unsupported "ANY over non-array expression")
        end
  | E_Cast kind inner data_type => cast_scalar kind (compile_inner schema inner) data_type
  | E_InList needle list negated => in_list_scalar (compile_inner schema needle) (map (compile_inner schema) list) negated
  | E_Between needle negated low high =>
      between_scalar (compile_inner schema needle) negated (compile_inner schema low) (compile_inner schema high)
  | E_Like negated false subject pattern escape =>
      like_scalar (compile_inner schema subject) (compile_inner schema pattern) escape negated false
  | E_ILike negated false subject pattern escape =>
      like_scalar (compile_inner schema subject) (compile_inner schema pattern) escape negated true
  | E_Like _ true _ _ _ | E_ILike _ true _ _ _ => Err (EE_Unsupported "expression")
  | E_IsDistinctFrom l r =>
      let? l := compile_inner schema l in let? r := compile_inner schema r in
      Ok (lift2 l r (fun a b => D_Bool (negb (null_safe_eq a b))))
  | E_IsNotDistinctFrom l r =>
      let? l := compile_inner schema l in let? r := compile_inner schema r in
      Ok (lift2 l r (fun a b => D_Bool (null_safe_eq a b)))
  | E_Case operand conditions results else_result =>
      case_scalar (option_map (compile_inner schema) operand) (map (compile_inner schema) conditions)
        (map (compile_inner schema) results) (option_map (compile_inner schema) else_result)
  | E_Array elements => array_scalar (map (compile_inner schema) elements)
  | E_Function name args =>
      function_scalar name
        match args with
        | FA_None => Ok []
        | FA_Subquery => Err (EE_Unsupported "subquery as function argument")
        | FA_List l => Ok (map (fun a => match a with Arg_Unnamed e => Some (compile_inner schema e) | Arg_Other => None end) l)
        end
  | E_Other => Err (EE_Unsupported "expression")
  end.

(** ** Type inference *)

(** The first type that is known. *)
Definition first_known (types : list ColumnType) : ColumnType :=
  default CT_Unknown (snd <$> list_find (fun t => t <> CT_Unknown) types).

Definition infer_arithmetic (l r : ColumnType) : ColumnType :=
  match l, r with
  | CT_Int, CT_Int => CT_Int
  | _, _ => if is_numeric l && is_numeric r then CT_Float else CT_Unknown
  end.

Definition infer_compound (schema : ScalarSchema) (parts : list text) : ColumnType :=
  let qualified := match parts with
    | [relation; column] => i ← index_of_qualified schema relation column; snd <$> sc_columns schema !! i
    | _ => None end in
  match qualified with
  | Some t => t
  | None => default CT_Unknown (name ← last parts; schema_column_type schema name)
  end.

Fixpoint infer_type (schema : ScalarSchema) (e : Expr) : ColumnType :=
  match e with
  | E_Nested inner => infer_type schema inner
  | E_Identifier name => default CT_Unknown (schema_column_type schema name)
  | E_CompoundIdentifier parts => infer_compound schema parts
  | E_Value (SV_Boolean _) => CT_Bool
  | E_Value (SV_Number n) => match parse_int I64_MIN I64_MAX n with Some _ => CT_Int | None => CT_Float end
  | E_Value (SV_SingleQuotedString _ | SV_DoubleQuotedString _) => CT_Text
  | E_Value _ => CT_Unknown
  | E_BinaryOp l op r =>
      match op with
      | BO_Eq | BO_NotEq | BO_Lt | BO_LtEq | BO_Gt | BO_GtEq | BO_And | BO_Or => CT_Bool
      | BO_Arrow => CT_Jsonb
      | BO_LongArrow | BO_StringConcat => CT_Text
      | BO_Plus | BO_Minus | BO_Multiply | BO_Divide | BO_Modulo =>
          infer_arithmetic (infer_type schema l) (infer_type schema r)
      | BO_Other => CT_Unknown
      end
  | E_UnaryOp op inner =>
      match op with
      | UO_Not => CT_Bool
      | UO_Minus | UO_Plus => infer_type schema inner
      | UO_Other => CT_Unknown
      end
  | E_IsNull _ | E_IsNotNull _ | E_IsTrue _ | E_IsFalse _ | E_IsDistinctFrom _ _ | E_IsNotDistinctFrom _ _
  | E_AnyOp _ _ _ | E_InList _ _ _ | E_Between _ _ _ _ | E_Like _ _ _ _ _ | E_ILike _ _ _ _ _ => CT_Bool
  | E_Case _ _ results else_result =>
      first_known (map (infer_type schema) results ++
        match else_result with Some e => [infer_type schema e] | None => [] end)
  | E_Cast _ _ data_type => default CT_Unknown (from_cast_target data_type)
  | E_Function name args =>
      let name := ascii_lower name in
      if decide (name = lit "cardinality") then CT_Int
      else if decide (name = lit "coalesce") then
        match args with
        | FA_List l => first_known (filter_map id (map (fun a =>
            match a with Arg_Unnamed e => Some (infer_type schema e) | Arg_Other => None end) l))
        | _ => CT_Unknown
        end
      else CT_Unknown
  | E_Array _ | E_Other => CT_Unknown
  end.

(** ** Entry points *)

Definition parse_expr (sql : text) : exec EvalError Expr := ok_or (sql_parse_expr sql) (EE_Parse sql).

Definition compile_scalar (sql : text) (schema : ScalarSchema) : compiled :=
  let? e := parse_expr sql in compile_inner schema e.

Definition compile_predicate (sql : text) (schema : ScalarSchema) : exec EvalError PredicateFn :=
  let? scalar := compile_scalar sql schema in
  Ok (fun row => let? d := scalar row in Ok (is_true d)).

Definition compile_typed_scalar (sql : text) (schema : ScalarSchema) : exec EvalError (ScalarFn * ColumnType) :=
  let? e := parse_expr sql in
  let? scalar := compile_inner schema e in
  let ty := infer_type schema e in
  Ok (match ty with
      | CT_Unknown | CT_Text => scalar
      | concrete => fun row => let? d := scalar row in cast_datum d concrete
      end, ty).

Fixpoint cast_label_inner (e : Expr) : option text :=
  match e with
  | E_Nested nested => cast_label_inner nested
  | E_Cast _ (E_Identifier name) _ => Some name
  | E_Cast _ (E_CompoundIdentifier parts) _ => last parts
  | _ => None
  end.
Definition cast_label (sql : text) : option text := e ← sql_parse_expr sql; cast_label_inner e.

Definition compile_int_extractor (arg : text) (schema : ScalarSchema) : exec EvalError (Row -> run Z) :=
  let trimmed := trim arg in
  if decide (trimmed = lit "*") then Ok (fun _ => Ok 0)
  else
    let? scalar := compile_scalar trimmed schema in
    Ok (fun row => let? d := scalar row in Ok (default 0 (as_int d))).
End Compile.
