(* ===== verification/EvalFacts.v ===== *)
(** * EvalFacts: what compiled expressions compute

    Well-formedness and types of results, the order behind [ORDER BY], and the
    meaning of predicates in SQL's three-valued logic. *)

From S2P Require Import Prelude BTree Text Values UserContext Literals Floats Datums Exprs Like Eval.

(** ** Induction over nested expressions *)

Section ExprInd.
Context (P : Expr -> Prop).
Definition arg_ok (a : FunctionArg Expr) : Prop := match a with Arg_Unnamed e => P e | Arg_Other => True end.
Definition args_ok (a : FunctionArguments Expr) : Prop := match a with FA_List l => Forall arg_ok l | _ => True end.
Definition opt_ok (o : option Expr) : Prop := match o with Some e => P e | None => True end.

(** The immediate sub-expressions. *)
Definition children_ok (e : Expr) : Prop :=
  match e with
  | E_Nested a | E_UnaryOp _ a | E_IsNull a | E_IsNotNull a | E_IsTrue a | E_IsFalse a | E_Cast _ a _ => P a
  | E_BinaryOp a _ b | E_IsDistinctFrom a b | E_IsNotDistinctFrom a b => P a /\ P b
  | E_AnyOp a _ b => P a /\ P b /\ match b with E_Array l => Forall P l | _ => True end
  | E_InList a l _ => P a /\ Forall P l
  | E_Between a _ b c => P a /\ P b /\ P c
  | E_Like _ _ a b _ | E_ILike _ _ a b _ => P a /\ P b
  | E_Case o cs rs e => opt_ok o /\ Forall P cs /\ Forall P rs /\ opt_ok e
  | E_Array l => Forall P l
  | E_Function _ args => args_ok args
  | E_Identifier _ | E_CompoundIdentifier _ | E_Value _ | E_Other => True
  end.

Hypothesis Hstep : forall e, children_ok e -> P e.

Fixpoint expr_ind' (e : Expr) : P e :=
  let fix go (l : list Expr) : Forall P l :=
    match l with [] => Forall_nil_2 P | x :: l' => Forall_cons_2 P x l' (expr_ind' x) (go l') end in
  let opt (o : option Expr) : opt_ok o := match o with Some e => expr_ind' e | None => I end in
  Hstep e
    match e return children_ok e with
    | E_Nested a | E_UnaryOp _ a | E_IsNull a | E_IsNotNull a | E_IsTrue a | E_IsFalse a | E_Cast _ a _ => expr_ind' a
    | E_BinaryOp a _ b | E_IsDistinctFrom a b | E_IsNotDistinctFrom a b => conj (expr_ind' a) (expr_ind' b)
    | E_AnyOp a _ b => conj (expr_ind' a) (conj (expr_ind' b) match b return match b with E_Array l => Forall P l | _ => True end with E_Array l => go l | _ => I end)
    | E_InList a l _ => conj (expr_ind' a) (go l)
    | E_Between a _ b c => conj (expr_ind' a) (conj (expr_ind' b) (expr_ind' c))
    | E_Like _ _ a b _ | E_ILike _ _ a b _ => conj (expr_ind' a) (expr_ind' b)
    | E_Case o cs rs e => conj (opt o) (conj (go cs) (conj (go rs) (opt e)))
    | E_Array l => go l
    | E_Function _ args =>
        match args return args_ok args with
        | FA_List l => (fix goa (l : list (FunctionArg Expr)) : Forall arg_ok l :=
            match l with
            | [] => Forall_nil_2 arg_ok
            | a :: l' => Forall_cons_2 arg_ok a l' match a return arg_ok a with Arg_Unnamed e => expr_ind' e | Arg_Other => I end (goa l')
            end) l
        | FA_None | FA_Subquery => I
        end
    | E_Identifier _ | E_CompoundIdentifier _ | E_Value _ | E_Other => I
    end.
End ExprInd.

Section Facts.
Context `{EvalRuntime}.

(** ** Well-formed results *)

Definition row_wf (row : Row) : Prop := Forall (fun d => datum_wf d = true) row.

(** A closure maps well-formed rows to well-formed datums. *)
Definition fn_wf (f : ScalarFn) : Prop := forall row d, row_wf row -> f row = Ok d -> datum_wf d = true.

Lemma fits_sint w z : 0 < w -> fits w (sint w z) = true.
Proof. intros Hw. pose proof (sint_range w z Hw). unfold fits. apply andb_true_iff. split; [apply Z.leb_le | apply Z.ltb_lt]; lia. Qed.

Lemma fits64 z : I64_MIN <= z <= I64_MAX -> fits 64 z = true.
Proof. unfold I64_MIN, I64_MAX, fits. intros. change (64 - 1) with 63. apply andb_true_iff. split; [apply Z.leb_le | apply Z.ltb_lt]; lia. Qed.

Lemma fits_range w z : fits w z = true -> - 2 ^ (w - 1) <= z < 2 ^ (w - 1).
Proof. unfold fits. intros [?%Z.leb_le ?%Z.ltb_lt]%andb_true_iff. lia. Qed.

Lemma ufits_iff w z : ufits w z = true <-> 0 <= z < 2 ^ w.
Proof. unfold ufits. rewrite andb_true_iff, Z.leb_le, Z.ltb_lt. done. Qed.

Lemma f64_to_bits_fits f : ufits 64 (f64_to_bits f) = true.
Proof. apply ufits_iff, (float_to_bits_range 52 11); lia. Qed.

Lemma neg_bits_fits mw ew z : 0 <= mw + ew -> ufits (mw + ew + 1) z = true -> ufits (mw + ew + 1) (neg_bits mw ew z) = true.
Proof.
  intros Hw [H0 H1]%ufits_iff. apply ufits_iff. unfold neg_bits. split.
  - apply Z.lxor_nonneg. split; [intros _; apply Z.pow_nonneg; lia | done].
  - assert (forall x, 0 <= x -> x < 2 ^ (mw + ew + 1) <-> forall i, mw + ew + 1 <= i -> Z.testbit x i = false) as Hbits.
    { intros x Hx. split.
      - intros Hlt i Hi. destruct (Z.eq_dec x 0) as [->|]; [apply Z.bits_0|].
        apply Z.bits_above_log2; [done|]. apply Z.log2_lt_pow2; [lia|]. eapply Z.lt_le_trans; [exact Hlt|]. apply Z.pow_le_mono_r; lia.
      - intros Hb. destruct (Z.eq_dec x 0) as [->|]; [apply Z.pow_pos_nonneg; lia|].
        apply Z.log2_lt_pow2; [lia|]. destruct (Z.lt_ge_cases (Z.log2 x) (mw + ew + 1)) as [|Hge]; [done|].
        specialize (Hb (Z.log2 x) Hge). rewrite Z.bit_log2 in Hb by lia. done. }
    apply Hbits.
    + apply Z.lxor_nonneg. split; [intros _; apply Z.pow_nonneg; lia | done].
    + intros i Hi. rewrite Z.lxor_spec, (proj1 (Hbits z H0) H1 i Hi), Z.pow2_bits_false by lia. done.
Qed.

Lemma row_get_wf row i : row_wf row -> datum_wf (row_get row i) = true.
Proof. intros Hr. unfold row_get. destruct (row !! i) as [d|] eqn:E; [|done]. by eapply (Forall_lookup_1 _ _ _ _ Hr). Qed.

Lemma int_arithmetic_range op x y z :
  fits 64 x = true -> fits 64 y = true -> int_arithmetic op x y = Some z -> fits 64 z = true.
Proof.
  intros Hx%fits_range Hy%fits_range. assert (forall z, in_i64 z = Some z -> fits 64 z = true) as Hin.
  { intros v. unfold in_i64. destruct (_ && _) eqn:E; [|done]. intros _. apply andb_true_iff in E. apply fits64. lia. }
  assert (forall v, in_i64 v = Some z -> fits 64 z = true) as Hin'.
  { intros v Hv. apply Hin. unfold in_i64 in *. destruct (_ && _) eqn:E; [|done]. injection Hv as <-. by rewrite E. }
  destruct op; simpl; try done; eauto.
  - destruct (y =? 0); [done | eauto].
  - destruct (Z.eqb_spec y 0); [done|]. simpl. destruct (_ && _); [done|]. intros [= <-].
    apply fits64. change (64 - 1) with 63 in *. unfold I64_MIN, I64_MAX.
    pose proof (Z.rem_bound_abs x y ltac:(done)). lia.
Qed.

Lemma as_int_fits d z : datum_wf d = true -> as_int d = Some z -> fits 64 z = true.
Proof.
  destruct d; try done; simpl; intros Hf [= ->]; [| |done]; apply fits_range in Hf; apply fits64; unfold I64_MIN, I64_MAX;
    cbn in Hf; lia.
Qed.

Lemma round_to_i64_fits f : fits 64 (round_to_i64 f) = true.
Proof.
  apply fits64. unfold round_to_i64. destruct f as [s|s| |s m e]; [|destruct s| |destruct s]; unfold I64_MIN, I64_MAX; lia.
Qed.

Lemma arithmetic_wf op a b :
  datum_wf a = true -> datum_wf b = true -> datum_wf (arithmetic_datums op a b) = true.
Proof.
  intros Ha Hb. unfold arithmetic_datums. destruct (as_int a) as [x|] eqn:Ea, (as_int b) as [y|] eqn:Eb;
    try (destruct (as_f64 a), (as_f64 b); try done; destruct (float_arithmetic _ _ _); [apply f64_to_bits_fits | done]).
  destruct (int_arithmetic op x y) eqn:E; [|done]. simpl. exact (int_arithmetic_range op x y z (as_int_fits a x Ha Ea) (as_int_fits b y Hb Eb) E).
Qed.

Lemma negate_wf d : datum_wf d = true -> datum_wf (negate_datum d) = true.
Proof.
  destruct d; try done; cbn [negate_datum datum_wf]; intros Hd; try (by apply fits_sint).
  - by apply (neg_bits_fits 23 8).
  - by apply (neg_bits_fits 52 11).
Qed.

Lemma uuid_parse_wf raw u : parse_uuid_text raw = Some u -> datum_wf (D_Uuid u) = true.
Proof.
  assert (forall n l bs, uuid_slots n l = Some bs -> length bs = n) as Hn.
  { induction n as [|n IH]; intros l bs; simpl; [by destruct l; intros [= <-]|].
    destruct l as [|h [|l r]]; try done. destruct (hex_nibble h); [|done]. destruct (hex_nibble l); [|done]. simpl.
    destruct (uuid_slots n r) eqn:E; [|done]. intros [= <-]. simpl. by erewrite IH. }
  unfold parse_uuid_text, uuid_parse_text. destruct (utf8_valid raw); [|done].
  cbv zeta. case_match; [|done]. intros (bs & Hb & ->)%fmap_Some. simpl. apply Nat.eqb_eq. by eapply Hn.
Qed.

(** Temporal literals are in range: the decoders wrap. *)
Lemma decode_temporal_wf ty bytes d :
  ty ∈ [T_Date; T_Time; T_Timestamp; T_TimestampTz; T_Interval] ->
  decode_text f32_parse f64_parse ty bytes = Ok d -> datum_wf d = true.
Proof.
  assert (forall t n, parse_hms_micros t = Some n -> fits 64 n = true) as Hhms.
  { intros t n. unfold parse_hms_micros. destruct (split x3a t) as [|h [|m [|s [|]]]]; try done.
    destruct (parse_int _ _ h); [|done]. destruct (parse_int _ _ m); [|done]. simpl.
    destruct (match split_once x2e s with Some _ => _ | None => _ end) as [[secs us]|]; [|done]. simpl.
    intros [= <-]. by apply fits_sint. }
  assert (forall w parts us n, fits 64 us = true -> parse_interval_parts w us parts = Ok n -> fits 64 n = true) as Hint.
  { intros w parts. remember (length parts) as k eqn:Hk. revert parts Hk.
    induction k as [k IH] using lt_wf_ind. intros parts Hk us n Hus. destruct parts as [|p rest]; [by intros [= <-]|].
    cbn [parse_interval_parts]. destruct (parse_int _ _ p).
    - destruct rest as [|u rest]; [done|]. simpl in Hk.
      repeat (destruct (starts_with _ _); [apply (IH (length rest)); [lia | done | by apply fits_sint]|]). done.
    - destruct (contains_byte _ _); [|done]. destruct (parse_hms_micros p); [|done]. simpl.
      apply (IH (length rest)); [simpl in Hk; lia | done | by apply fits_sint]. }
  assert (forall t v, parse_date t = Ok v -> fits 32 (days_since_unix_epoch v) = true) as Hdate.
  { intros t v. unfold parse_date. intros ([[y m] dd] & _ & Hv)%exec_bind_ok. apply exec_bind_ok in Hv as (n & Hn & [= <-]).
    unfold days_from_civil in Hn. destruct (_ <? _); [done|]. destruct (_ <? _); [done|]. injection Hn as <-. by apply fits_sint. }
  assert (forall t v, parse_time t = Ok v -> fits 64 (micros_since_midnight v) = true) as Htime.
  { intros t v. unfold parse_time. destruct (parse_hms_micros t) as [us|] eqn:E; [|done]. intros [= <-]. by eapply Hhms. }
  assert (forall t v, parse_timestamp t = Ok v -> fits 64 (ts_micros_since_unix_epoch v) = true) as Hts.
  { intros t v. unfold parse_timestamp. intros ([dt tm] & _ & Hv)%exec_bind_ok.
    apply exec_bind_ok in Hv as (? & _ & Hv). apply exec_bind_ok in Hv as (? & _ & [= <-]). by apply fits_sint. }
  intros Hty. unfold decode_text. repeat (apply elem_of_cons in Hty as [->|Hty]; [destruct (utf8_valid bytes); [|done];
    intros (v & Hv & [= <-])%exec_bind_ok; cbn [datum_wf]|]); [..|by apply elem_of_nil in Hty].
  - by eapply Hdate.
  - by eapply Htime.
  - by eapply Hts.
  - unfold parse_timestamp_tz in Hv. apply exec_bind_ok in Hv as (ts & Hts' & [= <-]). by eapply Hts.
  - unfold parse_interval in Hv. apply exec_bind_ok in Hv as (us & Hus & [= <-]). simpl. by rewrite (Hint _ _ 0 us eq_refl Hus).
Qed.

(** ** Types of results *)

(** The datums a column advertised with a type may hold besides NULL, as the wire schema tells them apart. *)
Definition datum_has_type (ty : ColumnType) (d : Datum) : bool :=
  match ty, d with
  | _, D_Null => true
  | CT_Bool, D_Bool _ | CT_Int, D_I64 _ | CT_Float, D_F64 _ | (CT_Text | CT_Enum), D_Text _
  | CT_Timestamp, D_Timestamp _ | CT_TimestampTz, D_TimestampTz _ | CT_Date, D_Date _ | CT_Time, D_Time _
  | CT_Interval, D_Interval _ | CT_Numeric, D_Numeric _ | CT_Bytea, D_Bytea _ | CT_Uuid, D_Uuid _
  | CT_Jsonb, D_Jsonb _ | CT_Array, D_Array _ | CT_Unknown, _ => true
  | _, _ => false
  end.

Lemma decode_temporal_type ty bytes d :
  decode_text f32_parse f64_parse ty bytes = Ok d ->
  match ty with
  | T_Date => datum_has_type CT_Date d
  | T_Time => datum_has_type CT_Time d
  | T_Interval => datum_has_type CT_Interval d
  | _ => true
  end = true.
Proof.
  destruct ty; try done; simpl; (destruct (utf8_valid bytes); [|done]); intros (v & _ & [= <-])%exec_bind_ok; done.
Qed.

Lemma parse_temporal_ok ty bytes d :
  parse_temporal_text (D_Text bytes) ty = Ok d ->
  d = D_Null \/ decode_text f32_parse f64_parse ty bytes = Ok d.
Proof. simpl. destruct (decode_text _ _ ty bytes); intros [= <-]; auto. Qed.

Lemma utf8_opt_some bytes t : utf8_opt bytes = Some t -> t = bytes.
Proof. unfold utf8_opt. destruct (utf8_valid bytes); [by intros [= ->] | done]. Qed.

(** The targets a cast converts to: a timestamp of the other kind passes a timestamp cast unchanged. *)
Definition converts (ty : ColumnType) : bool := match ty with CT_Timestamp | CT_TimestampTz => false | _ => true end.

Lemma cast_datum_type d ty d' : converts ty = true -> cast_datum d ty = Ok d' -> datum_has_type ty d' = true.
Proof.
  intros Hc. assert (forall {A} (f : A -> Datum) (o : option A) ty, (forall a, datum_has_type ty (f a) = true) ->
    datum_has_type ty (or_null f o) = true) as Hor by (intros A f [a|] ty' Hf; [apply Hf | by destruct ty']).
  assert (forall bytes k r, parse_temporal_text (D_Text bytes) k = Ok r ->
    r = D_Null \/ match k with T_Date => datum_has_type CT_Date r | T_Time => datum_has_type CT_Time r
      | T_Interval => datum_has_type CT_Interval r | _ => true end = true)
    as Htemp by (intros bytes k r [->|Hd]%parse_temporal_ok; [by left | right; by apply (decode_temporal_type k bytes)]).
  unfold cast_datum. destruct (is_null d); [intros [= <-]; by destruct ty|].
  destruct ty, d; try discriminate Hc; try (intros [= <-]; done); try (intros [= <-]; by apply Hor);
    try (by intros [->|Hd]%Htemp).
  intros [= <-]. unfold cast_bool. by repeat case_match.
Qed.

Lemma cast_datum_wf d ty d' : datum_wf d = true -> cast_datum d ty = Ok d' -> datum_wf d' = true.
Proof.
  intros Hd. assert (forall bytes k r, k ∈ [T_Date; T_Time; T_Timestamp; T_TimestampTz; T_Interval] ->
    parse_temporal_text (D_Text bytes) k = Ok r -> datum_wf r = true) as Htemp.
  { intros bytes k r Hk [->|Hr]%parse_temporal_ok; [done | by eapply decode_temporal_wf]. }
  unfold cast_datum. destruct (is_null d); [by intros [= <-]|].
  destruct ty, d; try (by intros [= <-]); try (by intros [= <-]; apply fits_sint);
    try (by intros [= <-]; apply round_to_i64_fits); try (by intros [= <-]; apply f64_to_bits_fits);
    try (by apply Htemp; set_solver); try (by intros [= <-]; destruct (datum_display_text _));
    intros [= <-]; try (by destruct (utf8_valid _)).
  - unfold cast_bool. by repeat case_match.
  - by destruct b.
  - exact (as_int_fits (D_I16 z) z Hd eq_refl).
  - exact (as_int_fits (D_I32 z) z Hd eq_refl).
  - simpl. destruct (utf8_opt t ≫= _) as [v|] eqn:E; [|done]. apply bind_Some in E as (u & _ & Hv).
    apply parse_radix_range in Hv. by apply fits64.
  - simpl. destruct (utf8_opt t ≫= _) as [v|] eqn:E; [|done]. apply bind_Some in E as (u & _ & Hv).
    apply ufits_iff. by apply f64_parse_range in Hv.
  - destruct (parse_uuid_text t) eqn:E; [|done]. exact (uuid_parse_wf _ _ E).
Qed.

(** ** Compiled closures keep rows well-formed *)

(** A compiled expression that compiles gives a closure satisfying [P]. *)
Definition compiles_to (P : ScalarFn -> Prop) (c : exec EvalError ScalarFn) : Prop := forall f, c = Ok f -> P f.

Lemma exec_all_ok (P : ScalarFn -> Prop) l fs :
  Forall (compiles_to P) l -> exec_all l = Ok fs -> Forall P fs.
Proof.
  intros Hl Hfs%exec_mapM_ok. induction Hfs as [|c f l fs Hc _ IH]; [done|].
  inversion Hl; subst. constructor; auto.
Qed.

Lemma exec_transpose_ok (P : ScalarFn -> Prop) o r :
  from_option (compiles_to P) True o -> exec_transpose o = Ok r -> from_option P True r.
Proof. destruct o as [c|]; simpl; [|by intros _ [= <-]]. intros Hc (f & Hf & [= <-])%exec_bind_ok. by apply Hc. Qed.

Lemma lift1_wf f g : fn_wf f -> (forall d, datum_wf d = true -> datum_wf (g d) = true) -> fn_wf (lift1 f g).
Proof. intros Hf Hg row d Hr (a & Ha & [= <-])%exec_bind_ok. by eapply Hg, Hf. Qed.

Lemma lift2_wf l r g :
  fn_wf l -> fn_wf r -> (forall a b, datum_wf a = true -> datum_wf b = true -> datum_wf (g a b) = true) ->
  fn_wf (lift2 l r g).
Proof.
  intros Hl Hr Hg row d Hrow (a & Ha & Hd)%exec_bind_ok. apply exec_bind_ok in Hd as (b & Hb & [= <-]).
  apply Hg; [by eapply Hl | by eapply Hr].
Qed.

Lemma json_extract_wf document key as_text : datum_wf (json_extract document key as_text) = true.
Proof. unfold json_extract. by repeat case_match. Qed.

Lemma datum_cmp_bool_wf a b pick : datum_wf (datum_cmp_bool a b pick) = true.
Proof. unfold datum_cmp_bool. by case_match. Qed.

Lemma concat_wf a b : datum_wf (concat_datums a b) = true.
Proof. unfold concat_datums. by repeat case_match. Qed.

Lemma like_datums_wf escape negated ci a b : datum_wf (like_datums escape negated ci a b) = true.
Proof. unfold like_datums. by destruct a, b; repeat case_match. Qed.

Lemma cardinality_wf d : datum_wf (cardinality_datum d) = true.
Proof.
  destruct d; try done. simpl. apply fits64. unfold I64_MIN, I64_MAX. split; [|lia].
  apply Z.min_glb; lia.
Qed.

Lemma case_loop_wf operand branches otherwise row d :
  row_wf row -> Forall fn_wf branches.*2 -> (forall d, otherwise = Ok d -> datum_wf d = true) ->
  case_loop operand branches otherwise row = Ok d -> datum_wf d = true.
Proof.
  intros Hr Hb Ho. induction branches as [|[c r] rest IH]; simpl; [by apply Ho|]. inversion Hb; subst.
  intros (hit & _ & Hd)%exec_bind_ok. destruct hit; eauto.
Qed.

Lemma coalesce_loop_wf args : Forall fn_wf args -> fn_wf (coalesce_loop args).
Proof.
  intros Ha row d Hr. induction Ha as [|f fs Hf _ IH]; simpl; [by intros [= <-]|].
  intros (v & Hv & Hd)%exec_bind_ok. destruct (is_null v); [auto|]. injection Hd as <-. by eapply Hf.
Qed.

Create HintDb wf.
Hint Resolve lift1_wf lift2_wf arithmetic_wf negate_wf json_extract_wf datum_cmp_bool_wf concat_wf like_datums_wf
  cardinality_wf coalesce_loop_wf : wf.

Lemma binary_wf l op r :
  compiles_to fn_wf l -> compiles_to fn_wf r -> compiles_to fn_wf (binary_scalar l op r).
Proof.
  intros Hl Hr f (fl & El & Hf)%exec_bind_ok. apply exec_bind_ok in Hf as (fr & Er & Hf). apply Hl in El. apply Hr in Er.
  destruct op; try discriminate Hf; injection Hf as <-; auto with wf; intros row d Hrow (lv & Hlv & Hd)%exec_bind_ok;
    destruct (is_true lv); simpl in Hd; try (by injection Hd as <-); apply exec_bind_ok in Hd as (rv & _ & [= <-]); done.
Qed.

Lemma value_wf v : compiles_to fn_wf (value_scalar v).
Proof.
  intros f. destruct v; simpl; try (intros [= <-] row d Hr [= <-]; done).
  destruct (parse_int _ _ n) eqn:E; [|destruct (f64_parse n) eqn:F; [|done]]; intros [= <-] row d Hr [= <-]; simpl.
  - apply fits64. by eapply parse_radix_range.
  - apply ufits_iff. by eapply f64_parse_range.
Qed.

Lemma identifier_wf name schema : compiles_to fn_wf (identifier_scalar name schema).
Proof. intros f (i & _ & [= <-])%exec_bind_ok row d Hr [= <-]. by apply row_get_wf. Qed.

Lemma function_wf name args :
  (forall l, args = Ok l -> Forall (from_option (compiles_to fn_wf) True) l) -> compiles_to fn_wf (function_scalar name args).
Proof.
  intros Ha f (l & Hl & Hf)%exec_bind_ok. apply exec_bind_ok in Hf as (cs & Hcs & Hf). apply Ha in Hl.
  assert (Forall (compiles_to fn_wf) cs) as Hwf.
  { apply exec_mapM_ok in Hcs. clear Hf Ha. induction Hcs as [|[a|] b l cs Hb _ IH]; [done| |done].
    injection Hb as <-. inversion Hl; subst. constructor; auto. }
  cbv zeta in Hf. repeat case_decide; [| |done].
  - apply exec_bind_ok in Hf as (fs & Hfs & [= <-]). apply coalesce_loop_wf. by eapply exec_all_ok.
  - destruct cs as [|c [|]]; try done. apply exec_bind_ok in Hf as (e & He & [= <-]).
    inversion Hwf; subst. auto with wf.
Qed.

Lemma case_wf operand conditions results else_result :
  Forall (compiles_to fn_wf) results -> from_option (compiles_to fn_wf) True else_result ->
  compiles_to fn_wf (case_scalar operand conditions results else_result).
Proof.
  intros Hr He f (op & _ & Hf)%exec_bind_ok. apply exec_bind_ok in Hf as (cs & _ & Hf).
  apply exec_bind_ok in Hf as (rs & Hrs & Hf). apply exec_bind_ok in Hf as (el & Hel & [= <-]).
  intros row d Hrow. apply case_loop_wf; [done| |].
  - apply (exec_all_ok _ _ _ Hr) in Hrs. apply Forall_forall. intros x ([y z] & -> & Hin)%list_elem_of_fmap.
    apply list_elem_of_In, in_combine_r, list_elem_of_In in Hin. by eapply Forall_forall in Hrs.
  - apply (exec_transpose_ok _ _ _ He) in Hel. intros d'. destruct el; [by apply Hel | by intros [= <-]].
Qed.

(** Results that are always booleans. *)
Lemma bool_fn_wf (f : ScalarFn) : (forall row d, f row = Ok d -> exists b, d = D_Bool b) -> fn_wf f.
Proof. intros Hf row d _ Hd. by apply Hf in Hd as (b & ->). Qed.

Lemma in_list_bool needle l negated :
  compiles_to (fun f => forall row d, f row = Ok d -> exists b, d = D_Bool b) (in_list_scalar needle l negated).
Proof.
  intros f (n & _ & Hf)%exec_bind_ok. apply exec_bind_ok in Hf as (es & _ & [= <-]). intros row d (v & _ & Hd)%exec_bind_ok.
  destruct (is_null v); [injection Hd as <-; eauto|]. apply exec_bind_ok in Hd as ([hit sn] & _ & [= <-]). eauto.
Qed.

Lemma between_bool needle negated low high :
  compiles_to (fun f => forall row d, f row = Ok d -> exists b, d = D_Bool b) (between_scalar needle negated low high).
Proof.
  intros f (n & _ & Hf)%exec_bind_ok. apply exec_bind_ok in Hf as (lo & _ & Hf). apply exec_bind_ok in Hf as (hi & _ & [= <-]).
  intros row d (v & _ & Hd)%exec_bind_ok. apply exec_bind_ok in Hd as (? & _ & Hd). apply exec_bind_ok in Hd as (? & _ & Hd).
  destruct (_ || _ || _); injection Hd as <-; eauto.
Qed.

Lemma any_bool l op es :
  compiles_to (fun f => forall row d, f row = Ok d -> exists b, d = D_Bool b) (any_scalar l op es).
Proof.
  intros f (n & _ & Hf)%exec_bind_ok. apply exec_bind_ok in Hf as (fs & _ & Hf). apply exec_bind_ok in Hf as (? & _ & [= <-]).
  intros row d (v & _ & Hd)%exec_bind_ok. apply exec_bind_ok in Hd as (? & _ & [= <-]). eauto.
Qed.

Lemma compile_inner_wf schema e : compiles_to fn_wf (compile_inner schema e).
Proof.
  induction e as [e IH] using expr_ind'. destruct e; simpl in IH; cbn [compile_inner].
  - done.
  - apply identifier_wf.
  - unfold compound_scalar. cbv zeta. destruct (match parts with [_; _] => _ | _ => _ end);
      [intros f [= <-] row d Hr [= <-]; by apply row_get_wf | destruct (last parts); [apply identifier_wf | done]].
  - apply value_wf.
  - destruct IH. by apply binary_wf.
  - intros f (g & Hg & Hf)%exec_bind_ok. apply IH in Hg. destruct op; try discriminate Hf; injection Hf as <-; auto with wf.
    apply lift1_wf; [done|]. by intros [].
  - intros f (g & Hg & [= <-])%exec_bind_ok. auto with wf.
  - intros f (g & Hg & [= <-])%exec_bind_ok. auto with wf.
  - intros f (g & Hg & [= <-])%exec_bind_ok. auto with wf.
  - intros f (g & Hg & [= <-])%exec_bind_ok. auto with wf.
  - intros f Hf. by eapply bool_fn_wf, any_bool.
  - intros f. destruct kind; simpl; [| |done]; intros (t & _ & Hf)%exec_bind_ok;
      apply exec_bind_ok in Hf as (g & Hg & [= <-]); intros row d Hr (a & Ha & Hd)%exec_bind_ok;
      (eapply cast_datum_wf; [|exact Hd]); by eapply IH.
  - intros f Hf. by eapply bool_fn_wf, in_list_bool.
  - intros f Hf. by eapply bool_fn_wf, between_bool.
  - destruct any; [done|]. destruct IH as [Hs Hp]. intros f (a & Ha & Hf)%exec_bind_ok. apply exec_bind_ok in Hf as (b & Hb & Hf).
    apply exec_bind_ok in Hf as (esc & _ & [= <-]). auto with wf.
  - destruct any; [done|]. destruct IH as [Hs Hp]. intros f (a & Ha & Hf)%exec_bind_ok. apply exec_bind_ok in Hf as (b & Hb & Hf).
    apply exec_bind_ok in Hf as (esc & _ & [= <-]). auto with wf.
  - destruct IH. intros f (a & Ha & Hf)%exec_bind_ok. apply exec_bind_ok in Hf as (b & Hb & [= <-]). auto with wf.
  - destruct IH. intros f (a & Ha & Hf)%exec_bind_ok. apply exec_bind_ok in Hf as (b & Hb & [= <-]). auto with wf.
  - destruct IH as (_ & _ & Hr & He). apply case_wf; [by apply Forall_map | by destruct else_result].
  - intros f (fs & _ & [= <-])%exec_bind_ok row d _ (items & _ & [= <-])%exec_bind_ok. done.
  - apply function_wf. intros l Hl. destruct args as [| |l']; simpl in *; [by injection Hl as <- | done|]. injection Hl as <-.
    apply Forall_map. eapply Forall_impl; [exact IH|]. by intros [].
  - done.
Qed.

(** ** Compiled closures return *)

Definition returns (f : ScalarFn) : Prop := forall row, exists d, f row = Ok d.

(** Casts written in an expression never reach the decoders of dates and times. *)
Lemma cast_target_returns data_type target d : from_cast_target data_type = Some target -> exists d', cast_datum d target = Ok d'.
Proof. intros Ht. unfold cast_datum. destruct (is_null d); [eauto|]. destruct data_type; try discriminate Ht; injection Ht as <-; eauto. Qed.

Lemma lift1_returns f g : returns f -> returns (lift1 f g).
Proof. intros Hf row. destruct (Hf row) as (a & Ha). exists (g a). unfold lift1. by rewrite Ha. Qed.

Lemma lift2_returns l r g : returns l -> returns r -> returns (lift2 l r g).
Proof. intros Hl Hr row. destruct (Hl row) as (a & Ha), (Hr row) as (b & Hb). exists (g a b). unfold lift2. by rewrite Ha; simpl; rewrite Hb. Qed.

Lemma in_list_loop_returns value fs row sn : Forall returns fs -> exists r, in_list_loop value fs row sn = Ok r.
Proof.
  intros Hf. revert sn. induction Hf as [|f fs Hf _ IH]; intros sn; simpl; [eauto|].
  destruct (Hf row) as (d & ->). simpl. destruct (is_null d); [apply IH|]. destruct (datum_eq value d); [eauto | apply IH].
Qed.

Lemma any_loop_returns op lv fs row : Forall returns fs -> exists r, any_loop op lv fs row = Ok r.
Proof.
  induction 1 as [|f fs Hf _ IH]; simpl; [eauto|]. destruct (Hf row) as (d & ->). simpl. case_bool_decide; eauto.
Qed.

Lemma case_loop_returns operand branches otherwise row :
  from_option returns True operand -> Forall returns branches.*1 -> Forall returns branches.*2 -> (exists d, otherwise = Ok d) ->
  exists d, case_loop operand branches otherwise row = Ok d.
Proof.
  intros Hop Hc Hr Ho. induction branches as [|[c r] rest IH]; simpl; [done|]. inversion Hc; inversion Hr; subst.
  assert (exists hit : bool, match operand with
    | Some operand => let? a := operand row in let? b := c row in Ok (datum_eq a b)
    | None => let? v := c row in Ok (is_true v) end = (Ok hit : run bool)) as (hit & ->).
  { destruct (H2 row) as (v & ->). destruct operand as [o|]; simpl; [destruct (Hop row) as (w & ->); simpl|]; eauto. }
  simpl. destruct hit; auto.
Qed.

Lemma coalesce_loop_returns fs : Forall returns fs -> returns (coalesce_loop fs).
Proof. intros Hf row. induction Hf as [|f fs Hf _ IH]; simpl; [eauto|]. destruct (Hf row) as (d & ->). simpl. destruct (is_null d); eauto. Qed.

Lemma mapM_returns (fs : list ScalarFn) row : Forall returns fs -> exists ds, exec_mapM (fun f => f row) fs = Ok ds.
Proof. induction 1 as [|f fs Hf _ (ds & IH)]; simpl; [eauto|]. destruct (Hf row) as (d & ->). simpl. rewrite IH. simpl. eauto. Qed.

Hint Resolve lift1_returns lift2_returns coalesce_loop_returns : wf.

Lemma binary_returns l op r : compiles_to returns l -> compiles_to returns r -> compiles_to returns (binary_scalar l op r).
Proof.
  intros Hl Hr f (fl & El & Hf)%exec_bind_ok. apply exec_bind_ok in Hf as (fr & Er & Hf). apply Hl in El. apply Hr in Er.
  destruct op; try discriminate Hf; injection Hf as <-; auto with wf; intros row;
    destruct (El row) as (lv & ->), (Er row) as (rv & ->); simpl; destruct (is_true lv); simpl; eauto.
Qed.

Lemma function_returns name args :
  (forall l, args = Ok l -> Forall (from_option (compiles_to returns) True) l) -> compiles_to returns (function_scalar name args).
Proof.
  intros Ha f (l & Hl & Hf)%exec_bind_ok. apply exec_bind_ok in Hf as (cs & Hcs & Hf). apply Ha in Hl.
  assert (Forall (compiles_to returns) cs) as Hwf.
  { apply exec_mapM_ok in Hcs. clear Hf Ha. induction Hcs as [|[a|] b l cs Hb _ IH]; [done| |done].
    injection Hb as <-. inversion Hl; subst. constructor; auto. }
  cbv zeta in Hf. repeat case_decide; [| |done].
  - apply exec_bind_ok in Hf as (fs & Hfs & [= <-]). apply coalesce_loop_returns. by eapply exec_all_ok.
  - destruct cs as [|c [|]]; try done. apply exec_bind_ok in Hf as (e & He & [= <-]).
    inversion Hwf; subst. auto with wf.
Qed.

Lemma combine_fmap {A B} (l : list A) (k : list B) (P : A -> Prop) (Q : B -> Prop) :
  Forall P l -> Forall Q k -> Forall P (combine l k).*1 /\ Forall Q (combine l k).*2.
Proof.
  intros Hl. revert k. induction Hl as [|a l Ha _ IH]; intros k Hk; [by destruct k|]. destruct Hk as [|b k Hb Hk]; [done|].
  destruct (IH k Hk). simpl. auto.
Qed.

Lemma case_returns operand conditions results else_result :
  from_option (compiles_to returns) True operand -> Forall (compiles_to returns) conditions ->
  Forall (compiles_to returns) results -> from_option (compiles_to returns) True else_result ->
  compiles_to returns (case_scalar operand conditions results else_result).
Proof.
  intros Ho Hc Hr He f (op & Hop & Hf)%exec_bind_ok. apply exec_bind_ok in Hf as (cs & Hcs & Hf).
  apply exec_bind_ok in Hf as (rs & Hrs & Hf). apply exec_bind_ok in Hf as (el & Hel & [= <-]).
  apply (exec_transpose_ok _ _ _ Ho) in Hop. apply (exec_transpose_ok _ _ _ He) in Hel.
  apply (exec_all_ok _ _ _ Hc) in Hcs. apply (exec_all_ok _ _ _ Hr) in Hrs. destruct (combine_fmap cs rs _ _ Hcs Hrs).
  intros row. apply case_loop_returns; try done. destruct el; [apply Hel | eauto].
Qed.

Lemma constants_returns ds : Forall returns (constants ds).
Proof. apply Forall_map, Forall_true. intros d row. simpl. eauto. Qed.

Lemma compile_inner_returns schema e : compiles_to returns (compile_inner schema e).
Proof.
  induction e as [e IH] using expr_ind'. destruct e; simpl in IH; cbn [compile_inner];
    try (intros f (g & Hg & [= <-])%exec_bind_ok; by auto with wf).
  - done.
  - intros f (i & _ & [= <-])%exec_bind_ok row. eauto.
  - unfold compound_scalar, identifier_scalar. cbv zeta. destruct (match parts with [_; _] => _ | _ => _ end);
      [intros f [= <-] row; eauto | destruct (last parts); [intros f (i & _ & [= <-])%exec_bind_ok row; eauto | done]].
  - intros f. destruct v; simpl; try (intros [= <-] row; by eauto).
    repeat case_match; try done; intros [= <-] row; eauto.
  - destruct IH. by apply binary_returns.
  - intros f (g & Hg & Hf)%exec_bind_ok. apply IH in Hg. destruct op; try discriminate Hf; injection Hf as <-; auto with wf.
  - destruct IH as (Hl & Hr & Hel). intros f (g & Hg & Hf)%exec_bind_ok. apply exec_bind_ok in Hf as (fs & Hfs & Hf).
    apply exec_bind_ok in Hf as (b & _ & [= <-]). assert (Forall returns fs) as Htot.
    { destruct e2; try discriminate Hfs; [|by eapply exec_all_ok, Hfs; apply Forall_map].
      destruct v; try discriminate Hfs. apply exec_bind_ok in Hfs as (ds & _ & [= <-]). apply constants_returns. }
    intros row. destruct (Hl _ Hg row) as (lv & ->). simpl. destruct (any_loop_returns op lv fs row Htot) as (h & ->). simpl. eauto.
  - intros f. destruct kind; simpl; [| |done]; intros (t & Ht & Hf)%exec_bind_ok;
      apply exec_bind_ok in Hf as (g & Hg & [= <-]); intros row; destruct (IH _ Hg row) as (d & ->); simpl;
      (destruct (from_cast_target data_type) eqn:E; [|done]); injection Ht as <-; by eapply cast_target_returns.
  - destruct IH as [Hn Hl]. intros f (g & Hg & Hf)%exec_bind_ok. apply exec_bind_ok in Hf as (fs & Hfs & [= <-]).
    apply (exec_all_ok returns) in Hfs; [|by apply Forall_map]. intros row. destruct (Hn _ Hg row) as (v & ->). simpl.
    destruct (is_null v); [eauto|]. destruct (in_list_loop_returns v fs row false Hfs) as ([hit sn] & ->). simpl. eauto.
  - destruct IH as (Hn & Hl & Hh). intros f (g & Hg & Hf)%exec_bind_ok. apply exec_bind_ok in Hf as (lo & Hlo & Hf).
    apply exec_bind_ok in Hf as (hi & Hhi & [= <-]). intros row.
    destruct (Hn _ Hg row) as (v & ->), (Hl _ Hlo row) as (a & ->), (Hh _ Hhi row) as (b & ->). simpl.
    destruct (_ || _ || _); eauto.
  - destruct any; [done|]. destruct IH as [Hs Hp]. intros f (a & Ha & Hf)%exec_bind_ok. apply exec_bind_ok in Hf as (b & Hb & Hf).
    apply exec_bind_ok in Hf as (esc & _ & [= <-]). auto with wf.
  - destruct any; [done|]. destruct IH as [Hs Hp]. intros f (a & Ha & Hf)%exec_bind_ok. apply exec_bind_ok in Hf as (b & Hb & Hf).
    apply exec_bind_ok in Hf as (esc & _ & [= <-]). auto with wf.
  - destruct IH. intros f (a & Ha & Hf)%exec_bind_ok. apply exec_bind_ok in Hf as (b & Hb & [= <-]). auto with wf.
  - destruct IH. intros f (a & Ha & Hf)%exec_bind_ok. apply exec_bind_ok in Hf as (b & Hb & [= <-]). auto with wf.
  - destruct IH as (Ho & Hc & Hr & He). apply case_returns; [by destruct operand | by apply Forall_map | by apply Forall_map | by destruct else_result].
  - intros f (fs & Hfs & [= <-])%exec_bind_ok row. apply (exec_all_ok returns) in Hfs; [|by apply Forall_map].
    destruct (mapM_returns fs row Hfs) as (ds & ->). simpl. eauto.
  - apply function_returns. intros l Hl. destruct args as [| |l']; simpl in *; [by injection Hl as <- | done|]. injection Hl as <-.
    apply Forall_map. eapply Forall_impl; [exact IH|]. by intros [].
  - done.
Qed.

(** ** Inference *)

(** What a stored column of a type holds: integers and floats of any width, json or jsonb. *)
Definition conforms (ty : ColumnType) (d : Datum) : bool :=
  match ty, d with
  | CT_Int, (D_I16 _ | D_I32 _) | CT_Float, D_F32 _ | CT_Jsonb, D_Json _ => true
  | CT_Enum, D_Text t => utf8_valid t
  | _, _ => datum_has_type ty d
  end.
Definition row_conforms (schema : ScalarSchema) (row : Row) : Prop :=
  forall i name ty, sc_columns schema !! i = Some (name, ty) -> conforms ty (row_get row i) = true.

(** Expressions whose type follows from their operands: all but [CASE], [COALESCE] and casts to timestamps. *)
Fixpoint inferable (e : Expr) : bool :=
  match e with
  | E_Nested inner | E_UnaryOp (UO_Minus | UO_Plus) inner => inferable inner
  | E_BinaryOp l (BO_Plus | BO_Minus | BO_Multiply | BO_Divide | BO_Modulo) r => inferable l && inferable r
  | E_Cast _ _ data_type => match from_cast_target data_type with Some CT_Enum => false | Some ty => converts ty | None => true end
  | E_Case _ _ _ _ => false
  | E_Function name _ => bool_decide (ascii_lower name = lit "cardinality")
  | _ => true
  end.

Lemma conforms_type ty d : ty <> CT_Enum -> datum_has_type ty d = true -> conforms ty d = true.
Proof. by destruct ty, d. Qed.
Lemma conforms_null ty : conforms ty D_Null = true.
Proof. by destruct ty. Qed.
Lemma conforms_unknown d : conforms CT_Unknown d = true.
Proof. by destruct d. Qed.

Lemma column_conforms schema row i : row_conforms schema row -> conforms (default CT_Unknown (snd <$> sc_columns schema !! i)) (row_get row i) = true.
Proof. intros Hr. destruct (sc_columns schema !! i) as [[name ty]|] eqn:E; cbn; [by eapply Hr | apply conforms_unknown]. Qed.

Lemma position_column columns provenance relation name i :
  position_attributed columns provenance relation name = Some i -> is_Some (columns !! i).
Proof.
  unfold position_attributed. intros ([j x] & Hj & E)%fmap_Some. cbn in E. subst j. apply list_find_Some in Hj as (Hj & _).
  rewrite list_lookup_imap in Hj. apply fmap_Some in Hj as (y & Hy & _). eauto.
Qed.

Lemma identifier_conforms schema row name f d :
  row_conforms schema row -> identifier_scalar name schema = Ok f -> f row = Ok d ->
  conforms (default CT_Unknown (schema_column_type schema name)) d = true.
Proof.
  unfold identifier_scalar, schema_column_type, index_of. intros Hr (i & Hi & [= <-])%exec_bind_ok [= <-].
  destruct (bt_get name (sc_index schema)) as [j|]; [|done]. injection Hi as ->. cbn. by apply column_conforms.
Qed.

Lemma compound_conforms schema row parts f d :
  row_conforms schema row -> compound_scalar parts schema = Ok f -> f row = Ok d -> conforms (infer_compound schema parts) d = true.
Proof.
  intros Hr Hf Hd. unfold compound_scalar, infer_compound in *. cbv zeta in *.
  assert (forall name, last parts = Some name -> identifier_scalar name schema = Ok f ->
    conforms (default CT_Unknown (name ← last parts; schema_column_type schema name)) d = true) as Hlast.
  { intros name -> Hn. by eapply identifier_conforms. }
  assert (match last parts with None => Err (EE_Unsupported "empty compound identifier") | Some name => identifier_scalar name schema end = Ok f ->
    conforms (default CT_Unknown (name ← last parts; schema_column_type schema name)) d = true) as Hrest.
  { destruct (last parts) as [name|] eqn:El; [|done]. intros Hn. by apply (Hlast name). }
  destruct parts as [|relation [|column [|]]]; try by apply Hrest.
  destruct (index_of_qualified schema relation column) as [i|] eqn:E; [|by apply Hrest].
  injection Hf as <-. injection Hd as <-. cbn. destruct (position_column _ _ _ _ _ E) as ([name ty] & Hc). rewrite Hc. cbn. by eapply Hr.
Qed.

Lemma arithmetic_conforms op l r a b :
  conforms l a = true -> conforms r b = true -> conforms (infer_arithmetic l r) (arithmetic_datums op a b) = true.
Proof.
  intros Ha Hb. assert (match arithmetic_datums op a b with D_Null => True | D_I64 _ => is_Some (as_int a) /\ is_Some (as_int b)
    | D_F64 _ => (as_int a = None \/ as_int b = None) /\ is_Some (as_f64 a) /\ is_Some (as_f64 b) | _ => False end) as Hv.
  { unfold arithmetic_datums. destruct (as_int a), (as_int b); [destruct (int_arithmetic _ _ _); eauto|..];
      destruct (as_f64 a), (as_f64 b); try done; destruct (float_arithmetic _ _ _); eauto 6. }
  revert Hv. generalize (arithmetic_datums op a b). intros v Hv.
  unfold infer_arithmetic. destruct (decide (l = CT_Int /\ r = CT_Int)) as [[-> ->]|Hne].
  - destruct a; try discriminate Ha; destruct b; try discriminate Hb; destruct v; try done; destruct Hv as ([Hv|Hv] & [? Hx] & [? Hy]); discriminate.
  - destruct (is_numeric l && is_numeric r) eqn:En; [|destruct l, r; try apply conforms_unknown; exfalso; by apply Hne].
    assert (conforms CT_Float v = true) as Hf; [|by destruct l, r; try apply Hf; exfalso; apply Hne].
    apply andb_true_iff in En as [Hl Hr]. destruct l; try discriminate Hl; destruct r; try discriminate Hr; try (exfalso; by apply Hne);
      destruct a; try discriminate Ha; destruct b; try discriminate Hb; destruct v; try done; destruct Hv as [[? Hx] [? Hy]]; discriminate.
Qed.

Lemma negate_conforms ty d : conforms ty d = true -> conforms ty (negate_datum d) = true.
Proof. by destruct ty, d. Qed.
Lemma cmp_bool_type a b pick : conforms CT_Bool (datum_cmp_bool a b pick) = true.
Proof. unfold datum_cmp_bool. by destruct (datum_ordering a b). Qed.
Lemma concat_type a b : conforms CT_Text (concat_datums a b) = true.
Proof. unfold concat_datums. destruct (_ || _); [done|]. by destruct (datum_display_text a), (datum_display_text b). Qed.
Lemma json_type a b : conforms CT_Jsonb (json_extract a b false) = true /\ conforms CT_Text (json_extract a b true) = true.
Proof. unfold json_extract. destruct a; try done; destruct (json_from_slice _); try done; destruct (json_select _ _) as [[]|]; done. Qed.
Lemma like_type escape negated ci a b : conforms CT_Bool (like_datums escape negated ci a b) = true.
Proof. unfold like_datums. destruct a, b; try done. by destruct (_ && _). Qed.

(** Whatever a closure of comparisons returns is a boolean. *)
Ltac bool_result Hf Hd :=
  repeat (let x := fresh in let Hx := fresh in apply exec_bind_ok in Hf as (x & Hx & Hf)); injection Hf as <-;
  unfold lift1, lift2 in Hd; repeat (let x := fresh in let Hx := fresh in apply exec_bind_ok in Hd as (x & Hx & Hd)).

Lemma binary_conforms l op r schema row f d :
  (forall g v, compile_inner schema l = Ok g -> g row = Ok v -> inferable l = true -> conforms (infer_type schema l) v = true) ->
  (forall g v, compile_inner schema r = Ok g -> g row = Ok v -> inferable r = true -> conforms (infer_type schema r) v = true) ->
  inferable (E_BinaryOp l op r) = true -> binary_scalar (compile_inner schema l) op (compile_inner schema r) = Ok f -> f row = Ok d ->
  conforms (infer_type schema (E_BinaryOp l op r)) d = true.
Proof.
  intros IHl IHr Hi (fl & Hl & Hf)%exec_bind_ok Hd. apply exec_bind_ok in Hf as (fr & Hr & Hf).
  destruct op; cbn [inferable] in Hi; try discriminate Hf; injection Hf as <-; cbn [infer_type];
    try (apply exec_bind_ok in Hd as (a & Ha & Hd); apply exec_bind_ok in Hd as (b & Hb & [= <-]);
      first [done | apply cmp_bool_type | apply concat_type | apply json_type
            | apply andb_true_iff in Hi as [Hil Hir]; apply arithmetic_conforms; eauto]).
  - apply exec_bind_ok in Hd as (a & Ha & Hd). destruct (negb _); [by injection Hd as <-|]. by apply exec_bind_ok in Hd as (b & Hb & [= <-]).
  - apply exec_bind_ok in Hd as (a & Ha & Hd). destruct (is_true a); [by injection Hd as <-|]. by apply exec_bind_ok in Hd as (b & Hb & [= <-]).
Qed.

(** A row that conforms to the schema gives an inferable expression a value that conforms to its type. *)
Lemma infer_sound schema row e f d :
  row_conforms schema row -> inferable e = true -> compile_inner schema e = Ok f -> f row = Ok d ->
  conforms (infer_type schema e) d = true.
Proof.
  intros Hr. revert f d. induction e as [e IH] using expr_ind'. intros f d Hi Hf Hd. destruct e; simpl in IH; cbn [compile_inner] in Hf.
  - by eapply IH.
  - by eapply identifier_conforms.
  - by eapply compound_conforms.
  - destruct v; cbn in *; try discriminate Hf; try (injection Hf as <-; injection Hd as <-; done). destruct (parse_int _ _ n); [by injection Hf as <-; injection Hd as <-|].
    destruct (f64_parse n); [|done]. by injection Hf as <-; injection Hd as <-.
  - destruct IH. eapply binary_conforms; eauto.
  - apply exec_bind_ok in Hf as (g & Hg & Hf). destruct op; try discriminate Hf; injection Hf as <-; cbn [infer_type inferable] in *.
    + apply exec_bind_ok in Hd as (a & Ha & [= <-]). by destruct a.
    + apply exec_bind_ok in Hd as (a & Ha & [= <-]). by eapply negate_conforms, IH.
    + by eapply IH.
  - apply exec_bind_ok in Hf as (g & Hg & [= <-]). by apply exec_bind_ok in Hd as (a & Ha & [= <-]).
  - apply exec_bind_ok in Hf as (g & Hg & [= <-]). by apply exec_bind_ok in Hd as (a & Ha & [= <-]).
  - apply exec_bind_ok in Hf as (g & Hg & [= <-]). by apply exec_bind_ok in Hd as (a & Ha & [= <-]).
  - apply exec_bind_ok in Hf as (g & Hg & [= <-]). by apply exec_bind_ok in Hd as (a & Ha & [= <-]).
  - apply exec_bind_ok in Hf as (g & Hg & Hf). apply exec_bind_ok in Hf as (es & Hes & Hf). apply exec_bind_ok in Hf as (c & Hc & [= <-]).
    apply exec_bind_ok in Hd as (a & Ha & Hd). by apply exec_bind_ok in Hd as (b & Hb & [= <-]).
  - unfold cast_scalar in Hf. cbn [infer_type inferable] in *. destruct kind; try discriminate Hf; apply exec_bind_ok in Hf as (ty & Hty & Hf);
      apply exec_bind_ok in Hf as (g & Hg & [= <-]); apply exec_bind_ok in Hd as (a & Ha & Hd);
      (destruct (from_cast_target data_type) as [ty'|]; [|done]); cbn in Hty; injection Hty; intros Ety; subst ty; cbn [default];
      (apply conforms_type; [intros E; unfold id in E; by rewrite E in Hi | eapply cast_datum_type; [by destruct ty' | exact Hd]]).
  - apply exec_bind_ok in Hf as (g & Hg & Hf). apply exec_bind_ok in Hf as (es & Hes & [= <-]). apply exec_bind_ok in Hd as (a & Ha & Hd).
    destruct (is_null a); [by injection Hd as <-|]. apply exec_bind_ok in Hd as ([hit sn] & Hh & Hd). by injection Hd as <-.
  - apply exec_bind_ok in Hf as (g & Hg & Hf). apply exec_bind_ok in Hf as (lo & Hlo & Hf). apply exec_bind_ok in Hf as (hi & Hhi & [= <-]).
    apply exec_bind_ok in Hd as (a & Ha & Hd). apply exec_bind_ok in Hd as (b & Hb & Hd). apply exec_bind_ok in Hd as (c & Hc & Hd).
    destruct (_ || _ || _); by injection Hd as <-.
  - destruct any; [done|]. apply exec_bind_ok in Hf as (g & Hg & Hf). apply exec_bind_ok in Hf as (p & Hp & Hf). apply exec_bind_ok in Hf as (esc & Hesc & [= <-]).
    apply exec_bind_ok in Hd as (a & Ha & Hd). apply exec_bind_ok in Hd as (b & Hb & [= <-]). apply like_type.
  - destruct any; [done|]. apply exec_bind_ok in Hf as (g & Hg & Hf). apply exec_bind_ok in Hf as (p & Hp & Hf). apply exec_bind_ok in Hf as (esc & Hesc & [= <-]).
    apply exec_bind_ok in Hd as (a & Ha & Hd). apply exec_bind_ok in Hd as (b & Hb & [= <-]). apply like_type.
  - apply exec_bind_ok in Hf as (g & Hg & Hf). apply exec_bind_ok in Hf as (h & Hh & [= <-]).
    apply exec_bind_ok in Hd as (a & Ha & Hd). by apply exec_bind_ok in Hd as (b & Hb & [= <-]).
  - apply exec_bind_ok in Hf as (g & Hg & Hf). apply exec_bind_ok in Hf as (h & Hh & [= <-]).
    apply exec_bind_ok in Hd as (a & Ha & Hd). by apply exec_bind_ok in Hd as (b & Hb & [= <-]).
  - done.
  - apply conforms_unknown.
  - cbn [inferable infer_type] in *. apply bool_decide_eq_true in Hi. unfold function_scalar in Hf. rewrite Hi in *.
    apply exec_bind_ok in Hf as (l & Hl & Hf). apply exec_bind_ok in Hf as (l' & Hl' & Hf). rewrite decide_False in Hf by (vm_compute; discriminate).
    rewrite decide_True in Hf by done. rewrite decide_True by done.
    destruct l' as [|c [|]]; try discriminate Hf. apply exec_bind_ok in Hf as (g & Hg & [= <-]). apply exec_bind_ok in Hd as (a & Ha & [= <-]). by destruct a.
  - apply conforms_unknown.
Qed.

(** A conforming value survives the cast to its type. *)
Lemma cast_conforms ty d d' : ty <> CT_Text -> ty <> CT_Unknown -> conforms ty d = true -> cast_datum d ty = Ok d' ->
  datum_has_type ty d' = true /\ is_null d' = is_null d.
Proof.
  intros Ht Hu Hc. unfold cast_datum. destruct (is_null d) eqn:En; [intros [= <-]; by destruct ty|].
  destruct ty, d; try done; try (by intros [= <-]). intros [= <-]. cbn in *. by rewrite Hc.
Qed.

(** C33: Types of projected expressions. Whatever a compiled projection returns on a well-formed row
    is a well-formed datum; when the inferred type is not text or one of the two timestamp types, it
    is NULL or a datum of that type, whatever the inference. And inference is right, on a row that
    conforms to its schema, for every expression without CASE, COALESCE and casts to timestamps or
    enums whose type is inferred: the result is NULL or a value that a column of the inferred type
    may hold, the two timestamp types told apart, and the coercion to the inferred type loses
    nothing, the result being NULL exactly when the expression's value is. *)
Theorem typed_scalar_sound sql schema f ty row d :
  compile_typed_scalar sql schema = Ok (f, ty) -> row_wf row -> f row = Ok d ->
  datum_wf d = true /\
  (converts ty = true -> ty <> CT_Text -> datum_has_type ty d = true) /\
  forall e, sql_parse_expr sql = Some e -> inferable e = true -> row_conforms schema row -> ty <> CT_Unknown ->
    (conforms ty d = true /\ (ty <> CT_Text -> datum_has_type ty d = true)) /\
    exists g a, compile_inner schema e = Ok g /\ g row = Ok a /\ is_null d = is_null a.
Proof.
  intros (e & He & Hf)%exec_bind_ok Hr Hd. apply exec_bind_ok in Hf as (g & Hg & [= <- Hty]).
  pose proof (compile_inner_wf schema e g Hg) as Hwf. rewrite Hty in Hd.
  assert (forall a, g row = Ok a -> datum_wf a = true) as Ha by (intros a; by apply Hwf).
  assert (forall e', sql_parse_expr sql = Some e' -> e' = e) as Heq
    by (intros e' He'; unfold parse_expr in He; rewrite He' in He; by injection He).
  assert (forall a, g row = Ok a -> inferable e = true -> row_conforms schema row -> conforms ty a = true) as Hc
    by (intros a Hga Hi Hrow; rewrite <- Hty; by eapply infer_sound).
  destruct (decide (ty = CT_Text)) as [->|Hnt]; [|destruct (decide (ty = CT_Unknown)) as [->|Hnu]].
  - split; [by apply Ha|]. split; [done|]. intros e' ->%Heq Hi Hrow _. split; [split; [by apply Hc | done] | by exists g, d].
  - split; [by apply Ha|]. split; [by destruct d | done].
  - assert (exists a, g row = Ok a /\ cast_datum a ty = Ok d) as (a & Hga & Hcast)
      by (destruct ty; try done; by apply exec_bind_ok in Hd as (a & Hga & Hd); exists a).
    split; [eapply cast_datum_wf, Hcast; auto|]. split; [intros Hconv _; by eapply cast_datum_type|].
    intros e' ->%Heq Hi Hrow _. destruct (cast_conforms ty a d Hnt Hnu (Hc a Hga Hi Hrow) Hcast) as [Ht Hn].
    split; [split; [|done] | by exists g, a]. destruct (decide (ty = CT_Enum)) as [->|]; [|by apply conforms_type].
    specialize (Hc a Hga Hi Hrow). unfold cast_datum in Hcast. destruct a; try discriminate Hc; cbn in *; [by rewrite Hc in Hcast; injection Hcast as <-; cbn; rewrite Hc | by injection Hcast as <-].
Qed.

(** ** The order of [ORDER BY] *)

(** Columns the comparison sorts: no floats, or no integers and no NaN. *)
Definition sortable (floats : bool) (d : Datum) : bool :=
  match d with
  | D_I16 _ | D_I32 _ | D_I64 _ => negb floats
  | D_F32 _ => false
  | D_F64 bits => floats && negb (is_nan_bits 52 11 bits)
  | _ => true
  end.

(** NULLs last; numbers by value. *)
Definition sort_key (d : Datum) : Z * Datum :=
  match d with
  | D_Null => (1, D_Null)
  | D_I16 v | D_I32 v | D_I64 v => (0, D_I64 v)
  | D_F64 bits => (0, D_I64 (bits_key 52 11 bits))
  | d => (0, d)
  end.

Lemma cmp_singleton (x y : Z) : cmp [x] [y] = (x ?= y).
Proof. simpl. by destruct (x ?= y). Qed.

Lemma cmp_map_bytes (x y : list byte) : cmp (map byte_Z x) (map byte_Z y) = cmp x y.
Proof.
  revert y. induction x as [|a x IH]; intros [|b y]; try done.
  change (match cmp (byte_Z a) (byte_Z b) with Eq => cmp (map byte_Z x) (map byte_Z y) | c => c end
    = match cmp a b with Eq => cmp x y | c => c end).
  rewrite IH. by replace (cmp a b) with (cmp (byte_Z a) (byte_Z b)).
Qed.

Lemma compare_sort_key floats a b :
  sortable floats a = true -> sortable floats b = true -> compare_datums_sort a b = cmp (sort_key a) (sort_key b).
Proof.
  assert (forall d d' : Datum, cmp (0, d) (0, d') = datum_cmp d d') as Hz by done.
  intros Ha Hb. unfold compare_datums_sort.
  destruct a; try discriminate Ha; destruct b; try discriminate Hb; try done;
    cbn [is_null as_int as_f64 sort_key]; rewrite ?Hz; try (destruct floats; done);
    try (symmetry; apply cmp_singleton); try (symmetry; apply cmp_map_bytes).
  destruct floats; [|done]. unfold float_ord.
  rewrite (float_compare_keys 52 11) by (try lia; by apply negb_true_iff). symmetry. apply cmp_singleton.
Qed.

(** Within one family of sortable values the sort comparison is a total preorder whose equivalence is equality of sort keys. *)
Lemma sort_order_total floats a b c :
  sortable floats a = true -> sortable floats b = true -> sortable floats c = true ->
  compare_datums_sort b a = CompOpp (compare_datums_sort a b) /\
  (compare_datums_sort a b <> Gt -> compare_datums_sort b c <> Gt -> compare_datums_sort a c <> Gt) /\
  (compare_datums_sort a b = Eq <-> sort_key a = sort_key b).
Proof.
  intros Ha Hb Hc. rewrite !(compare_sort_key floats) by done. split_and!; [apply cmp_antisym| |apply cmp_eq].
  apply cmp_le_trans.
Qed.
End Facts.

(** ** SQL's comparison of values

    A reference for what SQL says of two values, by what they stand for: integers of any width by their
    value, booleans false before true, text in the C collation, byte strings and uuids bytewise, dates, times and
    timestamps by their position on the time line, floats by IEEE 754. It settles nothing about NULL, values
    of different kinds and NaN, nor about numerics, intervals, arrays and documents. *)

Definition sql_int (d : Datum) : option Z := match d with D_I16 v | D_I32 v | D_I64 v => Some v | _ => None end.
Definition sql_compare (a b : Datum) : option comparison :=
  match sql_int a, sql_int b with
  | Some x, Some y => Some (x ?= y)
  | _, _ =>
      match a, b with
      | D_Bool x, D_Bool y => Some (Bool.compare x y)
      | D_F64 x, D_F64 y => SFcompare (f64_of_bits x) (f64_of_bits y)
      | D_Text x, D_Text y | D_Bytea x, D_Bytea y => Some (cmp x y)
      | D_Uuid x, D_Uuid y => Some (cmp (as_bytes x) (as_bytes y))
      | D_Date x, D_Date y => Some (days_since_unix_epoch x ?= days_since_unix_epoch y)
      | D_Time x, D_Time y => Some (micros_since_midnight x ?= micros_since_midnight y)
      | D_Timestamp x, D_Timestamp y => Some (ts_micros_since_unix_epoch x ?= ts_micros_since_unix_epoch y)
      | D_TimestampTz x, D_TimestampTz y => Some (tstz_micros_since_unix_epoch x ?= tstz_micros_since_unix_epoch y)
      | _, _ => None
      end
  end.

(** The kinds of values it compares; NULL belongs to each. *)
Inductive family := F_Int | F_Float | F_Bool | F_Text | F_Bytea | F_Uuid | F_Date | F_Time | F_Timestamp | F_TimestampTz.
Definition in_family (f : family) (d : Datum) : bool :=
  match f, d with
  | _, D_Null | F_Int, (D_I16 _ | D_I32 _ | D_I64 _) | F_Bool, D_Bool _ | F_Text, D_Text _ | F_Bytea, D_Bytea _ | F_Uuid, D_Uuid _
  | F_Date, D_Date _ | F_Time, D_Time _ | F_Timestamp, D_Timestamp _ | F_TimestampTz, D_TimestampTz _ => true
  | F_Float, D_F64 bits => negb (is_nan_bits 52 11 bits)
  | _, _ => false
  end.

Definition is_float (f : family) : bool := match f with F_Float => true | _ => false end.
Lemma family_sortable f d : in_family f d = true -> sortable (is_float f) d = true.
Proof. by destruct f, d. Qed.

(** Within a family the comparison is settled, and is what the evaluator sorts by. *)
Lemma sort_is_sql f a b : in_family f a = true -> in_family f b = true -> is_null a = false -> is_null b = false ->
  sql_compare a b = Some (compare_datums_sort a b).
Proof.
  intros Ha Hb Na Nb. destruct f, a; try discriminate Ha; try discriminate Na; destruct b; try discriminate Hb; try discriminate Nb; try done.
  - unfold sql_compare, compare_datums_sort. cbn [sql_int is_null as_int as_f64]. unfold float_ord.
    rewrite (float_compare_keys 52 11) by (try lia; by apply negb_true_iff). done.
  - by match goal with |- sql_compare (D_Bool ?x) (D_Bool ?y) = _ => destruct x, y end.
  - unfold sql_compare, compare_datums_sort. cbn. f_equal. symmetry. apply cmp_map_bytes.
  - unfold sql_compare, compare_datums_sort. cbn. f_equal. by destruct (_ ?= _).
  - unfold sql_compare, compare_datums_sort. cbn. f_equal. by destruct (_ ?= _).
  - unfold sql_compare, compare_datums_sort. cbn. f_equal. by destruct (_ ?= _).
  - unfold sql_compare, compare_datums_sort. cbn. f_equal. by destruct (_ ?= _).
Qed.

(** [ORDER BY]: NULL is greater than every value. *)
Definition sql_order (a b : Datum) : option comparison :=
  match is_null a, is_null b with
  | true, true => Some Eq
  | true, false => Some Gt
  | false, true => Some Lt
  | false, false => sql_compare a b
  end.
Lemma order_is_sql f a b : in_family f a = true -> in_family f b = true -> sql_order a b = Some (compare_datums_sort a b).
Proof.
  intros Ha Hb. unfold sql_order. destruct (is_null a) eqn:Na, (is_null b) eqn:Nb; [by destruct a, b..|by apply (sort_is_sql f)].
Qed.

(** The types on which SQL equality is equality of values: a column of one of them has one spelling for each value. *)
Definition exact_type (t : DatumType) (d : Datum) : bool :=
  match t, d with
  | _, D_Null | T_Bool, D_Bool _ | T_I16, D_I16 _ | T_I32, D_I32 _ | T_I64, D_I64 _ | T_Text, D_Text _ | T_Bytea, D_Bytea _ | T_Uuid, D_Uuid _
  | T_Date, D_Date _ | T_Time, D_Time _ | T_Timestamp, D_Timestamp _ | T_TimestampTz, D_TimestampTz _ => true
  | _, _ => false
  end.
Definition sql_equal (a b : Datum) : bool := match sql_compare a b with Some Eq => true | _ => false end.
Lemma exact_equal t a b : exact_type t a = true -> exact_type t b = true ->
  sql_equal a b = negb (is_null a) && bool_decide (a = b).
Proof.
  assert (forall x y : Z, (match x ?= y with Eq => true | _ => false end) = bool_decide (x = y)) as HZ
    by (intros x y; destruct (Z.compare_spec x y); symmetry; [by apply bool_decide_eq_true | apply bool_decide_eq_false; lia..]).
  assert (forall x y : list byte, (match cmp x y with Eq => true | _ => false end) = bool_decide (x = y)) as HB
    by (intros x y; pose proof (cmp_eq x y) as [H1 H2]; destruct (cmp x y); symmetry;
        [apply bool_decide_eq_true; auto | apply bool_decide_eq_false; intros E; by specialize (H2 E)..]).
  intros Ha Hb. unfold sql_equal. destruct t, a; try discriminate Ha; destruct b; try discriminate Hb; unfold sql_compare; cbn [sql_int is_null negb andb]; rewrite ?HZ, ?HB; try done;
    try (apply bool_decide_ext; split; intros E; [by subst | by injection E]).
  all: repeat match goal with
       | x : Date |- _ => destruct x | x : Time |- _ => destruct x | x : Timestamp |- _ => destruct x
       | x : TimestampTz |- _ => destruct x | x : Uuid |- _ => destruct x | x : bool |- _ => destruct x
       end; cbn; try done; apply bool_decide_ext; split; intros E; by simplify_eq.
Qed.

(** Columns of values, pairwise equal. *)
Fixpoint sql_equal_all (a b : list Datum) : bool :=
  match a, b with [], [] => true | x :: a, y :: b => sql_equal x y && sql_equal_all a b | _, _ => false end.
Lemma exact_equal_all types a b :
  Forall2 (fun t d => exact_type t d = true) types a -> Forall2 (fun t d => exact_type t d = true) types b ->
  sql_equal_all a b = negb (existsb is_null b) && (match cmp a b with Eq => true | _ => false end).
Proof.
  intros Ha. revert b. induction Ha as [|t x types a Hx _ IH]; intros b Hb; inversion Hb as [|? y ? b' Hy Hb']; subst; [done|].
  change (cmp (x :: a) (y :: b')) with (match cmp x y with Eq => cmp a b' | c => c end). cbn [sql_equal_all existsb].
  rewrite (exact_equal t x y), IH by done. pose proof (cmp_eq x y) as Hc.
  destruct (bool_decide_reflect (x = y)) as [->|Hne].
  - rewrite cmp_refl. destruct (is_null y), (existsb is_null b'); done.
  - rewrite andb_false_r. destruct (cmp x y); [by destruct (Hne (proj1 Hc eq_refl)) | by rewrite andb_false_r..].
Qed.
