(* ===== verification/Predicates.v ===== *)
(** * Predicates: compiled predicates and SQL's three-valued logic

    [truth] interprets a predicate the way SQL defines it: values are compared by
    [sql_compare], comparisons are unknown when an operand is NULL, connectives are Kleene's, [IN] and [ANY] are
    disjunctions, [BETWEEN] is a conjunction. The compiled closures have two truth
    values; on the expressions of [positive] they accept exactly the rows whose
    truth value is true, as long as the values they compare are of the kinds the
    evaluator compares as SQL does ([settled]). *)

From S2P Require Import Prelude BTree Text Values UserContext Literals Floats Datums Exprs Like Eval EvalFacts.

(** ** Three-valued connectives *)

Definition and3 (a b : option bool) : option bool :=
  match a, b with
  | Some false, _ | _, Some false => Some false
  | Some true, Some true => Some true
  | _, _ => None
  end.
Definition or3 (a b : option bool) : option bool :=
  match a, b with
  | Some true, _ | _, Some true => Some true
  | Some false, Some false => Some false
  | _, _ => None
  end.
Definition not3 (a : option bool) : option bool := negb <$> a.
Definition holds (a : option bool) : bool := match a with Some true => true | _ => false end.

Definition unknown (a : option bool) : bool := match a with None => true | _ => false end.

Lemma and3_holds a b : holds (and3 a b) = holds a && holds b.
Proof. by destruct a as [[]|], b as [[]|]. Qed.
Lemma or3_holds a b : holds (or3 a b) = holds a || holds b.
Proof. by destruct a as [[]|], b as [[]|]. Qed.

Section Truth.
Context `{EvalRuntime}.

(** What a comparison operator says of an order. *)
Definition op_holds (op : BinaryOperator) (o : comparison) : bool :=
  match op with
  | BO_Eq => is_le o && is_ge o | BO_NotEq => negb (is_le o && is_ge o)
  | BO_Lt => is_lt o | BO_LtEq => is_le o | BO_Gt => is_gt o | BO_GtEq => is_ge o
  | _ => false
  end.
(** A comparison is unknown when an operand is NULL. *)
Definition cmp3 (op : BinaryOperator) (a b : Datum) : option bool :=
  if is_null a || is_null b then None else op_holds op <$> sql_compare a b.
(** [IS NOT DISTINCT FROM]: NULL is the same as NULL. *)
Definition same_value (a b : Datum) : bool :=
  match is_null a, is_null b with
  | true, true => true
  | false, false => sql_equal a b
  | _, _ => false
  end.
(** The pairs of values the evaluator compares with an operator: NULL, integers (in an ordering, of one width
    or of the two larger ones), text, uuids, floats of 64 bits that are numbers, and booleans for equality. *)
Definition comparable (op : BinaryOperator) (a b : Datum) : bool :=
  let equality := match op with BO_Eq | BO_NotEq => true | _ => false end in
  match a, b with
  | D_Null, _ | _, D_Null | D_Text _, D_Text _ | D_Uuid _, D_Uuid _ => true
  | D_I64 _, (D_I64 _ | D_I32 _) | D_I32 _, (D_I64 _ | D_I32 _) | D_I16 _, D_I16 _ => true
  | D_I16 _, (D_I64 _ | D_I32 _) | (D_I64 _ | D_I32 _), D_I16 _ | D_Bool _, D_Bool _ => equality
  | D_F64 x, D_F64 y => negb (is_nan_bits 52 11 x) && negb (is_nan_bits 52 11 y)
  | _, _ => false
  end.
Definition datum3 (d : Datum) : option bool := match d with D_Bool b => Some b | _ => None end.

Definition in3 (value : Datum) (elements : list Datum) : option bool :=
  foldr (fun x acc => or3 (cmp3 BO_Eq value x) acc) (Some false) elements.
Definition any3 (op : BinaryOperator) (value : Datum) (elements : list Datum) : option bool :=
  foldr (fun x acc => or3 (cmp3 op value x) acc) (Some false) elements.
Definition like3 (ci : bool) (escape : option text) (subject pattern : Datum) : option bool :=
  match subject, pattern with
  | D_Text s, D_Text p =>
      if utf8_valid s && utf8_valid p then
        if ci then like_match (str_to_lowercase s) (str_to_lowercase p) escape else like_match s p escape
      else None
  | _, _ => None
  end.

Definition comparison_op (op : BinaryOperator) : bool :=
  match op with BO_Eq | BO_NotEq | BO_Lt | BO_LtEq | BO_Gt | BO_GtEq => true | _ => false end.

Context (schema : ScalarSchema) (row : Row).

(** The value of an operand in the row. *)
Definition value_at (e : Expr) : Datum :=
  match compile_inner schema e with
  | Ok f => match f row with Ok d => d | _ => D_Null end
  | _ => D_Null
  end.

(** The elements [ANY] ranges over. *)
Definition any_values (e : Expr) : list Datum :=
  match e with
  | E_Array elements => map value_at elements
  | E_Value (SV_SingleQuotedString t) => match parse_array_literal t with Ok ds => ds | _ => [] end
  | _ => []
  end.

Fixpoint truth (e : Expr) : option bool :=
  match e with
  | E_Nested inner => truth inner
  | E_BinaryOp l BO_And r => and3 (truth l) (truth r)
  | E_BinaryOp l BO_Or r => or3 (truth l) (truth r)
  | E_BinaryOp l op r => if comparison_op op then cmp3 op (value_at l) (value_at r) else datum3 (value_at e)
  | E_UnaryOp UO_Not inner => not3 (truth inner)
  | E_IsNull inner => Some (is_null (value_at inner))
  | E_IsNotNull inner => Some (negb (is_null (value_at inner)))
  | E_IsTrue inner => Some (holds (truth inner))
  | E_IsDistinctFrom l r => Some (negb (same_value (value_at l) (value_at r)))
  | E_IsNotDistinctFrom l r => Some (same_value (value_at l) (value_at r))
  | E_AnyOp l op r => any3 op (value_at l) (any_values r)
  | E_InList needle l negated =>
      let found := in3 (value_at needle) (map value_at l) in if negated then not3 found else found
  | E_Between needle negated low high =>
      let within := and3 (cmp3 BO_LtEq (value_at low) (value_at needle)) (cmp3 BO_LtEq (value_at needle) (value_at high)) in
      if negated then not3 within else within
  | E_Like negated _ s p escape =>
      let found := like3 false (match like_escape escape with Ok c => c | _ => None end) (value_at s) (value_at p) in
      if negated then not3 found else found
  | E_ILike negated _ s p escape =>
      let found := like3 true (match like_escape escape with Ok c => c | _ => None end) (value_at s) (value_at p) in
      if negated then not3 found else found
  | _ => datum3 (value_at e)
  end.

(** Every comparison in the predicate is between values the evaluator compares. *)
Fixpoint settled (e : Expr) : bool :=
  match e with
  | E_Nested inner | E_IsTrue inner | E_UnaryOp UO_Not inner => settled inner
  | E_BinaryOp l (BO_And | BO_Or) r => settled l && settled r
  | E_BinaryOp l op r => negb (comparison_op op) || comparable op (value_at l) (value_at r)
  | E_IsDistinctFrom l r | E_IsNotDistinctFrom l r => comparable BO_Eq (value_at l) (value_at r)
  | E_AnyOp l op r => forallb (comparable op (value_at l)) (any_values r)
  | E_InList needle l _ => forallb (comparable BO_Eq (value_at needle)) (map value_at l)
  | E_Between needle _ low high => comparable BO_LtEq (value_at low) (value_at needle) && comparable BO_LtEq (value_at needle) (value_at high)
  | _ => true
  end.
End Truth.

(** Tests whose answer is never unknown. *)
Definition two_valued (e : Expr) : bool :=
  match e with
  | E_IsNull _ | E_IsNotNull _ | E_IsDistinctFrom _ _ | E_IsNotDistinctFrom _ _ => true
  | _ => false
  end.

(** No [<>], no negated [BETWEEN], and [NOT] over two-valued tests only. *)
Fixpoint positive (e : Expr) : bool :=
  match e with
  | E_Nested inner | E_IsTrue inner => positive inner
  | E_BinaryOp l (BO_And | BO_Or) r => positive l && positive r
  | E_BinaryOp _ BO_NotEq _ => false
  | E_UnaryOp UO_Not inner => two_valued inner
  | E_IsFalse _ => false
  | E_InList _ l negated => negb negated || negb (Nat.eqb (length l) 0)
  | E_Between _ negated _ _ => negb negated
  | _ => true
  end.

Section Exact.
Context `{EvalRuntime}.
Context (schema : ScalarSchema) (row : Row).
Abbreviation value_at := (value_at schema row).
Abbreviation truth := (truth schema row).
Abbreviation settled := (settled schema row).

(** A closure that accepts the row exactly when [t] is true. *)
Definition decides (t : option bool) (f : ScalarFn) : Prop := exists d, f row = Ok d /\ is_true d = holds t.

Lemma value_at_ok e f : compile_inner schema e = Ok f -> f row = Ok (value_at e).
Proof. intros Hf. unfold Predicates.value_at. rewrite Hf. by destruct (compile_inner_returns schema e f Hf row) as (d & ->). Qed.

Lemma datum3_decides e f : compile_inner schema e = Ok f -> decides (datum3 (value_at e)) f.
Proof. intros Hf. exists (value_at e). split; [by apply value_at_ok | by destruct (value_at e)]. Qed.

Lemma lift2_decides l r f g g' t :
  compile_inner schema l = Ok f -> compile_inner schema r = Ok g ->
  is_true (g' (value_at l) (value_at r)) = holds t -> decides t (lift2 f g g').
Proof.
  intros Hf Hg Ht. eexists. unfold lift2. rewrite (value_at_ok _ _ Hf). simpl. rewrite (value_at_ok _ _ Hg). simpl. eauto.
Qed.

Lemma lift1_decides e f g t :
  compile_inner schema e = Ok f -> is_true (g (value_at e)) = holds t -> decides t (lift1 f g).
Proof. intros Hf Ht. eexists. unfold lift1. rewrite (value_at_ok _ _ Hf). simpl. eauto. Qed.

Lemma datum_eq_null a b : is_null a || is_null b = true -> datum_eq a b = false.
Proof. by destruct a, b. Qed.
Lemma datum_ordering_null a b : is_null a || is_null b = true -> datum_ordering a b = None.
Proof. by destruct a, b. Qed.

(** On comparable values the evaluator's equality and orderings are SQL's. *)
Lemma float_number x : is_nan_bits 52 11 x = false -> forall y, is_nan_bits 52 11 y = false ->
  exists o, SFcompare (f64_of_bits x) (f64_of_bits y) = Some o.
Proof. intros Hx y Hy. eexists. apply (float_compare_keys 52 11); done || lia. Qed.

Lemma bytes_eq_cmp (x y : list byte) : bool_decide (x = y) = is_le (cmp x y) && is_ge (cmp x y).
Proof.
  pose proof (cmp_eq x y) as [H1 H2]. destruct (cmp x y); cbn.
  - apply bool_decide_eq_true. auto.
  - apply bool_decide_eq_false. intros E. by specialize (H2 E).
  - apply bool_decide_eq_false. intros E. by specialize (H2 E).
Qed.
Lemma int_eq_cmp (x y : Z) : (x =? y) = is_le (x ?= y) && is_ge (x ?= y).
Proof. destruct (Z.compare_spec x y), (Z.eqb_spec x y); try done; lia. Qed.

Lemma equal_is_sql a b : comparable BO_Eq a b = true -> is_null a || is_null b = false ->
  exists o, sql_compare a b = Some o /\ datum_eq a b = is_le o && is_ge o.
Proof.
  intros Hc Hn. destruct a; try discriminate Hn; destruct b; try discriminate Hc; try discriminate Hn;
    try (eexists; split; [reflexivity|]; apply int_eq_cmp); try (eexists; split; [reflexivity|]; apply bytes_eq_cmp).
  - match goal with |- context [datum_eq (D_Bool ?x) (D_Bool ?y)] => destruct x, y end; by eexists.
  - apply andb_true_iff in Hc as [Hx%negb_true_iff Hy%negb_true_iff]. destruct (float_number _ Hx _ Hy) as (o & Ho).
    exists o. split; [exact Ho|]. cbn. unfold SFeqb. rewrite Ho. by destruct o.
Qed.
Lemma ordering_is_sql op a b : comparison_op op = true -> op <> BO_Eq -> op <> BO_NotEq -> comparable op a b = true -> is_null a || is_null b = false ->
  exists o, sql_compare a b = Some o /\ datum_ordering a b = Some o.
Proof.
  intros Ho He Hne Hc Hn. destruct a; try discriminate Hn; destruct b; try discriminate Hn; try (by destruct op);
    try (by eexists).
  apply andb_true_iff in Hc as [Hx%negb_true_iff Hy%negb_true_iff]. destruct (float_number _ Hx _ Hy) as (o & E).
  exists o. split; [exact E|]. cbn. unfold float_ord. by rewrite E.
Qed.

(** Comparisons are false on NULL, where SQL's are unknown. *)
Lemma compare_holds op a b :
  comparison_op op = true -> comparable op a b = true -> compare_datums op a b = Some (holds (cmp3 op a b)).
Proof.
  intros Hop Hc. unfold cmp3. destruct (is_null a || is_null b) eqn:E.
  - destruct op; try done; simpl; unfold datum_cmp_bool; rewrite ?datum_ordering_null, ?datum_eq_null, ?E by done; done.
  - assert (op = BO_Eq \/ op = BO_NotEq \/ (op <> BO_Eq /\ op <> BO_NotEq)) as [->|[->|[H1 H2]]] by (destruct op; auto).
    + destruct (equal_is_sql a b Hc E) as (o & -> & Hd). cbn. rewrite Hd. by destruct (_ && _).
    + destruct (equal_is_sql a b Hc E) as (o & -> & Hd). cbn. rewrite E, Hd. by destruct (negb _).
    + destruct (ordering_is_sql op a b Hop H1 H2 Hc E) as (o & -> & Hd). destruct op; try done; cbn; unfold datum_cmp_bool; rewrite Hd; cbn; by destruct o.
Qed.

Lemma same_is_sql a b : comparable BO_Eq a b = true -> null_safe_eq a b = same_value a b.
Proof.
  intros Hc. unfold null_safe_eq, same_value. destruct (is_null a) eqn:Ea, (is_null b) eqn:Eb; try done.
  destruct (equal_is_sql a b Hc) as (o & Ho & ->); [by rewrite Ea, Eb|]. unfold sql_equal. rewrite Ho. by destruct o.
Qed.

Lemma values_mapM l fs :
  exec_all (map (compile_inner schema) l) = Ok fs -> Forall2 (fun f d => f row = Ok d) fs (map value_at l).
Proof.
  intros Hf%exec_mapM_ok. apply Forall2_fmap_l in Hf. apply Forall2_flip, Forall2_fmap_l. eapply Forall2_impl; [exact Hf|].
  intros e f. apply value_at_ok.
Qed.

(** The loop of [IN] computes the disjunction. *)
Lemma in_list_loop_spec v fs ds sn :
  is_null v = false -> Forall2 (fun f d => f row = Ok d) fs ds -> forallb (comparable BO_Eq v) ds = true ->
  exists hit sn', in_list_loop v fs row sn = Ok (hit, sn') /\ hit = holds (in3 v ds) /\
    (hit = false -> sn' = sn || unknown (in3 v ds)).
Proof.
  intros Hv Hf. revert sn. induction Hf as [|f d fs ds Hd _ IH]; intros sn; cbn [forallb in_list_loop in3 foldr]; intros Hall.
  - exists false, sn. by rewrite orb_false_r.
  - apply andb_true_iff in Hall as [Hc Hall]. fold (in3 v ds). specialize (fun sn => IH sn Hall).
    rewrite Hd. simpl. unfold cmp3 at 1 2. rewrite Hv. simpl. destruct (is_null d) eqn:En.
    + destruct (IH true) as (hit & sn' & -> & -> & Hs). eexists _, _. split; [done|].
      destruct (in3 v ds) as [[]|]; (split; [done|]); intros Hh; rewrite Hs by done; simpl; by rewrite ?orb_true_r.
    + destruct (equal_is_sql v d Hc) as (o & -> & ->); [by rewrite Hv, En|]. cbn. destruct (_ && _); [by eexists _, _|]. destruct (IH sn) as (hit & sn' & -> & -> & Hs). eexists _, _. split; [done|].
      destruct (in3 v ds) as [[]|]; (split; [done|]); intros Hh; by rewrite Hs.
Qed.

Lemma any_loop_spec op v fs ds :
  comparison_op op = true -> Forall2 (fun f d => f row = Ok d) fs ds -> forallb (comparable op v) ds = true ->
  any_loop op v fs row = Ok (holds (any3 op v ds)).
Proof.
  intros Hop. induction 1 as [|f d fs ds Hd _ IH]; simpl; [done|]. intros [Hc Hall]%andb_true_iff. rewrite Hd. simpl.
  rewrite compare_holds, or3_holds, IH by done. by destruct (holds (cmp3 op v d)).
Qed.

Lemma in3_null l : l <> [] -> in3 D_Null l = None.
Proof.
  destruct l as [|x l]; [done|]. intros _. revert x. induction l as [|y l IH]; intros x; [done|].
  cbn [in3 foldr] in *. by rewrite (IH y).
Qed.

Lemma in_list_decides needle l negated f :
  (negated = true -> l <> []) -> settled (E_InList needle l negated) = true ->
  in_list_scalar (compile_inner schema needle) (map (compile_inner schema) l) negated = Ok f ->
  decides (truth (E_InList needle l negated)) f.
Proof.
  intros Hne Hset (n & Hn & Hf)%exec_bind_ok. apply exec_bind_ok in Hf as (fs & Hfs & [= <-]). apply values_mapM in Hfs. cbn [Predicates.settled] in Hset.
  cbn [Predicates.truth]. unfold decides. rewrite (value_at_ok _ _ Hn). simpl. destruct (value_at needle) as [] eqn:Ev; simpl;
    try (edestruct (in_list_loop_spec (value_at needle) fs) as (hit & sn' & Hl & Hh & Hs); [by rewrite Ev | exact Hfs | by rewrite Ev|];
      rewrite Ev in Hl, Hh, Hs; rewrite Hl; simpl; eexists; split; [done|]; simpl; subst hit;
      destruct negated; [|by destruct (in3 _ _) as [[]|]];
      destruct (in3 _ _) as [[]|]; simpl in *; [done | by rewrite Hs | by rewrite Hs]).
  exists (D_Bool false). split; [done|]. destruct l as [|x l].
  - destruct negated; [by specialize (Hne eq_refl) | done].
  - rewrite in3_null by done. by destruct negated.
Qed.

Lemma between_decides needle low high f :
  settled (E_Between needle false low high) = true ->
  between_scalar (compile_inner schema needle) false (compile_inner schema low) (compile_inner schema high) = Ok f ->
  decides (truth (E_Between needle false low high)) f.
Proof.
  intros Hset (n & Hn & Hf)%exec_bind_ok. apply exec_bind_ok in Hf as (lo & Hlo & Hf). cbn [Predicates.settled] in Hset. apply andb_true_iff in Hset as [Hs1 Hs2]. apply exec_bind_ok in Hf as (hi & Hhi & [= <-]).
  cbn [Predicates.truth]. unfold decides. rewrite (value_at_ok _ _ Hn). simpl. rewrite (value_at_ok _ _ Hlo). simpl.
  rewrite (value_at_ok _ _ Hhi). simpl. rewrite and3_holds.
  pose proof (compare_holds BO_LtEq (value_at low) (value_at needle) eq_refl Hs1) as H1.
  pose proof (compare_holds BO_LtEq (value_at needle) (value_at high) eq_refl Hs2) as H2. injection H1 as <-. injection H2 as <-.
  destruct (is_null _ || _ || _) eqn:E; eexists; (split; [done|]); simpl; [|by rewrite xorb_false_r; destruct (_ && _)].
  unfold datum_cmp_bool. apply orb_true_iff in E as [[E|E]%orb_true_iff|E].
  - by rewrite datum_ordering_null by (by rewrite E, orb_true_r).
  - by rewrite datum_ordering_null by (by rewrite E).
  - rewrite (datum_ordering_null (value_at needle)) by (by rewrite E, orb_true_r). by rewrite andb_false_r.
Qed.

Lemma like_datums_holds escape negated ci a b :
  is_true (like_datums escape negated ci a b) = holds (let t := like3 ci escape a b in if negated then not3 t else t).
Proof.
  assert (forall o s p, exists m, like_match s p o = Some m) as Hm by (intros; apply like_match_total).
  unfold like_datums, like3. destruct a; try (by destruct negated). destruct b; try (by destruct negated).
  destruct (_ && _); [|by destruct negated]. destruct ci.
  - destruct (Hm escape (str_to_lowercase t) (str_to_lowercase t0)) as (m & ->). by destruct m, negated.
  - destruct (Hm escape t t0) as (m & ->). by destruct m, negated.
Qed.

Lemma any_decides l op r f :
  settled (E_AnyOp l op r) = true -> compile_inner schema (E_AnyOp l op r) = Ok f -> decides (truth (E_AnyOp l op r)) f.
Proof.
  cbn [compile_inner Predicates.settled]. intros Hset (g & Hg & Hf)%exec_bind_ok. apply exec_bind_ok in Hf as (fs & Hfs & Hf).
  apply exec_bind_ok in Hf as (c & Hc & [= <-]). assert (comparison_op op = true) as Hop by (by destruct op).
  unfold decides. rewrite (value_at_ok _ _ Hg). simpl. rewrite (any_loop_spec op _ fs (any_values schema row r) Hop).
  - eexists. split; [done|]. simpl. by destruct (holds _).
  - destruct r; try discriminate Hfs; [|by apply values_mapM].
    destruct v; try discriminate Hfs. apply exec_bind_ok in Hfs as (ds & Hds & [= <-]). simpl. rewrite Hds.
    apply Forall2_fmap_l, Forall_Forall2_diag, Forall_true. done.
  - exact Hset.
Qed.

Lemma binary_decides l op r f :
  positive (E_BinaryOp l op r) = true -> settled (E_BinaryOp l op r) = true ->
  (forall g, compile_inner schema l = Ok g -> positive l = true -> settled l = true -> decides (truth l) g) ->
  (forall g, compile_inner schema r = Ok g -> positive r = true -> settled r = true -> decides (truth r) g) ->
  compile_inner schema (E_BinaryOp l op r) = Ok f -> decides (truth (E_BinaryOp l op r)) f.
Proof.
  intros Hp Hs Hl Hr Hf. destruct (decide (op = BO_And \/ op = BO_Or)) as [Hop|Hop].
  - cbn [compile_inner] in Hf. apply exec_bind_ok in Hf as (fl & El & Hf). apply exec_bind_ok in Hf as (fr & Er & Hf).
    assert (positive l && positive r = true) as [Hpl Hpr]%andb_true_iff by (by destruct Hop; subst op).
    assert (settled l && settled r = true) as [Hsl Hsr]%andb_true_iff by (by destruct Hop; subst op).
    destruct (Hl _ El Hpl Hsl) as (dl & Hdl & Htl), (Hr _ Er Hpr Hsr) as (dr & Hdr & Htr). unfold decides.
    destruct Hop; subst op; injection Hf as <-; cbn [Predicates.truth]; rewrite Hdl; simpl;
      rewrite ?and3_holds, ?or3_holds, <- Htl, <- Htr; destruct (is_true dl); simpl; eauto;
      rewrite Hdr; simpl; eexists; (split; [done|]); simpl; by destruct (is_true dr).
  - destruct (comparison_op op) eqn:Ec.
    + cbn [compile_inner] in Hf. apply exec_bind_ok in Hf as (fl & El & Hf). apply exec_bind_ok in Hf as (fr & Er & Hf).
      assert (comparable op (value_at l) (value_at r) = true) as Hcmp by (destruct op; try discriminate Ec; exact Hs).
      pose proof (compare_holds op (value_at l) (value_at r) Ec Hcmp) as Hc.
      destruct op; try discriminate Ec; try discriminate Hp; injection Hf as <-; injection Hc as Hc; cbn [Predicates.truth comparison_op];
        (eapply lift2_decides; [exact El | exact Er|]); rewrite <- Hc; simpl; try done; by destruct (datum_eq _ _).
    + assert (truth (E_BinaryOp l op r) = datum3 (value_at (E_BinaryOp l op r))) as ->
        by (destruct op; try discriminate Ec; try done; exfalso; auto).
      by apply datum3_decides.
Qed.

Lemma not_decides e f :
  two_valued e = true -> settled e = true -> compile_inner schema (E_UnaryOp UO_Not e) = Ok f -> decides (truth (E_UnaryOp UO_Not e)) f.
Proof.
  intros He Hs Hf. cbn [compile_inner] in Hf. apply exec_bind_ok in Hf as (g & Hg & [= <-]). eapply lift1_decides; [exact Hg|].
  destruct e; try discriminate He; unfold Predicates.value_at at 1; rewrite Hg; cbn [compile_inner] in Hg.
  1,2: apply exec_bind_ok in Hg as (h & Hh & [= <-]); unfold lift1; rewrite (value_at_ok _ _ Hh); simpl; by destruct (is_null _).
  all: apply exec_bind_ok in Hg as (h & Hh & Hg); apply exec_bind_ok in Hg as (k & Hk & [= <-]);
    unfold lift2; rewrite (value_at_ok _ _ Hh); simpl; rewrite (value_at_ok _ _ Hk); simpl; rewrite (same_is_sql _ _ Hs); by destruct (same_value _ _).
Qed.

Lemma compile_decides e f :
  positive e = true -> settled e = true -> compile_inner schema e = Ok f -> decides (truth e) f.
Proof.
  revert f. induction e as [e IH] using expr_ind'. intros f Hp Hs Hf. destruct e; simpl in IH;
    try (by apply datum3_decides); try discriminate Hp.
  - by apply IH.
  - destruct IH. apply binary_decides; auto.
  - destruct op; [by apply not_decides | by apply datum3_decides..].
  - apply exec_bind_ok in Hf as (g & Hg & [= <-]). eapply lift1_decides; [exact Hg|]. simpl. by destruct (is_null _).
  - apply exec_bind_ok in Hf as (g & Hg & [= <-]). eapply lift1_decides; [exact Hg|]. simpl. by destruct (is_null _).
  - apply exec_bind_ok in Hf as (g & Hg & [= <-]). destruct (IH g Hp Hs Hg) as (d & Hd & Ht).
    exists (D_Bool (is_true d)). unfold lift1. rewrite Hd. simpl. split; [done|]. rewrite <- Ht. by destruct (is_true d).
  - by apply any_decides.
  - apply in_list_decides; [|done|done]. intros ->. by destruct elements.
  - destruct negated; [done|]. by apply between_decides.
  - destruct any; [done|]. cbn [compile_inner] in Hf. apply exec_bind_ok in Hf as (a & Ha & Hf). apply exec_bind_ok in Hf as (b & Hb & Hf).
    apply exec_bind_ok in Hf as (esc & Hesc & [= <-]). eapply lift2_decides; [done..|]. cbn [Predicates.truth]. rewrite Hesc. apply like_datums_holds.
  - destruct any; [done|]. cbn [compile_inner] in Hf. apply exec_bind_ok in Hf as (a & Ha & Hf). apply exec_bind_ok in Hf as (b & Hb & Hf).
    apply exec_bind_ok in Hf as (esc & Hesc & [= <-]). eapply lift2_decides; [done..|]. cbn [Predicates.truth]. rewrite Hesc. apply like_datums_holds.
  - apply exec_bind_ok in Hf as (g & Hg & Hf). apply exec_bind_ok in Hf as (h & Hh & [= <-]). eapply lift2_decides; [done..|]. simpl. rewrite (same_is_sql _ _ Hs). by destruct (same_value _ _).
  - apply exec_bind_ok in Hf as (g & Hg & Hf). apply exec_bind_ok in Hf as (h & Hh & [= <-]). eapply lift2_decides; [done..|]. simpl. rewrite (same_is_sql _ _ Hs). by destruct (same_value _ _).
Qed.

(** C16: A compiled predicate keeps a row exactly when the expression is true in SQL's three-valued
    logic, and evaluation never panics: comparison with NULL and with NULL list elements is unknown,
    the connectives are Kleene's, other values are compared by what they stand for, and operands
    have the values the evaluator gives them. It holds for every expression without <>, IS FALSE,
    negated BETWEEN and NOT IN over an empty list in which NOT is applied to NULL and distinctness
    tests only; NOT IN, LIKE and ANY are included. The compared pairs must be of the kinds the
    evaluator compares as SQL does: NULL, two integers (in an ordering not a smallint with a wider
    one), two texts, two uuids, two floats of 64 bits that are numbers, and two booleans for
    equality; dates, times, numerics and the other kinds are excluded. *)
Theorem predicate_exact sql e p :
  sql_parse_expr sql = Some e -> positive e = true -> settled e = true -> compile_predicate sql schema = Ok p ->
  p row = Ok (holds (truth e)).
Proof.
  intros He Hp Hs (f & Hf & [= <-])%exec_bind_ok. unfold compile_scalar, parse_expr in Hf. rewrite He in Hf. simpl in Hf.
  destruct (compile_decides e f Hp Hs Hf) as (d & -> & <-). done.
Qed.
End Exact.
