(* ===== verification/Consolidation.v ===== *)
(** * Consolidation: accumulating updates in place
    ([crates/palimpsest-dataflow/src/difference.rs], [consolidation.rs])

    A difference type has an addition and a zero test. [consolidate] sorts a vector
    of updates and compacts it in place, by swapping each finished run to the write
    position; [consolidate_into] is the iterator version containers inherit.
    [None] is an index out of range, which would panic. *)

From Stdlib Require Import Sorted.
From S2P Require Import Prelude BTree.

(** ** [slice::sort_by]

    A stable sort by a comparator. For a total preorder every stable sort returns
    the same list. *)

Section SortBy.
Context {A : Type} (f : A -> A -> comparison).

Fixpoint sort_by_insert (x : A) (l : list A) : list A :=
  match l with
  | [] => [x]
  | y :: l' => match f x y with Gt => y :: sort_by_insert x l' | _ => x :: y :: l' end
  end.
Definition sort_by (l : list A) : list A := foldr sort_by_insert [] l.

Definition sort_le (x y : A) : Prop := f x y <> Gt.

Lemma sort_by_insert_perm x l : sort_by_insert x l ≡ₚ x :: l.
Proof. induction l as [|y l IH]; simpl; [done|]. destruct (f x y); [done..|]. rewrite IH. apply perm_swap. Qed.

Lemma sort_by_perm l : sort_by l ≡ₚ l.
Proof. induction l as [|x l IH]; simpl; [done|]. by rewrite sort_by_insert_perm, IH. Qed.

Hypothesis Hflip : forall x y, f x y = Gt -> f y x <> Gt.
Hypothesis Htrans : forall x y z, sort_le x y -> sort_le y z -> sort_le x z.

Lemma sort_by_insert_sorted x l : StronglySorted sort_le l -> StronglySorted sort_le (sort_by_insert x l).
Proof.
  induction 1 as [|y l Hs IH Hy]; simpl; [repeat constructor|]. destruct (f x y) eqn:E.
  1,2: assert (sort_le x y) as Hxy by (unfold sort_le; congruence);
    constructor; [by constructor|]; constructor; [done|]; eapply Forall_impl; [exact Hy|]; intros z; by apply Htrans.
  constructor; [done|]. rewrite sort_by_insert_perm. constructor; [by apply Hflip | done].
Qed.

Lemma sort_by_sorted l : StronglySorted sort_le (sort_by l).
Proof. induction l as [|x l IH]; simpl; [constructor | by apply sort_by_insert_sorted]. Qed.
End SortBy.

(** ** Differences ([IsZero], [Semigroup]) *)

Class Difference (R : Type) : Type := {
  is_zero : R -> bool;
  plus_equals : R -> R -> R;
  plus_assoc a b c : plus_equals (plus_equals a b) c = plus_equals a (plus_equals b c);
  plus_comm a b : plus_equals a b = plus_equals b a
}.

(** [isize], the multiplicities of rows, as integers: exact while totals stay in the range of the type, and in
    a release build equal to the wrapping totals modulo 2^64 beyond it ([isize_wraps]). A debug build panics there. *)
#[export] Program Instance isize_Difference : Difference Z := {| is_zero z := z =? 0; plus_equals := Z.add |}.
Next Obligation. intros; lia. Qed.
Next Obligation. intros; lia. Qed.

(** Integers of width [w] whose addition wraps: [Wrapping<_>], and the primitive
    types of a release build. *)
Record wrapping (w : Z) := Wrapping { wrapped : Z }.
Arguments Wrapping {w} wrapped.
Arguments wrapped {w} _.
#[export] Program Instance wrapping_Difference (w : Z) : Difference (wrapping w) :=
  {| is_zero z := wrapped z =? 0; plus_equals a b := Wrapping (sint w (wrapped a + wrapped b)) |}.
Next Obligation. intros w [a] [b] [c]; simpl. f_equal. rewrite sint_add_l, sint_add_r. f_equal. lia. Qed.
Next Obligation. intros w [a] [b]; simpl. do 2 f_equal. lia. Qed.

(** Presence without retraction. *)
Inductive Present := present.
#[export] Program Instance Present_Difference : Difference Present := {| is_zero _ := false; plus_equals a _ := a |}.
Next Obligation. done. Qed.
Next Obligation. by intros [] []. Qed.

(** Pairs add componentwise; longer tuples are nested pairs. *)
#[export] Program Instance pair_Difference {R S} `{Difference R, Difference S} : Difference (R * S) :=
  {| is_zero p := is_zero p.1 && is_zero p.2; plus_equals p q := (plus_equals p.1 q.1, plus_equals p.2 q.2) |}.
Next Obligation. intros R S ? ? [] [] []; simpl. by rewrite !plus_assoc. Qed.
Next Obligation. intros R S ? ? [] []; simpl. by rewrite plus_comm, (plus_comm s). Qed.

(** Vectors: the common prefix adds, what is left of the longer one is kept. *)
Fixpoint vec_plus {R} `{Difference R} (a b : list R) : list R :=
  match a, b with
  | [], _ => b
  | _, [] => a
  | x :: a', y :: b' => plus_equals x y :: vec_plus a' b'
  end.
#[export] Program Instance Vec_Difference {R} `{Difference R} : Difference (list R) :=
  {| is_zero := forallb is_zero; plus_equals := vec_plus |}.
Next Obligation. intros R ?. induction a as [|x a IH]; intros [|y b] [|z c]; simpl; try done. by rewrite plus_assoc, IH. Qed.
Next Obligation. intros R ?. induction a as [|x a IH]; intros [|y b]; simpl; try done. by rewrite plus_comm, IH. Qed.

Section Consolidate.
Context {K R : Type} `{Ord K} `{Difference R}.
Abbreviation update := (K * R)%type.
#[local] Existing Instance ord_eq_dec | 100.

(** ** In place *)

(** [slice.swap(i, j)]. *)
Definition slice_swap (slice : list update) (i j : nat) : option (list update) :=
  a ← slice !! i; b ← slice !! j; Some (<[i := b]> (<[j := a]> slice)).
(** [slice[i].1 = diff]. *)
Definition set_diff (slice : list update) (i : nat) (diff : R) : option (list update) :=
  p ← slice !! i; Some (<[i := (p.1, diff)]> slice).

(** A finished run that ends at [last] moves to the write position. *)
Definition write_run (slice : list update) (offset : nat) (accum : R) (last : nat) : option (list update * nat) :=
  if is_zero accum then Some (slice, offset)
  else s ← slice_swap slice offset last; s ← set_diff s offset accum; Some (s, S offset).

Definition compact_step (st : list update * nat * R) (index : nat) : option (list update * nat * R) :=
  let '(slice, offset, accum) := st in
  cur ← slice !! index;
  prev ← slice !! (index - 1)%nat;
  if decide (cur.1 = prev.1) then Some (slice, offset, plus_equals accum cur.2)
  else wr ← write_run slice offset accum (index - 1); Some (wr, cur.2).

Fixpoint compact_loop (st : list update * nat * R) (indices : list nat) : option (list update * nat * R) :=
  match indices with
  | [] => Some st
  | i :: rest => st ← compact_step st i; compact_loop st rest
  end.

Definition by_key (x y : update) : comparison := cmp x.1 y.1.

(** The compacted slice and the length of its valid prefix. *)
Definition consolidate_slice_slow (slice : list update) : option (list update * nat) :=
  let slice := sort_by by_key slice in
  first ← slice !! 0%nat;
  st ← compact_loop (slice, 0%nat, first.2) (seq 1 (length slice - 1));
  let '(slice, offset, accum) := st in
  write_run slice offset accum (length slice - 1).

Definition consolidate_slice (slice : list update) : option (list update * nat) :=
  if (1 <? length slice)%nat then consolidate_slice_slow slice
  else Some (slice, length (filter (fun x => is_zero x.2 = false) slice)).

Definition consolidate_from (vec : list update) (offset : nat) : option (list update) :=
  if (length vec <? offset)%nat then None
  else
    sl ← consolidate_slice (drop offset vec);
    Some (take (offset + sl.2) (take offset vec ++ sl.1)).

Definition consolidate (vec : list update) : option (list update) := consolidate_from vec 0.

(** ** By iterating ([ConsolidateLayout::consolidate_into]) *)

Definition push_with_diff (key : K) (diff : R) : list update := if is_zero diff then [] else [(key, diff)].

Fixpoint accumulate_runs (prev_key : K) (prev_diff : R) (items : list update) : list update :=
  match items with
  | [] => push_with_diff prev_key prev_diff
  | (next_key, next_diff) :: rest =>
      if decide (next_key = prev_key) then accumulate_runs prev_key (plus_equals prev_diff next_diff) rest
      else push_with_diff prev_key prev_diff ++ accumulate_runs next_key next_diff rest
  end.

Definition consolidate_into (items target : list update) : list update :=
  match sort_by by_key items with
  | [] => target
  | (k, d) :: rest => target ++ accumulate_runs k d rest
  end.

(** ** What it means *)

(** The sum of the differences of a key, if it has any. *)
Fixpoint key_sum (k : K) (l : list update) : option R :=
  match l with
  | [] => None
  | (k', r) :: l' =>
      if decide (k' = k) then Some match key_sum k l' with Some s => plus_equals r s | None => r end
      else key_sum k l'
  end.
Definition non_zero (o : option R) : option R := r ← o; if is_zero r then None else Some r.

Lemma key_sum_perm k l l' : l ≡ₚ l' -> key_sum k l = key_sum k l'.
Proof.
  induction 1 as [|[k' r] l l' _ IH|[k1 r1] [k2 r2] l|? ? ? _ -> _ ->]; simpl; [done|by rewrite IH| |done].
  repeat case_decide; try done. f_equal. destruct (key_sum k l); [|apply plus_comm].
  by rewrite <- !plus_assoc, (plus_comm r2).
Qed.

Lemma by_key_sorted l : StronglySorted (sort_le by_key) (sort_by by_key l).
Proof.
  apply sort_by_sorted.
  - intros x y. unfold by_key. rewrite (cmp_antisym x.1). by intros ->.
  - intros x y z. unfold sort_le, by_key. apply (cmp_le_trans x.1 y.1 z.1).
Qed.

Lemma key_sum_below k l : Forall (fun p => cmp k p.1 = Lt) l -> key_sum k l = None.
Proof.
  induction 1 as [|[k' r] l Hk _ IH]; simpl; [done|]. case_decide as E; [|done]. subst. by rewrite cmp_refl in Hk.
Qed.

(** On sorted updates the iteration yields the map of non-zero sums. *)
Lemma accumulate_runs_spec k d items :
  StronglySorted (sort_le by_key) ((k, d) :: items) ->
  bt_wf (accumulate_runs k d items) /\ Forall (fun p => cmp k p.1 <> Gt) (accumulate_runs k d items) /\
  forall k', bt_get k' (accumulate_runs k d items) = non_zero (key_sum k' ((k, d) :: items)).
Proof.
  assert (forall k d, bt_wf (push_with_diff k d)) as Hone by (intros ? d'; unfold push_with_diff; destruct (is_zero d'); repeat constructor).
  revert k d. induction items as [|[k1 r] items IH]; intros k d Hs.
  - cbn [accumulate_runs]. split_and!; [done| |].
    + unfold push_with_diff. destruct (is_zero d); repeat constructor; by rewrite cmp_refl.
    + intros k'. unfold push_with_diff. simpl. case_decide as E; [subst|]; simpl; (destruct (is_zero d); [done|]); simpl; [by rewrite cmp_refl|].
      destruct (cmp k' k) eqn:Ek; [by apply cmp_eq in Ek | done..].
  - inversion Hs as [|? ? Hs' Hf]; subst. inversion Hf as [|? ? Hk Hf']; subst. cbn [accumulate_runs]. case_decide as E.
    + subst k1. destruct (IH k (plus_equals d r)) as (Hwf & Hge & Hget); [by inversion Hs'; constructor|].
      split_and!; [done..|]. intros k'. rewrite Hget. simpl. case_decide; [|done]. f_equal. f_equal.
      destruct (key_sum k' items); [apply plus_assoc | done].
    + destruct (IH k1 r Hs') as (Hwf & Hge & Hget).
      assert (cmp k k1 = Lt) as Hlt.
      { unfold sort_le, by_key in Hk. simpl in Hk. destruct (cmp k k1) eqn:Ek; [by apply cmp_eq in Ek | done | done]. }
      assert (Forall (fun p => cmp k p.1 = Lt) (accumulate_runs k1 r items)) as Habove.
      { eapply Forall_impl; [exact Hge|]. intros p Hp. destruct (cmp k1 p.1) eqn:Ep; [apply cmp_eq in Ep as <-; done | | done].
        by apply (cmp_trans k k1). }
      assert (key_sum k ((k1, r) :: items) = None) as Hnone.
      { apply key_sum_below. inversion Hs' as [|? ? _ Hf1]; subst. constructor; [done|]. eapply Forall_impl; [exact Hf1|].
        intros p Hp. unfold sort_le, by_key in Hp. simpl in Hp.
        destruct (cmp k1 p.1) eqn:Ep; [apply cmp_eq in Ep as <-; done | by apply (cmp_trans k k1) | done]. }
      unfold push_with_diff. destruct (is_zero d) eqn:Ed; cbn [app].
      * split_and!; [done | eapply Forall_impl; [exact Habove|]; by intros p ->|]. intros k'. rewrite Hget.
        cbn [key_sum]. destruct (decide (k = k')) as [<-|]; [|done]. cbn [key_sum] in Hnone. rewrite Hnone. simpl. by rewrite Ed.
      * split_and!.
        -- apply bt_wf_cons. split; [exact Habove | done].
        -- constructor; [by rewrite cmp_refl|]. eapply Forall_impl; [exact Habove|]. by intros p ->.
        -- intros k'. cbn [bt_get key_sum]. destruct (decide (k = k')) as [<-|Hne].
           ++ rewrite cmp_refl. cbn [key_sum] in Hnone. rewrite Hnone. simpl. by rewrite Ed.
           ++ destruct (cmp k' k) eqn:Ek; [by apply cmp_eq in Ek | | by rewrite Hget].
              symmetry. rewrite <- (bt_get_below k' (accumulate_runs k1 r items)); [by rewrite Hget|].
              eapply Forall_impl; [exact Habove|]. intros p Hp. by apply (cmp_trans k' k).
Qed.

(** ** The in-place loop *)

(** Moving a run touches only positions up to its end. *)
Lemma write_run_spec slice offset accum last p :
  (offset <= last)%nat -> slice !! last = Some p ->
  exists slice' offset', write_run slice offset accum last = Some (slice', offset') /\
    length slice' = length slice /\ (offset' <= S last)%nat /\ drop (S last) slice' = drop (S last) slice /\
    take offset' slice' = take offset slice ++ push_with_diff p.1 accum.
Proof.
  intros Ho Hp. pose proof (lookup_lt_Some _ _ _ Hp) as Hlt. unfold write_run, push_with_diff. destruct (is_zero accum).
  { eexists _, _. split; [done|]. rewrite app_nil_r. repeat split; auto. }
  destruct (lookup_lt_is_Some_2 slice offset) as [q Hq]; [lia|].
  unfold slice_swap. rewrite Hq, Hp. simpl. unfold set_diff.
  rewrite list_lookup_insert_eq by (rewrite length_insert; lia). simpl. rewrite list_insert_insert_eq.
  eexists _, _. split; [done|]. split_and!; [by rewrite !length_insert | lia | |].
  - by rewrite !drop_insert_lt by lia.
  - rewrite (take_S_r _ _ (p.1, accum)) by (apply list_lookup_insert_eq; rewrite length_insert; lia).
    by rewrite !take_insert_ge by lia.
Qed.

(** Before index [i] the prefix and the rest of the iteration make up the result. *)
Definition compact_inv (s0 result : list update) (i : nat) (st : list update * nat * R) : Prop :=
  let '(slice, offset, accum) := st in
  length slice = length s0 /\ drop i slice = drop i s0 /\ (offset < i)%nat /\
  exists p, slice !! (i - 1)%nat = Some p /\ take offset slice ++ accumulate_runs p.1 accum (drop i s0) = result.

Lemma compact_step_inv s0 result i st :
  (1 <= i < length s0)%nat -> compact_inv s0 result i st ->
  exists st', compact_step st i = Some st' /\ compact_inv s0 result (S i) st'.
Proof.
  destruct st as [[slice offset] accum]. intros Hi (Hlen & Hdrop & Hoff & p & Hp & Hres).
  destruct (lookup_lt_is_Some_2 slice i) as [[k r] Hc]; [lia|].
  assert (drop i s0 = (k, r) :: drop (S i) s0) as Hd.
  { apply drop_S. by rewrite <- (Nat.add_0_r i), <- lookup_drop, <- Hdrop, lookup_drop, Nat.add_0_r. }
  unfold compact_step. rewrite Hc, Hp. simpl. rewrite Hd in Hres. cbn [accumulate_runs] in Hres.
  assert (drop (S i) slice = drop (S i) s0) as Hd'.
  { replace (S i) with (i + 1)%nat by lia. by rewrite <- !drop_drop, Hdrop. }
  case_decide as E.
  - subst k. eexists. split; [done|]. split_and!; [done..|lia|]. exists (p.1, r). simpl. by rewrite Nat.sub_0_r.
  - destruct (write_run_spec slice offset accum (i - 1) p) as (s' & o' & -> & Hl' & Ho' & Hdr & Ht); [lia | done|].
    simpl. eexists. split; [done|]. replace (S (i - 1)) with i in * by lia. split_and!.
    + lia.
    + replace (S i) with (i + 1)%nat by lia. rewrite <- !drop_drop, Hdr, Hdrop. done.
    + lia.
    + exists (k, r). simpl. rewrite Nat.sub_0_r. split.
      * rewrite <- (Nat.add_0_r i), <- lookup_drop, Hdr, lookup_drop, Nat.add_0_r. done.
      * by rewrite Ht, <- app_assoc.
Qed.

Lemma compact_loop_inv s0 result n i st :
  (1 <= i)%nat -> (i + n = length s0)%nat -> compact_inv s0 result i st ->
  exists st', compact_loop st (seq i n) = Some st' /\ compact_inv s0 result (length s0) st'.
Proof.
  revert i st. induction n as [|n IH]; intros i st Hi Hn Hinv; simpl.
  - exists st. split; [done|]. by replace (length s0) with i by lia.
  - destruct (compact_step_inv s0 result i st) as (st' & -> & Hst'); [lia | done|]. simpl. apply IH; [lia.. | done].
Qed.

Lemma consolidate_slice_spec slice :
  exists slice' n, consolidate_slice slice = Some (slice', n) /\ take n slice' = consolidate_into slice [].
Proof.
  unfold consolidate_slice, consolidate_into. destruct (Nat.ltb_spec 1 (length slice)) as [Hlt|Hle].
  - unfold consolidate_slice_slow. pose proof (Permutation_length (sort_by_perm by_key slice)) as Hlen.
    destruct (sort_by by_key slice) as [|[k d] rest] eqn:E; [simpl in Hlen; lia|].
    set (s0 := (k, d) :: rest) in *. cbv zeta. change (s0 !! 0%nat) with (Some (k, d)).
    destruct (compact_loop_inv s0 (accumulate_runs k d rest) (length s0 - 1) 1 (s0, 0%nat, d)) as ([[s o] a] & Hl & Hinv).
    { lia. } { simpl. lia. }
    { split_and!; [done | done | lia|]. by exists (k, d). }
    unfold mbind at 1, option_bind at 1. cbn [snd]. rewrite Hl. simpl. destruct Hinv as (Hls & _ & Ho & p & Hp & Hres). rewrite drop_all in Hres. cbn [accumulate_runs] in Hres.
    rewrite <- Hls in Hp. destruct (write_run_spec s o a (length s - 1) p) as (s' & o' & -> & _ & _ & _ & Ht); [lia | done|].
    exists s', o'. split; [done|]. by rewrite Ht.
  - destruct slice as [|[k d] [|]]; simpl in Hle; [..|lia]; eexists _, _; (split; [done|]); [done|].
    rewrite filter_cons. simpl. unfold push_with_diff. by destruct (is_zero d).
Qed.

Lemma consolidate_into_spec l :
  bt_wf (consolidate_into l []) /\ forall k, bt_get k (consolidate_into l []) = non_zero (key_sum k l).
Proof.
  unfold consolidate_into. pose proof (by_key_sorted l) as Hs. setoid_rewrite <- (fun k => key_sum_perm k _ _ (sort_by_perm by_key l)).
  destruct (sort_by by_key l) as [|[k d] rest]; [split; [constructor | done]|]. by destruct (accumulate_runs_spec k d rest Hs) as (? & _ & ?).
Qed.

Lemma consolidate_ok vec : consolidate vec = Some (consolidate_into vec []).
Proof.
  unfold consolidate, consolidate_from. simpl. rewrite drop_0. destruct (consolidate_slice_spec vec) as (s & n & -> & Ht).
  simpl. by rewrite Ht.
Qed.

(** C26: In-place consolidation never goes out of bounds and leaves the strictly sorted vector that
    holds, for every key, the sum of its differences in the input, without the keys whose sum is
    zero, for every commutative difference type. *)
Theorem consolidate_exact vec :
  exists out, consolidate vec = Some out /\ bt_wf out /\
    forall k, bt_get k out = non_zero (key_sum k vec).
Proof. destruct (consolidate_into_spec vec). exists (consolidate_into vec []). by rewrite consolidate_ok. Qed.
End Consolidate.

(** The machine's totals are the integers' modulo 2^w, whatever overflows on the way. *)
Lemma isize_wraps {K} `{Ord K} w k (l : list (K * Z)) :
  key_sum k (map (fun p => (p.1, Wrapping (w := w) (sint w p.2))) l) = (fun s => Wrapping (w := w) (sint w s)) <$> key_sum k l.
Proof.
  induction l as [|[k' r] l IH]; [done|]. cbn [map fst snd key_sum]. rewrite IH. case_decide; [|done].
  destruct (key_sum k l) as [s|]; [|done]. simpl. by rewrite sint_add_l, sint_add_r.
Qed.
