(* ===== verification/Operators.v ===== *)
(** * Operators: collections and the differential operators the queries use
    ([crates/palimpsest-dataflow/src/collection.rs], [operators/])

    A collection is given by its updates accumulated at one time: records with
    weights. Two collections are the same when every record has the same total
    weight ([Equiv]). The per-record operators are the lists the source builds;
    [join], [reduce] and [distinct], which the source maintains incrementally over
    arrangements, are what their contracts promise of the accumulated input:
    products of weights for matching keys, and the closure applied to the sorted,
    consolidated, non-empty values of each key. *)

From Stdlib Require Import Sorted.
From S2P Require Import Prelude BTree Consolidation.

Definition collection (D : Type) : Type := list (D * Z).

Definition ord_eqb {K} `{Ord K} (a b : K) : bool := match cmp a b with Eq => true | _ => false end.
Lemma ord_eqb_spec {K} `{Ord K} (a b : K) : reflect (a = b) (ord_eqb a b).
Proof.
  unfold ord_eqb. destruct (cmp a b) eqn:E; constructor; [by apply cmp_eq | |]; intros ->; by rewrite cmp_refl in E.
Qed.
Lemma ord_eqb_refl {K} `{Ord K} (a : K) : ord_eqb a a = true.
Proof. by destruct (ord_eqb_spec a a). Qed.

(** ** Weights *)

(** The weighted sum of a function over a collection. *)
Definition total {D} (f : D -> Z) (c : collection D) : Z := foldr (fun p acc => p.2 * f p.1 + acc) 0 c.
Definition indicator (b : bool) : Z := if b then 1 else 0.
(** The accumulated weight of a record. *)
Definition mult {D} `{Ord D} (d : D) (c : collection D) : Z := total (fun x => indicator (ord_eqb x d)) c.

#[export] Instance collection_equiv {D} `{Ord D} : Equiv (collection D) := fun c c' => forall d, mult d c = mult d c'.
#[export] Instance collection_equivalence {D} `{Ord D} : Equivalence (≡@{collection D}).
Proof. split; [intros c d; done | intros c c' E d; by rewrite E | intros c1 c2 c3 E E' d; by rewrite E]. Qed.

(** A bag: no record has a negative weight. *)
Definition bag {D} `{Ord D} (c : collection D) : Prop := forall d, 0 <= mult d c.

Lemma total_app {D} f (c c' : collection D) : total f (c ++ c') = total f c + total f c'.
Proof. induction c as [|p c IH]; simpl; [done|]. lia. Qed.

Section Total.
Context {D : Type}.

Lemma total_ext f g (c : collection D) : (forall d, f d = g d) -> total f c = total g c.
Proof. intros E. induction c as [|p c IH]; simpl; [done|]. by rewrite IH, E. Qed.
Lemma total_add f g (c : collection D) : total (fun d => f d + g d) c = total f c + total g c.
Proof. induction c as [|p c IH]; simpl; [done|]. lia. Qed.
Lemma total_scale k f (c : collection D) : total (fun d => k * f d) c = k * total f c.
Proof. induction c as [|p c IH]; simpl; [lia|]. rewrite IH. lia. Qed.
Lemma total_zero (c : collection D) : total (fun _ => 0) c = 0.
Proof. induction c as [|p c IH]; simpl; lia. Qed.
Lemma total_map {D'} (g : D -> D') f (c : collection D) : total f (map (fun p => (g p.1, p.2)) c) = total (fun d => f (g d)) c.
Proof. induction c as [|p c IH]; simpl; [done|]. by rewrite IH. Qed.
Lemma total_flat_map {D'} (g : D * Z -> collection D') f (c : collection D) :
  total f (flat_map g c) = foldr (fun p acc => total f (g p) + acc) 0 c.
Proof. induction c as [|p c IH]; simpl; [done|]. by rewrite total_app, IH. Qed.
Lemma total_filter (P : D -> bool) f (c : collection D) :
  total f (List.filter (fun p => P p.1) c) = total (fun d => if P d then f d else 0) c.
Proof. induction c as [|p c IH]; simpl; [done|]. destruct (P p.1); simpl; rewrite IH; lia. Qed.
Lemma total_filter_split (P : D -> bool) f (c : collection D) :
  total f c = total f (List.filter (fun p => P p.1) c) + total f (List.filter (fun p => negb (P p.1)) c).
Proof.
  rewrite (total_filter P), (total_filter (fun d => negb (P d))), <- total_add. apply total_ext. intros d. destruct (P d); simpl; lia.
Qed.
Lemma length_filter_le {A} (P : A -> bool) (l : list A) : (length (List.filter P l) <= length l)%nat.
Proof. induction l as [|x l IH]; simpl; [lia|]. destruct (P x); simpl; lia. Qed.
End Total.

Section Weights.
Context {D : Type} `{Ord D}.

Lemma mult_app d (c c' : collection D) : mult d (c ++ c') = mult d c + mult d c'.
Proof. apply total_app. Qed.

Lemma mult_filter d (P : D -> bool) (c : collection D) :
  mult d (List.filter (fun p => P p.1) c) = if P d then mult d c else 0.
Proof.
  unfold mult. rewrite total_filter. destruct (P d) eqn:E.
  - apply total_ext. intros x. destruct (ord_eqb_spec x d) as [->|]; [by rewrite E | by destruct (P x)].
  - etrans; [|apply (total_zero c)]. apply total_ext. intros x. destruct (ord_eqb_spec x d) as [->|]; [by rewrite E | by destruct (P x)].
Qed.

(** One record's share of a sum. *)
Lemma total_one f (c : collection D) d :
  total f (List.filter (fun p => ord_eqb p.1 d) c) = mult d c * f d.
Proof.
  rewrite (total_filter (fun x => ord_eqb x d)). unfold mult. rewrite Z.mul_comm, <- total_scale. apply total_ext.
  intros x. destruct (ord_eqb_spec x d) as [->|]; simpl; lia.
Qed.

Lemma total_null f (c : collection D) : (forall d, mult d c = 0) -> total f c = 0.
Proof.
  remember (length c) as n eqn:Hn. revert c Hn. induction n as [n IH] using lt_wf_ind. intros c Hn Hz.
  destruct c as [|[d w] c']; [done|]. set (c := (d, w) :: c') in *.
  rewrite (total_filter_split (fun x => ord_eqb x d)), total_one, Hz.
  rewrite (IH (length (List.filter (fun p => negb (ord_eqb p.1 d)) c))); [lia| |done|].
  - rewrite Hn. unfold c. simpl. rewrite ord_eqb_refl. simpl.
    pose proof (length_filter_le (fun p : D * Z => negb (ord_eqb p.1 d)) c'). lia.
  - intros x. rewrite (mult_filter x (fun y => negb (ord_eqb y d))), Hz. by destruct (negb _).
Qed.

(** A sum depends on the weights only. *)
Lemma total_proper f (c c' : collection D) : c ≡ c' -> total f c = total f c'.
Proof.
  assert (forall k g, total g (map (fun p : D * Z => (p.1, k * p.2)) c') = k * total g c') as Hneg.
  { intros k g. induction c' as [|p l IH]; simpl; [lia|]. rewrite IH. lia. }
  intros E.
  assert (total f (c ++ map (fun p : D * Z => (p.1, -1 * p.2)) c') = 0) as Hz.
  { apply total_null. intros d. rewrite mult_app. unfold mult at 2. rewrite Hneg. fold (mult d c'). rewrite E. lia. }
  rewrite total_app, Hneg in Hz. lia.
Qed.

(** ** Consolidated collections *)

(** Sorted, one entry per record, no zero weights. *)
Definition consolidated (c : collection D) : collection D := consolidate_into c [].

Lemma key_sum_mult d (c : collection D) : default 0 (key_sum d c) = mult d c.
Proof.
  induction c as [|[x w] c IH]; [done|]. unfold mult in *. simpl.
  case_decide as E.
  - subst x. rewrite ord_eqb_refl. destruct (key_sum d c); simpl in *; lia.
  - destruct (ord_eqb_spec x d); [done|]. simpl. lia.
Qed.

Lemma consolidated_wf c : bt_wf (consolidated c).
Proof. apply consolidate_into_spec. Qed.

Lemma consolidated_get d c : bt_get d (consolidated c) = if mult d c =? 0 then None else Some (mult d c).
Proof.
  unfold consolidated. rewrite (proj2 (consolidate_into_spec c)). rewrite <- key_sum_mult.
  destruct (key_sum d c) as [r|]; simpl; done.
Qed.

Lemma consolidated_elem d w c : (d, w) ∈ consolidated c <-> w = mult d c /\ w <> 0.
Proof.
  rewrite <- bt_get_in by apply consolidated_wf. rewrite consolidated_get. destruct (Z.eqb_spec (mult d c) 0); naive_solver lia.
Qed.

Lemma consolidated_proper (c c' : collection D) : c ≡ c' -> consolidated c = consolidated c'.
Proof. intros E. apply bt_ext; [apply consolidated_wf..|]. intros d. by rewrite !consolidated_get, E. Qed.

(** The weight of a record in a list with one entry per record. *)
Lemma mult_bt d (m : btree D Z) : bt_wf m -> mult d m = default 0 (bt_get d m).
Proof.
  induction m as [|[k v] m IH]; [done|]. intros [Hk Hm]%bt_wf_cons. unfold mult in *. simpl. rewrite IH by done.
  destruct (ord_eqb_spec k d) as [->|Hne].
  - rewrite cmp_refl. simpl. rewrite bt_get_below by done. simpl. lia.
  - destruct (cmp d k) eqn:E; simpl; [by apply cmp_eq in E| |lia]. rewrite bt_get_below; [simpl; lia|].
    eapply Forall_impl; [exact Hk|]. intros p. by apply cmp_trans.
Qed.

Lemma consolidated_equiv c : consolidated c ≡ c.
Proof. intros d. rewrite mult_bt, consolidated_get by apply consolidated_wf. by destruct (Z.eqb_spec (mult d c) 0). Qed.

Lemma total_consolidated f c : total f (consolidated c) = total f c.
Proof. apply total_proper, consolidated_equiv. Qed.
End Weights.

(** ** Per-record operators ([collection.rs]) *)

Definition coll_map {D D'} (logic : D -> D') (c : collection D) : collection D' := map (fun p => (logic p.1, p.2)) c.
Definition coll_filter {D} (logic : D -> bool) (c : collection D) : collection D := List.filter (fun p => logic p.1) c.
Definition coll_concat {D} (a b : collection D) : collection D := a ++ b.
Definition coll_negate {D} (c : collection D) : collection D := map (fun p => (p.1, - p.2)) c.

Lemma total_negate {D} f (c : collection D) : total f (coll_negate c) = - total f c.
Proof. induction c as [|p c IH]; simpl; [done|]. lia. Qed.

(** ** Joins ([operators/join.rs]) *)

Section Join.
Context {K V V2 : Type} `{Ord K}.

Definition join_map {D} (logic : K -> V -> V2 -> D) (a : collection (K * V)) (b : collection (K * V2)) : collection D :=
  flat_map (fun p => flat_map (fun q =>
    if ord_eqb p.1.1 q.1.1 then [(logic p.1.1 p.1.2 q.1.2, p.2 * q.2)] else []) b) a.

Definition semijoin (a : collection (K * V)) (keys : collection K) : collection (K * V) :=
  flat_map (fun p => flat_map (fun q => if ord_eqb p.1.1 q.1 then [(p.1, p.2 * q.2)] else []) keys) a.

Definition antijoin (a : collection (K * V)) (keys : collection K) : collection (K * V) :=
  coll_concat a (coll_negate (semijoin a keys)).

(** The product of the matching weights. *)
Lemma total_join {D} (logic : K -> V -> V2 -> D) f a b :
  total f (join_map logic a b) =
  total (fun p => total (fun q => indicator (ord_eqb p.1 q.1) * f (logic p.1 p.2 q.2)) b) a.
Proof.
  unfold join_map. rewrite total_flat_map. induction a as [|[[k v] w] a IH]; simpl; [done|]. rewrite IH. f_equal.
  rewrite total_flat_map. clear IH. induction b as [|[[k2 v2] w2] b IH]; simpl; [lia|]. rewrite IH.
  destruct (ord_eqb k k2); simpl; lia.
Qed.

Lemma total_semijoin f a keys :
  total f (semijoin a keys) = total (fun p => mult p.1 keys * f p) a.
Proof.
  unfold semijoin. rewrite total_flat_map. induction a as [|[[k v] w] a IH]; simpl; [done|]. rewrite IH. f_equal.
  rewrite total_flat_map. unfold mult. clear IH. induction keys as [|[k2 w2] b IH]; simpl; [lia|]. rewrite IH.
  destruct (ord_eqb_spec k k2) as [->|Hne]; simpl; [rewrite ord_eqb_refl; simpl; lia|].
  destruct (ord_eqb_spec k2 k); [by subst|]. simpl. lia.
Qed.

Lemma total_antijoin f a keys :
  total f (antijoin a keys) = total (fun p => (1 - mult p.1 keys) * f p) a.
Proof.
  unfold antijoin, coll_concat. rewrite total_app, total_negate, total_semijoin.
  assert (total f a - total (fun p => mult p.1 keys * f p) a = total (fun p => f p + -1 * (mult p.1 keys * f p)) a) as E
    by (rewrite total_add, total_scale; lia).
  replace (total f a + _) with (total f a - total (fun p => mult p.1 keys * f p) a) by lia. rewrite E.
  apply total_ext. intros p. lia.
Qed.
End Join.

(** ** Reduction ([operators/reduce.rs]) *)

Lemma cmp_pair {A B} `{Ord A, Ord B} (k k' : A) (v v' : B) :
  cmp (k, v) (k', v') = match cmp k k' with Eq => cmp v v' | c => c end.
Proof. done. Qed.

Section Reduce.
Context {K V : Type} `{Ord K} `{Ord V}.
#[local] Existing Instance ord_eq_dec | 100.

(** The values of a key, sorted, with their non-zero weights. *)
Definition group (k : K) (c : collection (K * V)) : list (V * Z) :=
  map (fun p => (p.1.2, p.2)) (List.filter (fun p => ord_eqb p.1.1 k) (consolidated c)).
(** The keys with a value. *)
Definition group_keys (c : collection (K * V)) : list K := dedup (map (fun p => p.1.1) (consolidated c)).

(** The closure runs on each key's non-empty values, sorted. *)
Definition reduce {V2} (logic : K -> list (V * Z) -> list (V2 * Z)) (c : collection (K * V)) : collection (K * V2) :=
  flat_map (fun k => map (fun p => ((k, p.1), p.2)) (logic k (group k c))) (group_keys c).

Lemma group_wf k c : bt_wf (group k c).
Proof.
  unfold group. pose proof (consolidated_wf c) as Hwf. induction (consolidated c) as [|[[k1 v1] w1] l IH]; [constructor|].
  apply bt_wf_cons in Hwf as [Hlt Hwf]. simpl. destruct (ord_eqb_spec k1 k) as [->|]; [|by apply IH].
  simpl. apply bt_wf_cons. split; [|by apply IH]. apply Forall_map, Forall_forall. intros [[k2 v2] w2] Hin. simpl.
  apply list_elem_of_In, filter_In in Hin as [Hin Hk]. apply list_elem_of_In in Hin.
  rewrite Forall_forall in Hlt. specialize (Hlt _ Hin). cbn [fst snd] in *. destruct (ord_eqb_spec k2 k) as [->|]; [|done].
  by rewrite cmp_pair, cmp_refl in Hlt.
Qed.

Lemma group_elem k c v w : (v, w) ∈ group k c <-> w = mult (k, v) c /\ w <> 0.
Proof.
  unfold group. rewrite <- consolidated_elem. rewrite list_elem_of_fmap. split.
  - intros ([[k' v'] w'] & [= -> ->] & Hin). apply list_elem_of_In, filter_In in Hin as [Hin Hk]. simpl in Hk.
    destruct (ord_eqb_spec k' k) as [->|]; [by apply list_elem_of_In | done].
  - intros Hin. exists (k, v, w). split; [done|]. apply list_elem_of_In, filter_In. split; [by apply list_elem_of_In | apply ord_eqb_refl].
Qed.

(** Sums over a group are sums over the collection. *)
Lemma total_group f k c : total f (group k c) = total (fun p => indicator (ord_eqb p.1 k) * f p.2) c.
Proof.
  rewrite <- (total_consolidated _ c). unfold group. induction (consolidated c) as [|[[k' v] w] l IH]; simpl; [done|].
  destruct (ord_eqb k' k); simpl; rewrite IH; lia.
Qed.

Lemma group_nil k c : group k c = [] <-> k ∉ group_keys c.
Proof.
  unfold group_keys. rewrite dedup_elem_of, list_elem_of_fmap. unfold group. split.
  - intros E ([[k' v] w] & -> & Hin). simpl in E.
    assert ((k', v, w) ∈ List.filter (fun p : K * V * Z => ord_eqb p.1.1 k') (consolidated c)) as Hf
      by (apply list_elem_of_In, filter_In; split; [by apply list_elem_of_In | apply ord_eqb_refl]).
    apply map_eq_nil in E. rewrite E in Hf. by apply elem_of_nil in Hf.
  - intros Hk. destruct (List.filter _ _) as [|[[k' v] w] l] eqn:E; [done|]. exfalso. apply Hk.
    assert (List.In (k', v, w) (List.filter (fun p : K * V * Z => ord_eqb p.1.1 k) (consolidated c))) as Hin by (rewrite E; by left).
    apply filter_In in Hin as [Hin Hk']. exists (k', v, w). split; [|by apply list_elem_of_In].
    simpl in *. by destruct (ord_eqb_spec k' k).
Qed.

Lemma group_keys_NoDup c : NoDup (group_keys c).
Proof.
  apply dedup_NoDup. pose proof (consolidated_wf c) as Hwf. apply StronglySorted_Sorted.
  induction (consolidated c) as [|[[k v] w] l IH]; simpl; [constructor|]. apply bt_wf_cons in Hwf as [Hlt Hwf].
  constructor; [by apply IH|]. apply Forall_map. eapply Forall_impl; [exact Hlt|]. intros [[k' v'] w']. cbn [fst snd].
  rewrite cmp_pair. unfold cmp_le. by destruct (cmp k k').
Qed.

(** The weight of an output. *)
Lemma reduce_mult {V2} `{Ord V2} (logic : K -> list (V * Z) -> list (V2 * Z)) c k x :
  mult (k, x) (reduce logic c) = match group k c with [] => 0 | vs => mult x (logic k vs) end.
Proof.
  assert (forall k', mult (k, x) (map (fun p => ((k', p.1), p.2)) (logic k' (group k' c)))
    = if ord_eqb k' k then mult x (logic k (group k c)) else 0) as Hone.
  { intros k'. unfold mult. rewrite (total_map (fun y => (k', y))). destruct (ord_eqb_spec k' k) as [->|Hne].
    - apply total_ext. intros y. unfold ord_eqb. by rewrite cmp_pair, cmp_refl.
    - etrans; [|apply (total_zero (logic k' (group k' c)))]. apply total_ext. intros y. destruct (ord_eqb_spec (k', y) (k, x)) as [[= -> ->]|]; done. }
  assert (forall ks, NoDup ks ->
    mult (k, x) (flat_map (fun k => map (fun p => ((k, p.1), p.2)) (logic k (group k c))) ks)
    = if decide (k ∈ ks) then mult x (logic k (group k c)) else 0) as Hall.
  { induction 1 as [|k1 ks Hk Hn IH]; [done|]. cbn [flat_map]. rewrite mult_app, IH, Hone.
    destruct (ord_eqb_spec k1 k) as [->|Hne]; [rewrite (decide_False (P := k ∈ ks)), decide_True by (done || by constructor); lia|].
    destruct (decide (k ∈ ks)); [rewrite decide_True by (by constructor); lia | rewrite decide_False; [done|]].
    by intros [->|]%elem_of_cons. }
  unfold reduce. rewrite Hall by apply group_keys_NoDup. destruct (group k c) eqn:E.
  - rewrite decide_False; [done|]. by apply group_nil.
  - rewrite decide_True; [done|]. destruct (decide (k ∈ group_keys c)); [done|]. by rewrite (proj2 (group_nil k c)) in E.
Qed.

Lemma group_proper k (c c' : collection (K * V)) : c ≡ c' -> group k c = group k c'.
Proof. intros E. unfold group. by rewrite (consolidated_proper _ _ E). Qed.

Lemma reduce_proper {V2} (logic : K -> list (V * Z) -> list (V2 * Z)) c c' : c ≡ c' -> reduce logic c = reduce logic c'.
Proof. intros E. unfold reduce, group_keys, group. by rewrite (consolidated_proper _ _ E). Qed.
End Reduce.

#[export] Program Instance unit_Ord : Ord unit := {| cmp _ _ := Eq |}.
Next Obligation. by intros [] []. Qed.
Next Obligation. done. Qed.
Next Obligation. done. Qed.

(** ** Thresholds *)

Section Threshold.
Context {K : Type} `{Ord K}.

(** [s[0].1] is the one value's weight; the slice is never empty. *)
Definition threshold (thresh : K -> Z -> Z) (c : collection K) : collection K :=
  coll_map fst (reduce (fun k s => match s with (_, w) :: _ => [(tt, thresh k w)] | [] => [] end)
    (coll_map (fun k => (k, tt)) c)).

Definition distinct (c : collection K) : collection K := threshold (fun _ _ => 1) c.

Lemma mult_fst k (c : collection (K * unit)) : mult k (coll_map fst c) = mult (k, tt) c.
Proof.
  unfold mult, coll_map. rewrite (total_map fst). apply total_ext. intros [k' []]. simpl.
  destruct (ord_eqb_spec k' k) as [->|]; [by rewrite ord_eqb_refl|]. by destruct (ord_eqb_spec (k', ()) (k, ())) as [[= ->]|].
Qed.

Lemma mult_keyed k (c : collection K) : mult (k, tt) (coll_map (fun k => (k, tt)) c) = mult k c.
Proof.
  unfold mult, coll_map. rewrite (total_map (fun k => (k, tt))). apply total_ext. intros k'.
  destruct (ord_eqb_spec k' k) as [->|]; [by rewrite ord_eqb_refl|]. by destruct (ord_eqb_spec (k', ()) (k, ())) as [[= ->]|].
Qed.

Lemma threshold_mult thresh k c : mult k (threshold thresh c) = if mult k c =? 0 then 0 else thresh k (mult k c).
Proof.
  unfold threshold. rewrite mult_fst, reduce_mult. destruct (group k _) as [|[[] w] vs] eqn:E.
  - destruct (Z.eqb_spec (mult k c) 0) as [|Hne]; [done|]. exfalso.
    assert ((tt, mult k c) ∈ group k (coll_map (fun k => (k, tt)) c)) as Hin by (apply group_elem; by rewrite mult_keyed).
    rewrite E in Hin. by apply elem_of_nil in Hin.
  - assert ((tt, w) ∈ group k (coll_map (fun k => (k, tt)) c)) as [-> Hne]%group_elem by (rewrite E; by constructor).
    rewrite mult_keyed in *. destruct (Z.eqb_spec (mult k c) 0); [done|]. unfold mult at 1. simpl. lia.
Qed.

Lemma distinct_mult k c : mult k (distinct c) = indicator (negb (mult k c =? 0)).
Proof. unfold distinct. rewrite threshold_mult. by destruct (mult k c =? 0). Qed.
End Threshold.

(** ** One incremental step ([reduce_abelian])

    The change is what the closure produces minus what was produced before. *)

Section Change.
Context {K V V2 : Type} `{Ord V2}.

Definition reduce_change (logic : K -> list (V * Z) -> list (V2 * Z)) (key : K) (input : list (V * Z)) (output : list (V2 * Z))
  : option (list (V2 * Z)) :=
  let change := match input with [] => [] | _ :: _ => logic key input end in
  consolidate (change ++ coll_negate output).

Lemma reduce_change_exact logic key input output :
  exists change, reduce_change logic key input output = Some change /\
    output ++ change ≡ (match input with [] => [] | _ :: _ => logic key input end : collection V2).
Proof.
  unfold reduce_change. cbv zeta. rewrite consolidate_ok. eexists. split; [done|]. intros d.
  match goal with |- context [consolidate_into ?c []] => change (consolidate_into c []) with (consolidated c) end.
  rewrite mult_app, (consolidated_equiv _ d), mult_app. unfold mult. rewrite total_negate. destruct input; unfold collection; lia.
Qed.
End Change.

(** ** Totally ordered times ([operators/count.rs], [operators/threshold.rs])

    A key's updates arrive one by one; [count] is the weight so far, if any. *)

Section Total_order.
Context {K : Type} `{Ord K}.

Definition count_update (key : K) (count : option Z) (diff : Z) : option Z * collection (K * Z) :=
  let retract := match count with Some c => if c =? 0 then [] else [((key, c), -1)] | None => [] end in
  let count := match count with Some c => c + diff | None => diff end in
  (Some count, retract ++ (if count =? 0 then [] else [((key, count), 1)])).

Fixpoint count_total (key : K) (count : option Z) (diffs : list Z) : option Z * collection (K * Z) :=
  match diffs with
  | [] => (count, [])
  | diff :: rest =>
      let '(count, out) := count_update key count diff in
      let '(count, outs) := count_total key count rest in (count, out ++ outs)
  end.

(** The closure [threshold_total] passes down. *)
Definition threshold_difference (thresh : K -> Z -> Z) (key : K) (new : Z) (old : option Z) : option Z :=
  let new := thresh key new + match old with Some old => - thresh key old | None => 0 end in
  if new =? 0 then None else Some new.

Definition threshold_update (thresh : K -> Z -> Z) (key : K) (count : option Z) (diff : Z) : option Z * collection K :=
  let temp := match count with Some old => old + diff | None => diff end in
  (Some temp, match threshold_difference thresh key temp count with Some d => [(key, d)] | None => [] end).

Fixpoint threshold_total (thresh : K -> Z -> Z) (key : K) (count : option Z) (diffs : list Z) : option Z * collection K :=
  match diffs with
  | [] => (count, [])
  | diff :: rest =>
      let '(count, out) := threshold_update thresh key count diff in
      let '(count, outs) := threshold_total thresh key count rest in (count, out ++ outs)
  end.

Definition distinct_total (key : K) (diffs : list Z) : collection K := (threshold_total (fun _ _ => 1) key None diffs).2.

(** The record a count stands for. *)
Definition counted (key : K) (count : option Z) : collection (K * Z) :=
  match count with Some c => if c =? 0 then [] else [((key, c), 1)] | None => [] end.

Lemma count_total_exact key count diffs :
  (count_total key count diffs).2 ++ counted key count ≡ counted key (count_total key count diffs).1.
Proof.
  revert count. induction diffs as [|diff rest IH]; intros count d; [done|]. cbn [count_total].
  destruct (count_update key count diff) as [c out] eqn:E. specialize (IH c d).
  destruct (count_total key c rest) as [c' outs]. simpl in *. rewrite !mult_app in *.
  enough (mult d out + mult d (counted key count) = mult d (counted key c)) by lia.
  unfold count_update in E. injection E as <- <-. rewrite mult_app. unfold counted.
  destruct count as [old|]; [|destruct (diff =? 0); unfold mult; simpl; lia]. destruct (old =? 0), (old + diff =? 0); unfold mult; simpl; lia.
Qed.

(** The total emitted telescopes to the threshold of the final weight. *)
Lemma threshold_total_exact thresh key diffs : diffs <> [] ->
  let '(count, out) := threshold_total thresh key None diffs in
  count = Some (fold_right Z.add 0 diffs) /\ mult key out = thresh key (fold_right Z.add 0 diffs).
Proof.
  assert (forall count diffs, let '(count', out) := threshold_total thresh key (Some count) diffs in
    count' = Some (count + fold_right Z.add 0 diffs) /\
    mult key out = thresh key (count + fold_right Z.add 0 diffs) - thresh key count) as Hsome.
  { intros count ds. revert count. induction ds as [|diff rest IH]; intros count; cbn [threshold_total fold_right].
    - rewrite Z.add_0_r. split; [done|]. unfold mult. simpl. lia.
    - unfold threshold_update. specialize (IH (count + diff)). destruct (threshold_total _ _ _ rest) as [c out].
      destruct IH as [-> Hout]. split; [f_equal; lia|]. rewrite mult_app, Hout, Z.add_assoc. unfold threshold_difference.
      destruct (Z.eqb_spec (thresh key (count + diff) + - thresh key count) 0); unfold mult; simpl; rewrite ?ord_eqb_refl; simpl; lia. }
  destruct diffs as [|diff rest]; [done|]. intros _. cbn [threshold_total fold_right]. unfold threshold_update.
  specialize (Hsome diff rest). destruct (threshold_total _ _ _ rest) as [c out]. destruct Hsome as [-> Hout]. split; [done|].
  rewrite mult_app, Hout. unfold threshold_difference.
  destruct (Z.eqb_spec (thresh key diff + 0) 0); unfold mult; simpl; rewrite ?ord_eqb_refl; simpl; lia.
Qed.
End Total_order.
