(* ===== verification/Relational.v ===== *)
(** * Relational: the relational operators of a query
    ([crates/palimpsest-dataflow/src/palimpsest/relational.rs])

    Each function is the composition of differential operators the source writes,
    over the accumulated collections of [Operators]. Multiplicities are [isize] in
    the source and stay below its bound here; aggregates use [i128] and saturate. *)

From Stdlib Require Import Sorted.
From S2P Require Import Prelude BTree Text Values UserContext Literals Floats Datums Exprs Consolidation Operators.

#[export] Program Instance bool_Ord : Ord bool := {| cmp a b := Z.b2z a ?= Z.b2z b |}.
Next Obligation. by intros [] []. Qed.
Next Obligation. by intros [] []. Qed.
Next Obligation. by intros [] [] []. Qed.

(** ** Row-wise operators, joins and set operations *)

Definition rel_filter {D} (input : collection D) (predicate : D -> bool) : collection D := coll_filter predicate input.
Definition rel_project {D D2} (input : collection D) (projection : D -> D2) : collection D2 := coll_map projection input.

Section Binary.
Context {K V V2 D : Type} `{Ord K}.

Definition equi_join (left : collection (K * V)) (right : collection (K * V2)) (projection : K -> V -> V2 -> D)
  : collection D := join_map projection left right.

Definition left_join (left : collection (K * V)) (right : collection (K * V2)) (projection : K -> V -> option V2 -> D)
  : collection D :=
  let matched := join_map (fun key l r => projection key l (Some r)) left right in
  let right_keys := distinct (coll_map fst right) in
  let unmatched := coll_map (fun p => projection p.1 p.2 None) (antijoin left right_keys) in
  coll_concat matched unmatched.
End Binary.

Definition rel_distinct {D} `{Ord D} (input : collection D) : collection D := distinct input.
Definition rel_union {D} (left right : collection D) : collection D := coll_concat left right.
Definition union_distinct {D} `{Ord D} (left right : collection D) : collection D := distinct (rel_union left right).

(** The loop over the two sides of a row. *)
Fixpoint side_counts (sides : list (bool * Z)) (left_count right_count : Z) : Z * Z :=
  match sides with
  | [] => (left_count, right_count)
  | (is_right, diff) :: rest =>
      if is_right : bool then side_counts rest left_count (right_count + diff)
      else side_counts rest (left_count + diff) right_count
  end.

Definition bag_set_op {D} `{Ord D} (left right : collection D) (combine : Z -> Z -> Z) : collection D :=
  let tagged := coll_concat (coll_map (fun row => (row, false)) left) (coll_map (fun row => (row, true)) right) in
  coll_map fst (reduce (fun _ sides =>
    let '(l, r) := side_counts sides 0 0 in
    let multiplicity := combine l r in
    if 0 <? multiplicity then [(tt, multiplicity)] else []) tagged).

(** ** Sorting *)

(** [usize::try_from(diff)] copies of each value. *)
Definition expand {D} (values : list (D * Z)) : list D :=
  flat_map (fun p => if 0 <=? p.2 then replicate (Z.to_nat p.2) p.1 else []) values.

(** [skip] and [take] by machine integers. *)
Definition take_z {A} (n : Z) (l : list A) : list A := if Z.of_nat (length l) <=? n then l else take (Z.to_nat n) l.
Definition drop_z {A} (n : Z) (l : list A) : list A := if Z.of_nat (length l) <=? n then [] else drop (Z.to_nat n) l.

Inductive SortDirection := Ascending | Descending.

Section TopK.
Context {D : Type} `{Ord D}.

Definition topk (input : collection D) (direction : SortDirection) (limit offset : Z) : collection D :=
  coll_map snd (reduce (fun (_ : unit) values =>
    let expanded := expand values in
    let expanded := match direction with Descending => rev expanded | Ascending => expanded end in
    map (fun v => (v, 1)) (take_z limit (drop_z offset expanded))) (coll_map (fun v => (tt, v)) input)).

Definition topk_by (input : collection D) (compare : D -> D -> comparison) (limit offset : Z) : collection D :=
  coll_map snd (reduce (fun (_ : unit) values =>
    map (fun v => (v, 1)) (take_z limit (drop_z offset (sort_by compare (expand values)))))
    (coll_map (fun v => (tt, v)) input)).

(** [Iterator::min_by]: the first of equal minima; [max_by]: the last of equal maxima. *)
Definition min_by {A} (compare : A -> A -> comparison) (l : list A) : option A :=
  match l with
  | [] => None
  | x :: rest => Some (fold_left (fun acc y => match compare acc y with Gt => y | _ => acc end) rest x)
  end.
Definition max_by {A} (compare : A -> A -> comparison) (l : list A) : option A :=
  match l with
  | [] => None
  | x :: rest => Some (fold_left (fun acc y => match compare acc y with Gt => acc | _ => y end) rest x)
  end.

Definition distinct_on_first {K} `{Ord K} (input : collection (K * D)) (compare : D -> D -> comparison) : collection D :=
  coll_map snd (reduce (fun _ values =>
    match min_by compare (map fst (List.filter (fun p => 0 <? p.2) values)) with
    | Some value => [(value, 1)]
    | None => []
    end) input).
End TopK.

(** ** Integer aggregates *)

Inductive AggregateFunc := AF_Count | AF_Sum | AF_Min | AF_Max | AF_Avg | AF_CountDistinct.
Inductive AggregateValue := AV_Integer (z : Z) | AV_Average (sum count : Z).

Definition z_min_list (l : list Z) : option Z := min_by Z.compare l.
Definition z_max_list (l : list Z) : option Z := max_by Z.compare l.
Definition z_sum (l : list Z) : Z := fold_right Z.add 0 l.

Definition evaluate_i64_aggregate (func : AggregateFunc) (values : list (Z * Z)) : AggregateValue :=
  let positive_values := List.filter (fun p => 0 <=? p.2) values in
  match func with
  | AF_Count => AV_Integer (z_sum (map snd values))
  | AF_Sum => AV_Integer (z_sum (map (fun p => p.1 * p.2) values))
  | AF_Min => AV_Integer (default 0 (z_min_list (map fst positive_values)))
  | AF_Max => AV_Integer (default 0 (z_max_list (map fst positive_values)))
  | AF_Avg => AV_Average (z_sum (map (fun p => p.1 * p.2) values)) (z_sum (map snd values))
  | AF_CountDistinct => AV_Integer (Z.of_nat (length positive_values))
  end.

Definition aggregate_i64 {K} `{Ord K} (input : collection (K * Z)) (funcs : list AggregateFunc)
  : collection (K * list AggregateValue) :=
  reduce (fun _ values => [(map (fun func => evaluate_i64_aggregate func values) funcs, 1)]) input.

(** ** Datum aggregates *)

Inductive DatumAggregate :=
| DA_Count (distinct : bool) | DA_SumInt (distinct : bool) | DA_SumFloat (distinct : bool)
| DA_Min | DA_Max | DA_Avg (distinct : bool).

Definition saturate (total : Z) : Z := if I64_MAX <? total then I64_MAX else if total <? I64_MIN then I64_MIN else total.

(** The loop of [SumFloat] and of [Avg]: the sum of weights and the weighted sum. *)
Definition float_sums (distinct : bool) (column : list (Datum * Z)) : spec_float * spec_float * bool :=
  fold_left (fun acc p =>
    match as_f64 p.1 with
    | Some value =>
        let weight := if distinct then f64_of_Z 1 else f64_of_Z p.2 in
        (f64_add acc.1.1 weight, f64_add acc.1.2 (f64_mul value weight), true)
    | None => acc
    end) column (S754_zero false, S754_zero false, false).

Definition evaluate_datum_aggregate (func : DatumAggregate) (column : btree Datum Z) : Datum :=
  let non_null := List.filter (fun p => negb (is_null p.1)) column in
  match func with
  | DA_Count distinct => D_I64 (saturate (z_sum (map (fun p => if distinct then 1 else p.2) non_null)))
  | DA_SumInt distinct =>
      let ints := filter_map (fun p => (fun v => v * (if distinct then 1 else p.2)) <$> as_int p.1) non_null in
      match ints with [] => D_Null | _ => D_I64 (saturate (z_sum ints)) end
  | DA_SumFloat distinct =>
      let '(_, total, any) := float_sums distinct non_null in if any : bool then D_F64 (f64_to_bits total) else D_Null
  | DA_Min => default D_Null (min_by compare_datums_sort (map fst non_null))
  | DA_Max => default D_Null (max_by compare_datums_sort (map fst non_null))
  | DA_Avg distinct =>
      let '(count, total, _) := float_sums distinct non_null in
      if SFeqb count (S754_zero false) then D_Null else D_F64 (f64_to_bits (f64_div total count))
  end.

(** One column of a group, its values merged and those without rows dropped. *)
Definition merge_column (index : nat) (values : list (list Datum * Z)) : btree Datum Z :=
  fold_left (fun merged p => match p.1 !! index with Some datum => bt_entry datum 0 (fun n => n + p.2) merged | None => merged end)
    values [].
Definition aggregate_column (index : nat) (values : list (list Datum * Z)) : btree Datum Z :=
  List.filter (fun p => 0 <? p.2) (merge_column index values).

Definition aggregate_datums {K} `{Ord K} (input : collection (K * list Datum)) (funcs : list DatumAggregate)
  : collection (K * list Datum) :=
  reduce (fun _ values =>
    [(imap (fun index func => evaluate_datum_aggregate func (aggregate_column index values)) funcs, 1)]) input.
