(* ===== verification/CanonicalKey.v ===== *)
(** * CanonicalKey: who shares a dataflow

    The router keys shared subgraphs by [canonical_subgraph_key]. Two
    subscriptions whose keys collide are served from one permission-filtered
    dataflow, so the key has to determine the query and the user context up to
    what the permission predicates can observe. *)

From Stdlib Require Import Sorted.
From S2P Require Import Prelude BTree Text UserContext.

(** ** Decimal digits *)

Definition all_digits (t : text) : Prop := Forall (fun b => in_range 48 57 b = true) t.

Lemma pretty_N_char_digit x :
  in_range 48 57 (Ascii.byte_of_ascii (pretty_N_char x)) = true.
Proof.
  unfold pretty_N_char. destruct x as [|p]; [reflexivity|].
  do 4 (destruct p as [p|p|]; try reflexivity).
Qed.

Lemma pretty_N_go_digits x s : all_digits (lit s) -> all_digits (lit (pretty_N_go x s)).
Proof.
  revert s. induction (N.lt_wf_0 x) as [x _ IH]. intros s Hs.
  destruct (decide (x = 0)%N) as [->|Hx]; [by rewrite pretty_N_go_0|].
  rewrite pretty_N_go_step by lia. apply IH; [apply N.div_lt; lia|].
  constructor; [apply pretty_N_char_digit | exact Hs].
Qed.

Lemma dec_len_digits n : all_digits (dec_len n).
Proof.
  unfold dec_len, pretty, pretty_N. destruct (decide (N.of_nat n = 0)%N); [by repeat constructor|].
  apply pretty_N_go_digits. constructor.
Qed.

Lemma lit_inj s s' : lit s = lit s' -> s = s'.
Proof. intros E. apply (f_equal text_string) in E. by rewrite !text_string_lit in E. Qed.

Lemma dec_len_inj n m : dec_len n = dec_len m -> n = m.
Proof. intros E%lit_inj. apply (inj pretty) in E. lia. Qed.

Lemma dec_inj a b : dec a = dec b -> a = b.
Proof. intros E%lit_inj. by apply (inj pretty) in E. Qed.

Lemma digits_not b t : in_range 48 57 b = false -> all_digits t -> b ∉ t.
Proof. intros Hb Ht Hin. unfold all_digits in Ht. rewrite Forall_forall in Ht. apply Ht in Hin. congruence. Qed.

Lemma dec_len_no_colon n : x3a ∉ dec_len n.
Proof. by apply digits_not, dec_len_digits. Qed.

(** ** Unique parsing *)

(** The first separator splits a text in one way. *)
Lemma split_at (c : byte) (a b r s : text) :
  c ∉ a -> c ∉ b -> a ++ c :: r = b ++ c :: s -> a = b /\ r = s.
Proof.
  revert b; induction a as [|x a IH]; intros [|y b] Ha Hb E; simpl in E.
  - by injection E as ->.
  - injection E as -> _. by apply not_elem_of_cons in Hb as [[] _].
  - injection E as -> _. by apply not_elem_of_cons in Ha as [[] _].
  - injection E as -> E. apply not_elem_of_cons in Ha as [_ Ha], Hb as [_ Hb].
    destruct (IH b Ha Hb E) as [-> ->]. done.
Qed.

(** A length-prefixed text is self-delimiting. *)
Lemma framed_inj a b r s : framed a ++ r = framed b ++ s -> a = b /\ r = s.
Proof.
  unfold framed. rewrite <- !app_assoc. simpl. intros E.
  apply split_at in E as [El E]; [|apply dec_len_no_colon..].
  apply dec_len_inj in El. by apply app_inj_1 in E.
Qed.

Lemma key_entry_inj e e' r s :
  x3d ∉ e.1 -> x3d ∉ e'.1 -> key_entry e ++ r = key_entry e' ++ s -> e = e' /\ r = s.
Proof.
  intros H1 H2. unfold key_entry. rewrite <- !app_assoc. simpl. intros E.
  apply split_at in E as [Ef E]; [|done..].
  change (dec_len (length e.2) ++ x3a :: e.2 ++ x3b :: r) with
    (dec_len (length e.2) ++ lit ":" ++ e.2 ++ x3b :: r) in E.
  change (dec_len (length e'.2) ++ x3a :: e'.2 ++ x3b :: s) with
    (dec_len (length e'.2) ++ lit ":" ++ e'.2 ++ x3b :: s) in E.
  assert (framed e.2 ++ x3b :: r = framed e'.2 ++ x3b :: s) as E'
    by (unfold framed; by rewrite <- !app_assoc).
  apply framed_inj in E' as [Ev E']. injection E' as ->. by destruct e, e'; simpl in *; subst.
Qed.

Lemma key_entry_not_nil e r : key_entry e ++ r <> [].
Proof. unfold key_entry. rewrite <- app_assoc. destruct e.1; done. Qed.

Lemma entries_inj l l' :
  Forall (fun e => x3d ∉ e.1) l -> Forall (fun e => x3d ∉ e.1) l' ->
  concat (map key_entry l) = concat (map key_entry l') -> l = l'.
Proof.
  intros Hl; revert l'; induction Hl as [|e l He Hl IH]; intros l' Hl' E; destruct Hl' as [|e' l' He' Hl'].
  - done.
  - symmetry in E. by apply key_entry_not_nil in E.
  - by apply key_entry_not_nil in E.
  - cbn [map concat] in E. apply key_entry_inj in E as [-> E]; [|done..]. f_equal. by apply IH.
Qed.

(** A framed list ends at the bracket. *)
Lemma framed_list_inj l l' r s :
  join (lit ",") (map framed l) ++ x5d :: r = join (lit ",") (map framed l') ++ x5d :: s -> l = l'.
Proof.
  assert (forall x r s, framed x ++ r <> x5d :: s) as Hb.
  { intros x r0 s0 E. unfold framed in E. pose proof (dec_len_digits (length x)) as Hd.
    destruct (dec_len (length x)) as [|d ds]; [by injection E|]. injection E as -> _. by inversion Hd. }
  revert l'; induction l as [|x l IH]; intros [|y l']; [done|..].
  - intros E. symmetry in E. exfalso. destruct l'; simpl in E; [|rewrite <- app_assoc in E]; by apply Hb in E.
  - intros E. exfalso. destruct l; simpl in E; [|rewrite <- app_assoc in E]; by apply Hb in E.
  - intros E. destruct l as [|x2 l], l' as [|y2 l']; cbn [map join] in E; rewrite <- ?app_assoc in E;
      apply framed_inj in E as [-> E]; [done | discriminate E | discriminate E |].
    injection E as E. f_equal. apply IH. exact E.
Qed.

(** ** What a canonical representation identifies *)

Section Equiv.
Context `{Rendering}.

(** Equal up to UUID spelling, number and document rendering, and the order
    and repetition of list elements. *)
Inductive value_equiv : UserValue -> UserValue -> Prop :=
| ve_bool b : value_equiv (UV_Bool b) (UV_Bool b)
| ve_int z : value_equiv (UV_Int z) (UV_Int z)
| ve_float a b : f64_display a = f64_display b -> value_equiv (UV_Float a) (UV_Float b)
| ve_text t : value_equiv (UV_Text t) (UV_Text t)
| ve_ts t : value_equiv (UV_Timestamp t) (UV_Timestamp t)
| ve_uuid a b : normalize_or_raw a = normalize_or_raw b -> value_equiv (UV_Uuid a) (UV_Uuid b)
| ve_jsonb a b : json_to_string a = json_to_string b -> value_equiv (UV_Jsonb a) (UV_Jsonb b)
| ve_enum t : value_equiv (UV_Enum t) (UV_Enum t)
| ve_list l l' :
    (forall x, In x l -> exists y, In y l' /\ value_equiv x y) ->
    (forall y, In y l' -> exists x, In x l /\ value_equiv x y) ->
    value_equiv (UV_List l) (UV_List l')
| ve_null : value_equiv UV_Null UV_Null.

(** Induction that reaches the elements of a list. *)
Lemma UserValue_rect' (P : UserValue -> Prop) :
  (forall l, Forall P l -> P (UV_List l)) ->
  (forall v, (forall l, v <> UV_List l) -> P v) -> forall v, P v.
Proof.
  intros Hl Hs. fix IH 1. intros v.
  destruct v as [b|z|bits|t|t|t|j|t|items|]; try (apply Hs; congruence).
  apply Hl. induction items as [|x items IHl]; constructor; [apply IH | apply IHl].
Qed.

Lemma canonical_repr_list_inj l l' :
  canonical_repr (UV_List l) = canonical_repr (UV_List l') <->
  (forall r, r ∈ map canonical_repr l <-> r ∈ map canonical_repr l').
Proof.
  cbn [canonical_repr]. rewrite <- dedup_sort_eq. split.
  - intros E. apply app_inv_head in E. by apply framed_list_inj in E.
  - by intros ->.
Qed.

Lemma elem_map_repr r l : r ∈ map canonical_repr l <-> exists x, In x l /\ canonical_repr x = r.
Proof. rewrite list_elem_of_In, in_map_iff. naive_solver. Qed.

(** The tag before the colon keeps the variants apart. *)
Ltac tags := simpl in *; repeat match goal with
  | E : _ :: _ = _ :: _ |- _ => injection E as E; try discriminate E end.

Lemma bool_text_inj a b : bool_text a = bool_text b -> a = b.
Proof. by destruct a, b. Qed.

Lemma canonical_repr_equiv v w : canonical_repr v = canonical_repr w <-> value_equiv v w.
Proof.
  revert w; induction v as [l IH|v Hns] using UserValue_rect'; intros w.
  - rewrite Forall_forall in IH. setoid_rewrite list_elem_of_In in IH. split.
    + intros E. destruct w as [b|z|bits|t|t|t|j|t|l'|]; try discriminate E.
      pose proof (proj1 (canonical_repr_list_inj l l') E) as Hr. constructor.
      * intros x Hx. specialize (Hr (canonical_repr x)). rewrite !elem_map_repr in Hr.
        destruct (proj1 Hr) as (y & Hy & Ey); [eauto|]. exists y; split; [done|]. by apply IH.
      * intros y Hy. specialize (Hr (canonical_repr y)). rewrite !elem_map_repr in Hr.
        destruct (proj2 Hr) as (x & Hx & Ex); [eauto|]. exists x; split; [done|]. by apply IH.
    + inversion 1 as [| | | | | | | |? l' H1 H2|]; subst. apply canonical_repr_list_inj. intros r.
      rewrite !elem_map_repr. split; intros (x & Hx & <-).
      * destruct (H1 x Hx) as (y & Hy & Hxy). exists y; split; [done|]. symmetry. by apply IH.
      * destruct (H2 x Hx) as (y & Hy & Hxy). exists y; split; [done|]. by apply IH.
  - split.
    + destruct v, w; try (by destruct (Hns items)); cbn [canonical_repr]; intros E;
        try discriminate E; try (apply app_inv_head in E); subst; try (by constructor).
      * apply bool_text_inj in E as ->. constructor.
      * apply dec_inj in E as ->. constructor.
    + destruct 1; cbn [canonical_repr]; congruence || (exfalso; by eapply Hns).
Qed.

(** What a predicate sees of equivalent values: the same literal, or for a
    list the same set of element literals. *)
Lemma equiv_literal v w :
  value_equiv v w ->
  match v, w with
  | UV_List l, UV_List l' =>
      (forall x, In x l -> exists y, In y l' /\ value_equiv x y) /\
      (forall y, In y l' -> exists x, In x l /\ value_equiv x y)
  | _, _ => to_sql_literal v = to_sql_literal w
  end.
Proof. destruct 1; cbn [to_sql_literal]; try done; congruence. Qed.
End Equiv.

(** ** The key *)

Section Key.
Context `{Rendering}.

Definition ctx_equiv (c c' : UserContext) : Prop :=
  Forall2 (fun fv fv' => fv.1 = fv'.1 /\ value_equiv fv.2 fv'.2) c c'.

(** Sorting the entries of a [BTreeMap] again changes nothing. *)
Lemma context_entries_wf (ctx : UserContext) :
  bt_wf ctx -> context_entries ctx = map (fun fv => (fv.1, canonical_repr fv.2)) ctx.
Proof.
  intros Hwf. unfold context_entries. apply slice_sort_sorted, StronglySorted_Sorted.
  induction ctx as [|[f v] ctx IH]; [constructor|]. apply bt_wf_cons in Hwf as [Hf Hwf].
  simpl. constructor; [by apply IH|]. apply Forall_map. eapply Forall_impl; [exact Hf|].
  intros [f' v'] Hlt. unfold cmp_le, cmp, pair_Ord, pair_cmp. simpl in *. by rewrite Hlt.
Qed.

Lemma entries_equiv (c c' : UserContext) :
  map (fun fv => (fv.1, canonical_repr fv.2)) c = map (fun fv => (fv.1, canonical_repr fv.2)) c' <->
  ctx_equiv c c'.
Proof.
  unfold ctx_equiv. revert c'; induction c as [|[f v] c IH]; intros [|[f' v'] c']; simpl.
  - split; [constructor | done].
  - split; [done | by inversion 1].
  - split; [done | by inversion 1].
  - split.
    + intros [= -> Ev E]. constructor; [split; [done|]; by apply canonical_repr_equiv | by apply IH].
    + inversion 1 as [|? ? ? ? [Ef Ev] E]; subst. simpl in *. apply canonical_repr_equiv in Ev.
      apply IH in E. congruence.
Qed.

(** C27: Two subscriptions share a dataflow exactly when they should: their canonical keys are equal
    if and only if the query is the same and the user contexts bind the same fields to equivalent
    values, for query ids without a bar and field names without an equals sign. *)
Theorem canonical_key_exact q q' (c c' : UserContext) :
  bt_wf c -> bt_wf c' -> x7c ∉ q -> x7c ∉ q' ->
  Forall (fun fv => x3d ∉ fv.1) c -> Forall (fun fv => x3d ∉ fv.1) c' ->
  canonical_subgraph_key q c = canonical_subgraph_key q' c' <-> q = q' /\ ctx_equiv c c'.
Proof.
  intros Hc Hc' Hq Hq' Hf Hf'. unfold canonical_subgraph_key.
  rewrite !context_entries_wf by done. rewrite <- entries_equiv. split.
  - intros E. apply split_at in E as [-> E]; [|done..]. split; [done|].
    apply entries_inj in E; [done|..]; by apply Forall_map.
  - by intros [-> ->].
Qed.
End Key.
