(* ===== verification/Spill.v ===== *)
(** * Spill: segments that do not fit the channel
    ([crates/palimpsest-wal/src/spill.rs])

    A queue keeps, per transaction, the segments of a stream that its channel has
    refused: some in memory, the rest in a file of length-prefixed frames. The disk
    is a map from paths to bytes; what the system calls answer, and whether the
    channel takes a segment, are inputs. *)

From stdpp Require Import gmap.
From S2P Require Import Prelude BTree Text Values UserContext CanonicalKey.

Abbreviation segment := (list byte).
Abbreviation disk := (gmap string (list byte)).

(** ** The buffer of one transaction *)

Record StreamSpillBuffer := { sb_xid : Z; sb_capacity : nat; sb_memory : list segment; sb_path : string; sb_spilled : nat }.

(** What a write answers: a failed one has written some bytes. *)
Inductive WriteOutcome := WO_Done | WO_OpenFailed | WO_Failed (written : nat).
Inductive ReadOutcome := RO_Done | RO_OpenFailed | RO_ReadFailed | RO_RemoveFailed.

Definition spill_path (directory : text) (xid : Z) : string := text_string (directory ++ lit "/palimpsest-xid-" ++ dec xid ++ lit ".spill").

(** [created]: whether the directory could be created. *)
Definition spill_new (xid : Z) (capacity : nat) (directory : text) (created : bool) : wal StreamSpillBuffer :=
  if created then Ok {| sb_xid := xid; sb_capacity := capacity; sb_memory := []; sb_path := spill_path directory xid; sb_spilled := 0 |}
  else Err Io.

Definition append (path : string) (bytes : list byte) (d : disk) : disk := <[path := default [] (d !! path) ++ bytes]> d.
Definition frame (s : segment) : list byte := be_encode 4 (Z.of_nat (length s)) ++ s.

Definition spill_push (b : StreamSpillBuffer) (s : segment) (d : disk) (o : WriteOutcome) : StreamSpillBuffer * disk * wal unit :=
  if (length (sb_memory b) <? sb_capacity b)%nat then
    ({| sb_xid := sb_xid b; sb_capacity := sb_capacity b; sb_memory := sb_memory b ++ [s]; sb_path := sb_path b; sb_spilled := sb_spilled b |}, d, Ok tt)
  else
    match o with
    | WO_OpenFailed => (b, d, Err Io)
    | _ =>
        let d := append (sb_path b) [] d in
        if 2 ^ 32 <=? Z.of_nat (length s) then (b, d, Err (Malformed "spill segment too large"))
        else
          match o with
          | WO_Failed n => (b, append (sb_path b) (take n (frame s)) d, Err Io)
          | _ => ({| sb_xid := sb_xid b; sb_capacity := sb_capacity b; sb_memory := sb_memory b; sb_path := sb_path b; sb_spilled := S (sb_spilled b) |},
                  append (sb_path b) (frame s) d, Ok tt)
          end
    end.

(** The loop over the file; the fuel is its length, every round consumes four bytes. *)
Fixpoint read_frames (fuel : nat) (file : list byte) : wal (list segment) :=
  match fuel with
  | O => Ok []
  | S fuel =>
      if (length file <? 4)%nat then Ok []
      else
        let len := Z.to_nat (be_decode (take 4 file)) in
        let rest := drop 4 file in
        if (length rest <? len)%nat then Err Io
        else let? segments := read_frames fuel (drop len rest) in Ok (take len rest :: segments)
  end.

Definition spill_drain (b : StreamSpillBuffer) (d : disk) (o : ReadOutcome) : disk * wal (list segment) :=
  if (sb_spilled b =? 0)%nat then (d, Ok (sb_memory b))
  else
    match o, d !! sb_path b with
    | RO_OpenFailed, _ | _, None | RO_ReadFailed, _ => (d, Err Io)
    | _, Some file =>
        match read_frames (length file) file with
        | Ok segments =>
            match o with
            | RO_RemoveFailed => (d, Err Io)
            | _ => (delete (sb_path b) d, Ok (sb_memory b ++ segments))
            end
        | Err e => (d, Err e)
        | Panic => (d, Panic)
        end
    end.

(** ** The queue *)

Record BackpressureQueue := { wq_directory : text; wq_capacity : nat; wq_spills : gmap Z StreamSpillBuffer }.

Inductive SendOutcome := SO_Sent | SO_Full | SO_Disconnected.

Definition queue_new (spill_capacity : nat) (directory : text) : BackpressureQueue :=
  {| wq_directory := directory; wq_capacity := spill_capacity; wq_spills := ∅ |}.

Definition push_stream_segment (q : BackpressureQueue) (xid : Z) (s : segment) (d : disk) (sent : SendOutcome) (created : bool) (o : WriteOutcome)
    : BackpressureQueue * disk * wal unit :=
  match sent with
  | SO_Sent => (q, d, Ok tt)
  | SO_Disconnected => (q, d, Err (Malformed "consumer disconnected"))
  | SO_Full =>
      match (match wq_spills q !! xid with Some b => Ok b | None => spill_new xid (wq_capacity q) (wq_directory q) created end) with
      | Ok b =>
          let '(b, d, answer) := spill_push b s d o in
          ({| wq_directory := wq_directory q; wq_capacity := wq_capacity q; wq_spills := <[xid := b]> (wq_spills q) |}, d, answer)
      | _ => (q, d, Panic)
      end
  end.

Definition drain_spilled_on_commit (q : BackpressureQueue) (xid : Z) (d : disk) (o : ReadOutcome) : BackpressureQueue * disk * wal (list segment) :=
  match wq_spills q !! xid with
  | None => (q, d, Ok [])
  | Some b =>
      let '(d, answer) := spill_drain b d o in
      ({| wq_directory := wq_directory q; wq_capacity := wq_capacity q; wq_spills := delete xid (wq_spills q) |}, d, answer)
  end.

(** ** Frames *)

Definition small (s : segment) : Prop := Z.of_nat (length s) < 2 ^ 32.

Lemma read_frames_exact l : Forall small l -> forall fuel, (length (concat (map frame l)) <= fuel)%nat -> read_frames fuel (concat (map frame l)) = Ok l.
Proof.
  induction 1 as [|s l Hs _ IH]; intros fuel Hf; cbn [map concat] in *; [by destruct fuel|].
  assert (length (be_encode 4 (Z.of_nat (length s))) = 4%nat) as Hlen by apply length_be_encode.
  unfold frame at 1 in Hf. rewrite !length_app, Hlen in Hf. destruct fuel as [|fuel]; [lia|]. unfold frame at 1. cbn [read_frames].
  rewrite !length_app, Hlen. destruct (Nat.ltb_spec (4 + length s + length (concat (map frame l))) 4); [lia|].
  rewrite <- app_assoc, take_app_length', drop_app_length' by done.
  rewrite be_decode_encode by (unfold small in Hs; change (256 ^ Z.of_nat 4) with (2 ^ 32); lia). rewrite Nat2Z.id.
  rewrite length_app. destruct (Nat.ltb_spec (length s + length (concat (map frame l))) (length s)); [lia|].
  rewrite drop_app_length' by done. rewrite IH by lia. cbn. by rewrite take_app_length' by done.
Qed.

Lemma spill_path_inj directory x y : spill_path directory x = spill_path directory y -> x = y.
Proof.
  unfold spill_path. intros E%(f_equal lit). rewrite !lit_text_string in E. apply app_inv_head in E. apply app_inv_head in E.
  apply app_inv_tail in E. by apply dec_inj.
Qed.

(** ** What the queue holds *)

Inductive event := Segment (xid : Z) (s : segment) (sent : bool) | Commit (xid : Z).

(** A run in which the consumer stays and the disk works, with what the commits return. *)
Fixpoint run_queue (q : BackpressureQueue) (d : disk) (events : list event) : BackpressureQueue * disk * list (wal (list segment)) :=
  match events with
  | [] => (q, d, [])
  | Segment xid s sent :: rest =>
      let '(q, d, _) := push_stream_segment q xid s d (if sent then SO_Sent else SO_Full) true WO_Done in run_queue q d rest
  | Commit xid :: rest =>
      let '(q, d, answer) := drain_spilled_on_commit q xid d RO_Done in
      let '(q, d, answers) := run_queue q d rest in (q, d, answer :: answers)
  end.

(** Reference: a list per transaction. *)
Fixpoint held (m : gmap Z (list segment)) (events : list event) : gmap Z (list segment) * list (list segment) :=
  match events with
  | [] => (m, [])
  | Segment xid s true :: rest => held m rest
  | Segment xid s false :: rest => held (<[xid := default [] (m !! xid) ++ [s]]> m) rest
  | Commit xid :: rest => let '(m', answers) := held (delete xid m) rest in (m', default [] (m !! xid) :: answers)
  end.

(** A buffer holds [l]: the first segments in memory, the others on disk. *)
Record buffer_holds (directory : text) (capacity : nat) (d : disk) (xid : Z) (b : StreamSpillBuffer) (l : list segment) : Prop := {
  bh_path : sb_path b = spill_path directory xid;
  bh_capacity : sb_capacity b = capacity;
  bh_memory : (length (sb_memory b) <= capacity)%nat;
  bh_segments : exists on_disk, l = sb_memory b ++ on_disk /\ sb_spilled b = length on_disk /\ Forall small on_disk /\
    (on_disk <> [] -> length (sb_memory b) = capacity) /\
    d !! spill_path directory xid = match on_disk with [] => None | _ => Some (concat (map frame on_disk)) end
}.

Record queue_holds (directory : text) (capacity : nat) (d0 : disk) (q : BackpressureQueue) (d : disk) (m : gmap Z (list segment)) : Prop := {
  qh_directory : wq_directory q = directory;
  qh_capacity : wq_capacity q = capacity;
  qh_buffers xid : match wq_spills q !! xid, m !! xid with
                   | Some b, Some l => buffer_holds directory capacity d xid b l
                   | None, None => d !! spill_path directory xid = None
                   | _, _ => False
                   end;
  qh_others path : (forall xid, path <> spill_path directory xid) -> d !! path = d0 !! path
}.

Lemma append_other path path' bytes d : path <> path' -> append path bytes d !! path' = d !! path'.
Proof. intros Hne. unfold append. by rewrite lookup_insert_ne. Qed.

Lemma append_twice path bytes d : append path bytes (append path [] d) !! path = Some (default [] (d !! path) ++ bytes).
Proof. unfold append. by rewrite !lookup_insert_eq, app_nil_r. Qed.

Lemma spill_push_holds directory capacity d xid b l s : buffer_holds directory capacity d xid b l -> small s ->
  let '(b', d', answer) := spill_push b s d WO_Done in
  buffer_holds directory capacity d' xid b' (l ++ [s]) /\ forall path, path <> spill_path directory xid -> d' !! path = d !! path.
Proof.
  intros [Hp Hc Hm (on_disk & -> & Hn & Hs & Hfull & Hd)] Hsmall. unfold spill_push. rewrite Hc, Hp.
  destruct (Nat.ltb_spec (length (sb_memory b)) capacity) as [Hlt|Hge].
  - assert (on_disk = []) as -> by (destruct on_disk; [done|]; specialize (Hfull ltac:(done)); lia). split; [|done].
    split; cbn; try done; [rewrite length_app; cbn; lia|]. exists []. rewrite !app_nil_r. done.
  - unfold small in Hsmall. destruct (Z.leb_spec (2 ^ 32) (Z.of_nat (length s))); [lia|]. split.
    + split; cbn; try done. exists (on_disk ++ [s]). rewrite <- app_assoc, length_app, Hn. split; [done|]. split; [cbn; lia|].
      split; [by apply Forall_app; split; [|constructor]|]. split; [intros _; lia|]. rewrite append_twice, Hd, map_app, concat_app. cbn [map concat].
      rewrite app_nil_r. destruct on_disk; done.
    + intros path Hne. by rewrite !append_other.
Qed.

Lemma spill_drain_holds directory capacity d xid b l : buffer_holds directory capacity d xid b l ->
  exists d', spill_drain b d RO_Done = (d', Ok l) /\ d' !! spill_path directory xid = None /\ forall path, path <> spill_path directory xid -> d' !! path = d !! path.
Proof.
  intros [Hp Hc Hm (on_disk & -> & Hn & Hs & Hfull & Hd)]. unfold spill_drain. rewrite Hp, Hn. destruct on_disk as [|s on_disk].
  - exists d. by rewrite app_nil_r.
  - rewrite Hd. cbn [length Nat.eqb]. rewrite read_frames_exact by done. exists (delete (spill_path directory xid) d). split; [done|].
    split; [apply lookup_delete_eq|]. intros path Hne. by rewrite lookup_delete_ne.
Qed.

(** What happens to one file leaves the buffers of other transactions alone. *)
Lemma buffer_holds_other directory capacity d d' xid xid' b l : (forall path, path <> spill_path directory xid -> d' !! path = d !! path) ->
  xid <> xid' -> buffer_holds directory capacity d xid' b l -> buffer_holds directory capacity d' xid' b l.
Proof.
  intros Hd Hne [Hp Hc Hm (on_disk & Hrest)]. split; [done..|]. exists on_disk. rewrite Hd; [done|]. intros E%spill_path_inj. done.
Qed.

Lemma new_buffer_holds directory capacity d xid b : d !! spill_path directory xid = None ->
  spill_new xid capacity directory true = Ok b -> buffer_holds directory capacity d xid b [].
Proof. intros Hd [= <-]. split; cbn; try done; [lia|]. by exists []. Qed.

Lemma push_holds directory capacity d0 q d m xid s : queue_holds directory capacity d0 q d m -> small s ->
  let '(q', d', answer) := push_stream_segment q xid s d SO_Full true WO_Done in
  queue_holds directory capacity d0 q' d' (<[xid := default [] (m !! xid) ++ [s]]> m).
Proof.
  intros [Hdir Hcap Hb Ho] Hs. unfold push_stream_segment. rewrite Hdir, Hcap. pose proof (Hb xid) as Hx.
  assert (exists b l, match wq_spills q !! xid with Some b => Ok b | None => spill_new xid capacity directory true end = Ok b /\
            default [] (m !! xid) = l /\ buffer_holds directory capacity d xid b l) as (b & l & -> & -> & Hbl).
  { destruct (wq_spills q !! xid) as [b|], (m !! xid) as [l|]; try done; [by exists b, l|]. eexists _, []. split; [done|]. split; [done|]. by eapply new_buffer_holds. }
  pose proof (spill_push_holds _ _ _ _ _ _ s Hbl Hs) as Hp. destruct (spill_push b s d WO_Done) as [[b' d'] answer]. destruct Hp as [Hb' Hd'].
  split; [done..| |].
  - intros xid'. cbn [wq_spills]. destruct (decide (xid = xid')) as [<-|Hne]; [by rewrite !lookup_insert_eq|]. rewrite !lookup_insert_ne by done.
    specialize (Hb xid'). destruct (wq_spills q !! xid') as [b2|], (m !! xid') as [l2|]; try done; [by eapply buffer_holds_other|].
    rewrite Hd'; [done|]. intros E%spill_path_inj. done.
  - intros path Hne. rewrite Hd' by done. by apply Ho.
Qed.

Lemma drain_holds directory capacity d0 q d m xid : queue_holds directory capacity d0 q d m ->
  exists q' d', drain_spilled_on_commit q xid d RO_Done = (q', d', Ok (default [] (m !! xid))) /\ queue_holds directory capacity d0 q' d' (delete xid m).
Proof.
  intros [Hdir Hcap Hb Ho]. unfold drain_spilled_on_commit. pose proof (Hb xid) as Hx.
  destruct (wq_spills q !! xid) as [b|] eqn:E, (m !! xid) as [l|] eqn:El; try done.
  - destruct (spill_drain_holds _ _ _ _ _ _ Hx) as (d' & -> & Hnone & Hd'). eexists _, d'. split; [by rewrite Hdir, Hcap|].
    split; [done..| |].
    + intros xid'. cbn [wq_spills]. destruct (decide (xid = xid')) as [<-|Hne]; [by rewrite !lookup_delete_eq|]. rewrite !lookup_delete_ne by done.
      specialize (Hb xid'). destruct (wq_spills q !! xid') as [b2|], (m !! xid') as [l2|]; try done; [by eapply buffer_holds_other|].
      rewrite Hd'; [done|]. intros Ep%spill_path_inj. done.
    + intros path Hne. rewrite Hd' by done. by apply Ho.
  - exists q, d. split; [done|]. by rewrite delete_id.
Qed.

Definition event_small (e : event) : Prop := match e with Segment _ s _ => small s | Commit _ => True end.

Lemma run_holds directory capacity d0 events : Forall event_small events -> forall q d m, queue_holds directory capacity d0 q d m ->
  exists q' d', run_queue q d events = (q', d', map Ok (held m events).2) /\ queue_holds directory capacity d0 q' d' (held m events).1.
Proof.
  induction 1 as [|e events He _ IH]; intros q d m Hq; cbn [run_queue held]; [by exists q, d|]. destruct e as [xid s [|]|xid].
  - by apply IH.
  - pose proof (push_holds _ _ _ _ _ _ xid s Hq He) as Hp. destruct (push_stream_segment q xid s d SO_Full true WO_Done) as [[q1 d1] answer]. by apply IH.
  - destruct (drain_holds _ _ _ _ _ _ xid Hq) as (q1 & d1 & -> & Hq1). destruct (IH _ _ _ Hq1) as (q2 & d2 & -> & Hq2). exists q2, d2.
    by destruct (held (delete xid m) events) as [m' answers].
Qed.

(** When the disk works, a queue refines a list per transaction: a commit returns the segments of its
    transaction that the channel refused, in order, whatever went on for other transactions; a buffer keeps
    no more segments in memory than its capacity, and a file lives no longer than its transaction. *)
Theorem spill_refines_lists (directory : text) (capacity : nat) (d0 : disk) (events : list event) :
  (forall xid, d0 !! spill_path directory xid = None) -> Forall event_small events ->
  exists q d, run_queue (queue_new capacity directory) d0 events = (q, d, map Ok (held ∅ events).2) /\
    (forall xid b, wq_spills q !! xid = Some b -> (length (sb_memory b) <= capacity)%nat) /\
    ((held ∅ events).1 = ∅ -> d = d0).
Proof.
  intros Hd0 He. destruct (run_holds directory capacity d0 events He (queue_new capacity directory) d0 ∅) as (q & d & Hrun & Hq).
  { split; [done..| |done]. intros xid. cbn. by rewrite !lookup_empty. }
  destruct Hq as [_ _ Hb Ho]. exists q, d. split; [done|]. split.
  - intros xid b Hx. specialize (Hb xid). rewrite Hx in Hb. destruct ((held ∅ events).1 !! xid); [|done]. apply Hb.
  - intros Hempty. apply map_eq. intros path.
    destruct (decide (d !! path = d0 !! path)) as [|Hne]; [done|]. exfalso. apply Hne, Ho. intros xid ->. apply Hne. specialize (Hb xid).
    rewrite Hempty, lookup_empty in Hb. destruct (wq_spills q !! xid); [done|]. by rewrite Hb, Hd0.
Qed.
