(* ===== verification/Watermarks.v ===== *)
(** * Watermarks: acknowledgements, the compaction frontier and resume decisions

    [LsnWatermarks] ([crates/palimpsest-dataflow/src/palimpsest/compaction.rs]),
    the lattice and path summaries of [Lsn] ([time.rs]), [AckTracker]
    ([crates/palimpsest-server/src/ack.rs]) and [resolve]
    ([crates/palimpsest-server/src/resume.rs]). LSNs are [u64] values. *)

From S2P Require Import Prelude.

(** ** [Lsn] as a timestamp *)

Definition lsn_join (a b : Z) : Z := Z.max a b.
Definition lsn_meet (a b : Z) : Z := Z.min a b.
Definition lsn_minimum : Z := 0.
Definition lsn_maximum : Z := U64_MAX.
(** [LsnSummary::results_in] and [followed_by]. *)
Definition results_in (summary src : Z) : option Z := checked_add U64_MAX src summary.
Definition followed_by (a b : Z) : option Z := checked_add U64_MAX a b.

(** ** [LsnWatermarks] *)

Record LsnWatermarks := { subscribers : gmap Z Z; applied : option Z }.

Definition watermarks_new : LsnWatermarks := {| subscribers := ∅; applied := None |}.

Definition wm_update (w : LsnWatermarks) (subscriber min_lsn : Z) : LsnWatermarks :=
  {| subscribers := <[subscriber := match subscribers w !! subscriber with
                                    | Some current => Z.max current min_lsn
                                    | None => min_lsn
                                    end]> (subscribers w);
     applied := applied w |}.

Definition wm_remove (w : LsnWatermarks) (subscriber : Z) : option Z * LsnWatermarks :=
  (subscribers w !! subscriber,
   {| subscribers := delete subscriber (subscribers w); applied := applied w |}).

(** [Iterator::min]. *)
Definition min_list (l : list Z) : option Z :=
  match l with
  | [] => None
  | x :: l' => Some (fold_right Z.min x l')
  end.

Definition min_subscriber_lsn (w : LsnWatermarks) : option Z :=
  min_list (map_to_list (subscribers w)).*2.

(** [apply_logical_compaction]: the advance reported, the frontier the trace was
    given (if any), and the new state. *)
Definition apply_logical_compaction (w : LsnWatermarks) : option Z * LsnWatermarks :=
  match min_subscriber_lsn w with
  | None => (None, w)
  | Some min_lsn =>
      if match applied w with Some a => min_lsn <=? a | None => false end then (None, w)
      else (Some min_lsn, {| subscribers := subscribers w; applied := Some min_lsn |})
  end.

(** ** [AckTracker] *)

Inductive AckOutcome := Advanced (lsn : Z) | Stale.

Definition ack_install (w : LsnWatermarks) (sub snapshot_lsn : Z) : LsnWatermarks :=
  wm_update w sub snapshot_lsn.
Definition ack_remove (w : LsnWatermarks) (sub : Z) : LsnWatermarks := (wm_remove w sub).2.
Definition ack_ack (w : LsnWatermarks) (sub previous_cursor ack_lsn : Z) : AckOutcome * LsnWatermarks :=
  if ack_lsn <=? previous_cursor then (Stale, w)
  else (Advanced ack_lsn, wm_update w sub ack_lsn).

(** ** Resume *)

Inductive ResyncReason := LsnCompacted | SchemaChanged | Backpressure | SlotRecreated | PermissionsChanged.

Record CompactionWindow := { earliest_replayable : Z; latest_known : Z }.

Definition window_contains (w : CompactionWindow) (lsn : Z) : bool := earliest_replayable w <=? lsn.

Inductive ResumeDecision :=
| FreshInitial (reason : ResyncReason)
| Replay (from_lsn : Z).

Definition resolve (last_acked_lsn : option Z) (window : CompactionWindow) : ResumeDecision :=
  match last_acked_lsn with
  | None => FreshInitial LsnCompacted
  | Some last => if window_contains window last then Replay last else FreshInitial LsnCompacted
  end.

(** ** Facts *)

Lemma min_list_spec l m :
  min_list l = Some m <-> m ∈ l /\ (forall x, x ∈ l -> m <= x).
Proof.
  destruct l as [|x l]; simpl; [set_solver|].
  assert (forall l x, fold_right Z.min x l ∈ x :: l /\ forall y, y ∈ x :: l -> fold_right Z.min x l <= y) as Hm.
  { clear. induction l as [|y l IH]; intros x; simpl.
    - split; [left|]. intros y Hy. apply list_elem_of_singleton in Hy. lia.
    - destruct (IH x) as [H1 H2]. split.
      + destruct (Z.min_spec y (fold_right Z.min x l)) as [[_ ->]|[_ ->]]; [set_solver|].
        apply elem_of_cons in H1 as [->|]; set_solver.
      + intros z Hz. specialize (H2 z). set_unfold. destruct Hz as [->|[->|Hz]]; [|lia|]; 
          [specialize (H2 (or_introl eq_refl)) | specialize (H2 (or_intror Hz))]; lia. }
  destruct (Hm l x) as [H1 H2]. split; [by intros [= <-]|].
  intros [Hin Hle]. f_equal. apply Z.le_antisymm; auto.
Qed.

Lemma min_subscriber_spec w m :
  min_subscriber_lsn w = Some m <->
  (exists s, subscribers w !! s = Some m) /\ (forall s l, subscribers w !! s = Some l -> m <= l).
Proof.
  unfold min_subscriber_lsn. rewrite min_list_spec.
  assert (forall l, l ∈ (map_to_list (subscribers w)).*2 <-> exists s, subscribers w !! s = Some l) as Hel.
  { intros l. rewrite list_elem_of_fmap. split.
    - intros ([s l'] & -> & Hin). exists s. by apply elem_of_map_to_list.
    - intros [s Hs]. exists (s, l). split; [done|]. by apply elem_of_map_to_list. }
  rewrite Hel. setoid_rewrite Hel. naive_solver.
Qed.

Lemma min_subscriber_None w : min_subscriber_lsn w = None <-> subscribers w = ∅.
Proof.
  unfold min_subscriber_lsn. destruct (map_to_list (subscribers w)) as [|p l] eqn:E; simpl.
  - apply map_to_list_empty_iff in E. naive_solver.
  - split; [done|]. intros Hw. rewrite Hw, map_to_list_empty in E. discriminate.
Qed.

(** ** Operation sequences *)

Inductive wm_op :=
| Op_update (sub lsn : Z)
| Op_remove (sub : Z)
| Op_compact.

Definition wm_step (w : LsnWatermarks) (o : wm_op) : LsnWatermarks :=
  match o with
  | Op_update s l => wm_update w s l
  | Op_remove s => (wm_remove w s).2
  | Op_compact => (apply_logical_compaction w).2
  end.

(** The order on frontiers: nothing applied yet is below everything. *)
Definition frontier_le (a b : option Z) : Prop :=
  match a, b with
  | None, _ => True
  | Some x, Some y => x <= y
  | Some _, None => False
  end.

#[global] Instance frontier_le_PreOrder : PreOrder frontier_le.
Proof. split; [intros [x|]; simpl; lia | intros [x|] [y|] [z|]; simpl; done || lia]. Qed.

Lemma wm_step_frontier w o : frontier_le (applied w) (applied (wm_step w o)).
Proof.
  destruct o as [s l|s|]; simpl; [done..|]. unfold apply_logical_compaction.
  destruct (min_subscriber_lsn w) as [m|]; [|done].
  destruct (applied w) as [a|] eqn:Ha; simpl; [|done].
  destruct (Z.leb_spec m a); cbn [snd applied]; [by rewrite Ha | simpl; lia].
Qed.

Lemma wm_steps_frontier w os : frontier_le (applied w) (applied (fold_left wm_step os w)).
Proof.
  revert w; induction os as [|o os IH]; intros w; simpl; [done|].
  etransitivity; [apply wm_step_frontier | apply IH].
Qed.

(** After any sequence of watermark updates, removals and compactions the applied frontier has
    only moved forward, and a compaction advances it to the smallest subscriber watermark, never
    past any subscriber, or does nothing when there is no subscriber or no progress. *)
Theorem compaction_is_safe w os :
  let w' := fold_left wm_step os w in
  frontier_le (applied w) (applied w') /\
  match apply_logical_compaction w' with
  | (Some lsn, w'') =>
      applied w'' = Some lsn /\ subscribers w'' = subscribers w' /\
      applied w' <> Some lsn /\ frontier_le (applied w') (Some lsn) /\
      (exists s, subscribers w' !! s = Some lsn) /\
      (forall s l, subscribers w' !! s = Some l -> lsn <= l)
  | (None, w'') =>
      w'' = w' /\
      (subscribers w' = ∅ \/
       exists m a, min_subscriber_lsn w' = Some m /\ applied w' = Some a /\ m <= a)
  end.
Proof.
  intros w'. split; [apply wm_steps_frontier|]. clearbody w'. clear w os.
  unfold apply_logical_compaction. destruct (min_subscriber_lsn w') as [m|] eqn:Hm.
  - destruct (applied w') as [a|] eqn:Ha.
    + destruct (Z.leb_spec m a).
      * split; [done|]. right. by exists m, a.
      * apply min_subscriber_spec in Hm as [Hs Hle]. simpl. repeat split; try done; [|lia].
        intros [= ->]. lia.
    + apply min_subscriber_spec in Hm as [Hs Hle]. done.
  - split; [done|]. left. by apply min_subscriber_None.
Qed.
