(* ===== verification/Registry.v ===== *)
(** * Registry: active subscriptions
    ([crates/palimpsest-server/src/subscription.rs] and [registry.rs])

    Three indexes over one set of subscriptions. The invariant makes the two
    secondary indexes functions of the primary one. *)

From S2P Require Import Prelude BTree Text Values UserContext.

(** ** Subscriptions *)

Inductive SubscriptionState := Seeding | Streaming | Draining | Closed.

Record ColumnSpec := { cs_name : string; cs_datum_type : DatumType; cs_nullable : bool }.
Record SchemaDefinition := {
  schema_id : Z; schema_columns : list ColumnSpec; primary_key_columns : list nat
}.

Record Subscription `{Rendering} := {
  sub_id : Z;
  sub_client_id : string;
  sub_connection : Z;
  sub_query : text;
  sub_user_ctx : UserContext;
  sub_schema_id : Z;
  sub_snapshot_lsn : Z;
  sub_cursor_lsn : Z;
  sub_state : SubscriptionState
}.

Definition is_active `{Rendering} (s : Subscription) : bool :=
  match sub_state s with Seeding | Streaming => true | Draining | Closed => false end.

(** [SubscriptionIdAllocator]: [fetch_add] wraps. *)
Definition allocate (next : Z) : Z * Z := (next, uint 64 (next + 1)).

(** ** The registry *)

Section Registry.
Context `{Rendering}.

Record SubscriptionRegistry := {
  by_id : gmap Z Subscription;
  by_client_id : gmap (Z * string) Z;
  by_connection : gmap Z (list Z)
}.

Definition registry_new : SubscriptionRegistry :=
  {| by_id := ∅; by_client_id := ∅; by_connection := ∅ |}.

Definition client_key (s : Subscription) : Z * string := (sub_connection s, sub_client_id s).

(** [None] is [Err(DuplicateClientSubscriptionId)]. *)
Definition registry_insert (r : SubscriptionRegistry) (s : Subscription) : option SubscriptionRegistry :=
  match by_client_id r !! client_key s with
  | Some _ => None
  | None =>
      Some {| by_client_id := <[client_key s := sub_id s]> (by_client_id r);
              by_connection := <[sub_connection s :=
                  default [] (by_connection r !! sub_connection s) ++ [sub_id s]]> (by_connection r);
              by_id := <[sub_id s := s]> (by_id r) |}
  end.

Definition registry_get (r : SubscriptionRegistry) (id : Z) : option Subscription := by_id r !! id.

(** [get_mut] followed by a write of the record. *)
Definition registry_update (r : SubscriptionRegistry) (id : Z) (f : Subscription -> Subscription)
  : SubscriptionRegistry :=
  {| by_id := alter f id (by_id r); by_client_id := by_client_id r; by_connection := by_connection r |}.

Definition registry_resolve (r : SubscriptionRegistry) (connection : Z) (client_id : string) : option Z :=
  by_client_id r !! (connection, client_id).

Definition registry_remove (r : SubscriptionRegistry) (id : Z)
  : option Subscription * SubscriptionRegistry :=
  match by_id r !! id with
  | None => (None, r)
  | Some s =>
      (Some s,
       {| by_id := delete id (by_id r);
          by_client_id := delete (client_key s) (by_client_id r);
          by_connection :=
            match by_connection r !! sub_connection s with
            | Some l =>
                let l' := filter (fun item => item <> id) l in
                match l' with
                | [] => delete (sub_connection s) (by_connection r)
                | _ :: _ => <[sub_connection s := l']> (by_connection r)
                end
            | None => by_connection r
            end |})
  end.

Definition connection_subscriptions (r : SubscriptionRegistry) (connection : Z) : list Z :=
  default [] (by_connection r !! connection).

Definition registry_len (r : SubscriptionRegistry) : nat := size (by_id r).

(** ** Invariant *)

Record registry_wf (r : SubscriptionRegistry) : Prop := {
  rw_id : forall id s, by_id r !! id = Some s -> sub_id s = id;
  rw_client : forall id s, by_id r !! id = Some s -> by_client_id r !! client_key s = Some id;
  rw_client_inv : forall k id, by_client_id r !! k = Some id ->
    exists s, by_id r !! id = Some s /\ client_key s = k;
  rw_conn : forall c id, id ∈ connection_subscriptions r c <->
    exists s, by_id r !! id = Some s /\ sub_connection s = c;
  rw_nodup : forall c, NoDup (connection_subscriptions r c);
  rw_nonempty : forall c, by_connection r !! c <> Some []
}.

Lemma registry_new_wf : registry_wf registry_new.
Proof.
  split; simpl; try (intros *; rewrite lookup_empty; done).
  - intros c id. unfold connection_subscriptions. simpl. rewrite lookup_empty. simpl.
    setoid_rewrite lookup_empty. set_solver.
  - intros c. unfold connection_subscriptions. simpl. rewrite lookup_empty. constructor.
Qed.

Lemma connection_subscriptions_insert r s r' c :
  registry_insert r s = Some r' ->
  connection_subscriptions r' c =
    if decide (c = sub_connection s) then connection_subscriptions r c ++ [sub_id s]
    else connection_subscriptions r c.
Proof.
  unfold registry_insert. destruct (by_client_id r !! client_key s); [done|]. intros [= <-].
  unfold connection_subscriptions. cbn [by_connection].
  destruct (decide (c = sub_connection s)) as [->|Hne];
    [by rewrite lookup_insert_eq | by rewrite lookup_insert_ne].
Qed.

Lemma registry_insert_wf r s r' :
  registry_wf r -> by_id r !! sub_id s = None -> registry_insert r s = Some r' -> registry_wf r'.
Proof.
  intros Hwf Hfresh Hins. pose proof (connection_subscriptions_insert r s r') as Hcs.
  unfold registry_insert in *. destruct (by_client_id r !! client_key s) eqn:Hk; [done|].
  injection Hins as <-. specialize (fun c => Hcs c eq_refl). split; cbn [by_id by_client_id by_connection].
  - intros id s' Hs. apply lookup_insert_Some in Hs as [[<- <-]|[_ Hs]]; [done|]. by apply (rw_id r Hwf).
  - intros id s' Hs. apply lookup_insert_Some in Hs as [[<- <-]|[Hne Hs]]; [by rewrite lookup_insert_eq|].
    apply (rw_client r Hwf) in Hs. rewrite lookup_insert_ne; congruence.
  - intros k id Hkid. apply lookup_insert_Some in Hkid as [[<- <-]|[Hne Hkid]].
    + exists s. by rewrite lookup_insert_eq.
    + destruct (rw_client_inv r Hwf k id Hkid) as (s' & Hs' & <-). exists s'.
      rewrite lookup_insert_ne; [done|]. intros E. rewrite E in Hfresh. congruence.
  - intros c id. rewrite Hcs. destruct (decide (c = sub_connection s)) as [->|Hne].
    + rewrite elem_of_app, (rw_conn r Hwf), list_elem_of_singleton. split.
      * intros [(s' & Hs' & Hc)| ->]; [exists s'; rewrite lookup_insert_ne; [done|]; intros E; rewrite E in Hfresh; congruence|].
        exists s. by rewrite lookup_insert_eq.
      * intros (s' & Hs' & Hc). apply lookup_insert_Some in Hs' as [[<- <-]|[_ Hs']]; [by right|].
        left. by exists s'.
    + rewrite (rw_conn r Hwf). split; intros (s' & Hs' & Hc); exists s'.
      * rewrite lookup_insert_ne; [done|]. intros E. rewrite E in Hfresh. congruence.
      * apply lookup_insert_Some in Hs' as [[_ <-]|[_ Hs']]; [congruence | done].
  - intros c. rewrite Hcs. destruct (decide (c = sub_connection s)) as [->|]; [|apply (rw_nodup r Hwf)].
    apply NoDup_app. split; [apply (rw_nodup r Hwf)|]. split; [|apply NoDup_singleton].
    intros id Hid Hs%list_elem_of_singleton. subst id.
    apply (rw_conn r Hwf) in Hid as (s' & Hs' & _). congruence.
  - intros c Hc. apply lookup_insert_Some in Hc as [[_ Hl]|[_ Hl]]; [by destruct (default _ _)|].
    by apply (rw_nonempty r Hwf) in Hl.
Qed.

Lemma registry_update_wf r id f :
  registry_wf r -> (forall s, sub_id (f s) = sub_id s /\ client_key (f s) = client_key s) ->
  registry_wf (registry_update r id f).
Proof.
  intros Hwf Hf.
  assert (forall i s', alter f id (by_id r) !! i = Some s' ->
    exists s, by_id r !! i = Some s /\ sub_id s = sub_id s' /\ client_key s = client_key s') as Halt.
  { intros i s'. rewrite lookup_alter. destruct (decide (id = i)) as [->|].
    - intros (s & Hs & ->)%fmap_Some. exists s. destruct (Hf s) as [-> ->]. done.
    - intros Hs. by exists s'. }
  assert (forall i s, by_id r !! i = Some s ->
    exists s', alter f id (by_id r) !! i = Some s' /\ client_key s' = client_key s) as Halt'.
  { intros i s Hs. rewrite lookup_alter. destruct (decide (id = i)) as [->|].
    - exists (f s). rewrite Hs. split; [done|]. apply Hf.
    - by exists s. }
  split; cbn [registry_update by_id by_client_id by_connection].
  - intros i s' (s & Hs & <- & _)%Halt. by apply (rw_id r Hwf).
  - intros i s' (s & Hs & _ & <-)%Halt. by apply (rw_client r Hwf).
  - intros k i Hk. destruct (rw_client_inv r Hwf k i Hk) as (s & Hs & <-). by apply Halt'.
  - intros c i. change (connection_subscriptions _ c) with (connection_subscriptions r c).
    rewrite (rw_conn r Hwf). split.
    + intros (s & Hs & <-). destruct (Halt' i s Hs) as (s' & Hs' & E). exists s'. split; [done|].
      by injection E.
    + intros (s' & (s & Hs & _ & E)%Halt & <-). exists s. split; [done|]. by injection E.
  - apply (rw_nodup r Hwf).
  - apply (rw_nonempty r Hwf).
Qed.

Lemma connection_subscriptions_remove r id s c :
  by_id r !! id = Some s ->
  connection_subscriptions (registry_remove r id).2 c =
    if decide (c = sub_connection s) then filter (fun i => i <> id) (connection_subscriptions r c)
    else connection_subscriptions r c.
Proof.
  intros Hs. unfold registry_remove, connection_subscriptions. rewrite Hs. cbn [snd by_connection].
  destruct (by_connection r !! sub_connection s) as [l|] eqn:Hl.
  - destruct (filter _ l) as [|x l'] eqn:Hf; destruct (decide (c = sub_connection s)) as [->|Hne];
      rewrite ?lookup_delete_eq, ?lookup_delete_ne, ?lookup_insert_eq, ?lookup_insert_ne by done; try done;
      by rewrite Hl.
  - destruct (decide (c = sub_connection s)) as [->|]; by rewrite ?Hl.
Qed.

Lemma registry_remove_wf r id : registry_wf r -> registry_wf (registry_remove r id).2.
Proof.
  intros Hwf. destruct (by_id r !! id) as [s|] eqn:Hs; [|by unfold registry_remove; rewrite Hs].
  pose proof (fun c => connection_subscriptions_remove r id s c Hs) as Hcs.
  assert (forall i s', by_id (registry_remove r id).2 !! i = Some s' <-> i <> id /\ by_id r !! i = Some s') as Hid.
  { intros i s'. unfold registry_remove. rewrite Hs. cbn [snd by_id]. rewrite lookup_delete_Some. naive_solver. }
  split.
  - intros i s' [_ Hi]%Hid. by apply (rw_id r Hwf).
  - intros i s' [Hne Hi]%Hid. unfold registry_remove. rewrite Hs. cbn [snd by_client_id].
    pose proof (rw_client r Hwf _ _ Hi) as Hk. rewrite lookup_delete_ne; [done|].
    intros E. rewrite <- E in Hk. apply (rw_client r Hwf) in Hs. congruence.
  - intros k i Hk. assert (k <> client_key s /\ by_client_id r !! k = Some i) as [Hne Hk'].
    { unfold registry_remove in Hk. rewrite Hs in Hk. cbn [snd by_client_id] in Hk.
      apply lookup_delete_Some in Hk as [? ?]. done. }
    destruct (rw_client_inv r Hwf k i Hk') as (s' & Hs' & <-). exists s'. split; [|done].
    apply Hid. split; [|done]. intros ->. congruence.
  - intros c i. rewrite Hcs. setoid_rewrite Hid. destruct (decide (c = sub_connection s)) as [->|Hne].
    + rewrite list_elem_of_filter, (rw_conn r Hwf). naive_solver.
    + rewrite (rw_conn r Hwf). split; [|naive_solver]. intros (s' & Hs' & Hc). exists s'.
      repeat split; try done. intros ->. congruence.
  - intros c. rewrite Hcs. destruct (decide (c = sub_connection s)); [apply NoDup_filter|]; apply (rw_nodup r Hwf).
  - intros c Hc. unfold registry_remove in Hc. rewrite Hs in Hc. cbn [snd by_connection] in Hc.
    destruct (by_connection r !! sub_connection s) as [l|] eqn:Hl; [|by apply (rw_nonempty r Hwf) in Hc].
    destruct (filter _ l) as [|x l'].
    + apply lookup_delete_Some in Hc as [_ Hc]. by apply (rw_nonempty r Hwf) in Hc.
    + apply lookup_insert_Some in Hc as [[_ ?]|[_ Hc]]; [done|]. by apply (rw_nonempty r Hwf) in Hc.
Qed.
End Registry.
#[export] Hint Resolve registry_new_wf registry_remove_wf : palimpsest.
