(* ===== verification/Channel.v ===== *)
(** * Channel: diff events and the bounded per-subscription channel
    ([crates/palimpsest-server/src/diff.rs], [backpressure.rs] and [error.rs])

    The transport is [tokio::sync::mpsc], which is not part of the repository:
    it is the class [Mpsc], whose laws are the documented behaviour of a bounded
    channel. [ListMpsc] is an implementation that satisfies them. *)

From S2P Require Import Prelude Text Values UserContext Watermarks.

(** ** Events *)

Inductive DiffOp := Op_Initial | Op_Insert | Op_Update | Op_Delete.

Record RowChange := { rc_op : DiffOp; rc_old : option Row; rc_new : option Row }.

Inductive DiffEvent :=
| Ev_Initial (lsn : Z) (rows : list Row)
| Ev_Update (lsn : Z) (changes : list RowChange)
| Ev_TransactionUpdate (transaction_id : option Z) (begin_lsn : option Z) (commit_lsn : Z)
    (end_lsn : option Z) (changes : list RowChange)
| Ev_Resync (reason : ResyncReason).

Inductive RouterError :=
| DuplicateClientSubscriptionId
| UnknownSubscription (id : Z)
| ResumeOutOfWindow
| Snapshot (message : string)
| Permission (e : PermissionError)
| PermissionUnenforceable (table : text)
| ChannelSaturated.

(** ** [tokio::sync::mpsc] *)

Inductive TrySend := TS_Ok | TS_Full | TS_Closed.

Class Mpsc (A : Type) : Type := {
  mpsc : Type;
  mpsc_queue : mpsc -> list A;
  mpsc_capacity : mpsc -> Z;
  mpsc_closed : mpsc -> bool;
  (** [None] is the panic of [mpsc::channel]. *)
  mpsc_channel : Z -> option mpsc;
  mpsc_try_send : mpsc -> A -> TrySend * mpsc;
  mpsc_recv : mpsc -> option A * mpsc;
  mpsc_close : mpsc -> mpsc;
  mpsc_channel_new n c : mpsc_channel n = Some c ->
    0 < n /\ mpsc_queue c = [] /\ mpsc_capacity c = n /\ mpsc_closed c = false;
  mpsc_try_send_closed c a : mpsc_closed c = true -> mpsc_try_send c a = (TS_Closed, c);
  mpsc_try_send_full c a : mpsc_closed c = false -> mpsc_capacity c <= Z.of_nat (length (mpsc_queue c)) ->
    mpsc_try_send c a = (TS_Full, c);
  mpsc_try_send_room c a : mpsc_closed c = false -> Z.of_nat (length (mpsc_queue c)) < mpsc_capacity c ->
    (mpsc_try_send c a).1 = TS_Ok /\
    mpsc_queue (mpsc_try_send c a).2 = mpsc_queue c ++ [a] /\
    mpsc_capacity (mpsc_try_send c a).2 = mpsc_capacity c /\
    mpsc_closed (mpsc_try_send c a).2 = false;
  mpsc_recv_spec c : (mpsc_recv c).1 = head (mpsc_queue c) /\
    mpsc_queue (mpsc_recv c).2 = tail (mpsc_queue c) /\
    mpsc_capacity (mpsc_recv c).2 = mpsc_capacity c /\
    mpsc_closed (mpsc_recv c).2 = mpsc_closed c;
  mpsc_close_spec c : mpsc_queue (mpsc_close c) = mpsc_queue c /\
    mpsc_capacity (mpsc_close c) = mpsc_capacity c /\ mpsc_closed (mpsc_close c) = true
}.

Record list_mpsc (A : Type) := LM { lm_queue : list A; lm_capacity : Z; lm_closed : bool }.
Arguments LM {A} _ _ _.
Arguments lm_queue {A} _.
Arguments lm_capacity {A} _.
Arguments lm_closed {A} _.

#[local] Obligation Tactic := simpl; intros.

#[export] Program Instance ListMpsc (A : Type) : Mpsc A := {|
  mpsc := list_mpsc A;
  mpsc_queue := lm_queue;
  mpsc_capacity := lm_capacity;
  mpsc_closed := lm_closed;
  mpsc_channel n := if n <=? 0 then None else Some (LM [] n false);
  mpsc_try_send c a :=
    if lm_closed c then (TS_Closed, c)
    else if lm_capacity c <=? Z.of_nat (length (lm_queue c)) then (TS_Full, c)
    else (TS_Ok, LM (lm_queue c ++ [a]) (lm_capacity c) false);
  mpsc_recv c := (head (lm_queue c), LM (tail (lm_queue c)) (lm_capacity c) (lm_closed c));
  mpsc_close c := LM (lm_queue c) (lm_capacity c) true
|}.
Next Obligation. case_match; rewrite ?Z.leb_gt in *; by simplify_eq/=. Qed.
Next Obligation. by case_match. Qed.
Next Obligation. repeat case_match; rewrite ?Z.leb_gt in *; try done; lia. Qed.
Next Obligation. repeat case_match; rewrite ?Z.leb_le in *; try done; lia. Qed.
Next Obligation. done. Qed.
Next Obligation. done. Qed.

(** ** The channel of a subscription *)

Inductive BackpressurePolicy := DropAndResync | Coalesce.
Inductive BackpressureOutcome := Sent | SaturatedDropResync | SaturatedCoalesce | ChannelClosed.

Section Channel.
Context `{Mpsc DiffEvent}.

Record BoundedDiffChannel := {
  sender : mpsc;
  has_receiver : bool;
  policy : BackpressurePolicy;
  capacity : Z;
  full_events : Z
}.

Definition DEFAULT_CAPACITY : Z := 256.

Definition channel_new {E} (capacity : Z) (policy : BackpressurePolicy) : exec E BoundedDiffChannel :=
  match mpsc_channel capacity with
  | Some sender => Ok {| sender := sender; has_receiver := true; policy := policy;
                         capacity := capacity; full_events := 0 |}
  | None => Panic
  end.

Definition default_with_policy {E} (policy : BackpressurePolicy) : exec E BoundedDiffChannel :=
  channel_new DEFAULT_CAPACITY policy.

(** [take_receiver] and [take_stream]: the receiver half is the queue of
    [sender] itself; [true] when it was still attached. *)
Definition take_stream (c : BoundedDiffChannel) : bool * BoundedDiffChannel :=
  (has_receiver c,
   {| sender := sender c; has_receiver := false; policy := policy c;
      capacity := capacity c; full_events := full_events c |}).

Definition with_sender (c : BoundedDiffChannel) (s : mpsc) (full : Z) : BoundedDiffChannel :=
  {| sender := s; has_receiver := has_receiver c; policy := policy c;
     capacity := capacity c; full_events := full |}.

Definition try_send (c : BoundedDiffChannel) (event : DiffEvent)
  : BackpressureOutcome * BoundedDiffChannel :=
  match mpsc_try_send (sender c) event with
  | (TS_Ok, s) => (Sent, with_sender c s (full_events c))
  | (TS_Full, s) =>
      (match policy c with DropAndResync => SaturatedDropResync | Coalesce => SaturatedCoalesce end,
       with_sender c s (uint 64 (full_events c + 1)))
  | (TS_Closed, s) => (ChannelClosed, with_sender c s (full_events c))
  end.

Definition force_resync (c : BoundedDiffChannel) (reason : ResyncReason) : BoundedDiffChannel :=
  with_sender c (mpsc_try_send (sender c) (Ev_Resync reason)).2 (full_events c).

(** What the receiver half does on its own: take an event, or hang up. *)
Inductive rx_op := Rx_Recv | Rx_Close.
Definition rx_step (c : BoundedDiffChannel) (o : rx_op) : BoundedDiffChannel :=
  with_sender c (match o with Rx_Recv => (mpsc_recv (sender c)).2 | Rx_Close => mpsc_close (sender c) end) (full_events c).
Definition rx_run (c : BoundedDiffChannel) (ops : list rx_op) : BoundedDiffChannel := fold_left rx_step ops c.

(** ** Behaviour *)

(** How many events it takes, and whether it hangs up. *)
Definition rx_takes (ops : list rx_op) : nat := length (List.filter (fun o => match o with Rx_Recv => true | Rx_Close => false end) ops).
Definition rx_closes (ops : list rx_op) : bool := existsb (fun o => match o with Rx_Recv => false | Rx_Close => true end) ops.

Definition queued (c : BoundedDiffChannel) : list DiffEvent := mpsc_queue (sender c).
Definition saturated (c : BoundedDiffChannel) : bool :=
  mpsc_capacity (sender c) <=? Z.of_nat (length (queued c)).
Definition is_saturation (o : BackpressureOutcome) : bool :=
  match o with SaturatedDropResync | SaturatedCoalesce => true | Sent | ChannelClosed => false end.

Lemma mpsc_send_cases (c : mpsc) a :
  (mpsc_closed c = true /\ mpsc_try_send c a = (TS_Closed, c)) \/
  (mpsc_closed c = false /\ mpsc_capacity c <= Z.of_nat (length (mpsc_queue c)) /\
   mpsc_try_send c a = (TS_Full, c)) \/
  (mpsc_closed c = false /\ Z.of_nat (length (mpsc_queue c)) < mpsc_capacity c /\
   exists c', mpsc_try_send c a = (TS_Ok, c') /\ mpsc_queue c' = mpsc_queue c ++ [a] /\
     mpsc_capacity c' = mpsc_capacity c /\ mpsc_closed c' = false).
Proof.
  destruct (mpsc_closed c) eqn:Hc; [left; split; [done|]; by apply mpsc_try_send_closed|right].
  destruct (Z.le_gt_cases (mpsc_capacity c) (Z.of_nat (length (mpsc_queue c)))) as [Hle|Hgt].
  - left. repeat split; try done. by apply mpsc_try_send_full.
  - right. repeat split; try done. destruct (mpsc_try_send_room c a Hc Hgt) as (Hr & ?).
    exists (mpsc_try_send c a).2. split; [|done]. rewrite <- Hr. by destruct (mpsc_try_send c a).
Qed.

(** The outcome of a send is decided by the state of the queue, and only an
    accepted event changes the queue. *)
Lemma try_send_cases c e :
  let '(o, c') := try_send c e in
  (o = ChannelClosed /\ mpsc_closed (sender c) = true /\ c' = c) \/
  (is_saturation o = true /\ mpsc_closed (sender c) = false /\ saturated c = true /\
     c' = with_sender c (sender c) (uint 64 (full_events c + 1))) \/
  (o = Sent /\ mpsc_closed (sender c) = false /\ saturated c = false /\
     queued c' = queued c ++ [e] /\ full_events c' = full_events c /\
     mpsc_capacity (sender c') = mpsc_capacity (sender c) /\ mpsc_closed (sender c') = false).
Proof.
  unfold try_send, saturated, queued. destruct c as [s hr p cap full]. cbn [sender policy full_events].
  destruct (mpsc_send_cases s e) as [[Hc ->]|[(Hc & Hle & ->)|(Hc & Hlt & s' & -> & Hq & Hcap & Hc')]].
  - by left.
  - right; left. apply Z.leb_le in Hle. by destruct p.
  - right; right. apply Z.leb_gt in Hlt. repeat split; done.
Qed.

Lemma force_resync_cases c r :
  (mpsc_closed (sender c) = true \/ saturated c = true) /\ force_resync c r = c \/
  mpsc_closed (sender c) = false /\ saturated c = false /\
  queued (force_resync c r) = queued c ++ [Ev_Resync r] /\
  mpsc_capacity (sender (force_resync c r)) = mpsc_capacity (sender c) /\
  mpsc_closed (sender (force_resync c r)) = false.
Proof.
  unfold force_resync, saturated, queued. destruct c as [s hr p cap full]. cbn [sender full_events].
  destruct (mpsc_send_cases s (Ev_Resync r)) as [[Hc ->]|[(Hc & Hle & ->)|(Hc & Hlt & s' & -> & Hq & Hcap & Hc')]].
  - left. by split; [left|].
  - left. apply Z.leb_le in Hle. by split; [right|].
  - right. apply Z.leb_gt in Hlt. done.
Qed.

(** What the receiver leaves in the queue. *)
Lemma rx_run_spec ops : forall c,
  queued (rx_run c ops) = drop (rx_takes ops) (queued c) /\ mpsc_capacity (sender (rx_run c ops)) = mpsc_capacity (sender c) /\
  mpsc_closed (sender (rx_run c ops)) = mpsc_closed (sender c) || rx_closes ops.
Proof.
  unfold rx_run, rx_takes, rx_closes, queued. induction ops as [|o ops IH]; intros c; cbn [fold_left].
  { by rewrite orb_false_r. }
  destruct (IH (rx_step c o)) as (-> & -> & ->). destruct o; cbn [rx_step sender with_sender List.filter length existsb].
  - destruct (mpsc_recv_spec (sender c)) as (_ & -> & -> & ->). split; [|done]. destruct (mpsc_queue (sender c)) as [|x l]; [cbn [tail]; by rewrite !drop_nil | done].
  - destruct (mpsc_close_spec (sender c)) as (-> & -> & ->). by rewrite orb_true_r.
Qed.

(** ** Histories of one channel *)

Inductive chan_op := Send (e : DiffEvent) | Force (r : ResyncReason) | Recv | CloseRx.

(** One step: the event that entered the queue, the event that left it, and
    the number of saturation reports. *)
Definition chan_step (c : BoundedDiffChannel) (o : chan_op)
  : list DiffEvent * list DiffEvent * Z * BoundedDiffChannel :=
  match o with
  | Send e =>
      let '(out, c') := try_send c e in
      (match out with Sent => [e] | _ => [] end, [], if is_saturation out then 1 else 0, c')
  | Force r => let c' := force_resync c r in
      (if decide (length (queued c') = length (queued c)) then [] else [Ev_Resync r], [], 0, c')
  | Recv => let '(e, s) := mpsc_recv (sender c) in
      ([], option_list e, 0, with_sender c s (full_events c))
  | CloseRx => ([], [], 0, with_sender c (mpsc_close (sender c)) (full_events c))
  end.

Fixpoint chan_run (c : BoundedDiffChannel) (os : list chan_op)
  : list DiffEvent * list DiffEvent * Z * BoundedDiffChannel :=
  match os with
  | [] => ([], [], 0, c)
  | o :: os' =>
      let '(i, d, n, c') := chan_step c o in
      let '(i', d', n', c'') := chan_run c' os' in
      (i ++ i', d ++ d', n + n', c'')
  end.

Definition chan_ok (c : BoundedDiffChannel) : Prop :=
  Z.of_nat (length (queued c)) <= mpsc_capacity (sender c).

Lemma chan_step_spec c o :
  chan_ok c ->
  let '(i, d, n, c') := chan_step c o in
  queued c ++ i = d ++ queued c' /\ chan_ok c' /\
  full_events c' = (if n =? 0 then full_events c else uint 64 (full_events c + n)) /\ 0 <= n <= 1.
Proof.
  unfold chan_ok. intros Hok. destruct o as [e|r| |]; cbn [chan_step].
  - pose proof (try_send_cases c e) as Hs. destruct (try_send c e) as [out c'].
    destruct Hs as [(-> & _ & ->)|[(Hsat & _ & _ & ->)|(-> & _ & Hroom & Hq & Hf & Hcap & _)]]; simpl.
    + by rewrite app_nil_r.
    + destruct out; try done; simpl; rewrite app_nil_r; done.
    + rewrite Hq, length_app, Hcap, Hf. unfold saturated in Hroom. apply Z.leb_gt in Hroom.
      simpl. repeat split; try done; lia.
  - destruct (force_resync_cases c r) as [[_ ->]|(_ & Hroom & Hq & Hcap & _)].
    + rewrite decide_True by done. rewrite app_nil_r. repeat split; try done; lia.
    + rewrite decide_False by (rewrite Hq, length_app; simpl; lia).
      rewrite Hq, Hcap, length_app. unfold saturated in Hroom. apply Z.leb_gt in Hroom.
      simpl. repeat split; try done; lia.
  - pose proof (mpsc_recv_spec (sender c)) as (Hh & Hq & Hcap & _).
    destruct (mpsc_recv (sender c)) as [e s]. simpl in *. rewrite app_nil_r. unfold queued in *. simpl.
    rewrite Hq, Hcap, Hh. destruct (mpsc_queue (sender c)); simpl in *; repeat split; try done; lia.
  - destruct (mpsc_close_spec (sender c)) as (Hq & Hcap & _). unfold queued in *. simpl.
    rewrite Hq, Hcap, app_nil_r. done.
Qed.

(** Over any sequence of sends, forced resyncs, receives and closes, what a subscriber has
    received followed by what is still queued is exactly the accepted events in order, the queue
    never exceeds the capacity, and the full counter counts the saturated sends modulo 2^64. *)
Theorem channel_fifo_bounded c os i d n c' :
  chan_ok c -> 0 <= full_events c <= U64_MAX -> chan_run c os = (i, d, n, c') ->
  queued c ++ i = d ++ queued c' /\
  Z.of_nat (length (queued c')) <= mpsc_capacity (sender c') /\
  full_events c' = uint 64 (full_events c + n).
Proof.
  revert c i d n c'. induction os as [|o os IH]; intros c i d n c' Hok Hf; simpl.
  - intros [= <- <- <- <-]. rewrite app_nil_r, Z.add_0_r. unfold uint. rewrite Z.mod_small; [done|].
    unfold U64_MAX in Hf. lia.
  - pose proof (chan_step_spec c o Hok) as Hs. destruct (chan_step c o) as [[[i1 d1] n1] c1].
    destruct (chan_run c1 os) as [[[i2 d2] n2] c2] eqn:Hrun. intros [= <- <- <- <-].
    destruct Hs as (Hq & Hok1 & Hf1 & Hn1).
    assert (0 <= full_events c1 <= U64_MAX) as Hf1'.
    { rewrite Hf1. destruct (n1 =? 0); [done|]. unfold uint, U64_MAX.
      pose proof (Z.mod_pos_bound (full_events c + n1) (2 ^ 64) ltac:(lia)). lia. }
    destruct (IH c1 _ _ _ _ Hok1 Hf1' Hrun) as (Hq2 & Hc2 & Hf2). split; [|split; [done|]].
    + by rewrite app_assoc, Hq, <- app_assoc, Hq2, app_assoc.
    + rewrite Hf2, Hf1. destruct (Z.eqb_spec n1 0) as [->|]; [f_equal; lia|].
      unfold uint. rewrite Zplus_mod_idemp_l. f_equal. lia.
Qed.
End Channel.
Arguments BoundedDiffChannel {_}.
