(* ===== verification/Cursor.v ===== *)
(** * Cursor: grouping raw diffs into transactions
    ([crates/palimpsest-server/src/cursor.rs])

    The trait [TraceCursor] is a class. Its loops stop because a cursor surfaces
    finitely many diffs between two activations: [available] is that bound, and
    each successful [next_diff] lowers it. *)

From S2P Require Import Prelude Text Values UserContext Watermarks Channel.
From Stdlib Require Import Sorted.

(** ** Data *)

Record RawDiff := { rd_table : option Z; rd_row : Row; rd_lsn : Z; rd_diff : Z }.

Record LsnBatch := { lb_lsn : Z; lb_diffs : list RawDiff }.

Record QueryTransactionDelta := {
  qd_transaction_id : option Z;
  qd_begin_lsn : option Z;
  qd_commit_lsn : Z;
  qd_end_lsn : option Z;
  qd_diffs : list RawDiff
}.

Definition delta_of_batch (b : LsnBatch) : QueryTransactionDelta :=
  {| qd_transaction_id := None; qd_begin_lsn := None; qd_commit_lsn := lb_lsn b;
     qd_end_lsn := None; qd_diffs := lb_diffs b |}.

Definition delta_is_empty (d : QueryTransactionDelta) : bool :=
  match qd_diffs d with [] => true | _ :: _ => false end.

(** [cardinality]: [unsigned_abs] of an [i64] always fits a 64-bit [usize]; the
    sum wraps. *)
Definition cardinality (diffs : list RawDiff) : Z :=
  fold_left (fun acc d => uint 64 (acc + Z.abs (rd_diff d))) diffs 0.

(** ** The trait *)

Class TraceCursor (C : Type) : Type := {
  next_diff : C -> option (RawDiff * C);
  peek_lsn : C -> option Z;
  available : C -> nat;
  next_diff_available c d c' : next_diff c = Some (d, c') -> (available c' < available c)%nat
}.

Section Default.
Context {C : Type} `{TraceCursor C}.

(** The [while let Some(next) = self.peek_lsn()] loop of [next_batch]. *)
Fixpoint batch_loop (fuel : nat) (lsn : Z) (c : C) : list RawDiff * C :=
  match fuel with
  | O => ([], c)
  | S fuel' =>
      match peek_lsn c with
      | Some next =>
          if negb (next =? lsn) then ([], c)
          else match next_diff c with
               | Some (item, c') =>
                   let '(rest, c'') := batch_loop fuel' lsn c' in (item :: rest, c'')
               | None => ([], c)
               end
      | None => ([], c)
      end
  end.

Definition next_batch (c : C) : option (LsnBatch * C) :=
  match next_diff c with
  | Some (first, c') =>
      let '(rest, c'') := batch_loop (S (available c')) (rd_lsn first) c' in
      Some ({| lb_lsn := rd_lsn first; lb_diffs := first :: rest |}, c'')
  | None => None
  end.

Definition next_transaction (c : C) : option (QueryTransactionDelta * C) :=
  match next_batch c with
  | Some (b, c') => Some (delta_of_batch b, c')
  | None => None
  end.

Fixpoint batch_by_lsn_fuel (fuel : nat) (last_lsn : option Z) (c : C)
  : exec RouterError (list LsnBatch) * C :=
  match fuel with
  | O => (Ok [], c)
  | S fuel' =>
      match next_batch c with
      | Some (batch, c') =>
          if match last_lsn with Some prev => lb_lsn batch <? prev | None => false end
          then (Err ChannelSaturated, c')
          else
            let '(r, c'') := batch_by_lsn_fuel fuel' (Some (lb_lsn batch)) c' in
            (exec_map (cons batch) r, c'')
      | None => (Ok [], c)
      end
  end.

Definition batch_by_lsn (c : C) : exec RouterError (list LsnBatch) * C :=
  batch_by_lsn_fuel (S (available c)) None c.

Lemma batch_loop_available fuel lsn c :
  (available (batch_loop fuel lsn c).2 <= available c)%nat.
Proof.
  revert c. induction fuel as [|fuel IH]; intros c; simpl; [lia|].
  destruct (peek_lsn c) as [n|]; [|simpl; lia]. destruct (negb (n =? lsn)); [simpl; lia|].
  destruct (next_diff c) as [[d c']|] eqn:Hd; [|simpl; lia].
  apply next_diff_available in Hd. specialize (IH c').
  destruct (batch_loop fuel lsn c'). simpl in *. lia.
Qed.

Lemma next_batch_available c b c' : next_batch c = Some (b, c') -> (available c' < available c)%nat.
Proof.
  unfold next_batch. destruct (next_diff c) as [[d c1]|] eqn:Hd; [|done].
  apply next_diff_available in Hd. pose proof (batch_loop_available (S (available c1)) (rd_lsn d) c1).
  destruct (batch_loop _ _ _). simpl in *. intros [= <- <-]. lia.
Qed.
End Default.

(** ** [VecCursor] *)

Record VecCursor := { vc_diffs : list RawDiff }.

#[local] Obligation Tactic := idtac.

#[export] Program Instance VecCursor_TraceCursor : TraceCursor VecCursor := {|
  next_diff c := match vc_diffs c with [] => None | d :: l => Some (d, {| vc_diffs := l |}) end;
  peek_lsn c := match vc_diffs c with [] => None | d :: _ => Some (rd_lsn d) end;
  available c := length (vc_diffs c)
|}.
Next Obligation. intros [[|d l]]; simpl; [done|]. intros d' c' [= <- <-]. simpl. lia. Qed.

(** ** Correctness: the maximal runs of equal LSN *)

(** Reference definition: cut a list into its maximal runs of equal LSN. *)
Fixpoint lsn_runs (l : list RawDiff) : list LsnBatch :=
  match l with
  | [] => []
  | d :: l' =>
      match lsn_runs l' with
      | b :: bs => if rd_lsn d =? lb_lsn b
                   then {| lb_lsn := lb_lsn b; lb_diffs := d :: lb_diffs b |} :: bs
                   else {| lb_lsn := rd_lsn d; lb_diffs := [d] |} :: b :: bs
      | [] => [{| lb_lsn := rd_lsn d; lb_diffs := [d] |}]
      end
  end.

Lemma lsn_runs_concat l : concat (map lb_diffs (lsn_runs l)) = l.
Proof.
  induction l as [|d l IH]; [done|]. simpl. destruct (lsn_runs l) as [|b bs]; simpl in *.
  - by rewrite <- IH.
  - destruct (rd_lsn d =? lb_lsn b); simpl; by rewrite IH.
Qed.

Lemma lsn_runs_head d l : exists b bs, lsn_runs (d :: l) = b :: bs /\ lb_lsn b = rd_lsn d.
Proof.
  simpl. destruct (lsn_runs l) as [|b bs]; [by eexists _, _|].
  destruct (Z.eqb_spec (rd_lsn d) (lb_lsn b)); eexists _, _; split; try done.
Qed.

Lemma batch_loop_runs fuel lsn l :
  (length l < fuel)%nat ->
  exists rest c', batch_loop fuel lsn {| vc_diffs := l |} = (rest, {| vc_diffs := c' |}) /\ l = rest ++ c' /\
    Forall (fun d => rd_lsn d = lsn) rest /\ (forall d, head c' = Some d -> rd_lsn d <> lsn).
Proof.
  revert l. induction fuel as [|fuel IH]; intros l Hf; [lia|].
  destruct l as [|d l]; simpl; [by exists [], []|].
  destruct (Z.eqb_spec (rd_lsn d) lsn) as [He|Hne]; simpl.
  - destruct (IH l) as (rest & c' & -> & -> & Hall & Hh); [simpl in Hf; lia|].
    exists (d :: rest), c'. repeat split; try done. by constructor.
  - exists [], (d :: l). repeat split; try done. simpl. by intros ? [= <-].
Qed.

Lemma lsn_runs_app d rest c' :
  Forall (fun x => rd_lsn x = rd_lsn d) rest -> (forall x, head c' = Some x -> rd_lsn x <> rd_lsn d) ->
  lsn_runs (d :: rest ++ c') = {| lb_lsn := rd_lsn d; lb_diffs := d :: rest |} :: lsn_runs c'.
Proof.
  intros Hall Hh. revert d Hall Hh. induction rest as [|x rest IH]; intros d Hall Hh; simpl.
  - destruct c' as [|y c'']; [done|]. specialize (Hh y eq_refl).
    destruct (lsn_runs_head y c'') as (b & bs & -> & Hb).
    destruct (Z.eqb_spec (rd_lsn d) (lb_lsn b)); [congruence | done].
  - inversion Hall as [|? ? Hx Hrest]; subst. rewrite <- Hx in Hrest, Hh.
    specialize (IH x Hrest Hh). simpl in IH. rewrite IH. simpl.
    rewrite Hx, Z.eqb_refl. done.
Qed.

(** ** Cursors that tell what comes next *)

(** A cursor that surfaces a list of diffs and whose [peek_lsn] is the LSN of the next one. The default
    [peek_lsn], which answers [None], does not satisfy this. *)
Class PeekingCursor (C : Type) `{!TraceCursor C} : Type := {
  remaining : C -> list RawDiff;
  remaining_next c :
    match remaining c with
    | [] => next_diff c = None
    | d :: rest => exists c', next_diff c = Some (d, c') /\ remaining c' = rest
    end;
  remaining_peek c : peek_lsn c = rd_lsn <$> head (remaining c);
  remaining_available c : (length (remaining c) <= available c)%nat
}.

#[export] Program Instance VecCursor_PeekingCursor : PeekingCursor VecCursor := {| remaining := vc_diffs |}.
Next Obligation. intros [[|d l]]; simpl; [done|]. by eexists. Qed.
Next Obligation. by intros [[|d l]]. Qed.
Next Obligation. done. Qed.

Section Peeking.
Context {C : Type} `{PeekingCursor C}.

Lemma batch_loop_remaining fuel lsn : forall c : C, (length (remaining c) < fuel)%nat ->
  exists run c', batch_loop fuel lsn c = (run, c') /\ remaining c = run ++ remaining c' /\
    Forall (fun d => rd_lsn d = lsn) run /\ (forall d, head (remaining c') = Some d -> rd_lsn d <> lsn).
Proof.
  induction fuel as [|fuel IH]; intros c Hf; [lia|]. cbn [batch_loop]. rewrite remaining_peek. pose proof (remaining_next c) as Hn.
  destruct (remaining c) as [|d rest] eqn:Er; cbn [head fmap option_fmap option_map].
  { exists [], c. rewrite Er. by repeat split. }
  destruct (Z.eqb_spec (rd_lsn d) lsn) as [<-|Hne]; cbn [negb].
  - destruct Hn as (c1 & -> & E1). destruct (IH c1) as (run & c' & -> & Hc & Hall & Hh); [rewrite E1; simpl in Hf; lia|].
    exists (d :: run), c'. rewrite <- E1, Hc. repeat split; [by constructor | done].
  - exists [], c. rewrite Er. repeat split; [constructor|]. simpl. by intros ? [= <-].
Qed.

(** A transaction is the first run of equal LSN. *)
Lemma next_transaction_remaining (c : C) :
  match next_transaction c with
  | Some (d, c') => exists b, d = delta_of_batch b /\ lsn_runs (remaining c) = b :: lsn_runs (remaining c') /\
      (length (remaining c') < length (remaining c))%nat /\ lb_diffs b <> []
  | None => remaining c = []
  end.
Proof.
  unfold next_transaction, next_batch. pose proof (remaining_next c) as Hn. destruct (remaining c) as [|d rest]; [by rewrite Hn|].
  destruct Hn as (c1 & -> & E1).
  destruct (batch_loop_remaining (S (available c1)) (rd_lsn d) c1) as (run & c2 & -> & Hc & Hall & Hh); [pose proof (remaining_available c1); lia|].
  rewrite Hc in E1. subst rest. eexists. split; [reflexivity|]. rewrite lsn_runs_app by done. split; [done|]. split; [|done].
  simpl. rewrite length_app. lia.
Qed.
End Peeking.

Definition starts_below (last : option Z) (bs : list LsnBatch) : bool :=
  match last, bs with Some p, b :: _ => lb_lsn b <? p | _, _ => false end.

(** An LSN inversion between consecutive batches. *)
Fixpoint inverted (last : option Z) (bs : list LsnBatch) : bool :=
  match bs with
  | [] => false
  | b :: bs' => starts_below last bs || inverted (Some (lb_lsn b)) bs'
  end.

Lemma next_batch_runs l :
  match next_batch {| vc_diffs := l |} with
  | Some (b, {| vc_diffs := l' |}) => lsn_runs l = b :: lsn_runs l'
  | None => l = []
  end.
Proof.
  destruct l as [|d l]; [done|]. unfold next_batch. cbn [next_diff VecCursor_TraceCursor vc_diffs].
  destruct (batch_loop_runs (S (available {| vc_diffs := l |})) (rd_lsn d) l) as (rest & c' & -> & -> & Hall & Hh);
    [simpl; lia|].
  by apply lsn_runs_app.
Qed.

Lemma batch_by_lsn_fuel_runs fuel last l :
  (length l < fuel)%nat ->
  (batch_by_lsn_fuel fuel last {| vc_diffs := l |}).1 =
    if inverted last (lsn_runs l) then Err ChannelSaturated else Ok (lsn_runs l).
Proof.
  revert last l. induction fuel as [|fuel IH]; intros last l Hf; [lia|].
  cbn [batch_by_lsn_fuel]. pose proof (next_batch_runs l) as Hb.
  destruct (next_batch {| vc_diffs := l |}) as [[b [l']]|] eqn:Hnb; [|by subst].
  apply next_batch_available in Hnb. simpl in Hnb. rewrite Hb. cbn [inverted starts_below].
  destruct last as [p|]; cbn [starts_below]; [destruct (lb_lsn b <? p); [done|]|]; cbn [orb];
    (specialize (IH (Some (lb_lsn b)) l' ltac:(lia));
     destruct (batch_by_lsn_fuel fuel (Some (lb_lsn b)) {| vc_diffs := l' |}) as [r c'']; simpl in *;
     rewrite IH; by destruct (inverted _ _)).
Qed.

Definition lsn_sorted (l : list RawDiff) : Prop := StronglySorted (fun a b => rd_lsn a <= rd_lsn b) l.

Lemma sorted_not_inverted last l :
  lsn_sorted l -> (forall p d, last = Some p -> head l = Some d -> p <= rd_lsn d) ->
  inverted last (lsn_runs l) = false.
Proof.
  revert last. induction l as [|d l IH]; intros last Hs Hlast; [done|].
  inversion Hs as [|? ? Hs' Hall]; subst. specialize (IH (Some (rd_lsn d)) Hs').
  assert (inverted (Some (rd_lsn d)) (lsn_runs l) = false) as Hinv.
  { apply IH. intros p x [= <-] Hx. destruct l as [|y l]; [done|]. injection Hx as <-.
    by inversion Hall. }
  assert (starts_below last (lsn_runs (d :: l)) = false) as Hsb.
  { destruct (lsn_runs_head d l) as (b & bs & -> & Hb). destruct last as [p|]; [|done]. simpl.
    apply Z.ltb_ge. rewrite Hb. by apply Hlast. }
  simpl in *. destruct (lsn_runs l) as [|b bs] eqn:Hl.
  - cbn [inverted]. by rewrite Hsb.
  - destruct (Z.eqb_spec (rd_lsn d) (lb_lsn b)) as [E|]; cbn [inverted lb_lsn] in *; rewrite Hsb; simpl.
    + apply orb_false_iff in Hinv as [_ Hinv]. done.
    + exact Hinv.
Qed.

Lemma not_inverted_sorted last l :
  inverted last (lsn_runs l) = false ->
  Sorted (fun a b => rd_lsn a <= rd_lsn b) l /\
  (forall p d, last = Some p -> head l = Some d -> p <= rd_lsn d).
Proof.
  revert last. induction l as [|d l IH]; intros last Hinv; [split; [constructor | done]|].
  destruct (lsn_runs_head d l) as (b & bs & Hr & Hb). rewrite Hr in Hinv. cbn [inverted] in Hinv.
  apply orb_false_iff in Hinv as [Hsb Hinv].
  assert (inverted (Some (rd_lsn d)) (lsn_runs l) = false) as Hl.
  { simpl in Hr. destruct (lsn_runs l) as [|b' bs']; [done|].
    destruct (Z.eqb_spec (rd_lsn d) (lb_lsn b')) as [E|]; injection Hr as <- <-; [|done].
    cbn [inverted starts_below lb_lsn] in *. rewrite E, Z.ltb_irrefl. exact Hinv. }
  apply IH in Hl as [Hs Hh]. split.
  - constructor; [done|]. destruct l; constructor. by apply Hh.
  - intros p x -> [= <-]. cbn [starts_below] in Hsb. apply Z.ltb_ge in Hsb. by rewrite <- Hb.
Qed.

Lemma lsn_runs_uniform l : Forall (fun b => Forall (fun d => rd_lsn d = lb_lsn b) (lb_diffs b)) (lsn_runs l).
Proof.
  induction l as [|d l IH]; [constructor|]. simpl. destruct (lsn_runs l) as [|b bs].
  - repeat constructor.
  - inversion IH; subst. destruct (Z.eqb_spec (rd_lsn d) (lb_lsn b)); repeat constructor; done.
Qed.

Lemma lsn_runs_strict l : lsn_sorted l -> StronglySorted Z.lt (map lb_lsn (lsn_runs l)).
Proof.
  induction l as [|d l IH]; intros Hs; [constructor|]. inversion Hs as [|? ? Hs' Hall]; subst.
  specialize (IH Hs'). simpl. destruct l as [|y l]; [repeat constructor|].
  destruct (lsn_runs_head y l) as (b & bs & Hr & Hb). rewrite Hr in *. simpl in *.
  inversion Hall as [|? ? Hy _]; subst.
  destruct (Z.eqb_spec (rd_lsn d) (lb_lsn b)) as [E|]; simpl; [done|].
  inversion IH as [|? ? Hs2 Hall2]; subst.
  constructor; [done|]. constructor; [lia|]. eapply Forall_impl; [exact Hall2|]. simpl. lia.
Qed.

(** Batching a finite cursor terminates; it succeeds exactly when the diffs are non-decreasing
    in LSN, and then the batches concatenate to the diffs, each holds one LSN, and LSNs strictly
    increase; otherwise it reports saturation. *)
Theorem batch_by_lsn_groups l :
  match (batch_by_lsn {| vc_diffs := l |}).1 with
  | Ok bs =>
      lsn_sorted l /\ concat (map lb_diffs bs) = l /\
      Forall (fun b => Forall (fun d => rd_lsn d = lb_lsn b) (lb_diffs b)) bs /\
      StronglySorted Z.lt (map lb_lsn bs)
  | Err e => e = ChannelSaturated /\ ~ lsn_sorted l
  | Panic => False
  end.
Proof.
  unfold batch_by_lsn. rewrite batch_by_lsn_fuel_runs by (simpl; lia).
  destruct (inverted None (lsn_runs l)) eqn:Hi.
  - split; [done|]. intros Hs. by rewrite sorted_not_inverted in Hi.
  - assert (lsn_sorted l) as Hs.
    { apply Sorted_StronglySorted; [intros a b c; lia|]. by apply not_inverted_sorted in Hi as [? _]. }
    auto using lsn_runs_concat, lsn_runs_uniform, lsn_runs_strict.
Qed.
