(* ===== verification/Pairing.v ===== *)
(** * Pairing: raw diffs to row changes
    ([pair_changes] and its helpers in [crates/palimpsest-server/src/router.rs])

    The diffs of a transaction are binned by primary key; an insertion and a
    deletion of one key become an update. *)

From S2P Require Import Prelude BTree Text Values UserContext Watermarks Channel Cursor.

(** ** Operations *)

Definition datum_to_key_bytes (d : Datum) : list byte :=
  match d with
  | D_I64 v => be_encode 8 (uint 64 v)
  | D_I32 v => be_encode 4 (uint 32 v)
  | D_I16 v => be_encode 2 (uint 16 v)
  | D_Bool v => [if v then x01 else x00]
  | D_Text bs | D_Bytea bs => bs
  | D_Uuid u => as_bytes u
  | D_F32 _ | D_F64 _ | D_Numeric _ | D_Date _ | D_Time _ | D_Timestamp _ | D_TimestampTz _
  | D_Interval _ | D_Json _ | D_Jsonb _ | D_Array _ | D_Null | D_Unchanged => []
  end.

Definition primary_key_bytes (row : Row) (primary_key : list nat) : list (list byte) :=
  map (fun index => match row !! index with Some d => datum_to_key_bytes d | None => [] end) primary_key.

Definition bins := btree (list (list byte)) (list RawDiff).

(** [entry(key).or_default().push(diff)]. *)
Definition bin_push (key : list (list byte)) (d : RawDiff) (m : bins) : bins :=
  bt_entry key [] (fun l => l ++ [d]) m.

(** The first loop: [(inserts, deletes)]. *)
Fixpoint split_bins (primary_key : list nat) (diffs : list RawDiff) (acc : bins * bins) : bins * bins :=
  match diffs with
  | [] => acc
  | d :: rest =>
      let key := primary_key_bytes (rd_row d) primary_key in
      split_bins primary_key rest
        (if 0 <? rd_diff d then (bin_push key d acc.1, acc.2) else (acc.1, bin_push key d acc.2))
  end.

Definition insert_change (d : RawDiff) : RowChange :=
  {| rc_op := Op_Insert; rc_old := None; rc_new := Some (rd_row d) |}.
Definition delete_change (d : RawDiff) : RowChange :=
  {| rc_op := Op_Delete; rc_old := Some (rd_row d); rc_new := None |}.
Definition update_change (old new : RawDiff) : RowChange :=
  {| rc_op := Op_Update; rc_old := Some (rd_row old); rc_new := Some (rd_row new) |}.

(** [Vec::pop().expect(..)]: the last element and the rest. *)
Definition pop {E A} (l : list A) : exec E (A * list A) :=
  match last l with
  | Some x => Ok (x, removelast l)
  | None => Panic
  end.

(** The second loop, over [inserts] in key order. *)
Fixpoint emit_inserts {E} (inserts deletes : bins) : exec E (list RowChange * bins) :=
  match inserts with
  | [] => Ok ([], deletes)
  | (key, ins) :: rest =>
      match bt_get key deletes with
      | Some outs =>
          let? (new, ins') := pop ins in
          let? (old, outs') := pop outs in
          let? (changes, deletes') := emit_inserts rest (bt_remove key deletes) in
          Ok (update_change old new :: map insert_change ins' ++ map delete_change outs' ++ changes, deletes')
      | None =>
          let? (changes, deletes') := emit_inserts rest deletes in
          Ok (map insert_change ins ++ changes, deletes')
      end
  end.

Definition pair_changes {E} (diffs : list RawDiff) (primary_key : list nat) : exec E (list RowChange) :=
  let '(inserts, deletes) := split_bins primary_key diffs ([], []) in
  let? (changes, deletes') := emit_inserts inserts deletes in
  Ok (changes ++ map delete_change (concat (map snd deletes'))).

Definition pair_transaction_into_event {E} (delta : QueryTransactionDelta) (primary_key : list nat)
  : exec E DiffEvent :=
  let? changes := pair_changes (qd_diffs delta) primary_key in
  Ok (Ev_TransactionUpdate (qd_transaction_id delta) (qd_begin_lsn delta) (qd_commit_lsn delta)
        (qd_end_lsn delta) changes).

(** ** What the changes say *)

Definition news (cs : list RowChange) : list Row := filter_map rc_new cs.
Definition olds (cs : list RowChange) : list Row := filter_map rc_old cs.
Definition is_update (c : RowChange) : bool := match rc_op c with Op_Update => true | _ => false end.

(** The primary keys of the updates, in order. *)
Definition update_keys (pk : list nat) (cs : list RowChange) : list (list (list byte)) :=
  filter_map (fun c => if is_update c then (fun r => primary_key_bytes r pk) <$> rc_new c else None) cs.

(** The shape of each operation: which images are present, and both images of
    an update share the primary key. *)
Definition change_ok (pk : list nat) (c : RowChange) : Prop :=
  match rc_op c, rc_old c, rc_new c with
  | Op_Insert, None, Some _ | Op_Delete, Some _, None => True
  | Op_Update, Some o, Some n => primary_key_bytes o pk = primary_key_bytes n pk
  | _, _, _ => False
  end.

Definition inserted (diffs : list RawDiff) : list RawDiff := List.filter (fun d => 0 <? rd_diff d) diffs.
Definition deleted (diffs : list RawDiff) : list RawDiff := List.filter (fun d => negb (0 <? rd_diff d)) diffs.

(** ** Bins *)

Definition bin_ok (pk : list nat) (b : list (list byte) * list RawDiff) : Prop :=
  b.2 <> [] /\ Forall (fun d => primary_key_bytes (rd_row d) pk = b.1) b.2.

Definition bins_ok (pk : list nat) (m : bins) : Prop := bt_wf m /\ Forall (bin_ok pk) m.

Definition bin_diffs (m : bins) : list RawDiff := concat (map snd m).

Lemma bin_diffs_perm m1 m2 : m1 ≡ₚ m2 -> bin_diffs m1 ≡ₚ bin_diffs m2.
Proof.
  unfold bin_diffs. induction 1 as [|[k l] m1 m2 _ IH|[k1 l1] [k2 l2] m|m1 m2 m3 _ IH1 _ IH2]; simpl.
  - done.
  - by rewrite IH.
  - rewrite !app_assoc. by rewrite (Permutation_app_comm l2 l1).
  - by etrans.
Qed.

Lemma bin_push_diffs k d m : bin_diffs (bin_push k d m) ≡ₚ d :: bin_diffs m.
Proof.
  unfold bin_push, bt_entry. rewrite (bin_diffs_perm _ _ (bt_insert_perm k _ m)).
  destruct (bt_get k m) as [l|] eqn:Hg; simpl.
  - rewrite (bin_diffs_perm m _ (bt_remove_perm k l m Hg)). unfold bin_diffs. simpl.
    rewrite <- app_assoc. symmetry. apply Permutation_middle.
  - rewrite bt_remove_None by done. done.
Qed.

Lemma bin_get_ok pk m k l : bins_ok pk m -> bt_get k m = Some l -> bin_ok pk (k, l).
Proof. intros [Hwf Hall] Hg%bt_get_in; [|done]. rewrite Forall_forall in Hall. by apply Hall. Qed.

Lemma bin_push_ok pk d m : bins_ok pk m -> bins_ok pk (bin_push (primary_key_bytes (rd_row d) pk) d m).
Proof.
  intros Hok. split; [apply bt_wf_insert, Hok|]. apply Forall_bt_insert; [|apply Hok].
  split; simpl; [by destruct (default _ _)|]. apply Forall_app. split; [|by repeat constructor].
  destruct (bt_get _ m) as [l|] eqn:Hg; simpl; [|constructor]. by apply (bin_get_ok pk m _ l Hok) in Hg as [_ ?].
Qed.

Lemma bins_ok_remove pk k m : bins_ok pk m -> bins_ok pk (bt_remove k m).
Proof. intros [Hwf Hall]. split; [by apply bt_wf_remove | by apply Forall_bt_remove]. Qed.

Lemma split_bins_spec pk diffs im dm :
  bins_ok pk im -> bins_ok pk dm ->
  let '(im', dm') := split_bins pk diffs (im, dm) in
  bins_ok pk im' /\ bins_ok pk dm' /\
  bin_diffs im' ≡ₚ inserted diffs ++ bin_diffs im /\ bin_diffs dm' ≡ₚ deleted diffs ++ bin_diffs dm.
Proof.
  revert im dm. induction diffs as [|d diffs IH]; intros im dm Hi Hd; simpl; [done|].
  destruct (0 <? rd_diff d); simpl.
  - specialize (IH _ dm (bin_push_ok pk d im Hi) Hd). destruct (split_bins _ _ _) as [im' dm'].
    destruct IH as (? & ? & Hpi & ?). repeat split; try done; try apply H; try apply H0.
    rewrite Hpi, bin_push_diffs. symmetry. apply Permutation_middle.
  - specialize (IH im _ Hi (bin_push_ok pk d dm Hd)). destruct (split_bins _ _ _) as [im' dm'].
    destruct IH as (? & ? & ? & Hpd). repeat split; try done; try apply H; try apply H0.
    rewrite Hpd, bin_push_diffs. symmetry. apply Permutation_middle.
Qed.

(** ** Emission *)

Lemma news_app a b : news (a ++ b) = news a ++ news b.
Proof. apply filter_map_app. Qed.
Lemma olds_app a b : olds (a ++ b) = olds a ++ olds b.
Proof. apply filter_map_app. Qed.
Lemma update_keys_app pk a b : update_keys pk (a ++ b) = update_keys pk a ++ update_keys pk b.
Proof. apply filter_map_app. Qed.

Lemma inserts_effect pk l :
  news (map insert_change l) = map rd_row l /\ olds (map insert_change l) = [] /\
  update_keys pk (map insert_change l) = [] /\ Forall (change_ok pk) (map insert_change l).
Proof.
  unfold news, olds, update_keys. induction l as [|d l IH]; simpl in *; [done|].
  destruct IH as (IH1 & IH2 & IH3 & IH4). rewrite IH1. repeat split; try done. by constructor.
Qed.

Lemma deletes_effect pk l :
  news (map delete_change l) = [] /\ olds (map delete_change l) = map rd_row l /\
  update_keys pk (map delete_change l) = [] /\ Forall (change_ok pk) (map delete_change l).
Proof.
  unfold news, olds, update_keys. induction l as [|d l IH]; simpl in *; [done|].
  destruct IH as (IH1 & IH2 & IH3 & IH4). rewrite IH2. repeat split; try done. by constructor.
Qed.

Lemma pop_ok {E A} (l : list A) : l <> [] -> exists x l', @pop E A l = Ok (x, l') /\ l = l' ++ [x].
Proof.
  intros Hne. unfold pop. destruct (exists_last Hne) as (l' & x & ->). exists x, l'.
  by rewrite last_snoc, removelast_last.
Qed.

Lemma emit_inserts_spec {E} pk im dm :
  bins_ok pk im -> bins_ok pk dm ->
  exists cs dm', @emit_inserts E im dm = Ok (cs, dm') /\ bins_ok pk dm' /\
    news cs ≡ₚ map rd_row (bin_diffs im) /\
    olds cs ++ map rd_row (bin_diffs dm') ≡ₚ map rd_row (bin_diffs dm) /\
    Forall (change_ok pk) cs /\
    update_keys pk cs = filter_map (fun b => match bt_get b.1 dm with Some _ => Some b.1 | None => None end) im.
Proof.
  revert dm. induction im as [|[k ins] im IH]; intros dm Hi Hd; simpl.
  - by exists [], dm.
  - destruct Hi as [Hwf Hall]. inversion Hall as [|? ? [Hne Hk] Hall']; subst. simpl in Hne, Hk.
    apply bt_wf_cons in Hwf as [Hbelow Hwf].
    destruct (bt_get k dm) as [outs|] eqn:Hg.
    + pose proof (bin_get_ok pk dm k outs Hd Hg) as [Hne' Hk']. simpl in Hne', Hk'.
      destruct (@pop_ok E _ ins Hne) as (new & ins' & -> & ->), (@pop_ok E _ outs Hne') as (old & outs' & -> & ->).
      destruct (IH (bt_remove k dm)) as (cs & dm' & -> & Hok' & Hn & Ho & Hc & Hu);
        [done | by apply bins_ok_remove|].
      eexists _, dm'. split; [reflexivity|]. split; [done|].
      destruct (inserts_effect pk ins') as (In & Io & Iu & Ic), (deletes_effect pk outs') as (Dn & Do & Du & Dc).
      apply Forall_app in Hk as [_ Hk], Hk' as [_ Hk']. apply Forall_cons in Hk as [Hkn _], Hk' as [Hko _].
      repeat split.
      * change (rd_row new :: news (map insert_change ins' ++ map delete_change outs' ++ cs)
          ≡ₚ map rd_row (bin_diffs ((k, ins' ++ [new]) :: im))).
        rewrite !news_app, In, Dn. unfold bin_diffs. simpl. rewrite !map_app, Hn. simpl.
        rewrite <- app_assoc. simpl. apply Permutation_middle.
      * change ((rd_row old :: olds (map insert_change ins' ++ map delete_change outs' ++ cs))
          ++ map rd_row (bin_diffs dm') ≡ₚ map rd_row (bin_diffs dm)).
        rewrite !olds_app, Io, Do. simpl. rewrite <- app_assoc, Ho.
        rewrite (bin_diffs_perm dm _ (bt_remove_perm _ _ dm Hg)). unfold bin_diffs at 2. simpl.
        rewrite !map_app, <- app_assoc. simpl. apply Permutation_middle.
      * constructor; [unfold change_ok; simpl; congruence|]. by repeat (apply Forall_app; split).
      * trans (primary_key_bytes (rd_row new) pk ::
          update_keys pk (map insert_change ins' ++ map delete_change outs' ++ cs)); [done|].
        rewrite !update_keys_app, Iu, Du, Hu. simpl. rewrite ?Hg, Hkn. f_equal. apply filter_map_ext.
        intros [k' l'] Hin. simpl. rewrite bt_get_remove_ne; [done|apply Hd|].
        rewrite Forall_forall in Hbelow. specialize (Hbelow _ Hin). cbn [fst] in Hbelow.
        intros ->. by rewrite cmp_refl in Hbelow.
    + destruct (IH dm) as (cs & dm' & -> & Hok' & Hn & Ho & Hc & Hu); [done..|].
      destruct (inserts_effect pk ins) as (In & Io & Iu & Ic).
      eexists _, dm'. split; [reflexivity|]. repeat split; try apply Hok'.
      * rewrite news_app, In, Hn. unfold bin_diffs. simpl. by rewrite map_app.
      * by rewrite olds_app, Io.
      * by apply Forall_app.
      * rewrite update_keys_app, Iu, Hu. simpl. by rewrite ?Hg.
Qed.

Lemma bins_keys pk m k :
  bins_ok pk m -> is_Some (bt_get k m) <-> exists d, d ∈ bin_diffs m /\ primary_key_bytes (rd_row d) pk = k.
Proof.
  intros Hok. split.
  - intros [l Hg]. destruct (bin_get_ok pk m k l Hok Hg) as [Hne Hall]. simpl in *.
    destruct l as [|d l]; [done|]. apply Forall_cons in Hall as [Hd _]. exists d. split; [|done].
    rewrite (bin_diffs_perm m _ (bt_remove_perm k _ m Hg)). unfold bin_diffs. simpl. left.
  - intros (d & Hd & Hk). unfold bin_diffs in Hd. apply list_elem_of_In, in_concat in Hd as (l & Hl & Hd).
    apply in_map_iff in Hl as ([k' l'] & <- & Hin). apply list_elem_of_In in Hin. exists l'.
    destruct Hok as [Hwf Hall]. rewrite Forall_forall in Hall. destruct (Hall _ Hin) as [_ Hf]. simpl in *.
    rewrite Forall_forall in Hf. apply list_elem_of_In in Hd. rewrite (Hf _ Hd) in Hk. subst k'.
    by apply bt_get_in.
Qed.

Lemma update_keys_NoDup (im dm : bins) :
  bt_wf im -> NoDup (filter_map (fun b => match bt_get b.1 dm with Some _ => Some b.1 | None => None end) im).
Proof.
  intros Hwf%bt_wf_NoDup. induction im as [|[k l] im IH]; simpl in *; [constructor|].
  apply NoDup_cons in Hwf as [Hk Hwf]. destruct (bt_get k dm); [|auto]. constructor; [|auto].
  intros Hin. apply elem_of_filter_map in Hin as ([k' l'] & Hin & Hm). simpl in Hm.
  destruct (bt_get k' dm); [|done]. injection Hm as ->. apply Hk. apply list_elem_of_fmap. by exists (k, l').
Qed.

Lemma bins_ok_nil pk : bins_ok pk [].
Proof. split; constructor. Qed.

Lemma pair_changes_spec {E} diffs pk :
  exists cs, @pair_changes E diffs pk = Ok cs /\
    news cs ≡ₚ map rd_row (inserted diffs) /\
    olds cs ≡ₚ map rd_row (deleted diffs) /\
    Forall (change_ok pk) cs /\
    NoDup (update_keys pk cs) /\
    (forall k, k ∈ update_keys pk cs <->
       (exists d, d ∈ inserted diffs /\ primary_key_bytes (rd_row d) pk = k) /\
       (exists d, d ∈ deleted diffs /\ primary_key_bytes (rd_row d) pk = k)).
Proof.
  unfold pair_changes.
  pose proof (split_bins_spec pk diffs [] [] (bins_ok_nil pk) (bins_ok_nil pk)) as Hs.
  destruct (split_bins pk diffs ([], [])) as [im dm] eqn:Hsb.
  change (split_bins pk diffs _) with (split_bins pk diffs ([], [])) in Hs. rewrite Hsb in Hs. destruct Hs as (Hi & Hd & Hpi & Hpd).
  cbn in Hpi, Hpd. rewrite app_nil_r in Hpi, Hpd.
  destruct (@emit_inserts_spec E pk im dm Hi Hd) as (cs & dm' & -> & _ & Hn & Ho & Hc & Hu). simpl.
  fold (bin_diffs dm'). destruct (deletes_effect pk (bin_diffs dm')) as (Dn & Do & Du & Dc).
  eexists. split; [reflexivity|]. rewrite news_app, olds_app, update_keys_app, Dn, Do, Du, !app_nil_r.
  split; [by rewrite Hn, Hpi|]. split; [by rewrite Ho, Hpd|]. split; [by apply Forall_app|].
  rewrite Hu. split; [apply update_keys_NoDup, Hi|]. intros k.
  rewrite elem_of_filter_map. setoid_rewrite <- Hpi. setoid_rewrite <- Hpd.
  rewrite <- (bins_keys pk im k Hi), <- (bins_keys pk dm k Hd). split.
  - intros ([k' l'] & Hin & Hm). simpl in Hm. destruct (bt_get k' dm) eqn:Hg; [|done]. injection Hm as <-.
    apply bt_get_in in Hin; [|apply Hi]. eauto.
  - intros [[l Hl] [l' Hl']]. exists (k, l). apply bt_get_in in Hl; [|apply Hi]. split; [done|].
    simpl. by rewrite Hl'.
Qed.

Lemma pair_changes_total {E} diffs pk : exists cs, @pair_changes E diffs pk = Ok cs.
Proof. destruct (@pair_changes_spec E diffs pk) as (cs & -> & _). eauto. Qed.

(** ** Keys as values *)

(** The values of the key columns. *)
Definition key_values (pk : list nat) (row : Row) : list (option Datum) := map (fun index => row !! index) pk.

(** A value of a key column of a given type, one of those [datum_to_key_bytes] encodes, within its width. *)
Definition key_value (t : DatumType) (d : Datum) : Prop :=
  match t, d with
  | T_I64, D_I64 v => - 2 ^ 63 <= v < 2 ^ 63
  | T_I32, D_I32 v => - 2 ^ 31 <= v < 2 ^ 31
  | T_I16, D_I16 v => - 2 ^ 15 <= v < 2 ^ 15
  | T_Bool, D_Bool _ | T_Text, D_Text _ | T_Bytea, D_Bytea _ | T_Uuid, D_Uuid _ => True
  | _, _ => False
  end.
(** Every key column holds a value of its type. *)
Definition keyed (types : list DatumType) (pk : list nat) (row : Row) : Prop :=
  Forall2 (fun index t => exists d, row !! index = Some d /\ key_value t d) pk types.

Lemma int_key_inj n a b : let w := 8 * Z.of_nat n in (0 < n)%nat ->
  - 2 ^ (w - 1) <= a < 2 ^ (w - 1) -> - 2 ^ (w - 1) <= b < 2 ^ (w - 1) ->
  be_encode n (uint w a) = be_encode n (uint w b) -> a = b.
Proof.
  intros w Hn Ha Hb E. assert (256 ^ Z.of_nat n = 2 ^ w) as Hp by (change 256 with (2 ^ 8); rewrite <- Z.pow_mul_r by lia; done).
  assert (forall z, 0 <= uint w z < 256 ^ Z.of_nat n) as Hr by (intros z; rewrite Hp; apply Z.mod_pos_bound, Z.pow_pos_nonneg; lia).
  apply (f_equal be_decode) in E. rewrite !be_decode_encode in E by apply Hr.
  rewrite <- (sint_id w a), <- (sint_id w b) by lia. unfold sint, uint in *. by rewrite E.
Qed.

Lemma key_value_inj t d d' : key_value t d -> key_value t d' -> datum_to_key_bytes d = datum_to_key_bytes d' -> d = d'.
Proof.
  destruct t, d, d'; try done; intros Hd Hd' E; cbn in *; try congruence.
  - by repeat case_match.
  - f_equal. exact (int_key_inj 2 _ _ ltac:(lia) Hd Hd' E).
  - f_equal. exact (int_key_inj 4 _ _ ltac:(lia) Hd Hd' E).
  - f_equal. exact (int_key_inj 8 _ _ ltac:(lia) Hd Hd' E).
  - repeat match goal with u : Uuid |- _ => destruct u end. cbn in *. by subst.
Qed.

(** On such rows, equal key bytes are equal keys. *)
Lemma keyed_agree types pk r r' : keyed types pk r -> keyed types pk r' ->
  primary_key_bytes r pk = primary_key_bytes r' pk <-> key_values pk r = key_values pk r'.
Proof.
  unfold keyed, primary_key_bytes, key_values. intros Hr. revert r'. induction Hr as [|i t pk types (d & Hd & Kd) Hr IH]; intros r' Hr'; [done|].
  inversion Hr' as [|? ? ? ? (d' & Hd' & Kd') Hr'']; subst. cbn [map]. rewrite Hd, Hd'. specialize (IH r' Hr''). split.
  - intros [= E1 E2]. f_equal; [by f_equal; apply (key_value_inj t) | by apply IH].
  - intros [= -> E2]. f_equal. by apply IH.
Qed.

(** The images an operation needs, and one key for both images of an update. *)
Definition change_keyed (pk : list nat) (c : RowChange) : Prop :=
  match rc_op c, rc_old c, rc_new c with
  | Op_Insert, None, Some _ | Op_Delete, Some _, None => True
  | Op_Update, Some o, Some n => key_values pk o = key_values pk n
  | _, _, _ => False
  end.
Definition updated_keys (pk : list nat) (cs : list RowChange) : list (list (option Datum)) :=
  filter_map (fun c => if is_update c then key_values pk <$> rc_new c else None) cs.

Lemma images_keyed {types pk} {cs : list RowChange} {diffs : list RawDiff} :
  Forall (fun d => keyed types pk (rd_row d)) diffs ->
  news cs ≡ₚ map rd_row (inserted diffs) -> olds cs ≡ₚ map rd_row (deleted diffs) ->
  Forall (fun c => (forall n, rc_new c = Some n -> keyed types pk n) /\ (forall o, rc_old c = Some o -> keyed types pk o)) cs.
Proof.
  intros Hall Hn Ho. rewrite Forall_forall in Hall. apply Forall_forall. intros c Hc.
  assert (forall f r, r ∈ map rd_row (List.filter f diffs) -> keyed types pk r) as Hin.
  { intros f r (d & -> & Hd)%list_elem_of_fmap. apply Hall. apply list_elem_of_In, filter_In in Hd as [Hd _]. by apply list_elem_of_In. }
  split; intros r Hr; [apply (Hin (fun d => 0 <? rd_diff d)); fold (inserted diffs); rewrite <- Hn
                      | apply (Hin (fun d => negb (0 <? rd_diff d))); fold (deleted diffs); rewrite <- Ho]; apply elem_of_filter_map; by exists c.
Qed.

(** The keys of updates, as values, correspond to those as bytes. *)
Lemma updated_keys_bytes types pk cs :
  Forall (fun c => forall n, rc_new c = Some n -> keyed types pk n) cs ->
  (NoDup (update_keys pk cs) -> NoDup (updated_keys pk cs)) /\
  (forall r, keyed types pk r -> key_values pk r ∈ updated_keys pk cs <-> primary_key_bytes r pk ∈ update_keys pk cs).
Proof.
  unfold update_keys, updated_keys. induction 1 as [|c cs Hc _ [IHd IHe]]; cbn [filter_map]; [split; [constructor | intros r _; by rewrite !elem_of_nil]|].
  destruct (is_update c), (rc_new c) as [n|]; cbn [fmap option_fmap option_map]; try exact (conj IHd IHe). specialize (Hc n eq_refl). split.
  - rewrite !NoDup_cons. intros [Hn Hd]. split; [|by apply IHd]. by rewrite (IHe n Hc).
  - intros r Hr. rewrite !elem_of_cons, (IHe r Hr). by rewrite (keyed_agree types pk r n Hr Hc).
Qed.

(** C28: Pairing a transaction's diffs, when every diff has weight 1 or -1 and every key column
    holds a value of one of the types datum_to_key_bytes encodes (bool, integers, text, bytea, uuid;
    the same type in every row): it never fails, the new images are exactly the rows of weight 1 and
    the old images exactly the rows of weight -1, every change has the images its operation needs,
    both images of an update have the same values in the key columns, and a key is updated exactly
    once if it has a row of each weight, and not otherwise. *)
Theorem pair_changes_exact {E} diffs pk types :
  Forall (fun d => rd_diff d = 1 \/ rd_diff d = -1) diffs -> Forall (fun d => keyed types pk (rd_row d)) diffs ->
  exists cs, @pair_changes E diffs pk = Ok cs /\
    news cs ≡ₚ map rd_row (List.filter (fun d => rd_diff d =? 1) diffs) /\
    olds cs ≡ₚ map rd_row (List.filter (fun d => rd_diff d =? -1) diffs) /\
    Forall (change_keyed pk) cs /\
    NoDup (updated_keys pk cs) /\
    (forall d, d ∈ diffs -> key_values pk (rd_row d) ∈ updated_keys pk cs <->
       (exists i, i ∈ diffs /\ rd_diff i = 1 /\ key_values pk (rd_row i) = key_values pk (rd_row d)) /\
       (exists o, o ∈ diffs /\ rd_diff o = -1 /\ key_values pk (rd_row o) = key_values pk (rd_row d))).
Proof.
  intros Hu Hk. destruct (@pair_changes_spec E diffs pk) as (cs & Hp & Hn & Ho & Hok & Hnd & Hkeys).
  pose proof (images_keyed Hk Hn Ho) as Him. rewrite Forall_forall in Hu, Hk.
  destruct (updated_keys_bytes types pk cs) as [HND HE]; [eapply Forall_impl; [exact Him | by intros c [Hc _]]|].
  assert (forall d, d ∈ diffs -> (0 <? rd_diff d) = (rd_diff d =? 1) /\ negb (0 <? rd_diff d) = (rd_diff d =? -1)) as Hsign
    by (intros d Hd; destruct (Hu d Hd) as [-> | ->]; done).
  assert (inserted diffs = List.filter (fun d => rd_diff d =? 1) diffs) as Ei
    by (apply filter_ext_in; intros d Hd%list_elem_of_In; by apply Hsign).
  assert (deleted diffs = List.filter (fun d => rd_diff d =? -1) diffs) as Ed
    by (apply filter_ext_in; intros d Hd%list_elem_of_In; by apply Hsign).
  rewrite Ei in *. rewrite Ed in *. exists cs. do 3 (split; [done|]). split; [|split; [by apply HND|]].
  - rewrite Forall_forall in Hok, Him |- *. intros c Hc. specialize (Hok c Hc). destruct (Him c Hc) as [Kn Ko]. unfold change_ok, change_keyed in *.
    destruct (rc_op c), (rc_old c) as [o|], (rc_new c) as [n|]; try done. by apply (keyed_agree types); auto.
  - intros d Hd. rewrite (HE _ (Hk d Hd)), Hkeys.
    assert (forall s, (exists x, x ∈ List.filter (fun x => rd_diff x =? s) diffs /\ primary_key_bytes (rd_row x) pk = primary_key_bytes (rd_row d) pk) <->
              exists x, x ∈ diffs /\ rd_diff x = s /\ key_values pk (rd_row x) = key_values pk (rd_row d)) as Hx; [|by rewrite !Hx].
    intros s. split.
    + intros (x & Hx & E'). apply list_elem_of_In, filter_In in Hx as [Hx Es]. apply list_elem_of_In in Hx. apply Z.eqb_eq in Es.
      exists x. split; [done|]. split; [done|]. by apply (keyed_agree types); auto.
    + intros (x & Hx & Es & E'). exists x. split; [apply list_elem_of_In, filter_In; split; [by apply list_elem_of_In | by apply Z.eqb_eq]|].
      by apply (keyed_agree types); auto.
Qed.
