(* ===== verification/Permissions.v ===== *)
(** * Permissions: rules and their compilation
    ([crates/palimpsest-permissions/src/rule.rs], [compile.rs], [version.rs],
    [crates/palimpsest-sql/src/catalog.rs])

    A rule's predicate is a template: [$user.<field>] references are encoded as
    sentinels, the SQL front end canonicalises the text, and the sentinels are
    replaced by literals when a subscription is rewritten. The SQL front end
    (the [sqlparser] crate and the lowering built on it) is a parameter. *)

From S2P Require Import Prelude BTree Text Values UserContext.

(** ** Rules *)

Inductive Mode := RowVisibility | Subscribe | Both.

Definition affects_visibility (m : Mode) : bool :=
  match m with RowVisibility | Both => true | Subscribe => false end.
Definition affects_subscribe (m : Mode) : bool :=
  match m with Subscribe | Both => true | RowVisibility => false end.

Record LatestBy := { lt_key : list text; lt_version : text }.
#[global] Instance LatestBy_eq_dec : EqDecision LatestBy.
Proof. solve_decision. Defined.

Record PermissionRule := {
  pr_name : text; pr_table : text; pr_predicate : text; pr_mode : Mode; pr_latest : option LatestBy
}.

(** [user_fields] is a [BTreeSet<String>]: the keys of a map to [unit]. *)
Record CompiledPredicate := { canonical : text; user_fields : btree text unit }.

Record CompiledRule := {
  cr_name : text; cr_table : text; cr_mode : Mode; cr_predicate : CompiledPredicate;
  cr_latest : option LatestBy
}.

(** ** The SQL catalog *)

Record ColumnSchema := { col_name : text; col_ty : ColumnType }.
Record TableSchema := { ts_name : text; ts_columns : list ColumnSchema }.
Abbreviation SqlCatalog := (btree text TableSchema).

Definition catalog_new (tables : list TableSchema) : SqlCatalog :=
  bt_from_list (map (fun t => (ts_name t, t)) tables).
Definition catalog_table (c : SqlCatalog) (name : text) : option TableSchema := bt_get name c.
Definition table_column (t : TableSchema) (name : text) : option ColumnSchema :=
  List.find (fun c => bool_decide (col_name c = name)) (ts_columns t).

(** ** Compiled predicates *)

Definition USER_PLACEHOLDER_PREFIX : text := lit "__palimpsest_user_".
Definition USER_PLACEHOLDER_SUFFIX : text := lit "__".
Definition MAX_PREDICATE_DEPTH : nat := 32.

Definition eq_ignore_ascii_case (a b : text) : bool :=
  bool_decide (map to_ascii_lowercase a = map to_ascii_lowercase b).

Definition is_tautology (p : CompiledPredicate) : bool :=
  eq_ignore_ascii_case (trim (canonical p)) (lit "true").

Section Predicates.
Context `{Rendering}.

(** The [while let Some(start) = remaining.find(..)] loop; each round consumes
    at least a prefix and a suffix. *)
Fixpoint materialize_loop (fuel : nat) (remaining : text) (ctx : UserContext) : exec PermissionError text :=
  match fuel with
  | O => Panic
  | S fuel' =>
      match find USER_PLACEHOLDER_PREFIX remaining with
      | None => Ok remaining
      | Some start =>
          let before := take start remaining in
          let after_prefix := drop (start + length USER_PLACEHOLDER_PREFIX) remaining in
          match find USER_PLACEHOLDER_SUFFIX after_prefix with
          | None => Err (MalformedUserReference [] (USER_PLACEHOLDER_PREFIX ++ after_prefix))
          | Some suffix =>
              let field := take suffix after_prefix in
              let? value := ok_or (bt_get field ctx) (MissingUserValue field) in
              let? rest := materialize_loop fuel'
                (drop (suffix + length USER_PLACEHOLDER_SUFFIX) after_prefix) ctx in
              Ok (before ++ to_sql_literal value ++ rest)
          end
      end
  end.

Definition materialize (p : CompiledPredicate) (ctx : UserContext) : exec PermissionError text :=
  materialize_loop (S (length (canonical p))) (canonical p) ctx.

Definition binding (ctx : UserContext) (field : text) : exec PermissionError text :=
  let? value := ok_or (bt_get field ctx) (MissingUserValue field) in
  let repr := canonical_repr value in
  Ok (lit "|" ++ field ++ lit "=" ++ dec_len (length repr) ++ lit ":" ++ repr).

Definition canonical_with_context (p : CompiledPredicate) (ctx : UserContext) : exec PermissionError text :=
  let? bindings := exec_mapM (binding ctx) (map fst (user_fields p)) in
  Ok (canonical p ++ concat bindings).
End Predicates.

(** ** [$user.<field>] references *)

Definition is_ascii_digit (b : byte) : bool := in_range 48 57 b.
Definition is_ascii_alphabetic (b : byte) : bool := in_range 65 90 b || in_range 97 122 b.
Definition is_ident_byte (b : byte) : bool :=
  is_ascii_alphabetic b || is_ascii_digit b || bool_decide (b = x5f).

Fixpoint take_while (P : byte -> bool) (t : text) : text :=
  match t with
  | [] => []
  | b :: t' => if P b then b :: take_while P t' else []
  end.

(** [encode_user_placeholders]: [in_string] is the inner loop over a quoted
    literal. The fuel is the number of bytes left plus one. *)
Fixpoint encode_loop (fuel : nat) (in_string : bool) (rule : text) (schema : btree text ColumnType)
    (t : text) : exec PermissionError (text * list text) :=
  match fuel with
  | O => Panic
  | S fuel' =>
      match t with
      | [] => Ok ([], [])
      | ch :: rest =>
          if in_string then
            if decide (ch = x27) then
              match rest with
              | next :: rest' =>
                  if decide (next = x27) then
                    let? (out, fs) := encode_loop fuel' true rule schema rest' in
                    Ok (ch :: next :: out, fs)
                  else
                    let? (out, fs) := encode_loop fuel' false rule schema rest in Ok (ch :: out, fs)
              | [] => Ok ([ch], [])
              end
            else let? (out, fs) := encode_loop fuel' true rule schema rest in Ok (ch :: out, fs)
          else if decide (ch = x27) then
            let? (out, fs) := encode_loop fuel' true rule schema rest in Ok (ch :: out, fs)
          else
            match strip_prefix (lit "$user.") t with
            | Some after_dot =>
                match take_while is_ident_byte after_dot with
                | [] => Err (MalformedUserReference rule t)
                | field =>
                    match bt_get field schema with
                    | None => Err (UnknownUserField rule field)
                    | Some _ =>
                        let? (out, fs) := encode_loop fuel' false rule schema (drop (length field) after_dot) in
                        Ok (USER_PLACEHOLDER_PREFIX ++ field ++ USER_PLACEHOLDER_SUFFIX ++ out, field :: fs)
                    end
                end
            | None => let? (out, fs) := encode_loop fuel' false rule schema rest in Ok (ch :: out, fs)
            end
      end
  end.

Definition encode_user_placeholders (predicate rule : text) (schema : btree text ColumnType)
  : exec PermissionError (text * btree text unit) :=
  let? (out, fs) := encode_loop (S (length predicate)) false rule schema predicate in
  Ok (out, bt_from_list (map (fun f => (f, tt)) fs)).

(** ** Column validation *)

(** Skip a quoted literal: the bytes after its closing quote. *)
Fixpoint skip_string (fuel : nat) (t : text) : text :=
  match fuel with
  | O => []
  | S fuel' =>
      match t with
      | [] => []
      | b :: rest =>
          if decide (b = x27) then
            match rest with
            | b' :: rest' => if decide (b' = x27) then skip_string fuel' rest' else rest
            | [] => rest
            end
          else skip_string fuel' rest
      end
  end.

Definition is_token_byte (b : byte) : bool := is_ident_byte b || bool_decide (b = x2e).

Fixpoint extract_loop (fuel : nat) (t : text) : list text :=
  match fuel with
  | O => []
  | S fuel' =>
      match t with
      | [] => []
      | b :: rest =>
          if decide (b = x27) then extract_loop fuel' (skip_string (S (length rest)) rest)
          else if is_ascii_alphabetic b || bool_decide (b = x5f) then
            let token := take_while is_token_byte t in
            let others := extract_loop fuel' (drop (length token) t) in
            if forallb is_ascii_digit token then others else token :: others
          else extract_loop fuel' rest
      end
  end.

Definition extract_identifiers (predicate : text) : list text := extract_loop (S (length predicate)) predicate.

Definition keywords : list text :=
  map lit ["true"; "false"; "null"; "and"; "or"; "not"; "is"; "in"; "between"; "like"; "any"; "some"; "array"]%string.

Definition validate_token (rule : text) (table : TableSchema) (token : text) : exec PermissionError unit :=
  if starts_with USER_PLACEHOLDER_PREFIX token then Ok tt
  else if bool_decide (map to_ascii_lowercase token ∈ keywords) then Ok tt
  else if bool_decide (token = ts_name table) then Ok tt
  else
    match split_once x2e token with
    | Some (relation, column) =>
        if bool_decide (relation <> ts_name table) then Err (UnknownColumn rule (ts_name table) token)
        else match table_column table column with
             | None => Err (UnknownColumn rule (ts_name table) column)
             | Some _ => Ok tt
             end
    | None =>
        match table_column table token with
        | None => Err (UnknownColumn rule (ts_name table) token)
        | Some _ => Ok tt
        end
    end.

Definition validate_columns (predicate rule : text) (table : TableSchema) : exec PermissionError unit :=
  let? _ := exec_mapM (validate_token rule table) (extract_identifiers predicate) in Ok tt.

(** ** [latest] *)

Fixpoint validate_latest_keys (seen keys : list text) (table : TableSchema) : exec PermissionError (list text) :=
  match keys with
  | [] => Ok seen
  | name :: keys' =>
      if bool_decide (name ∈ seen) then Err (InvalidConfig "latest key contains duplicate columns")
      else match table_column table name with
           | None => Err (InvalidConfig "latest key column does not exist")
           | Some _ => validate_latest_keys (name :: seen) keys' table
           end
  end.

Definition validate_latest (rule : PermissionRule) (table : TableSchema) : exec PermissionError unit :=
  match pr_latest rule with
  | None => Ok tt
  | Some latest =>
      if negb (affects_visibility (pr_mode rule)) then Err (InvalidConfig "latest requires a row-visibility mode")
      else match lt_key latest with
           | [] => Err (InvalidConfig "latest key must not be empty")
           | _ =>
               let? seen := validate_latest_keys [] (lt_key latest) table in
               if bool_decide (lt_version latest ∈ seen) then
                 Err (InvalidConfig "latest version must not be part of the key")
               else match col_ty <$> table_column table (lt_version latest) with
                    | Some CT_Int => Ok tt
                    | _ => Err (InvalidConfig "latest version must name an integer column")
                    end
           end
  end.

(** ** Compilation *)

Section Compile.
(** The SQL front end: expression depth of a predicate ([None] when it does not
    parse), and the canonical predicate of the lowered
    [SELECT 1 FROM <table> WHERE (<predicate>)] ([None] when the statement is
    rejected, [Some None] when no [Filter] node results). *)
Context (expr_depth : text -> option nat) (lower_predicate : text -> text -> option (option text)).

Definition enforce_predicate_depth (predicate rule : text) : exec PermissionError unit :=
  let? depth := ok_or (expr_depth predicate) (InvalidConfig "predicate does not parse") in
  if Nat.ltb MAX_PREDICATE_DEPTH depth then Err (PredicateTooDeep rule depth MAX_PREDICATE_DEPTH) else Ok tt.

Definition compile_rule (rule : PermissionRule) (catalog : SqlCatalog) (schema : btree text ColumnType)
  : exec PermissionError CompiledRule :=
  let? table := ok_or (catalog_table catalog (pr_table rule)) (UnknownTable (pr_name rule) (pr_table rule)) in
  let? _ := validate_latest rule table in
  let? (rewritten, fields) := encode_user_placeholders (pr_predicate rule) (pr_name rule) schema in
  let? _ := enforce_predicate_depth rewritten (pr_name rule) in
  let? lowered := ok_or (lower_predicate (pr_table rule) rewritten) (RuleSql (pr_name rule) (pr_table rule)) in
  let? canon := ok_or lowered (InvalidConfig "predicate failed to lower into a Filter node") in
  let? _ := validate_columns canon (pr_name rule) table in
  Ok {| cr_name := pr_name rule; cr_table := pr_table rule; cr_mode := pr_mode rule;
        cr_latest := pr_latest rule;
        cr_predicate := {| canonical := canon; user_fields := fields |} |}.

(** First loop: names are unique, each rule compiles. *)
Fixpoint compile_each (names : list text) (rules : list PermissionRule) (catalog : SqlCatalog)
    (schema : btree text ColumnType) : exec PermissionError (list CompiledRule) :=
  match rules with
  | [] => Ok []
  | rule :: rules' =>
      if bool_decide (pr_name rule ∈ names) then Err (DuplicateRuleName (pr_name rule))
      else
        let? c := compile_rule rule catalog schema in
        let? cs := compile_each (pr_name rule :: names) rules' catalog schema in
        Ok (c :: cs)
  end.

(** Second loop: one pair of rules. *)
Definition check_pair (a b : CompiledRule) : exec PermissionError unit :=
  if bool_decide (cr_table a = cr_table b /\ cr_latest a <> cr_latest b) then
    Err (InvalidConfig "rules on one table must have identical latest settings")
  else if bool_decide (cr_table a = cr_table b /\
                       canonical (cr_predicate a) = canonical (cr_predicate b)) then
    Err (AmbiguousRule (cr_name a) (cr_name b) (cr_table a) (canonical (cr_predicate a)))
  else Ok tt.

Fixpoint check_pairs (compiled : list CompiledRule) : exec PermissionError unit :=
  match compiled with
  | [] => Ok tt
  | a :: rest =>
      let? _ := exec_mapM (check_pair a) rest in
      check_pairs rest
  end.

Definition compile_rules (rules : list PermissionRule) (catalog : SqlCatalog) (schema : btree text ColumnType)
  : exec PermissionError (list CompiledRule) :=
  let? compiled := compile_each [] rules catalog schema in
  let? _ := check_pairs compiled in
  Ok compiled.
End Compile.

(** ** Rule versions *)

Record RuleEntry := { re_version : Z; re_canonical : text }.
Record RuleVersionTracker := { epoch : Z; versions : btree text RuleEntry }.
Record RuleVersionDelta := { changed : list text; removed : list text; delta_epoch : Z }.

Definition tracker_default : RuleVersionTracker := {| epoch := 0; versions := [] |}.
Definition version_next (v : Z) : Z := saturating_add U64_MAX v 1.
Definition tracker_version (t : RuleVersionTracker) (name : text) : option Z :=
  re_version <$> bt_get name (versions t).

Section Versions.
(** [format!("{rule:?}")]. *)
Context (rule_debug : CompiledRule -> text).

Fixpoint install_loop (old : btree text RuleEntry) (new_epoch : Z) (rules : list CompiledRule)
    (next : btree text RuleEntry) : list text * btree text RuleEntry :=
  match rules with
  | [] => ([], next)
  | rule :: rules' =>
      let canon := rule_debug rule in
      let fresh := {| re_version := new_epoch; re_canonical := canon |} in
      match bt_get (cr_name rule) old with
      | Some existing =>
          if decide (re_canonical existing = canon) then
            install_loop old new_epoch rules'
              (bt_insert (cr_name rule) {| re_version := re_version existing; re_canonical := canon |} next)
          else
            let '(ch, next') := install_loop old new_epoch rules' (bt_insert (cr_name rule) fresh next) in
            (cr_name rule :: ch, next')
      | None =>
          let '(ch, next') := install_loop old new_epoch rules' (bt_insert (cr_name rule) fresh next) in
          (cr_name rule :: ch, next')
      end
  end.

Definition install (t : RuleVersionTracker) (rules : list CompiledRule) : RuleVersionDelta * RuleVersionTracker :=
  let new_epoch := version_next (epoch t) in
  let '(ch, next) := install_loop (versions t) new_epoch rules [] in
  let rm := List.filter (fun name => match bt_get name next with Some _ => false | None => true end)
              (map fst (versions t)) in
  ({| changed := ch; removed := rm; delta_epoch := new_epoch |},
   {| epoch := match ch, rm with [], [] => epoch t | _, _ => new_epoch end; versions := next |}).
End Versions.
