(* ===== verification/PermissionFacts.v ===== *)
(** * PermissionFacts: what compilation and materialisation guarantee

    Theorems about [Permissions]: sentinels are replaced by literals and nothing
    else is, an accepted rule set is consistent, and the version tracker marks
    exactly the rules that changed. *)

From S2P Require Import Prelude BTree Text Values UserContext Permissions.

(** ** Templates *)

(** A predicate text as the compiler emits it: literal text, a sentinel for a
    field, literal text, ... *)
Record template := { tp_parts : list (text * text); tp_tail : text }.

Definition sentinel (field : text) : text := USER_PLACEHOLDER_PREFIX ++ field ++ USER_PLACEHOLDER_SUFFIX.

Definition tp_render (tp : template) : text :=
  concat (map (fun p => p.1 ++ sentinel p.2) (tp_parts tp)) ++ tp_tail tp.

(** Literal text in front of a sentinel contains no earlier prefix; a field name
    contains no earlier suffix. *)
Definition part_ok (p : text * text) : bool :=
  bool_decide (find USER_PLACEHOLDER_PREFIX (p.1 ++ USER_PLACEHOLDER_PREFIX) = Some (length p.1)) &&
  bool_decide (find USER_PLACEHOLDER_SUFFIX (p.2 ++ USER_PLACEHOLDER_SUFFIX) = Some (length p.2)).

Definition template_ok (tp : template) : bool :=
  forallb part_ok (tp_parts tp) && bool_decide (find USER_PLACEHOLDER_PREFIX (tp_tail tp) = None).

Section Materialize.
Context `{Rendering}.

(** Substitution: each field by the literal of its value. *)
Definition tp_fill (tp : template) (ctx : UserContext) : exec PermissionError text :=
  let? pieces := exec_mapM (fun p =>
    let? v := ok_or (bt_get p.2 ctx) (MissingUserValue p.2) in Ok (p.1 ++ to_sql_literal v)) (tp_parts tp) in
  Ok (concat pieces ++ tp_tail tp).

Lemma materialize_loop_template fuel parts tail ctx :
  forallb part_ok parts = true -> find USER_PLACEHOLDER_PREFIX tail = None ->
  (length parts < fuel)%nat ->
  materialize_loop fuel (concat (map (fun p => p.1 ++ sentinel p.2) parts) ++ tail) ctx =
  tp_fill {| tp_parts := parts; tp_tail := tail |} ctx.
Proof.
  intros Hok Htail. revert fuel. induction parts as [|[l f] parts IH]; intros fuel Hf.
  - destruct fuel as [|fuel]; [simpl in Hf; lia|]. simpl. by rewrite Htail.
  - destruct fuel as [|fuel]; [simpl in Hf; lia|]. simpl in Hok, Hf. apply andb_true_iff in Hok as [Hp Hok].
    unfold part_ok in Hp. apply andb_true_iff in Hp as [Hpl Hpf].
    apply bool_decide_eq_true in Hpl, Hpf. cbn [fst snd] in Hpl, Hpf.
    set (rest := concat (map (fun p => p.1 ++ sentinel p.2) parts) ++ tail).
    assert (concat (map (fun p => p.1 ++ sentinel p.2) ((l, f) :: parts)) ++ tail =
      l ++ USER_PLACEHOLDER_PREFIX ++ f ++ USER_PLACEHOLDER_SUFFIX ++ rest) as ->.
    { simpl. unfold sentinel, rest. by rewrite <- !app_assoc. }
    cbn [materialize_loop]. rewrite (find_app _ l _ Hpl).
    rewrite <- drop_drop, drop_app_length, drop_app_length, (find_app _ f _ Hpf), !take_app_length.
    rewrite <- drop_drop, drop_app_length, drop_app_length. unfold tp_fill. cbn [tp_parts tp_tail exec_mapM fst snd].
    destruct (bt_get f ctx) as [v|]; [|done]. cbn [ok_or exec_bind]. fold rest in IH.
    rewrite IH by (done || lia). unfold tp_fill. cbn [tp_parts tp_tail].
    destruct (exec_mapM _ parts) as [ps| |]; [|done..]. simpl. by rewrite <- !app_assoc.
Qed.

Lemma template_parts_length tp : (length (tp_parts tp) <= length (tp_render tp))%nat.
Proof.
  unfold tp_render. rewrite length_app. induction (tp_parts tp) as [|p l IH]; simpl; [lia|].
  rewrite !length_app. assert (1 <= length (sentinel p.2))%nat by (unfold sentinel; rewrite !length_app; simpl; lia).
  lia.
Qed.

Lemma find_le p t n : find p t = Some n -> (n + length p <= length t)%nat.
Proof.
  revert n. induction t as [|b t IH]; intros n; simpl;
    (destruct (starts_with p _) eqn:Hs;
      [unfold starts_with in Hs; apply bool_decide_eq_true in Hs as [r Hr]; apply strip_prefix_Some in Hr;
       intros [= <-]; apply (f_equal length) in Hr; rewrite length_app in Hr; simpl in *; lia|]).
  - done.
  - destruct (find p t) as [k|]; [|done]. intros [= <-]. specialize (IH k eq_refl). lia.
Qed.

(** The fuel is enough: the loop never runs out. *)
Lemma materialize_total p ctx : materialize p ctx <> Panic.
Proof.
  unfold materialize. assert (forall fuel t, (length t < fuel)%nat -> materialize_loop fuel t ctx <> Panic) as Hgen.
  { induction fuel as [|fuel IH]; intros t Hl; [lia|]. cbn [materialize_loop].
    destruct (find USER_PLACEHOLDER_PREFIX t) as [n|] eqn:Hf; [|done]. apply find_le in Hf.
    destruct (find USER_PLACEHOLDER_SUFFIX _) as [k|] eqn:Hs; [|done].
    destruct (bt_get _ ctx); [|done]. cbn [ok_or exec_bind].
    assert (materialize_loop fuel (drop (k + length USER_PLACEHOLDER_SUFFIX)
      (drop (n + length USER_PLACEHOLDER_PREFIX) t)) ctx <> Panic) as Hr.
    { apply IH. rewrite !length_drop. assert (length USER_PLACEHOLDER_PREFIX = 18%nat) as E by done.
      rewrite E in *. lia. }
    destruct (materialize_loop fuel _ ctx); done. }
  apply Hgen. lia.
Qed.

(** Materialising a predicate replaces each user sentinel by the SQL literal of the bound value
    and copies the rest verbatim, so a value that itself looks like a sentinel is never expanded;
    the first unbound field is reported as missing. *)
Theorem materialize_substitutes tp fields ctx :
  template_ok tp = true ->
  materialize {| canonical := tp_render tp; user_fields := fields |} ctx = tp_fill tp ctx.
Proof.
  intros [Hp Ht]%andb_true_iff. apply bool_decide_eq_true in Ht. destruct tp as [parts tail]. unfold materialize.
  cbn [canonical]. pose proof (template_parts_length {| tp_parts := parts; tp_tail := tail |}) as Hl.
  apply materialize_loop_template; [done..|]. simpl in Hl. lia.
Qed.
End Materialize.

(** ** Accepted rule sets *)

Section Accepted.
Context (expr_depth : text -> option nat) (lower_predicate : text -> text -> option (option text)).

(** What [validate_latest] accepts. *)
Definition latest_valid (table : TableSchema) (latest : LatestBy) : Prop :=
  lt_key latest <> [] /\ NoDup (lt_key latest) /\ ~ (lt_version latest ∈ lt_key latest) /\
  Forall (fun c => is_Some (table_column table c)) (lt_key latest) /\
  (col_ty <$> table_column table (lt_version latest)) = Some CT_Int.

Lemma validate_latest_keys_ok seen keys table s :
  validate_latest_keys seen keys table = Ok s -> NoDup seen ->
  NoDup (rev keys ++ seen) /\ s = rev keys ++ seen /\ Forall (fun c => is_Some (table_column table c)) keys.
Proof.
  revert seen. induction keys as [|k keys IH]; intros seen; simpl.
  - intros [= ->] Hnd. done.
  - case_bool_decide as Hin; [done|]. destruct (table_column table k) eqn:Hk; [|done]. intros Hv Hnd.
    destruct (IH (k :: seen) Hv) as (Hnd' & -> & Hall); [by constructor|].
    rewrite <- app_assoc. simpl. repeat split; try done. constructor; [eauto | done].
Qed.

Lemma validate_latest_ok rule table :
  validate_latest rule table = Ok tt ->
  match pr_latest rule with
  | None => True
  | Some l => affects_visibility (pr_mode rule) = true /\ latest_valid table l
  end.
Proof.
  unfold validate_latest. destruct (pr_latest rule) as [[key version]|]; [|done]. cbn [lt_key lt_version].
  destruct (affects_visibility _); [|done]. simpl. destruct key as [|k key]; [done|].
  intros (s & Hs & Hv)%exec_bind_ok. apply validate_latest_keys_ok in Hs as (Hnd & -> & Hall); [|constructor].
  rewrite app_nil_r in *. case_bool_decide as Hin; [done|]. split; [done|].
  unfold latest_valid. cbn [lt_key lt_version]. repeat split.
  - done.
  - by rewrite <- Permutation_rev in Hnd.
  - by rewrite <- Permutation_rev in Hin.
  - done.
  - destruct (col_ty <$> table_column table version) as [[]|]; done.
Qed.

Lemma encode_loop_fields fuel s rule schema t out fs :
  encode_loop fuel s rule schema t = Ok (out, fs) -> Forall (fun f => is_Some (bt_get f schema)) fs.
Proof.
  revert s t out fs. induction fuel as [|fuel IH]; intros s t out fs; simpl; [done|].
  repeat (case_match; try done); intros He;
    try (apply exec_bind_ok in He as ([out' fs'] & Hr & He); apply IH in Hr);
    injection He as <- <-; try done; try constructor; eauto.
Qed.

Lemma encode_fields predicate rule schema out fields f :
  encode_user_placeholders predicate rule schema = Ok (out, fields) ->
  is_Some (bt_get f fields) -> is_Some (bt_get f schema).
Proof.
  unfold encode_user_placeholders. intros ([o fs] & Hl & [= <- <-])%exec_bind_ok [u Hu].
  apply encode_loop_fields in Hl. rewrite Forall_forall in Hl. apply Hl.
  assert (forall (l : list text) m, bt_wf m -> bt_get f (fold_left (fun m kv => bt_insert kv.1 kv.2 m) (map (fun f => (f, tt)) l) m) = Some u ->
    f ∈ l \/ bt_get f m = Some u) as Hgen.
  { induction l as [|x l IH]; intros m Hwf; simpl; [by right|]. intros Hg%IH; [|by apply bt_wf_insert].
    destruct Hg as [Hin|Hg]; [left; by right|]. simpl in Hg.
    destruct (decide (f = x)) as [->|Hne]; [left; by left|right]. by rewrite bt_get_insert_ne in Hg. }
  destruct (Hgen fs [] bt_wf_nil Hu) as [?|Hg]; [done | by simpl in Hg].
Qed.

(** What one accepted rule satisfies. *)
Definition rule_valid (catalog : SqlCatalog) (schema : btree text ColumnType)
    (rule : PermissionRule) (c : CompiledRule) : Prop :=
  cr_name c = pr_name rule /\ cr_table c = pr_table rule /\ cr_mode c = pr_mode rule /\ cr_latest c = pr_latest rule /\
  (forall f, is_Some (bt_get f (user_fields (cr_predicate c))) -> is_Some (bt_get f schema)) /\
  exists table, catalog_table catalog (cr_table c) = Some table /\
    validate_columns (canonical (cr_predicate c)) (cr_name c) table = Ok tt /\
    (forall l, cr_latest c = Some l -> affects_visibility (cr_mode c) = true /\ latest_valid table l).

Lemma compile_rule_ok rule catalog schema c :
  compile_rule expr_depth lower_predicate rule catalog schema = Ok c -> rule_valid catalog schema rule c.
Proof.
  unfold compile_rule. intros (table & Ht & H1)%exec_bind_ok. apply exec_bind_ok in H1 as ([] & Hlat & H1).
  apply exec_bind_ok in H1 as ([rw fields] & Henc & H1). apply exec_bind_ok in H1 as ([] & _ & H1).
  apply exec_bind_ok in H1 as (low & _ & H1). apply exec_bind_ok in H1 as (canon & _ & H1).
  apply exec_bind_ok in H1 as ([] & Hcols & [= <-]). unfold rule_valid. cbn.
  do 4 (split; [done|]). split; [intros f; by eapply encode_fields|].
  destruct (catalog_table catalog (pr_table rule)) as [t|]; [|done]. injection Ht as ->.
  exists table. do 2 (split; [done|]). apply validate_latest_ok in Hlat. intros l Hl. by rewrite Hl in Hlat.
Qed.

Lemma compile_each_ok names rules catalog schema cs :
  compile_each expr_depth lower_predicate names rules catalog schema = Ok cs ->
  Forall2 (rule_valid catalog schema) rules cs /\ NoDup (map cr_name cs) /\ Forall (fun c => cr_name c ∉ names) cs.
Proof.
  revert names cs. induction rules as [|r rules IH]; intros names cs; simpl.
  - intros [= <-]. repeat constructor.
  - case_bool_decide as Hin; [done|]. intros (c & Hc & H1)%exec_bind_ok.
    apply exec_bind_ok in H1 as (cs' & Hcs & [= <-]). apply compile_rule_ok in Hc. pose proof Hc as (Hn & _).
    destruct (IH _ _ Hcs) as (Hall & Hnd & Hfresh). simpl. split; [by constructor|]. split.
    + constructor; [|done]. intros Hm. apply list_elem_of_fmap in Hm as (c' & E & Hm).
      rewrite Forall_forall in Hfresh. apply (Hfresh _ Hm). rewrite <- E, Hn. by left.
    + constructor; [by rewrite Hn|]. eapply Forall_impl; [exact Hfresh|]. simpl. intros c' Hc'. set_solver.
Qed.

Definition pair_ok (a b : CompiledRule) : Prop :=
  cr_table a = cr_table b ->
  cr_latest a = cr_latest b /\ canonical (cr_predicate a) <> canonical (cr_predicate b).

Lemma check_pair_ok a b : check_pair a b = Ok tt -> pair_ok a b.
Proof.
  unfold check_pair, pair_ok. case_bool_decide as H1; [done|]. case_bool_decide as H2; [done|]. intros _ Ht.
  split; [|intros E; by apply H2]. destruct (decide (cr_latest a = cr_latest b)); [done|]. exfalso. by apply H1.
Qed.

Lemma check_pairs_ok cs : check_pairs cs = Ok tt -> ForallOrdPairs pair_ok cs.
Proof.
  induction cs as [|a cs IH]; simpl; [constructor|]. intros (us & Hus & Hr)%exec_bind_ok.
  constructor; [|by apply IH]. apply exec_mapM_ok in Hus. clear Hr IH.
  induction Hus as [|b [] l us Hb _ IH]; constructor; [by apply check_pair_ok | done].
Qed.

(** An accepted rule set is consistent: names are unique, each rule targets a known table,
    reads only declared user fields and columns of its table, selects current rows by existing
    distinct key columns and an integer version outside the key, and two rules on one table agree on
    that selection and have different predicates. *)
Theorem compile_rules_consistent rules catalog schema cs :
  compile_rules expr_depth lower_predicate rules catalog schema = Ok cs ->
  Forall2 (rule_valid catalog schema) rules cs /\ NoDup (map cr_name cs) /\ ForallOrdPairs pair_ok cs.
Proof.
  unfold compile_rules. intros (c & Hc & H1)%exec_bind_ok. apply exec_bind_ok in H1 as ([] & Hp & [= <-]).
  apply compile_each_ok in Hc as (Hall & Hnd & _). auto using check_pairs_ok.
Qed.
End Accepted.

(** ** Rule versions *)

Section Versions.
Context (rule_debug : CompiledRule -> text).

Definition unchanged (old : btree text RuleEntry) (r : CompiledRule) : option Z :=
  match bt_get (cr_name r) old with
  | Some e => if decide (re_canonical e = rule_debug r) then Some (re_version e) else None
  | None => None
  end.

Definition entry_for (old : btree text RuleEntry) (new_epoch : Z) (r : CompiledRule) : RuleEntry :=
  {| re_version := default new_epoch (unchanged old r); re_canonical := rule_debug r |}.

Definition changed_names (old : btree text RuleEntry) (rules : list CompiledRule) : list text :=
  filter_map (fun r => match unchanged old r with Some _ => None | None => Some (cr_name r) end) rules.

Lemma install_loop_unfold old e rules next :
  install_loop rule_debug old e rules next =
  (changed_names old rules, fold_left (fun m r => bt_insert (cr_name r) (entry_for old e r) m) rules next).
Proof.
  revert next. induction rules as [|r rules IH]; intros next; [done|].
  cbn [install_loop changed_names filter_map fold_left]. unfold entry_for at 2, unchanged.
  destruct (bt_get (cr_name r) old) as [x|]; [destruct (decide _)|]; rewrite IH; done.
Qed.

Lemma fold_insert_get old e rules next name :
  bt_wf next -> NoDup (map cr_name rules) ->
  let m := fold_left (fun m r => bt_insert (cr_name r) (entry_for old e r) m) rules next in
  bt_wf m /\
  (forall r, r ∈ rules -> cr_name r = name -> bt_get name m = Some (entry_for old e r)) /\
  (name ∉ map cr_name rules -> bt_get name m = bt_get name next).
Proof.
  revert next. induction rules as [|r rules IH]; intros next Hwf Hnd; simpl.
  - split; [done|]. split; [by intros ? ?%elem_of_nil | done].
  - apply NoDup_cons in Hnd as [Hr Hnd].
    destruct (IH (bt_insert (cr_name r) (entry_for old e r) next)) as (Hm & Hin & Hout); [by apply bt_wf_insert | done|].
    split; [done|]. split.
    + intros r' [->|Hr']%elem_of_cons Hn; [|by apply Hin]. rewrite Hout by by rewrite <- Hn.
      rewrite <- Hn. by apply bt_get_insert_eq.
    + rewrite not_elem_of_cons. intros [Hne Hni]. rewrite Hout by done. by apply bt_get_insert_ne.
Qed.

(** Installing a rule set keeps the version of every unchanged rule, gives every new or
    modified rule the next epoch and lists it as changed, lists exactly the dropped names as
    removed, and advances the epoch exactly when something changed. *)
Theorem install_marks_changes t rules :
  NoDup (map cr_name rules) ->
  let '(delta, t') := install rule_debug t rules in
  bt_wf (versions t') /\
  (forall r, r ∈ rules ->
     tracker_version t' (cr_name r) = Some (default (version_next (epoch t)) (unchanged (versions t) r))) /\
  (forall name, name ∉ map cr_name rules -> tracker_version t' name = None) /\
  changed delta = changed_names (versions t) rules /\
  (forall name, name ∈ removed delta <-> name ∈ map fst (versions t) /\ name ∉ map cr_name rules) /\
  epoch t' = (if decide (changed delta = [] /\ removed delta = []) then epoch t else version_next (epoch t)).
Proof.
  intros Hnd. unfold install. rewrite install_loop_unfold.
  pose proof (fun name => fold_insert_get (versions t) (version_next (epoch t)) rules [] name bt_wf_nil Hnd) as Hm.
  cbn zeta in Hm. set (m := fold_left (fun m r => bt_insert (cr_name r) (entry_for (versions t) (version_next (epoch t)) r) m)
    rules []) in *. cbn [versions epoch changed removed].
  assert (forall name, bt_get name m = None <-> name ∉ map cr_name rules) as Hnone.
  { intros name. destruct (Hm name) as (_ & Hin & Hout). split; [|intros Hn; by rewrite Hout].
    intros Hg Hi. apply list_elem_of_fmap in Hi as (r & -> & Hr). by rewrite (Hin r Hr eq_refl) in Hg. }
  split; [apply (Hm [])|]. split; [|split; [|split; [done|split]]].
  - intros r Hr. unfold tracker_version. cbn [versions].
    destruct (Hm (cr_name r)) as (_ & Hin & _). by rewrite (Hin r Hr eq_refl).
  - intros name Hn%Hnone. unfold tracker_version. cbn [versions]. by rewrite Hn.
  - intros name. rewrite <- Hnone, list_elem_of_In, filter_In, <- list_elem_of_In.
    destruct (bt_get name m); naive_solver.
  - destruct (changed_names _ _), (List.filter _ _); case_decide; naive_solver.
Qed.
End Versions.
