(* ===== verification/Mir.v ===== *)
(** * Mir: the query graph ([crates/palimpsest-sql/src/mir.rs])

    [MirGraph] is a [petgraph::Graph] with a root. petgraph is not part of the
    repository: it is the class [PetGraph], whose laws are the documented
    behaviour the code relies on (indices are dense, [remove_edge] moves the last
    edge into the freed index, a node lists its most recently added edge first).
    [ListGraph] is an implementation that satisfies them. *)

From Stdlib Require Import Sorted.
From stdpp Require Import sorting.
From S2P Require Import Prelude BTree Text.

(** ** Nodes and edges *)

Inductive JoinKind := JK_Inner | JK_Left | JK_Semi | JK_Anti.
Inductive SetQuantifierKind := SQ_Distinct | SQ_All.

Record ColumnRef := { colref_relation : option text; colref_name : text }.
Record OrderKey := { ok_expression : text; ok_descending : bool }.
Record AggExpr := { ag_function : text; ag_args : list text; ag_alias : option text }.

Inductive MirNodeKind :=
| BaseTable (table : text) (project : list ColumnRef)
| Filter (predicate : text)
| Project (columns : list text)
| Join (kind : JoinKind) (on : list (ColumnRef * ColumnRef))
| Aggregate (group_by : list ColumnRef) (aggs : list AggExpr)
| Distinct
| DistinctOn (on : list text) (order_by : list OrderKey)
| Union (quantifier : SetQuantifierKind)
| Except (quantifier : SetQuantifierKind)
| Intersect (quantifier : SetQuantifierKind)
| TopK (order_by : list OrderKey) (limit offset : Z)
| CteRef (cte : text)
| Fixpoint_ (cte : text) (union_all : bool)
| RecursiveRef (cte : text)
| Leaf (name : text).

Inductive MirEdgeKind := Input (ordinal : Z) | CteExpansion.

(** ** [petgraph::Graph] *)

(** An edge: source, target, weight. *)
Abbreviation edge E := (nat * nat * E)%type.
Definition source {E} (e : edge E) : nat := e.1.1.
Definition target {E} (e : edge E) : nat := e.1.2.
Definition weight {E} (e : edge E) : E := e.2.
Arguments source {E} !e /.
Arguments target {E} !e /.
Arguments weight {E} !e /.

(** [Vec::swap_remove] in range. *)
Definition swap_remove {A} (i : nat) (l : list A) : list A :=
  match last l with Some x => removelast (<[i := x]> l) | None => l end.

(** The indices, from [k], of the elements that satisfy [P]. *)
Fixpoint ids_from {A} (k : nat) (P : A -> bool) (l : list A) : list nat :=
  match l with
  | [] => []
  | x :: l' => if P x then k :: ids_from (S k) P l' else ids_from (S k) P l'
  end.

Class PetGraph (N E : Type) : Type := {
  pg : Type;
  pg_nodes : pg -> list N;
  pg_edges : pg -> list (edge E);
  (** [edges_directed]: edge indices in iteration order. *)
  pg_out : pg -> nat -> list nat;
  pg_in : pg -> nat -> list nat;
  pg_new : pg;
  pg_add_node : pg -> N -> nat * pg;
  pg_add_edge : pg -> nat -> nat -> E -> pg;
  pg_remove_edge : pg -> nat -> pg;
  (** [&mut graph[index]], assigned. *)
  pg_set_node : pg -> nat -> N -> pg;
  pg_new_spec : pg_nodes pg_new = [] /\ pg_edges pg_new = [];
  pg_add_node_spec g n :
    (pg_add_node g n).1 = length (pg_nodes g) /\ pg_nodes (pg_add_node g n).2 = pg_nodes g ++ [n] /\
    pg_edges (pg_add_node g n).2 = pg_edges g /\
    (forall v, pg_out (pg_add_node g n).2 v = pg_out g v) /\ (forall v, pg_in (pg_add_node g n).2 v = pg_in g v);
  (** [add_edge] and indexing panic on an index that is not in the graph: nothing is promised there. *)
  pg_add_edge_spec g a b w : (a < length (pg_nodes g))%nat -> (b < length (pg_nodes g))%nat ->
    pg_nodes (pg_add_edge g a b w) = pg_nodes g /\ pg_edges (pg_add_edge g a b w) = pg_edges g ++ [(a, b, w)];
  pg_add_edge_out g a b w : (a < length (pg_nodes g))%nat -> (b < length (pg_nodes g))%nat ->
    head (pg_out (pg_add_edge g a b w) a) = Some (length (pg_edges g));
  pg_remove_edge_spec g i : (i < length (pg_edges g))%nat ->
    pg_nodes (pg_remove_edge g i) = pg_nodes g /\ pg_edges (pg_remove_edge g i) = swap_remove i (pg_edges g);
  pg_set_node_spec g i n : (i < length (pg_nodes g))%nat ->
    pg_nodes (pg_set_node g i n) = <[i := n]> (pg_nodes g) /\ pg_edges (pg_set_node g i n) = pg_edges g /\
    (forall v, pg_out (pg_set_node g i n) v = pg_out g v) /\ (forall v, pg_in (pg_set_node g i n) v = pg_in g v);
  pg_out_spec g n : pg_out g n ≡ₚ ids_from 0 (fun e => Nat.eqb (source e) n) (pg_edges g);
  pg_in_spec g n : pg_in g n ≡ₚ ids_from 0 (fun e => Nat.eqb (target e) n) (pg_edges g)
}.

(** Adjacency by a scan, most recent index first. *)
Record list_graph (N E : Type) := LG { lg_nodes : list N; lg_edges : list (edge E) }.
Arguments LG {N E} _ _.
Arguments lg_nodes {N E} _.
Arguments lg_edges {N E} _.

Lemma ids_from_app {A} k (P : A -> bool) l1 l2 :
  ids_from k P (l1 ++ l2) = ids_from k P l1 ++ ids_from (k + length l1) P l2.
Proof.
  revert k. induction l1 as [|x l1 IH]; intros k; simpl; [by rewrite Nat.add_0_r|].
  rewrite !IH. replace (k + S (length l1))%nat with (S k + length l1)%nat by lia. by destruct (P x).
Qed.

#[local] Obligation Tactic := simpl; intros.

#[export] Program Instance ListGraph (N E : Type) : PetGraph N E := {|
  pg := list_graph N E;
  pg_nodes := lg_nodes;
  pg_edges := lg_edges;
  pg_out g n := rev (ids_from 0 (fun e => Nat.eqb (source e) n) (lg_edges g));
  pg_in g n := rev (ids_from 0 (fun e => Nat.eqb (target e) n) (lg_edges g));
  pg_new := LG [] [];
  pg_add_node g n := (length (lg_nodes g), LG (lg_nodes g ++ [n]) (lg_edges g));
  pg_add_edge g a b w := LG (lg_nodes g) (lg_edges g ++ [(a, b, w)]);
  pg_remove_edge g i := LG (lg_nodes g) (swap_remove i (lg_edges g));
  pg_set_node g i n := LG (<[i := n]> (lg_nodes g)) (lg_edges g)
|}.
Next Obligation. done. Qed.
Next Obligation. done. Qed.
Next Obligation. done. Qed.
Next Obligation. rewrite ids_from_app. simpl. by rewrite Nat.eqb_refl, rev_app_distr. Qed.
Next Obligation. done. Qed.
Next Obligation. done. Qed.
Next Obligation. symmetry. apply Permutation_rev. Qed.
Next Obligation. symmetry. apply Permutation_rev. Qed.

(** ** [sort_by_key]: stable insertion sort on a key *)

Section SortByKey.
Context {A : Type} (key : A -> Z).

Fixpoint insert_by_key (x : A) (l : list A) : list A :=
  match l with
  | [] => [x]
  | y :: l' => if key x <=? key y then x :: l else y :: insert_by_key x l'
  end.
Definition sort_by_key (l : list A) : list A := foldr insert_by_key [] l.
End SortByKey.

(** ** Operations *)

Section Mir.
Context `{PetGraph MirNodeKind MirEdgeKind}.

Record MirGraph := { graph : pg; root : nat }.

Definition mir_new (kind : MirNodeKind) : MirGraph :=
  let '(r, g) := pg_add_node pg_new kind in {| graph := g; root := r |}.

Definition node_count (g : MirGraph) : nat := length (pg_nodes (graph g)).
Definition node_kinds (g : MirGraph) : list MirNodeKind := pg_nodes (graph g).
Definition node_kind (g : MirGraph) (index : nat) : option MirNodeKind := pg_nodes (graph g) !! index.
(** [*node_kind_mut(index) = kind]. *)
Definition set_node_kind (g : MirGraph) (index : nat) (kind : MirNodeKind) : MirGraph :=
  {| graph := pg_set_node (graph g) index kind; root := root g |}.
Definition set_root (g : MirGraph) (r : nat) : MirGraph := {| graph := graph g; root := r |}.

Definition is_input (e : edge MirEdgeKind) : bool :=
  match weight e with Input _ => true | CteExpansion => false end.

(** The edges behind a list of edge indices. *)
Definition edge_refs (g : pg) (ids : list nat) : list (edge MirEdgeKind) := filter_map (fun i => pg_edges g !! i) ids.

Definition add_input (g : MirGraph) (from to : nat) : MirGraph :=
  let ordinal := length (List.filter is_input (edge_refs (graph g) (pg_in (graph g) to))) in
  {| graph := pg_add_edge (graph g) from to (Input (Z.min U8_MAX (Z.of_nat ordinal))); root := root g |}.

Definition add_cte_expansion (g : MirGraph) (from to : nat) : MirGraph :=
  {| graph := pg_add_edge (graph g) from to CteExpansion; root := root g |}.

Definition mir_add_node (g : MirGraph) (kind : MirNodeKind) : nat * MirGraph :=
  let '(n, g') := pg_add_node (graph g) kind in (n, {| graph := g'; root := root g |}).

Definition append_node (acc : gmap nat nat * pg) (kind : MirNodeKind) : gmap nat nat * pg :=
  let '(node_map, g) := acc in
  let '(target, g') := pg_add_node g kind in
  (<[size node_map := target]> node_map, g').

Definition append_nodes (other g : pg) : gmap nat nat * pg :=
  fold_left append_node (pg_nodes other) (∅, g).

(** [node_map[&k]] panics on a missing key. *)
Fixpoint append_edges {E} (node_map : gmap nat nat) (es : list (edge MirEdgeKind)) (g : pg) : exec E pg :=
  match es with
  | [] => Ok g
  | (s, t, w) :: es' =>
      match node_map !! s, node_map !! t with
      | Some s', Some t' => append_edges node_map es' (pg_add_edge g s' t' w)
      | _, _ => Panic
      end
  end.

Definition append_graph {E} (g other : MirGraph) : exec E (nat * MirGraph) :=
  let '(node_map, g1) := append_nodes (graph other) (graph g) in
  let? g2 := append_edges node_map (pg_edges (graph other)) g1 in
  match node_map !! root other with
  | Some r => Ok (r, {| graph := g2; root := root g |})
  | None => Panic
  end.

(** The redirection loop of [splice_above]. *)
Fixpoint redirect_loop (inserted : nat) (outgoing : list (nat * nat * MirEdgeKind)) (g : pg) : pg :=
  match outgoing with
  | [] => g
  | (edge_id, consumer, w) :: rest =>
      redirect_loop inserted rest (pg_add_edge (pg_remove_edge g edge_id) inserted consumer w)
  end.

Definition outgoing_edges (g : pg) (n : nat) : list (nat * nat * MirEdgeKind) :=
  filter_map (fun i => (fun e => (i, target e, weight e)) <$> pg_edges g !! i) (pg_out g n).

Definition splice_above (g : MirGraph) (tgt : nat) (kind : MirNodeKind) : nat * MirGraph :=
  let '(inserted, g1) := pg_add_node (graph g) kind in
  let g2 := redirect_loop inserted (outgoing_edges g1 tgt) g1 in
  (inserted,
   {| graph := pg_add_edge g2 tgt inserted (Input 0);
      root := if Nat.eqb (root g) tgt then inserted else root g |}).

Definition input_slots (es : list (edge MirEdgeKind)) : list (Z * nat) :=
  filter_map (fun e => match weight e with Input ordinal => Some (ordinal, source e) | CteExpansion => None end) es.

Definition ordered_inputs (g : MirGraph) (node : nat) : list nat :=
  map snd (sort_by_key fst (input_slots (edge_refs (graph g) (pg_in (graph g) node)))).

Definition is_base_table (k : MirNodeKind) : bool := match k with BaseTable _ _ => true | _ => false end.
Definition base_table_indices (g : MirGraph) : list nat := ids_from 0 is_base_table (pg_nodes (graph g)).
End Mir.
Arguments MirGraph {_}.

(** ** Facts on indices *)

Lemma ids_from_spec {A} k (P : A -> bool) l i :
  i ∈ ids_from k P l <-> (k <= i)%nat /\ exists x, l !! (i - k)%nat = Some x /\ P x = true.
Proof.
  revert k. induction l as [|x l IH]; intros k; simpl.
  - split; [by intros ?%elem_of_nil|]. intros (_ & x & Hx & _). by rewrite lookup_nil in Hx.
  - assert (i ∈ ids_from (S k) P l <-> (S k <= i)%nat /\ exists y, (x :: l) !! (i - k)%nat = Some y /\ P y = true) as HS.
    { rewrite IH. destruct (Nat.le_gt_cases (S k) i); [|split; intros [? _]; lia].
      replace (i - k)%nat with (S (i - S k)) by lia. done. }
    destruct (P x) eqn:HP; rewrite ?elem_of_cons, HS; split.
    + intros [->|[? ?]]; [|split; [lia | done]]. split; [done|]. exists x. by rewrite Nat.sub_diag.
    + intros [Hle Hx]. destruct (decide (i = k)) as [->|]; [by left|right]. split; [lia | done].
    + intros [? ?]. split; [lia | done].
    + intros [Hle (y & Hy & Hp)]. destruct (decide (i = k)) as [->|].
      * rewrite Nat.sub_diag in Hy. simplify_eq/=. congruence.
      * split; [lia|]. eauto.
Qed.

Lemma ids_from_NoDup {A} k (P : A -> bool) l : NoDup (ids_from k P l).
Proof.
  revert k. induction l as [|x l IH]; intros k; simpl; [constructor|].
  destruct (P x); [|done]. constructor; [|done]. intros [Hle _]%ids_from_spec. lia.
Qed.

Lemma ids_from_lookup {A} (P : A -> bool) pre l :
  filter_map (fun i => (pre ++ l) !! i) (ids_from (length pre) P l) = List.filter P l.
Proof.
  revert pre. induction l as [|x l IH]; intros pre; simpl; [done|].
  specialize (IH (pre ++ [x])). rewrite <- app_assoc, length_app in IH. simpl in IH.
  rewrite Nat.add_1_r in IH. destruct (P x); simpl; [|done].
  rewrite lookup_app_r, Nat.sub_diag by done. simpl. by rewrite IH.
Qed.

Lemma last_lookup_split {A} (l : list A) i x : l !! i = Some x -> exists l0 z, l = l0 ++ [z].
Proof.
  intros Hi. assert (l <> []) as Hne by (intros ->; by rewrite lookup_nil in Hi).
  destruct (exists_last Hne) as (l0 & z & ->). eauto.
Qed.

Lemma swap_remove_snoc {A} i (l0 : list A) z :
  swap_remove i (l0 ++ [z]) = if Nat.ltb i (length l0) then <[i := z]> l0 else l0.
Proof.
  unfold swap_remove. rewrite last_snoc. destruct (Nat.ltb_spec i (length l0)).
  - by rewrite insert_app_l, removelast_last.
  - rewrite insert_app_r_alt by done. destruct (i - length l0)%nat; simpl; by rewrite removelast_last.
Qed.

Lemma swap_remove_perm {A} i (l : list A) x : l !! i = Some x -> l ≡ₚ x :: swap_remove i l.
Proof.
  intros Hi. destruct (last_lookup_split l i x Hi) as (l0 & z & ->). rewrite swap_remove_snoc.
  destruct (Nat.ltb_spec i (length l0)) as [Hlt|Hge].
  - rewrite lookup_app_l in Hi by done. rewrite <- (take_drop_middle l0 i x Hi) at 1.
    rewrite insert_take_drop by done. rewrite <- app_assoc. simpl.
    rewrite <- !Permutation_middle. apply Permutation_skip. by rewrite app_nil_r.
  - rewrite lookup_app_r in Hi by done. destruct (i - length l0)%nat as [|n]; simplify_eq/=.
    symmetry. apply Permutation_cons_append.
Qed.

Lemma swap_remove_length {A} i (l : list A) : (i < length l)%nat -> S (length (swap_remove i l)) = length l.
Proof.
  intros Hi. apply lookup_lt_is_Some_2 in Hi as [x Hx]. by rewrite (swap_remove_perm i l x Hx) at 2.
Qed.

Lemma swap_remove_lookup {A} i j (l : list A) :
  i <> j -> (S j < length l)%nat -> swap_remove i l !! j = l !! j.
Proof.
  intros Hne Hj. assert (is_Some (l !! j)) as [x Hx] by (apply lookup_lt_is_Some_2; lia).
  destruct (last_lookup_split l j x Hx) as (l0 & z & ->). rewrite length_app in Hj. simpl in Hj.
  rewrite swap_remove_snoc, lookup_app_l by lia. destruct (Nat.ltb i (length l0)); [|done].
  by rewrite list_lookup_insert_ne.
Qed.

(** ** Facts on [sort_by_key] *)

Section SortFacts.
Context {A : Type} (key : A -> Z).

Lemma insert_by_key_perm x l : insert_by_key key x l ≡ₚ x :: l.
Proof.
  induction l as [|y l IH]; simpl; [done|]. destruct (key x <=? key y); [done|].
  rewrite IH. apply Permutation_swap.
Qed.

Lemma sort_by_key_perm l : sort_by_key key l ≡ₚ l.
Proof. induction l as [|x l IH]; simpl; [done|]. by rewrite insert_by_key_perm, IH. Qed.

Lemma insert_by_key_sorted x l :
  StronglySorted (fun a b => key a <= key b) l -> StronglySorted (fun a b => key a <= key b) (insert_by_key key x l).
Proof.
  induction 1 as [|y l Hs IH Hall]; simpl; [by repeat constructor|].
  destruct (Z.leb_spec (key x) (key y)).
  - constructor; [by constructor|]. constructor; [done|].
    eapply Forall_impl; [exact Hall|]. simpl. lia.
  - constructor; [done|]. rewrite insert_by_key_perm. constructor; [lia | done].
Qed.

Lemma sort_by_key_sorted l : StronglySorted (fun a b => key a <= key b) (sort_by_key key l).
Proof. induction l as [|x l IH]; simpl; [constructor | by apply insert_by_key_sorted]. Qed.

Lemma NoDup_key_inj l a b : NoDup (map key l) -> a ∈ l -> b ∈ l -> key a = key b -> a = b.
Proof.
  induction l as [|x l IH]; simpl; [by intros _ ?%elem_of_nil|].
  rewrite NoDup_cons, !elem_of_cons. intros [Hx Hnd] [->|Ha] [->|Hb] E; try done; [| |by apply IH].
  - exfalso. apply Hx. rewrite E. by apply list_elem_of_fmap_2.
  - exfalso. apply Hx. rewrite <- E. by apply list_elem_of_fmap_2.
Qed.

(** With distinct keys the sort depends on the elements only. *)
Lemma sort_by_key_unique l1 l2 : NoDup (map key l1) -> l1 ≡ₚ l2 -> sort_by_key key l1 = sort_by_key key l2.
Proof.
  intros Hnd Hp. eapply StronglySorted_unique_strong; [|apply sort_by_key_sorted..|].
  - intros a b Ha Hb Hab Hba. rewrite sort_by_key_perm in Ha. rewrite sort_by_key_perm, <- Hp in Hb.
    apply (NoDup_key_inj l1); [done..|]. simpl in *. lia.
  - by rewrite !sort_by_key_perm.
Qed.
End SortFacts.

Lemma insert_by_key_map {A} (key : A -> Z) (f : A -> A) x l :
  (forall a, key (f a) = key a) -> insert_by_key key (f x) (map f l) = map f (insert_by_key key x l).
Proof.
  intros Hf. induction l as [|y l IH]; simpl; [done|]. rewrite !Hf.
  destruct (key x <=? key y); simpl; [done | by rewrite IH].
Qed.

Lemma sort_by_key_map {A} (key : A -> Z) (f : A -> A) l :
  (forall a, key (f a) = key a) -> sort_by_key key (map f l) = map f (sort_by_key key l).
Proof. intros Hf. induction l as [|x l IH]; simpl; [done|]. by rewrite IH, insert_by_key_map. Qed.

(** ** Splicing *)

Section Splice.
Context `{PetGraph MirNodeKind MirEdgeKind}.
Implicit Types (g : pg) (m : MirGraph).

(** The last edge index, where a node lists it, comes first. *)
Definition settled g : Prop := forall n id, id ∈ tail (pg_out g n) -> (S id < length (pg_edges g))%nat.

Record graph_wf m : Prop := {
  gw_settled : settled (graph m);
  gw_edges : forall e, e ∈ pg_edges (graph m) ->
    (source e < length (pg_nodes (graph m)))%nat /\ (target e < length (pg_nodes (graph m)))%nat;
  gw_root : (root m < length (pg_nodes (graph m)))%nat
}.

(** Node [c] reads node [s] through an edge of kind [w]. *)
Definition feeds m (s c : nat) (w : MirEdgeKind) : Prop := (s, c, w) ∈ pg_edges (graph m).

Lemma pg_out_elem g n i :
  i ∈ pg_out g n <-> exists e, pg_edges g !! i = Some e /\ source e = n.
Proof.
  rewrite pg_out_spec, ids_from_spec, Nat.sub_0_r. setoid_rewrite Nat.eqb_eq. split; [by intros [_ ?]|].
  intros ?. split; [lia | done].
Qed.

Lemma pg_out_NoDup g n : NoDup (pg_out g n).
Proof. rewrite pg_out_spec. apply ids_from_NoDup. Qed.

Lemma add_edge_settled g a b w :
  (a < length (pg_nodes g))%nat -> (b < length (pg_nodes g))%nat -> settled (pg_add_edge g a b w).
Proof.
  intros Ha Hb n id Hid. destruct (pg_add_edge_spec g a b w Ha Hb) as [_ He]. rewrite He, length_app. simpl.
  assert (id ∈ pg_out (pg_add_edge g a b w) n) as Hin.
  { destruct (pg_out _ n); [done|]. by right. }
  pose proof (pg_out_NoDup (pg_add_edge g a b w) n) as Hnd.
  apply pg_out_elem in Hin as (e & Hl & Hs). rewrite He in Hl. pose proof (lookup_lt_Some _ _ _ Hl) as Hlt.
  rewrite length_app in Hlt. simpl in Hlt. assert (id <> length (pg_edges g)); [|lia]. intros ->.
  rewrite lookup_app_r, Nat.sub_diag in Hl by done. injection Hl as <-. change (a = n) in Hs. subst n.
  pose proof (pg_add_edge_out g a b w Ha Hb) as Hh. destruct (pg_out (pg_add_edge g a b w) a) as [|i l]; [done|].
  injection Hh as ->. by apply NoDup_cons in Hnd as [? _].
Qed.

Lemma add_node_settled g n : settled g -> settled (pg_add_node g n).2.
Proof.
  intros Hs v id. destruct (pg_add_node_spec g n) as (_ & _ & -> & -> & _). apply Hs.
Qed.

Lemma outgoing_edges_spec g n :
  map (fun p => (n, p.1.2, p.2)) (outgoing_edges g n) ≡ₚ List.filter (fun e => Nat.eqb (source e) n) (pg_edges g) /\
  Forall (fun p => pg_edges g !! p.1.1 = Some (n, p.1.2, p.2)) (outgoing_edges g n) /\
  map (fun p => p.1.1) (outgoing_edges g n) = pg_out g n.
Proof.
  assert (forall i, i ∈ pg_out g n -> exists t w, pg_edges g !! i = Some (n, t, w)) as Hsrc.
  { intros i Hi. apply pg_out_elem in Hi as ([[s t] w] & Hl & <-). eauto. }
  unfold outgoing_edges. split; [|split].
  - rewrite <- (ids_from_lookup _ [] (pg_edges g)). simpl. rewrite map_filter_map, <- pg_out_spec.
    apply Permutation_refl', filter_map_ext. intros i (t & w & E)%Hsrc.
    cbv beta. by rewrite E.
  - apply Forall_forall. intros p Hp. apply elem_of_filter_map in Hp as (i & (t & w & Hl)%Hsrc & Hp).
    rewrite Hl in Hp. by injection Hp as <-.
  - rewrite map_filter_map. revert Hsrc. generalize (pg_out g n). intros l Hl.
    induction l as [|i l IH]; simpl; [done|]. destruct (Hl i) as (t & w & E); [left|]. rewrite E. simpl.
    rewrite IH; [done|]. intros j Hj. apply Hl. by right.
Qed.

Lemma redirect_loop_spec ins tgt out g :
  NoDup (map (fun p => p.1.1) out) ->
  Forall (fun p => pg_edges g !! p.1.1 = Some (tgt, p.1.2, p.2)) out ->
  (forall id, id ∈ tail (map (fun p => p.1.1) out) -> (S id < length (pg_edges g))%nat) ->
  (ins < length (pg_nodes g))%nat -> Forall (fun p => (p.1.2 < length (pg_nodes g))%nat) out ->
  pg_nodes (redirect_loop ins out g) = pg_nodes g /\
  pg_edges (redirect_loop ins out g) ++ map (fun p => (tgt, p.1.2, p.2)) out
    ≡ₚ pg_edges g ++ map (fun p => (ins, p.1.2, p.2)) out.
Proof.
  revert g. induction out as [|[[id c] w] out IH]; intros g Hnd Hl Hlast Hins Hto; simpl in *; [done|].
  apply Forall_cons in Hto as [Hc Hto]. simpl in Hc.
  apply NoDup_cons in Hnd as [Hid Hnd]. apply Forall_cons in Hl as [Hid' Hl]. simpl in Hid'.
  pose proof (lookup_lt_Some _ _ _ Hid') as Hlt.
  destruct (pg_remove_edge_spec g id Hlt) as [Hn1 He1].
  destruct (pg_add_edge_spec (pg_remove_edge g id) ins c w) as [Hn2 He2]; [by rewrite Hn1..|].
  set (g2 := pg_add_edge (pg_remove_edge g id) ins c w) in *. rewrite He1 in He2.
  assert (length (pg_edges g2) = length (pg_edges g)) as Hlen.
  { rewrite He2, length_app. simpl. pose proof (swap_remove_length id _ Hlt). lia. }
  destruct (IH g2) as [Hn He]; [done| | |by rewrite Hn2, Hn1|by rewrite Hn2, Hn1|].
  - rewrite Forall_forall in Hl |- *. intros p Hp. rewrite <- (Hl p Hp).
    assert (p.1.1 ∈ map (fun p => p.1.1) out) as Hpi
      by exact (list_elem_of_fmap_2 (fun p : edge MirEdgeKind => p.1.1) _ _ Hp).
    assert (id <> p.1.1) by (intros E; apply Hid; rewrite E; done).
    specialize (Hlast _ Hpi). rewrite He2, lookup_app_l.
    + by apply swap_remove_lookup.
    + pose proof (swap_remove_length id _ Hlt). lia.
  - intros i Hi. rewrite Hlen. apply Hlast. destruct (map _ out); [done|]. by right.
  - split; [congruence|]. trans ((tgt, c, w) :: swap_remove id (pg_edges g) ++ (ins, c, w) :: map (fun p => (ins, p.1.2, p.2)) out).
    + rewrite <- Permutation_middle, He, He2, <- app_assoc. done.
    + rewrite app_comm_cons. apply Permutation_app; [|done]. symmetry. by apply swap_remove_perm.
Qed.

(** The edge relation after [splice_above]. *)
Definition redirect (tgt ins : nat) (e : edge MirEdgeKind) : edge MirEdgeKind :=
  if Nat.eqb (source e) tgt then (ins, target e, weight e) else e.

Lemma partition_redirect tgt ins (es : list (edge MirEdgeKind)) :
  es ++ map (redirect tgt ins) (List.filter (fun e => Nat.eqb (source e) tgt) es) ≡ₚ
  map (redirect tgt ins) es ++ List.filter (fun e => Nat.eqb (source e) tgt) es.
Proof.
  induction es as [|e es IH]; simpl; [done|]. destruct (Nat.eqb (source e) tgt) eqn:E; simpl.
  - rewrite <- !Permutation_middle, IH. apply Permutation_swap.
  - unfold redirect at 2. rewrite E. by rewrite IH.
Qed.

Lemma splice_above_spec m tgt kind :
  graph_wf m -> (tgt < length (pg_nodes (graph m)))%nat ->
  let '(ins, m') := splice_above m tgt kind in
  ins = length (pg_nodes (graph m)) /\
  pg_nodes (graph m') = pg_nodes (graph m) ++ [kind] /\
  pg_edges (graph m') ≡ₚ (tgt, ins, Input 0) :: map (redirect tgt ins) (pg_edges (graph m)) /\
  settled (graph m') /\
  root m' = if Nat.eqb (root m) tgt then ins else root m.
Proof.
  intros Hwf Ht. pose proof (gw_settled m Hwf) as Hs. unfold splice_above. destruct (pg_add_node (graph m) kind) as [ins g1] eqn:Hadd.
  destruct (pg_add_node_spec (graph m) kind) as (Hins & Hn & He & _ & _).
  pose proof (add_node_settled (graph m) kind Hs) as Hs1.
  rewrite Hadd in *. cbn [fst snd graph root] in *.
  destruct (outgoing_edges_spec g1 tgt) as (Hperm & Hlook & Hids).
  destruct (redirect_loop_spec ins tgt (outgoing_edges g1 tgt) g1) as [Hn2 He2].
  { rewrite Hids. apply pg_out_NoDup. }
  { done. }
  { rewrite Hids. apply Hs1. }
  { rewrite Hins, Hn, length_app. simpl. lia. }
  { rewrite Forall_forall in Hlook |- *. intros p Hp%Hlook%list_elem_of_lookup_2. rewrite He in Hp. apply (gw_edges m Hwf) in Hp.
    rewrite Hn, length_app. unfold target in Hp. simpl in *. lia. }
  assert (tgt < length (pg_nodes (redirect_loop ins (outgoing_edges g1 tgt) g1)) /\
    ins < length (pg_nodes (redirect_loop ins (outgoing_edges g1 tgt) g1)))%nat as [Ht2 Hi2] by (rewrite Hn2, Hn, Hins, length_app; simpl; lia).
  destruct (pg_add_edge_spec (redirect_loop ins (outgoing_edges g1 tgt) g1) tgt ins (Input 0) Ht2 Hi2) as [Hn3 He3].
  split; [done|]. split; [congruence|]. split; [|split; [by apply add_edge_settled | done]].
  rewrite He3. rewrite <- Permutation_cons_append. apply Permutation_skip.
  apply (Permutation_app_inv_r (map (fun p => (tgt, p.1.2, p.2)) (outgoing_edges g1 tgt))).
  rewrite He2, Hperm, He. rewrite <- partition_redirect. apply Permutation_app_head.
  rewrite <- He, <- Hperm, map_map. apply Permutation_refl', map_ext. intros p. unfold redirect. simpl.
  by rewrite Nat.eqb_refl.
Qed.

Lemma splice_wf m tgt kind :
  graph_wf m -> (tgt < length (pg_nodes (graph m)))%nat -> graph_wf (splice_above m tgt kind).2.
Proof.
  intros Hwf Ht. pose proof (splice_above_spec m tgt kind Hwf Ht) as Hsp.
  destruct (splice_above m tgt kind) as [ins m']. destruct Hsp as (-> & Hn & He & Hs & Hr). simpl.
  split; [done| |].
  - intros e. rewrite He, Hn, length_app. simpl. intros [->|Hin]%elem_of_cons; [unfold source, target; simpl; lia|].
    apply list_elem_of_fmap in Hin as (e' & -> & Hin). apply (gw_edges m Hwf) in Hin. unfold redirect.
    destruct (Nat.eqb (source e') tgt); unfold source, target in *; simpl; lia.
  - rewrite Hn, Hr, length_app. simpl. pose proof (gw_root m Hwf). destruct (Nat.eqb _ _); lia.
Qed.

Lemma splice_feeds m tgt kind :
  graph_wf m -> (tgt < length (pg_nodes (graph m)))%nat ->
  let '(ins, m') := splice_above m tgt kind in
  (forall c w, feeds m' tgt c w <-> c = ins /\ w = Input 0) /\
  (forall c w, feeds m' ins c w <-> feeds m tgt c w) /\
  (forall s c w, s <> tgt -> s <> ins -> feeds m' s c w <-> feeds m s c w).
Proof.
  intros Hwf Ht. pose proof (splice_above_spec m tgt kind Hwf Ht) as Hsp.
  destruct (splice_above m tgt kind) as [ins m']. destruct Hsp as (Hins & _ & He & _ & _).
  assert (forall s c w, feeds m' s c w <->
    (s = tgt /\ c = ins /\ w = Input 0) \/ (s = ins /\ feeds m tgt c w) \/ (s <> tgt /\ feeds m s c w)) as Hf.
  { intros s c w. unfold feeds. rewrite He, elem_of_cons, list_elem_of_fmap. split.
    - intros [[= -> -> ->]|([[s' c'] w'] & E & Hin)]; [by left|right]. unfold redirect in E.
      cbn [source target weight fst snd] in E. destruct (Nat.eqb_spec s' tgt) as [->|]; simplify_eq; [by left|by right].
    - intros [(-> & -> & ->)|[[-> Hin]|[Hne Hin]]]; [by left|right..].
      + exists (tgt, c, w). split; [|done]. unfold redirect. simpl. by rewrite Nat.eqb_refl.
      + exists (s, c, w). split; [|done]. unfold redirect. simpl. by destruct (Nat.eqb_spec s tgt). }
  assert (forall c w, ~ feeds m ins c w) as Hfresh.
  { intros c w Hin. apply (gw_edges m Hwf) in Hin as [Hlt _]. unfold source in Hlt. simpl in Hlt. lia. }
  pose proof (gw_root m Hwf). split; [|split].
  - intros c w. rewrite Hf. split; [intros [(_ & ? & ?)|[[? _]|[? _]]]; done || lia | intros [-> ->]; by left].
  - intros c w. rewrite Hf. split; [|by right; left].
    intros [(? & _)|[[_ ?]|[_ Hx]]]; [lia | done | by apply Hfresh in Hx].
  - intros s c w Hn1 Hn2. rewrite Hf. split; [intros [(? & _)|[[? _]|[_ ?]]]; done | by right; right].
Qed.

(** ** Input positions *)

Definition slots m (c : nat) : list (Z * nat) :=
  input_slots (List.filter (fun e => Nat.eqb (target e) c) (pg_edges (graph m))).

Lemma slots_perm m c : input_slots (edge_refs (graph m) (pg_in (graph m) c)) ≡ₚ slots m c.
Proof.
  unfold slots, input_slots, edge_refs. apply filter_map_perm.
  rewrite <- (ids_from_lookup _ [] (pg_edges (graph m))). simpl. by rewrite <- pg_in_spec.
Qed.

Lemma input_slots_app l1 l2 : input_slots (l1 ++ l2) = input_slots l1 ++ input_slots l2.
Proof. apply filter_map_app. Qed.

Lemma input_slots_redirect tgt ins l :
  input_slots (map (redirect tgt ins) l) =
  map (fun p => (p.1, if Nat.eqb p.2 tgt then ins else p.2)) (input_slots l).
Proof.
  unfold input_slots. rewrite filter_map_map, map_filter_map. apply filter_map_ext. intros [[s t] w] _.
  unfold redirect. simpl. destruct (Nat.eqb_spec s tgt) as [->|]; simpl; destruct w; simpl; try done.
  - by rewrite Nat.eqb_refl.
  - by destruct (Nat.eqb_spec s tgt).
Qed.

Lemma filter_target_redirect tgt ins c l :
  List.filter (fun e => Nat.eqb (target e) c) (map (redirect tgt ins) l) =
  map (redirect tgt ins) (List.filter (fun e => Nat.eqb (target e) c) l).
Proof.
  induction l as [|e l IH]; simpl; [done|]. replace (target (redirect tgt ins e)) with (target e)
    by (unfold redirect; by destruct (Nat.eqb _ _)).
  destruct (Nat.eqb (target e) c); simpl; by rewrite IH.
Qed.

Lemma filter_perm {A} (P : A -> bool) l1 l2 : l1 ≡ₚ l2 -> List.filter P l1 ≡ₚ List.filter P l2.
Proof.
  induction 1 as [|x l1 l2 _ IH|x y l|l1 l2 l3 _ IH1 _ IH2]; simpl; [done| | |by etrans].
  - destruct (P x); by rewrite IH.
  - destruct (P x), (P y); try done. apply Permutation_swap.
Qed.

Lemma filter_none {A} (P : A -> bool) l : (forall x, x ∈ l -> P x = false) -> List.filter P l = [].
Proof.
  induction l as [|x l IH]; intros HP; simpl; [done|]. rewrite (HP x) by left. apply IH.
  intros y Hy. apply HP. by right.
Qed.

Lemma slots_splice m tgt kind c :
  graph_wf m -> (tgt < length (pg_nodes (graph m)))%nat ->
  let '(ins, m') := splice_above m tgt kind in
  slots m' c ≡ₚ if Nat.eqb c ins then [(0, tgt)]
                else map (fun p => (p.1, if Nat.eqb p.2 tgt then ins else p.2)) (slots m c).
Proof.
  intros Hwf Ht. pose proof (splice_above_spec m tgt kind Hwf Ht) as Hsp.
  destruct (splice_above m tgt kind) as [ins m']. destruct Hsp as (Hins & _ & He & _ & _).
  unfold slots. trans (input_slots (List.filter (fun e => Nat.eqb (target e) c)
    ((tgt, ins, Input 0) :: map (redirect tgt ins) (pg_edges (graph m)))));
    [by apply filter_map_perm, filter_perm|].
  cbn [List.filter target fst snd]. rewrite filter_target_redirect.
  destruct (Nat.eqb_spec ins c) as [<-|Hne].
  - rewrite Nat.eqb_refl, (filter_none _ (pg_edges (graph m))); [done|]. intros e Hin. apply (gw_edges m Hwf) in Hin. apply Nat.eqb_neq. lia.
  - destruct (Nat.eqb_spec c ins); [congruence|]. apply Permutation_refl', input_slots_redirect.
Qed.

(** Splicing a node above another keeps the graph well formed, gives the new node the old one
    as its single input, and replaces the old one by the new one at the same input position of every
    consumer, so the left and right side of a join never swap. *)
Theorem splice_keeps_input_positions m tgt kind c :
  graph_wf m -> (tgt < node_count m)%nat -> NoDup (map fst (slots m c)) ->
  let '(ins, m') := splice_above m tgt kind in
  graph_wf m' /\ node_kind m' ins = Some kind /\ ordered_inputs m' ins = [tgt] /\
  (c <> ins -> ordered_inputs m' c = map (fun s => if Nat.eqb s tgt then ins else s) (ordered_inputs m c)).
Proof.
  intros Hwf Ht Hnd. pose proof (splice_wf m tgt kind Hwf Ht) as Hwf'.
  pose proof (splice_above_spec m tgt kind Hwf Ht) as Hsp.
  pose proof (slots_splice m tgt kind c Hwf Ht) as Hc.
  pose proof (slots_splice m tgt kind (splice_above m tgt kind).1 Hwf Ht) as Hi.
  destruct (splice_above m tgt kind) as [ins m']. cbn [fst snd] in *. rewrite Nat.eqb_refl in Hi.
  destruct Hsp as (Hins & Hn & _). split; [done|]. split; [|split].
  - unfold node_kind. rewrite Hn, Hins. by apply list_lookup_middle.
  - unfold ordered_inputs. pose proof (slots_perm m' ins) as Hp. rewrite Hi in Hp.
    apply Permutation_singleton_r in Hp. by rewrite Hp.
  - intros Hne. destruct (Nat.eqb_spec c ins); [done|]. unfold ordered_inputs.
    rewrite <- (sort_by_key_unique fst (slots m c) (input_slots (edge_refs (graph m) (pg_in (graph m) c))));
      [|done|by rewrite slots_perm].
    rewrite <- (sort_by_key_unique fst (map (fun p => (p.1, if Nat.eqb p.2 tgt then ins else p.2)) (slots m c))
      (input_slots (edge_refs (graph m') (pg_in (graph m') c)))).
    + rewrite sort_by_key_map, !map_map by done. done.
    + by rewrite map_map.
    + by rewrite slots_perm, Hc.
Qed.
End Splice.

(** ** Building graphs keeps them well-formed *)

Section Build.
Context `{PetGraph MirNodeKind MirEdgeKind}.
Implicit Types (g : pg) (m : MirGraph).

Lemma no_edges_settled g : pg_edges g = [] -> settled g.
Proof.
  intros He n id Hid. assert (id ∈ pg_out g n) as Hin by (destruct (pg_out g n); [done | by right]).
  apply pg_out_elem in Hin as (e & Hl & _). by rewrite He, lookup_nil in Hl.
Qed.

Lemma mir_new_wf kind : graph_wf (mir_new kind).
Proof.
  unfold mir_new. destruct (pg_add_node_spec pg_new kind) as (Hi & Hn & He & _), pg_new_spec as [Hn0 He0].
  destruct (pg_add_node pg_new kind) as [r g]. simpl in *. rewrite Hn0 in *. rewrite He0 in He.
  split; simpl.
  - by apply no_edges_settled.
  - intros e. rewrite He. by intros ?%elem_of_nil.
  - rewrite Hn, Hi. simpl. lia.
Qed.

Lemma mir_add_node_wf m kind : graph_wf m -> graph_wf (mir_add_node m kind).2.
Proof.
  intros Hwf. unfold mir_add_node. pose proof (add_node_settled (graph m) kind (gw_settled m Hwf)) as Hs.
  destruct (pg_add_node_spec (graph m) kind) as (_ & Hn & He & _).
  destruct (pg_add_node (graph m) kind) as [r g]. simpl in *. split; simpl.
  - done.
  - intros e. rewrite He, Hn, length_app. simpl. intros Hin%(gw_edges m Hwf). lia.
  - rewrite Hn, length_app. pose proof (gw_root m Hwf). simpl. lia.
Qed.

Lemma add_edge_wf m a b w :
  graph_wf m -> (a < node_count m)%nat -> (b < node_count m)%nat ->
  graph_wf {| graph := pg_add_edge (graph m) a b w; root := root m |}.
Proof.
  intros Hwf Ha Hb. destruct (pg_add_edge_spec (graph m) a b w Ha Hb) as [Hn He]. split; simpl.
  - by apply add_edge_settled.
  - intros e. rewrite He, Hn. intros [Hin|Hin]%elem_of_app; [by apply (gw_edges m Hwf)|].
    apply list_elem_of_singleton in Hin as ->. done.
  - rewrite Hn. apply (gw_root m Hwf).
Qed.

Lemma add_input_wf m a b :
  graph_wf m -> (a < node_count m)%nat -> (b < node_count m)%nat -> graph_wf (add_input m a b).
Proof. intros. by apply add_edge_wf. Qed.

Lemma add_cte_expansion_wf m a b :
  graph_wf m -> (a < node_count m)%nat -> (b < node_count m)%nat -> graph_wf (add_cte_expansion m a b).
Proof. intros. by apply add_edge_wf. Qed.

Lemma set_root_wf m r : graph_wf m -> (r < node_count m)%nat -> graph_wf (set_root m r).
Proof. intros Hwf Hr. split; [apply (gw_settled m Hwf) | apply (gw_edges m Hwf) | done]. Qed.

(** [append_graph] shifts the indices of the appended graph. *)
Lemma append_nodes_spec l (nm : gmap nat nat) g :
  let n := length (pg_nodes g) in
  let k := size nm in
  (forall i, nm !! i = if Nat.ltb i k then Some (n - k + i)%nat else None) -> (k <= n)%nat ->
  let '(nm', g') := fold_left append_node l (nm, g) in
  pg_nodes g' = pg_nodes g ++ l /\ pg_edges g' = pg_edges g /\
  (forall v, pg_out g' v = pg_out g v) /\
  (forall i, nm' !! i = if Nat.ltb i (k + length l) then Some (n - k + i)%nat else None).
Proof.
  revert nm g. induction l as [|x l IH]; intros nm g n k Hnm Hk; cbn [fold_left].
  - simpl. rewrite app_nil_r, Nat.add_0_r. done.
  - destruct (pg_add_node_spec g x) as (Hi & Hn & He & Ho & _). destruct (pg_add_node g x) as [t g1] eqn:Hadd. simpl in *.
    assert (nm !! k = None) as Hfresh by (rewrite Hnm, (proj2 (Nat.ltb_ge k k)); done).
    assert (size (<[k := t]> nm) = S k) as Hsz by by rewrite map_size_insert_None.
    specialize (IH (<[k := t]> nm) g1). cbn zeta in IH. rewrite Hsz, Hn, length_app in IH. simpl in IH.
    replace (length (pg_nodes g) + 1 - S k)%nat with (n - k)%nat in IH by (unfold n; lia).
    rewrite ?Hadd. fold k. destruct (fold_left append_node l (<[k := t]> nm, g1)) as [nm' g'] eqn:Hfold.
    destruct IH as (IHn & IHe & IHo & IHm).
    + intros i. destruct (decide (i = k)) as [->|Hne].
      * rewrite lookup_insert_eq, (proj2 (Nat.ltb_lt k (S k))) by lia. rewrite Hi. f_equal. unfold n in *. lia.
      * rewrite lookup_insert_ne, Hnm by done.
        destruct (Nat.ltb_spec i k), (Nat.ltb_spec i (S k)); try done; lia.
    + unfold n in *. lia.
    + rewrite IHn, IHe, ?Hn, ?He, <- app_assoc. repeat split; try done.
      * intros v. by rewrite IHo, Ho.
      * intros i. rewrite IHm. by rewrite Nat.add_succ_r.
Qed.

Definition shift_edge (n : nat) (e : edge MirEdgeKind) : edge MirEdgeKind :=
  ((n + source e)%nat, (n + target e)%nat, weight e).

Lemma append_edges_spec {E} n k nm es g :
  (forall i, nm !! i = if Nat.ltb i k then Some (n + i)%nat else None) ->
  Forall (fun e => (source e < k)%nat /\ (target e < k)%nat) es -> settled g -> (n + k <= length (pg_nodes g))%nat ->
  exists g', @append_edges _ E nm es g = Ok g' /\ pg_nodes g' = pg_nodes g /\
    pg_edges g' = pg_edges g ++ map (shift_edge n) es /\ settled g'.
Proof.
  intros Hnm. revert g. induction es as [|[[s t] w] es IH]; intros g Hall Hs Hlen; simpl.
  - exists g. by rewrite app_nil_r.
  - apply Forall_cons in Hall as [[Hsk Htk] Hall]. simpl in *.
    rewrite !Hnm, (proj2 (Nat.ltb_lt s k)), (proj2 (Nat.ltb_lt t k)) by done.
    assert (n + s < length (pg_nodes g) /\ n + t < length (pg_nodes g))%nat as [H1 H2] by (unfold source, target in *; simpl in *; lia).
    destruct (pg_add_edge_spec g (n + s) (n + t) w H1 H2) as [Hn He].
    destruct (IH (pg_add_edge g (n + s) (n + t) w) Hall (add_edge_settled _ _ _ _ H1 H2)) as (g' & -> & Hn' & He' & Hs'); [by rewrite Hn|].
    exists g'. rewrite Hn', He', Hn, He, <- app_assoc. done.
Qed.

Lemma append_graph_spec {E} m other :
  graph_wf m -> graph_wf other ->
  exists m', @append_graph _ E m other = Ok ((node_count m + root other)%nat, m') /\ graph_wf m' /\
    pg_nodes (graph m') = pg_nodes (graph m) ++ pg_nodes (graph other) /\
    pg_edges (graph m') = pg_edges (graph m) ++ map (shift_edge (node_count m)) (pg_edges (graph other)) /\
    root m' = root m.
Proof.
  intros Hm Ho. unfold append_graph, append_nodes.
  pose proof (append_nodes_spec (pg_nodes (graph other)) ∅ (graph m)) as Hn. cbn zeta in Hn.
  rewrite map_size_empty in Hn. destruct (fold_left _ _ _) as [nm g1]. destruct Hn as (Hn & He & Hout & Hnm); [done | lia|].
  rewrite Nat.sub_0_r in Hnm. simpl in Hnm. fold (node_count m) in Hnm.
  destruct (@append_edges_spec E (node_count m) (length (pg_nodes (graph other))) nm (pg_edges (graph other)) g1 Hnm)
    as (g2 & -> & Hn2 & He2 & Hs2).
  { apply Forall_forall. apply (gw_edges other Ho). }
  { intros v id. rewrite Hout, He. apply (gw_settled m Hm). }
  { rewrite Hn, length_app. done. }
  simpl. rewrite Hnm, (proj2 (Nat.ltb_lt _ _) (gw_root other Ho)). eexists. split; [reflexivity|].
  cbn [graph root]. split; [|by rewrite He2, He, Hn2, Hn]. split; cbn [graph root]; [done| |].
  - intros e. rewrite ?Hn2, ?He2, ?Hn, ?He, length_app. intros [Hin|Hin]%elem_of_app.
    + apply (gw_edges m Hm) in Hin. lia.
    + apply list_elem_of_fmap in Hin as (e' & -> & Hin). apply (gw_edges other Ho) in Hin.
      unfold shift_edge, node_count. simpl. lia.
  - rewrite ?Hn2, ?Hn, length_app. pose proof (gw_root m Hm). lia.
Qed.
End Build.
