(* ===== verification/RelationalFacts.v ===== *)
(** * RelationalFacts: what the relational operators compute

    The weight of every output record in terms of the weights of the inputs. *)

From Stdlib Require Import Sorted.
From S2P Require Import Prelude BTree Text Values UserContext Literals Floats Datums Exprs EvalFacts Consolidation Operators Relational.

(** ** Bags *)

Section Bags.
Context {K V : Type} `{Ord K, Ord V}.

Lemma group_positive k (c : collection (K * V)) : bag c -> Forall (fun p => 0 < p.2) (group k c).
Proof. intros Hb. apply Forall_forall. intros [v w] [-> Hne]%group_elem. simpl. specialize (Hb (k, v)). lia. Qed.

Lemma positive_total (l : list (V * Z)) : Forall (fun p => 0 < p.2) l -> (total (fun _ => 1) l = 0 <-> l = []).
Proof.
  intros Hl. assert (0 <= total (fun _ => 1) l) by (induction Hl; simpl; lia).
  split; [|by intros ->]. destruct Hl as [|p l Hp Hl]; [done|]. simpl.
  assert (0 <= total (fun _ => 1) l) by (clear -Hl; induction Hl; simpl; lia). lia.
Qed.

(** A key is present when it has a value. *)
Lemma distinct_keys_mult k (c : collection (K * V)) :
  bag c -> mult k (distinct (coll_map fst c)) = match group k c with [] => 0 | _ => 1 end.
Proof.
  intros Hb. rewrite distinct_mult. assert (mult k (coll_map fst c) = total (fun _ => 1) (group k c)) as ->.
  { rewrite total_group. unfold mult, coll_map. rewrite (total_map fst). apply total_ext. intros p. lia. }
  pose proof (proj1 (positive_total _ (group_positive k c Hb))) as Hz.
  destruct (group k c) eqn:E; [done|]. destruct (Z.eqb_spec (total (fun _ => 1) (p :: l)) 0) as [Ez|]; [by apply Hz in Ez | done].
Qed.
End Bags.

(** ** Joins *)

Section Joins.
Context {K V V2 D : Type} `{Ord K, Ord V, Ord V2, Ord D}.

Lemma total_matches f k (c : collection (K * V2)) :
  total (fun q => indicator (ord_eqb k q.1) * f q.2) c = total f (group k c).
Proof.
  rewrite total_group. apply total_ext. intros [k' v]. simpl.
  destruct (ord_eqb_spec k k') as [->|]; [by rewrite ord_eqb_refl|]. by destruct (ord_eqb_spec k' k).
Qed.

(** The left join, pointwise: matched rows with the product of the weights, unmatched rows padded once. *)
Lemma left_join_exact (left : collection (K * V)) (right : collection (K * V2)) (projection : K -> V -> option V2 -> D) d :
  bag right ->
  mult d (left_join left right projection) =
  total (fun p =>
    match group p.1 right with
    | [] => indicator (ord_eqb (projection p.1 p.2 None) d)
    | partners => total (fun r => indicator (ord_eqb (projection p.1 p.2 (Some r)) d)) partners
    end) left.
Proof.
  intros Hb. unfold left_join, coll_concat. rewrite mult_app. unfold mult. rewrite total_join. unfold coll_map at 1.
  rewrite (total_map (fun p : K * V => projection p.1 p.2 None)), total_antijoin, <- total_add. apply total_ext. intros [k v]. simpl.
  rewrite (total_matches (fun r => indicator (ord_eqb (projection k v (Some r)) d))), distinct_keys_mult by done.
  destruct (group k right); simpl; lia.
Qed.
End Joins.

(** ** Set operations *)

Lemma side_counts_total sides a b :
  side_counts sides a b = (a + total (fun s => indicator (negb s)) sides, b + total (fun s => indicator s) sides).
Proof.
  revert a b. induction sides as [|[[] w] sides IH]; intros a b; simpl; [f_equal; lia|..]; rewrite IH; f_equal; lia.
Qed.

Section SetOps.
Context {D : Type} `{Ord D}.

Definition tagged (left right : collection D) : collection (D * bool) :=
  coll_concat (coll_map (fun row => (row, false)) left) (coll_map (fun row => (row, true)) right).

Lemma tagged_total f left right :
  total f (tagged left right) = total (fun d => f (d, false)) left + total (fun d => f (d, true)) right.
Proof.
  unfold tagged, coll_concat, coll_map. rewrite total_app, (total_map (fun row => (row, false))), (total_map (fun row => (row, true))). done.
Qed.

Lemma mult_tagged d s left right : mult (d, s) (tagged left right) = mult d (if s then right else left).
Proof.
  unfold mult at 1. rewrite tagged_total. 
  assert (forall (x : D) (t : bool), indicator (ord_eqb (x, t) (d, s)) = if Bool.eqb t s then indicator (ord_eqb x d) else 0) as E.
  { intros x t. destruct (ord_eqb_spec (x, t) (d, s)) as [[= -> ->]|Hne]; [by rewrite ord_eqb_refl, eqb_reflx|].
    destruct (Bool.eqb_spec t s) as [->|]; [|done]. by destruct (ord_eqb_spec x d) as [->|]. }
  rewrite (total_ext _ _ left (fun x => E x false)), (total_ext _ _ right (fun x => E x true)).
  destruct s; simpl; rewrite total_zero; unfold mult; lia.
Qed.

Lemma tagged_group_nil d left right :
  group d (tagged left right) = [] <-> mult d left = 0 /\ mult d right = 0.
Proof.
  split.
  - intros E. assert (forall s, mult (d, s) (tagged left right) = 0) as Hz.
    { intros s. destruct (Z.eq_dec (mult (d, s) (tagged left right)) 0) as [|Hne]; [done|].
      assert ((s, mult (d, s) (tagged left right)) ∈ group d (tagged left right)) as Hin by (by apply group_elem).
      rewrite E in Hin. by apply elem_of_nil in Hin. }
    pose proof (Hz false) as H1. pose proof (Hz true) as H2. rewrite mult_tagged in H1, H2. done.
  - intros [Hl Hr]. destruct (group d (tagged left right)) as [|[s w] g] eqn:E; [done|].
    assert ((s, w) ∈ group d (tagged left right)) as [-> Hne]%group_elem by (rewrite E; by constructor).
    rewrite mult_tagged in Hne. by destruct s.
Qed.

Lemma bag_set_op_mult left right combine d :
  mult d (bag_set_op left right combine) =
  if (mult d left =? 0) && (mult d right =? 0) then 0 else Z.max 0 (combine (mult d left) (mult d right)).
Proof.
  unfold bag_set_op. cbv zeta. change (coll_concat _ _) with (tagged left right). rewrite mult_fst, reduce_mult.
  assert (forall g, side_counts g 0 0 = (total (fun s => indicator (negb s)) g, total (fun s => indicator s) g)) as Hs
    by (intros g; by rewrite side_counts_total).
  assert (total (fun s : bool => indicator (negb s)) (group d (tagged left right)) = mult d left /\
          total (fun s : bool => indicator s) (group d (tagged left right)) = mult d right) as [El Er].
  { rewrite !total_group, !tagged_total. simpl. unfold mult.
    split; [rewrite (total_ext (fun x => _ * 0) (fun _ => 0) right), total_zero by (intros; lia)
           |rewrite (total_ext (fun x => _ * 0) (fun _ => 0) left), total_zero by (intros; lia)];
      rewrite ?Z.add_0_r, ?Z.add_0_l; apply total_ext; intros x; lia. }
  pose proof (tagged_group_nil d left right) as Hnil. destruct (group d (tagged left right)) as [|p g] eqn:E.
  - destruct (proj1 Hnil eq_refl) as [-> ->]. done.
  - rewrite <- E, Hs, E, El, Er.
    replace ((mult d left =? 0) && (mult d right =? 0)) with false
      by (destruct (Z.eqb_spec (mult d left) 0), (Z.eqb_spec (mult d right) 0); try done; by discriminate (proj2 Hnil)).
    generalize (combine (mult d left) (mult d right)) as m. intros m.
    destruct (Z.ltb_spec 0 m); unfold mult; simpl; lia.
Qed.
End SetOps.

(** ** Sorting *)

(** A comparator that sorts: total and transitive. *)
Class TotalPreorder {A} (f : A -> A -> comparison) : Prop := {
  preorder_flip x y : f y x = CompOpp (f x y);
  preorder_trans x y z : f x y <> Gt -> f y z <> Gt -> f x z <> Gt
}.

Section Sorting.
Context {A : Type} (f : A -> A -> comparison) `{!TotalPreorder f}.

Lemma preorder_sorted l : StronglySorted (sort_le f) (sort_by f l).
Proof. apply sort_by_sorted; [intros x y E; rewrite preorder_flip, E; done | apply preorder_trans]. Qed.

Lemma preorder_refl x : sort_le f x x.
Proof. unfold sort_le. pose proof (preorder_flip x x). by destruct (f x x). Qed.

(** Keeping the smaller (the larger) of each pair ends with a smallest (a largest) element. *)
Lemma extremum_fold (le : A -> A -> Prop) (choose : A -> A -> A) x rest :
  (forall y, le y y) -> (forall y z u, le y z -> le z u -> le y u) ->
  (forall y z, (choose y z = y \/ choose y z = z) /\ le (choose y z) y /\ le (choose y z) z) ->
  fold_left choose rest x ∈ x :: rest /\ Forall (le (fold_left choose rest x)) (x :: rest).
Proof.
  intros Hr Ht Hc. revert x. induction rest as [|y rest IH]; intros x; simpl; [split; [by constructor | by constructor]|].
  destruct (IH (choose x y)) as [Hin Hall], (Hc x y) as (Hor & Hx & Hy). inversion Hall as [|? ? Hm Hrest]; subst. split.
  - apply elem_of_cons in Hin as [->|Hin]; [destruct Hor as [->| ->]; repeat constructor | by do 2 constructor].
  - constructor; [by eapply Ht|]. constructor; [by eapply Ht | done].
Qed.

Lemma min_by_spec l m : min_by f l = Some m -> m ∈ l /\ Forall (sort_le f m) l.
Proof.
  destruct l as [|x rest]; [done|]. intros [= <-]. apply extremum_fold; [apply preorder_refl | apply preorder_trans|].
  intros y z. destruct (f y z) eqn:E; (split; [by auto|]); split; try apply preorder_refl; unfold sort_le; try congruence.
  by rewrite preorder_flip, E.
Qed.

Lemma max_by_spec l m : max_by f l = Some m -> m ∈ l /\ Forall (fun x => sort_le f x m) l.
Proof.
  destruct l as [|x rest]; [done|]. intros [= <-]. apply (extremum_fold (fun y z => sort_le f z y)); [apply preorder_refl | by intros y z u H1 H2; apply (preorder_trans u z y) |].
  intros y z. destruct (f y z) eqn:E; (split; [by auto|]); split; try apply preorder_refl; unfold sort_le; try congruence.
  by rewrite preorder_flip, E.
Qed.
End Sorting.

Section TopK.
Context {D : Type} `{Ord D}.

(** How often a record occurs in a list. *)
Definition occurrences (d : D) (l : list D) : Z := Z.of_nat (length (List.filter (fun x => ord_eqb x d) l)).

Lemma occurrences_app d l l' : occurrences d (l ++ l') = occurrences d l + occurrences d l'.
Proof. unfold occurrences. rewrite List.filter_app, length_app. lia. Qed.

Lemma occurrences_perm d l l' : l ≡ₚ l' -> occurrences d l = occurrences d l'.
Proof.
  induction 1 as [|x l l' _ IH|x y l|? ? ? _ -> _ ->]; [done| | |done].
  - change (x :: l) with ([x] ++ l). change (x :: l') with ([x] ++ l'). by rewrite !occurrences_app, IH.
  - change (y :: x :: l) with ([y] ++ [x] ++ l). change (x :: y :: l) with ([x] ++ [y] ++ l). rewrite !occurrences_app. lia.
Qed.

Lemma occurrences_replicate d x n : occurrences d (replicate n x) = Z.of_nat n * indicator (ord_eqb x d).
Proof.
  induction n as [|n IH]; [done|]. change (replicate (S n) x) with ([x] ++ replicate n x). rewrite occurrences_app, IH.
  unfold occurrences. simpl. destruct (ord_eqb x d); simpl; lia.
Qed.

(** Expanding a consolidated slice lists each record by its weight. *)
Lemma expand_occurrences d (l : btree D Z) : bt_wf l -> occurrences d (expand l) = Z.max 0 (default 0 (bt_get d l)).
Proof.
  induction l as [|[x w] l IH]; intros Hwf; [done|]. apply bt_wf_cons in Hwf as [Hx Hl]. unfold expand in *. simpl.
  rewrite occurrences_app, IH by done.
  assert (occurrences d (if 0 <=? w then replicate (Z.to_nat w) x else []) = Z.max 0 w * indicator (ord_eqb x d)) as ->.
  { destruct (Z.leb_spec 0 w); [rewrite occurrences_replicate; lia|]. unfold occurrences. simpl. lia. }
  destruct (ord_eqb_spec x d) as [->|Hne].
  - rewrite cmp_refl, bt_get_below by done. simpl. lia.
  - destruct (cmp d x) eqn:E; [by apply cmp_eq in E| |simpl; lia]. rewrite bt_get_below; [simpl; lia|].
    eapply Forall_impl; [exact Hx|]. intros p. by apply cmp_trans.
Qed.

Lemma mult_ones d (l : list D) : mult d (map (fun v => (v, 1)) l) = occurrences d l.
Proof.
  induction l as [|x l IH]; [done|]. change (x :: l) with ([x] ++ l). rewrite map_app, mult_app, occurrences_app, IH.
  unfold mult, occurrences. simpl. destruct (ord_eqb x d); simpl; lia.
Qed.

Lemma mult_unit_values d (c : collection D) : mult (tt, d) (coll_map (fun v => (tt, v)) c) = mult d c.
Proof.
  unfold mult, coll_map. rewrite (total_map (fun v => (tt, v))). apply total_ext. intros x.
  destruct (ord_eqb_spec x d) as [->|]; [by rewrite ord_eqb_refl|]. by destruct (ord_eqb_spec (tt, x) (tt, d)) as [[= ->]|].
Qed.

Lemma mult_unit_snd d (c : collection (unit * D)) : mult d (coll_map snd c) = mult (tt, d) c.
Proof.
  unfold mult, coll_map. rewrite (total_map snd). apply total_ext. intros [[] x]. simpl.
  destruct (ord_eqb_spec x d) as [->|]; [by rewrite ord_eqb_refl|]. by destruct (ord_eqb_spec (tt, x) (tt, d)) as [[= ->]|].
Qed.

Lemma unit_group_get d c : default 0 (bt_get d (group tt (coll_map (fun v => (tt, v)) c))) = mult d c.
Proof.
  destruct (bt_get d (group tt _)) as [w|] eqn:E.
  - apply bt_get_in in E; [|apply group_wf]. apply group_elem in E as [-> _]. apply mult_unit_values.
  - simpl. destruct (Z.eq_dec (mult d c) 0) as [|Hne]; [done|]. exfalso.
    assert ((d, mult d c) ∈ group tt (coll_map (fun v => (tt, v)) c)) as Hin by (apply group_elem; by rewrite mult_unit_values).
    apply bt_get_in in Hin; [|apply group_wf]. by rewrite E in Hin.
Qed.

Lemma take_z_map {E} (f : D -> E) n l : take_z n (map f l) = map f (take_z n l).
Proof. unfold take_z. rewrite length_map. destruct (_ <=? _); [done | by rewrite firstn_map]. Qed.
Lemma drop_z_map {E} (f : D -> E) n l : drop_z n (map f l) = map f (drop_z n l).
Proof. unfold drop_z. rewrite length_map. destruct (_ <=? _); [done | by rewrite skipn_map]. Qed.
Lemma take_z_nil n : take_z n (@nil D) = [].
Proof. unfold take_z. destruct (_ <=? _); [done | apply take_nil]. Qed.
Lemma drop_z_nil n : drop_z n (@nil D) = [].
Proof. unfold drop_z. destruct (_ <=? _); [done | apply drop_nil]. Qed.

(** Top-k returns the window of one sorted listing of the positive rows. *)
Lemma topk_by_exact (input : collection D) compare limit offset :
  TotalPreorder compare ->
  exists sorted,
    StronglySorted (sort_le compare) sorted /\
    (forall d, occurrences d sorted = Z.max 0 (mult d input)) /\
    forall d, mult d (topk_by input compare limit offset) = occurrences d (take_z limit (drop_z offset sorted)).
Proof.
  intros Hpre. exists (sort_by compare (expand (group tt (coll_map (fun v => (tt, v)) input)))). split_and!.
  - by apply preorder_sorted.
  - intros d. rewrite (occurrences_perm _ _ _ (sort_by_perm _ _)), expand_occurrences, unit_group_get by apply group_wf. done.
  - intros d. unfold topk_by. rewrite mult_unit_snd, reduce_mult. destruct (group tt _) eqn:E; [|by rewrite mult_ones].
    simpl. by rewrite drop_z_nil, take_z_nil.
Qed.
End TopK.

(** ** Aggregates *)

Section Aggregates.

Lemma total_perm {D} f (c c' : collection D) : c ≡ₚ c' -> total f c = total f c'.
Proof. induction 1; simpl; lia. Qed.

Lemma total_entry {D} `{Ord D} f k w (m : btree D Z) : bt_wf m -> total f (bt_entry k 0 (fun n => n + w) m) = total f m + w * f k.
Proof.
  intros Hwf. unfold bt_entry. rewrite (total_perm _ _ _ (bt_insert_perm _ _ _)). simpl.
  destruct (bt_get k m) as [v|] eqn:E; simpl.
  - rewrite (total_perm f m _ (bt_remove_perm _ _ _ E)). simpl. lia.
  - rewrite bt_remove_None by done. lia.
Qed.

(** Merging a column keeps its weighted sums. *)
Lemma merge_column_spec f index values :
  bt_wf (merge_column index values) /\
  total f (merge_column index values) = total (fun row => match row !! index with Some d => f d | None => 0 end) values.
Proof.
  unfold merge_column. assert (forall m, bt_wf m ->
    bt_wf (fold_left (fun merged (p : list Datum * Z) =>
      match p.1 !! index with Some datum => bt_entry datum 0 (fun n => n + p.2) merged | None => merged end) values m) /\
    total f (fold_left (fun merged (p : list Datum * Z) =>
      match p.1 !! index with Some datum => bt_entry datum 0 (fun n => n + p.2) merged | None => merged end) values m)
    = total f m + total (fun row => match row !! index with Some d => f d | None => 0 end) values) as Hgen.
  { induction values as [|[row w] values IH]; intros m Hm; simpl; [split; [done | lia]|].
    destruct (row !! index) as [d|]; [|destruct (IH m Hm); split; [done | lia]].
    destruct (IH (bt_entry d 0 (fun n => n + w) m)) as [Hwf ->]; [by apply bt_wf_insert|]. split; [done|].
    rewrite total_entry by done. lia. }
  destruct (Hgen [] bt_wf_nil) as [Hwf E]. split; [done|]. rewrite E. simpl. lia.
Qed.

(** Dropping records without rows changes no sum when weights are positive. *)
Lemma aggregate_column_total f index values :
  Forall (fun p => 0 < p.2) values ->
  total f (aggregate_column index values) = total (fun row => match row !! index with Some d => f d | None => 0 end) values.
Proof.
  intros Hpos. rewrite <- (proj2 (merge_column_spec f index values)). unfold aggregate_column.
  assert (Forall (fun p => 0 <= p.2) (merge_column index values)) as Hnn.
  { apply Forall_forall. intros [d w] Hin. destruct (merge_column_spec (fun x => indicator (ord_eqb x d)) index values) as [Hwf E].
    fold (mult d (merge_column index values)) in E. rewrite mult_bt in E by done.
    apply bt_get_in in Hin; [|done]. rewrite Hin in E. simpl in *. rewrite E. clear -Hpos.
    induction Hpos as [|[row w'] values Hp _ IH]; simpl in *; [done|].
    destruct (row !! index); [|lia]. destruct (ord_eqb d0 d); simpl; lia. }
  induction Hnn as [|[d w] l Hw _ IH]; [done|]. simpl in *. destruct (Z.ltb_spec 0 w); simpl; [by rewrite IH|].
  replace w with 0 by lia. rewrite IH. lia.
Qed.

(** Comparing sort keys sorts; on sortable columns it is the source's comparison. *)
Definition key_compare (a b : Datum) : comparison := cmp (sort_key a) (sort_key b).
#[export] Instance key_compare_preorder : TotalPreorder key_compare.
Proof. split; [intros x y; apply cmp_antisym | intros x y z; apply (cmp_le_trans (sort_key x) (sort_key y) (sort_key z))]. Qed.

Lemma extremum_keys floats l :
  Forall (fun d => sortable floats d = true) l ->
  min_by compare_datums_sort l = min_by key_compare l /\ max_by compare_datums_sort l = max_by key_compare l.
Proof.
  intros Hl. destruct Hl as [|x l Hx Hl]; [done|]. unfold min_by, max_by. split; f_equal.
  all: revert x Hx; induction Hl as [|y l Hy _ IH]; intros x Hx; [done|].
  all: simpl; rewrite (compare_sort_key floats x y) by done; fold (key_compare x y); apply IH; by destruct (key_compare x y).
Qed.

(** On values of one family MIN and MAX pick a value that is least, or greatest, in SQL's order. *)
Lemma extremum_sql fam l :
  l <> [] -> Forall (fun d => in_family fam d = true /\ is_null d = false) l ->
  exists lo hi, min_by compare_datums_sort l = Some lo /\ max_by compare_datums_sort l = Some hi /\ lo ∈ l /\ hi ∈ l /\
    forall d, d ∈ l -> exists c c', sql_compare lo d = Some c /\ c <> Gt /\ sql_compare d hi = Some c' /\ c' <> Gt.
Proof.
  intros Hne Hl. rewrite Forall_forall in Hl.
  assert (Forall (fun d => sortable (is_float fam) d = true) l) as Hs by (apply Forall_forall; intros d Hd; by apply family_sortable, Hl).
  destruct (extremum_keys _ _ Hs) as [-> ->]. destruct l as [|x rest] eqn:El; [done|]. rewrite <- El in *.
  destruct (min_by key_compare l) as [lo|] eqn:Elo, (max_by key_compare l) as [hi|] eqn:Ehi; [|by rewrite El in *..].
  destruct (min_by_spec _ _ _ Elo) as [Hlo Hle], (max_by_spec _ _ _ Ehi) as [Hhi Hge]. rewrite Forall_forall in Hle, Hge, Hs.
  exists lo, hi. split_and!; try done. intros d Hd. destruct (Hl lo Hlo), (Hl hi Hhi), (Hl d Hd).
  exists (key_compare lo d), (key_compare d hi). unfold key_compare.
  rewrite !(sort_is_sql fam), !(compare_sort_key (is_float fam)) by auto. split_and!; try done; [by apply Hle | by apply Hge].
Qed.

Lemma total_as_sum {D} (f : D -> Z) (c : collection D) : z_sum (map (fun p => p.2 * f p.1) c) = total f c.
Proof. induction c as [|p c IH]; simpl; [done|]. unfold z_sum in *. simpl. by rewrite IH. Qed.

Lemma filter_map_nil {A B} (f : A -> option B) l : filter_map f l = [] <-> Forall (fun x => f x = None) l.
Proof.
  induction l as [|x l IH]; simpl; [done|]. destruct (f x) eqn:E; [split; [done | by inversion 1; congruence]|].
  rewrite IH. split; [by constructor | by inversion 1].
Qed.

Definition int_of (d : Datum) : Z := default 0 (as_int d).
Definition is_int (d : Datum) : bool := match as_int d with Some _ => true | None => false end.

Lemma count_total_value (column : btree Datum Z) :
  evaluate_datum_aggregate (DA_Count false) column = D_I64 (saturate (total (fun d => indicator (negb (is_null d))) column)).
Proof.
  simpl. do 2 f_equal. rewrite <- total_as_sum. induction column as [|[d w] l IH]; [done|]. unfold z_sum in *. simpl.
  destruct (negb (is_null d)); simpl; rewrite IH; lia.
Qed.

Lemma sum_total_value (column : btree Datum Z) :
  Forall (fun p => 0 < p.2) column ->
  evaluate_datum_aggregate (DA_SumInt false) column =
  if total (fun d => indicator (is_int d)) column =? 0 then D_Null else D_I64 (saturate (total int_of column)).
Proof.
  intros Hpos. cbn [evaluate_datum_aggregate]. set (ints := filter_map _ _).
  assert (z_sum ints = total int_of column /\ 0 <= total (fun d => indicator (is_int d)) column /\
    (ints = [] <-> total (fun d => indicator (is_int d)) column = 0)) as (Hsum & Hnn & Hz).
  { subst ints. induction Hpos as [|[d w] l Hw _ (IH1 & IH2 & IH3)]; [done|]. simpl in *.
    unfold int_of at 1, is_int at 1 3. destruct d; simpl in *; try (rewrite IH1; split_and!; [lia | lia | rewrite IH3; split; intros; lia]);
      unfold z_sum in *; simpl; (split_and!; [rewrite IH1; simpl; lia | lia | split; [done | intros; lia]]). }
  destruct (Z.eqb_spec (total (fun d => indicator (is_int d)) column) 0) as [E|E].
  - by rewrite (proj2 Hz E).
  - destruct ints; [by exfalso; apply E, Hz | by rewrite Hsum].
Qed.

Lemma aggregate_column_positive index values : Forall (fun p => 0 < p.2) (aggregate_column index values).
Proof. unfold aggregate_column. apply Forall_forall. intros p Hin. apply list_elem_of_In, filter_In in Hin as [_ Hp]. lia. Qed.

Context {K : Type} `{Ord K} (input : collection (K * list Datum)) (k : K) (index : nat).

(** The sum of [f] over the rows of the group that have the column. *)
Definition group_total (f : Datum -> Z) : Z :=
  total (fun p => indicator (ord_eqb p.1 k) * match p.2 !! index with Some d => f d | None => 0 end) input.

Lemma group_column_total f :
  bag input -> total f (aggregate_column index (group k input)) = group_total f.
Proof. intros Hb. rewrite aggregate_column_total by (by apply group_positive). unfold group_total. by rewrite total_group. Qed.

Lemma aggregate_column_wf values : bt_wf (aggregate_column index values).
Proof.
  unfold aggregate_column. pose proof (proj1 (merge_column_spec (fun _ => 0) index values)) as Hm.
  induction (merge_column index values) as [|[d w] l IH]; [constructor|]. apply bt_wf_cons in Hm as [Hd Hl]. simpl.
  destruct (0 <? w); [|by apply IH]. apply bt_wf_cons. split; [|by apply IH]. apply Forall_forall. intros p Hin.
  apply list_elem_of_In, filter_In in Hin as [Hin _]. rewrite Forall_forall in Hd. by apply Hd, list_elem_of_In.
Qed.

(** How many rows of the group have the value in the column. *)
Definition group_count (d : Datum) : Z := group_total (fun x => indicator (ord_eqb x d)).

Definition candidates : list Datum := map fst (List.filter (fun p => negb (is_null p.1)) (aggregate_column index (group k input))).
Lemma candidates_spec d : bag input -> d ∈ candidates <-> is_null d = false /\ 0 < group_count d.
Proof.
  intros Hb. unfold group_count. rewrite <- group_column_total by done. fold (mult d (aggregate_column index (group k input))).
  rewrite mult_bt by apply aggregate_column_wf. unfold candidates. rewrite list_elem_of_fmap. split.
  - intros ([d' w] & -> & Hin). apply list_elem_of_In, filter_In in Hin as [Hin Hn%negb_true_iff]. apply list_elem_of_In in Hin. split; [done|].
    pose proof (aggregate_column_positive index (group k input)) as Hpos. rewrite Forall_forall in Hpos. pose proof (Hpos _ Hin).
    apply bt_get_in in Hin; [|apply aggregate_column_wf]. simpl in *. by rewrite Hin.
  - intros [Hn Hc]. destruct (bt_get d _) as [w|] eqn:E; [|simpl in Hc; lia]. apply bt_get_in in E; [|apply aggregate_column_wf].
    exists (d, w). split; [done|]. apply list_elem_of_In, filter_In. split; [by apply list_elem_of_In | simpl; by rewrite Hn].
Qed.

Lemma candidates_none : bag input -> candidates = [] <-> group_total (fun d => indicator (negb (is_null d))) = 0.
Proof.
  intros Hb. rewrite <- group_column_total by done. unfold candidates. pose proof (aggregate_column_positive index (group k input)) as Hpos.
  assert (forall l : list (Datum * Z), Forall (fun p => 0 < p.2) l -> 0 <= total (fun d => indicator (negb (is_null d))) l) as Hnn
    by (induction 1 as [|[d w] l Hw _ IH]; simpl in *; [done|]; destruct (is_null d); simpl; lia).
  induction Hpos as [|[d w] l Hw Hl IH]; [done|]. simpl in *. specialize (Hnn l Hl). destruct (is_null d); simpl; [rewrite IH; lia|].
  split; [done | lia].
Qed.

(** C30: Over the rows of a group, in an input with no negative multiplicity: COUNT of a column is
    the number of rows with a non-NULL value, and SUM of an integer column the weighted sum, NULL
    without integers, both saturated to 64 bits; MIN and MAX are NULL without a value; and when the
    values of the column are of one kind that SQL orders (integers of any width, floats of 64 bits
    without NaN, booleans, text, byteas, uuids, dates, times or timestamps), MIN and MAX are values
    that occur, and in SQL's order no occurring value is below MIN or above MAX. *)
Theorem aggregates_exact :
  bag input ->
  let column := aggregate_column index (group k input) in
  let minimum := evaluate_datum_aggregate DA_Min column in
  let maximum := evaluate_datum_aggregate DA_Max column in
  evaluate_datum_aggregate (DA_Count false) column = D_I64 (saturate (group_total (fun d => indicator (negb (is_null d))))) /\
  evaluate_datum_aggregate (DA_SumInt false) column =
    (if group_total (fun d => indicator (is_int d)) =? 0 then D_Null else D_I64 (saturate (group_total int_of))) /\
  (group_total (fun d => indicator (negb (is_null d))) = 0 -> minimum = D_Null /\ maximum = D_Null) /\
  forall fam, (forall d, 0 < group_count d -> in_family fam d = true) ->
    group_total (fun d => indicator (negb (is_null d))) <> 0 ->
    0 < group_count minimum /\ 0 < group_count maximum /\ is_null minimum = false /\ is_null maximum = false /\
    forall d, is_null d = false -> 0 < group_count d ->
      exists c c', sql_compare minimum d = Some c /\ c <> Gt /\ sql_compare d maximum = Some c' /\ c' <> Gt.
Proof.
  intros Hb column minimum maximum. split_and!.
  - unfold column. by rewrite count_total_value, group_column_total.
  - unfold column. rewrite sum_total_value by apply aggregate_column_positive. by rewrite !group_column_total.
  - intros E%candidates_none; [|done]. unfold minimum, maximum, column. simpl. fold candidates. by rewrite E.
  - intros fam Hfam Hne. destruct (extremum_sql fam candidates) as (lo & hi & Elo & Ehi & Hlo & Hhi & Hall).
    { by rewrite candidates_none. }
    { apply Forall_forall. intros d [Hn Hc]%candidates_spec; [|done]. split; [by apply Hfam | done]. }
    assert (minimum = lo /\ maximum = hi) as [-> ->].
    { unfold minimum, maximum, column. simpl. fold candidates. by rewrite Elo, Ehi. }
    apply candidates_spec in Hlo as [??], Hhi as [??]; [|done..]. split_and!; try done.
    intros d Hn Hd. apply Hall. by apply candidates_spec.
Qed.
End Aggregates.
