(* ===== verification/CompileMir.v ===== *)
(** * CompileMir: from a query graph to a plan of recipes
    ([crates/palimpsest-dataflow/src/palimpsest/compile_mir.rs])

    [compile_mir] walks the graph on demand and leaves, per node, a schema, the
    table each column can be traced to, and a recipe. Compiling a node compiles its
    inputs first; recursion that does not end overflows the stack, so running out of
    fuel is a panic. Texts of error messages are shortened. *)

From stdpp Require Import gmap.
From S2P Require Import Prelude BTree Text Values UserContext Literals Floats Datums Exprs Like Eval Mir Consolidation Operators Relational.

(** ** Recipes *)

Inductive NodeRecipe :=
| NR_BaseTable (table : Z)
| NR_Filter (predicate : PredicateFn)
| NR_Project (extract : Row -> run Row)
| NR_Join (kind : JoinKind) (left_keys right_keys : list nat) (right_width : nat)
| NR_Distinct
| NR_Union (all : bool)
| NR_Aggregate (group_extract : Row -> list Datum) (value_extracts : list ScalarFn) (funcs : list DatumAggregate)
    (empty_default : option Row)
| NR_TopK (sort_extract : Row -> run (list Datum)) (descending : list bool) (limit offset : Z)
| NR_DistinctOn (on_extract sort_extract : Row -> run (list Datum)) (descending : list bool)
| NR_SetOp (intersect all : bool)
| NR_Fixpoint (cte : text) (union_all : bool)
| NR_RecursiveRef (cte : text)
| NR_CteRef (target : nat).

Inductive CompileError :=
| CE_Unsupported (what : string)
| CE_Expression (e : EvalError)
| CE_Unknown (what : string)
| CE_Cycle
| CE_UnsupportedAggregate (name : text).

Record CompileState := {
  cs_node_schemas : gmap nat ScalarSchema;
  cs_node_provenance : gmap nat (list (option text));
  cs_recipes : gmap nat NodeRecipe;
  cs_inputs : list Z;
  cs_input_schemas : gmap Z ScalarSchema
}.

(** [state.node_provenance.insert(..); node_schemas.insert(..); recipes.insert(..)]. *)
Definition record_node (st : CompileState) (node : nat) (provenance : list (option text)) (schema : ScalarSchema)
    (recipe : NodeRecipe) : CompileState :=
  {| cs_node_schemas := <[node := schema]> (cs_node_schemas st);
     cs_node_provenance := <[node := provenance]> (cs_node_provenance st);
     cs_recipes := <[node := recipe]> (cs_recipes st);
     cs_inputs := cs_inputs st; cs_input_schemas := cs_input_schemas st |}.

(** [map_err(CompileError::Expression)]. *)
Definition expression {A} (m : exec EvalError A) : exec CompileError A := exec_map_err CE_Expression m.

(** ** Names *)

(** [t.rsplit_once(sep)]: around the last occurrence. *)
Fixpoint rsplit_once (sep t : text) : option (text * text) :=
  match t with
  | [] => None
  | b :: t' =>
      match rsplit_once sep t' with
      | Some (p, q) => Some (b :: p, q)
      | None => match strip_prefix sep t with Some q => Some ([], q) | None => None end
      end
  end.

Section Compile.
Context `{EvalRuntime} `{PetGraph MirNodeKind MirEdgeKind}.

Definition is_bare_ident (part : text) : bool :=
  negb (bool_decide (part = [])) &&
  forallb (fun c => char_is_alphanumeric c || bool_decide (c = lit "_") || bool_decide (c = [x22])) (chars part).

Definition split_qualified (entry : text) : option (text * text) :=
  '(relation, bare) ← split_once x2e entry;
  if is_bare_ident relation && is_bare_ident bare then Some (relation, bare) else None.

Definition split_alias (entry : text) : option (text * text) :=
  '(expr_text, alias) ← rsplit_once (lit " AS ") entry;
  if is_bare_ident alias && negb (bool_decide (trim expr_text = [])) then Some (trim expr_text, alias) else None.

Definition or_else {A} (o : option A) (k : option A) : option A := match o with Some _ => o | None => k end.

(** The first column whose name matches up to ASCII case. *)
Definition position_ignore_case (columns : list (text * ColumnType)) (entry : text) : option nat :=
  fst <$> list_find (fun c => eq_ignore_ascii_case c.1 entry = true) columns.

Definition resolve_entry_column (schema : ScalarSchema) (provenance : list (option text)) (entry : text) : option nat :=
  or_else (index_of schema entry)
    (or_else
      ('(relation, bare) ← split_qualified entry;
       or_else (position_attributed (sc_columns schema) provenance relation bare) (index_of schema bare))
      (position_ignore_case (sc_columns schema) entry)).

Definition resolve_column (schema : ScalarSchema) (provenance : list (option text)) (reference : ColumnRef) (strict : bool)
  : option nat :=
  match colref_relation reference with
  | Some relation =>
      let attributed := position_attributed (sc_columns schema) provenance relation (colref_name reference) in
      if strict then attributed else or_else attributed (index_of schema (colref_name reference))
  | None => if strict then None else index_of schema (colref_name reference)
  end.

(** ** Inputs *)

Definition sources (graph : MirGraph) (node : nat) : list nat :=
  map source (edge_refs (Mir.graph graph) (pg_in (Mir.graph graph) node)).

Definition single_input (graph : MirGraph) (node : nat) : exec CompileError nat :=
  match List.filter is_input (edge_refs (Mir.graph graph) (pg_in (Mir.graph graph) node)) with
  | [] => Err (CE_Unknown "expected input edge")
  | [e] => Ok (source e)
  | _ => Err (CE_Unsupported "multi-input node")
  end.

(** An input's schema and the provenance of its columns. *)
Definition node_input (st : CompileState) (node : nat) (what : string) : exec CompileError (ScalarSchema * list (option text)) :=
  let? schema := ok_or (cs_node_schemas st !! node) (CE_Unknown what) in
  Ok (schema, default (replicate (schema_len schema) None) (cs_node_provenance st !! node)).

Definition two_inputs (graph : MirGraph) (node : nat) (what : string) : exec CompileError (nat * nat) :=
  match ordered_inputs graph node with
  | [l; r] => Ok (l, r)
  | _ => Err (CE_Unsupported what)
  end.

(** ** Sources *)

Definition narrowed_schema (full_schema : ScalarSchema) (project : list ColumnRef) : exec CompileError ScalarSchema :=
  match project with
  | [] => Ok full_schema
  | _ =>
      let? pairs := exec_mapM (fun col =>
        let? ty := ok_or (schema_column_type full_schema (colref_name col)) (CE_Unknown "column") in
        Ok (colref_name col, ty)) project in
      Ok (from_pairs pairs)
  end.

Definition compile_base_table (lookup : text -> option (Z * ScalarSchema)) (node : nat) (table : text) (project : list ColumnRef)
    (st : CompileState) : exec CompileError CompileState :=
  let? (table_id, full_schema) := ok_or (lookup table) (CE_Unknown "table") in
  let? schema := narrowed_schema full_schema project in
  let st := match cs_input_schemas st !! table_id with
    | Some _ => st
    | None => {| cs_node_schemas := cs_node_schemas st; cs_node_provenance := cs_node_provenance st;
                 cs_recipes := cs_recipes st; cs_inputs := cs_inputs st ++ [table_id];
                 cs_input_schemas := <[table_id := full_schema]> (cs_input_schemas st) |}
    end in
  Ok (record_node st node (replicate (schema_len schema) (Some table)) schema (NR_BaseTable table_id)).

Definition compile_cte_ref (graph : MirGraph) (node : nat) (cte : text) (st : CompileState) : exec CompileError CompileState :=
  let expansion := list_find (fun e : edge MirEdgeKind => is_input e = false)
    (edge_refs (Mir.graph graph) (pg_in (Mir.graph graph) node)) in
  let? target := ok_or ((fun p => source p.2) <$> expansion) (CE_Unknown "cte") in
  let? schema := ok_or (cs_node_schemas st !! target) (CE_Unknown "cte target schema") in
  Ok (record_node st node (replicate (schema_len schema) (Some cte)) schema (NR_CteRef target)).

(** ** Filters and projections *)

Definition compile_filter (graph : MirGraph) (node : nat) (predicate : text) (st : CompileState)
  : exec CompileError CompileState :=
  let? input_node := single_input graph node in
  let? (input_schema, provenance) := node_input st input_node "filter input schema" in
  let? pred := expression (compile_predicate predicate (with_provenance input_schema provenance)) in
  Ok (record_node st node provenance input_schema (NR_Filter pred)).

Inductive OutputColumn := OC_Index (i : nat) | OC_Scalar (f : ScalarFn).

(** One output: how it is computed, its name and type, where it comes from. *)
Definition output : Type := OutputColumn * (text * ColumnType) * option text.

Definition push_index (input_schema : ScalarSchema) (input_prov : list (option text)) (index : nat) (name : text)
  : exec CompileError output :=
  match sc_columns input_schema !! index with
  | Some (_, ty) => Ok (OC_Index index, (name, ty), input_prov !! index ≫= id)
  | None => Panic
  end.

Definition push_scalar (expr_schema : ScalarSchema) (entry name : text) : exec CompileError output :=
  let? (scalar, ty) := expression (compile_typed_scalar entry expr_schema) in Ok (OC_Scalar scalar, (name, ty), None).

(** [*] and [rel.*]: the columns [keep] selects, under their own names. *)
Definition push_columns (input_schema : ScalarSchema) (input_prov : list (option text)) (keep : nat -> bool)
  : list output :=
  filter_map (fun '(index, (name, ty)) =>
    if keep index : bool then Some (OC_Index index, (name, ty), input_prov !! index ≫= id) else None)
    (imap pair (sc_columns input_schema)).

(** An entry without an alias that is not a wildcard. *)
Definition compile_plain_entry (input_schema : ScalarSchema) (input_prov : list (option text)) (entry : text)
  : exec CompileError output :=
  let push_index := push_index input_schema input_prov in
  match index_of input_schema entry with
  | Some index => push_index index entry
  | None =>
      match split_qualified entry with
      | Some (relation, bare) =>
          match or_else (position_attributed (sc_columns input_schema) input_prov relation bare) (index_of input_schema bare) with
          | Some index => push_index index bare
          | None => Err (CE_Unknown "project column")
          end
      | None =>
          match position_ignore_case (sc_columns input_schema) entry with
          | Some index => push_index index (default [] (fst <$> sc_columns input_schema !! index))
          | None => push_scalar (with_provenance input_schema input_prov) entry (default entry (cast_label entry))
          end
      end
  end.

Definition compile_entry (input_schema : ScalarSchema) (input_prov : list (option text)) (entry : text)
  : exec CompileError (list output) :=
  let entry := trim entry in
  match split_alias entry with
  | Some (expr_text, alias) =>
      match or_else (resolve_entry_column input_schema input_prov expr_text) (index_of input_schema alias) with
      | Some index => let? o := push_index input_schema input_prov index alias in Ok [o]
      | None => let? o := push_scalar (with_provenance input_schema input_prov) expr_text alias in Ok [o]
      end
  | None =>
      if decide (entry = lit "*") then Ok (push_columns input_schema input_prov (fun _ => true))
      else match strip_suffix (lit ".*") entry with
      | Some relation =>
          match push_columns input_schema input_prov (fun i => attributed_to input_prov i relation) with
          | [] => Err (CE_Unknown "project columns")
          | outputs => Ok outputs
          end
      | None => let? o := compile_plain_entry input_schema input_prov entry in Ok [o]
      end
  end.

Definition output_value (o : output) (row : Row) : run Datum :=
  match o.1.1 with OC_Index i => Ok (row_get row i) | OC_Scalar scalar => scalar row end.
Definition project_row (outputs : list output) (row : Row) : run Row := exec_mapM (fun o => output_value o row) outputs.

Definition compile_project (graph : MirGraph) (node : nat) (columns : list text) (st : CompileState)
  : exec CompileError CompileState :=
  let? input_node := single_input graph node in
  let? (input_schema, input_prov) := node_input st input_node "project input schema" in
  let? outputs := exec_map (@concat output) (exec_mapM (compile_entry input_schema input_prov) columns) in
  Ok (record_node st node (map snd outputs) (from_pairs (map (fun o => o.1.2) outputs)) (NR_Project (project_row outputs))).

(** ** Aggregates *)

Definition is_distinct_call (agg : AggExpr) : bool := bool_decide (head (ag_args agg) = Some (lit "DISTINCT")).

Definition parse_agg_call (agg : AggExpr) : bool * text :=
  let distinct := is_distinct_call agg in
  (distinct, default (lit "*") (trim <$> ag_args agg !! (if distinct then 1 else 0)%nat)).

Definition aggregate_display_name (agg : AggExpr) : text :=
  let distinct := is_distinct_call agg in
  let args := join (lit ", ") (drop (if distinct then 1 else 0) (ag_args agg)) in
  if distinct then ag_function agg ++ lit "(DISTINCT " ++ args ++ lit ")" else ag_function agg ++ lit "(" ++ args ++ lit ")".

Definition key_of (row : Row) (indices : list nat) : list Datum := map (row_get row) indices.

Definition aggregate_func (name : text) (distinct : bool) (arg_type : ColumnType) : exec CompileError (DatumAggregate * ColumnType) :=
  if decide (name = lit "count") then Ok (DA_Count distinct, CT_Int)
  else if decide (name = lit "sum") then
    Ok (match arg_type with CT_Int => (DA_SumInt distinct, CT_Int) | _ => (DA_SumFloat distinct, CT_Float) end)
  else if decide (name = lit "avg") then Ok (DA_Avg distinct, CT_Float)
  else if decide (name = lit "min") then Ok (DA_Min, arg_type)
  else if decide (name = lit "max") then Ok (DA_Max, arg_type)
  else Err (CE_UnsupportedAggregate name).

Definition compile_agg (arg_schema : ScalarSchema) (agg : AggExpr)
  : exec CompileError (ScalarFn * DatumAggregate * (text * ColumnType)) :=
  let '(distinct, arg) := parse_agg_call agg in
  let? (extractor, arg_type) :=
    if decide (arg = lit "*") then Ok ((fun _ => Ok (D_Bool true)) : ScalarFn, CT_Bool)
    else expression (compile_typed_scalar arg arg_schema) in
  let? (func, output_type) := aggregate_func (ascii_lower (ag_function agg)) distinct arg_type in
  Ok (extractor, func, (default (aggregate_display_name agg) (ag_alias agg), output_type)).

Definition group_column (input_schema : ScalarSchema) (input_prov : list (option text)) (group_col : ColumnRef)
  : exec CompileError (nat * (text * ColumnType)) :=
  let? index := ok_or (or_else (resolve_column input_schema input_prov group_col true)
                               (resolve_column input_schema input_prov group_col false)) (CE_Unknown "group column") in
  match sc_columns input_schema !! index with Some column => Ok (index, column) | None => Panic end.

Definition empty_datum (func : DatumAggregate) : Datum := match func with DA_Count _ => D_I64 0 | _ => D_Null end.

Definition compile_aggregate (graph : MirGraph) (node : nat) (group_by : list ColumnRef) (aggs : list AggExpr) (st : CompileState)
  : exec CompileError CompileState :=
  let? input_node := single_input graph node in
  let? (input_schema, input_prov) := node_input st input_node "aggregate input schema" in
  let? grouped := exec_mapM (group_column input_schema input_prov) group_by in
  let? compiled := exec_mapM (compile_agg (with_provenance input_schema input_prov)) aggs in
  let funcs := map (fun c => c.1.2) compiled in
  let output_schema := from_pairs (map snd grouped ++ map snd compiled) in
  Ok (record_node st node (replicate (schema_len output_schema) None) output_schema
    (NR_Aggregate (fun row => key_of row (map fst grouped)) (map (fun c => c.1.1) compiled) funcs
      (match group_by with [] => Some (map empty_datum funcs) | _ => None end))).

(** ** Joins and set operations *)

(** The four ways to bind a pair of key references, in order. *)
Definition join_key (left_schema : ScalarSchema) (left_prov : list (option text)) (right_schema : ScalarSchema)
    (right_prov : list (option text)) (on : ColumnRef * ColumnRef) : exec CompileError (nat * nat) :=
  let '(a, b) := on in
  let orientation x y strict :=
    l ← resolve_column left_schema left_prov x strict; r ← resolve_column right_schema right_prov y strict; Some (l, r) in
  ok_or (or_else (orientation a b true) (or_else (orientation b a true)
    (or_else (orientation a b false) (orientation b a false)))) (CE_Unknown "join key").

Definition compile_join (graph : MirGraph) (node : nat) (kind : JoinKind) (on : list (ColumnRef * ColumnRef)) (st : CompileState)
  : exec CompileError CompileState :=
  let? (l, r) := two_inputs graph node "join inputs" in
  let? left_schema := ok_or (cs_node_schemas st !! l) (CE_Unknown "join left schema") in
  let? (right_schema, right_prov) := node_input st r "join right schema" in
  let? (_, left_prov) := node_input st l "join left schema" in
  let? keys :=
    match on with
    | [] => Err (CE_Unsupported "join without equi-keys")
    | _ => exec_mapM (join_key left_schema left_prov right_schema right_prov) on
    end in
  let '(output_schema, output_prov) :=
    match kind with
    | JK_Inner | JK_Left => (from_pairs (sc_columns left_schema ++ sc_columns right_schema), left_prov ++ right_prov)
    | JK_Semi | JK_Anti => (left_schema, left_prov)
    end in
  Ok (record_node st node output_prov output_schema (NR_Join kind (map fst keys) (map snd keys) (schema_len right_schema))).

Definition compile_distinct (graph : MirGraph) (node : nat) (st : CompileState) : exec CompileError CompileState :=
  let? input_node := single_input graph node in
  let? (input_schema, provenance) := node_input st input_node "distinct input schema" in
  Ok (record_node st node provenance input_schema NR_Distinct).

Definition is_all (q : SetQuantifierKind) : bool := match q with SQ_All => true | SQ_Distinct => false end.

(** Both branches must have the same width; the output is named by the left one. *)
Definition compile_branches (graph : MirGraph) (node : nat) (recipe : NodeRecipe) (st : CompileState)
  : exec CompileError CompileState :=
  let? (l, r) := two_inputs graph node "set operation inputs" in
  let? left_schema := ok_or (cs_node_schemas st !! l) (CE_Unknown "left schema") in
  let? right_schema := ok_or (cs_node_schemas st !! r) (CE_Unknown "right schema") in
  if Nat.eqb (schema_len left_schema) (schema_len right_schema) then
    Ok (record_node st node (replicate (schema_len left_schema) None) left_schema recipe)
  else Err (CE_Unsupported "branches of different widths").

Definition compile_union (graph : MirGraph) (node : nat) (quantifier : SetQuantifierKind) (st : CompileState)
  : exec CompileError CompileState := compile_branches graph node (NR_Union (is_all quantifier)) st.
Definition compile_set_op (graph : MirGraph) (node : nat) (intersect : bool) (quantifier : SetQuantifierKind) (st : CompileState)
  : exec CompileError CompileState := compile_branches graph node (NR_SetOp intersect (is_all quantifier)) st.

(** ** Sort keys *)

Definition compile_key_extractor (entry : text) (schema : ScalarSchema) (provenance : list (option text))
  : exec CompileError ScalarFn :=
  let entry := trim entry in
  let index := or_else (index_of schema entry)
    ('(relation, bare) ← split_qualified entry;
     or_else (position_attributed (sc_columns schema) provenance relation bare) (index_of schema bare)) in
  match index with
  | Some index => Ok (fun row => Ok (row_get row index))
  | None => expression (compile_scalar entry (with_provenance schema provenance))
  end.

Definition combine_key_extractors (extractors : list ScalarFn) (row : Row) : run (list Datum) :=
  exec_mapM (fun extract => extract row) extractors.

Definition compile_topk (graph : MirGraph) (node : nat) (order_by : list OrderKey) (limit offset : Z) (st : CompileState)
  : exec CompileError CompileState :=
  let? input_node := single_input graph node in
  let? (input_schema, provenance) := node_input st input_node "topk input schema" in
  let? extractors := exec_mapM (fun key => compile_key_extractor (ok_expression key) input_schema provenance) order_by in
  Ok (record_node st node provenance input_schema
    (NR_TopK (combine_key_extractors extractors) (map ok_descending order_by) limit offset)).

Definition compile_distinct_on (graph : MirGraph) (node : nat) (on : list text) (order_by : list OrderKey) (st : CompileState)
  : exec CompileError CompileState :=
  let? input_node := single_input graph node in
  let? (input_schema, provenance) := node_input st input_node "distinct-on input schema" in
  let? on_extractors := exec_mapM (fun e => compile_key_extractor e input_schema provenance) on in
  let? sort_extractors := exec_mapM (fun key => compile_key_extractor (ok_expression key) input_schema provenance) order_by in
  Ok (record_node st node provenance input_schema
    (NR_DistinctOn (combine_key_extractors on_extractors) (combine_key_extractors sort_extractors) (map ok_descending order_by))).

(** ** Recursion *)

Definition is_fixpoint (k : option MirNodeKind) : bool := match k with Some (Fixpoint_ _ _) => true | _ => false end.
Definition recursive_ref (k : option MirNodeKind) : option text := match k with Some (RecursiveRef cte) => Some cte | _ => None end.

(** The stack walk; the top of the stack is the head. Every edge is pushed at most
    once, so as many rounds as there are edges, and one, are enough. *)
Fixpoint partition_loop (graph : MirGraph) (start : nat) (fuel : nat) (stack : list nat) (visited top_level nested : list nat)
  : list nat * list nat :=
  match fuel, stack with
  | O, _ | _, [] => (top_level, nested)
  | S fuel, current :: stack =>
      if decide (current ∈ visited) then partition_loop graph start fuel stack visited top_level nested
      else
        let visited := current :: visited in
        if negb (Nat.eqb current start) && is_fixpoint (node_kind graph current)
        then partition_loop graph start fuel stack visited top_level (nested ++ [current])
        else partition_loop graph start fuel (rev (sources graph current) ++ stack) visited (top_level ++ [current]) nested
  end.

Definition fixpoint_step_partition (graph : MirGraph) (start : nat) : list nat * list nat :=
  partition_loop graph start (S (length (pg_edges (Mir.graph graph)))) [start] [] [] [].

(** No nested fixpoint reads the working table [cte]. *)
Fixpoint check_nested (graph : MirGraph) (cte : text) (fuel : nat) (nested : nat) : exec CompileError unit :=
  match fuel with
  | O => Panic
  | S fuel =>
      let '(nodes, deeper) := fixpoint_step_partition graph nested in
      if existsb (fun i => bool_decide (recursive_ref (node_kind graph i) = Some cte)) nodes
      then Err (CE_Unsupported "nested recursive CTE references enclosing recursion")
      else exec_map (fun _ => tt) (exec_mapM (check_nested graph cte fuel) (rev deeper))
  end.

Definition compile_fixpoint (graph : MirGraph) (node : nat) (cte : text) (union_all : bool) (st : CompileState)
  : exec CompileError CompileState :=
  let? (base, step) := two_inputs graph node "fixpoint inputs" in
  let '(top_level, nested_roots) := fixpoint_step_partition graph step in
  if existsb (fun i => match recursive_ref (node_kind graph i) with Some name => negb (bool_decide (name = cte)) | None => false end) top_level
  then Err (CE_Unsupported "recursive CTE referenced outside its fixpoint")
  else
    let? _ := exec_mapM (check_nested graph cte (S (node_count graph))) (rev nested_roots) in
    let? base_schema := ok_or (cs_node_schemas st !! base) (CE_Unknown "fixpoint base schema") in
    Ok (record_node st node (replicate (schema_len base_schema) None) base_schema (NR_Fixpoint cte union_all)).

Definition fixpoint_named (cte : text) (k : MirNodeKind) : bool :=
  match k with Fixpoint_ name _ => bool_decide (name = cte) | _ => false end.

(** [ensure] compiles the base term of the fixpoint on demand. *)
Definition compile_recursive_ref (ensure : nat -> CompileState -> exec CompileError CompileState) (graph : MirGraph) (node : nat)
    (cte : text) (st : CompileState) : exec CompileError CompileState :=
  let? found := ok_or (list_find (fun k => fixpoint_named cte k = true) (node_kinds graph))
    (CE_Unknown "fixpoint for recursive CTE") in
  let? base := ok_or (head (ordered_inputs graph found.1)) (CE_Unknown "fixpoint base") in
  let? st := ensure base st in
  let? schema := ok_or (cs_node_schemas st !! base) (CE_Unknown "recursive CTE schema") in
  Ok (record_node st node (replicate (schema_len schema) (Some cte)) schema (NR_RecursiveRef cte)).

(** ** The walk *)

Definition compile_node (lookup : text -> option (Z * ScalarSchema)) (ensure : nat -> CompileState -> exec CompileError CompileState)
    (graph : MirGraph) (node : nat) (st : CompileState) : exec CompileError CompileState :=
  match node_kind graph node with
  | None => Panic
  | Some kind =>
      match kind with
      | BaseTable table project => compile_base_table lookup node table project st
      | Filter predicate => compile_filter graph node predicate st
      | Project columns => compile_project graph node columns st
      | Aggregate group_by aggs => compile_aggregate graph node group_by aggs st
      | TopK order_by limit offset => compile_topk graph node order_by limit offset st
      | CteRef cte => compile_cte_ref graph node cte st
      | Join kind on => compile_join graph node kind on st
      | Distinct => compile_distinct graph node st
      | DistinctOn on order_by => compile_distinct_on graph node on order_by st
      | Union quantifier => compile_union graph node quantifier st
      | Except quantifier => compile_set_op graph node false quantifier st
      | Intersect quantifier => compile_set_op graph node true quantifier st
      | Fixpoint_ cte union_all => compile_fixpoint graph node cte union_all st
      | RecursiveRef cte => compile_recursive_ref ensure graph node cte st
      | Leaf _ => Err (CE_Unsupported "Leaf")
      end
  end.

(** [for n in nodes { ensure(n)?; }]. *)
Fixpoint ensure_all (ensure : nat -> CompileState -> exec CompileError CompileState) (nodes : list nat) (st : CompileState)
  : exec CompileError CompileState :=
  match nodes with
  | [] => Ok st
  | n :: rest => let? st := ensure n st in ensure_all ensure rest st
  end.

Fixpoint ensure_compiled (lookup : text -> option (Z * ScalarSchema)) (graph : MirGraph) (fuel : nat) (node : nat) (st : CompileState)
  : exec CompileError CompileState :=
  match fuel with
  | O => Panic
  | S fuel =>
      match cs_recipes st !! node with
      | Some _ => Ok st
      | None =>
          let ensure := ensure_compiled lookup graph fuel in
          let? st := ensure_all ensure (sources graph node) st in
          compile_node lookup ensure graph node st
      end
  end.

Record CompiledPlan := {
  cp_graph : MirGraph;
  cp_root : nat;
  cp_inputs : list Z;
  cp_input_schemas : gmap Z ScalarSchema;
  cp_output_schema : ScalarSchema;
  cp_node_schemas : gmap nat ScalarSchema;
  cp_recipes : gmap nat NodeRecipe
}.

Definition empty_state : CompileState :=
  {| cs_node_schemas := ∅; cs_node_provenance := ∅; cs_recipes := ∅; cs_inputs := []; cs_input_schemas := ∅ |}.

(** [acyclic]: [petgraph::algo::toposort] found no cycle. On an acyclic graph whose
    working tables do not occur in their own base terms, no chain of demands visits
    a node twice, so the number of nodes, and one, is fuel enough. *)
Definition compile_mir (acyclic : MirGraph -> bool) (lookup : text -> option (Z * ScalarSchema)) (graph : MirGraph)
  : exec CompileError CompiledPlan :=
  if negb (acyclic graph) then Err CE_Cycle
  else
    let? st := ensure_all (ensure_compiled lookup graph (S (node_count graph))) (seq 0 (node_count graph)) empty_state in
    Ok {| cp_graph := graph; cp_root := root graph; cp_inputs := cs_inputs st; cp_input_schemas := cs_input_schemas st;
          cp_output_schema := default schema_default (cs_node_schemas st !! root graph);
          cp_node_schemas := cs_node_schemas st; cp_recipes := cs_recipes st |}.
End Compile.
