(* ===== verification/Lower.v ===== *)
(** * Lower: from syntax trees to query graphs
    ([crates/palimpsest-sql/src/alias.rs], [lower.rs])

    Aliases of the FROM clauses are resolved first, then a query becomes a graph:
    a body, its FROM clause with joins, the WHERE clause split into EXISTS terms
    and a scalar predicate, grouping, HAVING, projection, duplicate elimination,
    ordering.

    The functions of [lower.rs] that recurse through subqueries take the lowering
    of a query as an argument; [lower_query_with_context] ties the knot with fuel,
    which [lower_query] sets to the depth at which queries nest. *)

From stdpp Require Import gmap.
From S2P Require Import Prelude BTree Text UserContext Exprs Mir CompileMir SqlLimits SqlAst.

(** ** Aliases ([alias.rs]) *)

Abbreviation Scope := (gmap string text).

(** Innermost scope first. *)
Fixpoint lookup_alias (scopes : list Scope) (alias : text) : option text :=
  match scopes with
  | [] => None
  | scope :: outer => match scope !! text_string alias with Some canonical => Some canonical | None => lookup_alias outer alias end
  end.

Definition resolve_object_name (scopes : list Scope) (name : ObjectName) : ObjectName :=
  match name with
  | [part] => match lookup_alias scopes (id_value part) with Some canonical => [Ident_new canonical] | None => name end
  | _ => name
  end.

Definition resolve_compound (scopes : list Scope) (parts : list Ident) : list Ident :=
  match parts with
  | [qualifier; column] =>
      match lookup_alias scopes (id_value qualifier) with Some canonical => [Ident_new canonical; column] | None => parts end
  | _ => parts
  end.

Section Aliases.
Context {E Q B F : Type} (fe : list Scope -> E -> E) (fq : list Scope -> Q -> Q).

Definition resolve_function_arguments (scopes : list Scope) (args : FnArgs E Q) : FnArgs E Q :=
  match args with
  | FnNone => FnNone
  | FnSubquery q => FnSubquery (fq scopes q)
  | FnList distinct args =>
      FnList distinct (map (fun arg =>
        match arg with
        | FnExpr e => FnExpr (fe scopes e)
        | FnQualifiedWildcard name => FnQualifiedWildcard (resolve_object_name scopes name)
        | FnNamed e => FnNamed (fe scopes <$> e)
        | FnWildcard => arg
        end) args)
  end.

Definition resolve_constraint (scopes : list Scope) (c : JoinConstraint E) : JoinConstraint E :=
  match c with JC_On e => JC_On (fe scopes e) | _ => c end.
Definition resolve_operator (scopes : list Scope) (o : JoinOperator E) : JoinOperator E :=
  match o with
  | JO_Inner c => JO_Inner (resolve_constraint scopes c)
  | JO_LeftOuter c => JO_LeftOuter (resolve_constraint scopes c)
  | JO_RightOuter c => JO_RightOuter (resolve_constraint scopes c)
  | JO_FullOuter c => JO_FullOuter (resolve_constraint scopes c)
  | JO_CrossJoin | JO_Other => o
  end.
Definition resolve_item (scopes : list Scope) (i : SelectItem E) : SelectItem E :=
  match i with
  | SI_UnnamedExpr e => SI_UnnamedExpr (fe scopes e)
  | SI_ExprWithAlias e alias => SI_ExprWithAlias (fe scopes e) alias
  | SI_QualifiedWildcard name options => SI_QualifiedWildcard (resolve_object_name scopes name) options
  | SI_Wildcard options => SI_Wildcard options
  end.

(** The first pass over FROM, with [bind_table_factor] on every factor: the factors
    of each item, and the scope. *)
Context (bind : list Scope -> F -> Scope -> F * Scope).

Fixpoint bind_joins (outer : list Scope) (joins : list (JoinOf E F)) (local : Scope) : list F * Scope :=
  match joins with
  | [] => ([], local)
  | j :: rest =>
      let '(relation, local) := bind outer (jn_relation j) local in
      let '(rest, local) := bind_joins outer rest local in (relation :: rest, local)
  end.
Fixpoint bind_from (outer : list Scope) (from : list (TableWithJoins E F)) (local : Scope) : list (F * list F) * Scope :=
  match from with
  | [] => ([], local)
  | item :: rest =>
      let '(relation, local) := bind outer (tj_relation item) local in
      let '(joined, local) := bind_joins outer (tj_joins item) local in
      let '(rest, local) := bind_from outer rest local in ((relation, joined) :: rest, local)
  end.

(** The second pass: the join constraints, with the complete scope. *)
Definition resolve_join (scopes : list Scope) (j : JoinOf E F) (relation : F) : JoinOf E F :=
  {| jn_relation := relation; jn_operator := resolve_operator scopes (jn_operator j) |}.
Definition resolve_from_item (scopes : list Scope) (item : TableWithJoins E F) (bound : F * list F) : TableWithJoins E F :=
  {| tj_relation := bound.1; tj_joins := zip_with (resolve_join scopes) (tj_joins item) bound.2 |}.

(** [resolve_select]; the second component is the scope of its FROM clause. *)
Definition resolve_select (outer : list Scope) (s : SelectOf E F) : SelectOf E F * Scope :=
  let '(from, local) := bind_from outer (sl_from s) ∅ in
  let scopes := local :: outer in
  ({| sl_distinct := (fun d => match d with D_On es => D_On (map (fe scopes) es) | D_Distinct => D_Distinct end) <$> sl_distinct s;
      sl_top := sl_top s;
      sl_projection := map (resolve_item scopes) (sl_projection s);
      sl_into := sl_into s;
      sl_from := zip_with (resolve_from_item scopes) (sl_from s) from;
      sl_selection := fe scopes <$> sl_selection s;
      sl_group_by := match sl_group_by s with GB_Expressions es m => GB_Expressions (map (fe scopes) es) m | GB_All m => GB_All m end;
      sl_having := fe scopes <$> sl_having s;
      sl_nonstandard := sl_nonstandard s |}, local).
End Aliases.

(** [scopes] is innermost first. *)
Fixpoint resolve_expr (scopes : list Scope) (e : SqlExpr) {struct e} : SqlExpr :=
  match e with
  | X_CompoundIdentifier parts => X_CompoundIdentifier (resolve_compound scopes parts)
  | X_Nested e => X_Nested (resolve_expr scopes e)
  | X_UnaryOp op e => X_UnaryOp op (resolve_expr scopes e)
  | X_IsNull e => X_IsNull (resolve_expr scopes e)
  | X_IsNotNull e => X_IsNotNull (resolve_expr scopes e)
  | X_IsTrue e => X_IsTrue (resolve_expr scopes e)
  | X_IsFalse e => X_IsFalse (resolve_expr scopes e)
  | X_Cast kind e t f => X_Cast kind (resolve_expr scopes e) t f
  | X_BinaryOp l op r => X_BinaryOp (resolve_expr scopes l) op (resolve_expr scopes r)
  | X_IsDistinctFrom l r => X_IsDistinctFrom (resolve_expr scopes l) (resolve_expr scopes r)
  | X_IsNotDistinctFrom l r => X_IsNotDistinctFrom (resolve_expr scopes l) (resolve_expr scopes r)
  | X_AnyOp l op r => X_AnyOp (resolve_expr scopes l) op (resolve_expr scopes r)
  | X_Like n a e p c => X_Like n a (resolve_expr scopes e) (resolve_expr scopes p) c
  | X_ILike n a e p c => X_ILike n a (resolve_expr scopes e) (resolve_expr scopes p) c
  | X_Between e n low high => X_Between (resolve_expr scopes e) n (resolve_expr scopes low) (resolve_expr scopes high)
  | X_InList e l n => X_InList (resolve_expr scopes e) (map (resolve_expr scopes) l) n
  | X_InSubquery e q n => X_InSubquery (resolve_expr scopes e) (resolve_query scopes q) n
  | X_Exists q n => X_Exists (resolve_query scopes q) n
  | X_Subquery q => X_Subquery (resolve_query scopes q)
  | X_Case operand conditions results else_result =>
      X_Case (resolve_expr scopes <$> operand) (map (resolve_expr scopes) conditions) (map (resolve_expr scopes) results)
        (resolve_expr scopes <$> else_result)
  | X_Array l named => X_Array (map (resolve_expr scopes) l) named
  | X_Function name args over => X_Function name (resolve_function_arguments resolve_expr resolve_query scopes args) over
  | X_Identifier _ | X_Value _ | X_Interval | X_Other => e
  end
with resolve_query (outer : list Scope) (q : Query) {struct q} : Query :=
  let 'Query_ r := q in
  let '(body, local) := resolve_set_expr outer (q_body r) in
  let scopes := match local with Some local => local :: outer | None => outer end in
  Query_ {| q_with := (fun w => {| with_recursive := with_recursive w;
                                   with_ctes := map (fun c => {| cte_alias := cte_alias c; cte_query := resolve_query [] (cte_query c) |}) (with_ctes w) |})
                      <$> q_with r;
            q_body := body;
            q_order_by := map (fun o => {| ob_expr := resolve_expr scopes (ob_expr o); ob_asc := ob_asc o |}) <$> q_order_by r;
            q_limit := q_limit r; q_limit_by := q_limit_by r; q_offset := q_offset r; q_fetch := q_fetch r |}
with resolve_set_expr (outer : list Scope) (b : SetExpr) {struct b} : SetExpr * option Scope :=
  match b with
  | SE_Select s => let '(s, local) := resolve_select resolve_expr bind_table_factor outer s in (SE_Select s, Some local)
  | SE_Query q => (SE_Query (resolve_query outer q), None)
  | SE_SetOperation op quantifier l r =>
      (SE_SetOperation op quantifier (resolve_set_expr outer l).1 (resolve_set_expr outer r).1, None)
  | SE_Values | SE_Insert | SE_Update | SE_Table => (b, None)
  end
with bind_table_factor (scopes : list Scope) (f : TableFactor) (local : Scope) {struct f} : TableFactor * Scope :=
  match f with
  | TF_Table name (Some alias) args =>
      match name, al_columns alias with
      | [part], [] => (TF_Table name None args, <[text_string (id_value (al_name alias)) := id_value part]> local)
      | _, _ => (f, local)
      end
  | TF_Derived lateral subquery alias => (TF_Derived lateral (resolve_query (if lateral then local :: scopes else []) subquery) alias, local)
  | TF_Table _ None _ | TF_Other => (f, local)
  end.

Definition resolve_from_aliases (q : Query) : Query := resolve_query [] q.

(** ** Expressions as text *)

Section Text.
Context `{SqlSyntax}.

Definition canonical_number (value : text) : text :=
  let value := trim_start_byte x2b value in
  if contains_byte x2e value || contains_byte x65 value || contains_byte x45 value then ascii_lower value
  else
    let '(negative, digits) := match value with x2d :: digits => (true, digits) | _ => (false, value) end in
    let digits := trim_start_byte x30 digits in
    let digits := match digits with [] => [x30] | _ => digits end in
    if negative && negb (bool_decide (digits = [x30])) then x2d :: digits else digits.

Definition canonical_value (v : Value) : text :=
  match v with
  | V_Number n false => canonical_number n
  | V_SingleQuotedString s | V_EscapedStringLiteral s | V_UnicodeStringLiteral s | V_NationalStringLiteral s => quoted s
  | V_Boolean b => bool_text b
  | V_Null => lit "NULL"
  | _ => value_text v
  end.

Fixpoint canonical_expr (e : SqlExpr) : text :=
  match e with
  | X_Value v => canonical_value v
  | X_UnaryOp op e => unary_operator_text op ++ lit " " ++ canonical_expr e
  | X_Nested e => canonical_expr e
  | X_BinaryOp l op r => canonical_expr l ++ lit " " ++ binary_operator_text op ++ lit " " ++ canonical_expr r
  | X_IsDistinctFrom a b => lit "(" ++ canonical_expr a ++ lit " IS DISTINCT FROM " ++ canonical_expr b ++ lit ")"
  | X_IsNotDistinctFrom a b => lit "(" ++ canonical_expr a ++ lit " IS NOT DISTINCT FROM " ++ canonical_expr b ++ lit ")"
  | _ => expr_text e
  end.

Definition operand_sort_key (e : SqlExpr) : text :=
  match e with
  | X_Identifier _ | X_CompoundIdentifier _ => lit "0:" ++ expr_text e
  | _ => lit "1:" ++ canonical_expr e
  end.

(** The stable sort of the two operands by key, then by text. *)
Definition canonical_equality (l r : SqlExpr) : text :=
  let a := (operand_sort_key l, canonical_expr l) in
  let b := (operand_sort_key r, canonical_expr r) in
  let '(first, second) := match cmp a b with Gt => (b, a) | Eq | Lt => (a, b) end in
  first.2 ++ lit " = " ++ second.2.

(** The arms of [canonical_predicate] for what is not a conjunction. *)
Definition canonical_conjunct (e : SqlExpr) : text :=
  match e with
  | X_BinaryOp l BO_Eq r => canonical_equality l r
  | X_BinaryOp l op r => canonical_expr l ++ lit " " ++ binary_operator_text op ++ lit " " ++ canonical_expr r
  | _ => canonical_expr e
  end.

Fixpoint flatten_and (e : SqlExpr) : list text :=
  match e with
  | X_BinaryOp l BO_And r => flatten_and l ++ flatten_and r
  | _ => [canonical_conjunct e]
  end.

Definition canonical_predicate (e : SqlExpr) : text :=
  match e with
  | X_BinaryOp l BO_And r => join (lit " AND ") (slice_sort (flatten_and l ++ flatten_and r))
  | _ => canonical_conjunct e
  end.

(** ** Columns *)

Definition column_ref (e : SqlExpr) : exec SqlError ColumnRef :=
  match e with
  | X_Identifier i => Ok {| colref_relation := None; colref_name := id_value i |}
  | X_CompoundIdentifier [relation; name] => Ok {| colref_relation := Some (id_value relation); colref_name := id_value name |}
  | X_CompoundIdentifier _ => Err (UnsupportedFeature "multi-part column references beyond relation.column")
  | _ => Err (UnsupportedFeature "non-column join keys")
  end.

Definition column_ref_expr (c : ColumnRef) : SqlExpr :=
  match colref_relation c with
  | None => X_Identifier (Ident_new (colref_name c))
  | Some relation => X_CompoundIdentifier [Ident_new relation; Ident_new (colref_name c)]
  end.

Fixpoint equi_join_columns (e : SqlExpr) : exec SqlError (list (ColumnRef * ColumnRef)) :=
  match e with
  | X_BinaryOp l BO_Eq r => let? l := column_ref l in let? r := column_ref r in Ok [(l, r)]
  | X_BinaryOp l BO_And r => let? pairs := equi_join_columns l in let? more := equi_join_columns r in Ok (pairs ++ more)
  | _ => Err (UnsupportedFeature "theta joins")
  end.

Definition join_predicate_columns (e : SqlExpr) (lateral : bool) : exec SqlError (list (ColumnRef * ColumnRef)) :=
  match e, lateral with
  | X_Value (V_Boolean true), true => Ok []
  | _, _ => equi_join_columns e
  end.

Definition group_by_columns (g : GroupByExpr SqlExpr) : exec SqlError (list ColumnRef) :=
  match g with
  | GB_Expressions exprs false => exec_mapM column_ref exprs
  | GB_Expressions _ true => Err (UnsupportedFeature "GROUP BY modifiers")
  | GB_All _ => Err (UnsupportedFeature "GROUP BY ALL")
  end.

Definition has_group_by_modifiers (g : GroupByExpr SqlExpr) : bool :=
  match g with GB_Expressions _ modifiers | GB_All modifiers => modifiers end.

(** ** Aggregates *)

Definition function_arg (a : FnArg SqlExpr) : exec SqlError text :=
  match a with
  | FnNamed _ => Err (UnsupportedFeature "named aggregate arguments")
  | FnExpr e => Ok (expr_text e)
  | FnQualifiedWildcard name => Ok (object_name_text name ++ lit ".*")
  | FnWildcard => Ok (lit "*")
  end.
Definition function_args (args : FnArgs SqlExpr Query) : exec SqlError (list text) :=
  match args with
  | FnNone => Ok []
  | FnSubquery _ => Err (UnsupportedFeature "subqueries in aggregate arguments")
  | FnList _ args => exec_mapM function_arg args
  end.

Definition aggregate_names : list text := [lit "count"; lit "sum"; lit "min"; lit "max"; lit "avg"].

Definition aggregate_expr (fn : ObjectName) (args : FnArgs SqlExpr Query) (alias : option text) : exec SqlError (option AggExpr) :=
  let name := ascii_lower (object_name_text fn) in
  if negb (bool_decide (name ∈ aggregate_names)) then Ok None
  else
    let? texts := function_args args in
    let texts := match args with FnList true _ => lit "DISTINCT" :: texts | _ => texts end in
    Ok (Some {| ag_function := name; ag_args := texts; ag_alias := alias |}).

Definition item_aggregate (i : SelectItem SqlExpr) : exec SqlError (option AggExpr) :=
  match i with
  | SI_UnnamedExpr (X_Function fn args _) => aggregate_expr fn args None
  | SI_ExprWithAlias (X_Function fn args _) alias => aggregate_expr fn args (Some (id_value alias))
  | _ => Ok None
  end.
Fixpoint aggregate_exprs (projection : list (SelectItem SqlExpr)) : exec SqlError (list AggExpr) :=
  match projection with
  | [] => Ok []
  | i :: rest => let? agg := item_aggregate i in let? aggs := aggregate_exprs rest in Ok (option_list agg ++ aggs)
  end.

Definition select_item_name (i : SelectItem SqlExpr) : text :=
  match i with
  | SI_UnnamedExpr e => expr_text e
  | SI_ExprWithAlias e alias => expr_text e ++ lit " AS " ++ ident_text alias
  | SI_QualifiedWildcard name _ => object_name_text name ++ lit ".*"
  | SI_Wildcard _ => lit "*"
  end.

(** ** HAVING *)

(** The aggregates so far, and the number of hidden ones. *)
Abbreviation having_state := (list AggExpr * nat)%type.

Definition same_aggregate (a b : AggExpr) : bool :=
  bool_decide (ag_function a = ag_function b) && bool_decide (ag_args a = ag_args b) && bool_decide (is_Some (ag_alias a)).

Definition having_alias (agg : AggExpr) (st : having_state) : text * having_state :=
  match List.find (fun candidate => same_aggregate candidate agg) st.1 with
  | Some {| ag_alias := Some alias |} => (alias, st)
  | _ =>
      let alias := lit "__having_" ++ dec_len (S st.2) in
      (alias, (st.1 ++ [{| ag_function := ag_function agg; ag_args := ag_args agg; ag_alias := Some alias |}], S st.2))
  end.

Fixpoint rewrite_having (e : SqlExpr) (st : having_state) : exec SqlError (SqlExpr * having_state) :=
  match e with
  | X_Function fn args _ =>
      let? agg := aggregate_expr fn args None in
      match agg with
      | None => Ok (e, st)
      | Some agg => let '(alias, st) := having_alias agg st in Ok (X_Identifier (Ident_new alias), st)
      end
  | X_BinaryOp l op r => let? (l, st) := rewrite_having l st in let? (r, st) := rewrite_having r st in Ok (X_BinaryOp l op r, st)
  | X_UnaryOp op e => let? (e, st) := rewrite_having e st in Ok (X_UnaryOp op e, st)
  | X_Nested e => let? (e, st) := rewrite_having e st in Ok (X_Nested e, st)
  | X_IsNull e => let? (e, st) := rewrite_having e st in Ok (X_IsNull e, st)
  | X_IsNotNull e => let? (e, st) := rewrite_having e st in Ok (X_IsNotNull e, st)
  | X_IsTrue e => let? (e, st) := rewrite_having e st in Ok (X_IsTrue e, st)
  | X_IsFalse e => let? (e, st) := rewrite_having e st in Ok (X_IsFalse e, st)
  | X_Between e n low high =>
      let? (e, st) := rewrite_having e st in let? (low, st) := rewrite_having low st in let? (high, st) := rewrite_having high st in
      Ok (X_Between e n low high, st)
  | X_InList e l n =>
      let? (e, st) := rewrite_having e st in
      let? (l, st) :=
        (fix elements (l : list SqlExpr) (st : having_state) : exec SqlError (list SqlExpr * having_state) :=
          match l with
          | [] => Ok ([], st)
          | x :: rest => let? (x, st) := rewrite_having x st in let? (rest, st) := elements rest st in Ok (x :: rest, st)
          end) l st in
      Ok (X_InList e l n, st)
  | _ => Ok (e, st)
  end.

Definition rewrite_having_aggregates (e : SqlExpr) (aggs : list AggExpr) : exec SqlError (SqlExpr * list AggExpr) :=
  let? (e, st) := rewrite_having e (aggs, 0%nat) in Ok (e, st.1).

(** ** EXISTS terms and correlated predicates *)

Definition contains_exists (e : SqlExpr) : bool :=
  existsb (fun e => match e with X_Exists _ _ => true | _ => false end) (exprs_in (expr_nodes e)).

Record ExistsTerm := { et_subquery : Query; et_negated : bool }.

(** [rest.into_iter().reduce(AND)]. *)
Definition reduce_and (l : list SqlExpr) : option SqlExpr :=
  match l with
  | [] => None
  | e :: rest => Some (fold_left (fun l r => X_BinaryOp l BO_And r) rest e)
  end.

Fixpoint collect_exists (e : SqlExpr) : list ExistsTerm * list SqlExpr :=
  match e with
  | X_BinaryOp l BO_And r =>
      let '(terms, rest) := collect_exists l in let '(terms', rest') := collect_exists r in (terms ++ terms', rest ++ rest')
  | X_Exists q negated | X_Nested (X_Exists q negated) => ([{| et_subquery := q; et_negated := negated |}], [])
  | X_UnaryOp UO_Not (X_Exists q negated) | X_UnaryOp UO_Not (X_Nested (X_Exists q negated)) =>
      ([{| et_subquery := q; et_negated := negb negated |}], [])
  | _ => ([], [e])
  end.
Definition split_exists_terms (e : SqlExpr) : list ExistsTerm * option SqlExpr :=
  let '(terms, rest) := collect_exists e in (terms, reduce_and rest).

Definition factor_name (f : TableFactor) : option text :=
  match f with
  | TF_Table _ (Some alias) _ => Some (id_value (al_name alias))
  | TF_Table name None _ => Some (match last name with Some part => id_value part | None => object_name_text name end)
  | TF_Derived _ _ (Some alias) => Some (id_value (al_name alias))
  | TF_Derived _ _ None | TF_Other => None
  end.
Definition relation_names (s : Select) : list text :=
  flat_map (fun item => option_list (factor_name (tj_relation item)) ++
                        flat_map (fun j => option_list (factor_name (jn_relation j))) (tj_joins item)) (sl_from s).

Definition is_inner (inner_names : list text) (c : ColumnRef) : bool :=
  match colref_relation c with None => true | Some relation => bool_decide (relation ∈ inner_names) end.

Definition correlated_pair (inner_names : list text) (l r : SqlExpr) : option (ColumnRef * ColumnRef) :=
  match column_ref l, column_ref r with
  | Ok l, Ok r =>
      match is_inner inner_names l, is_inner inner_names r with
      | false, true => Some (l, r)
      | true, false => Some (r, l)
      | _, _ => None
      end
  | _, _ => None
  end.

Fixpoint collect_correlated (inner_names : list text) (e : SqlExpr) : list (ColumnRef * ColumnRef) * list SqlExpr :=
  match e with
  | X_BinaryOp l BO_And r =>
      let '(pairs, rest) := collect_correlated inner_names l in
      let '(pairs', rest') := collect_correlated inner_names r in (pairs ++ pairs', rest ++ rest')
  | X_BinaryOp l BO_Eq r => match correlated_pair inner_names l r with Some keys => ([keys], []) | None => ([], [e]) end
  | _ => ([], [e])
  end.
Definition split_correlated_predicates (selection : option SqlExpr) (inner_names : list text)
  : list (ColumnRef * ColumnRef) * option SqlExpr :=
  match selection with
  | Some e => let '(pairs, rest) := collect_correlated inner_names e in (pairs, reduce_and rest)
  | None => ([], None)
  end.

Definition literal_usize (e : SqlExpr) : exec SqlError Z :=
  match e with
  | X_Value (V_Number value false) => ok_or (parse_int 0 USIZE_MAX value) (UnsupportedFeature "non-integer LIMIT/OFFSET")
  | _ => Err (UnsupportedFeature "non-literal LIMIT/OFFSET")
  end.

Definition lower_set_quantifier (q : SetQuantifier) : exec SqlError SetQuantifierKind :=
  match q with
  | SQ_QAll => Ok SQ_All
  | SQ_None | SQ_QDistinct => Ok SQ_Distinct
  | SQ_ByName | SQ_AllByName | SQ_DistinctByName => Err (UnsupportedFeature "set operations BY NAME")
  end.

Definition reject_select_features_not_lowered (s : Select) : exec SqlError unit :=
  if has_group_by_modifiers (sl_group_by s) then Err (UnsupportedFeature "GROUP BY modifiers")
  else if sl_top s then Err (UnsupportedFeature "TOP")
  else if sl_into s then Err (UnsupportedFeature "SELECT INTO")
  else if sl_nonstandard s then Err (UnsupportedFeature "non-standard SELECT clauses")
  else Ok tt.

(** [parser.rs]: references to a relation, by its last part. *)
Definition count_relation_references (nodes : list Node) (name : text) : nat :=
  length (List.filter (fun r => match last r with Some part => bool_decide (id_value part = name) | None => false end) (relations_in nodes)).
End Text.

(** ** Graphs *)

Section Lower.
Context `{SqlSyntax} `{EvalRuntime} `{PetGraph MirNodeKind MirEdgeKind}.

Definition push_unary (g : MirGraph) (kind : MirNodeKind) : MirGraph :=
  let previous := root g in
  let '(next, g) := mir_add_node g kind in set_root (add_input g previous next) next.

(** [append_graph], a node above both roots, and the new root. *)
Definition push_binary (g other : MirGraph) (kind : MirNodeKind) : exec SqlError MirGraph :=
  let left_root := root g in
  let? (right_root, g) := append_graph g other in
  let '(node, g) := mir_add_node g kind in
  Ok (set_root (add_input (add_input g left_root node) right_root node) node).

Definition visible_name (entry : text) : option text :=
  or_else (snd <$> split_alias entry) (or_else (if is_bare_ident entry then Some entry else None) (snd <$> split_qualified entry)).

(** The projection below the root that ORDER BY may extend. *)
Definition order_projection (g : MirGraph) : option (nat * list text) :=
  let project i := match node_kind g i with Some (Project columns) => Some (i, columns) | _ => None end in
  match node_kind g (root g) with
  | Some (Project columns) => Some (root g, columns)
  | Some (DistinctOn _ _) => input ← head (ordered_inputs g (root g)); project input
  | _ => None
  end.

Fixpoint missing_keys (columns : list text) (provided : list (option text)) (order_by : list OrderKey) (missing : list text) : list text :=
  match order_by with
  | [] => missing
  | key :: rest =>
      let present := bool_decide (ok_expression key ∈ columns) || bool_decide (Some (ok_expression key) ∈ provided) in
      missing_keys columns provided rest
        (if negb present && negb (bool_decide (ok_expression key ∈ missing)) then missing ++ [ok_expression key] else missing)
  end.

(** [extend_projection_with_order_keys]; the visible columns when some were hidden. *)
Definition extend_projection_with_order_keys (g : MirGraph) (order_by : list OrderKey) : option (list text) * MirGraph :=
  match order_projection g with
  | None => (None, g)
  | Some (node, columns) =>
      let provided := map visible_name columns in
      match missing_keys columns provided order_by [] with
      | [] => (None, g)
      | missing =>
          match mapM id provided with
          | None => (None, g)
          | Some visible => (Some visible, set_node_kind g node (Project (columns ++ missing)))
          end
      end
  end.

(** The order keys of a DISTINCT ON at the root. *)
Definition fill_distinct_on (g : MirGraph) (order_by : list OrderKey) : exec SqlError MirGraph :=
  match node_kind g (root g) with
  | Some (DistinctOn on _) =>
      if forallb (fun key => bool_decide (ok_expression key ∈ on)) (take (length on) order_by)
      then Ok (set_node_kind g (root g) (DistinctOn on order_by))
      else Err (InvalidQuery (lit "SELECT DISTINCT ON expressions must match initial ORDER BY expressions"))
  | _ => Ok g
  end.

Definition optional_usize (e : option SqlExpr) (otherwise : Z) : exec SqlError Z :=
  match e with Some e => literal_usize e | None => Ok otherwise end.

Definition apply_order_limit (g : MirGraph) (q : Query) : exec SqlError MirGraph :=
  let 'Query_ q := q in
  match q_order_by q with
  | None => Ok g
  | Some exprs =>
      let? limit := optional_usize (q_limit q) USIZE_MAX in
      let? offset := optional_usize (q_offset q) 0 in
      let order_by := map (fun o => {| ok_expression := expr_text (ob_expr o); ok_descending := bool_decide (ob_asc o = Some false) |}) exprs in
      let '(visible, g) := extend_projection_with_order_keys g order_by in
      let? g := fill_distinct_on g order_by in
      let g := push_unary g (TopK order_by limit offset) in
      Ok (match visible with Some columns => push_unary g (Project columns) | None => g end)
  end.

Record LowerContext := { lc_ctes : gmap string MirGraph; lc_recursive : gset string }.
Definition LowerContext_default : LowerContext := {| lc_ctes := ∅; lc_recursive := ∅ |}.

(** *** The functions that reach subqueries, over [lower_query_with_context] *)

Section Open.
Context (rec : Query -> LowerContext -> exec SqlError MirGraph).

Definition lower_table_factor (f : TableFactor) (context : LowerContext) : exec SqlError MirGraph :=
  match f with
  | TF_Table name _ _ =>
      let name := object_name_text name in
      if bool_decide (text_string name ∈ lc_recursive context) then Ok (mir_new (RecursiveRef name))
      else
        match lc_ctes context !! text_string name with
        | Some cte =>
            let? (cte_root, g) := append_graph (mir_new (CteRef name)) cte in
            Ok (add_cte_expansion g cte_root (root g))
        | None => Ok (mir_new (BaseTable name []))
        end
  | TF_Derived _ subquery _ => rec subquery context
  | TF_Other => Err (UnsupportedFeature "table functions or special table factors")
  end.

(** Whether an item is the plain column [column_ref_expr] makes. *)
Definition projects_column (c : ColumnRef) (i : SelectItem SqlExpr) : bool :=
  match i, colref_relation c with
  | SI_UnnamedExpr (X_Identifier j), None => bool_decide (j = Ident_new (colref_name c))
  | SI_UnnamedExpr (X_CompoundIdentifier parts), Some relation => bool_decide (parts = [Ident_new relation; Ident_new (colref_name c)])
  | _, _ => false
  end.

(** The inner correlation columns are appended to the projection when missing. *)
Definition project_inner (columns : list ColumnRef) (projection : list (SelectItem SqlExpr)) : list (SelectItem SqlExpr) :=
  fold_left (fun projection inner =>
    if existsb (projects_column inner) projection then projection else projection ++ [SI_UnnamedExpr (column_ref_expr inner)])
    columns projection.

Definition lower_lateral_subquery (q : Query) (context : LowerContext) : exec SqlError (MirGraph * list (ColumnRef * ColumnRef)) :=
  let 'Query_ r := q in
  if bool_decide (is_Some (q_with r)) then Err (UnsupportedFeature "WITH inside LATERAL subqueries")
  else if bool_decide (is_Some (q_limit r)) || bool_decide (is_Some (q_offset r))
  then Err (UnsupportedFeature "LIMIT/OFFSET inside LATERAL subqueries")
  else
    match q_body r with
    | SE_Select s =>
        let '(pairs, remaining) := split_correlated_predicates (sl_selection s) (relation_names s) in
        let s := {| sl_distinct := sl_distinct s; sl_top := sl_top s; sl_projection := project_inner (map snd pairs) (sl_projection s);
                    sl_into := sl_into s; sl_from := sl_from s; sl_selection := remaining; sl_group_by := sl_group_by s;
                    sl_having := sl_having s; sl_nonstandard := sl_nonstandard s |} in
        let? g := rec (Query_ {| q_with := q_with r; q_body := SE_Select s; q_order_by := q_order_by r; q_limit := q_limit r;
                                 q_limit_by := q_limit_by r; q_offset := q_offset r; q_fetch := q_fetch r |}) context in
        Ok (g, pairs)
    | _ => Err (UnsupportedFeature "set operations inside LATERAL subqueries")
    end.

(** The match of [lower_join] on the operator. *)
Definition join_keys (o : JoinOperator SqlExpr) (lateral : bool) (correlation : list (ColumnRef * ColumnRef))
  : exec SqlError (JoinKind * list (ColumnRef * ColumnRef)) :=
  match o with
  | JO_Inner (JC_On predicate) => let? on := join_predicate_columns predicate lateral in Ok (JK_Inner, on)
  | JO_LeftOuter (JC_On predicate) => let? on := join_predicate_columns predicate lateral in Ok (JK_Left, on)
  | JO_Inner _ | JO_LeftOuter _ => Err (UnsupportedFeature "MIR lowering for non-ON joins")
  | JO_CrossJoin =>
      if lateral && negb (bool_decide (correlation = [])) then Ok (JK_Inner, [])
      else Err (UnsupportedFeature "MIR lowering for cross joins")
  | JO_RightOuter _ | JO_FullOuter _ | JO_Other => Err (UnsupportedFeature "non-standard joins")
  end.

Definition lower_join (g : MirGraph) (j : Join_) (context : LowerContext) : exec SqlError MirGraph :=
  let lateral := match jn_relation j with TF_Derived true _ _ => true | _ => false end in
  let? (right_graph, correlation) :=
    match jn_relation j with
    | TF_Derived true subquery _ => lower_lateral_subquery subquery context
    | relation => let? g := lower_table_factor relation context in Ok (g, [])
    end in
  let left_root := root g in
  let? (right_root, g) := append_graph g right_graph in
  let? (kind, on) := join_keys (jn_operator j) lateral correlation in
  let on := on ++ correlation in
  if bool_decide (on = []) then Err (UnsupportedFeature "LATERAL join without correlation or equi-join keys")
  else
    let '(node, g) := mir_add_node g (Join kind on) in
    Ok (set_root (add_input (add_input g left_root node) right_root node) node).

Fixpoint lower_joins (g : MirGraph) (joins : list Join_) (context : LowerContext) : exec SqlError MirGraph :=
  match joins with
  | [] => Ok g
  | j :: rest => let? g := lower_join g j context in lower_joins g rest context
  end.

Definition lower_table_with_joins (source : FromItem) (context : LowerContext) : exec SqlError MirGraph :=
  let? g := lower_table_factor (tj_relation source) context in lower_joins g (tj_joins source) context.

Definition lower_from (s : Select) (context : LowerContext) : exec SqlError MirGraph :=
  match sl_from s with
  | [source] => lower_table_with_joins source context
  | _ => Err (UnsupportedFeature "MIR lowering for zero or multiple FROM items")
  end.

Definition lower_exists_subquery (q : Query) (context : LowerContext) : exec SqlError (MirGraph * list (ColumnRef * ColumnRef)) :=
  let 'Query_ r := q in
  if bool_decide (is_Some (q_with r)) then Err (UnsupportedFeature "WITH inside EXISTS subqueries")
  else if bool_decide (is_Some (q_limit r)) || bool_decide (is_Some (q_offset r))
  then Err (UnsupportedFeature "LIMIT/OFFSET inside EXISTS subqueries")
  else
    match q_body r with
    | SE_Select s =>
        let plain_group := match sl_group_by s with GB_Expressions [] false => true | _ => false end in
        if negb plain_group then Err (UnsupportedFeature "GROUP BY inside EXISTS subqueries")
        else if bool_decide (is_Some (sl_having s)) then Err (UnsupportedFeature "HAVING inside EXISTS subqueries")
        else
          let '(pairs, remaining) := split_correlated_predicates (sl_selection s) (relation_names s) in
          if bool_decide (pairs = []) then Err (UnsupportedFeature "uncorrelated EXISTS subqueries")
          else
            let? g := lower_from s context in
            match remaining with
            | None => Ok (g, pairs)
            | Some predicate =>
                if contains_exists predicate then Err (UnsupportedFeature "EXISTS nested inside EXISTS subqueries")
                else Ok (push_unary g (Filter (canonical_predicate predicate)), pairs)
            end
    | _ => Err (UnsupportedFeature "set operations inside EXISTS subqueries")
    end.

(** The loop over the EXISTS terms. *)
Fixpoint lower_exists_terms (g : MirGraph) (terms : list ExistsTerm) (context : LowerContext) : exec SqlError MirGraph :=
  match terms with
  | [] => Ok g
  | term :: rest =>
      let? (subgraph, on) := lower_exists_subquery (et_subquery term) context in
      let? g := push_binary g subgraph (Join (if et_negated term then JK_Anti else JK_Semi) on) in
      lower_exists_terms g rest context
  end.

(** The WHERE clause. *)
Definition lower_where (g : MirGraph) (selection : option SqlExpr) (context : LowerContext) : exec SqlError MirGraph :=
  match selection with
  | None => Ok g
  | Some selection =>
      let '(terms, scalar) := split_exists_terms selection in
      let? g :=
        match scalar with
        | None => Ok g
        | Some scalar =>
            if contains_exists scalar then Err (UnsupportedFeature "EXISTS outside top-level AND conjuncts")
            else Ok (push_unary g (Filter (canonical_predicate scalar)))
        end in
      lower_exists_terms g terms context
  end.

(** Grouping, aggregates and HAVING. *)
Definition lower_grouping (g : MirGraph) (s : Select) : exec SqlError MirGraph :=
  let? group_by := group_by_columns (sl_group_by s) in
  let? aggs := aggregate_exprs (sl_projection s) in
  let? (having_predicate, aggs) :=
    match sl_having s with
    | None => Ok (None, aggs)
    | Some having =>
        if contains_exists having then Err (UnsupportedFeature "EXISTS inside HAVING")
        else let? (rewritten, aggs) := rewrite_having_aggregates having aggs in Ok (Some (canonical_predicate rewritten), aggs)
    end in
  let? g :=
    if negb (bool_decide (group_by = [])) || negb (bool_decide (aggs = [])) then Ok (push_unary g (Aggregate group_by aggs))
    else if bool_decide (is_Some having_predicate) then Err (UnsupportedFeature "HAVING without aggregates or GROUP BY")
    else Ok g in
  Ok (match having_predicate with Some predicate => push_unary g (Filter predicate) | None => g end).

Definition lower_distinct (g : MirGraph) (d : option (DistinctOf SqlExpr)) : MirGraph :=
  match d with
  | Some D_Distinct => push_unary g Distinct
  | Some (D_On exprs) => push_unary g (DistinctOn (map expr_text exprs) [])
  | None => g
  end.

Definition lower_select_body (s : Select) (context : LowerContext) : exec SqlError MirGraph :=
  let? _ := reject_select_features_not_lowered s in
  let? g := lower_from s context in
  let? g := lower_where g (sl_selection s) context in
  let? g := lower_grouping g s in
  Ok (lower_distinct (push_unary g (Project (map select_item_name (sl_projection s)))) (sl_distinct s)).

Definition set_operation_kind (op : SetOperator) (quantifier : SetQuantifierKind) : MirNodeKind :=
  match op with SO_Union => Union quantifier | SO_Except => Except quantifier | SO_Intersect => Intersect quantifier end.

Fixpoint lower_set_expr (b : SetExpr) (context : LowerContext) : exec SqlError MirGraph :=
  match b with
  | SE_Select s => lower_select_body s context
  | SE_SetOperation op quantifier l r =>
      let? quantifier := lower_set_quantifier quantifier in
      let? g := lower_set_expr l context in
      let? other := lower_set_expr r context in
      push_binary g other (set_operation_kind op quantifier)
  | SE_Query q => rec q context
  | SE_Values => Err (UnsupportedFeature "VALUES queries")
  | SE_Insert => Err (UnsupportedFeature "INSERT in query body")
  | SE_Update => Err (UnsupportedFeature "UPDATE in query body")
  | SE_Table => Err (UnsupportedFeature "TABLE queries")
  end.

Definition recursive_shape (name : text) : SqlError :=
  InvalidQuery (lit "recursive CTE " ++ name ++ lit " must have the form 'base term UNION [ALL] recursive term'").

Definition lower_recursive_cte (c : Cte Query) (context : LowerContext) : exec SqlError MirGraph :=
  let name := id_value (al_name (cte_alias c)) in
  match q_body (query_ (cte_query c)) with
  | SE_SetOperation SO_Union quantifier l r =>
      let? quantifier := lower_set_quantifier quantifier in
      let? g := lower_set_expr l context in
      let? step := lower_set_expr r {| lc_ctes := lc_ctes context; lc_recursive := {[text_string name]} ∪ lc_recursive context |} in
      let? g := push_binary g step (Fixpoint_ name match quantifier with SQ_All => true | SQ_Distinct => false end) in
      apply_order_limit g (cte_query c)
  | _ => Err (recursive_shape name)
  end.
End Open.

Fixpoint lower_query_with_context (fuel : nat) (q : Query) (context : LowerContext) : exec SqlError MirGraph :=
  match fuel with
  | O => Panic
  | S fuel => let? g := lower_set_expr (lower_query_with_context fuel) (q_body (query_ q)) context in apply_order_limit g q
  end.

(** The loop over the CTEs of a query. *)
Fixpoint lower_ctes (fuel : nat) (recursive : bool) (ctes : list (Cte Query)) (context : LowerContext) : exec SqlError LowerContext :=
  match ctes with
  | [] => Ok context
  | c :: rest =>
      let name := id_value (al_name (cte_alias c)) in
      let? g :=
        if recursive && (0 <? count_relation_references (query_nodes (cte_query c)) name)%nat
        then lower_recursive_cte (lower_query_with_context fuel) c context
        else lower_query_with_context fuel (cte_query c) context in
      lower_ctes fuel recursive rest {| lc_ctes := <[text_string name := g]> (lc_ctes context); lc_recursive := lc_recursive context |}
  end.

Definition lower_query (q : Query) : exec SqlError MirGraph :=
  let fuel := query_depth q in
  let? context :=
    match q_with (query_ q) with
    | Some w => lower_ctes fuel (with_recursive w) (with_ctes w) LowerContext_default
    | None => Ok LowerContext_default
    end in
  lower_query_with_context fuel q context.

Definition lower_select_statement (s : Statement) : exec SqlError MirGraph :=
  match s with
  | S_Query q => lower_query (resolve_from_aliases q)
  | S_Other => Err UnsupportedStatement
  end.
End Lower.
