(* ===== verification/LowerFacts.v ===== *)
(** * LowerFacts: what lowering builds

    A lowered graph is a tree, laid out in the node and edge lists in the order its
    parts were lowered, and its base tables are the relations the query reads. The text
    of a WHERE clause does not depend on the order and grouping of its conjuncts, and
    the pass of [alias.rs] keeps the relations a query names and those it reads. *)

From stdpp Require Import gmap.
From S2P Require Import Prelude BTree Text UserContext SqlLimits Exprs SqlAst Mir CompileMir Lower.

(** ** Plans *)

Inductive plan :=
| PLeaf (k : MirNodeKind)
| PUnary (k : MirNodeKind) (p : plan)
| PBinary (k : MirNodeKind) (l r : plan)
| PCte (k : MirNodeKind) (p : plan).

Definition leaf_kind (k : MirNodeKind) : bool := match k with BaseTable _ _ | RecursiveRef _ => true | _ => false end.
Definition unary_kind (k : MirNodeKind) : bool :=
  match k with Filter _ | Project _ | Aggregate _ _ | Distinct | DistinctOn _ _ | TopK _ _ _ => true | _ => false end.
Definition binary_kind (k : MirNodeKind) : bool :=
  match k with Join _ _ | Union _ | Except _ | Intersect _ | Fixpoint_ _ _ => true | _ => false end.
Definition cte_kind (k : MirNodeKind) : bool := match k with CteRef _ => true | _ => false end.

(** Every node has the inputs its kind asks for. *)
Fixpoint plan_ok (p : plan) : bool :=
  match p with
  | PLeaf k => leaf_kind k
  | PUnary k p => unary_kind k && plan_ok p
  | PBinary k l r => binary_kind k && plan_ok l && plan_ok r
  | PCte k p => cte_kind k && plan_ok p
  end.

Fixpoint p_nodes (p : plan) : list MirNodeKind :=
  match p with
  | PLeaf k => [k]
  | PUnary k p => p_nodes p ++ [k]
  | PBinary k l r => p_nodes l ++ p_nodes r ++ [k]
  | PCte k p => k :: p_nodes p
  end.
Definition p_size (p : plan) : nat := length (p_nodes p).

Definition p_root (p : plan) : nat :=
  match p with
  | PLeaf _ | PCte _ _ => 0%nat
  | PUnary _ p => p_size p
  | PBinary _ l r => (p_size l + p_size r)%nat
  end.

Fixpoint p_edges (p : plan) : list (edge MirEdgeKind) :=
  match p with
  | PLeaf _ => []
  | PUnary _ p => p_edges p ++ [(p_root p, p_size p, Input 0)]
  | PBinary _ l r =>
      (p_edges l ++ map (shift_edge (p_size l)) (p_edges r)) ++
      [(p_root l, (p_size l + p_size r)%nat, Input 0)] ++ [((p_size l + p_root r)%nat, (p_size l + p_size r)%nat, Input 1)]
  | PCte _ p => map (shift_edge 1) (p_edges p) ++ [((1 + p_root p)%nat, 0%nat, CteExpansion)]
  end.

Definition table_of (k : MirNodeKind) : option text := match k with BaseTable name _ => Some name | _ => None end.

(** An occurrence of a table or a name, with whether its rows can reach the output: the rows
    behind the right input of an anti-join only exclude others. *)
Abbreviation occurrence A := (A * bool)%type.
Definition hide {A} (l : list (occurrence A)) : list (occurrence A) := map (fun o => (o.1, false)) l.
Definition hide_if {A} (b : bool) (l : list (occurrence A)) : list (occurrence A) := if b then hide l else l.

Definition anti_kind (k : MirNodeKind) : bool := match k with Join JK_Anti _ => true | _ => false end.
Fixpoint p_tables (p : plan) : list (occurrence text) :=
  match p with
  | PLeaf k => match table_of k with Some name => [(name, true)] | None => [] end
  | PUnary _ p | PCte _ p => p_tables p
  | PBinary k l r => p_tables l ++ hide_if (anti_kind k) (p_tables r)
  end.

Lemma hide_fst {A} (l : list (occurrence A)) : map fst (hide l) = map fst l.
Proof. unfold hide. by rewrite map_map. Qed.
Lemma hide_app {A} (l l' : list (occurrence A)) : hide (l ++ l') = hide l ++ hide l'.
Proof. apply map_app. Qed.
Lemma hide_hide {A} (l : list (occurrence A)) : hide (hide l) = hide l.
Proof. unfold hide. by rewrite map_map. Qed.
Lemma hide_if_fst {A} b (l : list (occurrence A)) : map fst (hide_if b l) = map fst l.
Proof. destruct b; [apply hide_fst | done]. Qed.

Lemma p_tables_nodes p : plan_ok p = true -> filter_map table_of (p_nodes p) = map fst (p_tables p).
Proof.
  induction p as [k|k p IH|k l IHl r IHr|k p IH]; simpl; intros Hok.
  - by destruct k.
  - apply andb_true_iff in Hok as [Hk Hok]. rewrite filter_map_app, IH by done. destruct k; simpl in *; by rewrite ?app_nil_r.
  - apply andb_true_iff in Hok as [[Hk Hl]%andb_true_iff Hr]. rewrite !filter_map_app, IHl, IHr, map_app, hide_if_fst by done.
    destruct k; simpl in *; by rewrite ?app_nil_r.
  - apply andb_true_iff in Hok as [Hk Hok]. rewrite IH by done. by destruct k.
Qed.

Lemma p_size_pos p : (0 < p_size p)%nat.
Proof. destruct p; unfold p_size; simpl; rewrite ?length_app; simpl; lia. Qed.

Lemma p_root_lt p : (p_root p < p_size p)%nat.
Proof.
  destruct p as [k|k p|k l r|k p]; unfold p_size; simpl; rewrite ?length_app; simpl; fold p_size; unfold p_size; lia.
Qed.

Lemma p_edges_bound p e : e ∈ p_edges p -> (source e < p_size p)%nat /\ (target e < p_size p)%nat.
Proof.
  revert e. induction p as [k|k p IH|k l IHl r IHr|k p IH]; intros e; simpl.
  - by intros ?%elem_of_nil.
  - assert (p_size (PUnary k p) = S (p_size p)) as Hs by (unfold p_size; simpl; rewrite length_app; simpl; lia). rewrite Hs.
    rewrite elem_of_app, list_elem_of_singleton. intros [Hin%IH| ->]; [lia|]. pose proof (p_root_lt p). simpl. lia.
  - assert (p_size (PBinary k l r) = S (p_size l + p_size r)) as Hs by (unfold p_size; simpl; rewrite !length_app; simpl; lia). rewrite Hs.
    pose proof (p_root_lt l). pose proof (p_root_lt r).
    rewrite !elem_of_app, !elem_of_cons, elem_of_nil, list_elem_of_fmap.
    intros [[Hin%IHl|(e' & -> & Hin%IHr)]|[->|[->|[]]]]; simpl; lia.
  - assert (p_size (PCte k p) = S (p_size p)) as Hs by done. rewrite Hs. pose proof (p_root_lt p).
    rewrite elem_of_app, list_elem_of_singleton, list_elem_of_fmap. intros [(e' & -> & Hin%IH)| ->]; simpl; lia.
Qed.

(** ** Graphs that lay out a plan *)

Section Layout.
Context `{PetGraph MirNodeKind MirEdgeKind}.

Record laid_out (m : MirGraph) (p : plan) : Prop := {
  lo_wf : graph_wf m;
  lo_nodes : pg_nodes (graph m) = p_nodes p;
  lo_edges : pg_edges (graph m) = p_edges p;
  lo_root : root m = p_root p;
  lo_ok : plan_ok p = true
}.

Lemma laid_out_count m p : laid_out m p -> node_count m = p_size p.
Proof. intros Hl. unfold node_count. by rewrite (lo_nodes m p Hl). Qed.

Lemma mir_new_laid_out k : leaf_kind k = true -> laid_out (mir_new k) (PLeaf k).
Proof.
  intros Hk. split; [apply mir_new_wf|..]; [..|done]; unfold mir_new; pose proof (pg_add_node_spec pg_new k) as (Hi & Hn & He & _);
    destruct pg_new_spec as [Hn0 He0]; destruct (pg_add_node pg_new k) as [r g]; simpl in *; rewrite ?Hi, ?Hn, ?He, ?Hn0, ?He0; done.
Qed.

(** The ordinal of the next input. *)
Lemma next_ordinal g to :
  length (List.filter is_input (edge_refs g (pg_in g to))) = length (List.filter is_input (List.filter (fun e => Nat.eqb (target e) to) (pg_edges g))).
Proof.
  apply Permutation_length, filter_perm. unfold edge_refs. rewrite <- (ids_from_lookup _ [] (pg_edges g)). simpl.
  by rewrite <- pg_in_spec.
Qed.

(** A node without inputs gets a first and a second one. *)
Lemma add_input_edges (m : MirGraph) s to :
  (s < node_count m)%nat -> (to < node_count m)%nat ->
  pg_nodes (graph (add_input m s to)) = pg_nodes (graph m) /\ root (add_input m s to) = root m /\
  pg_edges (graph (add_input m s to)) = pg_edges (graph m) ++
    [(s, to, Input (Z.min U8_MAX (Z.of_nat (length (List.filter is_input (List.filter (fun e => Nat.eqb (target e) to) (pg_edges (graph m))))))))].
Proof.
  intros Hs Hto. unfold add_input. cbn [graph root]. rewrite next_ordinal.
  destruct (pg_add_edge_spec (graph m) s to (Input (Z.min U8_MAX (Z.of_nat (length (List.filter is_input (List.filter (fun e => Nat.eqb (target e) to) (pg_edges (graph m))))))))) as [-> ->]; [done..|].
  done.
Qed.

Lemma fresh_target (es : list (edge MirEdgeKind)) n :
  (forall e, e ∈ es -> (target e < n)%nat) -> List.filter (fun e => Nat.eqb (target e) n) es = [].
Proof. intros Hlt. apply filter_none. intros e Hin%Hlt. apply Nat.eqb_neq. lia. Qed.

Lemma push_unary_laid_out m p k : laid_out m p -> unary_kind k = true -> laid_out (push_unary m k) (PUnary k p).
Proof.
  intros Hl Hk. pose proof (laid_out_count m p Hl) as Hc. unfold push_unary.
  pose proof (mir_add_node_wf m k (lo_wf m p Hl)) as Hw. unfold mir_add_node in *.
  destruct (pg_add_node_spec (graph m) k) as (Hi & Hn & He & _). destruct (pg_add_node (graph m) k) as [i g]. cbn [fst snd] in *.
  assert (i = p_size p) as -> by (rewrite Hi; exact Hc).
  set (m1 := {| graph := g; root := root m |}) in *.
  assert (node_count m1 = S (p_size p)) as Hc1 by (unfold node_count, m1; cbn [graph]; rewrite Hn, length_app; simpl; unfold node_count in Hc; lia).
  pose proof (p_root_lt p). destruct (add_input_edges m1 (root m) (p_size p)) as (Hn2 & _ & He2); [rewrite Hc1, ?(lo_root m p Hl); lia..|].
  cbn [graph m1] in He2. rewrite He, (lo_edges m p Hl), fresh_target in He2 by (intros e Hin%p_edges_bound; lia).
  assert (node_count (add_input m1 (root m) (p_size p)) = S (p_size p)) as Hc2 by (unfold node_count; rewrite Hn2; exact Hc1).
  split.
  - apply set_root_wf; [apply add_input_wf; [done|..]|]; rewrite ?Hc2, ?Hc1, ?(lo_root m p Hl); lia.
  - cbn [set_root graph]. rewrite Hn2. cbn [graph m1]. rewrite Hn, (lo_nodes m p Hl). done.
  - cbn [set_root graph]. rewrite He2, (lo_root m p Hl). done.
  - done.
  - simpl. by rewrite Hk, (lo_ok m p Hl).
Qed.

(** Two inputs above the roots of a graph and of one appended to it. *)
Lemma binary_laid_out m m1 p l r k :
  laid_out m p -> laid_out l r -> binary_kind k = true ->
  graph_wf m1 -> pg_nodes (graph m1) = pg_nodes (graph m) ++ pg_nodes (graph l) ->
  pg_edges (graph m1) = pg_edges (graph m) ++ map (shift_edge (node_count m)) (pg_edges (graph l)) ->
  let '(node, g) := mir_add_node m1 k in
  laid_out (set_root (add_input (add_input g (root m) node) (node_count m + root l) node) node) (PBinary k p r).
Proof.
  intros Hp Hr Hk Hw1 Hn1 He1. pose proof (laid_out_count m p Hp) as Hcp. pose proof (laid_out_count l r Hr) as Hcr.
  pose proof (mir_add_node_wf m1 k Hw1) as Hw. unfold mir_add_node in *.
  destruct (pg_add_node_spec (graph m1) k) as (Hi & Hn & He & _). destruct (pg_add_node (graph m1) k) as [i g]. cbn [fst snd] in *.
  assert (i = (p_size p + p_size r)%nat) as ->.
  { rewrite Hi, Hn1, length_app. unfold node_count in *. lia. }
  set (n := (p_size p + p_size r)%nat). set (m2 := {| graph := g; root := root m1 |}) in *.
  assert (node_count m2 = S n) as Hc2.
  { unfold node_count, m2. cbn [graph]. rewrite Hn, Hn1, !length_app. simpl. unfold node_count, n in *. lia. }
  pose proof (p_root_lt p). pose proof (p_root_lt r). rewrite (lo_root m p Hp), (lo_root l r Hr).
  assert (pg_edges (graph m2) = p_edges p ++ map (shift_edge (p_size p)) (p_edges r)) as E2.
  { cbn [graph m2]. by rewrite He, He1, (lo_edges m p Hp), (lo_edges l r Hr), Hcp. }
  destruct (add_input_edges m2 (p_root p) n) as (Hn3 & _ & He3); [rewrite Hc2; unfold n; lia..|].
  assert (List.filter (fun e => Nat.eqb (target e) n) (pg_edges (graph m2)) = []) as Hfresh.
  { apply fresh_target. intros e. rewrite E2, elem_of_app, list_elem_of_fmap.
    intros [Hin%p_edges_bound|(e' & -> & Hin%p_edges_bound)]; unfold n; simpl; lia. }
  rewrite Hfresh in He3. change (Z.min U8_MAX (Z.of_nat (length (List.filter is_input [])))) with 0 in He3. set (m3 := add_input m2 (p_root p) n) in *.
  assert (node_count m3 = S n) as Hc3 by (unfold node_count; rewrite Hn3; exact Hc2).
  destruct (add_input_edges m3 (node_count m + p_root r) n) as (Hn4 & _ & He4); [rewrite Hc3, ?Hcp; unfold n; lia..|].
  rewrite He3, List.filter_app, Hfresh in He4. cbn [List.filter target fst snd app] in He4. rewrite Nat.eqb_refl in He4.
  change (Z.min U8_MAX (Z.of_nat (length (List.filter is_input [(p_root p, n, Input 0)])))) with 1 in He4.
  assert (node_count (add_input m3 (node_count m + p_root r) n) = S n) as Hc4 by (unfold node_count at 1; rewrite Hn4; exact Hc3).
  split.
  - apply set_root_wf; [apply add_input_wf; [apply add_input_wf; [done|..]|..]|]; rewrite ?Hc4, ?Hc3, ?Hc2, ?Hcp; unfold n; lia.
  - cbn [set_root graph]. rewrite Hn4, Hn3. cbn [graph m2]. rewrite Hn, Hn1, (lo_nodes m p Hp), (lo_nodes l r Hr). by rewrite <- app_assoc.
  - cbn [set_root graph]. rewrite He4, E2, Hcp, <- app_assoc. done.
  - done.
  - simpl. by rewrite Hk, (lo_ok m p Hp), (lo_ok l r Hr).
Qed.

Lemma push_binary_laid_out m p l r k :
  laid_out m p -> laid_out l r -> binary_kind k = true -> exists m', push_binary m l k = Ok m' /\ laid_out m' (PBinary k p r).
Proof.
  intros Hp Hr Hk. destruct (@append_graph_spec _ SqlError m l (lo_wf m p Hp) (lo_wf l r Hr)) as (m1 & E & Hw1 & Hn1 & He1 & _).
  pose proof (binary_laid_out m m1 p l r k Hp Hr Hk Hw1 Hn1 He1) as Hb. unfold push_binary. rewrite E. cbn [exec_bind].
  destruct (mir_add_node m1 k) as [node g]. eexists. by split; [reflexivity|].
Qed.

Lemma cte_laid_out name l r :
  laid_out l r -> exists i m, @append_graph _ SqlError (mir_new (CteRef name)) l = Ok (i, m) /\
    laid_out (add_cte_expansion m i (root m)) (PCte (CteRef name) r).
Proof.
  intros Hr. pose proof (mir_new_wf (CteRef name)) as Hw0.
  destruct (@append_graph_spec _ SqlError (mir_new (CteRef name)) l Hw0 (lo_wf l r Hr)) as (m & E & Hw & Hn & He & Hroot).
  pose proof (laid_out_count l r Hr) as Hc. pose proof (p_root_lt r).
  assert (pg_nodes (graph (mir_new (CteRef name))) = [CteRef name] /\ pg_edges (graph (mir_new (CteRef name))) = [] /\
          root (mir_new (CteRef name)) = 0%nat) as (Hn0 & He0 & Hr0).
  { unfold mir_new. pose proof (pg_add_node_spec pg_new (CteRef name)) as (Hi & Hn' & He' & _).
    destruct pg_new_spec as [Hn0 He0]. destruct (pg_add_node pg_new (CteRef name)) as [j g]. simpl in *.
    rewrite Hi, Hn', He', Hn0, He0. done. }
  assert (node_count (mir_new (CteRef name)) = 1%nat) as Hc0 by (unfold node_count; by rewrite Hn0).
  rewrite Hc0 in *. rewrite Hn0 in Hn. rewrite He0 in He. rewrite Hr0 in Hroot.
  assert (node_count m = S (p_size r)) as Hcm by (unfold node_count in *; rewrite Hn; simpl; lia).
  eexists _, m. split; [exact E|]. destruct (pg_add_edge_spec (graph m) (1 + root l) (root m) CteExpansion) as [Hn2 He2];
    [fold (node_count m); rewrite Hcm, ?Hroot, ?(lo_root l r Hr); lia..|]. split.
  - apply add_cte_expansion_wf; [done|..]; rewrite Hcm, ?Hroot, ?(lo_root l r Hr); lia.
  - cbn [add_cte_expansion graph]. by rewrite Hn2, Hn, (lo_nodes l r Hr).
  - cbn [add_cte_expansion graph]. by rewrite He2, He, Hroot, (lo_edges l r Hr), (lo_root l r Hr).
  - done.
  - simpl. apply (lo_ok l r Hr).
Qed.

(** Rewriting the kind of a node leaves the shape. *)
Lemma set_node_kind_laid_out m p p' i k :
  laid_out m p -> (i < p_size p)%nat -> p_nodes p' = <[i := k]> (p_nodes p) -> p_edges p' = p_edges p -> p_root p' = p_root p -> plan_ok p' = true ->
  laid_out (set_node_kind m i k) p'.
Proof.
  intros Hl Hi Hn He Hr Hok. rewrite <- (laid_out_count m p Hl) in Hi. destruct (pg_set_node_spec (graph m) i k Hi) as (Hn' & He' & Ho & _).
  pose proof (lo_wf m p Hl) as Hw. assert (length (pg_nodes (pg_set_node (graph m) i k)) = length (pg_nodes (graph m))) as Hlen
    by (by rewrite Hn', length_insert).
  split; [split|..]; cbn [set_node_kind graph root].
  - intros v id. rewrite Ho, He'. apply (gw_settled m Hw).
  - intros e. rewrite He', Hlen. apply (gw_edges m Hw).
  - rewrite Hlen. apply (gw_root m Hw).
  - by rewrite Hn', (lo_nodes m p Hl).
  - by rewrite He', (lo_edges m p Hl).
  - by rewrite (lo_root m p Hl).
  - done.
Qed.

(** The kind at the root, and the input of a unary root. *)
Definition p_kind (p : plan) : MirNodeKind := match p with PLeaf k | PUnary k _ | PBinary k _ _ | PCte k _ => k end.

Lemma p_nodes_root p : p_nodes p !! p_root p = Some (p_kind p).
Proof.
  destruct p as [k|k p|k l r|k p]; simpl; [done|by apply list_lookup_middle| |done].
  rewrite app_assoc. apply list_lookup_middle. by rewrite length_app.
Qed.

Lemma laid_out_root_kind m p : laid_out m p -> node_kind m (root m) = Some (p_kind p).
Proof. intros Hl. unfold node_kind. rewrite (lo_nodes m p Hl), (lo_root m p Hl). apply p_nodes_root. Qed.

Lemma unary_input m k p : laid_out m (PUnary k p) -> ordered_inputs m (root m) = [p_root p].
Proof.
  intros Hl. unfold ordered_inputs. pose proof (slots_perm m (root m)) as Hp. unfold slots in Hp.
  rewrite (lo_edges _ _ Hl), (lo_root _ _ Hl) in Hp. cbn [p_edges p_root] in Hp.
  rewrite List.filter_app, fresh_target in Hp by (intros e Hin%p_edges_bound; lia).
  cbn [List.filter target fst snd app] in Hp. rewrite Nat.eqb_refl in Hp. change (p_size p) with (p_root (PUnary k p)) in Hp.
  rewrite <- (lo_root _ _ Hl) in Hp. apply Permutation_singleton_r in Hp. by rewrite Hp.
Qed.

Lemma node_kind_below m k p i : laid_out m (PUnary k p) -> (i < p_size p)%nat -> node_kind m i = p_nodes p !! i.
Proof. intros Hl Hi. unfold node_kind. rewrite (lo_nodes _ _ Hl). simpl. by rewrite lookup_app_l. Qed.

(** ** Outcomes: never a panic, and a graph that reads the given tables *)

Definition good (ts : list (occurrence text)) (r : exec SqlError MirGraph) : Prop :=
  match r with Ok m => exists p, laid_out m p /\ p_tables p = ts | Err _ => True | Panic => False end.

Lemma p_tables_unary k p : unary_kind k = true -> p_tables (PUnary k p) = p_tables p.
Proof. done. Qed.

Lemma push_unary_good ts m p k : laid_out m p -> p_tables p = ts -> unary_kind k = true -> good ts (Ok (push_unary m k)).
Proof.
  intros Hl Ht Hk. exists (PUnary k p). split; [by apply push_unary_laid_out | by rewrite p_tables_unary].
Qed.

Lemma push_binary_good ts ts' m p l r k :
  laid_out m p -> p_tables p = ts -> laid_out l r -> p_tables r = ts' -> binary_kind k = true ->
  good (ts ++ hide_if (anti_kind k) ts') (push_binary m l k).
Proof.
  intros Hm Ht Hl Ht' Hk. destruct (push_binary_laid_out m p l r k Hm Hl Hk) as (m' & -> & Hl').
  exists (PBinary k p r). split; [done|]. simpl. by rewrite Ht, Ht'.
Qed.
End Layout.

(** ** Ordering *)

Section Order.
Context `{SqlSyntax} `{EvalRuntime} `{PetGraph MirNodeKind MirEdgeKind}.

Lemma unary_of_kind p : plan_ok p = true -> unary_kind (p_kind p) = true -> exists k p', p = PUnary k p'.
Proof. destruct p as [k|k p|k l r|k p]; simpl; intros Hok Hk; [..|destruct k; done]; [destruct k; done | eauto |]. destruct k; done. Qed.

Lemma p_nodes_set_root k k' p : p_nodes (PUnary k' p) = <[p_root (PUnary k p) := k']> (p_nodes (PUnary k p)).
Proof. simpl. unfold p_size. rewrite insert_app_r_alt by done. by rewrite Nat.sub_diag. Qed.

Lemma set_root_kind m k p k' : laid_out m (PUnary k p) -> unary_kind k' = true ->
  laid_out (set_node_kind m (root m) k') (PUnary k' p).
Proof.
  intros Hl Hk. apply (set_node_kind_laid_out m (PUnary k p)); [done| | | done..|].
  - rewrite (lo_root _ _ Hl). apply p_root_lt.
  - rewrite (lo_root _ _ Hl). apply p_nodes_set_root.
  - pose proof (lo_ok _ _ Hl) as Hok. simpl in *. apply andb_true_iff in Hok as [_ ->]. by rewrite Hk.
Qed.

Lemma extend_laid_out m p order_by :
  laid_out m p -> exists p', laid_out (extend_projection_with_order_keys m order_by).2 p' /\ p_tables p' = p_tables p.
Proof.
  intros Hl. unfold extend_projection_with_order_keys, order_projection. rewrite (laid_out_root_kind m p Hl).
  destruct (p_kind p) as [| |columns| | | |on keys| | | | | | | |] eqn:Hk; try (simpl; eauto); (* only two kinds are left *)
    destruct (unary_of_kind p (lo_ok m p Hl)) as (k & p1 & ->); try (by rewrite Hk); simpl in Hk; subst k.
  - destruct (missing_keys _ _ _ _); [simpl; eauto|]. destruct (mapM id _); [|simpl; eauto]. simpl.
    eexists. split; [by apply (set_root_kind _ _ _ _ Hl)|]. by rewrite !p_tables_unary.
  - rewrite (unary_input m _ p1 Hl). cbn [head]. simpl. pose proof (p_root_lt p1).
    rewrite (node_kind_below m _ p1 _ Hl), p_nodes_root by done.
    destruct (p_kind p1) as [| |columns| | | | | | | | | | | |] eqn:Hk1; try (simpl; eauto).
    pose proof (lo_ok _ _ Hl) as Hok. simpl in Hok. destruct (unary_of_kind p1 Hok) as (k & p2 & ->); [by rewrite Hk1|]. simpl in Hk1; subst k.
    destruct (missing_keys _ _ _ _) as [|x missing]; [simpl; eauto|]. destruct (mapM id _); [|simpl; eauto]. simpl.
    exists (PUnary (DistinctOn on keys) (PUnary (Project (columns ++ x :: missing)) p2)). split; [|by rewrite !p_tables_unary].
    apply (set_node_kind_laid_out m (PUnary (DistinctOn on keys) (PUnary (Project columns) p2))); [done|..].
    + unfold p_size in *. simpl in *. rewrite !length_app in *. simpl in *. lia.
    + simpl. unfold p_size. rewrite insert_app_l by (rewrite length_app; simpl; lia).
      by rewrite insert_app_r_alt, Nat.sub_diag by done.
    + simpl. unfold p_size. simpl. by rewrite !length_app.
    + simpl. unfold p_size. simpl. by rewrite !length_app.
    + done.
Qed.

Lemma fill_good m p order_by : laid_out m p -> good (p_tables p) (fill_distinct_on m order_by).
Proof.
  intros Hl. unfold fill_distinct_on. rewrite (laid_out_root_kind m p Hl).
  destruct (p_kind p) as [| | | | | |on keys| | | | | | | |] eqn:Hk; try (exists p; done).
  destruct (forallb _ _); [|done]. destruct (unary_of_kind p (lo_ok m p Hl)) as (k & p1 & ->); [by rewrite Hk|].
  simpl in Hk; subst k. eexists. split; [by apply (set_root_kind _ _ _ _ Hl)|]. by rewrite !p_tables_unary.
Qed.

Lemma literal_usize_no_panic e : literal_usize e <> Panic.
Proof. unfold literal_usize, ok_or. by repeat case_match. Qed.

Lemma optional_usize_no_panic e d : optional_usize e d <> Panic.
Proof. destruct e; [apply literal_usize_no_panic | done]. Qed.

Lemma good_bind_total {A} (m : exec SqlError A) k ts : m <> Panic -> (forall a, m = Ok a -> good ts (k a)) -> good ts (exec_bind m k).
Proof. intros Hm Hk. destruct m; simpl; [by apply Hk | done | done]. Qed.

Lemma good_bind ts (r : exec SqlError MirGraph) k ts' :
  good ts r -> (forall m p, laid_out m p -> p_tables p = ts -> good ts' (k m)) -> good ts' (exec_bind r k).
Proof. intros Hr Hk. destruct r as [m| |]; [|done..]. destruct Hr as (p & Hl & Ht). by eapply Hk. Qed.

Lemma order_limit_good m p q : laid_out m p -> good (p_tables p) (apply_order_limit m q).
Proof.
  intros Hl. destruct q as [q]. simpl. destruct (q_order_by q) as [exprs|]; [|exists p; done].
  apply good_bind_total; [apply optional_usize_no_panic|]. intros limit _.
  apply good_bind_total; [apply optional_usize_no_panic|]. intros offset _.
  set (keys := map _ exprs). pose proof (extend_laid_out m p keys Hl) as (p' & Hl' & <-).
  destruct (extend_projection_with_order_keys m keys) as [visible m']. cbn [snd] in Hl'.
  eapply good_bind; [by apply fill_good|]. intros m2 p2 Hl2 <-.
  pose proof (push_unary_laid_out m2 p2 (TopK keys limit offset) Hl2 eq_refl) as Hl3.
  destruct visible as [columns|].
  - eapply push_unary_good; [exact Hl3 | by apply p_tables_unary | done].
  - exists (PUnary (TopK keys limit offset) p2). split; [done | by apply p_tables_unary].
Qed.
End Order.

(** ** Reference: the relations a query reads *)

(** The relations in FROM position: of the FROM clauses, and of the EXISTS conjuncts of
    the WHERE clauses; those of a NOT EXISTS are hidden. *)
Fixpoint expr_mentions (e : SqlExpr) : list (occurrence ObjectName) :=
  match e with
  | X_BinaryOp l BO_And r => expr_mentions l ++ expr_mentions r
  | X_Exists q negated | X_Nested (X_Exists q negated) => hide_if negated (query_mentions q)
  | X_UnaryOp UO_Not (X_Exists q negated) | X_UnaryOp UO_Not (X_Nested (X_Exists q negated)) => hide_if (negb negated) (query_mentions q)
  | _ => []
  end
with query_mentions (q : Query) : list (occurrence ObjectName) := let 'Query_ r := q in body_mentions (q_body r)
with body_mentions (b : SetExpr) : list (occurrence ObjectName) :=
  match b with
  | SE_Select s =>
      flat_map (fun item => factor_mentions (tj_relation item) ++ flat_map (fun j => factor_mentions (jn_relation j)) (tj_joins item)) (sl_from s) ++
      opt_list expr_mentions (sl_selection s)
  | SE_Query q => query_mentions q
  | SE_SetOperation _ _ l r => body_mentions l ++ body_mentions r
  | SE_Values | SE_Insert | SE_Update | SE_Table => []
  end
with factor_mentions (f : TableFactor) : list (occurrence ObjectName) :=
  match f with TF_Table name _ _ => [(name, true)] | TF_Derived _ q _ => query_mentions q | TF_Other => [] end.

Section Reads.
Context `{SqlSyntax}.

(** The tables behind a name: those of the CTE it names, none inside that CTE's own recursion,
    and the table itself otherwise. *)
Definition expand_name (ctes : gmap string (list (occurrence text))) (recursive : gset string) (name : ObjectName) : list (occurrence text) :=
  let name := object_name_text name in
  if bool_decide (text_string name ∈ recursive) then [] else default [(name, true)] (ctes !! text_string name).
Definition reads (ctes : gmap string (list (occurrence text))) (recursive : gset string) (names : list (occurrence ObjectName)) : list (occurrence text) :=
  flat_map (fun m => hide_if (negb m.2) (expand_name ctes recursive m.1)) names.

(** What one CTE reads; a recursive one reads its own working set besides. *)
Definition one_cte_reads (recursive : bool) (c : Cte Query) (known : gmap string (list (occurrence text))) : list (occurrence text) :=
  let name := id_value (al_name (cte_alias c)) in
  if recursive && (0 <? count_relation_references (query_nodes (cte_query c)) name)%nat then
    match q_body (query_ (cte_query c)) with
    | SE_SetOperation _ _ base step => reads known ∅ (body_mentions base) ++ reads known {[text_string name]} (body_mentions step)
    | _ => []
    end
  else reads known ∅ (query_mentions (cte_query c)).

(** The tables of each CTE, in the order of the WITH clause. *)
Definition cte_reads (recursive : bool) (ctes : list (Cte Query)) (known : gmap string (list (occurrence text))) : gmap string (list (occurrence text)) :=
  fold_left (fun known c => <[text_string (id_value (al_name (cte_alias c))) := one_cte_reads recursive c known]> known) ctes known.
Definition query_reads (q : Query) : list (occurrence text) :=
  let known := match q_with (query_ q) with Some w => cte_reads (with_recursive w) (with_ctes w) ∅ | None => ∅ end in
  reads known ∅ (query_mentions q).

Lemma reads_app ctes r a b : reads ctes r (a ++ b) = reads ctes r a ++ reads ctes r b.
Proof. apply flat_map_app. Qed.

Lemma reads_hide ctes r l : reads ctes r (hide l) = hide (reads ctes r l).
Proof.
  induction l as [|[name b] l IH]; simpl; [done|]. rewrite hide_app, <- IH. f_equal. destruct b; simpl; [done | by rewrite hide_hide].
Qed.
Lemma reads_hide_if ctes r b l : reads ctes r (hide_if b l) = hide_if b (reads ctes r l).
Proof. destruct b; [apply reads_hide | done]. Qed.

(** *** Splitting the WHERE clause *)

Definition term_mentions (terms : list ExistsTerm) : list (occurrence ObjectName) :=
  flat_map (fun t => hide_if (et_negated t) (query_mentions (et_subquery t))) terms.

Lemma term_mentions_app a b : term_mentions (a ++ b) = term_mentions a ++ term_mentions b.
Proof. apply flat_map_app. Qed.

(** Both collectors recurse on conjunctions only. *)
Lemma term_mentions_one q negated : term_mentions [{| et_subquery := q; et_negated := negated |}] = hide_if negated (query_mentions q).
Proof. unfold term_mentions. simpl. by rewrite app_nil_r. Qed.

Lemma collect_exists_mentions e : expr_mentions e = term_mentions (collect_exists e).1.
Proof.
  induction e as [| |e IH| |l IHl op r IHr|op e IH| | | | | | | | | | | | | | | | | | | |]; try done.
  - destruct e; done.
  - destruct op; try done. simpl. rewrite IHl, IHr. destruct (collect_exists l), (collect_exists r). simpl. by rewrite term_mentions_app.
  - destruct op; try done. destruct e as [| |e'| | | | | | | | | | | | | | | | | | | | | | |]; try done.
    + destruct e'; try done. symmetry. apply term_mentions_one.
    + symmetry. apply term_mentions_one.
  - symmetry. apply term_mentions_one.
Qed.

Definition opt_mentions (e : option SqlExpr) : list (occurrence ObjectName) := opt_list expr_mentions e.

Lemma fold_and_mentions l e : expr_mentions (fold_left (fun l r => X_BinaryOp l BO_And r) l e) = expr_mentions e ++ flat_map expr_mentions l.
Proof. revert e. induction l as [|x l IH]; intros e; simpl; [by rewrite app_nil_r|]. rewrite IH. simpl. by rewrite <- app_assoc. Qed.

Lemma reduce_and_mentions l : opt_mentions (reduce_and l) = flat_map expr_mentions l.
Proof. destruct l as [|e l]; [done|]. apply fold_and_mentions. Qed.

Lemma collect_correlated_mentions names e : flat_map expr_mentions (collect_correlated names e).2 = expr_mentions e.
Proof.
  induction e as [| | | |l IHl op r IHr| | | | | | | | | | | | | | | | | | | | |]; try (simpl; by rewrite ?app_nil_r).
  destruct op; try (simpl; done).
  - simpl. destruct (correlated_pair names l r); done.
  - simpl. destruct (collect_correlated names l), (collect_correlated names r). simpl in *. by rewrite flat_map_app, IHl, IHr.
Qed.

Lemma split_correlated_mentions sel names : opt_mentions (split_correlated_predicates sel names).2 = opt_mentions sel.
Proof.
  destruct sel as [e|]; [|done]. simpl. pose proof (collect_correlated_mentions names e) as Hc.
  destruct (collect_correlated names e) as [pairs rest]. simpl in *. by rewrite reduce_and_mentions.
Qed.

(** A predicate without EXISTS mentions nothing. *)
Lemma contains_exists_app a b :
  existsb (fun e => match e with X_Exists _ _ => true | _ => false end) (exprs_in (a ++ b)) =
  existsb (fun e => match e with X_Exists _ _ => true | _ => false end) (exprs_in a) || existsb (fun e => match e with X_Exists _ _ => true | _ => false end) (exprs_in b).
Proof. unfold exprs_in. by rewrite filter_map_app, existsb_app. Qed.

Lemma no_exists_mentions e : contains_exists e = false -> expr_mentions e = [].
Proof.
  induction e as [| |e IH| |l IHl op r IHr|op e IH| | | | | | | | | | | | | | | | | | | |]; intros Hc; try done.
  - destruct e; done.
  - destruct op; try done. unfold contains_exists in *. simpl in *. rewrite contains_exists_app in Hc.
    apply orb_false_iff in Hc as [Hl Hr]. rewrite IHl, IHr; done.
  - destruct op; try done. destruct e as [| |e'| | | | | | | | | | | | | | | | | | | | | | |]; try done. destruct e'; done.
Qed.
End Reads.

(** ** Nesting depth: every query that lowering reaches is nested deeper *)

Lemma list_max_elem l n : n ∈ l -> (n <= list_max l)%nat.
Proof. induction 1 as [|x y l _ IH]; simpl; lia. Qed.

Lemma list_max_mono l l' : (forall n, n ∈ l -> n = 0%nat \/ exists n', n' ∈ l' /\ (n <= n')%nat) -> (list_max l <= list_max l')%nat.
Proof.
  intros Hl. apply list_max_le, List.Forall_forall. intros n Hn. apply list_elem_of_In in Hn as [->|(n' & Hin & Hle)]%Hl; [lia|].
  pose proof (list_max_elem l' n' Hin). lia.
Qed.

Lemma body_below r : (S (body_depth (q_body r)) <= query_depth (Query_ r))%nat.
Proof. simpl. apply le_n_S, list_max_elem. unfold query_parts. rewrite !elem_of_app. right. left. apply list_elem_of_singleton. done. Qed.

Lemma select_selection_depth s e : sl_selection s = Some e -> (expr_depth e <= body_depth (SE_Select s))%nat.
Proof.
  intros He. apply list_max_elem. unfold select_parts. rewrite !elem_of_app. right. right. right. left. rewrite He. by left.
Qed.

Lemma select_factor_depth s item f :
  item ∈ sl_from s -> f = tj_relation item \/ (exists j, j ∈ tj_joins item /\ f = jn_relation j) -> (factor_depth f <= body_depth (SE_Select s))%nat.
Proof.
  intros Hin Hf. apply list_max_elem. unfold select_parts. rewrite !elem_of_app. right. right. left.
  apply list_elem_of_In, in_flat_map. exists item. split; [by apply list_elem_of_In|]. apply list_elem_of_In. unfold from_parts.
  rewrite elem_of_app. destruct Hf as [->|(j & Hj & ->)]; [left; by left|right].
  apply list_elem_of_In, in_flat_map. exists j. split; [by apply list_elem_of_In|]. by left.
Qed.

Lemma collect_exists_depth e t : t ∈ (collect_exists e).1 -> (query_depth (et_subquery t) <= expr_depth e)%nat.
Proof.
  induction e as [| |e IH| |l IHl op r IHr|op e IH| | | | | | | | | | | | | | | | | | | |]; try (by intros ?%elem_of_nil).
  - destruct e; try (by intros ?%elem_of_nil). exact IH.
  - destruct op; try (by intros ?%elem_of_nil). cbn [collect_exists expr_depth].
    destruct (collect_exists l), (collect_exists r). simpl in *. intros [Hin%IHl|Hin%IHr]%elem_of_app; lia.
  - destruct op; try (by intros ?%elem_of_nil). destruct e as [| |e'| | | | | | | | | | | | | | | | | | | | | | |]; try (by intros ?%elem_of_nil).
    + destruct e'; try (by intros ?%elem_of_nil). cbn [collect_exists fst]. by intros ->%list_elem_of_singleton.
    + cbn [collect_exists fst]. by intros ->%list_elem_of_singleton.
  - cbn [collect_exists fst]. by intros ->%list_elem_of_singleton.
Qed.

Lemma fold_and_depth l e n : (expr_depth e <= n)%nat -> Forall (fun e => (expr_depth e <= n)%nat) l ->
  (expr_depth (fold_left (fun l r => X_BinaryOp l BO_And r) l e) <= n)%nat.
Proof. intros He Hl. revert e He. induction Hl as [|x l Hx _ IH]; intros e He; simpl; [done|]. apply IH. simpl. lia. Qed.

Lemma collect_correlated_depth `{SqlSyntax} names e : Forall (fun e' => (expr_depth e' <= expr_depth e)%nat) (collect_correlated names e).2.
Proof.
  induction e as [| | | |l IHl op r IHr| | | | | | | | | | | | | | | | | | | | |]; try (simpl; by repeat constructor).
  destruct op; try (simpl; by repeat constructor).
  - simpl. destruct (correlated_pair names l r); simpl; by repeat constructor.
  - cbn [collect_correlated expr_depth]. destruct (collect_correlated names l), (collect_correlated names r). simpl in *.
    apply Forall_app. split; eapply Forall_impl; [exact IHl | simpl; lia | exact IHr | simpl; lia].
Qed.

Lemma split_correlated_depth `{SqlSyntax} sel names e :
  (split_correlated_predicates sel names).2 = Some e -> exists e0, sel = Some e0 /\ (expr_depth e <= expr_depth e0)%nat.
Proof.
  destruct sel as [e0|]; [|done]. simpl. pose proof (collect_correlated_depth names e0) as Hd.
  destruct (collect_correlated names e0) as [pairs rest]. simpl in *. intros Hr. exists e0. split; [done|].
  destruct rest as [|x rest]; [done|]. simpl in Hr. injection Hr as <-. apply Forall_cons in Hd as [Hx Hd]. by apply fold_and_depth.
Qed.

Lemma project_inner_items cols proj i :
  i ∈ project_inner cols proj -> i ∈ proj \/ exists c, i = SI_UnnamedExpr (column_ref_expr c).
Proof.
  revert proj. induction cols as [|c cols IH]; intros proj; simpl; [by left|]. intros Hi%IH. destruct Hi as [Hi|Hi]; [|by right].
  destruct (existsb _ proj); [by left|]. apply elem_of_app in Hi as [Hi|Hi%list_elem_of_singleton]; [by left|right; eauto].
Qed.

(** Moving correlated predicates out of a lateral subquery does not nest it deeper. *)
Lemma lateral_depth `{SqlSyntax} r s cols names remaining :
  q_body r = SE_Select s -> (split_correlated_predicates (sl_selection s) names).2 = remaining ->
  (query_depth (Query_ {| q_with := q_with r;
     q_body := SE_Select {| sl_distinct := sl_distinct s; sl_top := sl_top s; sl_projection := project_inner cols (sl_projection s);
                            sl_into := sl_into s; sl_from := sl_from s; sl_selection := remaining; sl_group_by := sl_group_by s;
                            sl_having := sl_having s; sl_nonstandard := sl_nonstandard s |};
     q_order_by := q_order_by r; q_limit := q_limit r; q_limit_by := q_limit_by r; q_offset := q_offset r; q_fetch := q_fetch r |}) <= query_depth (Query_ r))%nat.
Proof.
  intros Hb Hs. cbn [query_depth]. apply le_n_S, list_max_mono. unfold query_parts. cbn [q_with q_body q_order_by q_limit q_limit_by q_offset q_fetch].
  intros n. rewrite !elem_of_app, list_elem_of_singleton. intros Hn. right. rewrite Hb.
  destruct Hn as [Hn|[->|Hn]]; [exists n; rewrite !elem_of_app; split; [tauto | done]| |exists n; rewrite !elem_of_app; split; [tauto | done]].
  exists (body_depth (SE_Select s)). split; [rewrite !elem_of_app; right; left; by left|].
  cbn [body_depth]. apply list_max_mono. unfold select_parts. cbn [sl_distinct sl_projection sl_from sl_selection sl_group_by sl_having].
  intros k. rewrite !elem_of_app. intros [Hk|[Hk|[Hk|[Hk|Hk]]]].
  - right. exists k. rewrite !elem_of_app. split; [tauto | done].
  - apply list_elem_of_In, in_flat_map in Hk as (i & Hi & Hk). apply list_elem_of_In in Hi, Hk.
    destruct (project_inner_items _ _ _ Hi) as [Hi'|[c ->]].
    + right. exists k. split; [|done]. rewrite !elem_of_app. right. left. apply list_elem_of_In, in_flat_map. exists i.
      split; by apply list_elem_of_In.
    + left. simpl in Hk. apply list_elem_of_singleton in Hk as ->. unfold column_ref_expr. by destruct (colref_relation c).
  - right. exists k. rewrite !elem_of_app. split; [tauto | done].
  - right. destruct remaining as [e|]; [|by apply elem_of_nil in Hk]. apply list_elem_of_singleton in Hk as ->.
    destruct (split_correlated_depth _ _ _ Hs) as (e0 & He0 & Hd). exists (expr_depth e0). split; [|done].
    rewrite !elem_of_app. right. right. right. left. rewrite He0. by left.
  - right. exists k. rewrite !elem_of_app. split; [tauto | done].
Qed.

(** ** Lowering reads exactly those tables *)

Section LowerExact.
Context `{SqlSyntax} `{EvalRuntime} `{PetGraph MirNodeKind MirEdgeKind}.

Lemma column_ref_no_panic e : column_ref e <> Panic.
Proof. destruct e as [|parts| | | | | | | | | | | | | | | | | | | | | | | |]; try done. by destruct parts as [|? [|? []]]. Qed.

Lemma bind_no_panic {E A B} (m : exec E A) (k : A -> exec E B) : m <> Panic -> (forall a, k a <> Panic) -> exec_bind m k <> Panic.
Proof. intros Hm Hk. destruct m; simpl; [apply Hk | done | done]. Qed.

Lemma mapM_no_panic {E A B} (f : A -> exec E B) l : (forall a, f a <> Panic) -> exec_mapM f l <> Panic.
Proof. intros Hf. induction l as [|a l IH]; simpl; [done|]. apply bind_no_panic; [done|]. intros b. by apply bind_no_panic. Qed.

Lemma equi_join_no_panic e : equi_join_columns e <> Panic.
Proof.
  induction e as [| | | |l IHl op r IHr| | | | | | | | | | | | | | | | | | | | |]; try done. destruct op; try done; simpl.
  - apply bind_no_panic; [apply column_ref_no_panic|]. intros ?. by apply bind_no_panic; [apply column_ref_no_panic|].
  - apply bind_no_panic; [done|]. intros ?. by apply bind_no_panic.
Qed.

Lemma join_keys_no_panic o lateral keys : join_keys o lateral keys <> Panic.
Proof.
  assert (forall e, join_predicate_columns e lateral <> Panic) as Hj.
  { intros e. pose proof (equi_join_no_panic e). unfold join_predicate_columns. by repeat case_match. }
  destruct o as [[]|[]| | | |]; try done; simpl; try (by apply bind_no_panic). by case_match.
Qed.

Lemma join_keys_kind o lateral keys kind on : join_keys o lateral keys = Ok (kind, on) -> kind <> JK_Anti.
Proof.
  destruct o as [[]|[]| | | |]; simpl; try done; try (by intros (? & ? & [= <- <-])%exec_bind_ok). case_match; [by intros [= <- <-] | done].
Qed.

Lemma aggregate_expr_no_panic fn args alias : aggregate_expr fn args alias <> Panic.
Proof.
  unfold aggregate_expr. case_match; [done|]. apply bind_no_panic; [|done]. destruct args; [done|done|].
  apply mapM_no_panic. by intros [].
Qed.

Lemma aggregates_no_panic proj : aggregate_exprs proj <> Panic.
Proof.
  induction proj as [|i proj IH]; simpl; [done|]. apply bind_no_panic; [|intros; by apply bind_no_panic].
  unfold item_aggregate. destruct i as [e|e alias| |]; try done; destruct e; try done; apply aggregate_expr_no_panic.
Qed.

Lemma having_no_panic e aggs : rewrite_having_aggregates e aggs <> Panic.
Proof.
  unfold rewrite_having_aggregates. apply bind_no_panic; [|by intros []]. generalize (aggs, 0%nat). clear aggs.
  revert e. fix IH 1. intros e st.
  destruct e as [| | | | | | | | | | | | |e elements| | | | | | |fn args| | | | |]; simpl; try done;
    try (repeat (apply bind_no_panic; [apply IH|intros []]); done).
  - apply bind_no_panic; [apply IH|]. intros [e' st']. apply bind_no_panic; [|by intros []]. revert st'.
    induction elements as [|x l IHl]; intros st'; [done|].
    apply bind_no_panic; [apply IH|]. intros []. apply bind_no_panic; [apply IHl | by intros []].
  - apply bind_no_panic; [apply aggregate_expr_no_panic|]. intros [agg|]; [|done]. by destruct (having_alias agg st).
Qed.

(** The graphs of the CTEs lay out plans that read [tables]. *)
Definition context_ok (c : LowerContext) (tables : gmap string (list (occurrence text))) : Prop :=
  forall name, match lc_ctes c !! name with
               | Some g => exists p, laid_out g p /\ tables !! name = Some (p_tables p)
               | None => tables !! name = None
               end.

Section Step.
Context (rec : Query -> LowerContext -> exec SqlError MirGraph) (n : nat) (c : LowerContext) (tables : gmap string (list (occurrence text))).
Context (Hctx : context_ok c tables).
Abbreviation reads_in := (reads tables (lc_recursive c)).
Context (Hrec : forall q, (query_depth q <= n)%nat -> good (reads_in (query_mentions q)) (rec q c)).

Lemma factor_good f : (factor_depth f <= n)%nat -> good (reads_in (factor_mentions f)) (lower_table_factor rec f c).
Proof using Hctx Hrec.
  destruct f as [name alias|lateral q alias|]; intros Hd; [|by apply Hrec|done].
  cbn [factor_mentions lower_table_factor]. unfold reads. simpl. rewrite app_nil_r. unfold expand_name.
  case_bool_decide; [eexists; split; [by apply mir_new_laid_out | done]|].
  pose proof (Hctx (text_string (object_name_text name))) as Hc. destruct (lc_ctes c !! _) as [g|].
  - destruct Hc as (p & Hp & ->). destruct (cte_laid_out (object_name_text name) g p Hp) as (i & m & -> & Hl). simpl.
    exists (PCte (CteRef (object_name_text name)) p). by split.
  - rewrite Hc. simpl. eexists. split; [by apply mir_new_laid_out | done].
Qed.

Lemma lateral_good q : (query_depth q <= n)%nat ->
  match lower_lateral_subquery rec q c with
  | Ok (g, _) => exists p, laid_out g p /\ p_tables p = reads_in (query_mentions q) | Err _ => True | Panic => False
  end.
Proof using Hrec.
  intros Hd. destruct q as [r]. unfold lower_lateral_subquery.
  destruct (bool_decide (is_Some (q_with r))); [done|]. destruct (_ || _); [done|].
  destruct (q_body r) as [s| | | | | |] eqn:Hb; try done.
  destruct (split_correlated_predicates (sl_selection s) (relation_names s)) as [pairs remaining] eqn:Hsp.
  pose proof (split_correlated_mentions (sl_selection s) (relation_names s)) as Hm. rewrite Hsp in Hm. cbn [snd] in Hm.
  set (r' := {| q_with := q_with r |}).
  assert (query_mentions (Query_ r') = query_mentions (Query_ r)) as Hq.
  { cbn [query_mentions r' q_body]. rewrite Hb. cbn [body_mentions sl_from sl_selection]. unfold opt_mentions in Hm. by rewrite Hm. }
  pose proof (Hrec (Query_ r')) as Hg. rewrite Hq in Hg.
  destruct (rec (Query_ r') c) as [g|e|]; simpl; [apply Hg|done|apply Hg];
    (etrans; [|exact Hd]; eapply lateral_depth; [exact Hb | by rewrite Hsp]).
Qed.

Lemma join_good m p j : laid_out m p -> (factor_depth (jn_relation j) <= n)%nat ->
  good (p_tables p ++ reads_in (factor_mentions (jn_relation j))) (lower_join rec m j c).
Proof using Hctx Hrec.
  intros Hm Hd. unfold lower_join.
  assert (match (match jn_relation j with
                 | TF_Derived true subquery _ => lower_lateral_subquery rec subquery c
                 | relation => let? g := lower_table_factor rec relation c in Ok (g, [])
                 end) with
          | Ok (g, _) => exists p, laid_out g p /\ p_tables p = reads_in (factor_mentions (jn_relation j)) | Err _ => True | Panic => False
          end) as Hright.
  { pose proof (factor_good (jn_relation j) Hd) as Hf. destruct (jn_relation j) as [| [] q alias|]; try (by apply lateral_good);
      destruct (lower_table_factor rec _ c); done. }
  destruct (match jn_relation j with TF_Table _ _ _ => _ | _ => _ end) as [[g keys]|e|]; [|done..].
  destruct Hright as (r & Hr & Ht). cbn [exec_bind].
  destruct (@append_graph_spec _ SqlError m g (lo_wf m p Hm) (lo_wf g r Hr)) as (m1 & -> & Hw1 & Hn1 & He1 & _). cbn [exec_bind].
  apply good_bind_total; [apply join_keys_no_panic|].
  intros [kind on] Hkind%join_keys_kind. case_bool_decide; [done|].
  pose proof (binary_laid_out m m1 p g r (Join kind (on ++ keys)) Hm Hr eq_refl Hw1 Hn1 He1) as Hb.
  destruct (mir_add_node m1 (Join kind (on ++ keys))) as [node g']. exists (PBinary (Join kind (on ++ keys)) p r). split; [done|].
  simpl. rewrite Ht. by destruct kind.
Qed.

Lemma joins_good js : forall m p, laid_out m p -> Forall (fun j => (factor_depth (jn_relation j) <= n)%nat) js ->
  good (p_tables p ++ reads_in (flat_map (fun j => factor_mentions (jn_relation j)) js)) (lower_joins rec m js c).
Proof using Hctx Hrec.
  induction js as [|j js IH]; intros m p Hm Hd; simpl.
  - rewrite app_nil_r. exists p. done.
  - apply Forall_cons in Hd as [Hj Hd]. eapply good_bind; [by apply join_good|]. intros m' p' Hm' Ht.
    rewrite reads_app, app_assoc, <- Ht. by apply IH.
Qed.

Lemma from_good s : (body_depth (SE_Select s) <= n)%nat ->
  good (reads_in (flat_map (fun item => factor_mentions (tj_relation item) ++ flat_map (fun j => factor_mentions (jn_relation j)) (tj_joins item)) (sl_from s)))
    (lower_from rec s c).
Proof using Hctx Hrec.
  intros Hd. unfold lower_from. pose proof (select_factor_depth s) as Hf. destruct (sl_from s) as [|item [|]]; [done| |done].
  simpl. rewrite app_nil_r, reads_app. unfold lower_table_with_joins. eapply good_bind.
  - apply factor_good. etrans; [|exact Hd]. apply (Hf item); [left|by left].
  - intros m p Hm <-. apply joins_good; [done|]. apply Forall_forall. intros j Hj. etrans; [|exact Hd].
    apply (Hf item); [left|]. right. eauto.
Qed.

Lemma exists_good q : (query_depth q <= n)%nat ->
  match lower_exists_subquery rec q c with
  | Ok (g, _) => exists p, laid_out g p /\ p_tables p = reads_in (query_mentions q) | Err _ => True | Panic => False
  end.
Proof using Hctx Hrec.
  intros Hd. destruct q as [r]. unfold lower_exists_subquery. destruct (bool_decide (is_Some (q_with r))); [done|].
  destruct (_ || _); [done|]. pose proof (body_below r) as Hbelow. cbn [query_mentions].
  destruct (q_body r) as [s| | | | | |]; try done. cbn zeta.
  destruct (negb _); [done|]. destruct (bool_decide (is_Some (sl_having s))); [done|].
  pose proof (split_correlated_mentions (sl_selection s) (relation_names s)) as Hm.
  destruct (split_correlated_predicates (sl_selection s) (relation_names s)) as [pairs remaining]. cbn [snd] in Hm.
  destruct (bool_decide (pairs = [])); [done|]. pose proof (from_good s ltac:(lia)) as Hg.
  destruct (lower_from rec s c) as [g| |]; [|done..]. destruct Hg as (p & Hp & Ht). cbn [exec_bind body_mentions].
  rewrite reads_app, <- Ht. change (opt_list expr_mentions (sl_selection s)) with (opt_mentions (sl_selection s)). rewrite <- Hm.
  destruct remaining as [e|]; [|exists p; by rewrite app_nil_r]. destruct (contains_exists e) eqn:He; [done|].
  unfold opt_mentions. simpl. rewrite (no_exists_mentions e He), app_nil_r. eexists.
  split; [by apply push_unary_laid_out|]. by apply p_tables_unary.
Qed.

Lemma terms_good ts : forall m p, laid_out m p -> Forall (fun t => (query_depth (et_subquery t) <= n)%nat) ts ->
  good (p_tables p ++ reads_in (term_mentions ts)) (lower_exists_terms rec m ts c).
Proof using Hctx Hrec.
  induction ts as [|t ts IH]; intros m p Hm Hd; simpl.
  - rewrite app_nil_r. exists p. done.
  - apply Forall_cons in Hd as [Ht Hd]. pose proof (exists_good (et_subquery t) Ht) as He.
    destruct (lower_exists_subquery rec (et_subquery t) c) as [[g keys]| |]; [|done..]. destruct He as (r & Hr & Hrt). cbn [exec_bind].
    eapply good_bind; [by apply (push_binary_good (p_tables p) (p_tables r) m p g r)|]. intros m' p' Hm' Hp'.
    unfold term_mentions in *. simpl. rewrite reads_app, reads_hide_if, app_assoc, <- Hrt.
    replace (hide_if (et_negated t) (p_tables r)) with (hide_if (anti_kind (Join (if et_negated t then JK_Anti else JK_Semi) keys)) (p_tables r))
      by (by destruct (et_negated t)).
    rewrite <- Hp'. by apply IH.
Qed.

Lemma where_good m p sel : laid_out m p -> (opt_list (fun e => [expr_depth e]) sel = [] \/ exists e, sel = Some e /\ (expr_depth e <= n)%nat) ->
  good (p_tables p ++ reads_in (opt_mentions sel)) (lower_where rec m sel c).
Proof using Hctx Hrec.
  intros Hm Hd. destruct sel as [e|]; [|exists p; simpl; by rewrite app_nil_r].
  destruct Hd as [Hd|(e' & [= <-] & Hd)]; [done|]. unfold opt_mentions. simpl. unfold split_exists_terms.
  rewrite collect_exists_mentions. pose proof (collect_exists_depth e) as Hdepth.
  destruct (collect_exists e) as [terms rest]. cbn [fst] in *.
  assert (Forall (fun t => (query_depth (et_subquery t) <= n)%nat) terms) as Hall.
  { apply Forall_forall. intros t Ht%Hdepth. lia. }
  destruct (reduce_and rest) as [scalar|]; cbn [exec_bind]; [|by apply terms_good].
  destruct (contains_exists scalar); [done|]. cbn [exec_bind].
  pose proof (push_unary_laid_out m p (Filter (canonical_predicate scalar)) Hm eq_refl) as Hl.
  rewrite <- (p_tables_unary (Filter (canonical_predicate scalar)) p eq_refl). by apply terms_good.
Qed.

Lemma grouping_good m p s : laid_out m p -> good (p_tables p) (lower_grouping m s).
Proof using.
  intros Hm. unfold lower_grouping.
  apply good_bind_total; [destruct (sl_group_by s) as [? []|]; try done; apply mapM_no_panic, column_ref_no_panic|]. intros group_by _.
  apply good_bind_total; [apply aggregates_no_panic|]. intros aggs _.
  apply good_bind_total; [destruct (sl_having s); [|done]; case_match; [done|]; apply bind_no_panic; [apply having_no_panic|by intros []]|].
  intros [predicate aggs'] _. eapply (good_bind (p_tables p)).
  - case_match; [by eapply push_unary_good|]. case_match; [done|]. exists p. done.
  - intros m' p' Hm' <-. destruct predicate; [by eapply push_unary_good | exists p'; done].
Qed.

Lemma select_good s : (body_depth (SE_Select s) <= n)%nat -> good (reads_in (body_mentions (SE_Select s))) (lower_select_body rec s c).
Proof using Hctx Hrec.
  intros Hd. unfold lower_select_body.
  apply good_bind_total; [unfold reject_select_features_not_lowered; by repeat case_match|]. intros _ _.
  cbn [body_mentions]. change (opt_list expr_mentions (sl_selection s)) with (opt_mentions (sl_selection s)).
  rewrite reads_app. eapply good_bind; [by apply from_good|]. intros m p Hm <-.
  eapply good_bind.
  - apply where_good; [done|]. destruct (sl_selection s) as [e|] eqn:Hsel; [right|by left]. exists e. split; [done|].
    pose proof (select_selection_depth s e Hsel). lia.
  - intros m2 p2 Hm2 <-. eapply good_bind; [by apply grouping_good|]. intros m3 p3 Hm3 <-.
    pose proof (push_unary_laid_out m3 p3 (Project (map select_item_name (sl_projection s))) Hm3 eq_refl) as Hl.
    destruct (sl_distinct s) as [[]|]; cbn [lower_distinct];
      [eapply push_unary_good; [exact Hl | by apply p_tables_unary | done]..|]. eexists. split; [exact Hl | by apply p_tables_unary].
Qed.

Lemma body_good b : (body_depth b <= n)%nat -> good (reads_in (body_mentions b)) (lower_set_expr rec b c).
Proof using Hctx Hrec.
  induction b as [s|q|op quantifier l IHl r IHr| | | |]; intros Hd; try done.
  - by apply select_good.
  - by apply Hrec.
  - simpl in *. rewrite reads_app. apply good_bind_total; [by destruct quantifier|]. intros k _.
    eapply good_bind; [apply IHl; lia|]. intros m p Hm Ht. eapply good_bind; [apply IHr; lia|]. intros m' p' Hm' Ht'.
    pose proof (push_binary_good _ _ m p m' p' (set_operation_kind op k) Hm Ht Hm' Ht' ltac:(by destruct op)) as Hg.
    by destruct op.
Qed.
End Step.

Lemma query_good n : forall q c tables, context_ok c tables -> (query_depth q <= n)%nat ->
  good (reads tables (lc_recursive c) (query_mentions q)) (lower_query_with_context n q c).
Proof.
  induction n as [|n IH]; intros [r] c tables Hctx Hd; pose proof (body_below r) as Hb; [lia|].
  cbn [lower_query_with_context query_ query_mentions]. eapply good_bind.
  - apply (body_good _ n c tables Hctx); [|lia]. intros q Hq. by apply IH.
  - intros m p Hm <-. by apply order_limit_good.
Qed.

Lemma recursive_good n c cte tables : context_ok c tables -> (query_depth (cte_query cte) <= n)%nat -> lc_recursive c = ∅ ->
  (0 < count_relation_references (query_nodes (cte_query cte)) (id_value (al_name (cte_alias cte))))%nat ->
  good (one_cte_reads true cte tables) (lower_recursive_cte (lower_query_with_context n) cte c).
Proof.
  intros Hctx Hd Hempty Hself. unfold one_cte_reads, lower_recursive_cte. rewrite (proj2 (Nat.ltb_lt _ _) Hself). simpl andb. cbn iota.
  destruct (cte_query cte) as [r] eqn:Hq. cbn [query_]. pose proof (body_below r) as Hbelow.
  destruct (q_body r) as [| |[] quantifier l r'| | | |]; try done. cbn [body_depth] in Hbelow.
  assert (forall c', context_ok c' tables -> forall q, (query_depth q <= n)%nat -> good (reads tables (lc_recursive c') (query_mentions q)) (lower_query_with_context n q c')) as Hrec
    by (intros c' Hc' q Hle; by apply query_good).
  apply good_bind_total; [by destruct quantifier|]. intros k _.
  eapply good_bind; [apply (body_good _ n c tables Hctx (Hrec c Hctx)); lia|]. intros m p Hm Ht. rewrite Hempty in Ht.
  set (c' := {| lc_ctes := lc_ctes c |}). assert (context_ok c' tables) as Hc' by exact Hctx.
  assert (lc_recursive c' = {[text_string (id_value (al_name (cte_alias cte)))]}) as Hr by (cbn; rewrite Hempty; set_solver).
  eapply good_bind; [apply (body_good _ n c' tables Hc' (Hrec c' Hc')); lia|]. intros m' p' Hm' Ht'. rewrite Hr in Ht'.
  eapply good_bind; [eapply push_binary_good; [exact Hm | exact Ht | exact Hm' | exact Ht' | done]|].
  cbn [anti_kind hide_if]. intros m2 p2 Hm2 <-. by apply order_limit_good.
Qed.

Lemma context_insert c tables name g p :
  context_ok c tables -> laid_out g p ->
  context_ok {| lc_ctes := <[name := g]> (lc_ctes c); lc_recursive := lc_recursive c |} (<[name := p_tables p]> tables).
Proof.
  intros Hctx Hg name'. simpl. destruct (decide (name' = name)) as [->|Hne].
  - rewrite !lookup_insert_eq. eauto.
  - rewrite !lookup_insert_ne by done. apply Hctx.
Qed.

Lemma ctes_good n recursive ctes : forall c tables, context_ok c tables -> lc_recursive c = ∅ ->
  Forall (fun cte => (query_depth (cte_query cte) <= n)%nat) ctes ->
  match lower_ctes n recursive ctes c with
  | Ok c' => context_ok c' (cte_reads recursive ctes tables) /\ lc_recursive c' = ∅ | Err _ => True | Panic => False
  end.
Proof.
  induction ctes as [|cte ctes IH]; intros c tables Hctx Hempty Hd; simpl; [done|]. apply Forall_cons in Hd as [Hc Hd].
  assert (good (one_cte_reads recursive cte tables)
    (if recursive && (0 <? count_relation_references (query_nodes (cte_query cte)) (id_value (al_name (cte_alias cte))))%nat
     then lower_recursive_cte (lower_query_with_context n) cte c else lower_query_with_context n (cte_query cte) c)) as Hg.
  { destruct recursive; simpl; [destruct (Nat.ltb_spec 0 (count_relation_references (query_nodes (cte_query cte)) (id_value (al_name (cte_alias cte)))))|].
    - by apply recursive_good.
    - unfold one_cte_reads. rewrite (proj2 (Nat.ltb_ge _ _)) by done. simpl. rewrite <- Hempty. by apply query_good.
    - unfold one_cte_reads. simpl. rewrite <- Hempty. by apply query_good. }
  destruct (if recursive && _ then _ else _) as [g|e|]; [|done..]. destruct Hg as (p & Hp & <-). simpl.
  apply IH; [by apply context_insert | done | done].
Qed.

Lemma with_below r w c : q_with r = Some w -> c ∈ with_ctes w -> (S (query_depth (cte_query c)) <= query_depth (Query_ r))%nat.
Proof.
  intros Hw Hin. simpl. apply le_n_S, list_max_elem. unfold query_parts. rewrite !elem_of_app. left. rewrite Hw. simpl.
  apply list_elem_of_In, in_flat_map. exists c. split; [by apply list_elem_of_In | by left].
Qed.

Lemma lower_query_good q : good (query_reads q) (lower_query q).
Proof.
  destruct q as [r]. unfold lower_query, query_reads. cbn [query_].
  assert (context_ok LowerContext_default ∅) as Hnone by (intros name; cbn; by rewrite !lookup_empty).
  destruct (q_with r) as [w|] eqn:Hw; cbn [exec_bind].
  - pose proof (ctes_good (query_depth (Query_ r)) (with_recursive w) (with_ctes w) _ _ Hnone eq_refl) as Hc.
    destruct (lower_ctes _ _ _ _) as [c|e|]; cbn [exec_bind]; [|done|].
    + destruct Hc as [Hctx Hempty]; [apply Forall_forall; intros cte Hin; pose proof (with_below r w cte Hw Hin); lia|].
      rewrite <- Hempty. by apply query_good.
    + apply Hc. apply Forall_forall. intros cte Hin. pose proof (with_below r w cte Hw Hin). lia.
  - by apply (query_good _ _ LowerContext_default).
Qed.
End LowerExact.

(** * The text of a WHERE clause *)

Section Canonical.
Context `{SqlSyntax}.

Fixpoint conjuncts (e : SqlExpr) : list SqlExpr :=
  match e with
  | X_BinaryOp l BO_And r => conjuncts l ++ conjuncts r
  | _ => [e]
  end.

(** The same conjunct, or an equality with its sides exchanged. *)
Inductive same_conjunct : SqlExpr -> SqlExpr -> Prop :=
| same_refl e : same_conjunct e e
| same_swap l r : same_conjunct (X_BinaryOp l BO_Eq r) (X_BinaryOp r BO_Eq l).

Lemma canonical_equality_comm l r : canonical_equality l r = canonical_equality r l.
Proof.
  unfold canonical_equality. set (a := (operand_sort_key l, canonical_expr l)). set (b := (operand_sort_key r, canonical_expr r)).
  rewrite (cmp_antisym a b). destruct (cmp a b) eqn:E; simpl; try done.
  apply cmp_eq in E. unfold a, b in E. injection E as E1 E2. by rewrite E2.
Qed.

Lemma same_conjunct_text e e' : same_conjunct e e' -> canonical_conjunct e = canonical_conjunct e'.
Proof. destruct 1 as [|l r]; [done|]. apply canonical_equality_comm. Qed.

Lemma flatten_and_conjuncts e : flatten_and e = map canonical_conjunct (conjuncts e).
Proof.
  induction e as [| | | |l IHl op r IHr| | | | | | | | | | | | | | | | | | | | |]; try done.
  destruct op; try done. simpl. by rewrite IHl, IHr, map_app.
Qed.

Lemma canonical_predicate_text e : canonical_predicate e = join (lit " AND ") (slice_sort (map canonical_conjunct (conjuncts e))).
Proof.
  destruct e as [| | | |l op r| | | | | | | | | | | | | | | | | | | | |]; try done. destruct op; try done.
  cbn [canonical_predicate conjuncts]. by rewrite map_app, !flatten_and_conjuncts.
Qed.

(** The text of a WHERE clause does not depend on the order or the grouping of its conjuncts, nor on
    which side of an equality is written first. *)
Theorem canonical_predicate_ac (e e' : SqlExpr) (l : list SqlExpr) :
  conjuncts e ≡ₚ l -> Forall2 same_conjunct l (conjuncts e') -> canonical_predicate e = canonical_predicate e'.
Proof.
  intros Hp Hs. rewrite !canonical_predicate_text. f_equal. apply slice_sort_eq_perm. rewrite Hp.
  apply Permutation_refl'. clear Hp. revert Hs. generalize (conjuncts e'). intros l' Hs.
  induction Hs as [|x y l l' Hx _ IH]; simpl; [done|]. by rewrite (same_conjunct_text x y Hx), IH.
Qed.

(** Parentheses around a disjunction leave no trace: a conjunct that is one reads, in the text of the
    conjunction, as if the conjunction bound its last part only. *)
Lemma canonical_nested_or a b c :
  cmp (canonical_expr (X_BinaryOp a BO_Or b)) (canonical_conjunct c) <> Gt -> conjuncts c = [c] ->
  canonical_predicate (X_BinaryOp (X_Nested (X_BinaryOp a BO_Or b)) BO_And c) =
  canonical_expr a ++ lit " " ++ binary_operator_text BO_Or ++ lit " " ++ canonical_expr b ++ lit " AND " ++ canonical_conjunct c.
Proof.
  intros Hle Hc. rewrite canonical_predicate_text. cbn [conjuncts]. rewrite Hc. cbn [app map canonical_conjunct].
  change (canonical_expr (X_Nested ?e)) with (canonical_expr e). unfold slice_sort. cbn [foldr sort_insert].
  destruct (cmp (canonical_expr (X_BinaryOp a BO_Or b)) (canonical_conjunct c)) eqn:E; try done; cbn [join canonical_expr]; by rewrite <- !app_assoc.
Qed.
End Canonical.

(** * Resolving aliases *)

(** ** The FROM clause, for any observation of its factors and constraints *)

Section FromSame.
Context {R : Type} (fe : SqlExpr -> list R) (ff : TableFactor -> list R).

Definition expr_same (e : SqlExpr) : Prop := forall scopes, fe (resolve_expr scopes e) = fe e.
Definition factor_same (f : TableFactor) : Prop := forall scopes local, ff (bind_table_factor scopes f local).1 = ff f.
Definition operator_same (o : JoinOperator SqlExpr) : Prop :=
  forall scopes, operator_parts fe (resolve_operator resolve_expr scopes o) = operator_parts fe o.
Definition join_same (j : Join_) : Prop := factor_same (jn_relation j) /\ operator_same (jn_operator j).
Definition item_same (i : FromItem) : Prop := factor_same (tj_relation i) /\ Forall join_same (tj_joins i).

Lemma bind_joins_same outer scopes joins : Forall join_same joins -> forall local,
  flat_map (join_parts fe ff) (zip_with (resolve_join resolve_expr scopes) joins (bind_joins bind_table_factor outer joins local).1) =
  flat_map (join_parts fe ff) joins.
Proof.
  induction 1 as [|j joins [Hf Ho] _ IH]; intros local; simpl; [done|].
  specialize (Hf outer local). destruct (bind_table_factor outer (jn_relation j) local) as [rel local1]. cbn [fst] in Hf.
  specialize (IH local1). destruct (bind_joins bind_table_factor outer joins local1) as [rs local2]. cbn [fst] in *.
  simpl. rewrite IH. unfold join_parts at 1. cbn [jn_relation jn_operator resolve_join]. by rewrite Hf, Ho.
Qed.

Lemma bind_from_same outer scopes from : Forall item_same from -> forall local,
  flat_map (from_parts fe ff) (zip_with (resolve_from_item resolve_expr scopes) from (bind_from bind_table_factor outer from local).1) =
  flat_map (from_parts fe ff) from.
Proof.
  induction 1 as [|i from [Hf Hj] _ IH]; intros local; simpl; [done|].
  specialize (Hf outer local). destruct (bind_table_factor outer (tj_relation i) local) as [rel local1]. cbn [fst] in Hf.
  pose proof (bind_joins_same outer scopes (tj_joins i) Hj local1) as Hjs.
  destruct (bind_joins bind_table_factor outer (tj_joins i) local1) as [rs local2]. specialize (IH local2).
  destruct (bind_from bind_table_factor outer from local2) as [fs local3]. cbn [fst] in *.
  simpl. rewrite IH. unfold from_parts at 1. cbn [tj_relation tj_joins resolve_from_item fst snd]. by rewrite Hf, Hjs.
Qed.
End FromSame.

(** ** The relations of a tree *)

(** What a pass over the nodes sees of the parts is the parts of what it sees. *)
Lemma relations_app a b : relations_in (a ++ b) = relations_in a ++ relations_in b.
Proof. apply filter_map_app. Qed.

Lemma relations_flat_map {A} (f : A -> list Node) l : relations_in (flat_map f l) = flat_map (fun x => relations_in (f x)) l.
Proof. induction l as [|x l IH]; simpl; [done|]. by rewrite relations_app, IH. Qed.

Lemma relations_from l :
  relations_in (flat_map (from_parts expr_nodes factor_nodes) l) =
  flat_map (from_parts (fun e => relations_in (expr_nodes e)) (fun f => relations_in (factor_nodes f))) l.
Proof.
  rewrite relations_flat_map. apply flat_map_ext. intros i. unfold from_parts. rewrite relations_app, relations_flat_map. f_equal.
  apply flat_map_ext. intros j. unfold join_parts. rewrite relations_app. f_equal.
  destruct (jn_operator j) as [[]|[]|[]|[]| |]; done.
Qed.

#[local] Arguments relations_in : simpl never.

(** The list cases of the recursion below: [same] handles an element. *)
Ltac same_list l same := induction l as [|? ? IHl]; simpl; [reflexivity | by rewrite !relations_app, same, IHl].

(** Structural recursion on the trees; lists inside a node by an inner induction. *)
Fixpoint resolve_expr_relations (e : SqlExpr) : forall scopes, relations_in (expr_nodes (resolve_expr scopes e)) = relations_in (expr_nodes e)
with resolve_query_relations (q : Query) : forall scopes, relations_in (query_nodes (resolve_query scopes q)) = relations_in (query_nodes q)
with resolve_body_relations (b : SetExpr) : forall outer, relations_in (body_nodes (resolve_set_expr outer b).1) = relations_in (body_nodes b)
with bind_factor_relations (f : TableFactor) : forall scopes local,
  relations_in (factor_nodes (bind_table_factor scopes f local).1) = relations_in (factor_nodes f).
Proof.
  - intros scopes. destruct e; cbn [resolve_expr expr_nodes]; change (relations_in (N_Expr ?e :: ?l)) with (relations_in l);
      rewrite ?relations_app, ?resolve_expr_relations, ?resolve_query_relations; try reflexivity.
    + f_equal. same_list elements resolve_expr_relations.
    + f_equal; [destruct operand; simpl; [apply resolve_expr_relations | reflexivity]|].
      f_equal; [same_list conditions resolve_expr_relations|]. f_equal; [same_list results resolve_expr_relations|].
      destruct else_result; simpl; [apply resolve_expr_relations | reflexivity].
    + same_list elements resolve_expr_relations.
    + destruct args as [|q|d args]; simpl; [reflexivity|apply resolve_query_relations|].
      induction args as [|a l IH]; simpl; [reflexivity|]. rewrite !relations_app, IH. f_equal. destruct a as [[]| | |]; reflexivity || apply resolve_expr_relations.
  - intros scopes. destruct q as [[w b o l lb f ft]]. cbn [resolve_query q_body q_with q_order_by q_limit q_limit_by q_offset q_fetch].
    pose proof (resolve_body_relations b scopes) as Hb. destruct (resolve_set_expr scopes b) as [b' local]. cbn [fst] in Hb.
    cbn [query_nodes]. unfold query_parts. cbn [q_body q_with q_order_by q_limit q_limit_by q_offset q_fetch].
    change (relations_in (N_Query ?q :: ?l)) with (relations_in l). rewrite !relations_app, Hb. f_equal; [|f_equal; f_equal].
    + destruct w as [[rc ctes]|]; [|reflexivity]. cbn. unfold with_parts. cbn [with_ctes]. induction ctes as [|[a q] ctes IH]; simpl; [reflexivity|].
      by rewrite !relations_app, resolve_query_relations, IH.
    + destruct o as [o|]; [|reflexivity]. cbn. induction o as [|[e a] o IH]; simpl; [reflexivity|]. by rewrite !relations_app, resolve_expr_relations, IH.
  - intros outer. destruct b as [[dist top proj into from sel gb hav ns]|q|op k l r| | | |]; cbn [resolve_set_expr fst body_nodes]; try reflexivity.
    + assert (Forall (item_same (fun e => relations_in (expr_nodes e)) (fun f => relations_in (factor_nodes f))) from) as Hsame.
      { clear -resolve_expr_relations bind_factor_relations. induction from as [|[rel joins] from IH]; constructor; [split|exact IH];
          [exact (bind_factor_relations rel)|]. cbn [tj_joins].
        induction joins as [|[jrel jop] joins IHj]; constructor; [split|exact IHj]; [exact (bind_factor_relations jrel)|]. cbn [jn_operator].
        intros scopes. destruct jop as [[]|[]|[]|[]| |]; reflexivity || apply resolve_expr_relations. }
      unfold resolve_select. cbn [sl_from sl_distinct sl_top sl_projection sl_into sl_selection sl_group_by sl_having sl_nonstandard].
      pose proof (fun scopes => bind_from_same _ _ outer scopes from Hsame ∅) as Hfrom.
      destruct (bind_from bind_table_factor outer from ∅) as [from' local]. cbn [fst snd body_nodes] in *. unfold select_parts.
      cbn [sl_from sl_distinct sl_top sl_projection sl_into sl_selection sl_group_by sl_having sl_nonstandard].
      rewrite !relations_app, !relations_from, Hfrom. clear Hfrom Hsame.
      apply f_equal2; [|apply f_equal2; [|apply f_equal2; [reflexivity|apply f_equal2; [|apply f_equal2]]]].
      * destruct dist as [[|es]|]; try reflexivity. cbn. same_list es resolve_expr_relations.
      * induction proj as [|i l IH]; simpl; [reflexivity|]. rewrite !relations_app, IH. f_equal. destruct i; reflexivity || apply resolve_expr_relations.
      * destruct sel; [apply resolve_expr_relations | reflexivity].
      * destruct gb as [es m|m]; [|reflexivity]. cbn. same_list es resolve_expr_relations.
      * destruct hav; [apply resolve_expr_relations | reflexivity].
    + apply resolve_query_relations.
    + by rewrite !relations_app, !resolve_body_relations.
  - intros scopes local. destruct f as [name [[a []]|] args|lateral q alias|]; cbn [bind_table_factor]; try reflexivity;
      [destruct name as [|? []]; reflexivity..|]. apply resolve_query_relations.
Qed.

(** ** What a query reads *)

Lemma from_factors_parts l :
  flat_map (fun item => factor_mentions (tj_relation item) ++ flat_map (fun j => factor_mentions (jn_relation j)) (tj_joins item)) l =
  flat_map (from_parts (fun _ : SqlExpr => []) factor_mentions) l.
Proof.
  apply flat_map_ext. intros i. unfold from_parts. f_equal. apply flat_map_ext. intros j. unfold join_parts.
  by destruct (jn_operator j) as [[]|[]|[]|[]| |]; simpl; rewrite app_nil_r.
Qed.

Fixpoint resolve_expr_mentions (e : SqlExpr) : forall scopes, expr_mentions (resolve_expr scopes e) = expr_mentions e
with resolve_query_mentions (q : Query) : forall scopes, query_mentions (resolve_query scopes q) = query_mentions q
with resolve_body_mentions (b : SetExpr) : forall outer, body_mentions (resolve_set_expr outer b).1 = body_mentions b
with bind_factor_mentions (f : TableFactor) : forall scopes local, factor_mentions (bind_table_factor scopes f local).1 = factor_mentions f.
Proof.
  - intros scopes. destruct e as [| |e| |l op r|op e| | | | | | | | | | | | | | |n args o|q| | | |]; try reflexivity.
    + destruct e; try reflexivity. cbn [resolve_expr expr_mentions]. by rewrite resolve_query_mentions.
    + destruct op; try reflexivity. cbn [resolve_expr expr_mentions]. by rewrite !resolve_expr_mentions.
    + destruct op; try reflexivity. destruct e as [| |e| | | | | | | | | | | | | | | | | |? ?|q| | | |]; try reflexivity.
      * destruct e; try reflexivity. cbn [resolve_expr expr_mentions]. by rewrite resolve_query_mentions.
      * cbn [resolve_expr expr_mentions]. by rewrite resolve_query_mentions.
    + cbn [resolve_expr expr_mentions]. by rewrite resolve_query_mentions.
  - intros scopes. destruct q as [r]. destruct r as [w b o l lb f ft]. cbn [resolve_query q_body].
    pose proof (resolve_body_mentions b scopes) as Hb. destruct (resolve_set_expr scopes b) as [b' local]. exact Hb.
  - intros outer. destruct b as [[dist top proj into from sel gb hav ns]|q|op k l r| | | |]; cbn [resolve_set_expr fst]; try reflexivity.
    + assert (Forall (item_same (fun _ => []) factor_mentions) from) as Hsame.
      { clear -bind_factor_mentions. induction from as [|[rel joins] from IH]; constructor; [split|exact IH]; [exact (bind_factor_mentions rel)|].
        cbn [tj_joins]. induction joins as [|[jrel jop] joins IHj]; constructor; [split|exact IHj]; [exact (bind_factor_mentions jrel)|].
        intros scopes. cbn [jn_operator]. destruct jop as [[]|[]|[]|[]| |]; reflexivity. }
      unfold resolve_select. cbn [sl_from sl_distinct sl_top sl_projection sl_into sl_selection sl_group_by sl_having sl_nonstandard].
      pose proof (fun scopes => bind_from_same _ _ outer scopes from Hsame ∅) as Hfrom.
      destruct (bind_from bind_table_factor outer from ∅) as [from' local]. cbn [fst snd body_mentions sl_from sl_selection] in *.
      rewrite !from_factors_parts, Hfrom. f_equal. destruct sel; [apply resolve_expr_mentions | reflexivity].
    + apply resolve_query_mentions.
    + cbn [body_mentions]. by rewrite !resolve_body_mentions.
  - intros scopes local. destruct f as [name alias args|lateral q alias|]; cbn [bind_table_factor].
    + destruct alias as [[a []]|]; [..|reflexivity]; destruct name as [|? []]; reflexivity.
    + apply resolve_query_mentions.
    + reflexivity.
Qed.

Section Reads.
Context `{SqlSyntax}.

Lemma resolve_cte_reads recursive a q known :
  one_cte_reads recursive {| cte_alias := a; cte_query := resolve_query [] q |} known = one_cte_reads recursive {| cte_alias := a; cte_query := q |} known.
Proof.
  unfold one_cte_reads. cbn [cte_alias cte_query]. rewrite resolve_query_mentions.
  assert (forall name, count_relation_references (query_nodes (resolve_query [] q)) name = count_relation_references (query_nodes q) name) as Hc
    by (intros name; unfold count_relation_references; by rewrite resolve_query_relations).
  rewrite Hc. destruct (recursive && _); [|done]. destruct q as [[w b o l lb f ft]]. cbn [resolve_query q_body query_].
  destruct b as [s|q|op k b1 b2| | | |]; cbn [resolve_set_expr query_ q_body]; try done.
  - by destruct (resolve_select resolve_expr bind_table_factor [] s).
  - by rewrite !resolve_body_mentions.
Qed.

Lemma resolve_query_reads q : query_reads (resolve_from_aliases q) = query_reads q.
Proof.
  unfold query_reads, resolve_from_aliases. rewrite resolve_query_mentions. f_equal. destruct q as [[w b o l lb f ft]]. cbn [resolve_query q_body].
  destruct (resolve_set_expr [] b) as [b' local]. cbn [query_ q_with]. destruct w as [[rc ctes]|]; [|done].
  cbn [fmap option_fmap option_map with_recursive with_ctes]. unfold cte_reads. generalize (∅ : gmap string (list (occurrence text))).
  induction ctes as [|[a q] ctes IH]; intros known; simpl; [done|]. rewrite resolve_cte_reads. apply IH.
Qed.
End Reads.
