(* ===== verification/SqlParser.v ===== *)
(** * SqlParser: parsing and validation of queries
    ([crates/palimpsest-sql/src/parser.rs], the entry points of [lower.rs])

    The bounds on the text, the parser of [sqlparser], and the walk that refuses what
    the engine does not evaluate. The functions that reach subqueries take
    [validate_query] as an argument; its fuel is the depth at which queries nest.
    Validation and lowering always answer, and what they accept is a tree of operators
    over the tables the query reads. *)

From stdpp Require Import gmap.
From S2P Require Import Prelude BTree Text UserContext SqlLimits Exprs SqlAst Permissions Mir CompileMir Lower LowerFacts.

Definition is_user_placeholder (ident : text) : bool :=
  (length USER_PLACEHOLDER_PREFIX + length USER_PLACEHOLDER_SUFFIX <? length ident)%nat
  && starts_with USER_PLACEHOLDER_PREFIX ident && bool_decide (is_Some (strip_suffix USER_PLACEHOLDER_SUFFIX ident)).

Section Parser.
Context `{SqlSyntax} `{EvalRuntime} `{PetGraph MirNodeKind MirEdgeKind}.

(** ** Parsing *)

Definition parse_single_query (sql : text) (limits : QueryLimits) : exec SqlError Statement :=
  let? _ := enforce_input_size sql limits in
  let? _ := enforce_nesting_depth sql limits in
  match tokenize sql with
  | Some message => Err (ParseError message)
  | None =>
      match parse_statements (max_nesting_depth limits) sql with
      | inl RecursionLimitExceeded => Err (QueryTooDeep (max_nesting_depth limits) (max_nesting_depth limits))
      | inl (OtherParserError message) => Err (ParseError message)
      | inr [S_Query q] => Ok (S_Query q)
      | inr [S_Other] => Err UnsupportedStatement
      | inr statements => Err (StatementCount (length statements))
      end
  end.

(** ** Joins *)

Definition is_column (e : SqlExpr) : bool := match e with X_Identifier _ | X_CompoundIdentifier _ => true | _ => false end.

Fixpoint is_equi_join_predicate (e : SqlExpr) : bool :=
  match e with
  | X_Value (V_Boolean true) => true
  | X_BinaryOp l BO_Eq r => is_column l && is_column r
  | X_BinaryOp l BO_And r => is_equi_join_predicate l && is_equi_join_predicate r
  | _ => false
  end.

Definition validate_join_constraint (c : JoinConstraint SqlExpr) : exec SqlError unit :=
  match c with
  | JC_On e => if is_equi_join_predicate e then Ok tt else Err (UnsupportedFeature "theta joins")
  | JC_Using _ | JC_Natural | JC_None => Ok tt
  end.

Definition validate_join_operator (o : JoinOperator SqlExpr) : exec SqlError unit :=
  match o with
  | JO_RightOuter _ => Err (UnsupportedFeature "RIGHT JOIN")
  | JO_FullOuter _ => Err (UnsupportedFeature "FULL JOIN")
  | JO_Inner c | JO_LeftOuter c => validate_join_constraint c
  | JO_CrossJoin => Ok tt
  | JO_Other => Err (UnsupportedFeature "non-standard joins")
  end.

(** ** Recursive CTEs *)

Definition validate_recursive_cte (c : Cte Query) : exec SqlError unit :=
  let name := id_value (al_name (cte_alias c)) in
  let refuse suffix := Err (InvalidQuery (lit "recursive CTE " ++ name ++ lit suffix)) in
  match q_body (query_ (cte_query c)) with
  | SE_SetOperation SO_Union _ l r =>
      if (0 <? count_relation_references (body_nodes l) name)%nat
      then refuse " must not reference itself in the base (non-recursive) term"
      else
        match count_relation_references (body_nodes r) name with
        | 1%nat => Ok tt
        | O => refuse " must reference itself in the recursive term"
        | _ => refuse " may reference itself only once (non-linear recursion)"
        end
  | _ => refuse " must have the form 'base term UNION [ALL] recursive term'"
  end.

(** ** Expressions *)

Definition evaluable_functions : list text := aggregate_names ++ [lit "coalesce"; lit "cardinality"].

Definition is_comparison (op : BinaryOperator) : bool :=
  match op with BO_Eq | BO_NotEq | BO_Lt | BO_LtEq | BO_Gt | BO_GtEq => true | _ => false end.

Section Open.
Context (rec : Query -> exec SqlError unit).

(** [pre_visit_expr]; the operators without a constructor of their own are [BO_Other] and [UO_Other]. *)
Definition check_expr (e : SqlExpr) : exec SqlError unit :=
  match e with
  | X_Function _ _ true => Err (UnsupportedFeature "window functions")
  | X_Function fn _ false =>
      let name := ascii_lower (object_name_text fn) in
      if bool_decide (name ∈ evaluable_functions) then Ok tt else Err (UnsupportedFunction name)
  | X_Exists q _ => rec q
  | X_InSubquery _ _ _ | X_Subquery _ => Err (UnsupportedFeature "scalar subqueries with unbounded result")
  | X_Identifier _ | X_CompoundIdentifier _ | X_Nested _ | X_IsNull _ | X_IsNotNull _ | X_IsTrue _ | X_IsFalse _
  | X_IsDistinctFrom _ _ | X_IsNotDistinctFrom _ _ | X_Between _ _ _ _ | X_InList _ _ _ | X_Case _ _ _ _ | X_Array _ _ => Ok tt
  | X_Value v =>
      match v with
      | V_Placeholder _ | V_Other _ => Err (UnsupportedFeature "unsupported literal form")
      | _ => Ok tt
      end
  | X_BinaryOp _ op _ => match op with BO_Other => Err (UnsupportedFeature "unsupported binary operator") | _ => Ok tt end
  | X_UnaryOp op _ => match op with UO_Other => Err (UnsupportedFeature "unsupported unary operator") | _ => Ok tt end
  | X_Like _ any _ _ _ | X_ILike _ any _ _ _ => if any then Err (UnsupportedFeature "LIKE ANY") else Ok tt
  | X_AnyOp _ op r =>
      let array_like := match r with
                        | X_Array _ _ | X_Value (V_SingleQuotedString _) => true
                        | X_Identifier i => is_user_placeholder (id_value i)
                        | _ => false
                        end in
      if is_comparison op && array_like then Ok tt
      else match r with
           | X_Subquery _ => Err (UnsupportedFeature "ANY over subqueries with unbounded result")
           | _ => Err (UnsupportedFeature "ANY over non-array expressions")
           end
  | X_Cast (CK_Cast | CK_DoubleColon) _ t false =>
      match from_cast_target t with Some _ => Ok tt | None => Err (UnsupportedFeature "unsupported cast target") end
  | X_Cast _ _ _ _ => Err (UnsupportedFeature "TRY_CAST / SAFE_CAST / CAST ... FORMAT")
  | X_Interval => Err (UnsupportedFeature "INTERVAL literals")
  | X_Other => Err (UnsupportedFeature "unsupported scalar expression")
  end.

Definition validate_expression_surface (q : Query) : exec SqlError unit := visit check_expr (exprs_in (query_nodes q)).

(** ** Bodies *)

Definition validate_table_factor (f : TableFactor) : exec SqlError unit :=
  match f with
  | TF_Table _ _ _ => Ok tt
  | TF_Derived _ q _ => rec q
  | TF_Other => Err (UnsupportedFeature "table functions or special table factors")
  end.

Fixpoint validate_joins (js : list Join_) : exec SqlError unit :=
  match js with
  | [] => Ok tt
  | j :: rest =>
      let? _ := validate_join_operator (jn_operator j) in
      let? _ := validate_table_factor (jn_relation j) in
      validate_joins rest
  end.
Definition validate_table_with_joins (t : FromItem) : exec SqlError unit :=
  let? _ := validate_table_factor (tj_relation t) in validate_joins (tj_joins t).

Fixpoint validate_from (from : list FromItem) : exec SqlError unit :=
  match from with
  | [] => Ok tt
  | t :: rest => let? _ := validate_table_with_joins t in validate_from rest
  end.
Definition validate_select (s : Select) : exec SqlError unit := validate_from (sl_from s).

Fixpoint validate_set_expr (b : SetExpr) : exec SqlError unit :=
  match b with
  | SE_Select s => validate_select s
  | SE_Query q => rec q
  | SE_SetOperation _ _ l r => let? _ := validate_set_expr l in validate_set_expr r
  | SE_Values => Err (UnsupportedFeature "VALUES queries")
  | SE_Insert => Err (UnsupportedFeature "INSERT in query body")
  | SE_Update => Err (UnsupportedFeature "UPDATE in query body")
  | SE_Table => Err (UnsupportedFeature "TABLE queries")
  end.

(** The loop over the CTEs. *)
Fixpoint validate_ctes (recursive : bool) (ctes : list (Cte Query)) : exec SqlError unit :=
  match ctes with
  | [] => Ok tt
  | c :: rest =>
      let? _ :=
        if recursive && (0 <? count_relation_references (query_nodes (cte_query c)) (id_value (al_name (cte_alias c))))%nat
        then validate_recursive_cte c else Ok tt in
      let? _ := rec (cte_query c) in
      validate_ctes recursive rest
  end.
End Open.

Fixpoint validate_query_fuel (fuel : nat) (q : Query) : exec SqlError unit :=
  match fuel with
  | O => Panic
  | S fuel =>
      let rec := validate_query_fuel fuel in
      let? _ := match q_with (query_ q) with Some w => validate_ctes rec (with_recursive w) (with_ctes w) | None => Ok tt end in
      let? _ := validate_expression_surface rec q in
      validate_set_expr rec (q_body (query_ q))
  end.
Definition validate_query (q : Query) : exec SqlError unit := validate_query_fuel (query_depth q) q.

(** ** Entry points *)

Definition parse_select_with_limits (sql : text) (limits : QueryLimits) : exec SqlError Statement :=
  let? statement := parse_single_query sql limits in
  match statement with
  | S_Query q => let? _ := validate_query q in Ok statement
  | S_Other => Err UnsupportedStatement
  end.

Definition parse_and_lower_with_limits (sql : text) (limits : QueryLimits) : exec SqlError MirGraph :=
  let? statement := parse_select_with_limits sql limits in
  let? graph := lower_select_statement statement in
  let? _ := enforce_graph_size (node_count graph) limits in
  Ok graph.
End Parser.

(** * An accepted query has a graph *)

(** ** Expressions nest no deeper than the query around them *)

Definition within (d : nat) (l : list Node) : Prop := Forall (fun e => (expr_depth e <= d)%nat) (exprs_in l).

Lemma within_app a b x y : within a x -> within b y -> within (Nat.max a b) (x ++ y).
Proof.
  intros Hx Hy. unfold within, exprs_in. rewrite filter_map_app. apply Forall_app.
  split; eapply Forall_impl; [exact Hx | simpl; lia | exact Hy | simpl; lia].
Qed.

Lemma within_mono a b x : within a x -> (a <= b)%nat -> within b x.
Proof. intros Hx Hle. eapply Forall_impl; [exact Hx | simpl; lia]. Qed.

Lemma within_expr e l : within (expr_depth e) l -> within (expr_depth e) (N_Expr e :: l).
Proof. intros Hl. by constructor. Qed.

Lemma within_single d l : within d l -> within (list_max [d]) l.
Proof. intros Hl. eapply within_mono; [exact Hl | simpl; lia]. Qed.

(** The goal is a maximum over the parts of a node. *)
Ltac within_parts := rewrite ?list_max_app; repeat (apply within_app).
Ltac within_list l rec := induction l as [|? ? IHl]; simpl; [by constructor | apply within_app; [apply rec | apply IHl]].
Ltac within_args args rec :=
  induction args as [|a l IHl]; simpl; [by constructor|]; rewrite list_max_app; apply within_app; [|apply IHl];
  destruct a as [[]| | |]; try (by constructor); apply within_single, rec.
Ltac within_opt o rec := destruct o; simpl; [eapply within_mono; [apply rec | lia] | by constructor].

Fixpoint expr_within (e : SqlExpr) : within (expr_depth e) (expr_nodes e)
with query_within (q : Query) : within (Nat.pred (query_depth q)) (query_nodes q)
with body_within (b : SetExpr) : within (body_depth b) (body_nodes b)
with factor_within (f : TableFactor) : within (factor_depth f) (factor_nodes f).
Proof.
  - destruct e; cbn [expr_nodes]; apply within_expr; cbn [expr_depth]; try (by constructor); try (by apply expr_within);
      try (by within_parts; apply expr_within); try (by eapply within_mono; [apply query_within | apply Nat.le_pred_l]).
    + within_parts; [apply expr_within|]. within_list elements expr_within.
    + within_parts; [within_opt operand expr_within | within_list conditions expr_within | within_list results expr_within | within_opt else_result expr_within].
    + within_list elements expr_within.
    + destruct args as [|q|d args]; simpl; [by constructor|eapply within_mono; [apply query_within|lia]|].
      within_args args expr_within.
    + within_parts; [apply expr_within | eapply within_mono; [apply query_within | apply Nat.le_pred_l]].
  - destruct q as [[w b o l lb f ft]]. cbn [query_nodes query_depth Nat.pred]. unfold query_parts. cbn [q_with q_body q_order_by q_limit q_limit_by q_offset q_fetch].
    change (within ?d (N_Query ?q :: ?l)) with (within d l). within_parts.
    + destruct w as [[rc ctes]|]; [|by constructor]. cbn. unfold with_parts. cbn [with_ctes]. induction ctes as [|[a q] ctes IHl]; simpl; [by constructor|].
      apply within_app; [eapply within_mono; [apply query_within | apply Nat.le_pred_l] | apply IHl].
    + apply within_single, body_within.
    + destruct o as [o|]; [|by constructor]. cbn. induction o as [|[e a] o IHl]; simpl; [by constructor|]. apply within_app; [apply expr_within | apply IHl].
    + within_opt l expr_within.
    + within_list lb expr_within.
    + within_opt f expr_within.
    + within_opt ft expr_within.
  - destruct b as [[dist top proj into from sel gb hav ns]|q|op k l r| | | |]; cbn [body_nodes body_depth]; try (by constructor).
    + unfold select_parts. cbn [sl_from sl_distinct sl_top sl_projection sl_into sl_selection sl_group_by sl_having sl_nonstandard]. within_parts.
      * destruct dist as [[|es]|]; try (by constructor). cbn. within_list es expr_within.
      * induction proj as [|i l IHl]; simpl; [by constructor|]. rewrite list_max_app. apply within_app; [|apply IHl].
        destruct i; try (by constructor); apply within_single, expr_within.
      * induction from as [|[rel joins] from IHf]; cbn [flat_map]; [by constructor|]. rewrite list_max_app. apply within_app; [|apply IHf].
        unfold from_parts. cbn [tj_relation tj_joins]. within_parts; [apply within_single, factor_within|].
        induction joins as [|[jrel jop] joins IHj]; cbn [flat_map]; [by constructor|]. rewrite list_max_app. apply within_app; [|apply IHj].
        unfold join_parts. cbn [jn_relation jn_operator]. within_parts; [apply within_single, factor_within|].
        destruct jop as [[]|[]|[]|[]| |]; try (by constructor); apply within_single, expr_within.
      * within_opt sel expr_within.
      * destruct gb as [es m|m]; [|by constructor]. cbn. within_list es expr_within.
      * within_opt hav expr_within.
    + eapply within_mono; [apply query_within | apply Nat.le_pred_l].
    + apply within_app; apply body_within.
  - destruct f as [name alias args|lateral q alias|]; cbn [factor_nodes factor_depth]; try (by constructor).
    { change (within ?d (N_Factor ?f :: N_Relation ?n :: ?l)) with (within d l). within_args args expr_within. }
    eapply within_mono; [|apply Nat.le_pred_l]. exact (query_within q).
Qed.

(** ** Shape of a plan *)

(** The order in which the parts were lowered, a CTE before its reference. *)
Fixpoint p_rank (p : plan) (i : nat) : nat :=
  match p with
  | PLeaf _ => 0%nat
  | PUnary _ p => if (i <? p_size p)%nat then p_rank p i else p_size p
  | PBinary _ l r =>
      if (i <? p_size l)%nat then p_rank l i
      else if (i <? p_size l + p_size r)%nat then (p_size l + p_rank r (i - p_size l))%nat else (p_size l + p_size r)%nat
  | PCte _ p => match i with O => p_size p | S i => p_rank p i end
  end.

Lemma p_size_unary k p : p_size (PUnary k p) = S (p_size p).
Proof. unfold p_size. simpl. rewrite length_app. simpl. lia. Qed.
Lemma p_size_binary k l r : p_size (PBinary k l r) = S (p_size l + p_size r).
Proof. unfold p_size. simpl. rewrite !length_app. simpl. lia. Qed.
Lemma p_size_cte k p : p_size (PCte k p) = S (p_size p).
Proof. done. Qed.

Lemma p_rank_lt p : forall i, (i < p_size p)%nat -> (p_rank p i < p_size p)%nat.
Proof.
  induction p as [k|k p IH|k l IHl r IHr|k p IH]; intros i; rewrite ?p_size_unary, ?p_size_binary, ?p_size_cte; simpl.
  - unfold p_size. simpl. lia.
  - destruct (Nat.ltb_spec i (p_size p)) as [Hi|]; [specialize (IH i Hi)|]; lia.
  - destruct (Nat.ltb_spec i (p_size l)) as [Hi|]; [specialize (IHl i Hi); lia|].
    destruct (Nat.ltb_spec i (p_size l + p_size r)); [specialize (IHr (i - p_size l)%nat ltac:(lia))|]; lia.
  - destruct i; [lia|]. intros Hi. specialize (IH i ltac:(lia)). lia.
Qed.

Ltac split_ltb := repeat match goal with |- context [(?a <? ?b)%nat] => destruct (Nat.ltb_spec a b); try lia end.

Lemma p_edges_rank p e : e ∈ p_edges p -> (p_rank p (source e) < p_rank p (target e))%nat.
Proof.
  revert e. induction p as [k|k p IH|k l IHl r IHr|k p IH]; intros e; cbn [p_edges].
  - by intros ?%elem_of_nil.
  - pose proof (p_root_lt p). pose proof (p_rank_lt p (p_root p) ltac:(done)).
    rewrite elem_of_app, list_elem_of_singleton. intros [Hin| ->]; cbn [p_rank source target fst snd]; split_ltb;
      pose proof (p_edges_bound p e Hin); lia || by apply IH.
  - pose proof (p_root_lt l). pose proof (p_root_lt r). pose proof (p_rank_lt l (p_root l) ltac:(done)). pose proof (p_rank_lt r (p_root r) ltac:(done)).
    assert (forall i, (p_size l + i - p_size l = i)%nat) as Hsub by lia.
    rewrite !elem_of_app, !list_elem_of_singleton, list_elem_of_fmap. intros [[Hin|(e' & -> & Hin)]|[->| ->]];
      cbn [p_rank shift_edge source target fst snd]; rewrite ?Hsub.
    + pose proof (p_edges_bound l e Hin). split_ltb. by apply IHl.
    + pose proof (p_edges_bound r e' Hin). specialize (IHr e' Hin). split_ltb.
    + split_ltb.
    + split_ltb.
  - pose proof (p_root_lt p). pose proof (p_rank_lt p (p_root p) ltac:(done)).
    rewrite elem_of_app, list_elem_of_singleton, list_elem_of_fmap. intros [(e' & -> & Hin)| ->]; simpl; [by apply IH | done].
Qed.

(** Every node but the root feeds exactly one other. *)
Lemma p_edges_sources p : p_root p :: map source (p_edges p) ≡ₚ seq 0 (p_size p).
Proof.
  assert (forall n l, map source (map (shift_edge n) l) = map (Nat.add n) (map source l)) as Hshift
    by (intros n l; rewrite !map_map; done).
  assert (forall a b c, map (Nat.add a) (seq b c) = seq (a + b) c) as Hseq by exact fmap_add_seq.
  induction p as [k|k p IH|k l IHl r IHr|k p IH]; cbn [p_edges p_root].
  - done.
  - rewrite p_size_unary, seq_S, <- IH, map_app. simpl. rewrite <- Permutation_cons_append, Permutation_swap. apply Permutation_skip.
    by rewrite <- Permutation_cons_append.
  - rewrite p_size_binary, seq_S, seq_app, !map_app, Hshift.
    trans ((p_size l + p_size r)%nat :: (p_root l :: map source (p_edges l)) ++ map (Nat.add (p_size l)) (p_root r :: map source (p_edges r))).
    + apply Permutation_skip. simpl. rewrite Permutation_app_comm. simpl. apply Permutation_skip, Permutation_middle.
    + rewrite <- Permutation_cons_append, IHl, IHr, Hseq, Nat.add_0_r. done.
  - rewrite p_size_cte. simpl. rewrite map_app, Hshift. apply Permutation_skip. simpl.
    rewrite <- Permutation_cons_append. rewrite <- (Hseq 1%nat 0%nat), <- IH. done.
Qed.

(** *** Inputs *)

Definition arity (k : MirNodeKind) : nat := if binary_kind k then 2%nat else if unary_kind k then 1%nat else 0%nat.
Definition inputs_at (es : list (edge MirEdgeKind)) (i : nat) : nat := length (input_slots (List.filter (fun e => Nat.eqb (target e) i) es)).

Lemma inputs_at_app a b i : inputs_at (a ++ b) i = (inputs_at a i + inputs_at b i)%nat.
Proof. unfold inputs_at. by rewrite List.filter_app, input_slots_app, length_app. Qed.

Lemma inputs_at_shift n es i : inputs_at (map (shift_edge n) es) (n + i) = inputs_at es i.
Proof.
  induction es as [|e es IH]; [done|]. change (e :: es) with ([e] ++ es). rewrite map_app, !inputs_at_app, IH. f_equal.
  destruct e as [[s t] w]. unfold inputs_at. simpl. destruct (Nat.eqb_spec t i) as [->|Hne]; [rewrite Nat.eqb_refl; by destruct w|].
  by rewrite (proj2 (Nat.eqb_neq _ _)) by lia.
Qed.

Lemma inputs_at_none es i : (forall e, e ∈ es -> target e <> i) -> inputs_at es i = 0%nat.
Proof. intros Hne. unfold inputs_at. rewrite filter_none; [done|]. intros e Hin%Hne. by apply Nat.eqb_neq. Qed.

Lemma plan_arity p i k : plan_ok p = true -> p_nodes p !! i = Some k -> inputs_at (p_edges p) i = arity k.
Proof.
  revert i k. induction p as [k0|k0 p IH|k0 l IHl r IHr|k0 p IH]; intros i k Hok Hi; cbn [plan_ok p_nodes p_edges] in *.
  - destruct i as [|i]; simplify_eq/=. destruct k; done.
  - apply andb_true_iff in Hok as [Hk Hok]. rewrite inputs_at_app. destruct (decide (i < p_size p)%nat) as [Hlt|Hge].
    + rewrite lookup_app_l in Hi by done. rewrite (IH i k Hok Hi), (inputs_at_none [_]); [lia|].
      intros e ->%list_elem_of_singleton. simpl. lia.
    + rewrite lookup_app_r in Hi by (unfold p_size in *; lia). assert (i = p_size p) as ->.
      { unfold p_size in *. destruct (i - length (p_nodes p))%nat eqn:E; simplify_eq/=. lia. }
      unfold p_size in Hi. rewrite Nat.sub_diag in Hi. injection Hi as <-.
      rewrite (inputs_at_none (p_edges p)) by (intros e Hin%p_edges_bound; lia). unfold inputs_at. simpl. rewrite Nat.eqb_refl. simpl.
      unfold arity. by destruct k0.
  - rewrite !andb_true_iff in Hok. destruct Hok as [[Hk Hl] Hr]. rewrite !inputs_at_app.
    assert (forall j s w, (j <> p_size l + p_size r)%nat -> inputs_at [(s, (p_size l + p_size r)%nat, w)] j = 0%nat) as Hlast.
    { intros j s w Hj. apply inputs_at_none. intros e ->%list_elem_of_singleton. simpl. lia. }
    destruct (decide (i < p_size l)%nat) as [Hlt|Hge]; [|destruct (decide (i < p_size l + p_size r)%nat) as [Hlt|Hge']].
    + rewrite lookup_app_l in Hi by done. rewrite (IHl i k Hl Hi), !Hlast by lia. rewrite (inputs_at_none (map _ _)); [lia|].
      intros e (e' & -> & Hin%p_edges_bound)%list_elem_of_fmap. simpl. lia.
    + rewrite lookup_app_r, lookup_app_l in Hi by (unfold p_size in *; lia). rewrite !Hlast by lia.
      rewrite (inputs_at_none (p_edges l)) by (intros e Hin%p_edges_bound; lia).
      replace i with (p_size l + (i - p_size l))%nat by lia. rewrite inputs_at_shift. fold (p_size l) in Hi. rewrite (IHr _ k Hr Hi). lia.
    + rewrite lookup_app_r, lookup_app_r in Hi by (unfold p_size in *; lia). assert (i = p_size l + p_size r)%nat as ->.
      { unfold p_size in *. destruct (i - length (p_nodes l) - length (p_nodes r))%nat eqn:E; simplify_eq/=. lia. }
      assert (k = k0) as ->.
      { unfold p_size in Hi. rewrite Nat.add_comm, Nat.add_sub, Nat.sub_diag in Hi. by injection Hi as <-. }
      rewrite (inputs_at_none (p_edges l)) by (intros e Hin%p_edges_bound; lia). rewrite inputs_at_shift.
      rewrite (inputs_at_none (p_edges r)) by (intros e Hin%p_edges_bound; lia). unfold inputs_at. simpl. rewrite Nat.eqb_refl. simpl.
      unfold arity. by rewrite Hk.
  - apply andb_true_iff in Hok as [Hk Hok]. rewrite inputs_at_app. destruct i as [|i]; simplify_eq/=.
    + rewrite inputs_at_none by (intros e (e' & -> & _)%list_elem_of_fmap; simpl; lia). destruct k; done.
    + change (S i) with (1 + i)%nat. rewrite inputs_at_shift, (IH i k Hok Hi), (inputs_at_none [_]); [lia|].
      intros e ->%list_elem_of_singleton. simpl. lia.
Qed.

(** ** Validation always answers *)

Section Total.
Context `{SqlSyntax} `{EvalRuntime} `{PetGraph MirNodeKind MirEdgeKind}.

Lemma visit_no_panic {B} (f : SqlExpr -> exec B unit) l : (forall e, e ∈ l -> f e <> Panic) -> visit f l <> Panic.
Proof.
  induction l as [|e l IH]; intros Hf; simpl; [done|]. apply bind_no_panic; [apply Hf; left|]. intros _. apply IH.
  intros x Hx. apply Hf. by right.
Qed.

Lemma validate_recursive_no_panic c : validate_recursive_cte c <> Panic.
Proof. unfold validate_recursive_cte. repeat case_match; done. Qed.

Section Step.
Context (rec : Query -> exec SqlError unit) (n : nat) (Hrec : forall q, (query_depth q <= n)%nat -> rec q <> Panic).

Lemma check_no_panic e : (expr_depth e <= n)%nat -> check_expr rec e <> Panic.
Proof using Hrec. intros Hd. unfold check_expr. destruct e; try done; try (by repeat case_match). by apply Hrec. Qed.

Lemma factor_no_panic f : (factor_depth f <= n)%nat -> validate_table_factor rec f <> Panic.
Proof using Hrec. destruct f; simpl; intros Hd; try done. by apply Hrec. Qed.

Lemma validate_joins_no_panic js : Forall (fun j => (factor_depth (jn_relation j) <= n)%nat) js -> validate_joins rec js <> Panic.
Proof using Hrec.
  induction 1 as [|j js Hj _ IH]; simpl; [done|].
  apply bind_no_panic; [destruct (jn_operator j) as [[]|[]| | | |]; simpl; by repeat case_match|]. intros _.
  apply bind_no_panic; [by apply factor_no_panic | done].
Qed.

Lemma validate_from_no_panic from :
  Forall (fun t => (factor_depth (tj_relation t) <= n)%nat /\ Forall (fun j => (factor_depth (jn_relation j) <= n)%nat) (tj_joins t)) from ->
  validate_from rec from <> Panic.
Proof using Hrec.
  induction 1 as [|t from [Hf Hj] _ IH]; simpl; [done|]. apply bind_no_panic; [|done].
  apply bind_no_panic; [by apply factor_no_panic|]. intros _. by apply validate_joins_no_panic.
Qed.

Lemma validate_body_no_panic b : (body_depth b <= n)%nat -> validate_set_expr rec b <> Panic.
Proof using Hrec.
  induction b as [s|q|op k l IHl r IHr| | | |]; intros Hd; try done.
  - apply validate_from_no_panic, Forall_forall. intros t Ht. split; [|apply Forall_forall; intros j Hj];
      (etrans; [|exact Hd]; apply (select_factor_depth s t); eauto).
  - by apply Hrec.
  - simpl in *. apply bind_no_panic; [apply IHl; lia|]. intros _. apply IHr. lia.
Qed.

Lemma validate_ctes_no_panic recursive ctes : Forall (fun c => (query_depth (cte_query c) <= n)%nat) ctes -> validate_ctes rec recursive ctes <> Panic.
Proof using Hrec.
  induction 1 as [|c ctes Hc _ IH]; simpl; [done|].
  apply bind_no_panic; [case_match; [apply validate_recursive_no_panic | done]|]. intros _.
  apply bind_no_panic; [by apply Hrec | done].
Qed.
End Step.

Lemma validate_fuel_no_panic n : forall q, (query_depth q <= n)%nat -> validate_query_fuel n q <> Panic.
Proof.
  induction n as [|n IH]; intros [r] Hd; pose proof (body_below r) as Hb; [lia|]. cbn [validate_query_fuel query_].
  apply bind_no_panic; [|intros _; apply bind_no_panic; [|intros _]].
  - destruct (q_with r) as [w|] eqn:Hw; [|done]. apply (validate_ctes_no_panic _ n IH), Forall_forall. intros c Hc.
    pose proof (with_below r w c Hw Hc). lia.
  - apply visit_no_panic. intros e He. apply (check_no_panic _ n IH). pose proof (query_within (Query_ r)) as Hin.
    unfold within in Hin. rewrite Forall_forall in Hin. specialize (Hin e He). lia.
  - apply (validate_body_no_panic _ n IH). lia.
Qed.

Lemma validate_no_panic q : validate_query q <> Panic.
Proof. by apply validate_fuel_no_panic. Qed.

Lemma parse_single_no_panic sql limits : parse_single_query sql limits <> Panic.
Proof.
  unfold parse_single_query, enforce_input_size, enforce_nesting_depth.
  apply bind_no_panic; [by case_match|]. intros _. apply bind_no_panic; [by case_match|]. intros _. by repeat case_match.
Qed.

Lemma parse_single_query_shape sql limits st : parse_single_query sql limits = Ok st -> exists q, st = S_Query q.
Proof.
  unfold parse_single_query. rewrite exec_bind_ok. intros (_ & _ & E). apply exec_bind_ok in E as (_ & _ & E).
  repeat case_match; simplify_eq; eauto.
Qed.

(** ** Accepted queries *)

Definition graph_tables (g : MirGraph) : list text := filter_map table_of (node_kinds g).

Lemma laid_out_inputs g p i k : laid_out g p -> node_kind g i = Some k -> length (ordered_inputs g i) = arity k.
Proof.
  intros Hl Hk. unfold ordered_inputs. rewrite length_map, (Permutation_length (sort_by_key_perm fst _)).
  rewrite (Permutation_length (slots_perm g i)). unfold slots. fold (inputs_at (pg_edges (graph g)) i).
  rewrite (lo_edges g p Hl). apply plan_arity; [apply (lo_ok g p Hl)|]. unfold node_kind in Hk. by rewrite <- (lo_nodes g p Hl).
Qed.

Lemma lower_statement_good q : good (query_reads q) (lower_select_statement (S_Query q)).
Proof. cbn [lower_select_statement]. rewrite <- resolve_query_reads. apply lower_query_good. Qed.

(** C7: The SQL front end always answers, and what it accepts is what the query says: for any text
    and any limits, parsing, validating and lowering end in a graph or a named error, without a
    panic. A graph is the one of the single parsed and validated query; it has at most the allowed
    number of nodes, it is a well-formed tree (every node but the root feeds exactly one other,
    edges follow an order, every operator has the inputs its kind asks for), and its base tables
    are, in order and with repetition, the relations the query reads: its FROM clauses and EXISTS
    conjuncts, with every top-level CTE expanded at each reference. *)
Theorem accepted_query_exact (sql : text) (limits : QueryLimits) :
  match parse_and_lower_with_limits sql limits with
  | Ok g => exists q, parse_single_query sql limits = Ok (S_Query q) /\ validate_query q = Ok tt /\
      (node_count g <= max_mir_nodes limits)%nat /\ graph_wf g /\
      graph_tables g = map fst (query_reads q) /\
      root g :: map source (pg_edges (graph g)) ≡ₚ seq 0 (node_count g) /\
      (exists rank : nat -> nat, forall s c w, feeds g s c w -> (rank s < rank c)%nat) /\
      (forall i k, node_kind g i = Some k -> length (ordered_inputs g i) = arity k)
  | Err _ => True
  | Panic => False
  end.
Proof.
  unfold parse_and_lower_with_limits, parse_select_with_limits. pose proof (parse_single_no_panic sql limits) as Hnp.
  destruct (parse_single_query sql limits) as [st| |] eqn:Hp; [|done..]. cbn [exec_bind].
  destruct (parse_single_query_shape sql limits st Hp) as [q ->]. cbn [exec_bind]. pose proof (validate_no_panic q) as Hv.
  destruct (validate_query q) as [[]| |] eqn:Hval; [|done..]. cbn [exec_bind lower_select_statement].
  pose proof (lower_statement_good q) as Hg. cbn [lower_select_statement] in Hg.
  destruct (lower_query (resolve_from_aliases q)) as [g| |]; [|done..]. destruct Hg as (p & Hl & Ht). cbn [exec_bind].
  destruct (enforce_graph_size (node_count g) limits) as [[]| |] eqn:Hs; [|done|by unfold enforce_graph_size in Hs; case_match].
  cbn [exec_bind]. exists q. apply graph_size_ok in Hs. pose proof (laid_out_count g p Hl) as Hc.
  split; [done|]. split; [done|]. split; [done|]. split; [apply (lo_wf g p Hl)|]. split; [|split; [|split]].
  - unfold graph_tables, node_kinds. rewrite (lo_nodes g p Hl), p_tables_nodes by apply (lo_ok g p Hl). by rewrite Ht.
  - rewrite Hc, (lo_edges g p Hl), (lo_root g p Hl). apply p_edges_sources.
  - exists (p_rank p). intros s c w Hf. unfold feeds in Hf. rewrite (lo_edges g p Hl) in Hf. apply (p_edges_rank p _ Hf).
  - intros i k. by apply laid_out_inputs with p.
Qed.
End Total.
