(* ===== verification/Normalize.v ===== *)
(** * Normalize: binding queries to a catalog
    ([crates/palimpsest-sql/src/normalize.rs])

    A query is checked by rebuilding it: names are resolved to [relation.column]
    against the relations in scope, derived forms are expanded, and operands are
    typed. The source updates a clone of the statement in place; here every step
    returns the new tree, with the shape or the scope it has built. *)

From S2P Require Import Prelude BTree Text UserContext SqlLimits Exprs SqlAst Permissions Mir CompileMir Lower SqlParser.

(** ** Scopes *)

(** The columns a query returns, and the expressions its aliases stand for. *)
Record QueryShape := { qs_columns : list ColumnSchema; qs_aliases : btree text SqlExpr }.

(** [Scope]: the relations in view with their columns ([RelationBinding]); [sc_outer]
    names those inherited from an enclosing query. *)
Record NameScope := { sc_relations : btree text (list ColumnSchema); sc_outer : btree text unit }.
Definition scope_default : NameScope := {| sc_relations := []; sc_outer := [] |}.
Definition scope_nested (outer : NameScope) : NameScope :=
  {| sc_relations := sc_relations outer; sc_outer := bt_from_list (map (fun r => (r.1, tt)) (sc_relations outer)) |}.
Definition is_outer (scope : NameScope) (qualifier : text) : bool := match bt_get qualifier (sc_outer scope) with Some _ => true | None => false end.
Definition local_relations (scope : NameScope) : list (text * list ColumnSchema) :=
  List.filter (fun r => negb (is_outer scope r.1)) (sc_relations scope).

(** [NormalizeContext]: the CTEs in view. *)
Abbreviation NormalizeContext := (btree text QueryShape).

Definition insert_relation (scope : NameScope) (qualifier : text) (columns : list ColumnSchema) : exec SqlError NameScope :=
  if is_outer scope qualifier then
    Ok {| sc_relations := bt_insert qualifier columns (sc_relations scope); sc_outer := bt_remove qualifier (sc_outer scope) |}
  else
    match bt_get qualifier (sc_relations scope) with
    | Some _ => Err (AmbiguousColumn qualifier)
    | None => Ok {| sc_relations := bt_insert qualifier columns (sc_relations scope); sc_outer := sc_outer scope |}
    end.

(** [Catalog::require_table]. *)
Definition require_table (catalog : SqlCatalog) (name : text) : exec SqlError TableSchema := ok_or (catalog_table catalog name) (UnknownTable name).

(** ** Names *)

Definition catalog_table_name (name : ObjectName) : text := join (lit ".") (map id_value name).
Definition qualified_column (qualifier column : text) : SqlExpr := X_CompoundIdentifier [Ident_new qualifier; Ident_new column].

Definition column_named (column : text) (columns : list ColumnSchema) : option ColumnSchema :=
  List.find (fun c => bool_decide (col_name c = column)) columns.
Definition has_column (column : text) (columns : list ColumnSchema) : bool := existsb (fun c => bool_decide (col_name c = column)) columns.

(** The relations of one level, [local_only] or inherited. *)
Definition relations_at (scope : NameScope) (local_only : bool) : list (text * list ColumnSchema) :=
  List.filter (fun r => negb (Bool.eqb (is_outer scope r.1) local_only)) (sc_relations scope).

(** [resolve_column]: the levels are tried in turn. *)
Fixpoint resolve_levels (scope : NameScope) (column : text) (levels : list bool) : exec SqlError SqlExpr :=
  match levels with
  | [] => Err (UnknownColumn column)
  | local_only :: rest =>
      match List.filter (fun r => has_column column r.2) (relations_at scope local_only) with
      | [] => resolve_levels scope column rest
      | [(qualifier, _)] => Ok (qualified_column qualifier column)
      | _ => Err (AmbiguousColumn column)
      end
  end.
Definition resolve_scope_column (scope : NameScope) (qualifier : option text) (column : text) : exec SqlError SqlExpr :=
  match qualifier with
  | Some qualifier =>
      let? columns := ok_or (bt_get qualifier (sc_relations scope)) (UnknownTable qualifier) in
      if has_column column columns then Ok (qualified_column qualifier column)
      else Err (UnknownColumn (qualifier ++ lit "." ++ column))
  | None => resolve_levels scope column [true; false]
  end.

(** [column_type]. *)
Fixpoint type_levels (scope : NameScope) (column : text) (levels : list bool) : exec SqlError ColumnType :=
  match levels with
  | [] => Err (UnknownColumn column)
  | local_only :: rest =>
      match filter_map (fun r => column_named column r.2) (relations_at scope local_only) with
      | [] => type_levels scope column rest
      | [c] => Ok (col_ty c)
      | _ => Err (AmbiguousColumn column)
      end
  end.
Definition scope_column_type (scope : NameScope) (qualifier : option text) (column : text) : exec SqlError ColumnType :=
  match qualifier with
  | Some qualifier =>
      let? columns := ok_or (bt_get qualifier (sc_relations scope)) (UnknownTable qualifier) in
      let? c := ok_or (column_named column columns) (UnknownColumn (qualifier ++ lit "." ++ column)) in
      Ok (col_ty c)
  | None => type_levels scope column [true; false]
  end.

(** ** Types *)

Definition cast_target_type (t : DataType) : ColumnType :=
  match t with
  | DT_Int2 | DT_SmallInt | DT_Int | DT_Int4 | DT_Integer | DT_Int8 | DT_BigInt => CT_Int
  | DT_Float | DT_Float4 | DT_Float8 | DT_Real | DT_Double | DT_DoublePrecision | DT_Numeric | DT_Decimal => CT_Float
  | DT_Text | DT_Varchar | DT_Char | DT_String => CT_Text
  | DT_Bool | DT_Boolean => CT_Bool
  | DT_Timestamp | DT_Date => CT_Timestamp
  | _ => CT_Unknown
  end.

(** [Debug] of a type, and of the operators that validation reports. *)
Definition column_type_debug (t : ColumnType) : text :=
  match t with
  | CT_Bool => lit "Bool" | CT_Int => lit "Int" | CT_Float => lit "Float" | CT_Text => lit "Text"
  | CT_Timestamp => lit "Timestamp" | CT_TimestampTz => lit "TimestampTz" | CT_Date => lit "Date" | CT_Time => lit "Time"
  | CT_Interval => lit "Interval" | CT_Numeric => lit "Numeric" | CT_Bytea => lit "Bytea" | CT_Uuid => lit "Uuid"
  | CT_Jsonb => lit "Jsonb" | CT_Enum => lit "Enum" | CT_Array => lit "Array" | CT_Unknown => lit "Unknown"
  end.
Definition binary_operator_debug (op : BinaryOperator) : text :=
  match op with
  | BO_Eq => lit "Eq" | BO_NotEq => lit "NotEq" | BO_Lt => lit "Lt" | BO_LtEq => lit "LtEq" | BO_Gt => lit "Gt" | BO_GtEq => lit "GtEq"
  | BO_And => lit "And" | BO_Or => lit "Or" | BO_Plus => lit "Plus" | BO_Minus => lit "Minus" | BO_Multiply => lit "Multiply"
  | BO_Divide => lit "Divide" | BO_Modulo => lit "Modulo" | BO_StringConcat => lit "StringConcat"
  | BO_Arrow => lit "Arrow" | BO_LongArrow => lit "LongArrow" | BO_Other => []
  end.

Definition boolean_like (t : ColumnType) : bool := match t with CT_Bool | CT_Unknown => true | _ => false end.

(** ** Derived forms *)

Definition binary (left : SqlExpr) (op : BinaryOperator) (right : SqlExpr) : SqlExpr := X_BinaryOp left op right.
Definition and_ (left right : SqlExpr) : SqlExpr := binary left BO_And right.
Definition or_ (left right : SqlExpr) : SqlExpr := binary left BO_Or right.
Definition not_ (e : SqlExpr) : SqlExpr := X_UnaryOp UO_Not e.

Definition expand_between (value low high : SqlExpr) (negated : bool) : SqlExpr :=
  let range := and_ (binary value BO_GtEq low) (binary value BO_LtEq high) in if negated then not_ range else range.

(** Of the normalized items; an empty list has been refused. *)
Definition expand_in_list (value : SqlExpr) (items : list SqlExpr) (negated : bool) : exec SqlError SqlExpr :=
  let op := if negated then BO_NotEq else BO_Eq in
  let join := if negated then and_ else or_ in
  match map (binary value op) items with
  | [] => Panic
  | first :: parts =>
      let normalized := fold_left join parts first in
      if negated || (length items =? 1)%nat then Ok normalized else Ok (X_Nested normalized)
  end.

Section Normalize.
Context `{SqlSyntax}.

(** [object_name]: the last part. *)
Definition last_part (name : ObjectName) : text := match last name with Some part => id_value part | None => object_name_text name end.

Definition output_name (e : SqlExpr) : text :=
  match e with
  | X_CompoundIdentifier parts => match last parts with Some part => id_value part | None => expr_text e end
  | X_Identifier i => id_value i
  | _ => expr_text e
  end.

Fixpoint infer_expr_type (e : SqlExpr) (scope : NameScope) : exec SqlError ColumnType :=
  match e with
  | X_Value (V_Boolean _) => Ok CT_Bool
  | X_UnaryOp UO_Not _ => Ok CT_Bool
  | X_Value (V_Number _ _) => Ok CT_Int
  | X_Value (V_SingleQuotedString _ | V_EscapedStringLiteral _ | V_UnicodeStringLiteral _ | V_NationalStringLiteral _ | V_DoubleQuotedString _) => Ok CT_Text
  | X_Identifier i => scope_column_type scope None (id_value i)
  | X_CompoundIdentifier [relation; column] => scope_column_type scope (Some (id_value relation)) (id_value column)
  | X_CompoundIdentifier _ => Ok CT_Unknown
  | X_BinaryOp l op r =>
      match op with
      | BO_Eq | BO_NotEq | BO_Gt | BO_GtEq | BO_Lt | BO_LtEq | BO_And | BO_Or => Ok CT_Bool
      | BO_Arrow => Ok CT_Jsonb
      | BO_LongArrow => Ok CT_Text
      | BO_Plus | BO_Minus | BO_Multiply | BO_Divide | BO_Modulo =>
          let? l := infer_expr_type l scope in
          let? r := infer_expr_type r scope in
          if bool_decide (l = CT_Float) || bool_decide (r = CT_Float) then Ok CT_Float else Ok CT_Int
      | _ => Ok CT_Unknown
      end
  | X_Function name _ _ =>
      let name := ascii_lower (object_name_text name) in
      if bool_decide (name = lit "count") || bool_decide (name = lit "cardinality") then Ok CT_Int else Ok CT_Unknown
  | X_Exists _ _ | X_AnyOp _ _ _ => Ok CT_Bool
  | X_Cast _ _ t _ => Ok (cast_target_type t)
  | X_Nested inner => infer_expr_type inner scope
  | _ => Ok CT_Unknown
  end.

Definition validate_binary_types (left : SqlExpr) (op : BinaryOperator) (right : SqlExpr) (scope : NameScope) : exec SqlError unit :=
  let? l := infer_expr_type left scope in
  let? r := infer_expr_type right scope in
  let inputs := column_type_debug l ++ lit " and " ++ column_type_debug r in
  match op with
  | BO_Arrow | BO_LongArrow =>
      if (match l with CT_Jsonb | CT_Unknown => true | _ => false end) && (match r with CT_Text | CT_Int | CT_Unknown => true | _ => false end) then Ok tt
      else Err (SqlTypeMismatch (binary_operator_text op ++ lit " expects JSON and a text key or integer index, got " ++ inputs))
  | BO_And | BO_Or =>
      if boolean_like l && boolean_like r then Ok tt
      else Err (SqlTypeMismatch (binary_operator_debug op ++ lit " expects boolean inputs, got " ++ inputs))
  | BO_Plus | BO_Minus | BO_Multiply | BO_Divide | BO_Modulo =>
      if is_numeric l && is_numeric r then Ok tt
      else Err (SqlTypeMismatch (binary_operator_debug op ++ lit " expects numeric inputs, got " ++ inputs))
  | BO_Eq | BO_NotEq | BO_Gt | BO_GtEq | BO_Lt | BO_LtEq =>
      if is_compatible_with l r then Ok tt
      else Err (SqlTypeMismatch (binary_operator_debug op ++ lit " compares incompatible inputs " ++ inputs))
  | _ => Ok tt
  end.

Fixpoint validate_equi_join (e : SqlExpr) : exec SqlError unit :=
  match e with
  | X_Value (V_Boolean true) => Ok tt
  | X_BinaryOp l BO_Eq r => if is_column l && is_column r then Ok tt else Err (UnsupportedFeature "theta joins")
  | X_BinaryOp l BO_And r => let? _ := validate_equi_join l in validate_equi_join r
  | _ => Err (UnsupportedFeature "theta joins")
  end.

(** The columns that disagree. *)
Fixpoint validate_set_columns (left right : list ColumnSchema) : exec SqlError unit :=
  match left, right with
  | l :: left', r :: right' =>
      if is_compatible_with (col_ty l) (col_ty r) then validate_set_columns left' right'
      else Err (SqlTypeMismatch (lit "set operation column type mismatch: " ++ col_name l ++ lit " is " ++ column_type_debug (col_ty l) ++
                                 lit ", right side is " ++ column_type_debug (col_ty r)))
  | _, _ => Ok tt
  end.
Definition validate_set_shapes (left right : QueryShape) : exec SqlError unit :=
  let l := length (qs_columns left) in
  let r := length (qs_columns right) in
  if negb (l =? r)%nat then Err (SqlTypeMismatch (lit "set operation column count mismatch: " ++ dec_len l ++ lit " vs " ++ dec_len r))
  else validate_set_columns (qs_columns left) (qs_columns right).

Definition apply_cte_column_aliases (shape : QueryShape) (alias : TableAlias) : exec SqlError QueryShape :=
  let names := length (al_columns alias) in
  let columns := length (qs_columns shape) in
  if (names =? 0)%nat then Ok shape
  else if negb (names =? columns)%nat then
    Err (SqlTypeMismatch (lit "CTE " ++ ident_text (al_name alias) ++ lit " has " ++ dec_len names ++ lit " column aliases for " ++
                          dec_len columns ++ lit " output columns"))
  else Ok {| qs_columns := zip_with (fun c name => {| col_name := id_value name; col_ty := col_ty c |}) (qs_columns shape) (al_columns alias);
             qs_aliases := qs_aliases shape |}.

Definition normalize_output_expr (e : SqlExpr) (shape : QueryShape) : exec SqlError SqlExpr :=
  match e with
  | X_Identifier i =>
      match bt_get (id_value i) (qs_aliases shape) with
      | Some alias => Ok alias
      | None => if has_column (id_value i) (qs_columns shape) then Ok e else Err (UnknownColumn (id_value i))
      end
  | _ => Ok e
  end.

(** The functions the engine evaluates. *)
Definition normalizable_functions : list text :=
  [lit "count"; lit "sum"; lit "min"; lit "max"; lit "avg"; lit "coalesce"; lit "cardinality"].
Definition cardinality_arity {E Q} (args : FnArgs E Q) : exec SqlError unit :=
  let check arity :=
    if (arity =? 1)%nat then Ok tt
    else Err (SqlTypeMismatch (lit "cardinality expects exactly 1 argument, got " ++ dec_len arity)) in
  match args with
  | FnList _ args => check (length args)
  | FnNone => check 0%nat
  | FnSubquery _ => Err (UnsupportedFeature "subqueries as function arguments")
  end.

(** ** Clauses

    The loops over the parts of a query, around the functions on expressions,
    queries, bodies and table factors. *)

Section Clauses.
Context (catalog : SqlCatalog).
Context (fe : NameScope -> btree text SqlExpr -> NormalizeContext -> SqlExpr -> exec SqlError SqlExpr).
Context (ff : NormalizeContext -> NameScope -> TableFactor -> exec SqlError (TableFactor * NameScope)).

(** Of [Inner] and [LeftOuter] joins; the others keep their constraint. *)
Definition normalize_constraint (scope : NameScope) (context : NormalizeContext) (c : JoinConstraint SqlExpr) : exec SqlError (JoinConstraint SqlExpr) :=
  match c with
  | JC_On predicate =>
      let? predicate := fe scope [] context predicate in
      let? _ := validate_equi_join predicate in
      Ok (JC_On predicate)
  | _ => Ok c
  end.
Definition normalize_operator (scope : NameScope) (context : NormalizeContext) (o : JoinOperator SqlExpr) : exec SqlError (JoinOperator SqlExpr) :=
  match o with
  | JO_Inner c => let? c := normalize_constraint scope context c in Ok (JO_Inner c)
  | JO_LeftOuter c => let? c := normalize_constraint scope context c in Ok (JO_LeftOuter c)
  | _ => Ok o
  end.

(** [bind_table_with_joins]. *)
Fixpoint bind_join_list (context : NormalizeContext) (scope : NameScope) (joins : list Join_) : exec SqlError (list Join_ * NameScope) :=
  match joins with
  | [] => Ok ([], scope)
  | j :: rest =>
      let? (relation, scope) := ff context scope (jn_relation j) in
      let? operator := normalize_operator scope context (jn_operator j) in
      let? (rest, scope) := bind_join_list context scope rest in
      Ok ({| jn_relation := relation; jn_operator := operator |} :: rest, scope)
  end.
Definition bind_table_with_joins (context : NormalizeContext) (scope : NameScope) (item : FromItem) : exec SqlError (FromItem * NameScope) :=
  let? (relation, scope) := ff context scope (tj_relation item) in
  let? (joins, scope) := bind_join_list context scope (tj_joins item) in
  Ok ({| tj_relation := relation; tj_joins := joins |}, scope).
Fixpoint bind_tables (context : NormalizeContext) (scope : NameScope) (from : list FromItem) : exec SqlError (list FromItem * NameScope) :=
  match from with
  | [] => Ok ([], scope)
  | item :: rest =>
      let? (item, scope) := bind_table_with_joins context scope item in
      let? (rest, scope) := bind_tables context scope rest in
      Ok (item :: rest, scope)
  end.

(** The items and columns of the relations a wildcard stands for. *)
Definition wildcard_items (relations : list (text * list ColumnSchema)) : list (SelectItem SqlExpr * ColumnSchema) :=
  flat_map (fun r => map (fun c => (SI_UnnamedExpr (qualified_column r.1 (col_name c)), c)) r.2) relations.

(** One item: its items with their columns, and its alias. *)
Definition normalize_item (scope : NameScope) (context : NormalizeContext) (i : SelectItem SqlExpr)
    : exec SqlError (list (SelectItem SqlExpr * ColumnSchema) * option (text * SqlExpr)) :=
  match i with
  | SI_Wildcard false => Ok (wildcard_items (local_relations scope), None)
  | SI_QualifiedWildcard name false =>
      let qualifier := last_part name in
      let? columns := ok_or (bt_get qualifier (sc_relations scope)) (UnknownTable qualifier) in
      Ok (wildcard_items [(qualifier, columns)], None)
  | SI_UnnamedExpr e =>
      let? e := fe scope [] context e in
      let? ty := infer_expr_type e scope in
      Ok ([(SI_UnnamedExpr e, {| col_name := output_name e; col_ty := ty |})], None)
  | SI_ExprWithAlias e alias =>
      let? e := fe scope [] context e in
      let? ty := infer_expr_type e scope in
      Ok ([(SI_ExprWithAlias e alias, {| col_name := id_value alias; col_ty := ty |})], Some (id_value alias, e))
  | SI_Wildcard true | SI_QualifiedWildcard _ true => Err (UnsupportedFeature "wildcard options")
  end.
Definition normalize_projection (scope : NameScope) (context : NormalizeContext) (projection : list (SelectItem SqlExpr))
    : exec SqlError (list (SelectItem SqlExpr) * QueryShape) :=
  let? items := exec_mapM (normalize_item scope context) projection in
  let columns := flat_map fst items in
  Ok (map fst columns, {| qs_columns := map snd columns; qs_aliases := bt_from_list (filter_map snd items) |}).

Definition normalize_distinct (scope : NameScope) (aliases : btree text SqlExpr) (context : NormalizeContext) (d : option (DistinctOf SqlExpr))
    : exec SqlError (option (DistinctOf SqlExpr)) :=
  match d with
  | Some (D_On exprs) => let? exprs := exec_mapM (fe scope aliases context) exprs in Ok (Some (D_On exprs))
  | _ => Ok d
  end.
Definition normalize_group_by (scope : NameScope) (aliases : btree text SqlExpr) (context : NormalizeContext) (g : GroupByExpr SqlExpr)
    : exec SqlError (GroupByExpr SqlExpr) :=
  match g with
  | GB_Expressions exprs modifiers => let? exprs := exec_mapM (fe scope aliases context) exprs in Ok (GB_Expressions exprs modifiers)
  | GB_All _ => Ok g
  end.

Definition normalize_selection (scope : NameScope) (context : NormalizeContext) (selection : option SqlExpr) : exec SqlError (option SqlExpr) :=
  match selection with
  | None => Ok None
  | Some e =>
      let? e := fe scope [] context e in
      let? ty := infer_expr_type e scope in
      if boolean_like ty then Ok (Some e)
      else Err (SqlTypeMismatch (lit "WHERE expression must be boolean, got " ++ column_type_debug ty))
  end.

Definition normalize_select (context : NormalizeContext) (outer : NameScope) (s : Select) : exec SqlError (Select * QueryShape) :=
  let? (from, scope) := bind_tables context (scope_nested outer) (sl_from s) in
  let? selection := normalize_selection scope context (sl_selection s) in
  let? (projection, shape) := normalize_projection scope context (sl_projection s) in
  let? distinct := normalize_distinct scope (qs_aliases shape) context (sl_distinct s) in
  let? group_by := normalize_group_by scope (qs_aliases shape) context (sl_group_by s) in
  Ok ({| sl_distinct := distinct; sl_top := sl_top s; sl_projection := projection; sl_into := sl_into s; sl_from := from;
         sl_selection := selection; sl_group_by := group_by; sl_having := sl_having s; sl_nonstandard := sl_nonstandard s |}, shape).
End Clauses.

Section Ctes.
Context (fq : NormalizeContext -> NameScope -> Query -> exec SqlError (Query * QueryShape)).
(** The base term of a recursive CTE, [None] for a body that is no UNION. *)
Context (base : NormalizeContext -> Query -> exec SqlError (option QueryShape)).

Definition normalize_cte (recursive : bool) (context : NormalizeContext) (c : Cte Query) : exec SqlError (Query * QueryShape) :=
  let name := id_value (al_name (cte_alias c)) in
  if recursive && (0 <? count_relation_references (query_nodes (cte_query c)) name)%nat then
    let? shape := base context (cte_query c) in
    match shape with
    | None => Err (InvalidQuery (lit "recursive CTE " ++ name ++ lit " must have the form 'base term UNION [ALL] recursive term'"))
    | Some shape =>
        let? shape := apply_cte_column_aliases shape (cte_alias c) in
        let? (query, _) := fq (bt_insert name shape context) scope_default (cte_query c) in
        Ok (query, shape)
    end
  else
    let? (query, shape) := fq context scope_default (cte_query c) in
    let? shape := apply_cte_column_aliases shape (cte_alias c) in
    Ok (query, shape).

Fixpoint normalize_ctes (recursive : bool) (context : NormalizeContext) (ctes : list (Cte Query)) : exec SqlError (list (Cte Query) * NormalizeContext) :=
  match ctes with
  | [] => Ok ([], context)
  | c :: rest =>
      let? (query, shape) := normalize_cte recursive context c in
      let? (rest, context) := normalize_ctes recursive (bt_insert (id_value (al_name (cte_alias c))) shape context) rest in
      Ok ({| cte_alias := cte_alias c; cte_query := query |} :: rest, context)
  end.

Definition normalize_with (context : NormalizeContext) (w : option (With Query)) : exec SqlError (option (With Query) * NormalizeContext) :=
  match w with
  | None => Ok (None, context)
  | Some w =>
      let? (ctes, context) := normalize_ctes (with_recursive w) context (with_ctes w) in
      Ok (Some {| with_recursive := with_recursive w; with_ctes := ctes |}, context)
  end.
End Ctes.

Fixpoint normalize_order (shape : QueryShape) (keys : list (OrderByExpr SqlExpr)) : exec SqlError (list (OrderByExpr SqlExpr)) :=
  match keys with
  | [] => Ok []
  | key :: rest =>
      let? e := normalize_output_expr (ob_expr key) shape in
      let? rest := normalize_order shape rest in
      Ok ({| ob_expr := e; ob_asc := ob_asc key |} :: rest)
  end.
Definition normalize_order_by (shape : QueryShape) (order_by : option (list (OrderByExpr SqlExpr))) : exec SqlError (option (list (OrderByExpr SqlExpr))) :=
  match order_by with
  | None => Ok None
  | Some keys => let? keys := normalize_order shape keys in Ok (Some keys)
  end.

(** ** Trees *)

Section Trees.
Context (catalog : SqlCatalog).

Fixpoint normalize_expr (scope : NameScope) (aliases : btree text SqlExpr) (context : NormalizeContext) (e : SqlExpr) {struct e} : exec SqlError SqlExpr :=
  match e with
  | X_Identifier i =>
      match bt_get (id_value i) aliases with
      | Some alias => Ok alias
      | None => resolve_scope_column scope None (id_value i)
      end
  | X_CompoundIdentifier [relation; column] => resolve_scope_column scope (Some (id_value relation)) (id_value column)
  | X_CompoundIdentifier _ => Err (UnsupportedFeature "multi-part column references beyond relation.column")
  | X_Between value negated low high =>
      let? value := normalize_expr scope aliases context value in
      let? low := normalize_expr scope aliases context low in
      let? high := normalize_expr scope aliases context high in
      Ok (expand_between value low high negated)
  | X_InList value items negated =>
      if (length items =? 0)%nat then Err (UnsupportedFeature "empty IN list")
      else
        let? value := normalize_expr scope aliases context value in
        let? items := exec_mapM (normalize_expr scope aliases context) items in
        expand_in_list value items negated
  | X_IsNull inner => let? inner := normalize_expr scope aliases context inner in Ok (binary inner BO_Eq (X_Value V_Null))
  | X_IsNotNull inner => let? inner := normalize_expr scope aliases context inner in Ok (binary inner BO_NotEq (X_Value V_Null))
  | X_BinaryOp l op r =>
      let? l := normalize_expr scope aliases context l in
      let? r := normalize_expr scope aliases context r in
      let? _ := validate_binary_types l op r scope in
      Ok (binary l op r)
  | X_UnaryOp op inner =>
      let? inner := normalize_expr scope aliases context inner in
      let? _ :=
        match op with
        | UO_Not =>
            let? ty := infer_expr_type inner scope in
            if boolean_like ty then Ok tt else Err (SqlTypeMismatch (lit "NOT expects boolean input, got " ++ column_type_debug ty))
        | _ => Ok tt
        end in
      Ok (X_UnaryOp op inner)
  | X_Nested inner => normalize_expr scope aliases context inner
  | X_Exists subquery negated =>
      let? (subquery, _) := normalize_query context scope subquery in
      Ok (X_Exists subquery negated)
  | X_AnyOp l op r =>
      if is_comparison op then
        let? l := normalize_expr scope aliases context l in
        let? r := normalize_expr scope aliases context r in
        Ok (X_AnyOp l op r)
      else Err (UnsupportedFeature "ANY with a non-comparison operator")
  | X_Cast kind inner t format =>
      if format then Err (UnsupportedFeature "CAST with FORMAT")
      else
        match kind with
        | CK_Cast | CK_DoubleColon => let? inner := normalize_expr scope aliases context inner in Ok (X_Cast kind inner t false)
        | CK_Other => Err (UnsupportedFeature "TRY_CAST / SAFE_CAST")
        end
  | X_Function fn args over =>
      let name := ascii_lower (object_name_text fn) in
      if bool_decide (name ∈ normalizable_functions) then
        let? args :=
          match args with
          | FnList distinct args =>
              let? args := exec_mapM (fun a => match a with
                                               | FnExpr e => let? e := normalize_expr scope aliases context e in Ok (FnExpr e)
                                               | _ => Ok a
                                               end) args in
              Ok (FnList distinct args)
          | _ => Ok args
          end in
        let? _ := if bool_decide (name = lit "cardinality") then cardinality_arity args else Ok tt in
        Ok (X_Function fn args over)
      else Err (UnsupportedFunction name)
  | _ => Ok e
  end
with normalize_query (context : NormalizeContext) (outer : NameScope) (q : Query) {struct q} : exec SqlError (Query * QueryShape) :=
  let 'Query_ r := q in
  let base context q :=
    let 'Query_ r := q in
    match q_body r with
    | SE_SetOperation SO_Union _ l _ => let? (_, shape) := normalize_set_expr context scope_default l in Ok (Some shape)
    | _ => Ok None
    end in
  let? (w, context) := normalize_with normalize_query base context (q_with r) in
  let? (body, shape) := normalize_set_expr context outer (q_body r) in
  let? order_by := normalize_order_by shape (q_order_by r) in
  Ok (Query_ {| q_with := w; q_body := body; q_order_by := order_by; q_limit := q_limit r; q_limit_by := q_limit_by r;
                q_offset := q_offset r; q_fetch := q_fetch r |}, shape)
with normalize_set_expr (context : NormalizeContext) (outer : NameScope) (b : SetExpr) {struct b} : exec SqlError (SetExpr * QueryShape) :=
  match b with
  | SE_Select s => let? (s, shape) := normalize_select normalize_expr bind_relation context outer s in Ok (SE_Select s, shape)
  | SE_Query q => let? (q, shape) := normalize_query context outer q in Ok (SE_Query q, shape)
  | SE_SetOperation op quantifier l r =>
      let? (l, left_shape) := normalize_set_expr context outer l in
      let? (r, right_shape) := normalize_set_expr context outer r in
      let? _ := validate_set_shapes left_shape right_shape in
      Ok (SE_SetOperation op quantifier l r, left_shape)
  | SE_Values => Err (UnsupportedFeature "VALUES queries")
  | SE_Insert => Err (UnsupportedFeature "INSERT in query body")
  | SE_Update => Err (UnsupportedFeature "UPDATE in query body")
  | SE_Table => Err (UnsupportedFeature "TABLE queries")
  end
(** [bind_table_factor]. *)
with bind_relation (context : NormalizeContext) (scope : NameScope) (f : TableFactor) {struct f} : exec SqlError (TableFactor * NameScope) :=
  match f with
  | TF_Table name alias _ =>
      let table := catalog_table_name name in
      let? columns :=
        match bt_get table context with
        | Some cte => Ok (qs_columns cte)
        | None => let? schema := require_table catalog table in Ok (ts_columns schema)
        end in
      let qualifier := match alias with Some a => id_value (al_name a) | None => last_part name end in
      let? scope := insert_relation scope qualifier columns in
      Ok (f, scope)
  | TF_Derived lateral subquery alias =>
      let? (subquery, shape) := normalize_query context (if lateral then scope else scope_default) subquery in
      match alias with
      | None => Err (UnsupportedFeature "derived tables without aliases")
      | Some a =>
          let? scope := insert_relation scope (id_value (al_name a)) (qs_columns shape) in
          Ok (TF_Derived lateral subquery alias, scope)
      end
  | TF_Other => Err (UnsupportedFeature "table functions or special table factors")
  end.
End Trees.

(** ** Entry points *)

Definition normalize_statement (statement : Statement) (catalog : SqlCatalog) : exec SqlError Statement :=
  match statement with
  | S_Query q => let? (q, _) := normalize_query catalog [] scope_default q in Ok (S_Query q)
  | S_Other => Err UnsupportedStatement
  end.
Definition parse_and_normalize (sql : text) (catalog : SqlCatalog) : exec SqlError Statement :=
  let? statement := parse_select_with_limits sql QueryLimits_DEFAULT in
  normalize_statement statement catalog.
Definition validate_statement_against_catalog (statement : Statement) (catalog : SqlCatalog) : exec SqlError unit :=
  let? _ := normalize_statement statement catalog in Ok tt.
End Normalize.
