(* ===== verification/Prepared.v ===== *)
(** * Prepared: named queries and their registry
    ([crates/palimpsest-sql/src/prepared.rs])

    An sqlc query file is a list of blocks: a header comment [-- name: Name :verb], an
    optional [-- palimpsest:] marker, and a statement. A template is parsed, its
    [sqlc.arg] calls become positional placeholders, the types of its parameters are
    declared or inferred, and the template is bound to representative values and run
    through validation and lowering. Binding replaces placeholders by typed literals in
    a copy of the tree. Checking a statement against the catalog ([normalize.rs]) is an
    argument. *)

From stdpp Require Import gmap.
From S2P Require Import Prelude BTree Text UserContext SqlLimits Floats Exprs SqlAst Permissions Mir CompileMir Lower.
From S2P Require Import SqlParser Normalize.

(** * Query files *)

(** ** Errors *)

(** [SqlError]'s [Display]. *)
Definition sql_error_text (e : SqlError) : text :=
  match e with
  | StatementCount n => lit "expected exactly one SQL statement, got " ++ dec_len n
  | UnsupportedStatement => lit "only SELECT queries are supported"
  | UnsupportedFeature feature => lit "unsupported SQL feature: " ++ lit feature
  | UnsupportedFunction name => lit "unsupported function: " ++ name
  | InvalidQuery message => lit "invalid query: " ++ message
  | UnknownTable name => lit "unknown table: " ++ name
  | UnknownColumn name => lit "unknown column: " ++ name
  | AmbiguousColumn name => lit "ambiguous column reference: " ++ name
  | SqlTypeMismatch message => lit "SQL type mismatch: " ++ message
  | QueryTooLarge len limit => lit "SQL input is " ++ dec_len len ++ lit " bytes, limit is " ++ dec_len limit
  | QueryTooComplex nodes limit => lit "MIR has " ++ dec_len nodes ++ lit " nodes, limit is " ++ dec_len limit
  | QueryTooDeep depth limit => lit "SQL nests " ++ dec_len depth ++ lit " levels deep, limit is " ++ dec_len limit
  | ParseError message => message
  end.

Inductive RegisterError :=
| Duplicate (query : text)
| SqlBeforeHeader (origin : text) (line : nat)
| MalformedHeader (origin header : text) (line : nat)
| UnsupportedVerb (query verb : text)
| EmptyQuery (query : text)
| Unsupported (query : text) (source : SqlError)
| UnsupportedPlaceholder (query placeholder : text)
| NonContiguousParams (query : text) (missing max : nat)
| ParamTypeUnknown (query param reason : text)
| ParamTypeConflict (query param first second : text)
| ParamListConflict (query param : text)
| ParamCountMismatch (query : text) (used declared : nat)
| ReachabilityViolation (table query : text)
| ParamDeclMismatch (query param declared used : text)
| DuplicateParamName (query first second name : text).

Inductive BindError :=
| UnknownQuery (query : text)
| MissingParam (query param : text)
| UnexpectedParam (query param : text)
| DuplicateParam (query param : text)
| TypeMismatch (query param expected got : text)
| InvalidValue (query param reason : text)
| NullNotAllowed (query param : text)
| Rejected (query : text) (source : SqlError).

(** [BindError]'s [Display]. *)
Definition bind_error_text (e : BindError) : text :=
  let about query := lit "query '" ++ query ++ lit "': " in
  match e with
  | UnknownQuery query => lit "unknown query '" ++ query ++ lit "'"
  | MissingParam query param => about query ++ lit "missing parameter '" ++ param ++ lit "'"
  | UnexpectedParam query param => about query ++ lit "unexpected parameter '" ++ param ++ lit "'"
  | DuplicateParam query param => about query ++ lit "parameter '" ++ param ++ lit "' was supplied more than once"
  | TypeMismatch query param expected got => about query ++ lit "parameter '" ++ param ++ lit "' expects " ++ expected ++ lit ", got " ++ got
  | InvalidValue query param reason => about query ++ lit "parameter '" ++ param ++ lit "': " ++ reason
  | NullNotAllowed query param => about query ++ lit "parameter '" ++ param ++ lit "' is not nullable"
  | Rejected query source => about query ++ sql_error_text source
  end.

(** ** Blocks *)

Inductive PreparedCardinality := One | Many.

Record SqlcBlock := { sb_name : text; sb_verb : text; sb_marked : bool; sb_sql : text }.

Definition block_cardinality (b : SqlcBlock) : exec RegisterError PreparedCardinality :=
  if bool_decide (sb_verb b = lit ":one") then Ok One
  else if bool_decide (sb_verb b = lit ":many") then Ok Many
  else Err (UnsupportedVerb (sb_name b) (sb_verb b)).

Definition push_sql (b : SqlcBlock) (t : text) : SqlcBlock :=
  {| sb_name := sb_name b; sb_verb := sb_verb b; sb_marked := sb_marked b; sb_sql := sb_sql b ++ t |}.
Definition mark (b : SqlcBlock) (marked : bool) : SqlcBlock :=
  {| sb_name := sb_name b; sb_verb := sb_verb b; sb_marked := marked; sb_sql := sb_sql b |}.

Definition push_block (blocks : list SqlcBlock) (b : SqlcBlock) : exec RegisterError (list SqlcBlock) :=
  if bool_decide (trim (sb_sql b) = []) then Err (EmptyQuery (sb_name b)) else Ok (blocks ++ [b]).

Definition parse_sqlc_header (header origin : text) (line : nat) : exec RegisterError SqlcBlock :=
  let malformed := MalformedHeader origin (lit "-- name:" ++ header) line in
  match split_whitespace header with
  | [name; verb] =>
      if negb (starts_with (lit ":") verb) || bool_decide (name = []) then Err malformed
      else Ok {| sb_name := name; sb_verb := verb; sb_marked := false; sb_sql := [] |}
  | _ => Err malformed
  end.

(** [str::lines]: pieces that end in a line feed, with an optional carriage return before it. *)
Definition strip_cr (t : text) : text := default t (strip_suffix [x0d] t).
Fixpoint lines_aux (cur : text) (t : text) : list text :=
  match t with
  | [] => match cur with [] => [] | _ => [rev cur] end
  | b :: t' => if decide (b = x0a) then strip_cr (rev cur) :: lines_aux [] t' else lines_aux (b :: cur) t'
  end.
Definition lines (t : text) : list text := lines_aux [] t.

(** The state of the loop over the lines. *)
Record SplitState := { sp_blocks : list SqlcBlock; sp_current : option SqlcBlock; sp_pending : bool }.

(** What a line is. *)
Inductive SqlcLine := L_Header (header : text) | L_Marker | L_Comment | L_Blank | L_Sql.
Definition classify_line (line : text) : SqlcLine :=
  let trimmed := trim line in
  match strip_prefix (lit "--") trimmed with
  | Some body =>
      let body := trim body in
      match strip_prefix (lit "name:") body with
      | Some header => L_Header header
      | None =>
          if bool_decide (is_Some (strip_prefix (lit "palimpsest:") body)) || bool_decide (body = lit "palimpsest")
          then L_Marker else L_Comment
      end
  | None => if bool_decide (trimmed = []) then L_Blank else L_Sql
  end.

Definition flush_block (st : SplitState) : exec RegisterError (list SqlcBlock) :=
  match sp_current st with Some b => push_block (sp_blocks st) b | None => Ok (sp_blocks st) end.
Definition with_current (st : SplitState) (b : SqlcBlock) : SplitState :=
  {| sp_blocks := sp_blocks st; sp_current := Some b; sp_pending := sp_pending st |}.

Definition split_line (origin : text) (line_no : nat) (line : text) (st : SplitState) : exec RegisterError SplitState :=
  match classify_line line with
  | L_Header header =>
      let? blocks := flush_block st in
      let? b := parse_sqlc_header header origin line_no in
      Ok {| sp_blocks := blocks; sp_current := Some (mark b (sp_pending st)); sp_pending := false |}
  | L_Marker =>
      Ok (match sp_current st with
          | Some b => if bool_decide (trim (sb_sql b) = []) then with_current st (mark b true)
                      else {| sp_blocks := sp_blocks st; sp_current := sp_current st; sp_pending := true |}
          | None => {| sp_blocks := sp_blocks st; sp_current := None; sp_pending := true |}
          end)
  | L_Comment => Ok (match sp_current st with Some b => with_current st (push_sql b (line ++ [x0a])) | None => st end)
  | L_Blank => Ok (match sp_current st with Some b => with_current st (push_sql b [x0a]) | None => st end)
  | L_Sql =>
      match sp_current st with
      | Some b => Ok (with_current st (push_sql b (line ++ [x0a])))
      | None => Err (SqlBeforeHeader origin line_no)
      end
  end.

Fixpoint split_lines (origin : text) (line_no : nat) (ls : list text) (st : SplitState) : exec RegisterError SplitState :=
  match ls with
  | [] => Ok st
  | line :: rest => let? st := split_line origin line_no line st in split_lines origin (S line_no) rest st
  end.

Definition split_sqlc_source (source origin : text) : exec RegisterError (list SqlcBlock) :=
  let? st := split_lines origin 1 (lines source) {| sp_blocks := []; sp_current := None; sp_pending := false |} in
  flush_block st.

(** * Templates *)

Definition MAX_TEXT_PARAM_BYTES : nat := Z.to_nat (16 * 1024).
Definition MAX_LIST_PARAM_LEN : nat := 1024.

(** ** Parameters *)

Record ParamSpec := { sp_position : nat; sp_name : text; sp_ty : ColumnType; sp_list : bool; sp_nullable : bool }.
Record ParamDecl := { dc_name : text; dc_ty : ColumnType; dc_list : bool; dc_nullable : bool }.

Inductive ParamValue :=
| PV_Bool (b : bool) | PV_Int (z : Z) | PV_Float (bits : Z) | PV_Text (s : string) | PV_Null | PV_List (l : list ParamValue).

Definition kind_name (v : ParamValue) : text :=
  match v with
  | PV_Bool _ => lit "bool" | PV_Int _ => lit "int" | PV_Float _ => lit "float" | PV_Text _ => lit "text"
  | PV_Null => lit "null" | PV_List _ => lit "list"
  end.

Definition column_type_name (ty : ColumnType) : text :=
  match ty with
  | CT_Bool => lit "bool" | CT_Int => lit "int" | CT_Float => lit "float" | CT_Text => lit "text" | CT_Timestamp => lit "timestamp"
  | CT_TimestampTz => lit "timestamptz" | CT_Date => lit "date" | CT_Time => lit "time" | CT_Interval => lit "interval"
  | CT_Numeric => lit "numeric" | CT_Bytea => lit "bytea" | CT_Uuid => lit "uuid" | CT_Jsonb => lit "jsonb" | CT_Enum => lit "enum"
  | CT_Array => lit "array" | CT_Unknown => lit "unknown"
  end.
Definition param_shape (ty : ColumnType) (list : bool) : text :=
  if list then lit "list of " ++ column_type_name ty else column_type_name ty.

(** [format!("${position}")]. *)
Definition dollar (position : nat) : text := lit "$" ++ dec_len position.

(** ** Rewriting the expressions of a statement

    [visit_expressions_mut]: the closure runs on every expression after its parts, in
    the order of the fields, over a state, until it breaks. *)

Section Traverse.
Context {St X : Type}.

Definition M (A : Type) : Type := St -> exec X (A * St).
Definition m_ret {A} (a : A) : M A := fun st => Ok (a, st).
Definition m_map {A B} (g : A -> B) (m : M A) : M B := fun st => let? (a, st) := m st in Ok (g a, st).
Definition m_bind {A B} (m : M A) (k : A -> M B) : M B := fun st => let? (a, st) := m st in k a st.
Definition m_list {A} (f : A -> M A) : list A -> M (list A) :=
  fix go l := match l with [] => m_ret [] | x :: l => m_bind (f x) (fun x => m_map (cons x) (go l)) end.
Definition m_opt {A} (f : A -> M A) (o : option A) : M (option A) := match o with Some x => m_map Some (f x) | None => m_ret None end.

Section Containers.
Context {E Q B F : Type} (fe : E -> M E) (fq : Q -> M Q) (fb : B -> M B) (ff : F -> M F).

Definition t_arg (a : FnArg E) : M (FnArg E) :=
  match a with FnExpr e => m_map FnExpr (fe e) | FnNamed (Some e) => m_map (fun e => FnNamed (Some e)) (fe e) | _ => m_ret a end.
Definition t_args (a : FnArgs E Q) : M (FnArgs E Q) :=
  match a with
  | FnNone => m_ret FnNone
  | FnSubquery q => m_map FnSubquery (fq q)
  | FnList d args => m_map (FnList d) (m_list t_arg args)
  end.
Definition t_constraint (c : JoinConstraint E) : M (JoinConstraint E) := match c with JC_On e => m_map JC_On (fe e) | _ => m_ret c end.
Definition t_operator (o : JoinOperator E) : M (JoinOperator E) :=
  match o with
  | JO_Inner c => m_map JO_Inner (t_constraint c)
  | JO_LeftOuter c => m_map JO_LeftOuter (t_constraint c)
  | JO_RightOuter c => m_map JO_RightOuter (t_constraint c)
  | JO_FullOuter c => m_map JO_FullOuter (t_constraint c)
  | JO_CrossJoin | JO_Other => m_ret o
  end.
Definition t_join (j : JoinOf E F) : M (JoinOf E F) :=
  m_bind (ff (jn_relation j)) (fun r => m_map (fun o => {| jn_relation := r; jn_operator := o |}) (t_operator (jn_operator j))).
Definition t_from (t : TableWithJoins E F) : M (TableWithJoins E F) :=
  m_bind (ff (tj_relation t)) (fun r => m_map (fun js => {| tj_relation := r; tj_joins := js |}) (m_list t_join (tj_joins t))).
Definition t_item (i : SelectItem E) : M (SelectItem E) :=
  match i with
  | SI_UnnamedExpr e => m_map SI_UnnamedExpr (fe e)
  | SI_ExprWithAlias e alias => m_map (fun e => SI_ExprWithAlias e alias) (fe e)
  | SI_QualifiedWildcard _ _ | SI_Wildcard _ => m_ret i
  end.
Definition t_select (s : SelectOf E F) : M (SelectOf E F) :=
  m_bind (m_opt (fun d => match d with D_On es => m_map D_On (m_list fe es) | D_Distinct => m_ret D_Distinct end) (sl_distinct s)) (fun d =>
  m_bind (m_list t_item (sl_projection s)) (fun items =>
  m_bind (m_list t_from (sl_from s)) (fun from =>
  m_bind (m_opt fe (sl_selection s)) (fun selection =>
  m_bind (match sl_group_by s with GB_Expressions es m => m_map (fun es => GB_Expressions es m) (m_list fe es) | GB_All m => m_ret (GB_All m) end) (fun g =>
  m_map (fun having => {| sl_distinct := d; sl_top := sl_top s; sl_projection := items; sl_into := sl_into s; sl_from := from;
                          sl_selection := selection; sl_group_by := g; sl_having := having; sl_nonstandard := sl_nonstandard s |})
    (m_opt fe (sl_having s))))))).
Definition t_query (q : QueryOf E Q B) : M (QueryOf E Q B) :=
  m_bind (m_opt (fun w => m_map (fun cs => {| with_recursive := with_recursive w; with_ctes := cs |})
                            (m_list (fun c => m_map (fun q => {| cte_alias := cte_alias c; cte_query := q |}) (fq (cte_query c))) (with_ctes w)))
            (q_with q)) (fun w =>
  m_bind (fb (q_body q)) (fun b =>
  m_bind (m_opt (m_list (fun o => m_map (fun e => {| ob_expr := e; ob_asc := ob_asc o |}) (fe (ob_expr o)))) (q_order_by q)) (fun o =>
  m_bind (m_opt fe (q_limit q)) (fun l =>
  m_bind (m_list fe (q_limit_by q)) (fun lb =>
  m_bind (m_opt fe (q_offset q)) (fun f =>
  m_map (fun ft => {| q_with := w; q_body := b; q_order_by := o; q_limit := l; q_limit_by := lb; q_offset := f; q_fetch := ft |})
    (m_opt fe (q_fetch q)))))))).
End Containers.

Context (f : SqlExpr -> M SqlExpr).

Fixpoint rewrite_expr (e : SqlExpr) : M SqlExpr :=
  let both l r k := m_bind (rewrite_expr l) (fun l => m_map (fun r => k l r) (rewrite_expr r)) in
  m_bind
    (match e with
     | X_Identifier _ | X_CompoundIdentifier _ | X_Value _ | X_Interval | X_Other => m_ret e
     | X_Nested e => m_map X_Nested (rewrite_expr e)
     | X_UnaryOp op e => m_map (X_UnaryOp op) (rewrite_expr e)
     | X_IsNull e => m_map X_IsNull (rewrite_expr e)
     | X_IsNotNull e => m_map X_IsNotNull (rewrite_expr e)
     | X_IsTrue e => m_map X_IsTrue (rewrite_expr e)
     | X_IsFalse e => m_map X_IsFalse (rewrite_expr e)
     | X_Cast k e t fmt => m_map (fun e => X_Cast k e t fmt) (rewrite_expr e)
     | X_BinaryOp l op r => both l r (fun l r => X_BinaryOp l op r)
     | X_IsDistinctFrom l r => both l r X_IsDistinctFrom
     | X_IsNotDistinctFrom l r => both l r X_IsNotDistinctFrom
     | X_AnyOp l op r => both l r (fun l r => X_AnyOp l op r)
     | X_Like n a l r c => both l r (fun l r => X_Like n a l r c)
     | X_ILike n a l r c => both l r (fun l r => X_ILike n a l r c)
     | X_Between e n low high => m_bind (rewrite_expr e) (fun e => both low high (fun low high => X_Between e n low high))
     | X_InList e l n => m_bind (rewrite_expr e) (fun e => m_map (fun l => X_InList e l n) (m_list rewrite_expr l))
     | X_Case o cs rs el =>
         m_bind (m_opt rewrite_expr o) (fun o => m_bind (m_list rewrite_expr cs) (fun cs => m_bind (m_list rewrite_expr rs) (fun rs =>
         m_map (X_Case o cs rs) (m_opt rewrite_expr el))))
     | X_Array l named => m_map (fun l => X_Array l named) (m_list rewrite_expr l)
     | X_Function name args over => m_map (fun args => X_Function name args over) (t_args rewrite_expr rewrite_query args)
     | X_Exists q n => m_map (fun q => X_Exists q n) (rewrite_query q)
     | X_Subquery q => m_map X_Subquery (rewrite_query q)
     | X_InSubquery e q n => m_bind (rewrite_expr e) (fun e => m_map (fun q => X_InSubquery e q n) (rewrite_query q))
     end) f
with rewrite_query (q : Query) : M Query := let 'Query_ r := q in m_map Query_ (t_query rewrite_expr rewrite_query rewrite_body r)
with rewrite_body (b : SetExpr) : M SetExpr :=
  match b with
  | SE_Select s => m_map SE_Select (t_select rewrite_expr rewrite_factor s)
  | SE_Query q => m_map SE_Query (rewrite_query q)
  | SE_SetOperation op k l r => m_bind (rewrite_body l) (fun l => m_map (fun r => SE_SetOperation op k l r) (rewrite_body r))
  | SE_Values | SE_Insert | SE_Update | SE_Table => m_ret b
  end
with rewrite_factor (t : TableFactor) : M TableFactor :=
  match t with
  | TF_Derived lateral q alias => m_map (fun q => TF_Derived lateral q alias) (rewrite_query q)
  | TF_Table name alias args => m_map (TF_Table name alias) (m_list (t_arg rewrite_expr) args)
  | TF_Other => m_ret t
  end.
End Traverse.
Arguments M : clear implicits.

(** ** Placeholders *)

Definition parse_dollar_position (t : text) : option nat :=
  digits ← strip_prefix (lit "$") t;
  position ← parse_int 0 USIZE_MAX digits;
  if 1 <=? position then Some (Z.to_nat position) else None.

Definition placeholder_text (e : SqlExpr) : option text := match e with X_Value (V_Placeholder t) => Some t | _ => None end.
(** [visit_placeholders]. *)
Definition placeholders (q : Query) : list text := filter_map placeholder_text (exprs_in (query_nodes q)).

Definition sqlc_arg_call (name : ObjectName) (args : FnArgs SqlExpr Query) : option (text * bool) :=
  match name, args with
  | [schema; fn], FnList _ [FnExpr arg] =>
      if negb (eq_ignore_ascii_case (id_value schema) (lit "sqlc")) then None
      else
        let lower := ascii_lower (id_value fn) in
        nullable ← (if bool_decide (lower = lit "arg") then Some false else if bool_decide (lower = lit "narg") then Some true else None);
        match arg with
        | X_Identifier i => Some (id_value i, nullable)
        | X_Value (V_SingleQuotedString s) => Some (s, nullable)
        | _ => None
        end
  | _, _ => None
  end.

Record NamedArg := { na_name : text; na_nullable : bool }.
Record CanonState := { cn_named : gmap nat NamedArg; cn_by_name : gmap string nat; cn_next_position : nat }.

Definition annotation (nullable : bool) : text := if nullable then lit "sqlc.narg" else lit "sqlc.arg".

(** The closure of [canonicalize_sqlc_args]. *)
Definition canonicalize_expr (query : text) (e : SqlExpr) : M CanonState RegisterError SqlExpr := fun st =>
  match e with
  | X_Function fn args _ =>
      match sqlc_arg_call fn args with
      | None => Ok (e, st)
      | Some (name, nullable) =>
          match cn_by_name st !! text_string name with
          | Some existing =>
              match cn_named st !! existing with
              | Some arg =>
                  if negb (Bool.eqb (na_nullable arg) nullable)
                  then Err (ParamDeclMismatch query name (annotation (na_nullable arg)) (annotation nullable))
                  else Ok (X_Value (V_Placeholder (dollar existing)), st)
              | None => Panic
              end
          | None =>
              let position := S (cn_next_position st) in
              if Z.of_nat (cn_next_position st) =? USIZE_MAX then Panic
              else
              Ok (X_Value (V_Placeholder (dollar position)),
                  {| cn_named := <[position := {| na_name := name; na_nullable := nullable |}]> (cn_named st);
                     cn_by_name := <[text_string name := position]> (cn_by_name st); cn_next_position := position |})
          end
      end
  | _ => Ok (e, st)
  end.

Definition canonicalize_sqlc_args (query : text) (q : Query) : exec RegisterError (Query * gmap nat NamedArg) :=
  let max_position := list_max (filter_map parse_dollar_position (placeholders q)) in
  let? (q, st) := rewrite_query (canonicalize_expr query) q {| cn_named := ∅; cn_by_name := ∅; cn_next_position := max_position |} in
  Ok (q, cn_named st).

(** The positions, in the order they are met. *)
Fixpoint placeholder_positions (query : text) (l : list text) : exec RegisterError (list nat) :=
  match l with
  | [] => Ok []
  | t :: rest =>
      match parse_dollar_position t with
      | Some position => let? positions := placeholder_positions query rest in Ok (position :: positions)
      | None => Err (UnsupportedPlaceholder query t)
      end
  end.

(** [sort_unstable] and [dedup]. *)
Fixpoint insert_position (p : nat) (l : list nat) : list nat :=
  match l with
  | [] => [p]
  | x :: l' => if (p <? x)%nat then p :: l else if (p =? x)%nat then l else x :: insert_position p l'
  end.
Definition sort_dedup (l : list nat) : list nat := foldr insert_position [] l.

Definition collect_placeholders (query : text) (q : Query) : exec RegisterError (list nat) :=
  let? positions := placeholder_positions query (placeholders q) in Ok (sort_dedup positions).

(** ** Type inference *)

Record Inference := { in_ty : option ColumnType; in_list : option bool; in_name_hint : option text }.
(** A use site: the inference, or why there is none. *)
Abbreviation site := (text + Inference)%type.

Fixpoint unwrap_nested (e : SqlExpr) : SqlExpr := match e with X_Nested e => unwrap_nested e | _ => e end.
Definition placeholder_position (e : SqlExpr) : option nat := t ← placeholder_text (unwrap_nested e); parse_dollar_position t.

Section Infer.
Context `{SqlSyntax}.

(** [name.0.iter().map(value).collect().join(".")]. *)
Definition dotted (name : ObjectName) : text := join (lit ".") (map id_value name).

(** Alias or table name, and the table's full name. *)
Definition collect_table_aliases (q : Query) : list (text * text) :=
  filter_map (fun f => match f with
                       | TF_Table name alias _ =>
                           table ← last name;
                           Some (match alias with Some a => id_value (al_name a) | None => id_value table end, dotted name)
                       | _ => None
                       end) (factors_in (query_nodes q)).

(** [Vec::dedup]. *)
Fixpoint dedup_eq {A} `{EqDecision A} (l : list A) : list A :=
  match l with
  | [] => []
  | x :: l' =>
      match l' with
      | [] => [x]
      | y :: _ => if decide (x = y) then dedup_eq l' else x :: dedup_eq l'
      end
  end.

Definition quote_name (t : text) : text := lit "'" ++ t ++ lit "'".

Definition resolve_qualified (qualifier column : text) (aliases : list (text * text)) (catalog : SqlCatalog) : text + (text * ColumnType) :=
  match List.find (fun a => bool_decide (a.1 = qualifier)) aliases with
  | None => inl (lit "unknown relation " ++ quote_name qualifier)
  | Some (_, table) =>
      match catalog_table catalog table with
      | None => inl (lit "table " ++ quote_name table ++ lit " is not in the catalog")
      | Some schema =>
          match table_column schema column with
          | None => inl (lit "column " ++ quote_name column ++ lit " not found on table " ++ quote_name table)
          | Some col => inr (column, col_ty col)
          end
      end
  end.

Definition resolve_unqualified (column : text) (aliases : list (text * text)) (catalog : SqlCatalog) : text + (text * ColumnType) :=
  let found := filter_map (fun a => schema ← catalog_table catalog a.2; col ← table_column schema column; Some (a.2, col_ty col)) aliases in
  match dedup_eq found with
  | [] => inl (lit "column " ++ quote_name column ++ lit " not found in any catalog table referenced by the query")
  | [(_, ty)] => inr (column, ty)
  | many => inl (lit "column " ++ quote_name column ++ lit " is ambiguous across tables " ++ join (lit ", ") (map (fun m => quote_name m.1) many))
  end.

Fixpoint resolve_column_type (e : SqlExpr) (aliases : list (text * text)) (catalog : SqlCatalog) : text + (text * ColumnType) :=
  match e with
  | X_Nested e => resolve_column_type e aliases catalog
  | X_BinaryOp l BO_Arrow _ => match resolve_column_type l aliases catalog with inl e => inl e | inr (name, _) => inr (name, CT_Jsonb) end
  | X_BinaryOp l BO_LongArrow _ => match resolve_column_type l aliases catalog with inl e => inl e | inr (name, _) => inr (name, CT_Text) end
  | X_Identifier i => resolve_unqualified (id_value i) aliases catalog
  | X_CompoundIdentifier parts =>
      match rev parts with
      | column :: qualifier :: _ => resolve_qualified (id_value qualifier) (id_value column) aliases catalog
      | _ => inl (quote_name (expr_text e) ++ lit " is not a column reference")
      end
  | _ => inl (quote_name (expr_text e) ++ lit " is not a column reference")
  end.

Definition known_site (ty : ColumnType) (hint : option text) : site := inr {| in_ty := Some ty; in_list := Some false; in_name_hint := hint |}.

Section Visitor.
Context (aliases : list (text * text)) (catalog : SqlCatalog) (data_type_text : DataType -> text).

Definition column_site (column : SqlExpr) (list : bool) : site :=
  match resolve_column_type column aliases catalog with
  | inl reason => inl reason
  | inr (name, ty) => inr {| in_ty := Some ty; in_list := Some list; in_name_hint := Some name |}
  end.

(** [if let Some(position) = placeholder_position(e) { record(position, site) }]. *)
Definition record_at (e : SqlExpr) (s : site) : list (nat * site) := match placeholder_position e with Some position => [(position, s)] | None => [] end.

Definition is_arithmetic (op : BinaryOperator) : bool := match op with BO_Plus | BO_Minus | BO_Multiply | BO_Divide | BO_Modulo => true | _ => false end.

(** What [InferVisitor] records at a node. *)
Definition infer_node (n : Node) : list (nat * site) :=
  match n with
  | N_Query (Query_ q) =>
      opt_list (fun e => record_at e (known_site CT_Int (Some (lit "limit")))) (q_limit q) ++
      opt_list (fun e => record_at e (known_site CT_Int (Some (lit "offset")))) (q_offset q)
  | N_Expr (X_Cast (CK_Cast | CK_DoubleColon) inner t _) =>
      record_at inner (match from_cast_target t with
                       | Some ty => known_site ty None
                       | None => inl (lit "cast target " ++ quote_name (data_type_text t) ++ lit " is unsupported")
                       end)
  | N_Expr (X_BinaryOp l op r) =>
      if is_comparison op || is_arithmetic op then record_at r (column_site l false) ++ record_at l (column_site r false) else []
  | N_Expr (X_AnyOp l _ r) => record_at r (column_site l true)
  | N_Expr (X_InList subject l _) => flat_map (fun item => record_at item (column_site subject false)) l
  | N_Expr (X_Between subject _ low high) => record_at low (column_site subject false) ++ record_at high (column_site subject false)
  | N_Expr (X_Like _ _ _ pattern _ | X_ILike _ _ _ pattern _) => record_at pattern (known_site CT_Text None)
  | _ => []
  end.
End Visitor.

Definition CONFLICT_LIST : text := [x01] ++ lit "conflict-list".
Definition CONFLICT_TYPE : text := [x01] ++ lit "conflict-type".

(** [merge_sites]: the conflict, or the merged inference. *)
Definition merge_sites (existing new : Inference) : site :=
  let list_conflict := match in_list existing, in_list new with Some a, Some b => negb (Bool.eqb a b) | _, _ => false end in
  if list_conflict then inl CONFLICT_LIST
  else
    match in_ty existing, in_ty new with
    | Some a, Some b =>
        if decide (a = b) then
          inr {| in_ty := Some a; in_list := match in_list existing with None => in_list new | l => l end;
                 in_name_hint := match in_name_hint existing with None => in_name_hint new | h => h end |}
        else inl (CONFLICT_TYPE ++ lit ":" ++ column_type_name a ++ lit ":" ++ column_type_name b)
    | ty, ty' =>
        inr {| in_ty := match ty with None => ty' | t => t end; in_list := match in_list existing with None => in_list new | l => l end;
               in_name_hint := match in_name_hint existing with None => in_name_hint new | h => h end |}
    end.

Definition merge_inference (inferred : gmap nat site) (position : nat) (s : site) : gmap nat site :=
  match inferred !! position with
  | None => <[position := s]> inferred
  | Some slot =>
      match s, slot with
      | inl _, _ => inferred
      | inr new, inl _ => <[position := inr new]> inferred
      | inr new, inr existing => <[position := merge_sites existing new]> inferred
      end
  end.

Definition infer_param_types (data_type_text : DataType -> text) (q : Query) (catalog : SqlCatalog) : gmap nat site :=
  fold_left (fun m ps => merge_inference m ps.1 ps.2)
    (flat_map (infer_node (collect_table_aliases q) catalog data_type_text) (query_nodes q)) ∅.
End Infer.

(** ** Resolving the parameters *)

Fixpoint check_names (query : text) (seen : gmap string nat) (specs : list ParamSpec) : exec RegisterError unit :=
  match specs with
  | [] => Ok tt
  | spec :: rest =>
      match seen !! text_string (sp_name spec) with
      | Some first => Err (DuplicateParamName query (dollar first) (dollar (sp_position spec)) (sp_name spec))
      | None => check_names query (<[text_string (sp_name spec) := sp_position spec]> seen) rest
      end
  end.
Definition check_duplicate_names (query : text) (specs : list ParamSpec) : exec RegisterError unit := check_names query ∅ specs.

(** The names [leak_type_name] knows. *)
Definition leaked_types : list ColumnType :=
  [CT_Bool; CT_Int; CT_Float; CT_Text; CT_Timestamp; CT_Uuid; CT_Jsonb; CT_Enum; CT_Unknown].
Definition leak_type_name (name : text) : text :=
  match List.find (fun ty => bool_decide (column_type_name ty = name)) leaked_types with
  | Some ty => column_type_name ty
  | None => lit "unknown"
  end.

Definition first_missing (positions : list nat) (max : nat) : option nat :=
  List.find (fun expected => negb (bool_decide (expected ∈ positions))) (seq 1 max).

(** The loop over the declarations. *)
Fixpoint declared_specs (query : text) (named_args : gmap nat NamedArg) (position : nat) (decls : list ParamDecl) : exec RegisterError (list ParamSpec) :=
  match decls with
  | [] => Ok []
  | decl :: rest =>
      let? _ :=
        match named_args !! position with
        | None => Ok tt
        | Some arg =>
            if negb (bool_decide (na_name arg = dc_name decl))
            then Err (ParamDeclMismatch query (dollar position) (dc_name decl) (na_name arg))
            else if negb (Bool.eqb (na_nullable arg) (dc_nullable decl))
            then Err (ParamDeclMismatch query (dollar position) (lit (if dc_nullable decl then "nullable" else "non-nullable"))
                        (lit (if na_nullable arg then "sqlc.narg (nullable)" else "sqlc.arg (non-nullable)")))
            else Ok tt
        end in
      let? specs := declared_specs query named_args (S position) rest in
      Ok ({| sp_position := position; sp_name := dc_name decl; sp_ty := dc_ty decl; sp_list := dc_list decl; sp_nullable := dc_nullable decl |} :: specs)
  end.

Definition not_inferrable : text :=
  lit "the parameter is not used in a comparison, ANY(...), IN, BETWEEN, LIKE, LIMIT/OFFSET, or cast position".

(** One pass of the inference loop. *)
Definition inferred_spec (query : text) (named_args : gmap nat NamedArg) (inferred : gmap nat site) (position : nat) : exec RegisterError ParamSpec :=
  let param_label := match named_args !! position with
                     | Some arg => lit "sqlc.arg(" ++ na_name arg ++ lit ")"
                     | None => dollar position
                     end in
  match inferred !! position with
  | None => Err (ParamTypeUnknown query param_label not_inferrable)
  | Some (inl reason) =>
      if bool_decide (reason = CONFLICT_LIST) then Err (ParamListConflict query param_label)
      else
        match strip_prefix CONFLICT_TYPE reason with
        | Some rest =>
            let rest := trim_start_byte x3a rest in
            let '(first, second) := default (rest, lit "unknown") (split_once x3a rest) in
            Err (ParamTypeConflict query param_label (leak_type_name first) (leak_type_name second))
        | None => Err (ParamTypeUnknown query param_label reason)
        end
  | Some (inr inference) =>
      match in_ty inference with
      | None => Err (ParamTypeUnknown query param_label (lit "no use site determines a concrete type"))
      | Some ty =>
          let '(name, nullable) := match named_args !! position with
                                   | Some arg => (na_name arg, na_nullable arg)
                                   | None => (default (lit "arg" ++ dec_len position) (in_name_hint inference), false)
                                   end in
          Ok {| sp_position := position; sp_name := name; sp_ty := ty; sp_list := default false (in_list inference); sp_nullable := nullable |}
      end
  end.

Fixpoint inferred_specs (query : text) (named_args : gmap nat NamedArg) (inferred : gmap nat site) (positions : list nat) : exec RegisterError (list ParamSpec) :=
  match positions with
  | [] => Ok []
  | position :: rest =>
      let? spec := inferred_spec query named_args inferred position in
      let? specs := inferred_specs query named_args inferred rest in
      Ok (spec :: specs)
  end.

(** A second parameter with the same name gets its position as a suffix. *)
Fixpoint suffix_names (seen : gset string) (specs : list ParamSpec) : list ParamSpec :=
  match specs with
  | [] => []
  | spec :: rest =>
      if bool_decide (text_string (sp_name spec) ∈ seen) then
        {| sp_position := sp_position spec; sp_name := sp_name spec ++ lit "_" ++ dec_len (sp_position spec); sp_ty := sp_ty spec;
           sp_list := sp_list spec; sp_nullable := sp_nullable spec |} :: suffix_names seen rest
      else spec :: suffix_names ({[text_string (sp_name spec)]} ∪ seen) rest
  end.

Section Registry.
Context `{SqlSyntax} `{EvalRuntime} `{PetGraph MirNodeKind MirEdgeKind}.
Context (data_type_text : DataType -> text).

Definition resolve_params (query : text) (q : Query) (positions : list nat) (named_args : gmap nat NamedArg)
    (decls : option (list ParamDecl)) (catalog : option SqlCatalog) : exec RegisterError (list ParamSpec) :=
  let max := default 0%nat (last positions) in
  match first_missing positions max with
  | Some missing => Err (NonContiguousParams query missing max)
  | None =>
      match decls with
      | Some decls =>
          if negb (Nat.eqb (length decls) max) then Err (ParamCountMismatch query max (length decls))
          else
            let? specs := declared_specs query named_args 1 decls in
            let? _ := check_duplicate_names query specs in
            Ok specs
      | None =>
          let inferred := match catalog with Some catalog => infer_param_types data_type_text q catalog | None => ∅ end in
          let? specs := inferred_specs query named_args inferred (seq 1 max) in
          let specs := suffix_names ∅ specs in
          let? _ := check_duplicate_names query specs in
          Ok specs
      end
  end.

(** ** Binding *)

Definition type_mismatch (query : text) (spec : ParamSpec) (value : ParamValue) : BindError :=
  TypeMismatch query (sp_name spec) (param_shape (sp_ty spec) (sp_list spec)) (kind_name value).

(** [f64::is_finite], by bit pattern. *)
Definition is_finite (bits : Z) : bool := negb (Z.land (Z.shiftr bits 52) 2047 =? 2047).

(** [validate_uuid] is the user context's normaliser, line for line. *)
Definition validate_uuid (t : text) : option text := normalized_uuid t.

Definition render_scalar (query : text) (spec : ParamSpec) (value : ParamValue) : exec BindError SqlExpr :=
  let mismatch := Err (type_mismatch query spec value) in
  let invalid reason := Err (InvalidValue query (sp_name spec) reason) in
  let not_finite := lit "float parameter must be finite" in
  let ok v := Ok (X_Value v) in
  match sp_ty spec, value with
  | _, PV_Null => if negb (sp_nullable spec) then Err (NullNotAllowed query (sp_name spec)) else ok V_Null
  | _, PV_List _ => mismatch
  | CT_Bool, PV_Bool b => ok (V_Boolean b)
  | CT_Bool, PV_Text s =>
      let lower := ascii_lower (lit s) in
      if bool_decide (lower = lit "true") then ok (V_Boolean true)
      else if bool_decide (lower = lit "false") then ok (V_Boolean false) else mismatch
  | CT_Int, PV_Int v => ok (V_Number (dec v) false)
  | CT_Int, PV_Text s =>
      match parse_int I64_MIN I64_MAX (trim (lit s)) with Some parsed => ok (V_Number (dec parsed) false) | None => mismatch end
  | CT_Float, PV_Float v => if negb (is_finite v) then invalid not_finite else ok (V_Number (f64_text v) false)
  | CT_Float, PV_Int v => ok (V_Number (dec v) false)
  | CT_Float, PV_Text s =>
      match f64_parse (trim (lit s)) with
      | Some parsed => if negb (is_finite parsed) then invalid not_finite else ok (V_Number (f64_text parsed) false)
      | None => mismatch
      end
  | CT_Uuid, PV_Text s =>
      match validate_uuid (lit s) with
      | Some normalized => ok (V_SingleQuotedString normalized)
      | None => invalid (quote_name (lit s) ++ lit " is not a valid uuid")
      end
  | (CT_Text | CT_Timestamp | CT_Jsonb | CT_Enum | CT_Unknown), PV_Text s =>
      if (MAX_TEXT_PARAM_BYTES <? length (lit s))%nat
      then invalid (lit "value is " ++ dec_len (length (lit s)) ++ lit " bytes, limit is " ++ dec_len MAX_TEXT_PARAM_BYTES)
      else ok (V_SingleQuotedString (lit s))
  | _, _ => mismatch
  end.

Fixpoint render_elements (query : text) (spec : ParamSpec) (items : list ParamValue) : exec BindError (list SqlExpr) :=
  match items with
  | [] => Ok []
  | item :: rest =>
      let? e := render_scalar query spec item in
      let? es := render_elements query spec rest in
      Ok (e :: es)
  end.

Definition render_literal (query : text) (spec : ParamSpec) (value : ParamValue) : exec BindError SqlExpr :=
  if sp_list spec then
    match value with
    | PV_List items =>
        if (MAX_LIST_PARAM_LEN <? length items)%nat
        then Err (InvalidValue query (sp_name spec)
                    (lit "list has " ++ dec_len (length items) ++ lit " elements, limit is " ++ dec_len MAX_LIST_PARAM_LEN))
        else
          let scalar_spec := {| sp_position := sp_position spec; sp_name := sp_name spec; sp_ty := sp_ty spec; sp_list := false; sp_nullable := sp_nullable spec |} in
          let? elem := render_elements query scalar_spec items in
          Ok (X_Array elem true)
    | _ => Err (type_mismatch query spec value)
    end
  else render_scalar query spec value.

Definition uuid_zero : string := "00000000-0000-0000-0000-000000000000".
Definition dummy_value (spec : ParamSpec) : ParamValue :=
  let scalar := match sp_ty spec with
                | CT_Bool => PV_Bool true
                | CT_Int => PV_Int 0
                | CT_Float => PV_Float 0
                | CT_Uuid => PV_Text uuid_zero
                | CT_Timestamp => PV_Text "2000-01-01 00:00:00"
                | CT_TimestampTz => PV_Text "2000-01-01 00:00:00+00"
                | CT_Date => PV_Text "2000-01-01"
                | CT_Time => PV_Text "00:00:00"
                | CT_Interval => PV_Text "0 seconds"
                | CT_Numeric => PV_Text "0"
                | CT_Jsonb => PV_Text "{}"
                | CT_Text | CT_Enum | CT_Bytea | CT_Array | CT_Unknown => PV_Text ""
                end in
  if sp_list spec then PV_List [scalar] else scalar.

(** The statement is the query that [parse_single_query] returned. *)
Record PreparedQuery := {
  pq_name : text; pq_cardinality : PreparedCardinality; pq_sql : text; pq_params : list ParamSpec; pq_statement : Query;
  pq_tables : list text; pq_leaky_tables : list text
}.
Record BoundQuery := { bq_sql : text; bq_graph : MirGraph }.

Definition answers_to (key : text) (spec : ParamSpec) : bool := bool_decide (sp_name spec = key) || bool_decide (dollar (sp_position spec) = key).

(** The loop over the supplied values, in the order the map yields them. *)
Fixpoint resolve_keys (query : text) (specs : list ParamSpec) (supplied : list (string * ParamValue)) (by_position : gmap nat ParamValue)
    : exec BindError (gmap nat ParamValue) :=
  match supplied with
  | [] => Ok by_position
  | (key, value) :: rest =>
      match List.find (answers_to (lit key)) specs with
      | None => Err (UnexpectedParam query (lit key))
      | Some spec =>
          match by_position !! sp_position spec with
          | Some _ => Err (DuplicateParam query (sp_name spec))
          | None => resolve_keys query specs rest (<[sp_position spec := value]> by_position)
          end
      end
  end.

Fixpoint render_params (query : text) (specs : list ParamSpec) (by_position : gmap nat ParamValue) (rendered : gmap nat SqlExpr)
    : exec BindError (gmap nat SqlExpr) :=
  match specs with
  | [] => Ok rendered
  | spec :: rest =>
      match by_position !! sp_position spec with
      | None => Err (MissingParam query (sp_name spec))
      | Some value =>
          let? e := render_literal query spec value in
          render_params query rest by_position (<[sp_position spec := e]> rendered)
      end
  end.

(** The closure that puts the literals in. *)
Definition substitute (rendered : gmap nat SqlExpr) (e : SqlExpr) : SqlExpr :=
  default e (t ← placeholder_text e; position ← parse_dollar_position t; rendered !! position).

Definition rejected {A} (query : text) (r : exec SqlError A) : exec BindError A :=
  match r with Ok a => Ok a | Err source => Err (Rejected query source) | Panic => Panic end.

Definition bind_prepared (p : PreparedQuery) (params : gmap string ParamValue) (limits : QueryLimits) : exec BindError BoundQuery :=
  let? by_position := resolve_keys (pq_name p) (pq_params p) (map_to_list params) ∅ in
  let? rendered := render_params (pq_name p) (pq_params p) by_position ∅ in
  let? (q, _) := rewrite_query (fun e => m_ret (substitute rendered e)) (pq_statement p) tt in
  let? _ := rejected (pq_name p) (validate_query q) in
  let? graph := rejected (pq_name p) (lower_select_statement (S_Query q)) in
  let? _ := rejected (pq_name p) (enforce_graph_size (node_count graph) limits) in
  let sql := query_text q in
  let? _ := rejected (pq_name p) (enforce_input_size sql limits) in
  Ok {| bq_sql := sql; bq_graph := graph |}.

(** ** Tables that can source rows *)

Definition enters_anti_right (g : MirGraph) (e : edge MirEdgeKind) : bool :=
  match node_kind g (target e), weight e with Some (Join JK_Anti _), Input 1 => true | _, _ => false end.

(** [seen] holds the nodes of the walk: a node leaves it when its call returns. *)
Fixpoint protected (fuel : nat) (g : MirGraph) (seen : gset nat) (node : nat) : bool :=
  match fuel with
  | O => false
  | S fuel =>
      if bool_decide (node ∈ seen) then false
      else
        match edge_refs (graph g) (pg_out (graph g) node) with
        | [] => false
        | consumers => forallb (fun e => enters_anti_right g e || protected fuel g ({[node]} ∪ seen) (target e)) consumers
        end
  end.
Definition anti_join_protected (g : MirGraph) (base : nat) : bool := protected (S (node_count g)) g ∅ base.

(** The loop that collects the tables of a plan: all of them, and those that leak. *)
Definition push_new (t : text) (l : list text) : list text := if decide (t ∈ l) then l else l ++ [t].
Definition collect_tables (g : MirGraph) : list text * list text :=
  fold_left (fun acc index =>
    match node_kind g index with
    | Some (BaseTable table _) =>
        (push_new table acc.1, if anti_join_protected g index then acc.2 else push_new table acc.2)
    | _ => acc
    end) (base_table_indices g) ([], []).

(** ** The registry *)

Record QueryRegistry := { qr_queries : btree text PreparedQuery; qr_limits : QueryLimits }.
Definition registry_with_limits (limits : QueryLimits) : QueryRegistry := {| qr_queries := []; qr_limits := limits |}.
Definition query_get (r : QueryRegistry) (name : text) : option PreparedQuery := bt_get name (qr_queries r).

Definition unsupported {A} (query : text) (r : exec SqlError A) : exec RegisterError A :=
  match r with Ok a => Ok a | Err source => Err (Unsupported query source) | Panic => Panic end.
Definition registration_error (name : text) (e : BindError) : RegisterError :=
  match e with Rejected query source => Unsupported query source | other => Unsupported name (InvalidQuery (bind_error_text other)) end.

(** [parse_single_query] only returns queries; another statement would be refused when bound. *)
Definition statement_query (query : text) (s : Statement) : exec RegisterError Query :=
  match s with S_Query q => Ok q | S_Other => Err (Unsupported query UnsupportedStatement) end.

Definition dummies (specs : list ParamSpec) : gmap string ParamValue :=
  list_to_map (rev (map (fun spec => (text_string (sp_name spec), dummy_value spec)) specs)).

Definition prepare_query (limits : QueryLimits) (name sql : text) (cardinality : PreparedCardinality) (decls : option (list ParamDecl))
    (catalog : option SqlCatalog) : exec RegisterError PreparedQuery :=
  let? statement := unsupported name (parse_single_query sql limits) in
  let? q := statement_query name statement in
  let? (q, named_args) := canonicalize_sqlc_args name q in
  let? occurrences := collect_placeholders name q in
  let? params := resolve_params name q occurrences named_args decls catalog in
  let with_tables tables leaky :=
    {| pq_name := name; pq_cardinality := cardinality; pq_sql := sql; pq_params := params; pq_statement := q;
       pq_tables := tables; pq_leaky_tables := leaky |} in
  let? bound := match bind_prepared (with_tables [] []) (dummies params) limits with
                | Ok bound => Ok bound
                | Err e => Err (registration_error name e)
                | Panic => Panic
                end in
  let '(tables, leaky) := collect_tables (bq_graph bound) in
  let? _ := match catalog with
            | None => Ok tt
            | Some catalog =>
                let? rendered := unsupported name (parse_single_query (bq_sql bound) limits) in
                unsupported name (validate_statement_against_catalog rendered catalog)
            end in
  Ok (with_tables (slice_sort tables) (slice_sort leaky)).

Definition register_full (r : QueryRegistry) (name sql : text) (cardinality : PreparedCardinality) (decls : option (list ParamDecl))
    (catalog : option SqlCatalog) : exec RegisterError QueryRegistry :=
  match bt_get name (qr_queries r) with
  | Some _ => Err (Duplicate name)
  | None =>
      let? prepared := prepare_query (qr_limits r) name sql cardinality decls catalog in
      Ok {| qr_queries := bt_insert name prepared (qr_queries r); qr_limits := qr_limits r |}
  end.

Definition register_query (r : QueryRegistry) (name sql : text) (params : list ParamDecl) : exec RegisterError QueryRegistry :=
  register_full r name sql Many (Some params) None.

(** The loop over the blocks, on the staged registry. *)
Fixpoint register_blocks (staged : QueryRegistry) (catalog : SqlCatalog) (marker_scoped : bool) (blocks : list SqlcBlock)
    : exec RegisterError (QueryRegistry * list text) :=
  match blocks with
  | [] => Ok (staged, [])
  | b :: rest =>
      if marker_scoped && negb (sb_marked b) then register_blocks staged catalog marker_scoped rest
      else
        let? cardinality := block_cardinality b in
        let? staged := register_full staged (sb_name b) (sb_sql b) cardinality None (Some catalog) in
        let? (staged, registered) := register_blocks staged catalog marker_scoped rest in
        Ok (staged, sb_name b :: registered)
  end.

(** The registry after the call, with its answer. *)
Definition register_sqlc_blocks (r : QueryRegistry) (source origin : text) (catalog : SqlCatalog) (marker_scoped : bool)
    : QueryRegistry * exec RegisterError (list text) :=
  match split_sqlc_source source origin with
  | Ok blocks =>
      match register_blocks {| qr_queries := qr_queries r; qr_limits := qr_limits r |} catalog marker_scoped blocks with
      | Ok (staged, registered) => ({| qr_queries := qr_queries staged; qr_limits := qr_limits r |}, Ok registered)
      | Err e => (r, Err e)
      | Panic => (r, Panic)
      end
  | Err e => (r, Err e)
  | Panic => (r, Panic)
  end.
Definition register_sqlc_source (r : QueryRegistry) (source origin : text) (catalog : SqlCatalog) :=
  register_sqlc_blocks r source origin catalog false.
Definition register_sqlc_source_marked (r : QueryRegistry) (source origin : text) (catalog : SqlCatalog) :=
  register_sqlc_blocks r source origin catalog true.

Definition registry_bind (r : QueryRegistry) (name : text) (params : gmap string ParamValue) : exec BindError BoundQuery :=
  match bt_get name (qr_queries r) with
  | None => Err (UnknownQuery name)
  | Some prepared => bind_prepared prepared params (qr_limits r)
  end.

Fixpoint anti_join_only (table : text) (queries : list (text * PreparedQuery)) : exec RegisterError unit :=
  match queries with
  | [] => Ok tt
  | (_, p) :: rest =>
      if bool_decide (table ∈ pq_leaky_tables p) then Err (ReachabilityViolation table (pq_name p)) else anti_join_only table rest
  end.
Definition assert_anti_join_only (r : QueryRegistry) (table : text) : exec RegisterError unit := anti_join_only table (qr_queries r).

(** A [BTreeSet] of names. *)
Definition referenced_tables (r : QueryRegistry) : list text :=
  map fst (bt_from_list (flat_map (fun p => map (fun t => (t, tt)) (pq_tables p.2)) (qr_queries r))).
End Registry.
