(* ===== verification/BindFacts.v ===== *)
(** * BindFacts: tables that reach the output, and literals put into a template

    The walk of [anti_join_protected] against paths in the graph, and the tables a plan
    reads with whether they are behind an anti-join. The traversal with a closure that
    never breaks is a map over the tree, and replacing values by literals changes
    neither the relations a query names nor those it reads. *)

From stdpp Require Import gmap.
From S2P Require Import Prelude BTree Text UserContext SqlLimits Exprs SqlAst Permissions Mir CompileMir Lower LowerFacts.
From S2P Require Import SqlParser Prepared.

(** * Tables whose rows reach the output *)

(** ** Occurrences that reach the output *)

(** In a plan: no anti-join has the node below its right input. *)
Fixpoint p_open (p : plan) (i : nat) : bool :=
  match p with
  | PLeaf _ => true
  | PUnary _ p => if (i <? p_size p)%nat then p_open p i else true
  | PBinary k l r =>
      if (i <? p_size l)%nat then p_open l i
      else if (i <? p_size l + p_size r)%nat then negb (anti_kind k) && p_open r (i - p_size l) else true
  | PCte _ p => match i with O => true | S i => p_open p i end
  end.

Definition p_enters (p : plan) (e : edge MirEdgeKind) : bool :=
  match p_nodes p !! target e, weight e with Some (Join JK_Anti _), Input 1 => true | _, _ => false end.

Lemma p_enters_nodes p p' e e' : p_nodes p !! target e = p_nodes p' !! target e' -> weight e = weight e' -> p_enters p e = p_enters p' e'.
Proof. unfold p_enters. by intros -> ->. Qed.

Lemma p_open_root p : p_open p (p_root p) = true.
Proof. destruct p as [k|k p|k l r|k p]; simpl; [done|..|done]; split_ltb; done. Qed.

Lemma p_edge_open p e : e ∈ p_edges p -> p_open p (source e) = negb (p_enters p e) && p_open p (target e).
Proof.
  revert e. induction p as [k|k p IH|k l IHl r IHr|k p IH]; intros e; cbn [p_edges].
  - by intros ?%elem_of_nil.
  - pose proof (p_root_lt p). rewrite elem_of_app, list_elem_of_singleton. intros [Hin| ->].
    + pose proof (p_edges_bound p e Hin). rewrite (p_enters_nodes (PUnary k p) p e e); [|simpl; by rewrite lookup_app_l by (unfold p_size in *; lia)|done].
      cbn [p_open]. split_ltb. by apply IH.
    + cbn [p_open source target fst snd]. split_ltb. rewrite p_open_root. unfold p_enters. cbn [target weight fst snd]. by destruct (_ !! _) as [[]|]; try destruct kind.
  - pose proof (p_root_lt l). pose proof (p_root_lt r).
    assert (forall i, (p_size l + i - p_size l = i)%nat) as Hsub by lia.
    rewrite !elem_of_app, !list_elem_of_singleton, list_elem_of_fmap. intros [[Hin|(e' & -> & Hin)]|[->| ->]].
    + pose proof (p_edges_bound l e Hin). rewrite (p_enters_nodes _ l e e); [|simpl; by rewrite lookup_app_l by (unfold p_size in *; lia)|done].
      cbn [p_open]. split_ltb. by apply IHl.
    + pose proof (p_edges_bound r e' Hin). rewrite (p_enters_nodes _ r _ e').
      2: { cbn [p_nodes shift_edge target fst snd]. rewrite lookup_app_r by (unfold p_size in *; lia). fold (p_size l). rewrite Hsub.
           by rewrite lookup_app_l by (unfold p_size in *; lia). }
      2: done.
      cbn [p_open shift_edge source target fst snd]. rewrite !Hsub. split_ltb. rewrite (IHr e' Hin). by destruct (anti_kind k), (p_enters r e').
    + cbn [p_open source target fst snd]. split_ltb. rewrite p_open_root. unfold p_enters. cbn [target weight fst snd]. by destruct (_ !! _) as [[]|]; try destruct kind.
    + cbn [p_open source target fst snd]. rewrite Hsub. split_ltb. rewrite p_open_root.
      assert (p_nodes (PBinary k l r) !! (p_size l + p_size r)%nat = Some k) as Hk by apply (p_nodes_root (PBinary k l r)).
      unfold p_enters. cbn [target weight fst snd]. rewrite Hk. by destruct k as [| | |kind| | | | | | | | | | |]; try destruct kind.
  - pose proof (p_root_lt p). rewrite elem_of_app, list_elem_of_singleton, list_elem_of_fmap. intros [(e' & -> & Hin)| ->].
    + rewrite (p_enters_nodes _ p _ e') by done. simpl. by apply IH.
    + simpl. rewrite p_open_root. unfold p_enters. simpl. by destruct k as [| | |kind| | | | | | | | | | |]; try destruct kind.
Qed.

(** The tables of a plan, by the indices of its base tables. *)
Definition occurrence_at (p : plan) (i : nat) : list (occurrence text) :=
  match p_nodes p !! i with Some (BaseTable name _) => [(name, p_open p i)] | _ => [] end.

Lemma p_tables_open p : plan_ok p = true -> flat_map (occurrence_at p) (seq 0 (p_size p)) = p_tables p.
Proof.
  assert (forall a n f, flat_map f (seq a n) = flat_map (fun i => f (a + i)%nat) (seq 0 n) :> list (occurrence text)) as Hshift.
  { intros a n f. rewrite <- (Nat.add_0_r a) at 1. rewrite <- fmap_add_seq, flat_map_concat_map, map_map. by rewrite flat_map_concat_map. }
  assert (forall n (f g : nat -> list (occurrence text)), (forall i, (i < n)%nat -> f i = g i) -> flat_map f (seq 0 n) = flat_map g (seq 0 n)) as Hext.
  { intros n f g Hfg. rewrite !flat_map_concat_map. f_equal. apply map_ext_in. intros i Hi%in_seq. apply Hfg. lia. }
  induction p as [k|k p IH|k l IHl r IHr|k p IH]; intros Hok; simpl in Hok.
  - by destruct k.
  - apply andb_true_iff in Hok as [Hk Hok]. rewrite p_size_unary, seq_S, flat_map_app. cbn [p_tables]. rewrite <- IH by done.
    assert (occurrence_at (PUnary k p) (0 + p_size p) = []) as Hlast.
    { unfold occurrence_at. rewrite Nat.add_0_l. pose proof (p_nodes_root (PUnary k p)) as Hr. cbn [p_root] in Hr. rewrite Hr. by destruct k. }
    cbn [flat_map]. rewrite Hlast, !app_nil_r. apply Hext. intros i Hi. unfold occurrence_at. cbn [p_nodes p_open].
    rewrite lookup_app_l by done. by rewrite (proj2 (Nat.ltb_lt _ _) Hi).
  - apply andb_true_iff in Hok as [[Hk Hl]%andb_true_iff Hr]. rewrite p_size_binary, seq_S, seq_app, !flat_map_app. cbn [p_tables].
    assert (occurrence_at (PBinary k l r) (0 + (p_size l + p_size r)) = []) as Hlast.
    { unfold occurrence_at. rewrite Nat.add_0_l. pose proof (p_nodes_root (PBinary k l r)) as Hr'. cbn [p_root] in Hr'. rewrite Hr'. by destruct k. }
    cbn [flat_map]. rewrite Hlast, !app_nil_r. rewrite <- IHl, <- IHr by done. f_equal.
    + apply Hext. intros i Hi. unfold occurrence_at. cbn [p_nodes p_open]. rewrite lookup_app_l by done. by rewrite (proj2 (Nat.ltb_lt _ _) Hi).
    + rewrite Nat.add_0_l, Hshift. transitivity (flat_map (fun i => hide_if (anti_kind k) (occurrence_at r i)) (seq 0 (p_size r))).
      * apply Hext. intros i Hi. unfold occurrence_at. cbn [p_nodes p_open]. rewrite lookup_app_r by (unfold p_size; lia).
        replace (p_size l + i - length (p_nodes l))%nat with i by (unfold p_size; lia). replace (p_size l + i - p_size l)%nat with i by lia.
        rewrite lookup_app_l by done. split_ltb. destruct (_ !! i) as [[]|]; by destruct (anti_kind k).
      * destruct (anti_kind k); [|done]. simpl. generalize (seq 0 (p_size r)). intros ids. induction ids as [|i ids IH]; simpl; [done|].
        by rewrite IH, <- hide_app.
  - apply andb_true_iff in Hok as [Hk Hok]. rewrite p_size_cte. cbn [seq flat_map p_tables]. rewrite <- IH by done.
    assert (occurrence_at (PCte k p) 0 = []) as Hfirst by (unfold occurrence_at; simpl; by destruct k). rewrite Hfirst, Hshift. done.
Qed.

(** What one occurrence adds to the tables and to those that leak. *)
Definition note_table (acc : list text * list text) (o : occurrence text) : list text * list text :=
  (push_new o.1 acc.1, if o.2 then push_new o.1 acc.2 else acc.2).

Lemma push_new_spec x t l : x ∈ push_new t l <-> x = t \/ x ∈ l.
Proof. unfold push_new. destruct (decide (t ∈ l)); [naive_solver|]. rewrite elem_of_app, list_elem_of_singleton. tauto. Qed.

Lemma note_tables_spec l acc x :
  (x ∈ (fold_left note_table l acc).1 <-> x ∈ acc.1 \/ x ∈ map fst l) /\
  (x ∈ (fold_left note_table l acc).2 <-> x ∈ acc.2 \/ (x, true) ∈ l).
Proof.
  revert acc. induction l as [|[t b] l IH]; intros acc; simpl; [set_solver|]. destruct (IH (note_table acc (t, b))) as [-> ->].
  unfold note_table. cbn [fst snd]. rewrite push_new_spec, !elem_of_cons. destruct b; [rewrite push_new_spec|]; naive_solver.
Qed.

Section Leaks.
Context `{PetGraph MirNodeKind MirEdgeKind}.

(** Rows of a node reach the output: a path of consumers from it ends, without entering the
    right input of an anti-join. *)
Inductive leaks (g : MirGraph) : nat -> Prop :=
| leaks_end n : (forall e, e ∈ pg_edges (graph g) -> source e <> n) -> leaks g n
| leaks_step n e : e ∈ pg_edges (graph g) -> source e = n -> enters_anti_right g e = false -> leaks g (target e) -> leaks g n.

Section Plan.
Context (g : MirGraph) (p : plan) (Hl : laid_out g p).

Lemma consumers_perm n : edge_refs (graph g) (pg_out (graph g) n) ≡ₚ List.filter (fun e => Nat.eqb (source e) n) (p_edges p).
Proof using Hl.
  unfold edge_refs. rewrite pg_out_spec. rewrite (ids_from_lookup _ [] (pg_edges (graph g))). by rewrite (lo_edges g p Hl).
Qed.

Lemma enters_plan e : enters_anti_right g e = p_enters p e.
Proof using Hl. unfold enters_anti_right, p_enters, node_kind. by rewrite (lo_nodes g p Hl). Qed.

(** The root has no consumer, every other node has one. *)
Lemma consumers_cases n : (n < p_size p)%nat ->
  n = p_root p /\ edge_refs (graph g) (pg_out (graph g) n) = [] \/
  exists e, e ∈ p_edges p /\ source e = n /\ edge_refs (graph g) (pg_out (graph g) n) = [e].
Proof using Hl.
  intros Hn. pose proof (p_edges_sources p) as Hs. pose proof (consumers_perm n) as Hc.
  assert (NoDup (p_root p :: map source (p_edges p))) as Hnd by (rewrite Hs; apply NoDup_seq).
  assert (n ∈ p_root p :: map source (p_edges p)) as Hin by (rewrite Hs; apply elem_of_seq; lia).
  apply NoDup_cons in Hnd as [Hroot Hnd]. apply elem_of_cons in Hin as [->|Hin]; [left; split; [done|]|right].
  - apply Permutation_nil_r. rewrite Hc. rewrite filter_none; [done|]. intros e He. apply Nat.eqb_neq. intros Heq. apply Hroot.
    rewrite <- Heq. by apply list_elem_of_fmap_2.
  - apply list_elem_of_fmap in Hin as (e & -> & He). exists e. split; [done|]. split; [done|].
    apply Permutation_singleton_r. rewrite Hc. clear Hc Hs Hroot. induction (p_edges p) as [|x es IH]; [by apply elem_of_nil in He|].
    simpl in *. apply NoDup_cons in Hnd as [Hx Hnd]. apply elem_of_cons in He as [->|He].
    + rewrite Nat.eqb_refl, filter_none; [done|]. intros y Hy. apply Nat.eqb_neq. intros Heq. apply Hx. rewrite <- Heq. by apply list_elem_of_fmap_2.
    + rewrite (proj2 (Nat.eqb_neq _ _)); [by apply IH|]. intros Heq. apply Hx. rewrite Heq. by apply list_elem_of_fmap_2.
Qed.

(** The walk goes up: the nodes it has seen are below the one it visits. *)
Lemma protected_plan fuel : forall seen n, (n < p_size p)%nat -> (forall x, x ∈ seen -> (p_rank p x < p_rank p n)%nat) ->
  (p_size p - p_rank p n <= fuel)%nat -> protected fuel g seen n = negb (p_open p n).
Proof using Hl.
  induction fuel as [|fuel IH]; intros seen n Hn Hseen Hf; pose proof (p_rank_lt p n Hn) as Hr; [lia|]. cbn [protected].
  rewrite bool_decide_false by (intros Hin%Hseen; lia). destruct (consumers_cases n Hn) as [[-> ->]|(e & He & <- & ->)].
  - by rewrite p_open_root.
  - pose proof (p_edges_rank p e He) as Hup. pose proof (p_edges_bound p e He) as [_ Ht]. simpl. rewrite andb_true_r, enters_plan, (p_edge_open p e He).
    rewrite IH; [by destruct (p_enters p e), (p_open p (target e)) | done | | lia].
    intros x [->%elem_of_singleton|Hx%Hseen]%elem_of_union; lia.
Qed.

Lemma anti_join_protected_plan n : (n < p_size p)%nat -> anti_join_protected g n = negb (p_open p n).
Proof using Hl.
  intros Hn. apply protected_plan; [done|by intros x ?%elem_of_empty|]. rewrite (laid_out_count g p Hl). lia.
Qed.

Lemma leaks_plan n : (n < p_size p)%nat -> leaks g n <-> p_open p n = true.
Proof using Hl.
  intros Hn. split.
  - intros Hleak. induction Hleak as [n Hend|n e He <- Henter _ IH].
    + destruct (consumers_cases n Hn) as [[-> _]|(e & He & Hs & _)]; [apply p_open_root|]. exfalso. apply (Hend e); [by rewrite (lo_edges g p Hl)|done].
    + rewrite (lo_edges g p Hl) in He. rewrite (p_edge_open p e He), <- enters_plan, Henter. by apply IH, (p_edges_bound p e He).
  - remember (p_size p - p_rank p n)%nat as d eqn:Hd. revert n Hn Hd. induction d as [d IH] using lt_wf_ind. intros n Hn -> Hopen.
    pose proof (p_rank_lt p n Hn) as Hr. destruct (consumers_cases n Hn) as [[-> Hnone]|(e & He & <- & _)].
    + apply leaks_end. intros e He Hs. pose proof (consumers_perm (p_root p)) as Hc. rewrite Hnone in Hc. apply Permutation_nil_l in Hc.
      assert (e ∈ List.filter (fun e => Nat.eqb (source e) (p_root p)) (p_edges p)) as Hin.
      { apply list_elem_of_In, filter_In. split; [apply list_elem_of_In; by rewrite <- (lo_edges g p Hl) | by apply Nat.eqb_eq]. }
      rewrite <- Hc in Hin. by apply elem_of_nil in Hin.
    + pose proof (p_edges_rank p e He). pose proof (p_edges_bound p e He) as [_ Ht]. rewrite (p_edge_open p e He) in Hopen.
      apply andb_true_iff in Hopen as [Hent Hopen]. apply (leaks_step g _ e); [by rewrite (lo_edges g p Hl) | done | |].
      * rewrite enters_plan. by destruct (p_enters p e).
      * eapply IH; [|done|done|done]. lia.
Qed.

(** The loop over the base tables is a loop over the occurrences. *)
Lemma collect_tables_plan : collect_tables g = fold_left note_table (p_tables p) ([], []).
Proof using Hl.
  rewrite <- (p_tables_open p (lo_ok g p Hl)). unfold collect_tables, base_table_indices. rewrite (lo_nodes g p Hl).
  generalize (([], []) : list text * list text). change (p_size p) with (length (p_nodes p)).
  assert (forall pre l acc, pre ++ l = p_nodes p ->
    fold_left (fun acc index => match node_kind g index with
                                | Some (BaseTable table _) => (push_new table acc.1, if anti_join_protected g index then acc.2 else push_new table acc.2)
                                | _ => acc end) (ids_from (length pre) is_base_table l) acc =
    fold_left note_table (flat_map (occurrence_at p) (seq (length pre) (length l))) acc) as Hfold; [|by intros acc; apply (Hfold [])].
  intros pre l. revert pre. induction l as [|k l IH]; intros pre acc Hpre; [done|].
  assert (p_nodes p !! length pre = Some k) as Hk by (rewrite <- Hpre; by apply list_lookup_middle).
  assert (length pre < p_size p)%nat as Hlt by (by eapply lookup_lt_Some).
  specialize (IH (pre ++ [k])). rewrite length_app, Nat.add_1_r in IH. cbn [length seq flat_map ids_from].
  rewrite fold_left_app. unfold occurrence_at at 2. rewrite Hk.
  destruct k; cbn [is_base_table]; try (apply IH; by rewrite <- app_assoc).
  cbn [fold_left]. rewrite IH by (by rewrite <- app_assoc). f_equal. unfold node_kind. rewrite (lo_nodes g p Hl), Hk.
  rewrite anti_join_protected_plan by done. unfold note_table. cbn [fst snd]. by destruct (p_open p (length pre)).
Qed.

Lemma graph_tables_plan : graph_tables g = map fst (p_tables p).
Proof using Hl. unfold graph_tables, node_kinds. rewrite (lo_nodes g p Hl). apply p_tables_nodes, (lo_ok g p Hl). Qed.

(** A table has an occurrence that reaches the output. *)
Definition surfaces (t : text) : Prop := exists i project, node_kind g i = Some (BaseTable t project) /\ leaks g i.

Lemma surfaces_plan t : surfaces t <-> (t, true) ∈ p_tables p.
Proof using Hl.
  rewrite <- (p_tables_open p (lo_ok g p Hl)). rewrite (list_elem_of_In (flat_map _ _)), in_flat_map. unfold surfaces, node_kind, occurrence_at.
  rewrite (lo_nodes g p Hl). split.
  - intros (i & project & Hi & Hleak). pose proof (lookup_lt_Some _ _ _ Hi) as Hlt. exists i. split; [apply in_seq; unfold p_size; lia|].
    rewrite Hi. apply leaks_plan in Hleak as ->; [by left|done].
  - intros (i & Hi%in_seq & Hin). destruct (p_nodes p !! i) as [[t' project| | | | | | | | | | | | | |]|] eqn:Hk; simpl in Hin; try done.
    destruct Hin as [[= -> Ho]|[]]. exists i, project. split; [done|]. apply leaks_plan; [lia|done].
Qed.
End Plan.
End Leaks.

(** * Putting literals into a template *)

(** ** The map *)

Section Map.
Context {E Q B F : Type} (fe : E -> E) (fq : Q -> Q) (fb : B -> B) (ff : F -> F).

Definition map_arg (a : FnArg E) : FnArg E := match a with FnExpr e => FnExpr (fe e) | FnNamed (Some e) => FnNamed (Some (fe e)) | _ => a end.
Definition map_args (a : FnArgs E Q) : FnArgs E Q :=
  match a with FnNone => FnNone | FnSubquery q => FnSubquery (fq q) | FnList d args => FnList d (map map_arg args) end.
Definition map_constraint (c : JoinConstraint E) : JoinConstraint E := match c with JC_On e => JC_On (fe e) | _ => c end.
Definition map_operator (o : JoinOperator E) : JoinOperator E :=
  match o with
  | JO_Inner c => JO_Inner (map_constraint c) | JO_LeftOuter c => JO_LeftOuter (map_constraint c)
  | JO_RightOuter c => JO_RightOuter (map_constraint c) | JO_FullOuter c => JO_FullOuter (map_constraint c)
  | JO_CrossJoin | JO_Other => o
  end.
Definition map_join (j : JoinOf E F) : JoinOf E F := {| jn_relation := ff (jn_relation j); jn_operator := map_operator (jn_operator j) |}.
Definition map_from (t : TableWithJoins E F) : TableWithJoins E F := {| tj_relation := ff (tj_relation t); tj_joins := map map_join (tj_joins t) |}.
Definition map_item (i : SelectItem E) : SelectItem E :=
  match i with SI_UnnamedExpr e => SI_UnnamedExpr (fe e) | SI_ExprWithAlias e alias => SI_ExprWithAlias (fe e) alias | _ => i end.
Definition map_distinct (d : DistinctOf E) : DistinctOf E := match d with D_On es => D_On (map fe es) | D_Distinct => D_Distinct end.
Definition map_group (g : GroupByExpr E) : GroupByExpr E := match g with GB_Expressions es m => GB_Expressions (map fe es) m | GB_All m => GB_All m end.
Definition map_select (s : SelectOf E F) : SelectOf E F :=
  {| sl_distinct := option_map map_distinct (sl_distinct s); sl_top := sl_top s; sl_projection := map map_item (sl_projection s);
     sl_into := sl_into s; sl_from := map map_from (sl_from s); sl_selection := option_map fe (sl_selection s);
     sl_group_by := map_group (sl_group_by s); sl_having := option_map fe (sl_having s); sl_nonstandard := sl_nonstandard s |}.
Definition map_cte (c : Cte Q) : Cte Q := {| cte_alias := cte_alias c; cte_query := fq (cte_query c) |}.
Definition map_with (w : With Q) : With Q := {| with_recursive := with_recursive w; with_ctes := map map_cte (with_ctes w) |}.
Definition map_order (o : OrderByExpr E) : OrderByExpr E := {| ob_expr := fe (ob_expr o); ob_asc := ob_asc o |}.
Definition map_query_of (q : QueryOf E Q B) : QueryOf E Q B :=
  {| q_with := option_map map_with (q_with q); q_body := fb (q_body q); q_order_by := option_map (map map_order) (q_order_by q);
     q_limit := option_map fe (q_limit q); q_limit_by := map fe (q_limit_by q); q_offset := option_map fe (q_offset q); q_fetch := option_map fe (q_fetch q) |}.
End Map.

Section Trees.
Context (g : SqlExpr -> SqlExpr).

(** The closure on every expression, its parts first. *)
Fixpoint map_expr (e : SqlExpr) : SqlExpr :=
  g (match e with
     | X_Identifier _ | X_CompoundIdentifier _ | X_Value _ | X_Interval | X_Other => e
     | X_Nested e => X_Nested (map_expr e)
     | X_UnaryOp op e => X_UnaryOp op (map_expr e)
     | X_IsNull e => X_IsNull (map_expr e)
     | X_IsNotNull e => X_IsNotNull (map_expr e)
     | X_IsTrue e => X_IsTrue (map_expr e)
     | X_IsFalse e => X_IsFalse (map_expr e)
     | X_Cast k e t fmt => X_Cast k (map_expr e) t fmt
     | X_BinaryOp l op r => X_BinaryOp (map_expr l) op (map_expr r)
     | X_IsDistinctFrom l r => X_IsDistinctFrom (map_expr l) (map_expr r)
     | X_IsNotDistinctFrom l r => X_IsNotDistinctFrom (map_expr l) (map_expr r)
     | X_AnyOp l op r => X_AnyOp (map_expr l) op (map_expr r)
     | X_Like n a l r c => X_Like n a (map_expr l) (map_expr r) c
     | X_ILike n a l r c => X_ILike n a (map_expr l) (map_expr r) c
     | X_Between e n low high => X_Between (map_expr e) n (map_expr low) (map_expr high)
     | X_InList e l n => X_InList (map_expr e) (map map_expr l) n
     | X_Case o cs rs el => X_Case (option_map map_expr o) (map map_expr cs) (map map_expr rs) (option_map map_expr el)
     | X_Array l named => X_Array (map map_expr l) named
     | X_Function name args over => X_Function name (map_args map_expr map_query args) over
     | X_Exists q n => X_Exists (map_query q) n
     | X_Subquery q => X_Subquery (map_query q)
     | X_InSubquery e q n => X_InSubquery (map_expr e) (map_query q) n
     end)
with map_query (q : Query) : Query := let 'Query_ r := q in Query_ (map_query_of map_expr map_query map_body r)
with map_body (b : SetExpr) : SetExpr :=
  match b with
  | SE_Select s => SE_Select (map_select map_expr map_factor s)
  | SE_Query q => SE_Query (map_query q)
  | SE_SetOperation op k l r => SE_SetOperation op k (map_body l) (map_body r)
  | SE_Values | SE_Insert | SE_Update | SE_Table => b
  end
with map_factor (t : TableFactor) : TableFactor :=
  match t with TF_Derived lateral q alias => TF_Derived lateral (map_query q) alias | TF_Table name alias args => TF_Table name alias (map (map_arg map_expr) args) | TF_Other => t end.
End Trees.

(** ** The traversal is that map *)

Section Rewrite.
Context {X : Type} (g : SqlExpr -> SqlExpr).
#[local] Abbreviation f := (fun e => @m_ret unit X _ (g e)).

(** One element of a list, and the rest by induction. *)
Ltac pure_list l rec := induction l as [|? ? IHl]; cbn; [reflexivity | unfold m_bind, m_map in *; rewrite rec; cbn [exec_bind]; rewrite IHl; reflexivity].
Ltac pure_args args rec :=
  induction args as [|a args IHl]; cbn; [reflexivity|]; unfold m_bind, m_map in *; destruct a as [[]| | |]; cbn; unfold m_map; rewrite ?rec; cbn; rewrite IHl; reflexivity.
Ltac pure_opt o rec := destruct o; cbn; unfold m_map; [rewrite rec|]; reflexivity.

Fixpoint rewrite_expr_pure (e : SqlExpr) : rewrite_expr f e tt = Ok (map_expr g e, tt)
with rewrite_query_pure (q : Query) : rewrite_query f q tt = Ok (map_query g q, tt)
with rewrite_body_pure (b : SetExpr) : rewrite_body f b tt = Ok (map_body g b, tt)
with rewrite_factor_pure (t : TableFactor) : rewrite_factor f t tt = Ok (map_factor g t, tt).
Proof.
  - destruct e; cbn [rewrite_expr map_expr]; unfold m_bind, m_map; try (reflexivity);
      repeat (rewrite ?rewrite_expr_pure, ?rewrite_query_pure; cbn [exec_bind]); try reflexivity.
    + assert (m_list (rewrite_expr f) elements tt = Ok (map (map_expr g) elements, tt)) as -> by (pure_list elements rewrite_expr_pure). reflexivity.
    + assert (m_opt (rewrite_expr f) operand tt = Ok (option_map (map_expr g) operand, tt)) as -> by (pure_opt operand rewrite_expr_pure). cbn [exec_bind].
      assert (m_list (rewrite_expr f) conditions tt = Ok (map (map_expr g) conditions, tt)) as -> by (pure_list conditions rewrite_expr_pure). cbn [exec_bind].
      assert (m_list (rewrite_expr f) results tt = Ok (map (map_expr g) results, tt)) as -> by (pure_list results rewrite_expr_pure). cbn [exec_bind].
      assert (m_opt (rewrite_expr f) else_result tt = Ok (option_map (map_expr g) else_result, tt)) as -> by (pure_opt else_result rewrite_expr_pure). reflexivity.
    + assert (m_list (rewrite_expr f) elements tt = Ok (map (map_expr g) elements, tt)) as -> by (pure_list elements rewrite_expr_pure). reflexivity.
    + destruct args as [|q|d args]; cbn [t_args map_args]; [reflexivity|unfold m_map; rewrite rewrite_query_pure; reflexivity|]. unfold m_map at 1.
      assert (m_list (t_arg (rewrite_expr f)) args tt = Ok (map (map_arg (map_expr g)) args, tt)) as ->; [|reflexivity].
      pure_args args rewrite_expr_pure.
  - destruct q as [[w b o l lb k ft]]. cbn [map_query].
    change (rewrite_query f (Query_ ?r)) with (m_map Query_ (t_query (rewrite_expr f) (rewrite_query f) (rewrite_body f) r)).
    unfold t_query, m_bind, m_map. cbn [q_with q_body q_order_by q_limit q_limit_by q_offset q_fetch].
    match goal with |- context [m_opt ?h w tt] => assert (m_opt h w tt = Ok (option_map (map_with (map_query g)) w, tt)) as -> end.
    { destruct w as [[rc ctes]|]; [|reflexivity]. cbn. unfold m_map at 1. cbn [with_ctes with_recursive].
      match goal with |- context [m_list ?h ctes tt] => assert (m_list h ctes tt = Ok (map (map_cte (map_query g)) ctes, tt)) as -> end; [|reflexivity].
      induction ctes as [|[a q] ctes IHl]; cbn; [reflexivity|]. unfold m_bind, m_map in *. cbn. rewrite rewrite_query_pure. cbn. rewrite IHl. reflexivity. }
    cbn [exec_bind]. rewrite rewrite_body_pure. cbn [exec_bind].
    match goal with |- context [m_opt ?h o tt] => assert (m_opt h o tt = Ok (option_map (map (map_order (map_expr g))) o, tt)) as -> end.
    { destruct o as [o|]; [|reflexivity]. cbn. unfold m_map at 1.
      match goal with |- context [m_list ?h o tt] => assert (m_list h o tt = Ok (map (map_order (map_expr g)) o, tt)) as -> end; [|reflexivity].
      induction o as [|[e a] o IHl]; cbn; [reflexivity|]. unfold m_bind, m_map in *. cbn. rewrite rewrite_expr_pure. cbn. rewrite IHl. reflexivity. }
    cbn [exec_bind]. assert (m_opt (rewrite_expr f) l tt = Ok (option_map (map_expr g) l, tt)) as -> by (pure_opt l rewrite_expr_pure). cbn [exec_bind].
    assert (m_list (rewrite_expr f) lb tt = Ok (map (map_expr g) lb, tt)) as -> by (pure_list lb rewrite_expr_pure). cbn [exec_bind].
    assert (m_opt (rewrite_expr f) k tt = Ok (option_map (map_expr g) k, tt)) as -> by (pure_opt k rewrite_expr_pure). cbn [exec_bind].
    assert (m_opt (rewrite_expr f) ft tt = Ok (option_map (map_expr g) ft, tt)) as -> by (pure_opt ft rewrite_expr_pure). reflexivity.
  - destruct b as [[dist top proj into from sel gb hav ns]|q|op k l r| | | |]; try reflexivity.
    + change (rewrite_body f (SE_Select ?s)) with (m_map SE_Select (t_select (rewrite_expr f) (rewrite_factor f) s)). cbn [map_body].
      unfold t_select, map_select, m_bind, m_map. cbn [sl_distinct sl_top sl_projection sl_into sl_from sl_selection sl_group_by sl_having sl_nonstandard].
      match goal with |- context [m_opt ?h dist tt] => assert (m_opt h dist tt = Ok (option_map (map_distinct (map_expr g)) dist, tt)) as -> end.
      { destruct dist as [[|es]|]; try reflexivity. cbn. unfold m_map.
        assert (m_list (rewrite_expr f) es tt = Ok (map (map_expr g) es, tt)) as -> by (pure_list es rewrite_expr_pure). reflexivity. }
      cbn [exec_bind].
      assert (m_list (t_item (rewrite_expr f)) proj tt = Ok (map (map_item (map_expr g)) proj, tt)) as ->.
      { induction proj as [|i proj IHl]; [reflexivity|]. cbn. unfold m_bind, m_map in *. destruct i; cbn; unfold m_map; rewrite ?rewrite_expr_pure; cbn; rewrite IHl; reflexivity. }
      cbn [exec_bind].
      assert (m_list (t_from (rewrite_expr f) (rewrite_factor f)) from tt = Ok (map (map_from (map_expr g) (map_factor g)) from, tt)) as ->.
      { induction from as [|[rel joins] from IHl]; [reflexivity|]. cbn [m_list map]. unfold t_from at 1. unfold m_bind, m_map in *. cbn [tj_relation tj_joins].
        rewrite rewrite_factor_pure. cbn [exec_bind].
        assert (m_list (t_join (rewrite_expr f) (rewrite_factor f)) joins tt = Ok (map (map_join (map_expr g) (map_factor g)) joins, tt)) as ->.
        { clear IHl. induction joins as [|[jrel jop] joins IHj]; [reflexivity|]. cbn [m_list map]. unfold t_join at 1. unfold m_bind, m_map in *.
          cbn [jn_relation jn_operator]. rewrite rewrite_factor_pure. cbn [exec_bind].
          assert (t_operator (rewrite_expr f) jop tt = Ok (map_operator (map_expr g) jop, tt)) as ->; [|cbn [exec_bind]; rewrite IHj; reflexivity].
          destruct jop as [[]|[]|[]|[]| |]; cbn; unfold m_map; cbn; rewrite ?rewrite_expr_pure; reflexivity. }
        cbn [exec_bind]. rewrite IHl. reflexivity. }
      cbn [exec_bind].
      assert (m_opt (rewrite_expr f) sel tt = Ok (option_map (map_expr g) sel, tt)) as -> by (pure_opt sel rewrite_expr_pure). cbn [exec_bind].
      match goal with |- context [match gb with GB_Expressions _ _ => _ | _ => _ end ?t] => set (h := match gb with GB_Expressions _ _ => _ | _ => _ end) end.
      assert (h tt = Ok (map_group (map_expr g) gb, tt)) as ->.
      { unfold h. destruct gb as [es m|m]; [|reflexivity]. cbn.
        assert (m_list (rewrite_expr f) es tt = Ok (map (map_expr g) es, tt)) as -> by (pure_list es rewrite_expr_pure). reflexivity. }
      cbn [exec_bind]. assert (m_opt (rewrite_expr f) hav tt = Ok (option_map (map_expr g) hav, tt)) as -> by (pure_opt hav rewrite_expr_pure). reflexivity.
    + change (rewrite_body f (SE_Query q)) with (m_map SE_Query (rewrite_query f q)). unfold m_map. rewrite rewrite_query_pure. reflexivity.
    + change (rewrite_body f (SE_SetOperation op k l r)) with
        (m_bind (rewrite_body f l) (fun l => m_map (fun r => SE_SetOperation op k l r) (rewrite_body f r))).
      unfold m_bind, m_map. rewrite rewrite_body_pure. cbn [exec_bind]. rewrite rewrite_body_pure. reflexivity.
  - destruct t as [name alias args|lateral q alias|]; [|cbn [rewrite_factor map_factor]; unfold m_map; rewrite rewrite_query_pure; reflexivity|reflexivity].
    change (rewrite_factor f (TF_Table name alias args)) with (m_map (TF_Table name alias) (m_list (t_arg (rewrite_expr f)) args)). unfold m_map at 1.
    assert (m_list (t_arg (rewrite_expr f)) args tt = Ok (map (map_arg (map_expr g)) args, tt)) as ->; [|reflexivity].
    pure_args args rewrite_expr_pure.
Qed.
End Rewrite.

(** ** Literals in place of values *)

Definition is_value (e : SqlExpr) : bool := match e with X_Value _ => true | _ => false end.
Definition is_literal (e : SqlExpr) : bool := match e with X_Array l _ => forallb is_value l | e => is_value e end.

Lemma literal_relations e : is_literal e = true -> relations_in (expr_nodes e) = [].
Proof.
  destruct e; try done. cbn [is_literal expr_nodes]. change (relations_in (N_Expr ?e :: ?l)) with (relations_in l).
  induction elements as [|x l IH]; simpl; [done|]. intros [Hx Hl]%andb_true_iff. rewrite relations_app, IH by done. by destruct x.
Qed.

Lemma literal_mentions e : is_literal e = true -> expr_mentions e = [].
Proof. by destruct e. Qed.

Section Literals.
Context (g : SqlExpr -> SqlExpr) (Hid : forall e, is_value e = false -> g e = e) (Hlit : forall e, is_value e = true -> is_literal (g e) = true).
#[local] Arguments relations_in : simpl never.

Ltac same_list l same := induction l as [|? ? IHl]; simpl; [reflexivity | by rewrite !relations_app, same, IHl].
Ltac same_opt o same := destruct o; simpl; [apply same | reflexivity].
Ltac same_args args same :=
  induction args as [|a l IH]; simpl; [reflexivity|]; rewrite !relations_app, IH; f_equal; destruct a as [[]| | |]; reflexivity || apply same.

Fixpoint map_expr_relations (e : SqlExpr) : relations_in (expr_nodes (map_expr g e)) = relations_in (expr_nodes e)
with map_query_relations (q : Query) : relations_in (query_nodes (map_query g q)) = relations_in (query_nodes q)
with map_body_relations (b : SetExpr) : relations_in (body_nodes (map_body g b)) = relations_in (body_nodes b)
with map_factor_relations (f : TableFactor) : relations_in (factor_nodes (map_factor g f)) = relations_in (factor_nodes f).
Proof using Hid Hlit.
  - destruct e; cbn [map_expr]; try (rewrite Hid by reflexivity); cbn [expr_nodes]; change (relations_in (N_Expr ?e :: ?l)) with (relations_in l);
      rewrite ?relations_app, ?map_expr_relations, ?map_query_relations; try reflexivity.
    + by apply literal_relations, Hlit.
    + f_equal. same_list elements map_expr_relations.
    + f_equal; [same_opt operand map_expr_relations|]. f_equal; [same_list conditions map_expr_relations|].
      f_equal; [same_list results map_expr_relations|]. same_opt else_result map_expr_relations.
    + same_list elements map_expr_relations.
    + destruct args as [|q|d args]; simpl; [reflexivity|apply map_query_relations|].
      same_args args map_expr_relations.
  - destruct q as [[w b o l lb f ft]]. cbn [map_query query_nodes]. unfold query_parts. cbn [map_query_of q_body q_with q_order_by q_limit q_limit_by q_offset q_fetch].
    change (relations_in (N_Query ?q :: ?l)) with (relations_in l). rewrite !relations_app, map_body_relations. f_equal; [|f_equal; f_equal; [|f_equal; [|f_equal; [|f_equal]]]].
    + destruct w as [[rc ctes]|]; [|reflexivity]. cbn. unfold with_parts. cbn [with_ctes]. induction ctes as [|[a q] ctes IH]; simpl; [reflexivity|].
      by rewrite !relations_app, map_query_relations, IH.
    + destruct o as [o|]; [|reflexivity]. cbn. induction o as [|[e a] o IH]; simpl; [reflexivity|]. by rewrite !relations_app, map_expr_relations, IH.
    + same_opt l map_expr_relations.
    + same_list lb map_expr_relations.
    + same_opt f map_expr_relations.
    + same_opt ft map_expr_relations.
  - destruct b as [[dist top proj into from sel gb hav ns]|q|op k l r| | | |]; cbn [map_body body_nodes]; try reflexivity.
    + unfold map_select, select_parts. cbn [sl_from sl_distinct sl_top sl_projection sl_into sl_selection sl_group_by sl_having sl_nonstandard].
      rewrite !relations_app. apply f_equal2; [|apply f_equal2; [|apply f_equal2; [|apply f_equal2; [|apply f_equal2]]]].
      * destruct dist as [[|es]|]; try reflexivity. cbn. same_list es map_expr_relations.
      * induction proj as [|i l IH]; simpl; [reflexivity|]. rewrite !relations_app, IH. f_equal. destruct i; reflexivity || apply map_expr_relations.
      * induction from as [|[rel joins] from IH]; cbn [map flat_map]; [reflexivity|]. rewrite !relations_app, IH. f_equal.
        unfold from_parts. cbn [map_from tj_relation tj_joins]. rewrite !relations_app, map_factor_relations. f_equal.
        induction joins as [|[jrel jop] joins IHj]; cbn [map flat_map]; [reflexivity|]. rewrite !relations_app, IHj. f_equal.
        unfold join_parts. cbn [map_join jn_relation jn_operator]. rewrite !relations_app, map_factor_relations. f_equal.
        destruct jop as [[]|[]|[]|[]| |]; reflexivity || apply map_expr_relations.
      * same_opt sel map_expr_relations.
      * destruct gb as [es m|m]; [|reflexivity]. cbn. same_list es map_expr_relations.
      * same_opt hav map_expr_relations.
    + apply map_query_relations.
    + by rewrite !relations_app, !map_body_relations.
  - destruct f as [name alias args|lateral q alias|]; cbn [map_factor]; [|apply map_query_relations|reflexivity]. cbn [factor_nodes].
    change (relations_in (N_Factor ?f :: N_Relation ?n :: ?l)) with (n :: relations_in l). f_equal. same_args args map_expr_relations.
Qed.

Fixpoint map_expr_mentions (e : SqlExpr) : expr_mentions (map_expr g e) = expr_mentions e
with map_query_mentions (q : Query) : query_mentions (map_query g q) = query_mentions q
with map_body_mentions (b : SetExpr) : body_mentions (map_body g b) = body_mentions b
with map_factor_mentions (f : TableFactor) : factor_mentions (map_factor g f) = factor_mentions f.
Proof using Hid Hlit.
  - destruct e; cbn [map_expr]; try (rewrite Hid by reflexivity); try reflexivity.
    + destruct e; cbn [map_expr]; try (rewrite Hid by reflexivity); cbn [expr_mentions]; rewrite ?map_query_mentions; try reflexivity.
      assert (is_literal (g (X_Value v)) = true) as Hl by (by apply Hlit). by destruct (g (X_Value v)).
    + rewrite (literal_mentions _ (Hlit (X_Value v) eq_refl)). reflexivity.
    + destruct op; try reflexivity. cbn [expr_mentions]. by rewrite !map_expr_mentions.
    + destruct op; try reflexivity. destruct e; cbn [map_expr]; try (rewrite Hid by reflexivity); cbn [expr_mentions]; rewrite ?map_query_mentions; try reflexivity.
      * destruct e; cbn [map_expr]; try (rewrite Hid by reflexivity); cbn [expr_mentions]; rewrite ?map_query_mentions; try reflexivity.
        assert (is_literal (g (X_Value v)) = true) as Hl by (by apply Hlit). by destruct (g (X_Value v)).
      * assert (is_literal (g (X_Value v)) = true) as Hl by (by apply Hlit). by destruct (g (X_Value v)).
    + cbn [expr_mentions]. by rewrite map_query_mentions.
  - destruct q as [[w b o l lb f ft]]. cbn [map_query query_mentions map_query_of q_body]. apply map_body_mentions.
  - destruct b as [[dist top proj into from sel gb hav ns]|q|op k l r| | | |]; cbn [map_body body_mentions]; try reflexivity.
    + cbn [map_select sl_from sl_selection]. f_equal.
      * induction from as [|[rel joins] from IH]; cbn [map flat_map map_from tj_relation tj_joins]; [reflexivity|]. rewrite IH, map_factor_mentions. f_equal. f_equal.
        induction joins as [|[jrel jop] joins IHj]; cbn [map flat_map map_join jn_relation]; [reflexivity|]. by rewrite IHj, map_factor_mentions.
      * same_opt sel map_expr_mentions.
    + apply map_query_mentions.
    + by rewrite !map_body_mentions.
  - destruct f as [name alias args|lateral q alias|]; cbn [map_factor]; try reflexivity. apply map_query_mentions.
Qed.

Context `{SqlSyntax}.

Lemma map_cte_reads recursive a q known :
  one_cte_reads recursive {| cte_alias := a; cte_query := map_query g q |} known = one_cte_reads recursive {| cte_alias := a; cte_query := q |} known.
Proof using Hid Hlit.
  unfold one_cte_reads. cbn [cte_alias cte_query]. rewrite map_query_mentions.
  assert (forall name, count_relation_references (query_nodes (map_query g q)) name = count_relation_references (query_nodes q) name) as ->
    by (intros name; unfold count_relation_references; by rewrite map_query_relations).
  destruct (recursive && _); [|done]. destruct q as [[w b o l lb f ft]]. cbn [map_query map_query_of q_body query_].
  destruct b as [s|q|op k b1 b2| | | |]; cbn [map_body]; try done. by rewrite !map_body_mentions.
Qed.

(** Binding changes none of the tables a query reads. *)
Lemma map_query_reads q : query_reads (map_query g q) = query_reads q.
Proof using Hid Hlit.
  unfold query_reads. rewrite map_query_mentions. f_equal. destruct q as [[w b o l lb f ft]]. cbn [map_query map_query_of query_ q_with].
  destruct w as [[rc ctes]|]; [|done]. cbn [option_map map_with with_recursive with_ctes]. unfold cte_reads.
  generalize (∅ : gmap string (list (occurrence text))). induction ctes as [|[a q] ctes IH]; intros known; simpl; [done|].
  unfold map_cte at 1 2. cbn [cte_alias cte_query]. rewrite map_cte_reads. apply IH.
Qed.
End Literals.
