(* ===== verification/PreparedFacts.v ===== *)
(** * PreparedFacts: what a registered query promises

    The tables recorded at registration are those that every bound query reads, and a
    table declared to be read behind anti-joins only never reaches the output of one;
    binding replaces every placeholder by the literal of the value supplied for it. *)

From stdpp Require Import gmap.
From S2P Require Import Prelude BTree Text UserContext Permissions Exprs Mir CompileMir SqlLimits SqlAst Lower LowerFacts SqlParser.
From S2P Require Import Prepared BindFacts.

(** ** Keys of a sorted map *)

Lemma bt_keys_insert {K V} `{Ord K} (k x : K) (v : V) m : x ∈ map fst (bt_insert k v m) <-> x = k \/ x ∈ map fst m.
Proof.
  induction m as [|[k' v'] m IH]; simpl; [by rewrite list_elem_of_singleton, elem_of_nil; tauto|].
  destruct (cmp k k') eqn:Hc; simpl; rewrite !elem_of_cons; [apply cmp_eq in Hc as ->; tauto | tauto | rewrite IH; tauto].
Qed.

Lemma bt_keys_from_list {K V} `{Ord K} (l : list (K * V)) x : x ∈ map fst (bt_from_list l) <-> x ∈ map fst l.
Proof.
  unfold bt_from_list. assert (forall m, x ∈ map fst (fold_left (fun m kv => bt_insert kv.1 kv.2 m) l m) <-> x ∈ map fst m \/ x ∈ map fst l) as Hl.
  { induction l as [|[k v] l IH]; intros m; simpl; [rewrite elem_of_nil; tauto|]. rewrite IH, bt_keys_insert, elem_of_cons. simpl. tauto. }
  rewrite Hl. simpl. rewrite elem_of_nil. tauto.
Qed.

(** ** Parameters *)

Lemma check_names_ok query specs : forall seen, check_names query seen specs = Ok tt ->
  NoDup (map sp_name specs) /\ (forall spec, spec ∈ specs -> seen !! text_string (sp_name spec) = None).
Proof.
  induction specs as [|spec specs IH]; intros seen; simpl; [split; [constructor | by intros ? ?%elem_of_nil]|].
  destruct (seen !! text_string (sp_name spec)) eqn:Hs; [done|]. intros [Hnd Hnone]%IH. split.
  - constructor; [|done]. intros (spec' & Heq & Hin)%list_elem_of_fmap. specialize (Hnone spec' Hin).
    rewrite <- Heq, lookup_insert_eq in Hnone. done.
  - intros spec' [->|Hin]%elem_of_cons; [done|]. specialize (Hnone spec' Hin). by apply lookup_insert_None in Hnone as [? _].
Qed.

Lemma declared_positions query named decls : forall position specs, declared_specs query named position decls = Ok specs ->
  map sp_position specs = seq position (length decls).
Proof.
  induction decls as [|decl decls IH]; intros position specs; simpl; [by intros [= <-]|].
  intros ([] & _ & (rest & Hrest & [= <-])%exec_bind_ok)%exec_bind_ok. simpl. f_equal. by apply IH.
Qed.

Lemma inferred_spec_position query named inferred position spec :
  inferred_spec query named inferred position = Ok spec -> sp_position spec = position.
Proof. unfold inferred_spec. intros Hs. repeat case_match; simplify_eq; done. Qed.

Lemma inferred_positions query named inferred positions : forall specs, inferred_specs query named inferred positions = Ok specs ->
  map sp_position specs = positions.
Proof.
  induction positions as [|position positions IH]; intros specs; simpl; [by intros [= <-]|].
  intros (spec & Hspec%inferred_spec_position & (rest & Hrest & [= <-])%exec_bind_ok)%exec_bind_ok. simpl. f_equal; [done | by apply IH].
Qed.

Lemma suffix_positions specs : forall seen, map sp_position (suffix_names seen specs) = map sp_position specs.
Proof. induction specs as [|spec specs IH]; intros seen; simpl; [done|]. case_bool_decide; simpl; by rewrite IH. Qed.

Section Registry.
Context `{SqlSyntax} `{EvalRuntime} `{PetGraph MirNodeKind MirEdgeKind}.
Context (data_type_text : DataType -> text).

(** Positions count from one, and names are distinct. *)
Definition params_ok (specs : list ParamSpec) : Prop := map sp_position specs = seq 1 (length specs) /\ NoDup (map sp_name specs).

Lemma resolve_params_ok query q positions named decls catalog specs :
  resolve_params data_type_text query q positions named decls catalog = Ok specs -> params_ok specs.
Proof.
  unfold resolve_params, params_ok. destruct (first_missing _ _); [done|].
  assert (forall n l, map sp_position l = seq 1 n -> length l = n) as Hlen.
  { intros n l Hl. by rewrite <- (length_map sp_position), Hl, length_seq. }
  destruct decls as [decls|].
  - destruct (negb _); [done|]. intros (specs' & Hp%declared_positions & ([] & [Hn _]%check_names_ok & [= <-])%exec_bind_ok)%exec_bind_ok.
    by rewrite (Hlen _ _ Hp).
  - intros (specs' & Hp%inferred_positions & ([] & [Hn _]%check_names_ok & [= <-])%exec_bind_ok)%exec_bind_ok.
    rewrite <- (suffix_positions specs' ∅) in Hp. by rewrite (Hlen _ _ Hp).
Qed.

Lemma params_positions_NoDup specs : params_ok specs -> NoDup (map sp_position specs).
Proof. intros [-> _]. apply NoDup_seq. Qed.

(** ** Literals *)

Lemma render_scalar_literal query spec v e : render_scalar query spec v = Ok e -> is_value e = true.
Proof. unfold render_scalar. intros Hr. repeat case_match; simplify_eq; done. Qed.

Lemma render_elements_values query spec vs : forall es, render_elements query spec vs = Ok es -> forallb is_value es = true.
Proof.
  induction vs as [|v vs IH]; intros es; simpl; [by intros [= <-]|].
  intros (e & He%render_scalar_literal & (es' & Hes%IH & [= <-])%exec_bind_ok)%exec_bind_ok. simpl. by rewrite He.
Qed.

Lemma render_literal_literal query spec v e : render_literal query spec v = Ok e -> is_literal e = true.
Proof.
  unfold render_literal. destruct (sp_list spec).
  - destruct v as [| | | | |items]; try done. case_match; [done|]. intros (es & Hes%render_elements_values & [= <-])%exec_bind_ok. done.
  - intros Hv%render_scalar_literal. by destruct e.
Qed.

(** Every parameter gets the literal of its value, nothing else is rendered. *)
Lemma render_params_spec query specs by_position : NoDup (map sp_position specs) -> forall rendered out,
  render_params query specs by_position rendered = Ok out ->
  (forall spec, spec ∈ specs -> exists v e, by_position !! sp_position spec = Some v /\ render_literal query spec v = Ok e /\ out !! sp_position spec = Some e) /\
  (forall i e, out !! i = Some e -> rendered !! i = Some e \/ is_literal e = true) /\
  (forall i, i ∉ map sp_position specs -> out !! i = rendered !! i).
Proof.
  induction specs as [|spec specs IH]; intros Hnd rendered out; simpl.
  - intros [= <-]. split; [by intros ? ?%elem_of_nil|]. split; [by left | done].
  - apply NoDup_cons in Hnd as [Hfresh Hnd]. destruct (by_position !! sp_position spec) as [v|] eqn:Hv; [|done].
    intros (e & He & Hr)%exec_bind_ok. destruct (IH Hnd _ _ Hr) as (Hall & Hlit & Hout). split; [|split].
    + intros spec' [->|Hin]%elem_of_cons; [|by apply Hall]. exists v, e. split; [done|]. split; [done|]. by rewrite Hout, lookup_insert_eq.
    + intros i e' [Hi|Hi]%Hlit; [|by right]. apply lookup_insert_Some in Hi as [[<- <-]|[_ Hi]]; [|by left]. right. by eapply render_literal_literal.
    + intros i [Hne Hni]%not_elem_of_cons. by rewrite Hout, lookup_insert_ne.
Qed.

(** ** Keys *)

(** The supplied values, by the position of the parameter their key stands for. *)
Lemma resolve_keys_spec query specs supplied : NoDup (map fst supplied) -> forall by_position out,
  resolve_keys query specs supplied by_position = Ok out ->
  (forall i v, out !! i = Some v -> by_position !! i = Some v \/
     exists key spec, (key, v) ∈ supplied /\ spec ∈ specs /\ answers_to (lit key) spec = true /\ sp_position spec = i) /\
  (forall key v, (key, v) ∈ supplied -> exists spec, spec ∈ specs /\ answers_to (lit key) spec = true) /\
  (size out = size by_position + length supplied)%nat /\
  (forall i, i ∈ dom out -> i ∈ dom by_position \/ i ∈ map sp_position specs).
Proof.
  induction supplied as [|[key v] supplied IH]; intros Hnd by_position out; simpl.
  - intros [= <-]. split; [by left|]. split; [by intros ? ? ?%elem_of_nil|]. split; [lia | by left].
  - apply NoDup_cons in Hnd as [_ Hnd]. destruct (List.find (answers_to (lit key)) specs) as [spec|] eqn:Hfind; [|done].
    apply find_some in Hfind as [Hin%list_elem_of_In Hans]. destruct (by_position !! sp_position spec) eqn:Hfree; [done|]. intros Hr.
    destruct (IH Hnd _ _ Hr) as (Hfrom & Hkeys & Hsize & Hdom). split; [|split; [|split]].
    + intros i w Hi%Hfrom. destruct Hi as [Hi|(key' & spec' & Hk & Hs & Ha & <-)].
      * apply lookup_insert_Some in Hi as [[<- <-]|[_ Hi]]; [|by left]. right. exists key, spec. split; [by left|]. done.
      * right. exists key', spec'. split; [by right|]. done.
    + intros key' w [[= -> ->]|Hk]%elem_of_cons; [by exists spec | by eapply Hkeys].
    + rewrite Hsize, map_size_insert_None by done. simpl. lia.
    + intros i [Hi|Hi]%Hdom; [|by right]. rewrite dom_insert in Hi. apply elem_of_union in Hi as [->%elem_of_singleton|Hi]; [|by left].
      right. by apply list_elem_of_fmap_2.
Qed.

(** ** Binding *)

Lemma substitute_id rendered e : is_value e = false -> substitute rendered e = e.
Proof. by destruct e. Qed.

Lemma substitute_literal rendered e : (forall i e, rendered !! i = Some e -> is_literal e = true) -> is_value e = true -> is_literal (substitute rendered e) = true.
Proof.
  intros Hr He. unfold substitute. destruct e; try done. destruct v; try done. simpl.
  destruct (parse_dollar_position name) as [i|]; [|done]. simpl. destruct (rendered !! i) eqn:Hi; [by eapply Hr | done].
Qed.

Lemma rejected_ok {A} query (r : exec SqlError A) a : rejected query r = Ok a -> r = Ok a.
Proof. destruct r; simpl; congruence. Qed.

Lemma visit_ok {B} (f : SqlExpr -> exec B unit) l : visit f l = Ok tt -> forall e, e ∈ l -> f e = Ok tt.
Proof.
  induction l as [|x l IH]; simpl; [by intros _ ? ?%elem_of_nil|]. intros ([] & Hx & Hl)%exec_bind_ok e [->|He]%elem_of_cons; [done | by apply IH].
Qed.

(** What passes validation has no placeholder. *)
Lemma validated_no_placeholder q : validate_query q = Ok tt -> placeholders q = [].
Proof.
  unfold validate_query. destruct (query_depth q) as [|fuel]; [done|]. cbn [validate_query_fuel].
  intros ([] & _ & ([] & Hv & _)%exec_bind_ok)%exec_bind_ok. pose proof (visit_ok _ _ Hv) as Hall. unfold placeholders.
  assert (forall l, (forall e, e ∈ l -> check_expr (validate_query_fuel fuel) e = Ok tt) -> filter_map placeholder_text l = []) as Hnone; [|by apply Hnone].
  induction l as [|e l IH]; intros Hl; simpl; [done|]. rewrite IH by (intros e' He'; apply Hl; by right).
  specialize (Hl e (list_elem_of_here _ _)). destruct e; try done. by destruct v.
Qed.

(** *** Errors *)

Definition not_unknown (e : BindError) : Prop := match e with UnknownQuery _ => False | _ => True end.
(** A step of binding never panics and never reports an unknown query. *)
Definition client_error {A} (r : exec BindError A) : Prop := match r with Ok _ => True | Err e => not_unknown e | Panic => False end.

Lemma client_error_bind {A B} (r : exec BindError A) (k : A -> exec BindError B) :
  client_error r -> (forall a, client_error (k a)) -> client_error (exec_bind r k).
Proof. destruct r; simpl; auto. Qed.

Lemma client_error_rejected {A} query (r : exec SqlError A) : r <> Panic -> client_error (rejected query r).
Proof. by destruct r. Qed.

Lemma resolve_keys_client query specs supplied : forall by_position, client_error (resolve_keys query specs supplied by_position).
Proof. induction supplied as [|[key v] supplied IH]; intros by_position; simpl; [done|]. repeat case_match; done. Qed.

Lemma render_scalar_client query spec v : client_error (render_scalar query spec v).
Proof. unfold render_scalar. repeat case_match; done. Qed.

Lemma render_literal_client query spec v : client_error (render_literal query spec v).
Proof.
  unfold render_literal. destruct (sp_list spec); [|apply render_scalar_client]. destruct v as [| | | | |items]; try done. case_match; [done|].
  apply client_error_bind; [|done]. induction items as [|item items IH]; simpl; [done|].
  apply client_error_bind; [apply render_scalar_client|]. intros e. apply client_error_bind; [|done]. apply IH.
  match goal with Hlen : (_ <? _)%nat = false |- _ => apply Nat.ltb_ge in Hlen; apply Nat.ltb_ge; simpl in Hlen; lia end.
Qed.

Lemma render_params_client query specs by_position : forall rendered, client_error (render_params query specs by_position rendered).
Proof.
  induction specs as [|spec specs IH]; intros rendered; simpl; [done|]. case_match; [|done].
  apply client_error_bind; [apply render_literal_client | done].
Qed.

Lemma bind_prepared_client p params limits : client_error (bind_prepared p params limits).
Proof.
  unfold bind_prepared. apply client_error_bind; [apply resolve_keys_client|]. intros by_position.
  apply client_error_bind; [apply render_params_client|]. intros rendered. rewrite rewrite_query_pure. cbn [exec_bind].
  apply client_error_bind; [apply client_error_rejected, validate_no_panic|]. intros _.
  set (q := map_query _ _). apply client_error_bind.
  { apply client_error_rejected. pose proof (lower_statement_good q) as Hg. by destruct (lower_select_statement (S_Query q)). }
  intros g. apply client_error_bind; [apply client_error_rejected; unfold enforce_graph_size; by case_match|]. intros _.
  apply client_error_bind; [apply client_error_rejected; unfold enforce_input_size; by case_match | done].
Qed.

(** The literals of the supplied values, and the statement they are put into. *)
Record bound_with (p : PreparedQuery) (params : gmap string ParamValue) (rendered : gmap nat SqlExpr) (q : Query) : Prop := {
  bw_keys : forall key v, params !! key = Some v -> exists spec, spec ∈ pq_params p /\ answers_to (lit key) spec = true;
  bw_params : forall spec, spec ∈ pq_params p -> exists key v e,
    params !! key = Some v /\ answers_to (lit key) spec = true /\ render_literal (pq_name p) spec v = Ok e /\ rendered !! sp_position spec = Some e;
  bw_once : size params = length (pq_params p);
  bw_query : q = map_query (substitute rendered) (pq_statement p);
  bw_valid : validate_query q = Ok tt;
  bw_filled : placeholders q = []
}.

Lemma positions_size (m : gmap nat ParamValue) specs :
  NoDup (map sp_position specs) -> (forall i, i ∈ dom m <-> i ∈ map sp_position specs) -> size m = length specs.
Proof.
  intros Hnd Hm. rewrite <- size_dom. replace (dom m) with (list_to_set (map sp_position specs) : gset nat).
  - by rewrite size_list_to_set, length_map.
  - apply set_eq. intros i. rewrite elem_of_list_to_set. by rewrite Hm.
Qed.

Lemma bind_prepared_ok p params limits b : params_ok (pq_params p) -> bind_prepared p params limits = Ok b ->
  exists rendered q, bound_with p params rendered q /\ bq_sql b = query_text q /\ lower_select_statement (S_Query q) = Ok (bq_graph b) /\
    (node_count (bq_graph b) <= max_mir_nodes limits)%nat /\ query_reads q = query_reads (pq_statement p).
Proof.
  intros Hok. pose proof (params_positions_NoDup _ Hok) as Hnd. unfold bind_prepared.
  intros (by_position & Hkeys & (rendered & Hrender & Hb)%exec_bind_ok)%exec_bind_ok.
  destruct (resolve_keys_spec _ _ _ (NoDup_fst_map_to_list params) _ _ Hkeys) as (Hfrom & Hans & Hsize & Hdom).
  destruct (render_params_spec _ _ _ Hnd _ _ Hrender) as (Hall & Hlit & _).
  rewrite rewrite_query_pure in Hb. cbn [exec_bind] in Hb.
  apply exec_bind_ok in Hb as ([] & Hv%rejected_ok & Hb). apply exec_bind_ok in Hb as (g & Hg%rejected_ok & Hb).
  apply exec_bind_ok in Hb as ([] & Hs%rejected_ok%graph_size_ok & Hb). apply exec_bind_ok in Hb as (? & _ & [= <-]).
  assert (forall i e, rendered !! i = Some e -> is_literal e = true) as Hl by (intros i e Hi; by destruct (Hlit i e Hi)).
  exists rendered, (map_query (substitute rendered) (pq_statement p)). split; [split|].
  - intros key v Hk. apply (Hans key v). by apply elem_of_map_to_list.
  - intros spec Hin. destruct (Hall spec Hin) as (v & e & Hv' & He & Hr). destruct (Hfrom _ _ Hv') as [Hi|(key & spec' & Hk & Hin' & Ha & Hpos)]; [done|].
    assert (spec' = spec) as ->.
    { apply list_elem_of_lookup in Hin as [i Hi], Hin' as [j Hj].
      assert (map sp_position (pq_params p) !! i = Some (sp_position spec)) as Hi' by (by rewrite list_lookup_fmap, Hi).
      assert (map sp_position (pq_params p) !! j = Some (sp_position spec)) as Hj' by (rewrite list_lookup_fmap, Hj; simpl; by rewrite Hpos).
      pose proof (NoDup_lookup _ _ _ _ Hnd Hi' Hj'). congruence. }
    exists key, v, e. split; [by apply elem_of_map_to_list|]. done.
  - rewrite map_size_empty, Nat.add_0_l, length_map_to_list in Hsize. rewrite <- Hsize. apply positions_size; [done|]. intros i. split.
    + intros [Hi|Hi]%Hdom; [by apply elem_of_dom in Hi as [? ?] | done].
    + intros (spec & -> & Hin)%list_elem_of_fmap. destruct (Hall spec Hin) as (v & _ & Hv' & _). apply elem_of_dom. eauto.
  - done.
  - done.
  - by apply validated_no_placeholder.
  - split; [done|]. split; [done|]. split; [done|]. apply map_query_reads; [apply substitute_id | intros e; by apply substitute_literal].
Qed.

(** ** Registries *)

(** What registration records of a query. *)
Record prepared_ok (p : PreparedQuery) : Prop := {
  po_params : params_ok (pq_params p);
  po_tables t : t ∈ pq_tables p <-> t ∈ map fst (query_reads (pq_statement p));
  po_leaky t : t ∈ pq_leaky_tables p <-> (t, true) ∈ query_reads (pq_statement p)
}.

Lemma graph_plan q g : lower_select_statement (S_Query q) = Ok g -> exists p, laid_out g p /\ p_tables p = query_reads q.
Proof. intros Hg. pose proof (lower_statement_good q) as Hgood. by rewrite Hg in Hgood. Qed.

#[local] Abbreviation prep := (prepare_query data_type_text).

Lemma prepare_ok limits name sql cardinality decls catalog p :
  prep limits name sql cardinality decls catalog = Ok p -> pq_name p = name /\ pq_cardinality p = cardinality /\ pq_sql p = sql /\ prepared_ok p.
Proof.
  unfold prepare_query. intros (st & _ & Hp)%exec_bind_ok. apply exec_bind_ok in Hp as (q0 & _ & Hp). apply exec_bind_ok in Hp as ([q named] & _ & Hp).
  apply exec_bind_ok in Hp as (occurrences & _ & Hp). apply exec_bind_ok in Hp as (params & Hparams%resolve_params_ok & Hp).
  apply exec_bind_ok in Hp as (bound & Hb & Hp). destruct (bind_prepared _ _ _) as [bound'| |] eqn:Hbind; [injection Hb as ->|done..].
  apply bind_prepared_ok in Hbind; [|exact Hparams]. destruct Hbind as (rendered & q' & _ & _ & Hlower & _ & Hreads). cbn [pq_statement] in Hreads.
  destruct (graph_plan _ _ Hlower) as (plan & Hl & Ht). rewrite (collect_tables_plan _ _ Hl), Ht, Hreads in Hp.
  pose proof (note_tables_spec (query_reads q) ([], [])) as Hspec. destruct (fold_left note_table (query_reads q) ([], [])) as [tables leaky].
  apply exec_bind_ok in Hp as ([] & _ & [= <-]). split; [done|]. split; [done|]. split; [done|]. split; [done|..]; intros t; cbn [pq_tables pq_leaky_tables pq_statement];
    rewrite slice_sort_perm; destruct (Hspec t) as [Htab Hleak]; cbn [fst snd] in *; [rewrite Htab | rewrite Hleak]; rewrite elem_of_nil; tauto.
Qed.

#[local] Abbreviation reg_full := (register_full data_type_text).
#[local] Abbreviation reg := (register_query data_type_text).
#[local] Abbreviation reg_sqlc := (register_sqlc_blocks data_type_text).

(** The registries that calls of the public operations build. *)
Inductive registered : QueryRegistry -> Prop :=
| registered_new limits : registered (registry_with_limits limits)
| registered_one r name sql decls r' : registered r -> reg r name sql decls = Ok r' -> registered r'
| registered_sqlc r source origin catalog marker_scoped : registered r -> registered (reg_sqlc r source origin catalog marker_scoped).1.

Record registry_ok (r : QueryRegistry) : Prop := {
  ro_wf : bt_wf (qr_queries r);
  ro_query name p : query_get r name = Some p -> pq_name p = name /\ prepared_ok p
}.

(** One registration adds one query. *)
Lemma register_full_ok r name sql cardinality decls catalog r' :
  registry_ok r -> reg_full r name sql cardinality decls catalog = Ok r' ->
  registry_ok r' /\ qr_limits r' = qr_limits r /\ query_get r name = None /\
  exists p, prep (qr_limits r) name sql cardinality decls catalog = Ok p /\
    forall n, query_get r' n = if decide (n = name) then Some p else query_get r n.
Proof.
  intros Hok. unfold register_full. fold (query_get r name). destruct (query_get r name) eqn:Hnone; [done|].
  intros (p & Hp & [= <-])%exec_bind_ok. pose proof (prepare_ok _ _ _ _ _ _ _ Hp) as (Hname & _ & _ & Hprep).
  assert (forall n, bt_get n (bt_insert name p (qr_queries r)) = if decide (n = name) then Some p else query_get r n) as Hget.
  { intros n. destruct (decide (n = name)) as [->|Hne]; [apply bt_get_insert_eq, Hok|]. by apply bt_get_insert_ne; [apply Hok|]. }
  split; [split|].
  - apply bt_wf_insert, Hok.
  - intros n p'. unfold query_get. cbn [qr_queries]. rewrite Hget. destruct (decide (n = name)) as [->|]; [by intros [= <-] | by apply Hok].
  - split; [done|]. split; [done|]. exists p. split; [done|]. exact Hget.
Qed.

(** A run over blocks adds the queries it names. *)
Lemma register_blocks_ok catalog marker_scoped blocks : forall r r' names, registry_ok r ->
  register_blocks data_type_text r catalog marker_scoped blocks = Ok (r', names) ->
  registry_ok r' /\ NoDup names /\ names = map sb_name (List.filter (fun b => negb marker_scoped || sb_marked b) blocks) /\
  (forall n, n ∈ names -> query_get r n = None /\ is_Some (query_get r' n)) /\
  (forall n, n ∉ names -> query_get r' n = query_get r n).
Proof.
  induction blocks as [|b blocks IH]; intros r r' names Hok; simpl.
  - intros [= <- <-]. split; [done|]. split; [constructor|]. split; [done|]. split; [by intros ? ?%elem_of_nil | done].
  - replace (negb marker_scoped || sb_marked b) with (negb (marker_scoped && negb (sb_marked b))) by (by destruct marker_scoped, (sb_marked b)).
    destruct (marker_scoped && negb (sb_marked b)) eqn:Hm; cbn [negb]; [by apply IH|].
    intros (cardinality & _ & (r1 & Hr1 & ([r2 rest] & Hr2 & [= <- <-])%exec_bind_ok)%exec_bind_ok)%exec_bind_ok.
    destruct (register_full_ok _ _ _ _ _ _ _ Hok Hr1) as (Hok1 & _ & Hfresh & p & _ & Hget).
    destruct (IH _ _ _ Hok1 Hr2) as (Hok2 & Hnd & -> & Hin & Hout).
    assert (forall n, n ∈ map sb_name (List.filter (fun b => negb marker_scoped || sb_marked b) blocks) -> n <> sb_name b) as Hne.
    { intros n Hn ->. apply Hin in Hn as [Hn _]. by rewrite Hget, decide_True in Hn. }
    split; [done|]. split; [constructor; [intros Hn; by apply (Hne _ Hn) | done]|]. split; [done|]. split.
    + intros n [->|Hn]%elem_of_cons.
      * split; [done|]. rewrite Hout by (intros Hn; by apply (Hne _ Hn)). rewrite Hget, decide_True by done. eauto.
      * destruct (Hin n Hn) as [Hn1 Hn2]. split; [|done]. rewrite Hget, decide_False in Hn1; [done | by apply Hne].
    + intros n [Hn Hn']%not_elem_of_cons. rewrite Hout by done. by rewrite Hget, decide_False.
Qed.

Lemma registry_ok_queries r r' : qr_queries r = qr_queries r' -> registry_ok r -> registry_ok r'.
Proof. intros Hq [Hwf Hget]. unfold query_get in Hget. rewrite Hq in *. by split. Qed.

Lemma registered_ok r : registered r -> registry_ok r.
Proof.
  induction 1 as [limits|r name sql decls r' _ IH Hr|r source origin catalog marker_scoped _ IH].
  - split; [apply bt_wf_nil | done].
  - unfold register_query in Hr. by apply register_full_ok in Hr as [Hok _].
  - unfold register_sqlc_blocks. destruct (split_sqlc_source source origin) as [blocks| |]; [|done..].
    destruct (register_blocks _ _ _ _ _) as [[r2 names]| |] eqn:Hr; [|done..]. cbn [fst].
    apply register_blocks_ok in Hr as [Hok _]; [|by destruct r]. by eapply registry_ok_queries, Hok.
Qed.

Lemma anti_join_only_ok table queries :
  anti_join_only table queries = Ok tt -> forall name p, (name, p) ∈ queries -> table ∉ pq_leaky_tables p.
Proof.
  induction queries as [|[name' p'] queries IH]; simpl; [by intros _ ? ? ?%elem_of_nil|]. case_bool_decide; [done|].
  intros Hrest name p [[= -> ->]|Hin]%elem_of_cons; [done | by eapply IH].
Qed.

Lemma referenced_tables_spec r t : t ∈ referenced_tables r <-> exists name p, (name, p) ∈ qr_queries r /\ t ∈ pq_tables p.
Proof.
  unfold referenced_tables. set (l := flat_map _ _).
  rewrite bt_keys_from_list.
  unfold l. rewrite list_elem_of_fmap. setoid_rewrite (list_elem_of_In (flat_map _ _)). setoid_rewrite in_flat_map. split.
  - intros ([k []] & Hk & ([name p] & Hin%list_elem_of_In & (t' & [= Ht'] & Ht%list_elem_of_In)%in_map_iff)). simpl in Hk. subst. eauto.
  - intros (name & p & Hin & Ht). exists (t, tt). split; [done|]. exists (name, p). split; [by apply list_elem_of_In|].
    apply in_map_iff. exists t. split; [done | by apply list_elem_of_In].
Qed.

(** C8: What the registry says of its queries holds of every query it binds. For any registry that
    registration calls build, when values are bound into a query: the tables recorded for the query
    are the base tables of the bound graph, and are among those the registry tells the runtime to
    stream; the tables recorded as row-sourcing are those with an occurrence from which a path
    reaches the output without entering the right input of an anti-join; and a table for which
    assert_anti_join_only succeeds has no such occurrence, whatever the values. *)
Theorem bound_tables_exact (r : QueryRegistry) (name : text) (params : gmap string ParamValue) (b : BoundQuery) :
  registered r -> registry_bind r name params = Ok b ->
  exists p, query_get r name = Some p /\
    (forall t, t ∈ pq_tables p <-> t ∈ graph_tables (bq_graph b)) /\
    (forall t, t ∈ graph_tables (bq_graph b) -> t ∈ referenced_tables r) /\
    (forall t, t ∈ pq_leaky_tables p <-> surfaces (bq_graph b) t) /\
    (forall t, assert_anti_join_only r t = Ok tt -> ~ surfaces (bq_graph b) t).
Proof.
  intros Hr%registered_ok. unfold registry_bind. fold (query_get r name). destruct (query_get r name) as [p|] eqn:Hget; [|done].
  destruct (ro_query r Hr name p Hget) as [_ [Hparams Htables Hleaky]]. intros (rendered & q & _ & _ & Hg & _ & Hreads)%bind_prepared_ok; [|done].
  destruct (graph_plan _ _ Hg) as (plan & Hl & Ht). rewrite Hreads in Ht.
  assert (forall t, t ∈ pq_tables p <-> t ∈ graph_tables (bq_graph b)) as Hbase by (intros t; by rewrite (graph_tables_plan _ _ Hl), Ht).
  assert (forall t, t ∈ pq_leaky_tables p <-> surfaces (bq_graph b) t) as Hsurf by (intros t; by rewrite (surfaces_plan _ _ Hl), Ht).
  assert ((name, p) ∈ qr_queries r) as Hin by (apply bt_get_in; [apply Hr | exact Hget]).
  exists p. split; [done|]. split; [done|]. split; [|split; [done|]].
  - intros t Hin'%Hbase. apply referenced_tables_spec. eauto.
  - intros t Hok Hs%Hsurf. by apply (anti_join_only_ok _ _ Hok name p Hin).
Qed.

(** C9: Binding fails closed and is exact. For any registry that registration calls build: a name
    that is not registered is refused as unknown, and no other failure is reported so; a success has
    used every supplied key and every declared parameter exactly once, each key being a parameter's
    name or its position, and the bound text and graph are those of the registered statement with
    each placeholder replaced by the typed literal of the value supplied for it, which passes the
    validation of a plain query and has no placeholder left; binding never panics. *)
Theorem bind_exact (r : QueryRegistry) (name : text) (params : gmap string ParamValue) :
  registered r ->
  match registry_bind r name params with
  | Ok b => exists p rendered q, query_get r name = Some p /\ bound_with p params rendered q /\
      bq_sql b = query_text q /\ lower_select_statement (S_Query q) = Ok (bq_graph b) /\
      (node_count (bq_graph b) <= max_mir_nodes (qr_limits r))%nat
  | Err (UnknownQuery name') => name' = name /\ query_get r name = None
  | Err _ => is_Some (query_get r name)
  | Panic => False
  end.
Proof.
  intros Hr%registered_ok. unfold registry_bind. fold (query_get r name). destruct (query_get r name) as [p|] eqn:Hget; [|done].
  destruct (ro_query r Hr name p Hget) as [_ [Hparams _ _]].
  pose proof (bind_prepared_client p params (qr_limits r)) as Hclient.
  destruct (bind_prepared p params (qr_limits r)) as [b|e|] eqn:Hb; [|by destruct e; eauto | done].
  apply bind_prepared_ok in Hb as (rendered & q & Hw & Hsql & Hg & Hn & _); [|done]. by exists p, rendered, q.
Qed.

(** C25: Registering an sqlc source is all or nothing. When it succeeds, the names it answers are
    those of the blocks of the source that are marked (of all blocks, without marker scoping), in
    order and distinct; each was free before and is registered now, and every other name keeps its
    query. When it fails the registry is as before. *)
Theorem sqlc_registration_exact (r : QueryRegistry) (source origin : text) (catalog : SqlCatalog) (marker_scoped : bool) :
  registered r ->
  match reg_sqlc r source origin catalog marker_scoped with
  | (r', Ok names) => exists blocks, split_sqlc_source source origin = Ok blocks /\
      names = map sb_name (List.filter (fun b => negb marker_scoped || sb_marked b) blocks) /\ NoDup names /\
      (forall n, n ∈ names -> query_get r n = None /\ is_Some (query_get r' n)) /\
      (forall n, n ∉ names -> query_get r' n = query_get r n)
  | (r', _) => r' = r
  end.
Proof.
  intros Hr%registered_ok. unfold register_sqlc_blocks. destruct (split_sqlc_source source origin) as [blocks| |]; [|done..].
  destruct (register_blocks _ _ _ _ _) as [[r2 names]| |] eqn:Hb; [|done..].
  apply register_blocks_ok in Hb as (_ & Hnd & Hnames & Hin & Hout); [|by destruct r]. exists blocks. done.
Qed.
End Registry.
