(* ===== verification/NormalizeFacts.v ===== *)
(** * NormalizeFacts: what a query that validation accepts may refer to *)

From stdpp Require Import gmap.
From S2P Require Import Prelude BTree Text UserContext Permissions Exprs Mir CompileMir SqlLimits SqlAst Lower LowerFacts SqlParser.
From S2P Require Import Normalize Prepared BindFacts PreparedFacts.

(** ** Tables *)

Section Tables.
Context `{SqlSyntax} (catalog : SqlCatalog).

Definition known_tables (ts : list (occurrence text)) : Prop := Forall (fun o => is_Some (catalog_table catalog o.1)) ts.

Lemma known_hide_if b ts : known_tables (hide_if b ts) <-> known_tables ts.
Proof. destruct b; [|done]. unfold known_tables, hide_if, hide. rewrite Forall_map. done. Qed.

(** Lowering reads a WITH clause at the top only, and renders the name of a table, where
    validation joins its parts. *)
Definition plain_node (n : Node) : Prop :=
  match n with
  | N_Query q => q_with (query_ q) = None
  | N_Relation name => object_name_text name = catalog_table_name name
  | N_Factor _ | N_Expr _ => True
  end.
Abbreviation plain := (Forall plain_node).

(** The CTEs that validation has in view are those that lowering expands, and they read
    tables of the catalog; [recursive] is the one whose own step is being read. *)
Record in_view (context : NormalizeContext) (known : gmap string (list (occurrence text))) (recursive : gset string) : Prop := {
  iv_context name : is_Some (bt_get name context) -> text_string name ∈ recursive \/ is_Some (known !! text_string name);
  iv_known name ts : known !! name = Some ts -> known_tables ts
}.

Lemma table_known context known recursive name columns :
  in_view context known recursive -> object_name_text name = catalog_table_name name ->
  match bt_get (catalog_table_name name) context with
  | Some cte => Ok (qs_columns cte)
  | None => let? schema := require_table catalog (catalog_table_name name) in Ok (ts_columns schema)
  end = Ok columns ->
  known_tables (expand_name known recursive name).
Proof.
  intros [Hc Hk] Hn Hb. unfold expand_name. rewrite Hn. case_bool_decide as Hr; [constructor|].
  destruct (known !! text_string (catalog_table_name name)) as [ts|] eqn:Ek; [by eapply Hk|]. simpl. constructor; [|constructor]. simpl.
  destruct (bt_get (catalog_table_name name) context) eqn:Eb.
  - destruct (Hc (catalog_table_name name)) as [?|[? Hs]]; [by rewrite Eb | done |]. rewrite Ek in Hs. done.
  - unfold require_table, ok_or in Hb. destruct (catalog_table catalog _); [done|]. done.
Qed.

Abbreviation reads_known known recursive mentions := (known_tables (reads known recursive mentions)).

Lemma reads_known_app known recursive a b : reads_known known recursive a -> reads_known known recursive b -> reads_known known recursive (a ++ b).
Proof. rewrite reads_app. unfold known_tables. rewrite Forall_app. done. Qed.

Lemma reads_known_hide known recursive b l : reads_known known recursive l -> reads_known known recursive (hide_if b l).
Proof. by rewrite reads_hide_if, known_hide_if. Qed.

Lemma plain_app l l' : plain (l ++ l') <-> plain l /\ plain l'.
Proof. apply Forall_app. Qed.

Section Select.
Context (context : NormalizeContext) (known : gmap string (list (occurrence text))) (recursive : gset string).
Context (fe : NameScope -> btree text SqlExpr -> NormalizeContext -> SqlExpr -> exec SqlError SqlExpr).
Context (ff : NormalizeContext -> NameScope -> TableFactor -> exec SqlError (TableFactor * NameScope)).

Definition factor_known (f : TableFactor) : Prop :=
  forall scope r, plain (factor_nodes f) -> ff context scope f = Ok r -> reads_known known recursive (factor_mentions f).
Definition expr_known (e : SqlExpr) : Prop :=
  forall scope aliases e', plain (expr_nodes e) -> fe scope aliases context e = Ok e' -> reads_known known recursive (expr_mentions e).

Lemma joins_known joins : Forall (fun j => factor_known (jn_relation j)) joins ->
  forall scope r, plain (flat_map (join_parts expr_nodes factor_nodes) joins) -> bind_join_list fe ff context scope joins = Ok r ->
  reads_known known recursive (flat_map (fun j => factor_mentions (jn_relation j)) joins).
Proof.
  induction 1 as [|j joins Hj _ IH]; intros scope r Hp Hb; [constructor|]. cbn [bind_join_list flat_map] in *.
  apply plain_app in Hp as [[Hpj _]%plain_app Hp]. apply exec_bind_ok in Hb as ([f scope'] & Hf & Hb).
  apply exec_bind_ok in Hb as (o & _ & Hb). apply exec_bind_ok in Hb as ([rest scope''] & Hrest & _).
  apply reads_known_app; [by eapply Hj | by eapply IH].
Qed.

Lemma from_known from : Forall (fun i => factor_known (tj_relation i) /\ Forall (fun j => factor_known (jn_relation j)) (tj_joins i)) from ->
  forall scope r, plain (flat_map (from_parts expr_nodes factor_nodes) from) -> bind_tables fe ff context scope from = Ok r ->
  reads_known known recursive (flat_map (fun i => factor_mentions (tj_relation i) ++ flat_map (fun j => factor_mentions (jn_relation j)) (tj_joins i)) from).
Proof.
  induction 1 as [|i from [Hi Hjs] _ IH]; intros scope r Hp Hb; [constructor|]. cbn [bind_tables flat_map] in *.
  apply plain_app in Hp as [[Hpi Hpj]%plain_app Hp]. apply exec_bind_ok in Hb as ([i' scope'] & Hb' & Hb).
  apply exec_bind_ok in Hb' as ([f scope0] & Hf & Hb'). apply exec_bind_ok in Hb' as ([js scope1] & Hjoins & _).
  apply exec_bind_ok in Hb as ([rest scope''] & Hrest & _).
  apply reads_known_app; [apply reads_known_app; [by eapply Hi | by eapply joins_known] | by eapply IH].
Qed.
End Select.

Fixpoint normalize_expr_known (e : SqlExpr) : forall context known recursive, in_view context known recursive ->
    expr_known context known recursive (normalize_expr catalog) e
with normalize_query_known (q : Query) : forall context known recursive outer r, in_view context known recursive -> plain (query_nodes q) ->
    normalize_query catalog context outer q = Ok r -> reads_known known recursive (query_mentions q)
with normalize_body_known (b : SetExpr) : forall context known recursive outer r, in_view context known recursive -> plain (body_nodes b) ->
    normalize_set_expr catalog context outer b = Ok r -> reads_known known recursive (body_mentions b)
with normalize_factor_known (f : TableFactor) : forall context known recursive, in_view context known recursive ->
    factor_known context known recursive (bind_relation catalog) f.
Proof.
  - intros context known recursive Hv scope aliases e' Hp He. destruct e as [| |e| |l op r|op e| | | | | | | | | | | | | | | |q n| | | |]; try (by constructor).
    + destruct e; try (by constructor). cbn [normalize_expr expr_mentions expr_nodes] in *. apply exec_bind_ok in He as ([q' sh] & Hq & _).
      apply reads_known_hide. do 2 apply Forall_inv_tail in Hp. by eapply normalize_query_known.
    + destruct op; try (by constructor). cbn [normalize_expr expr_mentions expr_nodes] in *. apply Forall_inv_tail, plain_app in Hp as [Hl Hr].
      apply exec_bind_ok in He as (l' & El & He). apply exec_bind_ok in He as (r' & Er & _).
      apply reads_known_app; by eapply normalize_expr_known.
    + destruct op; try (by constructor). destruct e as [| |e| | | | | | | | | | | | | | | | | | |q n| | | |]; try (by constructor).
      * destruct e; try (by constructor). cbn [normalize_expr expr_mentions expr_nodes] in *.
        apply exec_bind_ok in He as (? & ([q' sh] & Hq & _)%exec_bind_ok & _).
        apply reads_known_hide. do 3 apply Forall_inv_tail in Hp. by eapply normalize_query_known.
      * cbn [normalize_expr expr_mentions expr_nodes] in *. apply exec_bind_ok in He as (? & ([q' sh] & Hq & _)%exec_bind_ok & _).
        apply reads_known_hide. do 2 apply Forall_inv_tail in Hp. by eapply normalize_query_known.
    + cbn [normalize_expr expr_mentions expr_nodes] in *. apply exec_bind_ok in He as ([q' sh] & Hq & _).
      apply reads_known_hide. apply Forall_inv_tail in Hp. by eapply normalize_query_known.
  - intros context known recursive outer res Hv Hp Hq. destruct q as [[w b o l lb f ft]]. cbn [normalize_query query_mentions query_nodes q_with q_body] in *.
    apply Forall_cons in Hp as [Hw Hp]. cbn in Hw. subst w. cbn [normalize_with exec_bind] in Hq.
    apply exec_bind_ok in Hq as ([b' sh] & Hb & _). eapply normalize_body_known; [exact Hv | | exact Hb].
    unfold query_parts in Hp. cbn in Hp. by apply plain_app in Hp as [Hp _].
  - intros context known recursive outer res Hv Hp Hb. destruct b as [[dist top proj into from sel gb hav ns]|q|op k l r| | | |]; try (by constructor);
      cbn [normalize_set_expr body_mentions body_nodes sl_from sl_selection] in *.
    + apply exec_bind_ok in Hb as ([s' sh] & Hs & _). unfold normalize_select in Hs. cbn [sl_from sl_selection] in Hs.
      apply exec_bind_ok in Hs as ([from' scope] & Hfrom & Hs). apply exec_bind_ok in Hs as (sel' & Hsel & _).
      unfold select_parts in Hp. cbn in Hp. rewrite !plain_app in Hp. destruct Hp as (_ & _ & Hpf & Hps & _).
      apply reads_known_app.
      * eapply from_known; [|exact Hpf | exact Hfrom]. clear Hpf Hfrom. induction from as [|[rel joins] from IHf]; [constructor|].
        constructor; [|exact IHf]. split; [by apply normalize_factor_known|]. cbn [tj_joins].
        induction joins as [|[jrel jop] joins IHj]; [constructor|]. constructor; [by apply normalize_factor_known | exact IHj].
      * destruct sel as [e|]; [|constructor]. cbn in *. apply exec_bind_ok in Hsel as (e' & He & _). by eapply normalize_expr_known.
    + apply exec_bind_ok in Hb as ([q' sh] & Hq & _). by eapply normalize_query_known.
    + apply plain_app in Hp as [Hl Hr]. apply exec_bind_ok in Hb as ([l' sl] & El & Hb). apply exec_bind_ok in Hb as ([r' sr] & Er & _).
      apply reads_known_app; by eapply normalize_body_known.
  - intros context known recursive Hv scope res Hp Hb. destruct f as [name alias args|lateral q alias|]; cbn [bind_relation factor_mentions factor_nodes] in *.
    + apply exec_bind_ok in Hb as (columns & Hc & _). apply Forall_inv_tail, Forall_inv in Hp. unfold reads. simpl. rewrite app_nil_r.
      by eapply table_known.
    + apply exec_bind_ok in Hb as ([q' sh] & Hq & _). apply Forall_inv_tail in Hp. by eapply normalize_query_known.
    + constructor.
Qed.

(** *** CTEs *)

Lemma in_view_step context known name shape : bt_wf context -> in_view context known ∅ -> in_view (bt_insert name shape context) known {[text_string name]}.
Proof.
  intros Hwf [Hc Hk]. split; [|exact Hk]. intros n. destruct (decide (n = name)) as [->|Hne].
  - intros _. left. by apply elem_of_singleton.
  - rewrite bt_get_insert_ne by done. intros [Hn|Hn]%Hc; [by apply elem_of_empty in Hn | by right].
Qed.

Lemma in_view_insert context known name shape ts : bt_wf context -> in_view context known ∅ -> known_tables ts ->
  in_view (bt_insert name shape context) (<[text_string name := ts]> known) ∅.
Proof.
  intros Hwf [Hc Hk] Hts. split.
  - intros n. destruct (decide (n = name)) as [->|Hne]; [right; by rewrite lookup_insert_eq|].
    rewrite bt_get_insert_ne by done. intros [Hn|Hn]%Hc; [by left | right].
    rewrite lookup_insert_is_Some. destruct (decide (text_string name = text_string n)); auto.
  - intros n ts' [[_ <-]|[_ Hn]]%lookup_insert_Some; [done | by eapply Hk].
Qed.

(** The base term of a recursive CTE. *)
Abbreviation cte_base := (fun (context : NormalizeContext) (q : Query) =>
  let 'Query_ r := q in
  match q_body r with
  | SE_SetOperation SO_Union _ l _ => let? (_, shape) := normalize_set_expr catalog context scope_default l in Ok (Some shape)
  | _ => Ok None
  end).

Lemma cte_known rc context known c q' shape : bt_wf context -> in_view context known ∅ -> plain (query_nodes (cte_query c)) ->
  normalize_cte (normalize_query catalog) cte_base rc context c = Ok (q', shape) -> known_tables (one_cte_reads rc c known).
Proof.
  intros Hwf Hv Hp. unfold normalize_cte, one_cte_reads. destruct (rc && _).
  - intros (base & Hbase & Hn)%exec_bind_ok. destruct base as [sh|]; [|done].
    apply exec_bind_ok in Hn as (sh' & _ & Hn). apply exec_bind_ok in Hn as ([q2 sh2] & Hq & _).
    destruct (cte_query c) as [[w b o l lb f ft]]. cbn [query_ q_body q_with] in *. pose proof Hp as [Hw Hb]%Forall_cons. cbn in Hw. subst w.
    destruct b as [|?|op k base step| | | |]; try done. destruct op; try done. apply exec_bind_ok in Hbase as ([b' s0] & Hbase & _).
    cbn [query_parts q_with q_body opt_list app body_nodes] in Hb. rewrite <- app_assoc, !plain_app in Hb. destruct Hb as (Hpb & Hps & _).
    cbn [normalize_query normalize_with q_with q_body exec_bind] in Hq. apply exec_bind_ok in Hq as ([b2 s2] & Hq & _).
    cbn [normalize_set_expr] in Hq. apply exec_bind_ok in Hq as ([l' s3] & _ & Hq). apply exec_bind_ok in Hq as ([r' s4] & Hstep & _).
    apply Forall_app. split; [by eapply normalize_body_known|].
    eapply normalize_body_known; [by apply in_view_step | exact Hps | exact Hstep].
  - intros ([q2 sh] & Hq & _)%exec_bind_ok. by eapply normalize_query_known.
Qed.

Lemma ctes_known rc ctes : forall context known ctes' context', bt_wf context -> in_view context known ∅ ->
  plain (flat_map (fun c => query_nodes (cte_query c)) ctes) ->
  normalize_ctes (normalize_query catalog) cte_base rc context ctes = Ok (ctes', context') -> in_view context' (cte_reads rc ctes known) ∅.
Proof.
  induction ctes as [|c ctes IH]; intros context known ctes' context' Hwf Hv Hp; cbn [normalize_ctes flat_map cte_reads fold_left] in *.
  - by intros [= <- <-].
  - apply plain_app in Hp as [Hpc Hp]. intros ([q' shape] & Hc & ([rest ctx] & Hrest & [= <- <-])%exec_bind_ok)%exec_bind_ok.
    eapply IH; [| |exact Hp|exact Hrest]; [by apply bt_wf_insert|]. apply in_view_insert; [done..|]. by eapply cte_known.
Qed.

(** Validation accepts a query only if the catalog has every table it reads. *)
Lemma accepted_reads_known q : plain (tail (query_nodes q)) -> validate_statement_against_catalog (S_Query q) catalog = Ok tt ->
  known_tables (query_reads q).
Proof.
  unfold validate_statement_against_catalog, normalize_statement. intros Hp (? & ([q' shape] & Hq & _)%exec_bind_ok & _)%exec_bind_ok.
  destruct q as [[w b o l lb f ft]]. cbn [query_nodes tail query_reads query_ q_with q_body query_mentions normalize_query] in *.
  unfold query_parts in Hp. cbn [q_with q_body] in Hp. rewrite !plain_app in Hp. destruct Hp as (Hpw & Hpb & _).
  apply exec_bind_ok in Hq as ([w' context] & Hw & Hq). apply exec_bind_ok in Hq as ([b' sh] & Hb & _).
  assert (in_view [] ∅ ∅) as Hv by (split; [by intros ? [? ?] | done]).
  unfold query_reads. cbn [query_ q_with query_mentions q_body]. eapply normalize_body_known; [|exact Hpb | exact Hb].
  destruct w as [[rc ctes]|]; cbn [normalize_with with_recursive with_ctes] in *.
  - apply exec_bind_ok in Hw as ([ctes' ctx] & Hc & [= <- <-]). by eapply ctes_known; [apply bt_wf_nil | exact Hv | exact Hpw | exact Hc].
  - by injection Hw as <- <-.
Qed.
End Tables.

(** ** Names *)

Section Names.
Context `{SqlSyntax} (catalog : SqlCatalog).

Definition scope_ok (scope : NameScope) : Prop := bt_wf (sc_relations scope).

Lemma scope_nested_ok outer : scope_ok outer -> scope_ok (scope_nested outer).
Proof. done. Qed.

Lemma insert_relation_ok scope q columns scope' : scope_ok scope -> insert_relation scope q columns = Ok scope' -> scope_ok scope'.
Proof. unfold insert_relation, scope_ok. intros Hok Hi. repeat case_match; simplify_eq; by apply bt_wf_insert. Qed.

Lemma bind_relation_ok context scope f f' scope' : scope_ok scope -> bind_relation catalog context scope f = Ok (f', scope') -> scope_ok scope'.
Proof.
  intros Hok. destruct f as [name alias args|lateral q alias|]; cbn [bind_relation]; [..|done].
  - intros (columns & _ & (scope2 & Hi & [= <- <-])%exec_bind_ok)%exec_bind_ok. by eapply insert_relation_ok.
  - intros ([q' shape] & _ & Hb)%exec_bind_ok. destruct alias; [|done]. apply exec_bind_ok in Hb as (scope2 & Hi & [= <- <-]).
    by eapply insert_relation_ok.
Qed.

Lemma bind_joins_ok context joins : forall scope r scope', scope_ok scope ->
  bind_join_list (normalize_expr catalog) (bind_relation catalog) context scope joins = Ok (r, scope') -> scope_ok scope'.
Proof.
  induction joins as [|j joins IH]; intros scope r scope' Hok; cbn [bind_join_list]; [by intros [= <- <-]|].
  intros ([f s1] & Hf%bind_relation_ok & Hb)%exec_bind_ok; [|done]. apply exec_bind_ok in Hb as (o & _ & Hb).
  apply exec_bind_ok in Hb as ([rest s2] & Hrest & [= <- <-]). by eapply IH, Hrest.
Qed.

Lemma bind_tables_ok context from : forall scope r scope', scope_ok scope ->
  bind_tables (normalize_expr catalog) (bind_relation catalog) context scope from = Ok (r, scope') -> scope_ok scope'.
Proof.
  induction from as [|i from IH]; intros scope r scope' Hok; cbn [bind_tables]; [by intros [= <- <-]|].
  intros ([i' s1] & Hi & ([rest s2] & Hrest & [= <- <-])%exec_bind_ok)%exec_bind_ok. eapply IH, Hrest.
  apply exec_bind_ok in Hi as ([f s0] & Hf%bind_relation_ok & Hi); [|done]. apply exec_bind_ok in Hi as ([js s3] & Hj & [= <- <-]).
  by eapply bind_joins_ok.
Qed.

(** Every column reference names a column of a relation in view. A subquery of [EXISTS] has a scope of its own; other
    subqueries, window functions and named arguments are outside the claim. *)
Fixpoint scoped (scope : NameScope) (e : SqlExpr) : bool :=
  match e with
  | X_Identifier _ => false
  | X_CompoundIdentifier [relation; column] =>
      match bt_get (id_value relation) (sc_relations scope) with Some columns => has_column (id_value column) columns | None => false end
  | X_CompoundIdentifier _ => false
  | X_Value _ | X_Exists _ _ => true
  | X_Nested e | X_UnaryOp _ e | X_Cast _ e _ _ | X_IsNull e | X_IsNotNull e | X_IsTrue e | X_IsFalse e => scoped scope e
  | X_BinaryOp l _ r | X_AnyOp l _ r | X_IsDistinctFrom l r | X_IsNotDistinctFrom l r | X_Like _ _ l r _ | X_ILike _ _ l r _ => scoped scope l && scoped scope r
  | X_Between e _ low high => scoped scope e && scoped scope low && scoped scope high
  | X_InList e elements _ => scoped scope e && forallb (scoped scope) elements
  | X_Case operand conditions results else_result =>
      match operand with Some e => scoped scope e | None => true end && forallb (scoped scope) conditions && forallb (scoped scope) results &&
      match else_result with Some e => scoped scope e | None => true end
  | X_Array elements _ => forallb (scoped scope) elements
  | X_Function _ args over =>
      negb over && match args with
                   | FnNone => true
                   | FnList _ args => forallb (fun a => match a with FnExpr e => scoped scope e | FnWildcard => true | _ => false end) args
                   | FnSubquery _ => false
                   end
  | X_InSubquery _ _ _ | X_Subquery _ | X_Interval | X_Other => false
  end.

(** The forms that validation walks: the others are kept as they are written, whatever columns they name. *)
Fixpoint walked (e : SqlExpr) : bool :=
  match e with
  | X_Identifier _ | X_CompoundIdentifier _ | X_Value _ | X_Exists _ _ => true
  | X_Nested e | X_UnaryOp _ e | X_Cast _ e _ _ | X_IsNull e | X_IsNotNull e => walked e
  | X_BinaryOp l _ r | X_AnyOp l _ r => walked l && walked r
  | X_Between e _ low high => walked e && walked low && walked high
  | X_InList e elements _ => walked e && forallb walked elements
  | X_Function _ args over =>
      negb over && match args with
                   | FnNone => true
                   | FnList _ args => forallb (fun a => match a with FnExpr e => walked e | FnWildcard => true | _ => false end) args
                   | FnSubquery _ => false
                   end
  | _ => false
  end.
Definition item_walked (i : SelectItem SqlExpr) : bool := match i with SI_UnnamedExpr e | SI_ExprWithAlias e _ => walked e | _ => true end.
Definition select_walked (s : Select) : bool :=
  forallb item_walked (sl_projection s) && match sl_selection s with Some e => walked e | None => true end &&
  match sl_distinct s with Some (D_On exprs) => forallb walked exprs | _ => true end &&
  match sl_group_by s with GB_Expressions exprs _ => forallb walked exprs | _ => true end.

Lemma column_named_has column columns : is_Some (column_named column columns) <-> has_column column columns = true.
Proof.
  unfold column_named, has_column. induction columns as [|c columns IH]; simpl; [by split; [intros [? ?]|]|].
  destruct (bool_decide (col_name c = column)); simpl; [by split; [done|eauto] | exact IH].
Qed.

Lemma resolved_scoped scope qualifier column e : scope_ok scope -> resolve_scope_column scope qualifier column = Ok e -> scoped scope e = true.
Proof.
  intros Hok. destruct qualifier as [q|]; cbn [resolve_scope_column].
  - intros (columns & Hc & Hr)%exec_bind_ok. unfold ok_or in Hc. destruct (bt_get q (sc_relations scope)) eqn:E; [|done]. injection Hc as ->.
    destruct (has_column column columns) eqn:Hh; [|done]. injection Hr as <-. simpl. by rewrite E.
  - generalize [true; false]. induction l as [|b l IH]; cbn [resolve_levels]; [done|].
    destruct (List.filter _ _) as [|[q columns] [|]] eqn:E; [exact IH | | done]. intros [= <-].
    assert ((q, columns) ∈ List.filter (fun r => has_column column r.2) (relations_at scope b)) as Hin by (rewrite E; by left).
    rewrite list_elem_of_In, List.filter_In in Hin. destruct Hin as [Hin Hh]. unfold relations_at in Hin. rewrite List.filter_In in Hin.
    destruct Hin as [Hin%list_elem_of_In _]. apply bt_get_in in Hin; [|done]. simpl. by rewrite Hin.
Qed.

Definition aliases_scoped (scope : NameScope) (aliases : btree text SqlExpr) : Prop := forall n a, bt_get n aliases = Some a -> scoped scope a = true.

Lemma no_aliases_scoped scope : aliases_scoped scope [].
Proof. by intros n a. Qed.

Lemma fold_scoped scope op parts : forall e, scoped scope e = true -> forallb (scoped scope) parts = true ->
  scoped scope (fold_left (fun l r => X_BinaryOp l op r) parts e) = true.
Proof.
  induction parts as [|p parts IH]; intros e He; cbn [forallb fold_left]; [done|]. intros [Hp Hps]%andb_true_iff. apply IH; [|done].
  cbn [scoped]. by rewrite He, Hp.
Qed.

Lemma expand_in_list_scoped scope v items negated e : scoped scope v = true -> forallb (scoped scope) items = true ->
  expand_in_list v items negated = Ok e -> scoped scope e = true.
Proof.
  intros Hv Hi. unfold expand_in_list. set (op := if negated then BO_NotEq else BO_Eq).
  assert (forallb (scoped scope) (map (binary v op) items) = true) as Hm.
  { rewrite forallb_forall in Hi |- *. intros x (i & <- & Hin)%in_map_iff. cbn. rewrite Hv. by apply Hi. }
  destruct (map (binary v op) items) as [|first parts]; [done|]. cbn [forallb] in Hm. apply andb_true_iff in Hm as [Hf Hps].
  assert (scoped scope (fold_left (if negated then and_ else or_) parts first) = true) as Hs by (destruct negated; by apply fold_scoped).
  destruct (_ || _); by intros [= <-].
Qed.

Lemma mapM_scoped scope aliases context (es : list SqlExpr) es' :
  (forall e, In e es -> forall e', walked e = true -> normalize_expr catalog scope aliases context e = Ok e' -> scoped scope e' = true) ->
  forallb walked es = true -> exec_mapM (normalize_expr catalog scope aliases context) es = Ok es' -> forallb (scoped scope) es' = true.
Proof.
  intros Hes Hw Hm%exec_mapM_ok. induction Hm as [|e e' es es' He _ IH]; [done|]. cbn [forallb] in *. apply andb_true_iff in Hw as [Hwe Hws].
  rewrite (Hes e (or_introl eq_refl) e' Hwe He). apply IH; [|done]. intros x Hx. by apply Hes; right.
Qed.

(** Every column of a normalized expression is in view. *)
Fixpoint normalize_expr_scoped (e : SqlExpr) : forall scope aliases context e', walked e = true -> scope_ok scope -> aliases_scoped scope aliases ->
    normalize_expr catalog scope aliases context e = Ok e' -> scoped scope e' = true.
Proof.
  intros scope aliases context e' Hw Hok Hal He.
  destruct e; cbn [normalize_expr] in He; try discriminate Hw; cbn [walked] in Hw; repeat (apply andb_true_iff in Hw as [Hw ?]); try (by injection He as <-).
  - destruct (bt_get _ aliases) as [a|] eqn:E; [injection He as <-; by eapply Hal | by eapply resolved_scoped].
  - destruct parts as [|q [|c [|]]]; try done. by eapply resolved_scoped.
  - by eapply normalize_expr_scoped.
  - apply exec_bind_ok in He as (l & El%normalize_expr_scoped & He); [|done..]. apply exec_bind_ok in He as (r & Er%normalize_expr_scoped & He); [|done..].
    apply exec_bind_ok in He as ([] & _ & [= <-]). cbn [scoped binary]. by rewrite El, Er.
  - apply exec_bind_ok in He as (x & Ex%normalize_expr_scoped & He); [|done..]. by apply exec_bind_ok in He as ([] & _ & [= <-]).
  - apply exec_bind_ok in He as (x & Ex%normalize_expr_scoped & [= <-]); [|done..]. cbn [scoped binary]. by rewrite Ex.
  - apply exec_bind_ok in He as (x & Ex%normalize_expr_scoped & [= <-]); [|done..]. cbn [scoped binary]. by rewrite Ex.
  - apply exec_bind_ok in He as (v & Ev%normalize_expr_scoped & He); [|done..]. apply exec_bind_ok in He as (l & El%normalize_expr_scoped & He); [|done..].
    apply exec_bind_ok in He as (h & Eh%normalize_expr_scoped & [= <-]); [|done..].
    destruct negated; cbn [scoped expand_between and_ binary not_]; by rewrite Ev, El, Eh.
  - destruct (_ =? _)%nat; [done|]. apply exec_bind_ok in He as (v & Ev%normalize_expr_scoped & He); [|done..].
    apply exec_bind_ok in He as (items & Hitems & He). eapply expand_in_list_scoped; [exact Ev | | exact He].
    eapply mapM_scoped, Hitems; [|done]. clear -Hok Hal normalize_expr_scoped. induction elements as [|x l IH]; [done|].
    intros y [<-|Hy]; [|by apply IH]. intros y' Hy' Ey. by eapply normalize_expr_scoped.
  - destruct (is_comparison op); [|done]. apply exec_bind_ok in He as (l & El%normalize_expr_scoped & He); [|done..].
    apply exec_bind_ok in He as (r & Er%normalize_expr_scoped & [= <-]); [|done..]. cbn [scoped]. by rewrite El, Er.
  - destruct format; [done|]. destruct kind; try done; by apply exec_bind_ok in He as (x & Ex%normalize_expr_scoped & [= <-]).
  - case_bool_decide; [|done]. apply exec_bind_ok in He as (args' & Ha & He). apply exec_bind_ok in He as ([] & _ & [= <-]).
    cbn [scoped]. rewrite Hw. destruct args as [|q|d args]; try done; [by injection Ha as <-|].
    apply exec_bind_ok in Ha as (l & Hl%exec_mapM_ok & [= <-]).
    match goal with Hargs : forallb _ args = true |- _ => clear -Hl Hok Hal Hargs normalize_expr_scoped; rename Hargs into Hargs' end.
    cbn [andb]. revert l Hl Hargs'. induction args as [|a args IH]; intros l Hl Hargs; inversion Hl as [|? a' ? l' Ha Hl']; subst; [done|].
    cbn [forallb] in *. apply andb_true_iff in Hargs as [Hx Hargs]. rewrite (IH l' Hl' Hargs), andb_true_r. destruct a as [|x| |]; try done; [|by injection Ha as <-].
    apply exec_bind_ok in Ha as (x' & Ex%normalize_expr_scoped & [= <-]); done.
  - by apply exec_bind_ok in He as ([q' sh] & _ & [= <-]).
Qed.

(** *** SELECT *)

Definition item_expr (i : SelectItem SqlExpr) : option SqlExpr := match i with SI_UnnamedExpr e | SI_ExprWithAlias e _ => Some e | _ => None end.
Definition distinct_names (scope : NameScope) : Prop := forall q columns, (q, columns) ∈ sc_relations scope -> NoDup (map col_name columns).

(** An item of a normalized projection and the column it yields. *)
Definition item_typed (scope : NameScope) (i : SelectItem SqlExpr) (c : ColumnSchema) : Prop :=
  exists e, item_expr i = Some e /\ scoped scope e = true /\
    (distinct_names scope -> infer_expr_type e scope = Ok (col_ty c)) /\
    col_name c = match i with SI_ExprWithAlias _ a => id_value a | _ => output_name e end.

Lemma column_named_in columns c : NoDup (map col_name columns) -> c ∈ columns -> column_named (col_name c) columns = Some c.
Proof.
  unfold column_named. induction columns as [|c0 columns IH]; cbn [map List.find]; [by intros _ ?%elem_of_nil|].
  intros [Hni Hnd]%NoDup_cons Hin. case_bool_decide as Hc.
  - apply elem_of_cons in Hin as [->|Hin]; [done|]. destruct Hni. rewrite Hc. apply list_elem_of_fmap. eauto.
  - apply elem_of_cons in Hin as [->|Hin]; [done | by apply IH].
Qed.

Lemma wildcard_typed scope relations : scope_ok scope -> (forall r, r ∈ relations -> r ∈ sc_relations scope) ->
  Forall (fun ic => item_typed scope ic.1 ic.2) (wildcard_items relations).
Proof.
  intros Hok Hin. apply Forall_forall. intros [i c] Hi. unfold wildcard_items in Hi.
  apply list_elem_of_In, in_flat_map in Hi as ([q columns] & Hr & (c' & [= <- <-] & Hc%list_elem_of_In)%in_map_iff).
  apply list_elem_of_In, Hin in Hr. pose proof Hr as Hr'. apply bt_get_in in Hr'; [|done].
  exists (qualified_column q (col_name c')). split; [done|]. split; [|split; [|done]].
  - cbn. rewrite Hr'. apply existsb_exists. exists c'. split; [by apply list_elem_of_In | by apply bool_decide_eq_true].
  - intros Hnd. cbn. rewrite Hr'. cbn. by rewrite (column_named_in _ _ (Hnd _ _ Hr) Hc).
Qed.

Lemma normalize_item_typed scope context i items alias : item_walked i = true -> scope_ok scope ->
  normalize_item (normalize_expr catalog) scope context i = Ok (items, alias) ->
  Forall (fun ic => item_typed scope ic.1 ic.2) items /\ (forall n a, alias = Some (n, a) -> scoped scope a = true).
Proof.
  intros Hw Hok. destruct i as [e|e name|name [|]|[|]]; cbn [normalize_item]; try done.
  - intros (e' & He%normalize_expr_scoped & (ty & Hty & [= <- <-])%exec_bind_ok)%exec_bind_ok; [|done|done|apply no_aliases_scoped].
    split; [|done]. constructor; [|constructor]. by exists e'.
  - intros (e' & He%normalize_expr_scoped & (ty & Hty & [= <- <-])%exec_bind_ok)%exec_bind_ok; [|done|done|apply no_aliases_scoped].
    split; [|by intros ? ? [= <- <-]]. constructor; [|constructor]. by exists e'.
  - intros (columns & Hc & [= <- <-])%exec_bind_ok. split; [|done]. apply (wildcard_typed scope [(last_part name, columns)]); [done|]. intros r ->%list_elem_of_singleton.
    unfold ok_or in Hc. destruct (bt_get _ _) eqn:E; [|done]. injection Hc as ->. by apply bt_get_in in E.
  - intros [= <- <-]. split; [|done]. apply wildcard_typed; [done|]. intros r Hr. unfold local_relations in Hr.
    by apply list_elem_of_In, List.filter_In in Hr as [Hr%list_elem_of_In _].
Qed.

Lemma projection_typed scope context projection items shape : forallb item_walked projection = true -> scope_ok scope ->
  normalize_projection (normalize_expr catalog) scope context projection = Ok (items, shape) ->
  Forall2 (item_typed scope) items (qs_columns shape) /\ aliases_scoped scope (qs_aliases shape).
Proof.
  intros Hw Hok (parts & Hm%exec_mapM_ok & [= <- <-])%exec_bind_ok. cbn [qs_columns qs_aliases].
  assert (Forall (fun part => Forall (fun ic => item_typed scope ic.1 ic.2) part.1 /\ (forall n a, part.2 = Some (n, a) -> scoped scope a = true)) parts) as Hp.
  { induction Hm as [|i [l al] rest parts Hi _ IH]; [constructor|]. cbn [forallb] in Hw. apply andb_true_iff in Hw as [Hwi Hw].
    constructor; [by eapply normalize_item_typed | by apply IH]. }
  split.
  - assert (Forall (fun ic => item_typed scope ic.1 ic.2) (flat_map fst parts)) as Hall.
    { clear Hm. induction Hp as [|part parts [Hh _] _ IH]; cbn; [constructor|]. by apply Forall_app. }
    induction Hall; constructor; done.
  - intros n a Hn. apply bt_get_in, bt_from_list_in, filter_map_elem in Hn as (part & Hin & Hs); [|apply bt_wf_from_list].
    rewrite Forall_forall in Hp. by eapply Hp.
Qed.

Lemma keys_scoped scope aliases context exprs exprs' : scope_ok scope -> aliases_scoped scope aliases -> forallb walked exprs = true ->
  exec_mapM (normalize_expr catalog scope aliases context) exprs = Ok exprs' -> forallb (scoped scope) exprs' = true.
Proof. intros Hok Hal. apply mapM_scoped. intros e _ e' Hw He. by eapply normalize_expr_scoped. Qed.

(** C34: A SELECT that validation accepts, at any depth and in any well-formed scope, and whose
    projection, WHERE, DISTINCT ON and GROUP BY are built of the forms that validation walks (names,
    literals, nesting, operators, casts, NULL tests, BETWEEN, IN lists, ANY, plain calls and EXISTS;
    not LIKE, CASE, IS TRUE, IS DISTINCT FROM, arrays, subqueries and window calls), is closed and
    typed: in the scope its FROM clause builds on the enclosing one, wildcards are expanded, every
    item of the projection refers at every depth, but for the subqueries of EXISTS, which have
    scopes of their own, only to columns of relations in view and yields the column of the output
    shape with its name and, where no relation in view repeats a column name, its type; the WHERE
    clause is in view and boolean or of unknown type; and the expressions of DISTINCT ON and GROUP
    BY are in view, aliases replaced. *)
Theorem select_typed (context : NormalizeContext) (outer : NameScope) (s s' : Select) (shape : QueryShape) :
  scope_ok outer -> select_walked s = true ->
  normalize_set_expr catalog context outer (SE_Select s) = Ok (SE_Select s', shape) ->
  exists scope, bind_tables (normalize_expr catalog) (bind_relation catalog) context (scope_nested outer) (sl_from s) = Ok (sl_from s', scope) /\
    Forall2 (item_typed scope) (sl_projection s') (qs_columns shape) /\
    (forall e, sl_selection s' = Some e -> scoped scope e = true /\ (infer_expr_type e scope = Ok CT_Bool \/ infer_expr_type e scope = Ok CT_Unknown)) /\
    (forall exprs, sl_distinct s' = Some (D_On exprs) -> forallb (scoped scope) exprs = true) /\
    (forall exprs modifiers, sl_group_by s' = GB_Expressions exprs modifiers -> forallb (scoped scope) exprs = true).
Proof.
  intros Hok Hw. unfold select_walked in Hw. repeat (apply andb_true_iff in Hw as [Hw ?]).
  cbn [normalize_set_expr]. intros ([s2 sh] & Hs & [= <- <-])%exec_bind_ok. unfold normalize_select in Hs.
  apply exec_bind_ok in Hs as ([from scope] & Hfrom & Hs). apply exec_bind_ok in Hs as (sel & Hsel & Hs).
  apply exec_bind_ok in Hs as ([proj shape] & Hproj & Hs). apply exec_bind_ok in Hs as (dist & Hdist & Hs).
  apply exec_bind_ok in Hs as (gb & Hgb & [= <- <-]). cbn [sl_from sl_projection sl_selection sl_distinct sl_group_by].
  pose proof (bind_tables_ok _ _ _ _ _ (scope_nested_ok _ Hok) Hfrom) as Hscope.
  destruct (projection_typed _ _ _ _ _ Hw Hscope Hproj) as [Hitems Hal].
  exists scope. split; [done|]. split; [done|]. split; [|split].
  - intros e ->. destruct (sl_selection s) as [e0|]; [|done]. cbn [normalize_selection] in Hsel. apply exec_bind_ok in Hsel as (e1 & He & Hsel).
    apply exec_bind_ok in Hsel as (ty & Hty & Hb). destruct (boolean_like ty) eqn:Hbl; [|done]. injection Hb as <-.
    split; [by eapply normalize_expr_scoped, He; [..|apply no_aliases_scoped]|]. destruct ty; try done; auto.
  - intros exprs ->. destruct (sl_distinct s) as [[|es]|]; try done. apply exec_bind_ok in Hdist as (es' & He & [= <-]). by eapply keys_scoped.
  - intros exprs modifiers ->. destruct (sl_group_by s) as [es m|]; try done. apply exec_bind_ok in Hgb as (es' & He & [= <- <-]). by eapply keys_scoped.
Qed.

End Names.

(** ** Registration *)

Section Registration.
Context `{SqlSyntax} `{EvalRuntime} `{PetGraph MirNodeKind MirEdgeKind}.
Context (data_type_text : DataType -> text).

(** The statement that registration checks: the template with a dummy value for each parameter. *)
Definition checked_statement (p : PreparedQuery) (q : Query) : Prop := exists rendered, bound_with p (dummies (pq_params p)) rendered q.

Lemma bound_with_same p p' params rendered q : pq_params p = pq_params p' -> pq_name p = pq_name p' -> pq_statement p = pq_statement p' ->
  bound_with p params rendered q -> bound_with p' params rendered q.
Proof. intros Hp Hn Hs [Hk Hb Ho Hq Hv Hf]. split; rewrite <- ?Hp, <- ?Hn, <- ?Hs; done. Qed.

Lemma unsupported_ok {A} name (m : exec SqlError A) a : unsupported name m = Ok a -> m = Ok a.
Proof. by destruct m; intros [= ->]. Qed.

(** What registration against a catalog has checked. *)
Lemma prepare_checked limits name sql cardinality decls catalog p :
  prepare_query data_type_text limits name sql cardinality decls (Some catalog) = Ok p ->
  exists q st, checked_statement p q /\ parse_single_query (query_text q) limits = Ok st /\
    validate_statement_against_catalog st catalog = Ok tt /\ query_reads q = query_reads (pq_statement p).
Proof.
  unfold prepare_query. intros (? & _ & Hp)%exec_bind_ok. apply exec_bind_ok in Hp as (q0 & _ & Hp). apply exec_bind_ok in Hp as ([q named] & _ & Hp).
  apply exec_bind_ok in Hp as (occurrences & _ & Hp). apply exec_bind_ok in Hp as (params & Hparams%resolve_params_ok & Hp).
  apply exec_bind_ok in Hp as (bound & Hb & Hp). destruct (bind_prepared _ _ _) as [bound'| |] eqn:Hbind; [injection Hb as ->|done..].
  apply bind_prepared_ok in Hbind as (rendered & q' & Hw & Hsql & _ & _ & Hreads); [|exact Hparams].
  destruct (collect_tables (bq_graph bound)) as [tables leaky].
  apply exec_bind_ok in Hp as ([] & (st & Hst%unsupported_ok & Hval%unsupported_ok)%exec_bind_ok & [= <-]). rewrite Hsql in Hst.
  exists q', st. split; [|done]. exists rendered. by eapply bound_with_same, Hw.
Qed.

(** C10: A query registered against a catalog reads only tables of the catalog. For any registry
    that registration calls build: when a template is registered with a catalog, its statement with
    dummy values has no WITH clause below the top and no name that renders otherwise than its parts
    joined by dots, and its text parses back to it, then whatever values are bound later, every base
    table of the bound graph is in the catalog, through joins, EXISTS, derived tables, CTEs and
    recursive CTEs. *)
Theorem registered_tables_known (r r' : QueryRegistry) (name sql : text) (cardinality : PreparedCardinality) (decls : option (list ParamDecl))
    (catalog : SqlCatalog) (p : PreparedQuery) (params : gmap string ParamValue) (b : BoundQuery) :
  registered data_type_text r ->
  register_full data_type_text r name sql cardinality decls (Some catalog) = Ok r' -> query_get r' name = Some p ->
  (forall q st, checked_statement p q -> parse_single_query (query_text q) (qr_limits r) = Ok st -> st = S_Query q) ->
  (forall q, checked_statement p q -> Forall plain_node (tail (query_nodes q))) ->
  registry_bind r' name params = Ok b ->
  forall t, t ∈ graph_tables (bq_graph b) -> is_Some (catalog_table catalog t).
Proof.
  intros Hr%registered_ok (Hok & _ & _ & p' & Hp & Hget)%register_full_ok Hname Hparse Hplain Hb t; [|exact Hr].
  rewrite Hget, decide_True in Hname by done. injection Hname as ->.
  unfold registry_bind in Hb. fold (query_get r' name) in Hb. rewrite Hget, decide_True in Hb by done.
  destruct (prepare_ok _ _ _ _ _ _ _ _ Hp) as (_ & _ & _ & [Hparams _ _]).
  destruct (prepare_checked _ _ _ _ _ _ _ Hp) as (q & st & Hq & Hst & Hval & Hreads).
  apply bind_prepared_ok in Hb as (rendered & q' & _ & _ & Hg & _ & Hreads'); [|exact Hparams].
  destruct (graph_plan _ _ Hg) as (plan & Hl & Ht). rewrite (graph_tables_plan _ _ Hl), Ht, Hreads', <- Hreads.
  rewrite (Hparse q st Hq Hst) in Hval. pose proof (accepted_reads_known catalog q (Hplain q Hq) Hval) as Hk.
  intros (o & -> & Hin)%list_elem_of_fmap. unfold known_tables in Hk. rewrite Forall_forall in Hk. by apply Hk.
Qed.
End Registration.
