(* ===== verification/CompileFacts.v ===== *)
(** * CompileFacts: compiled plans fit together

    The invariant of the compiler's state: every recipe matches the widths of the
    node's inputs and of its own schema. *)

From stdpp Require Import gmap.
From S2P Require Import Prelude BTree Text Values UserContext Literals Floats Datums.
From S2P Require Import Exprs Like Eval EvalFacts Mir Consolidation Operators Relational CompileMir.

Section Facts.
Context `{EvalRuntime} `{PetGraph MirNodeKind MirEdgeKind}.
Context (graph : MirGraph) (lookup : text -> option (Z * ScalarSchema)).

(** ** Inputs are sources of edges *)

Lemma single_input_source node m : single_input graph node = Ok m -> m ∈ sources graph node.
Proof.
  unfold single_input, sources. destruct (List.filter _ _) as [|e [|]] eqn:E; try done. intros [= <-].
  apply list_elem_of_fmap. exists e. split; [done|]. assert (List.In e (List.filter is_input (edge_refs (Mir.graph graph) (pg_in (Mir.graph graph) node)))) as Hin
    by (rewrite E; by left). apply filter_In in Hin as [Hin _]. by apply list_elem_of_In.
Qed.

Lemma ordered_inputs_source node m : m ∈ ordered_inputs graph node -> m ∈ sources graph node.
Proof.
  unfold ordered_inputs, sources. intros ([o s] & -> & Hin)%list_elem_of_fmap. rewrite sort_by_key_perm in Hin.
  apply filter_map_elem in Hin as (e & He & Hs). destruct (weight e); [|done]. injection Hs as _ <-.
  apply list_elem_of_fmap. eauto.
Qed.

(** ** The invariant *)

Definition width_at (st : CompileState) (n : nat) : option nat := schema_len <$> cs_node_schemas st !! n.

(** The one input, of a given width. *)
Definition reads (st : CompileState) (node w : nat) : Prop :=
  exists m, single_input graph node = Ok m /\ width_at st m = Some w.
Definition reads2 (st : CompileState) (node a b : nat) : Prop :=
  exists l r, ordered_inputs graph node = [l; r] /\ width_at st l = Some a /\ width_at st r = Some b.

Definition keys_total (f : Row -> run (list Datum)) : Prop := forall row, exists ks, f row = Ok ks.

(** A recipe of a node of width [w]. *)
Definition shape (st : CompileState) (node : nat) (recipe : NodeRecipe) (w : nat) : Prop :=
  match recipe with
  | NR_BaseTable t =>
      t ∈ cs_inputs st /\ schema_len <$> cs_input_schemas st !! t = Some w /\ is_base_table <$> node_kind graph node = Some true
  | NR_Filter p => reads st node w /\ forall row, exists b, p row = Ok b
  | NR_Project extract => (exists v, reads st node v) /\ forall row out, extract row = Ok out -> length out = w
  | NR_Join kind _ _ rw =>
      exists a, reads2 st node a rw /\ w = match kind with JK_Inner | JK_Left => (a + rw)%nat | JK_Semi | JK_Anti => a end
  | NR_Distinct => reads st node w
  | NR_Union _ | NR_SetOp _ _ => reads2 st node w w
  | NR_Aggregate ge ves funcs empty_default =>
      (exists v, reads st node v) /\ (forall row, length (ge row) + length funcs = w)%nat /\
      match empty_default with Some row => length row = w | None => True end
  | NR_TopK sort _ _ _ => reads st node w /\ keys_total sort
  | NR_DistinctOn on sort _ => reads st node w /\ keys_total on /\ keys_total sort
  | NR_Fixpoint _ _ => is_fixpoint (node_kind graph node) = true /\ exists s, reads2 st node w s
  | NR_RecursiveRef cte =>
      recursive_ref (node_kind graph node) = Some cte /\
      exists i k b, list_find (fun k => fixpoint_named cte k = true) (node_kinds graph) = Some (i, k) /\
        head (ordered_inputs graph i) = Some b /\ width_at st b = Some w
  | NR_CteRef target => target ∈ sources graph node /\ width_at st target = Some w
  end.

Record state_ok (st : CompileState) : Prop := {
  so_dom n : is_Some (cs_node_schemas st !! n) <-> is_Some (cs_recipes st !! n);
  so_shape n recipe s : cs_recipes st !! n = Some recipe -> cs_node_schemas st !! n = Some s -> shape st n recipe (schema_len s);
  so_inputs t s : cs_input_schemas st !! t = Some s -> t ∈ cs_inputs st /\ exists table, lookup table = Some (t, s)
}.

(** A node's schema, the provenance of its columns and its recipe. *)
Definition entry (st : CompileState) (n : nat) : option ScalarSchema * option (list (option text)) * option NodeRecipe :=
  (cs_node_schemas st !! n, cs_node_provenance st !! n, cs_recipes st !! n).

(** What is compiled stays as it is. *)
Record extends (st st' : CompileState) : Prop := {
  ex_entry n : is_Some (cs_recipes st !! n) -> entry st' n = entry st n;
  ex_width n w : width_at st n = Some w -> width_at st' n = Some w;
  ex_inputs t : t ∈ cs_inputs st -> t ∈ cs_inputs st';
  ex_input t s : cs_input_schemas st !! t = Some s -> cs_input_schemas st' !! t = Some s;
  ex_recipe n : is_Some (cs_recipes st !! n) -> is_Some (cs_recipes st' !! n)
}.

#[export] Instance extends_preorder : PreOrder extends.
Proof.
  split; [by intros st; split|]. intros a b c [E1 H1 H2 H3 H4] [E2 H1' H2' H3' H4']. split; eauto.
  intros n Hn. rewrite E2 by (by apply H4). by apply E1.
Qed.

Lemma shape_mono st st' n recipe w : extends st st' -> shape st n recipe w -> shape st' n recipe w.
Proof.
  intros [_ Hw Hi Hin _]. unfold shape, reads, reads2. destruct recipe; try naive_solver.
  intros (Ht & Hs & Hk). split_and!; [by apply Hi | | done]. destruct (cs_input_schemas st !! table) eqn:E; [|done]. by rewrite (Hin _ _ E).
Qed.

Lemma state_ok_empty : state_ok empty_state.
Proof. split; [intros n; simpl; rewrite !lookup_empty; split; by intros [] | intros n r s; simpl; by rewrite lookup_empty | intros t s; simpl; by rewrite lookup_empty]. Qed.

(** One node was compiled. *)
Definition added (node : nat) (st st' : CompileState) : Prop :=
  state_ok st' /\ extends st st' /\ is_Some (cs_recipes st' !! node) /\
  forall m, cs_recipes st !! m = None -> is_Some (cs_recipes st' !! m) -> m = node.

(** Recording a fresh node. *)
Lemma record_ok st node prov schema recipe :
  state_ok st -> cs_recipes st !! node = None -> shape st node recipe (schema_len schema) ->
  added node st (record_node st node prov schema recipe).
Proof.
  intros [Hdom Hshape Hinputs] Hnew Hs. assert (extends st (record_node st node prov schema recipe)) as Hext.
  { split; [| |done..|].
    - intros n [r Hr]. unfold entry. simpl. assert (n <> node) by congruence. by rewrite !lookup_insert_ne by done.
    - intros n w. unfold width_at. simpl. destruct (decide (n = node)) as [->|]; [|by rewrite lookup_insert_ne].
      intros (s & E & _)%fmap_Some. destruct (proj1 (Hdom node)); [by eexists | congruence].
    - intros n Hn. simpl. destruct (decide (n = node)) as [->|]; [by rewrite lookup_insert_eq | by rewrite lookup_insert_ne]. }
  unfold added. split_and!; [|done|simpl; by rewrite lookup_insert_eq |].
  2: { intros m Hm. simpl. destruct (decide (m = node)); [done|]. rewrite lookup_insert_ne, Hm by done. by intros []. }
  split.
  - intros n. simpl. destruct (decide (n = node)) as [->|]; [rewrite !lookup_insert_eq; split; eauto | by rewrite !lookup_insert_ne].
  - intros n r s. simpl. destruct (decide (n = node)) as [->|].
    + rewrite !lookup_insert_eq. intros [= <-] [= <-]. by apply (shape_mono st).
    + rewrite !lookup_insert_ne by done. intros Hr Hsc. apply (shape_mono st); [done|]. by apply Hshape.
  - done.
Qed.

(** ** Helpers of the compiler *)

Lemma node_input_ok st m what schema prov : node_input st m what = Ok (schema, prov) -> cs_node_schemas st !! m = Some schema.
Proof. intros (s & Hs & [= <- _])%exec_bind_ok. by destruct (cs_node_schemas st !! m); [injection Hs as ->|]. Qed.

Lemma ok_or_some {E A} (o : option A) (e : E) a : ok_or o e = Ok a -> o = Some a.
Proof. destruct o; [by intros [= ->] | done]. Qed.

Lemma expression_ok {A} (m : exec EvalError A) a : expression m = Ok a -> m = Ok a.
Proof. destruct m; simpl; [by intros [= ->] | done | done]. Qed.

Lemma two_inputs_ok node what l r : two_inputs graph node what = Ok (l, r) -> ordered_inputs graph node = [l; r].
Proof. unfold two_inputs. destruct (ordered_inputs graph node) as [|? [|? [|]]]; try done. by intros [= -> ->]. Qed.

Lemma compile_predicate_total sql schema p : compile_predicate sql schema = Ok p -> forall row, exists b, p row = Ok b.
Proof.
  intros (f & Hf & [= <-])%exec_bind_ok row. apply exec_bind_ok in Hf as (e & _ & Hf).
  destruct (compile_inner_returns schema e f Hf row) as (d & ->). simpl. eauto.
Qed.

Lemma key_extractor_total entry schema prov f : compile_key_extractor entry schema prov = Ok f -> returns f.
Proof.
  unfold compile_key_extractor. cbv zeta. destruct (or_else _ _); [intros [= <-] row; eauto|].
  intros (e & _ & Hf)%expression_ok%exec_bind_ok. by eapply compile_inner_returns.
Qed.

Lemma key_extractors_total {A} (text_of : A -> text) entries schema prov fs :
  exec_mapM (fun e => compile_key_extractor (text_of e) schema prov) entries = Ok fs -> keys_total (combine_key_extractors fs).
Proof.
  intros Hfs%exec_mapM_ok row. apply mapM_returns. induction Hfs as [|e f es fs Hf _ IH]; constructor; [by eapply key_extractor_total | done].
Qed.

Lemma exec_mapM_length {E A B} (f : A -> exec E B) l bs : exec_mapM f l = Ok bs -> length bs = length l.
Proof. intros Hb%exec_mapM_ok. symmetry. by eapply Forall2_length. Qed.

Lemma schema_len_from_pairs ps : schema_len (from_pairs ps) = length ps.
Proof. done. Qed.

(** ** Every node compiles to a recipe that fits *)

(** Compiling a fresh node keeps the invariant. *)
Definition step_ok (node : nat) (compile : CompileState -> exec CompileError CompileState) : Prop :=
  forall st st', state_ok st -> cs_recipes st !! node = None -> compile st = Ok st' -> added node st st'.

Lemma width_at_some st n s : cs_node_schemas st !! n = Some s -> width_at st n = Some (schema_len s).
Proof. intros E. unfold width_at. by rewrite E. Qed.

(** A node with one input. *)
Lemma unary_ok node what
    (k : ScalarSchema -> list (option text) -> CompileState -> exec CompileError CompileState) :
  (forall schema prov st, state_ok st -> cs_recipes st !! node = None -> reads st node (schema_len schema) ->
     forall st', k schema prov st = Ok st' -> added node st st') ->
  step_ok node (fun st =>
    let? input_node := single_input graph node in
    let? (schema, prov) := node_input st input_node what in k schema prov st).
Proof.
  intros Hk st st' Hst Hnew (m & Hm & Hst')%exec_bind_ok. apply exec_bind_ok in Hst' as ([schema prov] & Hin & Hst').
  apply node_input_ok in Hin. eapply Hk; [done | done | | done]. exists m. split; [done | by apply width_at_some].
Qed.

Lemma filter_ok node predicate : step_ok node (compile_filter graph node predicate).
Proof.
  apply unary_ok. intros schema prov st Hst Hnew Hr st' (p & Hp%expression_ok & [= <-])%exec_bind_ok.
  apply record_ok; [done..|]. split; [done | by eapply compile_predicate_total].
Qed.

Lemma distinct_ok node : step_ok node (compile_distinct graph node).
Proof. apply unary_ok. intros schema prov st Hst Hnew Hr st' [= <-]. by apply record_ok. Qed.

Lemma topk_ok node order_by limit offset : step_ok node (compile_topk graph node order_by limit offset).
Proof.
  apply unary_ok. intros schema prov st Hst Hnew Hr st' (fs & Hfs & [= <-])%exec_bind_ok.
  apply record_ok; [done..|]. split; [done | by eapply key_extractors_total].
Qed.

Lemma distinct_on_ok node on order_by : step_ok node (compile_distinct_on graph node on order_by).
Proof.
  apply unary_ok. intros schema prov st Hst Hnew Hr st' (fs & Hfs & Hst')%exec_bind_ok.
  apply exec_bind_ok in Hst' as (gs & Hgs & [= <-]). apply record_ok; [done..|].
  split_and!; [done | by eapply (key_extractors_total id) | by eapply key_extractors_total].
Qed.

Lemma project_ok node columns : step_ok node (compile_project graph node columns).
Proof.
  apply unary_ok. intros schema prov st Hst Hnew Hr st' (outs & _ & [= <-])%exec_bind_ok.
  apply record_ok; [done..|]. split; [eauto|]. intros row out Hout.
  rewrite (exec_mapM_length _ _ _ Hout), schema_len_from_pairs, length_map. done.
Qed.

Lemma aggregate_ok node group_by aggs : step_ok node (compile_aggregate graph node group_by aggs).
Proof.
  apply unary_ok. intros schema prov st Hst Hnew Hr st' (grouped & Hg & Hst')%exec_bind_ok.
  apply exec_bind_ok in Hst' as (compiled & Hc & [= <-]). apply exec_mapM_length in Hg.
  apply record_ok; [done..|]. split_and!; [eauto| |].
  - intros row. unfold key_of. rewrite schema_len_from_pairs, length_app, !length_map. done.
  - destruct group_by; [|done]. destruct grouped; [|done]. by rewrite schema_len_from_pairs, length_app, !length_map.
Qed.

Lemma join_ok node kind on : step_ok node (compile_join graph node kind on).
Proof.
  intros st st' Hst Hnew ([l r] & Hin%two_inputs_ok & Hst')%exec_bind_ok.
  apply exec_bind_ok in Hst' as (ls & Hls%ok_or_some & Hst'). apply exec_bind_ok in Hst' as ([rs rp] & Hrs%node_input_ok & Hst').
  apply exec_bind_ok in Hst' as ([? lp] & _ & Hst'). apply exec_bind_ok in Hst' as (keys & _ & Hst').
  destruct kind; injection Hst' as <-; (apply record_ok; [done..|]); exists (schema_len ls);
    (split; [exists l, r; split_and!; [done | by apply width_at_some..] |]); try done;
    by rewrite schema_len_from_pairs, length_app.
Qed.

Lemma branches_ok node recipe :
  match recipe with NR_Union _ | NR_SetOp _ _ => True | _ => False end -> step_ok node (compile_branches graph node recipe).
Proof.
  intros Hr st st' Hst Hnew ([l r] & Hin%two_inputs_ok & Hst')%exec_bind_ok.
  apply exec_bind_ok in Hst' as (ls & Hls%ok_or_some & Hst'). apply exec_bind_ok in Hst' as (rs & Hrs%ok_or_some & Hst').
  destruct (Nat.eqb_spec (schema_len ls) (schema_len rs)) as [E|]; [|done]. injection Hst' as <-. apply record_ok; [done..|].
  assert (reads2 st node (schema_len ls) (schema_len ls)) as Hreads.
  { exists l, r. split_and!; [done | by apply width_at_some |]. rewrite E. by apply width_at_some. }
  by destruct recipe.
Qed.

Lemma fixpoint_ok node cte union_all st st' :
  node_kind graph node = Some (Fixpoint_ cte union_all) -> state_ok st -> cs_recipes st !! node = None -> (forall n, n ∈ sources graph node -> is_Some (cs_recipes st !! n)) ->
  compile_fixpoint graph node cte union_all st = Ok st' -> added node st st'.
Proof.
  intros Hkind Hst Hnew Hsrc ([b s] & Hin%two_inputs_ok & Hst')%exec_bind_ok. destruct (fixpoint_step_partition graph s) as [top nested].
  destruct (existsb _ _); [done|]. apply exec_bind_ok in Hst' as (? & _ & Hst'). apply exec_bind_ok in Hst' as (bs & Hbs%ok_or_some & [= <-]).
  apply record_ok; [done..|]. destruct (Hsrc s) as [rs Hrs]; [apply ordered_inputs_source; rewrite Hin; set_solver|].
  destruct (proj2 (so_dom _ Hst s)) as [ss Hss]; [by eexists|]. split; [by rewrite Hkind|]. exists (schema_len ss), b, s.
  split_and!; [done | by apply width_at_some..].
Qed.

Lemma cte_ref_ok node cte : step_ok node (compile_cte_ref graph node cte).
Proof.
  intros st st' Hst Hnew (t & Ht%ok_or_some & Hst')%exec_bind_ok. apply exec_bind_ok in Hst' as (s & Hs%ok_or_some & [= <-]).
  apply record_ok; [done..|]. apply fmap_Some in Ht as ([i e] & Hf & ->). apply list_find_Some in Hf as (Hi & _).
  split; [|by apply width_at_some]. apply list_elem_of_fmap. exists e. split; [done|]. by eapply list_elem_of_lookup_2.
Qed.

(** A table id stands for one schema. *)
Hypothesis lookup_functional : forall a b t s s', lookup a = Some (t, s) -> lookup b = Some (t, s') -> s = s'.

Lemma base_table_ok node table :
  node_kind graph node = Some (BaseTable table []) -> step_ok node (compile_base_table lookup node table []).
Proof.
  intros Hk st st' Hst Hnew ([t full] & Ht%ok_or_some & Hst')%exec_bind_ok. apply exec_bind_ok in Hst' as (s & [= <-] & [= <-]).
  destruct (cs_input_schemas st !! t) as [s|] eqn:E.
  - apply record_ok; [done..|]. destruct (so_inputs _ Hst _ _ E) as (Hin & tb & Htb).
    rewrite (lookup_functional _ _ _ _ _ Htb Ht) in E. split_and!; [done | by rewrite E | by rewrite Hk].
  - set (st1 := Build_CompileState _ _ _ _ _). assert (extends st st1) as Hext.
    { split; simpl; [done | done | set_solver | | done]. intros t' s'. destruct (decide (t' = t)) as [->|]; [congruence | by rewrite lookup_insert_ne]. }
    assert (state_ok st1) as Hst1.
    { destruct Hst as [Hdom Hshape Hin]. split; [done| |].
      - intros n r s Hr Hs. apply (shape_mono st); [done | by apply Hshape].
      - intros t' s'. simpl. destruct (decide (t' = t)) as [->|].
        + rewrite lookup_insert_eq. intros [= <-]. split; [set_solver | eauto].
        + rewrite lookup_insert_ne by done. intros [? ?]%Hin. split; [set_solver | done]. }
    destruct (record_ok st1 node (replicate (schema_len full) (Some table)) full (NR_BaseTable t) Hst1 Hnew) as (H1 & H2 & H3 & H4).
    { split_and!; simpl; [set_solver | by rewrite lookup_insert_eq | by rewrite Hk]. }
    split_and!; [done | by transitivity st1 | done | done].
Qed.

(** ** The walk *)

Hypothesis projects_empty : forall n table project, node_kind graph n = Some (BaseTable table project) -> project = [].

(** Demands descend. *)
Context (rank : nat -> nat).
Hypothesis rank_edges : forall n m, m ∈ sources graph n -> (rank m < rank n)%nat.
Hypothesis rank_refs : forall n cte i k b, node_kind graph n = Some (RecursiveRef cte) ->
  list_find (fun k => fixpoint_named cte k = true) (node_kinds graph) = Some (i, k) ->
  head (ordered_inputs graph i) = Some b -> (rank b < rank n)%nat.

(** Compiling [n] adds nodes of rank at most [n]'s, [n] among them. *)
Definition demand_ok (ensure : nat -> CompileState -> exec CompileError CompileState) (n : nat) : Prop :=
  forall st st', state_ok st -> ensure n st = Ok st' ->
  state_ok st' /\ extends st st' /\ is_Some (cs_recipes st' !! n) /\
  forall m, cs_recipes st !! m = None -> is_Some (cs_recipes st' !! m) -> (rank m <= rank n)%nat.

Lemma ensure_all_ok ensure bound nodes st st' :
  (forall n, n ∈ nodes -> (rank n < bound)%nat) -> (forall n, n ∈ nodes -> demand_ok ensure n) ->
  state_ok st -> ensure_all ensure nodes st = Ok st' ->
  state_ok st' /\ extends st st' /\ (forall n, n ∈ nodes -> is_Some (cs_recipes st' !! n)) /\
  forall m, cs_recipes st !! m = None -> is_Some (cs_recipes st' !! m) -> (rank m < bound)%nat.
Proof.
  revert st. induction nodes as [|n nodes IH]; intros st Hb He Hst; simpl.
  - intros [= <-]. split_and!; [done | done | by intros n ?%elem_of_nil |]. intros m -> []. done.
  - intros (st1 & H1 & H2)%exec_bind_ok. destruct (He n ltac:(by constructor) st st1 Hst H1) as (Hst1 & Hext1 & Hn & Hr1).
    destruct (IH st1) as (Hst' & Hext & Hall & Hr); [intros m Hm; apply Hb; by constructor | intros m Hm; apply He; by constructor | done | done|].
    split_and!; [done | by transitivity st1 | |].
    + intros m [->|Hm]%elem_of_cons; [by apply (ex_recipe _ _ Hext) | by apply Hall].
    + intros m Hm Hm'. destruct (cs_recipes st1 !! m) as [r|] eqn:E; [|by apply Hr].
      assert (rank m <= rank n)%nat by (apply Hr1; [done | by eexists]). specialize (Hb n ltac:(by constructor)). lia.
Qed.

Lemma recursive_ref_ok ensure n cte st st' :
  node_kind graph n = Some (RecursiveRef cte) -> (forall m, (rank m < rank n)%nat -> demand_ok ensure m) ->
  state_ok st -> cs_recipes st !! n = None -> compile_recursive_ref ensure graph n cte st = Ok st' ->
  state_ok st' /\ extends st st' /\ is_Some (cs_recipes st' !! n) /\
  forall m, cs_recipes st !! m = None -> is_Some (cs_recipes st' !! m) -> (rank m <= rank n)%nat.
Proof.
  intros Hkind He Hst Hnew ([i k] & Hf%ok_or_some & Hst')%exec_bind_ok. apply exec_bind_ok in Hst' as (b & Hb%ok_or_some & Hst').
  apply exec_bind_ok in Hst' as (st1 & H1 & Hst'). apply exec_bind_ok in Hst' as (s & Hs%ok_or_some & [= <-]).
  assert (rank b < rank n)%nat as Hlt by (by eapply rank_refs). destruct (He b Hlt st st1 Hst H1) as (Hst1 & Hext1 & _ & Hr).
  assert (cs_recipes st1 !! n = None) as Hnew1.
  { destruct (cs_recipes st1 !! n) eqn:E; [|done]. assert (rank n <= rank b)%nat by (apply Hr; [done | by eexists]). lia. }
  destruct (record_ok st1 n (replicate (schema_len s) (Some cte)) s (NR_RecursiveRef cte) Hst1 Hnew1) as (H2 & H3 & H4 & H5).
  { split; [by rewrite Hkind|]. exists i, k, b. split_and!; [done | done | by apply width_at_some]. }
  split_and!; [done | by transitivity st1 | done |]. intros m Hm Hm'.
  destruct (cs_recipes st1 !! m) as [r|] eqn:E; [|by rewrite (H5 m E Hm')].
  assert (rank m <= rank b)%nat by (apply Hr; [done | by eexists]). lia.
Qed.

(** Compiling a node of any other kind adds that node only. *)
Lemma compile_node_added ensure n st st' :
  recursive_ref (node_kind graph n) = None ->
  state_ok st -> cs_recipes st !! n = None -> (forall m, m ∈ sources graph n -> is_Some (cs_recipes st !! m)) ->
  compile_node lookup ensure graph n st = Ok st' -> added n st st'.
Proof.
  intros Hrec Hst Hnew Hsrc. unfold compile_node. destruct (node_kind graph n) as [kind|] eqn:Hk; [|done].
  destruct kind; intros Hc; try done.
  - pose proof (projects_empty _ _ _ Hk) as ->. by eapply base_table_ok.
  - by eapply filter_ok.
  - by eapply project_ok.
  - by eapply join_ok.
  - by eapply aggregate_ok.
  - by eapply distinct_ok.
  - by eapply distinct_on_ok.
  - by eapply (branches_ok n (NR_Union (is_all quantifier))).
  - by eapply (branches_ok n (NR_SetOp false (is_all quantifier))).
  - by eapply (branches_ok n (NR_SetOp true (is_all quantifier))).
  - by eapply topk_ok.
  - by eapply cte_ref_ok.
  - by eapply fixpoint_ok.
Qed.

Lemma compile_node_ok ensure n st st' :
  (forall m, (rank m < rank n)%nat -> demand_ok ensure m) ->
  state_ok st -> cs_recipes st !! n = None -> (forall m, m ∈ sources graph n -> is_Some (cs_recipes st !! m)) ->
  compile_node lookup ensure graph n st = Ok st' ->
  state_ok st' /\ extends st st' /\ is_Some (cs_recipes st' !! n) /\
  forall m, cs_recipes st !! m = None -> is_Some (cs_recipes st' !! m) -> (rank m <= rank n)%nat.
Proof.
  intros He Hst Hnew Hsrc Hc. destruct (recursive_ref (node_kind graph n)) as [cte|] eqn:Hrec.
  - destruct (node_kind graph n) as [[]|] eqn:Hk; try done. injection Hrec as ->. unfold compile_node in Hc. rewrite Hk in Hc.
    by apply (recursive_ref_ok ensure n cte st).
  - destruct (compile_node_added ensure n st st' Hrec Hst Hnew Hsrc Hc) as (? & ? & ? & Hm). split_and!; [done..|].
    intros m Hm1 Hm2. by rewrite (Hm m Hm1 Hm2).
Qed.

Lemma ensure_compiled_ok fuel n : demand_ok (ensure_compiled lookup graph fuel) n.
Proof.
  revert n. induction fuel as [|fuel IH]; intros n st st' Hst; simpl; [done|].
  destruct (cs_recipes st !! n) as [r|] eqn:E.
  { intros [= <-]. split_and!; [done | done | by eexists |]. intros m -> []. done. }
  intros (st1 & H1 & H2)%exec_bind_ok.
  destruct (ensure_all_ok (ensure_compiled lookup graph fuel) (rank n) (sources graph n) st st1) as (Hst1 & Hext1 & Hall & Hr1);
    [by apply rank_edges | by intros; apply IH | done | done|].
  assert (cs_recipes st1 !! n = None) as Hnew.
  { destruct (cs_recipes st1 !! n) eqn:E1; [|done]. assert (rank n < rank n)%nat by (apply Hr1; [done | by eexists]). lia. }
  destruct (compile_node_ok (ensure_compiled lookup graph fuel) n st1 st') as (Hst' & Hext & Hn & Hr); [by intros; apply IH | done..|].
  split_and!; [done | by transitivity st1 | done |]. intros m Hm Hm'.
  destruct (cs_recipes st1 !! m) eqn:E1; [|by apply Hr]. assert (rank m < rank n)%nat by (apply Hr1; [done | by eexists]). lia.
Qed.

(** Each node's entry is what [compile_node] makes of its inputs' entries. *)
Definition explained (st : CompileState) : Prop :=
  forall n, is_Some (cs_recipes st !! n) -> exists ensure st0 st1,
    compile_node lookup ensure graph n st0 = Ok st1 /\ entry st1 n = entry st n /\
    forall m, m ∈ sources graph n -> is_Some (cs_recipes st !! m) /\ entry st0 m = entry st m.

Lemma explained_empty : explained empty_state.
Proof. intros n. simpl. rewrite lookup_empty. by intros []. Qed.

Lemma explained_added ensure n st st' :
  explained st -> added n st st' -> (forall m, m ∈ sources graph n -> is_Some (cs_recipes st !! m)) ->
  compile_node lookup ensure graph n st = Ok st' -> explained st'.
Proof.
  intros He (Hst' & Hext & Hn & Honly) Hsrc Hc m Hm. destruct (cs_recipes st !! m) as [r|] eqn:E.
  - destruct (He m) as (ens & st0 & st1 & Hc1 & H1 & H2); [by eexists|]. exists ens, st0, st1. split_and!; [done | |].
    + by rewrite H1, (ex_entry _ _ Hext) by (by eexists).
    + intros k Hk. destruct (H2 k Hk) as [Hr ->]. split; [by apply (ex_recipe _ _ Hext)|]. by rewrite (ex_entry _ _ Hext).
  - rewrite (Honly m E Hm) in *. exists ensure, st, st'. split_and!; [done..|].
    intros k Hk%Hsrc. split; [by apply (ex_recipe _ _ Hext)|]. by rewrite (ex_entry _ _ Hext).
Qed.

Section Explained.
Hypothesis no_refs : forall n, recursive_ref (node_kind graph n) = None.

(** Demands keep the state explained. *)
Definition demand_explained (ensure : nat -> CompileState -> exec CompileError CompileState) : Prop :=
  forall n st st', state_ok st -> explained st -> ensure n st = Ok st' -> explained st'.

Lemma ensure_all_explained ensure nodes st st' :
  (forall n, demand_ok ensure n) -> demand_explained ensure ->
  state_ok st -> explained st -> ensure_all ensure nodes st = Ok st' -> explained st'.
Proof.
  intros Hd He. revert st. induction nodes as [|n nodes IH]; intros st Hst Hex; simpl; [by intros [= <-]|].
  intros (st1 & H1 & H2)%exec_bind_ok. destruct (Hd n st st1 Hst H1) as (Hst1 & _). exact (IH st1 Hst1 (He n st st1 Hst Hex H1) H2).
Qed.

Lemma ensure_compiled_explained fuel : demand_explained (ensure_compiled lookup graph fuel).
Proof.
  induction fuel as [|fuel IH]; intros n st st' Hst Hex; simpl; [done|]. destruct (cs_recipes st !! n) as [r|] eqn:E; [by intros [= <-]|].
  intros (st1 & H1 & H2)%exec_bind_ok.
  destruct (ensure_all_ok (ensure_compiled lookup graph fuel) (rank n) (sources graph n) st st1) as (Hst1 & Hext1 & Hall & Hr1);
    [by apply rank_edges | by intros; apply ensure_compiled_ok | done | done|].
  assert (explained st1) as Hex1 by (eapply ensure_all_explained; [intros; apply ensure_compiled_ok | exact IH | exact Hst | exact Hex | exact H1]).
  assert (cs_recipes st1 !! n = None) as Hnew.
  { destruct (cs_recipes st1 !! n) eqn:E1; [|done]. assert (rank n < rank n)%nat by (apply Hr1; [done | by eexists]). lia. }
  eapply explained_added; [done | by eapply compile_node_added | done | done].
Qed.
End Explained.

(** The final state: every node has a recipe, and all of them fit. *)
Lemma compile_mir_ok acyclic plan :
  compile_mir acyclic lookup graph = Ok plan ->
  exists st, state_ok st /\ (forall n, (n < node_count graph)%nat -> is_Some (cs_recipes st !! n)) /\
    ((forall n, recursive_ref (node_kind graph n) = None) -> explained st) /\
    plan = {| cp_graph := graph; cp_root := root graph; cp_inputs := cs_inputs st; cp_input_schemas := cs_input_schemas st;
              cp_output_schema := default schema_default (cs_node_schemas st !! root graph);
              cp_node_schemas := cs_node_schemas st; cp_recipes := cs_recipes st |}.
Proof.
  unfold compile_mir. destruct (acyclic graph); [|done]. simpl. intros (st & Hst & [= <-])%exec_bind_ok.
  set (bound := S (fold_right (fun n acc => rank n + acc)%nat 0%nat (seq 0 (node_count graph)))).
  destruct (ensure_all_ok (ensure_compiled lookup graph (S (node_count graph))) bound (seq 0 (node_count graph)) empty_state st)
    as (Hok & _ & Hall & _).
  - intros n Hn. unfold bound. clear -Hn. induction (seq 0 _) as [|x l IH]; [by apply elem_of_nil in Hn|].
    simpl. apply elem_of_cons in Hn as [->|Hn]; [lia|]. specialize (IH Hn). lia.
  - intros. apply ensure_compiled_ok.
  - apply state_ok_empty.
  - done.
  - exists st. split_and!; [done| | |done]; [intros n Hn; apply Hall, elem_of_seq; lia|]. intros Hrefs.
    eapply (ensure_all_explained (ensure_compiled lookup graph (S (node_count graph))));
      [intros; apply ensure_compiled_ok | by apply ensure_compiled_explained | apply state_ok_empty | apply explained_empty | exact Hst].
Qed.
End Facts.
