(* ===== verification/Install.v ===== *)
(** * Install: what an installed plan computes
    ([install_plan] of [crates/palimpsest-dataflow/src/palimpsest/compile_mir.rs])

    Installing wires an operator per node; here each node yields the accumulated
    collection it holds at one time, given those of the base tables. A closure that
    panics, a missing input and an unreachable arm are panics. A recursive query is
    iterated for a number of rounds; [Diverges] says it had not settled by then. *)

From stdpp Require Import gmap.
From S2P Require Import Prelude BTree Text Values UserContext Literals Floats Datums Exprs Like Eval Mir Consolidation Operators Relational CompileMir.

Inductive Stop := Diverges.
Definition installed (A : Type) : Type := exec Stop A.

(** A closure's outcome inside the dataflow. *)
Definition of_run {A} (m : run A) : installed A :=
  match m with Ok a => Ok a | Err e => match e with end | Panic => Panic end.

(** [input.map(closure)] and [input.filter(closure)] for closures that may panic. *)
Definition project_run {A B} (input : collection A) (projection : A -> run B) : installed (collection B) :=
  exec_mapM (fun p => let? b := of_run (projection p.1) in Ok (b, p.2)) input.
Definition filter_run {A} (input : collection A) (predicate : A -> run bool) : installed (collection A) :=
  exec_map (fun l => map snd (List.filter fst l))
    (exec_mapM (fun p => let? b := of_run (predicate p.1) in Ok (b : bool, p)) input).

(** ** Operators *)

(** The loop of [sort_key_comparator], then the row's own order. *)
Fixpoint compare_keys (descending : list bool) (index : nat) (a b : list Datum) : comparison :=
  match descending with
  | [] => Eq
  | desc :: rest =>
      let ordering := compare_datums_sort (default D_Null (a !! index)) (default D_Null (b !! index)) in
      match (if desc then CompOpp ordering else ordering) with
      | Eq => compare_keys rest (S index) a b
      | c => c
      end
  end.
Definition sort_key_comparator (descending : list bool) (a b : list Datum * Row) : comparison :=
  match compare_keys descending 0 a.1 b.1 with Eq => cmp a.2 b.2 | c => c end.

Definition null_free (key : list Datum) : bool := negb (existsb is_null key).

Definition install_join (kind : JoinKind) (left_keys right_keys : list nat) (right_width : nat) (l r : collection Row)
  : collection Row :=
  let left_keyed := rel_project l (fun row => (key_of row left_keys, row)) in
  let right_keyed := rel_project r (fun row => (key_of row right_keys, row)) in
  let right_keyed := rel_filter right_keyed (fun p => null_free p.1) in
  match kind with
  | JK_Inner => equi_join left_keyed right_keyed (fun _ left_row right_row => left_row ++ right_row)
  | JK_Left =>
      left_join left_keyed right_keyed (fun _ left_row right_row =>
        left_row ++ match right_row with Some row => row | None => replicate right_width D_Null end)
  | JK_Semi | JK_Anti =>
      let right_keys_distinct := rel_distinct (rel_project right_keyed fst) in
      rel_project (match kind with JK_Semi => semijoin left_keyed right_keys_distinct | _ => antijoin left_keyed right_keys_distinct end) snd
  end.

Definition set_op_combine (intersect all : bool) (l r : Z) : Z :=
  match intersect, all with
  | false, false => indicator ((0 <? l) && (r <=? 0))
  | false, true => Z.max (l - r) 0
  | true, false => indicator ((0 <? l) && (0 <? r))
  | true, true => Z.max (Z.min l r) 0
  end.

Definition install_aggregate (group_extract : Row -> list Datum) (value_extracts : list ScalarFn) (funcs : list DatumAggregate)
    (empty_default : option Row) (input : collection Row) : installed (collection Row) :=
  let? keyed := project_run input (fun row =>
    let? values := exec_mapM (fun ve => ve row) value_extracts in Ok (group_extract row, values)) in
  let result := rel_project (aggregate_datums keyed funcs) (fun p => p.1 ++ p.2) in
  Ok match empty_default with
     | Some default_row =>
         let present := rel_distinct (rel_project keyed fst) in
         let missing := antijoin (rel_project [([] : list Datum, 1)] (fun key => (key, tt))) present in
         coll_concat result (rel_project missing (fun _ => default_row))
     | None => result
     end.

(** [ins[i]] panics when there is no such input. *)
Definition install_op (recipe : NodeRecipe) (ins : list (collection Row)) : installed (collection Row) :=
  match recipe, ins with
  | NR_Filter predicate, input :: _ => filter_run input predicate
  | NR_Project extract, input :: _ => project_run input extract
  | NR_Aggregate ge ves funcs empty_default, input :: _ => install_aggregate ge ves funcs empty_default input
  | NR_TopK sort_extract descending limit offset, input :: _ =>
      let? with_key := project_run input (fun row => let? k := sort_extract row in Ok (k, row)) in
      Ok (rel_project (topk_by with_key (sort_key_comparator descending) limit offset) snd)
  | NR_DistinctOn on_extract sort_extract descending, input :: _ =>
      let? keyed := project_run input (fun row =>
        let? on := on_extract row in let? sort := sort_extract row in Ok (on, (sort, row))) in
      Ok (rel_project (distinct_on_first keyed (sort_key_comparator descending)) snd)
  | NR_Join kind left_keys right_keys right_width, l :: r :: _ => Ok (install_join kind left_keys right_keys right_width l r)
  | NR_Distinct, input :: _ => Ok (rel_distinct input)
  | NR_Union all, l :: r :: _ => Ok (if all then rel_union l r else union_distinct l r)
  | NR_SetOp intersect all, l :: r :: _ => Ok (bag_set_op l r (set_op_combine intersect all))
  | _, _ => Panic
  end.

(** ** Iteration ([operators/iterate.rs]) *)

(** Rounds of [f] until a round changes nothing. The source iterates without a bound; [rounds] makes the
    definition total, and running out of it, [Err Diverges], is neither a result nor an error of the source.
    Theorems about recursive plans hold for every bound that is large enough, and
    [Congruence.recursion_least_fixpoint] says which are. *)
Fixpoint iterate_until {A} (rounds : nat) (same : A -> A -> bool) (f : A -> installed A) (x : A) : installed A :=
  match rounds with
  | O => Err Diverges
  | S n => let? y := f x in if same x y then Ok y else iterate_until n same f y
  end.

Definition same_collection (a b : collection Row) : bool := bool_decide (consolidated a = consolidated b).

(** [UNION ALL]: circulate the waves, accumulate them. *)
Definition wave_round (step : collection Row -> installed (collection Row)) (st : collection Row * collection Row)
  : installed (collection Row * collection Row) :=
  let '(accumulator, wave) := st in
  let? step_out := step wave in
  Ok (consolidated (coll_concat accumulator step_out), consolidated step_out).

Definition install_fixpoint (rounds : nat) (union_all : bool) (step : collection Row -> installed (collection Row))
    (base : collection Row) : installed (collection Row) :=
  if union_all then
    exec_map fst (iterate_until rounds (fun x y => same_collection x.1 y.1 && same_collection x.2 y.2) (wave_round step) (base, base))
  else
    iterate_until rounds same_collection (fun working => let? out := step working in Ok (rel_distinct (rel_union base out))) base.

(** ** The installers *)

Abbreviation cache := (gmap nat (collection Row)).

Section Install.
Context `{PetGraph MirNodeKind MirEdgeKind}.
Context (plan : CompiledPlan) (inputs : gmap Z (collection Row)).

(** [inputs.into_iter().map(|i| install(i)).collect()]. *)
Fixpoint install_all (install : nat -> cache -> installed (collection Row * cache)) (nodes : list nat) (c : cache)
  : installed (list (collection Row) * cache) :=
  match nodes with
  | [] => Ok ([], c)
  | n :: rest =>
      let? (x, c) := install n c in
      let? (xs, c) := install_all install rest c in
      Ok (x :: xs, c)
  end.

(** The operators below sources and recursion, and the nodes they read. *)
Definition operator_inputs (node : nat) (recipe : NodeRecipe) : installed (list nat) :=
  match recipe with
  | NR_Join _ _ _ _ | NR_Union _ | NR_SetOp _ _ => Ok (ordered_inputs (cp_graph plan) node)
  | _ => match single_input (cp_graph plan) node with Ok n => Ok [n] | _ => Panic end
  end.

Definition install_operator (install : nat -> cache -> installed (collection Row * cache)) (node : nat) (recipe : NodeRecipe) (c : cache)
  : installed (collection Row * cache) :=
  let? nodes := operator_inputs node recipe in
  let? (ins, c) := install_all install nodes c in
  let? out := install_op recipe ins in
  Ok (out, c).

(** Inside the iteration of a fixpoint; [working] is its current collection. *)
Fixpoint install_step (fuel : nat) (working : collection Row) (node : nat) (c : cache) : installed (collection Row * cache) :=
  match fuel with
  | O => Panic
  | S fuel =>
      match c !! node with
      | Some x => Ok (x, c)
      | None =>
          let? (x, c) :=
            match cp_recipes plan !! node with
            | None => Panic
            | Some (NR_BaseTable table) => match inputs !! table with Some x => Ok (x, c) | None => Panic end
            | Some (NR_CteRef target) => install_step fuel working target c
            | Some (NR_RecursiveRef _) => Ok (working, c)
            | Some (NR_Fixpoint _ _) => Panic
            | Some recipe => install_operator (install_step fuel working) node recipe c
            end in
          Ok (x, <[node := x]> c)
      end
  end.

Context (rounds : nat).

Fixpoint install_recursive (fuel : nat) (node : nat) (c : cache) : installed (collection Row * cache) :=
  match fuel with
  | O => Panic
  | S fuel =>
      match c !! node with
      | Some x => Ok (x, c)
      | None =>
          let? (x, c) :=
            match cp_recipes plan !! node with
            | None => Panic
            | Some (NR_BaseTable table) => match inputs !! table with Some x => Ok (x, c) | None => Panic end
            | Some (NR_CteRef target) => install_recursive fuel target c
            | Some (NR_RecursiveRef _) => Panic
            | Some (NR_Fixpoint _ union_all) =>
                match ordered_inputs (cp_graph plan) node with
                | base_node :: step_node :: _ =>
                    let? (base, c) := install_recursive fuel base_node c in
                    let nested_roots := (fixpoint_step_partition (cp_graph plan) step_node).2 in
                    let? (hoisted, c) := install_all (install_recursive fuel) nested_roots c in
                    let step_cache := list_to_map (zip nested_roots hoisted) in
                    let step working := exec_map fst (install_step (S (node_count (cp_graph plan))) working step_node step_cache) in
                    let? x := install_fixpoint rounds union_all step base in
                    Ok (x, c)
                | _ => Panic
                end
            | Some recipe => install_operator (install_recursive fuel) node recipe c
            end in
          Ok (x, <[node := x]> c)
      end
  end.

Definition install_plan : installed (collection Row) :=
  exec_map fst (install_recursive (S (node_count (cp_graph plan))) (cp_root plan) ∅).
End Install.
