(* ===== verification/InstallFacts.v ===== *)
(** * InstallFacts: installed plans

    Records of an operator's output come from records of its inputs, so every
    collection of an accepted plan has rows of the advertised width, and installing
    the plan reaches no panic. *)

From stdpp Require Import gmap.
From S2P Require Import Prelude BTree Text Values UserContext Literals Floats Datums Exprs Like.
From S2P Require Import Eval EvalFacts Mir Consolidation Operators Relational RelationalFacts CompileMir CompileFacts Install.

(** ** Where records come from *)

Definition coll_forall {D} (P : D -> Prop) (c : collection D) : Prop := Forall (fun p => P p.1) c.

Lemma coll_forall_elem {D} (P : D -> Prop) c d w : coll_forall P c -> (d, w) ∈ c -> P d.
Proof. unfold coll_forall. rewrite Forall_forall. intros Hc Hin. exact (Hc _ Hin). Qed.

Section Provenance.
Context {D : Type}.

Lemma forall_concat (P : D -> Prop) a b : coll_forall P a -> coll_forall P b -> coll_forall P (coll_concat a b).
Proof. intros. by apply Forall_app. Qed.
Lemma forall_map {D'} (P : D -> Prop) (Q : D' -> Prop) (f : D -> D') c :
  coll_forall P c -> (forall d, P d -> Q (f d)) -> coll_forall Q (coll_map f c).
Proof. intros Hc Hf. apply Forall_map. eapply Forall_impl; [exact Hc|]. intros p. apply Hf. Qed.
Lemma forall_filter (P : D -> Prop) f c : coll_forall P c -> coll_forall P (coll_filter f c).
Proof.
  intros Hc. apply Forall_forall. intros [d w] Hin. apply list_elem_of_In, filter_In in Hin as [Hin _].
  by eapply coll_forall_elem, list_elem_of_In, Hin.
Qed.
Lemma forall_negate (P : D -> Prop) c : coll_forall P c -> coll_forall P (coll_negate c).
Proof. intros Hc. by apply Forall_map. Qed.

Lemma forall_flat_map {A} (P : D -> Prop) (f : A -> collection D) l :
  (forall a, a ∈ l -> coll_forall P (f a)) -> coll_forall P (flat_map f l).
Proof.
  induction l as [|a l IH]; intros Hf; [constructor|]. simpl. apply Forall_app. split; [apply Hf; by constructor|].
  apply IH. intros b Hb. apply Hf. by constructor.
Qed.

Lemma consolidated_from `{Ord D} (P : D -> Prop) c : coll_forall P c -> coll_forall P (consolidated c).
Proof.
  intros Hc. apply Forall_forall. intros [d w] [-> Hne]%consolidated_elem. simpl.
  induction Hc as [|[x v] c Hx _ IH]; [done|]. unfold mult in *. simpl in *.
  destruct (ord_eqb_spec x d) as [->|]; [done|]. apply IH. simpl in Hne. lia.
Qed.
End Provenance.

Section Keyed.
Context {K V : Type} `{Ord K}.

Lemma forall_join {V2 D} (P : K * V -> Prop) (Q : K * V2 -> Prop) (R : D -> Prop) (f : K -> V -> V2 -> D) a b :
  coll_forall P a -> coll_forall Q b -> (forall k v v2, P (k, v) -> Q (k, v2) -> R (f k v v2)) -> coll_forall R (join_map f a b).
Proof.
  intros Ha Hb Hf. apply forall_flat_map. intros [[k v] w] Hp. apply forall_flat_map. intros [[k' v2] w'] Hq. simpl.
  destruct (ord_eqb_spec k k') as [->|]; [|constructor]. repeat constructor. simpl.
  apply Hf; [by eapply coll_forall_elem, Hp | by eapply coll_forall_elem, Hq].
Qed.

Lemma forall_semijoin (P : K * V -> Prop) a keys : coll_forall P a -> coll_forall P (semijoin a keys).
Proof.
  intros Ha. apply forall_flat_map. intros [d w] Hp. apply forall_flat_map. intros q _.
  destruct (ord_eqb _ _); repeat constructor. by eapply coll_forall_elem, Hp.
Qed.

Lemma forall_antijoin (P : K * V -> Prop) a keys : coll_forall P a -> coll_forall P (antijoin a keys).
Proof. intros. apply forall_concat; [done|]. by apply forall_negate, forall_semijoin. Qed.

Lemma forall_reduce `{Ord V} {V2} (P : K * V -> Prop) (Q : K * V2 -> Prop) (logic : K -> list (V * Z) -> list (V2 * Z)) c :
  coll_forall P c ->
  (forall k vs, vs <> [] -> Forall (fun p => P (k, p.1)) vs -> Forall (fun p => Q (k, p.1)) (logic k vs)) ->
  coll_forall Q (reduce logic c).
Proof.
  intros Hc Hl. apply forall_flat_map. intros k Hk. apply Forall_map. simpl. apply Hl; [by rewrite group_nil; auto|].
  apply Forall_forall. intros [v w] Hin. simpl. apply consolidated_from in Hc. unfold group in Hin.
  apply list_elem_of_fmap in Hin as ([[k' v'] w'] & [= -> ->] & Hin). apply list_elem_of_In, filter_In in Hin as [Hin Hk'].
  simpl in Hk'. destruct (ord_eqb_spec k' k) as [->|]; [|done]. by eapply coll_forall_elem, list_elem_of_In, Hin.
Qed.
End Keyed.

Section Records.
Context {D : Type} `{Ord D} (P : D -> Prop).

Lemma forall_distinct c : coll_forall P c -> coll_forall P (distinct c).
Proof.
  intros Hc. unfold distinct, threshold. apply (forall_map (fun p : D * unit => P p.1)); [|done].
  apply (forall_reduce (fun p => P p.1)); [by eapply forall_map|].
  intros k [|[u w] vs] Hne Hvs; [done|]. inversion Hvs; subst. by repeat constructor.
Qed.

Lemma expand_from (vs : list (D * Z)) : Forall (fun p => P p.1) vs -> Forall P (expand vs).
Proof.
  intros Hvs. induction Hvs as [|[v w] vs Hv _ IH]; [constructor|]. simpl. apply Forall_app. split; [|done].
  destruct (0 <=? w); [by apply Forall_replicate | constructor].
Qed.

Lemma take_z_from {n} {l : list D} : Forall P l -> Forall P (take_z n l).
Proof. unfold take_z. destruct (_ <=? _); [done | by apply Forall_take]. Qed.
Lemma drop_z_from {n} {l : list D} : Forall P l -> Forall P (drop_z n l).
Proof. unfold drop_z. destruct (_ <=? _); [constructor | by apply Forall_drop]. Qed.

Lemma forall_topk_by c compare limit offset : coll_forall P c -> coll_forall P (topk_by c compare limit offset).
Proof.
  intros Hc. unfold topk_by. apply (forall_map (fun p : unit * D => P p.2)); [|done].
  apply (forall_reduce (fun p => P p.2)); [by eapply forall_map|]. intros [] vs _ Hvs. apply Forall_map. simpl.
  apply take_z_from, drop_z_from. rewrite sort_by_perm. by apply expand_from.
Qed.

Lemma min_by_in {A} (f : A -> A -> comparison) l m : min_by f l = Some m -> m ∈ l.
Proof.
  destruct l as [|x rest]; [done|]. intros [= <-]. revert x. induction rest as [|y rest IH]; intros x; simpl; [by constructor|].
  pose proof (IH (match f x y with Gt => y | _ => x end)) as Hin. apply elem_of_cons in Hin as [->|Hin]; [|by do 2 constructor].
  destruct (f x y); repeat constructor.
Qed.

Lemma forall_bag_set_op a b combine : coll_forall P a -> coll_forall P b -> coll_forall P (bag_set_op a b combine).
Proof.
  intros Ha Hb. unfold bag_set_op. apply (forall_map (fun p : D * unit => P p.1)); [|done].
  apply (forall_reduce (fun p => P p.1)).
  - apply forall_concat; by eapply forall_map.
  - intros k [|[u w] vs] Hne Hvs; [done|]. inversion Hvs; subst. destruct (side_counts _ _ _). destruct (0 <? _); by repeat constructor.
Qed.

Lemma forall_distinct_on {K} `{Ord K} (c : collection (K * D)) compare :
  coll_forall (fun p => P p.2) c -> coll_forall P (distinct_on_first c compare).
Proof.
  intros Hc. unfold distinct_on_first. apply (forall_map (fun p : K * D => P p.2)); [|done].
  apply (forall_reduce (fun p => P p.2)); [done|]. intros k vs _ Hvs. destruct (min_by _ _) as [m|] eqn:E; [|constructor].
  repeat constructor. simpl. apply min_by_in in E. apply list_elem_of_fmap in E as ([d w] & -> & Hin).
  apply list_elem_of_In, filter_In in Hin as [Hin _]. rewrite Forall_forall in Hvs. apply (Hvs (d, w)), list_elem_of_In, Hin.
Qed.
End Records.

(** ** Widths of operators *)

Definition width (w : nat) (c : collection Row) : Prop := coll_forall (fun row => length row = w) c.

(** Closures of a recipe that may panic, do not. *)
Definition closures_return (recipe : NodeRecipe) : Prop :=
  match recipe with
  | NR_Project extract => forall row, exists out, extract row = Ok out
  | NR_Aggregate _ ves _ _ => Forall returns ves
  | _ => True
  end.

Lemma project_run_ok {A B} (P : A -> Prop) (Q : B -> Prop) (f : A -> run B) c :
  coll_forall P c -> (forall a, P a -> exists b, f a = Ok b /\ Q b) -> exists c', project_run c f = Ok c' /\ coll_forall Q c'.
Proof.
  intros Hc Hf. induction Hc as [|[a w] c Ha _ (c' & Hc' & HQ)]; [exists []; split; [done | constructor]|]. unfold project_run in *. simpl in *.
  destruct (Hf a Ha) as (b & -> & Hb). simpl. rewrite Hc'. simpl. eexists. split; [done|]. by constructor.
Qed.

Lemma filter_run_ok {A} (P : A -> Prop) (f : A -> run bool) c :
  coll_forall P c -> (forall a, exists b, f a = Ok b) -> exists c', filter_run c f = Ok c' /\ coll_forall P c'.
Proof.
  intros Hc Hf. assert (exists l, exec_mapM (fun p => let? b := of_run (f p.1) in Ok (b : bool, p)) c = (Ok l : installed _) /\
    Forall (fun x => P x.2.1) l) as (l & Hl & HP).
  { induction Hc as [|[a w] c Ha _ (l & Hl & HP)]; [exists []; split; [done | constructor]|]. simpl. destruct (Hf a) as (b & ->). simpl. rewrite Hl. simpl.
    eexists. split; [done|]. by constructor. }
  unfold filter_run. rewrite Hl. simpl. eexists. split; [done|]. apply Forall_map, Forall_forall. intros x Hin.
  apply list_elem_of_In, filter_In in Hin as [Hin _]. rewrite Forall_forall in HP. by apply HP, list_elem_of_In.
Qed.

Lemma width_join kind lk rk a rw l r :
  width a l -> width rw r ->
  width (match kind with JK_Inner | JK_Left => (a + rw)%nat | JK_Semi | JK_Anti => a end) (install_join kind lk rk rw l r).
Proof.
  intros Hl Hr. unfold install_join. set (lkd := rel_project l _). set (rkd := rel_filter _ _).
  assert (coll_forall (fun p => length p.2 = a) lkd) as Hlk by (by eapply forall_map).
  assert (coll_forall (fun p => length p.2 = rw) rkd) as Hrk by (apply forall_filter; by eapply forall_map).
  destruct kind.
  - eapply forall_join; [exact Hlk | exact Hrk|]. simpl. intros k v v2 <- <-. by rewrite length_app.
  - apply forall_concat.
    + eapply forall_join; [exact Hlk | exact Hrk|]. simpl. intros k v v2 <- <-. by rewrite length_app.
    + eapply forall_map; [by eapply forall_antijoin|]. simpl. intros [k v] <-. by rewrite length_app, length_replicate.
  - eapply forall_map; [by eapply forall_semijoin | done].
  - eapply forall_map; [by eapply forall_antijoin | done].
Qed.

Lemma width_aggregate ge ves funcs empty_default w v c :
  width v c -> Forall returns ves -> (forall row, length (ge row) + length funcs = w)%nat ->
  match empty_default with Some row => length row = w | None => True end ->
  exists out, install_aggregate ge ves funcs empty_default c = Ok out /\ width w out.
Proof.
  intros Hc Hves Hge Hd. unfold install_aggregate.
  destruct (project_run_ok (fun row => length row = v) (fun p : list Datum * list Datum => length p.1 + length funcs = w)%nat
    (fun row => let? values := exec_mapM (fun ve => ve row) ves in Ok (ge row, values)) c Hc) as (keyed & Hk & HQ).
  { intros row _. destruct (mapM_returns ves row Hves) as (ds & ->). simpl. eexists. split; [done | apply Hge]. }
  rewrite Hk. cbn [exec_bind]. eexists. split; [done|].
  assert (width w (rel_project (aggregate_datums keyed funcs) (fun p => p.1 ++ p.2))) as Hres.
  { eapply forall_map; [eapply (forall_reduce _ (fun p : list Datum * list Datum => length p.1 + length p.2 = w)%nat); [exact HQ|]|].
    - intros k [|[vs n] rest] Hne Hvs; [done|]. inversion Hvs as [|? ? Hk1]; subst. simpl in *. constructor; [|done]. simpl.
      by rewrite length_imap.
    - intros [k vs]. simpl. by rewrite length_app. }
  destruct empty_default as [row|]; [|done]. apply forall_concat; [done|].
  apply (forall_map (fun _ => True)); [by apply Forall_true | done].
Qed.

(** ** Installing a compiled plan *)

Section Plan.
Context `{EvalRuntime} `{PetGraph MirNodeKind MirEdgeKind}.
Context (graph : MirGraph) (lookup : text -> option (Z * ScalarSchema)) (st : CompileState).
Hypothesis st_ok : state_ok graph lookup st.
Hypothesis compiled : forall n, (n < node_count graph)%nat -> is_Some (cs_recipes st !! n).
Hypothesis closed : forall n m, m ∈ sources graph n -> (m < node_count graph)%nat.
Context (rank : nat -> nat).
Hypothesis rank_edges : forall n m, m ∈ sources graph n -> (rank m < rank n)%nat.
Hypothesis no_recursion : forall n recipe, cs_recipes st !! n = Some recipe ->
  match recipe with NR_Fixpoint _ _ | NR_RecursiveRef _ => False | _ => True end.
Hypothesis closures : forall n recipe, cs_recipes st !! n = Some recipe -> closures_return recipe.

Context (output : ScalarSchema).
Definition the_plan : CompiledPlan :=
  {| cp_graph := graph; cp_root := root graph; cp_inputs := cs_inputs st; cp_input_schemas := cs_input_schemas st;
     cp_output_schema := output; cp_node_schemas := cs_node_schemas st; cp_recipes := cs_recipes st |}.

Context (inputs : gmap Z (collection Row)).
(** The host wires every table of the plan, with rows of its schema. *)
Hypothesis wired : forall t s, t ∈ cs_inputs st -> cs_input_schemas st !! t = Some s ->
  exists c, inputs !! t = Some c /\ width (schema_len s) c.

(** Cached collections have their node's width. *)
Definition cache_ok (c : cache) : Prop := forall n x, c !! n = Some x -> exists w, width_at st n = Some w /\ width w x.

(** An operator of known shape, over inputs of the widths it reads. *)
Lemma install_op_ok node recipe w ins :
  shape graph st node recipe w -> closures_return recipe ->
  match recipe with NR_BaseTable _ | NR_CteRef _ | NR_Fixpoint _ _ | NR_RecursiveRef _ => False | _ => True end ->
  (forall nodes, operator_inputs the_plan node recipe = Ok nodes ->
     Forall2 (fun m c => exists v, width_at st m = Some v /\ width v c) nodes ins) ->
  (exists nodes, operator_inputs the_plan node recipe = Ok nodes) ->
  exists out, install_op recipe ins = Ok out /\ width w out.
Proof.
  intros Hs Hcl Hop Hins [nodes Hn]. specialize (Hins nodes Hn).
  assert (forall v, reads graph st node v -> operator_inputs the_plan node recipe = match single_input graph node with Ok n => Ok [n] | _ => Panic end ->
    exists c rest, ins = c :: rest /\ width v c) as Hone.
  { intros v (m & Hm & Hv) E. rewrite E, Hm in Hn. injection Hn as <-. inversion Hins as [|? c ? rest (v' & Hv' & Hc) _]; subst.
    rewrite Hv in Hv'. injection Hv' as <-. eauto. }
  assert (forall a b, reads2 graph st node a b -> operator_inputs the_plan node recipe = Ok (ordered_inputs graph node) ->
    exists l r rest, ins = l :: r :: rest /\ width a l /\ width b r) as Htwo.
  { intros a b (l & r & Hin & Ha & Hb) E. rewrite E, Hin in Hn. injection Hn as <-. inversion Hins as [|? cl ? rest (a' & Ha' & Hl) Hrest]; subst.
    inversion Hrest as [|? cr ? rest' (b' & Hb' & Hr) _]; subst. rewrite Ha in Ha'. rewrite Hb in Hb'. simplify_eq. eauto 10. }
  destruct recipe; try done; simpl in Hs, Hcl.
  - destruct Hs as [Hr Hp]. destruct (Hone _ Hr eq_refl) as (c & rest & -> & Hc). by apply filter_run_ok.
  - destruct Hs as [[v Hr] Hp]. destruct (Hone _ Hr eq_refl) as (c & rest & -> & Hc). apply (project_run_ok (fun row => length row = v)); [done|].
    intros row _. destruct (Hcl row) as (out & Hout). eauto.
  - destruct Hs as (a & Hr & ->). destruct (Htwo _ _ Hr eq_refl) as (l & r & rest & -> & Hl & Hrr). eexists. split; [done|]. by apply width_join.
  - destruct (Hone _ Hs eq_refl) as (c & rest & -> & Hc). eexists. split; [done|]. by apply forall_distinct.
  - destruct (Htwo _ _ Hs eq_refl) as (l & r & rest & -> & Hl & Hrr). eexists. split; [done|].
    destruct all; [by apply forall_concat | by apply forall_distinct, forall_concat].
  - destruct Hs as ([v Hr] & Hge & Hd). destruct (Hone _ Hr eq_refl) as (c & rest & -> & Hc). by eapply width_aggregate.
  - destruct Hs as [Hr Hk]. destruct (Hone _ Hr eq_refl) as (c & rest & -> & Hc). cbn [install_op].
    destruct (project_run_ok (fun row => length row = w) (fun p : list Datum * Row => length p.2 = w)
      (fun row => let? k := sort_extract row in Ok (k, row)) c Hc) as (wk & -> & Hwk).
    { intros row Hrow. destruct (Hk row) as (ks & ->). simpl. eauto. }
    simpl. eexists. split; [done|]. by eapply forall_map; [apply forall_topk_by|].
  - destruct Hs as (Hr & Hon & Hk). destruct (Hone _ Hr eq_refl) as (c & rest & -> & Hc). cbn [install_op].
    destruct (project_run_ok (fun row => length row = w) (fun p : list Datum * (list Datum * Row) => length p.2.2 = w)
      (fun row => let? on := on_extract row in let? sort := sort_extract row in Ok (on, (sort, row))) c Hc) as (wk & -> & Hwk).
    { intros row Hrow. destruct (Hon row) as (os & ->), (Hk row) as (ks & ->). simpl. eauto. }
    simpl. eexists. split; [done|]. eapply forall_map; [by apply (forall_distinct_on (fun p : list Datum * Row => length p.2 = w)) | done].
  - destruct (Htwo _ _ Hs eq_refl) as (l & r & rest & -> & Hl & Hrr). eexists. split; [done|]. by apply forall_bag_set_op.
Qed.

Lemma install_all_ok install nodes c :
  (forall n, n ∈ nodes -> forall c, cache_ok c ->
    exists x c' w, install n c = Ok (x, c') /\ cache_ok c' /\ width_at st n = Some w /\ width w x) ->
  cache_ok c -> exists xs c', install_all install nodes c = Ok (xs, c') /\ cache_ok c' /\
    Forall2 (fun m x => exists v, width_at st m = Some v /\ width v x) nodes xs.
Proof.
  revert c. induction nodes as [|n nodes IH]; intros c Hi Hc; simpl.
  - eexists _, _. split_and!; [done | done | constructor].
  - destruct (Hi n ltac:(by constructor) c Hc) as (x & c1 & w & -> & Hc1 & Hw & Hx). simpl.
    destruct (IH c1) as (xs & c2 & -> & Hc2 & Hxs); [intros m Hm; apply Hi; by constructor | done|]. simpl.
    eexists _, _. split_and!; [done | done|]. constructor; eauto.
Qed.

Lemma operator_nodes node recipe w :
  shape graph st node recipe w ->
  match recipe with NR_BaseTable _ | NR_CteRef _ | NR_Fixpoint _ _ | NR_RecursiveRef _ => False | _ => True end ->
  exists nodes, operator_inputs the_plan node recipe = Ok nodes /\ forall m, m ∈ nodes -> m ∈ sources graph node.
Proof.
  intros Hs Hop. assert (forall v, reads graph st node v ->
    exists nodes, (match single_input graph node with Ok n => Ok [n] | _ => Panic end : installed (list nat)) = Ok nodes /\
      forall m, m ∈ nodes -> m ∈ sources graph node) as Hr.
  { intros v (m & Hm & _). rewrite Hm. eexists. split; [done|]. intros ? ->%list_elem_of_singleton. by apply single_input_source. }
  assert (forall m, m ∈ ordered_inputs graph node -> m ∈ sources graph node) as Hoi by (intros m; apply ordered_inputs_source).
  destruct recipe; try done; simpl in Hs; unfold operator_inputs; try (by eexists; split; [done | exact Hoi]).
  - by eapply Hr, Hs.
  - destruct Hs as [[v Hv] _]. by eapply Hr.
  - by eapply Hr.
  - destruct Hs as [[v Hv] _]. by eapply Hr.
  - destruct Hs as [Hv _]. by eapply Hr.
  - destruct Hs as [Hv _]. by eapply Hr.
Qed.

Lemma install_recursive_ok rounds fuel node c :
  (node < node_count graph)%nat -> (rank node < fuel)%nat -> cache_ok c ->
  exists x c' w, install_recursive the_plan inputs rounds fuel node c = Ok (x, c') /\ cache_ok c' /\ width_at st node = Some w /\ width w x.
Proof.
  revert node c. induction fuel as [|fuel IH]; intros node c Hnode Hfuel Hc; [lia|]. cbn [install_recursive].
  destruct (c !! node) as [x|] eqn:Ec.
  { destruct (Hc node x Ec) as (w & Hw & Hx). eauto 10. }
  destruct (compiled node Hnode) as [recipe Hr]. destruct (proj2 (so_dom _ _ _ st_ok node)) as [s Hs]; [by eexists|].
  pose proof (so_shape _ _ _ st_ok _ _ _ Hr Hs) as Hshape. pose proof (no_recursion _ _ Hr) as Hrec. pose proof (closures _ _ Hr) as Hcl.
  assert (forall m, m ∈ sources graph node -> forall c, cache_ok c ->
    exists x c' w, install_recursive the_plan inputs rounds fuel m c = Ok (x, c') /\ cache_ok c' /\ width_at st m = Some w /\ width w x) as Hsrc.
  { intros m Hm c' Hc'. apply IH; [by eapply closed | | done]. specialize (rank_edges _ _ Hm). lia. }
  enough (exists x c', match recipe with
    | NR_BaseTable table => match inputs !! table with Some x => Ok (x, c) | None => Panic end
    | NR_CteRef target => install_recursive the_plan inputs rounds fuel target c
    | NR_Fixpoint _ _ | NR_RecursiveRef _ => Panic
    | recipe => install_operator the_plan (install_recursive the_plan inputs rounds fuel) node recipe c
    end = Ok (x, c') /\ cache_ok c' /\ width (schema_len s) x) as (x & c' & E & Hc' & Hx).
  { exists x, (<[node := x]> c'), (schema_len s). split_and!; [|  | by apply width_at_some | done].
    - cbn [cp_recipes the_plan]. rewrite Hr. destruct recipe; try done; by rewrite E.
    - intros n y. destruct (decide (n = node)) as [->|].
      + rewrite lookup_insert_eq. intros [= <-]. exists (schema_len s). split; [by apply width_at_some | done].
      + rewrite lookup_insert_ne by done. apply Hc'. }
  assert (match recipe with NR_BaseTable _ | NR_CteRef _ | NR_Fixpoint _ _ | NR_RecursiveRef _ => False | _ => True end ->
    exists x c', install_operator the_plan (install_recursive the_plan inputs rounds fuel) node recipe c = Ok (x, c') /\ cache_ok c' /\ width (schema_len s) x) as Hop.
  { intros Hop. destruct (operator_nodes node recipe _ Hshape Hop) as (nodes & Hn & Hsub). unfold install_operator. rewrite Hn. cbn [exec_bind].
    destruct (install_all_ok (install_recursive the_plan inputs rounds fuel) nodes c) as (xs & c' & -> & Hc' & Hxs); [intros n Hn1 c1 Hc1; apply Hsrc; [by apply Hsub | done] | done|].
    cbn [exec_bind]. destruct (install_op_ok node recipe (schema_len s) xs) as (out & -> & Hout); [done | done | done | | eauto|].
    { intros nodes' E. rewrite Hn in E. by injection E as <-. }
    simpl. eauto. }
  destruct recipe; try done; try (by apply Hop).
  - destruct Hshape as (Ht & Hlen & _). apply fmap_Some in Hlen as (ts & His & ->). destruct (wired _ _ Ht His) as (x & -> & Hx). eauto.
  - destruct Hshape as [Ht Hw]. destruct (Hsrc target Ht c Hc) as (x & c' & w & -> & Hc' & Hw' & Hx). rewrite Hw in Hw'. simplify_eq. eauto.
Qed.
End Plan.

Section Runs.
Context `{EvalRuntime} `{PetGraph MirNodeKind MirEdgeKind}.

(** What [petgraph::algo::toposort] promises when it finds no cycle: positions of
    the nodes, increasing along every edge. *)
Definition toposort_sound (acyclic : MirGraph -> bool) : Prop :=
  forall g, acyclic g = true -> exists position : nat -> nat,
    (forall n, (position n <= node_count g)%nat) /\
    forall e, e ∈ pg_edges (Mir.graph g) -> (position (source e) < position (target e))%nat.

Lemma sources_edges graph n m : m ∈ sources graph n -> exists e, e ∈ pg_edges (Mir.graph graph) /\ source e = m /\ target e = n.
Proof.
  unfold sources, edge_refs. intros (e & -> & He)%list_elem_of_fmap. apply filter_map_elem in He as (i & Hi & He).
  rewrite pg_in_spec in Hi. apply ids_from_spec in Hi as (_ & e' & He' & Ht). rewrite Nat.sub_0_r in He'. simplify_eq.
  exists e'. split_and!; [by eapply list_elem_of_lookup_2 | done | by apply Nat.eqb_eq].
Qed.

(** Kinds that compile to neither recursion nor a narrowed scan. *)
Definition plain_kind (k : MirNodeKind) : bool :=
  match k with Fixpoint_ _ _ | RecursiveRef _ => false | BaseTable _ project => bool_decide (project = []) | _ => true end.

(** Plain kinds compile to neither recursion nor references to it. *)
Lemma plain_recipes graph lookup st :
  state_ok graph lookup st -> (forall n k, node_kind graph n = Some k -> plain_kind k = true) ->
  forall n recipe, cs_recipes st !! n = Some recipe -> match recipe with NR_Fixpoint _ _ | NR_RecursiveRef _ => False | _ => True end.
Proof.
  intros Hst Hkind n recipe Hr. destruct (proj2 (so_dom _ _ _ Hst n)) as [s Hs]; [by eexists|].
  pose proof (so_shape _ _ _ Hst _ _ _ Hr Hs) as Hsh. destruct recipe; try done;
    destruct Hsh as [Hk _]; destruct (node_kind graph n) as [k|] eqn:Ek; try done; apply Hkind in Ek; by destruct k.
Qed.

(** The compiled state of a plain graph. *)
Lemma plan_compiled acyclic lookup graph plan :
  toposort_sound acyclic ->
  (forall a b t s s', lookup a = Some (t, s) -> lookup b = Some (t, s') -> s = s') ->
  forallb plain_kind (node_kinds graph) = true ->
  compile_mir acyclic lookup graph = Ok plan ->
  exists st rank, (forall n, (rank n <= node_count graph)%nat) /\ (forall n m, m ∈ sources graph n -> (rank m < rank n)%nat) /\
    (forall n k, node_kind graph n = Some k -> plain_kind k = true) /\
    state_ok graph lookup st /\ (forall n, (n < node_count graph)%nat -> is_Some (cs_recipes st !! n)) /\
    explained graph lookup st /\ plan = the_plan graph st (default schema_default (cs_node_schemas st !! root graph)).
Proof.
  intros Htopo Hlookup Hplain Hc. destruct (acyclic graph) eqn:Ha; [|by unfold compile_mir in Hc; rewrite Ha in Hc].
  destruct (Htopo graph Ha) as (rank & Hbound & Hrank).
  assert (forall n m, m ∈ sources graph n -> (rank m < rank n)%nat) as Hsrc.
  { intros n m (e & He & <- & <-)%sources_edges. by apply Hrank. }
  assert (forall n k, node_kind graph n = Some k -> plain_kind k = true) as Hkind.
  { intros n k Hn. eapply forallb_forall in Hplain; [exact Hplain|]. apply list_elem_of_In. by eapply list_elem_of_lookup_2. }
  assert (forall n table project, node_kind graph n = Some (BaseTable table project) -> project = []) as Hproj.
  { intros n t p Hn%Hkind. by apply bool_decide_eq_true in Hn. }
  assert (forall n cte i k b, node_kind graph n = Some (RecursiveRef cte) ->
    list_find (fun k => fixpoint_named cte k = true) (node_kinds graph) = Some (i, k) ->
    head (ordered_inputs graph i) = Some b -> (rank b < rank n)%nat) as Href by (by intros n cte i k b Hn%Hkind).
  destruct (compile_mir_ok graph lookup Hlookup Hproj rank Hsrc Href acyclic plan Hc) as (st & Hst & Hcomp & Hex & ->).
  exists st, rank. split_and!; try done. apply Hex. intros n. destruct (node_kind graph n) as [k|] eqn:E; [|done].
  apply Hkind in E. by destruct k.
Qed.

Lemma plan_runs acyclic lookup graph plan inputs rounds :
  graph_wf graph -> toposort_sound acyclic ->
  (forall a b t s s', lookup a = Some (t, s) -> lookup b = Some (t, s') -> s = s') ->
  forallb plain_kind (node_kinds graph) = true ->
  compile_mir acyclic lookup graph = Ok plan ->
  (forall n recipe, cp_recipes plan !! n = Some recipe -> closures_return recipe) ->
  (forall t s, cp_input_schemas plan !! t = Some s -> exists c, inputs !! t = Some c /\ width (schema_len s) c) ->
  exists out, install_plan plan inputs rounds = Ok out /\ width (schema_len (cp_output_schema plan)) out.
Proof.
  intros Hg Htopo Hlookup Hplain Hc Hcl Hwired.
  destruct (plan_compiled acyclic lookup graph plan Htopo Hlookup Hplain Hc) as (st & rank & Hbound & Hsrc & Hkind & Hst & Hcomp & _ & ->).
  destruct (install_recursive_ok graph lookup st Hst Hcomp) with (rank := rank) (output := default schema_default (cs_node_schemas st !! root graph))
    (inputs := inputs) (rounds := rounds) (fuel := S (node_count graph)) (node := root graph) (c := ∅ : cache)
    as (x & c' & w & E & _ & Hw & Hx).
  - intros n m (e & He & <- & <-)%sources_edges. by apply (gw_edges _ Hg).
  - done.
  - by eapply plain_recipes.
  - exact Hcl.
  - intros t s _ Ht. by apply Hwired.
  - apply (gw_root _ Hg).
  - specialize (Hbound (root graph)). lia.
  - intros n y. by rewrite lookup_empty.
  - exists x. unfold install_plan. cbn [cp_graph cp_root the_plan]. rewrite E. split; [done|]. unfold width_at in Hw. destruct (cs_node_schemas st !! root graph); [|done]. by injection Hw as <-.
Qed.

(** C18: A plan that compiles can be installed and run: on an acyclic query graph without recursion
    and without narrowed scans, given input collections for the plan's tables with rows of their
    schema's width and closures that return, installation reaches no panic, and every row of the
    result has the width of the plan's output schema. *)
Theorem compiled_plan_runs acyclic lookup graph plan inputs rounds :
  graph_wf graph -> toposort_sound acyclic ->
  (forall a b t s s', lookup a = Some (t, s) -> lookup b = Some (t, s') -> s = s') ->
  forallb plain_kind (node_kinds graph) = true ->
  compile_mir acyclic lookup graph = Ok plan ->
  (forall n recipe, cp_recipes plan !! n = Some recipe -> closures_return recipe) ->
  (forall t s, cp_input_schemas plan !! t = Some s -> exists c, inputs !! t = Some c /\ width (schema_len s) c) ->
  exists out, install_plan plan inputs rounds = Ok out /\ width (schema_len (cp_output_schema plan)) out.
Proof. apply plan_runs. Qed.
End Runs.
