(* ===== verification/QueryFacts.v ===== *)
(** * QueryFacts: SQL operators of an installed plan

    Joins, set operations and global aggregates, as the weight of every output row;
    the comparator of an installed sort, column by column, and the slice of rows it
    selects. *)

From Stdlib Require Import Sorted.
From stdpp Require Import gmap.
From S2P Require Import Prelude BTree Text Values UserContext Literals Floats Datums Exprs Like.
From S2P Require Import Eval EvalFacts Mir Consolidation Operators Relational RelationalFacts CompileMir CompileFacts Install InstallFacts.

(** ** Sums over bags *)

Lemma total_nonneg {D} `{Ord D} (f : D -> Z) c : bag c -> (forall d, 0 <= f d) -> 0 <= total f c.
Proof.
  intros Hb Hf. rewrite <- total_consolidated.
  assert (Forall (fun p => 0 <= p.2) (consolidated c)) as Hpos.
  { apply Forall_forall. intros [d w] [-> _]%consolidated_elem. apply Hb. }
  induction Hpos as [|[d w] l Hw _ IH]; simpl in *; [done|]. specialize (Hf d). nia.
Qed.

(** A sum reads the records at hand. *)
Lemma total_ext_in {D} (P : D -> Prop) (f g : D -> Z) (c : collection D) :
  coll_forall P c -> (forall d, P d -> f d = g d) -> total f c = total g c.
Proof. intros Hc E. induction Hc as [|p c Hp _ IH]; simpl; [done|]. by rewrite IH, E. Qed.

(** The image of a bag is a bag. *)
Lemma bag_map {D D'} `{Ord D, Ord D'} (f : D -> D') c : bag c -> bag (coll_map f c).
Proof.
  intros Hb d. unfold mult, coll_map. rewrite (total_map f). apply total_nonneg; [done|]. intros x. destruct (ord_eqb _ _); simpl; lia.
Qed.

Lemma bag_filter {D} `{Ord D} (f : D -> bool) c : bag c -> bag (coll_filter f c).
Proof. intros Hb d. unfold coll_filter. rewrite (mult_filter d f). specialize (Hb d). destruct (f d); lia. Qed.

(** ** Joins *)

Section Joins.
Context (kind : JoinKind) (left_keys right_keys : list nat) (right_width : nat) (l r : collection Row).

Section Matching.
Context (matches : Row -> Row -> bool).

Definition partners (left_row : Row) : Z := total (fun right_row => indicator (matches left_row right_row)) r.
Definition pairs (left_row out : Row) : Z :=
  total (fun right_row => indicator (matches left_row right_row) * indicator (ord_eqb (left_row ++ right_row) out)) r.

(** How often each left row contributes [out] to a join on [matches]. *)
Definition join_spec (out left_row : Row) : Z :=
  let itself := indicator (ord_eqb left_row out) in
  let matched := negb (partners left_row =? 0) in
  match kind with
  | JK_Inner => pairs left_row out
  | JK_Left => if matched then pairs left_row out else indicator (ord_eqb (left_row ++ replicate right_width D_Null) out)
  | JK_Semi => if matched then itself else 0
  | JK_Anti => if matched then 0 else itself
  end.

(** A left row without partners has no pairs. *)
Lemma no_pairs left_row out : bag r -> partners left_row = 0 -> pairs left_row out = 0.
Proof.
  intros Hb Hz. assert (0 <= pairs left_row out) as H1.
  { apply total_nonneg; [done|]. intros s. destruct (matches _ _), (ord_eqb _ _); simpl; lia. }
  assert (0 <= total (fun s => indicator (matches left_row s) + -1 * (indicator (matches left_row s) * indicator (ord_eqb (left_row ++ s) out))) r) as H2.
  { apply total_nonneg; [done|]. intros s. destruct (matches _ _), (ord_eqb _ _); simpl; lia. }
  rewrite total_add, total_scale in H2. fold (partners left_row) in H2. fold (pairs left_row out) in H2. lia.
Qed.
End Matching.

(** Joins on matches that agree on the rows at hand. *)
Lemma join_spec_ext m m' out :
  coll_forall (fun left_row => coll_forall (fun right_row => m left_row right_row = m' left_row right_row) r) l ->
  total (join_spec m out) l = total (join_spec m' out) l.
Proof.
  intros E. apply (total_ext_in _ _ _ _ E). intros left_row Hr. unfold join_spec.
  assert (partners m left_row = partners m' left_row /\ pairs m left_row out = pairs m' left_row out) as [-> ->]; [|done].
  split; apply (total_ext_in _ _ _ _ Hr); by intros right_row ->.
Qed.

(** The operator's own matching: identical key values, none of them NULL. *)
Definition keys_identical (left_row right_row : Row) : bool :=
  null_free (key_of right_row right_keys) && ord_eqb (key_of left_row left_keys) (key_of right_row right_keys).

Definition left_keyed : collection (list Datum * Row) := rel_project l (fun row => (key_of row left_keys, row)).
Definition right_keyed : collection (list Datum * Row) :=
  rel_filter (rel_project r (fun row => (key_of row right_keys, row))) (fun p => null_free p.1).

Lemma right_total f : total f right_keyed = total (fun s => if null_free (key_of s right_keys) then f (key_of s right_keys, s) else 0) r.
Proof.
  unfold right_keyed, rel_filter, coll_filter, rel_project, coll_map.
  rewrite (total_filter (fun p => null_free p.1)), (total_map (fun row => (key_of row right_keys, row))). done.
Qed.

Lemma left_total f : total f left_keyed = total (fun row => f (key_of row left_keys, row)) l.
Proof. unfold left_keyed, rel_project, coll_map. by rewrite (total_map (fun row => (key_of row left_keys, row))). Qed.

Lemma key_mult left_row : mult (key_of left_row left_keys) (coll_map fst right_keyed) = partners keys_identical left_row.
Proof.
  unfold mult, coll_map. rewrite (total_map fst), right_total. apply total_ext. intros s. unfold keys_identical.
  destruct (null_free _); [|done]. simpl. destruct (ord_eqb_spec (key_of left_row left_keys) (key_of s right_keys)) as [->|]; [by rewrite ord_eqb_refl|].
  by destruct (ord_eqb_spec (key_of s right_keys) (key_of left_row left_keys)).
Qed.

Lemma matches_total left_row (f : Row -> Z) :
  total (fun q => indicator (ord_eqb (key_of left_row left_keys) q.1) * f q.2) right_keyed =
  total (fun s => indicator (keys_identical left_row s) * f s) r.
Proof. rewrite right_total. apply total_ext. intros s. unfold keys_identical. destruct (null_free _); simpl; [done | lia]. Qed.

Lemma present_mult left_row :
  mult (key_of left_row left_keys) (rel_distinct (rel_project right_keyed fst)) = indicator (negb (partners keys_identical left_row =? 0)).
Proof. unfold rel_distinct, rel_project. by rewrite distinct_mult, key_mult. Qed.

Lemma join_identical out :
  bag r -> mult out (install_join kind left_keys right_keys right_width l r) = total (join_spec keys_identical out) l.
Proof.
  intros Hb. unfold install_join, join_spec. fold left_keyed. fold right_keyed. destruct kind.
  - unfold equi_join, mult. rewrite total_join, left_total. apply total_ext. intros row. simpl.
    by rewrite (matches_total row (fun s => indicator (ord_eqb (row ++ s) out))).
  - unfold left_join, coll_concat. rewrite mult_app. unfold mult. rewrite total_join. unfold coll_map at 1.
    rewrite (total_map (fun p : list Datum * Row => p.2 ++ replicate right_width D_Null)), total_antijoin, !left_total, <- total_add.
    apply total_ext. intros row. simpl. rewrite (matches_total row (fun s => indicator (ord_eqb (row ++ s) out))).
    fold (pairs keys_identical row out). pose proof (present_mult row) as Hp. unfold rel_distinct, rel_project in Hp. rewrite Hp.
    destruct (Z.eqb_spec (partners keys_identical row) 0) as [E|]; simpl; [rewrite (no_pairs _ row out Hb E)|]; lia.
  - unfold rel_project at 1, coll_map, mult. rewrite (total_map snd), total_semijoin, left_total. apply total_ext. intros row. simpl.
    rewrite present_mult. destruct (partners _ row =? 0); simpl; lia.
  - unfold rel_project at 1, coll_map, mult. rewrite (total_map snd), total_antijoin, left_total. apply total_ext. intros row. simpl.
    rewrite present_mult. destruct (partners _ row =? 0); simpl; lia.
Qed.

(** [ON l.a = r.a AND l.b = r.b ..]: every pair of key columns compares equal in SQL; a NULL compares equal to nothing. *)
Definition keys_match (left_row right_row : Row) : bool := sql_equal_all (key_of left_row left_keys) (key_of right_row right_keys).

(** Key columns of one type on both sides, a type with one spelling for each value. *)
Definition keys_typed (types : list DatumType) (keys : list nat) (row : Row) : Prop :=
  Forall2 (fun t d => exact_type t d = true) types (key_of row keys).

Lemma keys_match_identical types left_row right_row :
  keys_typed types left_keys left_row -> keys_typed types right_keys right_row -> keys_match left_row right_row = keys_identical left_row right_row.
Proof. intros Hl Hr. unfold keys_match, keys_identical, null_free. by apply (exact_equal_all types). Qed.

(** C20: An installed join computes the SQL join by equality of the key columns when each pair of
    key columns has one type on both sides whose values have one spelling (booleans, integers of one
    width, text, byteas, uuids, dates, times, timestamps; NULLs allowed) and the right input has no
    negative multiplicity: a NULL key matches nothing, inner and left joins multiply the
    multiplicities of the matching rows, a left row without a match is padded with NULLs once, and
    semi and anti joins keep a left row with its own multiplicity however many partners it has. Keys
    of different integer widths, floats and numerics are excluded. *)
Theorem join_exact types out :
  bag r -> coll_forall (keys_typed types left_keys) l -> coll_forall (keys_typed types right_keys) r ->
  mult out (install_join kind left_keys right_keys right_width l r) = total (join_spec keys_match out) l.
Proof.
  intros Hb Hl Hr. rewrite join_identical by done. apply join_spec_ext. eapply Forall_impl; [exact Hl|]. intros p Hp.
  eapply Forall_impl; [exact Hr|]. intros q Hq. symmetry. by apply (keys_match_identical types).
Qed.
End Joins.

(** ** Set operations *)

(** The copies of a row the SQL standard prescribes when the operands hold [m] and
    [n] of it. *)
Definition set_op_copies (intersect all : bool) (m n : Z) : Z :=
  let both := if intersect then Z.min m n else m - n in
  if all then Z.max 0 both
  else indicator ((0 <? m) && (if intersect then 0 <? n else negb (0 <? n))).

(** C35: An installed EXCEPT or INTERSECT, with or without ALL, gives every row the number of copies
    the SQL standard prescribes from its copies in the two inputs: the difference cut at zero, the
    minimum, or one copy when the row is in the left input and, for INTERSECT, in the right one or,
    for EXCEPT, not. *)
Theorem set_op_exact intersect all (l r : collection Row) :
  exists out, install_op (NR_SetOp intersect all) [l; r] = Ok out /\
    forall row, mult row out = set_op_copies intersect all (mult row l) (mult row r).
Proof.
  eexists. split; [done|]. intros row. rewrite bag_set_op_mult. generalize (mult row l) (mult row r). intros m n.
  unfold set_op_copies, set_op_combine, indicator.
  destruct intersect, all, (Z.eqb_spec m 0), (Z.eqb_spec n 0), (Z.ltb_spec 0 m), (Z.ltb_spec 0 n), (Z.leb_spec n 0); simpl; lia.
Qed.

(** ** Global aggregates *)

Lemma project_run_map {A B} (f : A -> run B) (g : A -> B) c :
  (forall a, f a = Ok (g a)) -> project_run c f = Ok (coll_map g c).
Proof. intros Hf. induction c as [|[a w] c IH]; [done|]. unfold project_run in *. simpl. rewrite Hf. simpl. by rewrite IH. Qed.

(** One key: present or not. *)
Lemma single_key {V} `{Ord V} (c : collection (list Datum * V)) :
  coll_forall (fun p => p.1 = []) c -> group_keys c = match group [] c with [] => [] | _ => [[]] end.
Proof.
  intros Hc. assert (forall k, k ∈ group_keys c -> k = []) as Hk.
  { intros k Hin. apply consolidated_from in Hc. unfold group_keys in Hin. rewrite dedup_elem_of in Hin.
    apply list_elem_of_fmap in Hin as ([d w] & -> & Hin). by apply (coll_forall_elem _ _ _ _ Hc Hin). }
  pose proof (group_nil [] c) as Hnil. pose proof (group_keys_NoDup c) as Hnd.
  destruct (group_keys c) as [|k ks] eqn:E.
  - rewrite (proj2 Hnil); [done | by intros ?%elem_of_nil].
  - assert (k = []) as -> by (apply Hk; by constructor). destruct ks as [|k' ks].
    + destruct (group [] c); [|done]. exfalso. by apply (proj1 Hnil eq_refl); constructor.
    + assert (k' = []) as -> by (apply Hk; by do 2 constructor). inversion Hnd as [|? ? Hn]; subst. exfalso. apply Hn. by constructor.
Qed.

(** The row an aggregate without [GROUP BY] returns. *)
Definition global_row (values : Row -> list Datum) (funcs : list DatumAggregate) (default_row : Row) (c : collection Row) : Row :=
  match group [] (coll_map (fun row => ([] : list Datum, values row)) c) with
  | [] => default_row
  | rows => imap (fun index func => evaluate_datum_aggregate func (aggregate_column index rows)) funcs
  end.

(** An aggregate without [GROUP BY] returns exactly one row over every input: each function evaluated on its
    column over all rows, and over an empty input the default row. *)
Theorem global_aggregate_one_row ves values funcs default_row (c : collection Row) :
  bag c -> (forall row, exec_mapM (fun ve => ve row) ves = Ok (values row)) ->
  exists out, install_aggregate (fun _ => []) ves funcs (Some default_row) c = Ok out /\
    out ≡ [(global_row values funcs default_row c, 1)] /\ (c ≡ [] -> out ≡ [(default_row, 1)]).
Proof.
  intros Hb Hves. unfold install_aggregate, global_row. set (g := fun row : Row => ([] : list Datum, values row)).
  rewrite (project_run_map _ g) by (intros row; unfold g; cbv beta; unfold ScalarFn, run in *; by rewrite Hves).
  cbn [exec_bind]. set (keyed := coll_map g c). eexists. split; [done|].
  assert (bag keyed) as Hbk by (by apply bag_map).
  assert (coll_forall (fun p => p.1 = []) keyed) as Hkey by (apply (forall_map (fun _ => True)); [by apply Forall_true | done]).
  assert (c ≡ [] -> group [] keyed = []) as Hempty.
  { intros Hc. rewrite (group_proper [] keyed []); [done|]. intros d. unfold keyed, mult, coll_map.
    rewrite (total_map g), (total_proper _ c [] Hc). done. }
  set (missing := antijoin _ _). assert (forall f, total f missing = (1 - match group [] keyed with [] => 0 | _ => 1 end) * f ([], tt)) as Hmiss.
  { intros f. unfold missing. rewrite total_antijoin. unfold rel_project, rel_distinct. cbn [coll_map map total foldr fst snd].
    rewrite distinct_keys_mult by done. lia. }
  match goal with |- ?out ≡ _ /\ _ => enough (out ≡ [(match group [] keyed with [] => default_row
    | rows => imap (fun index func => evaluate_datum_aggregate func (aggregate_column index rows)) funcs end, 1)]) as Hout end.
  { split; [done|]. intros Hc. by rewrite Hout, Hempty. }
  intros row. unfold coll_concat. rewrite mult_app. unfold mult at 2, rel_project at 2, coll_map. rewrite (total_map (fun _ => default_row)), Hmiss.
  unfold rel_project, aggregate_datums, reduce, coll_map. rewrite single_key by done.
  destruct (group [] keyed) as [|p rows] eqn:Eg; [unfold mult; simpl; lia|]. cbn [flat_map map app]. rewrite Eg. unfold mult. simpl. lia.
Qed.

(** ** Building comparators *)

Section Comparators.
Context {A : Type} (f : A -> A -> comparison) `{!TotalPreorder f}.

Lemma preorder_eq_flip x y : f x y = Eq -> f y x = Eq.
Proof. intros E. by rewrite (preorder_flip (f := f)), E. Qed.
Lemma preorder_lt_flip x y : f x y = Lt -> f y x = Gt.
Proof. intros E. by rewrite (preorder_flip (f := f)), E. Qed.
Lemma preorder_eq_trans x y z : f x y = Eq -> f y z = Eq -> f x z = Eq.
Proof.
  intros H1 H2. pose proof (preorder_trans (f := f) x y z) as Ht. pose proof (preorder_trans (f := f) z y x) as Ht'.
  rewrite (preorder_eq_flip _ _ H1), (preorder_eq_flip _ _ H2), (preorder_flip (f := f) x z) in Ht'. rewrite H1, H2 in Ht.
  destruct (f x z); [done | exfalso; by apply Ht' | exfalso; by apply Ht].
Qed.
Lemma preorder_lt_trans x y z : f x y <> Gt -> f y z <> Gt -> f x y = Lt \/ f y z = Lt -> f x z = Lt.
Proof.
  intros H1 H2 Hlt. destruct (f x z) eqn:E; [|done | by apply (preorder_trans (f := f) x y z) in H1].
  exfalso. destruct Hlt as [Hlt|Hlt].
  - assert (f y x <> Gt) as Hc by (apply (preorder_trans (f := f) y z x); [done | by rewrite (preorder_eq_flip _ _ E)]).
    by rewrite (preorder_lt_flip _ _ Hlt) in Hc.
  - assert (f z y <> Gt) as Hc by (apply (preorder_trans (f := f) z x y); [by rewrite (preorder_eq_flip _ _ E) | done]).
    by rewrite (preorder_lt_flip _ _ Hlt) in Hc.
Qed.
End Comparators.

Definition lexical {A} (f g : A -> A -> comparison) (x y : A) : comparison := match f x y with Eq => g x y | c => c end.

#[export] Instance lexical_preorder {A} (f g : A -> A -> comparison) :
  TotalPreorder f -> TotalPreorder g -> TotalPreorder (lexical f g).
Proof.
  intros Hf Hg. split; unfold lexical.
  - intros x y. rewrite (preorder_flip (f := f) x y). destruct (f x y); simpl; [apply (preorder_flip (f := g)) | done..].
  - intros x y z H1 H2.
    assert (f x y <> Gt) as F1 by (by destruct (f x y)). assert (f y z <> Gt) as F2 by (by destruct (f y z)).
    destruct (f x y) eqn:E1; [|rewrite (preorder_lt_trans f x y z); auto; congruence | done].
    destruct (f y z) eqn:E2; [|rewrite (preorder_lt_trans f x y z); auto; congruence | done].
    rewrite (preorder_eq_trans f x y z) by done. by apply (preorder_trans (f := g) x y z).
Qed.

#[export] Instance opposite_preorder {A} (f : A -> A -> comparison) :
  TotalPreorder f -> TotalPreorder (fun x y => CompOpp (f x y)).
Proof.
  intros Hf. split.
  - intros x y. by rewrite (preorder_flip (f := f) x y).
  - intros x y z. rewrite <- !(preorder_flip (f := f)). intros H1 H2. by apply (preorder_trans (f := f) z y x).
Qed.

#[export] Instance on_preorder {A B} (f : B -> B -> comparison) (h : A -> B) :
  TotalPreorder f -> TotalPreorder (fun x y => f (h x) (h y)).
Proof. intros Hf. split; [intros x y; apply (preorder_flip (f := f)) | intros x y z; apply (preorder_trans (f := f))]. Qed.

#[export] Instance equal_preorder {A} : TotalPreorder (fun _ _ : A => Eq).
Proof. by split. Qed.

#[export] Instance cmp_preorder {K} `{Ord K} : TotalPreorder (cmp (K := K)).
Proof. split; [intros x y; apply cmp_antisym | intros x y z; apply (cmp_le_trans x y z)]. Qed.

(** ** The comparator of a sort *)

(** The same comparison on sort keys. *)
Fixpoint compare_sort_keys (descending : list bool) (index : nat) : list Datum -> list Datum -> comparison :=
  match descending with
  | [] => fun _ _ => Eq
  | desc :: rest =>
      lexical (fun a b => let o := key_compare (default D_Null (a !! index)) (default D_Null (b !! index)) in if desc then CompOpp o else o)
        (compare_sort_keys rest (S index))
  end.

#[export] Instance compare_sort_keys_preorder descending index : TotalPreorder (compare_sort_keys descending index).
Proof.
  revert index. induction descending as [|[] rest IH]; intros index; simpl; [apply _| |]; apply lexical_preorder; try apply IH.
  - apply (opposite_preorder (fun a b : list Datum => key_compare (default D_Null (a !! index)) (default D_Null (b !! index)))).
    apply (on_preorder key_compare (fun a : list Datum => default D_Null (a !! index))), key_compare_preorder.
  - apply (on_preorder key_compare (fun a : list Datum => default D_Null (a !! index))), key_compare_preorder.
Qed.

Definition row_compare (descending : list bool) : list Datum * Row -> list Datum * Row -> comparison :=
  lexical (fun a b => compare_sort_keys descending 0 a.1 b.1) (fun a b => cmp a.2 b.2).

#[export] Instance row_compare_preorder descending : TotalPreorder (row_compare descending).
Proof.
  apply lexical_preorder; [apply (on_preorder (compare_sort_keys descending 0) fst), compare_sort_keys_preorder
                          | apply (on_preorder cmp snd), cmp_preorder].
Qed.

(** Every sort column holds values of one family. *)
Definition keys_in (families : nat -> family) (ks : list Datum) : Prop :=
  forall i, in_family (families i) (default D_Null (ks !! i)) = true.

Lemma compare_keys_sortable families descending index a b :
  keys_in families a -> keys_in families b -> compare_keys descending index a b = compare_sort_keys descending index a b.
Proof.
  intros Ha Hb. revert index. induction descending as [|desc rest IH]; intros index; [done|]. simpl. unfold lexical.
  rewrite (compare_sort_key (is_float (families index))) by (by apply family_sortable).
  fold (key_compare (default D_Null (a !! index)) (default D_Null (b !! index))). by rewrite IH.
Qed.

(** [ORDER BY k0 [DESC], k1 [DESC], ..]: the first column whose values differ decides, NULL being greater than every value. *)
Fixpoint sql_order_by (descending : list bool) (index : nat) (a b : list Datum) : option comparison :=
  match descending with
  | [] => Some Eq
  | desc :: rest =>
      match sql_order (default D_Null (a !! index)) (default D_Null (b !! index)) with
      | Some Eq => sql_order_by rest (S index) a b
      | Some c => Some (if desc then CompOpp c else c)
      | None => None
      end
  end.

Lemma compare_keys_sql families descending index a b :
  keys_in families a -> keys_in families b -> sql_order_by descending index a b = Some (compare_keys descending index a b).
Proof.
  intros Ha Hb. revert index. induction descending as [|desc rest IH]; intros index; [done|]. simpl.
  rewrite (order_is_sql (families index)) by done. destruct (compare_datums_sort _ _), desc; simpl; try done; apply IH.
Qed.

Lemma sort_by_ext {A} (P : A -> Prop) f g (l : list A) :
  (forall x y, P x -> P y -> f x y = g x y) -> Forall P l -> sort_by f l = sort_by g l.
Proof.
  intros E Hl. induction Hl as [|x l Hx Hl IH]; simpl; [done|]. rewrite IH.
  assert (Forall P (sort_by g l)) as Hs by (by rewrite sort_by_perm). clear -E Hx Hs.
  induction Hs as [|y s Hy _ IH]; simpl; [done|]. rewrite E by done. by rewrite IH.
Qed.

(** ** [ORDER BY .. LIMIT .. OFFSET] *)

Section OrderBy.
Context (sort_extract : Row -> run (list Datum)) (key : Row -> list Datum) (families : nat -> family) (descending : list bool) (c : collection Row).

(** The sort expressions of a row return, and give values of the columns' families. *)
Definition key_ok (row : Row) : Prop := sort_extract row = Ok (key row) /\ keys_in families (key row).
Definition keyed_ok (p : list Datum * Row) : Prop := p.1 = key p.2 /\ key_ok p.2.
Hypothesis rows_ok : coll_forall key_ok c.

(** One row may stand before another: by the sort columns, and equal ones by the row itself. *)
Definition query_le (x y : Row) : Prop :=
  match sql_order_by descending 0 (key x) (key y) with Some Lt => True | Some Eq => cmp x y <> Gt | _ => False end.

Definition keyed_rows : collection (list Datum * Row) := coll_map (fun row => (key row, row)) c.

(** Rows in query order. *)
Definition sorted_rows : list (list Datum * Row) :=
  sort_by (row_compare descending) (expand (group tt (coll_map (fun v => (tt, v)) keyed_rows))).

Lemma occurrences_snd row (l : list (list Datum * Row)) :
  Forall keyed_ok l -> occurrences row (map snd l) = occurrences (key row, row) l.
Proof.
  induction 1 as [|[k x] l [Hk _] _ IH]; [done|]. simpl in *. change (x :: map snd l) with ([x] ++ map snd l).
  change ((k, x) :: l) with ([(k, x)] ++ l). rewrite !occurrences_app, IH. f_equal. unfold occurrences. simpl. subst k.
  destruct (ord_eqb_spec x row) as [->|]; [by rewrite ord_eqb_refl|]. by destruct (ord_eqb_spec (key x, x) (key row, row)) as [[= _ ->]|].
Qed.

Lemma mult_keyed_rows row : mult (key row, row) keyed_rows = mult row c.
Proof.
  unfold mult, keyed_rows, coll_map. rewrite (total_map (fun row => (key row, row))). apply total_ext. intros x.
  destruct (ord_eqb_spec x row) as [->|]; [by rewrite ord_eqb_refl|]. by destruct (ord_eqb_spec (key x, x) (key row, row)) as [[= _ ->]|].
Qed.

Lemma comparator_sortable (p q : list Datum * Row) :
  keyed_ok p -> keyed_ok q -> sort_key_comparator descending p q = row_compare descending p q.
Proof.
  intros (Hp & _ & Hpk) (Hq & _ & Hqk). unfold sort_key_comparator, row_compare, lexical.
  by rewrite (compare_keys_sortable families) by congruence.
Qed.

Lemma comparator_sql (p q : list Datum * Row) :
  keyed_ok p -> keyed_ok q -> sort_le (row_compare descending) p q -> query_le p.2 q.2.
Proof.
  intros Hp Hq. unfold sort_le. rewrite <- comparator_sortable by done. destruct Hp as (Hp & _ & Hpk), Hq as (Hq & _ & Hqk).
  unfold query_le. rewrite (compare_keys_sql families), <- Hp, <- Hq by done. unfold sort_key_comparator. by destruct (compare_keys _ _ _ _).
Qed.

Lemma sorted_rows_ok : Forall keyed_ok sorted_rows.
Proof.
  unfold sorted_rows. rewrite sort_by_perm. apply expand_from. apply Forall_forall. intros [p w] [-> Hne]%group_elem. simpl.
  rewrite mult_unit_values in Hne. assert (coll_forall keyed_ok keyed_rows) as Hk by (apply (forall_map key_ok); done).
  by apply (coll_forall_elem _ _ p (mult p keyed_rows) (consolidated_from _ _ Hk)), consolidated_elem.
Qed.

Lemma sorted_rows_mult row : bag c -> occurrences row (map snd sorted_rows) = mult row c.
Proof.
  intros Hb. rewrite occurrences_snd by apply sorted_rows_ok. unfold sorted_rows.
  rewrite (occurrences_perm _ _ _ (sort_by_perm _ _)), expand_occurrences, unit_group_get, mult_keyed_rows by apply group_wf.
  specialize (Hb row). lia.
Qed.

Lemma sorted_rows_sorted : StronglySorted query_le (map snd sorted_rows).
Proof.
  pose proof (preorder_sorted (row_compare descending) (expand (group tt (coll_map (fun v => (tt, v)) keyed_rows)))) as Hs.
  fold sorted_rows in Hs. pose proof sorted_rows_ok as Hk. induction Hs as [|p l _ IH Hp]; [constructor|].
  inversion Hk as [|? ? Hkp Hkl]; subst. simpl. constructor; [by apply IH|]. rewrite Forall_forall in Hp, Hkl. apply Forall_map, Forall_forall.
  intros q Hq. apply comparator_sql; auto.
Qed.

Lemma project_keyed : project_run c (fun row => let? k := sort_extract row in Ok (k, row)) = Ok keyed_rows.
Proof.
  pose proof rows_ok as Hc. unfold keyed_rows. clear rows_ok. induction Hc as [|[row w] l [Hrow _] _ IH]; [done|]. unfold project_run in *. simpl in *.
  rewrite Hrow. simpl. by rewrite IH.
Qed.

Lemma topk_window limit offset :
  topk_by keyed_rows (sort_key_comparator descending) limit offset ≡ map (fun v => (v, 1)) (take_z limit (drop_z offset sorted_rows)).
Proof.
  intros d. rewrite mult_ones. unfold topk_by. rewrite mult_unit_snd, reduce_mult. unfold sorted_rows.
  destruct (group tt _) as [|p g] eqn:Eg; [simpl; by rewrite drop_z_nil, take_z_nil|]. rewrite mult_ones, <- Eg.
  rewrite (sort_by_ext keyed_ok (sort_key_comparator descending) (row_compare descending)); [done | apply comparator_sortable|].
  pose proof sorted_rows_ok as Hk. unfold sorted_rows in Hk. by rewrite sort_by_perm in Hk.
Qed.

(** C29: ORDER BY with LIMIT and OFFSET, over an input with no negative multiplicity whose sort
    expressions return on every row and give, column by column, NULLs or values of one kind that SQL
    orders (integers of any width, floats of 64 bits without NaN, booleans, text, byteas, uuids,
    dates, times or timestamps): the result is the window of one listing of all rows, each as often
    as it occurs, sorted in SQL's order of the values by the keys with their directions, NULL
    greatest, and ties broken by the row itself. *)
Theorem order_by_exact limit offset :
  bag c ->
  exists listing,
    StronglySorted query_le listing /\ (forall row, occurrences row listing = mult row c) /\
    exists out, install_op (NR_TopK sort_extract descending limit offset) [c] = Ok out /\
      forall row, mult row out = occurrences row (take_z limit (drop_z offset listing)).
Proof.
  intros Hb. exists (map snd sorted_rows). split_and!; [apply sorted_rows_sorted | intros row; by apply sorted_rows_mult|].
  cbn [install_op]. rewrite project_keyed. cbn [exec_bind]. eexists. split; [done|]. intros row.
  rewrite drop_z_map, take_z_map, <- mult_ones. unfold rel_project, coll_map, mult.
  rewrite (total_map snd), (total_proper _ _ _ (topk_window limit offset)), !map_map.
  induction (take_z limit (drop_z offset sorted_rows)) as [|p l IH]; simpl; [done|]. by rewrite IH.
Qed.
End OrderBy.
