(* ===== verification/Congruence.v ===== *)
(** * Congruence: a query depends on the rows of its tables, not on their updates

    The dataflow is fed updates; two sequences of updates that accumulate to the
    same multiplicities must give the same query result. Every operator that
    [install_op] builds respects the equality of multiplicities, and so do the
    iteration of recursive queries and the installation of a whole plan.
    Closures may panic on a row that another sequence of updates never mentions,
    so two runs are compared when both return.

    The operators that only add rows when their inputs gain rows are monotone; a
    recursive query built from them reaches the least set of rows that contains its
    base and that its step maps into itself. *)

From stdpp Require Import gmap.
From S2P Require Import Prelude BTree Text Values Literals Floats Datums Exprs Like Eval Mir Consolidation Operators Relational RelationalFacts CompileMir Install QueryFacts.

(** ** Results that agree *)

Definition agree {A} (R : relation A) (m m' : installed A) : Prop := forall a a', m = Ok a -> m' = Ok a' -> R a a'.

Lemma agree_ok {A} (R : relation A) a a' : R a a' -> agree R (Ok a) (Ok a').
Proof. by intros HR ? ? [= <-] [= <-]. Qed.
Lemma agree_stop_l {A} (R : relation A) (m m' : installed A) : (forall a, m <> Ok a) -> agree R m m'.
Proof. intros Hm a a' E. by destruct (Hm a). Qed.
Lemma agree_panic {A} (R : relation A) m : agree R Panic m.
Proof. by apply agree_stop_l. Qed.
Lemma agree_bind {A B} (R : relation A) (S : relation B) (m m' : installed A) (k k' : A -> installed B) :
  agree R m m' -> (forall a a', R a a' -> agree S (k a) (k' a')) -> agree S (exec_bind m k) (exec_bind m' k').
Proof.
  intros Hm Hk b b' (a & Ea & Eb)%exec_bind_ok (a' & Ea' & Eb')%exec_bind_ok. exact (Hk a a' (Hm a a' Ea Ea') b b' Eb Eb').
Qed.

Create HintDb congruent.
#[export] Hint Resolve agree_ok agree_panic : congruent.

(** ** Operators *)

Section PerRecord.
Context {D D2 : Type} `{Ord D} `{Ord D2}.

Lemma coll_map_proper (f : D -> D2) c c' : c ≡ c' -> coll_map f c ≡ coll_map f c'.
Proof. intros E d. unfold mult, coll_map. rewrite !(total_map f). by apply total_proper. Qed.
Lemma coll_filter_proper (P : D -> bool) c c' : c ≡ c' -> coll_filter P c ≡ coll_filter P c'.
Proof. intros E d. unfold coll_filter. by rewrite !mult_filter, E. Qed.
Lemma coll_concat_proper (a a' b b' : collection D) : a ≡ a' -> b ≡ b' -> coll_concat a b ≡ coll_concat a' b'.
Proof. intros Ea Eb d. unfold coll_concat. by rewrite !mult_app, Ea, Eb. Qed.

(** A closure that may panic contributes the weight of the records it returned on. *)
Lemma project_run_mult (f : D -> run D2) c out d :
  project_run c f = Ok out -> mult d out = total (fun x => match f x with Ok y => indicator (ord_eqb y d) | _ => 0 end) c.
Proof.
  unfold project_run. intros Hl%exec_mapM_ok. induction Hl as [|[x w] [y w'] c out Hx _ IH]; [done|].
  unfold mult in *. simpl in *. rewrite <- IH. destruct (f x) as [y'|[]|]; simpl in Hx; [|done]. by injection Hx as -> ->.
Qed.
Lemma filter_run_mult (f : D -> run bool) c out d :
  filter_run c f = Ok out -> mult d out = total (fun x => match f x with Ok true => indicator (ord_eqb x d) | _ => 0 end) c.
Proof.
  unfold filter_run, exec_map. intros (l & Hl & [= <-])%exec_bind_ok. apply exec_mapM_ok in Hl.
  induction Hl as [|[x w] [b p] c l Hx _ IH]; [done|]. unfold mult in *. simpl in *.
  destruct (f x) as [b'|[]|]; simpl in Hx; [|done]. injection Hx as -> <-. destruct b; simpl; rewrite <- IH; lia.
Qed.
Lemma project_run_agree (f : D -> run D2) c c' : c ≡ c' -> agree (≡@{collection D2}) (project_run c f) (project_run c' f).
Proof. intros E o o' Ho Ho' d. rewrite (project_run_mult _ _ _ _ Ho), (project_run_mult _ _ _ _ Ho'). by apply total_proper. Qed.
Lemma filter_run_agree (f : D -> run bool) c c' : c ≡ c' -> agree (≡@{collection D}) (filter_run c f) (filter_run c' f).
Proof. intros E o o' Ho Ho' d. rewrite (filter_run_mult _ _ _ _ Ho), (filter_run_mult _ _ _ _ Ho'). by apply total_proper. Qed.
End PerRecord.

Section Keyed.
Context {K V V2 D : Type} `{Ord K} `{Ord V} `{Ord V2} `{Ord D}.

Lemma join_map_proper (logic : K -> V -> V2 -> D) a a' b b' : a ≡ a' -> b ≡ b' -> join_map logic a b ≡ join_map logic a' b'.
Proof.
  intros Ea Eb d. unfold mult. rewrite !total_join. rewrite (total_proper _ a a' Ea). apply total_ext. intros p. by apply total_proper.
Qed.
Lemma semijoin_proper (a a' : collection (K * V)) keys keys' : a ≡ a' -> keys ≡ keys' -> semijoin a keys ≡ semijoin a' keys'.
Proof.
  intros Ea Ek d. unfold mult at 1 2. rewrite !total_semijoin, (total_proper _ a a' Ea). apply total_ext. intros p. by rewrite Ek.
Qed.
Lemma antijoin_proper (a a' : collection (K * V)) keys keys' : a ≡ a' -> keys ≡ keys' -> antijoin a keys ≡ antijoin a' keys'.
Proof.
  intros Ea Ek d. unfold mult at 1 2. rewrite !total_antijoin, (total_proper _ a a' Ea). apply total_ext. intros p. by rewrite Ek.
Qed.
End Keyed.

Lemma distinct_proper {K} `{Ord K} (c c' : collection K) : c ≡ c' -> distinct c ≡ distinct c'.
Proof. intros E d. by rewrite !distinct_mult, E. Qed.

#[export] Hint Resolve coll_map_proper coll_filter_proper coll_concat_proper join_map_proper semijoin_proper antijoin_proper distinct_proper : congruent.
#[export] Hint Resolve project_run_agree filter_run_agree : congruent.
Ltac congruent :=
  cbv beta zeta delta [rel_project rel_filter rel_distinct rel_union union_distinct equi_join left_join]; eauto 12 with congruent.

Lemma install_join_proper kind left_keys right_keys width l l' r r' :
  l ≡ l' -> r ≡ r' -> install_join kind left_keys right_keys width l r ≡ install_join kind left_keys right_keys width l' r'.
Proof. intros El Er. unfold install_join. destruct kind; congruent.
  apply coll_concat_proper; [congruent|]. apply coll_map_proper, antijoin_proper; congruent.
Qed.

Lemma install_aggregate_agree ge ves funcs empty_default c c' :
  c ≡ c' -> agree (≡@{collection Row}) (install_aggregate ge ves funcs empty_default c) (install_aggregate ge ves funcs empty_default c').
Proof.
  intros E. unfold install_aggregate. apply (agree_bind (≡@{collection (list Datum * list Datum)})); [congruent|].
  intros keyed keyed' Ek. apply agree_ok. unfold aggregate_datums. rewrite (reduce_proper _ keyed keyed' Ek).
  destruct empty_default; congruent.
Qed.

Lemma union_proper (all : bool) (l l' r r' : collection Row) :
  l ≡ l' -> r ≡ r' -> (if all then rel_union l r else union_distinct l r) ≡ (if all then rel_union l' r' else union_distinct l' r').
Proof. destruct all; congruent. Qed.
Lemma bag_set_op_proper combine (l l' r r' : collection Row) : l ≡ l' -> r ≡ r' -> bag_set_op l r combine ≡ bag_set_op l' r' combine.
Proof. intros El Er d. by rewrite !bag_set_op_mult, El, Er. Qed.

(** The sorting operators key their rows and reduce. *)
Lemma keyed_reduce_agree {B} `{Ord B} (f : Row -> run B) (k : collection B -> collection Row) c c' :
  (forall keyed keyed', keyed ≡ keyed' -> k keyed ≡ k keyed') -> c ≡ c' ->
  agree (≡@{collection Row}) (let? keyed := project_run c f in Ok (k keyed)) (let? keyed := project_run c' f in Ok (k keyed)).
Proof. intros Hk E. apply (agree_bind (≡@{collection B})); congruent. Qed.
Lemma topk_by_proper {D} `{Ord D} compare limit offset (c c' : collection D) :
  c ≡ c' -> topk_by c compare limit offset ≡ topk_by c' compare limit offset.
Proof. intros E. unfold topk_by. rewrite (reduce_proper _ _ (coll_map (fun v => (tt, v)) c')); congruent. Qed.
Lemma distinct_on_proper {K D} `{Ord K} `{Ord D} compare (c c' : collection (K * D)) :
  c ≡ c' -> distinct_on_first c compare ≡ distinct_on_first c' compare.
Proof. intros E. unfold distinct_on_first. by rewrite (reduce_proper _ _ c'). Qed.

#[export] Hint Resolve install_join_proper install_aggregate_agree union_proper bag_set_op_proper topk_by_proper distinct_on_proper : congruent.

(** An operator reads its inputs as bags. *)
Lemma install_op_agree recipe ins ins' :
  Forall2 (≡@{collection Row}) ins ins' -> agree (≡@{collection Row}) (install_op recipe ins) (install_op recipe ins').
Proof.
  intros [|c c' rest rest' E Hrest]; [destruct recipe; congruent|].
  assert (Forall2 (≡@{collection Row}) rest rest') as Hr by done. clear Hrest.
  destruct recipe; try (destruct Hr as [|d d' ? ? E' _]); cbn [install_op]; try solve [congruent | eauto with congruent];
    (eapply keyed_reduce_agree; [|done]); congruent.
Qed.

(** ** Iteration *)

Lemma same_collection_spec a b : same_collection a b = true <-> a ≡ b.
Proof.
  unfold same_collection. rewrite bool_decide_eq_true. split; [|apply consolidated_proper].
  intros E. by rewrite <- (consolidated_equiv a), E, consolidated_equiv.
Qed.

Lemma iterate_until_agree {A} (R : relation A) rounds same (f f' : A -> installed A) :
  (forall x x' y y', R x x' -> R y y' -> same x y = same x' y') -> (forall x x', R x x' -> agree R (f x) (f' x')) ->
  forall x x', R x x' -> agree R (iterate_until rounds same f x) (iterate_until rounds same f' x').
Proof.
  intros Hs Hf. induction rounds as [|n IH]; intros x x' Hx; [by apply agree_stop_l|]. simpl.
  eapply agree_bind; [by apply Hf|]. intros y y' Hy. rewrite (Hs x x' y y' Hx Hy). destruct (same x' y'); [by apply agree_ok | by apply IH].
Qed.

Lemma same_collection_proper (a a' b b' : collection Row) : a ≡ a' -> b ≡ b' -> same_collection a b = same_collection a' b'.
Proof. intros Ea Eb. unfold same_collection. by rewrite (consolidated_proper _ _ Ea), (consolidated_proper _ _ Eb). Qed.

Lemma install_fixpoint_agree rounds union_all (step step' : collection Row -> installed (collection Row)) base base' :
  (forall w w' : collection Row, w ≡ w' -> agree (≡@{collection Row}) (step w) (step' w')) -> base ≡ base' ->
  agree (≡@{collection Row}) (install_fixpoint rounds union_all step base) (install_fixpoint rounds union_all step' base').
Proof.
  intros Hstep E. unfold install_fixpoint. destruct union_all.
  - unfold exec_map. eapply (agree_bind (fun p q : collection Row * collection Row => p.1 ≡ q.1 /\ p.2 ≡ q.2)).
    + apply iterate_until_agree; [|intros [acc wave] [acc' wave'] [Ea Ew]|done].
      * intros [] [] [] [] [] []. simpl in *. f_equal; by apply same_collection_proper.
      * eapply agree_bind; [by apply Hstep|]. intros o o' Eo. apply agree_ok. simpl.
        by split; rewrite !consolidated_equiv; [apply coll_concat_proper|].
    + intros [] [] []. by apply agree_ok.
  - apply iterate_until_agree; [apply same_collection_proper| |done]. intros w w' Ew.
    eapply agree_bind; [by apply Hstep|]. congruent.
Qed.

(** ** Plans

    Two runs of a plan, node by node, for any relation the operators preserve. *)

Definition reads_inside `{PetGraph MirNodeKind MirEdgeKind} (plan : CompiledPlan) (inside : nat -> Prop) (n : nat) (recipe : NodeRecipe) : Prop :=
  match recipe with
  | NR_BaseTable _ | NR_RecursiveRef _ | NR_Fixpoint _ _ => True
  | NR_CteRef target => inside target
  | _ => forall nodes, operator_inputs plan n recipe = Ok nodes -> Forall inside nodes
  end.

Section Related.
Context `{PetGraph MirNodeKind MirEdgeKind} (plan : CompiledPlan) (inputs inputs' : gmap Z (collection Row)).
Context (R : relation (collection Row)) (good : NodeRecipe -> Prop) (inside : nat -> Prop).
Hypothesis op_related : forall recipe ins ins', good recipe -> Forall2 R ins ins' -> agree R (install_op recipe ins) (install_op recipe ins').
(** A part of the plan with what it reads, down to sources and references to iterations. *)
Hypothesis plan_good : forall n recipe, inside n -> cp_recipes plan !! n = Some recipe -> good recipe /\ reads_inside plan inside n recipe.
Hypothesis same_tables : forall table, option_Forall2 R (inputs !! table) (inputs' !! table).

Definition same_cache (c c' : cache) : Prop := forall n, option_Forall2 R (c !! n) (c' !! n).
Definition same_answer (p q : collection Row * cache) : Prop := R p.1 q.1 /\ same_cache p.2 q.2.

Lemma same_cache_insert c c' n x x' : R x x' -> same_cache c c' -> same_cache (<[n := x]> c) (<[n := x']> c').
Proof.
  intros Ex Hc k. destruct (decide (n = k)) as [->|Hne]; [rewrite !lookup_insert_eq; by constructor | rewrite !lookup_insert_ne by done; apply Hc].
Qed.

Section Nodes.
Context (install install' : nat -> cache -> installed (collection Row * cache)).
Hypothesis Hinstall : forall n c c', inside n -> same_cache c c' -> agree same_answer (install n c) (install' n c').

Lemma install_all_agree nodes : Forall inside nodes -> forall c c', same_cache c c' ->
  agree (fun p q => Forall2 R p.1 q.1 /\ same_cache p.2 q.2) (install_all install nodes c) (install_all install' nodes c').
Proof.
  induction 1 as [|n nodes Hn _ IH]; intros c c' Hc; [by apply agree_ok|]. simpl.
  eapply agree_bind; [by apply Hinstall|]. intros [x c1] [x' c1'] [Ex Hc1].
  eapply agree_bind; [by apply IH|]. intros [xs c2] [xs' c2'] [Exs Hc2]. apply agree_ok. split; [by constructor | done].
Qed.

Lemma install_operator_agree node recipe c c' :
  good recipe -> (forall nodes, operator_inputs plan node recipe = Ok nodes -> Forall inside nodes) -> same_cache c c' ->
  agree same_answer (install_operator plan install node recipe c) (install_operator plan install' node recipe c').
Proof.
  intros Hg Hn Hc. unfold install_operator. apply (agree_bind (fun nodes nodes' => nodes = nodes' /\ Forall inside nodes)).
  { intros nodes nodes' E E'. rewrite E in E'. injection E' as <-. auto. }
  intros nodes ? [<- Hin]. eapply agree_bind; [by apply install_all_agree|]. intros [xs c1] [xs' c1'] [Exs Hc1].
  eapply agree_bind; [by apply op_related|]. intros o o' Eo. by apply agree_ok.
Qed.

(** One node, given what its recipe yields. *)
Lemma install_node_agree node c c' (m m' : installed (collection Row * cache)) :
  same_cache c c' -> agree same_answer m m' ->
  agree same_answer
    (match c !! node with Some x => Ok (x, c) | None => let? (x, c) := m in Ok (x, <[node := x]> c) end)
    (match c' !! node with Some x => Ok (x, c') | None => let? (x, c) := m' in Ok (x, <[node := x]> c) end).
Proof.
  intros Hc Hm. destruct (Hc node) as [x x' Ex|]; [by apply agree_ok|]. eapply agree_bind; [exact Hm|].
  intros [x c1] [x' c1'] [Ex Hc1]. apply agree_ok. split; [done | by apply same_cache_insert].
Qed.

Lemma base_table_agree table c c' : same_cache c c' ->
  agree same_answer (match inputs !! table with Some x => Ok (x, c) | None => Panic end)
    (match inputs' !! table with Some x => Ok (x, c') | None => Panic end).
Proof. intros Hc. destruct (same_tables table); [by apply agree_ok | apply agree_panic]. Qed.
End Nodes.

Lemma install_step_agree fuel : forall working working' node c c', inside node -> R working working' -> same_cache c c' ->
  agree same_answer (install_step plan inputs fuel working node c) (install_step plan inputs' fuel working' node c').
Proof.
  induction fuel as [|fuel IH]; intros w w' node c c' Hin Ew Hc; [apply agree_panic|]. cbn [install_step]. apply install_node_agree; [done|].
  destruct (cp_recipes plan !! node) as [recipe|] eqn:Er; [|apply agree_panic]. destruct (plan_good node recipe Hin Er) as [Hg Hr].
  destruct recipe; try apply agree_panic; auto using base_table_agree; try (by apply agree_ok);
    apply install_operator_agree; auto.
Qed.

Lemma zip_cache nodes (xs xs' : list (collection Row)) :
  Forall2 R xs xs' -> same_cache (list_to_map (zip nodes xs)) (list_to_map (zip nodes xs')).
Proof.
  intros E. revert nodes. induction E as [|x x' xs xs' Ex _ IH]; intros [|n nodes] k; simpl; try constructor.
  apply same_cache_insert; [done | apply IH].
Qed.
End Related.

Section Plan.
Context `{PetGraph MirNodeKind MirEdgeKind} (plan : CompiledPlan) (inputs inputs' : gmap Z (collection Row)).
Hypothesis same_tables : forall table, option_Forall2 (≡@{collection Row}) (inputs !! table) (inputs' !! table).
Context (rounds : nat).
Abbreviation alike := (same_cache (≡@{collection Row})).

Lemma install_recursive_agree fuel : forall node c c', alike c c' ->
  agree (same_answer (≡@{collection Row})) (install_recursive plan inputs rounds fuel node c) (install_recursive plan inputs' rounds fuel node c').
Proof.
  assert (forall recipe ins ins', True -> Forall2 (≡@{collection Row}) ins ins' -> agree (≡@{collection Row}) (install_op recipe ins) (install_op recipe ins')) as Hop
    by (intros; by apply install_op_agree).
  induction fuel as [|fuel IH]; intros node c c' Hc; [apply agree_panic|]. cbn [install_recursive]. apply install_node_agree; [done|].
  destruct (cp_recipes plan !! node) as [[]|]; try apply agree_panic; auto using base_table_agree;
    try (apply (install_operator_agree plan (≡) (fun _ => True) (fun _ => True)); auto; intros; by apply Forall_true).
  destruct (ordered_inputs (cp_graph plan) node) as [|base_node [|step_node rest]]; try apply agree_panic.
  eapply agree_bind; [by apply IH|]. intros [base c1] [base' c1'] [Eb Hc1].
  eapply agree_bind; [apply (install_all_agree (≡) (fun _ => True)); auto; by apply Forall_true|]. intros [xs c2] [xs' c2'] [Exs Hc2]. cbn [fst snd] in *.
  eapply agree_bind; [|intros x x' Ex; by apply agree_ok].
  apply install_fixpoint_agree; [|done]. intros w w' Ew. unfold exec_map.
  eapply agree_bind; [apply (install_step_agree plan inputs inputs' (≡) (fun _ => True) (fun _ => True)); auto using zip_cache; intros n []; (split; [done|]); simpl; try done; intros; by apply Forall_true|].
  intros [] [] []. by apply agree_ok.
Qed.

Lemma install_plan_agree : agree (≡@{collection Row}) (install_plan plan inputs rounds) (install_plan plan inputs' rounds).
Proof.
  unfold install_plan, exec_map. eapply agree_bind; [apply install_recursive_agree; intros n; rewrite !lookup_empty; constructor|].
  intros [] [] []. by apply agree_ok.
Qed.
End Plan.

(** ** Growth *)

Definition present {D} `{Ord D} (d : D) (c : collection D) : Prop := 0 < mult d c.
#[export] Instance present_dec {D} `{Ord D} (d : D) c : Decision (present d c) := Z.lt_dec _ _.
(** Bags, the second with at least the rows of the first. *)
Definition grows {D} `{Ord D} (c c' : collection D) : Prop := bag c /\ bag c' /\ forall d, present d c -> present d c'.

Section Growth.
Context {D : Type} `{Ord D}.

Lemma total_positive (f : D -> Z) c : bag c -> (forall d, 0 <= f d) -> 0 < total f c <-> exists d, present d c /\ 0 < f d.
Proof.
  intros Hb Hf. rewrite <- total_consolidated. unfold present.
  assert (Forall (fun p => 0 < p.2 /\ p.2 = mult p.1 c) (consolidated c)) as Hpos.
  { apply Forall_forall. intros [d w] [-> Hne]%consolidated_elem. specialize (Hb d). simpl in *. lia. }
  assert (forall d, 0 < mult d c -> (d, mult d c) ∈ consolidated c) as Hin by (intros d Hd; apply consolidated_elem; lia).
  split.
  - clear Hin. induction Hpos as [|[d w] l [Hw Ew] _ IH]; simpl in *; [done|]. intros Ht. destruct (Z.eq_dec (f d) 0) as [E|]; [apply IH; lia|].
    exists d. specialize (Hf d). lia.
  - intros (d & Hd%Hin & Hfd). clear Hin. induction Hpos as [|[x w] l [Hw Ew] Hl IH]; simpl in *; [by apply elem_of_nil in Hd|].
    assert (0 <= total f l) by (clear -Hf Hl; induction Hl as [|[y v] l [Hv _] _ IH]; simpl in *; [done|]; specialize (Hf y); nia).
    apply elem_of_cons in Hd as [[= -> Ed]|Hd]; [nia|]. specialize (Hf x). specialize (IH Hd). nia.
Qed.

Lemma total_grows (f f' : D -> Z) c c' :
  grows c c' -> (forall d, 0 <= f d) -> (forall d, 0 <= f' d) -> (forall d, 0 < f d -> 0 < f' d) ->
  0 <= total f c /\ 0 <= total f' c' /\ (0 < total f c -> 0 < total f' c').
Proof.
  intros (Hb & Hb' & Hg) Hf Hf' Hff. split_and!; [by apply total_nonneg..|]. rewrite !total_positive by done. intros (d & Hd & Hfd). eauto.
Qed.

(** An operator whose outputs weigh a non-negative sum of its input. *)
Lemma grows_weighted {E} `{Ord E} (f : E -> D -> Z) c c' (o o' : collection E) :
  grows c c' -> (forall e d, 0 <= f e d) -> (forall e, mult e o = total (f e) c) -> (forall e, mult e o' = total (f e) c') -> grows o o'.
Proof.
  intros Hg Hf Eo Eo'. assert (forall e, 0 <= total (f e) c /\ 0 <= total (f e) c' /\ (0 < total (f e) c -> 0 < total (f e) c')) as Ht
    by (intros e; by apply total_grows).
  split_and!; intros e; specialize (Ht e); unfold present; rewrite ?Eo, ?Eo'; lia.
Qed.

Lemma grows_refl (c : collection D) : bag c -> grows c c.
Proof. by intros. Qed.
Lemma grows_equiv (c c' : collection D) : bag c -> c ≡ c' -> grows c c'.
Proof. intros Hb E. split_and!; [done|intros d; rewrite <- E; apply Hb|]. intros d. unfold present. by rewrite E. Qed.
Lemma grows_concat (a a' b b' : collection D) : grows a a' -> grows b b' -> grows (coll_concat a b) (coll_concat a' b').
Proof.
  intros (Ha & Ha' & Hg) (Hb & Hb' & Hg'). split_and!; intros d; specialize (Ha d); specialize (Ha' d); specialize (Hb d); specialize (Hb' d);
    specialize (Hg d); specialize (Hg' d); unfold present, coll_concat in *; rewrite ?mult_app; lia.
Qed.
Lemma distinct_present d (c : collection D) : bag c -> mult d (distinct c) = indicator (bool_decide (present d c)).
Proof. intros Hb. rewrite distinct_mult. specialize (Hb d). unfold present. destruct (Z.eqb_spec (mult d c) 0); case_bool_decide; simpl; lia. Qed.
Lemma grows_distinct (c c' : collection D) : grows c c' -> grows (distinct c) (distinct c').
Proof.
  intros (Hb & Hb' & Hg). split_and!; intros d; unfold present; rewrite !distinct_present by done; repeat case_bool_decide; simpl; try lia.
  by destruct (H1 (Hg d H0)).
Qed.
End Growth.

Lemma grows_map {D E} `{Ord D} `{Ord E} (f : D -> E) c c' : grows c c' -> grows (coll_map f c) (coll_map f c').
Proof.
  intros Hg. eapply (grows_weighted (fun e d => indicator (ord_eqb (f d) e))); [done|intros e d; destruct (ord_eqb _ _); simpl; lia|..];
    intros e; unfold mult, coll_map; by rewrite (total_map f).
Qed.
Lemma grows_filter {D} `{Ord D} (f : D -> bool) c c' : grows c c' -> grows (coll_filter f c) (coll_filter f c').
Proof.
  intros (Hb & Hb' & Hg). split_and!; intros d; unfold present, coll_filter; rewrite ?(mult_filter d f); specialize (Hb d); specialize (Hb' d);
    destruct (f d); try lia. apply Hg.
Qed.

Section KeyedGrowth.
Context {K V V2 D : Type} `{Ord K} `{Ord V} `{Ord V2} `{Ord D}.

Lemma grows_join (logic : K -> V -> V2 -> D) a a' b b' : grows a a' -> grows b b' -> grows (join_map logic a b) (join_map logic a' b').
Proof.
  intros Ha Hb. assert (forall d, 0 <= mult d (join_map logic a b) /\ 0 <= mult d (join_map logic a' b') /\
    (0 < mult d (join_map logic a b) -> 0 < mult d (join_map logic a' b'))) as Hall.
  { intros d. unfold mult. rewrite !total_join.
    assert (forall p, let f q := indicator (ord_eqb (fst p) (fst q)) * indicator (ord_eqb (logic (fst p) (snd p) (snd q)) d) in
      0 <= total f b /\ 0 <= total f b' /\ (0 < total f b -> 0 < total f b')) as Hf.
    { intros p f. apply total_grows; try done; intros q; unfold f; destruct (ord_eqb _ _), (ord_eqb _ _); simpl; lia. }
    apply total_grows; try done; intros p; apply (Hf p). }
  split_and!; intros d; apply Hall.
Qed.
Lemma grows_semijoin (a a' : collection (K * V)) keys keys' : grows a a' -> grows keys keys' -> grows (semijoin a keys) (semijoin a' keys').
Proof.
  intros Ha (Hk & Hk' & Hg). assert (forall d, 0 <= mult d (semijoin a keys) /\ 0 <= mult d (semijoin a' keys') /\
    (0 < mult d (semijoin a keys) -> 0 < mult d (semijoin a' keys'))) as Hall.
  { intros d. unfold mult at 1 2 3 4. rewrite !total_semijoin. apply total_grows; try done; intros p.
    - specialize (Hk p.1). destruct (ord_eqb _ _); simpl; lia.
    - specialize (Hk' p.1). destruct (ord_eqb _ _); simpl; lia.
    - specialize (Hg p.1). unfold present in Hg. destruct (ord_eqb _ _); simpl; lia. }
  split_and!; intros d; apply Hall.
Qed.
End KeyedGrowth.

Create HintDb monotone.
#[export] Hint Resolve grows_concat grows_distinct grows_map grows_filter grows_join grows_semijoin agree_ok agree_panic : monotone.
Ltac monotone := cbv beta zeta delta [rel_project rel_filter rel_distinct rel_union union_distinct equi_join]; eauto 12 with monotone.

(** The operators SQL allows around a recursive reference: no aggregate, no set difference, no padding and no negation. *)
Definition monotone_recipe (recipe : NodeRecipe) : Prop :=
  match recipe with
  | NR_BaseTable _ | NR_Filter _ | NR_Project _ | NR_CteRef _ | NR_RecursiveRef _ | NR_Fixpoint _ _ | NR_Distinct | NR_Union _
  | NR_Join (JK_Inner | JK_Semi) _ _ _ => True
  | _ => False
  end.

Lemma install_op_monotone recipe ins ins' :
  monotone_recipe recipe -> Forall2 grows ins ins' -> agree grows (install_op recipe ins) (install_op recipe ins').
Proof.
  intros Hm [|c c' rest rest' Hg Hrest]; [destruct recipe; monotone|].
  destruct recipe; try done; cbn [install_op]; try apply agree_panic.
  - intros o o' Ho Ho'. eapply (grows_weighted (fun e d => match predicate d with Ok true => indicator (ord_eqb d e) | _ => 0 end)); [done|..].
    + intros e d. destruct (predicate d) as [[]|[]|]; try lia. destruct (ord_eqb _ _); simpl; lia.
    + intros e. by apply filter_run_mult.
    + intros e. by apply filter_run_mult.
  - intros o o' Ho Ho'. eapply (grows_weighted (fun e d => match extract d with Ok y => indicator (ord_eqb y e) | _ => 0 end)); [done|..].
    + intros e d. destruct (extract d) as [y|[]|]; try lia. destruct (ord_eqb _ _); simpl; lia.
    + intros e. by apply project_run_mult.
    + intros e. by apply project_run_mult.
  - destruct Hrest as [|d d' ? ? Hg' _]; [apply agree_panic|]. apply agree_ok. unfold install_join. destruct kind; try done; monotone.
  - apply agree_ok. monotone.
  - destruct Hrest as [|d d' ? ? Hg' _]; [apply agree_panic|]. apply agree_ok. destruct all; monotone.
Qed.

(** ** Recursive queries

    The source iterates a [UNION] recursion until a round changes nothing, however long that takes; the model
    gives up after a number of rounds. For a monotone step the rounds only ever add rows, so they settle after
    at most one round more than there are rows to add, and the bound does not matter. *)

Lemma filter_grows {A} (P Q : A -> Prop) `{!forall x, Decision (P x)} `{!forall x, Decision (Q x)} (l : list A) :
  (forall x, P x -> Q x) -> Exists (fun x => ~ (Q x -> P x)) l -> (length (filter P l) < length (filter Q l))%nat.
Proof.
  intros Hg Hnew. assert (forall l, length (filter P l) <= length (filter Q l))%nat as Hle.
  { clear -Hg. induction l as [|x l IH]; [done|]. rewrite !filter_cons. specialize (Hg x). repeat case_decide; simpl; try lia. by exfalso; auto. }
  induction Hnew as [x l Hx|x l Hx IH]; rewrite !filter_cons; specialize (Hg x); repeat case_decide; simpl; try tauto; try lia.
  specialize (Hle l). lia.
Qed.

Section Least.
Context (step : collection Row -> installed (collection Row)) (base : collection Row) (universe : list Row).

(** Bags of rows of the universe. *)
Definition within (c : collection Row) : Prop := bag c /\ forall row, present row c -> row ∈ universe.
Hypothesis base_within : within base.
Hypothesis step_returns : forall w, within w -> exists out, step w = Ok out /\ within out.
Hypothesis step_grows : forall w w', grows w w' -> agree grows (step w) (step w').

Definition round (w : collection Row) : installed (collection Row) := let? out := step w in Ok (rel_distinct (rel_union base out)).

Lemma round_spec w : within w ->
  exists out, step w = Ok out /\ bag out /\ round w = Ok (rel_distinct (rel_union base out)) /\ within (rel_distinct (rel_union base out)) /\
    forall row, mult row (rel_distinct (rel_union base out)) = indicator (bool_decide (present row base \/ present row out)).
Proof.
  intros Hw. destruct (step_returns w Hw) as (out & E & Hb & Hu), base_within as [Bb Bu]. exists out.
  assert (forall row, mult row (rel_distinct (rel_union base out)) = indicator (bool_decide (present row base \/ present row out))) as Hm.
  { intros row. unfold rel_distinct, rel_union, coll_concat. rewrite distinct_mult, mult_app. specialize (Bb row). specialize (Hb row). unfold present.
    destruct (Z.eqb_spec (mult row base + mult row out) 0); case_bool_decide; simpl; lia. }
  split_and!; [done | done | unfold round; by rewrite E | split | done].
  - intros row. rewrite Hm. case_bool_decide; simpl; lia.
  - intros row. unfold present at 1. rewrite Hm. case_bool_decide as Hc; [|simpl; lia]. intros _. destruct Hc; auto.
Qed.

(** The working collections, round by round. *)
Definition next (w : collection Row) : collection Row := match round w with Ok x => x | _ => w end.
Definition working (k : nat) : collection Row := Nat.iter k next base.

Lemma working_round k : within (working k) /\ round (working k) = Ok (working (S k)).
Proof.
  assert (forall w, within w -> within (next w) /\ round w = Ok (next w)) as Hnext.
  { intros w Hw. destruct (round_spec w Hw) as (out & _ & _ & E & Hin & _). unfold next. by rewrite E. }
  assert (within (working k)) as Hk by (induction k as [|k IH]; [done | by apply Hnext]). split; [done | by apply Hnext].
Qed.

Lemma working_step k : exists out, step (working k) = Ok out /\ bag out /\
  forall row, mult row (working (S k)) = indicator (bool_decide (present row base \/ present row out)).
Proof.
  destruct (working_round k) as [Hk Hr], (round_spec _ (proj1 (working_round k))) as (out & E & Hb & Hr' & _ & Hm).
  assert (working (S k) = rel_distinct (rel_union base out)) as -> by congruence. eauto.
Qed.

Lemma working_present k : exists out, step (working k) = Ok out /\ forall row, present row (working (S k)) <-> present row base \/ present row out.
Proof.
  destruct (working_step k) as (out & E & _ & Hm). exists out. split; [done|]. intros row. unfold present at 1. rewrite Hm.
  case_bool_decide; simpl; intuition lia.
Qed.

(** A bag that contains the base and what the step makes of it contains every working collection. *)
Lemma working_below upper out k :
  bag upper -> (forall row, present row base -> present row upper) -> step upper = Ok out -> (forall row, present row out -> present row upper) ->
  grows (working k) upper.
Proof.
  intros Hb Hbase Hs Hout. induction k as [|k IH]; [by split_and!; [apply base_within|..]|].
  split_and!; [apply working_round | done|]. destruct (working_present k) as (o & E & Hp). intros row [?|Hr]%Hp; [auto|].
  destruct (step_grows _ _ IH o out E Hs) as (_ & _ & Hg). auto.
Qed.

Lemma working_grows k : grows (working k) (working (S k)).
Proof.
  split_and!; [apply working_round..|]. induction k as [|k IH].
  - destruct (working_present 0) as (o & _ & Hp). intros row Hr. apply Hp. by left.
  - destruct (working_present k) as (o & E & Hp), (working_present (S k)) as (o' & E' & Hp'). intros row [?|Hr]%Hp; apply Hp'; [by left | right].
    assert (grows (working k) (working (S k))) as Hg by (by split_and!; [apply working_round..|]).
    by apply (step_grows _ _ Hg o o' E E').
Qed.

(** The rows of the universe in a collection. *)
Definition size (c : collection Row) : nat := length (filter (fun row => present row c) universe).

Lemma working_progress k : same_collection (working (S k)) (working (S (S k))) = true \/ (size (working (S k)) < size (working (S (S k))))%nat.
Proof.
  pose proof (working_grows (S k)) as (_ & _ & Hg).
  destruct (decide (Forall (fun row => present row (working (S (S k))) -> present row (working (S k))) universe)) as [Hall|Hnew].
  - left. apply same_collection_spec. intros row. destruct (working_step k) as (o & _ & _ & Hm), (working_step (S k)) as (o' & _ & _ & Hm').
    specialize (Hg row). unfold present in Hg, Hall. rewrite Forall_forall in Hall. specialize (Hall row).
    pose proof (proj2 (proj1 (working_round (S (S k)))) row) as Hin. unfold present in Hin. rewrite Hm, Hm' in *.
    repeat case_bool_decide; simpl in *; [done | | | done].
    + assert (0 < 0) by (apply Hall; [by apply Hin | done]). lia.
    + assert (0 < 0) by (by apply Hg). lia.
  - right. apply not_Forall_Exists in Hnew; [|apply _]. by apply filter_grows.
Qed.

Lemma working_settles n k : (length universe - size (working (S k)) < n)%nat -> exists j, (S k <= j < S k + n)%nat /\ working j ≡ working (S j).
Proof.
  revert k. induction n as [|n IH]; intros k Hn; [lia|]. destruct (working_progress k) as [Hs|Hlt].
  - exists (S k). split; [lia | by apply same_collection_spec].
  - assert (size (working (S (S k))) <= length universe)%nat by apply length_filter.
    destruct (IH (S k)) as (j & Hj & Hs); [lia|]. exists j. split; [lia | done].
Qed.

Lemma iterate_settled n k : (exists j, (k <= j < k + n)%nat /\ working j ≡ working (S j)) ->
  exists j, working j ≡ working (S j) /\ forall rounds, (n <= rounds)%nat -> iterate_until rounds same_collection round (working k) = Ok (working (S j)).
Proof.
  revert k. induction n as [|n IH]; intros k (j & Hj & Hs); [lia|].
  destruct (same_collection (working k) (working (S k))) eqn:E.
  - exists k. split; [by apply same_collection_spec|]. intros [|rounds] Hr; [lia|]. cbn [iterate_until]. rewrite (proj2 (working_round k)). cbn [exec_bind]. by rewrite E.
  - destruct (decide (j = k)) as [->|Hne]; [by apply same_collection_spec in Hs; rewrite Hs in E|].
    destruct (IH (S k)) as (i & Hi & Hall); [exists j; split; [lia | done]|]. exists i. split; [done|]. intros [|rounds] Hr; [lia|].
    cbn [iterate_until]. rewrite (proj2 (working_round k)). cbn [exec_bind]. rewrite E. apply Hall. lia.
Qed.

Lemma recursion_least :
  exists result,
    (forall rounds, (length universe + 2 <= rounds)%nat -> install_fixpoint rounds false step base = Ok result) /\
    (forall row, mult row result = 0 \/ mult row result = 1) /\
    (exists out, step result = Ok out /\ forall row, present row result <-> present row base \/ present row out) /\
    forall upper out, bag upper -> (forall row, present row base -> present row upper) -> step upper = Ok out ->
      (forall row, present row out -> present row upper) -> forall row, present row result -> present row upper.
Proof.
  destruct (working_settles (S (length universe)) 0) as (j0 & Hj0 & Hs0); [lia|].
  destruct (iterate_settled (length universe + 2) 0) as (j & Hs & Hall); [exists j0; split; [lia | done]|].
  exists (working (S j)). split_and!.
  - intros rounds Hr. unfold install_fixpoint. change base with (working 0). by apply Hall.
  - intros row. destruct (working_step j) as (o & _ & _ & Hm). rewrite Hm. case_bool_decide; auto.
  - destruct (working_present (S j)) as (o & E & Hp). exists o. split; [done|]. intros row. rewrite <- Hp.
    destruct (working_step j) as (oj & Ej & Hbj & Hmj), (working_step (S j)) as (o' & E' & Hb' & Hm').
    assert (step_eq : forall row, present row oj <-> present row o').
    { assert (grows (working j) (working (S j)) /\ grows (working (S j)) (working j)) as [G1 G2].
      { split; [apply working_grows | apply grows_equiv; [apply working_round | done]]. }
      intros r. split; [apply (step_grows _ _ G1 oj o' Ej E') | apply (step_grows _ _ G2 o' oj E' Ej)]. }
    unfold present at 1 2. rewrite Hmj, Hm'. repeat case_bool_decide; simpl; try done; naive_solver.
  - intros upper out Hb Hbase Hstep Hout. by apply (working_below upper out (S j) Hb Hbase Hstep Hout).
Qed.
End Least.

Section Recursion.
Context `{PetGraph MirNodeKind MirEdgeKind} (plan : CompiledPlan) (inputs : gmap Z (collection Row)).
Context (inside : nat -> Prop) (step_node : nat) (step_cache : cache) (base : collection Row) (universe : list Row).

(** The step of a recursive query: its node, with the working table in place of the query's own name. *)
Definition query_step (working : collection Row) : installed (collection Row) :=
  exec_map fst (install_step plan inputs (S (node_count (cp_graph plan))) working step_node step_cache).

(** C22: A recursive UNION query computes the least fixpoint of its step. Let the step be a subgraph
    of filters, projections, unions, distinct, inner and semi joins and references, the operators
    that are monotone, over inputs with no negative multiplicity, and let a finite set of rows hold
    the base and whatever the step yields on sets of such rows, on which it does not panic. Then the
    iteration ends: every bound on the rounds of at least the size of that set plus two gives the
    same result, a set of rows which consists of exactly the base and the rows the step yields from
    it, and which every set of rows that contains the base and is closed under the step contains. *)
Theorem recursion_least_fixpoint :
  inside step_node ->
  (forall n recipe, inside n -> cp_recipes plan !! n = Some recipe -> monotone_recipe recipe /\ reads_inside plan inside n recipe) ->
  map_Forall (fun _ c => bag c) inputs -> map_Forall (fun _ c => bag c) step_cache -> within universe base ->
  (forall w, within universe w -> exists out, query_step w = Ok out /\ within universe out) ->
  exists result,
    (forall rounds, (length universe + 2 <= rounds)%nat -> install_fixpoint rounds false query_step base = Ok result) /\
    (forall row, mult row result = 0 \/ mult row result = 1) /\
    (exists out, query_step result = Ok out /\ forall row, present row result <-> present row base \/ present row out) /\
    forall upper out, bag upper -> (forall row, present row base -> present row upper) -> query_step upper = Ok out ->
      (forall row, present row out -> present row upper) -> forall row, present row result -> present row upper.
Proof.
  intros Hin Hplan Hinputs Hcache Hbase Hret. apply recursion_least; try done. intros w w' Hg.
  assert (forall (A : Type) `{Countable A} (m : gmap A (collection Row)), map_Forall (fun _ c => bag c) m ->
    forall k, option_Forall2 grows (m !! k) (m !! k)) as Hrefl.
  { intros A HA HC m Hm k. destruct (m !! k) as [c|] eqn:E; constructor. by apply grows_refl, (Hm k). }
  unfold query_step, exec_map. eapply agree_bind.
  - apply (install_step_agree plan inputs inputs grows monotone_recipe inside); try done; [apply install_op_monotone | by apply Hrefl |].
    intros n. by apply Hrefl.
  - intros [x c] [x' c'] [Hx _]. by apply agree_ok.
Qed.
End Recursion.
