(* ===== verification/Rewriter.v ===== *)
(** * Rewriter: splicing permission filters into a query
    ([crates/palimpsest-permissions/src/rewriter.rs] and
    [crates/palimpsest-server/src/permissions.rs])

    The theorem says what the rewritten graph enforces: every consumer of a
    guarded base table reads it through the selection and the filter the rules
    call for, and the rest of the query is as before. *)

From S2P Require Import Prelude BTree Text Values UserContext Permissions PermissionFacts Mir.

(** ** Operations *)

Record RewriteStats := { base_tables_visited : Z; filters_inserted : Z; rules_elided : Z }.

Definition quote_ident (name : text) : text :=
  [x22] ++ concat (map (fun b => if decide (b = x22) then [x22; x22] else [b]) name) ++ [x22].

Section Rewriter.
Context `{Rendering} `{PetGraph MirNodeKind MirEdgeKind}.

Record RewriteOutcome := { ro_graph : MirGraph; ro_stats : RewriteStats }.

(** [by_table]: the rules that affect visibility, per table. *)
Definition rules_by_table (rules : list CompiledRule) : btree text (list CompiledRule) :=
  fold_left (fun m rule =>
    if negb (affects_visibility (cr_mode rule)) then m
    else bt_entry (cr_table rule) [] (fun l => l ++ [rule]) m) rules [].

Definition latest_node (latest : LatestBy) : MirNodeKind :=
  DistinctOn (map quote_ident (lt_key latest))
    [{| ok_expression := quote_ident (lt_version latest); ok_descending := true |}].

Definition combine_clauses (clauses : list text) : text :=
  match clauses with
  | [clause] => clause
  | _ => join (lit " OR ") (map (fun clause => lit "(" ++ clause ++ lit ")") clauses)
  end.

Definition visited (s : RewriteStats) : RewriteStats :=
  {| base_tables_visited := base_tables_visited s + 1; filters_inserted := filters_inserted s;
     rules_elided := rules_elided s |}.
Definition inserted_filter (s : RewriteStats) : RewriteStats :=
  {| base_tables_visited := base_tables_visited s; filters_inserted := filters_inserted s + 1;
     rules_elided := rules_elided s |}.

(** One iteration of the loop over [base_table_indices]. *)
Definition rewrite_node (by_table : btree text (list CompiledRule)) (ctx : UserContext)
    (index : nat) (acc : MirGraph * RewriteStats) : exec PermissionError (MirGraph * RewriteStats) :=
  let '(output, stats0) := acc in
  let stats := visited stats0 in
  match node_kind output index with
  | Some (BaseTable table _) =>
      match bt_get table by_table with
      | None => Ok (output, stats)
      | Some [] => Panic
      | Some ((first :: _) as rules_for_table) =>
          let '(index', output') :=
            match cr_latest first with
            | Some latest => splice_above output index (latest_node latest)
            | None => (index, output)
            end in
          if existsb (fun rule => is_tautology (cr_predicate rule)) rules_for_table then Ok (output', stats)
          else
            let? clauses := exec_mapM (fun rule => materialize (cr_predicate rule) ctx) rules_for_table in
            Ok ((splice_above output' index' (Filter (combine_clauses clauses))).2, inserted_filter stats)
      end
  | Some _ => Ok (output, stats)
  | None => Panic
  end.

Fixpoint rewrite_loop (by_table : btree text (list CompiledRule)) (ctx : UserContext)
    (indices : list nat) (acc : MirGraph * RewriteStats) : exec PermissionError (MirGraph * RewriteStats) :=
  match indices with
  | [] => Ok acc
  | index :: indices' =>
      let? acc' := rewrite_node by_table ctx index acc in
      rewrite_loop by_table ctx indices' acc'
  end.

Definition rules_in_play (rules : list CompiledRule) : Z :=
  Z.of_nat (length (List.filter (fun rule =>
    affects_visibility (cr_mode rule) && negb (is_tautology (cr_predicate rule))) rules)).

Definition rewrite (g : MirGraph) (rules : list CompiledRule) (ctx : UserContext)
  : exec PermissionError RewriteOutcome :=
  let? (output, stats) := rewrite_loop (rules_by_table rules) ctx (base_table_indices g)
    (g, {| base_tables_visited := 0; filters_inserted := 0; rules_elided := 0 |}) in
  Ok {| ro_graph := output;
        ro_stats := {| base_tables_visited := base_tables_visited stats;
                       filters_inserted := filters_inserted stats;
                       rules_elided := saturating_sub (Z.of_nat (length rules)) (rules_in_play rules) |} |}.

(** ** What the rules call for *)

Definition visible_rules (rules : list CompiledRule) (table : text) : list CompiledRule :=
  List.filter (fun r => affects_visibility (cr_mode r) && bool_decide (cr_table r = table)) rules.

(** The nodes between a table and its consumers, from the table up. *)
Definition guards (rules : list CompiledRule) (ctx : UserContext) (table : text)
  : exec PermissionError (list MirNodeKind) :=
  match visible_rules rules table with
  | [] => Ok []
  | (first :: _) as rs =>
      let selection := match cr_latest first with Some latest => [latest_node latest] | None => [] end in
      if existsb (fun r => is_tautology (cr_predicate r)) rs then Ok selection
      else
        let? clauses := exec_mapM (fun r => materialize (cr_predicate r) ctx) rs in
        Ok (selection ++ [Filter (combine_clauses clauses)])
  end.

Lemma rules_by_table_get rules table :
  bt_get table (rules_by_table rules) =
  match visible_rules rules table with [] => None | rs => Some rs end.
Proof.
  unfold rules_by_table.
  assert (forall m, bt_wf m ->
    let m' := fold_left (fun m rule => if negb (affects_visibility (cr_mode rule)) then m
      else bt_entry (cr_table rule) [] (fun l => l ++ [rule]) m) rules m in
    default [] (bt_get table m') = default [] (bt_get table m) ++ visible_rules rules table /\
    (bt_get table m <> Some [] -> bt_get table m' <> Some []) /\
    (bt_get table m = None -> visible_rules rules table = [] -> bt_get table m' = None)) as Hgen.
  { induction rules as [|r rules IH]; intros m Hwf; simpl; [by rewrite app_nil_r|].
    destruct (affects_visibility (cr_mode r)); simpl; [|by apply IH].
    destruct (IH (bt_entry (cr_table r) [] (fun l => l ++ [r]) m)) as (Hd & Hne & Hno); [by apply bt_wf_insert|].
    unfold bt_entry in *. case_bool_decide as Ht.
    - subst table. rewrite bt_get_insert_eq in * by done. rewrite Hd. simpl. rewrite <- app_assoc.
      split; [done|]. split; [|done]. intros _. apply Hne. by destruct (default [] _).
    - rewrite bt_get_insert_ne in * by done. done. }
  destruct (Hgen [] bt_wf_nil) as (Hd & Hne & Hno). simpl in Hd.
  destruct (visible_rules rules table) as [|r rs]; [by apply Hno|].
  destruct (bt_get table _) as [l|]; simpl in Hd; [by rewrite Hd | done].
Qed.

(** ** Chains of spliced nodes *)

Fixpoint splice_chain (m : MirGraph) (i : nat) (ks : list MirNodeKind) : nat * MirGraph :=
  match ks with
  | [] => (i, m)
  | k :: ks' => let '(d, m') := splice_above m i k in splice_chain m' d ks'
  end.

(** From node [i], every reader reads through nodes of the kinds [ks], in that
    order, all with index at least [n0]; [f] is the last one. *)
Fixpoint chain (n0 : nat) (m : MirGraph) (i : nat) (ks : list MirNodeKind) (f : nat) : Prop :=
  match ks with
  | [] => f = i
  | k :: ks' =>
      exists d, (n0 <= d)%nat /\ node_kind m d = Some k /\ root m <> i /\
        (forall c w, feeds m i c w <-> c = d /\ w = Input 0) /\ chain n0 m d ks' f
  end.

(** The part of a graph later splices at [js] leave alone. *)
Record frame (m m' : MirGraph) (js : list nat) : Prop := {
  fr_nodes : exists extra, pg_nodes (graph m') = pg_nodes (graph m) ++ extra;
  fr_feeds : forall s c w, s ∉ js -> (s < node_count m)%nat -> feeds m' s c w <-> feeds m s c w;
  fr_root : forall s, s ∉ js -> (s < node_count m)%nat -> root m' = s <-> root m = s
}.

Lemma frame_count m m' js : frame m m' js -> (node_count m <= node_count m')%nat.
Proof. intros [[extra He] _ _]. unfold node_count. rewrite He, length_app. lia. Qed.

Lemma frame_kind m m' js i k : frame m m' js -> node_kind m i = Some k -> node_kind m' i = Some k.
Proof. intros [[extra He] _ _] Hk. unfold node_kind in *. rewrite He. by apply lookup_app_l_Some. Qed.

Lemma frame_refl m js : frame m m js.
Proof. split; [exists []; by rewrite app_nil_r | done..]. Qed.

Lemma frame_trans m1 m2 m3 js js' :
  frame m1 m2 js -> frame m2 m3 js' -> (forall j, j ∈ js' -> (j < node_count m1)%nat -> j ∈ js) ->
  frame m1 m3 js.
Proof.
  intros H1 H2 Hjs. pose proof (frame_count _ _ _ H1) as Hc. split.
  - destruct (fr_nodes _ _ _ H1) as [e1 E1], (fr_nodes _ _ _ H2) as [e2 E2]. exists (e1 ++ e2).
    by rewrite E2, E1, app_assoc.
  - intros s c w Hs Hlt. assert (s ∉ js') by (intros Hin; auto).
    rewrite (fr_feeds _ _ _ H2) by (done || lia). by apply (fr_feeds _ _ _ H1).
  - intros s Hs Hlt. assert (s ∉ js') by (intros Hin; auto).
    rewrite (fr_root _ _ _ H2) by (done || lia). by apply (fr_root _ _ _ H1).
Qed.

Lemma node_kind_lt m i k : node_kind m i = Some k -> (i < node_count m)%nat.
Proof. apply lookup_lt_Some. Qed.

Lemma chain_frame n0 m m' js i ks f :
  frame m m' js -> (i < node_count m)%nat -> i ∉ js -> (forall j, j ∈ js -> (j < n0)%nat) ->
  chain n0 m i ks f -> chain n0 m' i ks f /\ (f < node_count m)%nat /\ f ∉ js.
Proof.
  intros Hfr Hi Hij Hjs. revert i Hi Hij. induction ks as [|k ks IH]; intros i Hi Hij; simpl; [by intros ->|].
  intros (d & Hd & Hk & Hroot & Hfeeds & Hch).
  destruct (IH d) as (Hch' & ? & ?); [by eapply node_kind_lt | intros Hin%Hjs; lia | done|].
  split; [|done]. exists d. split; [done|]. split; [by eapply frame_kind|].
  split; [by rewrite (fr_root _ _ _ Hfr)|]. split; [|done]. intros c w. by rewrite (fr_feeds _ _ _ Hfr).
Qed.

Lemma splice_frame m i k :
  graph_wf m -> (i < node_count m)%nat ->
  let '(d, m') := splice_above m i k in
  d = node_count m /\ graph_wf m' /\ node_kind m' d = Some k /\ frame m m' [i] /\ root m' <> i /\
  (root m' = d <-> root m = i) /\
  (forall c w, feeds m' i c w <-> c = d /\ w = Input 0) /\ (forall c w, feeds m' d c w <-> feeds m i c w).
Proof.
  intros Hwf Hi. pose proof (splice_wf m i k Hwf Hi) as Hwf'. pose proof (splice_feeds m i k Hwf Hi) as Hf.
  pose proof (splice_above_spec m i k Hwf Hi) as Hs. pose proof (gw_root m Hwf) as Hr0.
  unfold node_count in *. destruct (splice_above m i k) as [d m']. cbn [snd] in *.
  destruct Hs as (Hd & Hn & _ & _ & Hr), Hf as (Hfi & Hfd & Hfo).
  assert (root m' = d <-> root m = i) as Hroot by (rewrite Hr; destruct (Nat.eqb_spec (root m) i); lia).
  repeat (split; [done|]). split; [unfold node_kind; rewrite Hn, Hd; by apply list_lookup_middle|].
  split; [|split; [rewrite Hr; destruct (Nat.eqb_spec (root m) i); lia | done]]. split.
  - by exists [k].
  - intros s c w Hs Hlt. unfold node_count in Hlt. apply Hfo; [|lia]. intros ->. apply Hs. left.
  - intros s Hs Hlt. unfold node_count in Hlt. rewrite Hr. rewrite elem_of_cons in Hs.
    destruct (Nat.eqb_spec (root m) i) as [->|]; [|done]. split; [lia|]. intros ->. by destruct Hs; left.
Qed.

Lemma splice_chain_spec n0 m i ks :
  graph_wf m -> (i < node_count m)%nat -> (n0 <= node_count m)%nat ->
  let '(f, m') := splice_chain m i ks in
  graph_wf m' /\ frame m m' [i] /\ chain n0 m' i ks f /\
  (forall c w, feeds m' f c w <-> feeds m i c w) /\ (root m' = f <-> root m = i).
Proof.
  revert m i. induction ks as [|k ks IH]; intros m i Hwf Hi Hn0; cbn [splice_chain].
  { split; [done|]. split; [apply frame_refl | done]. }
  pose proof (splice_frame m i k Hwf Hi) as Hs. destruct (splice_above m i k) as [d m1].
  destruct Hs as (Hd & Hwf1 & Hk & Hfr & Hri & Hrd & Hfi & Hfd).
  pose proof (frame_count _ _ _ Hfr) as Hc. pose proof (node_kind_lt _ _ _ Hk) as Hdlt.
  specialize (IH m1 d Hwf1 Hdlt ltac:(lia)). destruct (splice_chain m1 d ks) as [f m'].
  destruct IH as (Hwf' & Hfr' & Hch & Hff & Hrf). assert (i <> d) as Hid by lia.
  assert (i ∉ [d]) as Hid' by by rewrite list_elem_of_singleton.
  split; [done|]. split; [|split; [|split]].
  - eapply frame_trans; [exact Hfr | exact Hfr'|]. intros j ->%list_elem_of_singleton. lia.
  - exists d. split; [lia|]. split; [by eapply frame_kind|].
    split; [rewrite (fr_root _ _ _ Hfr') by (done || lia); done|].
    split; [|done]. intros c w. rewrite (fr_feeds _ _ _ Hfr') by (done || lia). apply Hfi.
  - intros c w. rewrite Hff. apply Hfd.
  - rewrite Hrf. apply Hrd.
Qed.

(** ** The loop *)

(** A table whose rules put a filter in front of it. *)
Definition in_play (rules : list CompiledRule) (table : text) : bool :=
  match visible_rules rules table with
  | [] => false
  | rs => negb (existsb (fun r => is_tautology (cr_predicate r)) rs)
  end.

Definition table_of (m : MirGraph) (i : nat) : option text :=
  match node_kind m i with Some (BaseTable t _) => Some t | _ => None end.

Definition node_in_play (rules : list CompiledRule) (m : MirGraph) (i : nat) : bool :=
  match table_of m i with Some t => in_play rules t | None => false end.

Lemma exec_mapM_total {E A B} (f : A -> exec E B) l : (forall a, f a <> Panic) -> exec_mapM f l <> Panic.
Proof.
  intros Hf. induction l as [|a l IH]; simpl; [done|]. specialize (Hf a).
  destruct (f a); simpl; [|done..]. by destruct (exec_mapM f l).
Qed.

Lemma guards_total rules ctx t : guards rules ctx t <> Panic.
Proof.
  unfold guards. destruct (visible_rules rules t) as [|r rs]; [done|]. destruct (existsb _ _); [done|].
  pose proof (exec_mapM_total (fun r => materialize (cr_predicate r) ctx) (r :: rs)
    ltac:(intros; apply materialize_total)) as Hm.
  by destruct (exec_mapM _ (r :: rs)).
Qed.

Lemma rewrite_node_spec rules ctx i m st t :
  table_of m i = Some t ->
  rewrite_node (rules_by_table rules) ctx i (m, st) =
  (let? ks := guards rules ctx t in
   Ok ((splice_chain m i ks).2, if in_play rules t then inserted_filter (visited st) else visited st)).
Proof.
  unfold table_of. intros Ht. unfold rewrite_node, guards, in_play.
  destruct (node_kind m i) as [[]|]; try done. injection Ht as ->. rewrite rules_by_table_get.
  destruct (visible_rules rules t) as [|r rs]; [done|].
  destruct (cr_latest r) as [latest|].
  - destruct (splice_above m i (latest_node latest)) as [d m1] eqn:Hsp.
    destruct (existsb _ (r :: rs)); [cbn; by rewrite Hsp|].
    destruct (exec_mapM _ (r :: rs)) as [cs| |]; [|done..]. cbn. rewrite Hsp.
    by destruct (splice_above m1 d _).
  - destruct (existsb _ (r :: rs)); [done|].
    destruct (exec_mapM _ (r :: rs)) as [cs| |]; [|done..]. cbn. by destruct (splice_above m i _).
Qed.

(** Node [i] of [m] after the rewrite: its readers go through the guards. *)
Definition enforced (rules : list CompiledRule) (ctx : UserContext) (n0 : nat) (m m' : MirGraph) (i : nat) : Prop :=
  exists t ks f, table_of m i = Some t /\ guards rules ctx t = Ok ks /\ chain n0 m' i ks f /\
    (forall c w, feeds m' f c w <-> feeds m i c w) /\ (root m' = f <-> root m = i).

Lemma table_of_frame m m' js i t : frame m m' js -> table_of m i = Some t -> table_of m' i = Some t.
Proof.
  unfold table_of. intros Hfr Ht. destruct (node_kind m i) as [k|] eqn:Hk; [|done].
  by rewrite (frame_kind _ _ _ _ _ Hfr Hk).
Qed.

Lemma table_of_lt m i t : table_of m i = Some t -> (i < node_count m)%nat.
Proof. unfold table_of. destruct (node_kind m i) eqn:Hk; [|done]. intros _. by eapply node_kind_lt. Qed.

Lemma rewrite_loop_spec rules ctx n0 idxs m st :
  graph_wf m -> NoDup idxs -> (n0 <= node_count m)%nat ->
  (forall i, i ∈ idxs -> (i < n0)%nat /\ is_Some (table_of m i)) ->
  match rewrite_loop (rules_by_table rules) ctx idxs (m, st) with
  | Ok (m', st') =>
      graph_wf m' /\ frame m m' idxs /\ (forall i, i ∈ idxs -> enforced rules ctx n0 m m' i) /\
      filters_inserted st' = filters_inserted st + Z.of_nat (length (List.filter (node_in_play rules m) idxs)) /\
      base_tables_visited st' = base_tables_visited st + Z.of_nat (length idxs)
  | Err e => exists i t, i ∈ idxs /\ table_of m i = Some t /\ guards rules ctx t = Err e
  | Panic => False
  end.
Proof.
  revert m st. induction idxs as [|i idxs IH]; intros m st Hwf Hnd Hn0 Hidx; cbn [rewrite_loop].
  { split; [done|]. split; [apply frame_refl|]. split; [by intros ? ?%elem_of_nil|]. simpl. lia. }
  apply NoDup_cons in Hnd as [Hi Hnd]. destruct (Hidx i) as [Hlt [t Ht]]; [left|].
  rewrite (rewrite_node_spec rules ctx i m st t Ht). pose proof (guards_total rules ctx t) as Hg.
  destruct (guards rules ctx t) as [ks|e|] eqn:Hks; simpl; [|by exists i, t; split; [left|] | done].
  pose proof (table_of_lt _ _ _ Ht) as Hic.
  pose proof (splice_chain_spec n0 m i ks Hwf Hic Hn0) as Hsp. destruct (splice_chain m i ks) as [f m1].
  destruct Hsp as (Hwf1 & Hfr & Hch & Hff & Hrf). simpl. pose proof (frame_count _ _ _ Hfr) as Hc.
  set (st1 := if in_play rules t then inserted_filter (visited st) else visited st).
  assert (forall j, j ∈ idxs -> table_of m1 j = table_of m j) as Htab.
  { intros j Hj. destruct (Hidx j) as [_ [tj Htj]]; [by right|]. rewrite Htj. by eapply table_of_frame. }
  specialize (IH m1 st1 Hwf1 Hnd ltac:(lia)). destruct (rewrite_loop _ _ idxs (m1, st1)) as [[m' st']|e|].
  - destruct IH as (Hwf' & Hfr' & Henf & Hcnt & Hvis).
    { intros j Hj. rewrite Htab by done. apply Hidx. by right. }
    assert (forall j, j ∈ idxs -> (j < n0)%nat) as Hjs by (intros j Hj; apply Hidx; by right).
    split; [done|]. split; [|split; [|split]].
    + eapply frame_trans; [|exact Hfr'|]; [|by intros; right].
      destruct Hfr as [Hn Hf Hr]. split; [done| |]; intros *; rewrite not_elem_of_cons; intros [Hne _] ?;
        [apply Hf | apply Hr]; try done; by rewrite list_elem_of_singleton.
    + intros j [->|Hj]%elem_of_cons.
      * exists t, ks, f. destruct (chain_frame n0 m1 m' idxs i ks f Hfr') as (Hch' & Hflt & Hfn); [lia|done..|].
        split; [done|]. split; [done|]. split; [done|]. split.
        -- intros c w. by rewrite (fr_feeds _ _ _ Hfr').
        -- by rewrite (fr_root _ _ _ Hfr').
      * destruct (Henf j Hj) as (tj & ksj & fj & Htj & Hgj & Hcj & Hfj & Hrj). exists tj, ksj, fj.
        rewrite Htab in Htj by done. assert (j ∉ [i]) by (rewrite list_elem_of_singleton; congruence).
        pose proof (table_of_lt _ _ _ Htj). repeat (split; [done|]). split.
        -- intros c w. rewrite Hfj. by apply (fr_feeds _ _ _ Hfr).
        -- rewrite Hrj. by apply (fr_root _ _ _ Hfr).
    + rewrite Hcnt. cbn [List.filter]. unfold node_in_play at 2. rewrite Ht.
      rewrite (filter_ext_in (node_in_play rules m1) (node_in_play rules m)).
      * unfold st1. destruct (in_play rules t); simpl; lia.
      * intros j Hj. unfold node_in_play. rewrite Htab; [done|]. by apply list_elem_of_In.
    + rewrite Hvis. unfold st1. simpl. destruct (in_play rules t); simpl; lia.
  - destruct IH as (j & tj & Hj & Htj & Hgj); [intros j Hj; rewrite Htab by done; apply Hidx; by right|].
    exists j, tj. split; [by right|]. by rewrite <- Htab.
  - apply IH. intros j Hj. rewrite Htab by done. apply Hidx. by right.
Qed.

Lemma base_table_indices_spec m i : i ∈ base_table_indices m <-> is_Some (table_of m i).
Proof.
  unfold base_table_indices, table_of, node_kind. rewrite ids_from_spec, Nat.sub_0_r. split.
  - intros [_ (k & Hk & Hb)]. rewrite Hk. destruct k; try done.
  - intros [t Ht]. split; [lia|]. destruct (pg_nodes (graph m) !! i) as [k|] eqn:Hk; [|done].
    exists k. by destruct k.
Qed.

Lemma rewrite_spec g rules ctx :
  graph_wf g ->
  match rewrite g rules ctx with
  | Ok out =>
      graph_wf (ro_graph out) /\
      (forall i, is_Some (table_of g i) -> enforced rules ctx (node_count g) g (ro_graph out) i) /\
      (forall i k, node_kind g i = Some k -> node_kind (ro_graph out) i = Some k) /\
      (forall i, (i < node_count g)%nat -> table_of g i = None ->
         (forall c w, feeds (ro_graph out) i c w <-> feeds g i c w) /\ (root (ro_graph out) = i <-> root g = i)) /\
      filters_inserted (ro_stats out) =
        Z.of_nat (length (List.filter (node_in_play rules g) (base_table_indices g)))
  | Err e => exists i t, table_of g i = Some t /\ guards rules ctx t = Err e
  | Panic => False
  end.
Proof.
  intros Hwf. unfold rewrite.
  pose proof (rewrite_loop_spec rules ctx (node_count g) (base_table_indices g) g
    {| base_tables_visited := 0; filters_inserted := 0; rules_elided := 0 |} Hwf
    (ids_from_NoDup _ _ _) (Nat.le_refl _)) as Hl.
  destruct (rewrite_loop _ _ _ _) as [[m' st']|e|]; simpl.
  - destruct Hl as (Hwf' & Hfr & Henf & Hcnt & _).
    { intros i [t Ht]%base_table_indices_spec. split; [by eapply table_of_lt | eauto]. }
    split; [done|]. split; [intros i Hi; by apply Henf, base_table_indices_spec|].
    split; [intros i k; by eapply frame_kind|]. split; [|by rewrite Hcnt].
    intros i Hi Ht. assert (i ∉ base_table_indices g) as Hni by (rewrite base_table_indices_spec, Ht; by intros []).
    split; [intros c w; by apply (fr_feeds _ _ _ Hfr) | by apply (fr_root _ _ _ Hfr)].
  - destruct Hl as (i & t & _ & ? & ?); [|eauto].
    intros i [t Ht]%base_table_indices_spec. split; [by eapply table_of_lt | eauto].
  - apply Hl. intros i [t Ht]%base_table_indices_spec. split; [by eapply table_of_lt | eauto].
Qed.

(** C4: After a permission rewrite, every reader of a guarded base table, and the query result
    itself, goes through the current-row selection and the filter the table's rules call for, in
    that order and through new nodes only; all other edges and node kinds are as before, the number
    of inserted filters is the number of restricted table references, and the rewrite fails only
    when a rule of a referenced table cannot be materialised for the user. *)
Theorem rewrite_enforces g rules ctx :
  graph_wf g ->
  match rewrite g rules ctx with
  | Ok out =>
      graph_wf (ro_graph out) /\
      (forall i, is_Some (table_of g i) -> enforced rules ctx (node_count g) g (ro_graph out) i) /\
      (forall i k, node_kind g i = Some k -> node_kind (ro_graph out) i = Some k) /\
      (forall i, (i < node_count g)%nat -> table_of g i = None ->
         (forall c w, feeds (ro_graph out) i c w <-> feeds g i c w) /\ (root (ro_graph out) = i <-> root g = i)) /\
      filters_inserted (ro_stats out) =
        Z.of_nat (length (List.filter (node_in_play rules g) (base_table_indices g)))
  | Err e => exists i t, table_of g i = Some t /\ guards rules ctx t = Err e
  | Panic => False
  end.
Proof. apply rewrite_spec. Qed.
End Rewriter.
