(* ===== verification/Enforcement.v ===== *)
(** * Enforcement: permission rules followed through the compiled plan

    [evaluate] is the meaning of a plan without a cache: each node is computed from
    its inputs. The installer computes it. On a rewritten graph, what a node outside
    the guards computes depends on a guarded table only through the rows its guards
    let through, so two databases that look the same through the rules give the same
    query result. *)

From stdpp Require Import gmap.
From S2P Require Import Prelude BTree Text Values UserContext Permissions PermissionFacts Literals Floats Datums.
From S2P Require Import Exprs Like Eval EvalFacts Mir Consolidation Operators Relational CompileMir CompileFacts.
From S2P Require Import Install InstallFacts Rewriter.

(** Recipes that are operators over other nodes. *)
Definition is_operator (recipe : NodeRecipe) : bool :=
  match recipe with NR_BaseTable _ | NR_CteRef _ | NR_Fixpoint _ _ | NR_RecursiveRef _ => false | _ => true end.

(** ** Evaluation without a cache *)

Section Evaluate.
Context `{PetGraph MirNodeKind MirEdgeKind}.
Context (plan : CompiledPlan) (inputs : gmap Z (collection Row)).

Fixpoint evaluate (fuel : nat) (node : nat) : installed (collection Row) :=
  match fuel with
  | O => Panic
  | S fuel =>
      match cp_recipes plan !! node with
      | Some (NR_BaseTable table) => match inputs !! table with Some x => Ok x | None => Panic end
      | Some (NR_CteRef target) => evaluate fuel target
      | Some recipe =>
          if is_operator recipe then
            let? nodes := operator_inputs plan node recipe in
            let? ins := exec_mapM (evaluate fuel) nodes in
            install_op recipe ins
          else Panic
      | None => Panic
      end
  end.

(** The value of a node, with enough fuel. *)
Definition node_value (node : nat) (x : collection Row) : Prop := exists fuel, evaluate fuel node = Ok x.

Lemma mapM_mono {A B} (f g : A -> installed B) l xs :
  (forall a b, f a = Ok b -> g a = Ok b) -> exec_mapM f l = Ok xs -> exec_mapM g l = Ok xs.
Proof.
  intros Hfg. revert xs. induction l as [|a l IH]; intros xs; simpl; [done|].
  intros (b & Hb & Hxs)%exec_bind_ok. apply exec_bind_ok in Hxs as (bs & Hbs & [= <-]). rewrite (Hfg _ _ Hb). simpl. by rewrite (IH bs).
Qed.

Lemma evaluate_mono fuel fuel' node x : (fuel <= fuel')%nat -> evaluate fuel node = Ok x -> evaluate fuel' node = Ok x.
Proof.
  revert fuel' node x. induction fuel as [|fuel IH]; intros [|fuel'] node x Hle; cbn [evaluate]; try done; try lia.
  assert (forall n y, evaluate fuel n = Ok y -> evaluate fuel' n = Ok y) as Hm by (intros n y; apply IH; lia).
  destruct (cp_recipes plan !! node) as [recipe|]; [|done]. destruct recipe; cbn [is_operator]; try done; try (by apply Hm);
    intros (nodes & -> & Hx)%exec_bind_ok; apply exec_bind_ok in Hx as (ins & Hins & Hx); cbn [exec_bind]; by rewrite (mapM_mono (evaluate fuel) (evaluate fuel') _ _ Hm Hins).
Qed.

Lemma value_unique node x y : node_value node x -> node_value node y -> x = y.
Proof.
  intros [f1 H1] [f2 H2]. apply (evaluate_mono _ (f1 + f2)) in H1; [|lia]. apply (evaluate_mono _ (f1 + f2)) in H2; [|lia]. congruence.
Qed.

Lemma node_values_mapM nodes xs : Forall2 node_value nodes xs -> exists fuel, exec_mapM (evaluate fuel) nodes = Ok xs.
Proof.
  induction 1 as [|n x nodes xs [f1 Hx] _ [f2 Hxs]]; [by exists 0%nat|]. exists (f1 + f2)%nat. simpl.
  rewrite (evaluate_mono f1 (f1 + f2) n x) by (done || lia). simpl.
  rewrite (mapM_mono (evaluate f2) (evaluate (f1 + f2)) nodes xs); [done | | done]. intros m y. apply evaluate_mono. lia.
Qed.

(** The rules of evaluation. *)
Lemma value_table node table x : cp_recipes plan !! node = Some (NR_BaseTable table) -> node_value node x <-> inputs !! table = Some x.
Proof.
  intros Hr. split.
  - intros [[|fuel] Hx]; [done|]. simpl in Hx. rewrite Hr in Hx. destruct (inputs !! table); [by injection Hx as -> | done].
  - intros Hx. exists 1%nat. simpl. by rewrite Hr, Hx.
Qed.

Lemma value_cte node tgt x : cp_recipes plan !! node = Some (NR_CteRef tgt) -> node_value node x <-> node_value tgt x.
Proof.
  intros Hr. split.
  - intros [[|fuel] Hx]; [done|]. simpl in Hx. rewrite Hr in Hx. by exists fuel.
  - intros [fuel Hx]. exists (S fuel). simpl. by rewrite Hr.
Qed.

Lemma value_operator node recipe x :
  cp_recipes plan !! node = Some recipe -> is_operator recipe = true ->
  node_value node x <-> exists nodes xs, operator_inputs plan node recipe = Ok nodes /\ Forall2 node_value nodes xs /\ install_op recipe xs = Ok x.
Proof.
  intros Hr Hop. assert (forall fuel, evaluate (S fuel) node =
    let? nodes := operator_inputs plan node recipe in let? ins := exec_mapM (evaluate fuel) nodes in install_op recipe ins) as Hev
    by (intros fuel; cbn [evaluate]; rewrite Hr; by destruct recipe). split.
  - intros [[|fuel] Hx]; [done|]. rewrite Hev in Hx. apply exec_bind_ok in Hx as (nodes & Hn & Hx). apply exec_bind_ok in Hx as (xs & Hxs & Hx).
    exists nodes, xs. split_and!; [done | | done]. apply exec_mapM_ok in Hxs. eapply Forall2_impl; [exact Hxs|]. intros n y Hy. by exists fuel.
  - intros (nodes & xs & Hn & (fuel & Hxs)%node_values_mapM & Hx). exists (S fuel). rewrite Hev, Hn. simpl. by rewrite Hxs.
Qed.

(** ** The installer computes it *)

Context (rounds : nat).
Hypothesis no_recursion : forall n recipe, cp_recipes plan !! n = Some recipe ->
  match recipe with NR_Fixpoint _ _ | NR_RecursiveRef _ => False | _ => True end.

Definition cache_sound (c : cache) : Prop := forall n x, c !! n = Some x -> node_value n x.

Lemma install_all_sound install nodes c xs c' :
  (forall n c x c', cache_sound c -> install n c = Ok (x, c') -> node_value n x /\ cache_sound c') ->
  cache_sound c -> install_all install nodes c = Ok (xs, c') -> Forall2 node_value nodes xs /\ cache_sound c'.
Proof.
  intros Hi. revert c xs. induction nodes as [|n nodes IH]; intros c xs Hc; simpl.
  - intros [= <- <-]. by split.
  - intros ([x c1] & Hx & Hxs)%exec_bind_ok. apply exec_bind_ok in Hxs as ([ys c2] & Hys & [= <- <-]).
    destruct (Hi _ _ _ _ Hc Hx) as [Hv Hc1]. destruct (IH _ _ Hc1 Hys). split; [by constructor | done].
Qed.

Lemma install_recursive_sound fuel node c x c' :
  cache_sound c -> install_recursive plan inputs rounds fuel node c = Ok (x, c') -> node_value node x /\ cache_sound c'.
Proof.
  revert node c x c'. induction fuel as [|fuel IH]; intros node c x c' Hc; [done|]. cbn [install_recursive].
  destruct (c !! node) as [y|] eqn:Ey; [intros [= <- <-]; split; [by apply Hc | done]|].
  intros ([y c1] & Hy & [= <- <-])%exec_bind_ok. enough (node_value node y /\ cache_sound c1) as [Hv Hc1].
  { split; [done|]. intros n z. destruct (decide (n = node)) as [->|]; [rewrite lookup_insert_eq; by intros [= <-]|].
    rewrite lookup_insert_ne by done. apply Hc1. }
  destruct (cp_recipes plan !! node) as [recipe|] eqn:Hr; [|done]. pose proof (no_recursion _ _ Hr) as Hrec.
  destruct (is_operator recipe) eqn:Hop.
  - assert (install_operator plan (install_recursive plan inputs rounds fuel) node recipe c = Ok (y, c1)) as Ho by (by destruct recipe).
    apply exec_bind_ok in Ho as (nodes & Hn & Ho). apply exec_bind_ok in Ho as ([xs c2] & Hxs & Ho).
    apply exec_bind_ok in Ho as (out & Hout & [= <- <-]). apply install_all_sound in Hxs as [Hvs Hc2]; [|exact IH | done].
    split; [|done]. apply (value_operator _ _ _ Hr Hop). eauto.
  - destruct recipe; try done.
    + destruct (inputs !! table) as [z|] eqn:Ez; [|done]. injection Hy as <- <-. split; [|done]. by apply (value_table _ _ _ Hr).
    + destruct (IH _ _ _ _ Hc Hy) as [Hv Hc1]. split; [|done]. by apply (value_cte _ _ _ Hr).
Qed.

Lemma install_plan_sound x : install_plan plan inputs rounds = Ok x -> node_value (cp_root plan) x.
Proof.
  unfold install_plan. intros ([y c] & Hy & [= <-])%exec_bind_ok. apply install_recursive_sound in Hy as [Hv _]; [done|].
  intros n z. by rewrite lookup_empty.
Qed.
End Evaluate.

(** ** What the rules let through *)

Section View.
Context `{EvalRuntime} `{Rendering} `{PetGraph MirNodeKind MirEdgeKind}.

(** The recipe of a guard over rows of a schema. *)
Definition guard_recipe (schema : ScalarSchema) (prov : list (option text)) (guard : MirNodeKind) : option NodeRecipe :=
  match guard with
  | Filter predicate =>
      match compile_predicate predicate (with_provenance schema prov) with Ok p => Some (NR_Filter p) | _ => None end
  | DistinctOn on order_by =>
      match exec_mapM (fun e => compile_key_extractor e schema prov) on,
            exec_mapM (fun key => compile_key_extractor (ok_expression key) schema prov) order_by with
      | Ok ons, Ok sorts =>
          Some (NR_DistinctOn (combine_key_extractors ons) (combine_key_extractors sorts) (map ok_descending order_by))
      | _, _ => None
      end
  | _ => None
  end.

(** Rows of a table passed through its guards, from the table up. *)
Fixpoint run_guards (schema : ScalarSchema) (prov : list (option text)) (ks : list MirNodeKind) (c : collection Row)
  : installed (collection Row) :=
  match ks with
  | [] => Ok c
  | k :: ks' =>
      match guard_recipe schema prov k with
      | Some recipe => let? c := install_op recipe [c] in run_guards schema prov ks' c
      | None => Panic
      end
  end.

(** The rows of a table a user may see. *)
Definition visible_rows (lookup : text -> option (Z * ScalarSchema)) (rules : list CompiledRule) (ctx : UserContext) (table : text)
    (c : collection Row) : installed (collection Row) :=
  match lookup table, guards rules ctx table with
  | Some (_, schema), Ok ks => run_guards schema (replicate (schema_len schema) (Some table)) ks c
  | _, _ => Panic
  end.

Definition is_guard (k : MirNodeKind) : bool := match k with Filter _ | DistinctOn _ _ => true | _ => false end.

Lemma guards_are_guards rules ctx table ks : guards rules ctx table = Ok ks -> Forall (fun k => is_guard k = true) ks.
Proof.
  unfold guards. destruct (visible_rules rules table) as [|r rs]; [intros [= <-]; constructor|].
  assert (Forall (fun k => is_guard k = true) (match cr_latest r with Some latest => [latest_node latest] | None => [] end)) as Hs
    by (destruct (cr_latest r); repeat constructor).
  destruct (existsb _ _); [by intros [= <-]|]. intros (cs & _ & [= <-])%exec_bind_ok. apply Forall_app. split; [done | by repeat constructor].
Qed.

(** A rewrite adds guards and no table. *)
Lemma splice_chain_nodes m i ks :
  graph_wf m -> (i < node_count m)%nat -> pg_nodes (graph (splice_chain m i ks).2) = pg_nodes (graph m) ++ ks /\ graph_wf (splice_chain m i ks).2.
Proof.
  revert m i. induction ks as [|k ks IH]; intros m i Hs Hi; cbn [splice_chain]; [by rewrite app_nil_r|].
  pose proof (splice_above_spec m i k Hs Hi) as Hsp. pose proof (splice_wf m i k Hs Hi) as Hs1.
  destruct (splice_above m i k) as [d m1]. destruct Hsp as (Hd & Hn & _).
  destruct (IH m1 d Hs1) as [-> Hs2]; [unfold node_count; rewrite Hn, Hd, length_app; simpl; lia|]. by rewrite Hn, <- app_assoc.
Qed.

Lemma table_of_app m m' ks n :
  pg_nodes (graph m') = pg_nodes (graph m) ++ ks -> Forall (fun k => is_guard k = true) ks -> table_of m' n = table_of m n.
Proof.
  intros Hn Hks. unfold table_of, node_kind. rewrite Hn, lookup_app. destruct (pg_nodes (graph m) !! n) as [k|]; [done|].
  destruct (ks !! _) as [k|] eqn:E; [|done]. rewrite Forall_lookup in Hks. apply Hks in E. by destruct k.
Qed.

Lemma rewrite_loop_tables rules ctx idxs m st m' st' n :
  graph_wf m -> (forall i, i ∈ idxs -> is_Some (table_of m i)) ->
  rewrite_loop (rules_by_table rules) ctx idxs (m, st) = Ok (m', st') -> table_of m' n = table_of m n.
Proof.
  revert m st. induction idxs as [|i idxs IH]; intros m st Hs Hidx; cbn [rewrite_loop]; [by intros [= <- <-]|].
  destruct (Hidx i) as [t Ht]; [by constructor|]. rewrite (rewrite_node_spec rules ctx i m st t Ht).
  destruct (guards rules ctx t) as [ks|e|] eqn:Hks; [|done..]. cbn [exec_bind]. intros Hl.
  assert (i < node_count m)%nat as Hi.
  { unfold table_of, node_kind in Ht. destruct (pg_nodes (graph m) !! i) eqn:E; [by apply lookup_lt_Some in E | done]. }
  destruct (splice_chain_nodes m i ks Hs Hi) as [Hn Hs1]. apply guards_are_guards in Hks. pose proof (fun j => table_of_app _ _ _ j Hn Hks) as Htab.
  rewrite (IH _ _ Hs1) by (done || (intros j Hj; rewrite Htab; apply Hidx; by constructor)). apply Htab.
Qed.

Lemma rewrite_tables g rules ctx out n :
  graph_wf g -> rewrite g rules ctx = Ok out -> table_of (ro_graph out) n = table_of g n.
Proof.
  intros Hwf ([m' st'] & Hl & [= <-])%exec_bind_ok. eapply rewrite_loop_tables; [exact Hwf | | exact Hl].
  intros i. apply base_table_indices_spec.
Qed.
End View.

(** ** Guards of a compiled plan *)

Section Guarded.
Context `{EvalRuntime} `{Rendering} `{PetGraph MirNodeKind MirEdgeKind}.
Context (m : MirGraph) (lookup : text -> option (Z * ScalarSchema)) (st : CompileState) (schema_out : ScalarSchema).
Hypothesis st_explained : explained m lookup st.
Hypothesis st_complete : forall n, (n < node_count m)%nat -> is_Some (cs_recipes st !! n).
Abbreviation plan := (the_plan m st schema_out).

Lemma feeds_source s c w : feeds m s c w -> (s, c, w) ∈ edge_refs (Mir.graph m) (pg_in (Mir.graph m) c).
Proof.
  intros (i & Hi)%list_elem_of_lookup. unfold edge_refs. apply filter_map_elem. exists i. split; [|done].
  rewrite pg_in_spec. apply ids_from_spec. split; [lia|]. exists (s, c, w). rewrite Nat.sub_0_r. split; [done | apply Nat.eqb_refl].
Qed.

Lemma single_input_feeds i n j : feeds m i n (Input 0) -> single_input m n = Ok j -> j = i.
Proof.
  intros Hf%feeds_source. unfold single_input. destruct (List.filter _ _) as [|e [|]] eqn:E; try done. intros [= <-].
  assert (List.In (i, n, Input 0) (List.filter is_input (edge_refs (Mir.graph m) (pg_in (Mir.graph m) n)))) as Hin
    by (apply filter_In; split; [by apply list_elem_of_In | done]).
  rewrite E in Hin. by destruct Hin as [->|[]].
Qed.

Lemma feeds_sources s c w : feeds m s c w -> s ∈ sources m c.
Proof. intros Hf%feeds_source. apply list_elem_of_fmap. by exists (s, c, w). Qed.

(** The entry of a table. *)
Lemma table_compiled n t :
  node_kind m n = Some (BaseTable t []) -> exists id schema, lookup t = Some (id, schema) /\
    entry st n = (Some schema, Some (replicate (schema_len schema) (Some t)), Some (NR_BaseTable id)).
Proof.
  intros Hk. destruct (st_explained n) as (ens & st0 & st1 & Hc & He & _); [apply st_complete; by eapply node_kind_lt|].
  unfold compile_node in Hc. rewrite Hk in Hc. apply exec_bind_ok in Hc as ([id schema] & Hl%ok_or_some & Hc).
  apply exec_bind_ok in Hc as (s & [= <-] & [= <-]). exists id, schema. split; [done|]. rewrite <- He. unfold entry. simpl.
  by rewrite !lookup_insert_eq.
Qed.

(** The entry of a guard, from that of the node it reads. *)
Lemma guard_compiled i n k s p r :
  node_kind m n = Some k -> is_guard k = true -> feeds m i n (Input 0) -> entry st i = (Some s, Some p, r) ->
  exists recipe, guard_recipe s p k = Some recipe /\ is_operator recipe = true /\ entry st n = (Some s, Some p, Some recipe) /\
    operator_inputs plan n recipe = Ok [i].
Proof.
  intros Hk Hg Hf Hi. destruct (st_explained n) as (ens & st0 & st1 & Hc & He & Hsrc); [apply st_complete; by eapply node_kind_lt|].
  destruct (Hsrc i (feeds_sources _ _ _ Hf)) as [_ Hi0]. rewrite Hi in Hi0. unfold compile_node in Hc. rewrite Hk in Hc.
  assert (forall what, node_input st0 i what = Ok (s, p)) as Hin.
  { intros what. unfold node_input. injection Hi0 as Hs Hp _. by rewrite Hs, Hp. }
  destruct k; try discriminate Hg.
  - apply exec_bind_ok in Hc as (j & Hj & Hc). pose proof (single_input_feeds _ _ _ Hf Hj) as ->. rewrite Hin in Hc. simpl in Hc.
    apply exec_bind_ok in Hc as (f & Hp%expression_ok & [= <-]). exists (NR_Filter f).
    cbn [guard_recipe is_operator operator_inputs cp_graph the_plan]. rewrite Hp, Hj. split_and!; try done.
    rewrite <- He. unfold entry. simpl. by rewrite !lookup_insert_eq.
  - apply exec_bind_ok in Hc as (j & Hj & Hc). pose proof (single_input_feeds _ _ _ Hf Hj) as ->. rewrite Hin in Hc. simpl in Hc.
    apply exec_bind_ok in Hc as (ons & Hon & Hc). apply exec_bind_ok in Hc as (sorts & Hsort & [= <-]). eexists.
    cbn [guard_recipe]. rewrite Hon, Hsort. split_and!; [done | done | | cbn [operator_inputs cp_graph the_plan]; by rewrite Hj]. rewrite <- He. unfold entry. simpl. by rewrite !lookup_insert_eq.
Qed.

(** The top of a chain of guards holds what the guards make of its bottom. *)
Lemma chain_value inputs n0 i ks f s p r x :
  chain n0 m i ks f -> Forall (fun k => is_guard k = true) ks -> entry st i = (Some s, Some p, r) ->
  node_value plan inputs f x <-> exists c, node_value plan inputs i c /\ run_guards s p ks c = Ok x.
Proof.
  intros Hch Hks. revert i r Hch. induction Hks as [|k ks Hk _ IH]; intros i r Hch Hi; simpl in Hch.
  { subst f. split; [by exists x | by intros (c & Hc & [= <-])]. }
  destruct Hch as (d & _ & Hkind & _ & Hfeeds & Hch). assert (feeds m i d (Input 0)) as Hf by (by apply Hfeeds).
  destruct (guard_compiled i d k s p r Hkind Hk Hf Hi) as (recipe & Hg & Hop & Hd & Hin).
  rewrite (IH d _ Hch Hd). cbn [run_guards]. rewrite Hg.
  assert (cp_recipes plan !! d = Some recipe) as Hrec by (by injection Hd). split.
  - intros (c' & Hv & Hx). apply (value_operator _ _ _ _ _ Hrec Hop) in Hv as (nodes & xs & Hn & Hxs & Ho).
    rewrite Hin in Hn. injection Hn as <-. inversion Hxs as [|? c ? rest Hc Hnil]; subst. inversion Hnil; subst. exists c. split; [done|]. by rewrite Ho.
  - intros (c & Hc & Hx). apply exec_bind_ok in Hx as (c' & Ho & Hx). exists c'. split; [|done].
    apply (value_operator _ _ _ _ _ Hrec Hop). exists [i], [c]. split_and!; [done | by repeat constructor | done].
Qed.
End Guarded.

(** ** Non-interference *)

Section Hidden.
Context `{Rendering} `{PetGraph MirNodeKind MirEdgeKind}.

(** The nodes of a chain below its top. *)
Fixpoint below (m : MirGraph) (i : nat) (ks : list MirNodeKind) (n : nat) : Prop :=
  match ks with
  | [] => False
  | _ :: ks' => n = i \/ exists d, feeds m i d (Input 0) /\ below m d ks' n
  end.

(** They are read within the chain only. *)
Lemma below_reader n0 m i ks f n c w : chain n0 m i ks f -> below m i ks n -> feeds m n c w -> below m i ks c \/ c = f.
Proof.
  revert i. induction ks as [|k ks IH]; intros i Hch Hb Hf; simpl in Hch, Hb; [done|].
  destruct Hch as (d & _ & _ & _ & Hfeeds & Hch). destruct Hb as [->|(d' & [-> _]%Hfeeds & Hb)].
  - apply Hfeeds in Hf as [-> _]. destruct ks as [|k' ks]; [by right|]. left. right. exists d. split; [by apply Hfeeds | by left].
  - destruct (IH d Hch Hb Hf) as [Hb'| ->]; [|by right]. left. right. exists d. split; [by apply Hfeeds | done].
Qed.

Lemma below_root n0 m i ks f n : chain n0 m i ks f -> below m i ks n -> root m <> n.
Proof.
  revert i. induction ks as [|k ks IH]; intros i Hch Hb; simpl in Hch, Hb; [done|].
  destruct Hch as (d & _ & _ & Hroot & Hfeeds & Hch). destruct Hb as [->|(d' & [-> _]%Hfeeds & Hb)]; [done | by eapply IH].
Qed.
End Hidden.

Section Noninterference.
Context `{EvalRuntime} `{Rendering} `{PetGraph MirNodeKind MirEdgeKind}.
Context (g m : MirGraph) (rules : list CompiledRule) (ctx : UserContext).
Context (lookup : text -> option (Z * ScalarSchema)) (st : CompileState) (schema_out : ScalarSchema) (rank : nat -> nat).
Hypothesis st_ok : state_ok m lookup st.
Hypothesis st_explained : explained m lookup st.
Hypothesis st_complete : forall n, (n < node_count m)%nat -> is_Some (cs_recipes st !! n).
Hypothesis rank_edges : forall n s, s ∈ sources m n -> (rank s < rank n)%nat.
Hypothesis plain : forall n k, node_kind m n = Some k -> plain_kind k = true.
Hypothesis wf : graph_wf m.
Hypothesis tables_same : forall n, table_of m n = table_of g n.
Hypothesis tables_guarded : forall i, is_Some (table_of g i) -> enforced rules ctx (node_count g) g m i.
Abbreviation plan := (the_plan m st schema_out).

Context (inputs inputs' : gmap Z (collection Row)).
(** Both databases hold the tables of the query and look the same through the rules. *)
Definition same_view : Prop :=
  forall i t id schema c, table_of g i = Some t -> lookup t = Some (id, schema) -> inputs !! id = Some c ->
  exists c', inputs' !! id = Some c' /\ visible_rows lookup rules ctx t c = visible_rows lookup rules ctx t c'.
Hypothesis same : same_view.

Definition hidden (n : nat) : Prop :=
  exists i t ks f, table_of g i = Some t /\ guards rules ctx t = Ok ks /\ chain (node_count g) m i ks f /\ below m i ks n.

(** The top of a table's guards. *)
Definition guard_top (n : nat) : Prop :=
  exists i t ks, table_of g i = Some t /\ guards rules ctx t = Ok ks /\ chain (node_count g) m i ks n.

Lemma table_entry i t : table_of g i = Some t -> exists id schema, lookup t = Some (id, schema) /\
  entry st i = (Some schema, Some (replicate (schema_len schema) (Some t)), Some (NR_BaseTable id)).
Proof.
  rewrite <- tables_same. unfold table_of. intros Ht. destruct (node_kind m i) as [[]|] eqn:Hk; try done. injection Ht as ->.
  pose proof (plain _ _ Hk) as Hp. simpl in Hp. apply bool_decide_eq_true in Hp as ->. by eapply table_compiled.
Qed.

Lemma top_same n x : guard_top n -> node_value plan inputs n x -> node_value plan inputs' n x.
Proof.
  intros (i & t & ks & Ht & Hks & Hch) Hv. destruct (table_entry i t Ht) as (id & schema & Hl & Hi).
  pose proof (guards_are_guards _ _ _ _ Hks) as Hg. assert (cp_recipes plan !! i = Some (NR_BaseTable id)) as Hr by (by injection Hi).
  eapply chain_value in Hv as (c & Hc & Hx); [|done..]. apply (value_table _ _ _ _ _ Hr) in Hc.
  destruct (same i t id schema c Ht Hl Hc) as (c' & Hc' & Hsame). unfold visible_rows in Hsame. rewrite Hl, Hks in Hsame.
  eapply chain_value; [done..|]. exists c'. split; [by apply (value_table _ _ _ _ _ Hr) | by rewrite <- Hsame].
Qed.

(** A node that reads a hidden one is hidden, or the top of a table's guards. *)
Lemma hidden_reader s n : hidden s -> s ∈ sources m n -> hidden n \/ guard_top n.
Proof.
  intros (i & t & ks & f & Ht & Hks & Hch & Hb) (e & He & <- & <-)%sources_edges. destruct e as [[s' n'] w]. simpl in *.
  destruct (below_reader _ _ _ _ _ _ _ _ Hch Hb He) as [Hb'| ->]; [left | right]; unfold hidden, guard_top; eauto 10.
Qed.

(** A table is its own top, or hidden. *)
Lemma table_top n t : table_of g n = Some t -> guard_top n \/ hidden n.
Proof.
  intros Ht. destruct (tables_guarded n) as (t' & ks & f & Ht' & Hks & Hch & _); [by eexists|]. destruct ks as [|k ks].
  - left. simpl in Hch. subst f. by exists n, t', [].
  - right. exists n, t', (k :: ks), f. split_and!; [done..|]. by left.
Qed.

(** Values of inputs, or one of them is hidden. *)
Lemma values_or_hidden nodes xs :
  Forall2 (fun n x => hidden n \/ node_value plan inputs' n x) nodes xs ->
  (exists n, n ∈ nodes /\ hidden n) \/ Forall2 (node_value plan inputs') nodes xs.
Proof.
  induction 1 as [|n x nodes xs [Hh|Hv] _ IH]; [by right | left; exists n; split; [by constructor | done] |].
  destruct IH as [(k & Hk & Hh)|Hvs]; [left; exists k; split; [by constructor | done] | right; by constructor].
Qed.

Lemma value_same n x : (n < node_count m)%nat -> node_value plan inputs n x -> hidden n \/ node_value plan inputs' n x.
Proof.
  remember (rank n) as k eqn:Hk. revert n x Hk. induction k as [k IH] using lt_wf_ind. intros n x -> Hlt Hv.
  destruct (st_complete n Hlt) as [recipe Hr]. destruct (proj2 (so_dom _ _ _ st_ok n)) as [sch Hs]; [by eexists|].
  pose proof (so_shape _ _ _ st_ok _ _ _ Hr Hs) as Hshape. change (cp_recipes plan !! n = Some recipe) in Hr.
  assert (forall s, s ∈ sources m n -> hidden s -> hidden n \/ node_value plan inputs' n x) as Hhid.
  { intros s Hsrc Hh. destruct (hidden_reader s n Hh Hsrc) as [?|?]; [by left | right; by apply top_same]. }
  assert (forall s y, s ∈ sources m n -> node_value plan inputs s y -> hidden s \/ node_value plan inputs' s y) as Hsrc.
  { intros s y Hin. apply (IH (rank s)); [by apply rank_edges | done|]. apply sources_edges in Hin as (e & He & <- & _). by apply (gw_edges _ wf). }
  destruct (is_operator recipe) eqn:Hop.
  - destruct (proj1 (value_operator _ _ _ _ _ Hr Hop) Hv) as (nodes & xs & Hn & Hxs & Ho).
    destruct (operator_nodes m st schema_out n recipe (schema_len sch) Hshape) as (nodes' & Hn' & Hsub); [by destruct recipe|].
    rewrite Hn in Hn'. injection Hn' as <-. destruct (values_or_hidden nodes xs) as [(s & Hin & Hh)|Hvs].
    + clear -Hxs Hsub Hsrc. induction Hxs as [|s y nodes xs Hy _ IHf]; constructor; [apply Hsrc; [apply Hsub; by constructor | done]|].
      apply IHf. intros s' Hs'. apply Hsub. by constructor.
    + by eapply Hhid, Hh; apply Hsub.
    + right. apply (value_operator _ _ _ _ _ Hr Hop). eauto.
  - destruct recipe; try done.
    + destruct Hshape as (_ & _ & Hb). apply fmap_Some in Hb as (kind & Hkind & Hb). destruct kind; try done.
      destruct (table_top n table0) as [Ht|Hh]; [rewrite <- tables_same; unfold table_of; by rewrite Hkind | right; by apply top_same | by left].
    + destruct Hv as [[|fuel] Hv]; [done|]. cbn [evaluate] in Hv. by rewrite Hr in Hv.
    + destruct Hv as [[|fuel] Hv]; [done|]. cbn [evaluate] in Hv. by rewrite Hr in Hv.
    + destruct Hshape as [Hin _]. pose proof (proj1 (value_cte _ _ _ _ _ Hr) Hv) as Hv0. destruct (Hsrc target x Hin Hv0) as [Hh|Hv']; [by eapply Hhid|].
      right. by apply (value_cte _ _ _ _ _ Hr).
Qed.

Lemma root_same x : node_value plan inputs (root m) x -> node_value plan inputs' (root m) x.
Proof.
  intros Hv. destruct (value_same (root m) x) as [(i & t & ks & f & _ & _ & Hch & Hb)|]; [apply (gw_root _ wf) | done | | done].
  by destruct (below_root _ _ _ _ _ _ Hch Hb).
Qed.
End Noninterference.

Section Enforced.
Context `{EvalRuntime} `{Rendering} `{PetGraph MirNodeKind MirEdgeKind}.

(** C5: Permission rules hold through the compiled plan: for a well-formed query graph without
    recursion and without narrowed scans that was rewritten with a user's rules, compiled and
    installed, when the closures of the plan return on every row and both databases give every input
    table rows of its schema's width: two databases that show the same rows of every table through
    the table's current-row selection and filter give the same result, so rows the rules hide have
    no influence on what the user is sent; both runs end without a panic. *)
Theorem rules_noninterference acyclic lookup g rules ctx out plan inputs inputs' rounds :
  graph_wf g -> toposort_sound acyclic ->
  (forall a b t s s', lookup a = Some (t, s) -> lookup b = Some (t, s') -> s = s') ->
  rewrite g rules ctx = Ok out -> forallb plain_kind (node_kinds (ro_graph out)) = true ->
  compile_mir acyclic lookup (ro_graph out) = Ok plan ->
  (forall n recipe, cp_recipes plan !! n = Some recipe -> closures_return recipe) ->
  (forall t s, cp_input_schemas plan !! t = Some s -> exists c, inputs !! t = Some c /\ width (schema_len s) c) ->
  (forall t s, cp_input_schemas plan !! t = Some s -> exists c, inputs' !! t = Some c /\ width (schema_len s) c) ->
  same_view g rules ctx lookup inputs inputs' ->
  exists result, install_plan plan inputs rounds = Ok result /\ install_plan plan inputs' rounds = Ok result.
Proof.
  intros Hg Htopo Hlookup Hrw Hplain Hc Hcl Hw Hw' Hsame.
  pose proof (rewrite_spec g rules ctx Hg) as Hspec. rewrite Hrw in Hspec. destruct Hspec as (Hwf & Henf & _).
  destruct (plan_runs acyclic lookup (ro_graph out) plan inputs rounds Hwf Htopo Hlookup Hplain Hc Hcl Hw) as (x & Hx & _).
  destruct (plan_runs acyclic lookup (ro_graph out) plan inputs' rounds Hwf Htopo Hlookup Hplain Hc Hcl Hw') as (x' & Hx' & _).
  destruct (plan_compiled acyclic lookup (ro_graph out) plan Htopo Hlookup Hplain Hc) as (st & rank & _ & Hrank & Hkind & Hst & Hcomp & Hex & ->).
  assert (forall n recipe, cs_recipes st !! n = Some recipe ->
    match recipe with NR_Fixpoint _ _ | NR_RecursiveRef _ => False | _ => True end) as Hrec by (by eapply plain_recipes).
  exists x. split; [done|]. apply install_plan_sound in Hx; [|exact Hrec]. apply install_plan_sound in Hx' as Hv'; [|exact Hrec].
  rewrite Hx'. f_equal. eapply value_unique; [exact Hv'|].
  eapply (root_same g (ro_graph out) rules ctx lookup st); try done. intros n. by eapply rewrite_tables.
Qed.
End Enforced.
