(* ===== verification/Router.v ===== *)
(** * Router: the subscription router
    ([crates/palimpsest-server/src/router.rs], [snapshot.rs])

    Every public operation of [SubscriptionRouter] on the state behind its mutex.
    [subscribe] takes the lock twice: it reads the rules, works without the lock,
    then registers; the two halves are [prepare] and [commit], and [subscribe]
    is their composition. Metrics and log lines are left out. The compiled plan
    and its snapshot evaluation ([snapshot_run], which may panic) are parameters. *)

From S2P Require Import Prelude BTree Text Values UserContext Watermarks Shared Registry.
From S2P Require Import Protocol WalSource Channel Cursor Pairing Permissions Mir Rewriter.

(** ** Snapshots *)

Record SnapshotTableRows := { st_table : Z; st_rows : list Row }.
Record SnapshotBatch := { sb_snapshot_lsn : Z; sb_rows : list SnapshotTableRows }.

Definition snapshot_to_seed_updates (batch : SnapshotBatch) : list WalUpdate :=
  concat (map (fun t =>
    map (fun row => {| wu_table := st_table t; wu_row := row; wu_time := sb_snapshot_lsn batch; wu_diff := 1 |})
      (st_rows t)) (sb_rows batch)).

(** [SnapshotProvider::fetch]: [Err] carries its message. *)
Definition SnapshotProvider := text -> exec string SnapshotBatch.

Definition snapshot_seed (provider : SnapshotProvider) (query : text)
  : exec RouterError (SnapshotBatch * list WalUpdate) :=
  let? batch := exec_map_err Snapshot (provider query) in
  Ok (batch, snapshot_to_seed_updates batch).

(** ** Configuration and state *)

Record RouterConfig := {
  channel_capacity : Z;
  backpressure : BackpressurePolicy;
  default_latest_known_lsn : Z
}.

Definition RouterConfig_default : RouterConfig :=
  {| channel_capacity := DEFAULT_CAPACITY; backpressure := DropAndResync;
     default_latest_known_lsn := U64_MAX / 2 |}.

Section Router.
Context `{Rendering} `{PetGraph MirNodeKind MirEdgeKind} `{Mpsc DiffEvent}.
Context {CompiledPlan : Type} (snapshot_run : CompiledPlan -> gmap Z (list Row) -> exec RouterError (list Row)).
Context (config : RouterConfig).

Record RouterInner := {
  registry : SubscriptionRegistry;
  ack_tracker : LsnWatermarks;
  subgraphs : SharedSubgraphRegistry;
  channels : gmap Z BoundedDiffChannel;
  subgraph_holders : gmap Z Z;
  schemas : gmap Z SchemaDefinition;
  rules : list CompiledRule
}.

Definition router_new : RouterInner :=
  {| registry := registry_new; ack_tracker := watermarks_new; subgraphs := shared_new;
     channels := ∅; subgraph_holders := ∅; schemas := ∅; rules := [] |}.

Record SubscribeRequest := {
  rq_connection : Z;
  rq_subscription_id : Z;
  rq_client_id : string;
  rq_query : text;
  rq_query_graph : MirGraph;
  rq_user_ctx : UserContext;
  rq_schema : SchemaDefinition;
  rq_resume_lsn : option Z;
  rq_compiled_plan : option CompiledPlan;
  rq_prerun_initial : option (list Row * Z)
}.

Record SubscribeResponse := {
  rs_subscription_id : Z;
  rs_schema_id : Z;
  rs_snapshot_lsn : Z;
  rs_resume : ResumeDecision;
  rs_permission_stats : RewriteStats;
  rs_subgraph : SharedSubgraphAcquire;
  rs_seed_updates : list WalUpdate
}.

(** ** [set_rules] and small reads *)

Definition set_rules (st : RouterInner) (new_rules : list CompiledRule) : RouterInner :=
  {| registry := registry st; ack_tracker := ack_tracker st; subgraphs := subgraphs st;
     channels := (fun c => force_resync c PermissionsChanged) <$> channels st;
     subgraph_holders := subgraph_holders st; schemas := schemas st; rules := new_rules |}.

Definition permission_rules (st : RouterInner) : list CompiledRule := rules st.
Definition active_subscriptions (st : RouterInner) : nat := registry_len (registry st).

(** ** [subscribe] *)

Definition install_permission_filters (g : MirGraph) (rs : list CompiledRule) (ctx : UserContext)
  : exec RouterError RewriteOutcome :=
  exec_map_err Permission (rewrite g rs ctx).

Definition first_rule_guarded_table (g : MirGraph) (rs : list CompiledRule) : option text :=
  head (filter_map (fun node =>
    match node with
    | BaseTable table _ =>
        if existsb (fun rule => affects_visibility (cr_mode rule) &&
                      negb (is_tautology (cr_predicate rule)) && bool_decide (cr_table rule = table)) rs
        then Some table else None
    | _ => None
    end) (node_kinds g)).

(** [collect()] into a [HashMap]: a later entry replaces an earlier one. *)
Definition snapshot_inputs (b : SnapshotBatch) : gmap Z (list Row) :=
  fold_left (fun m t => <[st_table t := st_rows t]> m) (sb_rows b) ∅.

(** The rows of the [Initial] event, the snapshot LSN and the seed updates. *)
Definition initial_snapshot (req : SubscribeRequest) (provider : SnapshotProvider)
  : exec RouterError (Z * list Row * list WalUpdate) :=
  match rq_prerun_initial req with
  | Some (rows, lsn) => Ok (lsn, rows, [])
  | None =>
      let? (batch, seed) := snapshot_seed provider (rq_query req) in
      let? rows := match rq_compiled_plan req with
                   | Some plan => snapshot_run plan (snapshot_inputs batch)
                   | None => Ok (concat (map st_rows (sb_rows batch)))
                   end in
      Ok (sb_snapshot_lsn batch, rows, seed)
  end.

(** What [subscribe] holds when it takes the lock for the second time. *)
Record Prepared := {
  pp_subscription : Subscription;
  pp_schema : SchemaDefinition;
  pp_canonical : text;
  pp_channel : BoundedDiffChannel;
  pp_resume : ResumeDecision;
  pp_outcome : RewriteOutcome;
  pp_seed : list WalUpdate
}.

Definition prepare (rs : list CompiledRule) (req : SubscribeRequest) (provider : SnapshotProvider)
  : exec RouterError Prepared :=
  let? outcome := install_permission_filters (rq_query_graph req) rs (rq_user_ctx req) in
  if (0 <? filters_inserted (ro_stats outcome)) &&
     match rq_compiled_plan req with None => true | Some _ => false end
  then Err (PermissionUnenforceable
              (default (lit "<unknown>") (first_rule_guarded_table (rq_query_graph req) rs)))
  else
    let key := canonical_subgraph_key (rq_query req) (rq_user_ctx req) in
    let? (snapshot_lsn, initial_rows, seed) := initial_snapshot req provider in
    let resume := resolve (rq_resume_lsn req)
      {| earliest_replayable := snapshot_lsn; latest_known := default_latest_known_lsn config |} in
    let? channel0 := channel_new (channel_capacity config) (backpressure config) in
    let '(attached, channel1) := take_stream channel0 in
    if negb attached then Panic
    else
      let? channel :=
        match resume with
        | FreshInitial _ =>
            match try_send channel1 (Ev_Initial snapshot_lsn initial_rows) with
            | (Sent, c) => Ok c
            | ((SaturatedDropResync | SaturatedCoalesce | ChannelClosed), _) => Err ChannelSaturated
            end
        | Replay _ => Ok channel1
        end in
      Ok {| pp_subscription :=
              {| sub_id := rq_subscription_id req; sub_client_id := rq_client_id req;
                 sub_connection := rq_connection req; sub_query := rq_query req;
                 sub_user_ctx := rq_user_ctx req; sub_schema_id := schema_id (rq_schema req);
                 sub_snapshot_lsn := snapshot_lsn; sub_cursor_lsn := snapshot_lsn; sub_state := Seeding |};
            pp_schema := rq_schema req; pp_canonical := key; pp_channel := channel; pp_resume := resume;
            pp_outcome := outcome; pp_seed := seed |}.

(** The second critical section. *)
Definition commit (st : RouterInner) (p : Prepared) : exec RouterError SubscribeResponse * RouterInner :=
  let sub := pp_subscription p in
  let id := sub_id sub in
  match registry_insert (registry st) sub with
  | None => (Err DuplicateClientSubscriptionId, st)
  | Some registry' =>
      match acquire (subgraphs st) (text_string (pp_canonical p)) with
      | None => (Panic, st)
      | Some (acq, subgraphs') =>
          (Ok {| rs_subscription_id := id; rs_schema_id := sub_schema_id sub;
                 rs_snapshot_lsn := sub_snapshot_lsn sub; rs_resume := pp_resume p;
                 rs_permission_stats := ro_stats (pp_outcome p); rs_subgraph := acq;
                 rs_seed_updates := pp_seed p |},
           {| registry := registry';
              ack_tracker := ack_install (ack_tracker st) id (sub_snapshot_lsn sub);
              subgraphs := subgraphs';
              channels := <[id := pp_channel p]> (channels st);
              subgraph_holders := <[id := acquire_id acq]> (subgraph_holders st);
              schemas := <[schema_id (pp_schema p) := pp_schema p]> (schemas st);
              rules := rules st |})
      end
  end.

Definition subscribe (st : RouterInner) (req : SubscribeRequest) (provider : SnapshotProvider)
  : exec RouterError SubscribeResponse * RouterInner :=
  match prepare (rules st) req provider with
  | Ok p => commit st p
  | Err e => (Err e, st)
  | Panic => (Panic, st)
  end.

(** ** Delivery *)

Definition with_registry (st : RouterInner) (r : SubscriptionRegistry) : RouterInner :=
  {| registry := r; ack_tracker := ack_tracker st; subgraphs := subgraphs st; channels := channels st;
     subgraph_holders := subgraph_holders st; schemas := schemas st; rules := rules st |}.
Definition with_channel (st : RouterInner) (sub : Z) (c : BoundedDiffChannel) : RouterInner :=
  {| registry := registry st; ack_tracker := ack_tracker st; subgraphs := subgraphs st;
     channels := <[sub := c]> (channels st);
     subgraph_holders := subgraph_holders st; schemas := schemas st; rules := rules st |}.

Definition set_state (s : SubscriptionState) (r : Subscription) : Subscription :=
  {| sub_id := sub_id r; sub_client_id := sub_client_id r; sub_connection := sub_connection r;
     sub_query := sub_query r; sub_user_ctx := sub_user_ctx r; sub_schema_id := sub_schema_id r;
     sub_snapshot_lsn := sub_snapshot_lsn r; sub_cursor_lsn := sub_cursor_lsn r; sub_state := s |}.
Definition set_cursor (lsn : Z) (r : Subscription) : Subscription :=
  {| sub_id := sub_id r; sub_client_id := sub_client_id r; sub_connection := sub_connection r;
     sub_query := sub_query r; sub_user_ctx := sub_user_ctx r; sub_schema_id := sub_schema_id r;
     sub_snapshot_lsn := sub_snapshot_lsn r; sub_cursor_lsn := lsn; sub_state := sub_state r |}.

(** The lock of the router does not stop the receiver: [between] is what it does after the send that
    found the channel full and before the forced resync. *)
Definition pump_event_between (between : list rx_op) (st : RouterInner) (sub : Z) (event : DiffEvent) : exec RouterError unit * RouterInner :=
  match channels st !! sub with
  | None => (Err (UnknownSubscription sub), st)
  | Some channel =>
      let '(outcome, c1) := try_send channel event in
      let c2 := if is_saturation outcome then force_resync (rx_run c1 between) Backpressure else c1 in
      let st1 := with_channel st sub c2 in
      match outcome with
      | Sent => (Ok tt, with_registry st1 (registry_update (registry st1) sub (set_state Streaming)))
      | SaturatedDropResync | SaturatedCoalesce =>
          (Err ChannelSaturated, with_registry st1 (registry_update (registry st1) sub (set_state Draining)))
      | ChannelClosed => (Err (UnknownSubscription sub), st1)
      end
  end.
(** With no action of the receiver in between, as the callers below use it. *)
Definition pump_event : RouterInner -> Z -> DiffEvent -> exec RouterError unit * RouterInner := pump_event_between [].

Definition pump_transaction (st : RouterInner) (sub : Z) (delta : QueryTransactionDelta) (primary_key : list nat)
  : exec RouterError unit * RouterInner :=
  match pair_transaction_into_event delta primary_key with
  | Ok event => pump_event st sub event
  | Err e => (Err e, st)
  | Panic => (Panic, st)
  end.

Definition pump_batch (st : RouterInner) (sub : Z) (batch : LsnBatch) (primary_key : list nat)
  : exec RouterError unit * RouterInner :=
  pump_transaction st sub (delta_of_batch batch) primary_key.

(** [pump_cursor]: the number of events sent, the cursor and the state left. *)
Fixpoint pump_cursor_fuel {C} `{TraceCursor C} (fuel : nat) (st : RouterInner) (sub : Z) (c : C)
    (primary_key : list nat) : exec RouterError Z * C * RouterInner :=
  match fuel with
  | O => (Ok 0, c, st)
  | S fuel' =>
      match next_transaction c with
      | None => (Ok 0, c, st)
      | Some (delta, c') =>
          if delta_is_empty delta then pump_cursor_fuel fuel' st sub c' primary_key
          else
            match pump_transaction st sub delta primary_key with
            | (Ok _, st') =>
                let '(r, c'', st'') := pump_cursor_fuel fuel' st' sub c' primary_key in
                (exec_map (Z.add 1) r, c'', st'')
            | (Err e, st') => (Err e, c', st')
            | (Panic, st') => (Panic, c', st')
            end
      end
  end.

Definition pump_cursor {C} `{TraceCursor C} (st : RouterInner) (sub : Z) (c : C) (primary_key : list nat)
  : exec RouterError Z * C * RouterInner :=
  pump_cursor_fuel (S (available c)) st sub c primary_key.

(** ** Acks and teardown *)

Definition ack (st : RouterInner) (sub lsn : Z) : exec RouterError AckOutcome * RouterInner :=
  match registry_get (registry st) sub with
  | None => (Err (UnknownSubscription sub), st)
  | Some record =>
      let '(outcome, tracker) := ack_ack (ack_tracker st) sub (sub_cursor_lsn record) lsn in
      let registry' := match outcome with
                       | Advanced new => registry_update (registry st) sub (set_cursor new)
                       | Stale => registry st
                       end in
      (Ok outcome,
       {| registry := registry'; ack_tracker := tracker; subgraphs := subgraphs st; channels := channels st;
          subgraph_holders := subgraph_holders st; schemas := schemas st; rules := rules st |})
  end.

Definition unsubscribe (st : RouterInner) (sub : Z)
  : exec RouterError (option SharedSubgraphRelease) * RouterInner :=
  let '(removed, registry') := registry_remove (registry st) sub in
  match removed with
  | None => (Err (UnknownSubscription sub), with_registry st registry')
  | Some _ =>
      let '(rel, subgraphs') :=
        match subgraph_holders st !! sub with
        | Some id => release (subgraphs st) id
        | None => (None, subgraphs st)
        end in
      (Ok rel,
       {| registry := registry'; ack_tracker := ack_remove (ack_tracker st) sub; subgraphs := subgraphs';
          channels := delete sub (channels st); subgraph_holders := delete sub (subgraph_holders st);
          schemas := schemas st; rules := rules st |})
  end.

Fixpoint unsubscribe_all (st : RouterInner) (ids : list Z) : list SharedSubgraphRelease * RouterInner :=
  match ids with
  | [] => ([], st)
  | sub :: ids' =>
      let '(r, st') := unsubscribe st sub in
      let '(rels, st'') := unsubscribe_all st' ids' in
      (match r with Ok (Some rel) => rel :: rels | _ => rels end, st'')
  end.

Definition disconnect (st : RouterInner) (connection : Z) : list SharedSubgraphRelease * RouterInner :=
  unsubscribe_all st (connection_subscriptions (registry st) connection).

Definition resume_decision (st : RouterInner) (sub : Z) (resume_lsn : option Z) : option ResumeDecision :=
  record ← registry_get (registry st) sub;
  Some (resolve resume_lsn {| earliest_replayable := sub_snapshot_lsn record;
                              latest_known := default_latest_known_lsn config |}).
End Router.
