(* ===== verification/RouterInv.v ===== *)
(** * RouterInv: the router's invariant

    The five indexes of the router agree in every reachable state, under any
    interleaving of its critical sections; in particular the reference count of
    a shared subgraph is the number of live subscriptions with its key. *)

From stdpp Require Import relations.
From S2P Require Import Prelude BTree Text Values UserContext Watermarks Shared Registry.
From S2P Require Import Protocol WalSource Channel Cursor Pairing Permissions Mir Rewriter Router.

(** ** Counting subscriptions by key *)

Section Count.
Context {A : Type} (key : A -> string).

Definition count_key (k : string) (m : gmap Z A) : Z :=
  Z.of_nat (size (filter (fun p : Z * A => key p.2 = k) m)).

Definition one_if (b : bool) : Z := if b then 1 else 0.

Lemma count_key_nonneg k m : 0 <= count_key k m.
Proof. unfold count_key. lia. Qed.

Lemma count_key_empty k : count_key k ∅ = 0.
Proof. unfold count_key. by rewrite map_filter_empty, map_size_empty. Qed.

Lemma count_key_insert k i x m :
  m !! i = None -> count_key k (<[i := x]> m) = count_key k m + one_if (bool_decide (key x = k)).
Proof.
  intros Hi. unfold count_key. case_bool_decide as Hk.
  - rewrite map_filter_insert_True by done. rewrite map_size_insert_None; [simpl; lia|].
    apply map_lookup_filter_None. by left.
  - rewrite map_filter_insert_not' by (done || (intros; congruence)). simpl. lia.
Qed.

Lemma count_key_delete k i x m :
  m !! i = Some x -> count_key k m = count_key k (delete i m) + one_if (bool_decide (key x = k)).
Proof.
  intros Hi. rewrite <- (insert_delete_id m i x Hi) at 1. apply count_key_insert, lookup_delete_eq.
Qed.

Lemma count_key_alter k f i m :
  (forall x, key (f x) = key x) -> count_key k (alter f i m) = count_key k m.
Proof.
  intros Hf. destruct (m !! i) as [x|] eqn:Hi.
  - rewrite (count_key_delete k i (f x)) by (rewrite lookup_alter_eq, Hi; done).
    rewrite (count_key_delete k i x m Hi), Hf. do 2 f_equal.
    apply map_eq. intros j. destruct (decide (i = j)) as [->|];
      [by rewrite !lookup_delete_eq | by rewrite !lookup_delete_ne, lookup_alter_ne].
  - f_equal. apply map_eq. intros j. destruct (decide (i = j)) as [->|];
      [by rewrite lookup_alter_eq, Hi | by rewrite lookup_alter_ne].
Qed.

Lemma count_key_pos k i x m : m !! i = Some x -> key x = k -> 1 <= count_key k m.
Proof.
  intros Hi Hk. rewrite (count_key_delete k i x m Hi), bool_decide_true by done.
  pose proof (count_key_nonneg k (delete i m)). simpl. lia.
Qed.

Lemma count_key_le k m : count_key k m <= Z.of_nat (size m).
Proof.
  unfold count_key. apply inj_le. rewrite <- !size_dom. apply subseteq_size, dom_filter_subseteq.
Qed.
End Count.

Section Invariant.
Context `{Rendering} `{PetGraph MirNodeKind MirEdgeKind} `{Mpsc DiffEvent}.
Context {CompiledPlan : Type} (snapshot_run : CompiledPlan -> gmap Z (list Row) -> exec RouterError (list Row)).
Context (config : RouterConfig).

Definition shared_key (s : Subscription) : string :=
  text_string (canonical_subgraph_key (sub_query s) (sub_user_ctx s)).

Record inner_wf (st : RouterInner) : Prop := {
  iw_registry : registry_wf (registry st);
  iw_shared : shared_wf (subgraphs st);
  iw_channels : forall id, is_Some (channels st !! id) <-> is_Some (by_id (registry st) !! id);
  iw_ack : forall id, subscribers (ack_tracker st) !! id = sub_cursor_lsn <$> by_id (registry st) !! id;
  iw_holders : forall id, subgraph_holders st !! id =
    (by_id (registry st) !! id) ≫= (fun s => ids_by_key (subgraphs st) !! shared_key s);
  iw_counts : forall k, default 0 (counts (subgraphs st) !! k) = count_key shared_key k (by_id (registry st));
  iw_queues : forall id c, channels st !! id = Some c -> chan_ok c /\ mpsc_capacity (sender c) = channel_capacity config
}.

Lemma router_new_wf : inner_wf router_new.
Proof.
  split; [apply registry_new_wf | apply shared_new_wf | ..]; simpl; intros *; rewrite ?lookup_empty; done.
Qed.

(** A live subscription's subgraph is live. *)
Lemma live_subgraph st id s :
  inner_wf st -> by_id (registry st) !! id = Some s ->
  exists g n, subgraph_holders st !! id = Some g /\ ids_by_key (subgraphs st) !! shared_key s = Some g /\
    entries (subgraphs st) !! g = Some {| se_key := shared_key s; se_ref_count := n |} /\
    n = count_key shared_key (shared_key s) (by_id (registry st)).
Proof.
  intros Hwf Hs. pose proof (iw_counts st Hwf (shared_key s)) as Hc.
  pose proof (count_key_pos shared_key (shared_key s) id s _ Hs eq_refl) as Hpos.
  destruct (counts (subgraphs st) !! shared_key s) as [n|] eqn:Hn; simpl in Hc; [|lia].
  apply counts_Some in Hn as (g & Hg & He); [|apply (iw_shared st Hwf)].
  exists g, n. rewrite (iw_holders st Hwf), Hs. simpl. done.
Qed.

(** Changing one record without touching its identity, key or cursor. *)
Lemma update_state_wf st sub s :
  inner_wf st -> inner_wf (with_registry st (registry_update (registry st) sub (set_state s))).
Proof.
  intros Hwf. assert (forall id, alter (set_state s) sub (by_id (registry st)) !! id =
    (if decide (id = sub) then set_state s <$> by_id (registry st) !! id else by_id (registry st) !! id)) as Hl.
  { intros id. destruct (decide (id = sub)) as [->|]; [by rewrite lookup_alter_eq | by rewrite lookup_alter_ne]. }
  split; simpl.
  - apply registry_update_wf; [apply (iw_registry st Hwf) | done].
  - apply (iw_shared st Hwf).
  - intros id. rewrite (iw_channels st Hwf), Hl. destruct (decide _); [by rewrite fmap_is_Some | done].
  - intros id. rewrite (iw_ack st Hwf), Hl. destruct (decide _); [|done]. by destruct (by_id _ !! id).
  - intros id. rewrite (iw_holders st Hwf), Hl. destruct (decide _); [|done]. by destruct (by_id _ !! id).
  - intros k. rewrite (iw_counts st Hwf). symmetry. by apply count_key_alter.
  - apply (iw_queues st Hwf).
Qed.

Lemma with_channel_wf st sub c :
  inner_wf st -> is_Some (channels st !! sub) -> chan_ok c -> mpsc_capacity (sender c) = channel_capacity config ->
  inner_wf (with_channel st sub c).
Proof.
  intros Hwf Hsub Hok Hcap. split; simpl; try apply Hwf.
  - intros id. rewrite <- (iw_channels st Hwf). destruct (decide (id = sub)) as [->|].
    + rewrite lookup_insert_eq. naive_solver.
    + by rewrite lookup_insert_ne.
  - intros id c' Hc. apply lookup_insert_Some in Hc as [[<- <-]|[_ Hc]]; [done|]. by apply (iw_queues st Hwf id).
Qed.

Lemma try_send_ok c e :
  chan_ok c -> chan_ok (try_send c e).2 /\ mpsc_capacity (sender (try_send c e).2) = mpsc_capacity (sender c).
Proof.
  intros Hok. pose proof (chan_step_spec c (Send e) Hok) as Hs. pose proof (try_send_cases c e) as Hc.
  cbn [chan_step] in Hs. destruct (try_send c e) as [o c']. simpl. destruct Hs as (_ & Hok' & _). split; [done|].
  destruct Hc as [(_ & _ & ->)|[(_ & _ & _ & ->)|(_ & _ & _ & _ & _ & Hcap & _)]]; done.
Qed.

Lemma force_resync_ok c r :
  chan_ok c -> chan_ok (force_resync c r) /\ mpsc_capacity (sender (force_resync c r)) = mpsc_capacity (sender c).
Proof.
  intros Hok. pose proof (chan_step_spec c (Force r) Hok) as Hs. cbn [chan_step] in Hs.
  destruct Hs as (_ & Hok' & _). split; [done|].
  destruct (force_resync_cases c r) as [[_ ->]|(_ & _ & _ & Hcap & _)]; done.
Qed.

Lemma rx_run_ok c ops : chan_ok c -> chan_ok (rx_run c ops) /\ mpsc_capacity (sender (rx_run c ops)) = mpsc_capacity (sender c).
Proof. intros Hok. unfold chan_ok in *. destruct (rx_run_spec ops c) as (-> & -> & _). rewrite length_drop. split; [lia | done]. Qed.

Lemma rx_run_capacity ops : forall c, capacity (rx_run c ops) = capacity c.
Proof. induction ops as [|o ops IH]; intros c; [done|]. exact (IH (rx_step c o)). Qed.

Lemma pump_event_wf between st sub e : inner_wf st -> inner_wf (pump_event_between between st sub e).2.
Proof.
  intros Hwf. unfold pump_event_between. destruct (channels st !! sub) as [c|] eqn:Hc; [|done].
  destruct (iw_queues st Hwf sub c Hc) as [Hok Hcap]. destruct (try_send_ok c e Hok) as [Hok1 Hcap1].
  destruct (try_send c e) as [o c1]. simpl in Hok1, Hcap1. destruct (rx_run_ok c1 between Hok1) as [Hok2 Hcap2].
  destruct (force_resync_ok (rx_run c1 between) Backpressure Hok2) as [Hok3 Hcap3].
  assert (is_Some (channels st !! sub)) as Hsome by eauto.
  destruct o; cbn [snd is_saturation]; try apply update_state_wf; apply with_channel_wf; congruence || done.
Qed.

Lemma set_rules_wf st rs : inner_wf st -> inner_wf (set_rules st rs).
Proof.
  intros Hwf. split; simpl; try apply Hwf.
  - intros id. rewrite lookup_fmap, fmap_is_Some. apply (iw_channels st Hwf).
  - intros id c Hc. apply lookup_fmap_Some in Hc as (c0 & <- & Hc).
    destruct (iw_queues st Hwf id c0 Hc) as [Hok Hcap].
    destruct (force_resync_ok c0 PermissionsChanged Hok). split; congruence || done.
Qed.

Lemma ack_wf st sub lsn : inner_wf st -> inner_wf (ack st sub lsn).2.
Proof.
  intros Hwf. unfold ack, registry_get. destruct (by_id (registry st) !! sub) as [s|] eqn:Hs; [|done].
  unfold ack_ack. destruct (Z.leb_spec lsn (sub_cursor_lsn s)); [by destruct st|]. cbn [snd].
  assert (forall id, alter (set_cursor lsn) sub (by_id (registry st)) !! id =
    (if decide (id = sub) then Some (set_cursor lsn s) else by_id (registry st) !! id)) as Hl.
  { intros id. destruct (decide (id = sub)) as [->|]; [by rewrite lookup_alter_eq, Hs | by rewrite lookup_alter_ne]. }
  split; simpl; try apply Hwf.
  - apply registry_update_wf; [apply (iw_registry st Hwf) | done].
  - intros id. rewrite (iw_channels st Hwf), Hl. destruct (decide (id = sub)) as [->|]; [|done]. rewrite Hs. naive_solver.
  - intros id. rewrite Hl. pose proof (iw_ack st Hwf sub) as Ha. rewrite Hs in Ha. simpl in Ha. rewrite Ha.
    destruct (decide (id = sub)) as [->|].
    + rewrite lookup_insert_eq. simpl. f_equal. lia.
    + rewrite lookup_insert_ne by done. apply (iw_ack st Hwf).
  - intros id. rewrite (iw_holders st Hwf), Hl. destruct (decide (id = sub)) as [->|]; [|done]. by rewrite Hs.
  - intros k. rewrite (iw_counts st Hwf). symmetry. by apply count_key_alter.
Qed.

(** ** Registration *)

(** What [prepare] hands to [commit]. *)
Record prepared_wf (p : Prepared) : Prop := {
  pw_key : text_string (pp_canonical p) = shared_key (pp_subscription p);
  pw_cursor : sub_cursor_lsn (pp_subscription p) = sub_snapshot_lsn (pp_subscription p);
  pw_queue : chan_ok (pp_channel p);
  pw_capacity : mpsc_capacity (sender (pp_channel p)) = channel_capacity config
}.

Lemma channel_new_ok {E} n pol c :
  @channel_new _ E n pol = Ok c ->
  has_receiver c = true /\ queued c = [] /\ mpsc_capacity (sender c) = n /\ mpsc_closed (sender c) = false /\ 0 < n.
Proof.
  unfold channel_new. destruct (mpsc_channel n) as [s|] eqn:Hs; [|done]. intros [= <-].
  destruct (mpsc_channel_new n s Hs) as (? & ? & ? & ?). done.
Qed.

Lemma prepare_inv rs req provider p :
  prepare snapshot_run config rs req provider = Ok p ->
  exists snapshot_lsn rows c,
    install_permission_filters (rq_query_graph req) rs (rq_user_ctx req) = Ok (pp_outcome p) /\
    (0 < filters_inserted (ro_stats (pp_outcome p)) -> is_Some (rq_compiled_plan req)) /\
    initial_snapshot snapshot_run req provider = Ok (snapshot_lsn, rows, pp_seed p) /\
    @channel_new _ RouterError (channel_capacity config) (backpressure config) = Ok c /\
    pp_resume p = resolve (rq_resume_lsn req)
      {| earliest_replayable := snapshot_lsn; latest_known := default_latest_known_lsn config |} /\
    pp_canonical p = canonical_subgraph_key (rq_query req) (rq_user_ctx req) /\
    pp_subscription p =
      {| sub_id := rq_subscription_id req; sub_client_id := rq_client_id req;
         sub_connection := rq_connection req; sub_query := rq_query req;
         sub_user_ctx := rq_user_ctx req; sub_schema_id := schema_id (rq_schema req);
         sub_snapshot_lsn := snapshot_lsn; sub_cursor_lsn := snapshot_lsn; sub_state := Seeding |} /\
    match pp_resume p with
    | FreshInitial _ => try_send (take_stream c).2 (Ev_Initial snapshot_lsn rows) = (Sent, pp_channel p)
    | Replay _ => pp_channel p = (take_stream c).2
    end.
Proof.
  unfold prepare. intros (out & Hout & Hp)%exec_bind_ok.
  destruct (0 <? filters_inserted (ro_stats out)) eqn:Hf; simpl in Hp;
    [destruct (rq_compiled_plan req) as [plan|] eqn:Hplan; [|done]|];
    apply exec_bind_ok in Hp as ([[lsn rows] seed] & Hsnap & Hp); apply exec_bind_ok in Hp as (c & Hc & Hp);
    pose proof (channel_new_ok _ _ _ Hc) as (Hr & _); unfold take_stream in Hp; rewrite Hr in Hp; simpl in Hp;
    apply exec_bind_ok in Hp as (ch & Hch & [= <-]); exists lsn, rows, c; cbn;
    (split; [done|]); (split; [intros ?; (by eexists) || (apply Z.ltb_ge in Hf; lia)|]);
    repeat (split; [done|]);
    (destruct (resolve _ _);
      [destruct (try_send _ _) as [[] c'] eqn:Hs; try done; by injection Hch as -> | by injection Hch as <-]).
Qed.

Lemma prepare_wf rs req provider p :
  prepare snapshot_run config rs req provider = Ok p ->
  prepared_wf p /\ sub_id (pp_subscription p) = rq_subscription_id req.
Proof.
  intros (lsn & rows & c & _ & _ & _ & Hc & _ & Hkey & Hsub & Hch)%prepare_inv.
  apply channel_new_ok in Hc as (_ & Hq & Hcap & Hcl & Hne).
  assert (chan_ok (take_stream c).2) as Hok.
  { unfold chan_ok, queued in *. simpl. rewrite Hq, Hcap. simpl. lia. }
  split; [|by rewrite Hsub]. pose proof (try_send_ok (take_stream c).2 (Ev_Initial lsn rows) Hok) as [Hok' Hcap'].
  assert (chan_ok (pp_channel p) /\ mpsc_capacity (sender (pp_channel p)) = channel_capacity config) as [Hcok Hccap].
  { destruct (pp_resume p); [rewrite Hch in Hok', Hcap'; simpl in Hok', Hcap'; split; [done|]; by rewrite Hcap' | by rewrite Hch]. }
  split; try done; by rewrite Hsub, ?Hkey.
Qed.

Lemma acquire_ids r key a r' :
  shared_wf r -> acquire r key = Some (a, r') ->
  ids_by_key r' !! key = Some (acquire_id a) /\
  (forall k, k <> key -> ids_by_key r' !! k = ids_by_key r !! k) /\
  (forall g, ids_by_key r !! key = Some g -> acquire_id a = g).
Proof.
  intros Hwf. pose proof (acquire_unfold r key Hwf) as Hu. destruct (ids_by_key r !! key) as [id|] eqn:Hk.
  - destruct Hu as (e & He & _ & ->). intros [= <- <-]. simpl. repeat split; try done. by intros g [= ->].
  - rewrite Hu. intros [= <- <-]. simpl. rewrite lookup_insert_eq. repeat split; try done.
    intros k Hne. by rewrite lookup_insert_ne.
Qed.

Lemma commit_wf st p :
  inner_wf st -> prepared_wf p -> by_id (registry st) !! sub_id (pp_subscription p) = None ->
  next_id (subgraphs st) < U64_MAX -> Z.of_nat (size (by_id (registry st))) < USIZE_MAX ->
  inner_wf (commit st p).2 /\ (commit st p).1 <> Panic.
Proof.
  intros Hwf Hp Hfresh Hnext Hsize. unfold commit. set (s := pp_subscription p) in *.
  destruct (registry_insert (registry st) s) as [reg'|] eqn:Hins; [|done]. rewrite (pw_key p Hp). fold s.
  destruct (acquire_spec (subgraphs st) (shared_key s)) as (a & sg' & Hacq & Hcnt & _ & _); [apply (iw_shared st Hwf)| |].
  { intros n Hn. pose proof (iw_counts st Hwf (shared_key s)) as Hc. rewrite Hn in Hc. simpl in Hc.
    pose proof (count_key_le shared_key (shared_key s) (by_id (registry st))). lia. }
  rewrite Hacq. split; [|done]. cbn [snd].
  destruct (acquire_ids _ _ _ _ (iw_shared st Hwf) Hacq) as (Hid & Hother & Hsame).
  assert (by_id reg' = <[sub_id s := s]> (by_id (registry st))) as Hby.
  { unfold registry_insert in Hins. destruct (by_client_id _ !! _); [done|]. by injection Hins as <-. }
  split; simpl.
  - by eapply registry_insert_wf; [apply (iw_registry st Hwf)| |].
  - by eapply acquire_wf; [apply (iw_shared st Hwf)| |].
  - intros id. rewrite Hby. destruct (decide (id = sub_id s)) as [->|Hne].
    + rewrite !lookup_insert_eq. naive_solver.
    + rewrite !lookup_insert_ne by done. apply (iw_channels st Hwf).
  - intros id. pose proof (iw_ack st Hwf (sub_id s)) as Ha. rewrite Hfresh in Ha. simpl in Ha. rewrite Ha, Hby.
    destruct (decide (id = sub_id s)) as [->|Hne].
    + rewrite !lookup_insert_eq. simpl. f_equal. symmetry. apply (pw_cursor p Hp).
    + rewrite !lookup_insert_ne by done. apply (iw_ack st Hwf).
  - intros id. rewrite Hby. destruct (decide (id = sub_id s)) as [->|Hne]; [by rewrite !lookup_insert_eq|].
    rewrite !lookup_insert_ne by done. rewrite (iw_holders st Hwf).
    destruct (by_id (registry st) !! id) as [s'|] eqn:Hs'; [|done]. simpl.
    destruct (decide (shared_key s' = shared_key s)) as [E|E]; [|by rewrite Hother].
    destruct (live_subgraph st id s' Hwf Hs') as (g & n & _ & Hg & _). rewrite Hg. rewrite E in Hg |- *.
    by rewrite Hid, (Hsame g Hg).
  - intros k. rewrite Hcnt, Hby, count_key_insert by done. rewrite <- (iw_counts st Hwf). unfold bump.
    case_bool_decide as E; [rewrite <- E, lookup_insert_eq; done|].
    rewrite lookup_insert_ne by done. simpl. lia.
  - intros id c Hc. apply lookup_insert_Some in Hc as [[_ <-]|[_ Hc]]; [|by apply (iw_queues st Hwf id)].
    split; [apply (pw_queue p Hp) | apply (pw_capacity p Hp)].
Qed.

(** ** Teardown *)

Lemma release_ids r id e k :
  shared_wf r -> entries r !! id = Some e ->
  ids_by_key (release r id).2 !! k =
    if decide (k = se_key e /\ se_ref_count e <= 1) then None else ids_by_key r !! k.
Proof.
  intros Hwf He. rewrite (release_unfold r id e Hwf He). pose proof (wf_count r Hwf _ _ He) as Hn.
  destruct (Z.ltb_spec 1 (se_ref_count e)); simpl; case_decide as Hd; try done; try lia.
  - destruct Hd as [-> _]. by rewrite lookup_delete_eq.
  - rewrite lookup_delete_ne; [done|]. intros <-. apply Hd. split; [done | lia].
Qed.

Lemma unsubscribe_wf st sub : inner_wf st -> inner_wf (unsubscribe st sub).2.
Proof.
  intros Hwf. unfold unsubscribe. pose proof (registry_remove_wf (registry st) sub (iw_registry st Hwf)) as Hreg.
  unfold registry_remove in *. destruct (by_id (registry st) !! sub) as [s|] eqn:Hs; [|by destruct st].
  destruct (live_subgraph st sub s Hwf Hs) as (g & n & Hh & Hg & He & Hn). rewrite Hh.
  pose proof (release_wf (subgraphs st) g (iw_shared st Hwf)) as Hsw.
  pose proof (release_spec (subgraphs st) g _ (iw_shared st Hwf) He) as (Hcnt & Hcnt' & _).
  pose proof (fun k => release_ids (subgraphs st) g _ k (iw_shared st Hwf) He) as Hids.
  destruct (release (subgraphs st) g) as [rel sg']. cbn [snd fst se_key se_ref_count] in *.
  assert (forall k, count_key shared_key k (by_id (registry st)) =
    count_key shared_key k (delete sub (by_id (registry st))) + one_if (bool_decide (shared_key s = k))) as Hck
    by (intros k; by apply count_key_delete).
  split; simpl; try done.
  - intros id. destruct (decide (id = sub)) as [->|]; [by rewrite !lookup_delete_eq|].
    rewrite !lookup_delete_ne by done. apply (iw_channels st Hwf).
  - intros id. destruct (decide (id = sub)) as [->|]; [by rewrite !lookup_delete_eq|].
    rewrite !lookup_delete_ne by done. apply (iw_ack st Hwf).
  - intros id. destruct (decide (id = sub)) as [->|Hne]; [by rewrite !lookup_delete_eq|].
    rewrite !lookup_delete_ne by done. rewrite (iw_holders st Hwf).
    destruct (by_id (registry st) !! id) as [s'|] eqn:Hs'; [|done]. simpl. rewrite Hids.
    destruct (decide (shared_key s' = shared_key s /\ n <= 1)) as [[Hk Hle]|]; [|done]. exfalso.
    specialize (Hck (shared_key s)). rewrite bool_decide_true in Hck by done.
    pose proof (count_key_pos shared_key (shared_key s) id s' (delete sub (by_id (registry st)))) as Hp.
    rewrite lookup_delete_ne in Hp by done. specialize (Hp Hs' Hk). simpl in Hck. lia.
  - intros k. rewrite Hcnt'. unfold drop_one. rewrite Hcnt. specialize (Hck k).
    pose proof (iw_counts st Hwf k) as Hc. pose proof (count_key_nonneg shared_key k (delete sub (by_id (registry st)))).
    destruct (Z.ltb_spec 1 n); case_bool_decide as E; simpl in Hck; subst;
      rewrite ?lookup_insert_eq, ?lookup_delete_eq, ?lookup_insert_ne, ?lookup_delete_ne by done; simpl; lia.
  - intros id c Hc. apply lookup_delete_Some in Hc as [_ Hc]. by apply (iw_queues st Hwf id).
Qed.

(** ** The receiving side and interleavings *)

(** The client's end of a channel: take one event, or hang up. *)
Definition client_recv (st : RouterInner) (sub : Z) : RouterInner :=
  match channels st !! sub with
  | Some c => with_channel st sub (with_sender c (mpsc_recv (sender c)).2 (full_events c))
  | None => st
  end.
Definition client_close (st : RouterInner) (sub : Z) : RouterInner :=
  match channels st !! sub with
  | Some c => with_channel st sub (with_sender c (mpsc_close (sender c)) (full_events c))
  | None => st
  end.

Lemma client_recv_wf st sub : inner_wf st -> inner_wf (client_recv st sub).
Proof.
  intros Hwf. unfold client_recv. destruct (channels st !! sub) as [c|] eqn:Hc; [|done].
  destruct (iw_queues st Hwf sub c Hc) as [Hok Hcap]. destruct (mpsc_recv_spec (sender c)) as (_ & Hq & Hcap' & _).
  apply with_channel_wf; [done | eauto | | simpl; congruence]. unfold chan_ok, queued in *. simpl.
  rewrite Hq, Hcap'. destruct (mpsc_queue (sender c)); simpl in *; lia.
Qed.

Lemma client_close_wf st sub : inner_wf st -> inner_wf (client_close st sub).
Proof.
  intros Hwf. unfold client_close. destruct (channels st !! sub) as [c|] eqn:Hc; [|done].
  destruct (iw_queues st Hwf sub c Hc) as [Hok Hcap]. destruct (mpsc_close_spec (sender c)) as (Hq & Hcap' & _).
  apply with_channel_wf; [done | eauto | | simpl; congruence]. unfold chan_ok, queued in *. simpl.
  by rewrite Hq, Hcap'.
Qed.

(** The router with its id allocator, the ids handed out and not yet used, and
    the subscribe calls between their two critical sections. *)
Record System := {
  sys_inner : RouterInner;
  sys_next : Z;
  sys_issued : gset Z;
  sys_inflight : gmap Z Prepared
}.

Definition sys_init : System :=
  {| sys_inner := router_new; sys_next := 1; sys_issued := ∅; sys_inflight := ∅ |}.

Definition with_inner (s : System) (st : RouterInner) : System :=
  {| sys_inner := st; sys_next := sys_next s; sys_issued := sys_issued s; sys_inflight := sys_inflight s |}.

(** One critical section of one call, or one action of a client. Ids and
    reference counts are 64-bit: a step that would exhaust them is excluded. *)
Inductive sys_step : System -> System -> Prop :=
| S_allocate s : sys_next s < U64_MAX ->
    sys_step s {| sys_inner := sys_inner s; sys_next := (allocate (sys_next s)).2;
                  sys_issued := {[ (allocate (sys_next s)).1 ]} ∪ sys_issued s; sys_inflight := sys_inflight s |}
| S_prepare s req provider p :
    rq_subscription_id req ∈ sys_issued s ->
    prepare snapshot_run config (rules (sys_inner s)) req provider = Ok p ->
    sys_step s {| sys_inner := sys_inner s; sys_next := sys_next s;
                  sys_issued := sys_issued s ∖ {[ rq_subscription_id req ]};
                  sys_inflight := <[rq_subscription_id req := p]> (sys_inflight s) |}
| S_commit s id p :
    sys_inflight s !! id = Some p ->
    next_id (subgraphs (sys_inner s)) < U64_MAX ->
    Z.of_nat (size (by_id (registry (sys_inner s)))) < USIZE_MAX ->
    sys_step s {| sys_inner := (commit (sys_inner s) p).2; sys_next := sys_next s; sys_issued := sys_issued s;
                  sys_inflight := delete id (sys_inflight s) |}
| S_set_rules s rs : sys_step s (with_inner s (set_rules (sys_inner s) rs))
| S_pump s between sub e : sys_step s (with_inner s (pump_event_between between (sys_inner s) sub e).2)
| S_ack s sub lsn : sys_step s (with_inner s (ack (sys_inner s) sub lsn).2)
| S_unsubscribe s sub : sys_step s (with_inner s (unsubscribe (sys_inner s) sub).2)
| S_recv s sub : sys_step s (with_inner s (client_recv (sys_inner s) sub))
| S_close s sub : sys_step s (with_inner s (client_close (sys_inner s) sub)).

(** ** Reachable states *)

Record sys_wf (s : System) : Prop := {
  sw_inner : inner_wf (sys_inner s);
  sw_next : 1 <= sys_next s <= U64_MAX;
  sw_issued : forall id, id ∈ sys_issued s ->
    id < sys_next s /\ sys_inflight s !! id = None /\ by_id (registry (sys_inner s)) !! id = None;
  sw_inflight : forall id p, sys_inflight s !! id = Some p ->
    id < sys_next s /\ prepared_wf p /\ sub_id (pp_subscription p) = id /\
    by_id (registry (sys_inner s)) !! id = None;
  sw_live : forall id, is_Some (by_id (registry (sys_inner s)) !! id) -> id < sys_next s
}.

Lemma sys_init_wf : sys_wf sys_init.
Proof.
  split; simpl; [apply router_new_wf | unfold U64_MAX; lia | ..].
  - intros id Hid. set_solver.
  - intros id p. by rewrite lookup_empty.
  - intros id. rewrite lookup_empty. by intros [].
Qed.

(** A step of the inner state that registers nothing. *)
Lemma with_inner_wf s st :
  sys_wf s -> inner_wf st ->
  (forall id, is_Some (by_id (registry st) !! id) -> is_Some (by_id (registry (sys_inner s)) !! id)) ->
  sys_wf (with_inner s st).
Proof.
  intros Hs Hst Hdom. assert (forall id, by_id (registry (sys_inner s)) !! id = None -> by_id (registry st) !! id = None) as Hn.
  { intros id Hid. apply eq_None_not_Some. intros Hx%Hdom. rewrite Hid in Hx. by destruct Hx. }
  split; simpl; [done | apply (sw_next s Hs) | ..].
  - intros id (? & ? & ?)%(sw_issued s Hs). auto.
  - intros id p (? & ? & ? & ?)%(sw_inflight s Hs). auto.
  - intros id Hid. by apply (sw_live s Hs), Hdom.
Qed.

Lemma alter_dom (f : Subscription -> Subscription) sub (m : gmap Z Subscription) id :
  is_Some (alter f sub m !! id) <-> is_Some (m !! id).
Proof. apply lookup_alter_is_Some. Qed.

Lemma pump_event_dom between st sub e id :
  is_Some (by_id (registry (pump_event_between between st sub e).2) !! id) <-> is_Some (by_id (registry st) !! id).
Proof.
  unfold pump_event_between. destruct (channels st !! sub); [|done].
  destruct (try_send _ e) as [[] c1]; simpl; rewrite ?alter_dom; done.
Qed.

Lemma ack_dom st sub lsn id :
  is_Some (by_id (registry (ack st sub lsn).2) !! id) <-> is_Some (by_id (registry st) !! id).
Proof.
  unfold ack. destruct (registry_get _ sub); [|done]. unfold ack_ack.
  destruct (_ <=? _); simpl; rewrite ?alter_dom; done.
Qed.

Lemma unsubscribe_by_id st sub :
  by_id (registry (unsubscribe st sub).2) = delete sub (by_id (registry st)).
Proof.
  unfold unsubscribe, registry_remove. destruct (by_id (registry st) !! sub) eqn:Hs.
  - destruct (subgraph_holders st !! sub) as [g|]; [|done]. by destruct (release (subgraphs st) g).
  - simpl. by rewrite delete_id.
Qed.

Lemma commit_by_id st p id :
  id <> sub_id (pp_subscription p) -> by_id (registry (commit st p).2) !! id = by_id (registry st) !! id.
Proof.
  intros Hne. unfold commit, registry_insert. destruct (by_client_id _ !! _); [done|].
  destruct (acquire _ _) as [[a sg]|]; [|done]. simpl. by rewrite lookup_insert_ne.
Qed.

Lemma sys_step_wf s s' : sys_step s s' -> sys_wf s -> sys_wf s'.
Proof.
  intros Hstep Hs. pose proof (sw_inner s Hs) as Hin. pose proof (sw_next s Hs) as Hnx.
  destruct Hstep as [s Hlt|s req provider p Hid Hp|s id p Hp Hn Hz|s rs|s sub e|s sub lsn|s sub|s sub|s sub].
  - unfold allocate, uint. rewrite Z.mod_small by (unfold U64_MAX in *; lia).
    split; simpl; [done | lia | ..].
    + intros id [->%elem_of_singleton|Hi]%elem_of_union.
      * split; [lia|]. split.
        -- destruct (sys_inflight s !! sys_next s) as [p|] eqn:Hp; [|done].
           apply (sw_inflight s Hs) in Hp as [? _]. lia.
        -- apply eq_None_not_Some. intros Hl%(sw_live s Hs). lia.
      * apply (sw_issued s Hs) in Hi as (? & ? & ?). repeat split; try done. lia.
    + intros id p Hp. apply (sw_inflight s Hs) in Hp as (? & ? & ? & ?). split; [lia | done].
    + intros id Hl%(sw_live s Hs). lia.
  - destruct (sw_issued s Hs _ Hid) as (Hlt & Hnone & Hreg). apply prepare_wf in Hp as [Hpw Hpid].
    split; simpl; [done | done | ..].
    + intros id [Hi Hne]%elem_of_difference. apply (sw_issued s Hs) in Hi as (? & ? & ?).
      rewrite not_elem_of_singleton in Hne. by rewrite lookup_insert_ne.
    + intros id p' Hp'. apply lookup_insert_Some in Hp' as [[<- <-]|[_ Hp']]; [done|]. by apply (sw_inflight s Hs).
    + apply (sw_live s Hs).
  - destruct (sw_inflight s Hs id p Hp) as (Hlt & Hpw & Hpid & Hreg). subst id.
    split; simpl; [by apply commit_wf | done | ..].
    + intros id Hi. destruct (sw_issued s Hs id Hi) as (? & Hnone & Hnr). assert (id <> sub_id (pp_subscription p)) by congruence.
      rewrite lookup_delete_ne by done. by rewrite commit_by_id.
    + intros id p' Hp'. apply lookup_delete_Some in Hp' as [Hne Hp']. rewrite commit_by_id by done.
      by apply (sw_inflight s Hs).
    + intros id. destruct (decide (id = sub_id (pp_subscription p))) as [->|]; [done|].
      rewrite commit_by_id by done. apply (sw_live s Hs).
  - apply with_inner_wf; [done | by apply set_rules_wf | done].
  - apply with_inner_wf; [done | by apply pump_event_wf | intros id; by rewrite pump_event_dom].
  - apply with_inner_wf; [done | by apply ack_wf | intros id; by rewrite ack_dom].
  - apply with_inner_wf; [done | by apply unsubscribe_wf|].
    intros id. rewrite unsubscribe_by_id. intros [x Hx]. apply lookup_delete_Some in Hx as [_ Hx]. eauto.
  - apply with_inner_wf; [done | by apply client_recv_wf|]. intros id. unfold client_recv. by destruct (channels _ !! _).
  - apply with_inner_wf; [done | by apply client_close_wf|]. intros id. unfold client_close. by destruct (channels _ !! _).
Qed.

Lemma reachable_wf s : rtc sys_step sys_init s -> sys_wf s.
Proof.
  assert (forall a b, rtc sys_step a b -> sys_wf a -> sys_wf b) as Hgen
    by (induction 1 as [|a b c Hab _ IH]; intros Ha; [done | by apply IH, (sys_step_wf a)]).
  intros Hs. by eapply Hgen, sys_init_wf.
Qed.

(** C11: In every state the router can reach by any interleaving of its critical sections and client
    actions, the subscription indexes are consistent, exactly the live subscriptions have a channel
    and a watermark equal to their cursor, each holds the shared subgraph of its key, whose
    reference count is the number of live subscriptions with that key, no subgraph is kept without a
    subscriber, and no channel holds more events than its capacity. *)
Theorem router_indexes_agree s :
  rtc sys_step sys_init s ->
  let st := sys_inner s in
  registry_wf (registry st) /\ shared_wf (subgraphs st) /\
  (forall id, is_Some (channels st !! id) <-> is_Some (by_id (registry st) !! id)) /\
  (forall id, subscribers (ack_tracker st) !! id = sub_cursor_lsn <$> by_id (registry st) !! id) /\
  (forall id sub, by_id (registry st) !! id = Some sub ->
     exists g, subgraph_holders st !! id = Some g /\
       entries (subgraphs st) !! g =
         Some {| se_key := shared_key sub; se_ref_count := count_key shared_key (shared_key sub) (by_id (registry st)) |}) /\
  (forall g e, entries (subgraphs st) !! g = Some e ->
     exists id sub, by_id (registry st) !! id = Some sub /\ shared_key sub = se_key e /\ subgraph_holders st !! id = Some g) /\
  (forall id c, channels st !! id = Some c -> Z.of_nat (length (queued c)) <= channel_capacity config).
Proof.
  intros Hr%reachable_wf st. pose proof (sw_inner s Hr) as Hwf. fold st in Hwf.
  split; [apply Hwf|]. split; [apply Hwf|]. split; [apply Hwf|]. split; [apply Hwf|]. split; [|split].
  - intros id sub Hs. destruct (live_subgraph st id sub Hwf Hs) as (g & n & Hh & _ & He & ->). eauto.
  - intros g e He. pose proof (iw_counts st Hwf (se_key e)) as Hc.
    rewrite counts_lookup, (wf_entry _ (iw_shared st Hwf) _ _ He) in Hc. simpl in Hc. rewrite He in Hc. simpl in Hc.
    pose proof (wf_count _ (iw_shared st Hwf) _ _ He) as Hn. rewrite Hc in Hn. unfold count_key in Hn.
    destruct (decide (filter (fun p : Z * Subscription => shared_key p.2 = se_key e) (by_id (registry st)) = ∅)) as [E|E].
    { rewrite E, map_size_empty in Hn. lia. }
    apply map_choose in E as (id & sub & Hl). apply map_lookup_filter_Some in Hl as [Hl Hk]. simpl in Hk.
    exists id, sub. rewrite (iw_holders st Hwf), Hl. simpl. rewrite Hk. repeat split; try done.
    apply (wf_entry _ (iw_shared st Hwf) _ _ He).
  - intros id c Hc. destruct (iw_queues st Hwf id c Hc) as [Hok Hcap]. unfold chan_ok in Hok. by rewrite <- Hcap.
Qed.
End Invariant.
