(* ===== verification/RouterSpec.v ===== *)
(** * RouterSpec: what each router operation does

    Branch by branch: a query whose rules cannot be enforced is refused, a new
    subscriber's stream starts with the snapshot, delivery is in commit order,
    acks only move cursors forward, and a disconnect removes exactly one
    connection. *)

From S2P Require Import Prelude BTree Text Values UserContext Watermarks Shared Registry.
From S2P Require Import Protocol WalSource Channel Cursor Pairing Permissions Mir Rewriter Router RouterInv.
From Stdlib Require Import Sorted.

Section Spec.
Context `{Rendering} `{PetGraph MirNodeKind MirEdgeKind} `{Mpsc DiffEvent}.
Context {CompiledPlan : Type} (snapshot_run : CompiledPlan -> gmap Z (list Row) -> exec RouterError (list Row)).
Context (config : RouterConfig).

(** What the router holds for one subscription: its queue, its state, the cursor
    of its record, the LSN its watermark pins, and its record with its channel. *)
Definition queue_of (st : RouterInner) (sub : Z) : option (list DiffEvent) := queued <$> channels st !! sub.
Definition state_of (st : RouterInner) (sub : Z) : option SubscriptionState :=
  sub_state <$> by_id (registry st) !! sub.
Definition cursor_of (st : RouterInner) (sub : Z) : option Z := sub_cursor_lsn <$> by_id (registry st) !! sub.
Definition watermark_of (st : RouterInner) (sub : Z) : option Z := subscribers (ack_tracker st) !! sub.
Definition entry (st : RouterInner) (sub : Z) : option Subscription * option BoundedDiffChannel :=
  (by_id (registry st) !! sub, channels st !! sub).

(** ** Fail closed *)

(** Some rule restricts which rows of [table] are visible. *)
Definition restricted (rs : list CompiledRule) (table : text) : Prop :=
  exists r, r ∈ rs /\ affects_visibility (cr_mode r) = true /\ is_tautology (cr_predicate r) = false /\
    cr_table r = table.

Lemma in_play_restricted rs t : in_play rs t = true -> restricted rs t.
Proof.
  unfold in_play. destruct (visible_rules rs t) as [|r l] eqn:Hv; [done|]. intros Hn%negb_true_iff.
  assert (r ∈ visible_rules rs t) as Hr by (rewrite Hv; left).
  unfold visible_rules in Hr. apply list_elem_of_In, filter_In in Hr as [Hin Hr].
  apply andb_true_iff in Hr as [Ha Ht%bool_decide_eq_true]. exists r.
  split; [by apply list_elem_of_In|]. repeat split; try done. simpl in Hn. by apply orb_false_iff in Hn as [? _].
Qed.

Lemma first_rule_guarded_spec g rs :
  (exists i t, table_of g i = Some t /\ restricted rs t) ->
  exists t, first_rule_guarded_table g rs = Some t /\ restricted rs t /\ exists i, table_of g i = Some t.
Proof.
  intros (i & t & Ht & Hr). unfold first_rule_guarded_table.
  set (f := fun node => match node with BaseTable table _ => if existsb _ rs then Some table else None | _ => None end).
  assert (forall table p, restricted rs table <-> f (BaseTable table p) = Some table) as Hf.
  { intros table p. unfold f. destruct (existsb _ rs) eqn:He.
    - split; [done|]. intros _. apply existsb_exists in He as (r & Hin & Hb).
      apply andb_true_iff in Hb as [Hb Hc%bool_decide_eq_true]. apply andb_true_iff in Hb as [Ha Hb%negb_true_iff].
      exists r. split; [by apply list_elem_of_In | done].
    - split; [|done]. intros (r & Hin & Ha & Hb & Hc). exfalso.
      assert (existsb (fun rule => affects_visibility (cr_mode rule) && negb (is_tautology (cr_predicate rule)) &&
        bool_decide (cr_table rule = table)) rs = true) as Hx; [|by rewrite Hx in He].
      apply existsb_exists. exists r. split; [by apply list_elem_of_In|]. by rewrite Ha, Hb, bool_decide_true. }
  assert (forall k x, f k = Some x -> exists p, k = BaseTable x p) as Hfi.
  { intros k x. unfold f. destruct k; try done. destruct (existsb _ rs); [|done]. intros [= <-]. eauto. }
  unfold table_of, node_kind in Ht. destruct (pg_nodes (graph g) !! i) as [k|] eqn:Hk; [|done].
  assert (t ∈ filter_map f (node_kinds g)) as Hin.
  { apply elem_of_filter_map. exists k. split; [by eapply list_elem_of_lookup_2|].
    destruct k; try done. injection Ht as ->. by apply Hf. }
  destruct (filter_map f (node_kinds g)) as [|x l] eqn:Hl; [by apply elem_of_nil in Hin|].
  exists x. split; [done|]. assert (x ∈ filter_map f (node_kinds g)) as Hx by (rewrite Hl; left).
  apply elem_of_filter_map in Hx as (k' & Hk' & Hfx). destruct (Hfi _ _ Hfx) as [p ->]. split; [by eapply Hf|].
  apply list_elem_of_lookup in Hk' as [j Hj]. exists j. unfold table_of, node_kind, node_kinds in *. by rewrite Hj.
Qed.

(** C12: A query that reads a table with an in-play row-visibility rule and has no compiled plan is
    never served: subscribe returns an error and leaves the router unchanged, naming a table that a
    visibility rule restricts, or reporting the rule that could not be materialised. *)
Theorem subscribe_fails_closed st req provider :
  graph_wf (rq_query_graph req) -> rq_compiled_plan req = None ->
  (exists i, node_in_play (rules st) (rq_query_graph req) i = true) ->
  exists e, subscribe snapshot_run config st req provider = (Err e, st) /\
    ((exists t, e = PermissionUnenforceable t /\ restricted (rules st) t /\
        exists i, table_of (rq_query_graph req) i = Some t) \/
     (exists pe i t, e = Permission pe /\ table_of (rq_query_graph req) i = Some t /\
        guards (rules st) (rq_user_ctx req) t = Err pe)).
Proof.
  intros Hg Hplan [i Hi]. unfold subscribe, prepare, install_permission_filters.
  pose proof (rewrite_spec (rq_query_graph req) (rules st) (rq_user_ctx req) Hg) as Hrw.
  destruct (rewrite _ _ _) as [out|pe|]; simpl.
  - destruct Hrw as (_ & _ & _ & _ & Hcnt). unfold node_in_play in Hi.
    destruct (table_of (rq_query_graph req) i) as [t|] eqn:Ht; [|done].
    assert ((0 <? filters_inserted (ro_stats out)) = true) as ->.
    { apply Z.ltb_lt. rewrite Hcnt.
      assert (i ∈ List.filter (node_in_play (rules st) (rq_query_graph req)) (base_table_indices (rq_query_graph req))) as Hin.
      { apply list_elem_of_In, filter_In. split; [apply list_elem_of_In, base_table_indices_spec; eauto|].
        unfold node_in_play. by rewrite Ht. }
      destruct (List.filter _ _); [by apply elem_of_nil in Hin|]. simpl. lia. }
    rewrite Hplan. simpl. eexists. split; [reflexivity|]. left.
    destruct (first_rule_guarded_spec (rq_query_graph req) (rules st)) as (t' & -> & Hr & Hi');
      [by eauto using in_play_restricted|]. eauto.
  - destruct Hrw as (j & t & Hj & Hgd). eexists. split; [reflexivity|]. right. eauto 10.
  - done.
Qed.

(** ** The first event *)

Lemma prepare_starts_with_snapshot rs req provider p :
  prepare snapshot_run config rs req provider = Ok p ->
  exists rows, initial_snapshot snapshot_run req provider =
      Ok (sub_snapshot_lsn (pp_subscription p), rows, pp_seed p) /\
    sub_cursor_lsn (pp_subscription p) = sub_snapshot_lsn (pp_subscription p) /\
    match pp_resume p with
    | FreshInitial _ =>
        queued (pp_channel p) = [Ev_Initial (sub_snapshot_lsn (pp_subscription p)) rows]
    | Replay from =>
        queued (pp_channel p) = [] /\ rq_resume_lsn req = Some from /\ sub_snapshot_lsn (pp_subscription p) <= from
    end.
Proof.
  intros (lsn & rows & c & _ & _ & Hsnap & Hc & Hres & _ & Hsub & Hch)%prepare_inv.
  apply channel_new_ok in Hc as (_ & Hq & Hcap & Hcl & Hn). rewrite Hsub. cbn.
  exists rows. split; [done|]. split; [done|]. rewrite Hres in Hch |- *. unfold resolve, window_contains in *. cbn in *.
  assert (forall ch, try_send (take_stream c).2 (Ev_Initial lsn rows) = (Sent, ch) -> queued ch = [Ev_Initial lsn rows]) as Hsend.
  { intros ch Hs. pose proof (try_send_cases (take_stream c).2 (Ev_Initial lsn rows)) as Hcs. rewrite Hs in Hcs.
    destruct Hcs as [(? & _)|[(? & _)|(_ & _ & _ & Hq' & _)]]; [done..|]. rewrite Hq'. unfold queued in *. simpl. by rewrite Hq. }
  destruct (rq_resume_lsn req) as [last|]; [|by apply Hsend]. destruct (Z.leb_spec lsn last); [|by apply Hsend].
  rewrite Hch. unfold queued in *. simpl. done.
Qed.

Lemma commit_entry st p resp st' :
  commit st p = (Ok resp, st') ->
  entry st' (rs_subscription_id resp) = (Some (pp_subscription p), Some (pp_channel p)) /\
  rs_subscription_id resp = sub_id (pp_subscription p) /\
  rs_snapshot_lsn resp = sub_snapshot_lsn (pp_subscription p) /\
  rs_resume resp = pp_resume p /\ rs_seed_updates resp = pp_seed p.
Proof.
  unfold commit, registry_insert. destruct (by_client_id _ !! _); [done|].
  destruct (acquire _ _) as [[a sg]|]; [|done]. intros [= <- <-]. unfold entry. cbn.
  by rewrite !lookup_insert_eq.
Qed.

(** An accepted subscription is registered as Seeding with its cursor at the snapshot LSN: a
    fresh subscriber's stream holds exactly the Initial event with the snapshot rows and LSN, a
    resuming one holds nothing and resumes from the LSN it gave, which is not before the snapshot. *)
Theorem subscribe_starts_with_snapshot st req provider resp st' :
  subscribe snapshot_run config st req provider = (Ok resp, st') ->
  let id := rs_subscription_id resp in
  id = rq_subscription_id req /\ cursor_of st' id = Some (rs_snapshot_lsn resp) /\
  state_of st' id = Some Seeding /\
  exists rows, initial_snapshot snapshot_run req provider = Ok (rs_snapshot_lsn resp, rows, rs_seed_updates resp) /\
    match rs_resume resp with
    | FreshInitial _ => queue_of st' id = Some [Ev_Initial (rs_snapshot_lsn resp) rows]
    | Replay from =>
        queue_of st' id = Some [] /\ rq_resume_lsn req = Some from /\ rs_snapshot_lsn resp <= from
    end.
Proof.
  unfold subscribe. destruct (prepare _ _ _ _ _) as [p|e|] eqn:Hp; [|done..]. intros Hc.
  apply commit_entry in Hc as (He & Hid & Hlsn & Hres & Hseed). unfold entry in He. rewrite Hid in He.
  injection He as Hs Hch. rewrite Hid, Hlsn, Hres, Hseed.
  pose proof Hp as (lsn & rows0 & c & _ & _ & _ & _ & _ & _ & Hsub & _)%prepare_inv.
  apply prepare_starts_with_snapshot in Hp as (rows & Hsnap & Hcur & Hq). cbv zeta.
  unfold cursor_of, state_of, queue_of. rewrite Hs, Hch. cbn [fmap option_fmap option_map]. rewrite Hcur.
  split; [by rewrite Hsub|]. split; [done|]. split; [by rewrite Hsub|]. exists rows. split; [done|].
  destruct (pp_resume p); [|destruct Hq as [Hq Hq2]]; by rewrite Hq.
Qed.

(** ** Delivery *)

Lemma pump_event_frame between st sub e :
  let st' := (pump_event_between between st sub e).2 in
  ack_tracker st' = ack_tracker st /\ subgraphs st' = subgraphs st /\ rules st' = rules st /\
  forall id, id <> sub -> channels st' !! id = channels st !! id /\ by_id (registry st') !! id = by_id (registry st) !! id.
Proof.
  unfold pump_event_between. destruct (channels st !! sub) as [c|]; [|done]. destruct (try_send c e) as [o c1].
  destruct o; simpl; (repeat (split; [done|])); intros id Hne;
    rewrite ?lookup_insert_ne, ?lookup_alter_ne by done; done.
Qed.

(** The queue after a forced resync, when the receiver acted after the send that failed. *)
Lemma forced_queue c between : mpsc_closed (sender c) = false ->
  let left := drop (rx_takes between) (queued c) in
  queued (force_resync (rx_run (with_sender c (sender c) (uint 64 (full_events c + 1))) between) Backpressure) =
  left ++ if negb (rx_closes between) && (Z.of_nat (length left) <? mpsc_capacity (sender c)) then [Ev_Resync Backpressure] else [].
Proof.
  intros Hcl. set (c1 := with_sender _ _ _). destruct (rx_run_spec between c1) as (Hq & Hcap & Hc).
  change (queued c1) with (queued c) in Hq. change (sender c1) with (sender c) in *. rewrite Hcl in Hc. cbn in Hc. cbn zeta. rewrite <- Hq, <- Hcap, <- Hc.
  destruct (force_resync_cases (rx_run c1 between) Backpressure) as [[[->|Hs] ->]|(-> & Hs & -> & _)]; unfold saturated in *; cbn.
  - by rewrite app_nil_r.
  - apply Z.leb_le in Hs. assert ((Z.of_nat (length (queued (rx_run c1 between))) <? mpsc_capacity (sender (rx_run c1 between))) = false) as -> by lia.
    by rewrite andb_false_r, app_nil_r.
  - apply Z.leb_gt in Hs. by assert ((Z.of_nat (length (queued (rx_run c1 between))) <? mpsc_capacity (sender (rx_run c1 between))) = true) as -> by lia.
Qed.


(** ** Draining a cursor *)

(** The event of one batch; pairing never fails. *)
Definition batch_event (pk : list nat) (b : LsnBatch) : option DiffEvent :=
  match @pair_transaction_into_event RouterError (delta_of_batch b) pk with Ok e => Some e | _ => None end.

Lemma batch_event_total pk b : exists e, @pair_transaction_into_event RouterError (delta_of_batch b) pk = Ok e.
Proof.
  unfold pair_transaction_into_event. destruct (@pair_changes_total RouterError (qd_diffs (delta_of_batch b)) pk) as [cs ->].
  simpl. eauto.
Qed.

Definition room (c : BoundedDiffChannel) : Z := mpsc_capacity (sender c) - Z.of_nat (length (queued c)).

Lemma pump_event_sent st sub c e :
  channels st !! sub = Some c -> mpsc_closed (sender c) = false -> 1 <= room c ->
  exists st' c', pump_event st sub e = (Ok tt, st') /\ channels st' !! sub = Some c' /\
    mpsc_closed (sender c') = false /\ queued c' = queued c ++ [e] /\ room c' = room c - 1.
Proof.
  intros Hc Hcl Hroom. unfold pump_event, pump_event_between. rewrite Hc. pose proof (try_send_cases c e) as Hs.
  destruct (try_send c e) as [o c1].
  destruct Hs as [(_ & ? & _)|[(_ & _ & Hsat & _)|(-> & _ & _ & Hq & _ & Hcap & Hcl')]]; [congruence| |].
  - unfold saturated in Hsat. apply Z.leb_le in Hsat. unfold room in Hroom. lia.
  - eexists _, c1. split; [reflexivity|]. cbn. rewrite lookup_insert_eq. repeat split; try done.
    unfold room. rewrite Hcap, Hq, length_app. simpl. lia.
Qed.

(** The position an event carries. *)
Definition event_commit_lsn (e : DiffEvent) : option Z := match e with Ev_TransactionUpdate _ _ commit_lsn _ _ => Some commit_lsn | _ => None end.

Section Delivery.
Context {C : Type} `{PeekingCursor C}.

Lemma pump_cursor_fuel_spec fuel st sub c (cur : C) pk :
  (length (remaining cur) < fuel)%nat -> channels st !! sub = Some c -> mpsc_closed (sender c) = false ->
  Z.of_nat (length (lsn_runs (remaining cur))) <= room c ->
  exists st' cur', pump_cursor_fuel fuel st sub cur pk = (Ok (Z.of_nat (length (lsn_runs (remaining cur)))), cur', st') /\
    remaining cur' = [] /\ queue_of st' sub = Some (queued c ++ filter_map (batch_event pk) (lsn_runs (remaining cur))).
Proof.
  revert st c cur. induction fuel as [|fuel IH]; intros st c cur Hf Hc Hcl Hroom; [lia|].
  cbn [pump_cursor_fuel]. pose proof (next_transaction_remaining cur) as Hn.
  destruct (next_transaction cur) as [[d cur']|].
  - destruct Hn as (b & -> & Hr & Hlt & Hne). rewrite Hr in *. cbn [length] in Hroom.
    assert (delta_is_empty (delta_of_batch b) = false) as ->
      by (unfold delta_is_empty, delta_of_batch; simpl; by destruct (lb_diffs b)).
    unfold pump_transaction. destruct (batch_event_total pk b) as [e He]. rewrite He.
    destruct (pump_event_sent st sub c e Hc Hcl) as (st1 & c1 & -> & Hc1 & Hcl1 & Hq1 & Hr1); [lia|].
    destruct (IH st1 c1 cur') as (st2 & cur2 & -> & Hd & Hq2); [lia | done | done | lia|].
    assert (batch_event pk b = Some e) as Hbe by (unfold batch_event; by rewrite He).
    eexists _, _. cbn [length filter_map]. rewrite Hbe.
    split; [cbn; repeat f_equal; lia|]. split; [done|]. rewrite Hq2, Hq1, <- app_assoc. done.
  - exists st, cur. rewrite Hn. simpl. rewrite app_nil_r. unfold queue_of. by rewrite Hc.
Qed.

Lemma batch_events_commit pk bs : map event_commit_lsn (filter_map (batch_event pk) bs) = map Some (map lb_lsn bs).
Proof.
  induction bs as [|b bs IH]; [done|]. cbn [filter_map]. destruct (batch_event_total pk b) as [e He].
  assert (batch_event pk b = Some e) as -> by (unfold batch_event; by rewrite He). cbn [map]. rewrite IH. f_equal.
  unfold pair_transaction_into_event in He. destruct (pair_changes _ _); cbn in He; [|done|done]. by injection He as <-.
Qed.

(** C31: Draining a cursor that surfaces finitely many diffs and whose peek_lsn tells the LSN of the
    next one, as the in-memory and the journal cursors do, into an open channel with room for one
    event per maximal run of equal LSN: pump_cursor terminates with the cursor drained, reports the
    number of runs, and appends to the subscriber's queue, in the cursor's order, one event per run,
    the pairing of the run's diffs; when the cursor's diffs come in LSN order the commit LSNs of the
    events strictly increase, so each transaction is one event. *)
Theorem pump_cursor_delivers st sub c (cur : C) pk :
  channels st !! sub = Some c -> mpsc_closed (sender c) = false ->
  Z.of_nat (length (lsn_runs (remaining cur))) + Z.of_nat (length (queued c)) <= mpsc_capacity (sender c) ->
  exists st' cur' events, pump_cursor st sub cur pk = (Ok (Z.of_nat (length (lsn_runs (remaining cur)))), cur', st') /\
    remaining cur' = [] /\ queue_of st' sub = Some (queued c ++ events) /\
    Forall2 (fun b e => @pair_transaction_into_event RouterError (delta_of_batch b) pk = Ok e) (lsn_runs (remaining cur)) events /\
    (lsn_sorted (remaining cur) -> exists lsns, map event_commit_lsn events = map Some lsns /\ StronglySorted Z.lt lsns).
Proof.
  intros Hc Hcl Hroom. destruct (pump_cursor_fuel_spec (S (available cur)) st sub c cur pk) as (st' & cur' & Hp & Hd & Hq);
    [pose proof (remaining_available cur); lia | done | done | unfold room; lia|].
  exists st', cur', (filter_map (batch_event pk) (lsn_runs (remaining cur))). split; [exact Hp|]. split; [done|]. split; [done|]. split.
  - clear Hp Hq Hroom. induction (lsn_runs (remaining cur)) as [|b bs IH]; simpl; [constructor|].
    destruct (batch_event_total pk b) as [e He].
    assert (batch_event pk b = Some e) as -> by (unfold batch_event; by rewrite He). constructor; [done|]. apply IH.
  - intros Hs. eexists. split; [apply batch_events_commit | by apply lsn_runs_strict].
Qed.
End Delivery.

(** ** Acks *)

(** An ack for a live subscription moves its cursor and its watermark to the larger of the old
    cursor and the acked LSN, reports an advance exactly when that is progress, and touches no other
    subscription; an ack for an unknown subscription is an error that changes nothing. *)
Theorem ack_moves_forward st sub lsn :
  inner_wf config st ->
  match by_id (registry st) !! sub with
  | None => ack st sub lsn = (Err (UnknownSubscription sub), st)
  | Some s =>
      exists st', ack st sub lsn = (Ok (if sub_cursor_lsn s <? lsn then Advanced lsn else Stale), st') /\
        inner_wf config st' /\
        cursor_of st' sub = Some (Z.max (sub_cursor_lsn s) lsn) /\
        watermark_of st' sub = Some (Z.max (sub_cursor_lsn s) lsn) /\
        (forall id, id <> sub -> by_id (registry st') !! id = by_id (registry st) !! id /\
           watermark_of st' id = watermark_of st id)
  end.
Proof.
  intros Hwf. pose proof (ack_wf config st sub lsn Hwf) as Hwf'. pose proof (iw_ack config st Hwf sub) as Ha.
  unfold ack, registry_get, ack_ack, cursor_of, watermark_of in *. destruct (by_id (registry st) !! sub) as [s|] eqn:Hs; [|done].
  simpl in Ha. destruct (Z.leb_spec lsn (sub_cursor_lsn s)) as [Hle|Hgt].
  - assert ((sub_cursor_lsn s <? lsn) = false) as -> by lia. eexists. split; [reflexivity|]. cbn in *.
    rewrite Hs, Ha, Z.max_l by lia. done.
  - assert ((sub_cursor_lsn s <? lsn) = true) as -> by lia. eexists. split; [reflexivity|]. cbn in *.
    rewrite lookup_alter_eq, Hs, lookup_insert_eq, Ha, Z.max_r by lia. split; [done|]. split; [done|].
    split; [done|]. intros id Hne. by rewrite lookup_alter_ne, lookup_insert_ne.
Qed.

(** ** Teardown *)

Lemma unsubscribe_result st sub s :
  inner_wf config st -> by_id (registry st) !! sub = Some s ->
  exists rel, (unsubscribe st sub).1 = Ok (Some rel) /\
    channels (unsubscribe st sub).2 = delete sub (channels st).
Proof.
  intros Hwf Hs. destruct (live_subgraph config st sub s Hwf Hs) as (g & n & Hh & _ & He & _).
  unfold unsubscribe, registry_remove. rewrite Hs, Hh.
  pose proof (release_spec (subgraphs st) g _ (iw_shared config st Hwf) He) as (_ & _ & Hr).
  destruct (release (subgraphs st) g) as [rel sg]. cbn in *. rewrite Hr. eauto.
Qed.

Lemma unsubscribe_all_spec st ids :
  inner_wf config st -> NoDup ids -> (forall id, id ∈ ids -> is_Some (by_id (registry st) !! id)) ->
  let '(rels, st') := unsubscribe_all st ids in
  inner_wf config st' /\ length rels = length ids /\
  (forall id, by_id (registry st') !! id = if decide (id ∈ ids) then None else by_id (registry st) !! id) /\
  (forall id, channels st' !! id = if decide (id ∈ ids) then None else channels st !! id).
Proof.
  revert st. induction ids as [|sub ids IH]; intros st Hwf Hnd Hin; cbn [unsubscribe_all].
  { split; [done|]. split; [done|]. split; intros id; by rewrite decide_False by apply not_elem_of_nil. }
  apply NoDup_cons in Hnd as [Hsub Hnd]. destruct (Hin sub) as [s Hs]; [left|].
  pose proof (unsubscribe_wf config st sub Hwf) as Hwf1. pose proof (unsubscribe_by_id st sub) as Hby.
  destruct (unsubscribe_result st sub s Hwf Hs) as (rel & Hr & Hch).
  destruct (unsubscribe st sub) as [r st1]. cbn [fst snd] in *. subst r.
  specialize (IH st1 Hwf1 Hnd). destruct (unsubscribe_all st1 ids) as [rels st2].
  destruct IH as (Hwf2 & Hlen & Hb & Hc).
  { intros id Hid. rewrite Hby, lookup_delete_ne by (intros ->; done). apply Hin. by right. }
  split; [done|]. split; [by simpl; f_equal|].
  assert (forall id, id ∈ sub :: ids <-> id = sub \/ id ∈ ids) as Hcons by (intros; apply elem_of_cons).
  split; intros id; [rewrite Hb, Hby | rewrite Hc, Hch];
    destruct (decide (id ∈ ids)), (decide (id ∈ sub :: ids)) as [Hi|Hi]; rewrite Hcons in Hi; try done; try tauto;
    try (destruct Hi as [->|]; [|done]; by rewrite lookup_delete_eq);
    rewrite lookup_delete_ne; naive_solver.
Qed.

(** A disconnect removes exactly the subscriptions of one connection, with their channels,
    reports one subgraph release for each, keeps every other subscription and its channel, and
    preserves the router's invariant. *)
Theorem disconnect_removes_connection st connection :
  inner_wf config st ->
  let '(rels, st') := disconnect st connection in
  inner_wf config st' /\
  connection_subscriptions (registry st') connection = [] /\
  length rels = length (connection_subscriptions (registry st) connection) /\
  (forall id s, by_id (registry st) !! id = Some s -> sub_connection s <> connection ->
     entry st' id = entry st id) /\
  (forall id s, by_id (registry st) !! id = Some s -> sub_connection s = connection ->
     entry st' id = (None, None)).
Proof.
  intros Hwf. pose proof (iw_registry config st Hwf) as Hreg. unfold disconnect, entry.
  set (ids := connection_subscriptions (registry st) connection).
  assert (forall id s, by_id (registry st) !! id = Some s -> id ∈ ids <-> sub_connection s = connection) as Hids.
  { intros id s Hs. unfold ids. rewrite (rw_conn _ Hreg). naive_solver. }
  pose proof (unsubscribe_all_spec st ids Hwf (rw_nodup _ Hreg connection)) as Hall.
  destruct (unsubscribe_all st ids) as [rels st']. destruct Hall as (Hwf' & Hlen & Hb & Hc).
  { intros id (s & Hs & _)%(rw_conn _ Hreg). eauto. }
  split; [done|]. split; [|split; [done|split]].
  - destruct (connection_subscriptions (registry st') connection) as [|id l] eqn:Hl; [done|]. exfalso.
    assert (id ∈ connection_subscriptions (registry st') connection) as Hin by (rewrite Hl; left).
    apply (rw_conn _ (iw_registry config st' Hwf')) in Hin as (s & Hs & Hcn). rewrite Hb in Hs.
    destruct (decide (id ∈ ids)) as [|Hni]; [done|]. by apply Hni, (Hids id s Hs).
  - intros id s Hs Hne. assert (id ∉ ids) by by rewrite (Hids id s Hs). by rewrite Hb, Hc, !decide_False.
  - intros id s Hs He. assert (id ∈ ids) by by apply (Hids id s Hs). by rewrite Hb, Hc, !decide_True.
Qed.

(** ** Rule changes *)

(** Replacing the rules installs them and appends Resync(PermissionsChanged) to the queue of
    every channel that is open and not saturated; a saturated or closed channel is left as it was. *)
Theorem set_rules_resyncs st rs id c :
  channels st !! id = Some c ->
  rules (set_rules st rs) = rs /\
  queue_of (set_rules st rs) id =
    Some (if mpsc_closed (sender c) || saturated c then queued c else queued c ++ [Ev_Resync PermissionsChanged]).
Proof.
  intros Hc. split; [done|]. unfold queue_of, set_rules. cbn [channels]. rewrite lookup_fmap, Hc. simpl. f_equal.
  destruct (force_resync_cases c PermissionsChanged) as [[Hno ->]|(-> & -> & Hq & _)]; [|done].
  destruct Hno as [->| ->]; [done|]. by rewrite orb_true_r.
Qed.
End Spec.
