(* ===== verification/ProtoWire.v ===== *)
(** * ProtoWire: the row codec of the wire protocol
    ([crates/palimpsest-proto/src/wire.rs], the messages of
    [proto/palimpsest/sync/v1/sync.proto], [crates/palimpsest-server/src/codec.rs])

    The byte format is that of the [bincode] crate, which is not part of the
    repository: it is the class [Bincode], whose laws are its documented round
    trip. [CountableBincode] is an instance. *)

From S2P Require Import Prelude Text Values Literals.

(** ** Column values on the wire *)

Inductive WireDatum : Type :=
| W_Bool (b : bool)
| W_I16 (z : Z)
| W_I32 (z : Z)
| W_I64 (z : Z)
| W_F32 (bits : Z)
| W_F64 (bits : Z)
| W_Numeric (t : text)
| W_Text (bs : list byte)
| W_Bytea (bs : list byte)
| W_Json (bs : list byte)
| W_Jsonb (bs : list byte)
| W_Uuid (bs : list byte)
| W_Null
| W_Date (z : Z)
| W_Time (z : Z)
| W_Timestamp (z : Z)
| W_TimestampTz (z : Z)
| W_Interval (months days micros : Z)
| W_Array (items : list WireDatum).

Abbreviation WireRow := (list WireDatum).

(** Induction that reaches the elements of arrays. *)
Lemma WireDatum_nested_ind (P : WireDatum -> Prop) :
  (forall w, match w with W_Array items => Forall P items | _ => True end -> P w) -> forall w, P w.
Proof.
  intros H. fix IH 1. intros w. apply H. destruct w; try exact I.
  induction items as [|x items IHi]; constructor; [apply IH | exact IHi].
Qed.

(** Derived [PartialEq], [Eq] and [Hash]: values are map keys. *)
Fixpoint wire_tree (w : WireDatum) : gen_tree (Z + list N) :=
  let bytes bs := GenLeaf (inr (map Byte.to_N bs)) in
  let num z := GenLeaf (inl z) in
  match w with
  | W_Bool b => GenNode 0 [num (if b then 1 else 0)]
  | W_I16 z => GenNode 1 [num z]
  | W_I32 z => GenNode 2 [num z]
  | W_I64 z => GenNode 3 [num z]
  | W_F32 z => GenNode 4 [num z]
  | W_F64 z => GenNode 5 [num z]
  | W_Numeric t => GenNode 6 [bytes t]
  | W_Text t => GenNode 7 [bytes t]
  | W_Bytea t => GenNode 8 [bytes t]
  | W_Json t => GenNode 9 [bytes t]
  | W_Jsonb t => GenNode 10 [bytes t]
  | W_Uuid t => GenNode 11 [bytes t]
  | W_Null => GenNode 12 []
  | W_Date z => GenNode 13 [num z]
  | W_Time z => GenNode 14 [num z]
  | W_Timestamp z => GenNode 15 [num z]
  | W_TimestampTz z => GenNode 16 [num z]
  | W_Interval a b c => GenNode 17 [num a; num b; num c]
  | W_Array items => GenNode 18 (map wire_tree items)
  end.

Definition bytes_of_N (l : list N) : option (list byte) := mapM Byte.of_N l.

Fixpoint tree_wire (t : gen_tree (Z + list N)) : option WireDatum :=
  match t with
  | GenNode 0 [GenLeaf (inl z)] => Some (W_Bool (z =? 1))
  | GenNode 1 [GenLeaf (inl z)] => Some (W_I16 z)
  | GenNode 2 [GenLeaf (inl z)] => Some (W_I32 z)
  | GenNode 3 [GenLeaf (inl z)] => Some (W_I64 z)
  | GenNode 4 [GenLeaf (inl z)] => Some (W_F32 z)
  | GenNode 5 [GenLeaf (inl z)] => Some (W_F64 z)
  | GenNode 6 [GenLeaf (inr bs)] => W_Numeric <$> bytes_of_N bs
  | GenNode 7 [GenLeaf (inr bs)] => W_Text <$> bytes_of_N bs
  | GenNode 8 [GenLeaf (inr bs)] => W_Bytea <$> bytes_of_N bs
  | GenNode 9 [GenLeaf (inr bs)] => W_Json <$> bytes_of_N bs
  | GenNode 10 [GenLeaf (inr bs)] => W_Jsonb <$> bytes_of_N bs
  | GenNode 11 [GenLeaf (inr bs)] => W_Uuid <$> bytes_of_N bs
  | GenNode 12 [] => Some W_Null
  | GenNode 13 [GenLeaf (inl z)] => Some (W_Date z)
  | GenNode 14 [GenLeaf (inl z)] => Some (W_Time z)
  | GenNode 15 [GenLeaf (inl z)] => Some (W_Timestamp z)
  | GenNode 16 [GenLeaf (inl z)] => Some (W_TimestampTz z)
  | GenNode 17 [GenLeaf (inl a); GenLeaf (inl b); GenLeaf (inl c)] => Some (W_Interval a b c)
  | GenNode 18 ts => W_Array <$> mapM tree_wire ts
  | _ => None
  end.

Lemma bytes_of_to_N (bs : list byte) : bytes_of_N (map Byte.to_N bs) = Some bs.
Proof.
  unfold bytes_of_N. induction bs as [|b bs IH]; simpl; [done|]. by rewrite Byte.of_to_N, IH.
Qed.

Lemma tree_wire_tree (w : WireDatum) : tree_wire (wire_tree w) = Some w.
Proof.
  induction w as [w IH] using WireDatum_nested_ind.
  destruct w; simpl; rewrite ?bytes_of_to_N; try done; [by destruct b|].
  assert (mapM tree_wire (map wire_tree items) = Some items) as ->; [|done].
  induction IH as [|x items Hx _ IHi]; simpl; [done|]. by rewrite Hx, IHi.
Qed.

#[global] Instance WireDatum_eq_dec : EqDecision WireDatum.
Proof.
  intros a b. destruct (decide (wire_tree a = wire_tree b)) as [E|E].
  - left. by apply (f_equal tree_wire) in E; rewrite !tree_wire_tree in E; injection E.
  - right. by intros ->.
Defined.
#[global] Instance WireDatum_countable : Countable WireDatum :=
  inj_countable wire_tree tree_wire tree_wire_tree.

(** ** Messages ([sync.proto]) *)

Inductive ProtoDiffOp := PO_Unspecified | PO_Initial | PO_Insert | PO_Update | PO_Delete.

Definition diff_op_i32 (op : ProtoDiffOp) : Z :=
  match op with PO_Unspecified => 0 | PO_Initial => 1 | PO_Insert => 2 | PO_Update => 3 | PO_Delete => 4 end.
(** [DiffOp::try_from(op).unwrap_or(DiffOp::Unspecified)]. *)
Definition diff_op_of_i32 (z : Z) : ProtoDiffOp :=
  match z with 1 => PO_Initial | 2 => PO_Insert | 3 => PO_Update | 4 => PO_Delete | _ => PO_Unspecified end.

Inductive ProtoDatumType :=
| PT_Unspecified | PT_Bool | PT_I16 | PT_I32 | PT_I64 | PT_F32 | PT_F64 | PT_Numeric | PT_Text | PT_Bytea
| PT_Date | PT_Time | PT_Timestamp | PT_TimestampTz | PT_Interval | PT_Uuid | PT_Json | PT_Jsonb | PT_Array | PT_Null.

Definition datum_type_i32 (t : ProtoDatumType) : Z :=
  match t with
  | PT_Unspecified => 0 | PT_Bool => 1 | PT_I16 => 2 | PT_I32 => 3 | PT_I64 => 4 | PT_F32 => 5 | PT_F64 => 6
  | PT_Numeric => 7 | PT_Text => 8 | PT_Bytea => 9 | PT_Date => 10 | PT_Time => 11 | PT_Timestamp => 12
  | PT_TimestampTz => 13 | PT_Interval => 14 | PT_Uuid => 15 | PT_Json => 16 | PT_Jsonb => 17 | PT_Array => 18
  | PT_Null => 19
  end.
Definition datum_type_of_i32 (z : Z) : ProtoDatumType :=
  match z with
  | 1 => PT_Bool | 2 => PT_I16 | 3 => PT_I32 | 4 => PT_I64 | 5 => PT_F32 | 6 => PT_F64
  | 7 => PT_Numeric | 8 => PT_Text | 9 => PT_Bytea | 10 => PT_Date | 11 => PT_Time | 12 => PT_Timestamp
  | 13 => PT_TimestampTz | 14 => PT_Interval | 15 => PT_Uuid | 16 => PT_Json | 17 => PT_Jsonb | 18 => PT_Array
  | 19 => PT_Null | _ => PT_Unspecified
  end.

Record Column := { pc_name : string; pc_type : Z; pc_nullable : bool }.
Record Schema := { ps_columns : list Column; ps_primary_key_columns : list Z }.

Record Diff := {
  df_subscription_id : string; df_lsn : Z; df_op : Z; df_schema_id : Z; df_rows : list byte
}.
Record ProtoRowChange := { pr_op : Z; pr_old_row : option (list byte); pr_new_row : option (list byte) }.
Record TransactionUpdate := {
  tu_subscription_id : string; tu_commit_lsn : Z; tu_begin_lsn : option Z; tu_end_lsn : option Z;
  tu_transaction_id : option Z; tu_schema_id : Z; tu_chunk_index : Z; tu_chunk_count : Z;
  tu_changes : list ProtoRowChange
}.

Record WireRowChange := { wr_op : ProtoDiffOp; wr_old : option WireRow; wr_new : option WireRow }.

(** The text of a bincode failure is left out. *)
Inductive CodecError :=
| CE_Encode
| CE_Decode
| CE_Arity (expected actual : nat)
| CE_RowCount (expected actual : nat)
| CE_SchemaMismatch (column : nat) (schema : ProtoDatumType) (datum : string)
| CE_UnknownSchema (id : Z).

(** ** [bincode] *)

(** The ranges the Rust types impose: [i16], [u32] bit patterns, [[u8; 16]] and
    so on; sizes below [2^64]. *)
Fixpoint wire_ok (w : WireDatum) : bool :=
  match w with
  | W_I16 z => fits 16 z
  | W_I32 z | W_Date z => fits 32 z
  | W_I64 z | W_Time z | W_Timestamp z | W_TimestampTz z => fits 64 z
  | W_F32 z => ufits 32 z
  | W_F64 z => ufits 64 z
  | W_Uuid bs => Nat.eqb (length bs) 16
  | W_Interval months days micros => fits 32 months && fits 32 days && fits 64 micros
  | W_Array items => forallb wire_ok items
  | W_Bool _ | W_Numeric _ | W_Text _ | W_Bytea _ | W_Json _ | W_Jsonb _ | W_Null => true
  end.
Definition wire_rows_ok (rows : list WireRow) : bool := forallb (forallb wire_ok) rows.

(** Serialising values of these types to a byte vector succeeds with the default
    configuration (no size limit), and deserialising gives them back. *)
Class Bincode : Type := {
  bincode_serialize : list WireRow -> option (list byte);
  bincode_deserialize : list byte -> option (list WireRow);
  bincode_total rows : wire_rows_ok rows = true -> exists bs, bincode_serialize rows = Some bs;
  bincode_roundtrip rows bs : wire_rows_ok rows = true ->
    bincode_serialize rows = Some bs -> bincode_deserialize bs = Some rows
}.

(** An instance: the number [encode] gives to the rows, bit by bit. *)
Fixpoint positive_bytes (p : positive) : list byte :=
  match p with xH => [] | xO p => x00 :: positive_bytes p | xI p => x01 :: positive_bytes p end.
Fixpoint bytes_positive (bs : list byte) : positive :=
  match bs with [] => xH | x00 :: bs => xO (bytes_positive bs) | _ :: bs => xI (bytes_positive bs) end.

Lemma bytes_positive_bytes p : bytes_positive (positive_bytes p) = p.
Proof. induction p; simpl; congruence. Qed.

#[export] Program Instance CountableBincode : Bincode := {|
  bincode_serialize rows := Some (positive_bytes (encode rows));
  bincode_deserialize bs := decode (bytes_positive bs)
|}.
Next Obligation. intros rows _. eauto. Qed.
Next Obligation. intros rows bs _ [= <-]. by rewrite bytes_positive_bytes, decode_encode. Qed.

(** ** The codec of the protocol crate *)

Abbreviation SchemaRegistry := (gmap Z Schema).

Section Codec.
Context `{Bincode}.

Definition wire_encode_rows (rows : list WireRow) : exec CodecError (list byte) :=
  ok_or (bincode_serialize rows) CE_Encode.
Definition wire_decode_rows (bytes : list byte) : exec CodecError (list WireRow) :=
  ok_or (bincode_deserialize bytes) CE_Decode.

Definition wire_is_compatible (datum : WireDatum) (declared : ProtoDatumType) (nullable : bool) : bool :=
  match datum, declared with
  | W_Null, _ => nullable
  | W_Bool _, PT_Bool | W_I16 _, PT_I16 | W_I32 _, PT_I32 | W_I64 _, PT_I64 | W_F32 _, PT_F32 | W_F64 _, PT_F64
  | W_Numeric _, PT_Numeric | W_Text _, PT_Text | W_Bytea _, PT_Bytea | W_Json _, PT_Json | W_Jsonb _, PT_Jsonb
  | W_Uuid _, PT_Uuid | W_Date _, PT_Date | W_Time _, PT_Time | W_Timestamp _, PT_Timestamp
  | W_TimestampTz _, PT_TimestampTz | W_Interval _ _ _, PT_Interval | W_Array _, PT_Array => true
  | _, PT_Unspecified => true
  | _, _ => false
  end.

Definition datum_tag (datum : WireDatum) : string :=
  match datum with
  | W_Bool _ => "bool" | W_I16 _ => "i16" | W_I32 _ => "i32" | W_I64 _ => "i64" | W_F32 _ => "f32"
  | W_F64 _ => "f64" | W_Numeric _ => "numeric" | W_Text _ => "text" | W_Bytea _ => "bytea"
  | W_Json _ => "json" | W_Jsonb _ => "jsonb" | W_Uuid _ => "uuid" | W_Null => "null" | W_Date _ => "date"
  | W_Time _ => "time" | W_Timestamp _ => "timestamp" | W_TimestampTz _ => "timestamptz"
  | W_Interval _ _ _ => "interval" | W_Array _ => "array"
  end.

(** The loop over [zip] of the row and the columns, from column [idx]. *)
Fixpoint validate_datums (idx : nat) (row : WireRow) (columns : list Column) : exec CodecError unit :=
  match row, columns with
  | datum :: row', column :: columns' =>
      let declared := datum_type_of_i32 (pc_type column) in
      if negb (wire_is_compatible datum declared (pc_nullable column))
      then Err (CE_SchemaMismatch idx declared (datum_tag datum))
      else validate_datums (S idx) row' columns'
  | _, _ => Ok tt
  end.

Definition validate_row (row : WireRow) (schema : Schema) : exec CodecError unit :=
  if negb (Nat.eqb (length row) (length (ps_columns schema)))
  then Err (CE_Arity (length (ps_columns schema)) (length row))
  else validate_datums 0 row (ps_columns schema).

Fixpoint validate_rows (rows : list WireRow) (schema : Schema) : exec CodecError unit :=
  match rows with
  | [] => Ok tt
  | row :: rows' => let? _ := validate_row row schema in validate_rows rows' schema
  end.

Definition decode_diff (diff : Diff) (schema : Schema) : exec CodecError (list WireRow) :=
  let? rows := wire_decode_rows (df_rows diff) in
  let? _ := validate_rows rows schema in
  Ok rows.

Definition decode_optional_single_row (bytes : option (list byte)) (schema : Schema)
  : exec CodecError (option WireRow) :=
  match bytes with
  | None => Ok None
  | Some bytes =>
      let? rows := wire_decode_rows bytes in
      let? _ := validate_rows rows schema in
      if negb (Nat.eqb (length rows) 1) then Err (CE_RowCount 1 (length rows)) else Ok (last rows)
  end.

Definition decode_row_change (change : ProtoRowChange) (schema : Schema) : exec CodecError WireRowChange :=
  let? old := decode_optional_single_row (pr_old_row change) schema in
  let? new := decode_optional_single_row (pr_new_row change) schema in
  Ok {| wr_op := diff_op_of_i32 (pr_op change); wr_old := old; wr_new := new |}.

Definition decode_transaction_update (update : TransactionUpdate) (schema : Schema)
  : exec CodecError (list WireRowChange) :=
  exec_mapM (fun change => decode_row_change change schema) (tu_changes update).

(** [SchemaRegistry]. *)
Definition registry_register (r : SchemaRegistry) (id : Z) (s : Schema) : SchemaRegistry := <[id := s]> r.
Definition registry_forget (r : SchemaRegistry) (id : Z) : SchemaRegistry := delete id r.
Definition registry_decode (r : SchemaRegistry) (diff : Diff) : exec CodecError (list WireRow) :=
  let? schema := ok_or (r !! df_schema_id diff) (CE_UnknownSchema (df_schema_id diff)) in
  decode_diff diff schema.
Definition registry_decode_transaction (r : SchemaRegistry) (update : TransactionUpdate)
  : exec CodecError (list WireRowChange) :=
  let? schema := ok_or (r !! tu_schema_id update) (CE_UnknownSchema (tu_schema_id update)) in
  decode_transaction_update update schema.

(** ** The server's conversion ([codec.rs]) *)

Inductive ServerCodecError := UnsupportedDatum | SC_Wire (e : CodecError).

Fixpoint datum_to_wire (datum : Datum) : exec ServerCodecError WireDatum :=
  match datum with
  | D_Bool v => Ok (W_Bool v)
  | D_I16 v => Ok (W_I16 v)
  | D_I32 v => Ok (W_I32 v)
  | D_I64 v => Ok (W_I64 v)
  | D_F32 v => Ok (W_F32 v)
  | D_F64 v => Ok (W_F64 v)
  | D_Numeric v => Ok (W_Numeric (bd_text v))
  | D_Text v => Ok (W_Text v)
  | D_Bytea v => Ok (W_Bytea v)
  | D_Json v => Ok (W_Json v)
  | D_Jsonb v => Ok (W_Jsonb v)
  | D_Uuid v => Ok (W_Uuid (as_bytes v))
  | D_Null => Ok W_Null
  | D_Date v => Ok (W_Date (days_since_unix_epoch v))
  | D_Time v => Ok (W_Time (micros_since_midnight v))
  | D_Timestamp v => Ok (W_Timestamp (ts_micros_since_unix_epoch v))
  | D_TimestampTz v => Ok (W_TimestampTz (tstz_micros_since_unix_epoch v))
  | D_Interval v => Ok (W_Interval (months v) (days v) (micros v))
  | D_Array elements =>
      let? items := (fix elems l := match l with
                     | [] => Ok []
                     | d :: l' => let? w := datum_to_wire d in let? ws := elems l' in Ok (w :: ws)
                     end) elements in
      Ok (W_Array items)
  | D_Unchanged => Err UnsupportedDatum
  end.

Fixpoint wire_to_datum (datum : WireDatum) : Datum :=
  match datum with
  | W_Bool v => D_Bool v
  | W_I16 v => D_I16 v
  | W_I32 v => D_I32 v
  | W_I64 v => D_I64 v
  | W_F32 v => D_F32 v
  | W_F64 v => D_F64 v
  | W_Numeric v => D_Numeric {| bd_text := v |}
  | W_Text v => D_Text v
  | W_Bytea v => D_Bytea v
  | W_Json v => D_Json v
  | W_Jsonb v => D_Jsonb v
  | W_Uuid v => D_Uuid {| as_bytes := v |}
  | W_Null => D_Null
  | W_Date v => D_Date {| days_since_unix_epoch := v |}
  | W_Time v => D_Time {| micros_since_midnight := v |}
  | W_Timestamp v => D_Timestamp {| ts_micros_since_unix_epoch := v |}
  | W_TimestampTz v => D_TimestampTz {| tstz_micros_since_unix_epoch := v |}
  | W_Interval mo da mi => D_Interval {| months := mo; days := da; micros := mi |}
  | W_Array items => D_Array (map wire_to_datum items)
  end.

Definition row_to_wire (row : Row) : exec ServerCodecError WireRow := exec_mapM datum_to_wire row.

Definition encode_rows (rows : list Row) : exec ServerCodecError (list byte) :=
  let? wire_rows := exec_mapM row_to_wire rows in
  exec_map_err SC_Wire (wire_encode_rows wire_rows).
Definition encode_row (row : Row) : exec ServerCodecError (list byte) := encode_rows [row].
Definition decode_rows (bytes : list byte) : exec ServerCodecError (list Row) :=
  let? wire_rows := exec_map_err SC_Wire (wire_decode_rows bytes) in
  Ok (map (map wire_to_datum) wire_rows).
End Codec.

(** ** What the codec guarantees *)

Fixpoint resolved (d : Datum) : bool :=
  match d with
  | D_Unchanged => false
  | D_Array items => forallb resolved items
  | _ => true
  end.

(** Every value in the range of its type. *)
Fixpoint datum_fits (d : Datum) : bool :=
  match d with
  | D_Array items => forallb datum_fits items
  | _ => datum_wf d
  end.

Lemma Datum_nested_ind (P : Datum -> Prop) :
  (forall d, match d with D_Array items => Forall P items | _ => True end -> P d) -> forall d, P d.
Proof.
  intros H. fix IH 1. intros d. apply H. destruct d; try exact I.
  induction items as [|x items IHi]; constructor; [apply IH | exact IHi].
Qed.

Lemma datum_to_wire_spec d :
  if resolved d then exists w, datum_to_wire d = Ok w /\ wire_to_datum w = d /\ wire_ok w = datum_fits d
  else datum_to_wire d = Err UnsupportedDatum.
Proof.
  induction d as [d IH] using Datum_nested_ind.
  destruct d as [| | | | | | | | |[]|[]|[]|[]|[]|[]| | |items| |]; cbn [resolved];
    try (by eexists; repeat split); try done; [by destruct d; eexists; repeat split| |].
  - eexists. split; [reflexivity|]. split; [done|]. cbn.
    by destruct (fits 32 _), (fits 32 _), (fits 64 _).
  - set (elems := fix elems l := match l with [] => Ok [] | d :: l' =>
      let? w := datum_to_wire d in let? ws := elems l' in Ok (w :: ws) end).
    assert (if forallb resolved items then exists ws, elems items = Ok ws /\ map wire_to_datum ws = items /\
              forallb wire_ok ws = forallb datum_fits items
            else elems items = Err UnsupportedDatum) as Hi.
    { induction IH as [|d items Hd _ IHi]; simpl; [by exists []|].
      destruct (resolved d); simpl; [|by rewrite Hd]. destruct Hd as (w & -> & Hw & Hk). simpl.
      destruct (forallb resolved items); [|by rewrite IHi]. destruct IHi as (ws & -> & Hws & Hks).
      exists (w :: ws). simpl. by rewrite Hw, Hws, Hk, Hks. }
    cbn [datum_to_wire]. fold elems. destruct (forallb resolved items); [|by rewrite Hi].
    destruct Hi as (ws & -> & Hws & Hk). exists (W_Array ws). simpl. by rewrite Hws, Hk.
Qed.

Lemma row_to_wire_spec row :
  if forallb resolved row
  then exists w, row_to_wire row = Ok w /\ map wire_to_datum w = row /\ forallb wire_ok w = forallb datum_fits row
  else row_to_wire row = Err UnsupportedDatum.
Proof.
  unfold row_to_wire. induction row as [|d row IH]; simpl; [by exists []|].
  pose proof (datum_to_wire_spec d) as Hd. destruct (resolved d); simpl; [|by rewrite Hd].
  destruct Hd as (w & -> & Hw & Hk). simpl. destruct (forallb resolved row); [|by rewrite IH].
  destruct IH as (ws & -> & Hws & Hks). exists (w :: ws). simpl. by rewrite Hw, Hws, Hk, Hks.
Qed.

Lemma rows_to_wire_spec rows :
  if forallb (forallb resolved) rows
  then exists ws, exec_mapM row_to_wire rows = Ok ws /\ map (map wire_to_datum) ws = rows /\
    wire_rows_ok ws = forallb (forallb datum_fits) rows
  else exec_mapM row_to_wire rows = Err UnsupportedDatum.
Proof.
  unfold wire_rows_ok. induction rows as [|r rows IH]; simpl; [by exists []|].
  pose proof (row_to_wire_spec r) as Hr. destruct (forallb resolved r); simpl; [|by rewrite Hr].
  destruct Hr as (w & -> & Hw & Hk). simpl. destruct (forallb (forallb resolved) rows); [|by rewrite IH].
  destruct IH as (ws & -> & Hws & Hks). exists (w :: ws). simpl. by rewrite Hw, Hws, Hk, Hks.
Qed.

Section Facts.
Context `{Bincode}.

Lemma encode_rows_ok rows :
  forallb (forallb datum_fits) rows = true -> forallb (forallb resolved) rows = true ->
  exists bs ws, encode_rows rows = Ok bs /\ exec_mapM row_to_wire rows = Ok ws /\
    map (map wire_to_datum) ws = rows /\ wire_decode_rows bs = Ok ws.
Proof.
  intros Hf Hr. pose proof (rows_to_wire_spec rows) as Hs. rewrite Hr in Hs. destruct Hs as (ws & Hws & Hd & Hk).
  rewrite Hf in Hk. destruct (bincode_total ws Hk) as [bs Hbs]. exists bs, ws.
  unfold encode_rows, wire_encode_rows, wire_decode_rows. rewrite Hws. simpl. rewrite Hbs.
  split; [done|]. split; [done|]. split; [done|]. by rewrite (bincode_roundtrip ws bs Hk Hbs).
Qed.

(** C39: Rows of in-range values without TOAST placeholders survive the wire codec unchanged; a
    placeholder anywhere, also inside an array, makes encoding fail with UnsupportedDatum. *)
Theorem codec_roundtrip rows :
  forallb (forallb datum_fits) rows = true ->
  if forallb (forallb resolved) rows
  then exists bs, encode_rows rows = Ok bs /\ decode_rows bs = Ok rows
  else encode_rows rows = Err UnsupportedDatum.
Proof.
  intros Hf. destruct (forallb (forallb resolved) rows) eqn:Hr.
  - destruct (encode_rows_ok rows Hf Hr) as (bs & ws & He & _ & Hd & Hdec). exists bs. split; [done|].
    unfold decode_rows. rewrite Hdec. simpl. by rewrite Hd.
  - pose proof (rows_to_wire_spec rows) as Hs. rewrite Hr in Hs. unfold encode_rows. by rewrite Hs.
Qed.

(** The type a value has; [None] is SQL NULL. *)
Definition wire_type (w : WireDatum) : option ProtoDatumType :=
  match w with
  | W_Bool _ => Some PT_Bool | W_I16 _ => Some PT_I16 | W_I32 _ => Some PT_I32 | W_I64 _ => Some PT_I64
  | W_F32 _ => Some PT_F32 | W_F64 _ => Some PT_F64 | W_Numeric _ => Some PT_Numeric | W_Text _ => Some PT_Text
  | W_Bytea _ => Some PT_Bytea | W_Json _ => Some PT_Json | W_Jsonb _ => Some PT_Jsonb | W_Uuid _ => Some PT_Uuid
  | W_Null => None | W_Date _ => Some PT_Date | W_Time _ => Some PT_Time | W_Timestamp _ => Some PT_Timestamp
  | W_TimestampTz _ => Some PT_TimestampTz | W_Interval _ _ _ => Some PT_Interval | W_Array _ => Some PT_Array
  end.

(** A value fits a column: NULL only where it is allowed, otherwise the declared
    type, if the schema declares one. *)
Definition fits_column (w : WireDatum) (c : Column) : Prop :=
  match wire_type w with
  | None => pc_nullable c = true
  | Some t => datum_type_of_i32 (pc_type c) = t \/ datum_type_of_i32 (pc_type c) = PT_Unspecified
  end.
Definition conforms (s : Schema) (row : WireRow) : Prop := Forall2 fits_column row (ps_columns s).

Lemma compatible_fits w c :
  wire_is_compatible w (datum_type_of_i32 (pc_type c)) (pc_nullable c) = true <-> fits_column w c.
Proof.
  unfold fits_column. destruct w; simpl; try done; destruct (datum_type_of_i32 _);
    (split; [|intros [E|E]]); try done; auto.
Qed.

Lemma validate_columns_spec row cs : forall idx,
  length row = length cs ->
  (exists e, validate_datums idx row cs = Err e /\ ~ Forall2 fits_column row cs) \/
  (validate_datums idx row cs = Ok tt /\ Forall2 fits_column row cs).
Proof.
  revert cs. induction row as [|w row IH]; intros [|c cs] idx Hl; try done; simpl; [by right|].
  destruct (wire_is_compatible _ _ _) eqn:Hc; simpl.
  - apply compatible_fits in Hc. destruct (IH cs (S idx)) as [(e & He & Hn)|[He Hok]]; [by injection Hl| |].
    + left. exists e. split; [done|]. by intros [_ ?]%Forall2_cons.
    + right. split; [done|]. by constructor.
  - left. eexists. split; [done|]. intros [Hf _]%Forall2_cons. apply compatible_fits in Hf. congruence.
Qed.

Lemma validate_row_spec row s :
  (exists e, validate_row row s = Err e /\ ~ conforms s row) \/ (validate_row row s = Ok tt /\ conforms s row).
Proof.
  unfold validate_row, conforms. destruct (Nat.eqb_spec (length row) (length (ps_columns s))) as [Hl|Hl]; simpl.
  - by apply validate_columns_spec.
  - left. eexists. split; [done|]. by intros ?%Forall2_length.
Qed.

Lemma validate_rows_spec rows s :
  (exists e, validate_rows rows s = Err e /\ ~ Forall (conforms s) rows) \/
  (validate_rows rows s = Ok tt /\ Forall (conforms s) rows).
Proof.
  induction rows as [|r rows IH]; simpl; [by right|].
  destruct (validate_row_spec r s) as [(e & -> & Hn)|[-> Hok]]; simpl.
  - left. exists e. split; [done|]. by intros [? _]%Forall_cons.
  - destruct IH as [(e & -> & Hn)|[-> Hr]]; [|right; by auto].
    left. exists e. split; [done|]. by intros [_ ?]%Forall_cons.
Qed.

(** Decoding a diff succeeds exactly on payloads whose rows all have one value per column, NULL
    only in nullable columns and otherwise the declared type; any other payload is an error and
    decoding never panics. *)
Theorem decode_diff_exact diff schema :
  match decode_diff diff schema with
  | Ok rows => bincode_deserialize (df_rows diff) = Some rows /\ Forall (conforms schema) rows
  | Err e =>
      (e = CE_Decode /\ bincode_deserialize (df_rows diff) = None) \/
      (exists rows, bincode_deserialize (df_rows diff) = Some rows /\ ~ Forall (conforms schema) rows)
  | Panic => False
  end.
Proof.
  unfold decode_diff, wire_decode_rows. destruct (bincode_deserialize _) as [rows|]; simpl; [|by left].
  destruct (validate_rows_spec rows schema) as [(e & -> & Hn)|[-> Hok]]; simpl; [right; eauto | done].
Qed.
End Facts.
