(* ===== verification/Transport.v ===== *)
(** * Transport: router events as protocol messages
    (the conversions of [crates/palimpsest-server/src/grpc.rs])

    The gRPC stream itself is not modelled: a message is a value. The theorem
    composes the server's encoder with the decoder every client uses. *)

From S2P Require Import Prelude Text Values Literals Watermarks Registry Channel ProtoWire.

(** ** Messages of the server *)

Inductive ProtoResyncReason :=
| PR_Unspecified | PR_LsnCompacted | PR_SchemaChanged | PR_Backpressure | PR_SlotRecreated | PR_PermissionsChanged.

Definition resync_reason_i32 (r : ProtoResyncReason) : Z :=
  match r with
  | PR_Unspecified => 0 | PR_LsnCompacted => 1 | PR_SchemaChanged => 2 | PR_Backpressure => 3
  | PR_SlotRecreated => 4 | PR_PermissionsChanged => 5
  end.
Definition resync_reason_of_i32 (z : Z) : ProtoResyncReason :=
  match z with
  | 1 => PR_LsnCompacted | 2 => PR_SchemaChanged | 3 => PR_Backpressure | 4 => PR_SlotRecreated
  | 5 => PR_PermissionsChanged | _ => PR_Unspecified
  end.

Record Accepted := {
  ac_subscription_id : string; ac_schema_id : Z; ac_snapshot_lsn : Z; ac_schema : option Schema
}.
Record Resync := { rsy_subscription_id : string; rsy_reason : Z; rsy_message : string }.
Record ErrorMessage := { em_subscription_id : string; em_code : string; em_message : string }.

Inductive ServerKind :=
| SM_Accepted (m : Accepted)
| SM_Diff (m : Diff)
| SM_Resync (m : Resync)
| SM_Error (m : ErrorMessage)
| SM_TransactionUpdate (m : TransactionUpdate).

(** ** Conversions *)

Definition diff_op_to_proto (op : DiffOp) : ProtoDiffOp :=
  match op with
  | Op_Initial => PO_Initial | Op_Insert => PO_Insert | Op_Update => PO_Update | Op_Delete => PO_Delete
  end.

Definition resync_reason_to_proto (reason : ResyncReason) : ProtoResyncReason :=
  match reason with
  | LsnCompacted => PR_LsnCompacted
  | SchemaChanged => PR_SchemaChanged
  | PermissionsChanged => PR_PermissionsChanged
  | Backpressure => PR_Backpressure
  | SlotRecreated => PR_SlotRecreated
  end.
(** [format!("{reason:?}")]. *)
Definition resync_reason_debug (reason : ResyncReason) : string :=
  match reason with
  | LsnCompacted => "LsnCompacted"
  | SchemaChanged => "SchemaChanged"
  | PermissionsChanged => "PermissionsChanged"
  | Backpressure => "Backpressure"
  | SlotRecreated => "SlotRecreated"
  end.

Definition datum_type_to_proto (datum_type : DatumType) : ProtoDatumType :=
  match datum_type with
  | T_Bool => PT_Bool | T_I16 => PT_I16 | T_I32 => PT_I32 | T_I64 => PT_I64 | T_F32 => PT_F32 | T_F64 => PT_F64
  | T_Numeric => PT_Numeric | T_Text => PT_Text | T_Bytea => PT_Bytea | T_Date => PT_Date | T_Time => PT_Time
  | T_Timestamp => PT_Timestamp | T_TimestampTz => PT_TimestampTz | T_Interval => PT_Interval | T_Uuid => PT_Uuid
  | T_Json => PT_Json | T_Jsonb => PT_Jsonb | T_Array _ => PT_Array
  end.

Definition column_spec_to_proto (column : ColumnSpec) : Column :=
  {| pc_name := cs_name column; pc_type := datum_type_i32 (datum_type_to_proto (cs_datum_type column));
     pc_nullable := cs_nullable column |}.

(** An index that does not fit [u32] is sent as [u32::MAX]. *)
Definition schema_to_proto (schema : SchemaDefinition) : Schema :=
  {| ps_columns := map column_spec_to_proto (schema_columns schema);
     ps_primary_key_columns := map (fun index => Z.min (2 ^ 32 - 1) (Z.of_nat index)) (primary_key_columns schema) |}.

(** The loop of [dominant_op] over what it has seen so far. *)
Fixpoint dominant_loop (changes : list RowChange) (seen : bool * bool * bool) : DiffOp :=
  let '(seen_insert, seen_update, seen_delete) := seen in
  match changes with
  | [] =>
      match seen_insert, seen_update, seen_delete with
      | true, false, false => Op_Insert
      | false, false, true => Op_Delete
      | _, _, _ => Op_Update
      end
  | change :: changes' =>
      match rc_op change with
      | Op_Insert => dominant_loop changes' (true, seen_update, seen_delete)
      | Op_Update => dominant_loop changes' (seen_insert, true, seen_delete)
      | Op_Delete => dominant_loop changes' (seen_insert, seen_update, true)
      | Op_Initial => Op_Initial
      end
  end.
Definition dominant_op (changes : list RowChange) : DiffOp := dominant_loop changes (false, false, false).

Section Encode.
Context `{Bincode}.

(** [.ok()] after logging. *)
Definition exec_ok {E A} (r : exec E A) : option A := match r with Ok a => Some a | Err _ | Panic => None end.

Definition encode_changes (changes : list RowChange) : option (ProtoDiffOp * list byte) :=
  let rows := filter_map (fun change => match rc_new change with Some r => Some r | None => rc_old change end) changes in
  bytes ← exec_ok (encode_rows rows);
  Some (diff_op_to_proto (dominant_op changes), bytes).

(** [change.old.as_ref().map(encode_row).transpose()]. *)
Definition encode_image (row : option Row) : exec ServerCodecError (option (list byte)) :=
  match row with
  | None => Ok None
  | Some r => exec_map Some (encode_row r)
  end.

Definition encode_transaction_change (change : RowChange) : option ProtoRowChange :=
  old_row ← exec_ok (encode_image (rc_old change));
  new_row ← exec_ok (encode_image (rc_new change));
  Some {| pr_op := diff_op_i32 (diff_op_to_proto (rc_op change)); pr_old_row := old_row; pr_new_row := new_row |}.

Definition encode_transaction_changes (changes : list RowChange) : option (list ProtoRowChange) :=
  mapM encode_transaction_change changes.

Definition diff_event_to_message (client_subscription_id : string) (schema_id : Z) (event : DiffEvent)
  : option ServerKind :=
  match event with
  | Ev_Initial lsn rows =>
      bytes ← exec_ok (encode_rows rows);
      Some (SM_Diff {| df_subscription_id := client_subscription_id; df_lsn := lsn;
                       df_op := diff_op_i32 PO_Initial; df_schema_id := schema_id; df_rows := bytes |})
  | Ev_Update lsn changes =>
      '(op, rows) ← encode_changes changes;
      Some (SM_Diff {| df_subscription_id := client_subscription_id; df_lsn := lsn;
                       df_op := diff_op_i32 op; df_schema_id := schema_id; df_rows := rows |})
  | Ev_TransactionUpdate transaction_id begin_lsn commit_lsn end_lsn changes =>
      changes' ← encode_transaction_changes changes;
      Some (SM_TransactionUpdate
        {| tu_subscription_id := client_subscription_id; tu_commit_lsn := commit_lsn; tu_begin_lsn := begin_lsn;
           tu_end_lsn := end_lsn; tu_transaction_id := transaction_id; tu_schema_id := schema_id;
           tu_chunk_index := 0; tu_chunk_count := 1; tu_changes := changes' |})
  | Ev_Resync reason =>
      Some (SM_Resync {| rsy_subscription_id := client_subscription_id;
                         rsy_reason := resync_reason_i32 (resync_reason_to_proto reason);
                         rsy_message := resync_reason_debug reason |})
  end.

(** The forwarder: an event that cannot be encoded is dropped. *)
Definition forward (client_subscription_id : string) (schema_id : Z) (events : list DiffEvent) : list ServerKind :=
  filter_map (diff_event_to_message client_subscription_id schema_id) events.
End Encode.

(** ** What reaches the client *)

Definition datum_is (d : Datum) (t : DatumType) : bool :=
  match d, t with
  | D_Bool _, T_Bool | D_I16 _, T_I16 | D_I32 _, T_I32 | D_I64 _, T_I64 | D_F32 _, T_F32 | D_F64 _, T_F64
  | D_Numeric _, T_Numeric | D_Text _, T_Text | D_Bytea _, T_Bytea | D_Date _, T_Date | D_Time _, T_Time
  | D_Timestamp _, T_Timestamp | D_TimestampTz _, T_TimestampTz | D_Interval _, T_Interval | D_Uuid _, T_Uuid
  | D_Json _, T_Json | D_Jsonb _, T_Jsonb | D_Array _, T_Array _ => true
  | _, _ => false
  end.

(** A value a column may hold: of its type, or NULL where that is allowed. *)
Definition in_column (d : Datum) (c : ColumnSpec) : bool :=
  match d with D_Null => cs_nullable c | _ => datum_is d (cs_datum_type c) end.

(** A row the schema describes, with every TOAST placeholder resolved. *)
Record sendable (s : SchemaDefinition) (row : Row) : Prop := {
  snd_fits : forallb datum_fits row = true;
  snd_resolved : forallb resolved row = true;
  snd_typed : Forall2 (fun d c => in_column d c = true) row (schema_columns s)
}.

(** The wire form of a value, a row and a change. *)
Definition to_wire (d : Datum) : WireDatum := match datum_to_wire d with Ok w => w | _ => W_Null end.
Definition to_wire_row (row : Row) : WireRow := map to_wire row.
Definition wire_change (c : RowChange) : WireRowChange :=
  {| wr_op := diff_op_to_proto (rc_op c); wr_old := to_wire_row <$> rc_old c; wr_new := to_wire_row <$> rc_new c |}.

Lemma to_wire_ok d : resolved d = true -> datum_to_wire d = Ok (to_wire d) /\ wire_to_datum (to_wire d) = d.
Proof.
  intros Hr. pose proof (datum_to_wire_spec d) as Hs. rewrite Hr in Hs. destruct Hs as (w & Hw & Hd & _).
  unfold to_wire. by rewrite Hw.
Qed.

Lemma to_wire_row_ok row :
  forallb resolved row = true -> row_to_wire row = Ok (to_wire_row row) /\ map wire_to_datum (to_wire_row row) = row.
Proof.
  unfold row_to_wire. induction row as [|d row IH]; simpl; [done|].
  intros [Hd Hr]%andb_true_iff. destruct (to_wire_ok d Hd) as [-> Hw]. destruct (IH Hr) as [-> Hws]. simpl.
  by rewrite Hw, Hws.
Qed.

Lemma datum_type_roundtrip t : datum_type_of_i32 (datum_type_i32 t) = t.
Proof. by destruct t. Qed.

Lemma in_column_fits d c :
  resolved d = true -> in_column d c = true -> fits_column (to_wire d) (column_spec_to_proto c).
Proof.
  intros Hr Hc. destruct (to_wire_ok d Hr) as [Hw _]. unfold fits_column. cbn [column_spec_to_proto pc_type pc_nullable].
  rewrite datum_type_roundtrip. unfold in_column, datum_is in Hc.
  destruct d; try done; try (by destruct (cs_datum_type c); simpl in *; auto; done).
  cbn [datum_to_wire] in Hw. unfold to_wire in *. cbn [datum_to_wire] in *.
  match type of Hw with exec_bind ?m _ = _ => destruct m as [ws|e|] end; cbn [exec_bind] in *; try done.
  destruct (cs_datum_type c); simpl in *; auto; done.
Qed.

Lemma sendable_conforms s row : sendable s row -> conforms (schema_to_proto s) (to_wire_row row).
Proof.
  intros [_ Hr Ht]. unfold conforms, to_wire_row. cbn [schema_to_proto ps_columns].
  induction Ht as [|d c row cols Hd _ IH]; simpl in *; [constructor|].
  apply andb_true_iff in Hr as [Hr1 Hr]. constructor; [by apply in_column_fits | by apply IH].
Qed.

Section Decode.
Context `{Bincode}.

Lemma encode_decode s rows :
  Forall (sendable s) rows ->
  exists bs, encode_rows rows = Ok bs /\ wire_decode_rows bs = Ok (map to_wire_row rows) /\
    validate_rows (map to_wire_row rows) (schema_to_proto s) = Ok tt.
Proof.
  intros Hall.
  assert (forallb (forallb datum_fits) rows = true /\ forallb (forallb resolved) rows = true) as [Hf Hr].
  { induction Hall as [|r rows [? ? _] _ [IH1 IH2]]; simpl; [done|]. by rewrite !andb_true_iff. }
  destruct (encode_rows_ok rows Hf Hr) as (bs & ws & He & Hm & _ & Hd). exists bs. split; [done|].
  assert (ws = map to_wire_row rows) as ->.
  { apply exec_mapM_ok in Hm. clear He Hd Hf Hall. induction Hm as [|r w rows ws Hw _ IH]; [done|]. simpl in *.
    apply andb_true_iff in Hr as [Hr1 Hr]. rewrite <- (IH Hr). f_equal.
    destruct (to_wire_row_ok r Hr1) as [Hw' _]. congruence. }
  split; [done|]. destruct (validate_rows_spec (map to_wire_row rows) (schema_to_proto s)) as [(e & _ & Hn)|[? _]]; [|done].
  exfalso. apply Hn. rewrite Forall_map. eapply Forall_impl; [exact Hall|]. apply sendable_conforms.
Qed.

Definition image_sendable (s : SchemaDefinition) (r : option Row) : Prop :=
  match r with Some row => sendable s row | None => True end.
Definition change_sendable (s : SchemaDefinition) (c : RowChange) : Prop :=
  image_sendable s (rc_old c) /\ image_sendable s (rc_new c).

Lemma image_decodes s r :
  image_sendable s r -> exists bs, encode_image r = Ok bs /\
    decode_optional_single_row bs (schema_to_proto s) = Ok (to_wire_row <$> r).
Proof.
  destruct r as [row|]; intros Hr; [|by exists None]. simpl in Hr.
  destruct (encode_decode s [row]) as (bs & He & Hd & Hv); [by constructor|]. exists (Some bs).
  unfold encode_image, encode_row. rewrite He. split; [done|]. simpl. rewrite Hd. cbn [exec_bind map] in *.
  by rewrite Hv.
Qed.

Lemma change_decodes s c :
  change_sendable s c -> exists p, encode_transaction_change c = Some p /\
    decode_row_change p (schema_to_proto s) = Ok (wire_change c).
Proof.
  intros [Ho Hn]. destruct (image_decodes s _ Ho) as (o & Eo & Do), (image_decodes s _ Hn) as (n & En & Dn).
  unfold encode_transaction_change. rewrite Eo, En. simpl. eexists. split; [reflexivity|].
  unfold decode_row_change. cbn [pr_old_row pr_new_row pr_op]. rewrite Do, Dn. simpl. unfold wire_change.
  by destruct (rc_op c).
Qed.

Lemma changes_decode s cs :
  Forall (change_sendable s) cs -> exists ps, encode_transaction_changes cs = Some ps /\
    exec_mapM (fun p => decode_row_change p (schema_to_proto s)) ps = Ok (map wire_change cs).
Proof.
  unfold encode_transaction_changes. induction 1 as [|c cs Hc _ (ps & IH & Hd)]; simpl; [by exists []|].
  destruct (change_decodes s c Hc) as (p & -> & Hp). simpl. rewrite IH. simpl. eexists. split; [reflexivity|].
  simpl. by rewrite Hp, Hd.
Qed.

(** A snapshot or transaction event whose rows fit the schema is encoded to a message that a
    client holding the schema decodes to the wire form of the same rows and changes, with the same
    subscription and LSN; a resync reason survives the trip. *)
Theorem messages_decode sub s reg event :
  reg !! schema_id s = Some (schema_to_proto s) ->
  match event with
  | Ev_Initial lsn rows =>
      Forall (sendable s) rows ->
      exists m, diff_event_to_message sub (schema_id s) event = Some (SM_Diff m) /\
        df_subscription_id m = sub /\ df_lsn m = lsn /\ diff_op_of_i32 (df_op m) = PO_Initial /\
        registry_decode reg m = Ok (map to_wire_row rows)
  | Ev_TransactionUpdate _ _ commit_lsn _ changes =>
      Forall (change_sendable s) changes ->
      exists m, diff_event_to_message sub (schema_id s) event = Some (SM_TransactionUpdate m) /\
        tu_subscription_id m = sub /\ tu_commit_lsn m = commit_lsn /\
        registry_decode_transaction reg m = Ok (map wire_change changes)
  | Ev_Resync reason =>
      exists m, diff_event_to_message sub (schema_id s) event = Some (SM_Resync m) /\
        rsy_subscription_id m = sub /\ resync_reason_of_i32 (rsy_reason m) = resync_reason_to_proto reason
  | Ev_Update _ _ => True
  end.
Proof.
  intros Hreg. destruct event as [lsn rows|lsn cs|t b c e cs|reason]; [intros Hs | done | intros Hs | ].
  - destruct (encode_decode s rows Hs) as (bs & He & Hd & Hv). simpl. rewrite He. simpl.
    eexists. split; [reflexivity|]. repeat split. unfold registry_decode, decode_diff. simpl.
    rewrite Hreg. simpl. rewrite Hd. simpl. by rewrite Hv.
  - destruct (changes_decode s cs Hs) as (ps & He & Hd). simpl. rewrite He. simpl.
    eexists. split; [reflexivity|]. repeat split. unfold registry_decode_transaction, decode_transaction_update. simpl.
    rewrite Hreg. simpl. by rewrite Hd.
  - simpl. eexists. split; [reflexivity|]. split; [done|]. by destruct reason.
Qed.
End Decode.
