(* ===== verification/Client.v ===== *)
(** * Client: the connection manager and the primary-key cache
    ([crates/palimpsest-client/src/cache.rs], [connection.rs], [reconnect.rs])

    [ConnectionTask] handles one message or command at a time; its handlers are
    functions on its state. The transport and the timer are left out: a handler
    returns the message it sends, and the events it hands to a subscriber are
    appended to [ss_events]. The cache is shared with the subscriber, who only
    reads it. *)

From Stdlib Require Import Sorted.
From S2P Require Import Prelude Text Values ProtoWire Transport.

(** ** The cache *)

Abbreviation PrimaryKey := (list WireDatum).

Record LocalCache := { lc_pk_columns : list nat; lc_rows : gmap PrimaryKey WireRow }.

Definition cache_default : LocalCache := {| lc_pk_columns := []; lc_rows := ∅ |}.
Definition cache_for_schema (schema : Schema) : LocalCache :=
  {| lc_pk_columns := map Z.to_nat (ps_primary_key_columns schema); lc_rows := ∅ |}.

(** [key] of a row: the columns that exist. *)
Definition row_key (pk : list nat) (row : WireRow) : PrimaryKey := filter_map (fun idx => row !! idx) pk.
Definition cache_key (c : LocalCache) (row : WireRow) : PrimaryKey := row_key (lc_pk_columns c) row.

Definition cache_insert (c : LocalCache) (row : WireRow) : LocalCache :=
  {| lc_pk_columns := lc_pk_columns c; lc_rows := <[cache_key c row := row]> (lc_rows c) |}.
Definition cache_remove (c : LocalCache) (row : WireRow) : LocalCache :=
  {| lc_pk_columns := lc_pk_columns c; lc_rows := delete (cache_key c row) (lc_rows c) |}.

Definition cache_apply (c : LocalCache) (op : ProtoDiffOp) (rows : list WireRow) : LocalCache :=
  match op with
  | PO_Initial | PO_Insert | PO_Update => fold_left cache_insert rows c
  | PO_Delete => fold_left cache_remove rows c
  | PO_Unspecified => c
  end.

(** [if let Some(row) = image { .. }]. *)
Definition on_image (f : LocalCache -> WireRow -> LocalCache) (image : option WireRow) (c : LocalCache) : LocalCache :=
  match image with Some row => f c row | None => c end.

Definition cache_change (c : LocalCache) (change : WireRowChange) : LocalCache :=
  match wr_op change with
  | PO_Initial | PO_Insert => on_image cache_insert (wr_new change) c
  | PO_Update => on_image cache_insert (wr_new change) (on_image cache_remove (wr_old change) c)
  | PO_Delete => on_image cache_remove (wr_old change) c
  | PO_Unspecified => c
  end.
Definition cache_apply_transaction (c : LocalCache) (changes : list WireRowChange) : LocalCache :=
  fold_left cache_change changes c.

Definition cache_get (c : LocalCache) (key : PrimaryKey) : option WireRow := lc_rows c !! key.
Definition cache_len (c : LocalCache) : nat := size (lc_rows c).

(** ** Backoff *)

(** A [Duration] is its nanoseconds; the seconds are a [u64]. *)
Definition DURATION_MAX : Z := (2 ^ 64 - 1) * 10 ^ 9 + 999999999.

Record BackoffConfig := { bo_initial : Z; bo_max : Z; bo_factor : Z }.
Record Backoff := { bk_current : Z; bk_max : Z; bk_factor : Z }.

Definition backoff_default : BackoffConfig :=
  {| bo_initial := 50 * 10 ^ 6; bo_max := 5 * 10 ^ 9; bo_factor := 2 |}.
Definition schedule (c : BackoffConfig) : Backoff :=
  {| bk_current := bo_initial c; bk_max := bo_max c; bk_factor := bo_factor c |}.

(** [next_delay]: multiplying a duration panics on overflow. *)
Definition next_delay (b : Backoff) : exec unit (Z * Backoff) :=
  if DURATION_MAX <? bk_current b * bk_factor b then Panic
  else Ok (bk_current b, {| bk_current := Z.min (bk_current b * bk_factor b) (bk_max b);
                            bk_max := bk_max b; bk_factor := bk_factor b |}).
Definition backoff_reset (b : Backoff) (initial : Z) : Backoff :=
  {| bk_current := initial; bk_max := bk_max b; bk_factor := bk_factor b |}.

(** ** The connection manager *)

Inductive VarValue :=
| VV_Bool (b : bool) | VV_Int (z : Z) | VV_Float (bits : Z) | VV_String (s : string) | VV_Bytes (bs : list byte)
| VV_Null (b : bool) | VV_List (l : list VarValue) | VV_Unset.

Inductive QuerySpec := Q_Sql (sql : string) | Q_Named (name : string).

(** The text of a transport or gRPC failure is left out. *)
Inductive ClientError :=
| CL_Endpoint (s : string) | CL_Transport | CL_Grpc | CL_ConnectionClosed | CL_Codec (e : CodecError)
| CL_EmptyServerMessage | CL_UnacceptedSubscription (s : string) | CL_InvalidRequest (s : string).

(** The events of a subscription ([subscription.rs]). *)
Inductive ClientEvent :=
| CEv_Accepted (schema_id snapshot_lsn : Z) (schema : Schema)
| CEv_Diff (lsn : Z) (op : ProtoDiffOp) (rows : list WireRow)
| CEv_Transaction (commit_lsn : Z) (begin_lsn end_lsn transaction_id : option Z) (changes : list WireRowChange)
| CEv_Resync (reason : ProtoResyncReason) (message : string)
| CEv_Error (code message : string).

Record SubState := {
  ss_query : QuerySpec;
  ss_vars : gmap string VarValue;
  ss_events : list (ClientEvent + ClientError);
  ss_cache : option LocalCache;
  ss_schema_id : option Z;
  ss_last_seen_lsn : Z;
  ss_last_acked_lsn : option Z
}.

Record ConnectionTask := { ct_state : gmap string SubState; ct_registry : SchemaRegistry }.
Definition connection_new : ConnectionTask := {| ct_state := ∅; ct_registry := ∅ |}.

Definition with_sub (t : ConnectionTask) (id : string) (s : SubState) : ConnectionTask :=
  {| ct_state := <[id := s]> (ct_state t); ct_registry := ct_registry t |}.

(** A subscription with new cache, LSN and schema, after one more event. *)
Definition sub_after (s : SubState) (cache : option LocalCache) (schema_id : option Z) (lsn : Z)
    (event : ClientEvent + ClientError) : SubState :=
  {| ss_query := ss_query s; ss_vars := ss_vars s; ss_events := ss_events s ++ [event]; ss_cache := cache;
     ss_schema_id := schema_id; ss_last_seen_lsn := lsn; ss_last_acked_lsn := ss_last_acked_lsn s |}.
(** [let _ = sub.events_tx.send(event)]. *)
Definition sub_event (s : SubState) (event : ClientEvent + ClientError) : SubState :=
  sub_after s (ss_cache s) (ss_schema_id s) (ss_last_seen_lsn s) event.

(** [fail]. *)
Definition sub_fail (t : ConnectionTask) (id : string) (e : ClientError) : ConnectionTask :=
  match ct_state t !! id with
  | Some s => with_sub t id (sub_event s (inr e))
  | None => t
  end.

Definition handle_accepted (t : ConnectionTask) (m : Accepted) : ConnectionTask :=
  match ac_schema m with
  | None => sub_fail t (ac_subscription_id m) CL_EmptyServerMessage
  | Some schema =>
      let t' := {| ct_state := ct_state t; ct_registry := registry_register (ct_registry t) (ac_schema_id m) schema |} in
      match ct_state t !! ac_subscription_id m with
      | None => t'
      | Some s =>
          with_sub t' (ac_subscription_id m)
            (sub_after s ((fun _ => cache_for_schema schema) <$> ss_cache s) (Some (ac_schema_id m)) (ss_last_seen_lsn s)
               (inl (CEv_Accepted (ac_schema_id m) (ac_snapshot_lsn m) schema)))
      end
  end.

(** [lsn <= sub.last_seen_lsn && sub.last_seen_lsn > 0]. *)
Definition replayed (s : SubState) (lsn : Z) : bool := (lsn <=? ss_last_seen_lsn s) && (0 <? ss_last_seen_lsn s).

Section Handlers.
Context `{Bincode}.

Definition handle_diff (t : ConnectionTask) (m : Diff) : ConnectionTask :=
  match ct_state t !! df_subscription_id m with
  | None => t
  | Some s =>
      if replayed s (df_lsn m) then t
      else
        match registry_decode (ct_registry t) m with
        | Ok rows =>
            let op := diff_op_of_i32 (df_op m) in
            with_sub t (df_subscription_id m)
              (sub_after s ((fun c => cache_apply c op rows) <$> ss_cache s) (ss_schema_id s) (df_lsn m)
                 (inl (CEv_Diff (df_lsn m) op rows)))
        | Err e => with_sub t (df_subscription_id m) (sub_event s (inr (CL_Codec e)))
        | Panic => t
        end
  end.

Definition handle_transaction_update (t : ConnectionTask) (m : TransactionUpdate) : ConnectionTask :=
  match ct_state t !! tu_subscription_id m with
  | None => t
  | Some s =>
      if replayed s (tu_commit_lsn m) then t
      else
        match registry_decode_transaction (ct_registry t) m with
        | Ok changes =>
            with_sub t (tu_subscription_id m)
              (sub_after s ((fun c => cache_apply_transaction c changes) <$> ss_cache s) (ss_schema_id s) (tu_commit_lsn m)
                 (inl (CEv_Transaction (tu_commit_lsn m) (tu_begin_lsn m) (tu_end_lsn m) (tu_transaction_id m) changes)))
        | Err e => with_sub t (tu_subscription_id m) (sub_event s (inr (CL_Codec e)))
        | Panic => t
        end
  end.

Definition handle_resync (t : ConnectionTask) (m : Resync) : ConnectionTask :=
  match ct_state t !! rsy_subscription_id m with
  | None => t
  | Some s =>
      with_sub t (rsy_subscription_id m)
        (sub_after s ((fun _ => cache_default) <$> ss_cache s) (ss_schema_id s) 0
           (inl (CEv_Resync (resync_reason_of_i32 (rsy_reason m)) (rsy_message m))))
  end.

Definition handle_error (t : ConnectionTask) (m : ErrorMessage) : ConnectionTask :=
  match ct_state t !! em_subscription_id m with
  | None => t
  | Some s => with_sub t (em_subscription_id m) (sub_event s (inl (CEv_Error (em_code m) (em_message m))))
  end.

(** [dispatch_server]; [None] is a message without a kind. *)
Definition dispatch_server (t : ConnectionTask) (msg : option ServerKind) : ConnectionTask :=
  match msg with
  | None => t
  | Some (SM_Accepted m) => handle_accepted t m
  | Some (SM_Diff m) => handle_diff t m
  | Some (SM_TransactionUpdate m) => handle_transaction_update t m
  | Some (SM_Resync m) => handle_resync t m
  | Some (SM_Error m) => handle_error t m
  end.
End Handlers.

(** ** Commands *)

Inductive Command :=
| Cmd_Subscribe (subscription_id : string) (query : QuerySpec) (vars : gmap string VarValue) (cache : option LocalCache)
| Cmd_Update (subscription_id : string) (vars : gmap string VarValue)
| Cmd_Unsubscribe (subscription_id : string)
| Cmd_Ack (subscription_id : string) (lsn : Z)
| Cmd_Shutdown.

Inductive ClientMessage :=
| CM_Subscribe (client_subscription_id sql : string) (vars : gmap string VarValue) (resume_lsn : option Z)
    (query_name : string)
| CM_Update (subscription_id : string) (vars : gmap string VarValue)
| CM_Unsubscribe (subscription_id : string)
| CM_Ack (subscription_id : string) (lsn : Z).

Definition client_subscribe (subscription_id : string) (s : SubState) (resume_lsn : option Z) : ClientMessage :=
  match ss_query s with
  | Q_Sql sql => CM_Subscribe subscription_id sql (ss_vars s) resume_lsn ""
  | Q_Named name => CM_Subscribe subscription_id "" (ss_vars s) resume_lsn name
  end.

(** [handle_command]: the state and the message sent, if any; whether the
    transport is still alive is not known here. *)
Definition handle_command (t : ConnectionTask) (cmd : Command) : ConnectionTask * option ClientMessage :=
  match cmd with
  | Cmd_Shutdown => (t, None)
  | Cmd_Subscribe id query vars cache =>
      let s := {| ss_query := query; ss_vars := vars; ss_events := []; ss_cache := cache; ss_schema_id := None;
                  ss_last_seen_lsn := 0; ss_last_acked_lsn := None |} in
      (with_sub t id s, Some (client_subscribe id s None))
  | Cmd_Update id vars =>
      let set_vars s := {| ss_query := ss_query s; ss_vars := vars; ss_events := ss_events s; ss_cache := ss_cache s;
                           ss_schema_id := ss_schema_id s; ss_last_seen_lsn := ss_last_seen_lsn s;
                           ss_last_acked_lsn := ss_last_acked_lsn s |} in
      ({| ct_state := alter set_vars id (ct_state t); ct_registry := ct_registry t |}, Some (CM_Update id vars))
  | Cmd_Unsubscribe id =>
      let registry' := match ct_state t !! id with
                       | Some s => match ss_schema_id s with
                                   | Some schema_id => registry_forget (ct_registry t) schema_id
                                   | None => ct_registry t
                                   end
                       | None => ct_registry t
                       end in
      ({| ct_state := delete id (ct_state t); ct_registry := registry' |}, Some (CM_Unsubscribe id))
  | Cmd_Ack id lsn =>
      let set_acked s := {| ss_query := ss_query s; ss_vars := ss_vars s; ss_events := ss_events s;
                            ss_cache := ss_cache s; ss_schema_id := ss_schema_id s;
                            ss_last_seen_lsn := ss_last_seen_lsn s;
                            ss_last_acked_lsn := Some (match ss_last_acked_lsn s with
                                                       | Some prev => Z.max prev lsn | None => lsn end) |} in
      ({| ct_state := alter set_acked id (ct_state t); ct_registry := ct_registry t |}, Some (CM_Ack id lsn))
  end.

(** The subscribe messages sent after a reconnect, one per subscription. *)
Definition resubscribe (t : ConnectionTask) : gmap string ClientMessage :=
  map_imap (fun id s => Some (client_subscribe id s (ss_last_acked_lsn s))) (ct_state t).

(** [fail_all]: every subscription is dropped; the notice each one gets is a
    [try_send]. *)
Definition fail_all (t : ConnectionTask) : ConnectionTask := {| ct_state := ∅; ct_registry := ct_registry t |}.

(** ** The reconnect loop of [run] *)

Inductive ConnectionState :=
| CS_Connecting | CS_Connected | CS_Reconnecting (attempt delay_ms : Z) | CS_Closed (reason : string).

(** One [RunOutcome::Reconnect]: the attempt count, the state published and the
    backoff left. [u64::try_from(delay.as_millis()).unwrap_or(u64::MAX)]. *)
Definition reconnect_step (published : ConnectionState) (attempt : Z) (b : Backoff)
  : exec unit (Z * ConnectionState * Backoff) :=
  let attempt0 := match published with CS_Connected => 0 | _ => attempt end in
  let? (delay, b') := next_delay b in
  let attempt1 := saturating_add (2 ^ 32 - 1) attempt0 1 in
  Ok (attempt1, CS_Reconnecting attempt1 (Z.min U64_MAX (delay / 10 ^ 6)), b').

(** ** Backoff follows the clamped geometric schedule *)

Fixpoint delays (n : nat) (b : Backoff) : exec unit (list Z) :=
  match n with
  | O => Ok []
  | S n' => let? (d, b') := next_delay b in let? ds := delays n' b' in Ok (d :: ds)
  end.

Lemma clamp_step i f m k : 0 <= i -> 1 <= f -> 0 <= m -> 0 <= k ->
  Z.min (Z.min (i * f ^ k) m * f) m = Z.min (i * f ^ (k + 1)) m.
Proof.
  intros Hi Hf Hm Hk. rewrite Z.pow_add_r, Z.pow_1_r, Z.mul_assoc by lia.
  assert (0 <= i * f ^ k) by (apply Z.mul_nonneg_nonneg; [lia | apply Z.pow_nonneg; lia]).
  destruct (Z.le_gt_cases (i * f ^ k) m) as [Hle|Hgt]; [by rewrite (Z.min_l (i * f ^ k)) by lia|].
  rewrite (Z.min_r (i * f ^ k)) by lia. rewrite !Z.min_r; nia.
Qed.

(** The n-th reconnect delay is the initial delay times the factor to the n, clamped to the
    maximum, and computing it never overflows when the maximum times the factor fits a duration. *)
Theorem backoff_schedule cfg n :
  0 <= bo_initial cfg <= bo_max cfg -> 1 <= bo_factor cfg -> bo_max cfg * bo_factor cfg <= DURATION_MAX ->
  exists ds, delays n (schedule cfg) = Ok ds /\ length ds = n /\
    forall i d, ds !! i = Some d -> d = Z.min (bo_initial cfg * bo_factor cfg ^ Z.of_nat i) (bo_max cfg).
Proof.
  intros Hi Hf Hm.
  assert (forall k, 0 <= k -> exists ds,
    delays n {| bk_current := Z.min (bo_initial cfg * bo_factor cfg ^ k) (bo_max cfg); bk_max := bo_max cfg;
                bk_factor := bo_factor cfg |} = Ok ds /\ length ds = n /\
    forall i d, ds !! i = Some d -> d = Z.min (bo_initial cfg * bo_factor cfg ^ (k + Z.of_nat i)) (bo_max cfg)) as Hgen.
  { induction n as [|n IH]; intros k Hk; [by exists []|]. simpl. unfold next_delay. cbn [bk_current bk_factor bk_max].
    assert (0 <= bo_initial cfg * bo_factor cfg ^ k) by (apply Z.mul_nonneg_nonneg; [lia | apply Z.pow_nonneg; lia]).
    assert ((DURATION_MAX <? Z.min (bo_initial cfg * bo_factor cfg ^ k) (bo_max cfg) * bo_factor cfg) = false) as ->
      by (apply Z.ltb_ge; nia).
    simpl. rewrite clamp_step by lia. destruct (IH (k + 1)) as (ds & -> & Hl & Hd); [lia|]. simpl.
    eexists. split; [reflexivity|]. simpl. split; [lia|]. intros [|i] d Hx.
    - injection Hx as <-. by rewrite Z.add_0_r.
    - rewrite (Hd i d Hx). do 2 f_equal. f_equal. lia. }
  destruct (Hgen 0) as (ds & Hds & Hl & Hd); [lia|]. exists ds. rewrite Z.mul_1_r, Z.min_l in Hds by lia.
  split; [done|]. split; [done|]. exact Hd.
Qed.

(** ** The invariant of a connection *)

(** The LSNs delivered to a subscriber since the last resync, oldest first. *)
Definition session_step (acc : list Z) (e : ClientEvent + ClientError) : list Z :=
  match e with
  | inl (CEv_Diff lsn _ _) | inl (CEv_Transaction lsn _ _ _ _) => acc ++ [lsn]
  | inl (CEv_Resync _ _) => []
  | _ => acc
  end.
Definition session (events : list (ClientEvent + ClientError)) : list Z := fold_left session_step events [].

(** [b] may follow [a]: a delivery never repeats or precedes the one before it;
    LSN 0 does not count as a position. *)
Definition may_follow (a b : Z) : Prop := a = 0 \/ a < b.

Definition cache_wf (c : LocalCache) : Prop := forall k row, lc_rows c !! k = Some row -> cache_key c row = k.

Record sub_wf (s : SubState) : Prop := {
  sbw_seen : ss_last_seen_lsn s = default 0 (last (session (ss_events s)));
  sbw_lsns : Forall (Z.le 0) (session (ss_events s));
  sbw_order : Sorted may_follow (session (ss_events s));
  sbw_cache : forall c, ss_cache s = Some c -> cache_wf c
}.

Lemma session_snoc es e : session (es ++ [e]) = session_step (session es) e.
Proof. unfold session. by rewrite fold_left_app. Qed.

Lemma Sorted_snoc {A} (R : A -> A -> Prop) l x :
  Sorted R l -> (forall y, last l = Some y -> R y x) -> Sorted R (l ++ [x]).
Proof.
  induction l as [|a l IH]; intros Hs Hl; [by repeat constructor|].
  inversion Hs as [|? ? Hs' Hd]; subst. simpl. constructor.
  - apply IH; [done|]. intros y Hy. apply Hl. by destruct l.
  - destruct l as [|b l]; simpl; constructor; [by apply Hl|]. by inversion Hd.
Qed.

Lemma cache_insert_wf c row : cache_wf c -> cache_wf (cache_insert c row).
Proof.
  intros Hc k r. unfold cache_insert, cache_key in *. cbn [lc_rows lc_pk_columns].
  intros [[<- <-]|[_ Hr]]%lookup_insert_Some; [done|]. by apply Hc.
Qed.
Lemma cache_remove_wf c row : cache_wf c -> cache_wf (cache_remove c row).
Proof. intros Hc k r. cbn. intros [_ Hr]%lookup_delete_Some. by apply Hc. Qed.

#[export] Hint Resolve cache_insert_wf cache_remove_wf : palimpsest.

Lemma fold_cache_wf {A} (f : LocalCache -> A -> LocalCache) l c :
  (forall c a, cache_wf c -> cache_wf (f c a)) -> cache_wf c -> cache_wf (fold_left f l c).
Proof. intros Hf. revert c. induction l as [|a l IH]; simpl; auto. Qed.

Lemma cache_change_wf c ch : cache_wf c -> cache_wf (cache_change c ch).
Proof.
  intros Hc. unfold cache_change, on_image.
  destruct (wr_op ch), (wr_old ch), (wr_new ch); auto with palimpsest.
Qed.

Lemma cache_apply_wf c op rows : cache_wf c -> cache_wf (cache_apply c op rows).
Proof. destruct op; simpl; auto; intros; apply fold_cache_wf; auto with palimpsest. Qed.

Lemma cache_empty_wf pk : cache_wf {| lc_pk_columns := pk; lc_rows := ∅ |}.
Proof. intros k r. cbn. by rewrite lookup_empty. Qed.

#[export] Hint Resolve cache_change_wf cache_apply_wf cache_empty_wf : palimpsest.

Section Invariant.
Context `{Bincode}.

(** What the manager reacts to. *)
Inductive client_input := In_Server (msg : option ServerKind) | In_Command (cmd : Command).

Definition client_step (t : ConnectionTask) (i : client_input) : ConnectionTask :=
  match i with
  | In_Server msg => dispatch_server t msg
  | In_Command cmd => (handle_command t cmd).1
  end.

(** LSNs are unsigned; a subscription starts with the default cache or none. *)
Definition input_ok (i : client_input) : Prop :=
  match i with
  | In_Server (Some (SM_Diff m)) => 0 <= df_lsn m
  | In_Server (Some (SM_TransactionUpdate m)) => 0 <= tu_commit_lsn m
  | In_Command (Cmd_Subscribe _ _ _ (Some c)) => c = cache_default
  | _ => True
  end.

Definition task_wf (t : ConnectionTask) : Prop := map_Forall (fun _ s => sub_wf s) (ct_state t).

(** An event that carries no LSN leaves the session as it was. *)
Definition silent (e : ClientEvent + ClientError) : bool :=
  match e with inl (CEv_Diff _ _ _ | CEv_Transaction _ _ _ _ _ | CEv_Resync _ _) => false | _ => true end.

Lemma sub_silent_wf s cache id e :
  sub_wf s -> silent e = true -> (forall c, cache = Some c -> cache_wf c) ->
  sub_wf (sub_after s cache id (ss_last_seen_lsn s) e).
Proof.
  intros [Hs Hn Ho _] He Hc.
  assert (session (ss_events s ++ [e]) = session (ss_events s)) as E
    by (rewrite session_snoc; destruct e as [[]|]; done).
  split; cbn [ss_last_seen_lsn sub_after ss_events ss_cache]; rewrite ?E; done.
Qed.

Lemma sub_deliver_wf s cache id lsn e :
  sub_wf s -> session_step (session (ss_events s)) e = session (ss_events s) ++ [lsn] ->
  0 <= lsn -> replayed s lsn = false -> (forall c, cache = Some c -> cache_wf c) ->
  sub_wf (sub_after s cache id lsn e).
Proof.
  intros [Hs Hn Ho _] He Hl Hr Hc. unfold replayed in Hr. 
  split; cbn [ss_last_seen_lsn sub_after ss_events ss_cache]; rewrite ?session_snoc, ?He; try done.
  - by rewrite last_snoc.
  - apply Forall_app. auto.
  - apply Sorted_snoc; [done|]. intros y Hy. rewrite Hy in Hs. simpl in Hs. rewrite Hs in Hr. unfold may_follow.
    assert (0 <= y); [|lia]. rewrite last_lookup in Hy. by eapply Forall_lookup_1.
Qed.

Lemma with_sub_wf t id s : task_wf t -> sub_wf s -> task_wf (with_sub t id s).
Proof. intros Ht Hs. by apply map_Forall_insert_2. Qed.

Lemma alter_wf t (f : SubState -> SubState) id r :
  task_wf t -> (forall s, sub_wf s -> sub_wf (f s)) ->
  task_wf {| ct_state := alter f id (ct_state t); ct_registry := r |}.
Proof.
  intros Ht Hf i s. cbn. destruct (decide (i = id)) as [->|Hne].
  - rewrite lookup_alter_eq. intros (s0 & Hs & ->)%fmap_Some. by apply Hf, (Ht id).
  - rewrite lookup_alter_ne by done. apply Ht.
Qed.

Lemma dispatch_wf t msg : task_wf t -> input_ok (In_Server msg) -> task_wf (dispatch_server t msg).
Proof.
  intros Ht Hi. destruct msg as [[m|m|m|m|m]|]; [..|done]; simpl in *.
  - unfold handle_accepted, sub_fail. destruct (ac_schema m) as [sc|].
    + destruct (ct_state t !! _) as [s|] eqn:Hs; [|done]. apply with_sub_wf; [done|].
      apply sub_silent_wf; [by eapply Ht | done|]. intros c (? & _ & ->)%fmap_Some. apply cache_empty_wf.
    + destruct (ct_state t !! _) as [s|] eqn:Hs; [|done]. apply with_sub_wf; [done|].
      apply sub_silent_wf; [by eapply Ht | done|]. by apply sbw_cache, (Ht _ _ Hs).
  - unfold handle_diff. destruct (ct_state t !! _) as [s|] eqn:Hs; [|done]. destruct (replayed s _) eqn:Hr; [done|].
    pose proof (Ht _ _ Hs) as Hw. destruct (registry_decode _ m) as [rows|e|]; [| |done]; apply with_sub_wf; try done.
    + apply sub_deliver_wf; try done. intros c (c0 & Hc & ->)%fmap_Some. by apply cache_apply_wf, (sbw_cache _ Hw).
    + apply sub_silent_wf; try done. by apply sbw_cache.
  - unfold handle_resync. destruct (ct_state t !! _) as [s|] eqn:Hs; [|done]. apply with_sub_wf; [done|].
    split; cbn [ss_last_seen_lsn sub_after ss_events ss_cache]; rewrite ?session_snoc; try done; try constructor.
    intros c (? & _ & ->)%fmap_Some. apply cache_empty_wf.
  - unfold handle_error. destruct (ct_state t !! _) as [s|] eqn:Hs; [|done]. apply with_sub_wf; [done|].
    apply sub_silent_wf; [by eapply Ht | done|]. by apply sbw_cache, (Ht _ _ Hs).
  - unfold handle_transaction_update. destruct (ct_state t !! _) as [s|] eqn:Hs; [|done].
    destruct (replayed s _) eqn:Hr; [done|]. pose proof (Ht _ _ Hs) as Hw.
    destruct (registry_decode_transaction _ m) as [cs|e|]; [| |done]; apply with_sub_wf; try done.
    + apply sub_deliver_wf; try done. intros c (c0 & Hc & ->)%fmap_Some.
      apply fold_cache_wf; [auto with palimpsest | by apply (sbw_cache _ Hw)].
    + apply sub_silent_wf; try done. by apply sbw_cache.
Qed.

Lemma command_wf t cmd : task_wf t -> input_ok (In_Command cmd) -> task_wf (handle_command t cmd).1.
Proof.
  intros Ht Hi. destruct cmd as [id q v c|id v|id|id lsn|]; simpl; [| | | |done].
  - apply with_sub_wf; [done|]. split; cbn; try constructor. intros c0 ->. simpl in Hi. subst. apply cache_empty_wf.
  - apply alter_wf; [done|]. by intros s [].
  - by apply map_Forall_delete.
  - apply alter_wf; [done|]. by intros s [].
Qed.

(** C38: After any sequence of server messages and commands, for every subscription of a client the
    LSNs delivered since the last resync never repeat or go back once positive, the last seen LSN is
    the last one delivered, and every cached row is stored under its own primary key. *)
Theorem client_invariant inputs id s :
  Forall input_ok inputs ->
  ct_state (fold_left client_step inputs connection_new) !! id = Some s -> sub_wf s.
Proof.
  intros Hi.
  assert (forall t, task_wf t -> task_wf (fold_left client_step inputs t)) as Hall.
  { induction Hi as [|i inputs Hok _ IH]; intros t Ht; simpl; [done|]. apply IH.
    destruct i; [by apply dispatch_wf | by apply command_wf]. }
  apply (Hall connection_new). by apply map_Forall_empty.
Qed.
End Invariant.
