(* ===== verification/EndToEnd.v ===== *)
(** * EndToEnd: the client's cache is the query result

    The path of a change through the program: diffs of a transaction are paired
    by the router ([Pairing]), encoded ([Transport]), decoded and applied by the
    client ([Client]). The theorem says that a subscriber who gets the snapshot
    and then every transaction holds exactly the rows of the query result. *)

From Stdlib Require Import Sorted.
From S2P Require Import Prelude BTree Text Values Literals UserContext Watermarks Registry Channel Cursor Pairing.
From S2P Require Import ProtoWire Transport Client.

(** ** The result as the client should see it *)

(** The primary key of a row, as the client computes it. *)
Definition wire_key (s : SchemaDefinition) (row : Row) : PrimaryKey :=
  row_key (primary_key_columns s) (to_wire_row row).
Definition view (s : SchemaDefinition) (rows : list Row) : gmap PrimaryKey WireRow :=
  list_to_map (map (fun r => (wire_key s r, to_wire_row r)) rows).

(** A row the schema describes, with a value in every key column. *)
Definition keyed_row (s : SchemaDefinition) (row : Row) : Prop :=
  sendable s row /\ Forall (fun i => row !! i <> Some D_Null) (primary_key_columns s).

(** A result set: such rows, no two with the same key. *)
Record result_set (s : SchemaDefinition) (rows : list Row) : Prop := {
  rs_keyed : NoDup (map (wire_key s) rows);
  rs_rows : Forall (keyed_row s) rows
}.

(** A transaction takes one result set to another: what it deletes was there,
    what it inserts is there afterwards. *)
Definition transition (s : SchemaDefinition) (delta : QueryTransactionDelta) (R R' : list Row) : Prop :=
  exists kept, R ≡ₚ map rd_row (deleted (qd_diffs delta)) ++ kept /\
    R' ≡ₚ map rd_row (inserted (qd_diffs delta)) ++ kept /\ result_set s R'.

Inductive history (s : SchemaDefinition) : list Row -> list QueryTransactionDelta -> list Row -> Prop :=
| history_nil R : history s R [] R
| history_cons R delta R1 deltas R2 :
    transition s delta R R1 -> history s R1 deltas R2 -> history s R (delta :: deltas) R2.

(** The router can tell the values of the key columns apart: they are of a type
    [datum_to_key_bytes] encodes. *)
Definition key_type (t : DatumType) : bool :=
  match t with T_Bool | T_I16 | T_I32 | T_I64 | T_Text | T_Bytea | T_Uuid => true | _ => false end.
Definition key_column (s : SchemaDefinition) (i : nat) : Prop :=
  exists c, schema_columns s !! i = Some c /\ key_type (cs_datum_type c) = true /\ Z.of_nat i < 2 ^ 32.
Definition key_schema (s : SchemaDefinition) : Prop := Forall (key_column s) (primary_key_columns s).

(** ** The router's key and the client's key agree *)

Lemma be_fits_inj n w a b :
  w = Z.of_nat n * 8 -> 0 < w -> fits w a = true -> fits w b = true ->
  be_encode n (uint w a) = be_encode n (uint w b) -> a = b.
Proof.
  intros Hw Hp Ha Hb E.
  assert (uint w a = uint w b) as Eu.
  { rewrite <- (be_decode_uint n w a), <- (be_decode_uint n w b) by done. by rewrite E. }
  apply (f_equal (sint w)) in Eu. by rewrite !sint_uint, !sint_fits in Eu.
Qed.

Lemma key_bytes_inj c d d' :
  key_type (cs_datum_type c) = true -> d <> D_Null -> d' <> D_Null ->
  in_column d c = true -> in_column d' c = true -> datum_fits d = true -> datum_fits d' = true ->
  datum_to_key_bytes d = datum_to_key_bytes d' -> d = d'.
Proof.
  intros Hk Hn Hn' Hd Hd' Hf Hf' E. unfold in_column, datum_is in *.
  destruct (cs_datum_type c); try done; destruct d; try done; destruct d'; try done; simpl in *; f_equal; try done.
  - by destruct b, b0.
  - by apply (be_fits_inj 2 16).
  - by apply (be_fits_inj 4 32).
  - by apply (be_fits_inj 8 64).
  - destruct u, u0. by f_equal.
Qed.

Lemma sendable_lookup s row i c :
  sendable s row -> schema_columns s !! i = Some c ->
  exists d, row !! i = Some d /\ in_column d c = true /\ datum_fits d = true /\ resolved d = true.
Proof.
  intros [Hf Hr Ht] Hc. destruct (Forall2_lookup_r _ _ _ _ _ Ht Hc) as (d & Hd & Hi). exists d.
  split; [done|]. split; [done|]. rewrite forallb_forall in Hf, Hr.
  split; [apply Hf | apply Hr]; by apply list_elem_of_In, list_elem_of_lookup_2 with i.
Qed.

Lemma to_wire_inj d d' : resolved d = true -> resolved d' = true -> to_wire d = to_wire d' -> d = d'.
Proof. intros Hd Hd' E. rewrite <- (proj2 (to_wire_ok d Hd)), <- (proj2 (to_wire_ok d' Hd')). by rewrite E. Qed.

Lemma keys_agree s r r' :
  key_schema s -> keyed_row s r -> keyed_row s r' ->
  primary_key_bytes r (primary_key_columns s) = primary_key_bytes r' (primary_key_columns s) <->
  wire_key s r = wire_key s r'.
Proof.
  intros Hk [Hr Hp] [Hr' Hp']. unfold wire_key, row_key, primary_key_bytes, to_wire_row. unfold key_schema in Hk.
  induction Hk as [|i pk (c & Hc & Ht & _) _ IH]; simpl; [done|].
  apply Forall_cons in Hp as [Hn Hp], Hp' as [Hn' Hp']. specialize (IH Hp Hp').
  destruct (sendable_lookup s r i c Hr Hc) as (d & Hd & Hi & Hf & Hs).
  destruct (sendable_lookup s r' i c Hr' Hc) as (d' & Hd' & Hi' & Hf' & Hs').
  rewrite !list_lookup_fmap, Hd, Hd'. simpl. split; intros [= E1 E2].
  - assert (d = d') as -> by (eapply key_bytes_inj; eauto; congruence). f_equal. by apply IH.
  - assert (d = d') as -> by (by apply to_wire_inj). f_equal. by apply IH.
Qed.

(** ** Applying changes that touch distinct keys *)

(** The key a change touches. *)
Definition touched (s : SchemaDefinition) (c : RowChange) : PrimaryKey :=
  match rc_new c, rc_old c with
  | Some r, _ | None, Some r => wire_key s r
  | None, None => []
  end.

(** The images an operation needs, with one key. *)
Definition change_shape (s : SchemaDefinition) (c : RowChange) : Prop :=
  match rc_op c, rc_old c, rc_new c with
  | Op_Insert, None, Some _ | Op_Delete, Some _, None => True
  | Op_Update, Some o, Some n => wire_key s o = wire_key s n
  | _, _, _ => False
  end.

Lemma cache_change_touched s c ch :
  lc_pk_columns c = primary_key_columns s -> change_shape s ch ->
  cache_change c (wire_change ch) =
  {| lc_pk_columns := lc_pk_columns c;
     lc_rows := partial_alter (fun _ => to_wire_row <$> rc_new ch) (touched s ch) (lc_rows c) |}.
Proof.
  intros Hpk Hs. unfold change_shape, touched, wire_key in *. destruct ch as [op o n]; cbn in *.
  destruct op, o as [o|], n as [n|]; try done; unfold cache_change, cache_insert, cache_remove, cache_key; simpl;
    rewrite Hpk, ?Hs; f_equal; apply map_eq; intros k;
    destruct (decide (k = row_key (primary_key_columns s) (to_wire_row n))) as [->|Hne] ||
    destruct (decide (k = row_key (primary_key_columns s) (to_wire_row o))) as [->|Hne];
    rewrite ?lookup_partial_alter_eq, ?lookup_insert_eq, ?lookup_delete_eq; try done;
    rewrite ?lookup_partial_alter_ne, ?lookup_insert_ne, ?lookup_delete_ne by done; done.
Qed.

Lemma apply_changes_lookup s cs : forall c,
  lc_pk_columns c = primary_key_columns s -> Forall (change_shape s) cs -> NoDup (map (touched s) cs) ->
  let c' := cache_apply_transaction c (map wire_change cs) in
  lc_pk_columns c' = lc_pk_columns c /\
  (forall ch, ch ∈ cs -> lc_rows c' !! touched s ch = to_wire_row <$> rc_new ch) /\
  (forall k, k ∉ map (touched s) cs -> lc_rows c' !! k = lc_rows c !! k).
Proof.
  unfold cache_apply_transaction. induction cs as [|ch cs IH]; intros c Hpk Hs Hnd; cbv zeta.
  { simpl. split; [done|]. split; [|done]. by intros ch ?%elem_of_nil. }
  apply Forall_cons in Hs as [Hch Hs]. simpl in Hnd. apply NoDup_cons in Hnd as [Hni Hnd].
  cbn [map fold_left]. rewrite (cache_change_touched s c ch Hpk Hch).
  match goal with |- context [fold_left _ _ ?x] => destruct (IH x Hpk Hs Hnd) as (H1 & H2 & H3) end.
  split; [by rewrite H1|]. split.
  - intros ch' [->|Hin]%elem_of_cons; [|by apply H2]. rewrite H3 by done. cbn. by rewrite lookup_partial_alter_eq.
  - intros k [Hne Hk]%not_elem_of_cons. rewrite H3 by done. cbn. by rewrite lookup_partial_alter_ne.
Qed.

(** ** The changes of a paired transaction touch distinct keys *)

Definition is_delete (c : RowChange) : bool := match rc_op c with Op_Delete => true | _ => false end.

Lemma touched_perm s cs :
  Forall (change_shape s) cs ->
  map (touched s) cs ≡ₚ map (wire_key s) (news cs) ++ map (wire_key s) (olds (List.filter is_delete cs)) /\
  map (wire_key s) (olds cs) ≡ₚ
    map (wire_key s) (olds (List.filter is_delete cs)) ++ map (wire_key s) (news (List.filter is_update cs)).
Proof.
  induction 1 as [|ch cs Hch _ [IH1 IH2]]; [done|]. unfold change_shape, is_delete, is_update, touched, news, olds in *.
  destruct ch as [op o n]; cbn in *. destruct op, o as [o|], n as [n|]; try done; cbn.
  - by rewrite IH1.
  - split; [by rewrite IH1|]. rewrite Hch, IH2. by rewrite Permutation_middle.
  - split; [|by rewrite IH2]. rewrite IH1. by rewrite Permutation_middle.
Qed.

Lemma touched_NoDup s cs :
  Forall (change_shape s) cs ->
  NoDup (map (wire_key s) (news cs)) -> NoDup (map (wire_key s) (olds cs)) ->
  (forall k, k ∈ map (wire_key s) (news cs) -> k ∈ map (wire_key s) (olds cs) ->
     k ∈ map (wire_key s) (news (List.filter is_update cs))) ->
  NoDup (map (touched s) cs).
Proof.
  intros Hs Hn Ho Hu. destruct (touched_perm s cs Hs) as [P1 P2]. rewrite P1. rewrite P2 in Ho.
  apply NoDup_app in Ho as (Hd & Hdu & _). apply NoDup_app. split; [done|]. split; [|done].
  intros k Hk Hk'. apply (Hdu k Hk'). apply Hu; [done|]. rewrite P2. apply elem_of_app. by left.
Qed.

(** ** The changes of a transaction, from the two result sets *)

Lemma in_news c cs n : c ∈ cs -> rc_new c = Some n -> n ∈ news cs.
Proof. intros Hc Hn. apply elem_of_filter_map. eauto. Qed.
Lemma in_olds c cs o : c ∈ cs -> rc_old c = Some o -> o ∈ olds cs.
Proof. intros Hc Ho. apply elem_of_filter_map. eauto. Qed.

(** What pairing gives, in terms of the client's keys. *)
Record paired (s : SchemaDefinition) (delta : QueryTransactionDelta) (cs : list RowChange) : Prop := {
  pd_news : news cs ≡ₚ map rd_row (inserted (qd_diffs delta));
  pd_olds : olds cs ≡ₚ map rd_row (deleted (qd_diffs delta));
  pd_shape : Forall (change_shape s) cs;
  pd_touched : NoDup (map (touched s) cs);
  pd_sendable : Forall (change_sendable s) cs
}.

Lemma transition_paired s delta R R' :
  key_schema s -> result_set s R -> transition s delta R R' ->
  exists cs, @pair_changes RouterError (qd_diffs delta) (primary_key_columns s) = Ok cs /\ paired s delta cs.
Proof.
  intros Hk [HkR HsR] (kept & PR & PR' & [HkR' HsR']).
  destruct (@pair_changes_spec RouterError (qd_diffs delta) (primary_key_columns s)) as (cs & Hp & Pn & Po & Hok & _ & Hu).
  exists cs. split; [done|].
  rewrite PR in HkR, HsR. rewrite PR' in HkR', HsR'. rewrite <- Po in HkR, HsR. rewrite <- Pn in HkR', HsR'.
  apply Forall_app in HsR as [HsO _], HsR' as [HsN _]. rewrite map_app in HkR, HkR'.
  apply NoDup_app in HkR as (HkO & _ & _), HkR' as (HkN & _ & _).
  rewrite Forall_forall in HsO, HsN.
  assert (Forall (change_shape s) cs) as Hshape.
  { apply Forall_forall. intros c Hc. rewrite Forall_forall in Hok. specialize (Hok c Hc).
    unfold change_ok, change_shape in *. destruct (rc_op c), (rc_old c) as [o|] eqn:Ho, (rc_new c) as [n|] eqn:Hn; try done.
    apply keys_agree; eauto using in_news, in_olds. }
  split; try done.
  - apply touched_NoDup; try done. intros k Hkn Hko.
    apply list_elem_of_fmap in Hkn as (n & -> & Hn), Hko as (o & Eo & Ho).
    assert (primary_key_bytes n (primary_key_columns s) ∈ update_keys (primary_key_columns s) cs) as Hin.
    { apply Hu. pose proof Hn as Hn'. pose proof Ho as Ho'. rewrite Pn in Hn'. rewrite Po in Ho'.
      apply list_elem_of_fmap in Hn' as (dn & En & Hdn), Ho' as (d & Ed & Hd). split; [exists dn; by rewrite <- En|].
      exists d. split; [done|]. rewrite <- Ed. symmetry. apply keys_agree; auto. }
    unfold update_keys in Hin. apply elem_of_filter_map in Hin as (c & Hc & E).
    destruct (is_update c) eqn:Hupd; [|done]. apply fmap_Some in E as (n' & Hn' & E).
    apply list_elem_of_fmap. exists n'. split; [apply keys_agree; eauto using in_news|].
    apply in_news with c; [|done]. apply list_elem_of_In, filter_In. split; [by apply list_elem_of_In|done].
  - apply Forall_forall. intros c Hc. split; unfold image_sendable.
    + destruct (rc_old c) eqn:Ho; [|done]. by eapply HsO, in_olds.
    + destruct (rc_new c) eqn:Hn; [|done]. by eapply HsN, in_news.
Qed.

(** ** The view of a result set *)

Lemma view_lookup s rows r :
  NoDup (map (wire_key s) rows) -> r ∈ rows -> view s rows !! wire_key s r = Some (to_wire_row r).
Proof.
  intros Hnd Hr. apply elem_of_list_to_map.
  - by rewrite <- list_fmap_compose.
  - apply list_elem_of_fmap. by exists r.
Qed.

Lemma view_none s rows k : k ∉ map (wire_key s) rows -> view s rows !! k = None.
Proof.
  intros Hk. apply not_elem_of_list_to_map. unfold view. by rewrite <- list_fmap_compose.
Qed.

Lemma keys_perm s R R' : R ≡ₚ R' -> map (wire_key s) R ≡ₚ map (wire_key s) R'.
Proof. intros P. by rewrite P. Qed.

(** Applying the changes to the old view gives the new one. *)
Lemma changes_view s delta cs R R' c :
  result_set s R -> transition s delta R R' -> paired s delta cs ->
  lc_pk_columns c = primary_key_columns s -> lc_rows c = view s R ->
  let c' := cache_apply_transaction c (map wire_change cs) in
  lc_pk_columns c' = primary_key_columns s /\ lc_rows c' = view s R'.
Proof.
  intros [HkR _] (kept & PR & PR' & [HkR' _]) [Pn Po Hshape Hnd _] Hpk Hrows. cbv zeta.
  destruct (apply_changes_lookup s cs c Hpk Hshape Hnd) as (H1 & H2 & H3). cbv zeta in *.
  rewrite <- Po in PR. rewrite <- Pn in PR'. split; [by rewrite H1|]. apply map_eq. intros k.
  assert (forall ch o, ch ∈ cs -> rc_old ch = Some o -> touched s ch = wire_key s o) as Hto.
  { intros ch o Hc Ho. rewrite Forall_forall in Hshape. specialize (Hshape ch Hc). unfold change_shape, touched in *.
    rewrite Ho in *. destruct (rc_op ch), (rc_new ch); done. }
  assert (forall ch n, rc_new ch = Some n -> touched s ch = wire_key s n) as Htn.
  { intros ch n Hn. unfold touched. by rewrite Hn. }
  pose proof (keys_perm s _ _ PR) as KR. pose proof (keys_perm s _ _ PR') as KR'. rewrite map_app in KR, KR'.
  destruct (decide (k ∈ map (wire_key s) (news cs))) as [Hn|Hn].
  { apply list_elem_of_fmap in Hn as (n & -> & Hn). pose proof Hn as (ch & Hc & Hcn)%elem_of_filter_map.
    rewrite <- (Htn ch n Hcn), (H2 ch Hc), Hcn, (Htn ch n Hcn). simpl. symmetry. apply view_lookup; [done|].
    rewrite PR'. apply elem_of_app. by left. }
  destruct (decide (k ∈ map (wire_key s) (olds cs))) as [Ho|Ho].
  { pose proof Ho as (o & -> & (ch & Hc & Hco)%elem_of_filter_map)%list_elem_of_fmap.
    rewrite <- (Hto ch o Hc Hco), (H2 ch Hc), (Hto ch o Hc Hco).
    destruct (rc_new ch) as [n|] eqn:Hcn.
    { exfalso. apply Hn. rewrite <- (Hto ch o Hc Hco), (Htn ch n Hcn). apply list_elem_of_fmap. eauto using in_news. }
    symmetry. apply view_none. rewrite KR'. rewrite KR in HkR. apply NoDup_app in HkR as (_ & Hd & _).
    intros [?|?]%elem_of_app; [done|]. by eapply Hd. }
  rewrite H3, Hrows.
  - destruct (decide (k ∈ map (wire_key s) kept)) as [(r & -> & Hr)%list_elem_of_fmap|Hkept].
    + rewrite !view_lookup; [done|done| |done|]; [rewrite PR' | rewrite PR]; apply elem_of_app; by right.
    + rewrite !view_none; [done| |]; [rewrite KR' | rewrite KR]; by intros [?|?]%elem_of_app.
  - rewrite (proj1 (touched_perm s cs Hshape)). intros [?|Hd]%elem_of_app; [done|]. apply Ho.
    rewrite (proj2 (touched_perm s cs Hshape)). apply elem_of_app. by left.
Qed.

(** ** One transaction *)

(** The client holds the result [R] of the subscription [sub] after [lsn]. *)
Definition holds (s : SchemaDefinition) (sub : string) (R : list Row) (lsn : Z) (t : ConnectionTask) : Prop :=
  ct_registry t !! schema_id s = Some (schema_to_proto s) /\
  exists ss c, ct_state t !! sub = Some ss /\ ss_last_seen_lsn ss = lsn /\ ss_cache ss = Some c /\
    lc_pk_columns c = primary_key_columns s /\ lc_rows c = view s R.

Section Stream.
Context `{Bincode}.

Definition receive (t : ConnectionTask) (msgs : list ServerKind) : ConnectionTask :=
  fold_left (fun t m => dispatch_server t (Some m)) msgs t.

Lemma transaction_received s sub delta R R' lsn t :
  key_schema s -> result_set s R -> transition s delta R R' -> holds s sub R lsn t ->
  lsn < qd_commit_lsn delta ->
  exists event msg, @pair_transaction_into_event RouterError delta (primary_key_columns s) = Ok event /\
    diff_event_to_message sub (schema_id s) event = Some msg /\
    holds s sub R' (qd_commit_lsn delta) (dispatch_server t (Some msg)).
Proof.
  intros Hk HR Htr (Hreg & ss & c & Hs & Hl & Hc & Hpk & Hrows) Hlsn.
  destruct (transition_paired s delta R R' Hk HR Htr) as (cs & Hp & Hpd).
  unfold pair_transaction_into_event. rewrite Hp. cbn [exec_bind].
  destruct (changes_decode s cs (pd_sendable _ _ _ Hpd)) as (ps & He & Hd).
  do 2 eexists. split; [reflexivity|]. split; [cbn [diff_event_to_message]; rewrite He; reflexivity|].
  cbn [dispatch_server]. unfold handle_transaction_update, replayed. cbn [tu_subscription_id tu_commit_lsn].
  rewrite Hs, Hl. assert ((qd_commit_lsn delta <=? lsn) = false) as -> by lia. cbn [andb].
  unfold registry_decode_transaction, decode_transaction_update. cbn [tu_schema_id tu_changes].
  rewrite Hreg. cbn [ok_or exec_bind]. rewrite Hd.
  destruct (changes_view s delta cs R R' c HR Htr Hpd Hpk Hrows) as [H1 H2].
  split; [done|]. eexists _, _. cbn. rewrite lookup_insert_eq, Hc. split; [reflexivity|]. cbn. done.
Qed.

(** ** A whole session *)

(** The events of the transactions, paired by the router. *)
Definition router_events (s : SchemaDefinition) (deltas : list QueryTransactionDelta) : exec RouterError (list DiffEvent) :=
  exec_mapM (fun delta => pair_transaction_into_event delta (primary_key_columns s)) deltas.

(** Commit LSNs increase from [lsn]. *)
Fixpoint increasing (lsn : Z) (deltas : list QueryTransactionDelta) : Prop :=
  match deltas with
  | [] => True
  | d :: deltas' => lsn < qd_commit_lsn d /\ increasing (qd_commit_lsn d) deltas'
  end.

Lemma history_received s sub R deltas R' : forall lsn t,
  history s R deltas R' -> key_schema s -> result_set s R -> holds s sub R lsn t -> increasing lsn deltas ->
  exists events lsn', router_events s deltas = Ok events /\
    holds s sub R' lsn' (receive t (forward sub (schema_id s) events)).
Proof.
  intros lsn t Hh Hk. revert lsn t. induction Hh as [R|R delta R1 deltas R2 Htr _ IH]; intros lsn t HR Ht Hi.
  { exists [], lsn. done. }
  destruct Hi as [Hlt Hi]. destruct (transaction_received s sub delta R R1 lsn t Hk HR Htr Ht Hlt) as (e & m & He & Hm & Ht').
  destruct Htr as (_ & _ & _ & HR1). destruct (IH _ _ HR1 Ht' Hi) as (es & lsn' & Hes & Hr).
  exists (e :: es), lsn'. unfold router_events in *. simpl. rewrite He, Hes. split; [done|].
  unfold receive, forward in *. simpl. by rewrite Hm.
Qed.

Lemma insert_rows_lookup s rows : forall c,
  lc_pk_columns c = primary_key_columns s -> NoDup (map (wire_key s) rows) ->
  let c' := fold_left cache_insert (map to_wire_row rows) c in
  lc_pk_columns c' = lc_pk_columns c /\
  (forall r, r ∈ rows -> lc_rows c' !! wire_key s r = Some (to_wire_row r)) /\
  (forall k, k ∉ map (wire_key s) rows -> lc_rows c' !! k = lc_rows c !! k).
Proof.
  induction rows as [|r rows IH]; intros c Hpk Hnd; cbv zeta.
  { split; [done|]. split; [|done]. by intros r ?%elem_of_nil. }
  simpl in Hnd. apply NoDup_cons in Hnd as [Hni Hnd]. cbn [map fold_left].
  destruct (IH (cache_insert c (to_wire_row r)) Hpk Hnd) as (H1 & H2 & H3).
  assert (cache_key c (to_wire_row r) = wire_key s r) as Hkey by (unfold cache_key, wire_key; by rewrite Hpk).
  split; [by rewrite H1|]. split.
  - intros r' [->|Hr]%elem_of_cons; [|by apply H2]. rewrite H3 by done. cbn. by rewrite Hkey, lookup_insert_eq.
  - intros k [Hne Hk]%not_elem_of_cons. rewrite H3 by done. cbn. by rewrite Hkey, lookup_insert_ne.
Qed.

Lemma schema_key_columns s : key_schema s -> lc_pk_columns (cache_for_schema (schema_to_proto s)) = primary_key_columns s.
Proof.
  unfold key_schema, cache_for_schema, schema_to_proto. cbn. rewrite map_map.
  induction 1 as [|i pk (c & _ & _ & Hi) _ IH]; simpl; [done|]. f_equal; [lia | exact IH].
Qed.

(** The message that accepts a subscription at [lsn]. *)
Definition acceptance (s : SchemaDefinition) (sub : string) (lsn : Z) : ServerKind :=
  SM_Accepted {| ac_subscription_id := sub; ac_schema_id := schema_id s; ac_snapshot_lsn := lsn;
                 ac_schema := Some (schema_to_proto s) |}.

Lemma snapshot_received s sub lsn R t ss c0 :
  key_schema s -> result_set s R ->
  ct_state t !! sub = Some ss -> ss_cache ss = Some c0 -> ss_last_seen_lsn ss = 0 ->
  holds s sub R lsn (receive t (acceptance s sub lsn :: forward sub (schema_id s) [Ev_Initial lsn R])).
Proof.
  intros Hk [Hkey Hrows] Hs Hc Hl.
  assert (Forall (sendable s) R) as Hsend by (eapply Forall_impl; [exact Hrows | by intros r []]).
  destruct (encode_decode s R Hsend) as (bs & He & Hd & Hv).
  unfold receive, forward. cbn [filter_map diff_event_to_message]. rewrite He. cbn [exec_ok mbind option_bind fold_left].
  unfold acceptance, dispatch_server, handle_accepted. cbn [ac_schema ac_subscription_id ac_schema_id].
  rewrite Hs. unfold handle_diff. cbn [df_subscription_id with_sub ct_state ct_registry]. rewrite lookup_insert_eq.
  unfold replayed. cbn [sub_after ss_last_seen_lsn]. rewrite Hl, andb_false_r.
  unfold registry_decode, registry_register, decode_diff. cbn [df_schema_id df_rows]. rewrite lookup_insert_eq.
  cbn [ok_or exec_bind]. rewrite Hd. cbn [exec_bind]. rewrite Hv. cbn [exec_bind].
  change (diff_op_of_i32 (df_op _)) with PO_Initial. rewrite Hc.
  destruct (insert_rows_lookup s R (cache_for_schema (schema_to_proto s)) (schema_key_columns s Hk) Hkey) as (H1 & H2 & H3).
  split; [by cbn; rewrite lookup_insert_eq|]. eexists _, _. cbn [with_sub ct_state df_subscription_id].
  rewrite lookup_insert_eq. split; [reflexivity|].
  split; [done|]. split; [reflexivity|]. split; [cbn [fmap option_fmap option_map cache_apply]; etransitivity; [exact H1 | by apply schema_key_columns]|].
  apply map_eq. intros k. destruct (decide (k ∈ map (wire_key s) R)) as [(r & -> & Hr)%list_elem_of_fmap|Hn].
  - rewrite view_lookup by done. exact (H2 r Hr).
  - rewrite view_none by done. rewrite <- (lookup_empty k). exact (H3 k Hn).
Qed.

(** A subscriber who has just subscribed and receives the acceptance, the snapshot and the event
    of every transaction that takes the query result from one keyed set of rows to the next, paired
    and encoded by the server in commit order, holds in its cache exactly the rows of the final
    result, under their primary keys; pairing never fails. *)
Theorem client_tracks_result s sub lsn R deltas R' t ss c0 :
  key_schema s -> result_set s R -> history s R deltas R' -> increasing lsn deltas ->
  ct_state t !! sub = Some ss -> ss_cache ss = Some c0 -> ss_last_seen_lsn ss = 0 ->
  exists events ss' c', router_events s deltas = Ok events /\
    ct_state (receive t (acceptance s sub lsn :: forward sub (schema_id s) (Ev_Initial lsn R :: events))) !! sub = Some ss' /\
    ss_cache ss' = Some c' /\ lc_rows c' = view s R'.
Proof.
  intros Hk HR Hh Hi Hs Hc Hl. pose proof (snapshot_received s sub lsn R t ss c0 Hk HR Hs Hc Hl) as Ht.
  destruct (history_received s sub R deltas R' lsn _ Hh Hk HR Ht Hi) as (events & lsn' & He & _ & ss' & c' & Hs' & _ & Hc' & _ & Hv).
  exists events, ss', c'. split; [done|]. split; [|done]. rewrite <- Hs'. unfold receive, forward.
  rewrite <- fold_left_app, <- app_comm_cons, <- filter_map_app. done.
Qed.
End Stream.
