(* ===== verification/Reconcile.v ===== *)
(** * Reconcile: optimistic mutations over the server's rows
    ([crates/palimpsest-client/src/local/reconcile.rs], [db.rs], [memory.rs])

    The local table shows the server's rows with the unconfirmed mutations of the
    user replayed on top. The ledger keeps the server's image only for keys with
    pending mutations; the invariant says that this is enough. *)

From S2P Require Import Prelude Text Values ProtoWire Transport Client.

(** ** Tables and writes ([db.rs]) *)

Record TableSpec := { tsp_name : string; tsp_schema : Schema }.

Definition pk_indices (spec : TableSpec) : list nat :=
  match ps_primary_key_columns (tsp_schema spec) with
  | [] => seq 0 (length (ps_columns (tsp_schema spec)))
  | cols => map Z.to_nat cols
  end.
Definition key_of (spec : TableSpec) (row : WireRow) : PrimaryKey := row_key (pk_indices spec) row.
Definition column_index (spec : TableSpec) (name : string) : option nat :=
  fst <$> list_find (fun c => pc_name c = name) (ps_columns (tsp_schema spec)).

Inductive LocalWrite := LW_Upsert (row : WireRow) | LW_Delete (key : PrimaryKey).

(** One write against the rows of a table. *)
Definition write_rows (spec : TableSpec) (rows : gmap PrimaryKey WireRow) (w : LocalWrite) : gmap PrimaryKey WireRow :=
  match w with
  | LW_Upsert row => <[key_of spec row := row]> rows
  | LW_Delete key => delete key rows
  end.
(** [collect()] into a map: a later row replaces an earlier one. *)
Definition rows_map (spec : TableSpec) (rows : list WireRow) : gmap PrimaryKey WireRow :=
  fold_left (fun m row => <[key_of spec row := row]> m) rows ∅.

(** ** The ledger *)

Inductive ResolvedKind :=
| RK_Insert (row : WireRow) (set_columns : list nat)
| RK_Update (set : list (nat * WireDatum))
| RK_Delete.

Record PendingOp := { po_token : Z; po_key : PrimaryKey; po_kind : ResolvedKind; po_writer_done : bool }.
Record TableLedger := { tl_base : gmap PrimaryKey (option WireRow); tl_pending : list PendingOp }.
Definition ledger_default : TableLedger := {| tl_base := ∅; tl_pending := [] |}.

(** [if let Some(slot) = r.get_mut(idx) { *slot = value }], for each pair. *)
Definition set_slots (set : list (nat * WireDatum)) (row : WireRow) : WireRow :=
  fold_left (fun r s => <[s.1 := s.2]> r) set row.

Definition apply_kind (row : option WireRow) (kind : ResolvedKind) : option WireRow :=
  match kind with
  | RK_Insert new _ => Some new
  | RK_Update set => set_slots set <$> row
  | RK_Delete => None
  end.

Definition ops_for (l : TableLedger) (key : PrimaryKey) : list PendingOp :=
  filter (fun op => po_key op = key) (tl_pending l).
Definition overlay (ops : list PendingOp) (row : option WireRow) : option WireRow :=
  fold_left (fun r op => apply_kind r (po_kind op)) ops row.

Definition replay (l : TableLedger) (key : PrimaryKey) : option WireRow :=
  overlay (ops_for l key) (default None (tl_base l !! key)).
Definition has_pending (l : TableLedger) (key : PrimaryKey) : bool :=
  existsb (fun op => bool_decide (po_key op = key)) (tl_pending l).

Definition write_for (l : TableLedger) (key : PrimaryKey) : LocalWrite * TableLedger :=
  let visible := replay l key in
  let l' := if negb (has_pending l key) then {| tl_base := delete key (tl_base l); tl_pending := tl_pending l |} else l in
  (match visible with Some row => LW_Upsert row | None => LW_Delete key end, l').

Definition confirms (kind : ResolvedKind) (new_row : option WireRow) : bool :=
  match kind with
  | RK_Insert row set_columns =>
      match new_row with
      | Some new => forallb (fun idx => bool_decide (new !! idx = row !! idx)) set_columns
      | None => false
      end
  | RK_Update set =>
      match new_row with
      | Some new => forallb (fun s => bool_decide (new !! s.1 = Some s.2)) set
      | None => false
      end
  | RK_Delete => match new_row with None => true | Some _ => false end
  end.

Record ServerApply := { sa_writes : list LocalWrite; sa_settled : list Z; sa_conflicted : list Z }.
Definition server_apply_default : ServerApply := {| sa_writes := []; sa_settled := []; sa_conflicted := [] |}.

(** The [while] loop of [fold_change]: the oldest mutation of the key leaves while
    it is confirmed, or contradicted after its write was acknowledged. Each round
    drops a mutation, so their number is enough fuel. *)
Fixpoint settle (fuel : nat) (key : PrimaryKey) (post : option WireRow) (pending : list PendingOp) (out : ServerApply)
  : list PendingOp * ServerApply :=
  match fuel with
  | O => (pending, out)
  | S fuel' =>
      match list_find (fun op => po_key op = key) pending with
      | None => (pending, out)
      | Some (idx, op) =>
          if confirms (po_kind op) post then
            settle fuel' key post (delete idx pending)
              {| sa_writes := sa_writes out; sa_settled := sa_settled out ++ [po_token op];
                 sa_conflicted := sa_conflicted out |}
          else if po_writer_done op then
            settle fuel' key post (delete idx pending)
              {| sa_writes := sa_writes out; sa_settled := sa_settled out;
                 sa_conflicted := sa_conflicted out ++ [po_token op] |}
          else (pending, out)
      end
  end.

Definition push_write (out : ServerApply) (w : LocalWrite) : ServerApply :=
  {| sa_writes := sa_writes out ++ [w]; sa_settled := sa_settled out; sa_conflicted := sa_conflicted out |}.

Definition fold_change (l : TableLedger) (key : PrimaryKey) (post : option WireRow) (out : ServerApply)
  : TableLedger * ServerApply :=
  if negb (has_pending l key) then
    (l, push_write out (match post with Some row => LW_Upsert row | None => LW_Delete key end))
  else
    let '(pending', out') := settle (length (tl_pending l)) key post (tl_pending l) out in
    let '(w, l') := write_for {| tl_base := <[key := post]> (tl_base l); tl_pending := pending' |} key in
    (l', push_write out' w).

(** One change of [apply_server_changes]. *)
Definition apply_server_change (spec : TableSpec) (l : TableLedger) (change : WireRowChange) (out : ServerApply)
  : TableLedger * ServerApply :=
  let old_key := key_of spec <$> wr_old change in
  let new_key := key_of spec <$> wr_new change in
  let single :=
    let '(key, post) :=
      match wr_op change with
      | PO_Delete => (match old_key with Some k => Some k | None => new_key end, None)
      | _ => match new_key, old_key with
             | Some k, _ => (Some k, wr_new change)
             | None, Some k => (Some k, None)
             | None, None => (None, None)
             end
      end in
    match key with Some key => fold_change l key post out | None => (l, out) end in
  match old_key, new_key with
  | Some ok, Some nk =>
      if bool_decide (ok <> nk) then
        let '(l1, out1) := fold_change l ok None out in
        fold_change l1 nk (wr_new change) out1
      else single
  | _, _ => single
  end.

Fixpoint apply_ledger_changes (spec : TableSpec) (l : TableLedger) (changes : list WireRowChange) (out : ServerApply)
  : TableLedger * ServerApply :=
  match changes with
  | [] => (l, out)
  | change :: changes' =>
      let '(l1, out1) := apply_server_change spec l change out in
      apply_ledger_changes spec l1 changes' out1
  end.

Definition stage_ledger (l : TableLedger) (token : Z) (key : PrimaryKey) (kind : ResolvedKind)
    (current_local_row : option WireRow) : LocalWrite * TableLedger :=
  let base := if negb (has_pending l key) then <[key := current_local_row]> (tl_base l) else tl_base l in
  write_for {| tl_base := base;
               tl_pending := tl_pending l ++ [{| po_token := token; po_key := key; po_kind := kind; po_writer_done := false |}] |}
    key.

Definition pending_keys (l : TableLedger) : gset PrimaryKey := list_to_set (map po_key (tl_pending l)).

(** The snapshot loop: rows of pending keys become base images, the others are
    visible as they are. *)
Fixpoint initial_loop (spec : TableSpec) (keys : gset PrimaryKey) (rows : list WireRow)
    (base : gmap PrimaryKey (option WireRow)) : gmap PrimaryKey (option WireRow) * list WireRow :=
  match rows with
  | [] => (base, [])
  | row :: rows' =>
      let key := key_of spec row in
      if bool_decide (key ∈ keys) then initial_loop spec keys rows' (<[key := Some row]> base)
      else let '(base', visible) := initial_loop spec keys rows' base in (base', row :: visible)
  end.

(** [apply_initial]; the order in which a [HashSet] yields its keys is not
    specified, [elements] stands for it. *)
Definition initial_ledger (spec : TableSpec) (l : TableLedger) (rows : list WireRow) : list WireRow * TableLedger :=
  let keys := pending_keys l in
  let '(base, visible) := initial_loop spec keys rows (gset_to_gmap None keys) in
  let l' := {| tl_base := base; tl_pending := tl_pending l |} in
  (visible ++ filter_map (replay l') (elements keys), l').

(** [writer_finished] on the table that holds the mutation. *)
Definition finish_ledger (l : TableLedger) (token : Z) (ok : bool) : option (list LocalWrite * TableLedger) :=
  match list_find (fun op => po_token op = token) (tl_pending l) with
  | None => None
  | Some (idx, op) =>
      if ok then
        Some ([], {| tl_base := tl_base l;
                     tl_pending := <[idx := {| po_token := po_token op; po_key := po_key op; po_kind := po_kind op;
                                               po_writer_done := true |}]> (tl_pending l) |})
      else
        let '(w, l') := write_for {| tl_base := tl_base l; tl_pending := delete idx (tl_pending l) |} (po_key op) in
        Some ([w], l')
  end.

(** ** The invariant *)

Section Invariant.
Context (spec : TableSpec).

(** A mutation leaves the row under its key. *)
Definition keeps_key (op : PendingOp) : Prop :=
  match po_kind op with
  | RK_Insert row _ => key_of spec row = po_key op
  | RK_Update set => Forall (fun s => s.1 ∉ pk_indices spec) set
  | RK_Delete => True
  end.

(** Rows are stored under their key. *)
Definition keyed_rows (m : gmap PrimaryKey WireRow) : Prop := map_Forall (fun k r => key_of spec r = k) m.

(** [rows] shows the server's rows with the pending mutations on top, and the
    ledger holds the server's image of exactly the keys with a pending mutation. *)
Record mirror_wf (server : gmap PrimaryKey WireRow) (l : TableLedger) (rows : gmap PrimaryKey WireRow) : Prop := {
  mw_base : forall k, tl_base l !! k = if has_pending l k then Some (server !! k) else None;
  mw_rows : forall k, rows !! k = overlay (ops_for l k) (server !! k);
  mw_ops : Forall keeps_key (tl_pending l);
  mw_server : keyed_rows server
}.

Lemma has_pending_spec l k : has_pending l k = true <-> exists op, op ∈ tl_pending l /\ po_key op = k.
Proof.
  unfold has_pending. rewrite existsb_exists. split; intros (op & Hin & Hk); exists op.
  - by rewrite list_elem_of_In, <- (bool_decide_eq_true (po_key op = k)).
  - rewrite <- list_elem_of_In. by rewrite bool_decide_eq_true.
Qed.

Lemma ops_for_nil l k : has_pending l k = false -> ops_for l k = [].
Proof.
  intros Hn. destruct (ops_for l k) as [|op ops] eqn:E; [done|]. exfalso.
  assert (op ∈ ops_for l k) as [Hk Hin]%list_elem_of_filter by (rewrite E; left).
  assert (has_pending l k = true); [apply has_pending_spec; eauto | congruence].
Qed.

Lemma set_slots_key set row : Forall (fun s => s.1 ∉ pk_indices spec) set -> key_of spec (set_slots set row) = key_of spec row.
Proof.
  unfold key_of, row_key, set_slots. intros Hs. revert row. induction Hs as [|[i v] set Hi _ IH]; intros row; [done|].
  simpl in *. rewrite IH. apply filter_map_ext. intros j Hj. rewrite list_lookup_insert_ne; [done|]. by intros ->.
Qed.

Lemma overlay_key k ops : forall r,
  Forall keeps_key ops -> Forall (fun op => po_key op = k) ops -> (forall r0, r = Some r0 -> key_of spec r0 = k) ->
  forall r1, overlay ops r = Some r1 -> key_of spec r1 = k.
Proof.
  unfold overlay. induction ops as [|op ops IH]; intros r Hk Ho Hr r1 H1; [by apply Hr|].
  apply Forall_cons in Hk as [Hk Hks], Ho as [Ho Hos]. simpl in H1. eapply IH; [done..| |exact H1].
  intros r0. unfold keeps_key in Hk. destruct (po_kind op); simpl.
  - intros [= <-]. congruence.
  - intros (r2 & Hr2 & ->)%fmap_Some. rewrite set_slots_key by done. by apply Hr.
  - done.
Qed.

Lemma ops_for_key l k : Forall keeps_key (tl_pending l) ->
  Forall keeps_key (ops_for l k) /\ Forall (fun op => po_key op = k) (ops_for l k).
Proof.
  intros Hk. unfold ops_for. split; apply Forall_forall; intros op [Hop Hin]%list_elem_of_filter; [|done].
  rewrite Forall_forall in Hk. by apply Hk.
Qed.

(** The write for a key puts its visible row in place. *)
Lemma write_for_spec server l rows k :
  (forall j, j <> k -> tl_base l !! j = if has_pending l j then Some (server !! j) else None) ->
  (has_pending l k = true -> tl_base l !! k = Some (server !! k)) ->
  (has_pending l k = false -> default None (tl_base l !! k) = server !! k) ->
  (forall j, j <> k -> rows !! j = overlay (ops_for l j) (server !! j)) ->
  Forall keeps_key (tl_pending l) -> keyed_rows server ->
  let '(w, l') := write_for l k in mirror_wf server l' (write_rows spec rows w).
Proof.
  intros Hb Hbk Hbn Hr Hops Hs. unfold write_for.
  assert (default None (tl_base l !! k) = server !! k) as Hbase.
  { destruct (has_pending l k) eqn:Hp; [by rewrite (Hbk eq_refl) | by apply Hbn]. }
  unfold replay. rewrite Hbase. destruct (ops_for_key l k Hops) as [Ho1 Ho2].
  set (l' := if negb (has_pending l k) then _ else l).
  assert (tl_pending l' = tl_pending l) as Hpend by (unfold l'; by destruct (negb _)).
  assert (forall j, has_pending l' j = has_pending l j) as Hhp by (intros; unfold has_pending; by rewrite Hpend).
  assert (forall j, ops_for l' j = ops_for l j) as Hof by (intros; unfold ops_for; by rewrite Hpend).
  split; try done.
  - intros j. rewrite Hhp. unfold l'. destruct (decide (j = k)) as [->|Hne].
    + destruct (has_pending l k) eqn:Hp; simpl; [by apply Hbk | by rewrite lookup_delete_eq].
    + destruct (negb _); simpl; [rewrite lookup_delete_ne by done|]; by apply Hb.
  - intros j. rewrite Hof. destruct (overlay (ops_for l k) (server !! k)) as [r|] eqn:Hv; simpl.
    + rewrite (overlay_key k (ops_for l k) (server !! k) Ho1 Ho2 (Hs k) r Hv).
      destruct (decide (j = k)) as [->|Hne]; [by rewrite lookup_insert_eq|]. rewrite lookup_insert_ne by done. by apply Hr.
    + destruct (decide (j = k)) as [->|Hne]; [by rewrite lookup_delete_eq|]. rewrite lookup_delete_ne by done. by apply Hr.
  - by rewrite Hpend.
Qed.

(** ** Staging *)

Lemma ops_for_snoc b l op k :
  ops_for {| tl_base := b; tl_pending := tl_pending l ++ [op] |} k =
  ops_for l k ++ (if decide (po_key op = k) then [op] else []).
Proof. unfold ops_for. simpl. by rewrite list.filter_app, filter_cons, filter_nil. Qed.

Lemma has_pending_snoc b l op k :
  has_pending {| tl_base := b; tl_pending := tl_pending l ++ [op] |} k = has_pending l k || bool_decide (po_key op = k).
Proof. unfold has_pending. cbn [tl_pending]. rewrite existsb_app. cbn [existsb]. by rewrite orb_false_r. Qed.

Lemma stage_wf server l rows token k kind :
  mirror_wf server l rows -> keeps_key {| po_token := token; po_key := k; po_kind := kind; po_writer_done := false |} ->
  let '(w, l') := stage_ledger l token k kind (rows !! k) in mirror_wf server l' (write_rows spec rows w).
Proof.
  intros [Hb Hr Ho Hs] Hk. unfold stage_ledger. apply write_for_spec; try done.
  - intros j Hne. rewrite has_pending_snoc, (bool_decide_false (k = j)), orb_false_r by congruence. cbn.
    rewrite <- Hb. destruct (negb _); [by rewrite lookup_insert_ne | done].
  - intros _. cbn. destruct (has_pending l k) eqn:Hp; simpl; [by rewrite Hb, Hp|].
    rewrite lookup_insert_eq, Hr, ops_for_nil by done. done.
  - rewrite has_pending_snoc. cbn. rewrite bool_decide_true by done. by rewrite orb_true_r.
  - intros j Hne. rewrite ops_for_snoc, decide_False by done. by rewrite app_nil_r.
  - cbn. apply Forall_app. split; [done | by constructor].
Qed.

(** ** Folding in a server change *)

Lemma has_pending_ops l k : has_pending l k = match ops_for l k with [] => false | _ :: _ => true end.
Proof.
  destruct (has_pending l k) eqn:Hp; [|by rewrite ops_for_nil].
  apply has_pending_spec in Hp as (op & Hin & Hk).
  assert (op ∈ ops_for l k) as Ho by (by apply list_elem_of_filter).
  destruct (ops_for l k); [by apply elem_of_nil in Ho | done].
Qed.

(** The mutations a server image ends: confirmed by it, or contradicted after
    their write was acknowledged. *)
Definition ended (post : option WireRow) (op : PendingOp) : bool := confirms (po_kind op) post || po_writer_done op.
Fixpoint remaining {A} (f : A -> bool) (l : list A) : list A :=
  match l with [] => [] | x :: l' => if f x then remaining f l' else l end.
Fixpoint leading {A} (f : A -> bool) (l : list A) : list A :=
  match l with [] => [] | x :: l' => if f x then x :: leading f l' else [] end.

Lemma filter_delete_ne (P : PendingOp -> Prop) `{forall x, Decision (P x)} (l : list PendingOp) (i : nat) x :
  l !! i = Some x -> ~ P x -> filter P (delete i l) = filter P l.
Proof.
  revert i. induction l as [|y l IH]; intros [|i] Hx Hn; simpl in *; try done.
  - injection Hx as ->. by rewrite filter_cons, decide_False.
  - rewrite !filter_cons. by rewrite (IH i).
Qed.

Lemma filter_find_first (P : PendingOp -> Prop) `{forall x, Decision (P x)} (l : list PendingOp) :
  match list_find P l with
  | None => filter P l = []
  | Some (i, x) => l !! i = Some x /\ P x /\ filter P l = x :: filter P (delete i l) /\ length (delete i l) < length l
  end%nat.
Proof.
  induction l as [|y l IH]; simpl; [done|]. rewrite filter_cons. destruct (decide (P y)) as [Hy|Hy].
  - simpl. auto.
  - destruct (list_find P l) as [[i x]|]; simpl; [|done].
    destruct IH as (Hi & Hx & Hf & Hl). rewrite filter_cons, decide_False by done.
    repeat split; try done. lia.
Qed.

Lemma settle_spec k post : forall fuel pending out,
  (length pending <= fuel)%nat ->
  let mine := filter (fun op => po_key op = k) in
  let '(pending', out') := settle fuel k post pending out in
  mine pending' = remaining (ended post) (mine pending) /\
  (forall j, j <> k -> filter (fun op => po_key op = j) pending' = filter (fun op => po_key op = j) pending) /\
  (forall op, op ∈ pending' -> op ∈ pending) /\
  sa_writes out' = sa_writes out /\
  sa_settled out' = sa_settled out ++
    map po_token (List.filter (fun op => confirms (po_kind op) post) (leading (ended post) (mine pending))) /\
  sa_conflicted out' = sa_conflicted out ++
    map po_token (List.filter (fun op => negb (confirms (po_kind op) post)) (leading (ended post) (mine pending))).
Proof.
  induction fuel as [|fuel IH]; intros pending out Hl; cbv zeta; cbn [settle].
  { destruct pending; simpl in *; [by rewrite !app_nil_r | lia]. }
  pose proof (filter_find_first (fun op => po_key op = k) pending) as Hf.
  destruct (list_find _ pending) as [[i op]|]; [|rewrite Hf; simpl; by rewrite !app_nil_r].
  destruct Hf as (Hi & Hk & Hmine & Hlt).
  assert (forall j, j <> k -> filter (fun op => po_key op = j) (delete i pending) = filter (fun op => po_key op = j) pending) as Hoth.
  { intros j Hj. apply filter_delete_ne with op; [done|]. congruence. }
  assert (forall o, o ∈ delete i pending -> o ∈ pending) as Hsub.
  { intros o Ho. rewrite (delete_Permutation pending i op Hi). by right. }
  rewrite Hmine. cbn [remaining leading]. unfold ended at 1 3 5.
  destruct (confirms (po_kind op) post) eqn:Hc; cbn [orb].
  - match goal with |- context [settle fuel k post _ ?o] => specialize (IH (delete i pending) o ltac:(lia)) end.
    destruct (settle _ _ _ _ _) as [p' o']. destruct IH as (H1 & H2 & H3 & H4 & H5 & H6). cbn in *.
    rewrite Hc. cbn. rewrite <- app_assoc in H5. repeat split; auto. intros j Hj. rewrite H2 by done. by apply Hoth.
  - destruct (po_writer_done op) eqn:Hd; [|cbn; by rewrite !app_nil_r].
    match goal with |- context [settle fuel k post _ ?o] => specialize (IH (delete i pending) o ltac:(lia)) end.
    destruct (settle _ _ _ _ _) as [p' o']. destruct IH as (H1 & H2 & H3 & H4 & H5 & H6). cbn in *.
    rewrite Hc. cbn. rewrite <- app_assoc in H6. repeat split; auto. intros j Hj. rewrite H2 by done. by apply Hoth.
Qed.

(** A server image for a key ends the longest prefix of its pending mutations that it confirms
    or that were already acknowledged, reports the confirmed ones as settled and the others as
    conflicted, keeps the rest in order, and leaves the mutations of other keys alone. *)
Theorem server_image_settles l k post out :
  let '(l', out') := fold_change l k post out in
  ops_for l' k = remaining (ended post) (ops_for l k) /\
  (forall j, j <> k -> ops_for l' j = ops_for l j) /\
  sa_settled out' = sa_settled out ++
    map po_token (List.filter (fun op => confirms (po_kind op) post) (leading (ended post) (ops_for l k))) /\
  sa_conflicted out' = sa_conflicted out ++
    map po_token (List.filter (fun op => negb (confirms (po_kind op) post)) (leading (ended post) (ops_for l k))).
Proof.
  unfold fold_change. destruct (has_pending l k) eqn:Hp; cbn [negb].
  - pose proof (settle_spec k post (length (tl_pending l)) (tl_pending l) out ltac:(lia)) as Hs. cbv zeta in Hs.
    destruct (settle _ _ _ _ _) as [p o]. destruct Hs as (H1 & H2 & _ & _ & H3 & H4).
    unfold write_for. cbn [has_pending tl_pending]. destruct (negb _); cbn; auto.
  - rewrite ops_for_nil by done. cbn. by rewrite !app_nil_r.
Qed.

Lemma fold_change_wf server l rows k post out :
  mirror_wf server l rows -> (forall r, post = Some r -> key_of spec r = k) ->
  let '(l', out') := fold_change l k post out in
  exists w, sa_writes out' = sa_writes out ++ [w] /\
    mirror_wf (partial_alter (fun _ => post) k server) l' (write_rows spec rows w).
Proof.
  intros [Hb Hr Ho Hs] Hpost.
  assert (keyed_rows (partial_alter (fun _ => post) k server)) as Hs'.
  { intros j r. destruct (decide (j = k)) as [->|Hne]; [rewrite lookup_partial_alter_eq; apply Hpost|].
    rewrite lookup_partial_alter_ne by done. apply Hs. }
  assert (forall j, j <> k -> partial_alter (fun _ => post) k server !! j = server !! j) as Hj
    by (intros; by rewrite lookup_partial_alter_ne).
  unfold fold_change. destruct (has_pending l k) eqn:Hp; cbn [negb].
  - pose proof (settle_spec k post (length (tl_pending l)) (tl_pending l) out ltac:(lia)) as Hset.
    destruct (settle _ _ _ _ _) as [pending' out']. destruct Hset as (_ & Hoth & Hsub & Hw & _).
    pose proof (write_for_spec (partial_alter (fun _ => post) k server)
      {| tl_base := <[k := post]> (tl_base l); tl_pending := pending' |} rows k) as Hwf.
    assert (forall j, j <> k -> ops_for {| tl_base := <[k := post]> (tl_base l); tl_pending := pending' |} j = ops_for l j) as Hops
      by (intros; by apply Hoth).
    destruct (write_for _ k) as [w l']. exists w. simpl. rewrite Hw. split; [done|]. apply Hwf; clear Hwf; try done.
    + intros j Hne. rewrite has_pending_ops, Hops, Hj, <- has_pending_ops by done. cbn. by rewrite lookup_insert_ne.
    + intros _. cbn. by rewrite lookup_insert_eq, lookup_partial_alter_eq.
    + intros _. cbn. by rewrite lookup_insert_eq, lookup_partial_alter_eq.
    + intros j Hne. rewrite Hops, Hj by done. apply Hr.
    + apply Forall_forall. intros op Hop. rewrite Forall_forall in Ho. by apply Ho, Hsub.
  - eexists. split; [reflexivity|].
    assert (write_rows spec rows (match post with Some row => LW_Upsert row | None => LW_Delete k end) =
      partial_alter (fun _ => post) k rows) as ->.
    { destruct post as [r|]; [|done]. simpl. by rewrite (Hpost r eq_refl). }
    split; try done.
    + intros j. rewrite Hb. destruct (has_pending l j) eqn:Hpj; [|done]. rewrite Hj; [done|]. congruence.
    + intros j. destruct (decide (j = k)) as [->|Hne].
      * by rewrite !lookup_partial_alter_eq, ops_for_nil.
      * rewrite !lookup_partial_alter_ne by done. apply Hr.
Qed.

(** ** Server transactions *)

(** The server's rows after a change: what the cache of [Client] does. *)
Definition server_change (server : gmap PrimaryKey WireRow) (ch : WireRowChange) : gmap PrimaryKey WireRow :=
  lc_rows (cache_change {| lc_pk_columns := pk_indices spec; lc_rows := server |} ch).

(** The images the server sends with each operation. *)
Definition wire_shape (ch : WireRowChange) : Prop :=
  match wr_op ch, wr_old ch, wr_new ch with
  | (PO_Initial | PO_Insert), None, Some _ | PO_Update, _, Some _ | PO_Delete, Some _, None => True
  | _, _, _ => False
  end.

Lemma server_change_wf server l rows ch out :
  mirror_wf server l rows -> wire_shape ch ->
  let '(l', out') := apply_server_change spec l ch out in
  exists ws, sa_writes out' = sa_writes out ++ ws /\
    mirror_wf (server_change server ch) l' (fold_left (write_rows spec) ws rows).
Proof.
  intros Hwf Hs. destruct ch as [op o n]. unfold wire_shape in Hs. cbn in Hs.
  assert (forall k post, (forall r, post = Some r -> key_of spec r = k) ->
    let '(l', out') := fold_change l k post out in
    exists ws, sa_writes out' = sa_writes out ++ ws /\
      mirror_wf (partial_alter (fun _ => post) k server) l' (fold_left (write_rows spec) ws rows)) as Hone.
  { intros k post Hp. pose proof (fold_change_wf server l rows k post out Hwf Hp) as H1.
    destruct (fold_change l k post out) as [l' out']. destruct H1 as (w & Hw & Hm). by exists [w]. }
  assert (forall r, (forall r0, Some r = Some r0 -> key_of spec r0 = key_of spec r)) as Hkey by (by intros ? ? [= ->]).
  unfold apply_server_change, server_change, cache_change. cbn [wr_old wr_new wr_op fmap option_fmap option_map].
  destruct op, o as [o|], n as [n|]; try done;
    cbn -[fold_change lc_rows cache_insert cache_remove key_of bool_decide fold_left sa_writes].
  - exact (Hone (key_of spec n) (Some n) (Hkey n)).
  - exact (Hone (key_of spec n) (Some n) (Hkey n)).
  - destruct (decide (key_of spec o = key_of spec n)) as [E|E].
    + rewrite bool_decide_false by (intros Hne; done).
      assert (lc_rows (cache_insert (cache_remove {| lc_pk_columns := pk_indices spec; lc_rows := server |} o) n) =
        partial_alter (fun _ => Some n) (key_of spec n) server) as ->.
      { unfold cache_insert, cache_remove, cache_key. cbn [lc_rows lc_pk_columns]. unfold key_of in *. rewrite E, insert_delete_eq. done. }
      exact (Hone (key_of spec n) (Some n) (Hkey n)).
    + rewrite bool_decide_true by done.
      pose proof (fold_change_wf server l rows (key_of spec o) None out Hwf ltac:(done)) as H1.
      destruct (fold_change l (key_of spec o) None out) as [l1 out1]. destruct H1 as (w1 & Hw1 & Hm1).
      pose proof (fold_change_wf _ l1 _ (key_of spec n) (Some n) out1 Hm1 (Hkey n)) as H2.
      destruct (fold_change l1 (key_of spec n) (Some n) out1) as [l2 out2]. destruct H2 as (w2 & Hw2 & Hm2).
      exists [w1; w2]. rewrite Hw2, Hw1, <- app_assoc. split; [done|]. exact Hm2.
  - exact (Hone (key_of spec n) (Some n) (Hkey n)).
  - exact (Hone (key_of spec o) None ltac:(done)).
Qed.

Lemma server_changes_wf chs : forall server l rows out,
  mirror_wf server l rows -> Forall wire_shape chs ->
  let '(l', out') := apply_ledger_changes spec l chs out in
  exists ws, sa_writes out' = sa_writes out ++ ws /\
    mirror_wf (fold_left server_change chs server) l' (fold_left (write_rows spec) ws rows).
Proof.
  induction chs as [|ch chs IH]; intros server l rows out Hwf Hs; cbn [apply_ledger_changes].
  { exists []. by rewrite app_nil_r. }
  apply Forall_cons in Hs as [Hch Hs]. pose proof (server_change_wf server l rows ch out Hwf Hch) as H1.
  destruct (apply_server_change spec l ch out) as [l1 out1]. destruct H1 as (ws1 & Hw1 & Hm1).
  specialize (IH _ l1 _ out1 Hm1 Hs). destruct (apply_ledger_changes spec l1 chs out1) as [l2 out2].
  destruct IH as (ws2 & Hw2 & Hm2). exists (ws1 ++ ws2). rewrite Hw2, Hw1, <- app_assoc. split; [done|].
  by rewrite fold_left_app.
Qed.

(** ** The writer's outcome *)

Lemma finish_wf server l rows token ok :
  mirror_wf server l rows ->
  match finish_ledger l token ok with
  | None => True
  | Some (ws, l') => mirror_wf server l' (fold_left (write_rows spec) ws rows)
  end.
Proof.
  intros [Hb Hr Ho Hs]. unfold finish_ledger. destruct (list_find _ _) as [[i op]|] eqn:Hf; [|done].
  apply list_find_Some in Hf as (Hi & _ & _).
  destruct ok.
  - set (op' := {| po_token := po_token op; po_key := po_key op; po_kind := po_kind op; po_writer_done := true |}).
    set (l' := {| tl_base := tl_base l; tl_pending := <[i := op']> (tl_pending l) |}).
    assert (forall k, map (fun o => (po_key o, po_kind o)) (ops_for l' k) = map (fun o => (po_key o, po_kind o)) (ops_for l k)) as Hsame.
    { intros k. unfold ops_for, l'. cbn [tl_pending]. clear -Hi. revert i Hi. induction (tl_pending l) as [|o p IH]; intros [|i] Hi; simpl in *; try done.
      - injection Hi as ->. rewrite !filter_cons. cbn. by destruct (decide (po_key op = k)).
      - rewrite !filter_cons. destruct (decide (po_key o = k)); simpl; by rewrite IH. }
    assert (forall k r, overlay (ops_for l' k) r = overlay (ops_for l k) r) as Hov.
    { intros k r. specialize (Hsame k). revert r Hsame. unfold overlay. generalize (ops_for l k). generalize (ops_for l' k).
      intros a. induction a as [|x a IH]; intros [|y b] r; simpl; intros E; try discriminate; [done|].
      injection E as _ Ek Eab. rewrite Ek. by apply IH. }
    assert (forall k, has_pending l' k = has_pending l k) as Hhp.
    { intros k. rewrite !has_pending_ops. specialize (Hsame k). destruct (ops_for l' k), (ops_for l k); done. }
    split; cbn [fold_left]; [intros k; rewrite Hhp; apply Hb | intros k; rewrite Hov; apply Hr | | done].
    cbn. apply Forall_insert; [done|]. rewrite Forall_lookup in Ho. exact (Ho i op Hi).
  - pose proof (write_for_spec server {| tl_base := tl_base l; tl_pending := delete i (tl_pending l) |} rows (po_key op)) as Hwf.
    assert (forall j, j <> po_key op -> ops_for {| tl_base := tl_base l; tl_pending := delete i (tl_pending l) |} j = ops_for l j) as Hops.
    { intros j Hne. unfold ops_for. cbn. apply filter_delete_ne with op; [done|]. congruence. }
    assert (tl_base l !! po_key op = Some (server !! po_key op)) as Hbase.
    { rewrite Hb. assert (has_pending l (po_key op) = true) as ->; [|done].
      apply has_pending_spec. exists op. split; [by eapply list_elem_of_lookup_2 | done]. }
    destruct (write_for _ (po_key op)) as [w l']. cbn [fold_left]. apply Hwf; clear Hwf; try done.
    + intros j Hne. rewrite has_pending_ops, Hops, <- has_pending_ops by done. apply Hb.
    + intros _. cbn. by rewrite Hbase.
    + intros j Hne. rewrite Hops by done. apply Hr.
    + cbn. by apply Forall_delete.
Qed.

(** ** Snapshots *)

Definition row_entries (rows : list WireRow) : list (PrimaryKey * WireRow) := map (fun r => (key_of spec r, r)) rows.

Lemma row_entries_keys rows : (row_entries rows).*1 = map (key_of spec) rows.
Proof. unfold row_entries. by rewrite <- list_fmap_compose. Qed.

Lemma rows_map_entries rows :
  NoDup (map (key_of spec) rows) -> rows_map spec rows = list_to_map (row_entries rows).
Proof.
  intros Hnd. unfold rows_map. rewrite <- (map_union_empty (list_to_map (row_entries rows))).
  generalize (∅ : gmap PrimaryKey WireRow). induction rows as [|r rows IH]; intros m; simpl; [by rewrite map_empty_union|].
  simpl in Hnd. apply NoDup_cons in Hnd as [Hni Hnd]. rewrite IH by done.
  rewrite <- insert_union_r, insert_union_l; [done|]. apply not_elem_of_list_to_map. by rewrite row_entries_keys.
Qed.

Lemma rows_map_in rows r :
  NoDup (map (key_of spec) rows) -> r ∈ rows -> rows_map spec rows !! key_of spec r = Some r.
Proof.
  intros Hnd Hr. rewrite rows_map_entries by done. apply elem_of_list_to_map; [by rewrite row_entries_keys|].
  apply list_elem_of_fmap. by exists r.
Qed.

Lemma rows_map_out rows k : k ∉ map (key_of spec) rows -> rows_map spec rows !! k = None.
Proof.
  unfold rows_map. rewrite <- (lookup_empty (M := gmap PrimaryKey) k (A := WireRow)).
  generalize (∅ : gmap PrimaryKey WireRow). induction rows as [|r rows IH]; intros m Hk; [done|].
  simpl in *. apply not_elem_of_cons in Hk as [Hne Hk]. rewrite IH by done. by rewrite lookup_insert_ne.
Qed.

Lemma rows_map_keyed rows : NoDup (map (key_of spec) rows) -> keyed_rows (rows_map spec rows).
Proof.
  intros Hnd k r. rewrite rows_map_entries by done. intros Hr%elem_of_list_to_map_2.
  by apply list_elem_of_fmap in Hr as (r' & [= -> ->] & _).
Qed.

Lemma initial_loop_spec keys rows : forall base,
  NoDup (map (key_of spec) rows) ->
  let '(base', visible) := initial_loop spec keys rows base in
  visible = List.filter (fun r => negb (bool_decide (key_of spec r ∈ keys))) rows /\
  (forall k, k ∉ keys \/ k ∉ map (key_of spec) rows -> base' !! k = base !! k) /\
  (forall r, r ∈ rows -> key_of spec r ∈ keys -> base' !! key_of spec r = Some (Some r)).
Proof.
  induction rows as [|r rows IH]; intros base Hnd; cbn [initial_loop].
  { split; [done|]. split; [done|]. by intros r ?%elem_of_nil. }
  simpl in Hnd. apply NoDup_cons in Hnd as [Hni Hnd]. cbn [List.filter map].
  case_bool_decide as Hk; cbn [negb].
  - specialize (IH (<[key_of spec r := Some r]> base) Hnd). destruct (initial_loop _ _ _ _) as [base' visible].
    destruct IH as (-> & Hb & Hr). split; [done|]. split.
    + intros k [Hn|Hn].
      * rewrite Hb by auto. rewrite lookup_insert_ne; [done|]. by intros <-.
      * apply not_elem_of_cons in Hn as [Hne Hn]. rewrite Hb by auto. by rewrite lookup_insert_ne.
    + intros r' [->|Hin]%elem_of_cons Hk'; [|by apply Hr]. rewrite Hb by auto. by rewrite lookup_insert_eq.
  - specialize (IH base Hnd). destruct (initial_loop _ _ _ _) as [base' visible]. destruct IH as (-> & Hb & Hr).
    split; [done|]. split.
    + intros k [Hn|Hn]; [by apply Hb; left|]. apply not_elem_of_cons in Hn as [_ Hn]. apply Hb. by right.
    + intros r' [->|Hin]%elem_of_cons Hk'; [done | by apply Hr].
Qed.

Lemma elem_of_pending_keys l k : k ∈ pending_keys l <-> has_pending l k = true.
Proof.
  unfold pending_keys. rewrite elem_of_list_to_set, list_elem_of_fmap, has_pending_spec. naive_solver.
Qed.

Lemma filtered_keys_NoDup f rows : NoDup (map (key_of spec) rows) -> NoDup (map (key_of spec) (List.filter f rows)).
Proof.
  induction rows as [|r rows IH]; intros Hnd; simpl in *; [done|]. apply NoDup_cons in Hnd as [Hni Hnd].
  destruct (f r); simpl; [|by apply IH]. apply NoDup_cons. split; [|by apply IH]. intros Hin. apply Hni.
  apply list_elem_of_fmap in Hin as (r' & E & Hin). apply list_elem_of_fmap. exists r'. split; [done|].
  apply list_elem_of_In in Hin. apply filter_In in Hin as [Hin _]. by apply list_elem_of_In.
Qed.

Lemma replayed_keys_NoDup l ks :
  (forall k r, k ∈ ks -> replay l k = Some r -> key_of spec r = k) -> NoDup ks ->
  NoDup (map (key_of spec) (filter_map (replay l) ks)).
Proof.
  induction ks as [|k ks IH]; intros Hrk Hnd; simpl; [constructor|]. apply NoDup_cons in Hnd as [Hni Hnd].
  assert (NoDup (map (key_of spec) (filter_map (replay l) ks))) as Htl.
  { apply IH; [|done]. intros k' r Hk'. apply Hrk. by right. }
  destruct (replay l k) as [r|] eqn:Hrep; [|done]. simpl. apply NoDup_cons. split; [|done].
  intros (r' & E & (k' & Hk' & Hr')%elem_of_filter_map)%list_elem_of_fmap.
  rewrite (Hrk k r), (Hrk k' r') in E by (done || (by left) || (by right)). by subst.
Qed.

Lemma initial_wf l rows :
  Forall keeps_key (tl_pending l) -> NoDup (map (key_of spec) rows) ->
  let '(visible, l') := initial_ledger spec l rows in
  mirror_wf (rows_map spec rows) l' (rows_map spec visible).
Proof.
  intros Hops Hnd. unfold initial_ledger. set (keys := pending_keys l).
  pose proof (initial_loop_spec keys rows (gset_to_gmap None keys) Hnd) as Hloop.
  destruct (initial_loop _ _ _ _) as [base visible]. destruct Hloop as (-> & Hb & Hr).
  set (l' := {| tl_base := base; tl_pending := tl_pending l |}).
  set (server := rows_map spec rows). pose proof (rows_map_keyed rows Hnd) as Hkeyed. fold server in Hkeyed.
  assert (forall k, k ∈ keys -> base !! k = Some (server !! k)) as Hbase.
  { intros k Hk. destruct (decide (k ∈ map (key_of spec) rows)) as [(r & -> & Hin)%list_elem_of_fmap|Hn].
    - rewrite (Hr r Hin Hk). unfold server. by rewrite rows_map_in.
    - rewrite Hb by auto. unfold server. rewrite rows_map_out by done. by apply lookup_gset_to_gmap_Some. }
  assert (forall k r, k ∈ keys -> replay l' k = Some r -> key_of spec r = k) as Hrk.
  { intros k r Hk. unfold replay. cbn [tl_base l']. rewrite Hbase by done. cbn [default from_option id].
    destruct (ops_for_key l k Hops) as [H1 H2]. apply (overlay_key k (ops_for l k) (server !! k) H1 H2 (Hkeyed k)). }
  set (shown := List.filter (fun r => negb (bool_decide (key_of spec r ∈ keys))) rows).
  assert (forall r, r ∈ shown <-> r ∈ rows /\ key_of spec r ∉ keys) as Hshown.
  { intros r. unfold shown. rewrite list_elem_of_In, filter_In, negb_true_iff, bool_decide_eq_false, <- list_elem_of_In. done. }
  set (mine := filter_map (replay l') (elements keys)).
  assert (forall r, r ∈ mine <-> exists k, k ∈ keys /\ replay l' k = Some r) as Hmine.
  { intros r. unfold mine. rewrite elem_of_filter_map. by setoid_rewrite elem_of_elements. }
  assert (NoDup (map (key_of spec) (shown ++ mine))) as Hnd'.
  { rewrite map_app. apply NoDup_app. split; [|split].
    - by apply filtered_keys_NoDup.
    - intros k (r & -> & [_ Hn]%Hshown)%list_elem_of_fmap (r' & E & (k' & Hk' & Hr')%Hmine)%list_elem_of_fmap.
      apply Hn. rewrite E. by rewrite (Hrk k' r').
    - apply replayed_keys_NoDup; [|apply NoDup_elements]. intros k r Hk. apply Hrk. by apply elem_of_elements. }
  split; try done.
  - intros k. cbn [tl_base l']. destruct (has_pending l' k) eqn:Hp.
    + apply Hbase. by apply elem_of_pending_keys.
    + assert (k ∉ keys) as Hk by (unfold keys; rewrite elem_of_pending_keys; by rewrite <- not_true_iff_false in Hp).
      rewrite Hb by auto. by apply lookup_gset_to_gmap_None.
  - intros k. destruct (decide (k ∈ keys)) as [Hk|Hk].
    + assert (overlay (ops_for l' k) (server !! k) = replay l' k) as ->
        by (unfold replay; cbn [tl_base l']; by rewrite Hbase).
      destruct (replay l' k) as [r|] eqn:Hrep.
      * rewrite <- (Hrk k r Hk Hrep) at 1. apply rows_map_in; [done|]. apply elem_of_app. right. apply Hmine. eauto.
      * apply rows_map_out. rewrite map_app. intros [(r & -> & [_ Hn]%Hshown)%list_elem_of_fmap|
          (r & E & (k' & Hk' & Hr')%Hmine)%list_elem_of_fmap]%elem_of_app; [done|].
        rewrite (Hrk k' r Hk' Hr') in E. subst. congruence.
    + rewrite (ops_for_nil l' k) by (apply not_true_iff_false; by rewrite <- elem_of_pending_keys). cbn.
      destruct (decide (k ∈ map (key_of spec) rows)) as [(r & -> & Hin)%list_elem_of_fmap|Hn].
      * unfold server. rewrite !rows_map_in; try done. apply elem_of_app. left. by apply Hshown.
      * unfold server. rewrite !rows_map_out; try done. rewrite map_app. intros [(r & -> & [Hin _]%Hshown)%list_elem_of_fmap|
          (r & E & (k' & Hk' & Hr')%Hmine)%list_elem_of_fmap]%elem_of_app; [apply Hn, list_elem_of_fmap; eauto|].
        rewrite (Hrk k' r Hk' Hr') in E. by subst.
Qed.
End Invariant.
