(* ===== verification/Replica.v ===== *)
(** * Replica: the local-first mirror
    ([crates/palimpsest-client/src/local/replica.rs], the [Reconciler] of
    [reconcile.rs], the trait of [db.rs] and [memory.rs])

    [LocalDatabase] is the trait as a class: what an implementation promises is
    that a batch is applied as a whole or not at all. [MemoryDatabase] is the
    implementation of [memory.rs]. The advisory notifications are left out. *)

From stdpp Require Import relations.
From S2P Require Import Prelude Text Values ProtoWire Transport Client Reconcile.

(** ** The local database *)

Inductive LocalDbError := DB_Unsupported (m : string) | DB_Execution (m : string) | DB_Corrupt (m : string).

Abbreviation db_result := (option LocalDbError).

Class LocalDatabase : Type := {
  database : Type;
  db_rows : database -> string -> gmap PrimaryKey WireRow;
  db_ensure_table : database -> TableSpec -> db_result * database;
  db_replace_rows : database -> TableSpec -> list WireRow -> db_result * database;
  db_apply_writes : database -> TableSpec -> list LocalWrite -> db_result * database;
  db_get_row : database -> TableSpec -> PrimaryKey -> exec LocalDbError (option WireRow);
  db_ensure_law d spec t : db_rows (db_ensure_table d spec).2 t = db_rows d t;
  db_replace_law d spec rows t :
    db_rows (db_replace_rows d spec rows).2 t =
    match (db_replace_rows d spec rows).1 with
    | None => if decide (t = tsp_name spec) then rows_map spec rows else db_rows d t
    | Some _ => db_rows d t
    end;
  db_writes_law d spec ws t :
    db_rows (db_apply_writes d spec ws).2 t =
    match (db_apply_writes d spec ws).1 with
    | None => if decide (t = tsp_name spec) then fold_left (write_rows spec) ws (db_rows d t) else db_rows d t
    | Some _ => db_rows d t
    end;
  db_get_law d spec k r : db_get_row d spec k = Ok r -> r = db_rows d (tsp_name spec) !! k
}.

(** [MemoryDatabase]. *)
Definition mem_rows (d : gmap string (gmap PrimaryKey WireRow)) (t : string) : gmap PrimaryKey WireRow := default ∅ (d !! t).

#[export] Program Instance MemoryDatabase : LocalDatabase := {|
  database := gmap string (gmap PrimaryKey WireRow);
  db_rows := mem_rows;
  db_ensure_table d spec := (None, <[tsp_name spec := mem_rows d (tsp_name spec)]> d);
  db_replace_rows d spec rows := (None, <[tsp_name spec := rows_map spec rows]> d);
  db_apply_writes d spec ws :=
    (None, <[tsp_name spec := fold_left (write_rows spec) ws (mem_rows d (tsp_name spec))]> d);
  db_get_row d spec key := Ok (mem_rows d (tsp_name spec) !! key)
|}.
Next Obligation.
  intros d spec t. unfold mem_rows. simpl.
  destruct (decide (t = tsp_name spec)) as [->|]; [by rewrite lookup_insert_eq | by rewrite lookup_insert_ne].
Qed.
Next Obligation.
  intros d spec rows t. unfold mem_rows. simpl.
  destruct (decide (t = tsp_name spec)) as [->|]; [by rewrite lookup_insert_eq | by rewrite lookup_insert_ne].
Qed.
Next Obligation.
  intros d spec ws t. unfold mem_rows. simpl.
  destruct (decide (t = tsp_name spec)) as [->|]; [by rewrite lookup_insert_eq | by rewrite lookup_insert_ne].
Qed.
Next Obligation. by intros d spec k r [= <-]. Qed.

(** ** [Reconciler] *)

Abbreviation Reconciler := (gmap string TableLedger).

(** [self.tables.entry(table).or_default()]. *)
Definition ledger_of (r : Reconciler) (table : string) : TableLedger := default ledger_default (r !! table).

Definition stage (r : Reconciler) (table : string) (token : Z) (key : PrimaryKey) (kind : ResolvedKind)
    (current : option WireRow) : list LocalWrite * Reconciler :=
  let '(w, l) := stage_ledger (ledger_of r table) token key kind current in ([w], <[table := l]> r).
Definition apply_server_changes (r : Reconciler) (spec : TableSpec) (table : string) (changes : list WireRowChange)
  : ServerApply * Reconciler :=
  let '(l, out) := apply_ledger_changes spec (ledger_of r table) changes server_apply_default in (out, <[table := l]> r).
Definition apply_initial (r : Reconciler) (spec : TableSpec) (table : string) (rows : list WireRow)
  : list WireRow * Reconciler :=
  let '(visible, l) := initial_ledger spec (ledger_of r table) rows in (visible, <[table := l]> r).

(** The first table, in the order of the map, that holds the mutation. *)
Fixpoint find_mutation (tables : list (string * TableLedger)) (token : Z) (ok : bool)
  : option (string * (list LocalWrite * TableLedger)) :=
  match tables with
  | [] => None
  | (name, l) :: tables' =>
      match finish_ledger l token ok with
      | Some out => Some (name, out)
      | None => find_mutation tables' token ok
      end
  end.
Definition writer_finished (r : Reconciler) (token : Z) (ok : bool) : list LocalWrite * option string * Reconciler :=
  match find_mutation (map_to_list r) token ok with
  | Some (name, (ws, l)) => (ws, Some name, <[name := l]> r)
  | None => ([], None, r)
  end.
Definition pending_count (r : Reconciler) (table : string) : nat := length (tl_pending (ledger_of r table)).

(** ** Mutations *)

Inductive Mutation :=
| Mu_Insert (table : string) (values : list (string * WireDatum))
| Mu_Update (table : string) (key set : list (string * WireDatum))
| Mu_Delete (table : string) (key : list (string * WireDatum)).
Definition mutation_table (m : Mutation) : string :=
  match m with Mu_Insert t _ | Mu_Update t _ _ | Mu_Delete t _ => t end.

Inductive MutateError :=
| ME_NoWriter | ME_TableNotReady (t : string) | ME_UnknownColumn (c : string) | ME_MissingKeyColumn (c : string)
| ME_KeyColumnUpdate (c : string) | ME_Db (e : LocalDbError).

(** [spec.schema.columns.get(idx)], by name. *)
Definition column_name (spec : TableSpec) (idx : nat) : string :=
  default "" (pc_name <$> ps_columns (tsp_schema spec) !! idx).

Fixpoint resolve_values (spec : TableSpec) (values : list (string * WireDatum)) (row : WireRow) (set_columns : list nat)
  : exec MutateError (WireRow * list nat) :=
  match values with
  | [] => Ok (row, set_columns)
  | (name, value) :: values' =>
      let? idx := ok_or (column_index spec name) (ME_UnknownColumn name) in
      resolve_values spec values' (<[idx := value]> row) (set_columns ++ [idx])
  end.

Fixpoint check_keys (spec : TableSpec) (pks set_columns : list nat) : exec MutateError unit :=
  match pks with
  | [] => Ok tt
  | pk :: pks' =>
      if negb (bool_decide (pk ∈ set_columns)) then Err (ME_MissingKeyColumn (column_name spec pk))
      else check_keys spec pks' set_columns
  end.

Fixpoint resolve_set (spec : TableSpec) (set : list (string * WireDatum)) : exec MutateError (list (nat * WireDatum)) :=
  match set with
  | [] => Ok []
  | (name, value) :: set' =>
      let? idx := ok_or (column_index spec name) (ME_UnknownColumn name) in
      if bool_decide (idx ∈ pk_indices spec) then Err (ME_KeyColumnUpdate name)
      else let? rest := resolve_set spec set' in Ok ((idx, value) :: rest)
  end.

Fixpoint check_columns (spec : TableSpec) (key : list (string * WireDatum)) : exec MutateError unit :=
  match key with
  | [] => Ok tt
  | (name, _) :: key' =>
      match column_index spec name with None => Err (ME_UnknownColumn name) | Some _ => check_columns spec key' end
  end.

Definition resolve_key (spec : TableSpec) (key : list (string * WireDatum)) : exec MutateError PrimaryKey :=
  let? _ := check_columns spec key in
  exec_mapM (fun pk =>
    match list_find (fun e : string * WireDatum => e.1 = column_name spec pk) key with
    | Some (_, e) => Ok e.2
    | None => Err (ME_MissingKeyColumn (column_name spec pk))
    end) (pk_indices spec).

Definition resolve_mutation (spec : TableSpec) (m : Mutation) : exec MutateError (PrimaryKey * ResolvedKind) :=
  match m with
  | Mu_Insert _ values =>
      let? (row, set_columns) := resolve_values spec values (repeat W_Null (length (ps_columns (tsp_schema spec)))) [] in
      let? _ := check_keys spec (pk_indices spec) set_columns in
      Ok (key_of spec row, RK_Insert row set_columns)
  | Mu_Update _ key set =>
      let? pk := resolve_key spec key in
      let? set' := resolve_set spec set in
      Ok (pk, RK_Update set')
  | Mu_Delete _ key => let? pk := resolve_key spec key in Ok (pk, RK_Delete)
  end.

(** ** The replica *)

(** The text of an error is left out. *)
Inductive TableSyncState := TS_Connecting | TS_Snapshotting | TS_Live (lsn : Z) | TS_Resyncing | TS_Errored.

(** The subscription of a mirror and its variable bindings. *)
Record Mirror := { mi_subscription : string; mi_vars : gmap string VarValue }.

Section Replica.
Context `{LocalDatabase}.

(** [Inner], the database, and what each pump task keeps: its table's published
    state and whether the next [Initial] replaces the table. *)
Record Replica := {
  rp_db : database;
  rp_writer : bool;
  rp_reconciler : Reconciler;
  rp_specs : gmap string TableSpec;
  rp_next_token : Z;
  rp_states : gmap string TableSyncState;
  rp_replace : gmap string bool
}.

Definition with_tables (r : Replica) (db : database) (rec : Reconciler) : Replica :=
  {| rp_db := db; rp_writer := rp_writer r; rp_reconciler := rec; rp_specs := rp_specs r;
     rp_next_token := rp_next_token r; rp_states := rp_states r; rp_replace := rp_replace r |}.
Definition with_token (r : Replica) (db : database) (rec : Reconciler) : Replica :=
  {| rp_db := db; rp_writer := rp_writer r; rp_reconciler := rec; rp_specs := rp_specs r;
     rp_next_token := uint 64 (rp_next_token r + 1); rp_states := rp_states r; rp_replace := rp_replace r |}.
(** The state and the replace flag of one mirror. *)
Definition with_status (r : Replica) (table : string) (state : TableSyncState) (replace : bool) : Replica :=
  {| rp_db := rp_db r; rp_writer := rp_writer r; rp_reconciler := rp_reconciler r; rp_specs := rp_specs r;
     rp_next_token := rp_next_token r; rp_states := <[table := state]> (rp_states r);
     rp_replace := <[table := replace]> (rp_replace r) |}.
Definition with_replace (r : Replica) (table : string) (replace : bool) : Replica :=
  {| rp_db := rp_db r; rp_writer := rp_writer r; rp_reconciler := rp_reconciler r; rp_specs := rp_specs r;
     rp_next_token := rp_next_token r; rp_states := rp_states r;
     rp_replace := <[table := replace]> (rp_replace r) |}.
(** [replace_on_initial] of the pump, [true] when it starts. *)
Definition replace_of (r : Replica) (table : string) : bool := default true (rp_replace r !! table).

(** [mutate], the part under the lock: the token, or the error. *)
Definition mutate (r : Replica) (m : Mutation) : exec MutateError Z * Replica :=
  if negb (rp_writer r) then (Err ME_NoWriter, r)
  else
    let table := mutation_table m in
    match rp_specs r !! table with
    | None => (Err (ME_TableNotReady table), r)
    | Some spec =>
        match resolve_mutation spec m with
        | Err e => (Err e, r)
        | Panic => (Panic, r)
        | Ok (key, kind) =>
            match db_get_row (rp_db r) spec key with
            | Err e => (Err (ME_Db e), r)
            | Panic => (Panic, r)
            | Ok current =>
                let token := rp_next_token r in
                let '(writes, rec) := stage (rp_reconciler r) table token key kind current in
                match db_apply_writes (rp_db r) spec writes with
                | (None, db) => (Ok token, with_token r db rec)
                | (Some e, db) =>
                    let '(_, _, rec') := writer_finished rec token false in
                    (Err (ME_Db e), with_token r db rec')
                end
            end
        end
    end.

(** The remote writer's answer. *)
Definition writer_answered (r : Replica) (token : Z) (ok : bool) : Replica :=
  let '(writes, table, rec) := writer_finished (rp_reconciler r) token ok in
  match table with
  | None => with_tables r (rp_db r) rec
  | Some table =>
      match writes with
      | [] => with_tables r (rp_db r) rec
      | _ :: _ =>
          match rp_specs r !! table with
          | Some spec => with_tables r (db_apply_writes (rp_db r) spec writes).2 rec
          | None => with_tables r (rp_db r) rec
          end
      end
  end.

(** [finish_batch]: the new status, and the command sent to the connection. *)
Definition finish_batch (r : Replica) (table : string) (lsn : Z) (applied : db_result) (replace : bool) (mi : Mirror)
  : Replica * option Command :=
  match applied with
  | None => (with_status r table (TS_Live lsn) replace, Some (Cmd_Ack (mi_subscription mi) lsn))
  | Some _ => (with_status r table TS_Errored true, Some (Cmd_Update (mi_subscription mi) (mi_vars mi)))
  end.

Definition diff_to_changes (op : ProtoDiffOp) (rows : list WireRow) : list WireRowChange :=
  filter_map (fun row =>
    match op with
    | PO_Initial | PO_Insert => Some {| wr_op := PO_Insert; wr_old := None; wr_new := Some row |}
    | PO_Update => Some {| wr_op := PO_Update; wr_old := None; wr_new := Some row |}
    | PO_Delete => Some {| wr_op := PO_Delete; wr_old := Some row; wr_new := None |}
    | PO_Unspecified => None
    end) rows.

Definition apply_changes (r : Replica) (table : string) (lsn : Z) (changes : list WireRowChange) (mi : Mirror)
  : Replica * option Command :=
  match rp_specs r !! table with
  | None => (r, None)
  | Some spec =>
      let '(outcome, rec) := apply_server_changes (rp_reconciler r) spec table changes in
      let '(applied, db) := db_apply_writes (rp_db r) spec (sa_writes outcome) in
      finish_batch (with_tables r db rec) table lsn applied (replace_of r table) mi
  end.

Definition apply_snapshot (r : Replica) (table : string) (lsn : Z) (rows : list WireRow) (mi : Mirror)
  : Replica * option Command :=
  let r0 := with_replace r table false in
  match rp_specs r !! table with
  | None => (r0, None)
  | Some spec =>
      let '(visible, rec) := apply_initial (rp_reconciler r) spec table rows in
      let '(applied, db) := db_replace_rows (rp_db r) spec visible in
      finish_batch (with_tables r0 db rec) table lsn applied false mi
  end.

(** One event of the mirror of [table]; [None] is a stream error. *)
Definition pump (r : Replica) (table : string) (mi : Mirror) (event : option ClientEvent)
  : Replica * option Command :=
  match event with
  | Some (CEv_Accepted _ _ schema) =>
      let spec := {| tsp_name := table; tsp_schema := schema |} in
      match db_ensure_table (rp_db r) spec with
      | (Some _, db) => (with_status (with_tables r db (rp_reconciler r)) table TS_Errored (replace_of r table), None)
      | (None, db) =>
          let r' := {| rp_db := db; rp_writer := rp_writer r; rp_reconciler := rp_reconciler r;
                       rp_specs := <[table := spec]> (rp_specs r); rp_next_token := rp_next_token r;
                       rp_states := rp_states r; rp_replace := rp_replace r |} in
          (with_status r' table TS_Snapshotting true, None)
      end
  | Some (CEv_Diff lsn op rows) =>
      match op, replace_of r table with
      | PO_Initial, true => apply_snapshot r table lsn rows mi
      | _, _ => apply_changes r table lsn (diff_to_changes op rows) mi
      end
  | Some (CEv_Transaction commit_lsn _ _ _ changes) => apply_changes r table commit_lsn changes mi
  | Some (CEv_Resync _ _) => (with_status r table TS_Resyncing true, Some (Cmd_Update (mi_subscription mi) (mi_vars mi)))
  | Some (CEv_Error _ _) => (with_status r table TS_Errored (replace_of r table), None)
  | None => (with_status r table TS_Errored (replace_of r table), None)
  end.
End Replica.

(** ** What the replica shows *)

Section Facts.
Context `{LocalDatabase}.

Lemma resolve_set_spec spec set set' :
  resolve_set spec set = Ok set' -> Forall (fun s => s.1 ∉ pk_indices spec) set'.
Proof.
  revert set'. induction set as [|[name v] set IH]; intros set'; simpl; [by intros [= <-]|].
  destruct (column_index spec name) as [i|]; simpl; [|done]. case_bool_decide as Hi; [done|].
  destruct (resolve_set spec set) as [rest|e|]; simpl; try done. intros [= <-]. constructor; [done | by apply IH].
Qed.

Lemma resolve_keeps spec m key kind token done :
  resolve_mutation spec m = Ok (key, kind) ->
  keeps_key spec {| po_token := token; po_key := key; po_kind := kind; po_writer_done := done |}.
Proof.
  unfold keeps_key. destruct m as [t vs|t k set|t k]; simpl.
  - destruct (resolve_values _ _ _ _) as [[row sc]|e|]; simpl; try discriminate.
    destruct (check_keys _ _ _); simpl; try discriminate. by intros [= <- <-].
  - destruct (resolve_key spec k); simpl; try discriminate. destruct (resolve_set spec set) eqn:Hs; simpl; try discriminate.
    intros [= <- <-]. simpl. by eapply resolve_set_spec.
  - destruct (resolve_key spec k); simpl; try discriminate. by intros [= <- <-].
Qed.

(** The mutations of [l'] are mutations of [l], up to the acknowledged flag. *)
Definition sub_pending (l' l : TableLedger) : Prop :=
  forall op', op' ∈ tl_pending l' ->
  exists op, op ∈ tl_pending l /\ po_token op = po_token op' /\ po_key op = po_key op' /\ po_kind op = po_kind op'.

Lemma sub_pending_refl l l' : tl_pending l' = tl_pending l -> sub_pending l' l.
Proof. intros E op Hop. rewrite E in Hop. by exists op. Qed.
Lemma sub_pending_trans a b c : sub_pending a b -> sub_pending b c -> sub_pending a c.
Proof.
  intros Hab Hbc op Hop. destruct (Hab op Hop) as (op1 & Hp1 & ? & ? & ?).
  destruct (Hbc op1 Hp1) as (op2 & Hp2 & ? & ? & ?).
  exists op2. repeat split; congruence.
Qed.

Lemma write_for_pending l k : tl_pending (write_for l k).2 = tl_pending l.
Proof. unfold write_for. simpl. by destruct (negb _). Qed.

Lemma fold_change_pending l k post out : sub_pending (fold_change l k post out).1 l.
Proof.
  unfold fold_change. destruct (negb _); [by apply sub_pending_refl|].
  pose proof (settle_spec k post (length (tl_pending l)) (tl_pending l) out ltac:(lia)) as Hs. cbv zeta in Hs.
  destruct (settle _ _ _ _ _) as [p o]. destruct Hs as (_ & _ & Hsub & _).
  pose proof (write_for_pending {| tl_base := <[k := post]> (tl_base l); tl_pending := p |} k) as Hw.
  destruct (write_for _ _) as [w l']. simpl in *. intros op Hop. rewrite Hw in Hop. exists op. auto.
Qed.

Lemma server_change_pending spec l ch out : sub_pending (apply_server_change spec l ch out).1 l.
Proof.
  unfold apply_server_change.
  assert (forall k post, sub_pending (match k with Some k => fold_change l k post out | None => (l, out) end).1 l) as Hone
    by (intros [k|] post; [apply fold_change_pending | by apply sub_pending_refl]).
  destruct (wr_old ch) as [o|], (wr_new ch) as [n|]; cbn -[fold_change bool_decide];
    try (destruct (wr_op ch); apply Hone || apply (Hone (Some _)) || apply (Hone None None)).
  destruct (bool_decide _); [|destruct (wr_op ch); apply (Hone (Some _))].
  pose proof (fold_change_pending l (key_of spec o) None out) as H1.
  destruct (fold_change l (key_of spec o) None out) as [l1 out1]. eapply sub_pending_trans; [apply fold_change_pending | done].
Qed.

Lemma ledger_changes_pending spec chs : forall l out, sub_pending (apply_ledger_changes spec l chs out).1 l.
Proof.
  induction chs as [|ch chs IH]; intros l out; simpl; [by apply sub_pending_refl|].
  pose proof (server_change_pending spec l ch out) as H1. destruct (apply_server_change spec l ch out) as [l1 out1].
  eapply sub_pending_trans; [apply IH | done].
Qed.

Lemma initial_pending spec l rows : tl_pending (initial_ledger spec l rows).2 = tl_pending l.
Proof. unfold initial_ledger. by destruct (initial_loop _ _ _ _). Qed.

Lemma finish_pending l token ok ws l' :
  finish_ledger l token ok = Some (ws, l') -> sub_pending l' l /\ exists op, op ∈ tl_pending l /\ po_token op = token.
Proof.
  unfold finish_ledger. destruct (list_find _ _) as [[i op]|] eqn:Hf; [|done].
  apply list_find_Some in Hf as (Hi & Ht & _). intros E.
  split; [|exists op; split; [by eapply list_elem_of_lookup_2 | done]]. intros op' Hop'. destruct ok.
  - injection E as _ <-. cbn in Hop'. apply list_elem_of_lookup in Hop' as [j Hj].
    destruct (decide (j = i)) as [->|Hne].
    + rewrite list_lookup_insert_eq in Hj by (by eapply lookup_lt_Some). injection Hj as <-.
      exists op. split; [by eapply list_elem_of_lookup_2 | done].
    + rewrite list_lookup_insert_ne in Hj by done. exists op'. split; [by eapply list_elem_of_lookup_2 | done].
  - pose proof (write_for_pending {| tl_base := tl_base l; tl_pending := delete i (tl_pending l) |} (po_key op)) as Hw.
    destruct (write_for _ _) as [w l2]. injection E as _ <-. simpl in Hw. rewrite Hw in Hop'. exists op'. split; [|done].
    rewrite (delete_Permutation _ _ _ Hi). by right.
Qed.

Lemma find_mutation_some ts token ok name ws l' :
  find_mutation ts token ok = Some (name, (ws, l')) ->
  exists l, (name, l) ∈ ts /\ finish_ledger l token ok = Some (ws, l').
Proof.
  induction ts as [|[n l] ts IH]; simpl; [done|]. destruct (finish_ledger l token ok) as [[ws0 l0]|] eqn:Hf.
  - intros [= -> -> ->]. exists l. split; [left | done].
  - intros Hm. destruct (IH Hm) as (l1 & Hin & Hf1). exists l1. split; [by right | done].
Qed.
Lemma find_mutation_none ts token ok : find_mutation ts token ok = None ->
  forall name l, (name, l) ∈ ts -> finish_ledger l token ok = None.
Proof.
  induction ts as [|[n l] ts IH]; simpl; [by intros _ ? ? ?%elem_of_nil|].
  destruct (finish_ledger l token ok) eqn:Hf; [done|]. intros Hm name l0 [E|Hin]%elem_of_cons; [by injection E as -> ->|eauto].
Qed.

(** The rows the server has sent for each table that is in sync. *)
Abbreviation images := (gmap string (gmap PrimaryKey WireRow)).

Record replica_wf (img : images) (r : Replica) : Prop := {
  rp_named : forall t spec, rp_specs r !! t = Some spec -> tsp_name spec = t;
  rp_ops : forall t op, op ∈ tl_pending (ledger_of (rp_reconciler r) t) ->
    po_token op < rp_next_token r /\ exists spec, rp_specs r !! t = Some spec /\ keeps_key spec op;
  rp_mirror : forall t m, img !! t = Some m ->
    exists spec, rp_specs r !! t = Some spec /\ mirror_wf spec m (ledger_of (rp_reconciler r) t) (db_rows (rp_db r) t)
}.

Lemma ledger_insert rec t l t' : ledger_of (<[t := l]> rec) t' = if decide (t' = t) then l else ledger_of rec t'.
Proof.
  unfold ledger_of. destruct (decide (t' = t)) as [->|]; [by rewrite lookup_insert_eq | by rewrite lookup_insert_ne].
Qed.

Lemma keeps_key_sub spec op op' : po_key op = po_key op' -> po_kind op = po_kind op' -> keeps_key spec op -> keeps_key spec op'.
Proof. unfold keeps_key. by intros -> ->. Qed.

(** A step on one table that keeps the others: its ledger shrinks, and its image
    and rows are in order afterwards. *)
Lemma table_step img r t l' db' img' :
  replica_wf img r -> sub_pending l' (ledger_of (rp_reconciler r) t) ->
  (forall t', t' <> t -> db_rows db' t' = db_rows (rp_db r) t') ->
  (forall t', t' <> t -> img' !! t' = img !! t') ->
  (forall m, img' !! t = Some m -> exists spec, rp_specs r !! t = Some spec /\ mirror_wf spec m l' (db_rows db' t)) ->
  forall r', rp_db r' = db' -> rp_reconciler r' = <[t := l']> (rp_reconciler r) -> rp_specs r' = rp_specs r ->
  rp_next_token r <= rp_next_token r' -> replica_wf img' r'.
Proof.
  intros [Hn Ho Hm] Hsub Hdb Himg Ht r' Edb Erec Esp Etok. split.
  - intros t' spec. rewrite Esp. apply Hn.
  - intros t' op. rewrite Erec, ledger_insert, Esp. destruct (decide (t' = t)) as [->|]; intros Hop.
    + destruct (Hsub op Hop) as (op0 & Hop0 & Htok & Hkey & Hkind). destruct (Ho t op0 Hop0) as (Hlt & spec & Hs & Hk).
      split; [lia|]. exists spec. split; [done|]. by eapply keeps_key_sub.
    + destruct (Ho t' op Hop) as (Hlt & Hk). split; [lia | done].
  - intros t' m. rewrite Erec, ledger_insert, Esp, Edb. destruct (decide (t' = t)) as [->|Hne]; intros Hi; [by apply Ht|].
    rewrite Himg in Hi by done. rewrite Hdb by done. by apply Hm.
Qed.

Lemma same_tables img r r' :
  replica_wf img r -> rp_db r' = rp_db r -> rp_reconciler r' = rp_reconciler r -> rp_specs r' = rp_specs r ->
  rp_next_token r' = rp_next_token r -> replica_wf img r'.
Proof. intros [] E1 E2 E3 E4. split; by rewrite ?E1, ?E2, ?E3, ?E4. Qed.

(** ** Mutations and the writer *)

Lemma stage_pending l token key kind current :
  tl_pending (stage_ledger l token key kind current).2 =
  tl_pending l ++ [{| po_token := token; po_key := key; po_kind := kind; po_writer_done := false |}].
Proof. unfold stage_ledger. by rewrite write_for_pending. Qed.

(** Removing a mutation just staged puts the old mutations back. *)
Lemma unstage_pending l token op ws l' l0 :
  tl_pending l = tl_pending l0 ++ [op] -> po_token op = token -> (forall o, o ∈ tl_pending l0 -> po_token o < token) ->
  finish_ledger l token false = Some (ws, l') -> tl_pending l' = tl_pending l0.
Proof.
  intros E Ht Hlt. unfold finish_ledger. rewrite E.
  assert (list_find (fun o => po_token o = token) (tl_pending l0 ++ [op]) = Some (length (tl_pending l0), op)) as ->.
  { apply list_find_Some. split; [by rewrite lookup_app_r, Nat.sub_diag by lia|]. split; [done|].
    intros j o Hj Hlj Ho. rewrite lookup_app_l in Hj by done. apply list_elem_of_lookup_2, Hlt in Hj. lia. }
  pose proof (write_for_pending {| tl_base := tl_base l; tl_pending := delete (length (tl_pending l0)) (tl_pending l0 ++ [op]) |} (po_key op)) as Hw.
  destruct (write_for _ _) as [w l2]. intros [= _ <-]. cbn [snd] in Hw. rewrite Hw. cbn [tl_pending].
  rewrite delete_take_drop, take_app_length, drop_ge, app_nil_r by (rewrite length_app; simpl; lia). done.
Qed.

Lemma finish_some l token ok op : op ∈ tl_pending l -> po_token op = token -> finish_ledger l token ok <> None.
Proof.
  intros Hin Ht. unfold finish_ledger. destruct (list_find _ _) as [[i o]|] eqn:Hf.
  - destruct ok; [done|]. by destruct (write_for _ _).
  - apply list_find_None in Hf. rewrite Forall_forall in Hf. by specialize (Hf op Hin).
Qed.

Section Staged.
Context (img : images) (r : Replica) (t : string) (spec : TableSpec) (key : PrimaryKey) (kind : ResolvedKind).
Context (w : LocalWrite) (l1 : TableLedger).
Let l := ledger_of (rp_reconciler r) t.
Let token := rp_next_token r.
Let op := {| po_token := token; po_key := key; po_kind := kind; po_writer_done := false |}.
Hypothesis Hwf : replica_wf img r.
Hypothesis Hspec : rp_specs r !! t = Some spec.
Hypothesis Htok : 0 <= token < U64_MAX.
Hypothesis Hkeep : keeps_key spec op.
Hypothesis Hstage : stage_ledger l token key kind (db_rows (rp_db r) t !! key) = (w, l1).

Lemma staged_pending : tl_pending l1 = tl_pending l ++ [op].
Proof. pose proof (stage_pending l token key kind (db_rows (rp_db r) t !! key)) as Hp. by rewrite Hstage in Hp. Qed.

Lemma staged_mirror m : img !! t = Some m ->
  mirror_wf spec m l (db_rows (rp_db r) t) /\ mirror_wf spec m l1 (write_rows spec (db_rows (rp_db r) t) w).
Proof.
  intros Hm. destruct (rp_mirror _ _ Hwf t m Hm) as (spec' & Hs' & Hmw). rewrite Hspec in Hs'. injection Hs' as <-.
  split; [done|]. pose proof (stage_wf spec m l _ token key kind Hmw Hkeep) as Hs. by rewrite Hstage in Hs.
Qed.

Lemma next_token_value : uint 64 (rp_next_token r + 1) = token + 1.
Proof. unfold uint, U64_MAX in *. rewrite Z.mod_small; [done|]. fold token. lia. Qed.

Lemma staged_wf db' :
  (forall t', db_rows db' t' = if decide (t' = t) then write_rows spec (db_rows (rp_db r) t') w else db_rows (rp_db r) t') ->
  replica_wf img (with_token r db' (<[t := l1]> (rp_reconciler r))).
Proof.
  intros Hdb. destruct Hwf as [Hn Ho Hm]. split; cbn; rewrite ?next_token_value.
  - done.
  - intros t' o. rewrite ledger_insert. destruct (decide (t' = t)) as [->|].
    + rewrite staged_pending, elem_of_app, list_elem_of_singleton. intros [Hin| ->].
      * destruct (Ho t o Hin) as [Hlt Hk]. split; [fold token in Hlt; lia | done].
      * split; [simpl; lia|]. eauto.
    + intros Hin. destruct (Ho t' o Hin) as [Hlt Hk]. split; [fold token in Hlt; lia | done].
  - intros t' m Hi. rewrite ledger_insert, Hdb. destruct (decide (t' = t)) as [->|]; [|by apply Hm].
    exists spec. split; [done|]. by apply staged_mirror.
Qed.

Lemma unstaged_wf db' :
  (forall t', db_rows db' t' = db_rows (rp_db r) t') ->
  replica_wf img (with_token r db' (writer_finished (<[t := l1]> (rp_reconciler r)) token false).2).
Proof.
  intros Hdb. unfold writer_finished.
  assert (forall o, o ∈ tl_pending l -> po_token o < token) as Hold by (intros o Ho; by apply (rp_ops _ _ Hwf t)).
  destruct (find_mutation _ token false) as [[name [ws l2]]|] eqn:Hfm.
  - apply find_mutation_some in Hfm as (l0 & Hin & Hfin). apply elem_of_map_to_list in Hin.
    assert (name = t /\ l0 = l1) as [-> ->].
    { destruct (decide (name = t)) as [->|Hne]; [by rewrite lookup_insert_eq in Hin; injection Hin|]. exfalso.
      rewrite lookup_insert_ne in Hin by done. apply finish_pending in Hfin as [_ (o & Ho & Hot)].
      destruct (rp_ops _ _ Hwf name o) as [Hlt _]; [unfold ledger_of; by rewrite Hin|]. unfold token in Hot. lia. }
    pose proof (unstage_pending l1 token op ws l2 l staged_pending eq_refl Hold Hfin) as Hp2.
    apply (table_step img r t l2 db' img); try done.
    + by apply sub_pending_refl.
    + intros m Hm. exists spec. split; [done|]. rewrite Hdb. destruct (staged_mirror m Hm) as [Hmw Hst].
      pose proof (finish_wf spec m l1 _ token false Hst) as Hf. rewrite Hfin in Hf. destruct Hf as [Hb _ Hk Hsv].
      split; try done. intros k. rewrite (mw_rows _ _ _ _ Hmw). unfold ops_for. by rewrite Hp2.
    + cbn. apply insert_insert_eq.
    + cbn. rewrite next_token_value. fold token. lia.
  - exfalso. assert (finish_ledger l1 token false <> None) as Hne.
    { apply finish_some with op; [|done]. rewrite staged_pending. apply elem_of_app. right. by apply list_elem_of_singleton. }
    apply Hne. apply (find_mutation_none _ _ _ Hfm t). apply elem_of_map_to_list. by rewrite lookup_insert_eq.
Qed.
End Staged.

Lemma mutate_wf img r m : replica_wf img r -> 0 <= rp_next_token r < U64_MAX -> replica_wf img (mutate r m).2.
Proof.
  intros Hwf Htok. unfold mutate. destruct (negb (rp_writer r)); [done|]. set (t := mutation_table m).
  destruct (rp_specs r !! t) as [spec|] eqn:Hs; [|done]. destruct (resolve_mutation spec m) as [[key kind]|e|] eqn:Hr; try done.
  destruct (db_get_row (rp_db r) spec key) as [cur|e|] eqn:Hg; try done. apply db_get_law in Hg.
  pose proof (rp_named _ _ Hwf t spec Hs) as Hname. rewrite Hname in Hg. subst cur.
  unfold stage. destruct (stage_ledger _ _ key kind _) as [w l1] eqn:Hst.
  pose proof (resolve_keeps spec m key kind (rp_next_token r) false Hr) as Hkeep.
  pose proof (db_writes_law (rp_db r) spec [w]) as Hlaw. destruct (db_apply_writes (rp_db r) spec [w]) as [[e|] db'].
  - pose proof (unstaged_wf img r t spec key kind w l1 Hwf Hs Htok Hkeep Hst db' Hlaw) as Hu.
    by destruct (writer_finished _ _ _) as [[ws n] rec'].
  - cbn [fst snd] in Hlaw. rewrite Hname in Hlaw. by apply (staged_wf img r t spec key kind w l1).
Qed.

(** ** The rows the server has sent, as the replica moves *)

(** A table whose batch the database refused is out of sync until the next
    snapshot. *)
Definition answer_images (r : Replica) (img : images) (token : Z) (ok : bool) : images :=
  let '(ws, table, _) := writer_finished (rp_reconciler r) token ok in
  match table with
  | Some t =>
      match ws, rp_specs r !! t with
      | _ :: _, Some spec => match (db_apply_writes (rp_db r) spec ws).1 with None => img | Some _ => delete t img end
      | _, _ => img
      end
  | None => img
  end.

Definition changes_images (r : Replica) (img : images) (t : string) (changes : list WireRowChange) : images :=
  match rp_specs r !! t with
  | None => img
  | Some spec =>
      match (db_apply_writes (rp_db r) spec (sa_writes (apply_server_changes (rp_reconciler r) spec t changes).1)).1 with
      | None => alter (fold_left (server_change spec) changes) t img
      | Some _ => delete t img
      end
  end.

Definition snapshot_images (r : Replica) (img : images) (t : string) (rows : list WireRow) : images :=
  match rp_specs r !! t with
  | None => img
  | Some spec =>
      match (db_replace_rows (rp_db r) spec (apply_initial (rp_reconciler r) spec t rows).1).1 with
      | None => <[t := rows_map spec rows]> img
      | Some _ => delete t img
      end
  end.

Definition event_images (r : Replica) (img : images) (t : string) (event : option ClientEvent) : images :=
  match event with
  | Some (CEv_Diff _ op rows) =>
      match op, replace_of r t with
      | PO_Initial, true => snapshot_images r img t rows
      | _, _ => changes_images r img t (diff_to_changes op rows)
      end
  | Some (CEv_Transaction _ _ _ _ changes) => changes_images r img t changes
  | _ => img
  end.

(** A snapshot has one row per key, changes carry their images, and a mirror that
    is accepted again keeps its schema. *)
Definition event_ok (r : Replica) (t : string) (event : option ClientEvent) : Prop :=
  match event with
  | Some (CEv_Accepted _ _ schema) => forall spec, rp_specs r !! t = Some spec -> tsp_schema spec = schema
  | Some (CEv_Diff _ PO_Initial rows) => forall spec, rp_specs r !! t = Some spec -> NoDup (map (key_of spec) rows)
  | Some (CEv_Transaction _ _ _ _ changes) => Forall wire_shape changes
  | _ => True
  end.

Lemma answer_wf img r token ok : replica_wf img r -> replica_wf (answer_images r img token ok) (writer_answered r token ok).
Proof.
  intros Hwf. unfold answer_images, writer_answered, writer_finished.
  destruct (find_mutation _ token ok) as [[t [ws l']]|] eqn:Hfm; [|by apply (same_tables img r)].
  apply find_mutation_some in Hfm as (l & Hin & Hfin). apply elem_of_map_to_list in Hin.
  assert (ledger_of (rp_reconciler r) t = l) as Hl by (unfold ledger_of; by rewrite Hin).
  pose proof (finish_pending _ _ _ _ _ Hfin) as [Hsub (op & Hop & _)]. rewrite <- Hl in Hsub, Hop.
  destruct (rp_ops _ _ Hwf t op Hop) as (_ & spec & Hs & _). rewrite Hs.
  assert (forall m, img !! t = Some m -> mirror_wf spec m l' (fold_left (write_rows spec) ws (db_rows (rp_db r) t))) as Hmir.
  { intros m Hm. destruct (rp_mirror _ _ Hwf t m Hm) as (spec' & Hs' & Hmw). rewrite Hs in Hs'. injection Hs' as <-.
    rewrite Hl in Hmw. pose proof (finish_wf spec m l _ token ok Hmw) as Hf. by rewrite Hfin in Hf. }
  pose proof (rp_named _ _ Hwf t spec Hs) as Hname. destruct ws as [|w ws].
  - apply (table_step img r t l' (rp_db r) img); try done. intros m Hm. exists spec. split; [done|]. by apply Hmir.
  - pose proof (db_writes_law (rp_db r) spec (w :: ws)) as Hlaw. destruct (db_apply_writes _ _ _) as [[e|] db']; cbn [fst snd] in *.
    + apply (table_step img r t l' db' (delete t img)); try done.
      * intros t' Hne. by rewrite lookup_delete_ne.
      * intros m. by rewrite lookup_delete_eq.
    + rewrite Hname in Hlaw. apply (table_step img r t l' db' img); try done.
      * intros t' Hne. rewrite Hlaw, decide_False by done. done.
      * intros m Hm. exists spec. split; [done|]. rewrite Hlaw, decide_True by done. by apply Hmir.
Qed.

Lemma changes_wf img r t lsn changes mi :
  replica_wf img r -> Forall wire_shape changes ->
  replica_wf (changes_images r img t changes) (apply_changes r t lsn changes mi).1.
Proof.
  intros Hwf Hsh. unfold changes_images, apply_changes. destruct (rp_specs r !! t) as [spec|] eqn:Hs; [|done].
  pose proof (rp_named _ _ Hwf t spec Hs) as Hname. unfold apply_server_changes.
  set (l := ledger_of (rp_reconciler r) t).
  pose proof (ledger_changes_pending spec changes l server_apply_default) as Hsub.
  assert (forall m, img !! t = Some m -> mirror_wf spec m l (db_rows (rp_db r) t)) as Hold.
  { intros m Hm. destruct (rp_mirror _ _ Hwf t m Hm) as (spec' & Hs' & Hmw). rewrite Hs in Hs'. by injection Hs' as <-. }
  pose proof (fun m Hm => server_changes_wf spec changes m l _ server_apply_default (Hold m Hm) Hsh) as Hch.
  destruct (apply_ledger_changes spec l changes server_apply_default) as [l' out]. cbn [fst] in *.
  pose proof (db_writes_law (rp_db r) spec (sa_writes out)) as Hlaw.
  destruct (db_apply_writes _ _ _) as [[e|] db']; cbn [fst snd] in *; unfold finish_batch; cbn [fst].
  - apply (table_step img r t l' db' (delete t img)); try done.
    + intros t' Hne. by rewrite lookup_delete_ne.
    + intros m. by rewrite lookup_delete_eq.
  - rewrite Hname in Hlaw. apply (table_step img r t l' db' (alter (fold_left (server_change spec) changes) t img)); try done.
    + intros t' Hne. rewrite Hlaw, decide_False by done. done.
    + intros t' Hne. by rewrite lookup_alter_ne.
    + intros m. rewrite lookup_alter_eq. intros (m0 & Hm0 & ->)%fmap_Some. exists spec. split; [done|].
      rewrite Hlaw, decide_True by done. destruct (Hch m0 Hm0) as (ws & Hws & Hmw). simpl in Hws. by rewrite Hws.
Qed.

Lemma snapshot_wf img r t lsn rows mi :
  replica_wf img r -> (forall spec, rp_specs r !! t = Some spec -> NoDup (map (key_of spec) rows)) ->
  replica_wf (snapshot_images r img t rows) (apply_snapshot r t lsn rows mi).1.
Proof.
  intros Hwf Hnd. unfold snapshot_images, apply_snapshot. destruct (rp_specs r !! t) as [spec|] eqn:Hs; [|by apply (same_tables img r)].
  specialize (Hnd spec eq_refl). pose proof (rp_named _ _ Hwf t spec Hs) as Hname. unfold apply_initial.
  set (l := ledger_of (rp_reconciler r) t).
  assert (Forall (keeps_key spec) (tl_pending l)) as Hops.
  { apply Forall_forall. intros op Hop. destruct (rp_ops _ _ Hwf t op Hop) as (_ & spec' & Hs' & Hk). rewrite Hs in Hs'.
    by injection Hs' as <-. }
  pose proof (initial_wf spec l rows Hops Hnd) as Hini. pose proof (initial_pending spec l rows) as Hpend.
  destruct (initial_ledger spec l rows) as [visible l']. cbn [fst snd] in *.
  pose proof (db_replace_law (rp_db r) spec visible) as Hlaw.
  destruct (db_replace_rows _ _ _) as [[e|] db']; cbn [fst snd] in *; unfold finish_batch; cbn [fst].
  - apply (table_step img r t l' db' (delete t img)); try done; [by apply sub_pending_refl| |].
    + intros t' Hne. by rewrite lookup_delete_ne.
    + intros m. by rewrite lookup_delete_eq.
  - rewrite Hname in Hlaw. apply (table_step img r t l' db' (<[t := rows_map spec rows]> img)); try done; [by apply sub_pending_refl|..].
    + intros t' Hne. rewrite Hlaw, decide_False by done. done.
    + intros t' Hne. by rewrite lookup_insert_ne.
    + intros m. rewrite lookup_insert_eq. intros [= <-]. exists spec. split; [done|]. by rewrite Hlaw, decide_True.
Qed.

Lemma diff_to_changes_shape op rows : Forall wire_shape (diff_to_changes op rows).
Proof.
  apply Forall_forall. intros ch (row & _ & Hrow)%elem_of_filter_map. by destruct op; simplify_eq.
Qed.

Lemma accepted_wf img r t schema a b mi :
  replica_wf img r -> (forall spec, rp_specs r !! t = Some spec -> tsp_schema spec = schema) ->
  replica_wf img (pump r t mi (Some (CEv_Accepted a b schema))).1.
Proof.
  intros Hwf Hsame. cbn [pump]. set (spec := {| tsp_name := t; tsp_schema := schema |}).
  pose proof (db_ensure_law (rp_db r) spec) as Hlaw. destruct (db_ensure_table _ _) as [[e|] db']; cbn [fst snd] in *.
  - destruct Hwf as [Hn Ho Hm]. split; cbn; try done. intros t' m Hi. rewrite Hlaw. by apply Hm.
  - assert (forall t' spec', rp_specs r !! t' = Some spec' -> <[t := spec]> (rp_specs r) !! t' = Some spec') as Hsp.
    { intros t' spec' Hs'. destruct (decide (t' = t)) as [->|]; [|by rewrite lookup_insert_ne].
      rewrite lookup_insert_eq. f_equal. pose proof (rp_named _ _ Hwf t spec' Hs') as Hname. specialize (Hsame spec' Hs').
      unfold spec. destruct spec' as [n sc]. cbn in *. by subst. }
    destruct Hwf as [Hn Ho Hm]. split; cbn.
    + intros t' spec'. intros [[<- <-]|[_ Hs']]%lookup_insert_Some; [done | by apply Hn].
    + intros t' op Hop. destruct (Ho t' op Hop) as (? & spec' & Hs' & ?). eauto.
    + intros t' m Hi. rewrite Hlaw. destruct (Hm t' m Hi) as (spec' & Hs' & ?). eauto.
Qed.

Lemma pump_wf img r t mi event :
  replica_wf img r -> event_ok r t event -> replica_wf (event_images r img t event) (pump r t mi event).1.
Proof.
  intros Hwf Hok. destruct event as [[a b sc|lsn op rows|c b e x chs|rs m|code m]|].
  - by apply accepted_wf.
  - cbn [pump event_images]. destruct op, (replace_of r t); try (apply changes_wf; [done | apply diff_to_changes_shape]).
    by apply snapshot_wf.
  - by apply changes_wf.
  - by apply (same_tables img r).
  - by apply (same_tables img r).
  - by apply (same_tables img r).
Qed.

(** ** Every history *)

Definition replica_start (db : database) (writer : bool) : Replica :=
  {| rp_db := db; rp_writer := writer; rp_reconciler := ∅; rp_specs := ∅; rp_next_token := 1; rp_states := ∅;
     rp_replace := ∅ |}.

(** Mutations, answers of the remote writer and events of the mirrors, in any
    order. *)
Inductive replica_step : Replica * images -> Replica * images -> Prop :=
| RS_mutate r img m : rp_next_token r < U64_MAX -> replica_step (r, img) ((mutate r m).2, img)
| RS_answer r img token ok : replica_step (r, img) (writer_answered r token ok, answer_images r img token ok)
| RS_pump r img t mi event : event_ok r t event ->
    replica_step (r, img) ((pump r t mi event).1, event_images r img t event).

Lemma token_positive_mutate r m : 0 <= rp_next_token r -> 0 <= rp_next_token (mutate r m).2.
Proof.
  intros Ht. unfold mutate. repeat case_match; simpl; try done; unfold uint; apply Z.mod_pos_bound; lia.
Qed.

Lemma token_other r r' : rp_next_token r' = rp_next_token r -> 0 <= rp_next_token r -> 0 <= rp_next_token r'.
Proof. by intros ->. Qed.

Lemma pump_token r t mi event : rp_next_token (pump r t mi event).1 = rp_next_token r.
Proof.
  destruct event as [[a b sc|lsn op rows|c b e x chs|rs m|code m]|]; cbn; try done.
  - by repeat case_match.
  - unfold apply_snapshot, apply_changes, finish_batch. by repeat case_match.
  - unfold apply_changes, finish_batch. by repeat case_match.
Qed.

Lemma answer_token r token ok : rp_next_token (writer_answered r token ok) = rp_next_token r.
Proof. unfold writer_answered. by repeat case_match. Qed.

Lemma replica_reachable_wf db writer s :
  rtc replica_step (replica_start db writer, ∅) s -> replica_wf s.2 s.1 /\ 0 <= rp_next_token s.1.
Proof.
  intros Hr. remember (replica_start db writer, ∅) as s0 eqn:E.
  assert (replica_wf s0.2 s0.1 /\ 0 <= rp_next_token s0.1) as H0.
  { subst. split; [|done]. split; cbn.
    - intros t spec. by rewrite lookup_empty.
    - intros t op Hop. unfold ledger_of in Hop. rewrite lookup_empty in Hop. by apply elem_of_nil in Hop.
    - intros t m. by rewrite lookup_empty. }
  clear E. induction Hr as [s|a b c Hstep _ IH]; [done|]. apply IH. clear IH. destruct H0 as [Hwf Ht].
  destruct Hstep as [r img m Hlt|r img token ok|r img t mi event Hok]; cbn [fst snd] in *.
  - split; [by apply mutate_wf | by apply token_positive_mutate].
  - split; [by apply answer_wf | by rewrite answer_token].
  - split; [by apply pump_wf | by rewrite pump_token].
Qed.

(** C19: In every history of mutations, answers of the remote writer and mirror events, with any
    failures of the local database, the local rows of every table in sync are the rows the server
    sent with the pending mutations replayed on top, the ledger holds the server image of exactly
    the keys with a pending mutation, and without pending mutations the local rows are the server's. *)
Theorem replica_shows_server db writer r img t m :
  rtc replica_step (replica_start db writer, ∅) (r, img) -> img !! t = Some m ->
  (forall k, db_rows (rp_db r) t !! k = overlay (ops_for (ledger_of (rp_reconciler r) t) k) (m !! k)) /\
  (forall k, tl_base (ledger_of (rp_reconciler r) t) !! k =
     if has_pending (ledger_of (rp_reconciler r) t) k then Some (m !! k) else None) /\
  (pending_count (rp_reconciler r) t = 0%nat -> db_rows (rp_db r) t = m).
Proof.
  intros Hr Hm. apply replica_reachable_wf in Hr as [Hwf _]. cbn [fst snd] in Hwf.
  destruct (rp_mirror _ _ Hwf t m Hm) as (spec & _ & [Hb Hrows _ _]).
  split; [done|]. split; [done|]. intros Hp. apply map_eq. intros k. rewrite Hrows.
  unfold pending_count in Hp. apply nil_length_inv in Hp. unfold ops_for. by rewrite Hp.
Qed.
End Facts.
