(* ===== verification/SqlAdapter.v ===== *)
(** * SqlAdapter: the local database over a SQL engine
    ([crates/palimpsest-client/src/local/sql.rs])

    The statements the adapter generates for a mirrored table, and the transactions
    it wraps them in. The engine is a parameter: what it promises about the generated
    statements is the class [SqlEngine]. *)

From S2P Require Import Prelude BTree Text Values UserContext SqlLimits ProtoWire Transport Client Reconcile Replica.

(** ** Statements *)

Definition quote_ident (ident : text) : text := [x22] ++ doubled x22 ident ++ [x22].

Definition column_type_sql (t : ProtoDatumType) : text :=
  match t with
  | PT_Bool => lit "boolean" | PT_I16 => lit "smallint" | PT_I32 => lit "integer" | PT_I64 => lit "bigint"
  | PT_F32 => lit "real" | PT_F64 => lit "double precision" | PT_Numeric => lit "numeric" | PT_Bytea => lit "bytea"
  | PT_Date => lit "date" | PT_Time => lit "time" | PT_Timestamp => lit "timestamp" | PT_TimestampTz => lit "timestamptz"
  | PT_Interval => lit "interval" | PT_Uuid => lit "uuid" | PT_Json => lit "json" | PT_Jsonb | PT_Array => lit "jsonb"
  | PT_Text | PT_Unspecified | PT_Null => lit "text"
  end.

Record SqlStatement := { ss_sql : text; ss_params : list WireDatum }.

Definition column_ident (c : Column) : text := quote_ident (lit (pc_name c)).
Definition table_ident (spec : TableSpec) : text := quote_ident (lit (tsp_name spec)).
Definition columns (spec : TableSpec) : list Column := ps_columns (tsp_schema spec).
Definition commas (l : list text) : text := join (lit ", ") l.

Definition create_table_sql (spec : TableSpec) : text :=
  let definition c :=
    column_ident c ++ lit " " ++ column_type_sql (datum_type_of_i32 (pc_type c)) ++ (if pc_nullable c then [] else lit " NOT NULL") in
  let key :=
    match ps_primary_key_columns (tsp_schema spec) with
    | [] => []
    | cols => [lit "PRIMARY KEY (" ++ commas (map column_ident (filter_map (fun idx => columns spec !! Z.to_nat idx) cols)) ++ lit ")"]
    end in
  lit "CREATE TABLE IF NOT EXISTS " ++ table_ident spec ++ lit " (" ++ commas (map definition (columns spec) ++ key) ++ lit ")".

Definition placeholder (i : nat) : text := lit "$" ++ dec_len i.

(** The columns outside the primary key, with their positions. *)
Definition assignments (spec : TableSpec) : list text :=
  filter_map (fun '(idx, c) => if bool_decide (idx ∈ pk_indices spec) then None
                               else Some (column_ident c ++ lit " = EXCLUDED." ++ column_ident c))
    (zip (seq 0 (length (columns spec))) (columns spec)).

Definition upsert_sql (spec : TableSpec) : text :=
  let conflict :=
    match ps_primary_key_columns (tsp_schema spec) with
    | [] => []
    | _ =>
        let key := commas (map column_ident (filter_map (fun idx => columns spec !! idx) (pk_indices spec))) in
        match assignments spec with
        | [] => lit " ON CONFLICT (" ++ key ++ lit ") DO NOTHING"
        | set => lit " ON CONFLICT (" ++ key ++ lit ") DO UPDATE SET " ++ commas set
        end
    end in
  lit "INSERT INTO " ++ table_ident spec ++ lit " (" ++ commas (map column_ident (columns spec)) ++ lit ") VALUES (" ++
  commas (map placeholder (seq 1 (length (columns spec)))) ++ lit ")" ++ conflict.
Definition upsert_statement (spec : TableSpec) (row : WireRow) : SqlStatement := {| ss_sql := upsert_sql spec; ss_params := row |}.

Definition key_predicate (spec : TableSpec) : text :=
  join (lit " AND ")
    (filter_map (fun '(param_idx, col_idx) => option_map (fun c => column_ident c ++ lit " IS NOT DISTINCT FROM " ++ placeholder (param_idx + 1)) (columns spec !! col_idx))
       (zip (seq 0 (length (pk_indices spec))) (pk_indices spec))).

Definition delete_statement (spec : TableSpec) (key : PrimaryKey) : SqlStatement :=
  {| ss_sql := lit "DELETE FROM " ++ table_ident spec ++ lit " WHERE " ++ key_predicate spec; ss_params := key |}.

Definition select_by_key_statement (spec : TableSpec) (key : PrimaryKey) : SqlStatement :=
  {| ss_sql := lit "SELECT " ++ commas (map column_ident (columns spec)) ++ lit " FROM " ++ table_ident spec ++ lit " WHERE " ++ key_predicate spec;
     ss_params := key |}.

Definition delete_all_statement (spec : TableSpec) : SqlStatement := {| ss_sql := lit "DELETE FROM " ++ table_ident spec; ss_params := [] |}.
Definition write_statement (spec : TableSpec) (w : LocalWrite) : SqlStatement :=
  match w with LW_Upsert row => upsert_statement spec row | LW_Delete key => delete_statement spec key end.

(** A quoted name is one token, whatever it holds: the scan of a query passes it as a whole. *)
Lemma quote_ident_token ident rest : starts x22 rest = false -> skip_quoted x22 (tail (quote_ident ident ++ rest)) = rest.
Proof. intros Hr. unfold quote_ident. cbn [app tail]. rewrite <- app_assoc. by apply skip_quoted_body. Qed.

(** ** The engine *)

Abbreviation tables := (string -> gmap PrimaryKey WireRow).
Definition update_table (v : tables) (name : string) (rows : gmap PrimaryKey WireRow) : tables := fun t => if decide (t = name) then rows else v t.

(** What an engine promises about the generated statements, for the tables it mirrors: a session
    has a committed state, and a working one inside a transaction; only a commit changes the former,
    a statement that fails says nothing of the latter, and a commit that fails rolls back. *)
Class SqlEngine (mirrored : list TableSpec) : Type := {
  engine : Type;
  exec_sql : engine -> text -> list WireDatum -> option Schema -> (LocalDbError + list WireRow) * engine;
  committed : engine -> tables;
  working : engine -> option tables;
  engine_begin e : working e = None ->
    let '(r, e') := exec_sql e (lit "BEGIN") [] None in
    committed e' = committed e /\ working e' = (if r is inr _ then Some (committed e) else None);
  engine_write e spec w v : spec ∈ mirrored -> working e = Some v ->
    let '(r, e') := exec_sql e (ss_sql (write_statement spec w)) (ss_params (write_statement spec w)) None in
    committed e' = committed e /\
    (if r is inr _ then working e' = Some (update_table v (tsp_name spec) (write_rows spec (v (tsp_name spec)) w)) else True);
  engine_clear e spec v : spec ∈ mirrored -> working e = Some v ->
    let '(r, e') := exec_sql e (ss_sql (delete_all_statement spec)) [] None in
    committed e' = committed e /\ (if r is inr _ then working e' = Some (update_table v (tsp_name spec) ∅) else True);
  engine_commit e v : working e = Some v ->
    let '(r, e') := exec_sql e (lit "COMMIT") [] None in
    committed e' = (if r is inr _ then v else committed e) /\ working e' = None;
  engine_rollback e :
    let '(r, e') := exec_sql e (lit "ROLLBACK") [] None in
    committed e' = committed e /\ (if r is inr _ then working e' = None else True);
  engine_create e spec : spec ∈ mirrored -> working e = None ->
    let '(r, e') := exec_sql e (create_table_sql spec) [] None in committed e' = committed e /\ working e' = None;
  engine_select e spec key : spec ∈ mirrored -> working e = None ->
    let s := select_by_key_statement spec key in
    let '(r, e') := exec_sql e (ss_sql s) (ss_params s) (Some (tsp_schema spec)) in
    committed e' = committed e /\ working e' = None /\ forall rows, r = inr rows -> head rows = committed e (tsp_name spec) !! key
}.

(** ** The adapter *)

Section Adapter.
Context {mirrored : list TableSpec} `{!SqlEngine mirrored}.

(** The loop of [run_transaction]: the first failure rolls back, and is what the caller sees. *)
Fixpoint run_statements (e : engine) (statements : list SqlStatement) : db_result * engine :=
  match statements with
  | [] => (None, e)
  | s :: rest =>
      match exec_sql e (ss_sql s) (ss_params s) None with
      | (inr _, e) => run_statements e rest
      | (inl err, e) => let '(_, e) := exec_sql e (lit "ROLLBACK") [] None in (Some err, e)
      end
  end.
Definition run_transaction (e : engine) (statements : list SqlStatement) : db_result * engine :=
  match exec_sql e (lit "BEGIN") [] None with
  | (inl err, e) => (Some err, e)
  | (inr _, e) =>
      match run_statements e statements with
      | (Some err, e) => (Some err, e)
      | (None, e) =>
          match exec_sql e (lit "COMMIT") [] None with
          | (inl err, e) => (Some err, e)
          | (inr _, e) => (None, e)
          end
      end
  end.

Definition sql_ensure_table (e : engine) (spec : TableSpec) : db_result * engine :=
  match exec_sql e (create_table_sql spec) [] None with
  | (inl err, e) => (Some err, e)
  | (inr _, e) => (None, e)
  end.
Definition sql_replace_rows (e : engine) (spec : TableSpec) (rows : list WireRow) : db_result * engine :=
  run_transaction e (delete_all_statement spec :: map (upsert_statement spec) rows).
Definition sql_apply_writes (e : engine) (spec : TableSpec) (writes : list LocalWrite) : db_result * engine :=
  match map (write_statement spec) writes with
  | [] => (None, e)
  | statements => run_transaction e statements
  end.
Definition sql_get_row (e : engine) (spec : TableSpec) (key : PrimaryKey) : (LocalDbError + option WireRow) * engine :=
  let s := select_by_key_statement spec key in
  match exec_sql e (ss_sql s) (ss_params s) (Some (tsp_schema spec)) with
  | (inl err, e) => (inl err, e)
  | (inr rows, e) => (inr (head rows), e)
  end.
Definition sql_query (e : engine) (sql : text) (params : list WireDatum) : (LocalDbError + list WireRow) * engine := exec_sql e sql params None.

(** ** Batches are atomic *)

Definition does (s : SqlStatement) (f : tables -> tables) : Prop := forall e v, working e = Some v ->
  let '(r, e') := exec_sql e (ss_sql s) (ss_params s) None in
  committed e' = committed e /\ (if r is inr _ then working e' = Some (f v) else True).

Lemma run_statements_does l fs : Forall2 does l fs -> forall e v, working e = Some v ->
  let '(r, e') := run_statements e l in
  committed e' = committed e /\ (r = None -> working e' = Some (fold_left (fun v f => f v) fs v)).
Proof.
  induction 1 as [|s f l fs Hs _ IH]; intros e v Hv; cbn [run_statements fold_left]; [by split; [|intros _]|].
  specialize (Hs e v Hv). destruct (exec_sql e (ss_sql s) (ss_params s) None) as [[err|rows] e1].
  - pose proof (engine_rollback e1) as Hr. destruct (exec_sql e1 (lit "ROLLBACK") [] None) as [r e2]. destruct Hr as [Hr _], Hs as [Hs _].
    split; [congruence | done].
  - destruct Hs as [Hc Hw]. specialize (IH e1 (f v) Hw). destruct (run_statements e1 l) as [r e2]. destruct IH as [Hc2 Hw2]. split; [congruence | exact Hw2].
Qed.

Lemma run_transaction_does l fs e : Forall2 does l fs -> working e = None ->
  let '(r, e') := run_transaction e l in
  committed e' = (match r with None => fold_left (fun v f => f v) fs (committed e) | Some _ => committed e end) /\ (r = None -> working e' = None).
Proof.
  intros Hl Hw. unfold run_transaction. pose proof (engine_begin e Hw) as Hb. destruct (exec_sql e (lit "BEGIN") [] None) as [[err|rows] e1]; [by destruct Hb|].
  destruct Hb as [Hc1 Hw1]. pose proof (run_statements_does l fs Hl e1 _ Hw1) as Hr. destruct (run_statements e1 l) as [[err|] e2].
  - destruct Hr as [Hr _]. split; [congruence | done].
  - destruct Hr as [Hc2 Hw2]. specialize (Hw2 eq_refl). pose proof (engine_commit e2 _ Hw2) as Hcm.
    destruct (exec_sql e2 (lit "COMMIT") [] None) as [[err|rows'] e3]; destruct Hcm as [Hc3 Hw3]; (split; [congruence | done]).
Qed.

Lemma write_does spec w : spec ∈ mirrored ->
  does (write_statement spec w) (fun v => update_table v (tsp_name spec) (write_rows spec (v (tsp_name spec)) w)).
Proof. intros Hin e v Hv. by apply engine_write. Qed.

Lemma updates_fold spec ws : forall v t,
  fold_left (fun v f => f v) (map (fun w v => update_table v (tsp_name spec) (write_rows spec (v (tsp_name spec)) w)) ws) v t =
  if decide (t = tsp_name spec) then fold_left (write_rows spec) ws (v t) else v t.
Proof.
  induction ws as [|w ws IH]; intros v t; cbn [map fold_left]; [by destruct (decide (t = tsp_name spec))|].
  rewrite IH. unfold update_table. destruct (decide (t = tsp_name spec)) as [->|]; done.
Qed.

(** Over an engine that keeps its promises, the adapter does what the trait asks of a local database: on an
    idle session, a batch of writes or a replacement is applied as a whole or, with an error, not at all,
    other tables are left alone, a read returns the committed row, and a success leaves the session idle. *)
Theorem sql_database_atomic (spec : TableSpec) (e : engine) :
  spec ∈ mirrored -> working e = None ->
  (forall writes, let '(r, e') := sql_apply_writes e spec writes in
    (forall t, committed e' t = match r with
                                | None => if decide (t = tsp_name spec) then fold_left (write_rows spec) writes (committed e t) else committed e t
                                | Some _ => committed e t
                                end) /\ (r = None -> working e' = None)) /\
  (forall rows, let '(r, e') := sql_replace_rows e spec rows in
    (forall t, committed e' t = match r with
                                | None => if decide (t = tsp_name spec) then rows_map spec rows else committed e t
                                | Some _ => committed e t
                                end) /\ (r = None -> working e' = None)) /\
  (let '(r, e') := sql_ensure_table e spec in committed e' = committed e /\ working e' = None) /\
  (forall key, let '(r, e') := sql_get_row e spec key in
    committed e' = committed e /\ working e' = None /\ forall row, r = inr row -> row = committed e (tsp_name spec) !! key).
Proof.
  intros Hin Hw. split; [|split; [|split]].
  - intros writes. unfold sql_apply_writes. destruct writes as [|w ws]; cbn [map].
    { split; [|done]. intros t. by destruct (decide (t = tsp_name spec)). }
    change (write_statement spec w :: map (write_statement spec) ws) with (map (write_statement spec) (w :: ws)).
    pose proof (run_transaction_does (map (write_statement spec) (w :: ws))
                  (map (fun w v => update_table v (tsp_name spec) (write_rows spec (v (tsp_name spec)) w)) (w :: ws)) e) as Ht.
    destruct (run_transaction e _) as [r e']. destruct Ht as [Hc Hidle]; [|done|].
    { apply Forall2_fmap_2, Forall_Forall2_diag, Forall_forall. intros x _. by apply write_does. }
    split; [|done]. intros t. rewrite Hc. destruct r; [done|]. apply updates_fold.
  - intros rows. unfold sql_replace_rows.
    pose proof (run_transaction_does (delete_all_statement spec :: map (upsert_statement spec) rows)
                  ((fun v => update_table v (tsp_name spec) ∅) ::
                   map (fun w v => update_table v (tsp_name spec) (write_rows spec (v (tsp_name spec)) w)) (map LW_Upsert rows)) e) as Ht.
    destruct (run_transaction e _) as [r e']. destruct Ht as [Hc Hidle]; [|done|].
    { constructor; [intros e0 v Hv; by apply engine_clear|]. rewrite map_map. apply Forall2_fmap_2, Forall_Forall2_diag, Forall_forall.
      intros row _. apply (write_does spec (LW_Upsert row)). done. }
    split; [|done]. intros t. rewrite Hc. destruct r; [done|]. cbn [fold_left]. rewrite updates_fold. unfold update_table.
    destruct (decide (t = tsp_name spec)); [|done]. unfold rows_map. generalize (∅ : gmap PrimaryKey WireRow). clear.
    induction rows as [|row rows IH]; intros m; cbn [map fold_left]; [done | apply IH].
  - unfold sql_ensure_table. pose proof (engine_create e spec Hin Hw) as Hc. destruct (exec_sql e (create_table_sql spec) [] None) as [[err|rows] e']; done.
  - intros key. unfold sql_get_row. pose proof (engine_select e spec key Hin Hw) as Hs. cbn zeta in Hs.
    destruct (exec_sql e _ _ _) as [[err|rows] e']; destruct Hs as (Hc & Hw' & Hrows); split; try done.
    split; [done|]. intros row [= <-]. by apply Hrows.
Qed.
End Adapter.
