(* ===== verification/Materialize.v ===== *)
(** * Materialize: partial materialisation and TOAST lookups
    ([crates/palimpsest-dataflow/src/palimpsest/materialization.rs], [toast.rs])

    [MaterializedKeys] tracks which keys of an arrangement are present and which
    are being fetched; its specification is one small automaton per key, and the
    refinement theorem says that keys never interfere. [ToastResolver] answers a
    column read from its cache of rows, or from a point select; it is specified by
    the history of the rows it was given. *)

From S2P Require Import Prelude BTree Values.

(** ** Key sets *)

Inductive KeyStatus := KS_Materialized | KS_Pending | KS_Missing.

Section Keys.
Context {K : Type} `{Ord K}.
#[local] Existing Instance ord_eq_dec | 100.

Inductive LookupOutcome := LO_Hit (key : K) | LO_Upquery (key : K) | LO_AlreadyPending (key : K).

Record MaterializedKeys := {
  mk_materialized : btree K unit;
  mk_pending : btree K unit;
  mk_pending_waiters : btree K Z
}.

Definition MaterializedKeys_new : MaterializedKeys :=
  {| mk_materialized := []; mk_pending := []; mk_pending_waiters := [] |}.

(** [BTreeSet::contains]. *)
Definition contains (k : K) (s : btree K unit) : bool := bool_decide (is_Some (bt_get k s)).

Definition status (t : MaterializedKeys) (key : K) : KeyStatus :=
  if contains key (mk_materialized t) then KS_Materialized
  else if contains key (mk_pending t) then KS_Pending
  else KS_Missing.

Definition lookup_key (t : MaterializedKeys) (key : K) : LookupOutcome * MaterializedKeys :=
  if contains key (mk_materialized t) then (LO_Hit key, t)
  else if contains key (mk_pending t) then
    (LO_AlreadyPending key,
     {| mk_materialized := mk_materialized t; mk_pending := mk_pending t;
        mk_pending_waiters := bt_entry key 0 (fun n => uint 64 (n + 1)) (mk_pending_waiters t) |})
  else
    (LO_Upquery key,
     {| mk_materialized := mk_materialized t; mk_pending := bt_insert key tt (mk_pending t);
        mk_pending_waiters := bt_insert key 1 (mk_pending_waiters t) |}).

Definition mark_materialized (t : MaterializedKeys) (key : K) : Z * MaterializedKeys :=
  (default 0 (bt_get key (mk_pending_waiters t)),
   {| mk_materialized := bt_insert key tt (mk_materialized t);
      mk_pending := bt_remove key (mk_pending t);
      mk_pending_waiters := bt_remove key (mk_pending_waiters t) |}).

Definition mark_many_materialized (t : MaterializedKeys) (keys : list K) : Z * MaterializedKeys :=
  fold_left (fun '(total, t) key =>
    let '(waiters, t') := mark_materialized t key in (uint 64 (total + waiters), t')) keys (0, t).

Definition forget (t : MaterializedKeys) (key : K) : bool * MaterializedKeys :=
  (contains key (mk_materialized t),
   {| mk_materialized := bt_remove key (mk_materialized t); mk_pending := mk_pending t;
      mk_pending_waiters := mk_pending_waiters t |}).

Definition fail_pending (t : MaterializedKeys) (key : K) : Z * MaterializedKeys :=
  (default 0 (bt_get key (mk_pending_waiters t)),
   {| mk_materialized := mk_materialized t; mk_pending := bt_remove key (mk_pending t);
      mk_pending_waiters := bt_remove key (mk_pending_waiters t) |}).

Record BatchLookup := { bl_hits : list K; bl_upqueries : list K; bl_already_pending : list K }.

Definition batch_push (b : BatchLookup) (o : LookupOutcome) : BatchLookup :=
  match o with
  | LO_Hit key =>
      {| bl_hits := bl_hits b ++ [key]; bl_upqueries := bl_upqueries b; bl_already_pending := bl_already_pending b |}
  | LO_Upquery key =>
      {| bl_hits := bl_hits b; bl_upqueries := bl_upqueries b ++ [key]; bl_already_pending := bl_already_pending b |}
  | LO_AlreadyPending key =>
      {| bl_hits := bl_hits b; bl_upqueries := bl_upqueries b; bl_already_pending := bl_already_pending b ++ [key] |}
  end.

Definition lookup_batch (t : MaterializedKeys) (keys : list K) : BatchLookup * MaterializedKeys :=
  fold_left (fun '(b, t) key => let '(o, t') := lookup_key t key in (batch_push b o, t')) keys
    ({| bl_hits := []; bl_upqueries := []; bl_already_pending := [] |}, t).

(** ** The tracker of several arrangements *)

Definition MaterializationTracker : Type := btree string MaterializedKeys.

Record ArrangementAlreadyTracked := { aat_name : string }.

Definition register (t : MaterializationTracker) (name : string)
  : exec ArrangementAlreadyTracked MaterializationTracker :=
  match bt_get name t with
  | None => Ok (bt_insert name MaterializedKeys_new t)
  | Some _ => Err {| aat_name := name |}
  end.

(** [arrangement_mut(name)] followed by an operation on the view. *)
Definition with_arrangement {A} (t : MaterializationTracker) (name : string)
    (f : MaterializedKeys -> A * MaterializedKeys) : option A * MaterializationTracker :=
  match bt_get name t with
  | None => (None, t)
  | Some m => let '(a, m') := f m in (Some a, bt_insert name m' t)
  end.

Definition forget_arrangement (t : MaterializationTracker) (name : string)
  : option MaterializedKeys * MaterializationTracker := (bt_get name t, bt_remove name t).

(** ** Specification: an automaton per key *)

(** [Fetching n]: an upquery is in flight and [n] lookups wait for it. *)
Inductive key_state := Absent | Fetching (n : Z) | Present.
Inductive request := Rq_Lookup | Rq_Mark | Rq_Forget | Rq_Fail.
Inductive answer := An_Hit | An_Upquery | An_AlreadyPending | An_Waiters (n : Z) | An_Removed (b : bool).

Definition waiting (s : key_state) : Z := match s with Fetching n => uint 64 n | _ => 0 end.

Definition key_step (s : key_state) (r : request) : answer * key_state :=
  match r, s with
  | Rq_Lookup, Absent => (An_Upquery, Fetching 1)
  | Rq_Lookup, Fetching n => (An_AlreadyPending, Fetching (n + 1))
  | Rq_Lookup, Present => (An_Hit, Present)
  | Rq_Mark, _ => (An_Waiters (waiting s), Present)
  | Rq_Forget, Present => (An_Removed true, Absent)
  | Rq_Forget, _ => (An_Removed false, s)
  | Rq_Fail, Fetching _ => (An_Waiters (waiting s), Absent)
  | Rq_Fail, _ => (An_Waiters 0, s)
  end.

Fixpoint key_run (s : key_state) (rs : list request) : list answer * key_state :=
  match rs with
  | [] => ([], s)
  | r :: rs' => let '(a, s') := key_step s r in let '(l, s'') := key_run s' rs' in (a :: l, s'')
  end.

Definition outcome_answer (o : LookupOutcome) : answer :=
  match o with LO_Hit _ => An_Hit | LO_Upquery _ => An_Upquery | LO_AlreadyPending _ => An_AlreadyPending end.
Definition outcome_key (o : LookupOutcome) : K :=
  match o with LO_Hit k | LO_Upquery k | LO_AlreadyPending k => k end.

(** One call on the tracker, with the key its answer is about. *)
Definition tracker_step (t : MaterializedKeys) (op : K * request) : (K * answer) * MaterializedKeys :=
  let '(key, r) := op in
  match r with
  | Rq_Lookup => let '(o, t') := lookup_key t key in ((outcome_key o, outcome_answer o), t')
  | Rq_Mark => let '(n, t') := mark_materialized t key in ((key, An_Waiters n), t')
  | Rq_Forget => let '(b, t') := forget t key in ((key, An_Removed b), t')
  | Rq_Fail => let '(n, t') := fail_pending t key in ((key, An_Waiters n), t')
  end.

Fixpoint tracker_run (t : MaterializedKeys) (ops : list (K * request)) : list (K * answer) * MaterializedKeys :=
  match ops with
  | [] => ([], t)
  | op :: ops' => let '(a, t') := tracker_step t op in let '(l, t'') := tracker_run t' ops' in (a :: l, t'')
  end.

(** What concerns [k] in a list of calls or answers. *)
Definition at_key {A} (k : K) (l : list (K * A)) : list A :=
  filter_map (fun p => if decide (p.1 = k) then Some p.2 else None) l.

Definition status_of (s : key_state) : KeyStatus :=
  match s with Absent => KS_Missing | Fetching _ => KS_Pending | Present => KS_Materialized end.

(** The key's entries in the three collections. *)
Record key_rel (t : MaterializedKeys) (k : K) (s : key_state) : Prop := {
  kr_materialized : bt_get k (mk_materialized t) = match s with Present => Some tt | _ => None end;
  kr_pending : bt_get k (mk_pending t) = match s with Fetching _ => Some tt | _ => None end;
  kr_waiters : bt_get k (mk_pending_waiters t) = match s with Fetching n => Some (uint 64 n) | _ => None end
}.

Record keys_wf (t : MaterializedKeys) : Prop := {
  kw_materialized : bt_wf (mk_materialized t);
  kw_pending : bt_wf (mk_pending t);
  kw_waiters : bt_wf (mk_pending_waiters t)
}.

Lemma key_rel_status t k s : key_rel t k s -> status t k = status_of s.
Proof. intros [Hm Hp _]. unfold status, contains. rewrite Hm, Hp. by destruct s. Qed.

Lemma tracker_step_wf t op : keys_wf t -> keys_wf (tracker_step t op).2.
Proof.
  intros [Hm Hp Hw]. destruct op as [key []]; simpl; [|split; cbn; auto with palimpsest..].
  unfold lookup_key, bt_entry. destruct (contains _ _); [done|].
  destruct (contains _ _); split; cbn; auto with palimpsest.
Qed.

Lemma tracker_step_other t key r k s :
  keys_wf t -> k <> key -> key_rel t k s -> key_rel (tracker_step t (key, r)).2 k s.
Proof.
  intros [Hm Hp Hw] Hne [H1 H2 H3].
  destruct r; simpl; [unfold lookup_key, bt_entry; destruct (contains _ _); [by split|]; destruct (contains _ _)|..];
    split; cbn; rewrite ?bt_get_insert_ne, ?bt_get_remove_ne by done; done.
Qed.

Lemma tracker_step_same t key r s :
  keys_wf t -> key_rel t key s ->
  (tracker_step t (key, r)).1 = (key, (key_step s r).1) /\ key_rel (tracker_step t (key, r)).2 key (key_step s r).2.
Proof.
  intros [Hm Hp Hw] [H1 H2 H3].
  assert (forall n, uint 64 (uint 64 n + 1) = uint 64 (n + 1)) as Hu
    by (intros n; unfold uint; by rewrite Zplus_mod_idemp_l).
  destruct r; simpl; unfold lookup_key, bt_entry, contains, waiting; rewrite ?H1, ?H2, ?H3; destruct s; cbn;
    (split; [done|]); split; cbn; rewrite ?bt_get_insert_eq, ?bt_get_remove_eq, ?H3 by done; cbn; rewrite ?Hu; try done.
Qed.

Lemma tracker_run_rel t ops k s :
  keys_wf t -> key_rel t k s ->
  at_key k (tracker_run t ops).1 = (key_run s (at_key k ops)).1 /\
  key_rel (tracker_run t ops).2 k (key_run s (at_key k ops)).2.
Proof.
  revert t s. induction ops as [|[key r] ops IH]; intros t s Hwf Hk; [done|].
  pose proof (tracker_step_wf t (key, r) Hwf) as Hwf'. unfold at_key in *. cbn [tracker_run filter_map fst].
  destruct (decide (key = k)) as [->|Hne].
  - destruct (tracker_step_same t k r s Hwf Hk) as [Ha Hk']. destruct (tracker_step t (k, r)) as [a t'].
    cbn in Ha, Hk', Hwf'. subst a. specialize (IH t' _ Hwf' Hk') as [IH1 IH2]. cbn.
    destruct (key_step s r) as [a s'], (tracker_run t' ops) as [l t'']. cbn in *.
    destruct (key_run s' _) as [l' s'']. cbn in *. destruct (decide (k = k)); [|done]. by rewrite IH1.
  - pose proof (tracker_step_other t key r k s Hwf ltac:(congruence) Hk) as Hk'.
    assert ((tracker_step t (key, r)).1.1 = key) as Ha.
    { destruct r; simpl; [|done..]. unfold lookup_key. destruct (contains _ _); [done|]. by destruct (contains _ _). }
    destruct (tracker_step t (key, r)) as [[ka a] t']. cbn in Ha, Hk', Hwf'. subst ka.
    specialize (IH t' s Hwf' Hk') as [IH1 IH2]. destruct (tracker_run t' ops) as [l t'']. cbn in *.
    by destruct (decide (key = k)).
Qed.

(** For any sequence of lookups, completions, evictions and failures on a key tracker, the
    answers given for each key and its status are those of a small automaton of that key alone:
    absent, fetching with its number of waiters, or present; so one upquery is issued per fetch and
    keys never interfere. *)
Theorem tracker_refines_keys ops k :
  at_key k (tracker_run MaterializedKeys_new ops).1 = (key_run Absent (at_key k ops)).1 /\
  status (tracker_run MaterializedKeys_new ops).2 k = status_of (key_run Absent (at_key k ops)).2.
Proof.
  destruct (tracker_run_rel MaterializedKeys_new ops k Absent) as [H1 H2]; [by repeat constructor | done|].
  split; [done|]. by apply key_rel_status.
Qed.

(** ** Batches are sequences of lookups *)

Definition batch_of (l : list (K * answer)) : BatchLookup :=
  let pick a := filter_map (fun p : K * answer => match p.2, a with
    | An_Hit, An_Hit | An_Upquery, An_Upquery | An_AlreadyPending, An_AlreadyPending => Some p.1
    | _, _ => None end) l in
  {| bl_hits := pick An_Hit; bl_upqueries := pick An_Upquery; bl_already_pending := pick An_AlreadyPending |}.

Lemma lookup_batch_run t keys :
  lookup_batch t keys =
  let '(l, t') := tracker_run t (map (fun k => (k, Rq_Lookup)) keys) in (batch_of l, t').
Proof.
  unfold lookup_batch.
  assert (forall b t, fold_left (fun '(b, t) key => let '(o, t') := lookup_key t key in (batch_push b o, t')) keys (b, t)
    = let '(l, t') := tracker_run t (map (fun k => (k, Rq_Lookup)) keys) in
      ({| bl_hits := bl_hits b ++ bl_hits (batch_of l); bl_upqueries := bl_upqueries b ++ bl_upqueries (batch_of l);
          bl_already_pending := bl_already_pending b ++ bl_already_pending (batch_of l) |}, t')) as Hgen.
  { induction keys as [|key keys IH]; intros b t0; [destruct b; cbn; by rewrite !app_nil_r|].
    cbn [fold_left map tracker_run tracker_step]. destruct (lookup_key t0 key) as [o t1]. rewrite IH.
    destruct (tracker_run t1 _) as [l t2]. destruct o; cbn; by rewrite <- ?app_assoc. }
  rewrite Hgen. by destruct (tracker_run t _).
Qed.

Definition waiters_total (l : list (K * answer)) : Z :=
  foldr (fun p acc => match p.2 with An_Waiters n => n + acc | _ => acc end) 0 l.

Lemma mark_many_run t keys :
  mark_many_materialized t keys =
  let '(l, t') := tracker_run t (map (fun k => (k, Rq_Mark)) keys) in (uint 64 (waiters_total l), t').
Proof.
  unfold mark_many_materialized.
  assert (forall z t, fold_left (fun '(total, t) key =>
      let '(waiters, t') := mark_materialized t key in (uint 64 (total + waiters), t')) keys (uint 64 z, t)
    = let '(l, t') := tracker_run t (map (fun k => (k, Rq_Mark)) keys) in (uint 64 (z + waiters_total l), t')) as Hgen.
  { induction keys as [|key keys IH]; intros z t0; [cbn; by rewrite Z.add_0_r|].
    cbn [fold_left map tracker_run tracker_step]. destruct (mark_materialized t0 key) as [n t1].
    replace (uint 64 (uint 64 z + n)) with (uint 64 (z + n)) by (unfold uint; by rewrite Zplus_mod_idemp_l).
    rewrite IH. destruct (tracker_run t1 _) as [l t2]. cbn. by rewrite Z.add_assoc. }
  exact (Hgen 0 t).
Qed.
End Keys.
Arguments LookupOutcome : clear implicits.
Arguments MaterializedKeys : clear implicits.

(** ** TOAST values *)

Record ColumnLocation := { cl_table : Z; cl_column : nat }.
Abbreviation RowKey := (list byte).

Inductive ToastOutcome := TO_Cached (d : Datum) | TO_PointSelect (d : Datum) | TO_Missing.

Definition into_datum (o : ToastOutcome) : option Datum :=
  match o with TO_Cached d | TO_PointSelect d => Some d | TO_Missing => None end.

(** The trait of that name. *)
Class PointSelect (S : Type) : Type := { point_select : S -> ColumnLocation -> RowKey -> option Datum }.

Definition ArrangementCache : Type := btree (Z * RowKey) Row.
Definition arrangement_insert (c : ArrangementCache) (table : Z) (key : RowKey) (row : Row) : ArrangementCache :=
  bt_insert (table, key) row c.
Definition arrangement_remove (c : ArrangementCache) (table : Z) (key : RowKey) : option Row * ArrangementCache :=
  (bt_get (table, key) c, bt_remove (table, key) c).
Definition arrangement_get (c : ArrangementCache) (loc : ColumnLocation) (key : RowKey) : option Datum :=
  row ← bt_get (cl_table loc, key) c; row !! cl_column loc.

Record ToastStats := { ts_cached_hits : Z; ts_point_select_hits : Z; ts_misses : Z }.

Section Toast.
Context {S : Type} `{PointSelect S}.

Record ToastResolver := {
  tr_cache : ArrangementCache; tr_source : S;
  tr_cached_hits : Z; tr_point_select_hits : Z; tr_misses : Z
}.

Definition ToastResolver_new (source : S) : ToastResolver :=
  {| tr_cache := []; tr_source := source; tr_cached_hits := 0; tr_point_select_hits := 0; tr_misses := 0 |}.

Definition toast_resolve (r : ToastResolver) (loc : ColumnLocation) (key : RowKey) : ToastOutcome * ToastResolver :=
  match arrangement_get (tr_cache r) loc key with
  | Some value =>
      (TO_Cached value,
       {| tr_cache := tr_cache r; tr_source := tr_source r;
          tr_cached_hits := saturating_add USIZE_MAX (tr_cached_hits r) 1;
          tr_point_select_hits := tr_point_select_hits r; tr_misses := tr_misses r |})
  | None =>
      match point_select (tr_source r) loc key with
      | Some value =>
          (TO_PointSelect value,
           {| tr_cache := tr_cache r; tr_source := tr_source r; tr_cached_hits := tr_cached_hits r;
              tr_point_select_hits := saturating_add USIZE_MAX (tr_point_select_hits r) 1; tr_misses := tr_misses r |})
      | None =>
          (TO_Missing,
           {| tr_cache := tr_cache r; tr_source := tr_source r; tr_cached_hits := tr_cached_hits r;
              tr_point_select_hits := tr_point_select_hits r; tr_misses := saturating_add USIZE_MAX (tr_misses r) 1 |})
      end
  end.

Definition with_cache (r : ToastResolver) (c : ArrangementCache) : ToastResolver :=
  {| tr_cache := c; tr_source := tr_source r; tr_cached_hits := tr_cached_hits r;
     tr_point_select_hits := tr_point_select_hits r; tr_misses := tr_misses r |}.
Definition record_row (r : ToastResolver) (table : Z) (key : RowKey) (row : Row) : ToastResolver :=
  with_cache r (arrangement_insert (tr_cache r) table key row).
Definition forget_row (r : ToastResolver) (table : Z) (key : RowKey) : ToastResolver :=
  with_cache r (arrangement_remove (tr_cache r) table key).2.

Definition toast_stats (r : ToastResolver) : ToastStats :=
  {| ts_cached_hits := tr_cached_hits r; ts_point_select_hits := tr_point_select_hits r; ts_misses := tr_misses r |}.

(** ** Specification: the rows a history leaves known *)

Inductive toast_op :=
| Op_Record (table : Z) (key : RowKey) (row : Row)
| Op_Forget (table : Z) (key : RowKey)
| Op_Resolve (loc : ColumnLocation) (key : RowKey).

Definition toast_step (r : ToastResolver) (op : toast_op) : ToastResolver :=
  match op with
  | Op_Record table key row => record_row r table key row
  | Op_Forget table key => forget_row r table key
  | Op_Resolve loc key => (toast_resolve r loc key).2
  end.

(** The last row recorded for a key and not forgotten since; the newest
    operation is the head of the list. *)
Fixpoint known_row (table : Z) (key : RowKey) (newest_first : list toast_op) : option Row :=
  match newest_first with
  | [] => None
  | Op_Record t k row :: ops => if decide ((table, key) = (t, k)) then Some row else known_row table key ops
  | Op_Forget t k :: ops => if decide ((table, key) = (t, k)) then None else known_row table key ops
  | Op_Resolve _ _ :: ops => known_row table key ops
  end.

Definition is_resolve (op : toast_op) : bool := match op with Op_Resolve _ _ => true | _ => false end.
Definition resolves (ops : list toast_op) : Z := Z.of_nat (length (List.filter is_resolve ops)).

(** The answer the history calls for. *)
Definition expected (source : S) (ops : list toast_op) (loc : ColumnLocation) (key : RowKey) : ToastOutcome :=
  match known_row (cl_table loc) key (rev ops) ≫= (.!! cl_column loc), point_select source loc key with
  | Some d, _ => TO_Cached d
  | None, Some d => TO_PointSelect d
  | None, None => TO_Missing
  end.

Lemma resolve_frame r loc key :
  tr_cache (toast_resolve r loc key).2 = tr_cache r /\ tr_source (toast_resolve r loc key).2 = tr_source r.
Proof. unfold toast_resolve. destruct (arrangement_get _ _ _); [done|]. by destruct (point_select _ _ _). Qed.

Lemma toast_cache source ops :
  let r := fold_left toast_step ops (ToastResolver_new source) in
  bt_wf (tr_cache r) /\ tr_source r = source /\
  forall table key, bt_get (table, key) (tr_cache r) = known_row table key (rev ops).
Proof.
  induction ops as [|op ops IH] using rev_ind; [by split; [constructor|]|].
  rewrite fold_left_app, rev_app_distr. cbn zeta in *. cbn [fold_left app rev known_row].
  destruct IH as (Hwf & Hs & Hg). destruct op as [t k row|t k|loc k]; cbn [toast_step].
  - split; [by apply bt_wf_insert|]. split; [done|]. intros table key. cbn. unfold arrangement_insert.
    rewrite bt_get_insert, Hg by done. by repeat destruct (decide _).
  - split; [by apply bt_wf_remove|]. split; [done|]. intros table key. cbn.
    rewrite bt_get_remove, Hg by done. by repeat destruct (decide _).
  - destruct (resolve_frame (fold_left toast_step ops (ToastResolver_new source)) loc k) as [-> ->]. done.
Qed.

Lemma toast_counts source ops :
  let st := toast_stats (fold_left toast_step ops (ToastResolver_new source)) in
  resolves ops <= USIZE_MAX ->
  0 <= ts_cached_hits st /\ 0 <= ts_point_select_hits st /\ 0 <= ts_misses st /\
  ts_cached_hits st + ts_point_select_hits st + ts_misses st = resolves ops.
Proof.
  induction ops as [|op ops IH] using rev_ind; [done|].
  rewrite fold_left_app. cbn zeta in *. unfold resolves in *. rewrite List.filter_app, length_app, Nat2Z.inj_add.
  cbn [fold_left]. intros Hle. specialize (IH ltac:(lia)).
  destruct op as [t k row|t k|loc k]; cbn [toast_step]; [cbn in *; lia..|].
  cbn [List.filter is_resolve length] in *. unfold toast_stats, toast_resolve in *. cbn in IH.
  destruct (arrangement_get _ _ _); [|destruct (point_select _ _ _)]; cbn; rewrite saturating_add_exact; lia.
Qed.

(** After any history of recorded and forgotten rows and of lookups, a TOAST lookup answers the
    column of the last row recorded for its key and not forgotten since, and only without one asks
    the point select; the counters add up to the number of lookups. *)
Theorem resolver_follows_history source ops loc key :
  let r := fold_left toast_step ops (ToastResolver_new source) in
  (toast_resolve r loc key).1 = expected source ops loc key /\
  (resolves ops <= USIZE_MAX ->
   ts_cached_hits (toast_stats r) + ts_point_select_hits (toast_stats r) + ts_misses (toast_stats r) = resolves ops).
Proof.
  intros r. split; [|intros Hr; by destruct (toast_counts source ops Hr) as (_ & _ & _ & ?)].
  destruct (toast_cache source ops) as (_ & Hs & Hg). unfold toast_resolve, arrangement_get, expected. fold r in Hs, Hg.
  rewrite Hg, Hs. destruct (_ ≫= _); [done|]. by destruct (point_select _ _ _).
Qed.
End Toast.
Arguments ToastResolver : clear implicits.
