(* ===== verification/Upquery.v ===== *)
(** * Upquery: which base tables to ask, and how
    ([crates/palimpsest-dataflow/src/palimpsest/upquery.rs])

    A missing key is fetched from the base tables of a query. The planner walks the
    query graph from its root with a stack and a visited set; the theorems say that
    it terminates, that it finds exactly the tables that feed the root, and that the
    statement it renders quotes its keys faithfully. *)

From Stdlib Require Import Sorted.
From S2P Require Import Prelude BTree Text Mir.

Record UpqueryRequest := { uq_table : text; uq_primary_key : text; uq_keys : list text }.

(** ** Rendering *)

Definition to_sql (r : UpqueryRequest) : text :=
  lit "SELECT * FROM " ++ uq_table r ++ lit " WHERE " ++ uq_primary_key r ++ lit " IN (" ++
  join (lit ", ") (map quoted (uq_keys r)) ++ lit ")".

(** ** Reading the rendered list back, as SQL reads it *)

(** The rest of a string literal after its opening quote: a doubled quote is a
    quote, a single one ends the literal. *)
Fixpoint read_literal (t : text) : option (text * text) :=
  match t with
  | [] => None
  | c :: t' =>
      if decide (c = x27) then
        match t' with
        | c' :: t'' =>
            if decide (c' = x27) then '(k, rest) ← read_literal t''; Some (x27 :: k, rest) else Some ([], t')
        | [] => Some ([], [])
        end
      else '(k, rest) ← read_literal t'; Some (c :: k, rest)
  end.

(** Literals separated by commas, up to the first thing that is neither. *)
Fixpoint read_literals (fuel : nat) (t : text) : option (list text * text) :=
  match fuel, t with
  | S fuel', c :: t' =>
      if decide (c = x27) then
        '(k, rest) ← read_literal t';
        match strip_prefix (lit ", ") rest with
        | Some rest' => '(ks, final) ← read_literals fuel' rest'; Some (k :: ks, final)
        | None => Some ([k], rest)
        end
      else None
  | _, _ => None
  end.

Definition opens_quote (t : text) : bool := match t with c :: _ => bool_decide (c = x27) | [] => false end.

Lemma read_literal_quote key rest :
  opens_quote rest = false -> read_literal (escape_quotes key ++ x27 :: rest) = Some (key, rest).
Proof.
  intros Hr. induction key as [|c key IH]; unfold escape_quotes in *; simpl.
  - destruct rest as [|c rest]; [done|]. simpl in Hr. apply bool_decide_eq_false in Hr. by destruct (decide _).
  - destruct (decide (c = x27)) as [->|Hc]; simpl; [by rewrite IH|]. rewrite decide_False by done. by rewrite IH.
Qed.

Lemma read_literals_step fuel k rest :
  opens_quote rest = false ->
  read_literals (S fuel) (quoted k ++ rest) =
  match strip_prefix (lit ", ") rest with
  | Some rest' => '(ks, final) ← read_literals fuel rest'; Some (k :: ks, final)
  | None => Some ([k], rest)
  end.
Proof.
  intros Hq. unfold quoted. rewrite <- !app_assoc. cbn [read_literals app].
  destruct (decide (x27 = x27)); [|done]. by rewrite read_literal_quote.
Qed.

Lemma read_literals_join fuel keys rest :
  keys <> [] -> (length keys <= fuel)%nat -> opens_quote rest = false -> strip_prefix (lit ", ") rest = None ->
  read_literals fuel (join (lit ", ") (map quoted keys) ++ rest) = Some (keys, rest).
Proof.
  intros Hne Hf Hq Hs. revert fuel Hf. induction keys as [|k keys IH]; intros fuel Hf; [done|].
  destruct fuel as [|fuel]; [simpl in Hf; lia|]. destruct keys as [|k' keys].
  - cbn [map join]. by rewrite read_literals_step, Hs.
  - cbn [map join] in *. rewrite <- !app_assoc, read_literals_step by done.
    change (strip_prefix (lit ", ") (lit ", " ++ ?x)) with (Some x).
    cbn [map join mbind option_bind]. rewrite IH; [done..|simpl in *; lia].
Qed.

(** The IN list of a rendered upquery, read with the rules of SQL string literals, is the list
    of requested keys, whatever bytes the keys hold, and the statement ends right after it. *)
Theorem to_sql_reads_back r :
  uq_keys r <> [] ->
  exists values, to_sql r = lit "SELECT * FROM " ++ uq_table r ++ lit " WHERE " ++ uq_primary_key r ++ lit " IN (" ++ values /\
    read_literals (length values) values = Some (uq_keys r, lit ")").
Proof.
  intros Hne. exists (join (lit ", ") (map quoted (uq_keys r)) ++ lit ")"). split; [done|].
  apply read_literals_join; [done| |done..]. rewrite length_app.
  assert (forall l, (length l <= length (join (lit ", ") (map quoted l)))%nat) as Hl; [|specialize (Hl (uq_keys r)); lia].
  induction l as [|k [|k' l] IH]; [simpl; lia.. |]. cbn [map join] in *. rewrite !length_app. simpl in *. lia.
Qed.

(** ** The order of [referenced_columns] *)

(** [None] is less than every [Some]. *)
Definition option_cmp {K} `{Ord K} (a b : option K) : comparison :=
  match a, b with
  | None, None => Eq
  | None, Some _ => Lt
  | Some _, None => Gt
  | Some x, Some y => cmp x y
  end.
#[export] Program Instance option_Ord {K} `{Ord K} : Ord (option K) := {| cmp := option_cmp |}.
Next Obligation. intros K ? [a|] [b|]; simpl; rewrite ?cmp_eq; naive_solver. Qed.
Next Obligation. intros K ? [a|] [b|]; simpl; [apply cmp_antisym | done..]. Qed.
Next Obligation. intros K ? [a|] [b|] [c|]; simpl; try done. apply cmp_trans. Qed.

(** By relation, then by name. *)
#[export] Program Instance ColumnRef_Ord : Ord ColumnRef :=
  {| cmp a b := cmp (colref_relation a, colref_name a) (colref_relation b, colref_name b) |}.
Next Obligation. intros [] []. rewrite cmp_eq. simpl. naive_solver. Qed.
Next Obligation. intros; apply cmp_antisym. Qed.
Next Obligation. intros a b c; apply cmp_trans. Qed.

(** The values of a map whose keys are a field of the values. *)
Lemma btree_values {K V} `{Ord K} (key : V -> K) (m : btree K V) (P : V -> Prop) :
  bt_wf m -> (forall k v, bt_get k m = Some v <-> key v = k /\ P v) ->
  StronglySorted (fun a b => cmp (key a) (key b) = Lt) (map snd m) /\ forall v, v ∈ map snd m <-> P v.
Proof.
  intros Hwf Hg.
  assert (forall k v, (k, v) ∈ m <-> key v = k /\ P v) as Hin by (intros k v; by rewrite <- bt_get_in).
  split.
  - assert (Forall (fun p => key p.2 = p.1) m) as Hk
      by (apply Forall_forall; intros [k v] Hkv; by apply Hin in Hkv as [? _]).
    clear Hg Hin. induction Hwf as [|[k v] m Hs IH Hf]; simpl; [constructor|].
    apply Forall_cons in Hk as [Hk1 Hk]. simpl in Hk1. subst k. constructor; [by apply IH|].
    apply Forall_map, Forall_forall. intros [k' v'] Hp. rewrite Forall_forall in Hf, Hk.
    specialize (Hf _ Hp). specialize (Hk _ Hp). unfold key_lt in Hf. simpl in *. by subst.
  - intros v. rewrite list_elem_of_fmap. split.
    + intros ([k v'] & -> & Hp). by apply Hin in Hp as [_ ?].
    + intros HP. exists (key v, v). split; [done|]. by apply Hin.
Qed.

Section Plan.
Context `{PetGraph MirNodeKind MirEdgeKind}.
Implicit Types (g : MirGraph) (n c : nat).

Definition is_cte_expansion (e : edge MirEdgeKind) : bool :=
  match weight e with CteExpansion => true | Input _ => false end.

Definition cte_expansion_inputs g n : list nat :=
  map source (List.filter is_cte_expansion (edge_refs (graph g) (pg_in (graph g) n))).

(** The loop shared by [plan_upquery] and [base_tables]: [base] is what the
    base-table arm does to the accumulator. The head of [stack] is the end of the
    vector, so [extend] pushes its items in order. Indexing the graph with an
    unknown node panics; [Err tt] stands for a walk that was cut short. *)
Fixpoint walk {A} (fuel : nat) g (base : A -> text -> A) (stack : list nat) (visited : gset nat) (acc : A)
  : exec unit A :=
  match fuel with
  | O => Err tt
  | S fuel' =>
      match stack with
      | [] => Ok acc
      | node :: stack' =>
          if bool_decide (node ∈ visited) then walk fuel' g base stack' visited acc
          else
            let visited' := {[node]} ∪ visited in
            match node_kind g node with
            | None => Panic
            | Some (BaseTable table _) => walk fuel' g base stack' visited' (base acc table)
            | Some (CteRef _) => walk fuel' g base (rev (cte_expansion_inputs g node) ++ stack') visited' acc
            | Some _ => walk fuel' g base (rev (ordered_inputs g node) ++ stack') visited' acc
            end
      end
  end.

(** Every push is paid by an edge into a node visited for the first time. *)
Definition walk_fuel g : nat := 2 + length (pg_edges (graph g)).

Definition plan_base (primary_key : text -> option text) (requested_keys : list text)
    (requests : btree text UpqueryRequest) (table : text) : btree text UpqueryRequest :=
  match primary_key table with
  | None => requests
  | Some pk =>
      match bt_get table requests with
      | Some _ => requests
      | None => bt_insert table {| uq_table := table; uq_primary_key := pk; uq_keys := requested_keys |} requests
      end
  end.

(** [StaticPrimaryKeys], an implementation of the trait [PrimaryKeyResolver]. *)
Definition StaticPrimaryKeys : Type := btree text text.
Definition static_keys_insert (keys : StaticPrimaryKeys) (table primary_key : text) : StaticPrimaryKeys :=
  bt_insert table primary_key keys.
Definition static_keys_from_iter (pairs : list (text * text)) : StaticPrimaryKeys :=
  fold_left (fun keys '(table, key) => static_keys_insert keys table key) pairs [].
Definition static_primary_key (keys : StaticPrimaryKeys) (table : text) : option text := bt_get table keys.

Definition plan_upquery g (requested_keys : list text) (primary_key : text -> option text)
  : exec unit (list UpqueryRequest) :=
  exec_map (map snd) (walk (walk_fuel g) g (plan_base primary_key requested_keys) [root g] ∅ []).

Definition base_tables g : exec unit (list text) :=
  exec_map (fun tables => dedup (slice_sort tables))
    (walk (walk_fuel g) g (fun tables table => tables ++ [table]) [root g] ∅ []).

Definition referenced_columns g (table : text) : list ColumnRef :=
  dedup (slice_sort (concat (map (fun node =>
    match node with
    | BaseTable name project => if decide (name = table) then project else []
    | _ => []
    end) (node_kinds g)))).

(** The columns any scan of the table projects, each once, in order. *)
Lemma referenced_columns_exact g table :
  Sorted cmp_le (referenced_columns g table) /\ NoDup (referenced_columns g table) /\
  forall col, col ∈ referenced_columns g table <->
    exists project, BaseTable table project ∈ node_kinds g /\ col ∈ project.
Proof.
  unfold referenced_columns. split; [apply dedup_sorted, slice_sort_Sorted|].
  split; [apply dedup_NoDup, slice_sort_Sorted|]. intros col. rewrite dedup_elem_of, slice_sort_perm.
  induction (node_kinds g) as [|k l IH]; simpl; [set_solver|]. rewrite elem_of_app, IH. setoid_rewrite elem_of_cons.
  destruct k; try set_solver. destruct (decide _); set_solver.
Qed.

(** ** Specification: the tables that feed the root *)

(** The edges a node of this kind is expanded along. *)
Definition follows (kind : MirNodeKind) (w : MirEdgeKind) : bool :=
  match kind, w with
  | BaseTable _ _, _ => false
  | CteRef _, CteExpansion => true
  | CteRef _, Input _ => false
  | _, Input _ => true
  | _, CteExpansion => false
  end.

Definition reads_node g n c : Prop :=
  exists kind w, node_kind g n = Some kind /\ (c, n, w) ∈ pg_edges (graph g) /\ follows kind w = true.

Definition contributes g (table : text) : Prop :=
  exists n project, rtc (reads_node g) (root g) n /\ node_kind g n = Some (BaseTable table project).

(** ** The walk *)

Lemma in_edges_perm g n :
  edge_refs (graph g) (pg_in (graph g) n) ≡ₚ List.filter (fun e => Nat.eqb (target e) n) (pg_edges (graph g)).
Proof. unfold edge_refs. rewrite pg_in_spec. by rewrite (ids_from_lookup _ [] (pg_edges (graph g))). Qed.

(** What the walk pushes for a node. *)
Definition expansion g n : list nat :=
  match node_kind g n with
  | None | Some (BaseTable _ _) => []
  | Some (CteRef _) => cte_expansion_inputs g n
  | Some _ => ordered_inputs g n
  end.

Lemma ordered_inputs_perm g n :
  ordered_inputs g n ≡ₚ map source (List.filter is_input (List.filter (fun e => Nat.eqb (target e) n) (pg_edges (graph g)))).
Proof.
  unfold ordered_inputs. rewrite sort_by_key_perm. unfold input_slots. rewrite in_edges_perm.
  induction (List.filter _ (pg_edges (graph g))) as [|e l IH]; simpl; [done|].
  unfold is_input. destruct (weight e); simpl; [by rewrite IH | done].
Qed.

Lemma cte_inputs_perm g n :
  cte_expansion_inputs g n ≡ₚ
  map source (List.filter is_cte_expansion (List.filter (fun e => Nat.eqb (target e) n) (pg_edges (graph g)))).
Proof.
  unfold cte_expansion_inputs. apply Permutation_map. 
  induction (in_edges_perm g n) as [|e l1 l2 _ IH|e1 e2 l|l1 l2 l3 _ IH1 _ IH2]; simpl; [done| | |by etrans].
  - destruct (is_cte_expansion e); by rewrite IH.
  - destruct (is_cte_expansion e1), (is_cte_expansion e2); try done. apply Permutation_swap.
Qed.

Lemma elem_of_expansion g n c : c ∈ expansion g n <-> reads_node g n c.
Proof.
  assert (forall (P : edge MirEdgeKind -> bool),
    c ∈ map source (List.filter P (List.filter (fun e => Nat.eqb (target e) n) (pg_edges (graph g)))) <->
    exists w, (c, n, w) ∈ pg_edges (graph g) /\ P (c, n, w) = true) as Hmem.
  { intros P. rewrite list_elem_of_fmap. setoid_rewrite list_elem_of_In. setoid_rewrite filter_In.
    setoid_rewrite filter_In. split.
    - intros ([[s t] w] & -> & [[Hin Ht] HP]). apply Nat.eqb_eq in Ht. simpl in Ht. subst. simpl. eauto.
    - intros (w & Hin & HP). exists (c, n, w). simpl. by rewrite Nat.eqb_refl. }
  unfold expansion, reads_node. destruct (node_kind g n) as [k|].
  2: { split; [by intros ?%elem_of_nil | naive_solver]. }
  assert (forall P : edge MirEdgeKind -> bool, (forall w, P (c, n, w) = follows k w) ->
    (exists w, (c, n, w) ∈ pg_edges (graph g) /\ P (c, n, w) = true) <->
    exists kind w, Some k = Some kind /\ (c, n, w) ∈ pg_edges (graph g) /\ follows kind w = true) as Hiff.
  { intros P HP. setoid_rewrite HP. naive_solver. }
  destruct k; rewrite ?ordered_inputs_perm, ?cte_inputs_perm, ?Hmem; try (apply Hiff; by intros []).
  split; [by intros ?%elem_of_nil | naive_solver].
Qed.

Lemma expansion_length g n :
  (length (expansion g n) <= length (List.filter (fun e => Nat.eqb (target e) n) (pg_edges (graph g))))%nat.
Proof.
  unfold expansion. destruct (node_kind g n) as [[]|]; simpl; rewrite ?ordered_inputs_perm, ?cte_inputs_perm, ?length_map;
    try lia; apply List.filter_length_le.
Qed.

(** What visiting a node does to the accumulator. *)
Definition visit {A} g (base : A -> text -> A) (acc : A) n : A :=
  match node_kind g n with Some (BaseTable table _) => base acc table | _ => acc end.

Lemma walk_unfold {A} fuel g (base : A -> text -> A) n stack visited acc :
  n ∉ visited -> is_Some (node_kind g n) ->
  walk (S fuel) g base (n :: stack) visited acc =
  walk fuel g base (rev (expansion g n) ++ stack) ({[n]} ∪ visited) (visit g base acc n).
Proof.
  intros Hn [k Hk]. simpl. rewrite bool_decide_eq_false_2 by done. unfold expansion, visit. rewrite Hk. by destruct k.
Qed.

(** The edges into nodes not yet visited pay for the pushes to come. *)
Definition owed g (visited : gset nat) : nat :=
  length (List.filter (fun e => bool_decide (target e ∉ visited)) (pg_edges (graph g))).

Lemma owed_visit g n visited :
  n ∉ visited -> (length (expansion g n) + owed g ({[n]} ∪ visited) <= owed g visited)%nat.
Proof.
  intros Hn. pose proof (expansion_length g n) as Hl. unfold owed. etrans; [apply Nat.add_le_mono_r, Hl|].
  clear Hl. induction (pg_edges (graph g)) as [|e l IH]; simpl; [done|].
  destruct (Nat.eqb_spec (target e) n) as [->|Hne].
  - rewrite bool_decide_eq_false_2, bool_decide_eq_true_2 by set_solver. simpl. lia.
  - rewrite (bool_decide_ext (target e ∉ {[n]} ∪ visited) (target e ∉ visited)) by set_solver.
    destruct (bool_decide _); simpl; lia.
Qed.

(** The walk visits, once each, the nodes the stack reaches. *)
Record walk_order g (stack : list nat) (visited : gset nat) (order : list nat) : Prop := {
  wo_NoDup : NoDup order;
  wo_fresh n : n ∈ order -> n ∉ visited;
  wo_stack n : n ∈ stack -> n ∈ visited \/ n ∈ order;
  wo_closed n c : n ∈ order -> reads_node g n c -> c ∈ visited \/ c ∈ order;
  wo_reached n : n ∈ order -> exists s, s ∈ stack /\ rtc (reads_node g) s n
}.

Lemma walk_order_skip g n stack visited order :
  n ∈ visited -> walk_order g stack visited order -> walk_order g (n :: stack) visited order.
Proof.
  intros Hn [H1 H2 H3 H4 H5]. split; try done; [set_solver|].
  intros m (s & Hs & Hr)%H5. exists s. split; [by right | done].
Qed.

Lemma walk_order_cons g n stack visited order :
  n ∉ visited -> walk_order g (rev (expansion g n) ++ stack) ({[n]} ∪ visited) order ->
  walk_order g (n :: stack) visited (n :: order).
Proof.
  intros Hn [H1 H2 H3 H4 H5].
  assert (forall c, c ∈ rev (expansion g n) <-> reads_node g n c) as Hrev
    by (intros c; rewrite <- Permutation_rev; apply elem_of_expansion).
  split.
  - constructor; [|done]. intros ?%H2. set_solver.
  - intros m [->|?%H2]%elem_of_cons; set_solver.
  - intros m [->|Hm]%elem_of_cons; [right; left|]. specialize (H3 m). set_solver.
  - intros m c [->|Hm]%elem_of_cons Hr.
    + apply Hrev in Hr. specialize (H3 c). set_solver.
    + specialize (H4 m c Hm Hr). set_solver.
  - intros m [->|Hm]%elem_of_cons; [exists n; split; [left | done]|].
    destruct (H5 m Hm) as (s & [Hs%Hrev|Hs]%elem_of_app & Hr).
    + exists n. split; [left | by eapply rtc_l].
    + exists s. split; [by right | done].
Qed.

Lemma walk_spec {A} g (base : A -> text -> A) fuel stack visited acc :
  graph_wf g -> Forall (fun n => n < node_count g)%nat stack -> (length stack + owed g visited < fuel)%nat ->
  exists order, walk fuel g base stack visited acc = Ok (fold_left (visit g base) order acc) /\
    walk_order g stack visited order.
Proof.
  intros Hwf. revert stack visited acc. induction fuel as [|fuel IH]; intros stack visited acc Hs Hf; [lia|].
  destruct stack as [|n stack].
  { exists []. split; [done|]. split; try by intros ? ?%elem_of_nil. constructor. by intros ? ? ?%elem_of_nil. }
  apply Forall_cons in Hs as [Hn Hs]. simpl in Hf. destruct (decide (n ∈ visited)) as [Hv|Hv].
  - destruct (IH stack visited acc Hs ltac:(lia)) as (order & He & Ho). exists order. split; [|by apply walk_order_skip].
    simpl. by rewrite bool_decide_eq_true_2.
  - pose proof (owed_visit g n visited Hv). rewrite walk_unfold by (done || by apply lookup_lt_is_Some_2).
    destruct (IH (rev (expansion g n) ++ stack) ({[n]} ∪ visited) (visit g base acc n)) as (order & He & Ho).
    + apply Forall_app. split; [|done]. apply Forall_rev, Forall_forall.
      intros c (k & w & _ & Hin & _)%elem_of_expansion. by apply (gw_edges g Hwf) in Hin as [? _].
    + rewrite length_app, length_rev. lia.
    + exists (n :: order). split; [done | by apply walk_order_cons].
Qed.

(** From the root, the order enumerates exactly the nodes that feed it. *)
Lemma walk_root {A} g (base : A -> text -> A) acc :
  graph_wf g -> exists order, walk (walk_fuel g) g base [root g] ∅ acc = Ok (fold_left (visit g base) order acc) /\
    forall n, n ∈ order <-> rtc (reads_node g) (root g) n.
Proof.
  intros Hwf. destruct (walk_spec g base (walk_fuel g) [root g] ∅ acc Hwf) as (order & He & [_ _ H3 H4 H5]).
  - constructor; [apply (gw_root g Hwf) | constructor].
  - unfold walk_fuel, owed. simpl. match goal with |- context [List.filter ?f ?l] => pose proof (List.filter_length_le f l) end. lia.
  - exists order. split; [done|]. intros n. split.
    + intros (s & ->%list_elem_of_singleton & Hr)%H5. done.
    + assert (root g ∈ order) as Hroot by (destruct (H3 (root g)) as [?%elem_of_empty|?]; [left | done | done]).
      intros Hr. clear H3 H5 He. induction Hr as [|x y z Hxy _ IH]; [done|].
      apply IH. destruct (H4 x y Hroot Hxy) as [Hy|Hy]; [by apply elem_of_empty in Hy | done].
Qed.

Lemma base_nodes_contribute g (order : list nat) table :
  (forall n, n ∈ order <-> rtc (reads_node g) (root g) n) ->
  contributes g table <-> exists n project, n ∈ order /\ node_kind g n = Some (BaseTable table project).
Proof. intros Ho. unfold contributes. by setoid_rewrite Ho. Qed.

Lemma visit_tables g order acc table :
  table ∈ fold_left (visit g (fun tables t => tables ++ [t])) order acc <->
  table ∈ acc \/ exists n project, n ∈ order /\ node_kind g n = Some (BaseTable table project).
Proof.
  revert acc. induction order as [|n order IH]; intros acc; simpl; [set_solver|].
  rewrite IH. unfold visit. setoid_rewrite elem_of_cons. destruct (node_kind g n) as [[]|] eqn:Hk; set_solver.
Qed.

Lemma plan_base_get pk keys acc t table :
  bt_wf acc -> bt_get table (plan_base pk keys acc t) =
    match bt_get table acc with
    | Some r => Some r
    | None => if decide (table = t)
              then (fun p => {| uq_table := t; uq_primary_key := p; uq_keys := keys |}) <$> pk t else None
    end.
Proof.
  intros Hwf. unfold plan_base. destruct (pk t) as [p|].
  - destruct (bt_get t acc) eqn:Ht.
    + destruct (bt_get table acc) eqn:Ha; [done|]. rewrite decide_False; [done|]. congruence.
    + rewrite bt_get_insert by done. repeat destruct (decide _); subst; try done; [by rewrite Ht|].
      by destruct (bt_get table acc).
  - destruct (bt_get table acc); [done|]. by destruct (decide _).
Qed.

Lemma visit_wf g pk keys acc n : bt_wf acc -> bt_wf (visit g (plan_base pk keys) acc n).
Proof.
  unfold visit, plan_base. destruct (node_kind g n) as [[]|]; try done. destruct (pk _); [|done].
  destruct (bt_get _ _); auto with palimpsest.
Qed.

Lemma visit_requests g pk keys order acc table r :
  bt_wf acc -> bt_get table acc = None ->
  bt_get table (fold_left (visit g (plan_base pk keys)) order acc) = Some r <->
  (exists n project, n ∈ order /\ node_kind g n = Some (BaseTable table project)) /\
  uq_table r = table /\ pk table = Some (uq_primary_key r) /\ uq_keys r = keys.
Proof.
  set (made := fun p => {| uq_table := table; uq_primary_key := p; uq_keys := keys |}).
  assert (forall order acc q, bt_wf acc -> bt_get table acc = Some q ->
    bt_get table (fold_left (visit g (plan_base pk keys)) order acc) = Some q) as Hkeep.
  { clear. induction order as [|n order IH]; intros acc q Hwf Hq; simpl; [done|].
    apply IH; [by apply visit_wf|]. unfold visit. destruct (node_kind g n) as [[]|]; try done.
    by rewrite plan_base_get, Hq. }
  revert acc. induction order as [|n order IH]; intros acc Hwf Hn; simpl.
  { rewrite Hn. split; [done|]. intros [(n & p & ?%elem_of_nil & _) _]. done. }
  setoid_rewrite elem_of_cons. pose proof (visit_wf g pk keys acc n Hwf) as Hwf'.
  destruct (bt_get table (visit g (plan_base pk keys) acc n)) as [q|] eqn:Hq.
  - rewrite (Hkeep order _ q Hwf' Hq). unfold visit in Hq. destruct (node_kind g n) as [[]|] eqn:Hk; try congruence.
    rewrite plan_base_get, Hn in Hq by done. destruct (decide _); [|done]. subst.
    apply fmap_Some in Hq as (p & Hp & ->). destruct r; cbn. naive_solver.
  - rewrite (IH _ Hwf' Hq). split; [naive_solver|]. intros [(m & project & [->|Hm] & Hk) Hr]; [|by eauto].
    exfalso. unfold visit in Hq. rewrite Hk, plan_base_get, Hn in Hq by done.
    destruct Hr as (_ & Hp & _). rewrite Hp in Hq. by destruct (decide _).
Qed.

(** On a well-formed query graph the backward walk terminates and the plan holds, in table
    order and once each, a request for exactly the base tables that feed the root, through inputs
    and through CTE expansions, and have a known primary key; base_tables lists exactly the tables
    that feed the root. *)
Theorem upquery_plan_exact g keys primary_key :
  graph_wf g ->
  (exists plan, plan_upquery g keys primary_key = Ok plan /\
    StronglySorted (fun a b => cmp (uq_table a) (uq_table b) = Lt) plan /\
    forall r, r ∈ plan <-> contributes g (uq_table r) /\
      primary_key (uq_table r) = Some (uq_primary_key r) /\ uq_keys r = keys) /\
  (exists tables, base_tables g = Ok tables /\ Sorted cmp_le tables /\ NoDup tables /\
    forall t, t ∈ tables <-> contributes g t).
Proof.
  intros Hwf. unfold plan_upquery, base_tables. split.
  - destruct (walk_root g (plan_base primary_key keys) [] Hwf) as (order & -> & Ho).
    assert (bt_wf (fold_left (visit g (plan_base primary_key keys)) order [])) as Hb.
    { assert (bt_wf (@nil (text * UpqueryRequest))) as Hb by constructor. revert Hb. clear Ho.
      generalize (@nil (text * UpqueryRequest)). induction order as [|n order IH]; intros acc Hb; simpl; [done|].
      by apply IH, visit_wf. }
    eexists. split; [done|]. apply (btree_values uq_table); [done|].
    intros t r. rewrite visit_requests by (done || constructor). rewrite <- base_nodes_contribute by done. naive_solver.
  - destruct (walk_root g (fun tables t => tables ++ [t]) [] Hwf) as (order & -> & Ho).
    eexists. split; [done|]. split; [apply dedup_sorted, slice_sort_Sorted|].
    split; [apply dedup_NoDup, slice_sort_Sorted|]. intros t.
    rewrite dedup_elem_of, slice_sort_perm, visit_tables, (base_nodes_contribute g order) by done. set_solver.
Qed.
End Plan.
