(* ===== verification/Security.v ===== *)
(** * Security: per-connection and per-address limits
    ([crates/palimpsest-server/src/security.rs])

    The token bucket of a connection with its [f64] arithmetic, the cap on live
    subscriptions and the sliding window of connection attempts per address. An
    [Instant] is a number of nanoseconds; the earliest one a platform represents
    is a parameter, since [checked_sub] depends on it. *)

From stdpp Require Import gmap.
From S2P Require Import Prelude Floats.

(** ** Floats used by the bucket *)

(** [f64::mul_add]: [x * y + z] rounded once. *)
Definition signed (s : bool) (m : positive) : Z := if s then Zneg m else Zpos m.
Definition f64_mul_add (x y z : spec_float) : spec_float :=
  match x, y, z with
  | S754_nan, _, _ | _, S754_nan, _ | _, _, S754_nan => S754_nan
  | S754_infinity _, S754_zero _, _ | S754_zero _, S754_infinity _, _ => S754_nan
  | S754_infinity s1, (S754_infinity s2 | S754_finite s2 _ _), _ | S754_finite s1 _ _, S754_infinity s2, _ =>
      match z with
      | S754_infinity s => if Bool.eqb (xorb s1 s2) s then z else S754_nan
      | _ => S754_infinity (xorb s1 s2)
      end
  | _, _, S754_infinity _ => z
  | S754_finite s1 m1 e1, S754_finite s2 m2 e2, S754_finite s3 m3 e3 =>
      let e := Z.min (e1 + e2) e3 in
      binary_normalize 53 1024 (signed (xorb s1 s2) (m1 * m2) * 2 ^ (e1 + e2 - e) + signed s3 m3 * 2 ^ (e3 - e)) e false
  | S754_finite s1 m1 e1, S754_finite s2 m2 e2, S754_zero _ => f64_mul x y
  | S754_zero s1, (S754_zero s2 | S754_finite s2 _ _), _ | S754_finite s1 _ _, S754_zero s2, _ =>
      match z with
      | S754_zero s => S754_zero (xorb s1 s2 && s)
      | _ => z
      end
  end.

(** [f64::min]: a NaN is ignored. *)
Definition f64_min (x y : spec_float) : spec_float :=
  match x, y with
  | S754_nan, _ => y
  | _, S754_nan => x
  | _, _ => if SFltb y x then y else x
  end.

(** ** Instants and durations, in nanoseconds *)

Definition NANOS_PER_SEC : Z := 1000000000.

Definition saturating_duration_since (now earlier : Z) : Z := Z.max 0 (now - earlier).
Definition as_secs_f64 (duration : Z) : spec_float :=
  f64_add (f64_of_Z (duration / NANOS_PER_SEC)) (f64_div (f64_of_Z (duration mod NANOS_PER_SEC)) (f64_of_Z NANOS_PER_SEC)).

(** ** Configuration *)

Record TokenBucketSpec := { burst : Z; refill_per_sec : spec_float }.
Record SlidingWindowSpec := { max_attempts : Z; window : Z }.
Record SecurityLimits := {
  max_subscriptions_per_connection : Z;
  subscribe_rate : TokenBucketSpec;
  reconnect_rate : SlidingWindowSpec
}.

Definition SecurityLimits_DEFAULT : SecurityLimits :=
  {| max_subscriptions_per_connection := 256;
     subscribe_rate := {| burst := 32; refill_per_sec := f64_of_Z 8 |};
     reconnect_rate := {| max_attempts := 60; window := 60 * NANOS_PER_SEC |} |}.

Inductive LimitDecision := Allowed | ConnectionSaturated | SubscribeRateExceeded | ReconnectRateExceeded.

(** ** The token bucket *)

Record TokenBucketState := { tokens : spec_float; last_refill : Z }.

Definition full (spec : TokenBucketSpec) (now : Z) : TokenBucketState :=
  {| tokens := f64_of_Z (burst spec); last_refill := now |}.

Definition refill (st : TokenBucketState) (spec : TokenBucketSpec) (now : Z) : TokenBucketState :=
  let elapsed := as_secs_f64 (saturating_duration_since now (last_refill st)) in
  if SFltb (S754_zero false) elapsed
  then {| tokens := f64_min (f64_mul_add elapsed (refill_per_sec spec) (tokens st)) (f64_of_Z (burst spec)); last_refill := now |}
  else st.

Definition try_consume (st : TokenBucketState) (spec : TokenBucketSpec) (now : Z) : bool * TokenBucketState :=
  let st := refill st spec now in
  if SFleb (f64_of_Z 1) (tokens st)
  then (true, {| tokens := f64_sub (tokens st) (f64_of_Z 1); last_refill := last_refill st |})
  else (false, st).

(** ** The limiter of a connection *)

Record ConnectionLimiter := { limits : SecurityLimits; active : Z; bucket : TokenBucketState }.

Definition limiter_new_at (limits : SecurityLimits) (now : Z) : ConnectionLimiter :=
  {| limits := limits; active := 0; bucket := full (subscribe_rate limits) now |}.

Definition admit_subscribe_at (l : ConnectionLimiter) (now : Z) : LimitDecision * ConnectionLimiter :=
  if max_subscriptions_per_connection (limits l) <=? active l then (ConnectionSaturated, l)
  else
    let '(consumed, bucket') := try_consume (bucket l) (subscribe_rate (limits l)) now in
    if negb consumed then (SubscribeRateExceeded, {| limits := limits l; active := active l; bucket := bucket' |})
    else (Allowed, {| limits := limits l; active := active l + 1; bucket := bucket' |}).

Definition limiter_release (l : ConnectionLimiter) : ConnectionLimiter :=
  {| limits := limits l; active := Z.max 0 (active l - 1); bucket := bucket l |}.

(** ** Connection attempts per address *)

Inductive IpAddr := V4 (octets : Z) | V6 (octets : Z).
#[export] Instance IpAddr_eq_dec : EqDecision IpAddr.
Proof. solve_decision. Defined.
#[export] Program Instance IpAddr_countable : Countable IpAddr :=
  inj_countable' (fun ip => match ip with V4 o => inl o | V6 o => inr o end) (fun s => match s with inl o => V4 o | inr o => V6 o end) _.
Next Obligation. by intros []. Qed.

Abbreviation ReconnectTracker := (gmap IpAddr (list Z)).

Section Tracker.
Context (earliest : Z) (spec : SlidingWindowSpec).

(** [Instant::checked_sub]. *)
Definition checked_sub (now duration : Z) : option Z := if earliest <=? now - duration then Some (now - duration) else None.

Definition admit_at (t : ReconnectTracker) (ip : IpAddr) (now : Z) : LimitDecision * ReconnectTracker :=
  let cutoff := default now (checked_sub now (window spec)) in
  let attempts := List.filter (fun stamp => cutoff <=? stamp) (default [] (t !! ip)) in
  if max_attempts spec <=? Z.of_nat (length attempts) then (ReconnectRateExceeded, <[ip := attempts]> t)
  else (Allowed, <[ip := attempts ++ [now]]> t).

(** A sequence of attempts. *)
Fixpoint admit_all (t : ReconnectTracker) (calls : list (IpAddr * Z)) : list LimitDecision :=
  match calls with
  | [] => []
  | (ip, now) :: rest => let '(d, t) := admit_at t ip now in d :: admit_all t rest
  end.
End Tracker.

(** ** The window is exact *)

Section Window.
Context (earliest : Z) (spec : SlidingWindowSpec).
Hypothesis Hmax : 0 <= max_attempts spec.
Hypothesis Hwindow : 0 <= window spec.

(** The attempts of an address in a log of admitted attempts, within an interval. *)
Definition stamps (ip : IpAddr) (log : list (IpAddr * Z)) : list Z := map snd (List.filter (fun p => bool_decide (p.1 = ip)) log).
Definition since (cutoff : Z) (l : list Z) : list Z := List.filter (fun stamp => cutoff <=? stamp) l.
Definition within (ip : IpAddr) (start : Z) (log : list (IpAddr * Z)) : list Z :=
  List.filter (fun stamp => stamp <=? start + window spec) (since start (stamps ip log)).

(** The limit as it is meant: count the admitted attempts of the last [window]. *)
Fixpoint reference (log calls : list (IpAddr * Z)) : list LimitDecision :=
  match calls with
  | [] => []
  | (ip, now) :: rest =>
      if max_attempts spec <=? Z.of_nat (length (since (now - window spec) (stamps ip log)))
      then ReconnectRateExceeded :: reference log rest
      else Allowed :: reference (log ++ [(ip, now)]) rest
  end.

(** The attempts that were let through. *)
Definition admitted (calls : list (IpAddr * Z)) (decisions : list LimitDecision) : list (IpAddr * Z) :=
  filter_map (fun p => match p.2 with Allowed => Some p.1 | _ => None end) (zip calls decisions).

(** Attempts arrive in time order, each a full window after the earliest instant. *)
Fixpoint arriving (last : Z) (calls : list (IpAddr * Z)) : Prop :=
  match calls with [] => True | (_, now) :: rest => last <= now /\ earliest <= now - window spec /\ arriving now rest end.

Lemma since_since a b l : a <= b -> since b (since a l) = since b l.
Proof.
  intros Hab. unfold since. induction l as [|x l IH]; simpl; [done|].
  destruct (Z.leb_spec a x); simpl; [|destruct (Z.leb_spec b x); [lia | done]]. destruct (b <=? x); by rewrite IH.
Qed.
Lemma since_app a l l' : since a (l ++ l') = since a l ++ since a l'.
Proof. apply List.filter_app. Qed.
Lemma stamps_app ip log log' : stamps ip (log ++ log') = stamps ip log ++ stamps ip log'.
Proof. unfold stamps. by rewrite List.filter_app, map_app. Qed.

(** The tracker keeps at least the stamps that can still count. *)
Definition remembers (t : ReconnectTracker) (log : list (IpAddr * Z)) (last : Z) : Prop :=
  forall ip now, last <= now -> since (now - window spec) (default [] (t !! ip)) = since (now - window spec) (stamps ip log).

Lemma admit_reference calls : forall t log last,
  remembers t log last -> arriving last calls -> admit_all earliest spec t calls = reference log calls.
Proof.
  induction calls as [|[ip now] calls IH]; intros t log last Hr Ha; [done|]. destruct Ha as (Hlast & Hearly & Ha).
  cbn [admit_all reference]. unfold admit_at, checked_sub. assert ((earliest <=? now - window spec) = true) as -> by lia.
  cbv zeta. change (List.filter _ (default [] (t !! ip))) with (since (now - window spec) (default [] (t !! ip))). pose proof (Hr ip now Hlast) as E. rewrite E.
  destruct (max_attempts spec <=? _); f_equal; eapply IH; try exact Ha.
  - intros ip' now' Hn. destruct (decide (ip' = ip)) as [->|Hne].
    + rewrite lookup_insert_eq. simpl. apply since_since. lia.
    + rewrite lookup_insert_ne by done. apply Hr. lia.
  - intros ip' now' Hn. rewrite stamps_app. destruct (decide (ip' = ip)) as [->|Hne].
    + rewrite lookup_insert_eq. simpl default. rewrite !since_app. f_equal; [apply since_since; lia|].
      unfold stamps. simpl. by rewrite bool_decide_eq_true_2.
    + rewrite lookup_insert_ne by done. unfold stamps at 2. simpl. rewrite bool_decide_eq_false_2 by congruence.
      simpl. rewrite app_nil_r. apply Hr. lia.
Qed.

(** No interval holds more than the maximum, and no stamp lies in the future. *)
Definition limited (log : list (IpAddr * Z)) : Prop := forall ip start, Z.of_nat (length (within ip start log)) <= max_attempts spec.

Lemma within_since ip start log : (length (within ip start log) <= length (since start (stamps ip log)))%nat.
Proof. unfold within. induction (since start (stamps ip log)) as [|x l IH]; simpl; [done|]. destruct (x <=? _); simpl; lia. Qed.

Lemma since_shorter a b l : a <= b -> (length (since b l) <= length (since a l))%nat.
Proof.
  intros Hab. unfold since. induction l as [|x l IH]; simpl; [done|]. destruct (Z.leb_spec b x), (Z.leb_spec a x); simpl; lia.
Qed.

Lemma limited_step log ip now :
  limited log -> Z.of_nat (length (since (now - window spec) (stamps ip log))) < max_attempts spec -> limited (log ++ [(ip, now)]).
Proof.
  intros Hl Hlt ip' start. specialize (Hl ip' start). unfold within in *. rewrite stamps_app, since_app, List.filter_app, length_app.
  unfold stamps at 2. simpl. destruct (decide (ip = ip')) as [->|Hne];
    [rewrite bool_decide_eq_true_2 by done | rewrite bool_decide_eq_false_2 by done; simpl; lia].
  simpl. destruct (Z.leb_spec start now); simpl; [|lia]. destruct (Z.leb_spec now (start + window spec)); simpl; [|lia].
  pose proof (within_since ip' start log) as H1. pose proof (since_shorter (now - window spec) start (stamps ip' log) ltac:(lia)) as H2.
  unfold within in H1. lia.
Qed.

Lemma reference_limited calls : forall log, limited log -> limited (log ++ admitted calls (reference log calls)).
Proof.
  induction calls as [|[ip now] calls IH]; intros log Hl; unfold admitted in *; cbn [reference].
  { simpl. by rewrite app_nil_r. }
  destruct (Z.leb_spec (max_attempts spec) (Z.of_nat (length (since (now - window spec) (stamps ip log))))); simpl.
  - by apply IH.
  - assert (limited (log ++ [(ip, now)])) as Hl' by (apply limited_step; [done | lia]). specialize (IH _ Hl'). by rewrite <- app_assoc in IH.
Qed.

(** C23: The reconnect limit is the sliding window it is meant to be: for attempts that arrive in
    time order, at least a window after the earliest instant of the clock, every decision is the one
    that counts the admitted attempts of the same address in the last window, although the tracker
    forgets stamps as it goes; and no address ever has more than the maximum admitted within any
    interval of the window's length. *)
Theorem reconnect_window_exact last calls :
  arriving last calls ->
  admit_all earliest spec ∅ calls = reference [] calls /\
  forall ip start, Z.of_nat (length (within ip start (admitted calls (admit_all earliest spec ∅ calls)))) <= max_attempts spec.
Proof.
  intros Ha. assert (admit_all earliest spec ∅ calls = reference [] calls) as E.
  { eapply admit_reference; [|exact Ha]. intros ip now _. by rewrite lookup_empty. }
  split; [done|]. intros ip start. rewrite E. apply (reference_limited calls []). intros ip' start'. simpl. lia.
Qed.
End Window.

(** ** Whole tokens are counted exactly *)

Lemma digits_log2 p : Zpos (digits2_pos p) = Z.log2 (Zpos p) + 1.
Proof.
  induction p as [p IH|p IH|]; cbn [digits2_pos]; [| |done].
  - rewrite Pos2Z.inj_succ, IH. rewrite (Pos2Z.inj_xI p), Z.log2_succ_double by done. lia.
  - rewrite Pos2Z.inj_succ, IH. rewrite (Pos2Z.inj_xO p), Z.log2_double by done. lia.
Qed.

Lemma shl_xO p d : Zpos (Pos.iter xO p d) = Zpos p * 2 ^ Zpos d.
Proof.
  induction d as [|d IH] using Pos.peano_ind; [by rewrite Z.mul_comm|].
  rewrite Pos.iter_succ, (Pos2Z.inj_xO (Pos.iter xO p d)), IH, Pos2Z.inj_succ, Z.pow_succ_r by done. lia.
Qed.

Lemma iter_pos_nat {A} (f : A -> A) n : forall x, iter_pos f n x = Nat.iter (Pos.to_nat n) f x.
Proof.
  induction n as [n IH|n IH|]; intros x; simpl iter_pos; [| |done].
  - rewrite !IH, Pos2Nat.inj_xI, <- Nat.iter_add, <- Nat.iter_succ_r. f_equal. lia.
  - rewrite !IH, Pos2Nat.inj_xO, <- Nat.iter_add. f_equal. lia.
Qed.

Lemma shr_even n m : 0 < m -> Nat.iter n shr_1 (Build_shr_record (m * 2 ^ Z.of_nat n) false false) = Build_shr_record m false false.
Proof.
  revert m. induction n as [|n IH]; intros m Hm; [simpl; f_equal; lia|].
  rewrite Nat2Z.inj_succ, Z.pow_succ_r by lia. replace (m * (2 * 2 ^ Z.of_nat n)) with ((m * 2) * 2 ^ Z.of_nat n) by lia.
  rewrite Nat.iter_succ, IH by lia. destruct m; try lia. rewrite Z.mul_comm. done.
Qed.

(** Rounding a value that fits in 53 bits leaves it alone. *)
Definition whole (k : Z) : spec_float :=
  match k with
  | Z0 => S754_zero false
  | Zpos _ => S754_finite false (Z.to_pos (k * 2 ^ (52 - Z.log2 k))) (Z.log2 k - 52)
  | Zneg _ => S754_nan
  end.

Lemma log2_small k : 0 < k < 2 ^ 53 -> 0 <= Z.log2 k <= 52.
Proof. intros Hk. split; [apply Z.log2_nonneg|]. apply Z.lt_succ_r, Z.log2_lt_pow2; simpl; lia. Qed.

Lemma round_fit m e : 0 < m -> Z.log2 m = 52 -> -52 <= e <= 0 -> binary_round_aux 53 1024 false m e loc_Exact = S754_finite false (Z.to_pos m) e.
Proof.
  intros Hm Hl He. destruct m as [|p|]; try lia. unfold binary_round_aux, shr_fexp. cbn [Zdigits2 shr_record_of_loc].
  rewrite digits_log2, Hl. unfold fexp, emin. replace (Z.max _ _ - e) with 0 by lia. cbn [shr shr_m loc_of_shr_record round_nearest_even].
  cbn [Zdigits2]. rewrite digits_log2, Hl. replace (Z.max _ _ - e) with 0 by lia. cbn [shr shr_m].
  by destruct (Z.leb_spec e (1024 - 53)); [|lia].
Qed.

Lemma normalize_whole k j : 0 < k < 2 ^ 53 -> 0 <= j <= 52 -> binary_normalize 53 1024 (k * 2 ^ j) (- j) false = whole k.
Proof.
  intros Hk Hj. pose proof (log2_small k Hk) as Hlog. assert (0 < 2 ^ j) by (apply Z.pow_pos_nonneg; lia).
  destruct (k * 2 ^ j) as [|m|m] eqn:Em; try nia. cbn [binary_normalize]. unfold binary_round.
  assert (Z.log2 (Zpos m) = Z.log2 k + j) as Hm by (rewrite <- Em, Z.log2_mul_pow2; lia).
  rewrite digits_log2, Hm. unfold fexp, emin. set (t := Z.log2 k - 52).
  replace (Z.max (Z.log2 k + j + 1 + - j - 53) (3 - 1024 - 53)) with t by lia.
  assert (whole k = S754_finite false (Z.to_pos (k * 2 ^ (- t))) t) as ->.
  { unfold whole. replace (- t) with (52 - Z.log2 k) by lia. by destruct k; try lia. }
  assert (0 < k * 2 ^ (- t)) by (apply Z.mul_pos_pos; [lia | apply Z.pow_pos_nonneg; lia]).
  assert (Z.log2 (k * 2 ^ (- t)) = 52) as Hfit by (rewrite Z.log2_mul_pow2; lia).
  unfold shl_align. destruct (t - - j) as [|d|d] eqn:Ed.
  - replace (k * 2 ^ (- t)) with (Zpos m) in * by (rewrite <- Em; do 2 f_equal; lia). replace (- j) with t by lia. apply round_fit; lia.
  - (* excess low bits are zero *)
    unfold binary_round_aux, shr_fexp at 1. cbn [Zdigits2 shr_record_of_loc]. rewrite digits_log2, Hm. unfold fexp, emin.
    replace (Z.max (Z.log2 k + j + 1 + - j - 53) (3 - 1024 - 53) - - j) with (Zpos d) by lia. cbn [shr].
    rewrite iter_pos_nat. replace (Zpos m) with (k * 2 ^ (- t) * 2 ^ Z.of_nat (Pos.to_nat d)).
    2: { rewrite positive_nat_Z, <- Em, <- Z.mul_assoc, <- Z.pow_add_r by lia. do 2 f_equal. lia. }
    rewrite shr_even by done. cbn [shr_m loc_of_shr_record round_nearest_even]. replace (- j + Zpos d) with t by lia.
    pose proof (round_fit (k * 2 ^ (- t)) t ltac:(lia) Hfit ltac:(lia)) as Hr. unfold binary_round_aux in Hr.
    unfold shr_fexp in *. destruct (k * 2 ^ (- t)) as [|p|] eqn:Ep; try lia. cbn [Zdigits2 shr_record_of_loc] in *.
    rewrite digits_log2, Hfit in *. unfold fexp, emin in *. replace (Z.max _ _ - t) with 0 in * by lia.
    cbn [shr shr_m loc_of_shr_record round_nearest_even Zdigits2] in Hr. rewrite digits_log2, Hfit in Hr.
    replace (Z.max _ _ - t) with 0 in Hr by lia. exact Hr.
  - rewrite shl_xO, <- Em, <- Z.mul_assoc, <- Z.pow_add_r by lia. replace (j + Zpos d) with (- t) by lia. apply round_fit; lia.
Qed.

Lemma f64_of_whole k : 0 <= k < 2 ^ 53 -> f64_of_Z k = whole k.
Proof.
  intros Hk. destruct (Z.eq_dec k 0) as [->|]; [done|]. rewrite <- (normalize_whole k 0) by lia.
  unfold float_of_Z. simpl. by rewrite Z.mul_1_r.
Qed.

Lemma whole_sub k : 1 <= k < 2 ^ 53 -> f64_sub (whole k) (whole 1) = whole (k - 1).
Proof.
  intros Hk. pose proof (log2_small k ltac:(lia)) as Hlog. set (j := 52).
  assert (0 < k * 2 ^ (52 - Z.log2 k)) by (apply Z.mul_pos_pos; [lia | apply Z.pow_pos_nonneg; lia]).
  unfold f64_sub, whole at 1. destruct k as [|p|]; try lia. change (whole 1) with (S754_finite false 4503599627370496 (-52)).
  cbn [SFsub]. replace (Z.min (Z.log2 (Zpos p) - 52) (-52)) with (-52) by lia. cbn [cond_Zopp].
  assert (Zpos (fst (shl_align (Z.to_pos (Zpos p * 2 ^ (52 - Z.log2 (Zpos p)))) (Z.log2 (Zpos p) - 52) (-52))) = Zpos p * 2 ^ 52) as ->.
  { unfold shl_align. destruct (-52 - (Z.log2 (Zpos p) - 52)) as [|d|d] eqn:Ed; try lia; cbn [fst].
    - rewrite Z2Pos.id by done. do 2 f_equal. lia.
    - rewrite shl_xO, Z2Pos.id by done. rewrite <- Z.mul_assoc, <- Z.pow_add_r by lia. do 2 f_equal. lia. }
  change (Zpos (fst (shl_align 4503599627370496 (-52) (-52)))) with (1 * 2 ^ 52). rewrite <- Z.mul_sub_distr_r.
  destruct (Z.eq_dec (Zpos p) 1) as [->|]; [reflexivity|]. rewrite <- (normalize_whole (Zpos p - 1) 52) by lia. done.
Qed.

Lemma whole_le k : 0 <= k < 2 ^ 53 -> SFleb (whole 1) (whole k) = (1 <=? k).
Proof.
  intros Hk. destruct (Z.eq_dec k 0) as [->|]; [done|]. pose proof (log2_small k ltac:(lia)) as Hlog.
  unfold whole at 2. destruct k as [|p|]; try lia. change (whole 1) with (S754_finite false 4503599627370496 (-52)).
  unfold SFleb, SFcompare. destruct (Z.compare_spec (-52) (Z.log2 (Zpos p) - 52)) as [E|E|E]; [|by destruct p|lia].
  assert (Zpos p = 1) as -> by (pose proof (Z.log2_null (Zpos p)); lia). reflexivity.
Qed.

(** A value that is not below a whole number is not rounded below it. *)
Lemma shr_m_div n : forall r, 0 <= shr_m r -> shr_m (Nat.iter n shr_1 r) = shr_m r / 2 ^ Z.of_nat n.
Proof.
  induction n as [|n IH]; intros r Hr; [by rewrite Z.div_1_r|].
  rewrite Nat2Z.inj_succ, Z.pow_succ_r, Z.mul_comm, <- Z.div_div, Nat.iter_succ, <- IH by lia.
  specialize (IH r Hr). pose proof (Z.div_pos (shr_m r) (2 ^ Z.of_nat n) Hr ltac:(lia)) as Hp. rewrite <- IH in Hp.
  destruct (Nat.iter n shr_1 r) as [[|[p|p|]|] ? ?]; cbn in *; try lia; try done.
  - rewrite Pos2Z.inj_xI, Z.mul_comm, Z.div_add_l by lia. by rewrite Z.add_0_r.
  - rewrite Pos2Z.inj_xO, Z.mul_comm. by rewrite Z.div_mul.
Qed.

Lemma round_up m l : m <= round_nearest_even m l <= m + 1.
Proof. destruct l as [|[]]; simpl; try lia. destruct (Z.even m); lia. Qed.

Lemma shr_fexp_exact m e : 0 < m -> let n := Z.max 0 (fexp 53 1024 (Z.log2 m + 1 + e) - e) in
  shr_m (shr_fexp 53 1024 m e loc_Exact).1 = m / 2 ^ n /\ (shr_fexp 53 1024 m e loc_Exact).2 = e + n.
Proof.
  intros Hm n. unfold shr_fexp. destruct m as [|p|]; try lia. cbn [Zdigits2 shr_record_of_loc]. rewrite digits_log2.
  subst n. destruct (fexp 53 1024 (Z.log2 (Zpos p) + 1 + e) - e) as [|q|q]; cbn [shr fst snd].
  - rewrite Z.div_1_r, Z.add_0_r. done.
  - rewrite iter_pos_nat, shr_m_div by done. rewrite positive_nat_Z. done.
  - rewrite Z.div_1_r, Z.add_0_r. done.
Qed.

(** The outcome of rounding a value of at least one: a mantissa of 53 bits that does not lose value. *)
Lemma normalize_at_least m e : 0 < m -> 0 <= Z.log2 m + e ->
  let t := Z.log2 m + e - 52 in
  exists mr er, (binary_normalize 53 1024 m e false = S754_finite false mr er \/ binary_normalize 53 1024 m e false = S754_infinity false) /\
    (t < er \/ er = t /\ m * 2 ^ Z.max 0 (e - t) / 2 ^ Z.max 0 (t - e) <= Zpos mr).
Proof.
  intros Hm Hl t. destruct m as [|p|]; try lia. cbn [binary_normalize]. unfold binary_round. rewrite digits_log2.
  assert (fexp 53 1024 (Z.log2 (Zpos p) + 1 + e) = t) as Ht by (unfold fexp, emin; lia). rewrite Ht.
  assert (exists mz ez, shl_align p e t = (mz, ez) /\ ez = Z.min e t /\ Zpos mz = Zpos p * 2 ^ Z.max 0 (e - t)) as (mz & ez & -> & Hez & Hmz).
  { unfold shl_align. destruct (t - e) as [|d|d] eqn:Ed; eexists _, _; (split; [reflexivity|]); rewrite ?shl_xO; split; try lia.
    - replace (Z.max 0 (e - t)) with 0 by lia. lia.
    - replace (Z.max 0 (e - t)) with 0 by lia. lia.
    - do 2 f_equal. lia. }
  rewrite <- Hmz. set (q := Zpos mz / 2 ^ Z.max 0 (t - e)).
  assert (Z.log2 (Zpos mz) = Z.log2 (Zpos p) + Z.max 0 (e - t)) as Hlz by (rewrite Hmz, Z.log2_mul_pow2; lia).
  assert (Z.log2 q = 52) as Hq.
  { unfold q. rewrite <- Z.shiftr_div_pow2, Z.log2_shiftr by lia. lia. }
  assert (2 ^ 52 <= q < 2 ^ 53) as Hq'.
  { assert (0 < q) by (destruct (Z.le_gt_cases q 0) as [H0|]; [rewrite (Z.log2_nonpos q H0) in Hq; lia | done]).
    pose proof (Z.log2_spec q ltac:(done)). rewrite Hq in *. done. }
  unfold binary_round_aux. destruct (shr_fexp_exact (Zpos mz) ez ltac:(lia)) as [E1 E2].
  assert (fexp 53 1024 (Z.log2 (Zpos mz) + 1 + ez) = t) as Hf by (unfold fexp, emin; lia). rewrite Hf in E1, E2.
  replace (Z.max 0 (t - ez)) with (Z.max 0 (t - e)) in * by lia.
  destruct (shr_fexp 53 1024 (Zpos mz) ez loc_Exact) as [r1 e1]. cbn [fst snd] in E1, E2. change (Zpos mz / _) with q in E1.
  assert (e1 = t) as -> by lia. rewrite E1. pose proof (round_up q (loc_of_shr_record r1)) as Hr. set (q' := round_nearest_even q _) in *.
  destruct (shr_fexp_exact q' t ltac:(lia)) as [F1 F2]. destruct (shr_fexp 53 1024 q' t loc_Exact) as [r2 e2]. cbn [fst snd] in F1, F2.
  rewrite F1. assert (q' = 2 ^ 53 \/ q' < 2 ^ 53) as [Hc|Hc] by lia.
  - rewrite Hc in F2. change (Z.log2 (2 ^ 53)) with 53 in F2. unfold fexp, emin in F2. assert (e2 = t + 1) as -> by lia.
    rewrite Hc. change (Z.log2 (2 ^ 53)) with 53. unfold fexp, emin. replace (Z.max 0 _) with 1 by lia.
    change (2 ^ 53 / 2 ^ 1) with (Zpos 4503599627370496). exists 4503599627370496%positive, (t + 1). split; [|lia]. destruct (_ <=? _); auto.
  - assert (Z.log2 q' = 52) as Hlq by (apply Z.log2_unique; lia). rewrite Hlq in *. unfold fexp, emin in *.
    replace (Z.max 0 _) with 0 in * by lia. change (2 ^ 0) with 1. rewrite Z.div_1_r. assert (e2 = t) as -> by lia.
    destruct q' as [|mr|] eqn:Eq; try lia. exists mr, t. split; [|right; lia]. destruct (_ <=? _); auto.
Qed.

Lemma min_at_least k m e : 0 < k < 2 ^ 53 -> e <= Z.log2 k - 52 -> k * 2 ^ (- e) <= m ->
  f64_min (binary_normalize 53 1024 m e false) (whole k) = whole k.
Proof.
  intros Hk He Hm. pose proof (log2_small k Hk) as Hlog. assert (0 < 2 ^ (- e)) by (apply Z.pow_pos_nonneg; lia).
  assert (Z.log2 k - e <= Z.log2 m) as Hlm by (replace (Z.log2 k - e) with (Z.log2 (k * 2 ^ (- e))) by (rewrite Z.log2_mul_pow2; lia); by apply Z.log2_le_mono).
  destruct (normalize_at_least m e ltac:(nia) ltac:(lia)) as (mr & er & E & Hr). set (t := Z.log2 m + e - 52) in *.
  assert (0 < k * 2 ^ (52 - Z.log2 k)) as Hpos by (apply Z.mul_pos_pos; [lia | apply Z.pow_pos_nonneg; lia]).
  assert (whole k = S754_finite false (Z.to_pos (k * 2 ^ (52 - Z.log2 k))) (Z.log2 k - 52)) as Ew by (destruct k; [lia | done | lia]).
  destruct E as [-> | ->]; [|by rewrite Ew]. rewrite Ew. cbn [f64_min]. unfold SFltb. cbn [SFcompare].
  destruct (Z.compare_spec (Z.log2 k - 52) er) as [He'|He'|He']; [|done|lia].
  change (PosDef.Pos.compare_cont Eq (Z.to_pos (k * 2 ^ (52 - Z.log2 k))) mr) with (Zpos (Z.to_pos (k * 2 ^ (52 - Z.log2 k))) ?= Zpos mr).
  rewrite Z2Pos.id by done. destruct Hr as [Hr|[Hr Hge]]; [lia|].
  assert (k * 2 ^ (52 - Z.log2 k) <= Zpos mr) as Hle.
  { etransitivity; [|exact Hge]. replace (Z.max 0 (e - t)) with 0 by lia. rewrite Z.mul_1_r. apply Z.div_le_lower_bound; [apply Z.pow_pos_nonneg; lia|].
    rewrite Z.mul_comm, <- Z.mul_assoc, <- Z.pow_add_r by lia. by replace (52 - Z.log2 k + Z.max 0 (t - e)) with (- e) by lia. }
  destruct (Z.compare_spec (k * 2 ^ (52 - Z.log2 k)) (Zpos mr)) as [Hc|Hc|Hc]; [|done|lia].
  cbn. rewrite Hc. cbn [Z.to_pos]. by rewrite He'.
Qed.

(** ** A burst at one instant *)

Inductive LimiterOp := LO_Admit | LO_Release.

(** The decisions of a sequence of calls at one instant, and the live count rest_tokens. *)
Fixpoint limiter_run (now : Z) (l : ConnectionLimiter) (ops : list LimiterOp) : list LimitDecision * Z :=
  match ops with
  | [] => ([], active l)
  | LO_Admit :: rest =>
      let '(d, l) := admit_subscribe_at l now in let '(ds, n) := limiter_run now l rest in (d :: ds, n)
  | LO_Release :: rest => limiter_run now (limiter_release l) rest
  end.

(** The limit as it is meant: a cap on live subscriptions and a number of tokens. *)
Fixpoint counted_run (cap live rest_tokens : Z) (ops : list LimiterOp) : list LimitDecision * Z :=
  match ops with
  | [] => ([], live)
  | LO_Admit :: rest =>
      let '(d, live, rest_tokens) := if cap <=? live then (ConnectionSaturated, live, rest_tokens)
                              else if rest_tokens <=? 0 then (SubscribeRateExceeded, live, rest_tokens)
                              else (Allowed, live + 1, rest_tokens - 1) in
      let '(ds, n) := counted_run cap live rest_tokens rest in (d :: ds, n)
  | LO_Release :: rest => counted_run cap (Z.max 0 (live - 1)) rest_tokens rest
  end.

Definition allowed (d : LimitDecision) : bool := match d with Allowed => true | _ => false end.

Lemma f64_min_self x : f64_min x x = x.
Proof. unfold f64_min. destruct x; try done; by destruct (SFltb _ _). Qed.

(** A rate that is not negative never takes a full bucket below its capacity, and never above it. *)
Lemma refill_full spec created now : 0 <= burst spec < 2 ^ 32 -> SFltb (refill_per_sec spec) (S754_zero false) = false ->
  exists at_, refill (full spec created) spec now = {| tokens := whole (burst spec); last_refill := at_ |} /\
    (forall st, last_refill st = at_ -> refill st spec now = st).
Proof.
  intros Hb Hrate. unfold full. rewrite f64_of_whole by lia. unfold refill at 1. cbn [last_refill tokens].
  set (elapsed := as_secs_f64 (saturating_duration_since now created)). destruct (SFltb (S754_zero false) elapsed) eqn:Ee.
  2: { exists created. split; [done|]. intros st Hst. unfold refill. rewrite Hst. fold elapsed. by rewrite Ee. }
  exists now. split; [|intros st <-; unfold refill, saturating_duration_since; by rewrite Z.sub_diag].
  f_equal. rewrite f64_of_whole by lia. set (b := burst spec) in *.
  assert (whole b = S754_zero false /\ b = 0 \/ 0 < b /\ whole b = S754_finite false (Z.to_pos (b * 2 ^ (52 - Z.log2 b))) (Z.log2 b - 52)) as Hw
    by (destruct b; [by left | right; split; done | lia]).
  assert (f64_min (S754_infinity false) (whole b) = whole b) as Hinf by (destruct Hw as [[-> _]|[_ ->]]; done).
  pose proof (f64_min_self (whole b)) as Hself.
  destruct elapsed as [[]|[]| |[] m1 e1]; try discriminate.
  { cbn [f64_mul_add]. destruct (refill_per_sec spec) as [?|[]| |[] m2 e2]; try discriminate; destruct Hw as [[Hw _]|[_ Hw]]; rewrite Hw in *; done. }
  destruct (refill_per_sec spec) as [sr|[]| |[] m2 e2]; try discriminate; try (destruct Hw as [[Hw _]|[_ Hw]]; rewrite Hw in *; done).
  { destruct Hw as [[Hw _]|[_ Hw]]; rewrite Hw in *; [by destruct sr | done]. }
  destruct Hw as [[Hw _]|[Hpos Hw]]; rewrite Hw.
  - cbn [f64_mul_add]. unfold f64_mul, SFmul. cbn [xorb]. unfold binary_round_aux.
    destruct (shr_fexp _ _ _ _ _) as [r1 x1]. destruct (shr_fexp _ _ _ _ _) as [r2 x2]. destruct (shr_m r2); [done| |done]. by destruct (_ <=? _).
  - rewrite <- Hw at 2. cbn [f64_mul_add xorb signed]. rewrite <- Hw. apply min_at_least; [lia | lia |].
    set (e := Z.min (e1 + e2) (Z.log2 b - 52)). pose proof (log2_small b ltac:(lia)).
    rewrite Z2Pos.id by (apply Z.mul_pos_pos; [lia | apply Z.pow_pos_nonneg; lia]).
    rewrite <- Z.mul_assoc, <- Z.pow_add_r by lia. replace (52 - Z.log2 b + (Z.log2 b - 52 - e)) with (- e) by lia.
    assert (0 < 2 ^ (e1 + e2 - e)) by (apply Z.pow_pos_nonneg; lia). nia.
Qed.

Section Burst.
Context (spec : TokenBucketSpec) (now at_ : Z).
Hypothesis Hat : forall st, last_refill st = at_ -> refill st spec now = st.

(** The bucket holds [n] whole tokens once it is refilled. *)
Definition counts (st : TokenBucketState) (n : Z) : Prop := refill st spec now = {| tokens := whole n; last_refill := at_ |}.

Lemma try_consume_counts st n : 0 <= n < 2 ^ 32 -> counts st n ->
  exists st', try_consume st spec now = (negb (n <=? 0), st') /\ counts st' (if n <=? 0 then n else n - 1).
Proof.
  intros Hn Hc. unfold try_consume. rewrite Hc. cbn [tokens last_refill]. rewrite (f64_of_whole 1), whole_le by lia.
  destruct (Z.leb_spec n 0), (Z.leb_spec 1 n); try lia; eexists; (split; [reflexivity|]); unfold counts; rewrite Hat by done; [done|].
  by rewrite whole_sub by lia.
Qed.

Lemma limiter_counts limits ops : subscribe_rate limits = spec -> forall live rest_tokens st,
  0 <= rest_tokens < 2 ^ 32 -> counts st rest_tokens ->
  limiter_run now {| limits := limits; active := live; bucket := st |} ops
  = counted_run (max_subscriptions_per_connection limits) live rest_tokens ops.
Proof.
  intros Hs. induction ops as [|[|] ops IH]; intros live rest_tokens st Hl Hc; [done| |exact (IH _ _ _ Hl Hc)]. cbn [limiter_run counted_run].
  unfold admit_subscribe_at. cbn [Security.limits active bucket]. destruct (_ <=? live); [by rewrite (IH _ rest_tokens)|].
  rewrite Hs. destruct (try_consume_counts st rest_tokens Hl Hc) as (st' & -> & Hc').
  destruct (Z.leb_spec rest_tokens 0); cbn [negb]; [rewrite (IH live rest_tokens) | rewrite (IH (live + 1) (rest_tokens - 1))]; done || lia.
Qed.
End Burst.

Lemma counted_bounds cap ops : forall live rest_tokens,
  0 <= rest_tokens -> 0 <= live <= cap ->
  let '(ds, n) := counted_run cap live rest_tokens ops in
  Z.of_nat (length (List.filter allowed ds)) <= rest_tokens /\ 0 <= n <= cap.
Proof.
  induction ops as [|[|] ops IH]; intros live rest_tokens Hl Hc; cbn [counted_run]; [simpl; lia| |by apply IH; lia].
  destruct (Z.leb_spec cap live); [specialize (IH live rest_tokens Hl Hc); destruct (counted_run cap live rest_tokens ops); done|].
  destruct (Z.leb_spec rest_tokens 0); [specialize (IH live rest_tokens Hl Hc); destruct (counted_run cap live rest_tokens ops); done|].
  specialize (IH (live + 1) (rest_tokens - 1) ltac:(lia) ltac:(lia)). destruct (counted_run cap (live + 1) (rest_tokens - 1) ops). simpl. lia.
Qed.

(** C40: A connection's limiter counts exactly, in spite of its floating-point bucket: for any
    interleaving of admissions and releases at one instant, however long after the limiter was
    created and with any refill rate that is not negative, each decision is the one of a cap on live
    subscriptions and a whole number of tokens that starts at the burst; at most the burst is
    admitted however many slots are released and however long the bucket was left to refill, and the
    live count stays between zero and the cap. *)
Theorem burst_exact limits created now ops :
  0 <= max_subscriptions_per_connection limits -> 0 <= burst (subscribe_rate limits) < 2 ^ 32 ->
  SFltb (refill_per_sec (subscribe_rate limits)) (S754_zero false) = false ->
  let '(ds, n) := limiter_run now (limiter_new_at limits created) ops in
  (ds, n) = counted_run (max_subscriptions_per_connection limits) 0 (burst (subscribe_rate limits)) ops /\
  Z.of_nat (length (List.filter allowed ds)) <= burst (subscribe_rate limits) /\ 0 <= n <= max_subscriptions_per_connection limits.
Proof.
  intros Hm Hb Hr. destruct (refill_full (subscribe_rate limits) created now Hb Hr) as (at_ & Hfull & Hat).
  unfold limiter_new_at. rewrite (limiter_counts _ now at_ Hat limits ops eq_refl 0 (burst (subscribe_rate limits))) by done.
  pose proof (counted_bounds (max_subscriptions_per_connection limits) ops 0 (burst (subscribe_rate limits)) ltac:(lia) ltac:(lia)) as Hc.
  destruct (counted_run _ _ _ _). done.
Qed.
