(* ===== verification/Auth.v ===== *)
(** * Auth: who a connection belongs to
    ([crates/palimpsest-server/src/auth.rs])

    The authenticator of bearer tokens: its configuration, the choice of the key
    and algorithm that verify a token, the refresh of a remote key set, and the
    claims that become the user context. Tokens, keys and JSON documents belong to
    [jsonwebtoken] and [serde_json]; they enter through the class [JwtRuntime].
    An [Instant] is a number of nanoseconds. *)

From S2P Require Import Prelude BTree Text UserContext Exprs Security.

(** ** Data *)

Inductive AuthError :=
| MissingAuthorization
| InvalidToken (message : text)
| MissingClaim (claim : text)
| InvalidClaimShape (claim : text)
| InvalidAuthConfig (message : text)
| UnknownKey (kid : option text).

(** [jsonwebtoken::Algorithm]. *)
Inductive Algorithm := HS256 | HS384 | HS512 | ES256 | ES384 | RS256 | RS384 | RS512 | PS256 | PS384 | PS512 | EdDSA.

#[global] Instance Algorithm_eq_dec : EqDecision Algorithm.
Proof. solve_decision. Defined.

Definition algorithm_debug (a : Algorithm) : text :=
  match a with
  | HS256 => lit "HS256" | HS384 => lit "HS384" | HS512 => lit "HS512" | ES256 => lit "ES256" | ES384 => lit "ES384"
  | RS256 => lit "RS256" | RS384 => lit "RS384" | RS512 => lit "RS512" | PS256 => lit "PS256" | PS384 => lit "PS384" | PS512 => lit "PS512"
  | EdDSA => lit "EdDSA"
  end.

(** The fields of a token's header that are read. *)
Record TokenHeader := { th_alg : Algorithm; th_kid : option text }.

(** [Validation]: the fields the code sets on the defaults of an algorithm. *)
Record Validation := {
  vl_algorithm : Algorithm; vl_exp : bool; vl_nbf : bool; vl_leeway : Z; vl_issuer : option (list text); vl_audience : option (list text)
}.

Class JwtRuntime `{Rendering} : Type := {
  (** [serde_json::Number], and a document as user contexts carry it. *)
  claim_number : Type;
  as_i64 : claim_number -> option Z;
  as_f64 : claim_number -> option Z;
  claim_document : JsonValue claim_number -> json;
  (** [MetadataMap::get("authorization")] and [to_str]. *)
  MetadataMap : Type;
  authorization : MetadataMap -> option (option text);
  (** Keys; the messages of errors are in the left summands. *)
  DecodingKey : Type;
  from_secret : text -> DecodingKey;
  from_rsa_pem : text -> text + DecodingKey;
  from_ec_pem : text -> text + DecodingKey;
  from_ed_pem : text -> text + DecodingKey;
  parse_algorithm : text -> option Algorithm;
  (** The keys of a JWKS document, each by its id, the name of its algorithm and its key. *)
  parse_jwks : text -> text + list (option text * option text * option DecodingKey);
  decode_header : text -> text + TokenHeader;
  decode : text -> DecodingKey -> Validation -> text + JsonValue claim_number
}.

Record JwtAuthConfig := {
  jc_secret : option text; jc_public_key_pem : option text; jc_jwks : option text; jc_jwks_url : option text;
  jc_algorithm : option text; jc_issuer : option text; jc_audience : option text; jc_leeway_secs : option Z;
  jc_claim_to_field : btree text text
}.

Definition is_hmac (a : Algorithm) : bool := match a with HS256 | HS384 | HS512 => true | _ => false end.

Definition JWKS_REFRESH_MIN_INTERVAL : Z := 30 * NANOS_PER_SEC.

Section Jwt.
Context `{JwtRuntime}.

Record CachedJwk := { ck_kid : option text; ck_algorithm : option Algorithm; ck_key : DecodingKey }.
Record JwksKeys := { jk_url : option text; jk_cached : list CachedJwk; jk_last_refresh : option Z }.
Inductive Keys := K_Fixed (key : DecodingKey) (algorithms : list Algorithm) | K_Jwks (keys : JwksKeys).
Record JwtAuthenticator := {
  ja_keys : Keys; ja_issuer : option text; ja_audience : option text; ja_leeway_secs : Z; ja_claim_to_field : btree text text
}.

(** ** Key sets *)

(** The loop over the keys: those that cannot be used are skipped. *)
Definition cached_jwk (jwk : option text * option text * option DecodingKey) : option CachedJwk :=
  let '(kid, algorithm, key) := jwk in
  key ← key; Some {| ck_kid := kid; ck_algorithm := (name ← algorithm; parse_algorithm name); ck_key := key |}.
Definition parse_jwk_set (raw : text) : exec AuthError (list CachedJwk) :=
  match parse_jwks raw with
  | inl message => Err (InvalidAuthConfig (lit "unparseable JWKS: " ++ message))
  | inr set =>
      match filter_map cached_jwk set with
      | [] => Err (InvalidAuthConfig (lit "JWKS contains no usable verification keys"))
      | keys => Ok keys
      end
  end.

(** The answer of the issuer, a failure by its message, or the body. *)
Definition fetch_jwks (response : text + text) : exec AuthError (list CachedJwk) :=
  match response with
  | inl message => Err (InvalidAuthConfig (lit "JWKS fetch failed: " ++ message))
  | inr body => parse_jwk_set body
  end.

(** ** Configuration *)

Definition configured_algorithm (config : JwtAuthConfig) : exec AuthError (option Algorithm) :=
  match jc_algorithm config with
  | None => Ok None
  | Some raw => let? a := ok_or (parse_algorithm raw) (InvalidAuthConfig (lit "unknown algorithm '" ++ raw ++ lit "'")) in Ok (Some a)
  end.

Definition pem_key (algorithm : Algorithm) (pem : text) : exec AuthError DecodingKey :=
  let? key :=
    match algorithm with
    | RS256 | RS384 | RS512 | PS256 | PS384 | PS512 => Ok (from_rsa_pem pem)
    | ES256 | ES384 => Ok (from_ec_pem pem)
    | EdDSA => Ok (from_ed_pem pem)
    | HS256 | HS384 | HS512 => Err (InvalidAuthConfig (lit "HMAC algorithms take a secret, not a PEM key"))
    end in
  match key with
  | inl message => Err (InvalidAuthConfig (lit "unusable public key PEM: " ++ message))
  | inr key => Ok key
  end.

Definition set_sources (config : JwtAuthConfig) : nat :=
  length (List.filter id [bool_decide (is_Some (jc_secret config)); bool_decide (is_Some (jc_public_key_pem config));
                          bool_decide (is_Some (jc_jwks config)); bool_decide (is_Some (jc_jwks_url config))]).

(** [response] and [now] are the answer of the issuer and the time it came, when the keys are remote. *)
Definition configured_keys (config : JwtAuthConfig) (algorithm : option Algorithm) (response : text + text) (now : Z) : exec AuthError Keys :=
  match jc_secret config, jc_public_key_pem config, jc_jwks config, jc_jwks_url config with
  | Some secret, _, _, _ =>
      let algorithm := default HS256 algorithm in
      if negb (is_hmac algorithm)
      then Err (InvalidAuthConfig (lit "algorithm " ++ algorithm_debug algorithm ++ lit " needs a public key, not an HMAC secret"))
      else Ok (K_Fixed (from_secret secret) [algorithm])
  | None, Some pem, _, _ =>
      let algorithm := default RS256 algorithm in
      let? key := pem_key algorithm pem in
      Ok (K_Fixed key [algorithm])
  | None, None, Some raw, _ =>
      let? keys := parse_jwk_set raw in
      Ok (K_Jwks {| jk_url := None; jk_cached := keys; jk_last_refresh := None |})
  | None, None, None, Some url =>
      let? keys := fetch_jwks response in
      Ok (K_Jwks {| jk_url := Some url; jk_cached := keys; jk_last_refresh := Some now |})
  | None, None, None, None => Panic
  end.

Definition from_config (config : JwtAuthConfig) (response : text + text) (now : Z) : exec AuthError JwtAuthenticator :=
  if negb (set_sources config =? 1)%nat
  then Err (InvalidAuthConfig (lit "configure exactly one of: secret, public_key_pem, jwks, jwks_url"))
  else
    let? algorithm := configured_algorithm config in
    let? keys := configured_keys config algorithm response now in
    Ok {| ja_keys := keys; ja_issuer := jc_issuer config; ja_audience := jc_audience config;
          ja_leeway_secs := default 60 (jc_leeway_secs config); ja_claim_to_field := jc_claim_to_field config |}.

(** [AnonymousAuthenticator]. *)
Definition anonymous_authenticate (_ : MetadataMap) : exec AuthError UserContext := Ok [].

(** ** Tokens *)

Definition parse_bearer (headers : MetadataMap) : exec AuthError text :=
  let? value := ok_or (authorization headers) MissingAuthorization in
  let? raw := ok_or value MissingAuthorization in
  match strip_prefix (lit "Bearer ") raw with
  | Some token => Ok token
  | None => ok_or (strip_prefix (lit "bearer ") raw) MissingAuthorization
  end.

Definition validation (a : JwtAuthenticator) (algorithm : Algorithm) : Validation :=
  {| vl_algorithm := algorithm; vl_exp := true; vl_nbf := true; vl_leeway := ja_leeway_secs a;
     vl_issuer := option_map (fun iss => [iss]) (ja_issuer a); vl_audience := option_map (fun aud => [aud]) (ja_audience a) |}.

Definition jwks_lookup (jwks : JwksKeys) (header : TokenHeader) : option (DecodingKey * Algorithm) :=
  candidate ←
    match th_kid header with
    | Some kid => List.find (fun key => bool_decide (ck_kid key = Some kid)) (jk_cached jwks)
    | None => match jk_cached jwks with [key] => Some key | _ => None end
    end;
  if match ck_algorithm candidate with Some algorithm => bool_decide (algorithm <> th_alg header) | None => false end then None
  else Some (ck_key candidate, th_alg header).

(** The part of [resolve_key] that holds the lock on [last_refresh]: entered at [now], the
    refresh it may make ends at [done]. *)
Definition refresh_due (jwks : JwksKeys) (now : Z) : bool :=
  match jk_last_refresh jwks with None => true | Some at_ => JWKS_REFRESH_MIN_INTERVAL <=? saturating_duration_since now at_ end.
Definition refresh (jwks : JwksKeys) (now : Z) (response : text + text) (done : Z) : exec AuthError JwksKeys :=
  if refresh_due jwks now then
    let? fresh := fetch_jwks response in
    Ok {| jk_url := jk_url jwks; jk_cached := fresh; jk_last_refresh := Some done |}
  else Ok jwks.

(** What the world answers while a token is checked: the key set when the lock is taken and
    after it is released, since other requests refresh it too. *)
Record Meanwhile := { mw_locked : JwksKeys -> JwksKeys; mw_now : Z; mw_response : text + text; mw_done : Z; mw_released : JwksKeys -> JwksKeys }.

(** The key, the algorithm, and the key set that the request leaves. *)
Definition resolve_jwt_key (a : JwtAuthenticator) (header : TokenHeader) (w : Meanwhile) : Keys * exec AuthError (DecodingKey * Algorithm) :=
  match ja_keys a with
  | K_Fixed key algorithms =>
      (ja_keys a, if bool_decide (th_alg header ∈ algorithms) then Ok (key, th_alg header)
                  else Err (InvalidToken (lit "token algorithm " ++ algorithm_debug (th_alg header) ++ lit " is not allowed")))
  | K_Jwks jwks =>
      if is_hmac (th_alg header) then (ja_keys a, Err (InvalidToken (lit "HMAC tokens are not accepted against a JWKS")))
      else
        match jwks_lookup jwks header with
        | Some hit => (ja_keys a, Ok hit)
        | None =>
            match jk_url jwks with
            | None => (ja_keys a, Err (UnknownKey (th_kid header)))
            | Some _ =>
                let jwks := mw_locked w jwks in
                match refresh jwks (mw_now w) (mw_response w) (mw_done w) with
                | Ok jwks =>
                    let jwks := mw_released w jwks in
                    (K_Jwks jwks, ok_or (jwks_lookup jwks header) (UnknownKey (th_kid header)))
                | Err e => (K_Jwks jwks, Err e)
                | Panic => (K_Jwks jwks, Panic)
                end
            end
        end
  end.

(** ** Claims *)

Fixpoint json_to_user_value (claim : text) (value : JsonValue claim_number) : exec AuthError UserValue :=
  match value with
  | JV_Bool b => Ok (UV_Bool b)
  | JV_Number n =>
      match as_i64 n with
      | Some i => Ok (UV_Int i)
      | None => match as_f64 n with Some f => Ok (UV_Float f) | None => Err (InvalidClaimShape claim) end
      end
  | JV_String s => Ok (UV_Text s)
  | JV_Null => Ok UV_Null
  | JV_Array items =>
      if forallb (fun item => match item with JV_Array _ | JV_Object _ => false | _ => true end) items
      then let? elements := exec_mapM (json_to_user_value claim) items in Ok (UV_List elements)
      else Ok (UV_Jsonb (claim_document value))
  | JV_Object _ => Ok (UV_Jsonb (claim_document value))
  end.

(** [Value::get]. *)
Definition claim_get (claims : JsonValue claim_number) (claim : text) : option (JsonValue claim_number) :=
  match claims with
  | JV_Object entries => option_map snd (List.find (fun e => bool_decide (e.1 = claim)) entries)
  | _ => None
  end.

Fixpoint lift_claims (claims : JsonValue claim_number) (mapping : list (text * text)) (ctx : UserContext) : exec AuthError UserContext :=
  match mapping with
  | [] => Ok ctx
  | (claim, field) :: rest =>
      let? value := ok_or (claim_get claims claim) (MissingClaim claim) in
      let? user_value := json_to_user_value claim value in
      lift_claims claims rest (bt_insert field user_value ctx)
  end.

(** The keys after the request, with its answer. *)
Definition authenticate (a : JwtAuthenticator) (headers : MetadataMap) (w : Meanwhile) : Keys * exec AuthError UserContext :=
  match parse_bearer headers with
  | Err e => (ja_keys a, Err e)
  | Panic => (ja_keys a, Panic)
  | Ok token =>
      match decode_header token with
      | inl message => (ja_keys a, Err (InvalidToken message))
      | inr header =>
          let '(keys, resolved) := resolve_jwt_key a header w in
          (keys,
           let? (key, algorithm) := resolved in
           match decode token key (validation a algorithm) with
           | inl message => Err (InvalidToken message)
           | inr claims => lift_claims claims (ja_claim_to_field a) []
           end)
      end
  end.

(** ** Who is let in *)

(** The mapping is read in the order of the claims, a later claim replacing an earlier one. *)
Definition lifted (claims : JsonValue claim_number) (mapping : list (text * text)) (field : text) (v : UserValue) : Prop :=
  exists before claim after j, mapping = before ++ (claim, field) :: after /\ (field ∉ map snd after) /\
    claim_get claims claim = Some j /\ json_to_user_value claim j = Ok v.

Lemma lift_claims_spec claims mapping : forall ctx ctx', bt_wf ctx -> lift_claims claims mapping ctx = Ok ctx' ->
  (forall claim field, (claim, field) ∈ mapping -> is_Some (claim_get claims claim)) /\
  forall field v, bt_get field ctx' = Some v <-> lifted claims mapping field v \/ ((field ∉ map snd mapping) /\ bt_get field ctx = Some v).
Proof.
  induction mapping as [|[claim field] mapping IH]; intros ctx ctx' Hwf; cbn [lift_claims].
  - intros [= <-]. split; [by intros ? ? ?%elem_of_nil|]. intros field v. split; [intros Hv; right; split; [apply not_elem_of_nil | done]|].
    intros [(before & claim & after & j & Hm & _)|[_ Hv]]; [by destruct before | done].
  - intros (j & Hj & (uv & Huv & Hl)%exec_bind_ok)%exec_bind_ok. unfold ok_or in Hj. destruct (claim_get claims claim) as [j'|] eqn:Hg; [|done].
    injection Hj as ->. destruct (IH _ _ (bt_wf_insert _ _ _ Hwf) Hl) as [Hall Hget]. split.
    + intros c f [[= -> ->]|Hin]%elem_of_cons; [by rewrite Hg | by eapply Hall].
    + intros f v. rewrite Hget. split.
      * intros [(before & c & after & j1 & -> & Hrest)|[Hf Hv]].
        -- left. exists ((claim, field) :: before), c, after, j1. by split.
        -- destruct (decide (f = field)) as [->|Hne].
           ++ rewrite bt_get_insert_eq in Hv by done. injection Hv as <-. left. exists [], claim, mapping, j. by split.
           ++ rewrite bt_get_insert_ne in Hv by done. right. split; [|done]. cbn [map snd]. by apply not_elem_of_cons.
      * intros [(before & c & after & j1 & Hm & Hf & Hc & Hv)|[Hf Hv]].
        -- destruct before as [|b before]; simplify_eq/=.
           ++ right. split; [done|]. rewrite Huv in Hv. injection Hv as <-. by apply bt_get_insert_eq.
           ++ left. by exists before, c, after, j1.
        -- cbn [map snd] in Hf. apply not_elem_of_cons in Hf as [Hne Hf]. right. split; [done|]. by rewrite bt_get_insert_ne.
Qed.

(** Requests may find the key set refreshed by others. *)
Inductive refreshed : JwksKeys -> JwksKeys -> Prop :=
| refreshed_same k : refreshed k k
| refreshed_by k now response done k' k'' : refresh k now response done = Ok k' -> refreshed k' k'' -> refreshed k k''.
Definition honest (w : Meanwhile) : Prop := (forall k, refreshed k (mw_locked w k)) /\ (forall k, refreshed k (mw_released w k)).

(** The authenticators that a configuration gives rise to. *)
Inductive serving (config : JwtAuthConfig) : JwtAuthenticator -> Prop :=
| serving_built response now a : from_config config response now = Ok a -> serving config a
| serving_after a headers w keys answer : serving config a -> honest w -> authenticate a headers w = (keys, answer) ->
    serving config {| ja_keys := keys; ja_issuer := ja_issuer a; ja_audience := ja_audience a; ja_leeway_secs := ja_leeway_secs a;
                      ja_claim_to_field := ja_claim_to_field a |}.

(** Where keys come from. *)
Inductive key_source (config : JwtAuthConfig) : Keys -> Prop :=
| source_secret secret algorithm : jc_secret config = Some secret -> is_hmac algorithm = true ->
    configured_algorithm config = Ok (Some algorithm) \/ (configured_algorithm config = Ok None /\ algorithm = HS256) ->
    key_source config (K_Fixed (from_secret secret) [algorithm])
| source_pem pem algorithm key : jc_secret config = None -> jc_public_key_pem config = Some pem -> is_hmac algorithm = false ->
    configured_algorithm config = Ok (Some algorithm) \/ (configured_algorithm config = Ok None /\ algorithm = RS256) ->
    pem_key algorithm pem = Ok key ->
    key_source config (K_Fixed key [algorithm])
| source_jwks raw keys : jc_secret config = None -> jc_public_key_pem config = None -> jc_jwks config = Some raw ->
    parse_jwk_set raw = Ok keys ->
    key_source config (K_Jwks {| jk_url := None; jk_cached := keys; jk_last_refresh := None |})
| source_url url body keys at_ : jc_secret config = None -> jc_public_key_pem config = None -> jc_jwks config = None -> jc_jwks_url config = Some url ->
    parse_jwk_set body = Ok keys ->
    key_source config (K_Jwks {| jk_url := Some url; jk_cached := keys; jk_last_refresh := Some at_ |}).

Lemma configured_source config algorithm response now keys :
  configured_algorithm config = Ok algorithm -> configured_keys config algorithm response now = Ok keys -> key_source config keys.
Proof.
  unfold configured_keys. intros Ha. destruct (jc_secret config) as [secret|] eqn:Es.
  - destruct (is_hmac (default HS256 algorithm)) eqn:Eh; [|done]. intros [= <-]. eapply source_secret; [done..|].
    destruct algorithm; [left | right]; done.
  - destruct (jc_public_key_pem config) as [pem|] eqn:Ep.
    + intros (key & Hk & [= <-])%exec_bind_ok. eapply source_pem; [done..| | |exact Hk].
      * destruct (default RS256 algorithm); done.
      * destruct algorithm; [left | right]; done.
    + destruct (jc_jwks config) as [raw|] eqn:Ej.
      * intros (ks & Hk & [= <-])%exec_bind_ok. by eapply source_jwks.
      * destruct (jc_jwks_url config) as [url|] eqn:Eu; [|done]. intros (ks & Hk & [= <-])%exec_bind_ok.
        destruct response as [|body]; [done|]. by eapply source_url.
Qed.

Lemma refreshed_source config k k' : refreshed k k' -> key_source config (K_Jwks k) -> is_Some (jk_url k) ->
  key_source config (K_Jwks k') /\ is_Some (jk_url k').
Proof.
  induction 1 as [k|k now response t k' k'' Hr _ IH]; [done|]. intros Hs Hurl. apply IH; clear IH; unfold refresh in Hr;
    (destruct (refresh_due k now); [|by injection Hr as <-]); apply exec_bind_ok in Hr as (fresh & Hf & [= <-]); [|done].
  inversion Hs; subst; [by destruct Hurl|]. cbn [jk_url]. destruct response as [|body']; [done|]. by eapply source_url.
Qed.

(** The key and algorithm that a key source admits for a token. *)
Definition verifies (keys : Keys) (header : TokenHeader) (key : DecodingKey) : Prop :=
  match keys with
  | K_Fixed k algorithms => key = k /\ th_alg header ∈ algorithms
  | K_Jwks jwks =>
      is_hmac (th_alg header) = false /\
      exists c, c ∈ jk_cached jwks /\ ck_key c = key /\ (forall algorithm, ck_algorithm c = Some algorithm -> algorithm = th_alg header) /\
        match th_kid header with Some kid => ck_kid c = Some kid | None => jk_cached jwks = [c] end
  end.

Lemma jwks_lookup_verifies jwks header key algorithm : is_hmac (th_alg header) = false -> jwks_lookup jwks header = Some (key, algorithm) ->
  verifies (K_Jwks jwks) header key /\ algorithm = th_alg header.
Proof.
  intros Hh (c & Hc & Hk)%bind_Some. destruct (match ck_algorithm c with Some _ => _ | None => _ end) eqn:Ea; [done|]. injection Hk as <- <-.
  split; [|done]. split; [done|]. exists c.
  assert (forall algorithm, ck_algorithm c = Some algorithm -> algorithm = th_alg header) as Hpin.
  { intros algorithm Hal. rewrite Hal in Ea. apply bool_decide_eq_false in Ea. by apply dec_stable. }
  destruct (th_kid header) as [kid|].
  - apply List.find_some in Hc as [Hin%list_elem_of_In Hkid%bool_decide_eq_true]. done.
  - destruct (jk_cached jwks) as [|c' [|]] eqn:E; try done. injection Hc as ->. split; [by left | done].
Qed.

Lemma resolve_jwt_key_source config a header w keys answer : key_source config (ja_keys a) -> honest w -> resolve_jwt_key a header w = (keys, answer) ->
  key_source config keys /\
  forall key algorithm, answer = Ok (key, algorithm) -> algorithm = th_alg header /\ exists source, (source = ja_keys a \/ source = keys) /\ verifies source header key.
Proof.
  intros Hs [Hlock Hrel]. unfold resolve_jwt_key. destruct (ja_keys a) as [key algorithms|jwks] eqn:Ek.
  - intros [= <- <-]. split; [done|]. intros key' algorithm. case_bool_decide; [|done]. intros [= <- <-]. split; [done|]. exists (K_Fixed key algorithms). split; [by left | done].
  - destruct (is_hmac (th_alg header)) eqn:Eh; [by intros [= <- <-]|]. destruct (jwks_lookup jwks header) as [[key algorithm]|] eqn:El.
    { intros [= <- <-]. split; [done|]. intros key' algorithm' [= <- <-]. destruct (jwks_lookup_verifies _ _ _ _ Eh El) as [Hv ->]. split; [done|]. eauto. }
    destruct (jk_url jwks) as [url|] eqn:Eu; [|by intros [= <- <-]].
    destruct (refreshed_source config _ _ (Hlock jwks) Hs) as [Hs1 Hu1]; [by rewrite Eu|].
    destruct (refresh (mw_locked w jwks) (mw_now w) (mw_response w) (mw_done w)) as [k2| |] eqn:Er; [|by intros [= <- <-]..].
    destruct (refreshed_source config _ _ (refreshed_by _ _ _ _ _ _ Er (refreshed_same k2)) Hs1 Hu1) as [Hs2 Hu2].
    destruct (refreshed_source config _ _ (Hrel k2) Hs2 Hu2) as [Hs3 _].
    intros [= <- <-]. split; [done|]. intros key algorithm Hok. unfold ok_or in Hok.
    destruct (jwks_lookup (mw_released w k2) header) as [[key' algorithm']|] eqn:El2; [|done]. injection Hok as -> ->.
    destruct (jwks_lookup_verifies _ _ _ _ Eh El2) as [Hv ->]. split; [done|]. eauto.
Qed.

(** What stays of the configuration. *)
Record configured (config : JwtAuthConfig) (a : JwtAuthenticator) : Prop := {
  cf_keys : key_source config (ja_keys a);
  cf_issuer : ja_issuer a = jc_issuer config;
  cf_audience : ja_audience a = jc_audience config;
  cf_leeway : ja_leeway_secs a = default 60 (jc_leeway_secs config);
  cf_mapping : ja_claim_to_field a = jc_claim_to_field config
}.

Lemma serving_configured config a : serving config a -> configured config a.
Proof.
  induction 1 as [response now a Ha|a headers w keys answer _ IH Hw Ha].
  - unfold from_config in Ha. destruct (negb _); [done|]. apply exec_bind_ok in Ha as (algorithm & Hal & (keys & Hk & [= <-])%exec_bind_ok).
    split; try done. by eapply configured_source.
  - destruct IH as [Hk Hi Hau Hl Hm]. split; cbn; try done. unfold authenticate in Ha.
    destruct (parse_bearer headers) as [token| |]; [|by injection Ha as <-..]. destruct (decode_header token) as [|header]; [by injection Ha as <-|].
    destruct (resolve_jwt_key a header w) as [keys' resolved] eqn:Er. injection Ha as <- _. by destruct (resolve_jwt_key_source _ _ _ _ _ _ Hk Hw Er).
Qed.

Lemma parse_bearer_ok headers token : parse_bearer headers = Ok token ->
  authorization headers = Some (Some (lit "Bearer " ++ token)) \/ authorization headers = Some (Some (lit "bearer " ++ token)).
Proof.
  unfold parse_bearer. intros (value & Hv & (raw & Hr & Hp)%exec_bind_ok)%exec_bind_ok. unfold ok_or in Hv, Hr.
  destruct (authorization headers) as [value'|]; [|done]. injection Hv as ->. destruct value as [raw'|]; [|done]. injection Hr as ->.
  destruct (strip_prefix (lit "Bearer ") raw) as [t|] eqn:E; [injection Hp as ->; left; by rewrite (strip_prefix_Some _ _ _ E)|].
  unfold ok_or in Hp. destruct (strip_prefix (lit "bearer ") raw) as [t|] eqn:E'; [|done]. injection Hp as ->. right. by rewrite (strip_prefix_Some _ _ _ E').
Qed.

(** C6: Who a connection acts for. For any authenticator that a configuration gives rise to, through
    any requests and refreshes of its keys: a request that is answered with a user context carried a
    bearer token whose header was readable, and that token verified under a key of the configured
    source, with expiry and not-before checked and with the configured leeway, issuer and audience;
    an HMAC token verifies only under the configured secret and no other token does so, a fixed key
    takes only its one algorithm, and a key of a set takes only the key id it has and the algorithm
    it pins; every mapped claim was present, and the context holds exactly the mapped claims, a
    later claim winning a shared field. *)
Theorem authenticated_exact (config : JwtAuthConfig) (a : JwtAuthenticator) (headers : MetadataMap) (w : Meanwhile) (keys : Keys) (ctx : UserContext) :
  serving config a -> honest w -> authenticate a headers w = (keys, Ok ctx) ->
  exists token header source key claims,
    (authorization headers = Some (Some (lit "Bearer " ++ token)) \/ authorization headers = Some (Some (lit "bearer " ++ token))) /\
    decode_header token = inr header /\
    key_source config source /\ verifies source header key /\
    (is_hmac (th_alg header) = true -> exists secret, jc_secret config = Some secret /\ key = from_secret secret) /\
    (is_hmac (th_alg header) = false -> jc_secret config = None) /\
    decode token key {| vl_algorithm := th_alg header; vl_exp := true; vl_nbf := true; vl_leeway := default 60 (jc_leeway_secs config);
                        vl_issuer := option_map (fun iss => [iss]) (jc_issuer config);
                        vl_audience := option_map (fun aud => [aud]) (jc_audience config) |} = inr claims /\
    (forall claim field, (claim, field) ∈ jc_claim_to_field config -> is_Some (claim_get claims claim)) /\
    (forall field v, bt_get field ctx = Some v <-> lifted claims (jc_claim_to_field config) field v).
Proof.
  intros Hs%serving_configured Hw Ha. destruct Hs as [Hk Hi Hau Hl Hm]. unfold authenticate in Ha.
  destruct (parse_bearer headers) as [token| |] eqn:Ep; [|done..]. destruct (decode_header token) as [|header] eqn:Eh; [done|].
  destruct (resolve_jwt_key a header w) as [keys' resolved] eqn:Er. injection Ha as -> Ha.
  apply exec_bind_ok in Ha as ([key algorithm] & -> & Ha). destruct (resolve_jwt_key_source _ _ _ _ _ _ Hk Hw Er) as [Hk' Hres].
  destruct (Hres key algorithm eq_refl) as (-> & source & Hsource & Hv). destruct (decode token key _) as [|claims] eqn:Ed; [done|].
  rewrite Hm in Ha. apply lift_claims_spec in Ha as [Hall Hget]; [|apply bt_wf_nil].
  assert (key_source config source) as Hsrc by (by destruct Hsource as [->| ->]).
  exists token, header, source, key, claims. split; [by apply parse_bearer_ok|]. split; [done|]. split; [done|]. split; [done|].
  split; [|split; [|split; [|split]]].
  - intros Hh. destruct Hsrc as [secret al Hc _ _|pem al k _ _ Hn _ _|raw ks _ _ _ _|url body ks t _ _ _ _ _]; cbn [verifies] in Hv.
    + destruct Hv as [-> _]. eauto.
    + destruct Hv as [_ Hin%list_elem_of_singleton]. congruence.
    + destruct Hv as [Hv _]. congruence.
    + destruct Hv as [Hv _]. congruence.
  - intros Hh. destruct Hsrc as [secret al Hc Hy _|pem al k Hn _ _ _ _|raw ks Hn _ _ _|url body ks t Hn _ _ _ _]; cbn [verifies] in Hv; try done.
    destruct Hv as [_ Hin%list_elem_of_singleton]. congruence.
  - rewrite <- Ed. unfold validation. by rewrite Hi, Hau, Hl.
  - done.
  - intros field v. rewrite Hget. split; [by intros [?|[_ ?]] | by left].
Qed.

(** ** How often the issuer is asked *)

(** The visits to the critical section, in the order of the lock; when they are in time order between [t] and [t']. *)
Record visit := { vs_now : Z; vs_response : text + text; vs_done : Z }.
Fixpoint chronological (t : Z) (l : list visit) (t' : Z) : Prop :=
  match l with
  | [] => t <= t'
  | v :: l => t <= vs_now v /\ vs_now v <= vs_done v /\ chronological (vs_done v) l t'
  end.

(** The requests to the issuer. *)
Fixpoint fetches (k : JwksKeys) (l : list visit) : list visit :=
  match l with
  | [] => []
  | v :: l =>
      let rest := fetches (match refresh k (vs_now v) (vs_response v) (vs_done v) with Ok k' => k' | _ => k end) l in
      if refresh_due k (vs_now v) then v :: rest else rest
  end.

Lemma fetches_spaced l : forall k t t0 t', jk_last_refresh k = Some t0 -> t0 <= t -> chronological t l t' ->
  Forall (fun v => exists keys, fetch_jwks (vs_response v) = Ok keys) l ->
  JWKS_REFRESH_MIN_INTERVAL * Z.of_nat (length (fetches k l)) <= t' - t0.
Proof.
  induction l as [|v l IH]; intros k t t0 t' Hk Ht Hc Hu; cbn [fetches chronological] in *; [cbn; lia|].
  destruct Hc as (H1 & H2 & Hc). apply Forall_cons in Hu as [[keys Hf] Hu]. unfold refresh, refresh_due. rewrite Hk.
  destruct (Z.leb_spec JWKS_REFRESH_MIN_INTERVAL (saturating_duration_since (vs_now v) t0)) as [Hd|Hd].
  - rewrite Hf. cbn [exec_bind length].
    specialize (IH {| jk_url := jk_url k; jk_cached := keys; jk_last_refresh := Some (vs_done v) |} (vs_done v) (vs_done v) t' eq_refl ltac:(lia) Hc Hu).
    unfold saturating_duration_since, JWKS_REFRESH_MIN_INTERVAL, NANOS_PER_SEC in *. lia.
  - apply (IH k (vs_done v)); [done | lia | done..].
Qed.

(** A remote key set is fetched at most once in thirty seconds from start-up on, when every fetch succeeds. *)
Theorem refresh_rate (config : JwtAuthConfig) (response : text + text) (start t' : Z) (a : JwtAuthenticator) (k : JwksKeys) (l : list visit) :
  from_config config response start = Ok a -> ja_keys a = K_Jwks k -> is_Some (jk_url k) -> chronological start l t' ->
  Forall (fun v => exists keys, fetch_jwks (vs_response v) = Ok keys) l ->
  JWKS_REFRESH_MIN_INTERVAL * Z.of_nat (length (fetches k l)) <= t' - start.
Proof.
  intros Ha Hk Hurl Hc Hu. apply (fetches_spaced l k start); [|lia|done..].
  unfold from_config in Ha. destruct (negb _); [done|]. apply exec_bind_ok in Ha as (algorithm & Hal & (keys & Hks & [= <-])%exec_bind_ok).
  cbn in Hk. subst keys. unfold configured_keys in Hks. repeat case_match; simplify_eq/=; try done;
    apply exec_bind_ok in Hks as (ks & Hks & [= <-]); [by destruct Hurl | done].
Qed.
End Jwt.
