(* ===== verification/Host.v ===== *)
(** * Host: the host of compiled plans
    ([crates/palimpsest-dataflow/src/palimpsest/dataflow_host.rs])

    [snapshot_run] evaluates a plan once. The [PersistentHost] keeps one worker
    per canonical key; a worker owns the input sessions of its plan and answers
    [Seed] and [Apply]. A worker is its accumulated inputs, the time its sessions
    stand at and the output it has emitted so far; stepping it to a time emits the
    consolidated difference between the plan's output on the new inputs and what
    was emitted, which is the contract of the dataflow that [install_plan] builds.
    A panic ends the worker's thread: the reply channel closes, the caller gets the
    default, and every later command fails to send. [Err Diverges] is a call that
    does not return. The second half shows
    that the view a plan keeps, the deltas it fans out and the view a late subscriber is
    given agree with the plan's output on the accumulated tables. *)

From stdpp Require Import gmap.
From S2P Require Import Prelude BTree Text Values Literals Protocol WalSource Floats Datums Exprs Like Eval Consolidation.
From S2P Require Import Operators Relational Watermarks Mir RelationalFacts CompileMir Install.

Definition plus_ones (rows : list Row) : collection Row := map (fun row => (row, 1)) rows.

(** [iter().position(|x| x == y)]. *)
Definition position {A} `{EqDecision A} (y : A) (l : list A) : option nat := fst <$> list_find (fun x => x = y) l.
Definition remove_one {A} `{EqDecision A} (y : A) (l : list A) : list A :=
  match position y l with Some pos => swap_remove pos l | None => l end.

Section Host.
Context `{PetGraph MirNodeKind MirEdgeKind} (rounds : nat).

(** ** [snapshot_run] *)

Definition snapshot_run (plan : CompiledPlan) (inputs : gmap Z (list Row)) : installed (list Row) :=
  let input_collections : gmap Z (collection Row) :=
    list_to_map (map (fun table => (table, plus_ones (default [] (inputs !! table)))) (cp_inputs plan)) in
  let? output := install_plan plan input_collections rounds in
  Ok (map fst (List.filter (fun p => 0 <? p.2) (consolidated output))).

(** ** The worker of a plan *)

Record AggregateDelta := { ad_row : Row; ad_lsn : Z; ad_diff : Z }.

Record Worker := {
  w_inputs : gmap Z (collection Row);
  w_time : Z;
  w_emitted : collection Row
}.

(** Built once: a session per input table, all at time 0. *)
Definition worker_new (plan : CompiledPlan) : Worker :=
  {| w_inputs := list_to_map (map (fun table => (table, [])) (cp_inputs plan)); w_time := 0; w_emitted := [] |}.

(** [update_at] on the session of a table, if there is one: it asserts that the
    session has not passed the time. *)
Definition update_at (w : Worker) (table : Z) (row : Row) (time diff : Z) : installed Worker :=
  match w_inputs w !! table with
  | None => Ok w
  | Some session =>
      if w_time w <=? time
      then Ok {| w_inputs := <[table := session ++ [(row, diff)]]> (w_inputs w); w_time := w_time w; w_emitted := w_emitted w |}
      else Panic
  end.

Fixpoint update_all (w : Worker) (time : Z) (diffs : list (Z * Row * Z)) : installed Worker :=
  match diffs with
  | [] => Ok w
  | (table, row, diff) :: rest => let? w := update_at w table row time diff in update_all w time rest
  end.

(** Advance every session to [target] and step until the output has passed it; the
    output captured on the way. [advance_to] asserts that time does not go back.
    The operators of the dataflow are not run incrementally here: their step is taken by its contract,
    that what they emit for a time is the output on the inputs up to it less what they emitted before.
    Theorems that go through this definition are about the code around the dataflow under that contract. *)
Definition advance_and_step (plan : CompiledPlan) (w : Worker) (target : Z) : installed (collection Row * Worker) :=
  if bool_decide (w_inputs w <> ∅) && (target <? w_time w) then Panic
  else
    let? output := install_plan plan (w_inputs w) rounds in
    Ok (consolidated (output ++ coll_negate (w_emitted w)),
        {| w_inputs := w_inputs w; w_time := target; w_emitted := output |}).

(** The [Seed] command. *)
Definition worker_seed (plan : CompiledPlan) (w : Worker) (seed_rows : gmap Z (list Row)) : installed (list Row * Worker) :=
  let? w := update_all w 0 (flat_map (fun p => map (fun row => (p.1, row, 1)) p.2) (map_to_list seed_rows)) in
  let? (drained, w) := advance_and_step plan w 1 in
  Ok (map fst (List.filter (fun p => 0 <? p.2) drained), w).

(** The [Apply] command. At the last time there is no next one: the updates stay
    beyond the frontier and emit nothing. *)
Definition worker_apply (plan : CompiledPlan) (w : Worker) (diffs : list (Z * Row * Z)) (lsn : Z)
  : installed (list AggregateDelta * Worker) :=
  let? w' := update_all w lsn diffs in
  if lsn =? U64_MAX then Ok ([], {| w_inputs := w_inputs w; w_time := lsn; w_emitted := w_emitted w |})
  else
    let? (drained, w') := advance_and_step plan w' (lsn + 1) in
    Ok (map (fun p => {| ad_row := p.1; ad_lsn := lsn; ad_diff := p.2 |}) drained, w').

(** ** [IncrementalDataflow]: the command channel; [None] once the thread is gone *)

Record IncrementalDataflow := { id_plan : CompiledPlan; id_worker : option Worker }.

Definition spawn (plan : CompiledPlan) : IncrementalDataflow := {| id_plan := plan; id_worker := Some (worker_new plan) |}.

Definition command {A} (df : IncrementalDataflow) (run : Worker -> installed (list A * Worker)) : installed (list A * IncrementalDataflow) :=
  match id_worker df with
  | None => Ok ([], df)
  | Some w =>
      match run w with
      | Ok (reply, w') => Ok (reply, {| id_plan := id_plan df; id_worker := Some w' |})
      | Panic => Ok ([], {| id_plan := id_plan df; id_worker := None |})
      | Err e => Err e
      end
  end.

Definition seed (df : IncrementalDataflow) (inputs : gmap Z (list Row)) : installed (list Row * IncrementalDataflow) :=
  command df (fun w => worker_seed (id_plan df) w inputs).
Definition apply (df : IncrementalDataflow) (diffs : list (Z * Row * Z)) (lsn : Z)
  : installed (list AggregateDelta * IncrementalDataflow) :=
  command df (fun w => worker_apply (id_plan df) w diffs lsn).

(** ** The cached view *)

Definition apply_delta_to_cache (rows : list Row) (delta : AggregateDelta) : list Row :=
  if 0 <? ad_diff delta then rows ++ replicate (Z.to_nat (ad_diff delta)) (ad_row delta)
  else Nat.iter (Z.to_nat (- ad_diff delta)) (remove_one (ad_row delta)) rows.
Definition apply_deltas_to_cache (rows : list Row) (deltas : list AggregateDelta) : list Row :=
  fold_left apply_delta_to_cache deltas rows.

(** ** [PersistentHost] *)

Record PlanState := {
  ps_dataflow : IncrementalDataflow;
  ps_last_output : list Row;
  ps_last_lsn : Z;
  ps_subscribers : list Z
}.

(** [HostInner], behind the mutex. *)
Definition PersistentHost := gmap string PlanState.
Definition host_new : PersistentHost := ∅.

Definition with_subscribers (s : PlanState) (subs : list Z) : PlanState :=
  {| ps_dataflow := ps_dataflow s; ps_last_output := ps_last_output s; ps_last_lsn := ps_last_lsn s; ps_subscribers := subs |}.
Definition attach (s : PlanState) (subscriber : Z) : PlanState := with_subscribers s (ps_subscribers s ++ [subscriber]).

Definition cached_view (h : PersistentHost) (canonical : string) (subscriber : Z) : option (list Row * Z) * PersistentHost :=
  match h !! canonical with
  | None => (None, h)
  | Some s => (Some (ps_last_output s, ps_last_lsn s), <[canonical := attach s subscriber]> h)
  end.

(** [register_or_seed] takes the lock twice; between the two it spawns and seeds. *)
Definition register_attach (h : PersistentHost) (canonical : string) (subscriber : Z) : option (list Row * PersistentHost) :=
  match h !! canonical with
  | None => None
  | Some s => Some (ps_last_output s, <[canonical := attach s subscriber]> h)
  end.
Definition register_insert (h : PersistentHost) (canonical : string) (dataflow : IncrementalDataflow) (initial : list Row)
    (snapshot_lsn subscriber : Z) : list Row * PersistentHost :=
  match register_attach h canonical subscriber with
  | Some r => r
  | None =>
      (initial, <[canonical := {| ps_dataflow := dataflow; ps_last_output := initial; ps_last_lsn := snapshot_lsn;
                                  ps_subscribers := [subscriber] |}]> h)
  end.
Definition register_or_seed (h : PersistentHost) (canonical : string) (plan : CompiledPlan) (inputs : gmap Z (list Row))
    (snapshot_lsn subscriber : Z) : installed (list Row * PersistentHost) :=
  match register_attach h canonical subscriber with
  | Some r => Ok r
  | None =>
      let? (initial, dataflow) := seed (spawn plan) inputs in
      Ok (register_insert h canonical dataflow initial snapshot_lsn subscriber)
  end.

Definition host_subscribers (h : PersistentHost) (canonical : string) : option (list Z) := ps_subscribers <$> h !! canonical.

Definition apply_and_fanout (h : PersistentHost) (canonical : string) (diffs : list (Z * Row * Z)) (lsn : Z)
  : installed (option (list AggregateDelta * list Z) * PersistentHost) :=
  match h !! canonical with
  | None => Ok (None, h)
  | Some s =>
      let? (deltas, dataflow) := apply (ps_dataflow s) diffs lsn in
      Ok (Some (deltas, ps_subscribers s),
          <[canonical := {| ps_dataflow := dataflow; ps_last_output := apply_deltas_to_cache (ps_last_output s) deltas;
                            ps_last_lsn := lsn; ps_subscribers := ps_subscribers s |}]> h)
  end.

Definition push_table_batch (h : PersistentHost) (canonical : string) (diffs : list (Z * Row * Z)) (lsn : Z)
  : installed (list AggregateDelta * PersistentHost) :=
  let? (r, h) := apply_and_fanout h canonical diffs lsn in
  Ok (match r with Some (deltas, _) => deltas | None => [] end, h).
Definition push_table_diff (h : PersistentHost) (canonical : string) (table_id : Z) (row : Row) (diff lsn : Z)
  : installed (list AggregateDelta * PersistentHost) :=
  push_table_batch h canonical [(table_id, row, diff)] lsn.
Definition push_transaction (h : PersistentHost) (canonical : string) (transaction : WalTransaction)
  : installed (list AggregateDelta * PersistentHost) :=
  push_table_batch h canonical (map (fun u => (wu_table u, wu_row u, wu_diff u)) (wt_updates transaction)) (wt_commit_lsn transaction).

Definition host_release (h : PersistentHost) (canonical : string) (subscriber : Z) : nat * PersistentHost :=
  match h !! canonical with
  | None => (O, h)
  | Some s =>
      let subs := remove_one subscriber (ps_subscribers s) in
      match length subs with
      | O => (O, delete canonical h)
      | n => (n, <[canonical := with_subscribers s subs]> h)
      end
  end.
End Host.

(** * The host's view is the query result *)

(** ** Vectors *)

Section Remove.
Context {A : Type} `{EqDecision A}.

Lemma remove_one_perm (y : A) l : y ∈ l -> l ≡ₚ y :: remove_one y l.
Proof.
  intros Hy. unfold remove_one, position. destruct (list_find (fun x => x = y) l) as [[i x]|] eqn:E; simpl.
  - apply list_find_Some in E as (Hi & -> & _). by apply swap_remove_perm.
  - apply list_find_None in E. rewrite Forall_forall in E. by destruct (E y Hy).
Qed.
Lemma remove_one_absent (y : A) l : y ∉ l -> remove_one y l = l.
Proof.
  intros Hy. unfold remove_one, position. destruct (list_find (fun x => x = y) l) as [[i x]|] eqn:E; simpl; [|done].
  apply list_find_Some in E as (Hi & -> & _). destruct Hy. by eapply list_elem_of_lookup_2.
Qed.
End Remove.

(** ** The cached view *)

Lemma occurrences_nonneg {D} `{Ord D} (d : D) l : 0 <= occurrences d l.
Proof. unfold occurrences. lia. Qed.
Lemma occurrences_elem {D} `{Ord D} (d : D) l : d ∈ l <-> 0 < occurrences d l.
Proof.
  unfold occurrences. induction l as [|x l IH]; simpl; [split; [by intros ?%elem_of_nil | lia]|].
  rewrite elem_of_cons, IH. destruct (ord_eqb_spec x d) as [->|]; simpl; [split; [lia | by left]|]. split; [|by right]. by intros [->|].
Qed.

Lemma occurrences_cons {D} `{Ord D} (d x : D) l : occurrences d (x :: l) = indicator (ord_eqb x d) + occurrences d l.
Proof. unfold occurrences. simpl. destruct (ord_eqb x d); simpl; lia. Qed.

Lemma occurrences_remove (r y : Row) rows :
  occurrences r (remove_one y rows) = if ord_eqb y r then Z.max 0 (occurrences r rows - 1) else occurrences r rows.
Proof.
  destruct (decide (y ∈ rows)) as [Hy|Hy].
  - pose proof (occurrences_perm r _ _ (remove_one_perm y rows Hy)) as E. rewrite occurrences_cons in E.
    pose proof (occurrences_nonneg r (remove_one y rows)). destruct (ord_eqb y r); simpl in E; lia.
  - rewrite remove_one_absent by done. destruct (ord_eqb_spec y r) as [->|]; [|done].
    rewrite occurrences_elem in Hy. pose proof (occurrences_nonneg r rows). lia.
Qed.

Lemma occurrences_iter (r y : Row) n rows :
  occurrences r (Nat.iter n (remove_one y) rows) = if ord_eqb y r then Z.max 0 (occurrences r rows - Z.of_nat n) else occurrences r rows.
Proof.
  pose proof (occurrences_nonneg r rows). induction n as [|n IH]; simpl Nat.iter; [destruct (ord_eqb y r); lia|].
  rewrite occurrences_remove, IH. destruct (ord_eqb y r); lia.
Qed.

Lemma apply_delta_occurrences r rows delta :
  occurrences r (apply_delta_to_cache rows delta)
  = if ord_eqb (ad_row delta) r then Z.max 0 (occurrences r rows + ad_diff delta) else occurrences r rows.
Proof.
  unfold apply_delta_to_cache. pose proof (occurrences_nonneg r rows). destruct (Z.ltb_spec 0 (ad_diff delta)).
  - rewrite occurrences_app, occurrences_replicate. destruct (ord_eqb _ _); simpl; lia.
  - rewrite occurrences_iter. destruct (ord_eqb _ _); lia.
Qed.

(** The deltas of one time: one entry per row. *)
Definition deltas_at (lsn : Z) (c : collection Row) : list AggregateDelta :=
  map (fun p => {| ad_row := p.1; ad_lsn := lsn; ad_diff := p.2 |}) c.

Lemma apply_deltas_occurrences r lsn (m : btree Row Z) rows :
  bt_wf m -> occurrences r (apply_deltas_to_cache rows (deltas_at lsn m)) = Z.max 0 (occurrences r rows + mult r m).
Proof.
  intros Hwf. rewrite (mult_bt r m Hwf). unfold apply_deltas_to_cache, deltas_at. revert rows Hwf.
  induction m as [|[k v] m IH]; intros rows Hwf; simpl map; cbn [fold_left].
  { simpl. pose proof (occurrences_nonneg r rows). lia. }
  apply bt_wf_cons in Hwf as [Hk Hm]. rewrite IH by done. rewrite apply_delta_occurrences. cbn [ad_row ad_diff bt_get].
  pose proof (occurrences_nonneg r rows).
  destruct (ord_eqb_spec k r) as [->|Hne].
  - rewrite cmp_refl, bt_get_below by done. simpl. lia.
  - destruct (cmp r k) eqn:E; [by apply cmp_eq in E; subst | |done].
    rewrite bt_get_below; [done|]. eapply Forall_impl; [exact Hk|]. intros p. by apply cmp_trans.
Qed.

(** ** Sessions *)

Abbreviation row_diff := (Z * Row * Z)%type.

Section Sessions.
Context `{PetGraph MirNodeKind MirEdgeKind}.


(** The sessions after a list of updates. *)
Definition accumulate (sessions : gmap Z (collection Row)) (diffs : list row_diff) : gmap Z (collection Row) :=
  fold_left (fun m d => match m !! d.1.1 with Some c => <[d.1.1 := c ++ [(d.1.2, d.2)]]> m | None => m end) diffs sessions.
(** The updates of one table. *)
Definition of_table (table : Z) (diffs : list row_diff) : collection Row :=
  filter_map (fun d => if bool_decide (d.1.1 = table) then Some (d.1.2, d.2) else None) diffs.

Lemma accumulate_lookup sessions diffs table :
  accumulate sessions diffs !! table = (fun c => c ++ of_table table diffs) <$> sessions !! table.
Proof.
  unfold accumulate. revert sessions. induction diffs as [|[[t row] d] diffs IH]; intros sessions; simpl.
  { destruct (sessions !! table); simpl; [by rewrite app_nil_r | done]. }
  rewrite IH. unfold of_table. simpl. case_bool_decide as E.
  - subst t. destruct (sessions !! table) as [c|] eqn:Hc; [|by rewrite Hc]. rewrite lookup_insert_eq. simpl. by rewrite <- app_assoc.
  - destruct (sessions !! t) as [c|] eqn:Hc; [|done]. by rewrite lookup_insert_ne.
Qed.

Lemma update_all_ok w time diffs :
  w_time w <= time ->
  update_all w time diffs = Ok {| w_inputs := accumulate (w_inputs w) diffs; w_time := w_time w; w_emitted := w_emitted w |}.
Proof.
  unfold accumulate. revert w. induction diffs as [|[[t row] d] diffs IH]; intros w Hw; simpl; [by destruct w|].
  unfold update_at. destruct (w_inputs w !! t) as [c|] eqn:Hc; simpl; [|by rewrite (IH w Hw)].
  assert ((w_time w <=? time) = true) as -> by lia. simpl. by rewrite IH.
Qed.

(** The rows of a snapshot as updates, and the sessions they lead to. *)
Definition seed_updates (seed : gmap Z (list Row)) : list row_diff :=
  flat_map (fun p => map (fun row => (p.1, row, 1)) p.2) (map_to_list seed).
Definition snapshot_collections (plan : CompiledPlan) (seed : gmap Z (list Row)) : gmap Z (collection Row) :=
  list_to_map (map (fun table => (table, plus_ones (default [] (seed !! table)))) (cp_inputs plan)).

Lemma of_table_app table a b : of_table table (a ++ b) = of_table table a ++ of_table table b.
Proof. apply filter_map_app. Qed.

Lemma of_table_rows table t rows :
  of_table table (map (fun row => (t, row, 1)) rows) = if bool_decide (t = table) then plus_ones rows else [].
Proof. unfold of_table, plus_ones. induction rows as [|r rows IH]; simpl; [by case_bool_decide|]. rewrite IH. by case_bool_decide. Qed.

Lemma of_table_seed table seed : of_table table (seed_updates seed) = plus_ones (default [] (seed !! table)).
Proof.
  unfold seed_updates. rewrite <- (list_to_map_to_list seed) at 2. pose proof (NoDup_fst_map_to_list seed) as Hnd.
  induction (map_to_list seed) as [|[t rows] l IH]; simpl; [by rewrite lookup_empty|].
  apply NoDup_cons in Hnd as [Hni Hnd]. rewrite of_table_app, of_table_rows, (IH Hnd). case_bool_decide as E.
  - simpl in E. subst t. rewrite lookup_insert_eq, not_elem_of_list_to_map_1 by done. simpl. by rewrite app_nil_r.
  - simpl. by rewrite lookup_insert_ne.
Qed.

Lemma table_map_lookup {A} (f : Z -> A) tables t :
  (list_to_map (map (fun table => (table, f table)) tables) : gmap Z A) !! t = if bool_decide (t ∈ tables) then Some (f t) else None.
Proof.
  induction tables as [|t' tables IH]; [done|]. cbn [map list_to_map foldr fst snd].
  destruct (decide (t' = t)) as [->|Hne].
  - by rewrite lookup_insert_eq, bool_decide_eq_true_2 by constructor.
  - rewrite lookup_insert_ne, IH by done. apply option_eq. intros a. repeat case_bool_decide; try done; set_solver.
Qed.

(** Seeding a fresh worker gives the collections a snapshot run starts from. *)
Lemma accumulate_seed plan seed : accumulate (w_inputs (worker_new plan)) (seed_updates seed) = snapshot_collections plan seed.
Proof.
  apply map_eq. intros t. rewrite accumulate_lookup. unfold worker_new, snapshot_collections. cbn [w_inputs].
  rewrite (table_map_lookup (fun _ => [] : collection Row)), (table_map_lookup (fun t => plus_ones (default [] (seed !! t)))).
  case_bool_decide; [|done]. simpl. by rewrite of_table_seed.
Qed.

End Sessions.

Section Plan.
Context `{PetGraph MirNodeKind MirEdgeKind} (rounds : nat) (plan : CompiledPlan).

Lemma advance_ok w target out :
  w_time w <= target -> install_plan plan (w_inputs w) rounds = Ok out ->
  advance_and_step rounds plan w target =
  Ok (consolidated (out ++ coll_negate (w_emitted w)), {| w_inputs := w_inputs w; w_time := target; w_emitted := out |}).
Proof.
  intros Ht Ho. unfold advance_and_step. assert ((target <? w_time w) = false) as -> by lia. by rewrite andb_false_r, Ho.
Qed.

Lemma worker_apply_ok w diffs lsn out :
  w_time w <= lsn -> lsn <> U64_MAX -> install_plan plan (accumulate (w_inputs w) diffs) rounds = Ok out ->
  worker_apply rounds plan w diffs lsn =
  Ok (deltas_at lsn (consolidated (out ++ coll_negate (w_emitted w))),
      {| w_inputs := accumulate (w_inputs w) diffs; w_time := lsn + 1; w_emitted := out |}).
Proof.
  intros Ht Hm Ho. unfold worker_apply. rewrite update_all_ok by done. cbn [exec_bind].
  destruct (Z.eqb_spec lsn U64_MAX); [done|]. rewrite (advance_ok _ _ out); [done | cbn; lia | done].
Qed.

(** The rows a capture keeps: those with a positive weight, once each. *)
Definition captured (out : collection Row) : list Row := map fst (List.filter (fun p => 0 <? p.2) (consolidated out)).

Lemma worker_seed_ok seed out :
  install_plan plan (snapshot_collections plan seed) rounds = Ok out ->
  worker_seed rounds plan (worker_new plan) seed =
  Ok (captured out, {| w_inputs := snapshot_collections plan seed; w_time := 1; w_emitted := out |}).
Proof.
  intros Ho. unfold worker_seed. change (flat_map _ (map_to_list seed)) with (seed_updates seed).
  rewrite update_all_ok by done. rewrite accumulate_seed. cbn [exec_bind].
  rewrite (advance_ok _ _ out); [|cbn; lia|done]. cbn [exec_bind w_emitted worker_new coll_negate map]. by rewrite app_nil_r.
Qed.

Lemma snapshot_run_ok seed out :
  install_plan plan (snapshot_collections plan seed) rounds = Ok out -> snapshot_run rounds plan seed = Ok (captured out).
Proof. intros Ho. unfold snapshot_run. fold (snapshot_collections plan seed). by rewrite Ho. Qed.

(** The rows captured are the result when no row occurs twice. *)
Lemma captured_occurrences out r : (forall d, mult d out <= 1) -> occurrences r (captured out) = Z.max 0 (mult r out).
Proof.
  intros Hset. unfold captured.
  assert (forall l : btree Row Z, bt_wf l -> (forall d w, (d, w) ∈ l -> w <= 1) ->
    occurrences r (map fst (List.filter (fun p => 0 <? p.2) l)) = Z.max 0 (mult r l)) as Hl.
  { induction l as [|[k w] l IH]; intros Hwf Hle; [done|]. pose proof Hwf as [Hk Hwf']%bt_wf_cons.
    specialize (IH Hwf' (fun d w' Hin => Hle d w' ltac:(by constructor))). pose proof (Hle k w ltac:(by constructor)) as Hw.
    unfold mult in *. cbn [List.filter total foldr snd fst]. fold (total (fun x => indicator (ord_eqb x r)) l).
    destruct (ord_eqb_spec k r) as [->|Hne].
    - assert (total (fun x => indicator (ord_eqb x r)) l = 0) as Hz.
      { fold (mult r l). rewrite mult_bt, bt_get_below by done. done. }
      destruct (Z.ltb_spec 0 w); cbn [map fst]; rewrite ?occurrences_cons, ?ord_eqb_refl, IH, Hz; cbn [indicator]; lia.
    - destruct (0 <? w); cbn [map fst]; rewrite ?occurrences_cons, IH; destruct (ord_eqb_spec k r); try done; cbn [indicator]; lia. }
  rewrite Hl; [|apply consolidated_wf|intros d w [-> _]%consolidated_elem; apply Hset]. by rewrite (consolidated_equiv out r).
Qed.
End Plan.

(** ** A plan in the host *)

Section View.
Context `{PetGraph MirNodeKind MirEdgeKind} (rounds : nat) (plan : CompiledPlan).

(** Transactions applied one after the other; the deltas they fan out. *)
Fixpoint fanout_all (h : PersistentHost) (canonical : string) (batches : list (list row_diff * Z))
  : installed (list AggregateDelta * PersistentHost) :=
  match batches with
  | [] => Ok ([], h)
  | (diffs, lsn) :: rest =>
      let? (r, h) := apply_and_fanout rounds h canonical diffs lsn in
      match r with
      | None => Ok ([], h)
      | Some (deltas, _) => let? (more, h) := fanout_all h canonical rest in Ok (deltas ++ more, h)
      end
  end.

(** The plan evaluates on the tables after every transaction, to an output with [P]. *)
Fixpoint outputs (P : collection Row -> Prop) (inputs : gmap Z (collection Row)) (batches : list (list row_diff * Z)) : Prop :=
  (exists out, install_plan plan inputs rounds = Ok out /\ P out) /\
  match batches with [] => True | b :: rest => outputs P (accumulate inputs b.1) rest end.
(** Commit LSNs increase and stay below the last one. *)
Fixpoint ordered (time : Z) (batches : list (list row_diff * Z)) : Prop :=
  match batches with [] => True | b :: rest => time <= b.2 < U64_MAX /\ ordered (b.2 + 1) rest end.

Fixpoint time_after (time : Z) (batches : list (list row_diff * Z)) : Z :=
  match batches with [] => time | b :: rest => time_after (b.2 + 1) rest end.

(** The tables after the transactions. *)
Definition tables_after (inputs : gmap Z (collection Row)) (batches : list (list row_diff * Z)) : gmap Z (collection Row) :=
  accumulate inputs (concat (map fst batches)).

Lemma outputs_head P inputs batches : outputs P inputs batches -> exists out, install_plan plan inputs rounds = Ok out /\ P out.
Proof. by destruct batches; intros []. Qed.
Lemma outputs_app P inputs a b : outputs P inputs (a ++ b) -> outputs P inputs a /\ outputs P (tables_after inputs a) b.
Proof.
  revert inputs. induction a as [|x a IH]; intros inputs; simpl.
  { intros Ho. split; [|done]. split; [by eapply outputs_head | done]. }
  intros [Hh Ho]. destruct (IH _ Ho) as [H1 H2]. split; [done|]. unfold tables_after, accumulate in *. simpl. by rewrite fold_left_app.
Qed.

Lemma ordered_app time a b : ordered time (a ++ b) -> ordered time a /\ ordered (time_after time a) b.
Proof. revert time. induction a as [|x a IH]; intros time; simpl; [done|]. intros [Ht Ho]. by destruct (IH _ Ho). Qed.

(** The worker has seen [inputs], and the view holds the output row by row. *)
Record current (inputs : gmap Z (collection Row)) (time : Z) (out : collection Row) (s : PlanState) : Prop := {
  cu_worker : ps_dataflow s = {| id_plan := plan; id_worker := Some {| w_inputs := inputs; w_time := time; w_emitted := out |} |};
  cu_out : install_plan plan inputs rounds = Ok out;
  cu_view : forall r, occurrences r (ps_last_output s) = mult r out
}.

Lemma change_mult r (out out' : collection Row) : mult r (consolidated (out' ++ coll_negate out)) = mult r out' - mult r out.
Proof. rewrite (consolidated_equiv _ r), mult_app. unfold mult. rewrite total_negate. lia. Qed.

(** One transaction. *)
Lemma apply_current h canonical s inputs time out diffs lsn out' :
  h !! canonical = Some s -> current inputs time out s -> time <= lsn < U64_MAX ->
  install_plan plan (accumulate inputs diffs) rounds = Ok out' -> bag out' ->
  exists s', let deltas := deltas_at lsn (consolidated (out' ++ coll_negate out)) in
    apply_and_fanout rounds h canonical diffs lsn = Ok (Some (deltas, ps_subscribers s), <[canonical := s']> h) /\
    current (accumulate inputs diffs) (lsn + 1) out' s' /\ ps_subscribers s' = ps_subscribers s /\ ps_last_lsn s' = lsn /\
    ps_last_output s' = apply_deltas_to_cache (ps_last_output s) deltas.
Proof.
  intros Hs [Hw Ho Hv] Ht Ho' Hb. unfold apply_and_fanout. rewrite Hs, Hw. unfold apply, command. cbn [id_worker id_plan].
  rewrite (worker_apply_ok rounds plan _ diffs lsn out') by (cbn; first [done | lia]). cbn [exec_bind w_inputs w_emitted].
  eexists. split; [reflexivity|]. split; [|done]. split; cbn [ps_dataflow ps_last_output]; [done..|].
  intros r. rewrite apply_deltas_occurrences by apply consolidated_wf. rewrite change_mult, Hv. specialize (Hb r). lia.
Qed.

(** Any number of them. *)
Lemma fanout_current batches : forall h canonical s inputs time out,
  h !! canonical = Some s -> current inputs time out s -> outputs bag inputs batches -> ordered time batches ->
  exists deltas h' s' out', fanout_all h canonical batches = Ok (deltas, h') /\ h' !! canonical = Some s' /\
    current (tables_after inputs batches) (time_after time batches) out' s' /\ ps_subscribers s' = ps_subscribers s /\
    ps_last_output s' = apply_deltas_to_cache (ps_last_output s) deltas.
Proof.
  induction batches as [|[diffs lsn] batches IH]; intros h canonical s inputs time out Hs Hc Ho Ht.
  { by exists [], h, s, out. }
  destruct Ho as [_ Ho]. destruct Ht as [Ht Hr]. cbn [fst snd] in *. destruct (outputs_head _ _ _ Ho) as (out1 & Ho1 & Hb).
  destruct (apply_current h canonical s inputs time out diffs lsn out1 Hs Hc Ht Ho1 Hb) as (s1 & Ha & Hc1 & Hsub & _ & Hv).
  cbn [fanout_all]. rewrite Ha. cbn [exec_bind].
  match goal with |- context [fanout_all ?h1 canonical batches] =>
    destruct (IH h1 canonical s1 _ _ _ (lookup_insert_eq _ _ _) Hc1 Ho Hr) as (deltas & h' & s' & out' & Hf & Hs' & Hc' & Hsub' & Hv')
  end.
  rewrite Hf. cbn [exec_bind]. do 4 eexists. split; [reflexivity|]. split; [exact Hs'|].
  unfold tables_after, accumulate in *. cbn [map concat fst]. rewrite fold_left_app. split; [exact Hc'|].
  split; [congruence|]. rewrite Hv', Hv. unfold apply_deltas_to_cache. by rewrite fold_left_app.
Qed.

(** A plan that is registered and seeded. *)
Lemma register_current h canonical seed out lsn sub :
  h !! canonical = None -> install_plan plan (snapshot_collections plan seed) rounds = Ok out ->
  bag out -> (forall r, mult r out <= 1) ->
  exists s, register_or_seed rounds h canonical plan seed lsn sub = Ok (captured out, <[canonical := s]> h) /\
    current (snapshot_collections plan seed) 1 out s /\ ps_subscribers s = [sub] /\ ps_last_output s = captured out /\ ps_last_lsn s = lsn.
Proof.
  intros Hn Ho Hb Hset. unfold register_or_seed, register_attach. rewrite Hn. unfold Host.seed, command, spawn. cbn [id_worker id_plan].
  rewrite (worker_seed_ok rounds plan seed out) by done. cbn [exec_bind]. unfold register_insert, register_attach. rewrite Hn.
  eexists. split; [reflexivity|]. split; [|done]. split; cbn; [done..|]. intros r.
  rewrite captured_occurrences by done. specialize (Hb r). lia.
Qed.

End View.
