(* ===== verification/Service.v ===== *)
(** * Service: the synchronisation service
    ([crates/palimpsest-server/src/grpc.rs], [wal_runtime.rs], [named.rs])

    A connection's handlers over the router and the host of compiled plans: the
    admission of a subscribe, its blocking part, unsubscribe, ack, the teardown of
    a connection, and the pump that drives a shared plan. The SQL front end, the
    registry of named queries and the WAL runtime are parameters. A handler runs on
    the state behind the locks it takes; the blocking part of a subscribe is also
    given in the pieces that other tasks can interleave with. Metrics and log lines
    are left out. *)

From stdpp Require Import gmap.
From S2P Require Import SqlLimits Prepared.
From S2P Require Import Prelude BTree Text Values UserContext Watermarks Shared Registry Protocol WalSource.
From S2P Require Import Channel Cursor Pairing Permissions Literals Floats Datums Exprs Like Eval Mir.
From S2P Require Import Consolidation Operators Relational CompileMir Install Rewriter Router ProtoWire Transport Client Host Security.

(** ** The WAL runtime *)

Record WalRuntime := {
  fetch_snapshot : text -> exec string SnapshotBatch;
  query_schema : text -> exec string SchemaDefinition;
  table_schema : text -> option (Z * ScalarSchema)
}.

(** [EmptyWalRuntime]; its cursor yields nothing. *)
Definition EmptyWalRuntime (snapshot_lsn : Z) : WalRuntime :=
  {| fetch_snapshot _ := Ok {| sb_snapshot_lsn := snapshot_lsn; sb_rows := [] |};
     query_schema _ := Ok {| schema_id := 0; schema_columns := [{| cs_name := "id"; cs_datum_type := T_I64; cs_nullable := false |}];
                             primary_key_columns := [0%nat] |};
     table_schema _ := None |}.

(** ** Schemas of compiled plans *)

Definition column_type_to_datum_type (ty : ColumnType) : DatumType :=
  match ty with
  | CT_Bool => T_Bool | CT_Int => T_I64 | CT_Float => T_F64 | CT_Text => T_Text | CT_Timestamp => T_Timestamp
  | CT_TimestampTz => T_TimestampTz | CT_Date => T_Date | CT_Time => T_Time | CT_Interval => T_Interval
  | CT_Numeric => T_Numeric | CT_Bytea => T_Bytea | CT_Uuid => T_Uuid | CT_Jsonb => T_Jsonb | CT_Enum => T_Text
  | CT_Array => T_Array T_Text | CT_Unknown => T_Text
  end.

Definition schema_of_columns (id : Z) (columns : list (text * ColumnType)) : SchemaDefinition :=
  {| schema_id := id;
     schema_columns := map (fun c => {| cs_name := text_string c.1; cs_datum_type := column_type_to_datum_type c.2; cs_nullable := true |}) columns;
     primary_key_columns := [0%nat] |}.

(** ** Named queries ([named.rs]) *)

Section Named.
Context {Registry : Type}.

Record NamedQueries := { nq_registry : option Registry; nq_inline_sql_enabled : bool }.

Definition NamedQueries_default : NamedQueries := {| nq_registry := None; nq_inline_sql_enabled := true |}.
Definition NamedQueries_new (registry : Registry) : NamedQueries := {| nq_registry := Some registry; nq_inline_sql_enabled := false |}.
Definition with_inline_sql (n : NamedQueries) (enabled : bool) : NamedQueries :=
  {| nq_registry := nq_registry n; nq_inline_sql_enabled := enabled |}.
Definition replace_registry (n : NamedQueries) (registry : Registry) : NamedQueries :=
  {| nq_registry := Some registry; nq_inline_sql_enabled := nq_inline_sql_enabled n |}.
End Named.
Arguments NamedQueries : clear implicits.

(** [param_value_from_proto], with the reason a value is refused for. *)
Fixpoint param_value_from_proto (v : VarValue) : string + ParamValue :=
  match v with
  | VV_Unset => inl "empty value"
  | VV_Bytes _ => inl "bytes values are not supported as parameters"
  | VV_Bool b => inr (PV_Bool b)
  | VV_Int z => inr (PV_Int z)
  | VV_Float bits => inr (PV_Float bits)
  | VV_String s => inr (PV_Text s)
  | VV_Null _ => inr PV_Null
  | VV_List l =>
      match (fix elements (l : list VarValue) : string + list ParamValue :=
        match l with
        | [] => inr []
        | x :: rest =>
            match param_value_from_proto x with
            | inl reason => inl reason
            | inr (PV_List _) => inl "nested lists are not supported"
            | inr scalar => match elements rest with inl reason => inl reason | inr scalars => inr (scalar :: scalars) end
            end
        end) l with
      | inl reason => inl reason
      | inr scalars => inr (PV_List scalars)
      end
  end.

(** The loop over the parameters; the order of a [HashMap] is not specified, and
    only decides which of several bad parameters is named. *)
Fixpoint convert_params (vars : list (string * VarValue)) (params : gmap string ParamValue) : (string * string) + gmap string ParamValue :=
  match vars with
  | [] => inr params
  | (key, value) :: rest =>
      match param_value_from_proto value with
      | inl reason => inl ("invalid_params", "parameter '" +:+ key +:+ "': " +:+ reason)
      | inr value => convert_params rest (<[key := value]> params)
      end
  end.

(** ** Requests and replies *)

Record ProtoSubscribe := {
  ps_client_subscription_id : string; ps_sql : string; ps_query_name : string; ps_vars : gmap string VarValue; ps_resume_lsn : option Z
}.
Inductive ClientKind :=
| CK_Subscribe (r : ProtoSubscribe)
| CK_Update
| CK_Unsubscribe (subscription_id : string)
| CK_Ack (subscription_id : string) (lsn : Z).

Definition error_reply (subscription_id code message : string) : ServerKind :=
  SM_Error {| em_subscription_id := subscription_id; em_code := code; em_message := message |}.

(** [check_limiter]'s answer. *)
Definition limit_error (d : LimitDecision) : option (string * string) :=
  match d with
  | Allowed => None
  | ConnectionSaturated => Some ("connection_saturated", "this connection has reached its subscription cap")
  | SubscribeRateExceeded => Some ("rate_limited", "subscribe rate limit exceeded for this connection")
  | ReconnectRateExceeded => Some ("rate_limited", "rate limit exceeded")
  end.

Section Service.
Context `{Rendering} `{EvalRuntime} `{PetGraph MirNodeKind MirEdgeKind} `{Mpsc DiffEvent}.
Context (config : RouterConfig) (rounds : nat) (acyclic : MirGraph -> bool) (wal : WalRuntime).

Definition schema_definition_from_plan (plan : CompiledPlan) : SchemaDefinition := schema_of_columns 0 (sc_columns (cp_output_schema plan)).

(** The router's snapshot evaluation: a panic inside the dataflow is a panic of the
    caller, and so is, here, a recursion that does not settle. *)
Definition router_snapshot_run (plan : CompiledPlan) (inputs : gmap Z (list Row)) : exec RouterError (list Row) :=
  match snapshot_run rounds plan inputs with Ok rows => Ok rows | Err _ | Panic => Panic end.

(** ** Shared state of the server *)

Record Server := {
  sv_router : RouterInner;
  sv_next_subscription : Z;
  sv_next_schema : Z;
  sv_host : PersistentHost
}.

Definition with_router (s : Server) (r : RouterInner) : Server :=
  {| sv_router := r; sv_next_subscription := sv_next_subscription s; sv_next_schema := sv_next_schema s; sv_host := sv_host s |}.
Definition with_host (s : Server) (h : PersistentHost) : Server :=
  {| sv_router := sv_router s; sv_next_subscription := sv_next_subscription s; sv_next_schema := sv_next_schema s; sv_host := h |}.

(** ** The blocking part of a subscribe *)

Inductive SubscribeBlockingError := SchemaLookup (detail : string) | RouterFailed (e : RouterError).

Record SubscribeOutcome := {
  so_response : SubscribeResponse;
  so_schema : SchemaDefinition;
  so_compiled_plan_for_host : option CompiledPlan;
  so_host_canonical : option string
}.

(** [.ok()]: an error becomes [None], a panic goes on. *)
Definition result_ok {E F A} (m : exec E A) : exec F (option A) :=
  match m with Ok a => Ok (Some a) | Err _ => Ok None | Panic => Panic end.

(** The plan: the graph rewritten with the current rules, or as it is when the
    rewrite fails, compiled if the compiler can. *)
Definition compile_for (rules : list CompiledRule) (graph : MirGraph) (user_ctx : UserContext)
  : exec SubscribeBlockingError (option CompiledPlan) :=
  let? rewritten := result_ok (rewrite graph rules user_ctx) in
  let compile_input := match rewritten with Some outcome => ro_graph outcome | None => graph end in
  result_ok (compile_mir acyclic (table_schema wal) compile_input).

Definition schema_for (plan : option CompiledPlan) (query : text) : exec SubscribeBlockingError SchemaDefinition :=
  match plan, query_schema wal query with
  | _, Panic => Panic
  | Some plan, _ => Ok (schema_definition_from_plan plan)
  | None, Ok schema => Ok schema
  | None, Err err => Err (SchemaLookup err)
  end.
Definition with_schema_id (schema : SchemaDefinition) (id : Z) : SchemaDefinition :=
  {| schema_id := id; schema_columns := schema_columns schema; primary_key_columns := primary_key_columns schema |}.

(** Only plans with an input are hosted. *)
Definition host_key (plan : option CompiledPlan) (query : text) (user_ctx : UserContext) : option string :=
  match plan with
  | Some plan => match cp_inputs plan with [] => None | _ :: _ => Some (text_string (canonical_subgraph_key query user_ctx)) end
  | None => None
  end.

Definition attach_cached (h : PersistentHost) (key : option string) (subscriber : Z) : option (list Row * Z) * PersistentHost :=
  match key with Some key => cached_view h key subscriber | None => (None, h) end.

(** Whether the failure is taken to have happened after [cached_view]. *)
Definition response_attached_via_cache (err : RouterError) : bool := match err with ChannelSaturated => true | _ => false end.

(** The rows of the seed, by table. *)
Definition group_seed (seed : list WalUpdate) : gmap Z (list Row) :=
  fold_left (fun m u => if 0 <? wu_diff u then <[wu_table u := default [] (m !! wu_table u) ++ [wu_row u]]> m else m) seed ∅.

(** What is left after the router has answered. *)
Definition after_subscribe (s : Server) (plan : option CompiledPlan) (key : option string) (schema : SchemaDefinition) (subscriber : Z)
    (answer : exec RouterError SubscribeResponse) : exec SubscribeBlockingError SubscribeOutcome * Server :=
  match answer with
  | Panic => (Panic, s)
  | Err err =>
      let s' := match key with
                | Some key => if response_attached_via_cache err then with_host s (host_release (sv_host s) key subscriber).2 else s
                | None => s
                end in
      (Err (RouterFailed err), s')
  | Ok response =>
      let outcome := {| so_response := response; so_schema := schema; so_compiled_plan_for_host := plan; so_host_canonical := key |} in
      match plan, key, rs_seed_updates response with
      | Some plan, Some key, _ :: _ =>
          match register_or_seed rounds (sv_host s) key plan (group_seed (rs_seed_updates response)) (rs_snapshot_lsn response) subscriber with
          | Ok (_, h) => (Ok outcome, with_host s h)
          | Err _ | Panic => (Panic, s)
          end
      | _, _, _ => (Ok outcome, s)
      end
  end.

Definition blocking_subscribe (s : Server) (connection : Z) (client_id : string) (query : text) (graph : MirGraph)
    (user_ctx : UserContext) (resume_lsn : option Z) : exec SubscribeBlockingError SubscribeOutcome * Server :=
  let compiled := let? plan := compile_for (permission_rules (sv_router s)) graph user_ctx in
                  let? schema := schema_for plan query in Ok (plan, schema) in
  match compiled with
  | Err e => (Err e, s)
  | Panic => (Panic, s)
  | Ok (plan, schema) =>
      let '(schema_id, next_schema) := allocate (sv_next_schema s) in
      let schema := with_schema_id schema schema_id in
      let '(subscription_id, next_subscription) := allocate (sv_next_subscription s) in
      let key := host_key plan query user_ctx in
      let '(prerun_initial, h) := attach_cached (sv_host s) key subscription_id in
      let '(answer, router) :=
        subscribe router_snapshot_run config (sv_router s)
          {| rq_connection := connection; rq_subscription_id := subscription_id; rq_client_id := client_id; rq_query := query;
             rq_query_graph := graph; rq_user_ctx := user_ctx; rq_schema := schema; rq_resume_lsn := resume_lsn;
             rq_compiled_plan := plan; rq_prerun_initial := prerun_initial |} (fetch_snapshot wal) in
      after_subscribe {| sv_router := router; sv_next_subscription := next_subscription; sv_next_schema := next_schema; sv_host := h |}
        plan key schema subscription_id answer
  end.

(** ** A connection *)

Record Connection := {
  cn_id : Z;
  cn_user_ctx : UserContext;
  cn_limiter : ConnectionLimiter;
  cn_by_client_id : gmap string Z;
  cn_host_canonicals : gmap Z string;
  cn_sent : list ServerKind
}.

Definition connection_open (id : Z) (user_ctx : UserContext) (security : SecurityLimits) (now : Z) : Connection :=
  {| cn_id := id; cn_user_ctx := user_ctx; cn_limiter := limiter_new_at security now; cn_by_client_id := ∅; cn_host_canonicals := ∅;
     cn_sent := [] |}.
Definition with_limiter (c : Connection) (l : ConnectionLimiter) : Connection :=
  {| cn_id := cn_id c; cn_user_ctx := cn_user_ctx c; cn_limiter := l; cn_by_client_id := cn_by_client_id c;
     cn_host_canonicals := cn_host_canonicals c; cn_sent := cn_sent c |}.
Definition with_subscriptions (c : Connection) (by_client : gmap string Z) (canonicals : gmap Z string) : Connection :=
  {| cn_id := cn_id c; cn_user_ctx := cn_user_ctx c; cn_limiter := cn_limiter c; cn_by_client_id := by_client;
     cn_host_canonicals := canonicals; cn_sent := cn_sent c |}.
Definition send (c : Connection) (m : ServerKind) : Connection :=
  {| cn_id := cn_id c; cn_user_ctx := cn_user_ctx c; cn_limiter := cn_limiter c; cn_by_client_id := cn_by_client_id c;
     cn_host_canonicals := cn_host_canonicals c; cn_sent := cn_sent c ++ [m] |}.

(** Dropping an [AdmitGuard] that was not committed. *)
Definition drop_guard (c : Connection) : Connection := with_limiter c (limiter_release (cn_limiter c)).

(** ** Subscribe *)

Context {BoundQuery Registry : Type} (bound_sql : BoundQuery -> text) (bound_graph : BoundQuery -> MirGraph).
Context (bind : Registry -> string -> gmap string ParamValue -> BindError + BoundQuery) (parse_and_lower : string -> SqlError + MirGraph).
Context (display_router_error : RouterError -> string).

(** [bind_named], its errors ready for the wire. *)
Definition bind_named (named : NamedQueries Registry) (name : string) (vars : gmap string VarValue) : (string * string) + BoundQuery :=
  match nq_registry named with
  | None => inl ("unknown_query", "unknown query '" +:+ name +:+ "': no named queries are registered")
  | Some registry =>
      match convert_params (map_to_list vars) ∅ with
      | inl e => inl e
      | inr params =>
          match bind registry name params with
          | inr bound => inr bound
          | inl (UnknownQuery _ as err) => inl ("unknown_query", text_string (bind_error_text err))
          | inl err => inl ("invalid_params", text_string (bind_error_text err))
          end
      end
  end.

(** The SQL text and the graph a request stands for, or the error to send. *)
Definition resolve_request (named : NamedQueries Registry) (r : ProtoSubscribe) : (string * string) + (text * MirGraph) :=
  if bool_decide (ps_query_name r = "") then
    if negb (nq_inline_sql_enabled named) then
      inl ("inline_sql_disabled", "this server only accepts registered named queries; subscribe with query_name")
    else
      match parse_and_lower (ps_sql r) with
      | inr graph => inr (lit (ps_sql r), graph)
      | inl (QueryTooLarge _ _) => inl ("query_too_large", "SQL input exceeds the configured byte limit")
      | inl (QueryTooComplex _ _) => inl ("query_too_complex", "lowered MIR exceeds the configured node-count limit")
      | inl (QueryTooDeep _ _) => inl ("query_too_deep", "SQL nesting exceeds the configured depth limit")
      | inl (UnsupportedFunction _ as err) => inl ("unsupported_function", text_string (sql_error_text err))
      | inl err => inl ("invalid_sql", text_string (sql_error_text err))
      end
  else if bool_decide (ps_sql r <> "") then inl ("invalid_request", "set either sql or query_name, not both")
  else
    match bind_named named (ps_query_name r) (ps_vars r) with
    | inr bound => inr (bound_sql bound, bound_graph bound)
    | inl e => inl e
    end.

(** The error of a failed blocking part; [None] is its panic. *)
Definition blocking_error (e : option SubscribeBlockingError) : string * string :=
  match e with
  | None => ("subscribe_failed", "internal error")
  | Some (SchemaLookup detail) => ("schema_lookup_failed", detail)
  | Some (RouterFailed DuplicateClientSubscriptionId) => ("duplicate_subscription_id", "client_subscription_id already in use on this connection")
  | Some (RouterFailed (Permission _ as err)) => ("permission_denied", display_router_error err)
  | Some (RouterFailed (PermissionUnenforceable _ as err)) => ("permission_unenforceable", display_router_error err)
  | Some (RouterFailed err) => ("subscribe_failed", display_router_error err)
  end.

(** A refused subscribe: the error is sent and the slot goes back. *)
Definition refuse (c : Connection) (client_id : string) (e : string * string) : Connection :=
  drop_guard (send c (error_reply client_id e.1 e.2)).

(** A successful one: the guard is committed, the subscription recorded and accepted. *)
Definition accept (c : Connection) (client_id : string) (outcome : SubscribeOutcome) : Connection :=
  let id := rs_subscription_id (so_response outcome) in
  send (with_subscriptions c (<[client_id := id]> (cn_by_client_id c))
          (match so_host_canonical outcome with
           | Some canonical => <[id := canonical]> (cn_host_canonicals c)
           | None => cn_host_canonicals c
           end))
    (SM_Accepted {| ac_subscription_id := client_id; ac_schema_id := rs_schema_id (so_response outcome);
                    ac_snapshot_lsn := rs_snapshot_lsn (so_response outcome); ac_schema := Some (schema_to_proto (so_schema outcome)) |}).

(** Admission, in the connection's loop. [true]: the handler is spawned. *)
Definition admission (c : Connection) (client_id : string) (now : Z) : bool * Connection :=
  let '(d, l) := admit_subscribe_at (cn_limiter c) now in
  let c := with_limiter c l in
  match limit_error d with
  | Some (code, detail) => (false, send c (error_reply client_id code detail))
  | None => (true, c)
  end.

(** [handle_subscribe], up to the spawning of the pump and the forwarder. *)
Definition handle_subscribe (s : Server) (c : Connection) (named : NamedQueries Registry) (r : ProtoSubscribe)
  : option SubscribeOutcome * Server * Connection :=
  let client_id := ps_client_subscription_id r in
  match resolve_request named r with
  | inl e => (None, s, refuse c client_id e)
  | inr (sql_text, graph) =>
      match blocking_subscribe s (cn_id c) client_id sql_text graph (cn_user_ctx c) (ps_resume_lsn r) with
      | (Ok outcome, s) => (Some outcome, s, accept c client_id outcome)
      | (Err e, s) => (None, s, refuse c client_id (blocking_error (Some e)))
      | (Panic, s) => (None, s, refuse c client_id (blocking_error None))
      end
  end.

(** ** Unsubscribe, ack, disconnect *)

Definition handle_unsubscribe (s : Server) (c : Connection) (subscription_id : string) : Server * Connection :=
  match cn_by_client_id c !! subscription_id with
  | None => (s, send c (error_reply subscription_id "unknown_subscription" "no subscription with that id"))
  | Some server_id =>
      let host_canonical := cn_host_canonicals c !! server_id in
      let c := with_subscriptions c (delete subscription_id (cn_by_client_id c)) (delete server_id (cn_host_canonicals c)) in
      match unsubscribe (sv_router s) server_id with
      | (Ok _, router) =>
          let s := with_router s router in
          let s := match host_canonical with Some canonical => with_host s (host_release (sv_host s) canonical server_id).2 | None => s end in
          (s, drop_guard c)
      | (Err err, router) =>
          (with_router s router, send c (error_reply subscription_id "unsubscribe_failed" (display_router_error err)))
      | (Panic, router) => (with_router s router, c)
      end
  end.

Definition handle_ack (s : Server) (c : Connection) (subscription_id : string) (lsn : Z) : Server * Connection :=
  match cn_by_client_id c !! subscription_id with
  | None => (s, send c (error_reply subscription_id "unknown_subscription" "no subscription with that id"))
  | Some server_id =>
      match ack (sv_router s) server_id lsn with
      | (Ok _, router) => (with_router s router, c)
      | (Err err, router) => (with_router s router, send c (error_reply subscription_id "ack_failed" (display_router_error err)))
      | (Panic, router) => (with_router s router, c)
      end
  end.

Definition handle_update (c : Connection) : Connection := send c (error_reply "" "unimplemented" "Update is not yet implemented").

(** The end of the connection's loop. *)
Definition teardown (s : Server) (c : Connection) : Server :=
  let h := fold_left (fun h p => (host_release h p.2 p.1).2) (map_to_list (cn_host_canonicals c)) (sv_host s) in
  with_router (with_host s h) (disconnect (sv_router s) (cn_id c)).2.

(** ** The pump of a shared plan *)

Definition default_table (plan : CompiledPlan) : option Z := match cp_inputs plan with [table] => Some table | _ => None end.

(** A diff no table can be found for is dropped. *)
Definition attributed (plan : CompiledPlan) (diffs : list RawDiff) : list (Z * Row * Z) :=
  filter_map (fun d => (fun table => (table, rd_row d, rd_diff d)) <$> match rd_table d with Some t => Some t | None => default_table plan end) diffs.

(** [i64::from(d.diff as i32)] keeps the low 32 bits. *)
Definition query_delta (transaction : QueryTransactionDelta) (deltas : list AggregateDelta) : QueryTransactionDelta :=
  {| qd_transaction_id := qd_transaction_id transaction; qd_begin_lsn := qd_begin_lsn transaction;
     qd_commit_lsn := qd_commit_lsn transaction; qd_end_lsn := qd_end_lsn transaction;
     qd_diffs := map (fun d => {| rd_table := None; rd_row := ad_row d; rd_lsn := ad_lsn d; rd_diff := sint 32 (ad_diff d) |}) deltas |}.

(** One transaction of the cursor. [None]: the plan is gone and the pump exits. *)
Definition pump_one (s : Server) (canonical : string) (plan : CompiledPlan) (primary_key : list nat) (transaction : QueryTransactionDelta)
  : installed (option Server) :=
  let? (answer, h) := apply_and_fanout rounds (sv_host s) canonical (attributed plan (qd_diffs transaction)) (qd_commit_lsn transaction) in
  match answer with
  | None => Ok None
  | Some ([], _) => Ok (Some (with_host s h))
  | Some (deltas, subscribers) =>
      match @pair_transaction_into_event RouterError (query_delta transaction deltas) primary_key with
      | Ok event => Ok (Some (with_router (with_host s h) (fold_left (fun st sub => (pump_event st sub event).2) subscribers (sv_router s))))
      | Err _ | Panic => Panic
      end
  end.

(** The transactions a tick finds; it does nothing once the plan is released. *)
Fixpoint pump_drain (s : Server) (canonical : string) (plan : CompiledPlan) (primary_key : list nat) (transactions : list QueryTransactionDelta)
  : installed (option Server) :=
  match transactions with
  | [] => Ok (Some s)
  | transaction :: rest =>
      let? next := pump_one s canonical plan primary_key transaction in
      match next with None => Ok None | Some s => pump_drain s canonical plan primary_key rest end
  end.
Definition pump_tick (s : Server) (canonical : string) (plan : CompiledPlan) (primary_key : list nat) (transactions : list QueryTransactionDelta)
  : installed (option Server) :=
  match host_subscribers (sv_host s) canonical with
  | None => Ok None
  | Some _ => pump_drain s canonical plan primary_key transactions
  end.
End Service.
