(* ===== verification/ServiceFacts.v ===== *)
(** * ServiceFacts: from a committed transaction to the client's cache

    A cold subscribe registers the compiled plan with the host and queues the
    snapshot; the pump then pushes each transaction through the plan and queues the
    paired change for every subscriber. Composed with the client ([EndToEnd]), the
    cache of the subscriber is the result of the compiled query on the tables as
    they are now. *)

From stdpp Require Import gmap.
From S2P Require Import Prelude BTree Text Values UserContext Watermarks Shared Registry Protocol WalSource.
From S2P Require Import Channel Cursor Pairing Permissions Literals Floats Datums Exprs Like Eval Mir.
From S2P Require Import Consolidation Operators Relational RelationalFacts CompileMir Install Rewriter Router RouterInv RouterSpec.
From S2P Require Import ProtoWire Transport Client EndToEnd Host Security Service.

(** ** The rows of a snapshot *)

Lemma group_seed_lookup seed t : forall m,
  default [] (fold_left (fun m u => if 0 <? wu_diff u then <[wu_table u := default [] (m !! wu_table u) ++ [wu_row u]]> m else m) seed m !! t)
  = default [] ((m : gmap Z (list Row)) !! t) ++ map wu_row (List.filter (fun u => (0 <? wu_diff u) && bool_decide (wu_table u = t)) seed).
Proof.
  induction seed as [|u seed IH]; intros m; simpl; [by rewrite app_nil_r|]. rewrite IH. destruct (0 <? wu_diff u); simpl; [|done].
  case_bool_decide as E; [rewrite E, lookup_insert_eq; simpl; by rewrite <- app_assoc | by rewrite lookup_insert_ne].
Qed.

Lemma seed_rows batch t :
  map wu_row (List.filter (fun u => (0 <? wu_diff u) && bool_decide (wu_table u = t)) (snapshot_to_seed_updates batch))
  = concat (map st_rows (List.filter (fun r => bool_decide (st_table r = t)) (sb_rows batch))).
Proof.
  unfold snapshot_to_seed_updates. induction (sb_rows batch) as [|r rows IH]; simpl; [done|].
  rewrite List.filter_app, map_app, IH. destruct (bool_decide (st_table r = t)) eqn:E; simpl.
  - f_equal. clear IH. induction (st_rows r) as [|row l IH]; simpl; [done|]. by rewrite E; simpl; rewrite IH.
  - assert (forall l, List.filter (fun u => (0 <? wu_diff u) && bool_decide (wu_table u = t))
      (map (fun row => {| wu_table := st_table r; wu_row := row; wu_time := sb_snapshot_lsn batch; wu_diff := 1 |}) l) = []) as ->; [|done].
    induction l as [|row l IHl]; simpl; [done|]. by rewrite E.
Qed.

Lemma snapshot_inputs_lookup rows t : NoDup (map st_table rows) -> forall m,
  default [] ((fold_left (fun m r => <[st_table r := st_rows r]> m) rows m : gmap Z (list Row)) !! t)
  = if bool_decide (t ∈ map st_table rows) then concat (map st_rows (List.filter (fun r => bool_decide (st_table r = t)) rows))
    else default [] (m !! t).
Proof.
  induction rows as [|r rows IH]; intros Hnd m; [done|]. cbn [map] in Hnd. apply NoDup_cons in Hnd as [Hni Hnd]. cbn [fold_left map List.filter].
  rewrite (IH Hnd). destruct (decide (st_table r = t)) as [E|E].
  - rewrite (bool_decide_eq_true_2 _ E), bool_decide_eq_false_2 by (by rewrite <- E). rewrite bool_decide_eq_true_2 by (rewrite E; by constructor).
    rewrite E, lookup_insert_eq. simpl.
    assert (List.filter (fun r => bool_decide (st_table r = t)) rows = []) as ->; [|by rewrite app_nil_r].
    rewrite E in Hni. clear -Hni. induction rows as [|x rows IH]; simpl in *; [done|]. apply not_elem_of_cons in Hni as [Hne Hni].
    rewrite bool_decide_eq_false_2 by congruence. by apply IH.
  - rewrite (bool_decide_eq_false_2 _ E), lookup_insert_ne by done. repeat case_bool_decide; try done; set_solver.
Qed.

Lemma seed_is_snapshot batch t :
  NoDup (map st_table (sb_rows batch)) ->
  default [] (group_seed (snapshot_to_seed_updates batch) !! t) = default [] (snapshot_inputs batch !! t).
Proof.
  intros Hnd. unfold group_seed, snapshot_inputs. rewrite group_seed_lookup, seed_rows, lookup_empty. simpl.
  rewrite snapshot_inputs_lookup by done. case_bool_decide as E; [done|]. rewrite lookup_empty. simpl.
  clear Hnd. induction (sb_rows batch) as [|r rows IH]; simpl in *; [done|]. apply not_elem_of_cons in E as [Hne E].
  rewrite bool_decide_eq_false_2 by congruence. by apply IH.
Qed.

(** ** Results as collections *)

(** The output of a query that is a set of rows, each keyed. *)
Definition is_result (s : SchemaDefinition) (R : list Row) (out : collection Row) : Prop :=
  consolidated out = plus_ones R /\ result_set s R.

Lemma result_NoDup s R : result_set s R -> NoDup R.
Proof. intros [Hk _]. by eapply NoDup_fmap_1. Qed.

Lemma plus_ones_elem r w R : (r, w) ∈ plus_ones R <-> w = 1 /\ r ∈ R.
Proof.
  unfold plus_ones. rewrite list_elem_of_fmap. split; [by intros (x & [= -> ->] & Hx)|]. intros [-> Hr]. by exists r.
Qed.

Lemma result_mult s R out r : is_result s R out -> mult r out = indicator (bool_decide (r ∈ R)).
Proof.
  intros [E _]. pose proof (consolidated_elem r (mult r out) out) as H. rewrite E, plus_ones_elem in H.
  case_bool_decide as Hr; simpl.
  - destruct (Z.eq_dec (mult r out) 0) as [Hz|]; [|by apply H]. pose proof (consolidated_elem r 1 out) as H1.
    rewrite E, plus_ones_elem in H1. destruct H1 as [H1 _]. specialize (H1 (conj eq_refl Hr)). lia.
  - destruct (Z.eq_dec (mult r out) 0); [done|]. destruct Hr. by apply H.
Qed.

Lemma result_bag s R out : is_result s R out -> bag out /\ forall r, mult r out <= 1.
Proof. intros Hr. split; intros r; rewrite (result_mult s R out r Hr); case_bool_decide; simpl; lia. Qed.

Lemma result_captured s R out : is_result s R out -> captured out = R.
Proof.
  intros [E _]. unfold captured. rewrite E. clear E. unfold plus_ones. induction R as [|r R IH]; simpl; [done|]. by rewrite IH.
Qed.

(** ** One transaction through the plan *)

Lemma sint_one w : w = 1 \/ w = -1 -> sint 32 w = w.
Proof. by intros [-> | ->]. Qed.

(** The rows a change brings and takes, and those it keeps. *)
Section Change.
Context (s : SchemaDefinition) (R R' : list Row) (out out' : collection Row).
Hypothesis Hout : is_result s R out.
Hypothesis Hout' : is_result s R' out'.
Context (transaction : QueryTransactionDelta) (lsn : Z).

Definition change : list AggregateDelta := deltas_at lsn (consolidated (out' ++ coll_negate out)).

Lemma change_elem r w :
  (r, w) ∈ consolidated (out' ++ coll_negate out) <-> (w = 1 /\ r ∈ R' /\ r ∉ R) \/ (w = -1 /\ r ∈ R /\ r ∉ R').
Proof.
  rewrite consolidated_elem. pose proof (change_mult r out out') as E. rewrite (consolidated_equiv _ r) in E. rewrite E.
  rewrite (result_mult s R out r Hout), (result_mult s R' out' r Hout'). repeat case_bool_decide; simpl; naive_solver lia.
Qed.

Lemma delta_rows (keep : RawDiff -> bool) (P : Z -> bool) :
  (forall w, w = 1 \/ w = -1 -> forall r l, keep {| rd_table := None; rd_row := r; rd_lsn := l; rd_diff := w |} = P w) ->
  map rd_row (List.filter keep (qd_diffs (query_delta transaction change)))
  = map fst (List.filter (fun p => P p.2) (consolidated (out' ++ coll_negate out))).
Proof.
  intros Hkeep. unfold query_delta, change, deltas_at. cbn [qd_diffs]. rewrite map_map. cbn [ad_row ad_lsn ad_diff].
  assert (forall r w, (r, w) ∈ consolidated (out' ++ coll_negate out) -> w = 1 \/ w = -1) as Hw.
  { intros r w [(-> & _)|(-> & _)]%change_elem; auto. }
  induction (consolidated (out' ++ coll_negate out)) as [|[r w] l IH]; simpl; [done|].
  assert (w = 1 \/ w = -1) as H1 by (apply (Hw r); by constructor).
  rewrite sint_one, (Hkeep w H1 r lsn) by done. specialize (IH (fun r w Hin => Hw r w ltac:(by constructor))).
  destruct (P w); simpl; by rewrite IH.
Qed.

Lemma part_perm (P : Z -> bool) (l : list Row) :
  NoDup l -> (forall r, r ∈ l <-> exists w, P w = true /\ (r, w) ∈ consolidated (out' ++ coll_negate out)) ->
  map fst (List.filter (fun p => P p.2) (consolidated (out' ++ coll_negate out))) ≡ₚ l.
Proof.
  intros Hnd Hl. apply NoDup_Permutation; [|done|].
  - clear Hl. pose proof (consolidated_wf (out' ++ coll_negate out)) as Hwf. induction (consolidated (out' ++ coll_negate out)) as [|[r w] m IH]; simpl; [constructor|].
    apply bt_wf_cons in Hwf as [Hr Hwf]. destruct (P w); simpl; [|by apply IH]. constructor; [|by apply IH].
    intros (p & E & Hp)%list_elem_of_fmap. apply list_elem_of_In, filter_In in Hp as [Hp _]. apply list_elem_of_In in Hp.
    rewrite Forall_forall in Hr. specialize (Hr p Hp). rewrite <- E, cmp_refl in Hr. done.
  - intros r. rewrite Hl, list_elem_of_fmap. split.
    + intros ([r' w] & -> & Hp). apply list_elem_of_In, filter_In in Hp as [Hp Hw]. apply list_elem_of_In in Hp. by exists w.
    + intros (w & Hw & Hp). exists (r, w). split; [done|]. apply list_elem_of_In, filter_In. split; [by apply list_elem_of_In | done].
Qed.

Lemma change_transition : transition s (query_delta transaction change) R R'.
Proof.
  destruct Hout as [_ HR], Hout' as [_ HR']. pose proof (result_NoDup s R HR) as Hn. pose proof (result_NoDup s R' HR') as Hn'.
  exists (filter (fun r => r ∈ R') R). unfold deleted, inserted.
  rewrite (delta_rows (fun d => negb (0 <? rd_diff d)) (fun w => negb (0 <? w))) by done. rewrite (delta_rows (fun d => 0 <? rd_diff d) (fun w => 0 <? w)) by done.
  rewrite (part_perm (fun w => negb (0 <? w)) (filter (fun r => r ∉ R') R)); [|by apply NoDup_filter|].
  2: { intros r. rewrite list_elem_of_filter. setoid_rewrite change_elem. split; [intros [? ?]; exists (-1); split; [done|]; by right|].
       intros (w & Hw & [(-> & _)|(-> & ? & ?)]); [done|auto]. }
  rewrite (part_perm (fun w => 0 <? w) (filter (fun r => r ∉ R) R')); [|by apply NoDup_filter|].
  2: { intros r. rewrite list_elem_of_filter. setoid_rewrite change_elem. split; [intros [? ?]; exists 1; split; [done|]; by left|].
       intros (w & Hw & [(-> & ? & ?)|(-> & _)]); [auto|done]. }
  split; [|split; [|done]].
  - rewrite Permutation_app_comm. apply NoDup_Permutation; [done| |].
    + apply NoDup_app. split; [by apply NoDup_filter|]. split; [|by apply NoDup_filter]. intros r. rewrite !list_elem_of_filter. naive_solver.
    + intros r. rewrite elem_of_app, !list_elem_of_filter. destruct (decide (r ∈ R')); naive_solver.
  - apply NoDup_Permutation; [done| |].
    + apply NoDup_app. split; [by apply NoDup_filter|]. split; [|by apply NoDup_filter]. intros r. rewrite !list_elem_of_filter. naive_solver.
    + intros r. rewrite elem_of_app, !list_elem_of_filter. destruct (decide (r ∈ R)); naive_solver.
Qed.

(** Without a change the result is the same. *)
Lemma no_change : change = [] -> R ≡ₚ R'.
Proof.
  intros E. destruct Hout as [_ HR], Hout' as [_ HR']. apply NoDup_Permutation; [by eapply result_NoDup..|].
  assert (consolidated (out' ++ coll_negate out) = []) as Ec by (unfold change, deltas_at in E; by apply map_eq_nil in E).
  intros r. pose proof (change_elem r 1) as H1. pose proof (change_elem r (-1)) as H2. rewrite Ec in H1, H2.
  destruct (decide (r ∈ R)), (decide (r ∈ R')); try done.
  - destruct H2 as [_ H2]. by destruct (not_elem_of_nil (r, -1)); apply H2; auto.
  - destruct H1 as [_ H1]. by destruct (not_elem_of_nil (r, 1)); apply H1; auto.
Qed.
End Change.

(** ** Histories up to the order of rows *)

Lemma view_perm s R R' : NoDup (map (wire_key s) R) -> R ≡ₚ R' -> view s R = view s R'.
Proof.
  intros Hnd HP. unfold view. apply list_to_map_proper; [by rewrite <- list_fmap_compose|]. by rewrite HP.
Qed.
Lemma result_set_perm s R R' : R ≡ₚ R' -> result_set s R -> result_set s R'.
Proof. intros HP [Hk Hr]. split; by rewrite <- HP. Qed.

Lemma history_perm s R R1 ds R2 : R ≡ₚ R1 -> result_set s R -> history s R1 ds R2 -> exists R2', R2' ≡ₚ R2 /\ history s R ds R2'.
Proof.
  intros HP HR Hh. destruct Hh as [R1|R1 d Rm ds R2 (kept & H1 & H2 & H3) Hh]; [by exists R; repeat constructor|].
  exists R2. split; [done|]. econstructor; [|exact Hh]. exists kept. by rewrite HP.
Qed.

(** ** The pump *)

Section Pump.
Context `{Rendering} `{EvalRuntime} `{PetGraph MirNodeKind MirEdgeKind} `{Mpsc DiffEvent}.
Context (rounds : nat) (plan : CompiledPlan).

(** The event reaches an attached subscriber once, and only its queue matters. *)
Lemma fanout_queue subs id event : forall st c,
  NoDup subs -> id ∈ subs -> channels st !! id = Some c -> mpsc_closed (sender c) = false -> 1 <= room c ->
  exists c', channels (fold_left (fun st sub => (pump_event st sub event).2) subs st) !! id = Some c' /\
    mpsc_closed (sender c') = false /\ queued c' = queued c ++ [event] /\ room c' = room c - 1.
Proof.
  assert (forall subs st, id ∉ subs -> channels (fold_left (fun st sub => (pump_event st sub event).2) subs st) !! id = channels st !! id) as Hframe.
  { clear subs. induction subs as [|sub subs IH]; intros st Hni; [done|]. apply not_elem_of_cons in Hni as [Hne Hni]. cbn [fold_left].
    rewrite IH by done. destruct (pump_event_frame [] st sub event) as (_ & _ & _ & Hf). by apply Hf. }
  induction subs as [|sub subs IH]; intros st c Hnd Hin Hc Hcl Hroom; [by apply elem_of_nil in Hin|].
  apply NoDup_cons in Hnd as [Hni Hnd]. cbn [fold_left]. apply elem_of_cons in Hin as [<-|Hin].
  - destruct (pump_event_sent st id c event Hc Hcl Hroom) as (st' & c' & Hp & Hc' & ? & ? & ?). rewrite Hp, Hframe by done. by exists c'.
  - apply IH; try done. destruct (pump_event_frame [] st sub event) as (_ & _ & _ & Hf).
    destruct (Hf id) as [Hid _]; [by intros -> | by rewrite <- Hc].
Qed.

(** A transaction as the pump feeds it to the plan. *)
Definition batch_of (transaction : QueryTransactionDelta) : list row_diff * Z :=
  (attributed plan (qd_diffs transaction), qd_commit_lsn transaction).

Lemma pair_total delta pk : exists e, @pair_transaction_into_event RouterError delta pk = Ok e.
Proof.
  unfold pair_transaction_into_event. destruct (@pair_changes_total RouterError (qd_diffs delta) pk) as [cs ->]. simpl. eauto.
Qed.

(** The pump drives the plan along the transactions, and the queue along the result. *)
Lemma pump_tracks sch id canonical transactions : forall sv ps inputs time low out R c,
  sv_host sv !! canonical = Some ps -> current rounds plan inputs time out ps -> is_result sch R out ->
  NoDup (ps_subscribers ps) -> id ∈ ps_subscribers ps ->
  channels (sv_router sv) !! id = Some c -> mpsc_closed (sender c) = false -> Z.of_nat (length transactions) <= room c ->
  outputs rounds plan (fun out => exists R, is_result sch R out) inputs (map batch_of transactions) ->
  time <= low -> ordered low (map batch_of transactions) ->
  exists sv' qs events R1 R' out',
    pump_drain rounds sv canonical plan (primary_key_columns sch) transactions = Ok (Some sv') /\
    queue_of (sv_router sv') id = Some (queued c ++ events) /\ router_events sch qs = Ok events /\
    history sch R qs R1 /\ increasing (low - 1) qs /\ R1 ≡ₚ R' /\
    install_plan plan (tables_after inputs (map batch_of transactions)) rounds = Ok out' /\ is_result sch R' out'.
Proof.
  induction transactions as [|tx txs IH]; intros sv ps inputs time low out R c Hps Hcur HR Hnd Hin Hc Hcl Hroom Ho Hlow Ht.
  { exists sv, [], [], R, R, out. split; [done|]. split; [unfold queue_of; rewrite Hc; simpl; by rewrite app_nil_r|].
    split; [done|]. split; [constructor|]. split; [done|]. split; [done|]. split; [exact (cu_out _ _ _ _ _ _ Hcur) | done]. }
  destruct Ho as [_ Ho]. destruct Ht as [Ht Hr]. cbn [fst snd batch_of] in Ho, Ht, Hr.
  destruct (outputs_head _ _ _ _ _ Ho) as (out1 & Ho1 & R1 & HR1). cbn [length] in Hroom.
  destruct (apply_current rounds plan (sv_host sv) canonical ps inputs time out (attributed plan (qd_diffs tx)) (qd_commit_lsn tx) out1 Hps Hcur ltac:(lia) Ho1
    (proj1 (result_bag _ _ _ HR1))) as (ps1 & Ha & Hcur1 & Hsub & _ & _).
  cbn [pump_drain map]. unfold pump_one. rewrite Ha. cbn [exec_bind]. fold (change out out1 (qd_commit_lsn tx)).
  assert (tables_after inputs (batch_of tx :: map batch_of txs) = tables_after (accumulate inputs (attributed plan (qd_diffs tx))) (map batch_of txs)) as Etab.
  { unfold tables_after, accumulate. cbn [map concat fst batch_of]. by rewrite fold_left_app. }
  rewrite Etab. destruct (change out out1 (qd_commit_lsn tx)) as [|d ds] eqn:Ech.
  - edestruct (IH (with_host sv (<[canonical := ps1]> (sv_host sv))) ps1 _ _ (qd_commit_lsn tx + 1) _ R1 c (lookup_insert_eq _ _ _) Hcur1 HR1)
      as (sv' & qs & events & R2 & R' & out' & Hp & Hq & He & Hh & Hi & HP & Hout & HR'); try done; [by rewrite Hsub..| |].
    { cbn [sv_router with_host]. lia. }
    destruct (history_perm sch R R1 qs R2) as (R2' & HP' & Hh'); [by eapply no_change | apply HR | done|].
    exists sv', qs, events, R2', R', out'. split; [exact Hp|]. split; [done|]. split; [done|]. split; [done|].
    split; [|split; [by rewrite HP' | done]]. destruct qs as [|q qs]; [done|]. destruct Hi as [Hi1 Hi2]. split; [lia | done].
  - rewrite <- Ech. destruct (pair_total (query_delta tx (change out out1 (qd_commit_lsn tx))) (primary_key_columns sch)) as [e He].
    rewrite He. cbn [exec_bind].
    destruct (fanout_queue (ps_subscribers ps) id e (sv_router sv) c Hnd Hin Hc Hcl ltac:(lia)) as (c1 & Hc1 & Hcl1 & Hq1 & Hr1).
    match goal with |- context [pump_drain _ ?sv1 _ _ _ txs] =>
      edestruct (IH sv1 ps1 _ _ (qd_commit_lsn tx + 1) _ R1 c1 (lookup_insert_eq _ _ _) Hcur1 HR1)
        as (sv' & qs & events & R2 & R' & out' & Hp & Hq & Hes & Hh & Hi & HP & Hout & HR')
    end; try done; [by rewrite Hsub.. | lia |].
    exists sv', (query_delta tx (change out out1 (qd_commit_lsn tx)) :: qs), (e :: events), R2, R', out'.
    split; [exact Hp|]. split; [rewrite Hq, Hq1, <- app_assoc; done|].
    split; [unfold router_events in *; cbn [exec_mapM]; rewrite He, Hes; done|].
    split; [econstructor; [by apply change_transition | done]|]. split; [|done]. split; [cbn; lia|]. cbn. by replace (qd_commit_lsn tx) with (qd_commit_lsn tx + 1 - 1) by lia.
Qed.
End Pump.

(** ** A cold subscribe *)

Section Subscribe.
Context `{Rendering} `{EvalRuntime} `{PetGraph MirNodeKind MirEdgeKind} `{Mpsc DiffEvent} `{Bincode}.
Context (config : RouterConfig) (rounds : nat) (acyclic : MirGraph -> bool) (wal : WalRuntime).

(** What the router queues for a fresh subscriber. *)
Lemma subscribe_opens_channel st req resp st' :
  subscribe (router_snapshot_run rounds) config st req (fetch_snapshot wal) = (Ok resp, st') -> rq_resume_lsn req = None ->
  exists rows c, initial_snapshot (router_snapshot_run rounds) req (fetch_snapshot wal) = Ok (rs_snapshot_lsn resp, rows, rs_seed_updates resp) /\
    rs_subscription_id resp = rq_subscription_id req /\ rs_schema_id resp = schema_id (rq_schema req) /\
    channels st' !! rq_subscription_id req = Some c /\ mpsc_closed (sender c) = false /\
    queued c = [Ev_Initial (rs_snapshot_lsn resp) rows] /\ room c = channel_capacity config - 1.
Proof.
  unfold subscribe. destruct (prepare _ _ _ _ _) as [p|e|] eqn:Hp; [|done..]. intros Hcm Hnone.
  pose proof Hcm as (He & Hid & Hlsn & _ & Hseed)%commit_entry.
  apply prepare_inv in Hp as (lsn & rows & c & _ & _ & Hsnap & Hc & Hres & _ & Hsub & Hch).
  apply channel_new_ok in Hc as (_ & Hq & Hcap & Hcl & Hn). rewrite Hres, Hnone in Hch. cbn [resolve] in Hch.
  pose proof (try_send_cases (take_stream c).2 (Ev_Initial lsn rows)) as Hcs. rewrite Hch in Hcs.
  destruct Hcs as [(? & _)|[(? & _)|(_ & _ & _ & Hq' & _ & Hcap' & Hcl')]]; [done..|].
  exists rows, (pp_channel p). rewrite Hid, Hsub in He. cbn [sub_id] in He. unfold entry in He.
  assert (rs_schema_id resp = schema_id (rq_schema req)) as Hsch.
  { unfold commit in Hcm. destruct (registry_insert _ _); [|done]. destruct (acquire _ _) as [[a g]|]; [|done].
    injection Hcm as <- _. cbn. by rewrite Hsub. }
  rewrite Hlsn, Hid, Hseed, Hsub. cbn. split; [done|]. split; [done|]. split; [done|]. split; [by injection He as _ ->|].
  split; [done|]. unfold queued in *. simpl in *. rewrite Hq in Hq'. split; [done|].
  unfold room, queued. rewrite Hcap', Hq', Hcap. done.
Qed.

Lemma seed_collections plan batch :
  NoDup (map st_table (sb_rows batch)) ->
  snapshot_collections plan (group_seed (snapshot_to_seed_updates batch)) = snapshot_collections plan (snapshot_inputs batch).
Proof. intros Hnd. unfold snapshot_collections. f_equal. apply map_ext. intros t. by rewrite seed_is_snapshot. Qed.

(** A cold subscribe that succeeds has hosted the plan and queued its result. *)
Lemma cold_subscribe sv connection client_id query graph user_ctx outcome sv' plan key batch R0 out0 :
  blocking_subscribe config rounds acyclic wal sv connection client_id query graph user_ctx None = (Ok outcome, sv') ->
  compile_for acyclic wal (permission_rules (sv_router sv)) graph user_ctx = Ok (Some plan) ->
  host_key (Some plan) query user_ctx = Some key -> sv_host sv !! key = None ->
  fetch_snapshot wal query = Ok batch -> NoDup (map st_table (sb_rows batch)) -> snapshot_to_seed_updates batch <> [] ->
  install_plan plan (snapshot_collections plan (snapshot_inputs batch)) rounds = Ok out0 -> is_result (so_schema outcome) R0 out0 ->
  exists ps c, let id := rs_subscription_id (so_response outcome) in
    sv_host sv' !! key = Some ps /\ current rounds plan (snapshot_collections plan (snapshot_inputs batch)) 1 out0 ps /\
    ps_subscribers ps = [id] /\ channels (sv_router sv') !! id = Some c /\ mpsc_closed (sender c) = false /\
    queued c = [Ev_Initial (sb_snapshot_lsn batch) R0] /\ room c = channel_capacity config - 1 /\
    rs_snapshot_lsn (so_response outcome) = sb_snapshot_lsn batch.
Proof.
  unfold blocking_subscribe. cbv zeta. intros Hb Hcomp Hkey Hnone Hfetch Hnd Hseed Ho HR.
  rewrite Hcomp in Hb. cbn [exec_bind] in Hb. destruct (schema_for wal (Some plan) query) as [schema|e|]; [|done..]. cbn [exec_bind] in Hb. unfold allocate in Hb. rewrite Hkey in Hb.
  cbn [attach_cached] in Hb. unfold cached_view in Hb. rewrite Hnone in Hb.
  destruct (subscribe _ _ _ _ _) as [answer router] eqn:Hs. destruct answer as [resp|e|]; [|cbn in Hb; by destruct (response_attached_via_cache e)|done].
  pose proof Hs as (rows & c & Hinit & Hid & _ & Hc & Hcl & Hq & Hroom)%subscribe_opens_channel; [|done].
  unfold initial_snapshot, snapshot_seed in Hinit. cbn [rq_prerun_initial rq_query rq_compiled_plan] in Hinit.
  rewrite Hfetch in Hinit. cbn [exec_map_err exec_bind] in Hinit. unfold router_snapshot_run in Hinit.
  rewrite (snapshot_run_ok rounds plan _ out0 Ho) in Hinit. cbn [exec_bind] in Hinit. injection Hinit as Hlsn Hrows Hsd.
  unfold after_subscribe in Hb. rewrite <- Hsd in Hb. destruct (snapshot_to_seed_updates batch) as [|u us] eqn:Eu; [done|]. rewrite <- Eu in Hb.
  cbn [sv_host] in Hb. destruct (register_current rounds plan (sv_host sv) key (group_seed (snapshot_to_seed_updates batch)) out0 (rs_snapshot_lsn resp)
    (sv_next_subscription sv) Hnone) as (ps & Hreg & Hcur & Hsub & _); [by rewrite seed_collections|..].
  { destruct (register_or_seed _ _ _ _ _ _ _) as [[? ?]| |]; [|done..]. injection Hb as <- _. cbn in HR. apply (result_bag _ _ _ HR). }
  { destruct (register_or_seed _ _ _ _ _ _ _) as [[? ?]| |]; [|done..]. injection Hb as <- _. cbn in HR. apply (result_bag _ _ _ HR). }
  rewrite Hreg in Hb. injection Hb as <- <-. rewrite seed_collections in Hcur by done. exists ps, c. cbn in *.
  rewrite Hid. split; [exact (lookup_insert_eq (sv_host sv : gmap string PlanState) key ps)|]. split; [done|]. split; [done|]. split; [done|]. split; [done|].
  split; [|done]. by rewrite Hq, <- Hlsn, <- Hrows, (result_captured _ _ _ HR).
Qed.

Lemma ordered_earlier time time' batches : time' <= time -> ordered time batches -> ordered time' batches.
Proof. destruct batches; simpl; [done|]. intros Hle [Ht Ho]. split; [lia | done]. Qed.
Lemma increasing_earlier lsn lsn' deltas : lsn' <= lsn -> increasing lsn deltas -> increasing lsn' deltas.
Proof. destruct deltas; simpl; [done|]. intros Hle [Ht Ho]. split; [lia | done]. Qed.

(** From the database to the client's cache: a client subscribes to a query that compiles, no
    plan is hosted for it yet and the snapshot has a row; the pump then drains transactions in
    commit order, after each of which the query yields a set of keyed rows, and the subscriber's
    queue has room. Then the pump neither fails nor exits, and a client that receives the acceptance
    and what was queued holds exactly the rows the compiled query, with its permission filters,
    yields on the snapshot plus the transactions, under their primary keys. *)
Theorem subscription_tracks_query sv connection client_id query graph user_ctx outcome sv' plan key batch transactions t ss c0 :
  blocking_subscribe config rounds acyclic wal sv connection client_id query graph user_ctx None = (Ok outcome, sv') ->
  compile_for acyclic wal (permission_rules (sv_router sv)) graph user_ctx = Ok (Some plan) ->
  host_key (Some plan) query user_ctx = Some key -> sv_host sv !! key = None ->
  fetch_snapshot wal query = Ok batch -> NoDup (map st_table (sb_rows batch)) -> snapshot_to_seed_updates batch <> [] ->
  0 <= sb_snapshot_lsn batch -> Z.of_nat (length transactions) < channel_capacity config ->
  key_schema (so_schema outcome) ->
  outputs rounds plan (fun out => exists R, is_result (so_schema outcome) R out) (snapshot_collections plan (snapshot_inputs batch))
    (map (batch_of plan) transactions) ->
  ordered (sb_snapshot_lsn batch + 1) (map (batch_of plan) transactions) ->
  ct_state t !! client_id = Some ss -> ss_cache ss = Some c0 -> ss_last_seen_lsn ss = 0 ->
  exists sv'' queue out R ss' c',
    pump_drain rounds sv' key plan (primary_key_columns (so_schema outcome)) transactions = Ok (Some sv'') /\
    queue_of (sv_router sv'') (rs_subscription_id (so_response outcome)) = Some queue /\
    install_plan plan (tables_after (snapshot_collections plan (snapshot_inputs batch)) (map (batch_of plan) transactions)) rounds = Ok out /\
    is_result (so_schema outcome) R out /\
    ct_state (receive t (acceptance (so_schema outcome) client_id (rs_snapshot_lsn (so_response outcome))
                         :: forward client_id (schema_id (so_schema outcome)) queue)) !! client_id = Some ss' /\
    ss_cache ss' = Some c' /\ lc_rows c' = view (so_schema outcome) R.
Proof.
  intros Hb Hcomp Hkey Hnone Hfetch Hnd Hseed Hlsn Hroom Hks Ho Ht Hs Hc Hl.
  destruct (outputs_head _ _ _ _ _ Ho) as (out0 & Ho0 & R0 & HR0).
  destruct (cold_subscribe _ _ _ _ _ _ _ _ _ _ _ R0 out0 Hb Hcomp Hkey Hnone Hfetch Hnd Hseed Ho0 HR0)
    as (ps & c & Hps & Hcur & Hsub & Hch & Hcl & Hq & Hr & Elsn).
  destruct (pump_tracks rounds plan (so_schema outcome) (rs_subscription_id (so_response outcome)) key transactions sv' ps
    (snapshot_collections plan (snapshot_inputs batch)) 1 (sb_snapshot_lsn batch + 1) out0 R0 c Hps) as (sv'' & qs & events & R1 & R' & out' & Hp & Hqueue & He & Hh & Hi & HP & Hout & HR'); try done; [rewrite Hsub; constructor; [set_solver | constructor] | rewrite Hsub; by constructor | lia.. |].
  replace (sb_snapshot_lsn batch + 1 - 1) with (sb_snapshot_lsn batch) in Hi by lia.
  pose proof (snapshot_received (so_schema outcome) client_id (sb_snapshot_lsn batch) R0 t ss c0 Hks (proj2 HR0) Hs Hc Hl) as Hrec.
  destruct (history_received (so_schema outcome) client_id R0 qs R1 _ _ Hh Hks (proj2 HR0) Hrec Hi) as (es & lsn' & Hes & _ & ss' & c' & Hs' & _ & Hc' & _ & Hv).
  rewrite He in Hes. injection Hes as <-. exists sv'', (queued c ++ events), out', R', ss', c'. rewrite Hq, Elsn.
  split; [done|]. split; [by rewrite <- Hq|]. split; [done|]. split; [done|]. split; [|split; [done|]].
  - rewrite <- Hs'. unfold receive, forward. by rewrite filter_map_app, app_comm_cons, fold_left_app.
  - rewrite Hv. apply view_perm; [|done]. apply (result_set_perm _ R' R1); [done | apply HR'].
Qed.
End Subscribe.
