(* ===== verification/Connections.v ===== *)
(** * Connections: the bookkeeping of one connection

    The loop of a connection and the subscribe tasks it spawns run concurrently,
    over a router that other connections use too. A session is the server, the
    connection, the tasks that were admitted and have not registered yet, and those
    that have registered with the router but not yet recorded it in the connection.
    Every slot of the limiter belongs to a task or to a recorded subscription. *)

From stdpp Require Import gmap relations.
From S2P Require Import SqlLimits Prepared.
From S2P Require Import Prelude BTree Text Values UserContext Watermarks Shared Registry Protocol WalSource.
From S2P Require Import Channel Cursor Pairing Permissions Literals Floats Datums Exprs Like Eval Mir.
From S2P Require Import Consolidation Operators Relational CompileMir Install Rewriter Router RouterInv RouterSpec.
From S2P Require Import ProtoWire Transport Client Host Security Service.

Lemma admit_active l now :
  0 <= active l <= max_subscriptions_per_connection (limits l) ->
  let '(d, l') := admit_subscribe_at l now in
  limits l' = limits l /\ active l' = active l + (if allowed d then 1 else 0) /\ active l' <= max_subscriptions_per_connection (limits l).
Proof.
  intros Ha. unfold admit_subscribe_at. destruct (Z.leb_spec (max_subscriptions_per_connection (limits l)) (active l)); cbn [limits active allowed]; [split; [done | lia]|].
  destruct (try_consume _ _ _) as [[|] b]; cbn [negb limits active allowed]; (split; [done | lia]).
Qed.

Section Connections.
Context `{Rendering} `{EvalRuntime} `{PetGraph MirNodeKind MirEdgeKind} `{Mpsc DiffEvent}.
Context (config : RouterConfig) (rounds : nat) (acyclic : MirGraph -> bool) (wal : WalRuntime).
Context {BoundQuery Registry : Type} (bound_sql : BoundQuery -> text) (bound_graph : BoundQuery -> MirGraph).
Context (bind : Registry -> string -> gmap string ParamValue -> BindError + BoundQuery) (parse_and_lower : string -> SqlError + MirGraph).
Context (display_router_error : RouterError -> string) (named : NamedQueries Registry).

(** ** The router under a subscribe and an unsubscribe *)

Record server_wf (sv : Server) : Prop := {
  vw_router : inner_wf config (sv_router sv);
  vw_next : 1 <= sv_next_subscription sv <= U64_MAX;
  vw_live : forall id, is_Some (by_id (registry (sv_router sv)) !! id) -> id < sv_next_subscription sv
}.

(** Ids and reference counts are not exhausted. *)
Definition ids_left (sv : Server) : Prop :=
  sv_next_subscription sv < U64_MAX /\ next_id (subgraphs (sv_router sv)) < U64_MAX /\
  Z.of_nat (size (by_id (registry (sv_router sv)))) < USIZE_MAX.

(** The id a client's label stands for. *)
Definition resolves (sv : Server) (key : Z * string) : option Z := by_client_id (registry (sv_router sv)) !! key.

Lemma subscribe_registry run st req provider r st' :
  @subscribe _ _ _ CompiledPlan run config st req provider = (r, st') ->
  inner_wf config st -> by_id (registry st) !! rq_subscription_id req = None ->
  next_id (subgraphs st) < U64_MAX -> Z.of_nat (size (by_id (registry st))) < USIZE_MAX ->
  let key := (rq_connection req, rq_client_id req) in
  inner_wf config st' /\
  (forall id, is_Some (by_id (registry st') !! id) -> id = rq_subscription_id req \/ is_Some (by_id (registry st) !! id)) /\
  match r with
  | Ok resp => rs_subscription_id resp = rq_subscription_id req /\ by_client_id (registry st) !! key = None /\
      by_client_id (registry st') = <[key := rq_subscription_id req]> (by_client_id (registry st))
  | Err _ | Panic => st' = st
  end.
Proof.
  unfold subscribe. destruct (prepare _ _ _ _ _) as [p|e|] eqn:Hp; [|by intros [= <- <-] ?; auto..].
  intros Hc Hwf Hfresh Hn Hz. cbv zeta. pose proof Hp as [Hpw Hid]%prepare_wf.
  apply prepare_inv in Hp as (lsn & rows & c & _ & _ & _ & _ & _ & _ & Hsub & _).
  pose proof (commit_wf config st p Hwf Hpw ltac:(by rewrite Hid) Hn Hz) as [Hwf' _].
  pose proof (commit_by_id st p) as Hby. rewrite Hc in Hwf', Hby. cbn [snd] in *. split; [done|]. split.
  { intros id Hs. destruct (decide (id = rq_subscription_id req)); [by left|]. right. rewrite <- Hby; [done | congruence]. }
  unfold commit, registry_insert in Hc. destruct (by_client_id (registry st) !! client_key (pp_subscription p)) eqn:Hk; [by injection Hc as <- <-|].
  destruct (acquire _ _) as [[a g]|]; [|by injection Hc as <- <-]. injection Hc as <- <-. cbn.
  rewrite Hsub in Hk |- *. cbn in *. done.
Qed.

Lemma blocking_registry sv connection client_id query graph user_ctx resume r sv' :
  blocking_subscribe config rounds acyclic wal sv connection client_id query graph user_ctx resume = (r, sv') ->
  server_wf sv -> ids_left sv ->
  let key := (connection, client_id) in
  server_wf sv' /\ (forall k, k <> key -> resolves sv' k = resolves sv k) /\
  match r with
  | Ok o => resolves sv key = None /\ resolves sv' key = Some (rs_subscription_id (so_response o))
  | Err _ | Panic => forall id, resolves sv key = Some id -> resolves sv' key = Some id
  end.
Proof.
  unfold blocking_subscribe. cbv zeta. intros Hb Hwf (Hn & Hg & Hz).
  destruct (exec_bind _ _) as [[plan schema]|e|]; [|by injection Hb as <- <-; auto..].
  unfold allocate in Hb. destruct (attach_cached _ _ _) as [prerun h].
  destruct (subscribe _ _ _ _ _) as [answer router] eqn:Hs.
  assert (by_id (registry (sv_router sv)) !! sv_next_subscription sv = None) as Hfresh.
  { apply eq_None_not_Some. intros Hl%(vw_live sv Hwf). lia. }
  apply subscribe_registry in Hs as (Hin & Hlive & Hr); [|apply (vw_router sv Hwf)|done..]. cbn in Hlive, Hr.
  pose proof (vw_next sv Hwf) as Hnx.
  assert (uint 64 (sv_next_subscription sv + 1) = sv_next_subscription sv + 1) as Eu.
  { unfold uint. apply Z.mod_small. unfold U64_MAX in *. lia. }
  assert (forall h', server_wf {| sv_router := router; sv_next_subscription := uint 64 (sv_next_subscription sv + 1);
    sv_next_schema := uint 64 (sv_next_schema sv + 1); sv_host := h' |}) as Hwf'.
  { intros h'. split; cbn; [done | rewrite Eu; lia|]. rewrite Eu. intros id [->|Hl%(vw_live sv Hwf)]%Hlive; lia. }
  unfold after_subscribe, with_host in Hb. unfold resolves. destruct answer as [resp|e|].
  - destruct Hr as (Hid & Hnone & Hmap).
    assert (forall h', let sv1 := {| sv_router := router; sv_next_subscription := uint 64 (sv_next_subscription sv + 1);
      sv_next_schema := uint 64 (sv_next_schema sv + 1); sv_host := h' |} in
      server_wf sv1 /\ (forall k, k <> (connection, client_id) -> by_client_id (registry (sv_router sv1)) !! k = by_client_id (registry (sv_router sv)) !! k)
      /\ by_client_id (registry (sv_router sv1)) !! (connection, client_id) = Some (rs_subscription_id resp)) as Hok.
    { intros h'. cbn. rewrite Hmap, Hid, lookup_insert_eq. split; [apply Hwf'|]. split; [|done]. intros k Hk. by rewrite lookup_insert_ne. }
    destruct plan as [plan|]; [|injection Hb as <- <-; destruct (Hok h) as (? & ? & ?); auto].
    destruct (host_key _ _ _) as [key|]; [|injection Hb as <- <-; destruct (Hok h) as (? & ? & ?); auto].
    destruct (rs_seed_updates resp) as [|u us]; [injection Hb as <- <-; destruct (Hok h) as (? & ? & ?); auto|].
    destruct (register_or_seed _ _ _ _ _ _ _) as [[? h']|e|]; injection Hb as <- <-; [destruct (Hok h') as (? & ? & ?); auto|..];
      destruct (Hok h) as (? & ? & Hk); (split; [done|]); (split; [done|]); intros id Hid'; congruence.
  - subst router. destruct (host_key _ _ _) as [key|]; [destruct (response_attached_via_cache e)|]; injection Hb as <- <-; split; auto; apply Hwf'.
  - subst router. injection Hb as <- <-. split; auto; apply Hwf'.
Qed.

Lemma unsubscribe_registry sv connection client_id id :
  server_wf sv -> resolves sv (connection, client_id) = Some id ->
  exists rel router, unsubscribe (sv_router sv) id = (Ok rel, router) /\
    by_client_id (registry router) = delete (connection, client_id) (by_client_id (registry (sv_router sv))) /\
    forall h, server_wf (with_host (with_router sv router) h).
Proof.
  intros Hwf Hr. destruct (rw_client_inv _ (iw_registry _ _ (vw_router sv Hwf)) _ _ Hr) as (s & Hs & Hk).
  destruct (unsubscribe_result config (sv_router sv) id s (vw_router sv Hwf) Hs) as (rel & Hrel & _).
  pose proof (unsubscribe_wf config (sv_router sv) id (vw_router sv Hwf)) as Hin. pose proof (unsubscribe_by_id (sv_router sv) id) as Hby.
  assert (by_client_id (registry (unsubscribe (sv_router sv) id).2) = delete (connection, client_id) (by_client_id (registry (sv_router sv)))) as Hc.
  { unfold unsubscribe, registry_remove. rewrite Hs, <- Hk. destruct (subgraph_holders _ !! _) as [g|]; [by destruct (release _ g) | done]. }
  destruct (unsubscribe (sv_router sv) id) as [r router]. cbn in *. subst r. exists (Some rel), router. split; [done|]. split; [done|].
  intros h. split; cbn; [done | apply (vw_next sv Hwf)|]. intros i [x Hx]. rewrite Hby in Hx. apply lookup_delete_Some in Hx as [_ Hx].
  apply (vw_live sv Hwf). eauto.
Qed.

(** ** Sessions *)

Record Session := {
  se_server : Server;
  se_connection : Connection;
  se_admitted : nat;
  se_registered : list (string * SubscribeOutcome)
}.

Definition session_open (sv : Server) (id : Z) (user_ctx : UserContext) (security : SecurityLimits) (now : Z) : Session :=
  {| se_server := sv; se_connection := connection_open id user_ctx security now; se_admitted := 0; se_registered := [] |}.

(** The server did something for others: this connection's labels are untouched. *)
Definition unaffected (connection : Z) (sv sv' : Server) : Prop :=
  forall client_id, resolves sv' (connection, client_id) = resolves sv (connection, client_id).

(** The blocking part of a task, with its three ends. *)
Definition after_blocking (sv : Server) (c : Connection) (n : nat) (l : list (string * SubscribeOutcome)) (client_id : string)
    (answer : exec SubscribeBlockingError SubscribeOutcome) : Session :=
  match answer with
  | Ok o => {| se_server := sv; se_connection := c; se_admitted := n; se_registered := l ++ [(client_id, o)] |}
  | Err e => {| se_server := sv; se_connection := refuse c client_id (blocking_error display_router_error (Some e));
                se_admitted := n; se_registered := l |}
  | Panic => {| se_server := sv; se_connection := refuse c client_id (blocking_error display_router_error None);
                se_admitted := n; se_registered := l |}
  end.

(** One action of the loop, of a task, or of the rest of the server. *)
Inductive session_step : Session -> Session -> Prop :=
| N_admit sv c n l client_id now ok c' :
    admission c client_id now = (ok, c') ->
    session_step {| se_server := sv; se_connection := c; se_admitted := n; se_registered := l |}
      {| se_server := sv; se_connection := c'; se_admitted := if ok then S n else n; se_registered := l |}
| N_refuse sv c n l r e :
    resolve_request bound_sql bound_graph bind parse_and_lower named r = inl e ->
    session_step {| se_server := sv; se_connection := c; se_admitted := S n; se_registered := l |}
      {| se_server := sv; se_connection := refuse c (ps_client_subscription_id r) e; se_admitted := n; se_registered := l |}
| N_blocking sv c n l r sql graph answer sv' :
    resolve_request bound_sql bound_graph bind parse_and_lower named r = inr (sql, graph) -> ids_left sv ->
    blocking_subscribe config rounds acyclic wal sv (cn_id c) (ps_client_subscription_id r) sql graph (cn_user_ctx c) (ps_resume_lsn r)
      = (answer, sv') ->
    session_step {| se_server := sv; se_connection := c; se_admitted := S n; se_registered := l |}
      (after_blocking sv' c n l (ps_client_subscription_id r) answer)
| N_record sv c n l1 client_id o l2 :
    session_step {| se_server := sv; se_connection := c; se_admitted := n; se_registered := l1 ++ (client_id, o) :: l2 |}
      {| se_server := sv; se_connection := accept c client_id o; se_admitted := n; se_registered := l1 ++ l2 |}
| N_unsubscribe sv c n l client_id sv' c' :
    handle_unsubscribe display_router_error sv c client_id = (sv', c') ->
    session_step {| se_server := sv; se_connection := c; se_admitted := n; se_registered := l |}
      {| se_server := sv'; se_connection := c'; se_admitted := n; se_registered := l |}
| N_ack sv c n l client_id lsn sv' c' :
    handle_ack display_router_error sv c client_id lsn = (sv', c') ->
    session_step {| se_server := sv; se_connection := c; se_admitted := n; se_registered := l |}
      {| se_server := sv'; se_connection := c'; se_admitted := n; se_registered := l |}
| N_update sv c n l :
    session_step {| se_server := sv; se_connection := c; se_admitted := n; se_registered := l |}
      {| se_server := sv; se_connection := handle_update c; se_admitted := n; se_registered := l |}
| N_other sv c n l sv' :
    server_wf sv' -> unaffected (cn_id c) sv sv' ->
    session_step {| se_server := sv; se_connection := c; se_admitted := n; se_registered := l |}
      {| se_server := sv'; se_connection := c; se_admitted := n; se_registered := l |}.

(** The slots, and what the labels stand for. *)
Record session_wf (x : Session) : Prop := {
  xw_server : server_wf (se_server x);
  xw_slots : active (cn_limiter (se_connection x))
    = Z.of_nat (se_admitted x) + Z.of_nat (length (se_registered x)) + Z.of_nat (size (cn_by_client_id (se_connection x)));
  xw_cap : active (cn_limiter (se_connection x)) <= max_subscriptions_per_connection (limits (cn_limiter (se_connection x)));
  xw_recorded : forall client_id id, cn_by_client_id (se_connection x) !! client_id = Some id ->
    resolves (se_server x) (cn_id (se_connection x), client_id) = Some id;
  xw_registered : forall client_id o, (client_id, o) ∈ se_registered x ->
    resolves (se_server x) (cn_id (se_connection x), client_id) = Some (rs_subscription_id (so_response o)) /\
    cn_by_client_id (se_connection x) !! client_id = None;
  xw_distinct : NoDup (map fst (se_registered x))
}.

Lemma ack_wf_server sv id lsn r router : server_wf sv -> ack (sv_router sv) id lsn = (r, router) ->
  server_wf (with_router sv router) /\ by_client_id (registry router) = by_client_id (registry (sv_router sv)).
Proof.
  intros Hwf E. pose proof (ack_wf config (sv_router sv) id lsn (vw_router sv Hwf)) as Hin. pose proof (ack_dom (sv_router sv) id lsn) as Hdom.
  rewrite E in Hin, Hdom. cbn in *. split.
  - split; cbn; [done | apply (vw_next sv Hwf)|]. intros i Hi. by apply (vw_live sv Hwf), Hdom.
  - unfold ack in E. destruct (registry_get _ _); [|by injection E as <- <-]. destruct (ack_ack _ _ _ _) as [o tr]. injection E as <- <-. cbn.
    by destruct o.
Qed.

Lemma refuse_wf sv c n l client_id e :
  session_wf {| se_server := sv; se_connection := c; se_admitted := S n; se_registered := l |} ->
  session_wf {| se_server := sv; se_connection := refuse c client_id e; se_admitted := n; se_registered := l |}.
Proof.
  intros [Hs Ha Hc Hr Hg Hd]. cbn in *. split; cbn; try done; lia.
Qed.

Lemma blocking_wf sv c n l r sql graph answer sv' :
  ids_left sv ->
  blocking_subscribe config rounds acyclic wal sv (cn_id c) (ps_client_subscription_id r) sql graph (cn_user_ctx c) (ps_resume_lsn r) = (answer, sv') ->
  session_wf {| se_server := sv; se_connection := c; se_admitted := S n; se_registered := l |} ->
  session_wf (after_blocking sv' c n l (ps_client_subscription_id r) answer).
Proof.
  intros Hids Hb.
  intros Hwf. destruct (blocking_registry _ _ _ _ _ _ _ _ _ Hb (xw_server _ Hwf) Hids) as (Hsv & Hother & Hkey). cbn in Hsv, Hother, Hkey.
  assert (forall client_id id, resolves sv (cn_id c, client_id) = Some id -> match answer with Ok _ => client_id <> ps_client_subscription_id r | _ => True end ->
    resolves sv' (cn_id c, client_id) = Some id) as Hkeep.
  { intros client_id id Hres Hne. destruct (decide (client_id = ps_client_subscription_id r)) as [->|Hd]; [|by rewrite Hother by congruence].
    destruct answer; [done | by apply Hkey..]. }
  destruct Hwf as [Hs Ha Hc Hr Hg Hd]. cbn in *. destruct answer as [o|e|].
  - destruct Hkey as [Hnone Hsome]. assert (cn_by_client_id c !! ps_client_subscription_id r = None) as Hfree.
    { destruct (cn_by_client_id c !! ps_client_subscription_id r) eqn:E; [|done]. apply Hr in E. congruence. }
    split; cbn; try done.
    + rewrite length_app. simpl. lia.
    + intros client_id id Hid. apply Hkeep; [by apply Hr | intros ->; congruence].
    + intros client_id o' [Hin|[= -> ->]%list_elem_of_singleton]%elem_of_app; [|done]. destruct (Hg _ _ Hin) as [Hres Hnb].
      split; [|done]. apply Hkeep; [done | intros ->; congruence].
    + rewrite map_app. apply NoDup_app. split; [done|]. split; [|apply NoDup_singleton].
      intros client_id Hin ->%list_elem_of_singleton. apply list_elem_of_fmap in Hin as ([k o'] & E & Hin). simpl in E. subst k.
      apply Hg in Hin as [Hres _]. congruence.
  - apply refuse_wf. split; cbn; try done; [intros client_id id Hid; apply Hkeep; [by apply Hr | done]|].
    intros client_id o Hin. destruct (Hg _ _ Hin). split; [by apply Hkeep | done].
  - apply refuse_wf. split; cbn; try done; [intros client_id id Hid; apply Hkeep; [by apply Hr | done]|].
    intros client_id o Hin. destruct (Hg _ _ Hin). split; [by apply Hkeep | done].
Qed.

Lemma record_wf sv c n l1 client_id o l2 :
  session_wf {| se_server := sv; se_connection := c; se_admitted := n; se_registered := l1 ++ (client_id, o) :: l2 |} ->
  session_wf {| se_server := sv; se_connection := accept c client_id o; se_admitted := n; se_registered := l1 ++ l2 |}.
Proof.
  intros [Hs Ha Hc Hr Hg Hd]. cbn in *. destruct (Hg client_id o ltac:(set_solver)) as [Hres Hnone].
  rewrite map_app in Hd. cbn in Hd. apply NoDup_app in Hd as (Hd1 & Hd12 & [Hni Hd2]%NoDup_cons). split; cbn; try done.
  - rewrite map_size_insert_None by done. rewrite length_app in Ha |- *. simpl in Ha. lia.
  - intros k id [[<- <-]|[Hne Hk]]%lookup_insert_Some; [done | by apply Hr].
  - intros k o' Hin. assert ((k, o') ∈ l1 ++ (client_id, o) :: l2) as Hin' by set_solver. destruct (Hg _ _ Hin') as [Hres' Hnone'].
    split; [done|]. rewrite lookup_insert_ne; [done|]. intros <-. apply elem_of_app in Hin as [Hin|Hin].
    + apply (Hd12 client_id); [apply list_elem_of_fmap; by exists (client_id, o') | by left].
    + apply Hni. apply list_elem_of_fmap. by exists (client_id, o').
  - rewrite map_app. apply NoDup_app. split; [done|]. split; [|done]. intros k Hk Hk2. apply (Hd12 k Hk). by right.
Qed.

Lemma unsubscribed_wf sv c n l client_id sv' c' :
  handle_unsubscribe display_router_error sv c client_id = (sv', c') ->
  session_wf {| se_server := sv; se_connection := c; se_admitted := n; se_registered := l |} ->
  session_wf {| se_server := sv'; se_connection := c'; se_admitted := n; se_registered := l |}.
Proof.
  intros Hu.
  intros Hwf. unfold handle_unsubscribe in Hu. destruct (cn_by_client_id c !! client_id) as [id|] eqn:Eid;
    [|injection Hu as <- <-; by destruct Hwf as [Hs Ha Hc Hr Hg Hd]; split].
  destruct (unsubscribe_registry sv (cn_id c) client_id id (xw_server _ Hwf) (xw_recorded _ Hwf _ _ Eid)) as (rel & router & Hun & Hmap & Hsv).
  rewrite Hun in Hu. destruct Hwf as [Hs Ha Hc Hr Hg Hd]. cbn in *.
  assert (sv_router sv' = router /\ server_wf sv') as [Erouter Hsv'].
  { destruct (cn_host_canonicals c !! id); injection Hu as <- _; (split; [done|]); [apply Hsv | exact (Hsv (sv_host sv))]. }
  injection Hu as _ <-.
  assert (forall k i, resolves sv (cn_id c, k) = Some i -> k <> client_id -> resolves sv' (cn_id c, k) = Some i) as Hkeep.
  { intros k i Hk Hne. unfold resolves in *. rewrite Erouter, Hmap, lookup_delete_ne by congruence. done. }
  split; cbn; try done.
  - rewrite map_size_delete_Some by (by eexists).
    assert (size (cn_by_client_id c) <> 0%nat) by (intros Hz; apply map_size_empty_inv in Hz; rewrite Hz in Eid; by rewrite lookup_empty in Eid). lia.
  - lia.
  - intros k i [Hne Hk]%lookup_delete_Some. apply Hkeep; [by apply Hr | done].
  - intros k o Hin. destruct (Hg _ _ Hin) as [Hres Hnb]. split; [apply Hkeep; [done | intros ->; congruence]|].
    rewrite lookup_delete_None. by right.
Qed.

Lemma session_step_wf x x' : session_step x x' -> session_wf x -> session_wf x'.
Proof.
  intros Hstep. destruct Hstep as [sv c n l client_id now ok c' Hadm|sv c n l r e He|sv c n l r sql graph answer sv' Hreq Hids Hb
    |sv c n l1 client_id o l2|sv c n l client_id sv' c' Hu|sv c n l client_id lsn sv' c' Hk|sv c n l|sv c n l sv' Hsv Hun].
  - intros [Hs Ha Hc Hr Hg Hd]. cbn in *. unfold admission in Hadm. pose proof (admit_active (cn_limiter c) now ltac:(lia)) as Hact.
    destruct (admit_subscribe_at (cn_limiter c) now) as [d lim]. destruct Hact as (Hlim & Hact & Hle).
    destruct d; cbn in Hadm; injection Hadm as <- <-; split; cbn; rewrite ?Hlim; try done; cbn in Hact; lia.
  - apply refuse_wf.
  - by eapply blocking_wf.
  - apply record_wf.
  - by eapply unsubscribed_wf.
  - intros Hwf. unfold handle_ack in Hk. destruct (cn_by_client_id c !! client_id) as [id|];
      [|injection Hk as <- <-; by destruct Hwf as [Hs Ha Hc Hr Hg Hd]; split].
    destruct (ack (sv_router sv) id lsn) as [a router] eqn:Eack. destruct (ack_wf_server sv id lsn a router (xw_server _ Hwf) Eack) as [Hsv Hmap].
    destruct Hwf as [Hs Ha Hc Hr Hg Hd]. cbn in *.
    destruct a; injection Hk as <- <-; split; cbn; try done; unfold resolves; cbn; rewrite Hmap; done.
  - intros [Hs Ha Hc Hr Hg Hd]. by split.
  - intros [Hs Ha Hc Hr Hg Hd]. cbn in *. split; cbn; try done; intros *; rewrite Hun; auto.
Qed.

(** C14: However the loop of a connection, the subscribe tasks it spawned and the rest of the server
    interleave, the slots taken from the connection's limiter are exactly the admitted tasks, the
    registered ones and the recorded subscriptions, never more than the cap; a recorded label stands
    for the id the router has for it; and unsubscribing it succeeds: nothing is reported, the label
    is gone here and in the router, and one slot is free again. *)
Theorem connection_accounts sv id user_ctx security now x :
  server_wf sv -> 0 <= max_subscriptions_per_connection security ->
  rtc session_step (session_open sv id user_ctx security now) x ->
  let c := se_connection x in
  active (cn_limiter c) = Z.of_nat (se_admitted x) + Z.of_nat (length (se_registered x)) + Z.of_nat (size (cn_by_client_id c)) /\
  active (cn_limiter c) <= max_subscriptions_per_connection (limits (cn_limiter c)) /\
  forall client_id sub, cn_by_client_id c !! client_id = Some sub ->
    resolves (se_server x) (cn_id c, client_id) = Some sub /\
    let '(sv', c') := handle_unsubscribe display_router_error (se_server x) c client_id in
    cn_sent c' = cn_sent c /\ cn_by_client_id c' = delete client_id (cn_by_client_id c) /\
    resolves sv' (cn_id c, client_id) = None /\ active (cn_limiter c') = active (cn_limiter c) - 1.
Proof.
  intros Hsv Hmax Hreach. cbv zeta.
  assert (session_wf x) as Hwf.
  { assert (session_wf (session_open sv id user_ctx security now)) as Hopen.
    { split; [done | done | done | intros ? ?; cbn; by rewrite lookup_empty | by intros ? ? ?%elem_of_nil | constructor]. }
    revert Hopen. induction Hreach as [|a b d Hab _ IH]; [done|]. intros Ha. by apply IH, (session_step_wf a). }
  split; [apply (xw_slots _ Hwf)|]. split; [apply (xw_cap _ Hwf)|]. intros client_id sub Hsub.
  pose proof (xw_recorded _ Hwf _ _ Hsub) as Hres. split; [done|]. unfold handle_unsubscribe. rewrite Hsub.
  destruct (unsubscribe_registry _ _ _ _ (xw_server _ Hwf) Hres) as (rel & router & -> & Hmap & _).
  pose proof (xw_slots _ Hwf) as Ha.
  assert (size (cn_by_client_id (se_connection x)) <> 0%nat) by (intros Hz; apply map_size_empty_inv in Hz; rewrite Hz in Hsub; by rewrite lookup_empty in Hsub).
  destruct (cn_host_canonicals _ !! _); cbn; unfold resolves; cbn; rewrite Hmap, lookup_delete_eq; repeat split; lia.
Qed.
End Connections.
