(* ===== verification/Postgres.v ===== *)
(** * Postgres: the runtime over a database
    ([crates/palimpsest-postgres/src/runtime.rs], [introspect.rs])

    The runtime mirrors the streamed tables in memory and keeps a bounded journal
    of row diffs; snapshots are read from the mirror, cursors from the journal.
    Each operation is its critical section on the mirror and the journal followed
    by the store of the clock, which the source does after it released the locks;
    the two parts are also given separately, since another thread can run between
    them. The SQL front end is a parameter, and so is the order in which a
    [HashMap] yields its entries. Sequence numbers are [u64]; they count the diffs
    pushed since the start, which stay below the width, and are unbounded here. *)

From stdpp Require Import gmap.
From S2P Require Import Catalog Permissions.
From S2P Require Import Prelude BTree Text Values UserContext Watermarks Shared Registry Protocol Channel Cursor.
From S2P Require Import Literals Floats Datums Exprs Like Eval Mir Consolidation Operators Relational CompileMir Install Router Host Service.

(** ** Introspected tables ([introspect.rs]) *)

Record IntrospectedColumn := {
  ic_name : string; ic_type_oid : Z; ic_datum_type : DatumType; ic_column_type : ColumnType; ic_nullable : bool; ic_primary_key : bool
}.
Record IntrospectedTable := {
  it_id : Z; it_namespace : string; it_name : string; it_replica_identity : Catalog.ReplicaIdentity; it_columns : list IntrospectedColumn
}.

Definition scalar_schema (t : IntrospectedTable) : ScalarSchema := from_pairs (map (fun c => (lit (ic_name c), ic_column_type c)) (it_columns t)).

Definition relation_schema (t : IntrospectedTable) : Catalog.RelationSchema :=
  {| Catalog.rel_table := it_id t; Catalog.rel_namespace := it_namespace t; Catalog.rel_name := it_name t;
     Catalog.rel_replica_identity := it_replica_identity t;
     Catalog.rel_columns := map (fun c => {| Catalog.col_name := ic_name c; Catalog.col_type_oid := ic_type_oid c;
                                             Catalog.col_datum_type := ic_datum_type c; Catalog.col_nullable := ic_nullable c;
                                             Catalog.col_key := ic_primary_key c |}) (it_columns t) |}.

Definition primary_key_positions (t : IntrospectedTable) : list nat :=
  filter_map id (imap (fun index c => if ic_primary_key c then Some index else None) (it_columns t)).

Definition qualified (t : IntrospectedTable) : string := it_namespace t +:+ "." +:+ it_name t.

(** Every table under its bare and its qualified name. *)
Definition sql_catalog (tables : list IntrospectedTable) : Permissions.SqlCatalog :=
  Permissions.catalog_new (flat_map (fun t =>
    let columns := map (fun c => {| Permissions.col_name := lit (ic_name c); Permissions.col_ty := ic_column_type c |}) (it_columns t) in
    map (fun name => {| Permissions.ts_name := lit name; Permissions.ts_columns := columns |}) [it_name t; qualified t]) tables).

Definition split_table_name (table : text) : text * text :=
  match split_once x2e table with Some (namespace, relation) => (namespace, relation) | None => (lit "public", table) end.

Definition column_type_of (t : DatumType) : ColumnType :=
  match t with
  | T_Bool => CT_Bool
  | T_I16 | T_I32 | T_I64 => CT_Int
  | T_F32 | T_F64 => CT_Float
  | T_Numeric => CT_Numeric
  | T_Text => CT_Text
  | T_Bytea => CT_Bytea
  | T_Date => CT_Date
  | T_Time => CT_Time
  | T_Timestamp => CT_Timestamp
  | T_TimestampTz => CT_TimestampTz
  | T_Interval => CT_Interval
  | T_Uuid => CT_Uuid
  | T_Json | T_Jsonb => CT_Jsonb
  | T_Array _ => CT_Array
  end.

(** The kind of an array's element type is only logged. *)
Definition map_type (type_oid : Z) (typtype typcategory : string) (base_type_oid : option Z) (base_typtype : option string)
    (elem_type_oid : option Z) : DatumType * ColumnType :=
  match stock_postgres_16_type type_oid with
  | Some datum_type => (datum_type, column_type_of datum_type)
  | None =>
      if bool_decide (typtype = "e") then (T_Text, CT_Enum)
      else if bool_decide (typtype = "d") then
        match base_type_oid with
        | Some base_oid =>
            match stock_postgres_16_type base_oid with
            | Some datum_type => (datum_type, column_type_of datum_type)
            | None => if bool_decide (base_typtype = Some "e") then (T_Text, CT_Enum) else (T_Text, CT_Text)
            end
        | None => (T_Text, CT_Text)
        end
      else if bool_decide (typcategory = "A") then
        (T_Array (default T_Text (elem_type_oid ≫= stock_postgres_16_type)), CT_Array)
      else (T_Text, CT_Text)
  end.

(** ** The journal *)

Record Journal := { j_entries : list RawDiff; j_base_seq : Z; j_truncated_through : Z; j_capacity : Z }.

Definition journal_new (capacity : Z) : Journal :=
  {| j_entries := []; j_base_seq := 0; j_truncated_through := 0; j_capacity := Z.max capacity 1 |}.

Definition journal_push (j : Journal) (diff : RawDiff) : Journal :=
  if Z.of_nat (length (j_entries j)) =? j_capacity j then
    match j_entries j with
    | dropped :: rest =>
        {| j_entries := rest ++ [diff]; j_base_seq := j_base_seq j + 1;
           j_truncated_through := Z.max (j_truncated_through j) (rd_lsn dropped); j_capacity := j_capacity j |}
    | [] => {| j_entries := [diff]; j_base_seq := j_base_seq j; j_truncated_through := j_truncated_through j; j_capacity := j_capacity j |}
    end
  else {| j_entries := j_entries j ++ [diff]; j_base_seq := j_base_seq j; j_truncated_through := j_truncated_through j;
          j_capacity := j_capacity j |}.
Definition journal_extend (j : Journal) (diffs : list RawDiff) : Journal := fold_left journal_push diffs j.

(** ** The cursor over it *)

Record JournalCursor := { jc_next_seq : Z; jc_from_lsn : Z; jc_tables : gset Z; jc_poisoned : bool }.

Definition relevant (c : JournalCursor) (entry : RawDiff) : bool :=
  (jc_from_lsn c <? rd_lsn entry) && match rd_table entry with Some table => bool_decide (table ∈ jc_tables c) | None => false end.

(** The [while let] over the entries from a sequence number on. *)
Fixpoint scan (c : JournalCursor) (entries : list RawDiff) (next_seq : Z) : option RawDiff * Z :=
  match entries with
  | [] => (None, next_seq)
  | entry :: rest => if relevant c entry then (Some entry, next_seq + 1) else scan c rest (next_seq + 1)
  end.

Definition unseen (j : Journal) (c : JournalCursor) : list RawDiff := drop (Z.to_nat (jc_next_seq c - j_base_seq j)) (j_entries j).

Definition cursor_next_diff (j : Journal) (c : JournalCursor) : option RawDiff * JournalCursor :=
  if jc_poisoned c then (None, c)
  else if jc_next_seq c <? j_base_seq j then
    (None, {| jc_next_seq := jc_next_seq c; jc_from_lsn := jc_from_lsn c; jc_tables := jc_tables c; jc_poisoned := true |})
  else
    let '(found, next_seq) := scan c (unseen j c) (jc_next_seq c) in
    (found, {| jc_next_seq := next_seq; jc_from_lsn := jc_from_lsn c; jc_tables := jc_tables c; jc_poisoned := false |}).

Definition cursor_peek_lsn (j : Journal) (c : JournalCursor) : option Z :=
  if jc_poisoned c then None
  else if jc_next_seq c <? j_base_seq j then None
  else rd_lsn <$> List.find (relevant c) (unseen j c).

Lemma scan_found c entries : forall next_seq d next_seq',
  scan c entries next_seq = (Some d, next_seq') ->
  exists skipped rest, entries = skipped ++ d :: rest /\ relevant c d = true /\ Forall (fun e => relevant c e = false) skipped /\
    next_seq' = next_seq + Z.of_nat (length skipped) + 1.
Proof.
  induction entries as [|e entries IH]; intros n d n' E; simpl in E; [done|]. destruct (relevant c e) eqn:He.
  - injection E as <- <-. exists [], entries. repeat split; [done | constructor | simpl; lia].
  - apply IH in E as (skipped & rest & -> & Hd & Hs & ->). exists (e :: skipped), rest. repeat split; [done | by constructor | simpl length; lia].
Qed.
Lemma scan_none c entries : forall next_seq next_seq',
  scan c entries next_seq = (None, next_seq') ->
  Forall (fun e => relevant c e = false) entries /\ next_seq' = next_seq + Z.of_nat (length entries).
Proof.
  induction entries as [|e entries IH]; intros n n' E; simpl in E; [injection E as <-; simpl; split; [constructor | lia]|].
  destruct (relevant c e) eqn:He; [done|]. apply IH in E as [Hs ->]. split; [by constructor | simpl length; lia].
Qed.

Lemma next_diff_found j c d c' :
  cursor_next_diff j c = (Some d, c') ->
  jc_poisoned c = false /\ j_base_seq j <= jc_next_seq c /\ jc_poisoned c' = false /\
  jc_from_lsn c' = jc_from_lsn c /\ jc_tables c' = jc_tables c /\ relevant c d = true /\
  exists skipped, unseen j c = skipped ++ d :: unseen j c' /\ Forall (fun e => relevant c e = false) skipped /\
    jc_next_seq c' = jc_next_seq c + Z.of_nat (length skipped) + 1.
Proof.
  unfold cursor_next_diff. destruct (jc_poisoned c); [done|]. destruct (Z.ltb_spec (jc_next_seq c) (j_base_seq j)); [done|].
  destruct (scan c (unseen j c) (jc_next_seq c)) as [found n] eqn:E. intros [= -> <-].
  apply scan_found in E as (skipped & rest & Hu & Hd & Hs & ->). repeat split; [done..|]. exists skipped. split; [|done].
  rewrite Hu. do 2 f_equal. unfold unseen in *. cbn [jc_next_seq].
  replace (Z.to_nat (jc_next_seq c + Z.of_nat (length skipped) + 1 - j_base_seq j))
    with (Z.to_nat (jc_next_seq c - j_base_seq j) + S (length skipped))%nat by lia.
  rewrite <- drop_drop, Hu, drop_app_ge by lia. by replace (S (length skipped) - length skipped)%nat with 1%nat by lia.
Qed.

(** The cursor as the server drains it, between two writes of the journal. *)
#[export] Program Instance Journal_TraceCursor : TraceCursor (Journal * JournalCursor) := {|
  next_diff c := match cursor_next_diff c.1 c.2 with (Some d, c') => Some (d, (c.1, c')) | (None, _) => None end;
  peek_lsn c := cursor_peek_lsn c.1 c.2;
  available c := length (unseen c.1 c.2)
|}.
Next Obligation.
  intros [j c] d [j' c']. cbn. destruct (cursor_next_diff j c) as [[found|] c1] eqn:E; [|done]. intros [= <- <- <-].
  apply next_diff_found in E as (_ & _ & _ & _ & _ & _ & skipped & -> & _ & _). rewrite length_app. simpl. lia.
Qed.

(** ** Shared state *)

Record SharedState := {
  pg_tables_by_name : gmap string IntrospectedTable;
  pg_names_by_id : btree Z IntrospectedTable;
  pg_mirror : gmap Z (list Row);
  pg_journal : Journal;
  pg_clock : Z;
  pg_reconciles : Z;
  pg_failed : option string
}.

Definition register_table (acc : gmap string IntrospectedTable * btree Z IntrospectedTable) (t : IntrospectedTable)
  : gmap string IntrospectedTable * btree Z IntrospectedTable :=
  let by_name := <[qualified t := t]> acc.1 in
  (match by_name !! it_name t with Some _ => by_name | None => <[it_name t := t]> by_name end, bt_insert (it_id t) t acc.2).

Definition from_tables (tables : list IntrospectedTable) (journal_capacity : Z) : SharedState :=
  let '(by_name, by_id) := fold_left register_table tables (∅, []) in
  {| pg_tables_by_name := by_name; pg_names_by_id := by_id; pg_mirror := ∅; pg_journal := journal_new journal_capacity; pg_clock := 0;
     pg_reconciles := 0; pg_failed := None |}.

Definition pg_tables (st : SharedState) : list IntrospectedTable := map snd (pg_names_by_id st).
Definition table_by_id (st : SharedState) (id : Z) : option IntrospectedTable := bt_get id (pg_names_by_id st).

(** The critical sections replace the mirror and the journal; the clock is stored on its own. *)
Definition with_data (st : SharedState) (data : gmap Z (list Row) * Journal) : SharedState :=
  {| pg_tables_by_name := pg_tables_by_name st; pg_names_by_id := pg_names_by_id st; pg_mirror := data.1; pg_journal := data.2;
     pg_clock := pg_clock st; pg_reconciles := pg_reconciles st; pg_failed := pg_failed st |}.
Definition store_clock (st : SharedState) (lsn : Z) : SharedState :=
  {| pg_tables_by_name := pg_tables_by_name st; pg_names_by_id := pg_names_by_id st; pg_mirror := pg_mirror st; pg_journal := pg_journal st;
     pg_clock := lsn; pg_reconciles := pg_reconciles st; pg_failed := pg_failed st |}.

Definition fail (st : SharedState) (message : string) : SharedState :=
  {| pg_tables_by_name := pg_tables_by_name st; pg_names_by_id := pg_names_by_id st; pg_mirror := pg_mirror st; pg_journal := pg_journal st;
     pg_clock := pg_clock st; pg_reconciles := pg_reconciles st;
     pg_failed := Some (match pg_failed st with Some latched => latched | None => message end) |}.
Definition check_failed (st : SharedState) : exec string unit := match pg_failed st with None => Ok tt | Some message => Err message end.

Definition seed_snapshot (st : SharedState) (lsn : Z) (rows : gmap Z (list Row)) : SharedState :=
  store_clock (with_data st (rows, pg_journal st)) lsn.

(** ** Transactions *)

Definition tuple_to_row (tuple : Tuple) (old : option Row) : Row :=
  imap (fun index datum => match datum with
                           | D_Unchanged => default D_Null (old ≫= fun row => row !! index)
                           | other => other
                           end) tuple.

Definition Change : Type := Z * RowOp * option Tuple * option Tuple.

Definition raw_diff (table : Z) (row : Row) (lsn diff : Z) : RawDiff := {| rd_table := Some table; rd_row := row; rd_lsn := lsn; rd_diff := diff |}.

(** What one change does to the rows of its table, and the diffs it appends. *)
Definition change_rows (change : Change) (rows : list Row) : list Row :=
  match change with
  | (_, Insert, _, Some new) => rows ++ [tuple_to_row new None]
  | (_, Update, Some old, Some new) =>
      let old_row := tuple_to_row old None in
      let new_row := tuple_to_row new (Some old_row) in
      match position old_row rows with Some i => <[i := new_row]> rows | None => rows ++ [new_row] end
  | (_, Delete, Some old, _) => remove_one (tuple_to_row old None) rows
  | _ => rows
  end.
Definition change_diffs (lsn : Z) (change : Change) : list RawDiff :=
  match change with
  | (table, Insert, _, Some new) => [raw_diff table (tuple_to_row new None) lsn 1]
  | (table, Update, Some old, Some new) =>
      let old_row := tuple_to_row old None in
      [raw_diff table old_row lsn (-1); raw_diff table (tuple_to_row new (Some old_row)) lsn 1]
  | (table, Delete, Some old, _) => [raw_diff table (tuple_to_row old None) lsn (-1)]
  | _ => []
  end.
Definition change_table (change : Change) : Z := change.1.1.1.

(** [mirror.entry(table).or_default()], then the change. *)
Definition apply_change (lsn : Z) (data : gmap Z (list Row) * Journal) (change : Change) : gmap Z (list Row) * Journal :=
  (<[change_table change := change_rows change (default [] (data.1 !! change_table change))]> data.1,
   journal_extend data.2 (change_diffs lsn change)).

Definition pg_apply_transaction (st : SharedState) (commit_lsn : Z) (changes : list Change) : SharedState :=
  match changes with
  | [] => st
  | _ => store_clock (with_data st (fold_left (apply_change commit_lsn) changes (pg_mirror st, pg_journal st))) commit_lsn
  end.

Definition truncate_table (lsn : Z) (data : gmap Z (list Row) * Journal) (table : Z) : gmap Z (list Row) * Journal :=
  (<[table := []]> data.1, journal_extend data.2 (map (fun row => raw_diff table row lsn (-1)) (default [] (data.1 !! table)))).
Definition apply_truncate (st : SharedState) (commit_lsn : Z) (tables : list Z) : SharedState :=
  store_clock (with_data st (fold_left (truncate_table commit_lsn) tables (pg_mirror st, pg_journal st))) commit_lsn.

(** ** Reconciliation after a reconnect *)

Section Reconcile.
(** The order in which a [HashMap] yields its entries. *)
Context (hash_order : list (Row * Z) -> list (Row * Z)).

(** [*counts.entry(row).or_insert(0) += n]. *)
Fixpoint count_row (row : Row) (n : Z) (counts : list (Row * Z)) : list (Row * Z) :=
  match counts with
  | [] => [(row, n)]
  | (r, k) :: rest => if bool_decide (r = row) then (r, k + n) :: rest else (r, k) :: count_row row n rest
  end.
Definition row_counts (new_rows old_rows : list Row) : list (Row * Z) :=
  fold_left (fun counts row => count_row row (-1) counts) old_rows (fold_left (fun counts row => count_row row 1 counts) new_rows []).

Definition count_diffs (table lsn : Z) (entry : Row * Z) : list RawDiff :=
  replicate (Z.to_nat (Z.abs entry.2)) (raw_diff table entry.1 lsn (if 0 <? entry.2 then 1 else -1)).

Definition reconcile_table (lsn : Z) (fresh : gmap Z (list Row)) (data : gmap Z (list Row) * Journal) (table : Z) : gmap Z (list Row) * Journal :=
  let old_rows := default [] (data.1 !! table) in
  let new_rows := default [] (fresh !! table) in
  (<[table := new_rows]> data.1, journal_extend data.2 (flat_map (count_diffs table lsn) (hash_order (row_counts new_rows old_rows)))).

Definition reconcile_snapshot (st : SharedState) (lsn : Z) (fresh : gmap Z (list Row)) : SharedState :=
  let st := {| pg_tables_by_name := pg_tables_by_name st; pg_names_by_id := pg_names_by_id st; pg_mirror := pg_mirror st;
               pg_journal := pg_journal st; pg_clock := pg_clock st; pg_reconciles := uint 64 (pg_reconciles st + 1); pg_failed := pg_failed st |} in
  store_clock (with_data st (fold_left (reconcile_table lsn fresh) (map fst (pg_names_by_id st)) (pg_mirror st, pg_journal st))) lsn.
End Reconcile.

(** ** The runtime as the server sees it *)

Definition wire_datum_type (column_type : ColumnType) : DatumType :=
  match column_type with
  | CT_Bool => T_Bool
  | CT_Int => T_I64
  | CT_Float => T_F64
  | CT_Numeric => T_Numeric
  | CT_Timestamp => T_Timestamp
  | CT_TimestampTz => T_TimestampTz
  | CT_Date => T_Date
  | CT_Time => T_Time
  | CT_Interval => T_Interval
  | CT_Uuid => T_Uuid
  | CT_Jsonb => T_Jsonb
  | CT_Bytea => T_Bytea
  | CT_Array => T_Array T_Text
  | CT_Text | CT_Enum | CT_Unknown => T_Text
  end.

Definition pg_table_schema (st : SharedState) (table : text) : option (Z * ScalarSchema) :=
  (fun t => (it_id t, scalar_schema t)) <$> pg_tables_by_name st !! text_string table.

Section Runtime.
Context `{EvalRuntime} `{PetGraph MirNodeKind MirEdgeKind}.
Context (acyclic : MirGraph -> bool) (parse_and_lower : text -> string + MirGraph) (display_compile : CompileError -> string).

Definition parse_query (query : text) : exec string MirGraph :=
  match parse_and_lower query with inr graph => Ok graph | inl err => Err ("query does not parse: " +:+ err) end.

(** Each distinct name the query uses, resolved. *)
Fixpoint resolve_tables (st : SharedState) (names : list text) (seen : list text) : exec string (list IntrospectedTable) :=
  match names with
  | [] => Ok []
  | table :: rest =>
      if bool_decide (table ∈ seen) then resolve_tables st rest seen
      else
        match pg_tables_by_name st !! text_string table with
        | None => Err ("table '" +:+ text_string table +:+ "' is not in the streamed set (derived from the query registry)")
        | Some resolved => let? tables := resolve_tables st rest (table :: seen) in Ok (resolved :: tables)
        end
  end.
Definition base_table_names (graph : MirGraph) : list text :=
  filter_map (fun index => match node_kind graph index with Some (BaseTable table _) => Some table | _ => None end) (base_table_indices graph).
Definition query_tables (st : SharedState) (query : text) : exec string (list IntrospectedTable) :=
  let? graph := parse_query query in resolve_tables st (base_table_names graph) [].

(** The rows, read under the mirror's lock; the clock is read after it. *)
Definition snapshot_rows (st : SharedState) (tables : list IntrospectedTable) : list SnapshotTableRows :=
  map (fun t => {| st_table := it_id t; st_rows := default [] (pg_mirror st !! it_id t) |}) tables.
Definition pg_fetch_snapshot (st : SharedState) (query : text) : exec string SnapshotBatch :=
  let? _ := check_failed st in
  let? tables := query_tables st query in
  Ok {| sb_snapshot_lsn := pg_clock st; sb_rows := snapshot_rows st tables |}.

Definition pg_query_schema (st : SharedState) (query : text) : exec string SchemaDefinition :=
  let? _ := check_failed st in
  let? graph := parse_query query in
  match compile_mir acyclic (pg_table_schema st) graph with
  | Err err => Err ("query does not compile: " +:+ display_compile err)
  | Panic => Panic
  | Ok plan =>
      Ok {| schema_id := 0;
            schema_columns := map (fun c => {| cs_name := text_string c.1; cs_datum_type := wire_datum_type c.2; cs_nullable := true |})
                                (sc_columns (cp_output_schema plan));
            primary_key_columns := [0%nat] |}
  end.

Definition open_cursor (st : SharedState) (query : text) (from_lsn : Z) : exec string JournalCursor :=
  let? _ := check_failed st in
  let? tables := query_tables st query in
  if from_lsn <? j_truncated_through (pg_journal st) then
    Err ("diff journal no longer covers LSN " +:+ pretty from_lsn +:+ " (truncated through " +:+
         pretty (j_truncated_through (pg_journal st)) +:+ "); resubscribe for a fresh snapshot")
  else Ok {| jc_next_seq := j_base_seq (pg_journal st); jc_from_lsn := from_lsn; jc_tables := list_to_set (map it_id tables);
             jc_poisoned := false |}.

Definition postgres_wal (st : SharedState) : WalRuntime :=
  {| fetch_snapshot := pg_fetch_snapshot st; query_schema := pg_query_schema st; table_schema := pg_table_schema st |}.
End Runtime.
