(* ===== verification/PostgresFacts.v ===== *)
(** * PostgresFacts: snapshots and cursors of the runtime fit together

    The mirror is what the journalled diffs add up to, but for retractions of rows it
    does not have, which are journalled all the same; so a snapshot and
    the diffs a cursor surfaces after it make up the current rows, one row too few for
    each of those. The log of all
    diffs ever journalled is a ghost; the journal is its bounded tail. *)

From stdpp Require Import gmap.
From Stdlib Require Import Sorted.
From S2P Require Import Prelude BTree Text Values UserContext Watermarks Shared Registry Protocol Channel Cursor.
From S2P Require Import Literals Floats Datums Exprs Like Eval Mir Consolidation Operators Relational RelationalFacts CompileMir Install Router.
From S2P Require Import Host Service Postgres.

(** ** The journal is the tail of the log *)

Record journal_is (log : list RawDiff) (j : Journal) : Prop := {
  jl_capacity : 1 <= j_capacity j;
  jl_base : 0 <= j_base_seq j;
  jl_entries : j_entries j = drop (Z.to_nat (j_base_seq j)) log;
  jl_bound : Z.of_nat (length log) - j_base_seq j <= j_capacity j;
  jl_within : j_base_seq j <= Z.of_nat (length log);
  jl_truncated : Forall (fun d => rd_lsn d <= j_truncated_through j) (take (Z.to_nat (j_base_seq j)) log);
  jl_reached : forall b, 0 <= b -> Forall (fun d => rd_lsn d <= b) log -> j_truncated_through j <= b
}.

Lemma journal_new_is capacity : journal_is [] (journal_new capacity).
Proof. split; simpl; try lia; [done | constructor]. Qed.

Lemma journal_push_is log j d : journal_is log j -> journal_is (log ++ [d]) (journal_push j d).
Proof.
  intros [Hcap Hbase He Hbound Hwithin Htr Hreach]. unfold journal_push.
  assert (length (j_entries j) = (length log - Z.to_nat (j_base_seq j))%nat) as Hlen by (by rewrite He, length_drop).
  destruct (Z.eqb_spec (Z.of_nat (length (j_entries j))) (j_capacity j)) as [Efull|Efull].
  - destruct (j_entries j) as [|dropped rest] eqn:Ee; [simpl in *; lia|]. symmetry in He.
    assert (log !! Z.to_nat (j_base_seq j) = Some dropped /\ drop (S (Z.to_nat (j_base_seq j))) log = rest) as [Hd Hr].
    { split; [rewrite <- (Nat.add_0_r (Z.to_nat _)), <- lookup_drop, He; done|].
      replace (S (Z.to_nat (j_base_seq j))) with (Z.to_nat (j_base_seq j) + 1)%nat by lia. by rewrite <- drop_drop, He. }
    simpl in Hlen, Efull. split; cbn [j_capacity j_base_seq j_entries j_truncated_through]; rewrite ?length_app; simpl; try lia.
    + replace (Z.to_nat (j_base_seq j + 1)) with (S (Z.to_nat (j_base_seq j))) by lia. rewrite drop_app_le by lia. by rewrite Hr.
    + replace (Z.to_nat (j_base_seq j + 1)) with (S (Z.to_nat (j_base_seq j))) by lia. rewrite take_app_le by lia.
      rewrite (take_S_r _ _ _ Hd). apply Forall_app. split; [eapply Forall_impl; [exact Htr|]; simpl; lia | repeat constructor; lia].
    + intros b Hb [Hl _]%Forall_app. apply Z.max_lub; [by apply Hreach | apply (proj1 (Forall_lookup _ _) Hl _ _ Hd)].
  - split; cbn [j_capacity j_base_seq j_entries j_truncated_through]; rewrite ?length_app; simpl; try lia.
    + rewrite He, drop_app_le by lia. done.
    + by rewrite take_app_le by lia.
    + intros b Hb [Hl _]%Forall_app. by apply Hreach.
Qed.

Lemma journal_extend_is ds : forall log j, journal_is log j -> journal_is (log ++ ds) (journal_extend j ds).
Proof.
  induction ds as [|d ds IH]; intros log j Hj; simpl; [by rewrite app_nil_r|].
  change (d :: ds) with ([d] ++ ds). rewrite app_assoc. by apply IH, journal_push_is.
Qed.
Lemma journal_extend_app j a b : journal_extend j (a ++ b) = journal_extend (journal_extend j a) b.
Proof. apply fold_left_app. Qed.

(** ** Cursors read the log in order, and stop rather than skip *)

(** The diffs a cursor is to surface. *)
Definition wanted (c : JournalCursor) (log : list RawDiff) : list RawDiff := List.filter (relevant c) log.

Lemma wanted_none c l : Forall (fun e => relevant c e = false) l -> wanted c l = [].
Proof. unfold wanted. induction 1 as [|e l He _ IH]; simpl; [done|]. by rewrite He. Qed.
Lemma wanted_forall (P : RawDiff -> Prop) c l : Forall P l -> Forall P (wanted c l).
Proof. unfold wanted. induction 1 as [|e l He _ IH]; simpl; [constructor|]. destruct (relevant c e); [by constructor | done]. Qed.
Lemma wanted_app c a b : wanted c (a ++ b) = wanted c a ++ wanted c b.
Proof. apply List.filter_app. Qed.

Lemma wanted_same c c' l : jc_from_lsn c' = jc_from_lsn c -> jc_tables c' = jc_tables c -> wanted c' l = wanted c l.
Proof. intros Ef Et. unfold wanted. apply List.filter_ext. intros e. unfold relevant. by rewrite Ef, Et. Qed.

(** What has been surfaced is what is wanted of the part already read. *)
Record cursor_at (log : list RawDiff) (c : JournalCursor) (out : list RawDiff) : Prop := {
  ca_nonneg : 0 <= jc_next_seq c;
  ca_within : jc_next_seq c <= Z.of_nat (length log);
  ca_out : out = wanted c (take (Z.to_nat (jc_next_seq c)) log)
}.

Lemma cursor_at_grows log log' c out : cursor_at log c out -> cursor_at (log ++ log') c out.
Proof. intros [Hn Hw Ho]. split; [done | rewrite length_app; lia | by rewrite take_app_le by lia]. Qed.

Lemma unseen_log log j c : journal_is log j -> j_base_seq j <= jc_next_seq c -> unseen j c = drop (Z.to_nat (jc_next_seq c)) log.
Proof. intros Hj Hle. unfold unseen. rewrite (jl_entries _ _ Hj), drop_drop. f_equal. pose proof (jl_base _ _ Hj). lia. Qed.

Lemma next_diff_reads log j c out found c' :
  journal_is log j -> cursor_at log c out -> cursor_next_diff j c = (found, c') ->
  match found with
  | Some d => cursor_at log c' (out ++ [d])
  | None => cursor_at log c' out /\ (jc_poisoned c' = false -> out = wanted c' log)
  end /\ (forall l, wanted c' l = wanted c l).
Proof.
  intros Hj [Hn Hw Ho] Hnext. destruct found as [d|].
  - apply next_diff_found in Hnext as (_ & Hbase & _ & Hf & Ht & Hd & skipped & Hu & Hs & Hseq).
    assert (forall l, wanted c' l = wanted c l) as Hsame.
    { intros l. by apply wanted_same. }
    split; [|done]. rewrite (unseen_log log) in Hu by done.
    assert (Z.to_nat (jc_next_seq c') = Z.to_nat (jc_next_seq c) + length (skipped ++ [d]))%nat as En by (rewrite length_app; simpl; lia).
    pose proof (f_equal length Hu) as Hl. rewrite length_drop, length_app in Hl. simpl in Hl.
    split; [lia | lia |]. rewrite Hsame, En, <- take_take_drop, wanted_app, Hu, <- Ho. f_equal.
    change (d :: unseen j c') with ([d] ++ unseen j c'). rewrite app_assoc, take_app_length, wanted_app, (wanted_none c skipped Hs).
    unfold wanted. simpl. by rewrite Hd.
  - unfold cursor_next_diff in Hnext. destruct (jc_poisoned c) eqn:Hp; [injection Hnext as <-; split; [split; [by split | congruence] | done]|].
    destruct (Z.ltb_spec (jc_next_seq c) (j_base_seq j)) as [Hlt|Hge]; [injection Hnext as <-; split; [split; [by split | done] | done]|].
    destruct (scan c (unseen j c) (jc_next_seq c)) as [f n] eqn:Es. injection Hnext as -> <-. apply scan_none in Es as [Hs ->].
    rewrite (unseen_log log) in Hs |- * by done. split; [|done].
    assert (wanted c log = out) as Hall.
    { rewrite <- (take_drop (Z.to_nat (jc_next_seq c)) log), wanted_app, (wanted_none c _ Hs), app_nil_r. done. }
    split; [|done]. split; cbn [jc_next_seq]; rewrite ?length_drop; [lia | lia |].
    rewrite firstn_all2 by lia. done.
Qed.

(** Opening at an LSN the journal still covers loses nothing. *)
Lemma open_cursor_at log j from tables :
  journal_is log j -> j_truncated_through j <= from ->
  cursor_at log {| jc_next_seq := j_base_seq j; jc_from_lsn := from; jc_tables := tables; jc_poisoned := false |} [].
Proof.
  intros Hj Hle. split; cbn [jc_next_seq]; [apply Hj | apply Hj |]. symmetry. apply wanted_none.
  eapply Forall_impl; [apply (jl_truncated _ _ Hj)|]. intros d Hd. unfold relevant. cbn [jc_from_lsn].
  destruct (Z.ltb_spec from (rd_lsn d)); [simpl in Hd; lia | done].
Qed.

(** ** The mirror is the sum of the diffs *)

(** The net weight of a row of a table in a list of diffs. *)
Definition net (table : Z) (r : Row) (ds : list RawDiff) : Z :=
  foldr (fun d acc => (if bool_decide (rd_table d = Some table /\ rd_row d = r) then rd_diff d else 0) + acc) 0 ds.

Lemma net_concat table r a b : net table r (a ++ b) = net table r a + net table r b.
Proof. induction a as [|d a IH]; simpl; [done|]. rewrite IH. lia. Qed.
Lemma net_raw table r t row lsn w ds :
  net table r (raw_diff t row lsn w :: ds) = (if decide (t = table) then w * indicator (ord_eqb row r) else 0) + net table r ds.
Proof.
  simpl. f_equal. destruct (ord_eqb_spec row r) as [->|Hr], (decide (t = table)) as [->|Hne]; case_bool_decide as E; simpl in *;
    try lia; exfalso; naive_solver.
Qed.
Lemma net_perm table r a b : a ≡ₚ b -> net table r a = net table r b.
Proof. induction 1; simpl; lia. Qed.
Lemma net_replicate table r t row lsn w n :
  net table r (replicate n (raw_diff t row lsn w)) = if decide (t = table) then Z.of_nat n * w * indicator (ord_eqb row r) else 0.
Proof.
  induction n as [|n IH]; [simpl; by destruct (decide _)|]. cbn [replicate]. rewrite net_raw, IH. destruct (decide _); lia.
Qed.

Abbreviation data := (gmap Z (list Row) * Journal)%type.
Definition mirrored (m : gmap Z (list Row)) (table : Z) : list Row := default [] (m !! table).

(** [d'] is [d] with the diffs journalled, and added up in the mirror, but for the [missed] retractions. *)
Record accounts (lsn : Z) (d d' : data) (ds : list RawDiff) (missed : Z -> Row -> Z) : Prop := {
  ac_journal : d'.2 = journal_extend d.2 ds;
  ac_stamped : Forall (fun x => rd_lsn x = lsn /\ is_Some (rd_table x)) ds;
  ac_rows : forall table r, occurrences r (mirrored d'.1 table) = occurrences r (mirrored d.1 table) + net table r ds + missed table r
}.
Abbreviation none_missed := (fun (_ : Z) (_ : Row) => 0).

Lemma accounts_refl lsn d : accounts lsn d d [] none_missed.
Proof. split; [done | constructor | intros; simpl; lia]. Qed.
Lemma accounts_trans lsn d1 d2 d3 a b m n :
  accounts lsn d1 d2 a m -> accounts lsn d2 d3 b n -> accounts lsn d1 d3 (a ++ b) (fun t r => m t r + n t r).
Proof.
  intros [Hj Hs Hr] [Hj' Hs' Hr']. split; [by rewrite Hj', Hj, journal_extend_app | by apply Forall_app | intros; rewrite Hr', Hr, net_concat; lia].
Qed.
(** Each step of a loop is allowed where it is made. *)
Fixpoint each {A} (f : data -> A -> data) (ok : data -> A -> Prop) (d : data) (l : list A) : Prop :=
  match l with [] => True | a :: l => ok d a /\ each f ok (f d a) l end.
(** What the steps of a loop miss, each where it is made. *)
Fixpoint tally {A} (f : data -> A -> data) (missed : data -> A -> Z -> Row -> Z) (d : data) (l : list A) (table : Z) (r : Row) : Z :=
  match l with [] => 0 | a :: l => missed d a table r + tally f missed (f d a) l table r end.
Lemma accounts_fold {A} lsn (f : data -> A -> data) (missed : data -> A -> Z -> Row -> Z) l :
  (forall d a, exists ds, accounts lsn d (f d a) ds (missed d a)) ->
  forall d, exists ds, accounts lsn d (fold_left f l d) ds (tally f missed d l).
Proof.
  intros Hf. induction l as [|a l IH]; intros d; [exists []; apply accounts_refl|].
  destruct (Hf d a) as [ds Hds]. destruct (IH (f d a)) as [ds' Hds']. exists (ds ++ ds'). exact (accounts_trans _ _ _ _ _ _ _ _ Hds Hds').
Qed.
Lemma tally_none {A} (f : data -> A -> data) l d table r : tally f (fun _ _ => none_missed) d l table r = 0.
Proof. revert d. induction l as [|a l IH]; intros d; simpl; [done|]. by rewrite IH. Qed.
Lemma accounts_ext lsn d d' ds m n : (forall table r, m table r = n table r) -> accounts lsn d d' ds m -> accounts lsn d d' ds n.
Proof. intros E [Hj Hs Hr]. split; [done | done | intros; by rewrite Hr, E]. Qed.

(** Replacing the rows of one table. *)
Lemma accounts_table lsn (m : gmap Z (list Row)) j table rows ds (missed : Row -> Z) :
  Forall (fun x => rd_lsn x = lsn /\ rd_table x = Some table) ds ->
  (forall r, occurrences r rows = occurrences r (mirrored m table) + net table r ds + missed r) ->
  accounts lsn (m, j) (<[table := rows]> m, journal_extend j ds) ds (fun t r => if t =? table then missed r else 0).
Proof.
  intros Hs Hr. split; [done | eapply Forall_impl; [exact Hs|]; by intros x [-> ->] |].
  intros t r. unfold mirrored in *. simpl. destruct (decide (t = table)) as [->|Hne]; [rewrite lookup_insert_eq, Z.eqb_refl; apply Hr|].
  rewrite lookup_insert_ne, (proj2 (Z.eqb_neq t table)) by done. enough (net t r ds = 0) by lia. clear Hr. induction Hs as [|x ds [_ Hx] _ IH]; [done|].
  simpl. rewrite IH. case_bool_decide as E; [|done]. destruct E as [E _]. congruence.
Qed.

(** A retraction of a row the mirror does not have. *)
Definition change_missed (d : data) (change : Change) (table : Z) (r : Row) : Z :=
  match change with
  | (t, Update, Some old, Some _) | (t, Delete, Some old, _) =>
      if table =? t then if decide (tuple_to_row old None ∈ mirrored d.1 t) then 0 else indicator (ord_eqb (tuple_to_row old None) r) else 0
  | _ => 0
  end.
(** A retraction is of a mirrored row. *)
Definition change_ok (m : gmap Z (list Row)) (change : Change) : Prop :=
  match change with
  | (table, Update, Some old, Some _) | (table, Delete, Some old, _) => tuple_to_row old None ∈ mirrored m table
  | _ => True
  end.
Lemma change_ok_missed d change table r : change_ok d.1 change -> change_missed d change table r = 0.
Proof.
  destruct change as [[[t op] old] new]. destruct op, old, new; cbn; try done; intros Hok; destruct (table =? t); try done; by rewrite decide_True.
Qed.

Lemma position_elem (y : Row) l : y ∈ l -> exists i, position y l = Some i /\ l !! i = Some y.
Proof.
  intros Hin. unfold position. destruct (list_find_elem_of (fun x => x = y) l y Hin eq_refl) as [[i x] Hf].
  rewrite Hf. apply list_find_Some in Hf as (Hi & -> & _). by exists i.
Qed.
Lemma occurrences_insert (r y z : Row) l i :
  l !! i = Some y -> occurrences r (<[i := z]> l) = occurrences r l - indicator (ord_eqb y r) + indicator (ord_eqb z r).
Proof.
  intros Hi. pose proof (lookup_lt_Some _ _ _ Hi). rewrite (insert_take_drop l i z) by done. rewrite <- (take_drop_middle l i y Hi) at 3.
  rewrite !occurrences_app, !occurrences_cons. lia.
Qed.

Lemma position_none (y : Row) l : y ∉ l -> position y l = None.
Proof. intros Hni. unfold position. destruct (list_find _ l) as [[i x]|] eqn:E; [|done]. apply list_find_Some in E as (Hi & -> & _). by apply list_elem_of_lookup_2 in Hi. Qed.

Lemma remove_accounts (y r : Row) l :
  occurrences r (remove_one y l) = occurrences r l + (-1 * indicator (ord_eqb y r) + 0) + (if decide (y ∈ l) then 0 else indicator (ord_eqb y r)).
Proof.
  rewrite occurrences_remove. pose proof (occurrences_elem y l) as He. destruct (decide (y ∈ l)) as [Hy|Hy].
  - apply He in Hy. destruct (ord_eqb_spec y r) as [<-|]; simpl; lia.
  - assert (occurrences y l <= 0) by (destruct (Z.leb_spec (occurrences y l) 0); [done | by destruct Hy; apply He]).
    assert (0 <= occurrences y l) by (unfold occurrences; lia). destruct (ord_eqb_spec y r) as [<-|]; simpl; lia.
Qed.

Lemma apply_change_accounts lsn (d : data) change : exists ds, accounts lsn d (apply_change lsn d change) ds (change_missed d change).
Proof.
  destruct d as [m j], change as [[[table op] old] new]. exists (change_diffs lsn (table, op, old, new)).
  unfold apply_change, change_table. cbn [fst snd].
  apply (accounts_ext _ _ _ _ (fun t r => if t =? table then change_missed (m, j) (table, op, old, new) table r else 0)).
  { intros t r. unfold change_missed. rewrite Z.eqb_refl. destruct op, old, new, (t =? table); done. }
  apply (accounts_table _ _ _ _ _ _ (change_missed (m, j) (table, op, old, new) table)).
  - destruct op, old, new; repeat constructor.
  - intros r. unfold change_missed. rewrite Z.eqb_refl. cbn [fst]. change (default [] (m !! table)) with (mirrored m table).
    destruct op, old as [old|], new as [new|]; cbn [change_rows change_diffs]; rewrite ?net_raw, ?decide_True by done; cbn [net foldr]; try lia.
    + rewrite occurrences_app, occurrences_cons. change (occurrences r []) with 0. lia.
    + rewrite occurrences_app, occurrences_cons. change (occurrences r []) with 0. lia.
    + destruct (decide (tuple_to_row old None ∈ mirrored m table)) as [Hok|Hno].
      * destruct (position_elem _ _ Hok) as (i & -> & Hi). rewrite (occurrences_insert _ _ _ _ _ Hi). lia.
      * rewrite (position_none _ _ Hno), occurrences_app, occurrences_cons. change (occurrences r []) with 0. lia.
    + apply remove_accounts.
    + apply remove_accounts.
Qed.

Lemma net_truncate table lsn rows r : net table r (map (fun row => raw_diff table row lsn (-1)) rows) = - occurrences r rows.
Proof. induction rows as [|row rows IH]; [done|]. cbn [map]. rewrite net_raw, IH, decide_True, occurrences_cons by done. lia. Qed.
Lemma truncate_accounts lsn (d : data) table : exists ds, accounts lsn d (truncate_table lsn d table) ds none_missed.
Proof.
  destruct d as [m j]. eexists. unfold truncate_table. cbn [fst snd].
  eapply accounts_ext; [|apply (accounts_table _ _ _ _ _ _ (fun _ => 0))]; [intros t r; cbv beta; destruct (t =? table); reflexivity|..].
  - apply Forall_map, Forall_true. done.
  - intros r. rewrite net_truncate. change (occurrences r []) with 0. unfold mirrored. lia.
Qed.

(** ** Reconciliation *)

Section Reconciled.
Context (hash_order : list (Row * Z) -> list (Row * Z)).
Hypothesis hash_order_perm : forall counts, hash_order counts ≡ₚ counts.

Lemma count_row_mult r row n (counts : collection Row) : mult r (count_row row n counts) = mult r counts + n * indicator (ord_eqb row r).
Proof.
  unfold mult. induction counts as [|[x k] counts IH]; simpl; [lia|]. case_bool_decide as E; simpl; [subst; lia | rewrite IH; lia].
Qed.
Lemma row_counts_mult r new_rows old_rows : mult r (row_counts new_rows old_rows) = occurrences r new_rows - occurrences r old_rows.
Proof.
  assert (forall n rows (counts : collection Row),
    mult r (fold_left (fun counts row => count_row row n counts) rows counts) = mult r counts + n * occurrences r rows) as Hfold.
  { intros n rows. induction rows as [|row rows IH]; intros counts; simpl; [change (occurrences r []) with 0; lia|].
    rewrite IH, count_row_mult, occurrences_cons. lia. }
  unfold row_counts. rewrite !Hfold. change (mult r []) with 0. lia.
Qed.

Lemma net_counts table lsn r (counts : collection Row) : net table r (flat_map (count_diffs table lsn) counts) = mult r counts.
Proof.
  unfold mult. induction counts as [|[x k] counts IH]; simpl; [done|]. rewrite net_concat, IH. unfold count_diffs. cbn [fst snd].
  rewrite net_replicate, decide_True by done. f_equal. rewrite Z2Nat.id by lia.
  destruct (Z.ltb_spec 0 k); [rewrite Z.abs_eq by lia | rewrite Z.abs_neq by lia]; ring.
Qed.

Lemma reconcile_table_accounts lsn fresh (d : data) table :
  exists ds, accounts lsn d (reconcile_table hash_order lsn fresh d table) ds none_missed.
Proof.
  destruct d as [m j]. eexists. unfold reconcile_table. cbn [fst snd].
  eapply accounts_ext; [|apply (accounts_table _ _ _ _ _ _ (fun _ => 0))]; [intros t r; cbv beta; destruct (t =? table); reflexivity|..].
  - apply Forall_forall. intros x Hx%list_elem_of_In. apply in_flat_map in Hx as (e & _ & Hx%list_elem_of_In).
    unfold count_diffs in Hx. by apply elem_of_replicate in Hx as [-> _].
  - intros r. change (default [] (m !! table)) with (mirrored m table).
    rewrite (net_perm _ _ _ _ (Permutation_flat_map _ (hash_order_perm _))), net_counts, row_counts_mult. lia.
Qed.

(** ** Histories of the runtime *)

(** A commit (its truncations, then its changes), a reconciliation, a latched failure. *)
Inductive Ingest :=
| IG_Commit (lsn : Z) (truncates : list Z) (changes : list Change)
| IG_Reconcile (lsn : Z) (fresh : gmap Z (list Row))
| IG_Fail (message : string).

Definition ingest (st : SharedState) (i : Ingest) : SharedState :=
  match i with
  | IG_Commit lsn truncates changes =>
      let st := match truncates with [] => st | _ => apply_truncate st lsn truncates end in
      match changes with [] => st | _ => pg_apply_transaction st lsn changes end
  | IG_Reconcile lsn fresh => reconcile_snapshot hash_order st lsn fresh
  | IG_Fail message => fail st message
  end.
Definition ingest_all (st : SharedState) (h : list Ingest) : SharedState := fold_left ingest h st.

(** LSNs grow. *)
Definition ingest_ok (st : SharedState) (i : Ingest) : Prop :=
  match i with IG_Commit lsn _ _ | IG_Reconcile lsn _ => pg_clock st < lsn | IG_Fail _ => True end.
Fixpoint history_ok (st : SharedState) (h : list Ingest) : Prop :=
  match h with [] => True | i :: rest => ingest_ok st i /\ history_ok (ingest st i) rest end.

(** The retractions of rows the mirror does not have. *)
Definition ingest_missed (st : SharedState) (i : Ingest) : Z -> Row -> Z :=
  match i with
  | IG_Commit lsn truncates changes =>
      tally (apply_change lsn) change_missed (fold_left (truncate_table lsn) truncates (pg_mirror st, pg_journal st)) changes
  | _ => none_missed
  end.
Fixpoint history_missed (st : SharedState) (h : list Ingest) (table : Z) (r : Row) : Z :=
  match h with [] => 0 | i :: rest => ingest_missed st i table r + history_missed (ingest st i) rest table r end.

(** Every retraction is of a row the mirror has. *)
Definition changes_ok (lsn : Z) (d : data) (changes : list Change) : Prop :=
  each (apply_change lsn) (fun d change => change_ok d.1 change) d changes.
Definition ingest_retracts (st : SharedState) (i : Ingest) : Prop :=
  match i with
  | IG_Commit lsn truncates changes => changes_ok lsn (fold_left (truncate_table lsn) truncates (pg_mirror st, pg_journal st)) changes
  | _ => True
  end.
Fixpoint history_retracts (st : SharedState) (h : list Ingest) : Prop :=
  match h with [] => True | i :: rest => ingest_retracts st i /\ history_retracts (ingest st i) rest end.
Lemma history_retracts_missed h table r : forall st, history_retracts st h -> history_missed st h table r = 0.
Proof.
  induction h as [|i h IH]; intros st; [done|]. intros [Hi Hh]. cbn [history_missed]. rewrite IH by done.
  assert (ingest_missed st i table r = 0) as ->; [|done]. destruct i as [lsn truncates changes| |]; [|done..]. cbn [ingest_missed ingest_retracts] in *.
  clear Hh. revert Hi. generalize (fold_left (truncate_table lsn) truncates (pg_mirror st, pg_journal st)). induction changes as [|c changes IHc]; intros d; [done|].
  intros [Hc Hcs]. cbn [tally]. rewrite (change_ok_missed d c table r Hc), (IHc _ Hcs). done.
Qed.

(** ** The log *)

Definition data_of (st : SharedState) : data := (pg_mirror st, pg_journal st).

(** Every journalled diff is at or below the clock, in order. *)
Record logged (log : list RawDiff) (st : SharedState) : Prop := {
  lg_journal : journal_is log (pg_journal st);
  lg_stamps : Forall (fun d => rd_lsn d <= pg_clock st /\ is_Some (rd_table d)) log;
  lg_sorted : lsn_sorted log;
  lg_clock : 0 <= pg_clock st
}.

Lemma none_account {A} lsn (f : data -> A -> data) l d :
  (forall d a, exists ds, accounts lsn d (f d a) ds none_missed) -> exists ds, accounts lsn d (fold_left f l d) ds none_missed.
Proof.
  intros Hf. destruct (accounts_fold lsn f (fun _ _ => none_missed) l Hf d) as [ds Hds]. exists ds.
  eapply accounts_ext; [|exact Hds]. intros t r. apply tally_none.
Qed.
Lemma truncates_account lsn tables d : exists ds, accounts lsn d (fold_left (truncate_table lsn) tables d) ds none_missed.
Proof. apply none_account, truncate_accounts. Qed.
Lemma changes_account lsn changes d :
  exists ds, accounts lsn d (fold_left (apply_change lsn) changes d) ds (tally (apply_change lsn) change_missed d changes).
Proof. apply accounts_fold, apply_change_accounts. Qed.
Lemma reconciles_account lsn fresh tables d : exists ds, accounts lsn d (fold_left (reconcile_table hash_order lsn fresh) tables d) ds none_missed.
Proof. apply none_account, reconcile_table_accounts. Qed.

Lemma data_of_stored st d lsn : data_of (store_clock (with_data st d) lsn) = d.
Proof. by destruct d. Qed.

Lemma ingest_accounts st i : ingest_ok st i ->
  exists lsn ds, accounts lsn (data_of st) (data_of (ingest st i)) ds (ingest_missed st i) /\
    (pg_clock st < lsn /\ pg_clock (ingest st i) = lsn \/ ds = [] /\ pg_clock (ingest st i) = pg_clock st).
Proof.
  destruct i as [lsn truncates changes|lsn fresh|message]; cbn [ingest_ok ingest].
  - intros Hlt. destruct (truncates_account lsn truncates (data_of st)) as [a Ha].
    destruct (changes_account lsn changes (fold_left (truncate_table lsn) truncates (data_of st))) as [b Hb]. exists lsn.
    destruct truncates as [|t truncates], changes as [|c changes].
    + exists []. split; [apply accounts_refl | by right].
    + exists b. split; [|left; split; [lia | done]]. unfold pg_apply_transaction. rewrite data_of_stored. exact Hb.
    + exists a. split; [|left; split; [lia | done]]. unfold apply_truncate. rewrite data_of_stored. exact Ha.
    + exists (a ++ b). split; [|left; split; [lia | done]]. unfold pg_apply_transaction. rewrite data_of_stored.
      change (pg_mirror (apply_truncate ?s ?l ?ts), pg_journal (apply_truncate ?s ?l ?ts)) with (data_of (apply_truncate s l ts)).
      unfold apply_truncate. rewrite data_of_stored. exact (accounts_trans _ _ _ _ _ _ _ _ Ha Hb).
  - intros Hlt. destruct (reconciles_account lsn fresh (map fst (pg_names_by_id st)) (data_of st)) as [ds Hds].
    exists lsn, ds. split; [|left; split; [lia | done]]. unfold reconcile_snapshot. rewrite data_of_stored. exact Hds.
  - intros _. exists 0, []. split; [apply accounts_refl | by right].
Qed.

Lemma ingest_names st i : pg_tables_by_name (ingest st i) = pg_tables_by_name st.
Proof. destruct i as [lsn [|] [|]| |]; done. Qed.

(** The rows a diff list adds to a table, but for the missed retractions. *)
Definition adds_up (st st' : SharedState) (ds : list RawDiff) (missed : Z -> Row -> Z) : Prop :=
  forall table r, occurrences r (mirrored (pg_mirror st') table) = occurrences r (mirrored (pg_mirror st) table) + net table r ds + missed table r.

Lemma sorted_extend log ds bound lsn :
  lsn_sorted log -> Forall (fun d => rd_lsn d <= bound) log -> bound < lsn -> Forall (fun d => rd_lsn d = lsn) ds -> lsn_sorted (log ++ ds).
Proof.
  intros Hs Hb Hlt Hds. induction Hs as [|d log Hs IH Hd]; simpl.
  - clear Hb. induction Hds as [|d ds Hd Hds IH]; constructor; [done|]. eapply Forall_impl; [exact Hds|]. simpl. lia.
  - inversion Hb; subst. constructor; [by apply IH|]. apply Forall_app. split; [done|]. eapply Forall_impl; [exact Hds|]. simpl. lia.
Qed.

Lemma ingest_logged log st i : logged log st -> ingest_ok st i ->
  exists ds, logged (log ++ ds) (ingest st i) /\ Forall (fun d => pg_clock st < rd_lsn d) ds /\ adds_up st (ingest st i) ds (ingest_missed st i) /\
    pg_clock st <= pg_clock (ingest st i).
Proof.
  intros [Hj Hs Hsort Hc] Hok. destruct (ingest_accounts st i Hok) as (lsn & ds & [Hjn Hst Hr] & Hclock). cbn [data_of fst snd] in *.
  exists ds. destruct Hclock as [[Hlt Ec]|[-> Ec]].
  - split; [|split; [eapply Forall_impl; [exact Hst|]; simpl; intros d [-> _]; done | split; [done | lia]]]. split.
    + rewrite Hjn. by apply journal_extend_is.
    + rewrite Ec. apply Forall_app. split; (eapply Forall_impl; [eassumption|]); simpl; intros d [? ?]; split; (done || lia).
    + eapply sorted_extend; [done | | exact Hlt |]; (eapply Forall_impl; [eassumption|]); simpl; by intros d [? ?].
    + lia.
  - rewrite app_nil_r. split; [|split; [constructor | split; [done | lia]]]. split; [by rewrite Hjn | by rewrite Ec | done | lia].
Qed.

Lemma history_logged h : forall log st, logged log st -> history_ok st h ->
  exists ds, logged (log ++ ds) (ingest_all st h) /\ Forall (fun d => pg_clock st < rd_lsn d) ds /\ adds_up st (ingest_all st h) ds (history_missed st h) /\
    pg_clock st <= pg_clock (ingest_all st h).
Proof.
  induction h as [|i h IH]; intros log st Hlog Hok.
  { exists []. rewrite app_nil_r. split; [done|]. split; [constructor|]. split; [intros ? ?; simpl; lia | done]. }
  destruct Hok as [Hi Hh]. destruct (ingest_logged log st i Hlog Hi) as (a & Ha & Hlow & Hadd & Hle).
  destruct (IH _ _ Ha Hh) as (b & Hb & Hlow' & Hadd' & Hle'). exists (a ++ b). rewrite app_assoc. split; [exact Hb|]. split; [|split; [|by etrans]].
  - apply Forall_app. split; [done|]. eapply Forall_impl; [exact Hlow'|]. simpl. lia.
  - intros t r. specialize (Hadd t r). specialize (Hadd' t r). rewrite net_concat. cbn [ingest_all fold_left history_missed] in *. unfold ingest_all in *. lia.
Qed.

Lemma history_names h : forall st, pg_tables_by_name (ingest_all st h) = pg_tables_by_name st.
Proof. induction h as [|i h IH]; intros st; [done|]. cbn [ingest_all fold_left]. unfold ingest_all in IH. by rewrite IH, ingest_names. Qed.

(** The states of a runtime that was seeded and then ingested. *)
Definition reachable (st : SharedState) : Prop :=
  exists tables capacity lsn rows h, 0 <= lsn /\
    history_ok (seed_snapshot (from_tables tables capacity) lsn rows) h /\ st = ingest_all (seed_snapshot (from_tables tables capacity) lsn rows) h.

Lemma reachable_logged st : reachable st -> exists log, logged log st.
Proof.
  intros (tables & capacity & lsn & rows & h & Hlsn & Hok & ->).
  assert (logged [] (seed_snapshot (from_tables tables capacity) lsn rows)) as Hinit.
  { unfold seed_snapshot, from_tables. destruct (fold_left register_table tables (∅, [])). split; cbn;
      [apply journal_new_is | constructor | constructor | done]. }
  destruct (history_logged h _ _ Hinit Hok) as (ds & Hds & _ & _). by exists ([] ++ ds).
Qed.
End Reconciled.

(** ** A snapshot and its cursor *)

Lemma net_wanted c table r ds :
  table ∈ jc_tables c -> Forall (fun d => jc_from_lsn c < rd_lsn d) ds -> net table r (wanted c ds) = net table r ds.
Proof.
  intros Ht. unfold wanted. induction 1 as [|d ds Hd _ IH]; [done|]. simpl. unfold relevant at 1.
  destruct (Z.ltb_spec (jc_from_lsn c) (rd_lsn d)); [|lia]. cbn [andb].
  destruct (rd_table d) as [t|] eqn:Et; [case_bool_decide as E|]; simpl; rewrite ?Et, IH; [done| |done].
  rewrite bool_decide_eq_false_2; [done|]. intros [Eq _]. congruence.
Qed.

Lemma wanted_sorted c l : lsn_sorted l -> lsn_sorted (wanted c l).
Proof.
  unfold wanted, lsn_sorted. induction 1 as [|d l Hs IH Hd]; simpl; [constructor|]. destruct (relevant c d); [|done].
  constructor; [done | by apply wanted_forall].
Qed.

Lemma wanted_elem c d l : d ∈ wanted c l -> jc_from_lsn c < rd_lsn d /\ exists t, rd_table d = Some t /\ t ∈ jc_tables c.
Proof.
  rewrite list_elem_of_In. unfold wanted. intros [_ Hr]%List.filter_In. unfold relevant in Hr. apply andb_prop in Hr as [Hl Ht].
  split; [lia|]. destruct (rd_table d) as [t|]; [|done]. apply bool_decide_eq_true in Ht. eauto.
Qed.

Section Cursor.
Context `{PetGraph MirNodeKind MirEdgeKind} (parse_and_lower : text -> string + MirGraph).
Context (hash_order : list (Row * Z) -> list (Row * Z)).
Hypothesis hash_order_perm : forall counts, hash_order counts ≡ₚ counts.

Lemma query_tables_names st st' query :
  pg_tables_by_name st' = pg_tables_by_name st -> query_tables parse_and_lower st' query = query_tables parse_and_lower st query.
Proof.
  intros E. unfold query_tables. destruct (parse_query parse_and_lower query) as [g| |]; simpl; [|done..].
  generalize (@nil text) as seen. induction (base_table_names g) as [|n names IH]; intros seen; simpl; [done|]. rewrite E.
  case_bool_decide; [apply IH|]. destruct (pg_tables_by_name st !! _); [by rewrite IH | done].
Qed.

(** The runtime ingests and the cursor polls, in any order. *)
Inductive Turn := T_Ingest (i : Ingest) | T_Poll.

Fixpoint turns (st : SharedState) (c : JournalCursor) (out : list RawDiff) (ts : list Turn) : SharedState * JournalCursor * list RawDiff :=
  match ts with
  | [] => (st, c, out)
  | T_Ingest i :: ts => turns (ingest hash_order st i) c out ts
  | T_Poll :: ts => let '(found, c) := cursor_next_diff (pg_journal st) c in turns st c (out ++ match found with Some d => [d] | None => [] end) ts
  end.
Fixpoint turns_ok (st : SharedState) (ts : list Turn) : Prop :=
  match ts with
  | [] => True
  | T_Ingest i :: ts => ingest_ok st i /\ turns_ok (ingest hash_order st i) ts
  | T_Poll :: ts => turns_ok st ts
  end.

Fixpoint turns_missed (st : SharedState) (ts : list Turn) (table : Z) (r : Row) : Z :=
  match ts with
  | [] => 0
  | T_Ingest i :: ts => ingest_missed st i table r + turns_missed (ingest hash_order st i) ts table r
  | T_Poll :: ts => turns_missed st ts table r
  end.

Lemma turns_read ts : forall log st c out st' c' out',
  logged log st -> cursor_at log c out -> turns_ok st ts -> turns st c out ts = (st', c', out') ->
  exists ds, logged (log ++ ds) st' /\ cursor_at (log ++ ds) c' out' /\ Forall (fun d => pg_clock st < rd_lsn d) ds /\
    adds_up st st' ds (turns_missed st ts) /\ jc_from_lsn c' = jc_from_lsn c /\ jc_tables c' = jc_tables c.
Proof.
  induction ts as [|[i|] ts IH]; intros log st c out st' c' out' Hlog Hc Hok Hrun.
  - injection Hrun as <- <- <-. exists []. rewrite app_nil_r. split; [done|]. split; [done|].
    split; [constructor|]. split; [intros ? ?; simpl; lia | done].
  - destruct Hok as [Hi Hok]. destruct (ingest_logged hash_order hash_order_perm log st i Hlog Hi) as (a & Ha & Hlow & Hadd & Hle).
    destruct (IH _ _ _ _ _ _ _ Ha (cursor_at_grows _ a _ _ Hc) Hok Hrun) as (b & Hb & Hcb & Hlow' & Hadd' & ? & ?).
    exists (a ++ b). rewrite app_assoc. split; [done|]. split; [done|]. split; [|split; [|done]].
    + apply Forall_app. split; [done|]. eapply Forall_impl; [exact Hlow'|]. simpl. lia.
    + intros t r. cbn [turns_missed]. rewrite Hadd', Hadd, net_concat. lia.
  - cbn [turns] in Hrun. destruct (cursor_next_diff (pg_journal st) c) as [found c1] eqn:En.
    assert (jc_from_lsn c1 = jc_from_lsn c /\ jc_tables c1 = jc_tables c) as [<- <-].
    { unfold cursor_next_diff in En. destruct (jc_poisoned c); [by injection En as _ <-|]. destruct (_ <? _); [by injection En as _ <-|].
      destruct (scan _ _ _). by injection En as _ <-. }
    destruct (next_diff_reads log _ c out found c1 (lg_journal _ _ Hlog) Hc En) as [Hfound _].
    eapply IH; [done | | exact Hok | exact Hrun]. destruct found; [done|]. rewrite app_nil_r. apply Hfound.
Qed.

Context `{EvalRuntime}.

End Cursor.
