(* ===== verification/PostgresPump.v ===== *)
(** * PostgresPump: a subscription over the Postgres runtime

    The pump of a shared plan drains its journal cursor at every tick while the
    runtime keeps ingesting. The transactions it finds are the journal's diffs cut
    at their LSNs; through the plan and the router they bring the client from the
    snapshot to the rows of the query on the current mirror. *)

From stdpp Require Import gmap.
From stdpp Require Import sorting.
From S2P Require Import Prelude BTree Text Values UserContext Watermarks Shared Registry Protocol WalSource Channel Cursor Pairing Permissions.
From S2P Require Import Literals Floats Datums Exprs Like Eval Mir Consolidation Operators Relational RelationalFacts CompileMir Install Rewriter.
From S2P Require Import Congruence Router RouterSpec ProtoWire Transport Client EndToEnd Security Host Service ServiceFacts Postgres PostgresFacts.

(** ** Draining a cursor *)

Section Drain.
Context {C : Type} `{TraceCursor C}.

(** [while let Some(transaction) = cursor.next_transaction()]. *)
Fixpoint drain_fuel (fuel : nat) (c : C) : list QueryTransactionDelta * C :=
  match fuel with
  | O => ([], c)
  | S fuel =>
      match next_transaction c with
      | Some (transaction, c) => let '(rest, c) := drain_fuel fuel c in (transaction :: rest, c)
      | None => ([], c)
      end
  end.
Definition drain (c : C) : list QueryTransactionDelta * C := drain_fuel (S (available c)) c.

(** The steps a cursor makes while it surfaces diffs. *)
Inductive polls : C -> list RawDiff -> C -> Prop :=
| polls_nil c : polls c [] c
| polls_cons c d c1 ds c' : next_diff c = Some (d, c1) -> polls c1 ds c' -> polls c (d :: ds) c'.

Lemma polls_app c a c1 b c' : polls c a c1 -> polls c1 b c' -> polls c (a ++ b) c'.
Proof. induction 1; [done|]. intros Hb. econstructor; eauto. Qed.
Lemma batch_loop_polls fuel lsn : forall c run c', batch_loop fuel lsn c = (run, c') -> polls c run c'.
Proof.
  induction fuel as [|fuel IH]; intros c run c' E; cbn [batch_loop] in E; [injection E as <- <-; constructor|].
  destruct (peek_lsn c) as [n|]; [|injection E as <- <-; constructor]. destruct (negb _); [injection E as <- <-; constructor|].
  destruct (next_diff c) as [[d c1]|] eqn:Ed; [|injection E as <- <-; constructor].
  destruct (batch_loop fuel lsn c1) as [rest c2] eqn:El. injection E as <- <-. econstructor; [done | by apply IH].
Qed.
Lemma drain_polls fuel : forall c ts c', drain_fuel fuel c = (ts, c') -> polls c (concat (map qd_diffs ts)) c'.
Proof.
  induction fuel as [|fuel IH]; intros c ts c' E; cbn [drain_fuel] in E; [injection E as <- <-; constructor|].
  unfold next_transaction, next_batch in E. destruct (next_diff c) as [[d c1]|] eqn:Ed; [|injection E as <- <-; constructor].
  destruct (batch_loop (S (available c1)) (rd_lsn d) c1) as [run c2] eqn:El. apply batch_loop_polls in El.
  destruct (drain_fuel fuel c2) as [ts' c3] eqn:Er. injection E as <- <-. apply IH in Er. simpl.
  econstructor; [done|]. by eapply polls_app.
Qed.

Context `{!PeekingCursor C}.

Lemma drain_remaining fuel : forall c : C, (length (remaining c) < fuel)%nat ->
  exists c', drain_fuel fuel c = (map delta_of_batch (lsn_runs (remaining c)), c') /\ remaining c' = [].
Proof.
  induction fuel as [|fuel IH]; intros c Hf; [lia|]. cbn [drain_fuel]. pose proof (next_transaction_remaining c) as Hn.
  destruct (next_transaction c) as [[d c2]|]; [|rewrite Hn; by exists c]. destruct Hn as (b & -> & -> & Hlt & _).
  destruct (IH c2) as (c3 & -> & E3); [lia|]. by exists c3.
Qed.

Lemma drain_runs (c : C) : exists c', drain c = (map delta_of_batch (lsn_runs (remaining c)), c') /\ remaining c' = [].
Proof. apply drain_remaining. pose proof (remaining_available c). lia. Qed.
End Drain.

(** What is left for a journal cursor; nothing once it is parked. *)
Definition parked (j : Journal) (c : JournalCursor) : bool := jc_poisoned c || (jc_next_seq c <? j_base_seq j).
Definition journal_remaining (c : Journal * JournalCursor) : list RawDiff :=
  if parked c.1 c.2 then [] else wanted c.2 (unseen c.1 c.2).

Lemma wanted_head c l : head (wanted c l) = List.find (relevant c) l.
Proof. unfold wanted. induction l as [|e l IH]; simpl; [done|]. by destruct (relevant c e). Qed.

Lemma journal_remaining_next (c : Journal * JournalCursor) :
  match journal_remaining c with
  | [] => next_diff c = None
  | d :: rest => exists c', next_diff c = Some (d, c') /\ journal_remaining c' = rest
  end.
Proof.
  destruct c as [j c]. unfold journal_remaining, parked. cbn [fst snd next_diff Journal_TraceCursor].
  destruct (cursor_next_diff j c) as [[d|] c'] eqn:E.
  - pose proof (next_diff_found _ _ _ _ E) as (Hp & Hb & Hp' & Hf & Ht & Hd & skipped & Hu & Hs & Hseq).
    assert (forall l, wanted c' l = wanted c l) as Hsame.
    { intros l. by apply wanted_same. }
    rewrite Hp. destruct (Z.ltb_spec (jc_next_seq c) (j_base_seq j)); [lia|]. cbn [orb].
    rewrite Hu, wanted_app, (wanted_none c skipped Hs). unfold wanted at 1. simpl. rewrite Hd. exists (j, c'). split; [done|].
    cbn [fst snd]. rewrite Hp'. destruct (Z.ltb_spec (jc_next_seq c') (j_base_seq j)); [lia|]. cbn [orb]. by rewrite Hsame.
  - unfold cursor_next_diff in E. destruct (jc_poisoned c); [done|]. destruct (jc_next_seq c <? j_base_seq j); [done|]. cbn [orb].
    destruct (scan c (unseen j c) (jc_next_seq c)) as [f n] eqn:Es. injection E as -> <-. apply scan_none in Es as [Hs _].
    by rewrite (wanted_none c _ Hs).
Qed.
Lemma journal_remaining_peek (c : Journal * JournalCursor) : peek_lsn c = rd_lsn <$> head (journal_remaining c).
Proof.
  destruct c as [j c]. unfold journal_remaining, parked. cbn [fst snd peek_lsn Journal_TraceCursor]. unfold cursor_peek_lsn.
  destruct (jc_poisoned c); [done|]. destruct (_ <? _); [done|]. cbn [orb]. by rewrite wanted_head.
Qed.
Lemma journal_remaining_available (c : Journal * JournalCursor) : (length (journal_remaining c) <= available c)%nat.
Proof.
  destruct c as [j c]. unfold journal_remaining. cbn [fst snd available Journal_TraceCursor]. destruct (parked j c); [simpl; lia|].
  unfold wanted. apply length_filter_le.
Qed.

#[export] Instance Journal_PeekingCursor : PeekingCursor (Journal * JournalCursor) :=
  {| remaining := journal_remaining; remaining_next := journal_remaining_next; remaining_peek := journal_remaining_peek;
     remaining_available := journal_remaining_available |}.

Lemma drain_journal j c :
  exists c', drain (j, c) = (map delta_of_batch (lsn_runs (journal_remaining (j, c))), c') /\ journal_remaining c' = [].
Proof. exact (drain_runs (C := Journal * JournalCursor) (j, c)). Qed.

(** ** Ticks of the pump *)

Lemma polls_journal (c : Journal * JournalCursor) ds c' : polls c ds c' -> c'.1 = c.1.
Proof.
  induction 1 as [|[j c] d c1 ds c' Hd _ IH]; [done|]. rewrite IH. cbn in Hd. destruct (cursor_next_diff j c) as [[d'|] c2]; [|done].
  by injection Hd as _ <-.
Qed.

Lemma polls_read log j c ds c' out : journal_is log j -> cursor_at log c out -> polls (j, c) ds c' ->
  c'.1 = j /\ cursor_at log c'.2 (out ++ ds) /\ jc_from_lsn c'.2 = jc_from_lsn c /\ jc_tables c'.2 = jc_tables c /\
  parked j c'.2 = parked j c.
Proof.
  intros Hj Hc Hp. remember (j, c) as jc eqn:E. revert c E out Hc. induction Hp as [jc|jc d c1 ds c' Hd _ IH]; intros c -> out Hc.
  { rewrite app_nil_r. done. }
  cbn in Hd. destruct (cursor_next_diff j c) as [[d'|] c2] eqn:En; [|done]. injection Hd as -> <-.
  pose proof (next_diff_found _ _ _ _ En) as (Hp & Hb & Hp' & Hf & Ht & _ & skipped & _ & _ & Hseq).
  destruct (next_diff_reads log j c out _ _ Hj Hc En) as [Hc2 _].
  destruct (IH c2 eq_refl _ Hc2) as (? & Hat & Ef & Et & Epk). rewrite <- app_assoc in Hat. split; [done|]. split; [done|].
  split; [congruence|]. split; [congruence|]. rewrite Epk. unfold parked. rewrite Hp, Hp'.
  destruct (Z.ltb_spec (jc_next_seq c2) (j_base_seq j)), (Z.ltb_spec (jc_next_seq c) (j_base_seq j)); lia || done.
Qed.

Lemma ordered_join time a b : ordered time a -> ordered (time_after time a) b -> ordered time (a ++ b).
Proof. revert time. induction a as [|x a IH]; intros time; simpl; [done|]. intros [Ht Ho] Hb. split; [done | by apply IH]. Qed.

Section Ticks.
Context `{PetGraph MirNodeKind MirEdgeKind} `{EvalRuntime}.
Context (plan : CompiledPlan) (hash_order : list (Row * Z) -> list (Row * Z)).
Hypothesis hash_order_perm : forall counts, hash_order counts ≡ₚ counts.

(** Between two ticks the runtime ingests; a tick drains the cursor. *)
Fixpoint ticks (st : SharedState) (c : JournalCursor) (hs : list (list Ingest)) : SharedState * JournalCursor * list (list QueryTransactionDelta) :=
  match hs with
  | [] => (st, c, [])
  | h :: hs =>
      let st := ingest_all hash_order st h in
      let '(ts, c) := drain (pg_journal st, c) in
      let '(st, c, rest) := ticks st c.2 hs in
      (st, c, ts :: rest)
  end.
Fixpoint ticks_ok (st : SharedState) (hs : list (list Ingest)) : Prop :=
  match hs with [] => True | h :: hs => history_ok hash_order st h /\ history_retracts hash_order st h /\ ticks_ok (ingest_all hash_order st h) hs end.

(** LSNs below the last one, as a [u64] that has a successor. *)
Definition bounded (l : list RawDiff) : Prop := Forall (fun d => rd_lsn d < U64_MAX) l.

Lemma runs_forall (P : Z -> Prop) l : Forall (fun d => P (rd_lsn d)) l -> Forall (fun b => P (lb_lsn b)) (lsn_runs l).
Proof.
  induction 1 as [|d l Hd _ IH]; simpl; [constructor|]. destruct (lsn_runs l) as [|b bs]; [by repeat constructor|].
  inversion IH; subst. destruct (rd_lsn d =? lb_lsn b); by repeat constructor.
Qed.

Abbreviation batches bs := (map (batch_of plan) (map delta_of_batch bs)).

(** The batches of a sorted list of diffs come at increasing LSNs. *)
Lemma batches_ordered bs : forall low,
  StronglySorted Z.lt (map lb_lsn bs) -> Forall (fun b => low <= lb_lsn b) bs -> Forall (fun b => lb_lsn b < U64_MAX) bs ->
  ordered low (batches bs).
Proof.
  induction bs as [|b bs IH]; intros low Hs Hl Hb; simpl; [done|]. inversion Hs as [|? ? Hs' Hlt]; subst. inversion Hl; inversion Hb; subst.
  split; [done|]. apply IH; [done | | done]. rewrite Forall_map in Hlt. eapply Forall_impl; [exact Hlt|]. simpl. lia.
Qed.
Lemma batches_time bs : forall low clock, low <= clock + 1 -> Forall (fun b => lb_lsn b <= clock) bs -> time_after low (batches bs) <= clock + 1.
Proof. induction bs as [|b bs IH]; intros low clock Hl Hb; simpl; [done|]. inversion Hb; subst. apply IH; [lia | done]. Qed.

(** The cursor has surfaced [out], what it has not is above [low]. *)
Record pumping (log : list RawDiff) (st : SharedState) (c : JournalCursor) (out : list RawDiff) (low : Z) : Prop := {
  pu_logged : logged log st;
  pu_cursor : cursor_at log c out;
  pu_low : low <= pg_clock st + 1;
  pu_unread : Forall (fun d => low <= rd_lsn d) (wanted c (drop (Z.to_nat (jc_next_seq c)) log))
}.

Lemma pumping_ingest log st c out low h : pumping log st c out low -> history_ok hash_order st h -> history_retracts hash_order st h ->
  exists ds, pumping (log ++ ds) (ingest_all hash_order st h) c out low /\ adds_up st (ingest_all hash_order st h) ds none_missed /\
    Forall (fun d => pg_clock st < rd_lsn d) ds /\ pg_clock st <= pg_clock (ingest_all hash_order st h).
Proof.
  intros [Hlog Hc Hlow Hun] Hok Hret. destruct (history_logged hash_order hash_order_perm h log st Hlog Hok) as (ds & Hds & Hgt & Hadd & Hle).
  exists ds. split; [|split; [|done]; intros t r; by rewrite Hadd, (history_retracts_missed hash_order h t r st Hret)]. pose proof (ca_within _ _ _ Hc) as Hw. split; [done | by apply cursor_at_grows | lia |].
  rewrite drop_app_le by lia. rewrite wanted_app. apply Forall_app. split; [done|].
  apply wanted_forall. eapply Forall_impl; [exact Hgt|]. simpl. lia.
Qed.

Lemma pumping_drain log st c out low ts c' : pumping log st c out low -> bounded log -> drain (pg_journal st, c) = (ts, c') ->
  ordered low (map (batch_of plan) ts) /\ pumping log st c'.2 (out ++ concat (map qd_diffs ts)) (time_after low (map (batch_of plan) ts)) /\
  jc_from_lsn c'.2 = jc_from_lsn c /\ jc_tables c'.2 = jc_tables c.
Proof.
  intros [Hlog Hc Hlow Hun] Hb Hd. pose proof (lg_journal _ _ Hlog) as Hj.
  destruct (drain_journal (pg_journal st) c) as (c1 & Hd' & Hrem). rewrite Hd in Hd'. injection Hd' as Ets <-.
  pose proof Hd as Hp. unfold drain in Hp. apply drain_polls in Hp.
  destruct (polls_read log _ c _ c' out Hj Hc Hp) as (Ej & Hc' & Ef & Et & Epk).
  set (l := journal_remaining (pg_journal st, c)) in *.
  assert (Forall (fun d => low <= rd_lsn d) l /\ Forall (fun d => rd_lsn d <= pg_clock st) l /\ bounded l /\ lsn_sorted l) as (Hl1 & Hl2 & Hl3 & Hsort).
  { subst l. unfold journal_remaining. cbn [fst snd]. destruct (parked (pg_journal st) c) eqn:Ep; [repeat split; constructor|].
    unfold parked in Ep. apply orb_false_iff in Ep as [_ Ep]. rewrite (unseen_log log) by (done || lia). split; [done|].
    split; [|split]; [apply wanted_forall, Forall_drop .. |].
    - eapply Forall_impl; [apply (lg_stamps _ _ Hlog)|]. by intros d [? _].
    - done.
    - apply wanted_sorted. pose proof (lg_sorted _ _ Hlog) as Hs. rewrite <- (take_drop (Z.to_nat (jc_next_seq c)) log) in Hs.
      by eapply StronglySorted_app_1_r. }
  assert (forall x, wanted c'.2 x = wanted c x) as Hsame by (intros x; by apply wanted_same).
  assert (concat (map qd_diffs ts) = l) as Ediffs.
  { rewrite Ets, map_map. cbn [qd_diffs delta_of_batch]. apply lsn_runs_concat. }
  assert (parked (pg_journal st) c = false -> wanted c'.2 (drop (Z.to_nat (jc_next_seq c'.2)) log) = []) as Hrest.
  { intros Ep. rewrite <- Epk in Ep. unfold journal_remaining in Hrem. rewrite Ej, Ep in Hrem.
    apply orb_false_iff in Ep as [_ Ep]. rewrite (unseen_log log) in Hrem; [done..|lia]. }
  split; [|split; [split|]]; [| done | exact Hc' | | |].
  - rewrite Ets. apply batches_ordered; [by apply lsn_runs_strict | by apply (runs_forall (fun x => low <= x)) | by apply (runs_forall (fun x => x < U64_MAX))].
  - rewrite Ets. apply batches_time; [done | by apply (runs_forall (fun x => x <= pg_clock st))].
  - destruct (parked (pg_journal st) c) eqn:Ep.
    + assert (l = []) as El by (subst l; unfold journal_remaining; cbn [fst snd]; by rewrite Ep).
      assert (ts = []) as -> by (rewrite Ets, El; done). cbn [map concat] in Hp. inversion Hp; subst. done.
    + rewrite Hrest by done. constructor.
  - done.
Qed.
Lemma logged_bounded log st : logged log st -> pg_clock st < U64_MAX -> bounded log.
Proof. intros Hl Hc. eapply Forall_impl; [apply (lg_stamps _ _ Hl)|]. simpl. intros d [? _]. lia. Qed.

Lemma ticks_clock hs : forall log st c st' c' tss,
  logged log st -> ticks_ok st hs -> ticks st c hs = (st', c', tss) -> pg_clock st <= pg_clock st'.
Proof.
  induction hs as [|h hs IH]; intros log st c st' c' tss Hlog Hok Hrun; [by injection Hrun as <- _ _|].
  destruct Hok as (Hh & _ & Hok). destruct (history_logged hash_order hash_order_perm h log st Hlog Hh) as (ds & Hds & _ & _ & Hle).
  cbn [ticks] in Hrun. destruct (drain _) as [ts c1]. destruct (ticks _ c1.2 hs) as [[st2 c2] rest] eqn:Er. injection Hrun as <- <- <-.
  etrans; [exact Hle|]. by eapply IH.
Qed.

(** What a run of ticks hands to the plan. *)
Lemma ticks_read hs : forall log st c out low st' c' tss,
  pumping log st c out low -> ticks_ok st hs -> ticks st c hs = (st', c', tss) -> pg_clock st' < U64_MAX ->
  exists ds, ordered low (map (batch_of plan) (concat tss)) /\ cursor_at (log ++ ds) c' (out ++ concat (map qd_diffs (concat tss))) /\
    logged (log ++ ds) st' /\ adds_up st st' ds none_missed /\ Forall (fun d => pg_clock st < rd_lsn d) ds /\
    jc_from_lsn c' = jc_from_lsn c /\ jc_tables c' = jc_tables c.
Proof.
  induction hs as [|h hs IH]; intros log st c out low st' c' tss Hpu Hok Hrun Hmax.
  { injection Hrun as <- <- <-. exists []. cbn [concat map]. rewrite !app_nil_r.
    repeat split; try apply Hpu; [intros ? ?; simpl; lia | constructor]. }
  destruct Hok as (Hh & Hret & Hok). cbn [ticks] in Hrun.
  destruct (pumping_ingest log st c out low h Hpu Hh Hret) as (a & Ha & Hadd & Hlow & Hle). set (st1 := ingest_all hash_order st h) in *.
  destruct (drain (pg_journal st1, c)) as [ts c1] eqn:Ed. destruct (ticks st1 c1.2 hs) as [[st2 c2] rest] eqn:Er. injection Hrun as <- <- <-.
  pose proof (ticks_clock hs _ _ _ _ _ _ (pu_logged _ _ _ _ _ Ha) Hok Er) as Hle2.
  destruct (pumping_drain _ _ _ _ _ ts c1 Ha (logged_bounded _ _ (pu_logged _ _ _ _ _ Ha) ltac:(lia)) Ed) as (Ho & Hpu1 & Ef & Et).
  destruct (IH _ _ _ _ _ _ _ _ Hpu1 Hok Er Hmax) as (b & Hob & Hcb & Hlb & Hadb & Hlowb & Ef' & Et').
  exists (a ++ b). cbn [concat]. rewrite !map_app, concat_app, !app_assoc in *. split; [by apply ordered_join|].
  split; [done|]. split; [done|]. split; [|split; [|split; congruence]].
  - intros t r. rewrite Hadb, Hadd, net_concat. lia.
  - apply Forall_app. split; [done|]. eapply Forall_impl; [exact Hlowb|]. simpl. lia.
Qed.

(** After a tick nothing is left to read. *)
Lemma ticks_caught_up hs : forall st c st' c' tss,
  hs <> [] -> ticks st c hs = (st', c', tss) -> journal_remaining (pg_journal st', c') = [].
Proof.
  induction hs as [|h hs IH]; intros st c st' c' tss Hne Hrun; [done|]. cbn [ticks] in Hrun. set (st1 := ingest_all hash_order st h) in *.
  destruct (drain_journal (pg_journal st1) c) as (c1 & Hd & Hrem). rewrite Hd in Hrun. unfold drain in Hd. apply drain_polls, polls_journal in Hd. cbn [fst] in Hd.
  destruct (ticks st1 c1.2 hs) as [[st2 c2] rest] eqn:Er. injection Hrun as <- <- <-. destruct hs as [|h2 hs]; [|by eapply IH].
  injection Er as <- <- <-. rewrite <- Hd. by destruct c1.
Qed.
Lemma caught_up log j c out : journal_is log j -> cursor_at log c out -> parked j c = false -> journal_remaining (j, c) = [] -> out = wanted c log.
Proof.
  intros Hj Hc Hp Hr. unfold journal_remaining in Hr. cbn [fst snd] in Hr. rewrite Hp in Hr. apply orb_false_iff in Hp as [_ Hp].
  rewrite (unseen_log log) in Hr by (done || lia). pose proof (ca_out _ _ _ Hc) as Ho.
  rewrite <- (take_drop (Z.to_nat (jc_next_seq c)) log), wanted_app, Hr, app_nil_r. done.
Qed.
End Ticks.

(** ** The tables of the plan follow the mirror *)

Section Tables.
Context `{PetGraph MirNodeKind MirEdgeKind} (plan : CompiledPlan).

Lemma attributed_app a b : attributed plan (a ++ b) = attributed plan a ++ attributed plan b.
Proof. apply filter_map_app. Qed.
Lemma batches_attributed ts : concat (map fst (map (batch_of plan) ts)) = attributed plan (concat (map qd_diffs ts)).
Proof. induction ts as [|t ts IH]; [done|]. cbn [map concat fst batch_of]. by rewrite IH, attributed_app. Qed.

Lemma attributed_net table r ds :
  Forall (fun d => is_Some (rd_table d)) ds -> mult r (of_table table (attributed plan ds)) = net table r ds.
Proof.
  unfold of_table, attributed. induction 1 as [|d ds [t Ht] _ IH]; [done|]. simpl. rewrite Ht. simpl.
  case_bool_decide as E; simpl.
  - subst t. unfold mult in *. simpl. rewrite IH. f_equal. destruct (ord_eqb_spec (rd_row d) r) as [<-|Hr]; simpl.
    + rewrite bool_decide_eq_true_2 by done. lia.
    + rewrite bool_decide_eq_false_2 by naive_solver. lia.
  - rewrite IH, bool_decide_eq_false_2; [done|]. naive_solver.
Qed.

(** Snapshot rows plus the diffs read since are the rows of the mirror. *)
Lemma tables_follow (seed mirror : gmap Z (list Row)) ts :
  Forall (fun d => is_Some (rd_table d)) (concat (map qd_diffs ts)) ->
  (forall t r, t ∈ cp_inputs plan ->
     occurrences r (mirrored mirror t) = occurrences r (mirrored seed t) + net t r (concat (map qd_diffs ts))) ->
  forall t, option_Forall2 (≡@{collection Row}) (tables_after (snapshot_collections plan seed) (map (batch_of plan) ts) !! t)
    (snapshot_collections plan mirror !! t).
Proof.
  intros Hl Hrows t. unfold tables_after. rewrite accumulate_lookup, batches_attributed. unfold snapshot_collections.
  rewrite (table_map_lookup (fun t => plus_ones (default [] (seed !! t)))), (table_map_lookup (fun t => plus_ones (default [] (mirror !! t)))).
  case_bool_decide as Ht; constructor. intros r. rewrite mult_app, attributed_net by done. unfold plus_ones. rewrite !mult_ones.
  symmetry. by apply Hrows.
Qed.
End Tables.

(** ** Many ticks are one drain *)

Section Ticking.
Context `{Rendering} `{EvalRuntime} `{PetGraph MirNodeKind MirEdgeKind} `{Mpsc DiffEvent}.
Context (rounds : nat) (canonical : string) (plan : CompiledPlan) (primary_key : list nat).

(** The pump, tick after tick, until the plan is released. *)
Fixpoint pump_ticks (sv : Server) (tss : list (list QueryTransactionDelta)) : installed (option Server) :=
  match tss with
  | [] => Ok (Some sv)
  | ts :: rest =>
      let? next := pump_tick rounds sv canonical plan primary_key ts in
      match next with None => Ok None | Some sv => pump_ticks sv rest end
  end.

Lemma pump_one_hosted sv tx sv' : pump_one rounds sv canonical plan primary_key tx = Ok (Some sv') -> is_Some (sv_host sv' !! canonical).
Proof.
  unfold pump_one, apply_and_fanout. destruct (sv_host sv !! canonical) as [ps|] eqn:Es; [|done].
  destruct (apply _ _ _ _) as [[deltas dataflow]| |]; cbn [exec_bind]; [|done..].
  destruct deltas; [|destruct (pair_transaction_into_event _ _); [|done..]];
    intros [= <-]; eexists; exact (lookup_insert_eq (sv_host sv : gmap string PlanState) canonical _).
Qed.
Lemma pump_drain_hosted txs : forall sv sv', is_Some (sv_host sv !! canonical) ->
  pump_drain rounds sv canonical plan primary_key txs = Ok (Some sv') -> is_Some (sv_host sv' !! canonical).
Proof.
  induction txs as [|tx txs IH]; intros sv sv' Hs; [by intros [= <-]|]. cbn [pump_drain].
  destruct (pump_one _ _ _ _ _ _) as [[sv1|]| |] eqn:E; cbn [exec_bind]; [|done..]. by apply IH, pump_one_hosted with sv tx.
Qed.
Lemma pump_drain_app a b : forall sv,
  pump_drain rounds sv canonical plan primary_key (a ++ b) =
  let? next := pump_drain rounds sv canonical plan primary_key a in
  match next with None => Ok None | Some sv => pump_drain rounds sv canonical plan primary_key b end.
Proof.
  induction a as [|tx a IH]; intros sv; [done|]. cbn [pump_drain app]. destruct (pump_one _ _ _ _ _ _) as [[sv1|]| |]; cbn [exec_bind]; [|done..].
  apply IH.
Qed.
Lemma pump_ticks_drain tss : forall sv sv', is_Some (sv_host sv !! canonical) ->
  pump_drain rounds sv canonical plan primary_key (concat tss) = Ok (Some sv') -> pump_ticks sv tss = Ok (Some sv').
Proof.
  induction tss as [|ts tss IH]; intros sv sv' Hs Hd; [done|]. cbn [concat] in Hd. rewrite pump_drain_app in Hd.
  cbn [pump_ticks]. unfold pump_tick, host_subscribers. pose proof Hs as [ps Hps]. rewrite Hps. cbn [fmap option_fmap option_map].
  destruct (pump_drain _ _ _ _ _ ts) as [[sv1|]| |] eqn:E; cbn [exec_bind] in *; [|done..].
  apply IH; [by eapply pump_drain_hosted | done].
Qed.
End Ticking.

(** ** From the database to the client *)

Lemma snapshot_mirrors st tables t :
  t ∈ map it_id tables ->
  mirrored (snapshot_inputs {| sb_snapshot_lsn := pg_clock st; sb_rows := snapshot_rows st tables |}) t = mirrored (pg_mirror st) t.
Proof.
  unfold snapshot_inputs, snapshot_rows, mirrored. cbn [sb_rows]. intros Ht.
  assert (forall l (m : gmap Z (list Row)), default [] (m !! t) = default [] (pg_mirror st !! t) \/ t ∈ map it_id l ->
    default [] (fold_left (fun m x => <[st_table x := st_rows x]> m)
      (map (fun t => {| st_table := it_id t; st_rows := default [] (pg_mirror st !! it_id t) |}) l) m !! t) = default [] (pg_mirror st !! t)) as Hl; [|by apply Hl; right].
  clear Ht. induction l as [|x l IH]; intros m Hm; simpl; [destruct Hm as [|Hm%elem_of_nil]; done|]. apply IH.
  destruct (decide (it_id x = t)) as [<-|Hne]; [left; by rewrite lookup_insert_eq|]. rewrite lookup_insert_ne by done.
  destruct Hm as [|[->|]%elem_of_cons]; auto. done.
Qed.

Section Database.
Context `{Rendering} `{EvalRuntime} `{PetGraph MirNodeKind MirEdgeKind} `{Mpsc DiffEvent} `{Bincode}.
Context (config : RouterConfig) (rounds : nat) (acyclic : MirGraph -> bool).
Context (parse_and_lower : text -> string + MirGraph) (display_compile : CompileError -> string).
Context (hash_order : list (Row * Z) -> list (Row * Z)).
Hypothesis hash_order_perm : forall counts, hash_order counts ≡ₚ counts.

(** The cursor of a pump, opened on a runtime that may have moved on since the snapshot. *)
Lemma pump_starts st0 query batch h c :
  reachable hash_order st0 -> pg_fetch_snapshot parse_and_lower st0 query = Ok batch -> history_ok hash_order st0 h -> history_retracts hash_order st0 h ->
  open_cursor parse_and_lower (ingest_all hash_order st0 h) query (sb_snapshot_lsn batch) = Ok c ->
  0 <= sb_snapshot_lsn batch /\ jc_from_lsn c = sb_snapshot_lsn batch /\ (forall t, t ∈ jc_tables c <-> t ∈ map st_table (sb_rows batch)) /\
  (forall t, t ∈ map st_table (sb_rows batch) -> mirrored (snapshot_inputs batch) t = mirrored (pg_mirror st0) t) /\
  exists log0 ds, Forall (fun d => rd_lsn d <= sb_snapshot_lsn batch) log0 /\ Forall (fun d => sb_snapshot_lsn batch < rd_lsn d) ds /\
    pumping (log0 ++ ds) (ingest_all hash_order st0 h) c [] (sb_snapshot_lsn batch + 1) /\ adds_up st0 (ingest_all hash_order st0 h) ds none_missed /\
    sb_snapshot_lsn batch <= pg_clock (ingest_all hash_order st0 h).
Proof.
  intros Hreach Hfetch Hh Hret Hopen. destruct (reachable_logged hash_order hash_order_perm st0 Hreach) as [log0 Hlog0].
  destruct (history_logged hash_order hash_order_perm h log0 st0 Hlog0 Hh) as (a & Ha & Hlow & Hadd0 & Hmono).
  assert (adds_up st0 (ingest_all hash_order st0 h) a none_missed) as Hadd
    by (intros t r; by rewrite Hadd0, (history_retracts_missed hash_order h t r st0 Hret)).
  set (st1 := ingest_all hash_order st0 h) in *.
  unfold pg_fetch_snapshot in Hfetch. apply exec_bind_ok in Hfetch as ([] & _ & Hfetch). apply exec_bind_ok in Hfetch as (tables & Htables & [= <-]).
  unfold open_cursor in Hopen. apply exec_bind_ok in Hopen as ([] & _ & Hopen). apply exec_bind_ok in Hopen as (tables' & Htables' & Hopen).
  rewrite (query_tables_names _ st0) in Htables' by apply history_names. rewrite Htables in Htables'. injection Htables' as <-.
  cbn [sb_snapshot_lsn] in *. destruct (Z.ltb_spec (pg_clock st0) (j_truncated_through (pg_journal st1))) as [|Hcover]; [done|].
  injection Hopen as <-. assert (map st_table (snapshot_rows st0 tables) = map it_id tables) as Eids by (unfold snapshot_rows; by rewrite map_map).
  cbn [jc_from_lsn jc_tables sb_rows]. rewrite Eids. split; [apply Hlog0|]. split; [done|]. split; [intros t; apply elem_of_list_to_set|].
  split; [by apply snapshot_mirrors|]. exists log0, a. pose proof (lg_stamps _ _ Hlog0) as Hst.
  split; [eapply Forall_impl; [exact Hst|]; by intros d [? _]|]. split; [done|]. split; [|done].
  split; [done | by apply open_cursor_at, Hcover; apply Ha | lia |].
  apply Forall_forall. intros d [Hd _]%wanted_elem. cbn [jc_from_lsn] in Hd. lia.
Qed.

(** The tables a caught-up pump has fed to the plan are those of the mirror. *)
Lemma pump_follows plan st0 query batch h c hs st c' tss :
  reachable hash_order st0 -> pg_fetch_snapshot parse_and_lower st0 query = Ok batch -> history_ok hash_order st0 h -> history_retracts hash_order st0 h ->
  open_cursor parse_and_lower (ingest_all hash_order st0 h) query (sb_snapshot_lsn batch) = Ok c ->
  ticks_ok hash_order (ingest_all hash_order st0 h) hs -> ticks hash_order (ingest_all hash_order st0 h) c hs = (st, c', tss) ->
  hs <> [] -> parked (pg_journal st) c' = false -> pg_clock st < U64_MAX ->
  (forall t, t ∈ cp_inputs plan -> t ∈ map st_table (sb_rows batch)) ->
  0 <= sb_snapshot_lsn batch /\ ordered (sb_snapshot_lsn batch + 1) (map (batch_of plan) (concat tss)) /\
  forall t, option_Forall2 (≡@{collection Row})
    (tables_after (snapshot_collections plan (snapshot_inputs batch)) (map (batch_of plan) (concat tss)) !! t) (snapshot_collections plan (pg_mirror st) !! t).
Proof.
  intros Hreach Hfetch Hh Hret Hopen Hok Hrun Hne Hp Hmax Hsub.
  destruct (pump_starts _ _ _ _ _ Hreach Hfetch Hh Hret Hopen) as (Hlsn & Ef & Et & Hsnap & log0 & a & Hlow0 & Hlow & Hpu & Hadd & Hmono).
  destruct (ticks_read plan hash_order hash_order_perm hs _ _ _ _ _ _ _ _ Hpu Hok Hrun Hmax) as (b & Ho & Hc & Hlog & Hadb & Hlowb & Ef' & Et').
  split; [done|]. split; [done|]. cbn [app] in Hc.
  pose proof (caught_up _ _ _ _ (lg_journal _ _ Hlog) Hc Hp (ticks_caught_up hash_order hs _ _ _ _ _ Hne Hrun)) as Eread.
  assert (Forall (fun d => jc_from_lsn c' < rd_lsn d) (a ++ b)) as Hnew.
  { rewrite Ef', Ef. apply Forall_app. split; [done|]. eapply Forall_impl; [exact Hlowb|]. simpl. lia. }
  apply tables_follow.
  - rewrite Eread. apply wanted_forall. eapply Forall_impl; [apply (lg_stamps _ _ Hlog)|]. by intros d [_ ?].
  - intros t r Ht. specialize (Hsub t Ht). rewrite (Hsnap t Hsub), Eread, <- app_assoc, wanted_app, net_concat.
    rewrite (wanted_none c' log0), net_wanted; [| by rewrite Et', Et | done |].
    + rewrite net_concat, Hadb, Hadd. simpl. lia.
    + eapply Forall_impl; [exact Hlow0|]. simpl. intros d Hd. unfold relevant. rewrite Ef', Ef.
      destruct (Z.ltb_spec (sb_snapshot_lsn batch) (rd_lsn d)); [lia | done].
Qed.

Lemma result_transfer s R out out' : out ≡ out' -> is_result s R out -> is_result s R out'.
Proof. intros E [Hc HR]. split; [by rewrite <- (consolidated_proper _ _ E) | done]. Qed.

End Database.
