(* ===== verification/Walsender.v ===== *)
(** * Walsender: the replication connection
    ([crates/palimpsest-postgres/src/stream.rs])

    The frontend/backend protocol on the dedicated connection: frames are cut out
    of a read buffer that grows by whatever a read returns, replication events are
    cut out of the frames, status updates are written back. A read that has not
    completed leaves the call pending. Connecting, the TLS negotiation and the
    authentication exchange are not modelled. The second half reads
    frames and events back from any division of the bytes into non-empty reads. *)

From S2P Require Import Prelude Text.

(** ** Lossy text ([String::from_utf8_lossy]) *)

Definition next_in (lo hi : Z) (t : text) : bool := match t with b :: _ => in_range lo hi b | [] => false end.

(** Whether a character starts the text, and the bytes it or its longest valid prefix takes. *)
Definition utf8_step (b : byte) (t : text) : bool * nat :=
  let z := byte_Z b in
  if z <? 0x80 then (true, 1%nat)
  else if (0xC2 <=? z) && (z <=? 0xDF) then if next_in 0x80 0xBF t then (true, 2%nat) else (false, 1%nat)
  else if (0xE0 <=? z) && (z <=? 0xEF) then
    if next_in (if z =? 0xE0 then 0xA0 else 0x80) (if z =? 0xED then 0x9F else 0xBF) t then
      if next_in 0x80 0xBF (drop 1 t) then (true, 3%nat) else (false, 2%nat)
    else (false, 1%nat)
  else if (0xF0 <=? z) && (z <=? 0xF4) then
    if next_in (if z =? 0xF0 then 0x90 else 0x80) (if z =? 0xF4 then 0x8F else 0xBF) t then
      if next_in 0x80 0xBF (drop 1 t) then
        if next_in 0x80 0xBF (drop 2 t) then (true, 4%nat) else (false, 3%nat)
      else (false, 2%nat)
    else (false, 1%nat)
  else (false, 1%nat).
Fixpoint lossy_fuel (fuel : nat) (t : text) : text :=
  match fuel, t with
  | S fuel, b :: rest =>
      let '(valid, n) := utf8_step b rest in
      (if valid then take n t else [xef; xbf; xbd]) ++ lossy_fuel fuel (drop n t)
  | _, _ => []
  end.
Definition from_utf8_lossy (t : text) : text := lossy_fuel (length t) t.

(** [char::from(b)] as UTF-8. *)
Definition latin1 (b : byte) : text :=
  if byte_Z b <? 0x80 then [b] else [Z_byte (0xC0 + byte_Z b / 64); Z_byte (0x80 + byte_Z b mod 64)].

(** ** Errors *)

Inductive StreamError :=
| Stream (detail : text)
| MissingReplicationPrivilege (detail : text).
Definition stream_err (detail : string) : StreamError := Stream (lit detail).

Definition contains (needle haystack : text) : bool := bool_decide (is_Some (find needle haystack)).

(** The last [C] and [M] fields of an [ErrorResponse]. *)
Definition error_field (tag : byte) (body : text) : text :=
  fold_left (fun acc field => match field with b :: rest => if decide (b = tag) then from_utf8_lossy rest else acc | [] => acc end) (split x00 body) [].
Definition backend_error (body : text) : StreamError :=
  let code := error_field x43 body in
  let message := match error_field x4d body with [] => lit "unknown server error" | m => m end in
  if bool_decide (code = lit "42501") || (contains (lit "replication") message && contains (lit "permission") message)
  then MissingReplicationPrivilege message
  else Stream (lit "server error " ++ code ++ lit ": " ++ message).

Definition parse_cstr_list (body : text) : list text :=
  map from_utf8_lossy (List.filter (fun chunk => match chunk with [] => false | _ => true end) (split x00 body)).

(** ** Frames *)

(** The read buffer, and what the reads to come return: bytes, nothing at the end, or an error. *)
Record ReplicationStream := { rs_read_buf : text; rs_incoming : list (text + text) }.

(** One pass over the buffer: the tag, the payload and the rest. *)
Definition parse_frame (buf : text) : option (exec StreamError (byte * text * text)) :=
  if (length buf <? 5)%nat then None
  else
    let len := be_decode (take 4 (drop 1 buf)) in
    if len <? 4 then Some (Err (stream_err "malformed frame length"))
    else if len <? Z.of_nat (length buf) then
      let frame := take (1 + Z.to_nat len) buf in
      Some (Ok (default x00 (head frame), drop 5 frame, drop (1 + Z.to_nat len) buf))
    else None.

Fixpoint read_loop (buf : text) (incoming : list (text + text)) : option (exec StreamError (byte * text)) * ReplicationStream :=
  match parse_frame buf with
  | Some (Ok (tag, payload, rest)) => (Some (Ok (tag, payload)), {| rs_read_buf := rest; rs_incoming := incoming |})
  | Some (Err e) => (Some (Err e), {| rs_read_buf := buf; rs_incoming := incoming |})
  | Some Panic => (Some Panic, {| rs_read_buf := buf; rs_incoming := incoming |})
  | None =>
      match incoming with
      | [] => (None, {| rs_read_buf := buf; rs_incoming := [] |})
      | inl err :: rest => (Some (Err (Stream (lit "read: " ++ err))), {| rs_read_buf := buf; rs_incoming := rest |})
      | inr [] :: rest => (Some (Err (stream_err "connection closed by server")), {| rs_read_buf := buf; rs_incoming := rest |})
      | inr chunk :: rest => read_loop (buf ++ chunk) rest
      end
  end.
Definition read_message (s : ReplicationStream) : option (exec StreamError (byte * text)) * ReplicationStream :=
  read_loop (rs_read_buf s) (rs_incoming s).

(** ** Replication events *)

Inductive StreamEvent :=
| XLogData (wal_end : Z) (payload : text)
| Keepalive (wal_end : Z) (reply : bool)
| Closed.

(** What a message of the copy stream is; [None] for the ones that are skipped. *)
Definition copy_event (tag : byte) (body : text) : option (exec StreamError StreamEvent) :=
  match tag with
  | x64 (* d *) =>
      Some (match body with
      | [] => Err (stream_err "empty CopyData frame")
      | x77 (* w *) :: body =>
          if (length body <? 24)%nat then Err (stream_err "short XLogData header")
          else Ok (XLogData (be_decode (take 8 (drop 8 body))) (drop 24 body))
      | x6b (* k *) :: body =>
          if (length body <? 17)%nat then Err (stream_err "short keepalive")
          else Ok (Keepalive (be_decode (take 8 body)) (negb (be_decode (take 1 (drop 16 body)) =? 0)))
      | other :: _ => Err (Stream (lit "unknown replication message '" ++ latin1 other ++ lit "'"))
      end)
  | x63 | x5a (* c Z *) => Some (Ok Closed)
  | x45 (* E *) => Some (Err (backend_error body))
  | x4e | x53 | x43 (* N S C *) => None
  | other => Some (Err (Stream (lit "unexpected message '" ++ latin1 other ++ lit "' in copy stream")))
  end.

(** Messages are read until one is an answer. *)
Fixpoint await_fuel {A} (answer : byte -> text -> option (exec StreamError A)) (fuel : nat) (s : ReplicationStream)
  : option (exec StreamError A) * ReplicationStream :=
  match fuel with
  | O => (None, s)
  | S fuel =>
      match read_message s with
      | (Some (Ok (tag, body)), s) => match answer tag body with Some r => (Some r, s) | None => await_fuel answer fuel s end
      | (Some (Err e), s) => (Some (Err e), s)
      | (Some Panic, s) => (Some Panic, s)
      | (None, s) => (None, s)
      end
  end.
(** Every message takes five bytes, so the bytes in sight bound the loop. *)
Definition stream_size (s : ReplicationStream) : nat :=
  length (rs_read_buf s) + list_sum (map (fun r => match r with inr chunk => length chunk | inl _ => O end) (rs_incoming s)).
Definition await {A} (answer : byte -> text -> option (exec StreamError A)) (s : ReplicationStream) := await_fuel answer (S (stream_size s)) s.

Definition next_event (s : ReplicationStream) : option (exec StreamError StreamEvent) * ReplicationStream := await copy_event s.

(** ** Starting, and status updates *)

(** The answer to [START_REPLICATION]; [None] for the ones that are skipped. *)
Definition start_answer (tag : byte) (body : text) : option (exec StreamError unit) :=
  match tag with
  | x57 (* W *) => Some (Ok tt)
  | x45 (* E *) => Some (Err (backend_error body))
  | x4e | x53 (* N S *) => None
  | other => Some (Err (Stream (lit "unexpected message '" ++ latin1 other ++ lit "' awaiting CopyBoth")))
  end.

Definition await_copy_both (s : ReplicationStream) : option (exec StreamError unit) * ReplicationStream := await start_answer s.

(** [{:X}]. *)
Fixpoint upper_hex_fuel (fuel : nat) (z : Z) (acc : text) : text :=
  let digit := Z_byte (let d := z mod 16 in if d <? 10 then d + 48 else d + 55) in
  match fuel with
  | O => digit :: acc
  | S fuel => if z / 16 =? 0 then digit :: acc else upper_hex_fuel fuel (z / 16) (digit :: acc)
  end.
Definition format_lsn (lsn : Z) : text :=
  upper_hex_fuel 16 (Z.shiftr lsn 32) [] ++ [x2f] ++ upper_hex_fuel 16 (Z.land lsn 0xFFFFFFFF) [].
(** Every double quote, twice. *)
Definition double_quotes (t : text) : text := flat_map (fun b => if decide (b = x22) then [x22; x22] else [b]) t.
Definition start_statement (slot publication : text) (start_lsn : Z) : text :=
  lit "START_REPLICATION SLOT " ++ [x22] ++ double_quotes slot ++ [x22] ++ lit " LOGICAL " ++ format_lsn start_lsn ++
  lit " (proto_version '1', publication_names '" ++ [x22] ++ double_quotes publication ++ [x22] ++ lit "')".

(** [now] is the time in microseconds since the Postgres epoch. *)
Definition standby_status (now write_lsn flush_lsn : Z) (reply_requested : bool) : text :=
  let payload := x72 :: be_encode 8 write_lsn ++ be_encode 8 flush_lsn ++ be_encode 8 flush_lsn ++ be_encode 8 now ++ [if reply_requested then x01 else x00] in
  x64 :: be_encode 4 (Z.of_nat (length payload) + 4) ++ payload.

(** * Events do not depend on how the connection is cut into reads *)

(** ** The server's side *)

Definition enc_frame (tag : byte) (body : text) : text := tag :: be_encode 4 (Z.of_nat (length body) + 4) ++ body.
Definition frame_ok (body : text) : Prop := Z.of_nat (length body) + 4 < 2 ^ 32.

(** What is still to be read is [bytes], in non-empty pieces. *)
Definition flowing (s : ReplicationStream) (bytes : text) : Prop :=
  exists chunks, rs_incoming s = map inr chunks /\ Forall (fun c => c <> []) chunks /\ rs_read_buf s ++ concat chunks = bytes.

Lemma length_enc_frame tag body : length (enc_frame tag body) = (5 + length body)%nat.
Proof. done. Qed.

Lemma take_be n z rest : take n (be_encode n z ++ rest) = be_encode n z.
Proof. rewrite take_app_le by (rewrite length_be_encode; lia). apply firstn_all2. rewrite length_be_encode. lia. Qed.
Lemma drop_be n z rest : drop n (be_encode n z ++ rest) = rest.
Proof. rewrite drop_app_ge by (rewrite length_be_encode; lia). by rewrite length_be_encode, Nat.sub_diag. Qed.

Lemma frame_tail tag body rest : drop 1 (enc_frame tag body ++ rest) = be_encode 4 (Z.of_nat (length body) + 4) ++ (body ++ rest).
Proof. unfold enc_frame. rewrite <- app_comm_cons, <- app_assoc. done. Qed.

(** A prefix of the bytes holds the first frame, or is too short for it. *)
Lemma parse_frame_prefix tag body rest buf tail :
  frame_ok body -> buf ++ tail = enc_frame tag body ++ rest ->
  (length buf < 5 + length body)%nat /\ parse_frame buf = None \/
  exists rest', parse_frame buf = Some (Ok (tag, body, rest')) /\ rest' ++ tail = rest.
Proof.
  intros Hok E. unfold frame_ok in Hok. unfold parse_frame. destruct (Nat.ltb_spec (length buf) 5) as [Hlt|Hge]; [left; split; [lia | done]|].
  assert (be_decode (take 4 (drop 1 buf)) = Z.of_nat (length body) + 4) as ->.
  { assert (take 4 (drop 1 buf) = take 4 (drop 1 (buf ++ tail))) as ->.
    { rewrite drop_app_le by lia. rewrite take_app_le; [done | rewrite length_drop; lia]. }
    rewrite E, frame_tail, take_be. apply be_decode_encode. change (256 ^ Z.of_nat 4) with (2 ^ 32). lia. }
  destruct (Z.ltb_spec (Z.of_nat (length body) + 4) 4); [lia|].
  destruct (Z.ltb_spec (Z.of_nat (length body) + 4) (Z.of_nat (length buf))); [right | left; split; [lia | done]].
  replace (1 + Z.to_nat (Z.of_nat (length body) + 4))%nat with (length (enc_frame tag body)) by (rewrite length_enc_frame; lia).
  assert (take (length (enc_frame tag body)) buf = enc_frame tag body) as ->.
  { rewrite <- (take_app_le _ tail) by (rewrite length_enc_frame; lia). by rewrite E, take_app_length. }
  exists (drop (length (enc_frame tag body)) buf). split.
  - done.
  - rewrite <- drop_app_le by (rewrite length_enc_frame; lia). by rewrite E, drop_app_length.
Qed.

Lemma read_loop_frame tag body rest chunks : forall buf,
  frame_ok body -> Forall (fun c => c <> []) chunks -> buf ++ concat chunks = enc_frame tag body ++ rest ->
  exists s, read_loop buf (map inr chunks) = (Some (Ok (tag, body)), s) /\ flowing s rest.
Proof.
  induction chunks as [|chunk chunks IH]; intros buf Hok Hne E.
  - destruct (parse_frame_prefix tag body rest buf [] Hok E) as [[Hlt _]|(rest' & Hp & Hr)].
    + cbn [concat] in E. rewrite app_nil_r in E. apply (f_equal length) in E. rewrite length_app, length_enc_frame in E. lia.
    + simpl. rewrite Hp. eexists. split; [done|]. by exists [].
  - destruct (parse_frame_prefix tag body rest buf _ Hok E) as [[Hlt Hp]|(rest' & Hp & Hr)]; cbn [map read_loop]; rewrite Hp.
    + inversion Hne; subst. destruct chunk as [|b chunk]; [done|]. apply IH; [done..|]. by rewrite <- app_assoc.
    + eexists. split; [done|]. by exists (chunk :: chunks).
Qed.

Lemma read_message_frame s tag body rest :
  frame_ok body -> flowing s (enc_frame tag body ++ rest) -> exists s', read_message s = (Some (Ok (tag, body)), s') /\ flowing s' rest.
Proof. intros Hok (chunks & Ei & Hne & E). unfold read_message. rewrite Ei. by apply read_loop_frame. Qed.

Lemma read_message_dry s : flowing s [] -> read_message s = (None, s).
Proof.
  intros (chunks & Ei & Hne & E). apply app_eq_nil in E as [Eb Ec]. destruct s as [buf incoming]. cbn in *. subst buf incoming.
  destruct chunks as [|c chunks]; [done|]. inversion Hne; subst. simpl in Ec. by apply app_eq_nil in Ec as [-> _].
Qed.

(** ** Events *)

(** What the server interleaves on the copy stream. *)
Inductive copy_item :=
| CI_XLogData (wal_start wal_end timestamp : Z) (payload : text)
| CI_Keepalive (wal_end timestamp : Z) (reply : bool)
| CI_Notice (body : text)
| CI_ParameterStatus (body : text)
| CI_CommandComplete (body : text).

Definition item_body (i : copy_item) : text :=
  match i with
  | CI_XLogData wal_start wal_end timestamp payload =>
      x77 :: be_encode 8 wal_start ++ be_encode 8 wal_end ++ be_encode 8 timestamp ++ payload
  | CI_Keepalive wal_end timestamp reply => x6b :: be_encode 8 wal_end ++ be_encode 8 timestamp ++ [if reply then x01 else x00]
  | CI_Notice body | CI_ParameterStatus body | CI_CommandComplete body => body
  end.
Definition item_tag (i : copy_item) : byte :=
  match i with CI_XLogData _ _ _ _ | CI_Keepalive _ _ _ => x64 | CI_Notice _ => x4e | CI_ParameterStatus _ => x53 | CI_CommandComplete _ => x43 end.
Definition enc_item (i : copy_item) : text := enc_frame (item_tag i) (item_body i).
Definition item_event (i : copy_item) : option StreamEvent :=
  match i with
  | CI_XLogData _ wal_end _ payload => Some (XLogData wal_end payload)
  | CI_Keepalive wal_end _ reply => Some (Keepalive wal_end reply)
  | _ => None
  end.
Definition item_ok (i : copy_item) : Prop :=
  frame_ok (item_body i) /\ match i with CI_XLogData _ w _ _ | CI_Keepalive w _ _ => 0 <= w < 2 ^ 64 | _ => True end.

Lemma copy_event_item i : item_ok i -> copy_event (item_tag i) (item_body i) = Ok <$> item_event i.
Proof.
  assert (256 ^ Z.of_nat 8 = 2 ^ 64) as E8 by done.
  destruct i as [ws we ts payload|we ts reply| | |]; intros [_ Hw]; try done; cbn [item_tag item_body item_event copy_event fmap option_fmap option_map].
  - rewrite !length_app, !length_be_encode. destruct (Nat.ltb_spec (8 + (8 + (8 + length payload))) 24); [lia|].
    change 24%nat with (8 + 16)%nat. rewrite drop_be, take_be, be_decode_encode, <- drop_drop, drop_be by lia.
    change 16%nat with (8 + 8)%nat. by rewrite <- drop_drop, !drop_be.
  - rewrite !length_app, !length_be_encode. destruct (Nat.ltb_spec (8 + (8 + length [if reply then x01 else x00])) 17); [simpl in *; lia|].
    rewrite take_be, be_decode_encode by lia. change 16%nat with (8 + 8)%nat. rewrite <- drop_drop, !drop_be. by destruct reply.
Qed.

(** ** Reading them *)

Lemma flowing_size s bytes : flowing s bytes -> stream_size s = length bytes.
Proof.
  intros (chunks & Ei & _ & <-). unfold stream_size. rewrite Ei, length_app, map_map. f_equal. clear Ei.
  induction chunks as [|c chunks IH]; simpl; [done|]. by rewrite length_app, IH.
Qed.

Lemma await_item fuel s i rest : item_ok i -> flowing s (enc_item i ++ rest) ->
  exists s', flowing s' rest /\
    await_fuel copy_event (S fuel) s = match item_event i with Some e => (Some (Ok e), s') | None => await_fuel copy_event fuel s' end.
Proof.
  intros Hi Hs. pose proof Hi as [Hf _]. destruct (read_message_frame s (item_tag i) (item_body i) rest Hf Hs) as (s' & Hr & Hs').
  exists s'. split; [done|]. cbn [await_fuel]. rewrite Hr, copy_event_item by done. by destruct (item_event i).
Qed.

(** The next event of a list of items. *)
Fixpoint first_event (items : list copy_item) : option (StreamEvent * list copy_item) :=
  match items with [] => None | i :: items => match item_event i with Some e => Some (e, items) | None => first_event items end end.

Lemma await_items items : forall fuel s, Forall item_ok items -> flowing s (concat (map enc_item items)) -> (length items < fuel)%nat ->
  exists s', await_fuel copy_event fuel s = ((Ok ∘ fst) <$> first_event items, s') /\
    flowing s' (concat (map enc_item (match first_event items with Some (_, rest) => rest | None => [] end))).
Proof.
  induction items as [|i items IH]; intros [|fuel] s Hok Hs Hf; try lia.
  - exists s. cbn [await_fuel first_event]. rewrite read_message_dry by done. split; [reflexivity | exact Hs].
  - inversion Hok; subst. destruct (await_item fuel s i _ ltac:(done) Hs) as (s' & Hs' & ->). cbn [first_event].
    destruct (item_event i) as [e|]; [by exists s'|]. apply IH; [done..|simpl in Hf; lia].
Qed.

(** The next event is the first one of the items, whatever the reads return. *)
Lemma next_event_items s items : Forall item_ok items -> flowing s (concat (map enc_item items)) ->
  exists s', next_event s = ((Ok ∘ fst) <$> first_event items, s') /\
    flowing s' (concat (map enc_item (match first_event items with Some (_, rest) => rest | None => [] end))).
Proof.
  intros Hok Hs. apply await_items; [done..|]. rewrite (flowing_size _ _ Hs). clear Hs Hok.
  induction items as [|i items IH]; [simpl; lia|]. cbn [map concat]. unfold enc_item at 1. rewrite length_app, length_enc_frame. cbn [length]. lia.
Qed.

(** [n] calls of [next_event]. *)
Fixpoint events_of (n : nat) (s : ReplicationStream) : list (exec StreamError StreamEvent) * ReplicationStream :=
  match n with
  | O => ([], s)
  | S n =>
      match next_event s with
      | (Some r, s) => let '(rest, s) := events_of n s in (r :: rest, s)
      | (None, s) => events_of n s
      end
  end.

Lemma first_event_events items :
  filter_map item_event items = match first_event items with Some (e, rest) => e :: filter_map item_event rest | None => [] end.
Proof. induction items as [|i items IH]; simpl; [done|]. by destruct (item_event i). Qed.
Lemma first_event_ok items e rest : Forall item_ok items -> first_event items = Some (e, rest) -> Forall item_ok rest.
Proof.
  induction 1 as [|i items Hi Hok IH]; simpl; [done|]. destruct (item_event i); [by intros [= _ <-] | done].
Qed.

Lemma events_dry n : forall s, flowing s [] -> events_of n s = ([], s).
Proof.
  induction n as [|n IH]; intros s Hs; [done|]. cbn [events_of]. unfold next_event, await. cbn [await_fuel]. rewrite read_message_dry by done. by apply IH.
Qed.

(** C21: The events of the replication stream do not depend on how the network cuts it: for any
    frames the server writes, XLogData, keepalives and the messages that are skipped, and any
    division of their bytes into non-empty reads, also inside a header, polling returns exactly the
    events that were written, in order and with their fields, and leaves nothing in the buffer. *)
Theorem events_any_reads n : forall items s,
  Forall item_ok items -> flowing s (concat (map enc_item items)) -> (length (filter_map item_event items) < n)%nat ->
  exists s', events_of n s = (map Ok (filter_map item_event items), s') /\ flowing s' [].
Proof.
  induction n as [|n IH]; intros items s Hok Hs Hn; [lia|]. destruct (next_event_items s items Hok Hs) as (s1 & Hnext & Hs1).
  pose proof (fun e rest => first_event_ok items e rest Hok) as Hrest. rewrite first_event_events in *. cbn [events_of].
  destruct (first_event items) as [[e rest]|]; rewrite Hnext; cbn [fmap option_fmap option_map compose fst].
  - destruct (IH rest s1 (Hrest _ _ eq_refl) Hs1 ltac:(simpl in Hn; lia)) as (s' & -> & Hs'). by exists s'.
  - exists s1. by rewrite events_dry.
Qed.
