(* ===== verification/Replication.v ===== *)
(** * Replication: the ingest task
    ([crates/palimpsest-postgres/src/replication.rs], [crates/palimpsest-wal/src/source.rs])

    The snapshot fence, the assembly of transactions from pgoutput frames, the loop
    of a streaming session and the task that reconnects and reconciles. What a
    [select!] picks and whether a write succeeds are inputs of the loop; a fresh
    snapshot is an input of the task. The decoders of floats and the text of a
    decoding error are parameters. *)

From stdpp Require Import gmap.
From S2P Require Import Prelude BTree Text Values Catalog Protocol.
From S2P Require Import UserContext Watermarks Shared Registry Channel Cursor Literals Floats Datums Exprs Like Eval Mir.
From S2P Require Import Consolidation Operators Relational CompileMir Install Router Host Service Postgres Walsender.

(** ** The snapshot fence *)

Record SnapshotFence := { sf_xmax : Z; sf_in_progress : list Z }.

(** [xmin:xmax:xip1,...], the text of [pg_current_snapshot()]. *)
Definition fence_parse (t : text) : option SnapshotFence :=
  match split x3a t with
  | _xmin :: xmax :: rest =>
      xmax ← parse_int 0 U64_MAX xmax;
      let xip := match rest with xip :: _ => xip | [] => [] end in
      Some {| sf_xmax := xmax; sf_in_progress := match xip with [] => [] | _ => filter_map (parse_int 0 U64_MAX) (split x2c xip) end |}
  | _ => None
  end.

Definition low_32 (x : Z) : Z := Z.land x 0xFFFFFFFF.
Definition already_in_snapshot (f : SnapshotFence) (xid : Z) : bool :=
  if existsb (fun x => low_32 x =? xid) (sf_in_progress f) then false
  else sint 32 (uint 32 (xid - low_32 (sf_xmax f))) <? 0.

(** ** Transactions *)

Record PendingTransaction := { pt_xid : Z; pt_changes : list Change; pt_truncates : list Z }.

Inductive FrameError := FE_Transport (detail : string) | FE_Fatal (message : string).

Fixpoint join_names (names : list string) : string :=
  match names with [] => "" | [name] => name | name :: rest => name +:+ ", " +:+ join_names rest end.
Definition drift_message (known : IntrospectedTable) (streamed : list string) : string :=
  "schema drift detected on table '" +:+ it_name known +:+ "': columns changed from [" +:+ join_names (map ic_name (it_columns known)) +:+
  "] to [" +:+ join_names streamed +:+ "]; restart the runtime to re-introspect the catalog".

Section Frames.
Context (parse_f32 parse_f64 : text -> option Z) (display_wal : WalError -> string).

(** What a frame touches: the runtime, the session's catalog and its open transaction. *)
Record Applier := { ap_runtime : SharedState; ap_catalog : Catalog; ap_pending : option PendingTransaction }.
Definition with_pending (a : Applier) (p : option PendingTransaction) : Applier :=
  {| ap_runtime := ap_runtime a; ap_catalog := ap_catalog a; ap_pending := p |}.

Definition streamed (st : SharedState) (table : Z) : bool := bool_decide (is_Some (table_by_id st table)).

(** The end of a transaction: truncations first, then the changes. *)
Definition apply_commit (st : SharedState) (lsn : Z) (tx : PendingTransaction) : SharedState :=
  let st := match pt_truncates tx with [] => st | truncates => apply_truncate st lsn truncates end in
  match pt_changes tx with [] => st | changes => pg_apply_transaction st lsn changes end.

Definition apply_event (fence : SnapshotFence) (a : Applier) (event : DecodedEvent) : exec FrameError (option Z) * Applier :=
  match event with
  | E_Begin xid _ => (Ok None, with_pending a (Some {| pt_xid := xid; pt_changes := []; pt_truncates := [] |}))
  | E_Row table op old new =>
      (Ok None, if streamed (ap_runtime a) table then
         with_pending a ((fun p => {| pt_xid := pt_xid p; pt_changes := pt_changes p ++ [(table, op, old, new)]; pt_truncates := pt_truncates p |})
                         <$> ap_pending a)
       else a)
  | E_Truncate t =>
      (Ok None, with_pending a ((fun p => {| pt_xid := pt_xid p; pt_changes := pt_changes p;
         pt_truncates := pt_truncates p ++ List.filter (streamed (ap_runtime a)) (tr_tables t) |}) <$> ap_pending a))
  | E_Commit lsn _ =>
      match ap_pending a with
      | None => (Ok None, a)
      | Some tx =>
          (Ok (Some lsn), {| ap_runtime := if already_in_snapshot fence (pt_xid tx) then ap_runtime a else apply_commit (ap_runtime a) lsn tx;
                             ap_catalog := ap_catalog a; ap_pending := None |})
      end
  | E_Schema table columns =>
      match table_by_id (ap_runtime a) table with
      | None => (Ok None, a)
      | Some known =>
          let names := map col_name columns in
          if bool_decide (names = map ic_name (it_columns known)) then
            (Ok None, {| ap_runtime := ap_runtime a; ap_catalog := upsert_relation (ap_catalog a) (relation_schema known); ap_pending := ap_pending a |})
          else (Err (FE_Fatal (drift_message known names)), a)
      end
  | _ => (Ok None, a)
  end.

Definition apply_frame (fence : SnapshotFence) (a : Applier) (payload : text) : exec FrameError (option Z) * Applier :=
  let '(event, catalog) := decode_pgoutput_message parse_f32 parse_f64 (ap_catalog a) payload in
  let a := {| ap_runtime := ap_runtime a; ap_catalog := catalog; ap_pending := ap_pending a |} in
  match event with
  | Ok event => apply_event fence a event
  | Err err => (Err (FE_Transport ("pgoutput decode: " +:+ display_wal err)), a)
  | Panic => (Panic, a)
  end.

(** ** A streaming session *)

Inductive SessionOutcome := SO_Shutdown | SO_Disconnected (detail : text) | SO_Fatal (message : text) | SO_Panic.

Definition display_stream (e : StreamError) : text :=
  match e with
  | Stream detail => lit "replication stream: " ++ detail
  | MissingReplicationPrivilege detail =>
      lit "the connection role lacks replication privileges: " ++ detail ++
      lit "; grant them with: ALTER ROLE <role> REPLICATION; (on managed Postgres, grant the provider's replication role instead, e.g. GRANT rds_replication TO <role>)"
  end.

(** The loop's variables, and the status updates written so far: received and flushed position. *)
Record WalSession := {
  ws_stream : ReplicationStream; ws_applier : Applier; ws_applied_lsn : Z; ws_received_lsn : Z; ws_statuses : list (Z * Z)
}.

(** The catalog is seeded from introspection. *)
Definition introspected_catalog (st : SharedState) : Catalog := fold_left (fun c t => upsert_relation c (relation_schema t)) (pg_tables st) [].
Definition session_new (st : SharedState) (s : ReplicationStream) : WalSession :=
  {| ws_stream := s; ws_applier := {| ap_runtime := st; ap_catalog := introspected_catalog st; ap_pending := None |};
     ws_applied_lsn := 0; ws_received_lsn := 0; ws_statuses := [] |}.

(** Which branch [select!] takes; [sent] is the error of a status write, if it fails. *)
Inductive Wake := W_Shutdown | W_Timer (sent : option text) | W_Event (sent : option text).

Definition send_status (w : WalSession) (sent : option text) : WalSession * option SessionOutcome :=
  match sent with
  | Some err => (w, Some (SO_Disconnected (display_stream (Stream err))))
  | None => ({| ws_stream := ws_stream w; ws_applier := ws_applier w; ws_applied_lsn := ws_applied_lsn w; ws_received_lsn := ws_received_lsn w;
                ws_statuses := ws_statuses w ++ [(ws_received_lsn w, ws_applied_lsn w)] |}, None)
  end.
Definition with_received (w : WalSession) (wal_end : Z) : WalSession :=
  {| ws_stream := ws_stream w; ws_applier := ws_applier w; ws_applied_lsn := ws_applied_lsn w; ws_received_lsn := Z.max (ws_received_lsn w) wal_end;
     ws_statuses := ws_statuses w |}.

Definition session_event (fence : SnapshotFence) (w : WalSession) (event : StreamEvent) (sent : option text) : WalSession * option SessionOutcome :=
  match event with
  | Closed => (w, Some (SO_Disconnected (lit "server closed the copy stream")))
  | Keepalive wal_end reply =>
      let w := with_received w wal_end in
      if reply then send_status w sent else (w, None)
  | XLogData wal_end payload =>
      let w := with_received w wal_end in
      let '(r, a) := apply_frame fence (ws_applier w) payload in
      let applied := match r with Ok (Some lsn) => Z.max (ws_applied_lsn w) lsn | _ => ws_applied_lsn w end in
      let w := {| ws_stream := ws_stream w; ws_applier := a; ws_applied_lsn := applied; ws_received_lsn := ws_received_lsn w; ws_statuses := ws_statuses w |} in
      (w, match r with
          | Ok _ => None
          | Err (FE_Fatal message) => Some (SO_Fatal (lit message))
          | Err (FE_Transport detail) => Some (SO_Disconnected (lit detail))
          | Panic => Some SO_Panic
          end)
  end.

(** The event branch completes only when an event is there. *)
Definition session_wake (fence : SnapshotFence) (w : WalSession) (wake : Wake) : WalSession * option SessionOutcome :=
  match wake with
  | W_Shutdown => ((send_status w None).1, Some SO_Shutdown)
  | W_Timer sent => send_status w sent
  | W_Event sent =>
      let '(event, s) := next_event (ws_stream w) in
      let w := {| ws_stream := s; ws_applier := ws_applier w; ws_applied_lsn := ws_applied_lsn w; ws_received_lsn := ws_received_lsn w; ws_statuses := ws_statuses w |} in
      match event with
      | None => (w, None)
      | Some (Ok event) => session_event fence w event sent
      | Some (Err err) => (w, Some (SO_Disconnected (display_stream err)))
      | Some Panic => (w, Some SO_Panic)
      end
  end.
Fixpoint stream_session (fence : SnapshotFence) (w : WalSession) (wakes : list Wake) : WalSession * option SessionOutcome :=
  match wakes with
  | [] => (w, None)
  | wake :: rest =>
      let '(w, outcome) := session_wake fence w wake in
      match outcome with Some outcome => (w, Some outcome) | None => stream_session fence w rest end
  end.

(** ** Reconnecting ([ReconnectBackoff], in milliseconds) *)

Record ReconnectBackoff := { rb_current_attempt : Z; rb_initial : Z; rb_max : Z }.
Definition reconnect_default : ReconnectBackoff := {| rb_current_attempt := 0; rb_initial := 100; rb_max := 30000 |}.
Definition DURATION_MAX_MS : Z := U64_MAX * 1000 + 999.
Definition reconnect_next_delay (b : ReconnectBackoff) : Z * ReconnectBackoff :=
  let multiplier := if rb_current_attempt b <? 32 then Z.shiftl 1 (rb_current_attempt b) else 2 ^ 32 - 1 in
  (Z.min (Z.min (rb_initial b * multiplier) DURATION_MAX_MS) (rb_max b),
   {| rb_current_attempt := Z.min (rb_current_attempt b + 1) (2 ^ 32 - 1); rb_initial := rb_initial b; rb_max := rb_max b |}).

(** ** The task *)

Section Task.
Context (hash_order : list (Row * Z) -> list (Row * Z)).

Record IngestTask := {
  task_runtime : SharedState; task_fence : SnapshotFence; task_backoff : ReconnectBackoff; task_first_attempt : bool; task_delays : list Z
}.

(** What a turn of the outer loop finds: a fresh snapshot or none, a new connection or why there is none. *)
Record Attempt := { at_snapshot : option (Z * SnapshotFence * gmap Z (list Row)); at_stream : text + ReplicationStream; at_wakes : list Wake }.

(** Every attempt but the first waits and reconciles; [false]: it failed and the loop continues. *)
Definition reconcile_after_disconnect (t : IngestTask) (a : Attempt) : IngestTask * bool :=
  if task_first_attempt t then
    ({| task_runtime := task_runtime t; task_fence := task_fence t; task_backoff := task_backoff t; task_first_attempt := false; task_delays := task_delays t |}, true)
  else
    let '(delay, backoff) := reconnect_next_delay (task_backoff t) in
    match at_snapshot a with
    | None =>
        ({| task_runtime := task_runtime t; task_fence := task_fence t; task_backoff := backoff; task_first_attempt := false;
            task_delays := task_delays t ++ [delay] |}, false)
    | Some (lsn, fence, rows) =>
        ({| task_runtime := reconcile_snapshot hash_order (task_runtime t) lsn rows; task_fence := fence; task_backoff := backoff;
            task_first_attempt := false; task_delays := task_delays t ++ [delay] |}, true)
    end.

(** Connecting and [START_REPLICATION], then the loop. *)
Definition run_session (st : SharedState) (fence : SnapshotFence) (a : Attempt) : SharedState * option SessionOutcome :=
  match at_stream a with
  | inl detail => (st, Some (SO_Disconnected detail))
  | inr s =>
      match await_copy_both s with
      | (None, _) => (st, None)
      | (Some (Err (MissingReplicationPrivilege detail)), _) => (st, Some (SO_Fatal (display_stream (MissingReplicationPrivilege detail))))
      | (Some (Err err), _) => (st, Some (SO_Disconnected (display_stream err)))
      | (Some Panic, _) => (st, Some SO_Panic)
      | (Some (Ok _), s) =>
          let '(w, outcome) := stream_session fence (session_new st s) (at_wakes a) in (ap_runtime (ws_applier w), outcome)
      end
  end.

Inductive TaskTurn := TT_Continue | TT_Return (outcome : SessionOutcome) | TT_Waiting.

Definition run_attempt (t : IngestTask) (a : Attempt) : IngestTask * TaskTurn :=
  let '(t, ready) := reconcile_after_disconnect t a in
  if negb ready then (t, TT_Continue)
  else
    let '(st, outcome) := run_session (task_runtime t) (task_fence t) a in
    let finish st backoff := {| task_runtime := st; task_fence := task_fence t; task_backoff := backoff; task_first_attempt := task_first_attempt t;
                                task_delays := task_delays t |} in
    match outcome with
    | Some (SO_Fatal message) => (finish (fail st (text_string message)) (task_backoff t), TT_Return (SO_Fatal message))
    | Some (SO_Disconnected _) => (finish st reconnect_default, TT_Continue)
    | Some outcome => (finish st (task_backoff t), TT_Return outcome)
    | None => (finish st (task_backoff t), TT_Waiting)
    end.
Fixpoint ingest_task (t : IngestTask) (attempts : list Attempt) : IngestTask * TaskTurn :=
  match attempts with
  | [] => (t, TT_Waiting)
  | a :: rest =>
      let '(t, turn) := run_attempt t a in
      match turn with TT_Continue => ingest_task t rest | turn => (t, turn) end
  end.
End Task.
End Frames.
