(* ===== verification/ReplicationFacts.v ===== *)
(** * ReplicationFacts: every transaction is applied once

    The fence against full transaction ids, the assembly of transactions from the
    bytes of the connection, and what a session reports back. *)

From stdpp Require Import gmap.
From S2P Require Import Prelude BTree Text Values Catalog Protocol Wire.
From S2P Require Import UserContext Watermarks Shared Registry Channel Cursor Literals Floats Datums Exprs Like Eval Mir.
From S2P Require Import Consolidation Operators Relational CompileMir Install Router Host Service Postgres PostgresFacts Walsender Replication.

(** ** The fence *)

Lemma low_32_mod x : low_32 x = x mod 2 ^ 32.
Proof. unfold low_32. change 0xFFFFFFFF with (Z.ones 32). by apply Z.land_ones. Qed.
Lemma same_low_32 x y base : base <= x < base + 2 ^ 32 -> base <= y < base + 2 ^ 32 -> low_32 x = low_32 y -> x = y.
Proof.
  rewrite !low_32_mod. intros Hx Hy E. pose proof (Z.div_mod x (2 ^ 32) ltac:(lia)). pose proof (Z.div_mod y (2 ^ 32) ltac:(lia)).
  assert (x / 2 ^ 32 = y / 2 ^ 32) by nia. lia.
Qed.
Lemma sint_low_32 a b : sint 32 (uint 32 (low_32 a - low_32 b)) = sint 32 (a - b).
Proof.
  unfold sint, uint. rewrite !low_32_mod. rewrite Zmod_mod. by rewrite <- Zminus_mod.
Qed.

(** What a snapshot has seen, by full transaction id. *)
Definition seen (f : SnapshotFence) (x : Z) : bool := (x <? sf_xmax f) && negb (bool_decide (x ∈ sf_in_progress f)).
(** Ids within half the 32-bit space of the horizon; the ones in progress are below it. *)
Definition near (f : SnapshotFence) (x : Z) : Prop := sf_xmax f - 2 ^ 31 <= x < sf_xmax f + 2 ^ 31.
Definition fence_ok (f : SnapshotFence) : Prop := Forall (fun y => sf_xmax f - 2 ^ 31 <= y < sf_xmax f) (sf_in_progress f).

Lemma fence_window f x : fence_ok f -> near f x -> already_in_snapshot f (low_32 x) = seen f x.
Proof.
  intros Hf Hx. unfold already_in_snapshot, seen, near, fence_ok in *. rewrite sint_low_32, sint_id by lia.
  assert (existsb (fun y => low_32 y =? low_32 x) (sf_in_progress f) = bool_decide (x ∈ sf_in_progress f)) as ->.
  { rewrite Forall_forall in Hf. case_bool_decide as E.
    - apply existsb_exists. exists x. split; [by apply list_elem_of_In | lia].
    - apply not_true_is_false. intros (y & Hy & El)%existsb_exists. apply list_elem_of_In in Hy. specialize (Hf y Hy). simpl in Hf.
      destruct E. replace x with y; [done|]. apply (same_low_32 y x (sf_xmax f - 2 ^ 31)); lia. }
  destruct (bool_decide _); simpl; [by rewrite andb_false_r|]. rewrite andb_true_r.
  destruct (Z.ltb_spec (x - sf_xmax f) 0), (Z.ltb_spec x (sf_xmax f)); lia || done.
Qed.

(** *** Its text *)

(** A [u64] in decimal. *)
Fixpoint decimal_fuel (fuel : nat) (z : Z) (rest : text) : text :=
  let digits := Z_byte (z mod 10 + 48) :: rest in
  match fuel with O => digits | S fuel => if z <? 10 then digits else decimal_fuel fuel (z / 10) digits end.
Definition decimal (z : Z) : text := decimal_fuel 19 z [].
(** [pg_current_snapshot()::text]. *)
Definition snapshot_text (xmin xmax : Z) (xip : list Z) : text := decimal xmin ++ [x3a] ++ decimal xmax ++ [x3a] ++ join [x2c] (map decimal xip).

Lemma digit_decimal z : 0 <= z -> digit_value 10 (Z_byte (z mod 10 + 48)) = Some (z mod 10).
Proof.
  intros Hz. pose proof (Z.mod_pos_bound z 10 ltac:(lia)). unfold digit_value. rewrite byte_Z_Z_byte, (Z.mod_small (z mod 10 + 48)) by lia.
  destruct (Z.leb_spec 48 (z mod 10 + 48)), (Z.leb_spec (z mod 10 + 48) 57); try lia. cbn [andb mbind option_bind].
  destruct (Z.ltb_spec (z mod 10 + 48 - 48) 10); [f_equal; lia | lia].
Qed.
Lemma parse_decimal_fuel fuel : forall z rest, 0 <= z < 10 ^ Z.of_nat (S fuel) -> parse_digits 10 0 (decimal_fuel fuel z rest) = parse_digits 10 z rest.
Proof.
  induction fuel as [|fuel IH]; intros z rest Hz; cbn [decimal_fuel].
  - change (10 ^ Z.of_nat 1) with 10 in Hz. cbn [parse_digits]. rewrite digit_decimal by lia. cbn [mbind option_bind]. by rewrite Z.mod_small.
  - destruct (Z.ltb_spec z 10).
    + cbn [parse_digits]. rewrite digit_decimal by lia. cbn [mbind option_bind]. by rewrite Z.mod_small by lia.
    + rewrite Nat2Z.inj_succ, Z.pow_succ_r in Hz by lia. rewrite IH by (split; [apply Z.div_pos; lia | apply Z.div_lt_upper_bound; lia]).
      cbn [parse_digits]. rewrite digit_decimal by lia. cbn [mbind option_bind]. f_equal. pose proof (Z.div_mod z 10). lia.
Qed.
Definition is_digit (b : byte) : Prop := 48 <= byte_Z b <= 57.
Lemma decimal_digits fuel : forall z rest, Forall is_digit rest -> Forall is_digit (decimal_fuel fuel z rest) /\ decimal_fuel fuel z rest <> [].
Proof.
  assert (forall z rest, Forall is_digit rest -> Forall is_digit (Z_byte (z mod 10 + 48) :: rest)) as Hd.
  { intros z rest Hr. constructor; [|done]. pose proof (Z.mod_pos_bound z 10 ltac:(lia)). unfold is_digit. rewrite byte_Z_Z_byte, Z.mod_small; lia. }
  induction fuel as [|fuel IH]; intros z rest Hr; cbn [decimal_fuel]; [split; [by apply Hd | done]|].
  destruct (z <? 10); [split; [by apply Hd | done]|]. apply IH. by apply Hd.
Qed.

Lemma parse_decimal z : 0 <= z <= U64_MAX -> parse_int 0 U64_MAX (decimal z) = Some z.
Proof.
  intros Hz. unfold U64_MAX in Hz. destruct (decimal_digits 19 z [] ltac:(constructor)) as [Hd Hne]. unfold parse_int, parse_radix, decimal.
  pose proof (parse_decimal_fuel 19 z [] ltac:(simpl; lia)) as Hp. destruct (decimal_fuel 19 z []) as [|b t]; [done|]. inversion Hd as [|? ? Hb _]; subst.
  assert (match b :: t with x2b :: t' => (false, t') | x2d :: t' => if 0 <? 0 then (true, t') else (false, b :: t) | _ => (false, b :: t) end
    = (false, b :: t)) as ->.
  { unfold is_digit in Hb. assert (b <> x2b /\ b <> x2d) as [] by (split; intros ->; change (byte_Z x2b) with 43 in Hb; change (byte_Z x2d) with 45 in Hb; lia).
    by destruct b. }
  rewrite Hp. cbn [parse_digits mbind option_bind]. unfold U64_MAX. destruct (Z.leb_spec 0 z), (Z.leb_spec z (2 ^ 64 - 1)); try lia. done.
Qed.

Lemma split_not_in c t : c ∉ t -> split c t = [t].
Proof.
  induction t as [|b t IH]; intros Hni; [done|]. apply not_elem_of_cons in Hni as [Hne Hni]. simpl. rewrite decide_False by congruence. by rewrite IH.
Qed.
Lemma split_first c a b : c ∉ a -> split c (a ++ c :: b) = a :: split c b.
Proof.
  induction a as [|x a IH]; intros Hni; simpl; [by rewrite decide_True|]. apply not_elem_of_cons in Hni as [Hne Hni].
  rewrite decide_False by congruence. by rewrite IH.
Qed.
Lemma digits_no_separator c t : Forall is_digit t -> c = x3a \/ c = x2c -> c ∉ t.
Proof. intros Hd Hc Hin. rewrite Forall_forall in Hd. specialize (Hd c Hin). unfold is_digit in Hd.
  destruct Hc as [-> | ->]; [change (byte_Z x3a) with 58 in Hd | change (byte_Z x2c) with 44 in Hd]; lia.
Qed.
Lemma split_join_decimals xs : xs <> [] -> split x2c (join [x2c] (map decimal xs)) = map decimal xs.
Proof.
  assert (forall x, x2c ∉ decimal x) as Hn by (intros x; apply digits_no_separator; [by apply decimal_digits | by right]).
  induction xs as [|x [|y xs] IH]; intros Hne; [done | cbn [map join]; by rewrite split_not_in |]. cbn [map join app] in *.
  rewrite split_first by done. by rewrite IH.
Qed.

Lemma fence_parse_text xmin xmax xip : 0 <= xmax <= U64_MAX -> Forall (fun x => 0 <= x <= U64_MAX) xip ->
  fence_parse (snapshot_text xmin xmax xip) = Some {| sf_xmax := xmax; sf_in_progress := xip |}.
Proof.
  intros Hmax Hxip. assert (forall x, x3a ∉ decimal x) as Hn by (intros x; apply digits_no_separator; [by apply decimal_digits | by left]).
  assert (x3a ∉ join [x2c] (map decimal xip)) as Hj.
  { clear Hxip. induction xip as [|x [|y xip] IH]; [by intros ?%elem_of_nil | apply Hn|]. cbn [map join app] in *.
    intros [H|[?|H]%elem_of_cons]%elem_of_app; [by apply (Hn x) | done | by apply IH]. }
  unfold fence_parse, snapshot_text. cbn [app]. rewrite split_first, split_first, split_not_in by done. rewrite parse_decimal by done. cbn [mbind option_bind].
  do 2 f_equal. destruct xip as [|x xip]; [done|]. assert (join [x2c] (map decimal (x :: xip)) <> []) as Hne.
  { destruct (decimal_digits 19 x [] ltac:(constructor)) as [_ Hd]. fold (decimal x) in Hd. destruct xip; cbn [map join app]; [done|]. by destruct (decimal x). }
  destruct (join [x2c] (map decimal (x :: xip))) eqn:Ej; [done|]. rewrite <- Ej, split_join_decimals by done. clear Hne Ej Hj.
  induction Hxip as [|z zs Hz _ IH]; [done|]. cbn [map filter_map]. rewrite parse_decimal by done. by rewrite IH.
Qed.

(** C17: The snapshot fence decides visibility exactly: for the text pg_current_snapshot() prints,
    parsing succeeds, and for a transaction within half the 32-bit id space of the horizon, the low
    32 bits that pgoutput carries are enough: the fence says it is already in the snapshot if and
    only if its full id is below the horizon and it was not in progress, also across wraparound. *)
Theorem fence_text_exact xmin xmax xip x :
  0 <= xmax <= U64_MAX -> Forall (fun y => 0 <= y <= U64_MAX /\ xmax - 2 ^ 31 <= y < xmax) xip -> xmax - 2 ^ 31 <= x < xmax + 2 ^ 31 ->
  exists fence, fence_parse (snapshot_text xmin xmax xip) = Some fence /\
    already_in_snapshot fence (low_32 x) = bool_decide (x < xmax /\ x ∉ xip).
Proof.
  intros Hmax Hxip Hx. exists {| sf_xmax := xmax; sf_in_progress := xip |}. split.
  - apply fence_parse_text; [done|]. eapply Forall_impl; [exact Hxip|]. by intros y [? _].
  - rewrite fence_window; [|eapply Forall_impl; [exact Hxip|]; by intros y [_ ?] | done]. unfold seen. cbn [sf_xmax sf_in_progress].
    destruct (Z.ltb_spec x xmax); repeat case_bool_decide; naive_solver lia.
Qed.

(** ** The session's catalog *)

(** Every table is registered under its id. *)
Definition keyed (st : SharedState) : Prop := bt_wf (pg_names_by_id st) /\ Forall (fun p => p.1 = it_id p.2) (pg_names_by_id st).

Lemma seed_catalog tables : forall c id, bt_wf c -> NoDup (map it_id tables) ->
  bt_wf (fold_left (fun c t => upsert_relation c (relation_schema t)) tables c) /\
  relation (fold_left (fun c t => upsert_relation c (relation_schema t)) tables c) id
  = match List.find (fun t => it_id t =? id) tables with Some t => Some (relation_schema t) | None => relation c id end.
Proof.
  induction tables as [|t tables IH]; intros c id Hwf Hnd; [done|]. cbn [map fold_left List.find] in *. apply NoDup_cons in Hnd as [Hni Hnd].
  destruct (IH (upsert_relation c (relation_schema t)) id) as [Hw Hr]; [by apply bt_wf_insert | done|]. split; [done|].
  rewrite Hr. destruct (Z.eqb_spec (it_id t) id) as [<-|Hne].
  - destruct (List.find _ tables) as [t'|] eqn:Ef.
    + apply List.find_some in Ef as [Hin Ht]. destruct Hni. apply list_elem_of_fmap. exists t'. split; [lia | by apply list_elem_of_In].
    + unfold relation, upsert_relation. by apply bt_get_insert_eq.
  - destruct (List.find _ tables); [done|]. unfold relation, upsert_relation. rewrite bt_get_insert_ne; [done | done |]. simpl. congruence.
Qed.

Lemma catalog_lookup st id : keyed st ->
  bt_wf (introspected_catalog st) /\ relation (introspected_catalog st) id = relation_schema <$> table_by_id st id.
Proof.
  intros [Hwf Hk]. unfold introspected_catalog, pg_tables, table_by_id.
  assert (map it_id (map snd (pg_names_by_id st)) = (pg_names_by_id st).*1) as Eids.
  { rewrite map_map. clear Hwf. induction Hk as [|p l Hp _ IH]; [done|]. cbn [map fmap list_fmap]. by rewrite IH, Hp. }
  destruct (seed_catalog (map snd (pg_names_by_id st)) [] id) as [Hw Hr]; [apply bt_wf_nil | rewrite Eids; by apply bt_wf_NoDup|].
  split; [done|]. rewrite Hr. clear Hw Hr Eids. induction (pg_names_by_id st) as [|[k t] l IH]; [done|]. inversion Hk as [|? ? Ek ?]; subst.
  cbn [fst snd] in Ek. subst k. cbn [map List.find snd bt_get].
  apply bt_wf_cons in Hwf as [Hlow Hwf]. destruct (Z.eqb_spec (it_id t) id) as [->|Hne]; [by rewrite cmp_refl|].
  specialize (IH Hwf ltac:(done)). destruct (cmp id (it_id t)) eqn:Ec.
  - apply cmp_eq in Ec. congruence.
  - rewrite IH. rewrite bt_get_below; [done|]. eapply Forall_impl; [exact Hlow|]. intros p. by apply cmp_trans.
  - exact IH.
Qed.

(** A [Relation] frame for a streamed table leaves the catalog as it was. *)
Lemma catalog_pinned st id known schema : keyed st -> table_by_id st id = Some known -> rel_table schema = id ->
  upsert_relation (upsert_relation (introspected_catalog st) schema) (relation_schema known) = introspected_catalog st.
Proof.
  intros Hk Ht Hid. pose proof (proj1 (catalog_lookup st id Hk)) as Hwf. destruct Hk as [Hwfn Hkeys].
  assert (it_id known = id) as Eid.
  { unfold table_by_id in Ht. apply bt_get_in in Ht; [|done]. rewrite Forall_forall in Hkeys. by specialize (Hkeys _ Ht). }
  unfold upsert_relation. apply bt_ext; [by apply bt_wf_insert, bt_wf_insert | done|]. intros k.
  rewrite bt_get_insert by (by apply bt_wf_insert). rewrite bt_get_insert by done. change (rel_table (relation_schema known)) with (it_id known).
  rewrite Eid, Hid. destruct (decide (k = id)) as [->|]; [|done].
  pose proof (proj2 (catalog_lookup st id (conj Hwfn Hkeys))) as Hr. unfold relation in Hr. by rewrite Hr, Ht.
Qed.

(** ** Transactions on the wire *)

(** A committed transaction as the server streams it; the wire carries the low half of its id. *)
Record StreamedTx := { tx_xid : Z; tx_lsn : Z; tx_end_lsn : Z; tx_timestamp : Z; tx_body : list wire_msg }.
Definition tx_messages (t : StreamedTx) : list wire_msg :=
  W_Begin (tx_lsn t) (tx_timestamp t) (low_32 (tx_xid t)) :: tx_body t ++ [W_Commit 0 (tx_lsn t) (tx_end_lsn t) (tx_timestamp t)].

Section Applied.
Context (parse_f32 parse_f64 : text -> option Z) (display_wal : WalError -> string) (hash_order : list (Row * Z) -> list (Row * Z)).
Context (fence : SnapshotFence).
Abbreviation meaning := (meaning parse_f32 parse_f64).
Abbreviation apply_frame := (apply_frame parse_f32 parse_f64 display_wal fence).

(** What a message of a transaction's body means, if it may occur there. *)
Definition body_event (st : SharedState) (m : wire_msg) : option DecodedEvent :=
  match meaning (introspected_catalog st) m with
  | Ok (E_Row table op old new) => Some (E_Row table op old new)
  | Ok (E_Truncate t) => Some (E_Truncate t)
  | Ok (E_Type t) => Some (E_Type t)
  | Ok (E_Origin o) => Some (E_Origin o)
  | Ok (E_Schema table columns) =>
      match table_by_id st table with
      | Some known => if bool_decide (map col_name columns = map ic_name (it_columns known)) then Some (E_Schema table columns) else None
      | None => None
      end
  | _ => None
  end.
Definition body_ok (st : SharedState) (m : wire_msg) : bool := msg_ok m && bool_decide (is_Some (body_event st m)).
Definition tx_ok (st : SharedState) (t : StreamedTx) : bool :=
  msg_ok (W_Begin (tx_lsn t) (tx_timestamp t) (low_32 (tx_xid t))) && msg_ok (W_Commit 0 (tx_lsn t) (tx_end_lsn t) (tx_timestamp t)) &&
  forallb (body_ok st) (tx_body t).

(** The changes and the truncations of streamed tables, each in order. *)
Definition tx_changes (st : SharedState) (t : StreamedTx) : list Change :=
  filter_map (fun m => match body_event st m with
                       | Some (E_Row table op old new) => if streamed st table then Some (table, op, old, new) else None
                       | _ => None
                       end) (tx_body t).
Definition tx_truncates (st : SharedState) (t : StreamedTx) : list Z :=
  flat_map (fun m => match body_event st m with Some (E_Truncate tr) => List.filter (streamed st) (tr_tables tr) | _ => [] end) (tx_body t).
Definition tx_ingest (st : SharedState) (t : StreamedTx) : Ingest := IG_Commit (tx_lsn t) (tx_truncates st t) (tx_changes st t).

(** The tables known are those of the start. *)
Definition same_tables (st st' : SharedState) : Prop := pg_names_by_id st' = pg_names_by_id st.

Lemma ingest_same_tables st i : same_tables st (ingest hash_order st i).
Proof. unfold same_tables. destruct i as [lsn [|] [|]| |]; done. Qed.
Lemma same_tables_streamed st st' table : same_tables st st' -> table_by_id st' table = table_by_id st table.
Proof. unfold same_tables, table_by_id. by intros ->. Qed.
Lemma same_tables_event st st' m : same_tables st st' -> body_event st' m = body_event st m.
Proof.
  intros E. unfold body_event, introspected_catalog, pg_tables. rewrite E. destruct (meaning _ m) as [[]| |]; try done.
  by rewrite (same_tables_streamed st st').
Qed.

Lemma apply_commit_ingest st lsn p : apply_commit st lsn p = ingest hash_order st (IG_Commit lsn (pt_truncates p) (pt_changes p)).
Proof. by destruct p as [x [|] [|]]. Qed.

(** One message of a body. *)
Definition collect (st : SharedState) (p : PendingTransaction) (m : wire_msg) : PendingTransaction :=
  {| pt_xid := pt_xid p;
     pt_changes := pt_changes p ++ match body_event st m with
                                   | Some (E_Row table op old new) => if streamed st table then [(table, op, old, new)] else []
                                   | _ => []
                                   end;
     pt_truncates := pt_truncates p ++ match body_event st m with Some (E_Truncate tr) => List.filter (streamed st) (tr_tables tr) | _ => [] end |}.

Lemma collect_same st p m : (forall e, body_event st m = Some e -> match e with E_Row table _ _ _ => streamed st table = false | E_Truncate _ => False | _ => True end) ->
  collect st p m = p.
Proof.
  intros He. unfold collect. destruct p as [x c t]. cbn. destruct (body_event st m) as [e|]; [specialize (He e eq_refl)|]; [destruct e; try done|];
    rewrite ?He, ?app_nil_r; done.
Qed.

Lemma schema_message catalog m ev : meaning catalog m = Ok ev ->
  (forall id cols, ev <> E_Schema id cols) /\ catalog_after catalog m = catalog \/
  exists id cols, ev = E_Schema id cols /\ exists schema, catalog_after catalog m = upsert_relation catalog schema /\ rel_table schema = id.
Proof.
  intros Em. destruct m; cbn in Em; try (left; split; [|done]; intros ? ? ->; done); try (apply exec_bind_ok in Em as (? & _ & [= <-]); by left).
  - right. injection Em as <-. by repeat eexists.
  - apply exec_bind_ok in Em as (? & _ & Em). apply exec_bind_ok in Em as (? & _ & [= <-]). by left.
Qed.

Lemma body_frame st m p : keyed st -> body_ok st m = true ->
  apply_frame {| ap_runtime := st; ap_catalog := introspected_catalog st; ap_pending := Some p |} (encode_message m) =
  (Ok None, {| ap_runtime := st; ap_catalog := introspected_catalog st; ap_pending := Some (collect st p m) |}).
Proof.
  intros Hk [Hok [e He]%bool_decide_eq_true]%andb_prop. unfold Replication.apply_frame. cbn [ap_catalog ap_runtime ap_pending].
  rewrite decode_message by (done || by destruct m). pose proof He as He'. unfold body_event in He'.
  destruct (meaning (introspected_catalog st) m) as [ev| |] eqn:Em; [|done..].
  destruct (schema_message _ _ _ Em) as [[Hns ->]|(id & cols & -> & Hc)].
  - destruct ev; try done; cbn [apply_event ap_runtime ap_pending with_pending fmap option_fmap option_map].
    + injection He' as <-. destruct (streamed st table) eqn:Es.
      * unfold collect. rewrite He, Es. by rewrite app_nil_r.
      * rewrite collect_same; [done|]. rewrite He. by intros ? [= <-].
    + by destruct (Hns table columns).
    + injection He' as <-. unfold collect. rewrite He. by rewrite app_nil_r.
    + injection He' as <-. rewrite collect_same; [done|]. rewrite He. by intros ? [= <-].
    + injection He' as <-. rewrite collect_same; [done|]. rewrite He. by intros ? [= <-].
  - destruct (table_by_id st id) as [known|] eqn:Ek; [|done]. destruct (bool_decide _) eqn:En; [|done]. injection He' as <-.
    destruct Hc as (schema & -> & Hid). cbn [apply_event ap_runtime ap_catalog ap_pending]. rewrite Ek, En, (catalog_pinned st id) by done.
    rewrite collect_same; [done|]. rewrite He. by intros ? [= <-].
Qed.
(** ** Runs of frames *)

(** The frames of a session, and the largest commit applied. *)
Fixpoint frames (x : Applier * Z) (payloads : list text) : option (Applier * Z) :=
  match payloads with
  | [] => Some x
  | payload :: rest =>
      match apply_frame x.1 payload with
      | (Ok r, a) => frames (a, match r with Some lsn => Z.max x.2 lsn | None => x.2 end) rest
      | _ => None
      end
  end.
Lemma frames_app x a b : frames x (a ++ b) = frames x a ≫= fun x => frames x b.
Proof. revert x. induction a as [|p a IH]; intros x; simpl; [done|]. destruct (apply_frame x.1 p) as [[] ?]; [apply IH | done..]. Qed.

Definition idle (st : SharedState) : Applier := {| ap_runtime := st; ap_catalog := introspected_catalog st; ap_pending := None |}.
Definition busy (st : SharedState) (p : PendingTransaction) : Applier :=
  {| ap_runtime := st; ap_catalog := introspected_catalog st; ap_pending := Some p |}.
Definition fresh (t : StreamedTx) : PendingTransaction := {| pt_xid := low_32 (tx_xid t); pt_changes := []; pt_truncates := [] |}.

Lemma body_frames st ms : forall p n, keyed st -> forallb (body_ok st) ms = true ->
  frames (busy st p, n) (map encode_message ms) = Some (busy st (fold_left (collect st) ms p), n).
Proof.
  induction ms as [|m ms IH]; intros p n Hk Hok; [done|]. cbn [forallb] in Hok. apply andb_prop in Hok as [Hm Hok].
  cbn [map frames fst snd]. unfold busy at 1. rewrite body_frame by done. by apply IH.
Qed.
Lemma collect_all st ms : forall p, let p' := fold_left (collect st) ms p in
  pt_xid p' = pt_xid p /\
  pt_changes p' = pt_changes p ++ filter_map (fun m => match body_event st m with
                       | Some (E_Row table op old new) => if streamed st table then Some (table, op, old, new) else None
                       | _ => None
                       end) ms /\
  pt_truncates p' = pt_truncates p ++ flat_map (fun m => match body_event st m with Some (E_Truncate tr) => List.filter (streamed st) (tr_tables tr) | _ => [] end) ms.
Proof.
  induction ms as [|m ms IH]; intros p; cbn [fold_left filter_map flat_map]; [by rewrite !app_nil_r|].
  destruct (IH (collect st p m)) as (-> & -> & ->). split; [done|]. cbn [collect pt_changes pt_truncates]. rewrite <- !app_assoc. split; [|done].
  destruct (body_event st m) as [[]|]; try done. by destruct (streamed st table).
Qed.

(** A transaction the snapshot has seen is skipped. *)
Definition apply_tx (st : SharedState) (t : StreamedTx) : SharedState :=
  if already_in_snapshot fence (low_32 (tx_xid t)) then st else ingest hash_order st (tx_ingest st t).
Definition last_lsn (n : Z) (txs : list StreamedTx) : Z := fold_left (fun n t => Z.max n (tx_lsn t)) txs n.
Definition stream_of (txs : list StreamedTx) : list text := map encode_message (concat (map tx_messages txs)).

Lemma apply_tx_tables st t : same_tables st (apply_tx st t).
Proof. unfold apply_tx. destruct (already_in_snapshot _ _); [done | apply ingest_same_tables]. Qed.
Lemma same_tables_idle st st' : same_tables st st' -> introspected_catalog st' = introspected_catalog st.
Proof. unfold same_tables, introspected_catalog, pg_tables. by intros ->. Qed.
Lemma same_tables_keyed st st' : same_tables st st' -> keyed st -> keyed st'.
Proof. unfold same_tables, keyed. by intros ->. Qed.
Lemma same_tables_tx st st' t : same_tables st st' -> tx_ok st' t = tx_ok st t.
Proof.
  intros E. unfold tx_ok. f_equal. induction (tx_body t) as [|m ms IH]; [done|]. simpl. rewrite IH. f_equal. unfold body_ok.
  by rewrite (same_tables_event st st').
Qed.

Lemma begin_frame st t n rest : tx_ok st t = true ->
  frames (idle st, n) (encode_message (W_Begin (tx_lsn t) (tx_timestamp t) (low_32 (tx_xid t))) :: rest) = frames (busy st (fresh t), n) rest.
Proof.
  intros [[Hb _]%andb_prop _]%andb_prop. cbn [frames fst snd]. unfold Replication.apply_frame. rewrite decode_message by done. done.
Qed.

Lemma tx_frames st t n : keyed st -> tx_ok st t = true ->
  frames (idle st, n) (map encode_message (tx_messages t)) = Some (idle (apply_tx st t), Z.max n (tx_lsn t)).
Proof.
  intros Hk Hok. unfold tx_messages. cbn [map]. rewrite begin_frame, map_app, frames_app by done.
  pose proof Hok as [[_ Hc]%andb_prop Hb]%andb_prop. rewrite body_frames by done. cbn [mbind option_bind frames map fst snd].
  unfold Replication.apply_frame. rewrite decode_message by done. cbn [meaning Wire.meaning catalog_after apply_event ap_pending busy ap_runtime ap_catalog].
  destruct (collect_all st (tx_body t) (fresh t)) as (-> & Ec & Et). cbn [fresh pt_changes pt_truncates app] in Ec, Et.
  unfold apply_tx. cbn [fresh pt_xid]. destruct (already_in_snapshot fence (low_32 (tx_xid t))); [done|].
  rewrite apply_commit_ingest, Ec, Et. unfold idle. by rewrite (same_tables_idle st (ingest hash_order st (tx_ingest st t))) by apply ingest_same_tables.
Qed.

Lemma forallb_tables st st' txs : same_tables st st' -> forallb (tx_ok st) txs = true -> forallb (tx_ok st') txs = true.
Proof.
  intros E. induction txs as [|t txs IH]; [done|]. cbn [forallb]. rewrite (same_tables_tx st st') by done. intros [-> Hok]%andb_prop. by apply IH.
Qed.

Lemma txs_frames txs : forall st n, keyed st -> forallb (tx_ok st) txs = true ->
  frames (idle st, n) (stream_of txs) = Some (idle (fold_left apply_tx txs st), last_lsn n txs).
Proof.
  induction txs as [|t txs IH]; intros st n Hk Hok; [done|]. cbn [forallb] in Hok. apply andb_prop in Hok as [Ht Hok].
  unfold stream_of. cbn [map concat]. rewrite map_app, frames_app, tx_frames by done. cbn [mbind option_bind]. apply IH.
  - by apply (same_tables_keyed st), Hk; apply apply_tx_tables.
  - by apply (forallb_tables st), Hok; apply apply_tx_tables.
Qed.
Lemma forallb_take {A} (f : A -> bool) k l : forallb f l = true -> forallb f (take k l) = true.
Proof. revert k. induction l as [|x l IH]; intros [|k]; simpl; [done..|]. intros [-> Hl]%andb_prop. by apply IH. Qed.

(** Stopped inside a transaction, nothing of it is applied. *)
Lemma tx_prefix st t n k x : keyed st -> tx_ok st t = true -> (k < length (tx_messages t))%nat ->
  frames (idle st, n) (take k (map encode_message (tx_messages t))) = Some x -> ap_runtime x.1 = st /\ x.2 = n.
Proof.
  intros Hk Hok Hlt. unfold tx_messages in *. cbn [map] in *. destruct k as [|k]; [by intros [= <-]|]. cbn [take length] in *.
  rewrite begin_frame, map_app, take_app_le, firstn_map by (done || (rewrite length_map; rewrite length_app in Hlt; simpl in Hlt; lia)).
  pose proof Hok as [_ Hb]%andb_prop. rewrite body_frames; [by intros [= <-] | done | by apply forallb_take].
Qed.

Lemma stream_prefix txs : forall st n k x, keyed st -> forallb (tx_ok st) txs = true -> frames (idle st, n) (take k (stream_of txs)) = Some x ->
  exists done rest, txs = done ++ rest /\ ap_runtime x.1 = fold_left apply_tx done st /\ x.2 = last_lsn n done /\
    ((length (stream_of txs) <= k)%nat -> rest = []).
Proof.
  induction txs as [|t txs IH]; intros st n k x Hk Hok Hx.
  { change (stream_of []) with (@nil text) in Hx. rewrite take_nil in Hx. injection Hx as <-. by exists [], []. }
  pose proof Hok as Hall. cbn [forallb] in Hok. apply andb_prop in Hok as [Ht Hok].
  assert (stream_of (t :: txs) = map encode_message (tx_messages t) ++ stream_of txs) as Es by (unfold stream_of; cbn [map concat]; by rewrite map_app).
  destruct (Nat.lt_ge_cases k (length (tx_messages t))) as [Hlt|Hge].
  - rewrite Es, take_app_le in Hx by (rewrite length_map; lia). destruct (tx_prefix _ _ _ _ _ Hk Ht Hlt Hx) as [Er En].
    exists [], (t :: txs). repeat split; [done..|]. rewrite Es, length_app, length_map. lia.
  - rewrite Es, take_app_ge, frames_app, tx_frames in Hx by (done || (rewrite length_map; lia)). rewrite length_map in Hx. cbn [mbind option_bind] in Hx.
    destruct (IH _ _ _ _ (same_tables_keyed st _ (apply_tx_tables st t) Hk) (forallb_tables st _ txs (apply_tx_tables st t) Hok) Hx) as (done & rest & -> & Er & En & Hf).
    exists (t :: done), rest. repeat split; [done..|]. rewrite Es, length_app, length_map. intros Hle. apply Hf. lia.
Qed.

(** ** The session *)

Definition item_payload (i : copy_item) : option text := match i with CI_XLogData _ _ _ payload => Some payload | _ => None end.
Definition payloads (items : list copy_item) : list text := filter_map item_payload items.

(** Timers and events, every write goes through. *)
Definition calm (wake : Wake) : bool := match wake with W_Timer None | W_Event None => true | _ => false end.
Definition polls_events (wakes : list Wake) : nat := length (List.filter (fun wake => match wake with W_Event _ => true | _ => false end) wakes).

Lemma first_event_payloads items :
  payloads items = match first_event items with
                   | Some (XLogData _ payload, rest) => payload :: payloads rest
                   | Some (_, rest) => payloads rest
                   | None => []
                   end.
Proof. unfold payloads. induction items as [|i items IH]; [done|]. destruct i; simpl; done. Qed.
Lemma first_event_open items rest : first_event items <> Some (Closed, rest).
Proof. induction items as [|i items IH]; [done|]. by destruct i. Qed.
Lemma payloads_events items : (length (payloads items) <= length (filter_map item_event items))%nat.
Proof. unfold payloads. induction items as [|i items IH]; simpl; [lia|]. destruct i; simpl; lia. Qed.

Lemma frames_take x l k : is_Some (frames x l) -> is_Some (frames x (take k l)).
Proof.
  intros Hs. rewrite <- (take_drop k l), frames_app in Hs. destruct (frames x (take k l)); [eauto|]. by destruct Hs.
Qed.

Abbreviation session := (stream_session parse_f32 parse_f64 display_wal fence).

Lemma session_runs wakes : forall items w,
  Forall item_ok items -> flowing (ws_stream w) (concat (map enc_item items)) ->
  is_Some (frames (ws_applier w, ws_applied_lsn w) (payloads items)) -> forallb calm wakes = true ->
  exists w' k, session w wakes = (w', None) /\ frames (ws_applier w, ws_applied_lsn w) (take k (payloads items)) = Some (ws_applier w', ws_applied_lsn w') /\
    ws_applied_lsn w <= ws_applied_lsn w' /\
    (exists new, ws_statuses w' = ws_statuses w ++ new /\ Forall (fun p => p.2 <= ws_applied_lsn w') new) /\
    ((length (filter_map item_event items) <= polls_events wakes)%nat -> (length (payloads items) <= k)%nat).
Proof.
  induction wakes as [|wake wakes IH]; intros items w Hok Hs Hf Hcalm.
  { exists w, 0%nat. repeat split; [lia | by exists []; rewrite app_nil_r | pose proof (payloads_events items); unfold polls_events; simpl; lia]. }
  cbn [forallb] in Hcalm. apply andb_prop in Hcalm as [Hc Hcalm]. cbn [stream_session]. destruct wake as [|[]|[]]; try done; cbn [session_wake].
  - cbn [send_status].
    match goal with |- context [stream_session _ _ _ _ ?w1 wakes] => destruct (IH items w1 Hok Hs Hf Hcalm) as (w' & k & Hrun & Hfr & Hle & (new & Hn & Hnew) & Hk) end.
    exists w', k. cbn in *. repeat split; [done..| |done]. exists ((ws_received_lsn w, ws_applied_lsn w) :: new).
    split; [by rewrite Hn, <- app_assoc | by constructor].
  - destruct (next_event_items (ws_stream w) items Hok Hs) as (s1 & Hnext & Hs1). rewrite Hnext.
    pose proof (first_event_payloads items) as Ep. pose proof (first_event_events items) as Ee.
    pose proof (fun e rest => first_event_ok items e rest Hok) as Hrest. unfold polls_events in *. cbn [List.filter length].
    destruct (first_event items) as [[e rest]|] eqn:Efirst; cbn [fmap option_fmap option_map compose fst].
    + destruct e as [wal_end payload|wal_end reply|].
      * cbn [session_event with_received ws_applier]. rewrite Ep in Hf |- *. cbn [frames fst snd] in Hf.
        destruct (apply_frame (ws_applier w) payload) as [r a] eqn:Ea. destruct r as [r| |]; [|by destruct Hf..].
        match goal with |- context [stream_session _ _ _ _ ?w1 wakes] => destruct (IH rest w1 (Hrest _ _ eq_refl) Hs1 Hf Hcalm) as (w' & k & Hrun & Hfr & Hle & Hn & Hk) end.
        exists w', (S k). cbn in *. rewrite Ea. repeat split; [done.. | destruct r; lia | done |]. rewrite Ee. simpl. lia.
      * rewrite Ep in Hf |- *. cbn [session_event with_received]. destruct reply; cbn [send_status];
          match goal with |- context [stream_session _ _ _ _ ?w1 wakes] => destruct (IH rest w1 (Hrest _ _ eq_refl) Hs1 Hf Hcalm) as (w' & k & Hrun & Hfr & Hle & (new & Hn & Hnew) & Hk) end;
          exists w', k; cbn in *; (repeat split; [done..| |rewrite Ee; simpl; lia]).
        -- eexists (_ :: new). rewrite Hn, <- app_assoc. split; [done | by constructor].
        -- by exists new.
      * by destruct (first_event_open items rest).
    + match goal with |- context [stream_session _ _ _ _ ?w1 wakes] => destruct (IH [] w1 ltac:(constructor) Hs1) as (w' & k & Hrun & Hfr & Hle & Hn & Hk) end; [by eexists | done |].
      exists w', k. rewrite Ep. cbn in *. rewrite take_nil in *. repeat split; [done..|lia].
Qed.
(** Applied transactions as a history of the runtime. *)
Definition unseen_txs (txs : list StreamedTx) : list StreamedTx := List.filter (fun t => negb (seen fence (tx_xid t))) txs.

Lemma same_tables_ingest st st' t : same_tables st st' -> tx_ingest st' t = tx_ingest st t.
Proof.
  intros E. assert (forall table, streamed st' table = streamed st table) as Es by (intros; unfold streamed; by rewrite (same_tables_streamed st st')).
  unfold tx_ingest, tx_truncates, tx_changes. f_equal.
  - apply flat_map_ext. intros m. rewrite (same_tables_event st st') by done. destruct (body_event st m) as [[]|]; try done. by apply List.filter_ext.
  - induction (tx_body t) as [|m ms IH]; [done|]. cbn [filter_map]. rewrite (same_tables_event st st'), IH by done.
    destruct (body_event st m) as [[]|]; try done. by rewrite Es.
Qed.

Lemma applied_history st0 txs : forall st, same_tables st0 st -> fence_ok fence -> Forall (fun t => near fence (tx_xid t)) txs ->
  fold_left apply_tx txs st = ingest_all hash_order st (map (tx_ingest st0) (unseen_txs txs)).
Proof.
  induction txs as [|t txs IH]; intros st E Hf Hn; [done|]. inversion Hn; subst. cbn [fold_left].
  rewrite IH by (try done; unfold same_tables; by rewrite apply_tx_tables). unfold unseen_txs, apply_tx. cbn [List.filter].
  rewrite fence_window by done. destruct (seen fence (tx_xid t)); cbn [negb]; [done|]. cbn [map ingest_all fold_left].
  by rewrite (same_tables_ingest st0 st).
Qed.

(** C2: From the bytes of the replication connection to the mirror: the server streams committed
    transactions, none in streamed segments, as pgoutput messages in XLogData frames, mixed with
    keepalives and notices and cut into reads in any way, while the session polls events and sends
    status updates at any times and every write goes through. The transaction ids, and those the
    snapshot found in progress, are within 2^31 of the snapshot's horizon; the bodies hold rows and
    truncations that decode under the introspected catalog, and Relation messages only of
    introspected tables with their introspected column names. At every moment the session is alive,
    the runtime is what it was after a history of exactly those completed transactions that the
    snapshot had not seen, each once and in commit order, with its truncations before its changes,
    nothing of an unfinished one is applied, and no status update has reported a flushed position
    beyond the last completed commit; once every event is polled, all transactions are completed. *)
Theorem replication_exact items txs st s wakes :
  keyed st -> fence_ok fence -> Forall (fun t => near fence (tx_xid t)) txs -> forallb (tx_ok st) txs = true ->
  Forall item_ok items -> payloads items = stream_of txs -> flowing s (concat (map enc_item items)) -> forallb calm wakes = true ->
  exists w done rest,
    stream_session parse_f32 parse_f64 display_wal fence (session_new st s) wakes = (w, None) /\ txs = done ++ rest /\
    ap_runtime (ws_applier w) = ingest_all hash_order st (map (tx_ingest st) (unseen_txs done)) /\
    ws_applied_lsn w = last_lsn 0 done /\ Forall (fun status => status.2 <= last_lsn 0 done) (ws_statuses w) /\
    ((length (filter_map item_event items) <= polls_events wakes)%nat -> rest = []).
Proof.
  intros Hk Hf Hn Hok Hi Ep Hs Hc.
  destruct (session_runs wakes items (session_new st s) Hi Hs) as (w & k & Hrun & Hfr & _ & (new & Hst & Hnew) & Hall); [|done|].
  { rewrite Ep. cbn [session_new ws_applier ws_applied_lsn]. change {| ap_runtime := st; ap_catalog := _; ap_pending := None |} with (idle st).
    rewrite txs_frames by done. by eexists. }
  rewrite Ep in Hfr, Hall. destruct (stream_prefix txs st 0 k _ Hk Hok Hfr) as (done & rest & -> & Er & En & Hrest). cbn [fst snd] in Er, En.
  exists w, done, rest. split; [done|]. split; [done|]. apply Forall_app in Hn as [Hn _].
  split; [rewrite Er; by apply applied_history|]. split; [done|]. split; [rewrite Hst, <- En; exact Hnew | auto].
Qed.
End Applied.

(** ** Everything the task does to the runtime is a history *)

Section History.
Context (parse_f32 parse_f64 : text -> option Z) (display_wal : WalError -> string) (hash_order : list (Row * Z) -> list (Row * Z)).

Definition evolves (st st' : SharedState) : Prop := exists h, st' = ingest_all hash_order st h.
Lemma evolves_refl st : evolves st st.
Proof. by exists []. Qed.
Lemma evolves_trans st1 st2 st3 : evolves st1 st2 -> evolves st2 st3 -> evolves st1 st3.
Proof. intros [h ->] [h' ->]. exists (h ++ h'). unfold ingest_all. by rewrite fold_left_app. Qed.
Lemma evolves_step st i : evolves st (ingest hash_order st i).
Proof. by exists [i]. Qed.
Hint Resolve evolves_refl evolves_step : core.

Lemma event_evolves fence a e : evolves (ap_runtime a) (ap_runtime (apply_event fence a e).2).
Proof.
  destruct e; cbn [apply_event snd]; try apply evolves_refl.
  - by destruct (streamed _ _).
  - destruct (ap_pending a) as [tx|]; [|done]. cbn. destruct (already_in_snapshot _ _); [done|]. rewrite (apply_commit_ingest hash_order). done.
  - destruct (table_by_id _ _); [|done]. by destruct (bool_decide _).
Qed.
Lemma frame_evolves fence a payload : evolves (ap_runtime a) (ap_runtime (apply_frame parse_f32 parse_f64 display_wal fence a payload).2).
Proof.
  unfold apply_frame. destruct (decode_pgoutput_message _ _ _ _) as [[e|err|] catalog]; [|done..].
  exact (event_evolves fence {| ap_runtime := ap_runtime a; ap_catalog := catalog; ap_pending := ap_pending a |} e).
Qed.

Abbreviation runtime_of w := (ap_runtime (ws_applier w)).
Lemma status_evolves w sent : evolves (runtime_of w) (runtime_of (send_status w sent).1).
Proof. by destruct sent. Qed.
Lemma wake_evolves fence w wake : evolves (runtime_of w) (runtime_of (session_wake parse_f32 parse_f64 display_wal fence w wake).1).
Proof.
  destruct wake as [|sent|sent]; cbn [session_wake fst]; [done | apply status_evolves |].
  destruct (next_event (ws_stream w)) as [[[e|err|]|] s]; [|done..]. destruct e as [wal_end payload|wal_end []|]; cbn [session_event]; [| by destruct sent | done..].
  cbn [with_received ws_applier]. pose proof (frame_evolves fence (ws_applier w) payload) as Hf. by destruct (apply_frame _ _ _ _ _ _) as [r a].
Qed.
Lemma session_evolves fence wakes : forall w, evolves (runtime_of w) (runtime_of (stream_session parse_f32 parse_f64 display_wal fence w wakes).1).
Proof.
  induction wakes as [|wake wakes IH]; intros w; [done|]. cbn [stream_session]. pose proof (wake_evolves fence w wake) as Hw.
  destruct (session_wake _ _ _ _ _ _) as [w1 [o|]]; [done|]. by eapply evolves_trans.
Qed.

Lemma attempt_evolves t a : evolves (task_runtime t) (task_runtime (run_attempt parse_f32 parse_f64 display_wal hash_order t a).1).
Proof.
  unfold run_attempt. assert (evolves (task_runtime t) (task_runtime (reconcile_after_disconnect hash_order t a).1)) as Hr.
  { unfold reconcile_after_disconnect. destruct (task_first_attempt t); [done|]. destruct (reconnect_next_delay _). destruct (at_snapshot a) as [[[lsn f] rows]|]; [|done].
    exact (evolves_step _ (IG_Reconcile lsn rows)). }
  destruct (reconcile_after_disconnect hash_order t a) as [t1 ready]. destruct ready; [|done]. cbn [negb fst] in *.
  assert (evolves (task_runtime t1) (run_session parse_f32 parse_f64 display_wal (task_runtime t1) (task_fence t1) a).1) as Hs.
  { unfold run_session. destruct (at_stream a) as [|s]; [done|]. destruct (await_copy_both s) as [[[|[]|]|] s1]; try done.
    pose proof (session_evolves (task_fence t1) (at_wakes a) (session_new (task_runtime t1) s1)) as Hs.
    by destruct (stream_session _ _ _ _ _ _) as [w o]. }
  destruct (run_session _ _ _ _ _ _) as [st outcome]. cbn [fst] in Hs. eapply evolves_trans; [exact Hr|].
  destruct outcome as [[]|]; cbn; try done. eapply evolves_trans; [exact Hs|]. exact (evolves_step _ (IG_Fail (text_string message))).
Qed.

(** Whatever bytes arrive, connections fail and snapshots are taken, the task changes the runtime
    only by commits, reconciliations and a latched failure. *)
Theorem task_is_history attempts : forall t,
  exists h, task_runtime (ingest_task parse_f32 parse_f64 display_wal hash_order t attempts).1 = ingest_all hash_order (task_runtime t) h.
Proof.
  change (forall t, evolves (task_runtime t) (task_runtime (ingest_task parse_f32 parse_f64 display_wal hash_order t attempts).1)).
  induction attempts as [|a attempts IH]; intros t; [done|]. cbn [ingest_task]. pose proof (attempt_evolves t a) as Ha.
  destruct (run_attempt _ _ _ _ _ _) as [t1 []]; [|done..]. by eapply evolves_trans.
Qed.
End History.
