(* ===== verification/Witnesses.v ===== *)
(** * Witnesses: the theorems applied to concrete inputs

    Each lemma instantiates one theorem where its hypotheses hold. The parameters of
    the model are a rendering, the list channel, the list graph, a query with one
    guarded table, a rule set and a router history; the wire path and the client run
    at one schema, one transaction and one mirrored table. *)

From stdpp Require Import relations.
From Stdlib Require Import Sorted.
From S2P Require Import Prelude BTree Text Values Literals Catalog Protocol Wire WalSource Shared UserContext.
From S2P Require Import CanonicalKey Spill Watermarks Registry Channel Cursor Pairing Permissions PermissionFacts Mir Rewriter.
From S2P Require Import Router RouterInv RouterSpec ProtoWire Transport Client EndToEnd Reconcile Replica SqlAdapter.

(** ** A small concrete instance *)

#[export] Instance demo_rendering : Rendering :=
  {| json := text; json_to_string := id; f64_display := fun _ => lit "0" |}.

(** [SELECT ... FROM posts]: the table is node 0, the projection node 1. *)
Definition demo_graph : MirGraph :=
  let g0 := mir_new (BaseTable (lit "posts") []) in
  let '(project, g1) := mir_add_node g0 (Project [lit "id"]) in
  set_root (add_input g1 0 project) project.

Lemma demo_graph_wf : graph_wf demo_graph.
Proof.
  unfold demo_graph. pose proof (mir_new_wf (BaseTable (lit "posts") [])) as H0.
  pose proof (mir_add_node_wf _ (Project [lit "id"]) H0) as H1. cbn in H1 |- *.
  apply set_root_wf; [|by vm_compute; lia]. apply add_input_wf; [exact H1 | by vm_compute; lia..].
Qed.

(** [author_id = $user.id], on [posts]. *)
Definition demo_rule : CompiledRule :=
  {| cr_name := lit "posts_owner"; cr_table := lit "posts"; cr_mode := Both;
     cr_predicate := {| canonical := lit "author_id = __palimpsest_user_id__"; user_fields := [(lit "id", tt)] |};
     cr_latest := None |}.
Definition demo_ctx : UserContext := [(lit "id", UV_Int 7)].

Definition demo_config : RouterConfig :=
  {| channel_capacity := 2; backpressure := DropAndResync; default_latest_known_lsn := 1000 |}.

(** A compiled plan is the list of tables whose rows it keeps. *)
Definition demo_run (plan : list Z) (inputs : gmap Z (list Row)) : exec RouterError (list Row) :=
  Ok (concat (map (fun t => default [] (inputs !! t)) plan)).

Definition demo_provider : SnapshotProvider :=
  fun _ => Ok {| sb_snapshot_lsn := 10; sb_rows := [{| st_table := 1; st_rows := [[D_I64 1]; [D_I64 2]] |}] |}.

Definition demo_schema : SchemaDefinition :=
  {| schema_id := 1; schema_columns := []; primary_key_columns := [0%nat] |}.

Definition demo_request (id : Z) (plan : option (list Z)) : SubscribeRequest :=
  {| rq_connection := 1; rq_subscription_id := id; rq_client_id := pretty id; rq_query := lit "q";
     rq_query_graph := demo_graph; rq_user_ctx := demo_ctx; rq_schema := demo_schema; rq_resume_lsn := None;
     rq_compiled_plan := plan; rq_prerun_initial := None |}.

(** A router with one rule and one live subscription, id 1. *)
Definition demo_router0 : RouterInner := set_rules router_new [demo_rule].
Definition demo_router : RouterInner :=
  (subscribe demo_run demo_config demo_router0 (demo_request 1 (Some [1])) demo_provider).2.


(** ** A history of the system *)

(** The value of a call that succeeds. *)
Definition get_ok {E A : Type} (r : exec E A) : match r with Ok _ => A | Err _ | Panic => unit end :=
  match r with Ok a => a | Err _ | Panic => tt end.

Definition demo_prepared : Prepared :=
  get_ok (prepare demo_run demo_config [demo_rule] (demo_request 1 (Some [1])) demo_provider).

Definition demo_sys_rules : System := with_inner sys_init demo_router0.
Definition demo_sys_issued : System :=
  {| sys_inner := demo_router0; sys_next := 2; sys_issued := {[ 1 ]} ∪ ∅; sys_inflight := ∅ |}.
Definition demo_sys_inflight : System :=
  {| sys_inner := demo_router0; sys_next := 2; sys_issued := ({[ 1 ]} ∪ ∅) ∖ {[ 1 ]};
     sys_inflight := <[1 := demo_prepared]> ∅ |}.
Definition demo_sys : System :=
  {| sys_inner := (commit demo_router0 demo_prepared).2; sys_next := 2; sys_issued := ({[ 1 ]} ∪ ∅) ∖ {[ 1 ]};
     sys_inflight := delete 1 (<[1 := demo_prepared]> ∅) |}.

Lemma demo_sys_inflight_reachable : rtc (sys_step demo_run demo_config) sys_init demo_sys_inflight.
Proof.
  apply (rtc_l _ _ demo_sys_rules); [apply S_set_rules|].
  apply (rtc_l _ _ demo_sys_issued); [apply (S_allocate _ _ demo_sys_rules); done|].
  apply rtc_once. apply (S_prepare demo_run demo_config demo_sys_issued (demo_request 1 (Some [1])) demo_provider demo_prepared).
  - set_solver.
  - vm_compute. reflexivity.
Qed.

Lemma demo_sys_reachable : rtc (sys_step demo_run demo_config) sys_init demo_sys.
Proof.
  eapply rtc_r; [apply demo_sys_inflight_reachable|].
  apply (S_commit demo_run demo_config demo_sys_inflight 1 demo_prepared); vm_compute; reflexivity.
Qed.

Lemma demo_router_wf : inner_wf demo_config demo_router.
Proof.
  assert (demo_router = sys_inner demo_sys) as -> by (vm_compute; reflexivity).
  apply (sw_inner demo_config), (reachable_wf demo_run), demo_sys_reachable.
Qed.

(** A decidable goal, by evaluation. *)
Ltac decide_now :=
  match goal with |- ?P => apply (proj1 (bool_decide_eq_true P)); vm_compute; reflexivity end.

(** ** Decoding *)

Definition no_float (t : text) : option Z := None.

Definition demo_message : wire_msg :=
  W_Relation 7 "public" "posts" RI_Full
    [{| wc_flags := 1; wc_name := "id"; wc_type_oid := 20; wc_typmod := 0 |}].


Lemma days_from_civil_calendar_witness :
  days_from_civil 1970 1 1 = Ok 0 /\
  exists n, days_from_civil 2024 2 28 = Ok n /\ (year_ok 2024 -> days_from_civil 2024 2 29 = Ok (n + 1)).
Proof.
  apply (days_from_civil_calendar 2024 2 28); [unfold year_ok; lia|].
  split; [lia|]. change (days_in_month 2024 2) with 29. lia.
Defined.

Definition demo_uuid : Uuid := {| as_bytes := repeat x5a 16 |}.

Lemma parse_uuid_display_witness :
  datum_wf (D_Uuid demo_uuid) = true /\ parse_uuid (uuid_display demo_uuid) = Ok demo_uuid.
Proof. split; [reflexivity|]. apply parse_uuid_display. reflexivity. Defined.

Lemma decode_binary_encode_witness :
  datum_wf (D_I32 (-2)) = true /\ decode_binary T_I32 [xff; xff; xff; xfe] = Ok (D_I32 (-2)).
Proof.
  split; [vm_compute; reflexivity|]. apply decode_binary_encode; vm_compute; reflexivity.
Defined.

(** ** Transactions *)

Definition demo_body : list DecodedEvent :=
  [E_Row 1 Insert None (Some [D_I64 1]); E_Row 1 Update (Some [D_I64 1]) (Some [D_I64 2])].

Definition demo_before : WalSource.database := fun _ => [].
Definition demo_after : WalSource.database := set_table (set_table demo_before 1 [[D_I64 1]]) 1 [[D_I64 2]].

Lemma demo_performs : performs 5 demo_before demo_body demo_after.
Proof.
  apply P_insert. eapply (P_update _ _ 1 [D_I64 1] [D_I64 2] []); [vm_compute; reflexivity|].
  apply P_done.
Qed.

Lemma transaction_refines_rows_witness :
  exists tx ts st',
    apply_events WalSourceState_new (E_Begin 5 100 :: demo_body ++ E_Commit 100 110 :: []) = (tx :: ts, st') /\
    wt_xid tx = Some 5 /\ WalSource.weight 1 (fun _ => true) (wt_updates tx) = 1.
Proof.
  destruct (transaction_refines_rows 5 (E_Begin 5 100) demo_body (E_Commit 100 110) 100 110 [] demo_before demo_after eq_refl demo_performs eq_refl)
    as (tx & ts & st' & Ha & _ & Hx & _ & _ & _ & Hn).
  exists tx, ts, st'. split; [exact Ha|]. split; [exact Hx|]. specialize (Hn 1 (fun _ => true)).
  change (copies demo_after 1 (fun _ => true)) with 1 in Hn. change (copies demo_before 1 (fun _ => true)) with 0 in Hn. lia.
Defined.

Lemma abort_discards_witness :
  apply_events WalSourceState_new (E_Stream (SA_Start 5 true) :: demo_body ++ E_Stream (SA_Abort 5 5) :: []) = apply_events WalSourceState_new [].
Proof. apply (abort_discards 5 5 _ _ _ demo_before demo_after); [reflexivity | exact demo_performs]. Defined.

(** ** Keys and shared subgraphs *)

Lemma canonical_key_exact_witness :
  canonical_subgraph_key (lit "q") (bt_from_list [(lit "id", UV_Int 7)]) =
  canonical_subgraph_key (lit "q") (bt_from_list [(lit "id", UV_Int 8)]) <->
  lit "q" = lit "q" /\ ctx_equiv (bt_from_list [(lit "id", UV_Int 7)]) (bt_from_list [(lit "id", UV_Int 8)]).
Proof.
  apply canonical_key_exact;
    [apply bt_wf_from_list | apply bt_wf_from_list | | |
      refine (Forall_cons_2 _ (lit "id", UV_Int 7) [] _ (Forall_nil_2 _)) |
      refine (Forall_cons_2 _ (lit "id", UV_Int 8) [] _ (Forall_nil_2 _))];
    decide_now.
Defined.

Lemma shared_refines_counts_witness :
  exists a r1 o r2,
    acquire shared_new "k" = Some (a, r1) /\ shared_wf r1 /\ counts r1 = bump "k" (counts shared_new) /\
    (match a with Created _ => counts shared_new !! "k" = None
     | Reused _ n => counts shared_new !! "k" = Some (n - 1) end) /\
    release r1 (acquire_id a) = (Some o, r2) /\ shared_wf r2 /\ counts r2 = counts shared_new /\
    (o = Teardown (acquire_id a) "k" <-> counts shared_new !! "k" = None).
Proof.
  apply shared_refines_counts; [apply shared_new_wf | vm_compute; reflexivity|].
  intros n Hn. vm_compute in Hn. discriminate.
Defined.

(** ** Channels *)

Definition demo_channel : BoundedDiffChannel :=
  get_ok (@channel_new _ RouterError 1 DropAndResync).

Lemma channel_fifo_bounded_witness :
  exists i d n c', chan_run demo_channel [Send (Ev_Initial 1 []); Send (Ev_Update 2 []); Recv] = (i, d, n, c') /\
    queued demo_channel ++ i = d ++ queued c' /\
    Z.of_nat (length (queued c')) <= mpsc_capacity (sender c') /\
    full_events c' = uint 64 (full_events demo_channel + n).
Proof.
  destruct (chan_run demo_channel [Send (Ev_Initial 1 []); Send (Ev_Update 2 []); Recv]) as [[[i d] n] c'] eqn:Hr.
  exists i, d, n, c'. split; [reflexivity|].
  apply (channel_fifo_bounded demo_channel [Send (Ev_Initial 1 []); Send (Ev_Update 2 []); Recv]); [|vm_compute; split; discriminate|exact Hr].
  vm_compute. discriminate.
Defined.

(** ** Permissions *)

Definition demo_template : template :=
  {| tp_parts := [(lit "author_id = ", lit "id")]; tp_tail := lit " OR public" |}.

Lemma materialize_substitutes_witness :
  template_ok demo_template = true /\
  materialize {| canonical := tp_render demo_template; user_fields := [] |} demo_ctx = Ok (lit "author_id = 7 OR public").
Proof.
  split; [vm_compute; reflexivity|].
  rewrite (materialize_substitutes demo_template [] demo_ctx ltac:(vm_compute; reflexivity)).
  vm_compute. reflexivity.
Defined.

Definition demo_catalog : SqlCatalog :=
  catalog_new [{| ts_name := lit "posts"; ts_columns := [{| col_name := lit "author_id"; col_ty := CT_Int |}] |}].
Definition demo_source_rule : PermissionRule :=
  {| pr_name := lit "posts_owner"; pr_table := lit "posts"; pr_predicate := lit "author_id = $user.id";
     pr_mode := Both; pr_latest := None |}.
Definition demo_user_schema : btree text ColumnType := [(lit "id", CT_Int)].
Definition demo_depth (t : text) : option nat := Some 2%nat.
Definition demo_lower (table t : text) : option (option text) := Some (Some t).

Lemma compile_rules_consistent_witness :
  Forall2 (rule_valid demo_catalog demo_user_schema) [demo_source_rule] [demo_rule] /\
  NoDup (map cr_name [demo_rule]) /\ ForallOrdPairs pair_ok [demo_rule].
Proof.
  apply (compile_rules_consistent demo_depth demo_lower). vm_compute. reflexivity.
Defined.

Lemma install_marks_changes_witness :
  NoDup (map cr_name [demo_rule]) /\
  tracker_version (install cr_name tracker_default [demo_rule]).2 (cr_name demo_rule) = Some 1.
Proof.
  assert (NoDup (map cr_name [demo_rule])) as Hnd by apply NoDup_singleton. split; [exact Hnd|].
  pose proof (install_marks_changes cr_name tracker_default [demo_rule] Hnd) as Hi.
  destruct (install cr_name tracker_default [demo_rule]) as [delta t']. destruct Hi as (_ & Hv & _). cbn [snd].
  rewrite (Hv demo_rule); [vm_compute; reflexivity | apply list_elem_of_singleton; reflexivity].
Defined.

(** ** Graphs *)

Lemma splice_keeps_input_positions_witness :
  ordered_inputs (splice_above demo_graph 0 (Filter (lit "true"))).2 1 = [2%nat].
Proof.
  assert (NoDup (map fst (slots demo_graph 1))) as Hnd by apply NoDup_singleton.
  pose proof (splice_keeps_input_positions demo_graph 0 (Filter (lit "true")) 1 demo_graph_wf
    ltac:(vm_compute; lia) Hnd) as Hs.
  destruct (splice_above demo_graph 0 (Filter (lit "true"))) as [ins m'] eqn:Hsp.
  assert (ins = 2%nat) as Hins by (injection Hsp; intros _ <-; reflexivity).
  destruct Hs as (_ & _ & _ & Ho). cbn [snd]. rewrite Ho by (rewrite Hins; discriminate). rewrite Hins.
  vm_compute. reflexivity.
Defined.

Definition demo_outcome : RewriteOutcome := get_ok (rewrite demo_graph [demo_rule] demo_ctx).

Lemma rewrite_enforces_witness :
  graph_wf demo_graph /\ enforced [demo_rule] demo_ctx 2 demo_graph (ro_graph demo_outcome) 0.
Proof.
  split; [exact demo_graph_wf|].
  pose proof (rewrite_enforces demo_graph [demo_rule] demo_ctx demo_graph_wf) as Hr.
  assert (rewrite demo_graph [demo_rule] demo_ctx = Ok demo_outcome) as E by (vm_compute; reflexivity).
  rewrite E in Hr. destruct Hr as (_ & He & _). apply He. vm_compute. eexists. reflexivity.
Defined.

(** ** The router *)

Lemma router_indexes_agree_witness :
  rtc (sys_step demo_run demo_config) sys_init demo_sys /\
  exists g, subgraph_holders (sys_inner demo_sys) !! 1 = Some g /\
    entries (subgraphs (sys_inner demo_sys)) !! g =
      Some {| se_key := shared_key (pp_subscription demo_prepared);
              se_ref_count := count_key shared_key (shared_key (pp_subscription demo_prepared))
                                (by_id (registry (sys_inner demo_sys))) |}.
Proof.
  split; [exact demo_sys_reachable|].
  destruct (router_indexes_agree demo_run demo_config demo_sys demo_sys_reachable) as (_ & _ & _ & _ & Hl & _).
  apply (Hl 1 (pp_subscription demo_prepared)). vm_compute. reflexivity.
Defined.

Lemma subscribe_fails_closed_witness :
  exists e, subscribe demo_run demo_config demo_router0 (demo_request 1 None) demo_provider = (Err e, demo_router0).
Proof.
  destruct (subscribe_fails_closed demo_run demo_config demo_router0 (demo_request 1 None) demo_provider)
    as (e & He & _); [exact demo_graph_wf | reflexivity | exists 0%nat; vm_compute; reflexivity|].
  exists e. exact He.
Defined.

Definition demo_response : SubscribeResponse :=
  get_ok (subscribe demo_run demo_config demo_router0 (demo_request 1 (Some [1])) demo_provider).1.

Lemma subscribe_starts_with_snapshot_witness :
  subscribe demo_run demo_config demo_router0 (demo_request 1 (Some [1])) demo_provider = (Ok demo_response, demo_router) /\
  exists rows, queue_of demo_router 1 = Some [Ev_Initial 10 rows].
Proof.
  assert (subscribe demo_run demo_config demo_router0 (demo_request 1 (Some [1])) demo_provider =
    (Ok demo_response, demo_router)) as Hp by (vm_compute; reflexivity).
  split; [exact Hp|].
  destruct (subscribe_starts_with_snapshot demo_run demo_config _ _ _ _ _ Hp) as (_ & _ & _ & rows & _ & Hq).
  exists rows. exact Hq.
Defined.

Definition demo_diffs : list RawDiff :=
  [{| rd_table := None; rd_row := [D_I64 1]; rd_lsn := 20; rd_diff := -1 |};
   {| rd_table := None; rd_row := [D_I64 3]; rd_lsn := 20; rd_diff := 1 |}].

Definition paired_diffs : list RawDiff :=
  [{| rd_table := None; rd_row := [D_I64 1; D_Text (lit "a")]; rd_lsn := 20; rd_diff := -1 |};
   {| rd_table := None; rd_row := [D_I64 1; D_Text (lit "b")]; rd_lsn := 20; rd_diff := 1 |};
   {| rd_table := None; rd_row := [D_I64 3; D_Text (lit "c")]; rd_lsn := 20; rd_diff := 1 |}].

Definition demo_live_channel : BoundedDiffChannel := pp_channel demo_prepared.

(** An update of one row, seen by its key. *)
Lemma pair_changes_exact_witness : exists cs, @pair_changes RouterError paired_diffs [0%nat] = Ok cs /\
  news cs ≡ₚ [[D_I64 1; D_Text (lit "b")]; [D_I64 3; D_Text (lit "c")]] /\ olds cs ≡ₚ [[D_I64 1; D_Text (lit "a")]] /\
  Forall (change_keyed [0%nat]) cs.
Proof.
  destruct (@pair_changes_exact RouterError paired_diffs [0%nat] [T_I64]) as (cs & Hp & Hn & Ho & Hk & _).
  - repeat (apply Forall_cons_2; [cbn; lia|]). apply Forall_nil_2.
  - repeat (apply Forall_cons_2; [repeat constructor; eexists; (split; [reflexivity | cbn; lia])|]). apply Forall_nil_2.
  - exists cs. split; [exact Hp|]. split; [exact Hn|]. split; [exact Ho | exact Hk].
Defined.

Lemma pump_cursor_delivers_witness :
  channels demo_router !! 1 = Some demo_live_channel /\
  exists st' cur' events, pump_cursor demo_router 1 {| vc_diffs := demo_diffs |} [0%nat] = (Ok 1, cur', st') /\
    Cursor.remaining cur' = [] /\ queue_of st' 1 = Some (queued demo_live_channel ++ events) /\ length events = 1%nat.
Proof.
  assert (channels demo_router !! 1 = Some demo_live_channel) as Hc by (vm_compute; reflexivity).
  split; [exact Hc|].
  destruct (pump_cursor_delivers demo_router 1 demo_live_channel {| vc_diffs := demo_diffs |} [0%nat] Hc)
    as (st' & cur' & events & Hp & Hd & Hq & Hf & _); [vm_compute; reflexivity | vm_compute; discriminate|].
  exists st', cur', events. split; [exact Hp|]. split; [exact Hd|]. split; [exact Hq|]. apply Forall2_length in Hf. symmetry. exact Hf.
Defined.

Lemma ack_moves_forward_witness :
  exists st', ack demo_router 1 15 = (Ok (Advanced 15), st') /\ inner_wf demo_config st' /\
    watermark_of st' 1 = Some 15.
Proof.
  pose proof (ack_moves_forward demo_config demo_router 1 15 demo_router_wf) as Ha.
  assert (by_id (registry demo_router) !! 1 = Some (pp_subscription demo_prepared)) as Hs by (vm_compute; reflexivity).
  rewrite Hs in Ha. destruct Ha as (st' & Hr & Hwf & _ & Hw & _). exists st'.
  split; [exact Hr|]. split; [exact Hwf|]. exact Hw.
Defined.

Lemma disconnect_removes_connection_witness :
  inner_wf demo_config demo_router /\
  connection_subscriptions (registry (disconnect demo_router 1).2) 1 = [].
Proof.
  split; [exact demo_router_wf|].
  pose proof (disconnect_removes_connection demo_config demo_router 1 demo_router_wf) as Hd.
  destruct (disconnect demo_router 1) as [rels st']. destruct Hd as (_ & Hc & _). exact Hc.
Defined.

Lemma set_rules_resyncs_witness :
  channels demo_router !! 1 = Some demo_live_channel /\
  queue_of (set_rules demo_router []) 1 = Some (queued demo_live_channel ++ [Ev_Resync PermissionsChanged]).
Proof.
  assert (channels demo_router !! 1 = Some demo_live_channel) as Hc by (vm_compute; reflexivity).
  split; [exact Hc|]. exact (proj2 (set_rules_resyncs demo_router [] 1 demo_live_channel Hc)).
Defined.

(** * The wire path and the client *)

Definition post_schema : SchemaDefinition :=
  {| schema_id := 7;
     schema_columns := [{| cs_name := "id"; cs_datum_type := T_I64; cs_nullable := false |};
                        {| cs_name := "title"; cs_datum_type := T_Text; cs_nullable := true |}];
     primary_key_columns := [0%nat] |}.

Definition post (id : Z) (title : Datum) : Row := [D_I64 id; title].
Definition rows_before : list Row := [post 1 (D_Text (lit "a"))].
Definition rows_after : list Row := [post 1 (D_Text (lit "b")); post 2 D_Null].
Definition post_delta : QueryTransactionDelta :=
  {| qd_transaction_id := Some 9; qd_begin_lsn := Some 20; qd_commit_lsn := 21; qd_end_lsn := Some 22;
     qd_diffs := [{| rd_table := None; rd_row := post 1 (D_Text (lit "a")); rd_lsn := 21; rd_diff := -1 |};
                  {| rd_table := None; rd_row := post 1 (D_Text (lit "b")); rd_lsn := 21; rd_diff := 1 |};
                  {| rd_table := None; rd_row := post 2 D_Null; rd_lsn := 21; rd_diff := 1 |}] |}.

(** A decidable goal, by evaluation. *)
Ltac by_deciding := match goal with |- ?P => apply (proj1 (bool_decide_eq_true P)); vm_compute; reflexivity end.
Ltac sendable_row := split; [vm_compute; reflexivity | vm_compute; reflexivity | repeat constructor].

Lemma post_key_schema : key_schema post_schema.
Proof. constructor; [|constructor]. eexists. split; [reflexivity|]. split; [reflexivity|]. simpl. lia. Qed.

Lemma rows_before_ok : result_set post_schema rows_before.
Proof. split; [by_deciding|]. repeat constructor; done. Qed.

Lemma rows_after_ok : result_set post_schema rows_after.
Proof. split; [by_deciding|]. repeat constructor; done. Qed.

Lemma post_history : history post_schema rows_before [post_delta] rows_after.
Proof.
  apply history_cons with rows_after; [|constructor]. exists []. split; [reflexivity|]. split; [reflexivity|].
  exact rows_after_ok.
Qed.

(** A client that has just subscribed. *)
Definition subscribed : ConnectionTask :=
  (handle_command connection_new (Cmd_Subscribe "posts" (Q_Named "posts") ∅ (Some cache_default))).1.

Lemma client_tracks_result_witness :
  increasing 10 [post_delta] /\
  exists events ss' c', router_events post_schema [post_delta] = Ok events /\
    ct_state (receive subscribed (acceptance post_schema "posts" 10 ::
      forward "posts" 7 (Ev_Initial 10 rows_before :: events))) !! "posts"%string = Some ss' /\
    ss_cache ss' = Some c' /\ lc_rows c' = view post_schema rows_after.
Proof.
  assert (increasing 10 [post_delta]) as Hi by (simpl; lia). split; [exact Hi|].
  eapply (client_tracks_result post_schema "posts" 10 rows_before [post_delta] rows_after subscribed);
    [exact post_key_schema | exact rows_before_ok | exact post_history | exact Hi | reflexivity..].
Defined.

Lemma codec_roundtrip_witness :
  forallb (forallb datum_fits) rows_after = true /\
  exists bs, encode_rows rows_after = Ok bs /\ decode_rows bs = Ok rows_after.
Proof. split; [vm_compute; reflexivity|]. exact (codec_roundtrip rows_after eq_refl). Defined.

Definition post_registry : SchemaRegistry := {[ 7 := schema_to_proto post_schema ]}.

Lemma messages_decode_witness :
  post_registry !! 7 = Some (schema_to_proto post_schema) /\
  exists m, diff_event_to_message "posts" 7 (Ev_Initial 10 rows_after) = Some (SM_Diff m) /\
    registry_decode post_registry m = Ok (map to_wire_row rows_after).
Proof.
  split; [reflexivity|].
  destruct (messages_decode "posts" post_schema post_registry (Ev_Initial 10 rows_after) eq_refl) as (m & Hm & _ & _ & _ & Hd).
  - repeat constructor; done.
  - exists m. split; [exact Hm | exact Hd].
Defined.

Lemma backoff_schedule_witness :
  0 <= bo_initial backoff_default <= bo_max backoff_default /\
  exists ds, delays 8 (schedule backoff_default) = Ok ds /\ ds !! 7%nat = Some (5 * 10 ^ 9).
Proof.
  split; [vm_compute; split; discriminate|].
  destruct (backoff_schedule backoff_default 8) as (ds & Hds & Hl & Hd);
    [vm_compute; split; discriminate | vm_compute; discriminate | vm_compute; discriminate|].
  exists ds. split; [exact Hds|]. destruct (ds !! 7%nat) as [d|] eqn:E.
  - rewrite (Hd _ _ E). reflexivity.
  - apply lookup_ge_None_1 in E. lia.
Defined.

Definition post_inputs : list client_input :=
  [In_Command (Cmd_Subscribe "posts" (Q_Named "posts") ∅ (Some cache_default));
   In_Server (Some (acceptance post_schema "posts" 10));
   In_Command (Cmd_Ack "posts" 10)].

Lemma client_invariant_witness :
  Forall input_ok post_inputs /\
  exists s, ct_state (fold_left client_step post_inputs connection_new) !! "posts"%string = Some s /\ sub_wf s.
Proof.
  assert (Forall input_ok post_inputs) as Hok by (repeat constructor). split; [exact Hok|].
  eexists. assert (ct_state (fold_left client_step post_inputs connection_new) !! "posts"%string = Some _) as Hs
    by (vm_compute; reflexivity).
  split; [exact Hs|]. exact (client_invariant post_inputs "posts" _ Hok Hs).
Defined.

(** ** A mirror with one optimistic update *)

Definition post_mirror : Mirror := {| mi_subscription := "sub-1"; mi_vars := ∅ |}.
Definition server_rows : list WireRow := map to_wire_row rows_before.
Definition accepted_event : option ClientEvent := Some (CEv_Accepted 7 10 (schema_to_proto post_schema)).
Definition initial_event : option ClientEvent := Some (CEv_Diff 10 PO_Initial server_rows).
Definition post_mutation : Mutation :=
  Mu_Update "posts" [("id"%string, W_I64 1)] [("title"%string, W_Text (lit "mine"))].

Definition replica0 : Replica := replica_start (∅ : gmap string (gmap PrimaryKey WireRow)) true.
Definition replica1 : Replica := (pump replica0 "posts" post_mirror accepted_event).1.
Definition replica2 : Replica := (pump replica1 "posts" post_mirror initial_event).1.
Definition replica3 : Replica := (mutate replica2 post_mutation).2.
Definition images2 : gmap string (gmap PrimaryKey WireRow) := event_images replica1 ∅ "posts" initial_event.

Lemma replica_history : rtc replica_step (replica0, ∅) (replica3, images2).
Proof.
  apply rtc_l with (replica1, ∅).
  { change (∅ : gmap string (gmap PrimaryKey WireRow)) with (event_images replica0 ∅ "posts" accepted_event) at 2. apply RS_pump.
    intros spec Hs. vm_compute in Hs. discriminate Hs. }
  apply rtc_l with (replica2, images2).
  { apply RS_pump. intros spec _. change (map (key_of spec) server_rows) with [key_of spec (to_wire_row (post 1 (D_Text (lit "a"))))].
    apply NoDup_singleton. }
  apply rtc_once. apply RS_mutate. vm_compute. reflexivity.
Qed.

Lemma replica_shows_server_witness :
  images2 !! "posts"%string = Some (rows_map {| tsp_name := "posts"; tsp_schema := schema_to_proto post_schema |} server_rows) /\
  db_rows (rp_db replica3) "posts" !! [W_I64 1] = Some [W_I64 1; W_Text (lit "mine")].
Proof.
  assert (images2 !! "posts"%string =
    Some (rows_map {| tsp_name := "posts"; tsp_schema := schema_to_proto post_schema |} server_rows)) as Hi
    by (vm_compute; reflexivity).
  split; [exact Hi|].
  destruct (replica_shows_server _ _ replica3 images2 "posts" _ replica_history Hi) as (Hrows & _).
  rewrite Hrows. vm_compute. reflexivity.
Defined.

(** ** Spilling *)

Definition spill_events : list event :=
  [Segment 9 (lit "a") false; Segment 9 (lit "b") true; Segment 9 (lit "c") false; Segment 4 (lit "d") false; Segment 9 (lit "e") false; Commit 9; Commit 4].

Lemma spill_refines_lists_witness : exists q d,
  run_queue (queue_new 1 (lit "/spill")) ∅ spill_events = (q, d, [Ok [lit "a"; lit "c"; lit "e"]; Ok [lit "d"]]) /\ d = ∅.
Proof.
  destruct (spill_refines_lists (lit "/spill") 1 ∅ spill_events) as (q & d & Hrun & _ & Hd).
  - intros xid. apply lookup_empty.
  - repeat constructor; vm_compute; reflexivity.
  - exists q, d. split; [exact Hrun|]. apply Hd. vm_compute. reflexivity.
Defined.

(** ** A SQL engine for one table *)

Definition note_spec : TableSpec :=
  {| tsp_name := "notes"; tsp_schema := {| ps_columns := [{| pc_name := "id"; pc_type := 4; pc_nullable := false |}; {| pc_name := "body"; pc_type := 8; pc_nullable := true |}];
                                           ps_primary_key_columns := [0] |} |}.

(** It knows the statements of that table, and refuses a write with too few values. *)
Definition note_engine : Type := tables * option tables.
Definition note_write (e : note_engine) (f : gmap PrimaryKey WireRow -> gmap PrimaryKey WireRow) : (LocalDbError + list WireRow) * note_engine :=
  match e.2 with
  | Some v => (inr [], (e.1, Some (update_table v "notes" (f (v "notes"%string)))))
  | None => (inl (DB_Execution "no transaction"), e)
  end.
Definition note_exec (e : note_engine) (sql : text) (params : list WireDatum) (expect : option Schema) : (LocalDbError + list WireRow) * note_engine :=
  if decide (sql = lit "BEGIN") then (inr [], (e.1, Some (e.1)))
  else if decide (sql = lit "COMMIT") then (inr [], (default e.1 e.2, None))
  else if decide (sql = lit "ROLLBACK") then (inr [], (e.1, None))
  else if decide (sql = ss_sql (delete_all_statement note_spec)) then note_write e (fun _ => ∅)
  else if decide (sql = upsert_sql note_spec) then
    (if (length params <? 2)%nat then (inl (DB_Execution "missing value"), e) else note_write e (fun m => <[key_of note_spec params := params]> m))
  else if decide (sql = ss_sql (delete_statement note_spec [])) then note_write e (fun m => delete params m)
  else if decide (sql = ss_sql (select_by_key_statement note_spec [])) then (inr (option_list (e.1 "notes"%string !! params)), e)
  else (inr [], e).

#[local] Program Instance NoteEngine : SqlEngine [note_spec] :=
  {| engine := note_engine; exec_sql := note_exec; committed e := e.1; working e := e.2 |}.
Next Obligation. intros [c w] Hw. cbn in *. by subst w. Qed.
Next Obligation.
  intros [c w] spec wr v ->%list_elem_of_singleton Hw. cbn in Hw. subst w. destruct wr as [row|key].
  - cbn [write_statement upsert_statement ss_sql ss_params]. unfold note_exec.
    repeat (case_decide as E; [try (vm_compute in E; discriminate)|]); try done. destruct (_ <? _)%nat; done.
  - cbn [write_statement delete_statement ss_sql ss_params]. unfold note_exec.
    repeat (case_decide as E; [try (vm_compute in E; discriminate)|]); done.
Qed.
Next Obligation.
  intros [c w] spec v ->%list_elem_of_singleton Hw. cbn in Hw. subst w. unfold note_exec.
  repeat (case_decide as E; [try (vm_compute in E; discriminate)|]); done.
Qed.
Next Obligation. intros [c w] v Hw. cbn in Hw. by subst w. Qed.
Next Obligation. by intros [c w]. Qed.
Next Obligation.
  intros [c w] spec ->%list_elem_of_singleton Hw. cbn in Hw. subst w. unfold note_exec.
  repeat (case_decide as E; [try (vm_compute in E; discriminate)|]); done.
Qed.
Next Obligation.
  intros [c w] spec key ->%list_elem_of_singleton Hw. cbn in Hw. subst w. cbn [select_by_key_statement ss_sql ss_params]. unfold note_exec.
  repeat (case_decide as E; [try (vm_compute in E; discriminate)|]); try done. split; [done|]. split; [done|]. intros rows [= <-].
  cbn. by destruct (c "notes"%string !! key).
Qed.

Definition note (id : Z) (body : string) : WireRow := [W_I64 id; W_Text (lit body)].
Definition note_start : note_engine := ((fun _ => {[[W_I64 1] := note 1 "a"]}), None).

(** A batch whose last write fails leaves the table as it was. *)
Lemma sql_database_atomic_witness :
  let '(r, e) := sql_apply_writes (mirrored := [note_spec]) note_start note_spec [LW_Upsert (note 1 "b"); LW_Delete [W_I64 1]; LW_Upsert [W_I64 2]] in
  r = Some (DB_Execution "missing value") /\ committed (mirrored := [note_spec]) e "notes"%string = {[[W_I64 1] := note 1 "a"]}.
Proof.
  pose proof (sql_database_atomic (mirrored := [note_spec]) note_spec note_start (list_elem_of_here _ _) eq_refl) as (Hw & _).
  specialize (Hw [LW_Upsert (note 1 "b"); LW_Delete [W_I64 1]; LW_Upsert [W_I64 2]]).
  assert ((sql_apply_writes (mirrored := [note_spec]) note_start note_spec [LW_Upsert (note 1 "b"); LW_Delete [W_I64 1]; LW_Upsert [W_I64 2]]).1
          = Some (DB_Execution "missing value")) as Hr by (vm_compute; reflexivity).
  destruct (sql_apply_writes _ _ _) as [r e] eqn:E. cbn [fst] in Hr. subst r. destruct Hw as [Hc _]. split; [reflexivity|]. by rewrite Hc.
Defined.
