(* ===== verification/QueryWitnesses.v ===== *)
(** * QueryWitnesses: the query theorems at concrete inputs

    A runtime with a parser that knows three expressions, a table of three columns
    and small collections. Materialisation and
    upqueries on a query that joins a table with a common table expression. *)

From Stdlib Require Import Sorted.
From stdpp Require Import gmap.
From S2P Require Import Prelude BTree Text Values Literals UserContext Floats Datums Exprs Like Eval EvalFacts Predicates.
From S2P Require Import Consolidation Operators Relational Permissions PermissionFacts Mir RelationalFacts CompileMir.
From S2P Require Import CompileFacts Install InstallFacts QueryFacts Congruence Rewriter Enforcement Materialize Upquery Witnesses.

(** ** A runtime *)

Definition col (name : string) : Expr := E_Identifier (lit name).
Definition num (n : string) : Expr := E_Value (SV_Number (lit n)).

Definition demo_parse (sql : text) : option Expr :=
  if decide (sql = lit "a < 3 AND c IS NOT NULL") then
    Some (E_BinaryOp (E_BinaryOp (col "a") BO_Lt (num "3")) BO_And (E_IsNotNull (col "c")))
  else if decide (sql = lit "a + 1") then Some (E_BinaryOp (col "a") BO_Plus (num "1"))
  else if decide (sql = lit "a") then Some (col "a")
  else if decide (sql = lit "c <> 5") then Some (E_BinaryOp (col "c") BO_NotEq (num "5"))
  else if decide (sql = lit "NOT c = 5") then Some (E_UnaryOp UO_Not (E_BinaryOp (col "c") BO_Eq (num "5")))
  else if decide (sql = lit "coalesce(b, 7)") then Some (E_Function (lit "coalesce") (FA_List [Arg_Unnamed (col "b"); Arg_Unnamed (num "7")]))
  else None.

#[export] Instance demo_runtime : EvalRuntime.
Proof.
  refine {|
  sql_parse_expr := demo_parse;
  f64_parse _ := None;
  f32_parse _ := None;
  f64_text _ := [];
  f32_text _ := [];
  str_to_lowercase := ascii_lower;
  char_is_alphanumeric c := match c with [b] => in_range 48 57 b || in_range 65 90 b || in_range 97 122 b | _ => false end;
  json_number := unit;
  json_number_eqb _ _ := true;
  json_from_slice _ := None;
  json_value_text _ := [];
  json_str_text t := t
|}; done.
Defined.

Definition demo_schema : ScalarSchema := from_pairs [(lit "a", CT_Int); (lit "b", CT_Text); (lit "c", CT_Int)].
Definition demo_row (a : Z) (b : string) (c : Datum) : Row := [D_I64 a; D_Text (lit b); c].

(** ** Expressions *)

Definition demo_predicate : PredicateFn :=
  match compile_predicate (lit "a < 3 AND c IS NOT NULL") demo_schema with Ok p => p | _ => fun _ => Panic end.

Lemma predicate_exact_witness :
  demo_predicate (demo_row 2 "x" (D_I64 0)) = Ok true /\ demo_predicate (demo_row 2 "x" D_Null) = Ok false.
Proof.
  split.
  - exact (predicate_exact demo_schema (demo_row 2 "x" (D_I64 0)) (lit "a < 3 AND c IS NOT NULL") _ demo_predicate eq_refl eq_refl eq_refl eq_refl).
  - exact (predicate_exact demo_schema (demo_row 2 "x" D_Null) (lit "a < 3 AND c IS NOT NULL") _ demo_predicate eq_refl eq_refl eq_refl eq_refl).
Defined.

Definition demo_scalar : ScalarFn :=
  match compile_typed_scalar (lit "a + 1") demo_schema with Ok (f, _) => f | _ => fun _ => Panic end.

Lemma typed_scalar_sound_witness :
  demo_scalar (demo_row 2 "x" D_Null) = Ok (D_I64 3) /\ datum_wf (D_I64 3) = true /\ datum_has_type CT_Int (D_I64 3) = true /\
  exists g a, compile_inner demo_schema (E_BinaryOp (col "a") BO_Plus (num "1")) = Ok g /\
    g (demo_row 2 "x" D_Null) = Ok a /\ is_null (D_I64 3) = is_null a.
Proof.
  destruct (typed_scalar_sound (lit "a + 1") demo_schema demo_scalar CT_Int (demo_row 2 "x" D_Null) (D_I64 3)) as (Hwf & _ & Hall).
  - reflexivity.
  - repeat constructor.
  - reflexivity.
  - destruct (Hall _ eq_refl) as [[_ Ht] Hn]; [reflexivity | | done|].
    + intros i name ty Hs. do 3 (destruct i as [|i]; [by injection Hs as <- <-|]). done.
    + split; [reflexivity|]. split; [exact Hwf|]. split; [by apply Ht | exact Hn].
Defined.

(** ** Operators *)

Definition people : collection Row := [(demo_row 1 "ann" (D_I64 10), 1); (demo_row 2 "bob" D_Null, 2)].
Definition orders : collection Row := [([D_I64 10; D_Text (lit "tea")], 1)].

(** Weights that are not negative make a bag. *)
Lemma bag_of_list {D} `{Ord D} (c : collection D) : Forall (fun p => 0 <= p.2) c -> bag c.
Proof.
  intros Hc d. unfold mult. induction Hc as [|[x w] c Hw _ IH]; simpl in *; [done|]. destruct (ord_eqb x d); simpl; lia.
Qed.

Definition demo_out : Row := demo_row 2 "bob" D_Null ++ [D_Null; D_Null].

Lemma join_exact_witness : mult demo_out (install_join JK_Left [2%nat] [0%nat] 2 people orders) = 2.
Proof.
  rewrite (join_exact JK_Left [2%nat] [0%nat] 2 people orders [T_I64] demo_out).
  - reflexivity.
  - apply bag_of_list. repeat constructor; done.
  - repeat constructor.
  - repeat constructor.
Defined.

Definition measurements : collection (list Datum * list Datum) :=
  [(([D_Bool true], [D_I64 4]), 2); (([D_Bool true], [D_I64 (-1)]), 1); (([D_Bool true], [D_Null]), 5)].

Lemma aggregates_exact_witness :
  let column := aggregate_column 0 (group [D_Bool true] measurements) in
  evaluate_datum_aggregate (DA_Count false) column = D_I64 3 /\
  evaluate_datum_aggregate (DA_SumInt false) column = D_I64 7 /\
  exists c c', sql_compare (evaluate_datum_aggregate DA_Min column) (D_I64 4) = Some c /\ c <> Gt /\
    sql_compare (D_I64 4) (evaluate_datum_aggregate DA_Max column) = Some c' /\ c' <> Gt.
Proof.
  destruct (aggregates_exact measurements [D_Bool true] 0) as (Hc & Hs & _ & Hm).
  - apply bag_of_list. repeat constructor; done.
  - split; [rewrite Hc; reflexivity|]. split; [rewrite Hs; reflexivity|]. apply (Hm F_Int); [|done|done|done].
    intros d Hd. by destruct d.
Defined.

Lemma global_aggregate_one_row_witness :
  exists out, install_aggregate (fun _ => []) [fun row => Ok (row_get row 2)] [DA_Count false] (Some [D_I64 0]) people = Ok out /\
    out ≡ [(global_row (fun row => [row_get row 2]) [DA_Count false] [D_I64 0] people, 1)] /\ (people ≡ [] -> out ≡ [([D_I64 0], 1)]).
Proof.
  apply (global_aggregate_one_row [fun row => Ok (row_get row 2)] (fun row => [row_get row 2]) [DA_Count false] [D_I64 0] people).
  - apply bag_of_list. repeat constructor; done.
  - reflexivity.
Defined.

(** ** Recursion and sorting *)

Definition by_a (row : Row) : run (list Datum) := Ok [match row with D_I64 n :: _ => D_I64 n | _ => D_Null end].
Definition a_of (row : Row) : list Datum := [match row with D_I64 n :: _ => D_I64 n | _ => D_Null end].

Lemma by_a_ok row : key_ok by_a a_of (fun _ => F_Int) row.
Proof. split; [done|]. intros [|i]; [|done]. by destruct row as [|[] ?]. Qed.

Lemma order_by_exact_witness :
  exists listing out, StronglySorted (query_le a_of [true]) listing /\ (forall row, occurrences row listing = mult row people) /\
    install_op (NR_TopK by_a [true] 1 0) [people] = Ok out /\
    forall row, mult row out = occurrences row (take_z 1 (drop_z 0 listing)).
Proof.
  destruct (order_by_exact by_a a_of (fun _ => F_Int) [true] people) with (limit := 1) (offset := 0) as (listing & Hs & Hl & out & Ho & Hm).
  - repeat constructor; apply by_a_ok.
  - apply bag_of_list. repeat constructor; done.
  - exists listing, out. done.
Defined.

(** ** A compiled plan *)

#[local] Existing Instance ListGraph.

(** Counting up to three: a recursive query whose step takes the rows below three to their successors. *)
Definition counting_graph : MirGraph :=
  add_input (mir_add_node (add_input (mir_add_node (mir_new (RecursiveRef (lit "r"))) (Filter (lit "n < 3"))).2 0 1) (Project [])).2 1 2.
Definition counting_plan : CompiledPlan :=
  {| cp_graph := counting_graph; cp_root := 2%nat; cp_inputs := []; cp_input_schemas := ∅; cp_output_schema := schema_default;
     cp_node_schemas := ∅;
     cp_recipes := <[0%nat := NR_RecursiveRef (lit "r")]>
       (<[1%nat := NR_Filter (fun row => Ok match row with [D_I64 n] => n <? 3 | _ => false end)]>
       (<[2%nat := NR_Project (fun row => Ok match row with [D_I64 n] => [D_I64 (n + 1)] | _ => row end)]> ∅)) |}.
Definition three : list Row := [[D_I64 1]; [D_I64 2]; [D_I64 3]].
Definition below_three (row : Row) : bool := match row with [D_I64 n] => n <? 3 | _ => false end.
Definition successor (row : Row) : Row := match row with [D_I64 n] => [D_I64 (n + 1)] | _ => row end.

Lemma filter_run_filter {A} (P : A -> bool) (c : collection A) : filter_run c (fun a => Ok (P a)) = Ok (coll_filter P c).
Proof.
  assert (exec_mapM (fun p : A * Z => let? b := of_run (Ok (P p.1)) in Ok (b : bool, p)) c = (Ok (map (fun p => (P p.1, p)) c) : installed _)) as E
    by (induction c as [|p c IH]; [done|]; simpl in *; by rewrite IH).
  unfold filter_run. rewrite E. simpl. f_equal. clear E. unfold coll_filter. induction c as [|p c IH]; simpl; [done|]. destruct (P p.1); simpl; by rewrite IH.
Qed.

Lemma counting_step w : query_step counting_plan ∅ 2 ∅ w = Ok (coll_map successor (coll_filter below_three w)).
Proof.
  set (kept := coll_filter below_three w). unfold query_step. change (S (node_count _)) with 4%nat. cbn [install_step]. rewrite !lookup_empty.
  change (cp_recipes counting_plan !! 2%nat) with (Some (NR_Project (fun row => Ok (successor row)))).
  change (cp_recipes counting_plan !! 1%nat) with (Some (NR_Filter (fun row => Ok (below_three row)))).
  change (cp_recipes counting_plan !! 0%nat) with (Some (NR_RecursiveRef (lit "r"))).
  unfold install_operator. change (operator_inputs counting_plan 2 _) with (Ok [1%nat] : installed (list nat)).
  cbn [exec_bind install_all]. rewrite !lookup_empty.
  change (cp_recipes counting_plan !! 1%nat) with (Some (NR_Filter (fun row => Ok (below_three row)))). cbn [exec_bind].
  change (operator_inputs counting_plan 1 _) with (Ok [0%nat] : installed (list nat)). cbn [exec_bind install_all]. rewrite !lookup_empty.
  change (cp_recipes counting_plan !! 0%nat) with (Some (NR_RecursiveRef (lit "r"))).
  cbn [exec_bind install_op]. rewrite filter_run_filter. cbn [exec_bind install_op].
  by rewrite (project_run_map _ successor).
Qed.

Lemma counting_within w : within three w -> within three (coll_map successor (coll_filter below_three w)).
Proof.
  intros [Hb Hin]. split; [by apply bag_map, bag_filter|]. intros row Hr.
  unfold present, mult, coll_map in Hr. rewrite (total_map successor) in Hr.
  apply total_positive in Hr as (x & Hx & Hs); [|by apply bag_filter | intros x; destruct (ord_eqb _ _); simpl; lia].
  unfold present, coll_filter in Hx. rewrite mult_filter in Hx. destruct (below_three x) eqn:Ex; [|lia]. apply Hin in Hx.
  destruct (ord_eqb_spec (successor x) row) as [<-|]; [|simpl in Hs; lia].
  apply elem_of_cons in Hx as [->|Hx]; [by right; left|]. apply elem_of_cons in Hx as [->|Hx]; [by right; right; left|].
  apply list_elem_of_singleton in Hx as ->. done.
Qed.

Lemma recursion_least_fixpoint_witness :
  exists result, (forall rounds, (5 <= rounds)%nat -> install_fixpoint rounds false (query_step counting_plan ∅ 2 ∅) [([D_I64 1], 1)] = Ok result) /\
    present [D_I64 1] result.
Proof.
  destruct (recursion_least_fixpoint counting_plan ∅ (fun _ => True) 2 ∅ [([D_I64 1], 1)] three) as (result & Hr & _ & (out & _ & Hp) & _).
  - done.
  - intros n recipe _ Hn. unfold counting_plan in Hn. cbn [cp_recipes] in Hn.
    rewrite !lookup_insert_Some, lookup_empty in Hn. destruct Hn as [[_ <-]|[_ [[_ <-]|[_ [[_ <-]|[_ ?]]]]]]; try done;
      (split; [done | intros nodes _; by apply Forall_true]).
  - apply map_Forall_empty.
  - apply map_Forall_empty.
  - split; [apply bag_of_list; by repeat constructor|]. intros row Hrow. unfold present, mult, total in Hrow. cbn [foldr fst snd] in Hrow.
    destruct (ord_eqb_spec [D_I64 1] row) as [E|_]; [rewrite <- E; by left | by destruct (Z.lt_irrefl 0)].
  - intros w Hw. exists (coll_map successor (coll_filter below_three w)). split; [apply counting_step | by apply counting_within].
  - exists result. split; [exact Hr|]. apply Hp. by left.
Defined.

Definition demo_scan : MirGraph := mir_new (BaseTable (lit "t") []).
Definition demo_filtered : MirGraph := add_input (mir_add_node demo_scan (Filter (lit "a < 3 AND c IS NOT NULL"))).2 0 1.
Definition demo_graph : MirGraph :=
  set_root (add_input (mir_add_node demo_filtered (TopK [{| ok_expression := lit "a"; ok_descending := true |}] 10 0)).2 1 2) 2.

Definition demo_lookup (table : text) : option (Z * ScalarSchema) :=
  if decide (table = lit "t") then Some (7, demo_schema) else None.

(** Cycle detection by given positions: every edge goes up. *)
Definition edges_by (position : nat -> nat) (g : MirGraph) : bool :=
  forallb (fun e => (position (source e) <? position (target e))%nat && (position (target e) <=? node_count g)%nat) (pg_edges (graph g)).

Lemma edges_by_sound position : toposort_sound (edges_by position).
Proof.
  intros g Hg. exists (fun n => Nat.min (position n) (node_count g)). split; [lia|]. intros e He.
  eapply forallb_forall in Hg; [|by apply list_elem_of_In]. apply andb_true_iff in Hg as [H1%Nat.ltb_lt H2%Nat.leb_le]. lia.
Qed.

Lemma demo_query_graph_wf : graph_wf demo_graph.
Proof.
  apply set_root_wf; [|vm_compute; lia]. apply add_input_wf; [|vm_compute; lia..]. apply mir_add_node_wf.
  apply add_input_wf; [|vm_compute; lia..]. apply mir_add_node_wf, mir_new_wf.
Qed.

Definition demo_plan : CompiledPlan :=
  match compile_mir (edges_by id) demo_lookup demo_graph with
  | Ok p => p
  | _ => Build_CompiledPlan demo_graph 0 [] ∅ demo_schema ∅ ∅
  end.

Definition demo_inputs : gmap Z (collection Row) := {[ 7 := people ]}.

(** The plan reads, filters and sorts: none of its recipes can panic. *)
Lemma demo_closures n recipe : cp_recipes demo_plan !! n = Some recipe -> closures_return recipe.
Proof.
  intros Hr%elem_of_map_to_list. assert (Forall (fun p => closures_return p.2) (map_to_list (cp_recipes demo_plan))) as Hall
    by (vm_compute; repeat constructor).
  rewrite Forall_forall in Hall. exact (Hall _ Hr).
Qed.

Lemma demo_wired t s : cp_input_schemas demo_plan !! t = Some s -> exists c, demo_inputs !! t = Some c /\ width (schema_len s) c.
Proof.
  intros Hs. assert (cp_input_schemas demo_plan = {[ 7 := demo_schema ]}) as E by (vm_compute; reflexivity). rewrite E in Hs.
  apply lookup_singleton_Some in Hs as [<- <-]. exists people. split; [apply lookup_singleton_eq | repeat constructor].
Qed.

Lemma compiled_plan_runs_witness :
  exists out, install_plan demo_plan demo_inputs 1 = Ok out /\ width (schema_len (cp_output_schema demo_plan)) out.
Proof.
  apply (compiled_plan_runs (edges_by id) demo_lookup demo_graph demo_plan demo_inputs 1).
  - exact demo_query_graph_wf.
  - apply edges_by_sound.
  - intros a b t s s'. unfold demo_lookup. repeat case_decide; congruence.
  - reflexivity.
  - vm_compute. reflexivity.
  - exact demo_closures.
  - exact demo_wired.
Defined.

(** The plan's result: rows that pass the filter, each with its multiplicity. *)
Example demo_plan_result : install_plan demo_plan demo_inputs 1 = Ok [(demo_row 1 "ann" (D_I64 10), 1)].
Proof. vm_compute. reflexivity. Qed.

(** ** A guarded query *)

(** [SELECT * FROM t ORDER BY a DESC], for a user with id 3. *)
Definition guarded_graph : MirGraph :=
  set_root (add_input (mir_add_node demo_scan (TopK [{| ok_expression := lit "a"; ok_descending := true |}] 10 0)).2 0 1) 1.
Definition guard_rule : CompiledRule :=
  {| cr_name := lit "t_visible"; cr_table := lit "t"; cr_mode := Both;
     cr_predicate := {| canonical := lit "a < __palimpsest_user_id__ AND c IS NOT NULL"; user_fields := [(lit "id", tt)] |};
     cr_latest := None |}.
Definition guard_ctx : UserContext := [(lit "id", UV_Int 3)].
Definition guarded_outcome : RewriteOutcome := get_ok (rewrite guarded_graph [guard_rule] guard_ctx).

(** The filter, node 2, sits between the scan and the sort. *)
Definition guarded_position (n : nat) : nat := match n with 1%nat => 2%nat | 2%nat => 1%nat | _ => n end.
Definition guarded_plan : CompiledPlan := get_ok (compile_mir (edges_by guarded_position) demo_lookup (ro_graph guarded_outcome)).

(** The same table with a row the user may not see. *)
Definition more_people : collection Row := (demo_row 5 "eve" (D_I64 1), 1) :: people.
Definition more_inputs : gmap Z (collection Row) := {[ 7 := more_people ]}.

Lemma guarded_graph_wf : graph_wf guarded_graph.
Proof. apply set_root_wf; [|vm_compute; lia]. apply add_input_wf; [|vm_compute; lia..]. apply mir_add_node_wf, mir_new_wf. Qed.

Lemma guarded_closures n recipe : cp_recipes guarded_plan !! n = Some recipe -> closures_return recipe.
Proof.
  intros Hr%elem_of_map_to_list. assert (Forall (fun p => closures_return p.2) (map_to_list (cp_recipes guarded_plan))) as Hall
    by (vm_compute; repeat constructor).
  rewrite Forall_forall in Hall. exact (Hall _ Hr).
Qed.

Lemma guarded_wired c t s : width 3 c -> cp_input_schemas guarded_plan !! t = Some s ->
  exists c', ({[ 7 := c ]} : gmap Z (collection Row)) !! t = Some c' /\ width (schema_len s) c'.
Proof.
  intros Hc Hs. assert (cp_input_schemas guarded_plan = {[ 7 := demo_schema ]}) as E by (vm_compute; reflexivity). rewrite E in Hs.
  apply lookup_singleton_Some in Hs as [<- <-]. exists c. split; [apply lookup_singleton_eq | done].
Qed.

Lemma guarded_same_view : same_view guarded_graph [guard_rule] guard_ctx demo_lookup demo_inputs more_inputs.
Proof.
  intros i t id schema c _ Hl. unfold demo_lookup in Hl. case_decide as Ht; [|done]. injection Hl as <- <-. subst t.
  unfold demo_inputs, more_inputs. intros [_ <-]%lookup_singleton_Some. exists more_people. split; [apply lookup_singleton_eq|]. vm_compute. reflexivity.
Qed.

Lemma rules_noninterference_witness :
  exists result, install_plan guarded_plan demo_inputs 1 = Ok result /\ install_plan guarded_plan more_inputs 1 = Ok result.
Proof.
  apply (rules_noninterference (edges_by guarded_position) demo_lookup guarded_graph [guard_rule] guard_ctx guarded_outcome).
  - exact guarded_graph_wf.
  - apply edges_by_sound.
  - intros a b t s s'. unfold demo_lookup. repeat case_decide; congruence.
  - vm_compute. reflexivity.
  - vm_compute. reflexivity.
  - vm_compute. reflexivity.
  - exact guarded_closures.
  - intros t s. apply guarded_wired. repeat constructor.
  - intros t s. apply guarded_wired. repeat constructor.
  - exact guarded_same_view.
Defined.

(** * Materialisation and upqueries *)

(** ** Upqueries *)

(** Node 0 scans [posts]; 1 scans [users]; 2 refers to a CTE expanded from 1; 3
    joins 0 and 2; 4 scans a table nobody reads. *)
Definition feed_graph : MirGraph :=
  let g := mir_new (BaseTable (lit "posts") []) in
  let g := (mir_add_node g (BaseTable (lit "users") [])).2 in
  let g := (mir_add_node g (CteRef (lit "authors"))).2 in
  let g := (mir_add_node g (Join JK_Inner [])).2 in
  let g := (mir_add_node g (BaseTable (lit "drafts") [])).2 in
  let g := add_cte_expansion g 1 2 in
  let g := add_input g 0 3 in
  let g := add_input g 2 3 in
  set_root g 3.

Lemma feed_graph_wf : graph_wf feed_graph.
Proof.
  unfold feed_graph. apply set_root_wf; [|cbv; lia]. apply add_input_wf; [|cbv; lia..].
  apply add_input_wf; [|cbv; lia..]. apply add_cte_expansion_wf; [|cbv; lia..].
  do 4 apply mir_add_node_wf. apply mir_new_wf.
Qed.

Definition feed_keys : StaticPrimaryKeys :=
  static_keys_from_iter [(lit "posts", lit "id"); (lit "users", lit "id"); (lit "drafts", lit "id")].

Definition feed_request (table : string) : UpqueryRequest :=
  {| uq_table := lit table; uq_primary_key := lit "id"; uq_keys := [lit "7"] |}.

Lemma upquery_plan_exact_witness :
  plan_upquery feed_graph [lit "7"] (static_primary_key feed_keys) = Ok [feed_request "posts"; feed_request "users"] /\
  contributes feed_graph (lit "users") /\ ~ contributes feed_graph (lit "drafts").
Proof.
  split; [vm_compute; reflexivity|].
  destruct (upquery_plan_exact feed_graph [lit "7"] (static_primary_key feed_keys) feed_graph_wf) as [_ Ht].
  destruct Ht as (tables & He & _ & _ & Hc). vm_compute in He. injection He as <-.
  split; [apply Hc; right; left|].
  intros Hd. apply Hc in Hd. apply elem_of_cons in Hd as [Hd|Hd]; [discriminate Hd|].
  apply elem_of_cons in Hd as [Hd|Hd]; [discriminate Hd|]. by apply elem_of_nil in Hd.
Defined.

(** A key that tries to close the literal stays inside it. *)
Lemma to_sql_reads_back_witness :
  exists values, to_sql {| uq_table := lit "posts"; uq_primary_key := lit "id"; uq_keys := [lit "1"; lit "x') OR ('1"] |} =
    lit "SELECT * FROM posts WHERE id IN (" ++ values /\
    read_literals (length values) values = Some ([lit "1"; lit "x') OR ('1"], lit ")").
Proof.
  destruct (to_sql_reads_back {| uq_table := lit "posts"; uq_primary_key := lit "id"; uq_keys := [lit "1"; lit "x') OR ('1"] |})
    as (values & He & Hr); [discriminate|]. exists values. split; [exact He | exact Hr].
Defined.

(** ** TOAST *)

#[local] Instance no_source : PointSelect unit := {| point_select _ _ _ := None |}.

Definition toast_history : list toast_op :=
  [Op_Record 1 [x01] [D_I64 1; D_Text (lit "long")]; Op_Resolve {| cl_table := 1; cl_column := 1 |} [x02]].

Lemma resolver_follows_history_witness :
  let r := fold_left toast_step toast_history (ToastResolver_new tt) in
  (toast_resolve r {| cl_table := 1; cl_column := 1 |} [x01]).1 = TO_Cached (D_Text (lit "long")) /\
  ts_cached_hits (toast_stats r) + ts_point_select_hits (toast_stats r) + ts_misses (toast_stats r) = 1.
Proof.
  destruct (resolver_follows_history tt toast_history {| cl_table := 1; cl_column := 1 |} [x01]) as [Ho Hs].
  split; [exact Ho | apply Hs; vm_compute; discriminate].
Defined.
