(* ===== verification/ServiceWitnesses.v ===== *)
(** * ServiceWitnesses: the host, the service and the limiters at concrete inputs

    A guarded query over one table, a server with one permission rule, a subscriber
    and two transactions. *)

From stdpp Require Import gmap relations.
From S2P Require Import SqlLimits Prepared.
From S2P Require Import Prelude BTree Text Values UserContext Watermarks Shared Registry Protocol WalSource.
From S2P Require Import Channel Cursor Pairing Permissions Literals Floats Datums Exprs Like Eval Mir.
From S2P Require Import Consolidation Operators Relational RelationalFacts CompileMir Install Rewriter Router RouterInv RouterSpec.
From S2P Require Import ProtoWire Transport Client EndToEnd Security Auth Host Service ServiceFacts Connections.
From S2P Require Import Witnesses QueryWitnesses.

#[local] Existing Instance ListGraph.

(** ** The server *)

Definition ann : Row := demo_row 1 "ann" (D_I64 10).
Definition bob : Row := demo_row 2 "bob" (D_I64 4).
Definition eve : Row := demo_row 5 "eve" (D_I64 1).

Definition shop_batch : SnapshotBatch := {| sb_snapshot_lsn := 10; sb_rows := [{| st_table := 7; st_rows := [ann; eve] |}] |}.
Definition shop_wal : WalRuntime :=
  {| fetch_snapshot _ := Ok shop_batch; query_schema _ := Err "no schema"; table_schema := demo_lookup |}.
Definition shop_config : RouterConfig := {| channel_capacity := 4; backpressure := DropAndResync; default_latest_known_lsn := 1000 |}.
Definition shop_acyclic : MirGraph -> bool := edges_by guarded_position.

Definition shop_server : Server :=
  {| sv_router := set_rules router_new [guard_rule]; sv_next_subscription := 1; sv_next_schema := 1; sv_host := host_new |}.

Definition shop_subscribe (sv : Server) (client_id : string) :=
  blocking_subscribe shop_config 1 shop_acyclic shop_wal sv 1 client_id (lit "q") guarded_graph guard_ctx None.
Definition shop_outcome : SubscribeOutcome := get_ok (shop_subscribe shop_server "shop").1.
Definition shop_open : Server := (shop_subscribe shop_server "shop").2.
Definition shop_key : string := text_string (canonical_subgraph_key (lit "q") guard_ctx).
Definition shop_plan : CompiledPlan := match compile_for shop_acyclic shop_wal [guard_rule] guarded_graph guard_ctx with Ok (Some plan) => plan | _ => guarded_plan end.

(** A visible and a hidden row arrive, then the first row goes. *)
Definition shop_change (lsn : Z) (diffs : list (Row * Z)) : QueryTransactionDelta :=
  {| qd_transaction_id := None; qd_begin_lsn := None; qd_commit_lsn := lsn; qd_end_lsn := None;
     qd_diffs := map (fun d => {| rd_table := Some 7; rd_row := d.1; rd_lsn := lsn; rd_diff := d.2 |}) diffs |}.
Definition shop_changes : list QueryTransactionDelta :=
  [shop_change 11 [(bob, 1); (demo_row 6 "mal" (D_I64 1), 1)]; shop_change 12 [(ann, -1)]].

Definition shop_client : ConnectionTask :=
  (handle_command connection_new (Cmd_Subscribe "shop" (Q_Named "shop") ∅ (Some cache_default))).1.

Ltac keyed_rows := split; [by_deciding | repeat constructor; done].
Ltac result_is R := eexists; split; [vm_compute; reflexivity | exists R; split; [vm_compute; reflexivity | keyed_rows]].

Lemma shop_results :
  outputs 1 shop_plan (fun out => exists R, is_result (so_schema shop_outcome) R out)
    (snapshot_collections shop_plan (snapshot_inputs shop_batch)) (map (batch_of shop_plan) shop_changes).
Proof.
  split; [result_is [ann]|]. split; [result_is [ann; bob]|]. split; [result_is [bob]|]. exact I.
Qed.

Lemma subscription_tracks_query_witness :
  exists sv'' queue out R ss' c',
    pump_drain 1 shop_open shop_key shop_plan (primary_key_columns (so_schema shop_outcome)) shop_changes = Ok (Some sv'') /\
    queue_of (sv_router sv'') (rs_subscription_id (so_response shop_outcome)) = Some queue /\
    install_plan shop_plan (tables_after (snapshot_collections shop_plan (snapshot_inputs shop_batch)) (map (batch_of shop_plan) shop_changes)) 1 = Ok out /\
    is_result (so_schema shop_outcome) R out /\
    ct_state (receive shop_client (acceptance (so_schema shop_outcome) "shop" (rs_snapshot_lsn (so_response shop_outcome))
                         :: forward "shop" (schema_id (so_schema shop_outcome)) queue)) !! "shop"%string = Some ss' /\
    ss_cache ss' = Some c' /\ lc_rows c' = view (so_schema shop_outcome) R.
Proof.
  eapply (subscription_tracks_query shop_config 1 shop_acyclic shop_wal shop_server 1 "shop" (lit "q") guarded_graph guard_ctx shop_outcome
    shop_open shop_plan shop_key shop_batch shop_changes shop_client).
  - vm_compute. reflexivity.
  - vm_compute. reflexivity.
  - vm_compute. reflexivity.
  - reflexivity.
  - reflexivity.
  - by_deciding.
  - discriminate.
  - simpl. lia.
  - simpl. lia.
  - constructor; [|constructor]. eexists. split; [reflexivity|]. split; [reflexivity|]. simpl. lia.
  - exact shop_results.
  - vm_compute. repeat split; discriminate.
  - vm_compute. reflexivity.
  - reflexivity.
  - reflexivity.
Defined.

(** Evaluated: the subscriber sees [bob], the hidden rows never leave the server. *)
Example shop_queue :
  option_map (fun sv => queue_of (sv_router sv) 1)
    (match pump_drain 1 shop_open shop_key shop_plan [0%nat] shop_changes with Ok sv => sv | _ => None end)
  = Some (Some [Ev_Initial 10 [ann];
                Ev_TransactionUpdate None None 11 None [{| rc_op := Op_Insert; rc_old := None; rc_new := Some bob |}];
                Ev_TransactionUpdate None None 12 None [{| rc_op := Op_Delete; rc_old := Some ann; rc_new := None |}]]).
Proof. vm_compute. reflexivity. Qed.

(** ** The host *)

Definition shop_seed : gmap Z (list Row) := {[ 7 := [ann; eve] ]}.
Definition shop_before : list (list row_diff * Z) := [([(7, bob, 1)], 11)].
Definition shop_after : list (list row_diff * Z) := [([(7, bob, 1); (7, ann, -1)], 12)].

Lemma shop_bags : outputs 1 shop_plan bag (snapshot_collections shop_plan shop_seed) (shop_before ++ shop_after).
Proof.
  repeat split; (eexists; split; [vm_compute; reflexivity | apply bag_of_list; repeat constructor; discriminate]).
Qed.


(** ** The limiters *)

Definition two_per_minute : SlidingWindowSpec := {| max_attempts := 2; window := 60 * NANOS_PER_SEC |}.
Definition attempts : list (IpAddr * Z) :=
  [(V4 1, 100 * NANOS_PER_SEC); (V4 1, 110 * NANOS_PER_SEC); (V4 1, 120 * NANOS_PER_SEC); (V4 2, 120 * NANOS_PER_SEC); (V4 1, 161 * NANOS_PER_SEC)].

Lemma reconnect_window_exact_witness :
  admit_all 0 two_per_minute ∅ attempts = [Allowed; Allowed; ReconnectRateExceeded; Allowed; Allowed] /\
  admit_all 0 two_per_minute ∅ attempts = reference two_per_minute [] attempts /\
  Z.of_nat (length (within two_per_minute (V4 1) (100 * NANOS_PER_SEC) (admitted attempts (admit_all 0 two_per_minute ∅ attempts)))) <= 2.
Proof.
  split; [vm_compute; reflexivity|].
  destruct (reconnect_window_exact 0 two_per_minute) with (last := 0) (calls := attempts) as [E Hw].
  - discriminate.
  - vm_compute. repeat split; discriminate.
  - split; [exact E | exact (Hw (V4 1) (100 * NANOS_PER_SEC))].
Defined.

Definition small_limits : SecurityLimits :=
  {| max_subscriptions_per_connection := 2; subscribe_rate := {| burst := 3; refill_per_sec := f64_of_Z 8 |}; reconnect_rate := two_per_minute |}.
Definition burst_ops : list LimiterOp := [LO_Admit; LO_Admit; LO_Admit; LO_Release; LO_Admit; LO_Release; LO_Admit].

Lemma burst_exact_witness :
  limiter_run 7000000005 (limiter_new_at small_limits 5) burst_ops
  = ([Allowed; Allowed; ConnectionSaturated; Allowed; SubscribeRateExceeded], 1) /\
  Z.of_nat (length (List.filter allowed [Allowed; Allowed; ConnectionSaturated; Allowed; SubscribeRateExceeded])) <= 3.
Proof.
  pose proof (burst_exact small_limits 5 7000000005 burst_ops ltac:(simpl; lia) ltac:(simpl; lia) eq_refl) as Hb.
  assert (limiter_run 7000000005 (limiter_new_at small_limits 5) burst_ops = ([Allowed; Allowed; ConnectionSaturated; Allowed; SubscribeRateExceeded], 1)) as E
    by (vm_compute; reflexivity).
  rewrite E in Hb. destruct Hb as (_ & Hb & _). split; [exact E | exact Hb].
Defined.

(** ** A connection *)

(** Every request resolves to the guarded query. *)
Definition shop_named : NamedQueries unit := NamedQueries_default.
Definition shop_bind (_ : unit) (_ : string) (_ : gmap string ParamValue) : BindError + unit := inl (UnknownQuery []).
Definition shop_sql (_ : unit) : text := lit "q".
Definition shop_graph (_ : unit) : MirGraph := guarded_graph.
Definition shop_parse (_ : string) : SqlError + MirGraph := inr guarded_graph.
Definition shop_display (_ : RouterError) : string := "error".
Definition shop_step : Session -> Session -> Prop :=
  session_step shop_config 1 shop_acyclic shop_wal shop_sql shop_graph shop_bind shop_parse shop_display shop_named.

Definition shop_request : ProtoSubscribe :=
  {| ps_client_subscription_id := "shop"; ps_sql := "q"; ps_query_name := ""; ps_vars := ∅; ps_resume_lsn := None |}.

Lemma shop_server_wf : server_wf shop_config shop_server.
Proof.
  split; cbn; [apply set_rules_wf, router_new_wf | unfold U64_MAX; lia|]. intros id. rewrite lookup_empty. by intros [].
Qed.

Definition shop_admitted : Connection := (admission (connection_open 1 guard_ctx small_limits 5) "shop" 5).2.
Definition shop_session : Session :=
  {| se_server := shop_open; se_connection := accept shop_admitted "shop" shop_outcome; se_admitted := 0; se_registered := [] |}.

Lemma shop_reachable : rtc shop_step (session_open shop_server 1 guard_ctx small_limits 5) shop_session.
Proof.
  eapply rtc_l; [apply (N_admit _ _ _ _ _ _ _ _ _ _ _ _ _ _ "shop" 5 true shop_admitted); vm_compute; reflexivity|].
  eapply rtc_l.
  { apply (N_blocking _ _ _ _ _ _ _ _ _ _ _ _ _ _ shop_request (lit "q") guarded_graph (Ok shop_outcome) shop_open); try (vm_compute; reflexivity).
    repeat split; vm_compute; reflexivity. }
  apply rtc_once. apply (N_record _ _ _ _ _ _ _ _ _ _ _ _ _ [] "shop" shop_outcome []).
Qed.

Lemma shop_recorded : cn_by_client_id (se_connection shop_session) !! "shop"%string = Some 1.
Proof. vm_compute. reflexivity. Qed.

Lemma connection_accounts_witness :
  active (cn_limiter (se_connection shop_session))
    = Z.of_nat (se_admitted shop_session) + Z.of_nat (length (se_registered shop_session)) + Z.of_nat (size (cn_by_client_id (se_connection shop_session))) /\
  cn_by_client_id (se_connection shop_session) !! "shop"%string = Some 1 /\
  resolves (se_server shop_session) (cn_id (se_connection shop_session), "shop"%string) = Some 1.
Proof.
  destruct (connection_accounts shop_config 1 shop_acyclic shop_wal shop_sql shop_graph shop_bind shop_parse shop_display shop_named
    shop_server 1 guard_ctx small_limits 5 shop_session shop_server_wf ltac:(simpl; lia) shop_reachable) as (Ha & _ & Hr).
  split; [exact Ha|]. split; [exact shop_recorded|]. destruct (Hr _ _ shop_recorded) as [Hres _]. exact Hres.
Defined.

(** ** Tokens *)

(** A token is its text; ["alice"] names key [a], and carries a subject and teams. *)
Definition alice_claims : JsonValue Z := JV_Object [(lit "sub", JV_String (lit "alice")); (lit "teams", JV_Array [JV_Number 3; JV_Number 5])].
#[local] Instance demo_jwt : JwtRuntime :=
  {| claim_number := Z; as_i64 := Some; as_f64 _ := None; claim_document _ := lit "document";
     MetadataMap := text; authorization h := Some (Some h);
     DecodingKey := text; from_secret := id; from_rsa_pem pem := inr pem; from_ec_pem pem := inr pem; from_ed_pem pem := inr pem;
     parse_algorithm t := if decide (t = lit "RS256") then Some RS256 else None;
     parse_jwks raw := inr [(Some (lit "a"), Some (lit "RS256"), Some raw)];
     decode_header t := if decide (t = lit "alice") then inr {| th_alg := RS256; th_kid := Some (lit "a") |} else inr {| th_alg := HS256; th_kid := None |};
     decode t key v := if decide (t = lit "alice") then inr alice_claims else inl (lit "bad signature") |}.

Definition jwks_config : JwtAuthConfig :=
  {| jc_secret := None; jc_public_key_pem := None; jc_jwks := None; jc_jwks_url := Some (lit "https://issuer"); jc_algorithm := None;
     jc_issuer := Some (lit "issuer"); jc_audience := None; jc_leeway_secs := None;
     jc_claim_to_field := [(lit "sub", lit "id"); (lit "teams", lit "team_ids")] |}.
Definition jwks_now : JwksKeys :=
  {| jk_url := Some (lit "https://issuer"); jk_cached := [{| ck_kid := Some (lit "a"); ck_algorithm := Some RS256; ck_key := lit "keys" |}]; jk_last_refresh := Some 0 |}.
Definition jwks_authenticator : JwtAuthenticator :=
  {| ja_keys := K_Jwks jwks_now; ja_issuer := Some (lit "issuer"); ja_audience := None; ja_leeway_secs := 60; ja_claim_to_field := jc_claim_to_field jwks_config |}.
Definition calm : Meanwhile := {| mw_locked := id; mw_now := 0; mw_response := inl []; mw_done := 0; mw_released := id |}.

Lemma calm_honest : honest calm.
Proof. split; intros k; apply refreshed_same. Qed.

Lemma jwks_built : from_config jwks_config (inr (lit "keys")) 0 = Ok jwks_authenticator.
Proof. vm_compute. reflexivity. Qed.

Lemma authenticated_exact_witness :
  let ctx := [(lit "id", UV_Text (lit "alice")); (lit "team_ids", UV_List [UV_Int 3; UV_Int 5])] in
  authenticate jwks_authenticator (lit "Bearer alice") calm = (K_Jwks jwks_now, Ok ctx) /\
  (authenticate jwks_authenticator (lit "Bearer mallory") calm).2 = Err (InvalidToken (lit "HMAC tokens are not accepted against a JWKS")) /\
  exists claims, lifted claims (jc_claim_to_field jwks_config) (lit "id") (UV_Text (lit "alice")).
Proof.
  intros ctx. assert (authenticate jwks_authenticator (lit "Bearer alice") calm = (K_Jwks jwks_now, Ok ctx)) as Ha by (vm_compute; reflexivity).
  split; [exact Ha|]. split; [vm_compute; reflexivity|].
  destruct (authenticated_exact jwks_config jwks_authenticator (lit "Bearer alice") calm (K_Jwks jwks_now) ctx
              (serving_built _ _ _ _ jwks_built) calm_honest Ha) as (token & header & source & key & claims & _ & _ & _ & _ & _ & _ & _ & _ & Hget).
  exists claims. apply Hget. vm_compute. reflexivity.
Defined.

Definition late (now : Z) (response : text + text) : visit := {| vs_now := now * NANOS_PER_SEC; vs_response := response; vs_done := now * NANOS_PER_SEC |}.

Lemma refresh_rate_witness :
  length (fetches jwks_now [late 10 (inr []); late 31 (inr []); late 40 (inr []); late 61 (inr [])]) = 2%nat /\
  JWKS_REFRESH_MIN_INTERVAL * 2 <= 61 * NANOS_PER_SEC - 0.
Proof.
  split; [vm_compute; reflexivity|].
  apply (refresh_rate jwks_config (inr (lit "keys")) 0 (61 * NANOS_PER_SEC) jwks_authenticator jwks_now [late 10 (inr []); late 31 (inr []); late 40 (inr []); late 61 (inr [])]).
  - exact jwks_built.
  - reflexivity.
  - by eexists.
  - vm_compute. repeat split; discriminate.
  - repeat constructor; by eexists.
Defined.

(** A refresh that fails leaves the time of the last one: the next token asks again at once. *)
Example failed_refresh_unlimited n : length (fetches jwks_now (repeat (late 31 (inl (lit "unavailable"))) n)) = n.
Proof.
  induction n as [|n IH]; [reflexivity|].
  change (S (length (fetches jwks_now (repeat (late 31 (inl (lit "unavailable"))) n))) = S n). by rewrite IH.
Qed.
