(* ===== verification/PostgresWitnesses.v ===== *)
(** * PostgresWitnesses: the runtime and a subscription over it at concrete inputs

    One streamed table, seeded at LSN 10; a guarded query over it, three commits
    around the subscribe and two ticks of the pump. *)

From stdpp Require Import gmap.
From S2P Require Import Catalog.
From S2P Require Import Prelude BTree Text Values UserContext Watermarks Shared Registry Protocol WalSource.
From S2P Require Import Channel Cursor Pairing Permissions Literals Floats Datums Exprs Like Eval Mir.
From S2P Require Import Consolidation Operators Relational RelationalFacts CompileMir Install Rewriter Router RouterInv RouterSpec.
From S2P Require Import ProtoWire Transport Client EndToEnd Security Host Service ServiceFacts Congruence Postgres PostgresFacts PostgresPump.
From S2P Require Import Wire Walsender Replication ReplicationFacts.
From S2P Require Import Witnesses QueryWitnesses ServiceWitnesses.

#[local] Existing Instance ListGraph.

(** ** A runtime *)

Definition mirror_column (name : string) (oid : Z) (key : bool) : IntrospectedColumn :=
  let '(datum_type, column_type) := map_type oid "b" "N" None None None in
  {| ic_name := name; ic_type_oid := oid; ic_datum_type := datum_type; ic_column_type := column_type; ic_nullable := negb key; ic_primary_key := key |}.
Definition mirror_table : IntrospectedTable :=
  {| it_id := 7; it_namespace := "public"; it_name := "t"; it_replica_identity := Catalog.RI_Full;
     it_columns := [mirror_column "a" 20 true; mirror_column "b" 25 false; mirror_column "c" 20 false] |}.
Definition mirror_seeded : SharedState := seed_snapshot (from_tables [mirror_table] 3) 10 {[ 7 := [ann; eve] ]}.
Definition mirror_parse (_ : text) : string + MirGraph := inr guarded_graph.
Definition mirror_display (_ : CompileError) : string := "error".
Definition mirror_wal : WalRuntime := postgres_wal shop_acyclic mirror_parse mirror_display mirror_seeded.

Definition mal : Row := demo_row 6 "mal" (D_I64 1).
Definition insert_bob : Ingest := IG_Commit 11 [] [(7, Insert, None, Some bob)].
Definition mirror_history : list (list Ingest) :=
  [[IG_Commit 12 [] [(7, Update, Some eve, Some mal)]]; [IG_Commit 13 [] [(7, Delete, Some ann, None)]]].

Definition mirror_batch : SnapshotBatch := {| sb_snapshot_lsn := 10; sb_rows := [{| st_table := 7; st_rows := [ann; eve] |}] |}.
Definition mirror_cursor : JournalCursor := {| jc_next_seq := 0; jc_from_lsn := 10; jc_tables := {[ 7 ]}; jc_poisoned := false |}.
Definition mirror_opened : SharedState := ingest_all id mirror_seeded [insert_bob].

Lemma mirror_reachable : reachable id mirror_seeded.
Proof. exists [mirror_table], 3, 10, {[ 7 := [ann; eve] ]}, []. split; [lia|]. split; [exact I | reflexivity]. Qed.
Lemma mirror_before_ok : history_ok id mirror_seeded [insert_bob].
Proof. split; [|exact I]. vm_compute. reflexivity. Qed.
Lemma mirror_before_retracts : history_retracts id mirror_seeded [insert_bob].
Proof. repeat split. Qed.
Lemma mirror_history_ok : ticks_ok id mirror_opened mirror_history.
Proof.
  repeat match goal with |- _ /\ _ => split | |- True => exact I end; try (vm_compute; reflexivity); vm_compute; repeat constructor.
Qed.

Definition mirror_run := ticks id mirror_opened mirror_cursor mirror_history.
Definition mirror_final : SharedState := mirror_run.1.1.
Definition mirror_transactions : list (list QueryTransactionDelta) := mirror_run.2.

(** Evaluated: the two ticks find the three commits. *)
Example mirror_ticks : map (map qd_commit_lsn) mirror_transactions = [[11; 12]; [13]] /\ mirrored (pg_mirror mirror_final) 7 = [bob; mal].
Proof. vm_compute. split; reflexivity. Qed.

(** ** A subscription over it *)

Definition mirror_subscribe :=
  blocking_subscribe shop_config 1 shop_acyclic mirror_wal shop_server 1 "shop" (lit "q") guarded_graph guard_ctx None.
Definition mirror_outcome : SubscribeOutcome := get_ok mirror_subscribe.1.
Definition mirror_plan : CompiledPlan := match compile_for shop_acyclic mirror_wal [guard_rule] guarded_graph guard_ctx with Ok (Some plan) => plan | _ => guarded_plan end.

Lemma mirror_results :
  outputs 1 mirror_plan (fun out => exists R, is_result (so_schema mirror_outcome) R out)
    (snapshot_collections mirror_plan (snapshot_inputs mirror_batch)) (map (batch_of mirror_plan) (concat mirror_transactions)).
Proof.
  assert (concat mirror_transactions = [shop_change 11 [(bob, 1)]; shop_change 12 [(eve, -1); (mal, 1)]; shop_change 13 [(ann, -1)]]) as ->
    by (vm_compute; reflexivity).
  split; [result_is [ann]|]. split; [result_is [ann; bob]|]. split; [result_is [ann; bob]|]. split; [result_is [bob]|]. exact I.
Qed.


(** ** A cursor polled while the runtime ingests; the last commit deletes a row the mirror lost before *)

Definition poll_turns : list Turn :=
  [T_Poll; T_Ingest (IG_Commit 12 [] [(7, Update, Some eve, Some mal)]); T_Poll; T_Poll; T_Poll; T_Ingest (IG_Commit 13 [] [(7, Delete, Some eve, None)])].
Definition poll_run := turns id mirror_opened mirror_cursor [] poll_turns.


Example poll_missed : turns_missed id mirror_opened poll_turns 7 eve = 1 /\ turns_missed id mirror_opened poll_turns 7 ann = 0.
Proof. vm_compute. split; reflexivity. Qed.

(** ** A replication session *)

Definition no_float (_ : text) : option Z := None.
Definition no_display (_ : WalError) : string := "error".

(** The snapshot of the seed: 101 was still running. *)
Definition session_fence : SnapshotFence := {| sf_xmax := 105; sf_in_progress := [101] |}.
Definition wire_row (a b c : string) : list ColumnValue := [C_Text (lit a); C_Text (lit b); C_Text (lit c)].
Definition wire_table : wire_msg :=
  W_Relation 7 "public" "t" RI_Full
    (map (fun c => {| wc_flags := c.1.1; wc_name := c.1.2; wc_type_oid := c.2; wc_typmod := 0 |}) [(1, "a"%string, 20); (0, "b"%string, 25); (0, "c"%string, 20)]).
Definition streamed_txs : list StreamedTx :=
  [ {| tx_xid := 100; tx_lsn := 9; tx_end_lsn := 10; tx_timestamp := 0; tx_body := [wire_table; W_Insert 7 (wire_row "5" "eve" "1")] |};
    {| tx_xid := 101; tx_lsn := 11; tx_end_lsn := 12; tx_timestamp := 0; tx_body := [W_Insert 7 (wire_row "2" "bob" "4")] |};
    {| tx_xid := 106; tx_lsn := 13; tx_end_lsn := 14; tx_timestamp := 0;
       tx_body := [W_Update 7 (Some (OldTuple, wire_row "5" "eve" "1")) (wire_row "6" "mal" "1"); W_Delete 7 OldTuple (wire_row "1" "ann" "10")] |} ].
Definition session_items : list copy_item :=
  CI_Keepalive 8 0 true :: CI_Notice [x53] :: map (CI_XLogData 0 20 0) (stream_of streamed_txs) ++ [CI_Keepalive 20 0 true].
Definition session_bytes : text := concat (map enc_item session_items).
(** The bytes arrive in three reads, cut inside a header and inside a payload. *)
Definition session_stream : ReplicationStream :=
  {| rs_read_buf := take 3 session_bytes; rs_incoming := map inr [take 60 (drop 3 session_bytes); drop 63 session_bytes] |}.
Definition session_wakes : list Wake := W_Timer None :: replicate 13 (W_Event None) ++ [W_Timer None].

Lemma session_flows : flowing session_stream session_bytes.
Proof.
  exists [take 60 (drop 3 session_bytes); drop 63 session_bytes]. split; [reflexivity|]. split; [repeat constructor; vm_compute; discriminate|].
  vm_compute. reflexivity.
Qed.
Lemma mirror_keyed : keyed mirror_seeded.
Proof. split; vm_compute; repeat constructor. Qed.

Lemma replication_exact_witness :
  exists w done rest,
    stream_session no_float no_float no_display session_fence (session_new mirror_seeded session_stream) session_wakes = (w, None) /\
    streamed_txs = done ++ rest /\
    ap_runtime (ws_applier w) = ingest_all id mirror_seeded (map (tx_ingest no_float no_float mirror_seeded) (unseen_txs session_fence done)) /\
    ws_applied_lsn w = last_lsn 0 done /\ Forall (fun status => status.2 <= last_lsn 0 done) (ws_statuses w) /\
    ((length (filter_map item_event session_items) <= polls_events session_wakes)%nat -> rest = []).
Proof.
  apply (replication_exact no_float no_float no_display id session_fence session_items).
  - exact mirror_keyed.
  - repeat constructor; vm_compute; discriminate.
  - repeat constructor; vm_compute; discriminate.
  - vm_compute. reflexivity.
  - repeat constructor; vm_compute; discriminate.
  - vm_compute. reflexivity.
  - exact session_flows.
  - vm_compute. reflexivity.
Defined.

(** Evaluated: the first transaction is skipped, the others make the mirror; the flushed position follows them. *)
Example session_result :
  let w := (stream_session no_float no_float no_display session_fence (session_new mirror_seeded session_stream) session_wakes).1 in
  mirrored (pg_mirror (ap_runtime (ws_applier w))) 7 = [bob; mal] /\ ws_statuses w = [(0, 0); (8, 0); (20, 13); (20, 13)].
Proof. vm_compute. split; reflexivity. Qed.

Lemma events_any_reads_witness :
  exists s', events_of 14 session_stream = (map Ok (filter_map item_event session_items), s') /\ flowing s' [].
Proof.
  apply (events_any_reads 14 session_items).
  - repeat constructor; vm_compute; discriminate.
  - exact session_flows.
  - vm_compute. lia.
Defined.

Lemma fence_text_exact_witness :
  exists fence, fence_parse (snapshot_text 4294967290 4294967300 [4294967295; 4294967298]) = Some fence /\
    already_in_snapshot fence (low_32 4294967297) = bool_decide (4294967297 < 4294967300 /\ 4294967297 ∉ [4294967295; 4294967298]).
Proof.
  apply (fence_text_exact 4294967290 4294967300 [4294967295; 4294967298] 4294967297).
  - vm_compute. split; discriminate.
  - repeat constructor; vm_compute; discriminate.
  - lia.
Defined.
