(* ===== verification/FrontendWitnesses.v ===== *)
(** * FrontendWitnesses: the SQL front end and the registry at concrete inputs

    A rendering of trees, a parser that knows three texts, a template with a parameter
    and a NOT EXISTS, and a registry built from calls of its operations. *)

From stdpp Require Import gmap.
From S2P Require Import Prelude BTree Text UserContext Permissions Exprs Mir CompileMir SqlLimits SqlAst Lower LowerFacts SqlParser.
From S2P Require Import Normalize Prepared BindFacts PreparedFacts NormalizeFacts QueryWitnesses.

#[local] Existing Instance ListGraph.

(** ** A syntax *)

Definition demo_value_text (v : Value) : text :=
  match v with
  | V_Number n _ => n
  | V_SingleQuotedString s => quoted s
  | V_Placeholder name => name
  | V_Boolean b => bool_text b
  | _ => lit "?"
  end.
Definition demo_operator_text (op : BinaryOperator) : text :=
  match op with BO_Eq => lit "=" | BO_And => lit "AND" | BO_Or => lit "OR" | _ => lit "?" end.
Fixpoint demo_expr_text (e : SqlExpr) : text :=
  match e with
  | X_Identifier i => id_value i
  | X_CompoundIdentifier parts => join (lit ".") (map id_value parts)
  | X_Value v => demo_value_text v
  | X_Nested e => lit "(" ++ demo_expr_text e ++ lit ")"
  | X_BinaryOp l op r => demo_expr_text l ++ lit " " ++ demo_operator_text op ++ lit " " ++ demo_expr_text r
  | _ => lit "..."
  end.

Definition ident (s : string) : Ident := Ident_new (lit s).
Definition column (relation name : string) : SqlExpr := X_CompoundIdentifier [ident relation; ident name].
Definition equals (l r : SqlExpr) : SqlExpr := X_BinaryOp l BO_Eq r.
Definition select_from (table : string) (item selection : SqlExpr) : Query :=
  Query_ {| q_with := None;
            q_body := SE_Select {| sl_distinct := None; sl_top := false; sl_projection := [SI_UnnamedExpr item]; sl_into := false;
                                   sl_from := [{| tj_relation := TF_Table [ident table] None []; tj_joins := [] |}];
                                   sl_selection := Some selection; sl_group_by := GB_Expressions [] false; sl_having := None;
                                   sl_nonstandard := false |};
            q_order_by := None; q_limit := None; q_limit_by := []; q_offset := None; q_fetch := None |}.

(** [SELECT id FROM tickets WHERE tickets.board = <board> AND NOT EXISTS (SELECT id FROM hidden WHERE hidden.ticket = tickets.id)]. *)
Definition board_query (board : SqlExpr) : Query :=
  select_from "tickets" (X_Identifier (ident "id"))
    (X_BinaryOp (equals (column "tickets" "board") board) BO_And
       (X_Exists (select_from "hidden" (X_Identifier (ident "id")) (equals (column "hidden" "ticket") (column "tickets" "id"))) true)).
Definition board_template : Query := board_query (X_Value (V_Placeholder (lit "$1"))).
Definition board_bound : Query := board_query (X_Value (V_Number (lit "0") false)).

#[export] Instance demo_syntax : SqlSyntax :=
  {| expr_text := demo_expr_text;
     query_text _ := lit "SELECT bound";
     value_text := demo_value_text;
     ident_text := id_value;
     object_name_text name := join (lit ".") (map id_value name);
     binary_operator_text := demo_operator_text;
     unary_operator_text _ := lit "NOT";
     tokenize _ := None;
     parse_statements _ sql :=
       if bool_decide (trim sql = lit "SELECT template") then inr [S_Query board_template]
       else if bool_decide (trim sql = lit "SELECT bound") then inr [S_Query board_bound]
       else inl (OtherParserError (lit "unknown text")) |}.

Definition small_limits : QueryLimits := {| max_input_bytes := 64; max_mir_nodes := 16; max_nesting_depth := 8 |}.

(** The front end accepts a query, with the graph of its two tables. *)
Example accepted_query :
  match parse_and_lower_with_limits (lit "SELECT bound") small_limits with
  | Ok g => graph_tables g = [lit "tickets"; lit "hidden"] /\ map fst (query_reads board_bound) = [lit "tickets"; lit "hidden"]
  | _ => False
  end.
Proof. vm_compute. done. Qed.

(** ** A registry *)

Definition demo_type_text (_ : DataType) : text := lit "type".
Definition board_decl : ParamDecl := {| dc_name := lit "board"; dc_ty := CT_Int; dc_list := false; dc_nullable := false |}.

Abbreviation demo_registered := (registered demo_type_text).
Definition board_registry : QueryRegistry :=
  match register_query demo_type_text (registry_with_limits small_limits) (lit "Board") (lit "SELECT template") [board_decl] with
  | Ok r => r
  | _ => registry_with_limits small_limits
  end.

Lemma board_registered : demo_registered board_registry.
Proof.
  unfold board_registry. destruct (register_query _ _ _ _ _) as [r| |] eqn:Hr; [|apply registered_new..].
  eapply registered_one; [apply registered_new | exact Hr].
Defined.

Definition board_params : gmap string ParamValue := {["$1" := PV_Text " 7 "]}.
Definition board_result : exec BindError BoundQuery := registry_bind board_registry (lit "Board") board_params.

Lemma bound_tables_exact_witness : exists b, board_result = Ok b /\ (lit "hidden" ∈ graph_tables (bq_graph b)) /\ ~ surfaces (bq_graph b) (lit "hidden").
Proof.
  destruct board_result as [b| |] eqn:E; [|vm_compute in E; discriminate..].
  destruct (bound_tables_exact demo_type_text board_registry (lit "Board") board_params b board_registered E)
    as (p & Hp & Htables & _ & _ & Hanti).
  exists b. split; [done|]. split.
  - apply Htables. vm_compute in Hp. injection Hp as <-. cbn [pq_tables]. apply list_elem_of_In. vm_compute. auto.
  - apply Hanti. vm_compute. reflexivity.
Defined.

Lemma bind_exact_witness : exists b p rendered q,
  board_result = Ok b /\ bound_with p board_params rendered q /\ bq_sql b = query_text q /\
  registry_bind board_registry (lit "Other") board_params = Err (UnknownQuery (lit "Other")).
Proof.
  pose proof (bind_exact demo_type_text board_registry (lit "Board") board_params board_registered) as Hb.
  fold board_result in Hb. destruct board_result as [b|e|] eqn:E; [|vm_compute in E; discriminate..].
  destruct Hb as (p & rendered & q & _ & Hw & Hsql & _). exists b, p, rendered, q. split; [done|]. split; [done|]. split; [done|].
  vm_compute. reflexivity.
Defined.

(** Two blocks, one of them marked. *)
Definition board_source : text :=
  lit "-- name: Touch :exec" ++ [x0a] ++ lit "UPDATE tickets SET n = 1;" ++ [x0a] ++
  lit "-- palimpsest: live" ++ [x0a] ++ lit "-- name: Live :one" ++ [x0a] ++ lit "SELECT template" ++ [x0a].
Definition ticket_catalog : SqlCatalog :=
  catalog_new [{| ts_name := lit "tickets"; ts_columns := [{| col_name := lit "board"; col_ty := CT_Int |}; {| col_name := lit "id"; col_ty := CT_Int |}] |};
               {| ts_name := lit "hidden"; ts_columns := [{| col_name := lit "ticket"; col_ty := CT_Int |}] |}].

Lemma sqlc_registration_exact_witness :
  let '(r', answer) := register_sqlc_blocks demo_type_text board_registry board_source (lit "queries.sql") ticket_catalog true in
  answer = Ok [lit "Live"] /\ is_Some (query_get r' (lit "Live")) /\ query_get r' (lit "Board") = query_get board_registry (lit "Board").
Proof.
  pose proof (sqlc_registration_exact demo_type_text board_registry board_source (lit "queries.sql") ticket_catalog true board_registered) as Hs.
  destruct (register_sqlc_blocks demo_type_text board_registry board_source (lit "queries.sql") ticket_catalog true) as [r' answer] eqn:E.
  assert (answer = Ok [lit "Live"]) as -> by (vm_compute in E; by injection E).
  destruct Hs as (blocks & _ & _ & _ & Hin & Hout). split; [done|]. split; [apply Hin; by left|]. apply Hout.
  intros Hc%list_elem_of_singleton. vm_compute in Hc. discriminate.
Defined.

(** *** Against a catalog *)

Definition live_registry : QueryRegistry :=
  match register_full demo_type_text (registry_with_limits small_limits) (lit "Board") (lit "SELECT template") Many None (Some ticket_catalog) with
  | Ok r => r
  | _ => registry_with_limits small_limits
  end.
Definition live_query : PreparedQuery :=
  {| pq_name := lit "Board"; pq_cardinality := Many; pq_sql := lit "SELECT template";
     pq_params := [{| sp_position := 1; sp_name := lit "board"; sp_ty := CT_Int; sp_list := false; sp_nullable := false |}];
     pq_statement := board_template; pq_tables := [lit "hidden"; lit "tickets"]; pq_leaky_tables := [lit "tickets"] |}.

(** The statement that registration has checked. *)
Lemma live_checked q : checked_statement live_query q -> q = board_bound.
Proof.
  intros (rendered & [_ Hp _ -> _ _]). destruct (Hp _ (list_elem_of_here _ _)) as (key & v & e & Hv & _ & He & Hr). cbn [sp_position] in Hr.
  assert (v = PV_Int 0) as ->.
  { apply elem_of_map_to_list in Hv. vm_compute in Hv. apply list_elem_of_singleton in Hv. by injection Hv. }
  vm_compute in He. injection He as <-.
  change (board_query (default (X_Value (V_Placeholder (lit "$1"))) (rendered !! 1%nat)) = board_bound). by rewrite Hr.
Qed.

Lemma registered_tables_known_witness : exists b,
  registry_bind live_registry (lit "Board") board_params = Ok b /\ lit "hidden" ∈ graph_tables (bq_graph b) /\ is_Some (catalog_table ticket_catalog (lit "hidden")).
Proof.
  destruct (registry_bind live_registry (lit "Board") board_params) as [b| |] eqn:E; [|vm_compute in E; discriminate..].
  assert (lit "hidden" ∈ graph_tables (bq_graph b)) as Hin.
  { apply list_elem_of_In. vm_compute in E. injection E as <-. vm_compute. auto. }
  exists b. split; [done|]. split; [done|].
  apply (registered_tables_known demo_type_text (registry_with_limits small_limits) live_registry (lit "Board") (lit "SELECT template") Many None
           ticket_catalog live_query board_params b); [apply registered_new | vm_compute; reflexivity | vm_compute; reflexivity | | | exact E | exact Hin].
  - intros q st ->%live_checked Hst. vm_compute in Hst. by injection Hst.
  - intros q ->%live_checked. vm_compute. repeat constructor.
Defined.

(** [SELECT *, tickets.board + 1 AS next FROM tickets WHERE board = 3]. *)
Definition next_select (selection : SqlExpr) : Select :=
  {| sl_distinct := None; sl_top := false;
     sl_projection := [SI_Wildcard false; SI_ExprWithAlias (X_BinaryOp (column "tickets" "board") BO_Plus (X_Value (V_Number (lit "1") false))) (ident "next")];
     sl_into := false; sl_from := [{| tj_relation := TF_Table [ident "tickets"] None []; tj_joins := [] |}];
     sl_selection := Some selection; sl_group_by := GB_Expressions [X_Identifier (ident "next")] false; sl_having := None; sl_nonstandard := false |}.
Definition next_body : SetExpr := SE_Select (next_select (equals (X_Identifier (ident "board")) (X_Value (V_Number (lit "3") false)))).
Definition next_result : exec SqlError (SetExpr * QueryShape) := normalize_set_expr ticket_catalog [] scope_default next_body.

Lemma select_typed_witness : exists s' shape scope,
  next_result = Ok (SE_Select s', shape) /\ Forall2 (item_typed scope) (sl_projection s') (qs_columns shape) /\
  map col_name (qs_columns shape) = [lit "board"; lit "id"; lit "next"] /\
  sl_group_by s' = GB_Expressions [X_BinaryOp (column "tickets" "board") BO_Plus (X_Value (V_Number (lit "1") false))] false.
Proof.
  destruct next_result as [[[s'| | | | | |] shape]| |] eqn:E; try (vm_compute in E; discriminate).
  destruct (select_typed ticket_catalog [] scope_default (next_select (equals (X_Identifier (ident "board")) (X_Value (V_Number (lit "3") false)))) s' shape
    bt_wf_nil eq_refl E) as (scope & _ & Hitems & _).
  exists s', shape, scope. split; [done|]. split; [exact Hitems|]. vm_compute in E. injection E as <- <-. vm_compute. done.
Defined.

(** ** Behaviours that differ from the documentation *)

(** Parentheses are dropped from the text of a predicate: two clauses with different meanings get one text. *)
Example nested_or_text :
  let eq c v := equals (X_Identifier (ident c)) (X_Value (V_Number (lit v) false)) in
  let disjunction := X_BinaryOp (eq "a" "1") BO_Or (eq "b" "2") in
  canonical_predicate (X_BinaryOp (X_Nested disjunction) BO_And (eq "c" "3")) =
  canonical_predicate (X_BinaryOp (eq "a" "1") BO_Or (X_Nested (X_BinaryOp (eq "b" "2") BO_And (eq "c" "3")))).
Proof. vm_compute. reflexivity. Qed.

Definition with_limit (q : Query) (limit : option SqlExpr) : Query :=
  let 'Query_ r := q in Query_ {| q_with := q_with r; q_body := q_body r; q_order_by := q_order_by r; q_limit := limit; q_limit_by := q_limit_by r; q_offset := q_offset r; q_fetch := q_fetch r |}.

(** A LIMIT without ORDER BY leaves no trace in the graph. *)
Example limit_without_order :
  lower_select_statement (S_Query (with_limit board_bound (Some (X_Value (V_Number (lit "1") false))))) = lower_select_statement (S_Query board_bound).
Proof. vm_compute. reflexivity. Qed.

(** Nor does [FETCH FIRST], with or without an order. *)
Example fetch_ignored :
  let 'Query_ r := board_bound in
  let fetched := Query_ {| q_with := q_with r; q_body := q_body r; q_order_by := q_order_by r; q_limit := q_limit r; q_limit_by := q_limit_by r;
                           q_offset := q_offset r; q_fetch := Some (X_Value (V_Number (lit "1") false)) |} in
  validate_query fetched = Ok tt /\ lower_select_statement (S_Query fetched) = lower_select_statement (S_Query board_bound).
Proof. vm_compute. done. Qed.

Definition with_cte (name : string) (inner q : Query) : Query :=
  let 'Query_ r := q in
  Query_ {| q_with := Some {| with_recursive := false; with_ctes := [{| cte_alias := {| al_name := ident name; al_columns := [] |}; cte_query := inner |}] |};
            q_body := q_body r; q_order_by := q_order_by r; q_limit := q_limit r; q_limit_by := q_limit_by r; q_offset := q_offset r; q_fetch := q_fetch r |}.
Definition from_query (q : Query) : Query :=
  Query_ {| q_with := None;
            q_body := SE_Select {| sl_distinct := None; sl_top := false; sl_projection := [SI_Wildcard false]; sl_into := false;
                                   sl_from := [{| tj_relation := TF_Derived false q (Some {| al_name := ident "d"; al_columns := [] |}); tj_joins := [] |}];
                                   sl_selection := None; sl_group_by := GB_Expressions [] false; sl_having := None; sl_nonstandard := false |};
            q_order_by := None; q_limit := None; q_limit_by := []; q_offset := None; q_fetch := None |}.

(** A WITH clause below the top level is ignored: its name becomes a base table, of which the catalog need not know. *)
Example nested_with :
  let all table := select_from table (X_Identifier (ident "id")) (X_Value (V_Boolean true)) in
  let q := from_query (with_cte "mine" (all "tickets") (all "mine")) in
  validate_query q = Ok tt /\ validate_statement_against_catalog (S_Query q) ticket_catalog = Ok tt /\ catalog_table ticket_catalog (lit "mine") = None /\
  match lower_select_statement (S_Query q) with Ok g => graph_tables g = [lit "mine"] | _ => False end.
Proof. vm_compute. done. Qed.

Definition tickets_where (selection : SqlExpr) : Statement := S_Query (select_from "tickets" (X_Identifier (ident "id")) selection).
Definition accepts (statement : Statement) : Prop := validate_statement_against_catalog statement ticket_catalog = Ok tt.
Abbreviation ghost := (X_Identifier (ident "ghost")).
Abbreviation quoted_literal s := (X_Value (V_SingleQuotedString (lit s))).

(** Columns are not resolved under LIKE, CASE, IS TRUE and IS DISTINCT FROM. *)
Example unresolved_columns :
  validate_statement_against_catalog (tickets_where ghost) ticket_catalog = Err (UnknownColumn (lit "ghost")) /\
  accepts (tickets_where (X_Like false false ghost (quoted_literal "a%") None)) /\
  accepts (tickets_where (X_Case None [ghost] [ghost] None)) /\
  accepts (tickets_where (X_IsTrue ghost)) /\
  accepts (tickets_where (X_IsDistinctFrom ghost ghost)).
Proof. vm_compute. repeat split. Qed.

(** Nor are they in a HAVING clause. *)
Example unresolved_having :
  let 'Query_ r := select_from "tickets" (X_Identifier (ident "id")) (X_Value (V_Boolean true)) in
  match q_body r with
  | SE_Select s =>
      accepts (S_Query (Query_ {| q_with := None; q_order_by := None; q_limit := None; q_limit_by := []; q_offset := None; q_fetch := None;
        q_body := SE_Select {| sl_distinct := None; sl_top := false; sl_projection := sl_projection s; sl_into := false; sl_from := sl_from s;
          sl_selection := None; sl_group_by := GB_Expressions [X_Identifier (ident "id")] false; sl_having := Some ghost; sl_nonstandard := false |} |}))
  | _ => False
  end.
Proof. vm_compute. done. Qed.

(** The comparisons that BETWEEN and IN stand for are not typed. *)
Example untyped_ranges :
  let board := column "tickets" "board" in
  accepts (tickets_where (X_Between board false (quoted_literal "a") (quoted_literal "b"))) /\
  accepts (tickets_where (X_InList board [quoted_literal "a"] false)) /\
  ~ accepts (tickets_where (X_BinaryOp (X_BinaryOp board BO_GtEq (quoted_literal "a")) BO_And (X_BinaryOp board BO_LtEq (quoted_literal "b")))) /\
  ~ accepts (tickets_where (equals board (quoted_literal "a"))).
Proof. repeat split; vm_compute; done. Qed.

(** An operand of unknown type, such as a negated number, is refused in arithmetic. *)
Example unknown_operand :
  validate_statement_against_catalog
    (tickets_where (equals (X_BinaryOp (column "tickets" "board") BO_Plus (X_UnaryOp UO_Minus (X_Value (V_Number (lit "1") false)))) (X_Value (V_Number (lit "2") false))))
    ticket_catalog =
  Err (SqlTypeMismatch (lit "Plus expects numeric inputs, got Int and Unknown")).
Proof. vm_compute. reflexivity. Qed.

(** A template with a parameter of type date cannot be registered: the value that stands for it is refused. *)
Example date_parameter :
  register_query demo_type_text (registry_with_limits small_limits) (lit "Board") (lit "SELECT template")
    [{| dc_name := lit "board"; dc_ty := CT_Date; dc_list := false; dc_nullable := false |}] =
  Err (Unsupported (lit "Board") (InvalidQuery (lit "query 'Board': parameter 'board' expects date, got text"))).
Proof. vm_compute. reflexivity. Qed.

(** A third use hides a conflict between the first two. *)
Example forgotten_conflict :
  let use ty := (1%nat, known_site ty None) in
  let merged l := fold_left (fun m ps => merge_inference m ps.1 ps.2) l ∅ !! 1%nat in
  match merged [use CT_Int; use CT_Text] with Some (inl _) => True | _ => False end /\
  merged [use CT_Int; use CT_Text; use CT_Bool] = Some (known_site CT_Bool None).
Proof. vm_compute. done. Qed.

(** A dollar sign inside a name starts a quotation for the scan, which then misses the parentheses. *)
Example hidden_nesting :
  enforce_nesting_depth (lit "SELECT a$b$((((((((((1))))))))))") small_limits = Ok tt /\
  enforce_nesting_depth (lit "SELECT ab((((((((((1))))))))))") small_limits = Err (QueryTooDeep 10 8).
Proof. vm_compute. done. Qed.
