(* ===== verification/Findings.v ===== *)
(** * Findings: behaviours that differ from what the code or its docs intend

    Each example evaluates the model on an input where the outcome is not the
    documented one. *)

From stdpp Require Import gmap relations.
From S2P Require Import Prelude BTree Text Values UserContext Watermarks Shared Registry.
From S2P Require Import Protocol WalSource Spill Channel Cursor Pairing Permissions PermissionFacts Mir Rewriter.
From S2P Require Import Router RouterInv RouterSpec.
From S2P Require Import ProtoWire Transport Client EndToEnd Materialize.
From S2P Require Import Floats Datums Exprs Eval EvalFacts Operators CompileMir Install Witnesses QueryWitnesses.
From S2P Require Import Security Host Service ServiceFacts Connections ServiceWitnesses.
From S2P Require Import Catalog Wire Postgres PostgresFacts PostgresPump Walsender Replication ReplicationFacts PostgresWitnesses.

(** The sign of a negative interval reaches the hours only: minus one and a half
    hours decodes to minus half an hour. *)
Example negative_interval :
  parse_interval (lit "-01:30:00") = Ok {| months := 0; days := 0; micros := -1800000000 |}.
Proof. vm_compute. reflexivity. Qed.

(** A comma inside a quoted array element splits it. *)
Example quoted_array_comma :
  decode_text (fun _ => None) (fun _ => None) (T_Array T_Text) [x7b; x22; x61; x2c; x62; x22; x7d] =
  Ok (D_Array [D_Text [x61]; D_Text [x62]]).
Proof. vm_compute. reflexivity. Qed.

(** [BeginPrepare] has no flags byte and [RollbackPrepared] has two timestamps; both are read in the
    layout of [Prepare], the first to an error, the second to a wrong transaction id. *)
Example two_phase_layout :
  (decode_pgoutput_message no_float no_float [] (encode_message (W_BeginPrepare 16 32 7 11 "gid"))).1 <>
    Ok (E_TwoPhase (BeginPrepare 11 "gid")) /\
  (decode_pgoutput_message no_float no_float [] (encode_message (W_RollbackPrepared 0 16 32 7 9 11 "gid"))).1 <>
    Ok (E_TwoPhase (RollbackPrepared 11 "gid")).
Proof. split; vm_compute; discriminate. Qed.

(** A date cast to [timestamptz] is a timestamp without time zone, which its column's type does not encode. *)
Example date_cast_to_timestamptz :
  cast_datum (D_Date {| days_since_unix_epoch := 1 |}) CT_TimestampTz = Ok (D_Timestamp {| ts_micros_since_unix_epoch := 86400000000 |}) /\
  EvalFacts.datum_has_type CT_TimestampTz (D_Timestamp {| ts_micros_since_unix_epoch := 86400000000 |}) = false.
Proof. vm_compute. done. Qed.

(** Key columns of unsupported types all have the empty key: deleting one row and
    inserting an unrelated one is reported as an update. *)
Example numeric_key_collision :
  let numeric s := D_Numeric {| bd_text := lit s |} in
  @pair_changes RouterError
    [{| rd_table := None; rd_row := [numeric "1"%string]; rd_lsn := 5; rd_diff := -1 |};
     {| rd_table := None; rd_row := [numeric "2"%string]; rd_lsn := 5; rd_diff := 1 |}] [0%nat] =
  Ok [{| rc_op := Op_Update; rc_old := Some [numeric "1"%string]; rc_new := Some [numeric "2"%string] |}].
Proof. vm_compute. reflexivity. Qed.

(** A user field whose name contains two underscores is cut at the first pair:
    [$user.a__b] is materialised from the field [a]. *)
Example double_underscore_field :
  let schema := [(lit "a", CT_Int); (lit "a__b", CT_Int)] in
  let ctx := [(lit "a", UV_Int 1); (lit "a__b", UV_Int 2)] in
  exists encoded fields,
    encode_user_placeholders (lit "x = $user.a__b") (lit "r") schema = Ok (encoded, fields) /\
    materialize {| canonical := encoded; user_fields := fields |} ctx = Ok (lit "x = 1b__").
Proof. eexists _, _. split; vm_compute; reflexivity. Qed.

(** A rule with [latest] and the predicate [true] inserts no filter, so a query
    without a compiled plan is served raw: every version of every row. *)
Definition latest_rule : CompiledRule :=
  {| cr_name := lit "current"; cr_table := lit "posts"; cr_mode := Both;
     cr_predicate := {| canonical := lit "true"; user_fields := [] |};
     cr_latest := Some {| lt_key := [lit "id"]; lt_version := lit "version" |} |}.

Example latest_not_enforced :
  exists p, prepare demo_run demo_config [latest_rule] (demo_request 1 None) demo_provider = Ok p /\
    queued (pp_channel p) = [Ev_Initial 10 [[D_I64 1]; [D_I64 2]]] /\
    filters_inserted (ro_stats (pp_outcome p)) = 0 /\ node_count (ro_graph (pp_outcome p)) = 3%nat.
Proof. eexists. split; [vm_compute; reflexivity|]. repeat split; vm_compute; reflexivity. Qed.

(** A subscribe call that read the rules before [set_rules] and registers after it. *)
Definition race_prepared : Prepared :=
  get_ok (prepare demo_run demo_config [] (demo_request 1 None) demo_provider).

(** The system after that call has read the rules, none being installed. *)
Definition race_start : System :=
  {| sys_inner := router_new; sys_next := 2; sys_issued := ({[ 1 ]} ∪ ∅) ∖ {[ 1 ]};
     sys_inflight := <[1 := race_prepared]> ∅ |}.

Lemma race_start_reachable : rtc (sys_step demo_run demo_config) sys_init race_start.
Proof.
  pose (s1 := {| sys_inner := router_new; sys_next := 2; sys_issued := {[ 1 ]} ∪ ∅; sys_inflight := ∅ |}).
  apply (rtc_l _ _ s1); [apply (S_allocate _ _ sys_init); done|].
  apply rtc_once. apply (S_prepare demo_run demo_config s1 (demo_request 1 None) demo_provider race_prepared);
    [set_solver | vm_compute; reflexivity].
Qed.

(** There is a history, of one subscribe call interleaved with one rule change, after which the
    new rules are installed, a live stream admitted under the old rules holds unfiltered rows and no
    Resync, and the same request made afresh is refused. *)
Theorem revocation_race :
  rtc (sys_step demo_run demo_config) sys_init race_start /\
  exists s, rtc (sys_step demo_run demo_config) race_start s /\
    rules (sys_inner s) = [demo_rule] /\
    queue_of (sys_inner s) 1 = Some [Ev_Initial 10 [[D_I64 1]; [D_I64 2]]] /\
    (subscribe demo_run demo_config (sys_inner s) (demo_request 2 None) demo_provider).1 =
      Err (PermissionUnenforceable (lit "posts")).
Proof.
  split; [exact race_start_reachable|]. eexists. split.
  - eapply rtc_l; [apply (S_set_rules _ _ _ [demo_rule])|].
    apply rtc_once. apply (S_commit demo_run demo_config _ 1 race_prepared); vm_compute; reflexivity.
  - repeat split; vm_compute; reflexivity.
Qed.

(** ** The client *)

Definition item_schema : SchemaDefinition :=
  {| schema_id := 7; schema_columns := [{| cs_name := "id"; cs_datum_type := T_I64; cs_nullable := false |}];
     primary_key_columns := [0%nat] |}.
Definition item_client : ConnectionTask :=
  (handle_command connection_new (Cmd_Subscribe "items" (Q_Named "items") ∅ (Some cache_default))).1.
Definition item_session : list ServerKind :=
  acceptance item_schema "items" 10 :: forward "items" 7 [Ev_Initial 10 [[D_I64 1]; [D_I64 2]]].

(** A client that reconnects before the database has moved: the server accepts it
    again and sends the same snapshot. Acceptance clears the cache but not the last
    seen LSN, so the snapshot is taken for a replay and dropped; the cache stays
    empty. *)
Example reconnect_empties_cache :
  let rows t := ss ← ct_state t !! "items"%string; cache_len <$> ss_cache ss in
  rows (receive item_client item_session) = Some 2%nat /\
  rows (receive item_client (item_session ++ item_session)) = Some 0%nat.
Proof. split; vm_compute; reflexivity. Qed.

(** An event with an unresolved TOAST placeholder cannot be encoded; it is left out
    of the stream and nothing takes its place. *)
Example unresolved_event_dropped :
  forward "items" 7 [Ev_TransactionUpdate None None 11 None
    [{| rc_op := Op_Insert; rc_old := None; rc_new := Some [D_Unchanged] |}]] = [].
Proof. vm_compute. reflexivity. Qed.

(** ** The TOAST resolver *)

(** Always answers the value the column has upstream. *)
#[local] Instance upstream_body : PointSelect unit := {| point_select _ _ _ := Some (D_Text (lit "body")) |}.

(** An update that leaves a TOAST column alone is recorded with the placeholder,
    over the row that held the value. The placeholder is then served as a cached
    value, and the source that knows the column is not asked. *)
Example placeholder_served_from_cache :
  let r := record_row (ToastResolver_new tt) 1 [x01] [D_I64 1; D_Text (lit "body")] in
  let r' := record_row r 1 [x01] [D_I64 2; D_Unchanged] in
  let column := {| cl_table := 1; cl_column := 1 |} in
  (toast_resolve r column [x01]).1 = TO_Cached (D_Text (lit "body")) /\
  (toast_resolve r' column [x01]).1 = TO_Cached D_Unchanged /\
  point_select tt column [x01] = Some (D_Text (lit "body")).
Proof. repeat split; vm_compute; reflexivity. Qed.

(** ** Queries *)

(** Whether a compiled predicate keeps a row of the demonstration table. *)
Definition keeps (sql : string) (row : Row) : option bool :=
  match compile_predicate (lit sql) demo_schema with Ok p => match p row with Ok b => Some b | _ => None end | _ => None end.

(** In SQL both tests are unknown on a NULL and filter the row. *)
Example negated_tests_keep_nulls :
  keeps "c <> 5" (demo_row 1 "x" D_Null) = Some true /\ keeps "NOT c = 5" (demo_row 1 "x" D_Null) = Some true.
Proof. split; vm_compute; reflexivity. Qed.

(** Equal dates, timestamps and numerics are neither equal nor ordered. *)
Example temporal_values_never_equal :
  let date := D_Date {| days_since_unix_epoch := 3 |} in
  datum_eq date date = false /\ datum_cmp_bool date date is_le = D_Bool false /\ datum_cmp_bool (D_I16 1) (D_I32 2) is_lt = D_Bool false.
Proof. repeat split; vm_compute; reflexivity. Qed.

(** The order of [ORDER BY] is not transitive across integers and floats: the float
    equals both neighbours, which differ. *)
Example sort_order_not_transitive :
  let f := D_F64 (f64_to_bits (f64_of_Z (2 ^ 53))) in
  compare_datums_sort (D_I64 (2 ^ 53 + 1)) f = Eq /\ compare_datums_sort f (D_I64 (2 ^ 53)) = Eq /\ compare_datums_sort (D_I64 (2 ^ 53 + 1)) (D_I64 (2 ^ 53)) = Gt.
Proof. repeat split; vm_compute; reflexivity. Qed.

(** A column advertised as text serves an integer. *)
Example text_expression_serves_integer :
  exists f, compile_typed_scalar (lit "coalesce(b, 7)") demo_schema = Ok (f, CT_Text) /\ f [D_I64 1; D_Null; D_Null] = Ok (D_I64 7).
Proof. eexists. split; [reflexivity|]. vm_compute. reflexivity. Qed.

(** Whitespace before a quoted element is part of the element. *)
Example array_literal_keeps_space :
  parse_array_literal (lit "{1, " ++ [x22] ++ lit "a" ++ [x22] ++ lit "}") = Ok [D_I64 1; D_Text (lit " a")].
Proof. vm_compute. reflexivity. Qed.

(** [=] matches integers of different widths, a join on the same columns does not. *)
Example join_keys_compare_types :
  datum_eq (D_I32 1) (D_I64 1) = true /\ install_join JK_Inner [0%nat] [0%nat] 1 [([D_I32 1], 1)] [([D_I64 1], 1)] = [].
Proof. split; vm_compute; reflexivity. Qed.

(** A record whose weight returns to zero is not retracted by [distinct_total]. *)
Example distinct_total_keeps_zero_weight :
  distinct_total 7 [1; -1] = [(7, 1)].
Proof. vm_compute. reflexivity. Qed.

(** ** The host of compiled plans *)

#[local] Existing Instance ListGraph.

(** [SELECT * FROM t]. *)
Definition scan_plan : CompiledPlan := get_ok (compile_mir (edges_by id) demo_lookup demo_scan).
Definition host_rows (h : PersistentHost) (key : string) : option (list Row) := ps_last_output <$> h !! key.
Definition get_host {A} (r : installed (A * PersistentHost)) : PersistentHost := match r with Ok (_, h) => h | _ => host_new end.

(** A row that occurs twice is served once, by the snapshot run and by the seeded
    view; the retraction of one copy then removes the row, which still occurs. *)
Example duplicate_rows_lost :
  let seed := {[ 7 := [ann; ann] ]} in
  let h := get_host (register_or_seed 1 host_new "q" scan_plan seed 10 1) in
  snapshot_run 1 scan_plan seed = Ok [ann] /\ host_rows h "q" = Some [ann] /\
  host_rows (get_host (apply_and_fanout 1 h "q" [(7, ann, -1)] 11)) "q" = Some [] /\
  install_plan scan_plan {[ 7 := [(ann, 1); (ann, 1); (ann, -1)] ]} 1 = Ok [(ann, 1); (ann, 1); (ann, -1)].
Proof. repeat split; vm_compute; reflexivity. Qed.

(** Nothing compares a transaction with the LSN of the seed: one that the snapshot
    already contains is applied again. *)
Example snapshot_transaction_applied_twice :
  let h := get_host (register_or_seed 1 host_new "q" scan_plan {[ 7 := [ann; bob] ]} 11 1) in
  host_rows (get_host (apply_and_fanout 1 h "q" [(7, bob, 1)] 11)) "q" = Some [ann; bob; bob].
Proof. vm_compute. reflexivity. Qed.

(** A commit LSN that is not above the last one stops the worker; from then on every
    transaction yields no delta and no error, and the recorded LSN moves on. *)
Example worker_dies_silently :
  let h := get_host (register_or_seed 1 host_new "q" scan_plan {[ 7 := [ann] ]} 10 1) in
  let h := get_host (apply_and_fanout 1 h "q" [(7, bob, 1)] 12) in
  let h := get_host (apply_and_fanout 1 h "q" [(7, eve, 1)] 12) in
  let h := get_host (apply_and_fanout 1 h "q" [(7, bob, -1)] 13) in
  host_rows h "q" = Some [ann; bob] /\ (ps_last_lsn <$> h !! "q"%string) = Some 13.
Proof. split; vm_compute; reflexivity. Qed.

(** ** The service *)

(** The same server over a database whose table is empty. *)
Definition empty_wal : WalRuntime :=
  {| fetch_snapshot _ := Ok {| sb_snapshot_lsn := 10; sb_rows := [{| st_table := 7; st_rows := [] |}] |};
     query_schema _ := Err "no schema"; table_schema := demo_lookup |}.

(** A subscription to an empty table is accepted as hosted, but its plan is never
    registered: the pump exits at its first tick and no change is ever delivered. *)
Example empty_table_never_updates :
  let r := blocking_subscribe shop_config 1 shop_acyclic empty_wal shop_server 1 "shop" (lit "q") guarded_graph guard_ctx None in
  match r with
  | (Ok outcome, sv) =>
      so_host_canonical outcome = Some shop_key /\ queue_of (sv_router sv) 1 = Some [Ev_Initial 10 []] /\
      host_subscribers (sv_host sv) shop_key = None /\ pump_tick 1 sv shop_key shop_plan [0%nat] shop_changes = Ok None
  | _ => False
  end.
Proof. vm_compute. repeat split. Qed.

(** A refused duplicate stays on the fan-out list of the plan it attached to. *)
Example duplicate_leaves_phantom :
  match shop_subscribe shop_open "shop" with
  | (Err (RouterFailed DuplicateClientSubscriptionId), sv) => host_subscribers (sv_host sv) shop_key = Some [1; 2]
  | _ => False
  end.
Proof. vm_compute. reflexivity. Qed.

(** Two first subscribers race: the second looked for a plan before the first
    registered it and took its snapshot at the same LSN, but registers after the
    next transaction went through the plan. It is attached without that change. *)
Definition race_request : SubscribeRequest :=
  {| rq_connection := 2; rq_subscription_id := 2; rq_client_id := "late"; rq_query := lit "q"; rq_query_graph := guarded_graph;
     rq_user_ctx := guard_ctx; rq_schema := so_schema shop_outcome; rq_resume_lsn := None; rq_compiled_plan := Some shop_plan;
     rq_prerun_initial := None |}.
Example racing_subscriber_misses_change :
  match pump_drain 1 shop_open shop_key shop_plan [0%nat] (take 1 shop_changes) with
  | Ok (Some sv) =>
      let '(answer, router) := subscribe (router_snapshot_run 1) shop_config (sv_router sv) race_request (fetch_snapshot shop_wal) in
      let '(_, sv) := after_subscribe 1 (with_router sv router) (Some shop_plan) (Some shop_key) (so_schema shop_outcome) 2 answer in
      host_rows (sv_host sv) shop_key = Some [ann; bob] /\ host_subscribers (sv_host sv) shop_key = Some [1; 2] /\
      queue_of (sv_router sv) 2 = Some [Ev_Initial 10 [ann]]
  | _ => False
  end.
Proof. vm_compute. repeat split. Qed.

(** A subscribe that finishes after its connection was torn down stays registered. *)
Example subscribe_outlives_connection :
  let sv := (shop_subscribe (teardown shop_server (connection_open 1 guard_ctx small_limits 5)) "shop").2 in
  connection_subscriptions (registry (sv_router sv)) 1 = [1] /\ host_subscribers (sv_host sv) shop_key = Some [1].
Proof. split; vm_compute; reflexivity. Qed.

(** ** The limiters *)

(** A rejected subscribe refills the bucket. *)
Example rejection_changes_bucket :
  let limits := {| max_subscriptions_per_connection := 9; subscribe_rate := {| burst := 1; refill_per_sec := f64_div (f64_of_Z 1) (f64_of_Z 2) |};
                   reconnect_rate := two_per_minute |} in
  let l := (admit_subscribe_at (limiter_new_at limits 0) 0).2 in
  let '(d, l') := admit_subscribe_at l NANOS_PER_SEC in
  d = SubscribeRateExceeded /\ tokens (bucket l) = S754_zero false /\ tokens (bucket l') = f64_div (f64_of_Z 1) (f64_of_Z 2).
Proof. vm_compute. repeat split. Qed.

(** Within a window of the earliest instant the tracker forgets every attempt. *)
Example early_attempts_unlimited :
  admit_all 0 two_per_minute ∅ (map (fun s => (V4 1, s * NANOS_PER_SEC)) [1; 2; 3; 4]) = [Allowed; Allowed; Allowed; Allowed].
Proof. vm_compute. reflexivity. Qed.

(** ** The Postgres runtime *)

(** A transaction inserts a row and then truncates the table: the table is empty,
    the mirror keeps the row. *)
Definition fold_events (fence : SnapshotFence) (st : SharedState) (events : list DecodedEvent) : SharedState :=
  ap_runtime (fold_left (fun a e => (apply_event fence a e).2) events {| ap_runtime := st; ap_catalog := introspected_catalog st; ap_pending := None |}).
Example truncate_applied_first :
  let st := fold_events session_fence mirror_seeded
    [E_Begin 106 11; E_Row 7 Insert None (Some bob); E_Truncate {| tr_tables := [7]; tr_cascade := false; tr_restart_identity := false |}; E_Commit 11 12] in
  mirrored (pg_mirror st) 7 = [bob].
Proof. vm_compute. reflexivity. Qed.

(** A column that changes its type keeps its name, so the drift check lets it pass
    and rows go on being decoded at the old type. *)
Example type_drift_undetected :
  let retyped := map (fun c => {| wc_flags := c.1.1; wc_name := c.1.2; wc_type_oid := c.2; wc_typmod := 0 |}) [(1, "a"%string, 25); (0, "b"%string, 25); (0, "c"%string, 25)] in
  let '(r, a) := apply_frame no_float no_float no_display session_fence
    {| ap_runtime := mirror_seeded; ap_catalog := introspected_catalog mirror_seeded; ap_pending := None |}
    (encode_message (W_Relation 7 "public" "t" RI_Full retyped)) in
  r = Ok None /\ ap_catalog a = introspected_catalog mirror_seeded.
Proof. vm_compute. split; reflexivity. Qed.

(** A session that outlives half the transaction id space skips what follows. *)
Example fence_expires :
  already_in_snapshot {| sf_xmax := 105; sf_in_progress := [] |} (low_32 (105 + 2 ^ 31)) = true.
Proof. vm_compute. reflexivity. Qed.

(** The rows of a snapshot are read before its clock: a commit in between is in
    neither the snapshot nor what the cursor returns. *)
Example snapshot_clock_race :
  let rows := snapshot_rows mirror_seeded [mirror_table] in
  let lsn := pg_clock mirror_opened in
  map st_rows rows = [[ann; eve]] /\ mirrored (pg_mirror mirror_opened) 7 = [ann; eve; bob] /\
  match open_cursor mirror_parse mirror_opened (lit "q") lsn with
  | Ok c => (cursor_next_diff (pg_journal mirror_opened) c).1 = None
  | _ => False
  end.
Proof. vm_compute. repeat split. Qed.

(** A commit stores its clock after the rows: a snapshot in between holds the rows
    at the old clock, and the cursor returns them again. *)
Example commit_clock_race :
  let st := with_data mirror_seeded (apply_change 11 (pg_mirror mirror_seeded, pg_journal mirror_seeded) (7, Insert, None, Some bob)) in
  match pg_fetch_snapshot mirror_parse st (lit "q"), open_cursor mirror_parse st (lit "q") 10 with
  | Ok batch, Ok c =>
      sb_snapshot_lsn batch = 10 /\ map st_rows (sb_rows batch) = [[ann; eve; bob]] /\
      (rd_row <$> (cursor_next_diff (pg_journal st) c).1) = Some bob
  | _, _ => False
  end.
Proof. vm_compute. repeat split. Qed.

(** A transaction still running at the snapshot commits before the position the
    snapshot reports: its change enters the mirror but no cursor returns it, and
    the clock goes back. *)
Example commit_below_snapshot_lsn :
  let st := ingest id mirror_seeded (IG_Commit 9 [] [(7, Insert, None, Some bob)]) in
  pg_clock st = 9 /\ mirrored (pg_mirror st) 7 = [ann; eve; bob] /\
  match open_cursor mirror_parse mirror_seeded (lit "q") 10 with
  | Ok c => (cursor_next_diff (pg_journal st) c).1 = None
  | _ => False
  end.
Proof. vm_compute. repeat split. Qed.

(** A query that names a table both ways gets it twice: the first rows are those
    of a single copy, the plan is seeded with two. *)
Example table_named_twice :
  match resolve_tables mirror_seeded [lit "t"; lit "public.t"] [] with
  | Ok tables =>
      let batch := {| sb_snapshot_lsn := 10; sb_rows := snapshot_rows mirror_seeded tables |} in
      snapshot_inputs batch !! 7 = Some [ann; eve] /\ group_seed (snapshot_to_seed_updates batch) !! 7 = Some [ann; eve; ann; eve]
  | _ => False
  end.
Proof. vm_compute. split; reflexivity. Qed.

(** A database that accepts snapshots but ends every session at once is polled at
    the smallest delay, with a full snapshot each time. *)
Example backoff_never_grows :
  let attempt := {| at_snapshot := Some (20, session_fence, {[ 7 := [ann] ]}); at_stream := inl (lit "slot is active"); at_wakes := [] |} in
  task_delays (ingest_task no_float no_float no_display id
    {| task_runtime := mirror_seeded; task_fence := session_fence; task_backoff := reconnect_default; task_first_attempt := true; task_delays := [] |}
    [attempt; attempt; attempt; attempt]).1 = [100; 100; 100].
Proof. vm_compute. reflexivity. Qed.

(** ** Spilled segments *)

Definition seg (s : string) : segment := lit s.
Abbreviation spill_9 := (spill_path (lit "/tmp") 9).

(** A segment that finds room in the channel overtakes the ones of its transaction that were spilled. *)
Example spilled_overtaken :
  let '(q, d, answer) := push_stream_segment (queue_new 4 (lit "/tmp")) 9 (seg "first") ∅ SO_Full true WO_Done in
  push_stream_segment q 9 (seg "second") d SO_Sent true WO_Done = (q, d, Ok tt) /\
  (drain_spilled_on_commit q 9 d RO_Done).2 = Ok [seg "first"].
Proof. vm_compute. done. Qed.

(** A file left behind by an earlier process is read as part of the next transaction of that number. *)
Example stale_spill :
  (run_queue (queue_new 0 (lit "/tmp")) {[spill_9 := Spill.frame (seg "stale")]} [Segment 9 (seg "new") false; Commit 9]).2 = [Ok [seg "stale"; seg "new"]].
Proof. vm_compute. reflexivity. Qed.

(** A write that fails midway tears the file: the drain then succeeds with other segments than were pushed. *)
Example torn_spill :
  let '(q, d, answer) := push_stream_segment (queue_new 0 (lit "/tmp")) 9 (seg "lost") ∅ SO_Full true (WO_Failed 2) in
  answer = Err Io /\
  let '(q, d, answer) := push_stream_segment q 9 (seg "x") d SO_Full true WO_Done in
  answer = Ok tt /\ (drain_spilled_on_commit q 9 d RO_Done).2 = Ok [[]].
Proof. vm_compute. repeat split. Qed.
